(* ===== verification/_CoqProject ===== *)
-Q . S2P
Prelude.v
Sequences.v
Domain.v
Rows.v
Store.v
Leases.v
Events.v
Environments.v
Attempts.v
Jobs.v
Recovery.v
Lifecycle.v
Refinement.v
System.v
Safety.v
Fencing.v
EventLog.v
EnvironmentLaws.v
Progress.v
Outcomes.v
Runner.v
RunnerLaws.v
StageOutput.v
StageOutputLaws.v
Serde.v
ProviderTools.v
AgentState.v
WorkGraph.v
AgentTools.v
Stages.v
StateDocument.v
StateBackend.v
Checkpoint.v
Executor.v
Keeps.v
EnvironmentWork.v
Operation.v
AgentDemo.v
AgentLaws.v
AgentWorlds.v
ReviewLaws.v
StateDocumentLaws.v
StateBackendLaws.v
CheckpointLaws.v
ExecutorLaws.v
TaskShape.v
Discipline.v
OperationDemo.v
OperationLaws.v
EnvironmentWorkLaws.v
ResponseStream.v
ChatBridge.v
AnthropicBridge.v
BridgeServer.v
ProviderToolsLaws.v
StreamLaws.v
BridgeLaws.v
BridgeFidelity.v
BridgeRequests.v
AttemptEvents.v
AttemptEventsLaws.v
Subagents.v
SubagentsLaws.v
Artifacts.v
ArtifactsLaws.v
PublicationLaws.v
Session.v
SessionLaws.v
Git.v
Worktrees.v
WorktreeLaws.v
SnapshotLaws.v
EnsureLaws.v
Http.v
HttpLaws.v
Docker.v
DockerLaws.v
Kubernetes.v
KubernetesLaws.v
Context.v
