(* ===== verification/Prelude.v ===== *)
(** * Software Factory, verified

    Software Factory runs coding tasks as durable jobs.  Its own code is the Rust
    workspace under [src/factory-harness/factory] (paths below are relative to it);
    [codex-rs] next to it is the agent runtime it embeds.

    ** The program and this library

    A _job_ is a sequence of _operations_ (the stages plan, execute, review and
    remediate, then rounds of iterate, review and remediate).  Clients create,
    continue and cancel jobs; workers claim an operation as an _attempt_ under a
    lease, run it and settle it.  All durable state is in one PostgreSQL database.
    While a stage runs, a Codex session works in a managed worktree; its agent keeps
    a _Factory state_ (work units, review, remediations) through tools, and the
    stage completes when that state fulfils the contract of the stage.  The session
    talks to its model through a bridge that translates between the Responses API
    and the provider's own.

    The coordinator, [coordinator/src]:
    - [Domain], [Rows]: [domain.rs], [error.rs], [correlation.rs], [ids.rs],
      [rows.rs]; states, records, errors, table rows and their conversions.
    - [Store]: the tables of [schema.rs] as the record [db], helpers of [store.rs].
    - [Leases], [Attempts]: [store/attempts.rs]; [Events]: [store/events.rs];
      [Environments]: [store/environments.rs]; [Jobs]: [store/jobs.rs];
      [Recovery]: [store/recovery.rs].  One definition per store method.
    - [System]: every store call as a constructor of [Call], [exec] runs one,
      [reachable] are the databases any sequence of calls can produce.
    - [Runner]: [runner.rs], one worker as a state machine over its await points.
    - [StageOutput]: [stage_output.rs], stage answers rebuilt from the event log.
    - [Artifacts]: [artifacts.rs], the files a job's outputs are rendered to.
    - [Git], [Worktrees]: [workspace.rs] with the locks of
      [store/workspace_locks.rs]: the cache of a repository, the worktree of a job,
      the snapshots taken around a review, every command given to [git].
    - [Http]: [http.rs], every route with its handler over the store, the worktrees
      and the artifacts, and the records on the wire.

    The agent's side, [extension/src]:
    - [AgentState]: [model.rs], [limits.rs]; [AgentTools]: [stage.rs], [state.rs],
      [backend.rs], [tools.rs] and the thread lifecycle of [lib.rs];
      [StateDocument]: [state_document.rs]; [Serde]: the derived JSON codecs.
    - [StateBackend]: [factoryd.rs] together with the thread-state routes of the
      coordinator's [http.rs], the backend the tools store their state through.
    - [Subagents]: [subagents.rs], what agents do to other agents.
    - [Context]: [context.rs], what of the state an agent is shown.
    - [WorkGraph]: the cycle check of [tools.rs] and [runtime/src/stages.rs].

    The worker's side, [runtime/src]:
    - [Stages]: [stages.rs]; [Checkpoint]: [checkpoint.rs] and the decisions of
      [executor/resume.rs]; [Executor]: [executor/stage_loop.rs] with the helpers it
      calls; [Operation]: the operation around it, of [executor/mod.rs] and
      [executor/task.rs]; [TaskShape]: the shape of a task's input.
    - [EnvironmentWork]: the environments of a worker, of [executor/mod.rs].
    - [AttemptEvents]: [events.rs], the notifications of a turn as job events.
    - [Artifacts] also holds [executor/artifacts.rs], settled outputs as files.
    - [Docker], [Kubernetes]: [execution_environment.rs], [kubernetes_pod.rs] and
      [kubernetes_execution_environment.rs], the two backends that provide the
      container or the Pod an operation runs in.
    - [Session]: [session.rs], one Codex session: its thread, its turns, the wait for
      a turn, cancellation and shutdown.

    The bridge to the models, [providers/src]:
    - [ProviderTools]: [profiles.rs], [tools.rs]; [ResponseStream]:
      [response_stream.rs], [responses.rs]; [ChatBridge]: [chat.rs];
      [AnthropicBridge]: [anthropic.rs]; [BridgeServer]: the selection, the request
      and the stream loop of [server.rs], [sse.rs], [config.rs].

    ** How the code is translated

    A Rust function is a Rocq function of the same name.  [Result] is [result], the
    [?] operator is the monadic bind; a call with effects is a [proc], a function
    from the world to a result and a world, which keeps what was committed before an
    error.  A store method is one transaction, or a transaction followed by reads
    and, for a continuation, one event: transactions are serialised and roll back on
    error, as PostgreSQL does with the row locks the code takes.  The clock reading
    [now] (microseconds) and every drawn UUID are arguments of the call.  Rows that
    other transactions hold ([SKIP LOCKED]) are the argument [locked]; ties that
    PostgreSQL may order freely are resolved by table order in the definitions, and
    the theorems on claims do not depend on it.  Counters keep their width: an [i32]
    or [u64] conversion fails or wraps or saturates where the code's does.  Texts
    are UTF-8 byte strings; error messages are lists of parts, so that two messages
    are equal exactly when the code would format the same parts.

    Code that is not in the repository is a parameter: the JSON reader of tool
    arguments ([JsonText]) and the texts of its errors ([DecodeText], [ErrorText]),
    JSON text ([JsonCodec], [Rendering]), HTTP texts ([HttpText]), the parser of
    patches ([PatchParser]), UUIDs ([UuidSource]), digests ([Sha256]), the iteration
    order of hash maps ([HashOrder], any permutation), the text of database errors
    ([CoordinatorText]), the file system ([ArtifactFiles], with [FileLaws]), the
    app-server of a session ([AppServer], [SessionText]; [AppServerTrace] reads the
    calls off the world), [git] as a process ([GitProcess]; [GitLaws] states what the
    commands the code runs do to the commit, the branch, the index and the files of a
    worktree), the files of a worktree ([WorkspaceFiles]), the advisory locks and the
    gate ([WorkspaceLocks]; [ManagerLaws]: all of these leave the database to the
    store calls of others), the Docker engine and the API server of Kubernetes
    ([DockerEngine], [KubeApi], with the texts of their errors; [DockerTrace] and
    [KubeTrace] read the requests and answers off the world), the clock and timeouts
    ([Timers], with [TimerLaws]), UUID text ([UuidText], with [UuidLaws]), the length
    of JSON text ([JsonSize]), and what the HTTP library decides ([HttpLibrary]).

    Components talk through classes, and a client's theorems are proved against
    the class: the tools and the executor through [FactoryStateBackend] (with
    [BackendLaws] what a backend promises; [StateBackendLaws] shows that the HTTP
    backend keeps the promise), the executor through [StageHost] and the operation
    through [OperationHost] to the session, the store and the worktree, the
    environments through [EnvironmentHost] (with [StoreHostLaws]: a store call lands
    between everybody else's, or is lost), the events of an attempt through
    [EventSink] (with [EventSinkLaws], which the store's log satisfies), sub-agent
    activity through [ActivityArchive] (with [ArchiveLaws], which [SubagentsLaws]
    discharges for the HTTP backend).  [Discipline] is the
    protocol of locks and sessions an operation's calls must follow.  The theorems
    hold for every host.  [Docker] and [Kubernetes] are instances of
    [EnvironmentHost]; the HTTP surface reaches the store through the same class and
    [ApiHost] (with [ApiHostLaws]).  The derived serde codecs follow the attributes
    written in the source.

    ** What is proved

    - [Lifecycle], [Refinement], [Safety]: jobs, operations and attempts form an
      abstract transition system; every store call refines it; one live fence per
      job, final states stay final, attempts stay within their limit, every
      reachable database is well formed.
    - [Fencing], [Progress]: a stale fence changes nothing and never
      becomes live again; claims are sound and complete, resume from the latest
      checkpoint, and every active job is claimable from some time on.
    - [Outcomes], [EventLog], [EnvironmentLaws]: the effect of settlement,
      cancellation and continuation on every branch, the event log, the
      life of an execution environment, the invariants of the other tables.
    - [RunnerLaws]: the worker beside everybody else's calls: harmless after its
      lease is lost, executor always joined, every attempt returns.
    - [StageOutputLaws]: the reducer against a declarative reading of the log.
    - [AgentLaws], [ReviewLaws], [AgentWorlds]: the checks of a decomposition are
      exact, work units can always be finished, reviews roll back exactly,
      remediations answer findings, updates are written through, and no sequence of
      tool calls breaks the work-unit invariant.
    - [StateDocumentLaws], [CheckpointLaws]: round trips of the state document and
      of checkpoints, refusal of malformed ones, the exact resume point.
    - [StateBackendLaws]: a save over HTTP stores exactly the state, under the live
      lease of its fence, and a tool call changes what is stored only so.
    - [ExecutorLaws], [OperationLaws]: the remediation loop returns, a stage
      completes only from a stored state that fulfils its contract, a failed stage is
      undone, and locks and sessions are held when needed and given back.
    - [EnvironmentWorkLaws]: reconciliation tries every pending release, and an
      operation runs only in an environment recorded ready under its lease.
    - [AttemptEventsLaws]: the streamed text of a turn is in the log byte for byte.
    - [SessionLaws]: the calls of a session follow one protocol, and waiting returns
      a turn only when exactly that turn completed.
    - [SubagentsLaws]: recording an activity loses none: each is in the bounded
      state of the thread or in the archive.
    - [HttpLaws]: requests are calls of the store and nothing else, the routes over
      the store answer as at one moment, a patch is handed out only as the labelled
      result of a succeeded job.
    - [Context], second half: the text an agent is shown always fits its limit, and
      what it leaves out it says it leaves out.
    - [DockerLaws], [KubernetesLaws]: an environment that is provided is confined to
      the two directories of its job and to the image, user and network configured,
      containers and Pods of nobody else are touched, every wait ends, and the place
      of a Pod does not move with the worker's configuration.
    - [ArtifactsLaws], [PublicationLaws]: files are replaced as a whole, what is
      published is the reduction of all events of the job, and the result last.
    - [SnapshotLaws], [EnsureLaws]: a restored review snapshot is exact, a detected
      change is never forgotten, and a worktree that is materialized again keeps the
      binding of its job.
    - [ProviderToolsLaws], [StreamLaws], [BridgeLaws],
      [BridgeFidelity], [BridgeRequests]: tool names resolve back, whatever a
      provider streams the client sees one well-formed answer, the answer holds
      exactly what was streamed, and a request keeps the conversation.

    [AgentDemo] and [OperationDemo], and the last part of [System], [BridgeServer]
    and the files of laws, hold the concrete runs the witnesses evaluate.

    ** Bounds and fuel

    Paged reads take fuel above the number of events ([read_pages]) or above the
    number of full pages ([load_all_job_events]); an attempt leaves its loop within 7
    steps of a rank; the cycle check gets one round per unit and one more, after
    which nothing is ready ([complete_rounds_done]); the remediation loop returns
    within [4 M + 6] rounds for [M] review cycles; a synthetic tool name is found
    among twice as many candidates as tools and one more ([find_synthetic]); a text
    is cut into no more chunks than it has bytes ([cut_chunks]); the context shrinks
    at most eight times ([context_rounds]); a container is asked for readiness at most
    301 times in its 30 seconds ([ready_fuel]), and a Pod fewer times than its
    readiness timeout has nanoseconds ([pod_rounds]).  In each case a theorem shows
    that the fuel is enough.

    ** Not modelled

    - Concurrency below a transaction: [append_job_event] takes no lock on the job,
      so in PostgreSQL two sequences can commit out of order; the serial model does
      not show it.  Lost connections and timeouts appear to the runner as [Lost] and
      [TimedOut]; other infrastructure failures do not appear.
    - The connection an advisory lock of [store/workspace_locks.rs] is held by,
      sockets and signals of [http.rs], [main.rs] (wiring), the upgrade steps of
      [schema.rs] from older versions.
    - [extension/src]: [memory/*] (a vector store reached over the network).
    - [runtime/src]: [bootstrap.rs] (the configuration of the Codex runtime).
    - [providers/src/server.rs]: sockets and the HTTP client of the upstream calls.
    - [cli] (terminal client), and [codex-rs], which is upstream code.

    ** Plan

    What is left, in order: the migration driver of [schema.rs], the command line's
    transcript and configuration, and the worker's configuration. *)

From Stdlib Require Import ZArith Ascii String.
From stdpp Require Import base gmap strings list fin_maps numbers pretty.

#[global] Open Scope Z_scope.

(** ** Results

    [Result<T, E>] of Rust.  [Ok] and [Err] are the source's constructors; the
    [?] operator is [mbind]. *)

Inductive result (E A : Type) : Type :=
| Ok (a : A)
| Err (e : E).
Arguments Ok {E A} a.
Arguments Err {E A} e.

#[global] Instance result_ret (E : Type) : MRet (result E) := λ _ a, Ok a.
#[global] Instance result_bind (E : Type) : MBind (result E) := λ _ _ k m,
  match m with Ok a => k a | Err e => Err e end.

(** [Option::ok_or]. *)
Definition ok_or {E A : Type} (o : option A) (e : E) : result E A :=
  match o with Some a => Ok a | None => Err e end.

(** [if c { return Err(e) }]. *)
Definition guard_err {E : Type} (c : bool) (e : E) : result E unit :=
  if c then Err e else Ok tt.

Definition is_ok {E A : Type} (r : result E A) : bool :=
  match r with Ok _ => true | Err _ => false end.

(** [Iterator::collect::<Result<Vec<_>>>] of a mapped iterator: the first error
    in order wins. *)
Fixpoint map_result {E A B : Type} (f : A → result E B) (l : list A) : result E (list B) :=
  match l with
  | [] => Ok []
  | x :: r => y ← f x; ys ← map_result f r; Ok (y :: ys)
  end.

(** [Option::map] with a fallible function, then [Option::transpose]. *)
Definition map_transpose {E A B : Type} (f : A → result E B) (o : option A) : result E (option B) :=
  match o with None => Ok None | Some a => b ← f a; Ok (Some b) end.

Lemma bind_Ok {E A B : Type} (m : result E A) (k : A → result E B) b :
  (m ≫= k) = Ok b ↔ ∃ a, m = Ok a ∧ k a = Ok b.
Proof. destruct m; cbn; split; naive_solver. Qed.

Lemma bind_Err {E A B : Type} (m : result E A) (k : A → result E B) e :
  (m ≫= k) = Err e ↔ m = Err e ∨ ∃ a, m = Ok a ∧ k a = Err e.
Proof. destruct m; cbn; split; naive_solver. Qed.

Lemma ok_or_Ok {E A : Type} (o : option A) (e : E) a : ok_or o e = Ok a ↔ o = Some a.
Proof. destruct o; cbn; naive_solver. Qed.

Lemma guard_err_Ok {E : Type} c (e : E) u : guard_err c e = Ok u ↔ c = false.
Proof. destruct c, u; cbn; naive_solver. Qed.

Lemma map_result_Ok {E A B : Type} (f : A → result E B) l l' :
  map_result f l = Ok l' ↔ Forall2 (λ x y, f x = Ok y) l l'.
Proof.
  revert l'; induction l as [|x l IH]; intros l'; cbn.
  - split; [intros [= <-]; constructor|]. by intros ->%Forall2_nil_inv_l.
  - rewrite bind_Ok. split.
    + intros (y & Hy & (ys & Hys & [= <-])%bind_Ok). constructor; naive_solver.
    + intros (y & ys & Hy & Hys & ->)%Forall2_cons_inv_l.
      exists y. split; [done|]. apply bind_Ok. exists ys. naive_solver.
Qed.

(** ** Transactions and procedures

    A [tx] is the body of one database transaction: it either produces a value
    and the updated tables or fails, and a failed body leaves nothing behind.
    A [proc] is a store method: it runs its transactions one after the other on
    the shared tables, and a failure after a commit keeps what was committed. *)

Definition tx (S E A : Type) : Type := S → result E (A * S).
Definition proc (S E A : Type) : Type := S → result E A * S.

Section transactions.
Context {S E : Type}.

#[global] Instance tx_ret : MRet (tx S E) := λ _ a s, Ok (a, s).
#[global] Instance tx_bind : MBind (tx S E) := λ _ _ k m s,
  match m s with Ok (a, s') => k a s' | Err e => Err e end.
#[global] Instance proc_ret : MRet (proc S E) := λ _ a s, (Ok a, s).
#[global] Instance proc_bind : MBind (proc S E) := λ _ _ k m s,
  match m s with (Ok a, s') => k a s' | (Err e, s') => (Err e, s') end.

(** A fallible pure step inside a transaction. *)
Definition lift {A : Type} (r : result E A) : tx S E A :=
  λ s, match r with Ok a => Ok (a, s) | Err e => Err e end.

(** A fallible pure step of a procedure, outside any transaction. *)
Definition proc_lift {A : Type} (r : result E A) : proc S E A := λ s, (r, s).

(** A read of the tables, and a write. *)
Definition gets {A : Type} (f : S → A) : tx S E A := λ s, Ok (f s, s).
Definition modify (f : S → S) : tx S E unit := λ s, Ok (tt, f s).
Definition throw {A : Type} (e : E) : tx S E A := λ _, Err e.

(** [transaction.commit()]: an error before the commit rolls back. *)
Definition commit {A : Type} (t : tx S E A) : proc S E A :=
  λ s, match t s with Ok (a, s') => (Ok a, s') | Err e => (Err e, s) end.

Lemma tx_bind_Ok {A B} (m : tx S E A) (k : A → tx S E B) s b s' :
  (m ≫= k) s = Ok (b, s') ↔ ∃ a s1, m s = Ok (a, s1) ∧ k a s1 = Ok (b, s').
Proof.
  unfold mbind, tx_bind. destruct (m s) as [[a s1]|e]; naive_solver.
Qed.

Lemma lift_Ok {A} (r : result E A) s a s' :
  lift r s = Ok (a, s') ↔ r = Ok a ∧ s' = s.
Proof. unfold lift. destruct r; naive_solver. Qed.

Lemma gets_Ok {A} (f : S → A) s a s' :
  gets f s = Ok (a, s') ↔ a = f s ∧ s' = s.
Proof. unfold gets. naive_solver. Qed.

Lemma modify_Ok (f : S → S) s u s' :
  modify f s = Ok (u, s') ↔ s' = f s.
Proof. unfold modify. destruct u. naive_solver. Qed.

Lemma throw_Ok {A} (e : E) s (a : A) s' : throw e s = Ok (a, s') ↔ False.
Proof. unfold throw. naive_solver. Qed.

Lemma tx_ret_Ok {A} (x a : A) s s' :
  (mret x : tx S E A) s = Ok (a, s') ↔ a = x ∧ s' = s.
Proof. unfold mret, tx_ret. naive_solver. Qed.

(** A committed call is the transaction's own result; a failed one changes
    nothing. *)
Lemma commit_Ok {A} (t : tx S E A) s a s' :
  commit t s = (Ok a, s') ↔ t s = Ok (a, s').
Proof. unfold commit. destruct (t s) as [[]|]; naive_solver. Qed.

Lemma commit_Err {A} (t : tx S E A) s e s' :
  commit t s = (Err e, s') ↔ t s = Err e ∧ s' = s.
Proof. unfold commit. destruct (t s) as [[]|]; naive_solver. Qed.
End transactions.

(** ** Machine integers

    Fixed-width integers are [Z] together with the conversions the source
    writes ([i32::try_from], [u32::try_from], ...) and the range errors of
    PostgreSQL's [INTEGER] and [BIGINT] arithmetic. *)

Definition i32_max : Z := 2147483647.
Definition i32_min : Z := -2147483648.
Definition u32_max : Z := 4294967295.
Definition i64_max : Z := 9223372036854775807.
Definition i64_min : Z := -9223372036854775808.
Definition u64_max : Z := 18446744073709551615.

Definition in_range (lo hi z : Z) : bool := (lo <=? z) && (z <=? hi).

Definition try_range (lo hi z : Z) : option Z := if in_range lo hi z then Some z else None.

Definition i32_try_from : Z → option Z := try_range i32_min i32_max.
Definition u32_try_from : Z → option Z := try_range 0 u32_max.
Definition i64_try_from : Z → option Z := try_range i64_min i64_max.
Definition u64_try_from : Z → option Z := try_range 0 u64_max.

Lemma in_range_true lo hi z : in_range lo hi z = true ↔ lo ≤ z ≤ hi.
Proof. unfold in_range. rewrite andb_true_iff, !Z.leb_le. done. Qed.

Lemma try_range_Some lo hi z z' : try_range lo hi z = Some z' ↔ z' = z ∧ lo ≤ z ≤ hi.
Proof.
  unfold try_range. destruct (in_range lo hi z) eqn:E.
  - apply in_range_true in E. naive_solver.
  - split; [done|]. intros [_ H%in_range_true]. congruence.
Qed.

Lemma try_range_in lo hi z : lo ≤ z ≤ hi → try_range lo hi z = Some z.
Proof. intros H. by apply try_range_Some. Qed.

(** ** Strings

    A Rust [str] is its UTF-8 bytes.  [str::trim] removes the code points with
    the Unicode [White_Space] property: U+0009 to U+000D, U+0020, U+0085,
    U+00A0, U+1680, U+2000 to U+200A, U+2028, U+2029, U+202F, U+205F and
    U+3000, in one, two or three bytes. *)

Definition byte_of (c : ascii) : nat := nat_of_ascii c.

Definition ws1 (a : nat) : bool := ((9 <=? a) && (a <=? 13) || (a =? 32))%nat.
Definition ws2 (a b : nat) : bool := ((a =? 194) && ((b =? 133) || (b =? 160)))%nat.
Definition ws3 (a b c : nat) : bool :=
  ((a =? 225) && (b =? 154) && (c =? 128)
   || (a =? 226) && (b =? 128)
      && ((128 <=? c) && (c <=? 138) || (c =? 168) || (c =? 169) || (c =? 175))
   || (a =? 226) && (b =? 129) && (c =? 159)
   || (a =? 227) && (b =? 128) && (c =? 128))%nat.

(** Drops one leading white-space code point from a byte sequence. *)
Definition strip_first (l : list ascii) : option (list ascii) :=
  match l with
  | a :: l1 =>
      if ws1 (byte_of a) then Some l1 else
      match l1 with
      | b :: l2 =>
          if ws2 (byte_of a) (byte_of b) then Some l2 else
          match l2 with
          | c :: l3 => if ws3 (byte_of a) (byte_of b) (byte_of c) then Some l3 else None
          | [] => None
          end
      | [] => None
      end
  | [] => None
  end.

(** The same at the end of the string, on the reversed bytes. *)
Definition strip_last (l : list ascii) : option (list ascii) :=
  match l with
  | a :: l1 =>
      if ws1 (byte_of a) then Some l1 else
      match l1 with
      | b :: l2 =>
          if ws2 (byte_of b) (byte_of a) then Some l2 else
          match l2 with
          | c :: l3 => if ws3 (byte_of c) (byte_of b) (byte_of a) then Some l3 else None
          | [] => None
          end
      | [] => None
      end
  | [] => None
  end.

Fixpoint strip_all (f : list ascii → option (list ascii)) (fuel : nat) (l : list ascii) : list ascii :=
  match fuel with
  | O => l
  | S n => match f l with Some l' => strip_all f n l' | None => l end
  end.

Definition trim_start (s : string) : string :=
  string_of_list_ascii (strip_all strip_first (String.length s) (list_ascii_of_string s)).

Definition trim_end (s : string) : string :=
  string_of_list_ascii
    (rev (strip_all strip_last (String.length s) (rev (list_ascii_of_string s)))).

Definition trim (s : string) : string := trim_end (trim_start s).

(** [s.trim().is_empty()]. *)
Definition is_blank (s : string) : bool := bool_decide (trim s = EmptyString).

Lemma is_blank_empty : is_blank EmptyString = true.
Proof. reflexivity. Qed.

Lemma not_blank_nonempty s : is_blank s = false → s ≠ EmptyString.
Proof. by intros H ->. Qed.

Lemma string_app_assoc (a b c : string) : ((a +:+ b) +:+ c = a +:+ (b +:+ c))%string.
Proof.
  induction a as [|x a IH]; [done|]. change (String x a +:+ b)%string with (String x (a +:+ b)).
  change (String x (a +:+ b) +:+ c)%string with (String x ((a +:+ b) +:+ c)). by rewrite IH.
Qed.

(** [str::strip_prefix]. *)
Fixpoint strip_prefix (p s : string) : option string :=
  match p, s with
  | EmptyString, _ => Some s
  | String a p', String b s' => if decide (a = b) then strip_prefix p' s' else None
  | String _ _, EmptyString => None
  end.

Lemma strip_prefix_spec p s r : strip_prefix p s = Some r ↔ s = p +:+ r.
Proof.
  revert s. induction p as [|a p IH]; intros s; cbn [strip_prefix]; [change (EmptyString +:+ r)%string with r; naive_solver|].
  change (String a p +:+ r) with (String a (p +:+ r)). destruct s as [|b s]; [naive_solver|].
  destruct (decide (a = b)) as [->|]; [|naive_solver]. rewrite IH. naive_solver.
Qed.

(** One piece of a [format!] string: literal text, a [{}] argument or a [{:?}]
    argument.  Messages keep the pieces, so that two messages are equal exactly
    when their text is built the same way. *)
Inductive fmt_part : Type :=
| Lit (s : string)
| Display (s : string)
| Debug (s : string)
| DisplayZ (n : Z).

#[global] Instance fmt_part_eq_dec : EqDecision fmt_part.
Proof. solve_decision. Defined.

(** ** JSON values

    [serde_json::Value].  An [Object] lists its entries in key order, as the
    map behind it iterates them. *)

Inductive Number : Type :=
| PosInt (n : Z)
| NegInt (n : Z)
| Float (repr : string).

#[global] Instance Number_eq_dec : EqDecision Number.
Proof. solve_decision. Defined.

Inductive Value : Type :=
| Null
| Bool (b : bool)
| Num (n : Number)
| Str (s : string)
| Array (l : list Value)
| Object (fields : list (string * Value)).

#[global] Instance Value_eq_dec : EqDecision Value.
Proof.
  refine (fix go x y := let _ : EqDecision Value := @go in
    match x, y with
    | Null, Null => left eq_refl
    | Bool b1, Bool b2 => cast_if (decide (b1 = b2))
    | Num n1, Num n2 => cast_if (decide (n1 = n2))
    | Str s1, Str s2 => cast_if (decide (s1 = s2))
    | Array l1, Array l2 => cast_if (decide (l1 = l2))
    | Object f1, Object f2 => cast_if (decide (f1 = f2))
    | _, _ => right _
    end); abstract congruence.
Defined.

Fixpoint assoc_get (k : string) (f : list (string * Value)) : option Value :=
  match f with
  | [] => None
  | (k', v) :: r => if decide (k = k') then Some v else assoc_get k r
  end.

Fixpoint assoc_set (k : string) (x : Value) (f : list (string * Value)) : list (string * Value) :=
  match f with
  | [] => [(k, x)]
  | (k', v) :: r =>
      match String.compare k k' with
      | Eq => (k, x) :: r
      | Lt => (k, x) :: f
      | Gt => (k', v) :: assoc_set k x r
      end
  end.

(** [Value::get] with a string index, [Value::as_str], [Value::as_u64],
    [Value::is_array] and assignment through [IndexMut]. *)
Definition value_get (k : string) (v : Value) : option Value :=
  match v with Object f => assoc_get k f | _ => None end.

Definition as_str (v : Value) : option string :=
  match v with Str s => Some s | _ => None end.

Definition as_u64 (v : Value) : option Z :=
  match v with Num (PosInt n) => Some n | _ => None end.

Definition is_array (v : Value) : bool :=
  match v with Array _ => true | _ => false end.

Definition value_set (k : string) (x : Value) (v : Value) : Value :=
  match v with Object f => Object (assoc_set k x f) | _ => v end.

Lemma assoc_get_set k x f : assoc_get k (assoc_set k x f) = Some x.
Proof.
  induction f as [|[k' v] r IH]; cbn; [by rewrite decide_True|].
  destruct (String.compare k k') eqn:E; cbn; [by rewrite decide_True..|].
  rewrite decide_False; [done|]. intros ->.
  pose proof (String.compare_antisym k' k') as Ha. by rewrite E in Ha.
Qed.

(** ** Tables

    A table is a [gmap] from its primary key.  The SQL the store issues is
    written with the queries below: [EXISTS], an ordered [LIMIT 1], and
    [UPDATE ... WHERE]. *)

Definition values {A : Type} (m : gmap string A) : list A := (map_to_list m).*2.

Lemma elem_of_values {A : Type} (m : gmap string A) v :
  v ∈ values m ↔ ∃ k, m !! k = Some v.
Proof.
  unfold values. rewrite list_elem_of_fmap. split.
  - intros ([k w] & -> & H%elem_of_map_to_list). eauto.
  - intros [k H]. exists (k, v). split; [done|]. by apply elem_of_map_to_list.
Qed.

(** [SELECT EXISTS (SELECT 1 FROM m WHERE p)]. *)
Definition exists_row {A : Type} (p : A → bool) (m : gmap string A) : bool :=
  existsb p (values m).

Lemma exists_row_true {A : Type} (p : A → bool) (m : gmap string A) :
  exists_row p m = true ↔ ∃ k v, m !! k = Some v ∧ p v = true.
Proof.
  unfold exists_row. rewrite existsb_exists. split.
  - intros (v & Hv%list_elem_of_In & Hp). apply elem_of_values in Hv as [k Hk]. eauto.
  - intros (k & v & Hk & Hp). exists v. split; [|done].
    apply list_elem_of_In, elem_of_values. eauto.
Qed.

Lemma exists_row_false {A : Type} (p : A → bool) (m : gmap string A) :
  exists_row p m = false ↔ ∀ k v, m !! k = Some v → p v = false.
Proof.
  rewrite <- not_true_iff_false, exists_row_true. split.
  - intros H k v Hk. apply not_true_iff_false. intros Hp. apply H. eauto.
  - intros H (k & v & Hk & Hp). apply H in Hk. congruence.
Qed.

(** [SELECT ... WHERE p]: the rows that satisfy the condition. *)
Definition select_rows {A : Type} (p : A → bool) (m : gmap string A) : list A :=
  List.filter p (values m).

Lemma elem_of_select_rows {A : Type} (p : A → bool) (m : gmap string A) v :
  v ∈ select_rows p m ↔ (∃ k, m !! k = Some v) ∧ p v = true.
Proof.
  unfold select_rows.
  by rewrite list_elem_of_In, filter_In, <- list_elem_of_In, elem_of_values.
Qed.

Lemma filter_fmap_pairs {A : Type} (p : A → bool) (l : list (string * A)) :
  List.filter p l.*2 = (List.filter (λ kv, p kv.2) l).*2.
Proof. induction l as [|[k v] l IH]; [done|]. simpl. destruct (p v); [exact (f_equal (cons v) IH)|exact IH]. Qed.

(** A column that is unique among the selected rows lists no value twice. *)
Lemma select_rows_NoDup {A B : Type} (f : A → B) (p : A → bool) (m : gmap string A) :
  (∀ k1 a1 k2 a2, m !! k1 = Some a1 → m !! k2 = Some a2 → p a1 = true → p a2 = true →
     f a1 = f a2 → k1 = k2) →
  NoDup (f <$> select_rows p m).
Proof.
  intros Hu. unfold select_rows, values. rewrite filter_fmap_pairs, <- list_fmap_compose. apply NoDup_fmap_2_strong.
  - intros [k1 a1] [k2 a2] H1 H2 E. simpl in E.
    apply list_elem_of_In, filter_In in H1 as [H1%list_elem_of_In%elem_of_map_to_list E1].
    apply list_elem_of_In, filter_In in H2 as [H2%list_elem_of_In%elem_of_map_to_list E2].
    assert (k1 = k2) as -> by (by eapply Hu). congruence.
  - apply NoDup_ListNoDup, List.NoDup_filter, NoDup_ListNoDup, NoDup_map_to_list.
Qed.

(** [UPDATE m SET f WHERE p]. *)
Definition update_where {A : Type} (p : A → bool) (f : A → A) (m : gmap string A) : gmap string A :=
  (λ v, if p v then f v else v) <$> m.

Lemma lookup_update_where {A : Type} (p : A → bool) f (m : gmap string A) k :
  update_where p f m !! k = (λ v, if p v then f v else v) <$> m !! k.
Proof. unfold update_where. by rewrite lookup_fmap. Qed.

(** [ORDER BY ... LIMIT 1]: [best lt l] is an element no other one precedes;
    among equals the first listed is kept. *)
Fixpoint best {A : Type} (lt : A → A → bool) (l : list A) : option A :=
  match l with
  | [] => None
  | x :: r =>
      match best lt r with
      | None => Some x
      | Some y => if lt y x then Some y else Some x
      end
  end.

Lemma best_None {A : Type} (lt : A → A → bool) l : best lt l = None ↔ l = [].
Proof. destruct l as [|x r]; cbn; [done|]. destruct (best lt r) as [y|]; [destruct (lt y x)|]; done. Qed.

Lemma best_elem {A : Type} (lt : A → A → bool) l x : best lt l = Some x → x ∈ l.
Proof.
  revert x; induction l as [|y r IH]; intros x; cbn; [done|].
  destruct (best lt r) as [z|]; [destruct (lt z y)|]; intros [= <-].
  - right. by apply IH.
  - left.
  - left.
Qed.

(** When the order comes from a key into a total order on [Z] pairs or
    numbers, nothing precedes the chosen row. *)
Lemma best_min {A : Type} (key : A → Z) l x :
  best (λ a b, key a <? key b) l = Some x → ∀ y, y ∈ l → key x ≤ key y.
Proof.
  revert x; induction l as [|z r IH]; intros x; cbn; [done|].
  destruct (best _ r) as [w|] eqn:Hw.
  - destruct (key w <? key z) eqn:E; intros [= <-] y [->|Hy]%elem_of_cons;
      [apply Z.ltb_lt in E|apply Z.ltb_lt in E|apply Z.ltb_ge in E|apply Z.ltb_ge in E];
      try lia; specialize (IH _ eq_refl _ Hy); lia.
  - apply best_None in Hw as ->. intros [= <-] y [->|Hy]%elem_of_cons; [lia|by inversion Hy].
Qed.

Lemma best_max {A : Type} (key : A → Z) l x :
  best (λ a b, key b <? key a) l = Some x → ∀ y, y ∈ l → key y ≤ key x.
Proof.
  intros H y Hy. enough (- key x ≤ - key y) by lia.
  apply (best_min (λ a, - key a) l); [|done].
  rewrite <- H. clear. induction l as [|z r IH]; cbn [best]; [done|]. rewrite IH.
  destruct (best (λ a b, key b <? key a) r) as [w|]; [|reflexivity].
  replace (- key w <? - key z) with (key z <? key w); [done|].
  apply eq_true_iff_eq. rewrite !Z.ltb_lt. lia.
Qed.

(** A strict weak order, the shape of an [ORDER BY] list. *)
Class StrictWeak {A : Type} (lt : A → A → bool) : Prop := {
  sw_asym x y : lt x y = true → lt y x = false;
  sw_neg_trans x y z : lt x y = false → lt y z = false → lt x z = false;
}.

Lemma best_first {A : Type} (lt : A → A → bool) `{!StrictWeak lt} l x :
  best lt l = Some x → ∀ y, y ∈ l → lt y x = false.
Proof.
  assert (∀ z, lt z z = false) as Hirr.
  { intros z. destruct (lt z z) eqn:E; [|done]. by apply sw_asym in E as E'; rewrite E' in E. }
  revert x; induction l as [|z r IH]; intros x; cbn; [done|].
  destruct (best lt r) as [w|] eqn:Hw.
  - destruct (lt w z) eqn:E; intros [= <-] y [->|Hy]%elem_of_cons.
    + by apply sw_asym.
    + by apply IH.
    + done.
    + eapply sw_neg_trans; [by apply IH|done].
  - apply best_None in Hw as ->. intros [= <-] y [->|Hy]%elem_of_cons; [done|by inversion Hy].
Qed.

(** [ORDER BY] and [slice::sort_by_key]: a stable insertion sort. *)
Fixpoint insert_sorted {A : Type} (lt : A → A → bool) (x : A) (l : list A) : list A :=
  match l with
  | [] => [x]
  | y :: r => if lt y x then y :: insert_sorted lt x r else x :: y :: r
  end.

Definition order_by {A : Type} (lt : A → A → bool) (l : list A) : list A :=
  foldr (insert_sorted lt) [] l.

Lemma elem_of_insert_sorted {A : Type} (lt : A → A → bool) x l y :
  y ∈ insert_sorted lt x l ↔ y = x ∨ y ∈ l.
Proof.
  induction l as [|z r IH]; cbn; [set_solver|]. destruct (lt z x); set_solver.
Qed.

Lemma elem_of_order_by {A : Type} (lt : A → A → bool) l y : y ∈ order_by lt l ↔ y ∈ l.
Proof. induction l as [|x r IH]; cbn; [done|]. rewrite elem_of_insert_sorted, elem_of_cons. naive_solver. Qed.

(** Updating a row that exists is an insertion. *)
Lemma alter_insert_row {A : Type} (f : A → A) k (m : gmap string A) x :
  m !! k = Some x → alter f k m = <[k := f x]> m.
Proof.
  intros Hk. apply map_eq. intros i. rewrite lookup_alter, lookup_insert.
  case_decide; subst; [by rewrite Hk|done].
Qed.

(** ** Automation

    [inv_tx] peels a successful transaction into the facts its guards
    establish. *)

Ltac deex :=
  repeat match goal with
  | H : ∃ _, _ |- _ => destruct H as [? H]
  | H : _ ∧ _ |- _ => destruct H
  end.

Ltac inv_tx_step :=
  match goal with
  | H : (_ ≫= _) _ = Ok (_, _) |- _ => apply tx_bind_Ok in H; destruct H as (? & ? & ? & ?)
  | H : lift _ _ = Ok (_, _) |- _ => apply lift_Ok in H; destruct H as [H ->]
  | H : gets _ _ = Ok (_, _) |- _ => apply gets_Ok in H; destruct H as [-> ->]
  | H : modify _ _ = Ok (_, _) |- _ => apply modify_Ok in H; subst
  | H : throw _ _ = Ok (_, _) |- _ => apply throw_Ok in H; destruct H
  | H : mret _ _ = Ok (_, _) |- _ =>
      apply tx_ret_Ok in H; destruct H as [H ->];
      first [ discriminate H | injection H; clear H; intros; subst | subst ]
  | H : (_ ≫= _) = Ok _ |- _ => apply bind_Ok in H; destruct H as (? & ? & ?)
  | H : ok_or _ _ = Ok _ |- _ => apply ok_or_Ok in H
  | H : guard_err _ _ = Ok _ |- _ => apply guard_err_Ok in H
  | H : Ok _ = Ok _ |- _ => first [ injection H; clear H; intros; subst | clear H ]
  | H : Err _ = Ok _ |- _ => discriminate H
  | H : Ok _ = Err _ |- _ => discriminate H
  | H : ?t = Ok _ |- _ => progress cbv zeta in H
  end.

Ltac inv_tx := repeat inv_tx_step.

(** ** Frames

    A transaction frames a projection [π] of the tables when it never changes
    it.  [solve_frames] decides this by walking the transaction's body. *)

Section frames.
Context {S E B : Type} (π : S → B).

Definition frames {A : Type} (t : tx S E A) : Prop :=
  ∀ s a s', t s = Ok (a, s') → π s' = π s.

Lemma frames_bind {A A' : Type} (m : tx S E A) (k : A → tx S E A') :
  frames m → (∀ a, frames (k a)) → frames (m ≫= k).
Proof.
  intros Hm Hk s b s' (a & s1 & H1 & H2)%tx_bind_Ok.
  rewrite (Hk _ _ _ _ H2). by apply (Hm _ _ _ H1).
Qed.

Lemma frames_lift {A : Type} (r : result E A) : frames (lift r).
Proof. intros s a s' [_ ->]%lift_Ok. done. Qed.

Lemma frames_gets {A : Type} (f : S → A) : frames (gets f).
Proof. intros s a s' [_ ->]%gets_Ok. done. Qed.

Lemma frames_throw {A : Type} (e : E) : frames (throw e : tx S E A).
Proof. by intros s a s' []%throw_Ok. Qed.

Lemma frames_ret {A : Type} (x : A) : frames (mret x : tx S E A).
Proof. intros s a s' [_ ->]%tx_ret_Ok. done. Qed.

Lemma frames_modify (f : S → S) : (∀ s, π (f s) = π s) → frames (modify f : tx S E unit).
Proof. intros Hf s a s' ->%modify_Ok. apply Hf. Qed.

(** A framed transaction frames as a committed call, whatever its outcome. *)
Lemma frames_commit {A : Type} (t : tx S E A) s : frames t → π (commit t s).2 = π s.
Proof. intros Ht. unfold commit. destruct (t s) as [[a s']|e] eqn:H; [by eapply Ht|done]. Qed.
End frames.

Ltac solve_frames_step :=
  match goal with
  | |- frames _ (_ ≫= _) => apply frames_bind; [|intros ?]
  | |- frames _ (lift _) => apply frames_lift
  | |- frames _ (gets _) => apply frames_gets
  | |- frames _ (throw _) => apply frames_throw
  | |- frames _ (mret _) => apply frames_ret
  | |- frames _ (modify _) => apply frames_modify; done
  | |- frames _ (match ?x with _ => _ end) => destruct x
  | |- frames _ (let _ := _ in _) => cbv zeta
  end.

(** Membership in a literal list: [mem_cases] splits a hypothesis,
    [absurd_mem] closes a goal whose hypotheses put a known value outside its
    list, [mem] proves a membership. *)

Ltac mem_cases H :=
  lazymatch type of H with
  | _ ∈ _ :: _ => apply elem_of_cons in H; destruct H as [H|H]; [|mem_cases H]
  | _ ∈ [] => exfalso; by apply not_elem_of_nil in H
  | _ => idtac
  end.

Ltac absurd_mem :=
  exfalso;
  match goal with
  | H : ?x ∈ _ :: _, E : ?x = ?y |- _ => rewrite E in H; clear - H; mem_cases H; discriminate H
  | H : _ ∈ _ :: _ |- _ => clear - H; mem_cases H; discriminate H
  end.

Ltac mem := solve [ repeat (first [ left | right ]) | repeat (rewrite elem_of_cons); tauto
                  | repeat (rewrite elem_of_cons); intuition congruence ].

Create HintDb frame.
Ltac solve_frames := repeat first [ solve_frames_step | solve [eauto with frame] ].

Create HintDb factory.
Create Rewrite HintDb factory.
#[export] Hint Rewrite @lookup_update_where @lookup_fmap @bool_decide_eq_true @bool_decide_eq_false
  andb_true_iff orb_true_iff negb_true_iff Z.ltb_lt Z.leb_le Z.eqb_eq Z.ltb_ge Z.leb_gt Z.eqb_neq : factory.
