(* ===== verification/Sequences.v ===== *)
(** * Sorting and extremal elements

    The slice and iterator methods the program uses on vectors: the stable
    [sort_by_key] (the prelude's [order_by]) and [Iterator::max_by_key], with
    the facts that make their results independent of the order in which a hash
    map lists its values. *)

From S2P Require Import Prelude.
From Stdlib Require Import ZArith Sorted String.
From stdpp Require Import base sets gmap strings list sorting.

#[local] Open Scope Z_scope.

(** ** Sorting *)

Lemma insert_sorted_perm {A : Type} (lt : A → A → bool) x l : insert_sorted lt x l ≡ₚ x :: l.
Proof.
  induction l as [|y r IH]; cbn; [done|]. destruct (lt y x); [|done]. rewrite IH. constructor.
Qed.

Lemma order_by_perm {A : Type} (lt : A → A → bool) l : order_by lt l ≡ₚ l.
Proof.
  unfold order_by. induction l as [|x l IH]; cbn; [done|]. by rewrite insert_sorted_perm, IH.
Qed.

(** Sorting by a numeric key without ties gives a strictly increasing list. *)
Lemma order_by_increasing {A : Type} (key : A → Z) l :
  (∀ x y, x ∈ l → y ∈ l → key x = key y → x = y) → NoDup l →
  StronglySorted (λ a b, key a < key b) (order_by (λ a b, key a <? key b) l).
Proof.
  unfold order_by. induction l as [|x l IH]; intros Hinj Hnd; cbn [foldr]; [constructor|].
  apply NoDup_cons in Hnd as [Hx Hnd].
  assert (StronglySorted (λ a b, key a < key b) (foldr (insert_sorted (λ a b, key a <? key b)) [] l)) as Hs.
  { apply IH; [|done]. intros a b Ha Hb. apply Hinj; by right. }
  assert (∀ y, y ∈ foldr (insert_sorted (λ a b, key a <? key b)) [] l → key y ≠ key x) as Hne.
  { intros y Hy E. assert (y ∈ l) by (by apply (elem_of_order_by (λ a b, key a <? key b))).
    assert (y = x) as -> by (apply Hinj; [by right|left|done]). done. }
  clear IH. revert Hs Hne. generalize (foldr (insert_sorted (λ a b, key a <? key b)) [] l). intros m Hs Hne.
  induction Hs as [|y r Hr IH Hy]; cbn; [by repeat constructor|].
  assert (key y ≠ key x) by (apply Hne; left). destruct (key y <? key x) eqn:E.
  - apply Z.ltb_lt in E. constructor; [apply IH; intros; apply Hne; by right|].
    rewrite (insert_sorted_perm _ x r). by constructor.
  - apply Z.ltb_ge in E. constructor; [by constructor|]. constructor; [lia|].
    eapply Forall_impl; [exact Hy|]. simpl. intros. lia.
Qed.

(** Whatever the order is, nothing in a sorted list precedes what stands before
    it. *)
Lemma order_by_sorted {A : Type} (lt : A → A → bool) `{!StrictWeak lt} l :
  StronglySorted (λ a b, lt b a = false) (order_by lt l).
Proof.
  unfold order_by. induction l as [|x l IH]; cbn [foldr]; [constructor|].
  revert IH. generalize (foldr (insert_sorted lt) [] l). intros m Hs.
  induction Hs as [|y r Hr IH Hy]; cbn; [by repeat constructor|].
  destruct (lt y x) eqn:E.
  - constructor; [done|]. rewrite (insert_sorted_perm lt x r). constructor; [by apply sw_asym|done].
  - constructor; [by constructor|]. constructor; [done|].
    eapply Forall_impl; [exact Hy|]. simpl. intros z Hz. by eapply sw_neg_trans.
Qed.

(** Without ties the sorted list does not depend on the order of the input. *)
Lemma order_by_permuted {A : Type} (lt : A → A → bool) `{!StrictWeak lt} l1 l2 :
  l1 ≡ₚ l2 → (∀ x y, x ∈ l1 → y ∈ l1 → lt x y = false → lt y x = false → x = y) →
  order_by lt l1 = order_by lt l2.
Proof.
  intros Hp Hinj. eapply (StronglySorted_unique_strong (λ a b, lt b a = false)).
  - intros x y Hx%elem_of_order_by Hy%elem_of_order_by H1 H2. rewrite <- Hp in Hy. by apply Hinj.
  - by apply order_by_sorted.
  - by apply order_by_sorted.
  - by rewrite !order_by_perm.
Qed.

(** ... and it increases strictly. *)
Lemma order_by_strict {A : Type} (lt : A → A → bool) `{!StrictWeak lt} l :
  NoDup l → (∀ x y, x ∈ l → y ∈ l → lt x y = false → lt y x = false → x = y) →
  StronglySorted (λ a b, lt a b = true) (order_by lt l).
Proof.
  intros Hnd Hinj. rewrite <- (order_by_perm lt l) in Hnd.
  assert (∀ x y, x ∈ order_by lt l → y ∈ order_by lt l → lt x y = false → lt y x = false → x = y) as Hi.
  { intros x y Hx%elem_of_order_by Hy%elem_of_order_by. by apply Hinj. }
  pose proof (order_by_sorted lt l) as Hs. revert Hnd Hi. generalize (order_by lt l) Hs. clear Hinj Hs l.
  induction 1 as [|x l Hl IH Hx]; [constructor|]. intros [Hn Hnd]%NoDup_cons Hi.
  constructor; [apply IH; [done|]; intros; apply Hi; set_solver|].
  apply Forall_forall. intros y Hy. rewrite Forall_forall in Hx. specialize (Hx y Hy).
  destruct (lt x y) eqn:E; [done|]. destruct Hn. by rewrite (Hi x y) by set_solver.
Qed.

(** ** [Iterator::max_by_key]

    Among equal keys the last element wins. *)

Definition max_step {A : Type} (key : A → Z) (best : option A) (x : A) : option A :=
  match best with
  | Some y => if key x <? key y then Some y else Some x
  | None => Some x
  end.

Definition max_by_key {A : Type} (key : A → Z) (l : list A) : option A :=
  foldl (max_step key) None l.

Lemma max_by_key_snoc {A : Type} (key : A → Z) l x :
  max_by_key key (l ++ [x]) = max_step key (max_by_key key l) x.
Proof. unfold max_by_key. by rewrite foldl_app. Qed.

Lemma max_by_key_Some {A : Type} (key : A → Z) l x :
  max_by_key key l = Some x → x ∈ l ∧ ∀ y, y ∈ l → key y ≤ key x.
Proof.
  revert x. induction l as [|z l IH] using rev_ind; intros x; [done|].
  rewrite max_by_key_snoc. unfold max_step. destruct (max_by_key key l) as [w|] eqn:Hw.
  - destruct (IH w eq_refl) as [Hin Hmax].
    destruct (key z <? key w) eqn:E; intros [= <-]; [apply Z.ltb_lt in E|apply Z.ltb_ge in E];
      (split; [set_solver|]); (intros y [Hy|Hy%list_elem_of_singleton]%elem_of_app;
      [specialize (Hmax y Hy)|subst y]; lia).
  - intros [= <-]. split; [set_solver|]. intros y [Hy|Hy%list_elem_of_singleton]%elem_of_app; [|subst; lia].
    destruct l as [|v l' _] using rev_ind; [by apply not_elem_of_nil in Hy|].
    rewrite max_by_key_snoc in Hw. unfold max_step in Hw. by destruct (max_by_key key l'); [case_match|].
Qed.

Lemma max_by_key_None {A : Type} (key : A → Z) l : max_by_key key l = None ↔ l = [].
Proof.
  split; [|by intros ->]. destruct l as [|x l _] using rev_ind; [done|].
  rewrite max_by_key_snoc. unfold max_step. destruct (max_by_key key l); [case_match|]; done.
Qed.

(** Without ties the maximum does not depend on the order of the input. *)
Lemma max_by_key_unique {A : Type} (key : A → Z) l x :
  (∀ y, y ∈ l → key y = key x → y = x) → x ∈ l → (∀ y, y ∈ l → key y ≤ key x) →
  max_by_key key l = Some x.
Proof.
  intros Hinj Hx Hmax. destruct (max_by_key key l) as [y|] eqn:Hy.
  - apply max_by_key_Some in Hy as [Hy Hmax']. f_equal. apply Hinj; [done|].
    specialize (Hmax _ Hy). specialize (Hmax' _ Hx). lia.
  - apply max_by_key_None in Hy as ->. by apply not_elem_of_nil in Hx.
Qed.

Lemma max_by_key_permuted {A : Type} (key : A → Z) l1 l2 :
  l1 ≡ₚ l2 → (∀ x y, x ∈ l1 → y ∈ l1 → key x = key y → x = y) →
  max_by_key key l1 = max_by_key key l2.
Proof.
  intros Hp Hinj. destruct (max_by_key key l1) as [x|] eqn:Hx; symmetry.
  - apply max_by_key_Some in Hx as [Hx Hmax]. apply max_by_key_unique.
    + intros y Hy. rewrite <- Hp in Hy. by apply Hinj.
    + by rewrite <- Hp.
    + intros y Hy. rewrite <- Hp in Hy. by apply Hmax.
  - apply max_by_key_None in Hx as ->. apply max_by_key_None. symmetry. by apply Permutation_nil_l.
Qed.

(** ** Hash maps

    [HashMap] lists its values in an unspecified order: some permutation of
    them. *)
Class HashOrder : Type := {
  hash_values {A : Type} : list A → list A;
  hash_values_perm {A : Type} (l : list A) : hash_values l ≡ₚ l;
}.

Lemma elem_of_hash_values `{HashOrder} {A : Type} (l : list A) x : x ∈ hash_values l ↔ x ∈ l.
Proof. by rewrite hash_values_perm. Qed.

(** ** Loops over a vector that insert into a hash set

    [for x in l { before(x)?; if !seen.insert(key(x)) { return Err(dup(x)) }
    after(x)?; }]: every element is checked and no key may come twice. *)
Section each_new.
Context {A E : Type} (key : A → string) (before : A → result E unit) (dup : A → E) (after : A → result E unit).

Fixpoint each_new (seen : gset string) (l : list A) : result E unit :=
  match l with
  | [] => Ok tt
  | x :: r =>
      _ ← before x;
      if decide (key x ∈ seen) then Err (dup x)
      else _ ← after x; each_new ({[key x]} ∪ seen) r
  end.

Lemma each_new_seen seen l u :
  each_new seen l = Ok u ↔
  Forall (λ x, before x = Ok tt ∧ after x = Ok tt) l ∧ NoDup (key <$> l) ∧ Forall (λ x, key x ∉ seen) l.
Proof.
  destruct u. revert seen. induction l as [|x l IH]; intros seen; cbn.
  { split; [|done]. intros _. split_and!; [done|apply NoDup_nil_2|done]. }
  rewrite !Forall_cons, NoDup_cons. destruct (before x) as [[]|]; cbn; [|split; [done|naive_solver]].
  destruct (decide (key x ∈ seen)); cbn; [split; [done|naive_solver]|].
  destruct (after x) as [[]|]; cbn; [|split; [done|naive_solver]]. rewrite IH. split.
  - intros (Hf & Hnd & Hn). rewrite Forall_forall in Hn. split_and!; [done..| |done|done|].
    + intros (y & Hk & Hy)%list_elem_of_fmap. apply (Hn y Hy). set_solver.
    + apply Forall_forall. intros y Hy. specialize (Hn y Hy). set_solver.
  - intros ([_ Hf] & [Hx Hnd] & _ & Hn). split_and!; [done..|]. rewrite Forall_forall in Hn |- *.
    intros y Hy. specialize (Hn y Hy). apply not_elem_of_union. split; [|done].
    apply not_elem_of_singleton. intros Hk. apply Hx. rewrite <- Hk. by apply list_elem_of_fmap_2.
Qed.

Lemma each_new_Ok l u :
  each_new ∅ l = Ok u ↔
  Forall (λ x, before x = Ok tt ∧ after x = Ok tt) l ∧ NoDup (key <$> l).
Proof.
  rewrite each_new_seen. split; [naive_solver|]. intros [??]. split_and!; [done..|].
  apply Forall_forall. set_solver.
Qed.
End each_new.

(** A loop that only checks. *)
Definition for_each {A E : Type} (check : A → result E unit) (l : list A) : result E unit :=
  _ ← map_result check l; Ok tt.

Lemma for_each_Ok {A E : Type} (check : A → result E unit) l u :
  for_each check l = Ok u ↔ Forall (λ x, check x = Ok tt) l.
Proof.
  unfold for_each. destruct u. rewrite bind_Ok. setoid_rewrite map_result_Ok. split.
  - intros (l' & H & _). induction H as [|x [] l l' Hx _ IH]; by constructor.
  - intros H. exists (replicate (length l) tt). split; [|done].
    induction H as [|x l Hx _ IH]; by constructor.
Qed.

(** [iter().map(..).collect::<HashMap<_, _>>()]: the last entry of a key
    stays. *)
Definition collect_map {A B : Type} (key : A → string) (value : A → B) (l : list A) : gmap string B :=
  foldl (λ m x, <[key x := value x]> m) ∅ l.

Lemma collect_map_lookup {A B : Type} (key : A → string) (value : A → B) l k v :
  NoDup (key <$> l) →
  collect_map key value l !! k = Some v ↔ ∃ x, x ∈ l ∧ key x = k ∧ value x = v.
Proof.
  unfold collect_map. revert k v. induction l as [|x l IH] using rev_ind; intros k v.
  { intros _. cbn. rewrite lookup_empty. split; [done|set_solver]. }
  rewrite fmap_app, foldl_app. intros (Hnd & Hx & _)%NoDup_app. cbn. destruct (decide (key x = k)) as [<-|Hne].
  - rewrite lookup_insert_eq. split; [intros [= <-]; exists x; set_solver|].
    intros (y & [Hy|Hy%list_elem_of_singleton]%elem_of_app & Hk & <-); [|by subst y].
    destruct (Hx (key y)); [by apply list_elem_of_fmap_2|set_solver].
  - rewrite lookup_insert_ne by done. rewrite IH by done. split; [intros (y & ?); exists y; set_solver|].
    intros (y & [Hy|Hy%list_elem_of_singleton]%elem_of_app & Hk & Hv); [by exists y|by subst y].
Qed.
