(* ===== verification/Domain.v ===== *)
(** * The coordinator's domain types

    Models [coordinator/src/domain.rs], [error.rs], [correlation.rs] and
    [ids.rs]: the lifecycle states with their database spellings, the records
    the store hands out, the requests it accepts and the errors it returns.
    Identifiers are newtypes over [String] and are [string]s here; a
    [DateTime<Utc>] is a count of microseconds since the epoch. *)

From S2P Require Import Prelude.
From Stdlib Require Import ZArith Ascii String.
From stdpp Require Import base gmap strings list.

#[local] Open Scope string_scope.
#[local] Open Scope Z_scope.
#[local] Open Scope list_scope.

(** ** Errors *)

(** What the database itself reports ([sqlx::Error]): a violated uniqueness,
    [CHECK] or foreign-key constraint, a column value outside its type, or a
    query that had to return a row and returned none. *)
Inductive DbError : Type :=
| UniqueViolation
| CheckViolation
| ForeignKeyViolation
| NumericOutOfRange
| RowNotFound.

Inductive CoordinatorError : Type :=
| Database (e : DbError)
| Serialization
| InvalidJobDefinition (message : list fmt_part)
| InvalidInput (message : list fmt_part)
| JobNotFound (job_id : string)
| JobNotCancellable (job_id state : string)
| JobNotContinuable (job_id state : string)
| JobCancellationRequested (job_id : string)
| WorkspaceNotFound (job_id : string)
| ExecutionEnvironmentNotFound (job_id : string)
| ExecutionEnvironmentGenerationStale (job_id : string) (generation : Z)
| Workspace (message : list fmt_part)
| WorkspaceRebindRequired (job_id : string) (reason : list fmt_part)
| AttemptNotRunning (attempt_id : string)
| AttemptLeaseUnavailable (attempt_id : string)
| CorrelationMismatch
| CheckpointCorrelationMismatch
| ThreadStateOwnershipMismatch (attempt_id thread_id : string)
| UnsupportedState (kind value : string)
| NumericRange (field : string).

#[global] Instance DbError_eq_dec : EqDecision DbError.
Proof. solve_decision. Defined.
#[global] Instance CoordinatorError_eq_dec : EqDecision CoordinatorError.
Proof. solve_decision. Defined.

Abbreviation Result := (result CoordinatorError).

(** ** Lifecycle states *)

Inductive WorkspaceState : Type := WsActive | WsRemoved.

Definition WorkspaceState_from_database_value (value : string) : Result WorkspaceState :=
  if decide (value = "active") then Ok WsActive else
  if decide (value = "removed") then Ok WsRemoved else
  Err (UnsupportedState "workspace" value).

Inductive JobState : Type :=
| JobQueued
| JobRunning
| JobCancelling
| JobSucceeded
| JobFailed
| JobCancelled.

#[global] Instance JobState_eq_dec : EqDecision JobState.
Proof. solve_decision. Defined.

Definition JobState_as_database_value (s : JobState) : string :=
  match s with
  | JobQueued => "queued"
  | JobRunning => "running"
  | JobCancelling => "cancelling"
  | JobSucceeded => "succeeded"
  | JobFailed => "failed"
  | JobCancelled => "cancelled"
  end.

Definition JobState_from_database_value (value : string) : Result JobState :=
  if decide (value = "queued") then Ok JobQueued else
  if decide (value = "running") then Ok JobRunning else
  if decide (value = "cancelling") then Ok JobCancelling else
  if decide (value = "succeeded") then Ok JobSucceeded else
  if decide (value = "failed") then Ok JobFailed else
  if decide (value = "cancelled") then Ok JobCancelled else
  Err (UnsupportedState "job" value).

Inductive OperationState : Type :=
| OpReady
| OpRunning
| OpRetryWait
| OpSucceeded
| OpFailed
| OpCancelled.

#[global] Instance OperationState_eq_dec : EqDecision OperationState.
Proof. solve_decision. Defined.

Definition OperationState_from_database_value (value : string) : Result OperationState :=
  if decide (value = "ready") then Ok OpReady else
  if decide (value = "running") then Ok OpRunning else
  if decide (value = "retry_wait") then Ok OpRetryWait else
  if decide (value = "succeeded") then Ok OpSucceeded else
  if decide (value = "failed") then Ok OpFailed else
  if decide (value = "cancelled") then Ok OpCancelled else
  Err (UnsupportedState "operation" value).

Inductive AttemptState : Type :=
| AttRunning
| AttSucceeded
| AttFailed
| AttAbandoned.

Definition AttemptState_from_database_value (value : string) : Result AttemptState :=
  if decide (value = "running") then Ok AttRunning else
  if decide (value = "succeeded") then Ok AttSucceeded else
  if decide (value = "failed") then Ok AttFailed else
  if decide (value = "abandoned") then Ok AttAbandoned else
  Err (UnsupportedState "attempt" value).

Inductive ExecutionEnvironmentDesiredState : Type := DesiredActive | DesiredReleased.

#[global] Instance DesiredState_eq_dec : EqDecision ExecutionEnvironmentDesiredState.
Proof. solve_decision. Defined.

Definition DesiredState_from_database_value (value : string) : Result ExecutionEnvironmentDesiredState :=
  if decide (value = "active") then Ok DesiredActive else
  if decide (value = "released") then Ok DesiredReleased else
  Err (UnsupportedState "execution environment desired state" value).

(** The derived [Debug] of the desired state. *)
Definition DesiredState_debug (d : ExecutionEnvironmentDesiredState) : string :=
  match d with DesiredActive => "Active" | DesiredReleased => "Released" end.

Inductive ExecutionEnvironmentStatus : Type :=
| EnvProvisioning
| EnvReady
| EnvReleasing
| EnvReleased
| EnvFailed.

#[global] Instance EnvironmentStatus_eq_dec : EqDecision ExecutionEnvironmentStatus.
Proof. solve_decision. Defined.

Definition EnvironmentStatus_from_database_value (value : string) : Result ExecutionEnvironmentStatus :=
  if decide (value = "provisioning") then Ok EnvProvisioning else
  if decide (value = "ready") then Ok EnvReady else
  if decide (value = "releasing") then Ok EnvReleasing else
  if decide (value = "released") then Ok EnvReleased else
  if decide (value = "failed") then Ok EnvFailed else
  Err (UnsupportedState "execution environment lifecycle" value).

Inductive RecoveryCause : Type := NewOperation | RetryScheduled | LeaseExpired.

#[global] Instance RecoveryCause_eq_dec : EqDecision RecoveryCause.
Proof. solve_decision. Defined.

Definition RecoveryCause_as_database_value (c : RecoveryCause) : string :=
  match c with
  | NewOperation => "new_operation"
  | RetryScheduled => "retry_scheduled"
  | LeaseExpired => "lease_expired"
  end.

Definition RecoveryCause_from_database_value (value : string) : Result RecoveryCause :=
  if decide (value = "new_operation") then Ok NewOperation else
  if decide (value = "retry_scheduled") then Ok RetryScheduled else
  if decide (value = "lease_expired") then Ok LeaseExpired else
  Err (UnsupportedState "recovery cause" value).

(** ** Requests *)

Record OperationDefinition : Type := mkOperationDefinition {
  od_kind : string;
  od_input : Value;
  od_max_attempts : Z;
}.

Record JobDefinition : Type := mkJobDefinition {
  jd_kind : string;
  jd_input : Value;
  jd_operations : list OperationDefinition;
}.

Record ExecutionProfile : Type := mkExecutionProfile {
  ep_provider : string;
  ep_model : string;
}.

Record NewJobEvent : Type := mkNewJobEvent {
  nje_job_id : string;
  nje_kind : string;
  nje_payload : Value;
}.

Record NewAttemptEvent : Type := mkNewAttemptEvent {
  nae_kind : string;
  nae_payload : Value;
  nae_deduplication_key : option string;
}.

Record NewCheckpoint : Type := mkNewCheckpoint {
  nc_attempt_id : string;
  nc_kind : string;
  nc_payload : Value;
  nc_workspace_root : option string;
  nc_workspace_revision : option string;
  nc_correlation_id : option string;
}.

Record WorkspaceBinding : Type := mkWorkspaceBinding {
  wb_job_id : string;
  wb_repository_id : string;
  wb_repository : string;
  wb_base_ref : string;
  wb_base_revision : string;
  wb_branch_name : string;
  wb_root : string;
  wb_revision : string;
}.

Record ClaimRequest : Type := mkClaimRequest {
  cr_owner_instance_id : string;
  cr_lease_seconds : Z;
  cr_execution_profile : option ExecutionProfile;
}.

(** A failed attempt's disposition and an attempt's settlement. *)
Inductive AttemptFailure : Type :=
| RetryAt (retry_at : Z) (detail : Value)
| Terminal (detail : Value).

Inductive AttemptSettlement : Type :=
| SettleSucceeded
| SettleFailed (failure : AttemptFailure).

(** Third-party text the store depends on but does not define: PostgreSQL's
    text of a JSON value that is neither a string nor null (the [->>] and
    [#>>] operators), and chrono's RFC 3339 text of a time. *)
Class External : Type := {
  pg_json_text : Value → string;
  rfc3339 : Z → string;
}.

(** PostgreSQL's [value ->> key] and [value #>> path]: SQL [NULL] for a
    missing key and for a JSON null, the contents of a string, the text of
    anything else. *)
Definition json_text `{External} (v : Value) : option string :=
  match v with
  | Null => None
  | Str s => Some s
  | v => Some (pg_json_text v)
  end.

Definition json_field_text `{External} (k : string) (v : Value) : option string :=
  value_get k v ≫= json_text.

Definition json_path_text `{External} (k1 k2 : string) (v : Value) : option string :=
  o ← value_get k1 v; value_get k2 o ≫= json_text.

(** [serde_json::to_value] of a failure: internally tagged with
    [disposition], in camel case. *)
Definition AttemptFailure_to_value `{External} (f : AttemptFailure) : Value :=
  match f with
  | RetryAt retry_at detail =>
      Object [("detail", detail); ("disposition", Str "retryAt"); ("retryAt", Str (rfc3339 retry_at))]
  | Terminal detail => Object [("detail", detail); ("disposition", Str "terminal")]
  end.

(** ** Records the store hands out *)

(** One exclusive lease generation of an attempt. *)
Record AttemptFence : Type := mkAttemptFence {
  af_attempt_id : string;
  af_owner_instance_id : string;
  af_lease_epoch : Z;
}.

#[global] Instance AttemptFence_eq_dec : EqDecision AttemptFence.
Proof. solve_decision. Defined.

Record Correlation : Type := mkCorrelation {
  co_job_id : string;
  co_operation_id : string;
  co_attempt_id : string;
  co_request_id : string;
  co_thread_id : option string;
  co_turn_id : option string;
  co_item_id : option string;
}.

Record DurableCorrelationRecord : Type := mkDurableCorrelationRecord {
  dc_correlation_id : string;
  dc_correlation : Correlation;
  dc_observed_at : Z;
}.

Record JobRecord : Type := mkJobRecord {
  job_id : string;
  job_kind : string;
  job_input : Value;
  job_state : JobState;
  job_created_at : Z;
  job_updated_at : Z;
}.

Record OperationRecord : Type := mkOperationRecord {
  op_operation_id : string;
  op_job_id : string;
  op_ordinal : Z;
  op_kind : string;
  op_input : Value;
  op_state : OperationState;
  op_max_attempts : Z;
  op_next_eligible_at : Z;
  op_created_at : Z;
  op_updated_at : Z;
}.

Record DurableJob : Type := mkDurableJob {
  dj_job : JobRecord;
  dj_operations : list OperationRecord;
}.

Record AttemptRecord : Type := mkAttemptRecord {
  at_attempt_id : string;
  at_operation_id : string;
  at_attempt_number : Z;
  at_state : AttemptState;
  at_owner_instance_id : string;
  at_lease_epoch : Z;
  at_lease_expires_at : Z;
  at_recovery_cause : RecoveryCause;
  at_resumes_attempt_id : option string;
  at_resumes_checkpoint_id : option string;
  at_failure : option Value;
  at_started_at : Z;
  at_finished_at : option Z;
}.

(** [AttemptRecord::fence]. *)
Definition fence (a : AttemptRecord) : AttemptFence :=
  mkAttemptFence (at_attempt_id a) (at_owner_instance_id a) (at_lease_epoch a).

Record CheckpointRecord : Type := mkCheckpointRecord {
  cp_checkpoint_id : string;
  cp_attempt_id : string;
  cp_sequence : Z;
  cp_kind : string;
  cp_payload : Value;
  cp_workspace_root : option string;
  cp_workspace_revision : option string;
  cp_correlation_id : option string;
  cp_created_at : Z;
}.

Record StageCheckpointRecord : Type := mkStageCheckpointRecord {
  sc_operation_id : string;
  sc_ordinal : Z;
  sc_operation_kind : string;
  sc_checkpoint : CheckpointRecord;
}.

Record JobEventRecord : Type := mkJobEventRecord {
  je_sequence : Z;
  je_job_id : string;
  je_operation_id : option string;
  je_attempt_id : option string;
  je_kind : string;
  je_payload : Value;
  je_created_at : Z;
}.

Record JobEventPage : Type := mkJobEventPage {
  jp_events : list JobEventRecord;
  jp_next_cursor : Z;
}.

Record WorkspaceRecord : Type := mkWorkspaceRecord {
  wr_job_id : string;
  wr_repository_id : string;
  wr_repository : string;
  wr_base_ref : string;
  wr_base_revision : string;
  wr_branch_name : string;
  wr_root : string;
  wr_revision : string;
  wr_state : WorkspaceState;
  wr_created_at : Z;
  wr_updated_at : Z;
}.

Record ExecutionEnvironmentRecord : Type := mkExecutionEnvironmentRecord {
  ee_job_id : string;
  ee_environment_id : string;
  ee_backend : string;
  ee_generation : Z;
  ee_desired_state : ExecutionEnvironmentDesiredState;
  ee_status : ExecutionEnvironmentStatus;
  ee_backend_ref : option string;
  ee_url : option string;
  ee_error : option string;
  ee_created_at : Z;
  ee_updated_at : Z;
}.

Record FactoryThreadStateRecord : Type := mkFactoryThreadStateRecord {
  ts_thread_id : string;
  ts_state : Value;
  ts_revision : Z;
  ts_created_at : Z;
  ts_updated_at : Z;
}.

Inductive ResumeStrategy : Type :=
| ResumeFresh
| FromCheckpoint (checkpoint : CheckpointRecord).

Record RecoverySelection : Type := mkRecoverySelection {
  rs_job_id : string;
  rs_operation_id : string;
  rs_operation_kind : string;
  rs_cause : RecoveryCause;
  rs_previous_attempt_id : option string;
  rs_next_attempt_number : Z;
  rs_max_attempts : Z;
  rs_resume : ResumeStrategy;
  rs_checkpoint_correlation : option DurableCorrelationRecord;
}.

Record RecoveryLease : Type := mkRecoveryLease {
  rl_selection : RecoverySelection;
  rl_attempt : AttemptRecord;
  rl_fence : AttemptFence;
}.

(** ** Facts *)

(** A job status parses to the state it prints from, and to no other. *)
Lemma JobState_from_database_value_Ok value state :
  JobState_from_database_value value = Ok state ↔ value = JobState_as_database_value state.
Proof.
  split; [|intros ->; by destruct state].
  unfold JobState_from_database_value. repeat case_decide; by intros [= <-].
Qed.
