(* ===== verification/Rows.v ===== *)
(** * Database rows and their conversion to records

    Models [coordinator/src/rows.rs]: the shape of every table row the store
    reads, with lifecycle columns still as text and counters still signed, and
    the fallible conversions into the domain records. *)

From S2P Require Import Prelude Domain.
From Stdlib Require Import ZArith Ascii String.
From stdpp Require Import base gmap strings list.

#[local] Open Scope string_scope.
#[local] Open Scope Z_scope.
#[local] Open Scope list_scope.

(** ** Rows *)

Record JobRow : Type := mkJobRow {
  jr_job_id : string;
  jr_kind : string;
  jr_input : Value;
  jr_status : string;
  jr_created_at : Z;
  jr_updated_at : Z;
}.

Record OperationRow : Type := mkOperationRow {
  or_operation_id : string;
  or_job_id : string;
  or_ordinal : Z;
  or_kind : string;
  or_input : Value;
  or_status : string;
  or_max_attempts : Z;
  or_next_eligible_at : Z;
  or_created_at : Z;
  or_updated_at : Z;
}.

Record AttemptRow : Type := mkAttemptRow {
  ar_attempt_id : string;
  ar_operation_id : string;
  ar_attempt_number : Z;
  ar_status : string;
  ar_owner_instance_id : string;
  ar_lease_epoch : Z;
  ar_lease_expires_at : Z;
  ar_recovery_cause : string;
  ar_resumes_attempt_id : option string;
  ar_resumes_checkpoint_id : option string;
  ar_failure : option Value;
  ar_started_at : Z;
  ar_finished_at : option Z;
}.

Record CorrelationRow : Type := mkCorrelationRow {
  cor_correlation_id : string;
  cor_job_id : string;
  cor_operation_id : string;
  cor_attempt_id : string;
  cor_request_id : string;
  cor_thread_id : option string;
  cor_turn_id : option string;
  cor_item_id : option string;
  cor_observed_at : Z;
}.

Record CheckpointRow : Type := mkCheckpointRow {
  ckr_checkpoint_id : string;
  ckr_attempt_id : string;
  ckr_sequence : Z;
  ckr_kind : string;
  ckr_payload : Value;
  ckr_workspace_root : option string;
  ckr_workspace_revision : option string;
  ckr_correlation_id : option string;
  ckr_created_at : Z;
}.

Record StageCheckpointRow : Type := mkStageCheckpointRow {
  scr_operation_id : string;
  scr_ordinal : Z;
  scr_operation_kind : string;
  scr_checkpoint_id : string;
  scr_attempt_id : string;
  scr_sequence : Z;
  scr_checkpoint_kind : string;
  scr_payload : Value;
  scr_workspace_root : option string;
  scr_workspace_revision : option string;
  scr_correlation_id : option string;
  scr_created_at : Z;
}.

(** The selected columns of an event; the table row adds the deduplication
    key, which is never selected. *)
Record JobEventRow : Type := mkJobEventRow {
  jer_sequence : Z;
  jer_job_id : string;
  jer_operation_id : option string;
  jer_attempt_id : option string;
  jer_kind : string;
  jer_payload : Value;
  jer_created_at : Z;
}.

Record ThreadStateRow : Type := mkThreadStateRow {
  tsr_thread_id : string;
  tsr_state : Value;
  tsr_revision : Z;
  tsr_created_at : Z;
  tsr_updated_at : Z;
}.

Record WorkspaceRow : Type := mkWorkspaceRow {
  wsr_job_id : string;
  wsr_repository_id : string;
  wsr_repository : string;
  wsr_base_ref : string;
  wsr_base_revision : string;
  wsr_branch_name : string;
  wsr_root : string;
  wsr_revision : string;
  wsr_status : string;
  wsr_created_at : Z;
  wsr_updated_at : Z;
}.

Record ExecutionEnvironmentRow : Type := mkExecutionEnvironmentRow {
  eer_job_id : string;
  eer_environment_id : string;
  eer_backend : string;
  eer_generation : Z;
  eer_desired_state : string;
  eer_status : string;
  eer_backend_ref : option string;
  eer_url : option string;
  eer_error : option string;
  eer_created_at : Z;
  eer_updated_at : Z;
}.

(** The recovery query's row.  Its checkpoint and correlation columns come
    from outer joins and are all nullable. *)
Record RecoverySelectionRow : Type := mkRecoverySelectionRow {
  rsr_job_id : string;
  rsr_operation_id : string;
  rsr_operation_kind : string;
  rsr_operation_status : string;
  rsr_attempts_made : Z;
  rsr_max_attempts : Z;
  rsr_previous_attempt_id : option string;
  rsr_checkpoint_id : option string;
  rsr_checkpoint_attempt_id : option string;
  rsr_checkpoint_sequence : option Z;
  rsr_checkpoint_kind : option string;
  rsr_checkpoint_payload : option Value;
  rsr_checkpoint_workspace_root : option string;
  rsr_checkpoint_workspace_revision : option string;
  rsr_checkpoint_correlation_id : option string;
  rsr_checkpoint_created_at : option Z;
  rsr_correlation_id : option string;
  rsr_correlation_job_id : option string;
  rsr_correlation_operation_id : option string;
  rsr_correlation_attempt_id : option string;
  rsr_correlation_request_id : option string;
  rsr_correlation_thread_id : option string;
  rsr_correlation_turn_id : option string;
  rsr_correlation_item_id : option string;
  rsr_correlation_observed_at : option Z;
}.

(** ** Numeric conversions *)

Definition to_u32 (value : Z) (field : string) : Result Z :=
  ok_or (u32_try_from value) (NumericRange field).

Definition to_u64 (value : Z) (field : string) : Result Z :=
  ok_or (u64_try_from value) (NumericRange field).

(** ** Conversions *)

Definition JobRecord_try_from (row : JobRow) : Result JobRecord :=
  state ← JobState_from_database_value (jr_status row);
  Ok (mkJobRecord (jr_job_id row) (jr_kind row) (jr_input row) state
        (jr_created_at row) (jr_updated_at row)).

Definition ExecutionEnvironmentRecord_try_from (row : ExecutionEnvironmentRow) :
    Result ExecutionEnvironmentRecord :=
  generation ← to_u64 (eer_generation row) "execution environment generation";
  desired_state ← DesiredState_from_database_value (eer_desired_state row);
  status ← EnvironmentStatus_from_database_value (eer_status row);
  Ok (mkExecutionEnvironmentRecord (eer_job_id row) (eer_environment_id row) (eer_backend row)
        generation desired_state status (eer_backend_ref row) (eer_url row) (eer_error row)
        (eer_created_at row) (eer_updated_at row)).

Definition JobEventRecord_try_from (row : JobEventRow) : Result JobEventRecord :=
  sequence ← to_u64 (jer_sequence row) "job event sequence";
  Ok (mkJobEventRecord sequence (jer_job_id row) (jer_operation_id row) (jer_attempt_id row)
        (jer_kind row) (jer_payload row) (jer_created_at row)).

Definition OperationRecord_try_from (row : OperationRow) : Result OperationRecord :=
  ordinal ← to_u32 (or_ordinal row) "operation ordinal";
  state ← OperationState_from_database_value (or_status row);
  max_attempts ← to_u32 (or_max_attempts row) "maximum attempts";
  Ok (mkOperationRecord (or_operation_id row) (or_job_id row) ordinal (or_kind row)
        (or_input row) state max_attempts (or_next_eligible_at row)
        (or_created_at row) (or_updated_at row)).

Definition AttemptRecord_try_from (row : AttemptRow) : Result AttemptRecord :=
  attempt_number ← to_u32 (ar_attempt_number row) "attempt number";
  state ← AttemptState_from_database_value (ar_status row);
  lease_epoch ← to_u64 (ar_lease_epoch row) "lease epoch";
  recovery_cause ← RecoveryCause_from_database_value (ar_recovery_cause row);
  Ok (mkAttemptRecord (ar_attempt_id row) (ar_operation_id row) attempt_number state
        (ar_owner_instance_id row) lease_epoch (ar_lease_expires_at row) recovery_cause
        (ar_resumes_attempt_id row) (ar_resumes_checkpoint_id row) (ar_failure row)
        (ar_started_at row) (ar_finished_at row)).

Definition DurableCorrelationRecord_from (row : CorrelationRow) : DurableCorrelationRecord :=
  mkDurableCorrelationRecord (cor_correlation_id row)
    (mkCorrelation (cor_job_id row) (cor_operation_id row) (cor_attempt_id row)
       (cor_request_id row) (cor_thread_id row) (cor_turn_id row) (cor_item_id row))
    (cor_observed_at row).

Definition CheckpointRecord_try_from (row : CheckpointRow) : Result CheckpointRecord :=
  sequence ← to_u64 (ckr_sequence row) "checkpoint sequence";
  Ok (mkCheckpointRecord (ckr_checkpoint_id row) (ckr_attempt_id row) sequence
        (ckr_kind row) (ckr_payload row) (ckr_workspace_root row)
        (ckr_workspace_revision row) (ckr_correlation_id row) (ckr_created_at row)).

Definition StageCheckpointRecord_try_from (row : StageCheckpointRow) :
    Result StageCheckpointRecord :=
  ordinal ← to_u32 (scr_ordinal row) "operation ordinal";
  sequence ← to_u64 (scr_sequence row) "checkpoint sequence";
  Ok (mkStageCheckpointRecord (scr_operation_id row) ordinal (scr_operation_kind row)
        (mkCheckpointRecord (scr_checkpoint_id row) (scr_attempt_id row) sequence
           (scr_checkpoint_kind row) (scr_payload row) (scr_workspace_root row)
           (scr_workspace_revision row) (scr_correlation_id row) (scr_created_at row))).

Definition FactoryThreadStateRecord_try_from (row : ThreadStateRow) :
    Result FactoryThreadStateRecord :=
  revision ← to_u64 (tsr_revision row) "thread state revision";
  Ok (mkFactoryThreadStateRecord (tsr_thread_id row) (tsr_state row) revision
        (tsr_created_at row) (tsr_updated_at row)).

Definition WorkspaceRecord_try_from (row : WorkspaceRow) : Result WorkspaceRecord :=
  state ← WorkspaceState_from_database_value (wsr_status row);
  Ok (mkWorkspaceRecord (wsr_job_id row) (wsr_repository_id row) (wsr_repository row)
        (wsr_base_ref row) (wsr_base_revision row) (wsr_branch_name row) (wsr_root row)
        (wsr_revision row) state (wsr_created_at row) (wsr_updated_at row)).

(** The cause of a recovery is read off the operation's status. *)
Definition recovery_cause_of_status (status : string) : Result RecoveryCause :=
  if decide (status = "ready") then Ok NewOperation else
  if decide (status = "retry_wait") then Ok RetryScheduled else
  if decide (status = "running") then Ok LeaseExpired else
  Err (UnsupportedState "recoverable operation" status).

(** [i32] addition of the attempt counter; the source's addition is checked in
    debug builds and wraps in release builds, so the result is wrapped here. *)
Definition i32_wrapping_add (a b : Z) : Z :=
  (a + b - i32_min) `mod` (2 ^ 32) + i32_min.

(** A column that a matched outer join always fills. *)
Definition required {A : Type} (value : option A) (field : string) : Result A :=
  ok_or value (UnsupportedState "recovery row" ("missing " +:+ field)).

(** The checkpoint part of the row: absent when the join found none. *)
Definition selection_checkpoint (row : RecoverySelectionRow) : Result (option CheckpointRecord) :=
  match rsr_checkpoint_id row with
  | None => Ok None
  | Some checkpoint_id =>
      attempt_id ← required (rsr_checkpoint_attempt_id row) "checkpoint attempt";
      sequence ← required (rsr_checkpoint_sequence row) "checkpoint sequence";
      sequence ← to_u64 sequence "checkpoint sequence";
      kind ← required (rsr_checkpoint_kind row) "checkpoint kind";
      payload ← required (rsr_checkpoint_payload row) "checkpoint payload";
      created_at ← required (rsr_checkpoint_created_at row) "checkpoint timestamp";
      Ok (Some (mkCheckpointRecord checkpoint_id attempt_id sequence kind payload
                  (rsr_checkpoint_workspace_root row) (rsr_checkpoint_workspace_revision row)
                  (rsr_checkpoint_correlation_id row) created_at))
  end.

Definition selection_correlation (row : RecoverySelectionRow) :
    Result (option DurableCorrelationRecord) :=
  match rsr_correlation_id row with
  | None => Ok None
  | Some correlation_id =>
      job_id ← required (rsr_correlation_job_id row) "correlation job";
      operation_id ← required (rsr_correlation_operation_id row) "correlation operation";
      attempt_id ← required (rsr_correlation_attempt_id row) "correlation attempt";
      request_id ← required (rsr_correlation_request_id row) "correlation request";
      observed_at ← required (rsr_correlation_observed_at row) "correlation timestamp";
      Ok (Some (mkDurableCorrelationRecord correlation_id
                  (mkCorrelation job_id operation_id attempt_id request_id
                     (rsr_correlation_thread_id row) (rsr_correlation_turn_id row)
                     (rsr_correlation_item_id row))
                  observed_at))
  end.

Definition RecoverySelection_try_from (row : RecoverySelectionRow) : Result RecoverySelection :=
  cause ← recovery_cause_of_status (rsr_operation_status row);
  checkpoint ← selection_checkpoint row;
  let resume := match checkpoint with Some c => FromCheckpoint c | None => ResumeFresh end in
  checkpoint_correlation ← selection_correlation row;
  let next_attempt_number :=
    match cause with
    | LeaseExpired => rsr_attempts_made row
    | NewOperation | RetryScheduled => i32_wrapping_add (rsr_attempts_made row) 1
    end in
  next ← to_u32 next_attempt_number "next attempt number";
  max_attempts ← to_u32 (rsr_max_attempts row) "maximum attempts";
  Ok (mkRecoverySelection (rsr_job_id row) (rsr_operation_id row) (rsr_operation_kind row)
        cause (rsr_previous_attempt_id row) next max_attempts resume checkpoint_correlation).

Lemma RecoverySelection_try_from_Ok row selection :
  RecoverySelection_try_from row = Ok selection →
  rs_job_id selection = rsr_job_id row ∧ rs_operation_id selection = rsr_operation_id row
  ∧ recovery_cause_of_status (rsr_operation_status row) = Ok (rs_cause selection)
  ∧ rs_previous_attempt_id selection = rsr_previous_attempt_id row
  ∧ (rs_cause selection ≠ LeaseExpired →
     rs_next_attempt_number selection = i32_wrapping_add (rsr_attempts_made row) 1)
  ∧ selection_checkpoint row = Ok (match rs_resume selection with
                                   | FromCheckpoint c => Some c | ResumeFresh => None end).
Proof.
  unfold RecoverySelection_try_from. intros Hs. cbv zeta in Hs. inv_tx. simpl.
  match goal with H : to_u32 (match _ with _ => _ end) _ = _ |- _ =>
    unfold to_u32, u32_try_from in H; apply ok_or_Ok, try_range_Some in H as [-> _] end.
  split_and!; try done.
  - by destruct (rs_cause _) || match goal with |- ?c ≠ _ → _ => by destruct c end.
  - match goal with H : selection_checkpoint _ = Ok ?c |- _ => by destruct c end.
Qed.

Lemma i32_wrapping_add_small a b :
  i32_min ≤ a + b ≤ i32_max → i32_wrapping_add a b = a + b.
Proof.
  unfold i32_wrapping_add, i32_min, i32_max. intros Hab. rewrite Z.mod_small by lia. lia.
Qed.

Lemma recovery_cause_of_status_Ok status cause :
  recovery_cause_of_status status = Ok cause →
  status = match cause with
           | NewOperation => "ready" | RetryScheduled => "retry_wait" | LeaseExpired => "running"
           end.
Proof. unfold recovery_cause_of_status. repeat case_decide; by intros [= <-]. Qed.

Lemma JobRecord_try_from_Ok row r :
  JobRecord_try_from row = Ok r ↔
  ∃ state, jr_status row = JobState_as_database_value state
    ∧ r = mkJobRecord (jr_job_id row) (jr_kind row) (jr_input row) state
            (jr_created_at row) (jr_updated_at row).
Proof.
  unfold JobRecord_try_from. rewrite bind_Ok. setoid_rewrite JobState_from_database_value_Ok.
  split; intros (state & Hs & E); exists state; (split; [done|congruence]).
Qed.
