(* ===== verification/Store.v ===== *)
(** * The durable tables

    Models the tables of [coordinator/src/schema.rs] and the shared helpers of
    [store.rs].  A [db] is the content of the PostgreSQL database: one map per
    table from its primary key, the event log in insertion order and the next
    value of the log's identity column.  Constraints a call can run into are checked where
    it writes; those no call can violate are theorems of [EnvironmentLaws]. *)

From S2P Require Import Prelude Domain Rows.
From Stdlib Require Import ZArith Ascii String.
From stdpp Require Import base gmap strings list.

#[local] Open Scope string_scope.
#[local] Open Scope Z_scope.
#[local] Open Scope list_scope.

(** An event table row: the selected columns and the deduplication key. *)
Record EventRow : Type := mkEventRow {
  ev_row : JobEventRow;
  ev_deduplication_key : option string;
}.

Record db : Type := mkDb {
  jobs : gmap string JobRow;
  operations : gmap string OperationRow;
  attempts : gmap string AttemptRow;
  correlations : gmap string CorrelationRow;
  checkpoints : gmap string CheckpointRow;
  events : list EventRow;
  next_sequence : Z;
  thread_states : gmap string ThreadStateRow;
  workspaces : gmap string WorkspaceRow;
  environments : gmap string ExecutionEnvironmentRow;
}.

Definition empty_db : db := mkDb ∅ ∅ ∅ ∅ ∅ [] 1 ∅ ∅ ∅.

Abbreviation Tx := (tx db CoordinatorError).
Abbreviation Proc := (proc db CoordinatorError).

(** ** Writes to one table *)

Definition set_jobs (m : gmap string JobRow) (s : db) : db :=
  mkDb m (operations s) (attempts s) (correlations s) (checkpoints s) (events s)
    (next_sequence s) (thread_states s) (workspaces s) (environments s).
Definition set_operations (m : gmap string OperationRow) (s : db) : db :=
  mkDb (jobs s) m (attempts s) (correlations s) (checkpoints s) (events s)
    (next_sequence s) (thread_states s) (workspaces s) (environments s).
Definition set_attempts (m : gmap string AttemptRow) (s : db) : db :=
  mkDb (jobs s) (operations s) m (correlations s) (checkpoints s) (events s)
    (next_sequence s) (thread_states s) (workspaces s) (environments s).
Definition set_correlations (m : gmap string CorrelationRow) (s : db) : db :=
  mkDb (jobs s) (operations s) (attempts s) m (checkpoints s) (events s)
    (next_sequence s) (thread_states s) (workspaces s) (environments s).
Definition set_checkpoints (m : gmap string CheckpointRow) (s : db) : db :=
  mkDb (jobs s) (operations s) (attempts s) (correlations s) m (events s)
    (next_sequence s) (thread_states s) (workspaces s) (environments s).
Definition set_events (l : list EventRow) (n : Z) (s : db) : db :=
  mkDb (jobs s) (operations s) (attempts s) (correlations s) (checkpoints s) l n
    (thread_states s) (workspaces s) (environments s).
Definition set_thread_states (m : gmap string ThreadStateRow) (s : db) : db :=
  mkDb (jobs s) (operations s) (attempts s) (correlations s) (checkpoints s) (events s)
    (next_sequence s) m (workspaces s) (environments s).
Definition set_workspaces (m : gmap string WorkspaceRow) (s : db) : db :=
  mkDb (jobs s) (operations s) (attempts s) (correlations s) (checkpoints s) (events s)
    (next_sequence s) (thread_states s) m (environments s).
Definition set_environments (m : gmap string ExecutionEnvironmentRow) (s : db) : db :=
  mkDb (jobs s) (operations s) (attempts s) (correlations s) (checkpoints s) (events s)
    (next_sequence s) (thread_states s) (workspaces s) m.

(** ** Row updates: the [SET] lists of the store's statements *)

Definition job_with_status (status : string) (now : Z) (r : JobRow) : JobRow :=
  mkJobRow (jr_job_id r) (jr_kind r) (jr_input r) status (jr_created_at r) now.

Definition operation_with_status (status : string) (now : Z) (r : OperationRow) : OperationRow :=
  mkOperationRow (or_operation_id r) (or_job_id r) (or_ordinal r) (or_kind r) (or_input r)
    status (or_max_attempts r) (or_next_eligible_at r) (or_created_at r) now.

Definition attempt_with_lease (expires_at : Z) (r : AttemptRow) : AttemptRow :=
  mkAttemptRow (ar_attempt_id r) (ar_operation_id r) (ar_attempt_number r) (ar_status r)
    (ar_owner_instance_id r) (ar_lease_epoch r) expires_at (ar_recovery_cause r)
    (ar_resumes_attempt_id r) (ar_resumes_checkpoint_id r) (ar_failure r)
    (ar_started_at r) (ar_finished_at r).

(** An attempt that ends: its status, its failure payload and its end time. *)
Definition attempt_finished (status : string) (failure : option Value) (now : Z) (r : AttemptRow) :
    AttemptRow :=
  mkAttemptRow (ar_attempt_id r) (ar_operation_id r) (ar_attempt_number r) status
    (ar_owner_instance_id r) (ar_lease_epoch r) (ar_lease_expires_at r) (ar_recovery_cause r)
    (ar_resumes_attempt_id r) (ar_resumes_checkpoint_id r) failure
    (ar_started_at r) (Some now).

(** ** [store.rs] *)

Definition DEFAULT_QUERY_CONNECTIONS : Z := 8.
Definition DEFAULT_LOCK_CONNECTIONS : Z := 8.
Definition WORKER_LOCK_HEADROOM : Z := 2.
Definition MAX_WORKER_SLOTS : Z := 32.

Definition worker_pool_limits (slots : Z) : Result (Z * Z) :=
  if negb (in_range 1 MAX_WORKER_SLOTS slots)
  then Err (InvalidInput [Lit "worker slots must be between 1 and "; DisplayZ MAX_WORKER_SLOTS])
  else Ok (DEFAULT_QUERY_CONNECTIONS, slots + WORKER_LOCK_HEADROOM)%Z.

Definition database_lease_epoch (lease_epoch : Z) : Result Z :=
  ok_or (i64_try_from lease_epoch) (NumericRange "lease epoch").

Definition database_sequence (sequence : Z) (field : string) : Result Z :=
  ok_or (i64_try_from sequence) (NumericRange field).

(** [COALESCE(MAX(column), d) + 1] in a column of the given upper bound. *)
Definition max_of (d : Z) (l : list Z) : Z :=
  match l with [] => d | x :: r => foldr Z.max x r end.

Definition checked_column (hi : Z) (z : Z) : Result Z :=
  ok_or (try_range (- hi - 1) hi z) (Database NumericOutOfRange).

(** [INSERT] into a table with a primary key. *)
Definition insert_unique {A : Type} (k : string) (v : A) (m : gmap string A) : Result (gmap string A) :=
  match m !! k with
  | Some _ => Err (Database UniqueViolation)
  | None => Ok (<[k := v]> m)
  end.

(** [INSERT] into [factory_operations]: the [CHECK]s on the ordinal and the
    attempt limit and the [UNIQUE (job_id, ordinal)] constraint. *)
Definition insert_operation (row : OperationRow) : Tx unit :=
  table ← gets operations;
  lift (guard_err ((or_ordinal row <? 0) || (or_max_attempts row <=? 0)) (Database CheckViolation));;
  lift (guard_err (exists_row (λ o, bool_decide (or_job_id o = or_job_id row)
                                    && bool_decide (or_ordinal o = or_ordinal row)) table)
          (Database UniqueViolation));;
  table' ← lift (insert_unique (or_operation_id row) row table);
  modify (set_operations table').

(** [INSERT] into [factory_attempts], [UNIQUE (operation_id, attempt_number)]
    included. *)
Definition insert_attempt (row : AttemptRow) : Tx unit :=
  table ← gets attempts;
  lift (guard_err (ar_attempt_number row <=? 0) (Database CheckViolation));;
  lift (guard_err (exists_row (λ a, bool_decide (ar_operation_id a = ar_operation_id row)
                                    && bool_decide (ar_attempt_number a = ar_attempt_number row)) table)
          (Database UniqueViolation));;
  table' ← lift (insert_unique (ar_attempt_id row) row table);
  modify (set_attempts table').

(** Primary-key updates: [UPDATE ... WHERE id = $1]. *)
Definition update_job (job_id : string) (f : JobRow → JobRow) : Tx unit :=
  modify (λ s, set_jobs (alter f job_id (jobs s)) s).
Definition update_operation (operation_id : string) (f : OperationRow → OperationRow) : Tx unit :=
  modify (λ s, set_operations (alter f operation_id (operations s)) s).
Definition update_attempt (attempt_id : string) (f : AttemptRow → AttemptRow) : Tx unit :=
  modify (λ s, set_attempts (alter f attempt_id (attempts s)) s).

Lemma insert_unique_Ok {A : Type} k (v : A) m m' :
  insert_unique k v m = Ok m' ↔ m !! k = None ∧ m' = <[k := v]> m.
Proof. unfold insert_unique. destruct (m !! k); naive_solver. Qed.

Lemma checked_column_Ok hi z z' :
  checked_column hi z = Ok z' ↔ z' = z ∧ (- hi - 1 ≤ z ≤ hi)%Z.
Proof. unfold checked_column. by rewrite ok_or_Ok, try_range_Some. Qed.

Lemma max_of_ge d l x : x ∈ l → (x ≤ max_of d l)%Z.
Proof.
  destruct l as [|y r]; [by inversion 1|]. cbn. revert x.
  induction r as [|z r IH]; intros x; cbn.
  - rewrite list_elem_of_singleton. lia.
  - intros [->|[->|Hx]%elem_of_cons]%elem_of_cons; [|lia|].
    + assert (y ≤ foldr Z.max y r)%Z by (apply IH; left). lia.
    + assert (x ≤ foldr Z.max y r)%Z by (apply IH; by right). lia.
Qed.

Lemma max_of_elem d l : l ≠ [] → max_of d l ∈ l.
Proof.
  destruct l as [|y r]; [done|]. intros _. cbn.
  induction r as [|z r IH]; cbn; [left|].
  destruct (Z.max_spec z (foldr Z.max y r)) as [[_ ->]|[_ ->]].
  - apply elem_of_cons in IH as [->|IH]; [left|do 2 right; done].
  - right. left.
Qed.
