(* ===== verification/Leases.v ===== *)
(** * Attempt leases and fenced writes

    Models the fencing half of [coordinator/src/store/attempts.rs]: the lookup
    that locks an attempt's job, operation and attempt rows for the holder of
    a live lease ([lock_attempt_context]), lease renewal and release, and the
    progress writes that need nothing but the fence (correlations, checkpoints
    and thread states).

    Every call takes the time [now] that [clock_timestamp()] reads during the
    call and, where the source draws a UUID, the identifier it drew. *)

From S2P Require Import Prelude Domain Rows Store.
From Stdlib Require Import ZArith Ascii String.
From stdpp Require Import base gmap strings list.

#[local] Open Scope string_scope.
#[local] Open Scope Z_scope.
#[local] Open Scope list_scope.

Record AttemptContextRow : Type := mkAttemptContextRow {
  ctx_operation_id : string;
  ctx_job_id : string;
  ctx_job_status : string;
  ctx_attempt_number : Z;
  ctx_max_attempts : Z;
}.

(** The [WHERE] clause shared by the fenced statements: the attempt still
    belongs to the fence's owner and epoch, is running, and its lease has not
    expired. *)
Definition lease_live (now : Z) (owner : string) (epoch : Z) (a : AttemptRow) : bool :=
  bool_decide (ar_owner_instance_id a = owner)
  && bool_decide (ar_lease_epoch a = epoch)
  && bool_decide (ar_status a = "running")
  && (now <? ar_lease_expires_at a)%Z.

(** The joined row of an attempt, its operation and its job. *)
Definition attempt_context (a : AttemptRow) (s : db) : option AttemptContextRow :=
  o ← operations s !! ar_operation_id a;
  j ← jobs s !! or_job_id o;
  Some (mkAttemptContextRow (ar_operation_id a) (or_job_id o) (jr_status j)
          (ar_attempt_number a) (or_max_attempts o)).

Definition lock_attempt_context (now : Z) (fence : AttemptFence) : Tx AttemptContextRow :=
  lease_epoch ← lift (database_lease_epoch (af_lease_epoch fence));
  row ← gets (λ s,
    a ← attempts s !! af_attempt_id fence;
    if lease_live now (af_owner_instance_id fence) lease_epoch a
    then attempt_context a s else None);
  lift (ok_or row (AttemptLeaseUnavailable (af_attempt_id fence))).

(** ** Lease renewal and release *)

(** [clock_timestamp() + (seconds * interval '1 second')]. *)
Definition lease_deadline (now lease_seconds : Z) : Z := (now + lease_seconds * 1000000)%Z.

(** One fenced [UPDATE ... RETURNING] of the attempt's lease. *)
Definition update_lease (now expires_at : Z) (fence : AttemptFence) (lease_epoch : Z) : Tx AttemptRow :=
  found ← gets (λ s, attempts s !! af_attempt_id fence);
  match found with
  | Some a =>
      if lease_live now (af_owner_instance_id fence) lease_epoch a then
        let a' := attempt_with_lease expires_at a in
        modify (λ s, set_attempts (<[af_attempt_id fence := a']> (attempts s)) s);;
        mret a'
      else throw (AttemptLeaseUnavailable (af_attempt_id fence))
  | None => throw (AttemptLeaseUnavailable (af_attempt_id fence))
  end.

Definition renew_attempt (now : Z) (fence : AttemptFence) (lease_seconds : Z) : Proc AttemptRecord :=
  row ← commit (
    lift (guard_err (bool_decide (lease_seconds = 0))
            (InvalidInput [Lit "renewed leases must be at least one second"]));;
    lease_epoch ← lift (database_lease_epoch (af_lease_epoch fence));
    update_lease now (lease_deadline now lease_seconds) fence lease_epoch);
  proc_lift (AttemptRecord_try_from row).

Definition relinquish_attempt (now : Z) (fence : AttemptFence) : Proc unit :=
  commit (
    lease_epoch ← lift (database_lease_epoch (af_lease_epoch fence));
    update_lease now now fence lease_epoch;;
    mret tt).

(** ** Reads *)

Definition load_attempt (attempt_id : string) : Proc AttemptRecord :=
  row ← commit (
    found ← gets (λ s, attempts s !! attempt_id);
    lift (ok_or found (AttemptNotRunning attempt_id)));
  proc_lift (AttemptRecord_try_from row).

Definition load_checkpoint (checkpoint_id : string) : Proc (option CheckpointRecord) :=
  found ← commit (gets (λ s, checkpoints s !! checkpoint_id));
  proc_lift (map_transpose CheckpointRecord_try_from found).

Definition load_thread_state (thread_id : string) : Proc (option FactoryThreadStateRecord) :=
  found ← commit (gets (λ s, thread_states s !! thread_id));
  proc_lift (map_transpose FactoryThreadStateRecord_try_from found).

(** ** Fenced progress writes *)

(** The join of the insert's [SELECT]: the attempt exists, belongs to the
    given operation, and the operation to the given job. *)
Definition correlation_consistent (c : Correlation) (s : db) : bool :=
  match attempts s !! co_attempt_id c with
  | Some a =>
      bool_decide (ar_operation_id a = co_operation_id c)
      && match operations s !! ar_operation_id a with
         | Some o => bool_decide (or_job_id o = co_job_id c)
         | None => false
         end
  | None => false
  end.

Definition append_correlation (now : Z) (new_id : string) (fence : AttemptFence)
    (correlation : Correlation) : Proc DurableCorrelationRecord :=
  row ← commit (
    lift (guard_err (negb (bool_decide (co_attempt_id correlation = af_attempt_id fence)))
            (InvalidInput [Lit "correlation attempt does not match its lease fence"]));;
    lock_attempt_context now fence;;
    consistent ← gets (correlation_consistent correlation);
    lift (guard_err (negb consistent) CorrelationMismatch);;
    let row := mkCorrelationRow new_id (co_job_id correlation) (co_operation_id correlation)
                 (co_attempt_id correlation) (co_request_id correlation)
                 (co_thread_id correlation) (co_turn_id correlation) (co_item_id correlation) now in
    table ← gets correlations;
    table' ← lift (insert_unique new_id row table);
    modify (set_correlations table');;
    mret row);
  proc_lift (Ok (DurableCorrelationRecord_from row)).

Definition validate_checkpoint (fence : AttemptFence) (checkpoint : NewCheckpoint) : Result unit :=
  guard_err (negb (bool_decide (nc_attempt_id checkpoint = af_attempt_id fence)))
    (InvalidInput [Lit "checkpoint attempt does not match its lease fence"]);;
  guard_err (is_blank (nc_kind checkpoint))
    (InvalidInput [Lit "checkpoint kind must not be empty"]).

(** The checkpoints of one attempt. *)
Definition attempt_checkpoints (attempt_id : string) (s : db) : list CheckpointRow :=
  select_rows (λ c, bool_decide (ckr_attempt_id c = attempt_id)) (checkpoints s).

Definition correlation_of_attempt (correlation_id attempt_id : string) (s : db) : bool :=
  match correlations s !! correlation_id with
  | Some c => bool_decide (cor_attempt_id c = attempt_id)
  | None => false
  end.

Definition insert_checkpoint (now : Z) (new_id : string) (checkpoint : NewCheckpoint) :
    Tx CheckpointRecord :=
  match nc_correlation_id checkpoint with
  | Some correlation_id =>
      matches_attempt ← gets (correlation_of_attempt correlation_id (nc_attempt_id checkpoint));
      lift (guard_err (negb matches_attempt) CheckpointCorrelationMismatch)
  | None => mret tt
  end;;
  highest ← gets (λ s, max_of 0 (ckr_sequence <$> attempt_checkpoints (nc_attempt_id checkpoint) s));
  sequence ← lift (checked_column i64_max (highest + 1)%Z);
  let row := mkCheckpointRow new_id (nc_attempt_id checkpoint) sequence (nc_kind checkpoint)
               (nc_payload checkpoint) (nc_workspace_root checkpoint)
               (nc_workspace_revision checkpoint) (nc_correlation_id checkpoint) now in
  table ← gets checkpoints;
  table' ← lift (insert_unique new_id row table);
  modify (set_checkpoints table');;
  lift (CheckpointRecord_try_from row).

Definition save_checkpoint (now : Z) (new_id : string) (fence : AttemptFence)
    (checkpoint : NewCheckpoint) : Proc CheckpointRecord :=
  commit (
    lift (validate_checkpoint fence checkpoint);;
    lock_attempt_context now fence;;
    insert_checkpoint now new_id checkpoint).

(** A thread belongs to an attempt when some correlation of the attempt
    observed it. *)
Definition thread_of_attempt (attempt_id thread_id : string) (s : db) : bool :=
  exists_row (λ c, bool_decide (cor_attempt_id c = attempt_id)
                   && bool_decide (cor_thread_id c = Some thread_id)) (correlations s).

(** The upsert's resulting row: revision 1, or the stored revision plus one. *)
Definition thread_state_upsert (now : Z) (thread_id : string) (state : Value)
    (found : option ThreadStateRow) : Result ThreadStateRow :=
  match found with
  | None => Ok (mkThreadStateRow thread_id state 1 now now)
  | Some r =>
      revision ← checked_column i64_max (tsr_revision r + 1)%Z;
      Ok (mkThreadStateRow (tsr_thread_id r) state revision (tsr_created_at r) now)
  end.

Definition put_thread_state (now : Z) (fence : AttemptFence) (thread_id : string) (state : Value) :
    Proc FactoryThreadStateRecord :=
  commit (
    lock_attempt_context now fence;;
    belongs_to_attempt ← gets (thread_of_attempt (af_attempt_id fence) thread_id);
    lift (guard_err (negb belongs_to_attempt)
            (ThreadStateOwnershipMismatch (af_attempt_id fence) thread_id));;
    found ← gets (λ s, thread_states s !! thread_id);
    row ← lift (thread_state_upsert now thread_id state found);
    modify (λ s, set_thread_states (<[thread_id := row]> (thread_states s)) s);;
    lift (FactoryThreadStateRecord_try_from row)).

(** ** Facts *)

Lemma lease_live_true now owner epoch a :
  lease_live now owner epoch a = true ↔
  ar_owner_instance_id a = owner ∧ ar_lease_epoch a = epoch ∧ ar_status a = "running"
  ∧ now < ar_lease_expires_at a.
Proof.
  unfold lease_live. rewrite !andb_true_iff, !bool_decide_eq_true, Z.ltb_lt. tauto.
Qed.

(** The fence holds the live lease of its attempt. *)
Definition fence_live (s : db) (now : Z) (f : AttemptFence) : bool :=
  match attempts s !! af_attempt_id f with
  | Some a => lease_live now (af_owner_instance_id f) (af_lease_epoch f) a
  | None => false
  end.

Lemma fence_live_true s now f :
  fence_live s now f = true ↔ ∃ a, attempts s !! af_attempt_id f = Some a
    ∧ ar_owner_instance_id a = af_owner_instance_id f ∧ ar_lease_epoch a = af_lease_epoch f
    ∧ ar_status a = "running" ∧ now < ar_lease_expires_at a.
Proof.
  unfold fence_live. destruct (attempts s !! _) as [a|].
  - rewrite lease_live_true. split; [eauto|]. by intros (b & [= <-] & ?).
  - split; [done|]. by intros (b & ? & _).
Qed.

Lemma database_lease_epoch_Ok e e' :
  database_lease_epoch e = Ok e' ↔ e' = e ∧ i64_min ≤ e ≤ i64_max.
Proof. unfold database_lease_epoch, i64_try_from. by rewrite ok_or_Ok, try_range_Some. Qed.

(** A granted context comes from the live lease and names the attempt's own
    operation and job; the lookup changes nothing. *)
Lemma lock_attempt_context_Ok now f s ctx s' :
  lock_attempt_context now f s = Ok (ctx, s') →
  s' = s ∧ fence_live s now f = true ∧ ∃ a o j,
    attempts s !! af_attempt_id f = Some a ∧ ar_status a = "running"
    ∧ operations s !! ar_operation_id a = Some o ∧ jobs s !! or_job_id o = Some j
    ∧ ctx = mkAttemptContextRow (ar_operation_id a) (or_job_id o) (jr_status j)
              (ar_attempt_number a) (or_max_attempts o).
Proof.
  unfold lock_attempt_context. intros H. inv_tx.
  match goal with H : database_lease_epoch _ = _ |- _ => apply database_lease_epoch_Ok in H as [-> _] end.
  match goal with H : _ ≫= _ = Some _ |- _ => apply bind_Some in H as (a & Ha & H) end.
  destruct (lease_live _ _ _ a) eqn:Hl; [|done].
  split; [done|]. split; [unfold fence_live; by rewrite Ha|].
  apply lease_live_true in Hl as (_ & _ & Hr & _).
  unfold attempt_context in *.
  repeat match goal with H : _ ≫= _ = Some _ |- _ => apply bind_Some in H as (? & ? & H) end.
  simplify_eq. eauto 10.
Qed.

(** Without the live lease the lookup refuses, before anything is written. *)
Lemma lock_attempt_context_stale now f s :
  fence_live s now f = false → i64_min ≤ af_lease_epoch f ≤ i64_max →
  lock_attempt_context now f s = Err (AttemptLeaseUnavailable (af_attempt_id f)).
Proof.
  unfold fence_live, lock_attempt_context. intros Hf He.
  assert (database_lease_epoch (af_lease_epoch f) = Ok (af_lease_epoch f)) as Hd
    by (by apply database_lease_epoch_Ok).
  unfold mbind, tx_bind, lift, gets. rewrite Hd.
  destruct (attempts s !! af_attempt_id f) as [a|] eqn:E; cbn [mbind option_bind]; [|done].
  by rewrite Hf.
Qed.
