(* ===== verification/Events.v ===== *)
(** * The append-only job event log

    Models [coordinator/src/store/events.rs].  Events carry a sequence drawn
    from the table's identity column; an attempt event may carry a
    deduplication key that is unique within its job. *)

From S2P Require Import Prelude Domain Rows Store Leases.
From Stdlib Require Import ZArith Ascii String.
From stdpp Require Import base gmap strings list.

#[local] Open Scope string_scope.
#[local] Open Scope Z_scope.
#[local] Open Scope list_scope.

Definition validate_event_kind (kind : string) : Result unit :=
  guard_err (is_blank kind) (InvalidInput [Lit "job event kind must not be empty"]).

Definition validate_deduplication_key (key : option string) : Result unit :=
  guard_err (match key with Some k => is_blank k | None => false end)
    (InvalidInput [Lit "job event deduplication key must not be empty"]).

(** The row an insert adds: the identity column supplies the sequence. *)
Definition event_row (s : db) (now : Z) (job_id : string) (operation_id attempt_id : option string)
    (kind : string) (payload : Value) : JobEventRow :=
  mkJobEventRow (next_sequence s) job_id operation_id attempt_id kind payload now.

Definition push_event (row : JobEventRow) (key : option string) (s : db) : db :=
  set_events (events s ++ [mkEventRow row key]) (next_sequence s + 1)%Z s.

(** An insert needs an identity value inside [BIGINT]. *)
Definition identity_available : Tx unit :=
  n ← gets next_sequence;
  lift (checked_column i64_max n);;
  mret tt.

Definition append_job_event (now : Z) (event : NewJobEvent) : Proc JobEventRecord :=
  row ← commit (
    lift (validate_event_kind (nje_kind event));;
    found ← gets (λ s, jobs s !! nje_job_id event);
    match found with
    | None => throw (JobNotFound (nje_job_id event))
    | Some _ =>
        identity_available;;
        row ← gets (λ s, event_row s now (nje_job_id event) None None (nje_kind event)
                           (nje_payload event));
        modify (push_event row None);;
        mret row
    end);
  proc_lift (JobEventRecord_try_from row).

(** The stored event of a job under a deduplication key. *)
Definition has_key (job_id key : string) (e : EventRow) : bool :=
  bool_decide (jer_job_id (ev_row e) = job_id) && bool_decide (ev_deduplication_key e = Some key).

Definition find_event (job_id : string) (key : option string) (s : db) : option EventRow :=
  match key with
  | Some k => List.find (has_key job_id k) (events s)
  | None => None
  end.

(** [INSERT ... ON CONFLICT (job_id, deduplication_key) DO NOTHING]; the
    identity value is consumed either way. *)
Definition insert_attempt_event (now : Z) (context : AttemptContextRow) (fence : AttemptFence)
    (event : NewAttemptEvent) : Tx JobEventRecord :=
  lift (validate_event_kind (nae_kind event));;
  lift (validate_deduplication_key (nae_deduplication_key event));;
  identity_available;;
  existing ← gets (find_event (ctx_job_id context) (nae_deduplication_key event));
  row ←
    match existing with
    | None =>
        row ← gets (λ s, event_row s now (ctx_job_id context) (Some (ctx_operation_id context))
                           (Some (af_attempt_id fence)) (nae_kind event) (nae_payload event));
        modify (push_event row (nae_deduplication_key event));;
        mret row
    | Some e =>
        modify (λ s, set_events (events s) (next_sequence s + 1)%Z s);;
        lift (guard_err (negb (bool_decide (jer_kind (ev_row e) = nae_kind event)
                               && bool_decide (jer_payload (ev_row e) = nae_payload event)))
                (InvalidInput [Lit "job event deduplication key ";
                               Debug (default EmptyString (nae_deduplication_key event));
                               Lit " was reused for different content"]));;
        mret (ev_row e)
    end;
  lift (JobEventRecord_try_from row).

Definition append_attempt_event (now : Z) (fence : AttemptFence) (event : NewAttemptEvent) :
    Proc JobEventRecord :=
  commit (
    context ← lock_attempt_context now fence;
    insert_attempt_event now context fence event).

(** One page: [WHERE job_id = $1 AND sequence > $2 ORDER BY sequence LIMIT $3]. *)
Definition page_rows (job_id : string) (after : Z) (limit : nat) (s : db) : list JobEventRow :=
  take limit (order_by (λ a b, jer_sequence a <? jer_sequence b)
    (List.filter (λ r, bool_decide (jer_job_id r = job_id) && (after <? jer_sequence r)%Z)
       (ev_row <$> events s))).

Definition list_job_events (job_id : string) (after limit : Z) : Proc JobEventPage :=
  commit (
    lift (guard_err ((limit =? 0)%Z || (1000 <? limit)%Z)
            (InvalidInput [Lit "job event page limit must be between 1 and 1000"]));;
    found ← gets (λ s, jobs s !! job_id);
    lift (guard_err (negb (bool_decide (is_Some found))) (JobNotFound job_id));;
    after ← lift (database_sequence after "job event cursor");
    rows ← gets (page_rows job_id after (Z.to_nat limit));
    events ← lift (map_result JobEventRecord_try_from rows);
    mret (mkJobEventPage events (match last events with
                                 | Some e => je_sequence e
                                 | None => after
                                 end))).
