(* ===== verification/Environments.v ===== *)
(** * Execution environments

    Models [coordinator/src/store/environments.rs]: the one durable execution
    environment of a job, its desired state and status, and the generation
    that fences work left over from before a continuation. *)

From S2P Require Import Prelude Domain Rows Store Leases.
From Stdlib Require Import ZArith Ascii String.
From stdpp Require Import base gmap strings list.

#[local] Open Scope string_scope.
#[local] Open Scope Z_scope.
#[local] Open Scope list_scope.

Definition validate_nonempty (field value : string) : Result unit :=
  guard_err (is_blank value) (InvalidInput [Lit field; Lit " must not be empty"]).

(** The field the generation conversions report. *)
Definition generation_field : string := "execution environment generation".

(** ** The statements *)

Definition environment_set (desired status : string) (backend_ref url error : option string)
    (now : Z) (r : ExecutionEnvironmentRow) : ExecutionEnvironmentRow :=
  mkExecutionEnvironmentRow (eer_job_id r) (eer_environment_id r) (eer_backend r)
    (eer_generation r) desired status backend_ref url error (eer_created_at r) now.

(** [UPDATE factory_execution_environments SET f WHERE job_id = $1 AND p
    RETURNING ...]. *)
Definition update_environment (job_id : string) (p : ExecutionEnvironmentRow → bool)
    (f : ExecutionEnvironmentRow → ExecutionEnvironmentRow) : Tx (option ExecutionEnvironmentRow) :=
  found ← gets (λ s, environments s !! job_id);
  match found with
  | Some r =>
      if p r then
        modify (λ s, set_environments (<[job_id := f r]> (environments s)) s);;
        mret (Some (f r))
      else mret None
  | None => mret None
  end.

Definition at_generation (generation : Z) (desired : string) (r : ExecutionEnvironmentRow) : bool :=
  bool_decide (eer_generation r = generation) && bool_decide (eer_desired_state r = desired).

Definition MARK_READY (now : Z) (job_id : string) (generation : Z) (backend_ref url : string) :
    Tx (option ExecutionEnvironmentRow) :=
  update_environment job_id (at_generation generation "active")
    (λ r, environment_set (eer_desired_state r) "ready" (Some backend_ref) (Some url) None now r).

Definition MARK_FAILED (now : Z) (job_id : string) (generation : Z) (error : string) :
    Tx (option ExecutionEnvironmentRow) :=
  update_environment job_id (at_generation generation "active")
    (λ r, environment_set (eer_desired_state r) "failed" (eer_backend_ref r) (eer_url r)
            (Some error) now r).

(** The release transition: an environment already released stays released. *)
Definition release_row (now : Z) (r : ExecutionEnvironmentRow) : ExecutionEnvironmentRow :=
  environment_set "released"
    (if decide (eer_status r = "released") then "released" else "releasing")
    (eer_backend_ref r) (eer_url r) None now r.

Definition REQUEST_RELEASE (now : Z) (job_id : string) (generation : Z) :
    Tx (option ExecutionEnvironmentRow) :=
  update_environment job_id (λ r, bool_decide (eer_generation r = generation)) (release_row now).

Definition MARK_RELEASED (now : Z) (job_id : string) (generation : Z) :
    Tx (option ExecutionEnvironmentRow) :=
  update_environment job_id (at_generation generation "released")
    (λ r, environment_set (eer_desired_state r) "released" (eer_backend_ref r) None None now r).

(** ** Helpers inside a transaction *)

Definition load_environment_for_update (job_id : string) : Tx (option ExecutionEnvironmentRecord) :=
  found ← gets (λ s, environments s !! job_id);
  lift (map_transpose ExecutionEnvironmentRecord_try_from found).

Definition require_generation_match (job_id : string) (generation : Z)
    (updated : option ExecutionEnvironmentRow) (desired_state : ExecutionEnvironmentDesiredState) :
    Tx ExecutionEnvironmentRecord :=
  match updated with
  | Some row => lift (ExecutionEnvironmentRecord_try_from row)
  | None =>
      found ← load_environment_for_update job_id;
      current ← lift (ok_or found (ExecutionEnvironmentNotFound job_id));
      generation ← lift (to_u64 generation generation_field);
      lift (guard_err (negb (bool_decide (ee_generation current = generation)))
              (ExecutionEnvironmentGenerationStale job_id generation));;
      lift (guard_err (negb (bool_decide (ee_desired_state current = desired_state)))
              (InvalidInput [Lit "execution environment for job "; Display job_id;
                             Lit " has desired state ";
                             Lit (DesiredState_debug (ee_desired_state current))]));;
      throw (InvalidInput [Lit "execution environment for job "; Display job_id;
                           Lit " rejected lifecycle transition"])
  end.

Definition request_release_in_transaction (now : Z) (job_id : string) : Tx unit :=
  update_environment job_id (λ _, true) (release_row now);;
  mret tt.

(** A continuation reactivates the environment under the next generation, and
    only once its release has finished. *)
Definition reactivate_row (now generation : Z) (r : ExecutionEnvironmentRow) : ExecutionEnvironmentRow :=
  mkExecutionEnvironmentRow (eer_job_id r) (eer_environment_id r) (eer_backend r) generation
    "active" "provisioning" None None None (eer_created_at r) now.

Definition reactivate_in_transaction (now : Z) (job_id : string) : Tx unit :=
  found ← gets (λ s, environments s !! job_id);
  match found with
  | None => mret tt
  | Some r =>
      if bool_decide (eer_desired_state r = "released") && bool_decide (eer_status r = "released") then
        generation ← lift (checked_column i64_max (eer_generation r + 1));
        modify (λ s, set_environments
                  (<[job_id := reactivate_row now generation r]> (environments s)) s)
      else throw (InvalidInput [Lit "execution environment for job "; Display job_id;
                                Lit " must finish release before continuation"])
  end.

(** The fenced calls refuse once cancellation has been requested. *)
Definition refuse_cancelling (context : AttemptContextRow) : Tx unit :=
  lift (guard_err (bool_decide (ctx_job_status context = "cancelling"))
          (JobCancellationRequested (ctx_job_id context))).

(** ** Store methods *)

Definition ensure_execution_environment (now : Z) (new_id : string) (fence : AttemptFence)
    (backend : string) : Proc ExecutionEnvironmentRecord :=
  commit (
    lift (validate_nonempty "execution environment backend" backend);;
    context ← lock_attempt_context now fence;
    let job_id := ctx_job_id context in
    refuse_cancelling context;;
    existing ← gets (λ s, environments s !! job_id);
    match existing with
    | Some _ => mret tt
    | None =>
        taken ← gets (λ s, exists_row (λ r, bool_decide (eer_environment_id r = new_id))
                             (environments s));
        lift (guard_err taken (Database UniqueViolation));;
        modify (λ s, set_environments
          (<[job_id := mkExecutionEnvironmentRow job_id new_id backend 1 "active" "provisioning"
                         None None None now now]> (environments s)) s)
    end;;
    found ← load_environment_for_update job_id;
    environment ← lift (ok_or found (ExecutionEnvironmentNotFound job_id));
    lift (guard_err (negb (bool_decide (ee_backend environment = backend)))
            (InvalidInput [Lit "job "; Display job_id;
                           Lit " already uses execution environment backend ";
                           Debug (ee_backend environment)]));;
    lift (guard_err (negb (bool_decide (ee_desired_state environment = DesiredActive)))
            (InvalidInput [Lit "execution environment for job "; Display job_id;
                           Lit " is awaiting release"]));;
    mret environment).

Definition load_execution_environment (job_id : string) : Proc (option ExecutionEnvironmentRecord) :=
  found ← commit (gets (λ s, environments s !! job_id));
  proc_lift (map_transpose ExecutionEnvironmentRecord_try_from found).

Definition reserve_execution_environment_locator (now : Z) (fence : AttemptFence)
    (generation : Z) (locator : string) : Proc ExecutionEnvironmentRecord :=
  commit (
    lift (validate_nonempty "execution environment locator" locator);;
    generation ← lift (database_sequence generation generation_field);
    context ← lock_attempt_context now fence;
    let job_id := ctx_job_id context in
    refuse_cancelling context;;
    found ← load_environment_for_update job_id;
    current ← lift (ok_or found (ExecutionEnvironmentNotFound job_id));
    requested_generation ← lift (to_u64 generation generation_field);
    lift (guard_err (negb (bool_decide (ee_generation current = requested_generation)))
            (ExecutionEnvironmentGenerationStale job_id requested_generation));;
    lift (guard_err (negb (bool_decide (ee_desired_state current = DesiredActive)))
            (InvalidInput [Lit "execution environment for job "; Display job_id;
                           Lit " has desired state ";
                           Lit (DesiredState_debug (ee_desired_state current))]));;
    match ee_backend_ref current with
    | Some _ => mret current
    | None =>
        updated ← update_environment job_id
          (λ r, at_generation generation "active" r && bool_decide (eer_backend_ref r = None))
          (λ r, environment_set (eer_desired_state r) (eer_status r) (Some locator)
                  (eer_url r) (eer_error r) now r);
        row ← lift (ok_or updated (Database RowNotFound));
        lift (ExecutionEnvironmentRecord_try_from row)
    end).

(** [ORDER BY updated_at, job_id]. *)
Definition release_order (a b : ExecutionEnvironmentRow) : bool :=
  (eer_updated_at a <? eer_updated_at b)
  || ((eer_updated_at a =? eer_updated_at b)
      && bool_decide (String.compare (eer_job_id a) (eer_job_id b) = Lt)).

Definition list_releasing_execution_environments (backend : string) :
    Proc (list ExecutionEnvironmentRecord) :=
  commit (
    lift (validate_nonempty "execution environment backend" backend);;
    rows ← gets (λ s, order_by release_order (select_rows (λ r,
      bool_decide (eer_backend r = backend) && bool_decide (eer_desired_state r = "released")
      && bool_decide (eer_status r = "releasing")) (environments s)));
    lift (map_result ExecutionEnvironmentRecord_try_from rows)).

Definition request_cancelling_execution_environment_release (now : Z) (fence : AttemptFence) :
    Proc (option ExecutionEnvironmentRecord) :=
  commit (
    context ← lock_attempt_context now fence;
    let job_id := ctx_job_id context in
    lift (guard_err (negb (bool_decide (ctx_job_status context = "cancelling")))
            (JobNotCancellable job_id (ctx_job_status context)));;
    found ← load_environment_for_update job_id;
    match found with
    | None => mret None
    | Some current =>
        generation ← lift (database_sequence (ee_generation current) generation_field);
        updated ← REQUEST_RELEASE now job_id generation;
        environment ← require_generation_match job_id generation updated DesiredReleased;
        mret (Some environment)
    end).

Definition mark_execution_environment_ready (now : Z) (fence : AttemptFence) (generation : Z)
    (backend_ref url : string) : Proc ExecutionEnvironmentRecord :=
  commit (
    lift (validate_nonempty "execution environment backend reference" backend_ref);;
    lift (validate_nonempty "execution environment URL" url);;
    generation ← lift (database_sequence generation generation_field);
    context ← lock_attempt_context now fence;
    refuse_cancelling context;;
    updated ← MARK_READY now (ctx_job_id context) generation backend_ref url;
    require_generation_match (ctx_job_id context) generation updated DesiredActive).

Definition mark_execution_environment_failed (now : Z) (fence : AttemptFence) (generation : Z)
    (error : string) : Proc ExecutionEnvironmentRecord :=
  commit (
    lift (validate_nonempty "execution environment error" error);;
    generation ← lift (database_sequence generation generation_field);
    context ← lock_attempt_context now fence;
    refuse_cancelling context;;
    updated ← MARK_FAILED now (ctx_job_id context) generation error;
    require_generation_match (ctx_job_id context) generation updated DesiredActive).

Definition terminal_status (status : string) : bool :=
  bool_decide (status = "succeeded") || bool_decide (status = "failed")
  || bool_decide (status = "cancelled").

Definition request_execution_environment_release (now : Z) (job_id : string) (generation : Z) :
    Proc ExecutionEnvironmentRecord :=
  commit (
    generation ← lift (database_sequence generation generation_field);
    found ← gets (λ s, jr_status <$> jobs s !! job_id);
    job_status ← lift (ok_or found (JobNotFound job_id));
    lift (guard_err (negb (terminal_status job_status))
            (InvalidInput [Lit "execution environment for nonterminal job "; Display job_id;
                           Lit " cannot be released"]));;
    updated ← REQUEST_RELEASE now job_id generation;
    require_generation_match job_id generation updated DesiredReleased).

Definition mark_execution_environment_released (now : Z) (job_id : string) (generation : Z) :
    Proc ExecutionEnvironmentRecord :=
  commit (
    generation ← lift (database_sequence generation generation_field);
    updated ← MARK_RELEASED now job_id generation;
    require_generation_match job_id generation updated DesiredReleased).
