(* ===== verification/Attempts.v ===== *)
(** * Settling an attempt

    Models the settlement half of [coordinator/src/store/attempts.rs]: the one
    transaction that ends a live attempt, together with its final checkpoint,
    its completion event, the transitions of the operation and of the job, and
    the release of the job's execution environment. *)

From S2P Require Import Prelude Domain Rows Store Leases Events Environments.
From Stdlib Require Import ZArith Ascii String.
From stdpp Require Import base gmap strings list.

#[local] Open Scope string_scope.
#[local] Open Scope Z_scope.
#[local] Open Scope list_scope.

(** [SET status = 'retry_wait', next_eligible_at = $2]. *)
Definition operation_retry_at (retry_at now : Z) (r : OperationRow) : OperationRow :=
  mkOperationRow (or_operation_id r) (or_job_id r) (or_ordinal r) (or_kind r) (or_input r)
    "retry_wait" (or_max_attempts r) retry_at (or_created_at r) now.

(** Some operation of the job has not succeeded. *)
Definition has_remaining (job_id : string) (s : db) : bool :=
  exists_row (λ o, bool_decide (or_job_id o = job_id)
                   && negb (bool_decide (or_status o = "succeeded"))) (operations s).

(** A retry is granted only below the operation's attempt limit. *)
Definition granted_retry (context : AttemptContextRow) (failure : AttemptFailure) : option Z :=
  match failure with
  | RetryAt retry_at _ =>
      if ctx_attempt_number context <? ctx_max_attempts context then Some retry_at else None
  | Terminal _ => None
  end.

Section settlement.
Context `{External}.

Definition settle_failure (now : Z) (fence : AttemptFence) (context : AttemptContextRow)
    (failure : AttemptFailure) : Tx unit :=
  let failure_payload := AttemptFailure_to_value failure in
  update_attempt (af_attempt_id fence) (attempt_finished "failed" (Some failure_payload) now);;
  match granted_retry context failure with
  | Some retry_at =>
      update_operation (ctx_operation_id context) (operation_retry_at retry_at now)
  | None =>
      update_operation (ctx_operation_id context) (operation_with_status "failed" now);;
      update_job (ctx_job_id context) (job_with_status "failed" now);;
      request_release_in_transaction now (ctx_job_id context)
  end.

(** [SET status = 'succeeded', finished_at = ...]: the failure column keeps
    its value. *)
Definition attempt_succeeded (now : Z) (r : AttemptRow) : AttemptRow :=
  attempt_finished "succeeded" (ar_failure r) now r.

Definition settle_success (now : Z) (fence : AttemptFence) (context : AttemptContextRow) : Tx unit :=
  update_attempt (af_attempt_id fence) (attempt_succeeded now);;
  update_operation (ctx_operation_id context) (operation_with_status "succeeded" now);;
  remaining ← gets (has_remaining (ctx_job_id context));
  if remaining : bool then mret tt else
    update_job (ctx_job_id context) (job_with_status "succeeded" now);;
    request_release_in_transaction now (ctx_job_id context).

Definition is_success (settlement : AttemptSettlement) : bool :=
  match settlement with SettleSucceeded => true | SettleFailed _ => false end.

Definition settle_tx (now : Z) (new_id : string) (fence : AttemptFence)
    (settlement : AttemptSettlement) (checkpoint : option NewCheckpoint)
    (completion_event : option NewAttemptEvent) : Tx (option CheckpointRecord) :=
  match checkpoint with
  | Some c => lift (validate_checkpoint fence c)
  | None => mret tt
  end;;
  lift (guard_err (bool_decide (is_Some completion_event) && negb (is_success settlement))
          (InvalidInput [Lit "only a successful attempt can record a completion event"]));;
  context ← lock_attempt_context now fence;
  lift (guard_err (bool_decide (ctx_job_status context = "cancelling"))
          (JobCancellationRequested (ctx_job_id context)));;
  record ←
    match checkpoint with
    | Some c => r ← insert_checkpoint now new_id c; mret (Some r)
    | None => mret None
    end;
  match settlement with
  | SettleSucceeded => settle_success now fence context
  | SettleFailed failure => settle_failure now fence context failure
  end;;
  match completion_event with
  | Some event => insert_attempt_event now context fence event;; mret tt
  | None => mret tt
  end;;
  mret record.

Definition settle_attempt_with_event (now : Z) (new_id : string) (fence : AttemptFence)
    (settlement : AttemptSettlement) (checkpoint : option NewCheckpoint)
    (completion_event : option NewAttemptEvent) : Proc (option CheckpointRecord) :=
  commit (settle_tx now new_id fence settlement checkpoint completion_event).

Definition settle_attempt (now : Z) (new_id : string) (fence : AttemptFence)
    (settlement : AttemptSettlement) (checkpoint : option NewCheckpoint) :
    Proc (option CheckpointRecord) :=
  settle_attempt_with_event now new_id fence settlement checkpoint None.
End settlement.
