(* ===== verification/Jobs.v ===== *)
(** * Jobs

    Models [coordinator/src/store/jobs.rs]: job creation, continuation of a
    succeeded job, cancellation and its acknowledgement, the reads, and the
    durable binding of a job to its managed workspace. *)

From S2P Require Import Prelude Domain Rows Store Leases Events Environments Attempts.
From Stdlib Require Import ZArith Ascii String.
From stdpp Require Import base gmap strings list pretty.

#[local] Open Scope string_scope.
#[local] Open Scope Z_scope.
#[local] Open Scope list_scope.

(** ** Creation *)

Fixpoint validate_operations (ops : list OperationDefinition) : Result unit :=
  match ops with
  | [] => Ok tt
  | operation :: rest =>
      guard_err (is_blank (od_kind operation))
        (InvalidJobDefinition [Lit "operation kind must not be empty"]);;
      guard_err (od_max_attempts operation =? 0)
        (InvalidJobDefinition [Lit "operation "; Debug (od_kind operation);
                               Lit " must allow at least one attempt"]);;
      ok_or (i32_try_from (od_max_attempts operation))
        (InvalidJobDefinition [Lit "operation "; Debug (od_kind operation);
                               Lit " exceeds PostgreSQL's attempt limit"]);;
      validate_operations rest
  end.

Definition validate_job_definition (definition : JobDefinition) : Result unit :=
  guard_err (is_blank (jd_kind definition))
    (InvalidJobDefinition [Lit "job kind must not be empty"]);;
  guard_err (bool_decide (jd_operations definition = []))
    (InvalidJobDefinition [Lit "at least one operation is required"]);;
  validate_operations (jd_operations definition).

(** The operations of a definition are inserted in order, numbered from
    [ordinal]; [new_id n] is the identifier drawn for the [n]-th. *)
Fixpoint insert_operations (now : Z) (new_id : nat → string) (job_id : string) (index : nat)
    (ops : list OperationDefinition) : Tx (list OperationRecord) :=
  match ops with
  | [] => mret []
  | operation :: rest =>
      ordinal ← lift (ok_or (i32_try_from (Z.of_nat index)) (NumericRange "operation ordinal"));
      max_attempts ← lift (ok_or (i32_try_from (od_max_attempts operation))
                             (NumericRange "maximum attempts"));
      let row := mkOperationRow (new_id index) job_id ordinal (od_kind operation)
                   (od_input operation) "ready" max_attempts now now now in
      insert_operation row;;
      record ← lift (OperationRecord_try_from row);
      records ← insert_operations now new_id job_id (S index) rest;
      mret (record :: records)
  end.

Definition create_tx (now : Z) (new_id : nat → string) (job_row : JobRow)
    (operations : list OperationDefinition) : Tx (list OperationRecord) :=
  table ← gets jobs;
  table' ← lift (insert_unique (jr_job_id job_row) job_row table);
  modify (set_jobs table');;
  insert_operations now new_id (jr_job_id job_row) 0 operations.

Definition create_job (now : Z) (new_job_id : string) (new_id : nat → string)
    (definition : JobDefinition) : Proc DurableJob :=
  proc_lift (validate_job_definition definition);;
  let job_row := mkJobRow new_job_id (jd_kind definition) (jd_input definition)
                   (JobState_as_database_value JobQueued) now now in
  operations ← commit (create_tx now new_id job_row (jd_operations definition));
  job ← proc_lift (JobRecord_try_from job_row);
  mret (mkDurableJob job operations).

(** ** Reads *)

Definition operations_of (job_id : string) (s : db) : list OperationRow :=
  select_rows (λ o, bool_decide (or_job_id o = job_id)) (operations s).

Definition by_ordinal (a b : OperationRow) : bool := or_ordinal a <? or_ordinal b.

Definition load_job_row (job_id : string) (s : db) : Result DurableJob :=
  job ← ok_or (jobs s !! job_id) (JobNotFound job_id);
  operations ← map_result OperationRecord_try_from (order_by by_ordinal (operations_of job_id s));
  job ← JobRecord_try_from job;
  Ok (mkDurableJob job operations).

Definition load_job (job_id : string) : Proc DurableJob :=
  λ s, (load_job_row job_id s, s).

Definition active_status (status : string) : bool :=
  bool_decide (status = "queued") || bool_decide (status = "running")
  || bool_decide (status = "cancelling").

Definition active_state (state : JobState) : bool :=
  match state with JobQueued | JobRunning | JobCancelling => true | _ => false end.

(** The identifiers are read first, then each job is loaded; a job that left
    the active states in between is dropped. *)
Definition list_active_jobs : Proc (list DurableJob) := λ s,
  let rows := order_by (λ a b, jr_created_at a <? jr_created_at b)
                (select_rows (λ j, active_status (jr_status j)) (jobs s)) in
  (loaded ← map_result (λ j, load_job_row (jr_job_id j) s) rows;
   Ok (List.filter (λ d, active_state (job_state (dj_job d))) loaded), s).

Definition list_job_attempts (job_id : string) : Proc (list AttemptRecord) := λ s,
  (load_job_row job_id s;;
   let of_operation o :=
     order_by (λ a b, ar_attempt_number a <? ar_attempt_number b)
       (select_rows (λ a, bool_decide (ar_operation_id a = or_operation_id o)) (attempts s)) in
   map_result AttemptRecord_try_from
     (o ← order_by by_ordinal (operations_of job_id s); of_operation o), s).

Section stage_checkpoints.
Context `{External}.

(** The completed-stage checkpoints of one operation, each with its attempt. *)
Definition completed_stage_checkpoints (o : OperationRow) (s : db) : list (AttemptRow * CheckpointRow) :=
  a ← select_rows (λ a, bool_decide (ar_operation_id a = or_operation_id o)) (attempts s);
  c ← select_rows (λ c, bool_decide (ckr_attempt_id c = ar_attempt_id a)
                        && bool_decide (ckr_kind c = "factory.stage")
                        && bool_decide (json_field_text "operation" (ckr_payload c) = Some (or_kind o))
                        && bool_decide (json_field_text "phase" (ckr_payload c) = Some "completed"))
        (checkpoints s);
  [(a, c)].

(** [ORDER BY attempt_number DESC, sequence DESC]. *)
Definition later_checkpoint (x y : AttemptRow * CheckpointRow) : bool :=
  (ar_attempt_number y.1 <? ar_attempt_number x.1)
  || ((ar_attempt_number x.1 =? ar_attempt_number y.1)
      && (ckr_sequence y.2 <? ckr_sequence x.2)).

Definition stage_checkpoint_row (o : OperationRow) (c : CheckpointRow) : StageCheckpointRow :=
  mkStageCheckpointRow (or_operation_id o) (or_ordinal o) (or_kind o) (ckr_checkpoint_id c)
    (ckr_attempt_id c) (ckr_sequence c) (ckr_kind c) (ckr_payload c) (ckr_workspace_root c)
    (ckr_workspace_revision c) (ckr_correlation_id c) (ckr_created_at c).

Definition list_stage_checkpoints (job_id : string) : Proc (list StageCheckpointRecord) := λ s,
  (load_job_row job_id s;;
   let succeeded := List.filter (λ o, bool_decide (or_status o = "succeeded")) (operations_of job_id s) in
   let rows := o ← succeeded;
               match best later_checkpoint (completed_stage_checkpoints o s) with
               | Some (_, c) => [stage_checkpoint_row o c]
               | None => []
               end in
   records ← map_result StageCheckpointRecord_try_from rows;
   Ok (order_by (λ a b, sc_ordinal a <? sc_ordinal b) records), s).
End stage_checkpoints.

(** ** Continuation *)

Definition continuation_round (next_ordinal : Z) : Result Z :=
  next ← ok_or (u32_try_from next_ordinal) (NumericRange "operation ordinal");
  if (next <? 4) || negb ((next - 4) `mod` 3 =? 0)
  then Err (InvalidInput [Lit "job operations are not a complete factory.task lifecycle (next ordinal ";
                          DisplayZ next; Lit ")"])
  else Ok ((next - 4) `div` 3 + 1).

Definition newline : string := String (ascii_of_nat 10) EmptyString.
Definition blank_line : string := newline +:+ newline.

(** The task text of the next round. *)
Definition follow_up_task (task feedback : string) (round : Z) : string :=
  trim_end task +:+ blank_line +:+ "## Follow-up feedback (round " +:+ pretty round +:+ ")"
  +:+ blank_line +:+ feedback.

Definition CONTINUATION_KINDS : list string := ["codex.iterate"; "codex.review"; "codex.remediate"].

Definition feedback_input (feedback : string) (round : Z) : Value :=
  Object [("feedback", Str feedback); ("round", Num (PosInt round))].

Fixpoint insert_continuation (now : Z) (new_id : nat → string) (job_id : string)
    (next_ordinal : Z) (first_input : Value) (offset : nat) (kinds : list string) : Tx unit :=
  match kinds with
  | [] => mret tt
  | kind :: rest =>
      let operation_input := if decide (offset = 0%nat) then first_input else Object [] in
      insert_operation (mkOperationRow (new_id offset) job_id
                          (i32_wrapping_add next_ordinal (Z.of_nat offset)) kind operation_input
                          "ready" 3 now now now);;
      insert_continuation now new_id job_id next_ordinal first_input (S offset) rest
  end.

(** [UPDATE factory_jobs SET input = $2, status = 'queued']. *)
Definition job_requeued (input : Value) (now : Z) (r : JobRow) : JobRow :=
  mkJobRow (jr_job_id r) (jr_kind r) input "queued" (jr_created_at r) now.

Definition workspace_active (job_id : string) (s : db) : bool :=
  match workspaces s !! job_id with
  | Some w => bool_decide (wsr_status w = "active")
  | None => false
  end.

Definition next_ordinal_of (job_id : string) (s : db) : Z :=
  max_of (-1) (or_ordinal <$> operations_of job_id s) + 1.

Definition continue_tx (now : Z) (new_id : nat → string) (job_id feedback : string) : Tx Z :=
  found ← gets (λ s, jobs s !! job_id);
  job_row ← lift (ok_or found (JobNotFound job_id));
  job ← lift (JobRecord_try_from job_row);
  lift (guard_err (negb (bool_decide (job_kind job = "factory.task")))
          (InvalidInput [Lit "job kind "; Debug (job_kind job);
                         Lit " does not support continuation"]));;
  lift (guard_err (negb (bool_decide (job_state job = JobSucceeded)))
          (JobNotContinuable job_id (JobState_as_database_value (job_state job))));;
  active ← gets (workspace_active job_id);
  lift (guard_err (negb active) (WorkspaceNotFound job_id));;
  reactivate_in_transaction now job_id;;
  highest ← gets (next_ordinal_of job_id);
  next_ordinal ← lift (checked_column i32_max highest);
  round ← lift (continuation_round next_ordinal);
  task ← lift (ok_or (value_get "task" (job_input job) ≫= as_str)
                 (InvalidInput [Lit "job input has no task text"]));
  let input := value_set "task" (Str (follow_up_task task feedback round)) (job_input job) in
  update_job job_id (job_requeued input now);;
  insert_continuation now new_id job_id next_ordinal (feedback_input feedback round) 0
    CONTINUATION_KINDS;;
  mret round.

(** After the commit the round is announced on the event log; a failure to
    announce it is ignored. *)
Definition continue_job (now : Z) (new_id : nat → string) (job_id feedback : string) :
    Proc DurableJob :=
  let feedback := trim feedback in
  proc_lift (guard_err (bool_decide (feedback = EmptyString))
               (InvalidInput [Lit "continuation feedback must not be empty"]));;
  round ← commit (continue_tx now new_id job_id feedback);
  (λ s, (Ok tt, (append_job_event now
                   (mkNewJobEvent job_id "job.continued" (feedback_input feedback round)) s).2));;
  load_job job_id.

(** ** Cancellation *)

Definition unfinished_status (status : string) : bool :=
  bool_decide (status = "ready") || bool_decide (status = "running")
  || bool_decide (status = "retry_wait").

Definition cancel_unfinished_operations (now : Z) (job_id : string) : Tx unit :=
  modify (λ s, set_operations
    (update_where (λ o, bool_decide (or_job_id o = job_id) && unfinished_status (or_status o))
       (operation_with_status "cancelled" now) (operations s)) s).

(** Some attempt of the job is running, whether or not its lease is live. *)
Definition has_running_attempt (job_id : string) (s : db) : bool :=
  exists_row (λ a, bool_decide (ar_status a = "running")
                   && match operations s !! ar_operation_id a with
                      | Some o => bool_decide (or_job_id o = job_id)
                      | None => false
                      end) (attempts s).

Definition cancel_tx (now : Z) (job_id : string) : Tx unit :=
  found ← gets (λ s, jr_status <$> jobs s !! job_id);
  status ← lift (ok_or found (JobNotFound job_id));
  if bool_decide (status = "cancelled") || bool_decide (status = "cancelling") then mret tt
  else if bool_decide (status = "queued") || bool_decide (status = "running") then
    running ← gets (has_running_attempt job_id);
    if running : bool then update_job job_id (job_with_status "cancelling" now)
    else
      cancel_unfinished_operations now job_id;;
      update_job job_id (job_with_status "cancelled" now);;
      request_release_in_transaction now job_id
  else throw (JobNotCancellable job_id status).

Definition cancel_job (now : Z) (job_id : string) : Proc DurableJob :=
  commit (cancel_tx now job_id);;
  load_job job_id.

Definition cancellation_failure : Value :=
  Object [("cause", Str "jobCancelled");
          ("message", Str "job cancellation acknowledged after runtime cleanup")].

Definition acknowledge_tx (now : Z) (fence : AttemptFence) : Tx string :=
  context ← lock_attempt_context now fence;
  let job_id := ctx_job_id context in
  found ← gets (λ s, jr_status <$> jobs s !! job_id);
  status ← lift (ok_or found (Database RowNotFound));
  lift (guard_err (negb (bool_decide (status = "cancelling"))) (JobNotCancellable job_id status));;
  environment_status ← gets (λ s, eer_status <$> environments s !! job_id);
  lift (guard_err (match environment_status with
                   | Some status => negb (bool_decide (status = "released"))
                   | None => false
                   end)
          (InvalidInput [Lit "execution environment for cancelling job "; Display job_id;
                         Lit " must be released before acknowledgement"]));;
  update_attempt (af_attempt_id fence) (attempt_finished "abandoned" (Some cancellation_failure) now);;
  cancel_unfinished_operations now job_id;;
  update_job job_id (λ j, if decide (jr_status j = "cancelling")
                          then job_with_status "cancelled" now j else j);;
  mret job_id.

Definition acknowledge_job_cancellation (now : Z) (fence : AttemptFence) : Proc DurableJob :=
  job_id ← commit (acknowledge_tx now fence);
  load_job job_id.

(** ** Workspace bindings *)

Definition load_workspace (job_id : string) : Proc (option WorkspaceRecord) :=
  λ s, (map_transpose WorkspaceRecord_try_from (workspaces s !! job_id), s).

(** The non-empty [CHECK]s of the workspace columns. *)
Definition workspace_columns_ok (w : WorkspaceRow) : bool :=
  negb (bool_decide (wsr_repository_id w = EmptyString) || bool_decide (wsr_repository w = EmptyString)
        || bool_decide (wsr_base_ref w = EmptyString) || bool_decide (wsr_base_revision w = EmptyString)
        || bool_decide (wsr_branch_name w = EmptyString) || bool_decide (wsr_root w = EmptyString)
        || bool_decide (wsr_revision w = EmptyString)).

(** The upsert keeps the repository identity, the immutable base revision and
    the creation time of an existing binding. *)
Definition workspace_upsert (now : Z) (b : WorkspaceBinding) (found : option WorkspaceRow) : WorkspaceRow :=
  match found with
  | None =>
      mkWorkspaceRow (wb_job_id b) (wb_repository_id b) (wb_repository b) (wb_base_ref b)
        (wb_base_revision b) (wb_branch_name b) (wb_root b) (wb_revision b) "active" now now
  | Some w =>
      mkWorkspaceRow (wsr_job_id w) (wsr_repository_id w) (wb_repository b) (wb_base_ref b)
        (wsr_base_revision w) (wb_branch_name b) (wb_root b) (wb_revision b) "active"
        (wsr_created_at w) now
  end.

Definition put_workspace (now : Z) (binding : WorkspaceBinding) : Proc WorkspaceRecord :=
  row ← commit (
    found ← gets (λ s, workspaces s !! wb_job_id binding);
    job ← gets (λ s, jobs s !! wb_job_id binding);
    lift (guard_err (negb (workspace_columns_ok (workspace_upsert now binding None)))
            (Database CheckViolation));;
    lift (guard_err (negb (bool_decide (is_Some job))) (Database ForeignKeyViolation));;
    let row := workspace_upsert now binding found in
    modify (λ s, set_workspaces (<[wb_job_id binding := row]> (workspaces s)) s);;
    mret row);
  proc_lift (WorkspaceRecord_try_from row).

Definition workspace_removed (now : Z) (w : WorkspaceRow) : WorkspaceRow :=
  mkWorkspaceRow (wsr_job_id w) (wsr_repository_id w) (wsr_repository w) (wsr_base_ref w)
    (wsr_base_revision w) (wsr_branch_name w) (wsr_root w) (wsr_revision w) "removed"
    (wsr_created_at w) now.

Definition mark_workspace_removed (now : Z) (job_id : string) : Proc WorkspaceRecord :=
  row ← commit (
    found ← gets (λ s, workspaces s !! job_id);
    w ← lift (ok_or found (WorkspaceNotFound job_id));
    let row := workspace_removed now w in
    modify (λ s, set_workspaces (<[job_id := row]> (workspaces s)) s);;
    mret row);
  proc_lift (WorkspaceRecord_try_from row).
