(* ===== verification/Recovery.v ===== *)
(** * Claiming recoverable work

    Models [coordinator/src/store/recovery.rs]: the query that finds the next
    operation a worker may run, the selection it resumes from, and the claim
    that either opens a new attempt or takes over an expired lease under the
    next epoch. *)

From S2P Require Import Prelude Domain Rows Store Leases Events Environments Attempts Jobs.
From Stdlib Require Import ZArith Ascii String.
From stdpp Require Import base gmap strings list.

#[local] Open Scope string_scope.
#[local] Open Scope Z_scope.
#[local] Open Scope list_scope.

(** ** Scopes *)

Inductive RecoveryScope : Type :=
| ScopeAny
| ScopeJob (job_id : string)
| ScopeOperation (operation_id : string).

Definition database_ids (scope : RecoveryScope) : option string * option string :=
  match scope with
  | ScopeAny => (None, None)
  | ScopeJob job_id => (Some job_id, None)
  | ScopeOperation operation_id => (None, Some operation_id)
  end.

(** [($n::TEXT IS NULL OR column = $n)]. *)
Definition bound_matches (bound : option string) (column : string) : bool :=
  match bound with None => true | Some v => bool_decide (column = v) end.

(** ** The shared conditions *)

(** The latest attempt of an operation ([ORDER BY attempt_number DESC LIMIT 1]). *)
Definition attempts_of (operation_id : string) (s : db) : list AttemptRow :=
  select_rows (λ a, bool_decide (ar_operation_id a = operation_id)) (attempts s).

Definition previous_attempt (operation_id : string) (s : db) : option AttemptRow :=
  best (λ a b, ar_attempt_number b <? ar_attempt_number a) (attempts_of operation_id s).

(** [COALESCE(previous_attempt.attempt_number, 0)]. *)
Definition attempts_made (previous : option AttemptRow) : Z :=
  match previous with Some a => ar_attempt_number a | None => 0 end.

(** A [factory.task] is gated on an active workspace. *)
Definition workspace_gate (j : JobRow) (s : db) : bool :=
  negb (bool_decide (jr_kind j = "factory.task")) || workspace_active (jr_job_id j) s.

Definition has_unfinished_predecessor (o : OperationRow) (s : db) : bool :=
  exists_row (λ p, bool_decide (or_job_id p = or_job_id o) && (or_ordinal p <? or_ordinal o)
                   && negb (bool_decide (or_status p = "succeeded"))) (operations s).

Definition startable (now : Z) (j : JobRow) (o : OperationRow) (previous : option AttemptRow) : bool :=
  (bool_decide (jr_status j = "queued") || bool_decide (jr_status j = "running"))
  && (attempts_made previous <? or_max_attempts o)
  && (bool_decide (or_status o = "ready")
      || (bool_decide (or_status o = "retry_wait") && (or_next_eligible_at o <=? now))).

Definition expired (now : Z) (o : OperationRow) (previous : option AttemptRow) : bool :=
  bool_decide (or_status o = "running")
  && match previous with
     | Some a => bool_decide (ar_status a = "running") && (ar_lease_expires_at a <=? now)
     | None => false
     end.

Definition recoverable (now : Z) (job_id operation_id : option string)
    (j : JobRow) (o : OperationRow) (s : db) : bool :=
  bound_matches job_id (jr_job_id j)
  && bound_matches operation_id (or_operation_id o)
  && active_status (jr_status j)
  && workspace_gate j s
  && negb (has_unfinished_predecessor o s)
  && (startable now j o (previous_attempt (or_operation_id o) s)
      || expired now o (previous_attempt (or_operation_id o) s)).

(** [factory_jobs j JOIN factory_operations o ON o.job_id = j.job_id]. *)
Definition job_operations (s : db) : list (JobRow * OperationRow) :=
  o ← values (operations s);
  match jobs s !! or_job_id o with Some j => [(j, o)] | None => [] end.

(** [ORDER BY j.created_at, o.ordinal]. *)
Definition recovery_order (x y : JobRow * OperationRow) : bool :=
  (jr_created_at x.1 <? jr_created_at y.1)
  || ((jr_created_at x.1 =? jr_created_at y.1) && (or_ordinal x.2 <? or_ordinal y.2)).

(** ** The selection *)

(** The checkpoints an operation may resume from: those of its own job at its
    own or an earlier ordinal, latest ordinal, attempt and sequence first. *)
Definition resumable_checkpoints (j : JobRow) (o : OperationRow) (s : db) :
    list (OperationRow * AttemptRow * CheckpointRow) :=
  c ← values (checkpoints s);
  match attempts s !! ckr_attempt_id c with
  | Some a =>
      match operations s !! ar_operation_id a with
      | Some co =>
          if bool_decide (or_job_id co = jr_job_id j) && (or_ordinal co <=? or_ordinal o)
          then [(co, a, c)] else []
      | None => []
      end
  | None => []
  end.

Definition resume_order (x y : OperationRow * AttemptRow * CheckpointRow) : bool :=
  let '(ox, ax, cx) := x in
  let '(oy, ay, cy) := y in
  (or_ordinal oy <? or_ordinal ox)
  || ((or_ordinal ox =? or_ordinal oy)
      && ((ar_attempt_number ay <? ar_attempt_number ax)
          || ((ar_attempt_number ax =? ar_attempt_number ay)
              && (ckr_sequence cy <? ckr_sequence cx)))).

Definition resume_checkpoint (j : JobRow) (o : OperationRow) (s : db) : option CheckpointRow :=
  snd <$> best resume_order (resumable_checkpoints j o s).

Definition recovery_selection_row (j : JobRow) (o : OperationRow) (s : db) : RecoverySelectionRow :=
  let previous := previous_attempt (or_operation_id o) s in
  let checkpoint := resume_checkpoint j o s in
  let correlation := c ← checkpoint; id ← ckr_correlation_id c; correlations s !! id in
  mkRecoverySelectionRow (jr_job_id j) (or_operation_id o) (or_kind o) (or_status o)
    (attempts_made previous) (or_max_attempts o) (ar_attempt_id <$> previous)
    (ckr_checkpoint_id <$> checkpoint) (ckr_attempt_id <$> checkpoint)
    (ckr_sequence <$> checkpoint) (ckr_kind <$> checkpoint) (ckr_payload <$> checkpoint)
    (checkpoint ≫= ckr_workspace_root) (checkpoint ≫= ckr_workspace_revision)
    (checkpoint ≫= ckr_correlation_id) (ckr_created_at <$> checkpoint)
    (cor_correlation_id <$> correlation) (cor_job_id <$> correlation)
    (cor_operation_id <$> correlation) (cor_attempt_id <$> correlation)
    (cor_request_id <$> correlation) (correlation ≫= cor_thread_id)
    (correlation ≫= cor_turn_id) (correlation ≫= cor_item_id)
    (cor_observed_at <$> correlation).

Definition RECOVERY_SELECTION_SQL (now : Z) (job_id operation_id : option string) (s : db) :
    option RecoverySelectionRow :=
  '(j, o) ← best recovery_order
    (List.filter (λ x, recoverable now job_id operation_id x.1 x.2 s) (job_operations s));
  Some (recovery_selection_row j o s).

Definition select_recovery (now : Z) (scope : RecoveryScope) : Proc (option RecoverySelection) :=
  let '(job_id, operation_id) := database_ids scope in
  row ← commit (gets (RECOVERY_SELECTION_SQL now job_id operation_id));
  proc_lift (map_transpose RecoverySelection_try_from row).

Definition select_next_recovery (now : Z) : Proc (option RecoverySelection) :=
  select_recovery now ScopeAny.
Definition select_recovery_for_job (now : Z) (job_id : string) : Proc (option RecoverySelection) :=
  select_recovery now (ScopeJob job_id).
Definition select_recovery_for_operation (now : Z) (operation_id : string) :
    Proc (option RecoverySelection) :=
  select_recovery now (ScopeOperation operation_id).

(** ** The claim *)

Section claim.
Context `{External}.

(** A [factory.task] runs only on a worker that serves the pinned provider and
    model. *)
Definition profile_gate (provider model : option string) (j : JobRow) : bool :=
  negb (bool_decide (jr_kind j = "factory.task"))
  || match provider, model with
     | Some p, Some m =>
         bool_decide (json_path_text "executionProfile" "provider" (jr_input j) = Some p)
         && bool_decide (json_path_text "executionProfile" "model" (jr_input j) = Some m)
     | _, _ => false
     end.

(** [FOR UPDATE OF j, o SKIP LOCKED]: rows whose job or operation another
    transaction holds are passed over. *)
Definition unlocked (locked : gset string) (j : JobRow) (o : OperationRow) : bool :=
  bool_decide (jr_job_id j ∉ locked) && bool_decide (or_operation_id o ∉ locked).

Definition RECOVERY_CANDIDATE_SQL (now : Z) (locked : gset string)
    (job_id operation_id provider model : option string) (s : db) : option string :=
  '(_, o) ← best recovery_order
    (List.filter (λ x, unlocked locked x.1 x.2 && profile_gate provider model x.1
                       && recoverable now job_id operation_id x.1 x.2 s) (job_operations s));
  Some (or_operation_id o).

(** The take-over of an expired lease: a new owner under the next epoch. *)
Definition take_over (owner : string) (epoch expires_at : Z)
    (resumes_attempt resumes_checkpoint : option string) (r : AttemptRow) : AttemptRow :=
  mkAttemptRow (ar_attempt_id r) (ar_operation_id r) (ar_attempt_number r) (ar_status r)
    owner epoch expires_at "lease_expired" resumes_attempt resumes_checkpoint
    (ar_failure r) (ar_started_at r) (ar_finished_at r).

Definition take_over_expired (now : Z) (attempt_id owner : string) (expires_at : Z)
    (resumes_attempt resumes_checkpoint : option string) : Tx (option AttemptRow) :=
  found ← gets (λ s, attempts s !! attempt_id);
  match found with
  | Some a =>
      if bool_decide (ar_status a = "running") && (ar_lease_expires_at a <=? now) then
        epoch ← lift (checked_column i64_max (ar_lease_epoch a + 1));
        let a' := take_over owner epoch expires_at resumes_attempt resumes_checkpoint a in
        modify (λ s, set_attempts (<[attempt_id := a']> (attempts s)) s);;
        mret (Some a')
      else mret None
  | None => mret None
  end.

Definition resume_ids (resume : ResumeStrategy) : option string * option string :=
  match resume with
  | ResumeFresh => (None, None)
  | FromCheckpoint c => (Some (cp_attempt_id c), Some (cp_checkpoint_id c))
  end.

(** The row of a new attempt, in its first epoch. *)
Definition opened_attempt (now : Z) (new_id : string) (request : ClaimRequest)
    (selection : RecoverySelection) (attempt_number : Z) : AttemptRow :=
  let '(resumes_attempt, resumes_checkpoint) := resume_ids (rs_resume selection) in
  mkAttemptRow new_id (rs_operation_id selection) attempt_number "running"
    (cr_owner_instance_id request) 1 (lease_deadline now (cr_lease_seconds request))
    (RecoveryCause_as_database_value (rs_cause selection))
    resumes_attempt resumes_checkpoint None now None.

(** The attempt the claim hands out: the expired one, or a new one. *)
Definition claim_attempt (now : Z) (new_id : string) (request : ClaimRequest)
    (selection : RecoverySelection) : Tx (option AttemptRow) :=
  let '(resumes_attempt, resumes_checkpoint) := resume_ids (rs_resume selection) in
  let expires_at := lease_deadline now (cr_lease_seconds request) in
  if decide (rs_cause selection = LeaseExpired) then
    match rs_previous_attempt_id selection with
    | None => throw (InvalidInput [Lit "expired lease recovery has no attempt"])
    | Some previous =>
        take_over_expired now previous (cr_owner_instance_id request) expires_at
          resumes_attempt resumes_checkpoint
    end
  else
    attempt_number ← lift (ok_or (i32_try_from (rs_next_attempt_number selection))
                             (NumericRange "attempt number"));
    let row := opened_attempt now new_id request selection attempt_number in
    insert_attempt row;;
    mret (Some row).

(** [SET status = CASE WHEN status = 'cancelling' THEN status ELSE 'running'
    END]. *)
Definition job_claimed (now : Z) (j : JobRow) : JobRow :=
  job_with_status (if decide (jr_status j = "cancelling") then "cancelling" else "running") now j.

(** The transaction; [None] rolls it back. *)
Definition claim_tx (now : Z) (locked : gset string) (new_id : string) (scope : RecoveryScope)
    (request : ClaimRequest) : Tx (option (RecoverySelection * AttemptRow)) :=
  lift (guard_err (cr_lease_seconds request =? 0)
          (InvalidInput [Lit "claimed leases must be at least one second"]));;
  let '(job_id, operation_id) := database_ids scope in
  let provider := ep_provider <$> cr_execution_profile request in
  let model := ep_model <$> cr_execution_profile request in
  candidate ← gets (RECOVERY_CANDIDATE_SQL now locked job_id operation_id provider model);
  match candidate with
  | None => mret None
  | Some candidate_operation_id =>
      found ← gets (RECOVERY_SELECTION_SQL now job_id (Some candidate_operation_id));
      match found with
      | None => mret None
      | Some selection_row =>
          selection ← lift (RecoverySelection_try_from selection_row);
          job ← gets (λ s, jobs s !! rs_job_id selection);
          match job with
          | Some j =>
              if active_status (jr_status j) then
                update_job (rs_job_id selection) (job_claimed now);;
                attempt ← claim_attempt now new_id request selection;
                match attempt with
                | None => mret None
                | Some row =>
                    update_operation (rs_operation_id selection)
                      (operation_with_status "running" now);;
                    mret (Some (selection, row))
                end
              else mret None
          | None => mret None
          end
      end
  end.

(** [transaction.rollback()] on every path that returns no lease. *)
Definition commit_some {A : Type} (t : Tx (option A)) : Proc (option A) := λ s,
  match t s with
  | Ok (Some a, s') => (Ok (Some a), s')
  | Ok (None, _) => (Ok None, s)
  | Err e => (Err e, s)
  end.

Definition claim_recovery (now : Z) (locked : gset string) (new_id : string)
    (scope : RecoveryScope) (request : ClaimRequest) : Proc (option RecoveryLease) :=
  claimed ← commit_some (claim_tx now locked new_id scope request);
  match claimed with
  | None => mret None
  | Some (selection, attempt_row) =>
      attempt ← proc_lift (AttemptRecord_try_from attempt_row);
      mret (Some (mkRecoveryLease selection attempt (fence attempt)))
  end.

Definition claim_next_recovery (now : Z) (locked : gset string) (new_id : string)
    (request : ClaimRequest) : Proc (option RecoveryLease) :=
  claim_recovery now locked new_id ScopeAny request.
Definition claim_recovery_for_job (now : Z) (locked : gset string) (new_id job_id : string)
    (request : ClaimRequest) : Proc (option RecoveryLease) :=
  claim_recovery now locked new_id (ScopeJob job_id) request.
Definition claim_recovery_for_operation (now : Z) (locked : gset string) (new_id operation_id : string)
    (request : ClaimRequest) : Proc (option RecoveryLease) :=
  claim_recovery now locked new_id (ScopeOperation operation_id) request.
End claim.

(** ** Facts *)

Lemma elem_of_job_operations s j o :
  (j, o) ∈ job_operations s ↔ (∃ k, operations s !! k = Some o) ∧ jobs s !! or_job_id o = Some j.
Proof.
  unfold job_operations. rewrite list_elem_of_bind. split.
  - intros (p & Hin & Hp). destruct (jobs s !! or_job_id p) as [i|] eqn:Hi; [|set_solver].
    apply list_elem_of_singleton in Hin as [= -> ->]. by rewrite <- elem_of_values.
  - intros [Ho Hj]. exists o. rewrite Hj, elem_of_values. split; [left|done].
Qed.

Lemma elem_of_attempts_of operation_id s a :
  a ∈ attempts_of operation_id s ↔ (∃ k, attempts s !! k = Some a) ∧ ar_operation_id a = operation_id.
Proof. unfold attempts_of. by rewrite elem_of_select_rows, bool_decide_eq_true. Qed.

(** The previous attempt is an attempt of the operation, the one of the highest
    number. *)
Lemma previous_attempt_Some operation_id s a :
  previous_attempt operation_id s = Some a →
  (∃ k, attempts s !! k = Some a) ∧ ar_operation_id a = operation_id.
Proof. intros H%best_elem. by apply elem_of_attempts_of. Qed.

Lemma attempts_made_ge operation_id s k b :
  attempts s !! k = Some b → ar_operation_id b = operation_id →
  ar_attempt_number b ≤ attempts_made (previous_attempt operation_id s).
Proof.
  intros Hb Ho. assert (b ∈ attempts_of operation_id s) as Hin by (apply elem_of_attempts_of; eauto).
  unfold previous_attempt. destruct (best _ _) as [a|] eqn:Ha.
  - by apply (best_max _ _ _ Ha).
  - apply best_None in Ha. rewrite Ha in Hin. by apply not_elem_of_nil in Hin.
Qed.

Lemma active_status_true status :
  active_status status = true ↔ status ∈ ["queued"; "running"; "cancelling"].
Proof. unfold active_status. autorewrite with factory. rewrite !elem_of_cons, elem_of_nil. tauto. Qed.

Lemma has_unfinished_predecessor_false o s :
  has_unfinished_predecessor o s = false ↔
  ∀ k p, operations s !! k = Some p → or_job_id p = or_job_id o → or_ordinal p < or_ordinal o →
    or_status p = "succeeded".
Proof.
  unfold has_unfinished_predecessor. rewrite exists_row_false. split.
  - intros H k p Hp Hj Hlt. specialize (H k p Hp). simpl in H.
    rewrite bool_decide_eq_true_2, (proj2 (Z.ltb_lt _ _) Hlt) in H by done.
    by apply negb_false_iff, bool_decide_eq_true in H.
  - intros H k p Hp. apply not_true_iff_false. autorewrite with factory.
    intros [[Hj Hlt] Hs]. by apply Hs, (H k).
Qed.

(** What the selection's filter guarantees of a row. *)
Record is_recoverable (now : Z) (job_id operation_id : option string)
    (j : JobRow) (o : OperationRow) (s : db) : Prop := {
  rec_job_bound : bound_matches job_id (jr_job_id j) = true;
  rec_operation_bound : bound_matches operation_id (or_operation_id o) = true;
  rec_active : jr_status j ∈ ["queued"; "running"; "cancelling"];
  rec_workspace : workspace_gate j s = true;
  rec_predecessors : has_unfinished_predecessor o s = false;
  rec_ready : startable now j o (previous_attempt (or_operation_id o) s) = true
              ∨ expired now o (previous_attempt (or_operation_id o) s) = true;
}.

Lemma recoverable_true now job_id operation_id j o s :
  recoverable now job_id operation_id j o s = true ↔ is_recoverable now job_id operation_id j o s.
Proof.
  unfold recoverable. rewrite !andb_true_iff, orb_true_iff, negb_true_iff, active_status_true.
  split; [intros [[[[[]]]]]; by split|by intros []].
Qed.

Lemma startable_true now j o previous :
  startable now j o previous = true ↔
  jr_status j ∈ ["queued"; "running"] ∧ attempts_made previous < or_max_attempts o
  ∧ (or_status o = "ready" ∨ or_status o = "retry_wait" ∧ or_next_eligible_at o ≤ now).
Proof.
  unfold startable. autorewrite with factory. rewrite !elem_of_cons, elem_of_nil. tauto.
Qed.

Lemma expired_true now o previous :
  expired now o previous = true ↔
  or_status o = "running" ∧ ∃ a, previous = Some a ∧ ar_status a = "running" ∧ ar_lease_expires_at a ≤ now.
Proof.
  unfold expired. destruct previous as [a|]; autorewrite with factory; naive_solver.
Qed.

(** The row the ordered query returns: a recoverable row no other recoverable
    row precedes. *)
Lemma recovery_sql_Some now job_id operation_id s row :
  RECOVERY_SELECTION_SQL now job_id operation_id s = Some row →
  ∃ j o, (j, o) ∈ job_operations s ∧ is_recoverable now job_id operation_id j o s
    ∧ row = recovery_selection_row j o s.
Proof.
  unfold RECOVERY_SELECTION_SQL. intros ([j o] & Hb%best_elem & [= <-])%bind_Some.
  apply list_elem_of_In, filter_In in Hb as [Hb%list_elem_of_In Hr]. simpl in Hr.
  exists j, o. by rewrite <- recoverable_true.
Qed.

#[export] Instance recovery_order_strict_weak : StrictWeak recovery_order.
Proof.
  split; unfold recovery_order.
  - intros x y. autorewrite with factory. intros Hxy. apply not_true_iff_false.
    autorewrite with factory. lia.
  - intros x y z. rewrite <- !not_true_iff_false. autorewrite with factory. lia.
Qed.

Section claim_facts.
Context `{External}.

Lemma recovery_candidate_Some now locked job_id operation_id provider model s oid :
  RECOVERY_CANDIDATE_SQL now locked job_id operation_id provider model s = Some oid →
  ∃ j o, (j, o) ∈ job_operations s ∧ is_recoverable now job_id operation_id j o s
    ∧ unlocked locked j o = true ∧ profile_gate provider model j = true
    ∧ (∀ j2 o2, (j2, o2) ∈ job_operations s → is_recoverable now job_id operation_id j2 o2 s →
         unlocked locked j2 o2 = true → profile_gate provider model j2 = true →
         recovery_order (j2, o2) (j, o) = false)
    ∧ oid = or_operation_id o.
Proof.
  unfold RECOVERY_CANDIDATE_SQL. intros ([j o] & Hb & [= <-])%bind_Some.
  pose proof (best_first _ _ _ Hb) as Hfirst. apply best_elem in Hb.
  apply list_elem_of_In, filter_In in Hb as [Hb%list_elem_of_In Hr]. simpl in Hr.
  apply andb_true_iff in Hr as [[]%andb_true_iff ?%recoverable_true]. exists j, o.
  split_and!; try done. intros j2 o2 Hin Hrec2 Hul Hprof. apply Hfirst.
  apply list_elem_of_In, filter_In. rewrite <- list_elem_of_In. split; [done|]. simpl.
  apply recoverable_true in Hrec2. by rewrite Hul, Hprof, Hrec2.
Qed.

Lemma selection_of_row j o s selection :
  RecoverySelection_try_from (recovery_selection_row j o s) = Ok selection →
  rs_job_id selection = jr_job_id j ∧ rs_operation_id selection = or_operation_id o
  ∧ recovery_cause_of_status (or_status o) = Ok (rs_cause selection)
  ∧ rs_previous_attempt_id selection = ar_attempt_id <$> previous_attempt (or_operation_id o) s
  ∧ (rs_cause selection ≠ LeaseExpired →
     rs_next_attempt_number selection
     = i32_wrapping_add (attempts_made (previous_attempt (or_operation_id o) s)) 1).
Proof. intros (Hj & Ho & Hc & Hp & Hn & _)%RecoverySelection_try_from_Ok. done. Qed.

(** A claim hands out the expired attempt under the next epoch, or a new
    attempt under a fresh identifier. *)
Inductive claim_outcome (now : Z) (new_id : string) (request : ClaimRequest)
    (selection : RecoverySelection) (s : db) : AttemptRow → db → Prop :=
| outcome_take_over aid a row :
    rs_cause selection = LeaseExpired → rs_previous_attempt_id selection = Some aid →
    attempts s !! aid = Some a → ar_status a = "running" → ar_lease_expires_at a ≤ now →
    ar_lease_epoch a + 1 ≤ i64_max →
    row = take_over (cr_owner_instance_id request) (ar_lease_epoch a + 1)
            (lease_deadline now (cr_lease_seconds request))
            (resume_ids (rs_resume selection)).1 (resume_ids (rs_resume selection)).2 a →
    claim_outcome now new_id request selection s row (set_attempts (<[aid := row]> (attempts s)) s)
| outcome_open row :
    rs_cause selection ≠ LeaseExpired → attempts s !! new_id = None →
    0 < rs_next_attempt_number selection →
    row = opened_attempt now new_id request selection (rs_next_attempt_number selection) →
    claim_outcome now new_id request selection s row (set_attempts (<[new_id := row]> (attempts s)) s).

Lemma take_over_expired_Some now aid owner ex ra rc s row s1 :
  take_over_expired now aid owner ex ra rc s = Ok (Some row, s1) →
  ∃ a, attempts s !! aid = Some a ∧ ar_status a = "running" ∧ ar_lease_expires_at a ≤ now
    ∧ ar_lease_epoch a + 1 ≤ i64_max ∧ row = take_over owner (ar_lease_epoch a + 1) ex ra rc a
    ∧ s1 = set_attempts (<[aid := row]> (attempts s)) s.
Proof.
  unfold take_over_expired. intros Hs. inv_tx.
  destruct (attempts s !! aid) as [a|] eqn:Ha; [|inv_tx].
  destruct (_ && _) eqn:Hc; inv_tx. autorewrite with factory in Hc.
  match goal with H : checked_column _ _ = _ |- _ => apply checked_column_Ok in H as [-> ?] end.
  exists a. naive_solver lia.
Qed.

Lemma insert_attempt_Ok row s u s' :
  insert_attempt row s = Ok (u, s') →
  0 < ar_attempt_number row ∧ attempts s !! ar_attempt_id row = None
  ∧ s' = set_attempts (<[ar_attempt_id row := row]> (attempts s)) s.
Proof.
  unfold insert_attempt. intros Hs. inv_tx.
  match goal with H : insert_unique _ _ _ = _ |- _ => apply insert_unique_Ok in H as [? ->] end.
  split; [|done]. match goal with H : (_ <=? 0) = false |- _ => apply Z.leb_gt in H; done end.
Qed.

Lemma claim_attempt_Some now new_id request selection s row s1 :
  claim_attempt now new_id request selection s = Ok (Some row, s1) →
  claim_outcome now new_id request selection s row s1.
Proof.
  unfold claim_attempt. intros Hs. destruct (resume_ids _) as [ra rc] eqn:Hres.
  case_decide as Hc.
  - destruct (rs_previous_attempt_id selection) as [aid|] eqn:Hp; [|inv_tx].
    apply take_over_expired_Some in Hs as (a & Ha & Har & Hex & Hep & -> & ->).
    eapply outcome_take_over; eauto. by rewrite Hres.
  - inv_tx. match goal with H : i32_try_from _ = _ |- _ => apply try_range_Some in H as [-> _] end.
    match goal with H : insert_attempt _ _ = _ |- _ => apply insert_attempt_Ok in H as (Hpos & Hnone & ->) end.
    unfold opened_attempt in *. rewrite Hres in *. apply outcome_open; try done.
    unfold opened_attempt. by rewrite Hres.
Qed.
End claim_facts.
