(* ===== verification/Lifecycle.v ===== *)
(** * The abstract lifecycle and its invariant

    The jobs, operations and attempts of the database form a transition system
    of their own: [lifecycle_step] has one rule per way the durable lifecycle
    may move (append operations, start or take over an attempt, settle it,
    request and finish cancellation, move a lease).  [lifecycle_ok] is its
    invariant, proved here by cases on the rules; [Refinement] shows that every
    store call is such a step or leaves the three tables alone. *)

From S2P Require Import Prelude Domain Rows Store Leases Environments Attempts Jobs Recovery.
From Stdlib Require Import ZArith Ascii String.
From stdpp Require Import base gmap strings list.

#[local] Open Scope string_scope.
#[local] Open Scope Z_scope.
#[local] Open Scope list_scope.

Record lifecycle : Type := mkLifecycle {
  lc_jobs : gmap string JobRow;
  lc_operations : gmap string OperationRow;
  lc_attempts : gmap string AttemptRow;
}.

Definition lifecycle_of (s : db) : lifecycle := mkLifecycle (jobs s) (operations s) (attempts s).

(** ** Well-formedness *)

Definition op_started (status : string) : Prop :=
  status ∈ ["running"; "retry_wait"; "succeeded"; "failed"].

(** The operation statuses each job status allows. *)
Definition op_allowed (job_status op_status : string) : Prop :=
  (job_status = "queued" ∧ op_status ∈ ["ready"; "succeeded"])
  ∨ (job_status ∈ ["running"; "cancelling"]
     ∧ op_status ∈ ["ready"; "running"; "retry_wait"; "succeeded"])
  ∨ (job_status = "succeeded" ∧ op_status = "succeeded")
  ∨ (job_status = "failed" ∧ op_status ∈ ["ready"; "succeeded"; "failed"])
  ∨ (job_status = "cancelled" ∧ op_status ∈ ["succeeded"; "cancelled"]).

Definition job_status_ok (status : string) : Prop :=
  status ∈ ["queued"; "running"; "cancelling"; "succeeded"; "failed"; "cancelled"].

Definition attempt_status_ok (status : string) : Prop :=
  status ∈ ["running"; "succeeded"; "failed"; "abandoned"].

(** Keys, foreign keys, ranges and uniqueness: the constraints the schema
    declares for the three tables, and the attempt limit. *)
Record tables_ok (l : lifecycle) : Prop := {
  tk_job_key k j : lc_jobs l !! k = Some j → jr_job_id j = k;
  tk_op_key k o : lc_operations l !! k = Some o → or_operation_id o = k;
  tk_att_key k a : lc_attempts l !! k = Some a → ar_attempt_id a = k;
  tk_op_job k o : lc_operations l !! k = Some o → is_Some (lc_jobs l !! or_job_id o);
  tk_att_op k a : lc_attempts l !! k = Some a → is_Some (lc_operations l !! ar_operation_id a);
  tk_op_range k o : lc_operations l !! k = Some o →
    0 ≤ or_ordinal o ≤ i32_max ∧ 1 ≤ or_max_attempts o ≤ i32_max;
  tk_att_range k a o : lc_attempts l !! k = Some a →
    lc_operations l !! ar_operation_id a = Some o →
    1 ≤ ar_attempt_number a ≤ or_max_attempts o;
  tk_ordinal k1 o1 k2 o2 :
    lc_operations l !! k1 = Some o1 → lc_operations l !! k2 = Some o2 →
    or_job_id o1 = or_job_id o2 → or_ordinal o1 = or_ordinal o2 → k1 = k2;
  tk_number k1 a1 k2 a2 :
    lc_attempts l !! k1 = Some a1 → lc_attempts l !! k2 = Some a2 →
    ar_operation_id a1 = ar_operation_id a2 → ar_attempt_number a1 = ar_attempt_number a2 → k1 = k2;
}.

(** How the statuses of a job, its operations and their attempts agree. *)
Record statuses_ok (l : lifecycle) : Prop := {
  st_job k j : lc_jobs l !! k = Some j → job_status_ok (jr_status j);
  st_att k a : lc_attempts l !! k = Some a →
    attempt_status_ok (ar_status a) ∧ 1 ≤ ar_lease_epoch a ≤ i64_max
    ∧ ar_recovery_cause a ∈ ["new_operation"; "retry_scheduled"; "lease_expired"];
  st_allowed k o j : lc_operations l !! k = Some o → lc_jobs l !! or_job_id o = Some j →
    op_allowed (jr_status j) (or_status o);
  st_att_running k a o : lc_attempts l !! k = Some a → ar_status a = "running" →
    lc_operations l !! ar_operation_id a = Some o → or_status o = "running";
  st_op_running k o : lc_operations l !! k = Some o → or_status o = "running" →
    ∃ ka a, lc_attempts l !! ka = Some a ∧ ar_operation_id a = k ∧ ar_status a = "running";
  st_latest k1 a1 k2 a2 : lc_attempts l !! k1 = Some a1 → lc_attempts l !! k2 = Some a2 →
    ar_status a1 = "running" → ar_operation_id a1 = ar_operation_id a2 →
    ar_attempt_number a2 ≤ ar_attempt_number a1;
  st_ready k o ka a : lc_operations l !! k = Some o → or_status o = "ready" →
    lc_attempts l !! ka = Some a → ar_operation_id a ≠ k;
  st_retry k o ka a : lc_operations l !! k = Some o → or_status o = "retry_wait" →
    lc_attempts l !! ka = Some a → ar_operation_id a = k →
    ar_attempt_number a < or_max_attempts o;
  st_started k o kp p : lc_operations l !! k = Some o → op_started (or_status o) →
    lc_operations l !! kp = Some p → or_job_id p = or_job_id o →
    or_ordinal p < or_ordinal o → or_status p = "succeeded";
  st_pending k j : lc_jobs l !! k = Some j → jr_status j ∈ ["queued"; "running"] →
    ∃ ko o, lc_operations l !! ko = Some o ∧ or_job_id o = k ∧ or_status o ≠ "succeeded";
  st_cancelling k j : lc_jobs l !! k = Some j → jr_status j = "cancelling" →
    ∃ ko o, lc_operations l !! ko = Some o ∧ or_job_id o = k ∧ or_status o = "running";
}.

Definition lifecycle_ok (l : lifecycle) : Prop := tables_ok l ∧ statuses_ok l.

(** ** The rules *)

(** Cancelling a job's unfinished operations. *)
Definition cancelled_operations (now : Z) (job_id : string) (m : gmap string OperationRow) :
    gmap string OperationRow :=
  update_where (λ o, bool_decide (or_job_id o = job_id) && unfinished_status (or_status o))
    (operation_with_status "cancelled" now) m.

(** The operations a creation or a continuation appends to a job. *)
Record appended (job_id : string) (O N : gmap string OperationRow) : Prop := {
  ap_fresh k o : N !! k = Some o → O !! k = None;
  ap_key k o : N !! k = Some o → or_operation_id o = k;
  ap_job k o : N !! k = Some o → or_job_id o = job_id;
  ap_ready k o : N !! k = Some o → or_status o = "ready";
  ap_range k o : N !! k = Some o → 0 ≤ or_ordinal o ≤ i32_max ∧ 1 ≤ or_max_attempts o ≤ i32_max;
  ap_distinct k1 o1 k2 o2 : N !! k1 = Some o1 → N !! k2 = Some o2 →
    or_ordinal o1 = or_ordinal o2 → k1 = k2;
  ap_after k o kp p : N !! k = Some o → O !! kp = Some p → or_job_id p = job_id →
    or_ordinal p < or_ordinal o;
  ap_nonempty : ∃ k o, N !! k = Some o;
}.

(** Rows at consecutive ordinals from [n], of the given kinds. *)
Definition stages_at (n : Z) (kinds : list string) (N : gmap string OperationRow) : Prop :=
  (∀ k o, N !! k = Some o → ∃ i : nat, kinds !! i = Some (or_kind o) ∧ or_ordinal o = n + Z.of_nat i)
  ∧ ∀ i kind, kinds !! i = Some kind → ∃ k o, N !! k = Some o ∧ or_ordinal o = n + Z.of_nat i.

(** A continuation appends one round of three stages, right after the four
    initial stages and the complete rounds before it. *)
Definition one_round (job_id : string) (O N : gmap string OperationRow) : Prop :=
  ∃ n, 4 ≤ n ∧ (n - 4) `mod` 3 = 0 ∧ stages_at n CONTINUATION_KINDS N
    ∧ ∃ k p, O !! k = Some p ∧ or_job_id p = job_id ∧ or_ordinal p = n - 1.

(** A running attempt, its operation and its job. *)
Definition runs (l : lifecycle) (aid : string) (a : AttemptRow) (o : OperationRow) (j : JobRow) : Prop :=
  lc_attempts l !! aid = Some a ∧ ar_status a = "running"
  ∧ lc_operations l !! ar_operation_id a = Some o ∧ lc_jobs l !! or_job_id o = Some j.

Definition no_running_attempt (job_id : string) (l : lifecycle) : Prop :=
  ∀ ka a o, lc_attempts l !! ka = Some a → ar_status a = "running" →
    lc_operations l !! ar_operation_id a = Some o → or_job_id o ≠ job_id.

Definition predecessors_succeeded (l : lifecycle) (o : OperationRow) : Prop :=
  ∀ kp p, lc_operations l !! kp = Some p → or_job_id p = or_job_id o →
    or_ordinal p < or_ordinal o → or_status p = "succeeded".

Inductive lifecycle_step : lifecycle → lifecycle → Prop :=
| step_append l jid j' N :
    (lc_jobs l !! jid = None ∨ ∃ j, lc_jobs l !! jid = Some j ∧ jr_status j = "succeeded") →
    jr_job_id j' = jid → jr_status j' = "queued" →
    appended jid (lc_operations l) N →
    (∀ j, lc_jobs l !! jid = Some j → jr_kind j' = jr_kind j ∧ one_round jid (lc_operations l) N) →
    lifecycle_step l (mkLifecycle (<[jid := j']> (lc_jobs l)) (N ∪ lc_operations l) (lc_attempts l))
| step_start l o j a now :
    lc_operations l !! or_operation_id o = Some o →
    lc_jobs l !! or_job_id o = Some j →
    jr_status j ∈ ["queued"; "running"] →
    or_status o ∈ ["ready"; "retry_wait"] →
    predecessors_succeeded l o →
    lc_attempts l !! ar_attempt_id a = None →
    ar_operation_id a = or_operation_id o →
    ar_status a = "running" → ar_lease_epoch a = 1 →
    ar_recovery_cause a ∈ ["new_operation"; "retry_scheduled"] →
    1 ≤ ar_attempt_number a ≤ or_max_attempts o →
    (∀ kb b, lc_attempts l !! kb = Some b → ar_operation_id b = or_operation_id o →
       ar_attempt_number b < ar_attempt_number a) →
    lifecycle_step l (mkLifecycle (<[or_job_id o := job_with_status "running" now j]> (lc_jobs l))
      (<[or_operation_id o := operation_with_status "running" now o]> (lc_operations l))
      (<[ar_attempt_id a := a]> (lc_attempts l)))
| step_take_over l aid a o j now owner expires_at ra rc :
    runs l aid a o j → or_status o = "running" →
    ar_lease_epoch a + 1 ≤ i64_max →
    lifecycle_step l (mkLifecycle (<[or_job_id o := job_claimed now j]> (lc_jobs l))
      (<[ar_operation_id a := operation_with_status "running" now o]> (lc_operations l))
      (<[aid := take_over owner (ar_lease_epoch a + 1) expires_at ra rc a]> (lc_attempts l)))
| step_lease l aid a expires_at :
    lc_attempts l !! aid = Some a → ar_status a = "running" →
    lifecycle_step l (mkLifecycle (lc_jobs l) (lc_operations l)
      (<[aid := attempt_with_lease expires_at a]> (lc_attempts l)))
| step_succeed l aid a o j now :
    runs l aid a o j → jr_status j ≠ "cancelling" →
    let O' := <[ar_operation_id a := operation_with_status "succeeded" now o]> (lc_operations l) in
    lifecycle_step l (mkLifecycle
      (if exists_row (λ p, bool_decide (or_job_id p = or_job_id o)
                           && negb (bool_decide (or_status p = "succeeded"))) O'
       then lc_jobs l else <[or_job_id o := job_with_status "succeeded" now j]> (lc_jobs l))
      O' (<[aid := attempt_finished "succeeded" (ar_failure a) now a]> (lc_attempts l)))
| step_retry l aid a o j now retry_at payload :
    runs l aid a o j → jr_status j ≠ "cancelling" →
    ar_attempt_number a < or_max_attempts o →
    lifecycle_step l (mkLifecycle (lc_jobs l)
      (<[ar_operation_id a := operation_retry_at retry_at now o]> (lc_operations l))
      (<[aid := attempt_finished "failed" payload now a]> (lc_attempts l)))
| step_fail l aid a o j now payload :
    runs l aid a o j → jr_status j ≠ "cancelling" →
    lifecycle_step l (mkLifecycle (<[or_job_id o := job_with_status "failed" now j]> (lc_jobs l))
      (<[ar_operation_id a := operation_with_status "failed" now o]> (lc_operations l))
      (<[aid := attempt_finished "failed" payload now a]> (lc_attempts l)))
| step_request_cancel l jid j now :
    lc_jobs l !! jid = Some j → jr_status j ∈ ["queued"; "running"] →
    (∃ aid a o, lc_attempts l !! aid = Some a ∧ ar_status a = "running"
       ∧ lc_operations l !! ar_operation_id a = Some o ∧ or_job_id o = jid) →
    lifecycle_step l (mkLifecycle (<[jid := job_with_status "cancelling" now j]> (lc_jobs l))
      (lc_operations l) (lc_attempts l))
| step_cancel l jid j now :
    lc_jobs l !! jid = Some j → jr_status j ∈ ["queued"; "running"] →
    no_running_attempt jid l →
    lifecycle_step l (mkLifecycle (<[jid := job_with_status "cancelled" now j]> (lc_jobs l))
      (cancelled_operations now jid (lc_operations l)) (lc_attempts l))
| step_acknowledge l aid a o j now payload :
    runs l aid a o j → jr_status j = "cancelling" →
    lifecycle_step l (mkLifecycle (<[or_job_id o := job_with_status "cancelled" now j]> (lc_jobs l))
      (cancelled_operations now (or_job_id o) (lc_operations l))
      (<[aid := attempt_finished "abandoned" payload now a]> (lc_attempts l))).

(** ** Preservation of the table constraints

    Only the identity columns matter, and most rules do not touch them. *)

Definition op_ident (o : OperationRow) := (or_operation_id o, or_job_id o, or_ordinal o, or_max_attempts o).
Definition att_ident (a : AttemptRow) := (ar_attempt_id a, ar_operation_id a, ar_attempt_number a).

Definition same_shape (l l' : lifecycle) : Prop :=
  (∀ k, jr_job_id <$> lc_jobs l' !! k = jr_job_id <$> lc_jobs l !! k)
  ∧ (∀ k, op_ident <$> lc_operations l' !! k = op_ident <$> lc_operations l !! k)
  ∧ (∀ k, att_ident <$> lc_attempts l' !! k = att_ident <$> lc_attempts l !! k).

Lemma fmap_eq_Some_l {A B : Type} (f : A → B) (o o' : option A) x :
  f <$> o' = f <$> o → o' = Some x → ∃ y, o = Some y ∧ f x = f y.
Proof. intros H ->. destruct o as [y|]; simpl in *; [|done]. exists y. naive_solver. Qed.

Lemma same_shape_ops l l' k o :
  same_shape l l' → lc_operations l' !! k = Some o →
  ∃ o0, lc_operations l !! k = Some o0 ∧ or_operation_id o = or_operation_id o0
        ∧ or_job_id o = or_job_id o0 ∧ or_ordinal o = or_ordinal o0
        ∧ or_max_attempts o = or_max_attempts o0.
Proof.
  intros (_ & H & _) Ho. destruct (fmap_eq_Some_l _ _ _ _ (H k) Ho) as (o0 & Ho0 & [=]). eauto 10.
Qed.

Lemma same_shape_atts l l' k a :
  same_shape l l' → lc_attempts l' !! k = Some a →
  ∃ a0, lc_attempts l !! k = Some a0 ∧ ar_attempt_id a = ar_attempt_id a0
        ∧ ar_operation_id a = ar_operation_id a0 ∧ ar_attempt_number a = ar_attempt_number a0.
Proof.
  intros (_ & _ & H) Ha. destruct (fmap_eq_Some_l _ _ _ _ (H k) Ha) as (a0 & Ha0 & [=]). eauto 10.
Qed.

Lemma is_Some_fmap_eq {A B : Type} (f : A → B) (o o' : option A) :
  f <$> o' = f <$> o → is_Some o → is_Some o'.
Proof. destruct o, o'; simpl; naive_solver. Qed.

Lemma tables_ok_shape l l' : same_shape l l' → tables_ok l → tables_ok l'.
Proof.
  intros Hs Hok. pose proof Hs as (HJ & HO & HA). split.
  - intros k j Hj. destruct (fmap_eq_Some_l _ _ _ _ (HJ k) Hj) as (j0 & Hj0 & ->).
    by apply (tk_job_key _ Hok).
  - intros k o (o0 & Ho & -> & _)%(same_shape_ops _ _ _ _ Hs). by apply (tk_op_key _ Hok).
  - intros k a (a0 & Ha & -> & _)%(same_shape_atts _ _ _ _ Hs). by apply (tk_att_key _ Hok).
  - intros k o (o0 & Ho & _ & -> & _)%(same_shape_ops _ _ _ _ Hs).
    eapply is_Some_fmap_eq, (tk_op_job _ Hok); eauto.
  - intros k a (a0 & Ha & _ & -> & _)%(same_shape_atts _ _ _ _ Hs).
    eapply is_Some_fmap_eq, (tk_att_op _ Hok); eauto.
  - intros k o (o0 & Ho & _ & _ & -> & ->)%(same_shape_ops _ _ _ _ Hs).
    by apply (tk_op_range _ Hok k).
  - intros k a o (a0 & Ha & _ & Hop & ->)%(same_shape_atts _ _ _ _ Hs).
    intros (o0 & Ho & _ & _ & _ & ->)%(same_shape_ops _ _ _ _ Hs). rewrite Hop in Ho.
    by apply (tk_att_range _ Hok k).
  - intros k1 o1 k2 o2 (x & Hx & _ & -> & -> & _)%(same_shape_ops _ _ _ _ Hs)
      (y & Hy & _ & -> & -> & _)%(same_shape_ops _ _ _ _ Hs). by eapply (tk_ordinal _ Hok).
  - intros k1 o1 k2 o2 (x & Hx & _ & -> & ->)%(same_shape_atts _ _ _ _ Hs)
      (y & Hy & _ & -> & ->)%(same_shape_atts _ _ _ _ Hs). by eapply (tk_number _ Hok).
Qed.

(** Replacing a row by one with the same identity keeps the shape. *)
Lemma insert_shape {A B : Type} (f : A → B) (m : gmap string A) k x y :
  m !! k = Some x → f y = f x → ∀ i, f <$> <[k := y]> m !! i = f <$> m !! i.
Proof.
  intros Hk Hf i. rewrite lookup_insert. case_decide; subst; [|done]. by rewrite Hk; simpl; f_equal.
Qed.

Lemma cancelled_operations_shape now jid m k :
  op_ident <$> cancelled_operations now jid m !! k = op_ident <$> m !! k.
Proof.
  unfold cancelled_operations. rewrite lookup_update_where.
  destruct (m !! k) as [o|]; [|done]. simpl. by destruct (_ && _).
Qed.

#[export] Hint Resolve insert_shape cancelled_operations_shape : factory.

Lemma tables_ok_insert_attempt l a o :
  tables_ok l → lc_operations l !! ar_operation_id a = Some o →
  lc_attempts l !! ar_attempt_id a = None →
  1 ≤ ar_attempt_number a ≤ or_max_attempts o →
  (∀ kb b, lc_attempts l !! kb = Some b → ar_operation_id b = ar_operation_id a →
     ar_attempt_number b < ar_attempt_number a) →
  tables_ok (mkLifecycle (lc_jobs l) (lc_operations l) (<[ar_attempt_id a := a]> (lc_attempts l))).
Proof.
  intros Hok Ho Hfresh Hn Hlt. split; simpl; try apply Hok.
  - intros k b [[<- <-]|[_ Hb]]%lookup_insert_Some; [done|]. by apply (tk_att_key _ Hok).
  - intros k b [[<- <-]|[_ Hb]]%lookup_insert_Some; [by eexists|]. by apply (tk_att_op _ Hok k).
  - intros k b p [[<- <-]|[_ Hb]]%lookup_insert_Some Hp; [by simplify_eq|].
    by apply (tk_att_range _ Hok k).
  - intros k1 b1 k2 b2 [[<- <-]|[_ H1]]%lookup_insert_Some [[<- <-]|[_ H2]]%lookup_insert_Some Ho' Hn';
      [done| | |by eapply (tk_number _ Hok)].
    + specialize (Hlt _ _ H2 (eq_sym Ho')). lia.
    + specialize (Hlt _ _ H1 Ho'). lia.
Qed.

Lemma lookup_append_Some (N O : gmap string OperationRow) jid k o :
  appended jid O N → (N ∪ O) !! k = Some o ↔ N !! k = Some o ∨ O !! k = Some o.
Proof.
  intros Hap. rewrite lookup_union_Some; [done|]. apply map_disjoint_spec.
  intros i x y Hx Hy. apply (ap_fresh _ _ _ Hap) in Hx. congruence.
Qed.

Lemma tables_ok_append l jid j' N :
  tables_ok l → jr_job_id j' = jid → appended jid (lc_operations l) N →
  tables_ok (mkLifecycle (<[jid := j']> (lc_jobs l)) (N ∪ lc_operations l) (lc_attempts l)).
Proof.
  intros Hok Hj Hap. pose proof (λ k o, lookup_append_Some _ _ _ k o Hap) as HN.
  split; simpl.
  - intros k j [[<- <-]|[_ H]]%lookup_insert_Some; [done|]. by apply (tk_job_key _ Hok).
  - intros k o [H|H]%HN; [by apply (ap_key _ _ _ Hap)|by apply (tk_op_key _ Hok)].
  - apply (tk_att_key _ Hok).
  - intros k o [H|H]%HN.
    + rewrite (ap_job _ _ _ Hap _ _ H), lookup_insert_eq. by eexists.
    + rewrite lookup_insert. case_decide; [by eexists|]. by apply (tk_op_job _ Hok k).
  - intros k a Ha. destruct (tk_att_op _ Hok _ _ Ha) as [o Ho]. exists o. apply HN. by right.
  - intros k o [H|H]%HN; [by apply (ap_range _ _ _ Hap k)|by apply (tk_op_range _ Hok k)].
  - intros k a o Ha [H|H]%HN; [|by apply (tk_att_range _ Hok k)].
    destruct (tk_att_op _ Hok _ _ Ha) as [o' Ho']. apply (ap_fresh _ _ _ Hap) in H. congruence.
  - intros k1 o1 k2 o2 [H1|H1]%HN [H2|H2]%HN Hjob Hord.
    + by eapply (ap_distinct _ _ _ Hap).
    + rewrite (ap_job _ _ _ Hap _ _ H1) in Hjob.
      pose proof (ap_after _ _ _ Hap _ _ _ _ H1 H2 (eq_sym Hjob)). lia.
    + rewrite (ap_job _ _ _ Hap _ _ H2) in Hjob.
      pose proof (ap_after _ _ _ Hap _ _ _ _ H2 H1 Hjob). lia.
    + by eapply (tk_ordinal _ Hok).
  - apply (tk_number _ Hok).
Qed.

Lemma tables_ok_step l l' : tables_ok l → lifecycle_step l l' → tables_ok l'.
Proof.
  intros Hok Hstep. destruct Hstep as
    [l jid j' N Hj Hid Hst Hap|l o j a now Ho Hj Hjs Hos Hpred Hf Hao Has He Hc Hn Hlt
    |l aid a o j now owner ex ra rc (Ha & Har & Ho & Hj) Hos He|l aid a ex Ha Har
    |l aid a o j now (Ha & Har & Ho & Hj) Hnc O'|l aid a o j now ra pl (Ha & Har & Ho & Hj) Hnc Hlt
    |l aid a o j now pl (Ha & Har & Ho & Hj) Hnc|l jid j now Hj Hjs Hrun|l jid j now Hj Hjs Hno
    |l aid a o j now pl (Ha & Har & Ho & Hj) Hc].
  - by apply tables_ok_append.
  - eapply (tables_ok_shape (mkLifecycle (lc_jobs l) (lc_operations l) _));
      [|eapply (tables_ok_insert_attempt l a o); rewrite ?Hao; by eauto].
    repeat split; simpl; eapply insert_shape; eauto.
  - eapply tables_ok_shape, Hok. repeat split; simpl; eapply insert_shape; eauto; by destruct o, j, a.
  - eapply tables_ok_shape, Hok. repeat split; simpl; [done..|]. eapply insert_shape; eauto.
  - eapply tables_ok_shape, Hok. repeat split; simpl; [|eapply insert_shape; eauto..].
    destruct (exists_row _ _); [done|]. eapply insert_shape; eauto.
  - eapply tables_ok_shape, Hok. repeat split; simpl; eapply insert_shape; eauto.
  - eapply tables_ok_shape, Hok. repeat split; simpl; eapply insert_shape; eauto.
  - eapply tables_ok_shape, Hok. repeat split; simpl; [|done..]. eapply insert_shape; eauto.
  - eapply tables_ok_shape, Hok. repeat split; simpl; [|by intros; apply cancelled_operations_shape].
    eapply insert_shape; eauto.
  - eapply tables_ok_shape, Hok.
    repeat split; simpl; [|by intros; apply cancelled_operations_shape|]; eapply insert_shape; eauto.
Qed.

(** ** Preservation of the status agreement *)

(** What the status tables say, in the forms the proofs use. *)
Ltac status_table :=
  unfold op_allowed, op_started, job_status_ok, attempt_status_ok;
  rewrite ?elem_of_cons, ?elem_of_nil; naive_solver.

Lemma under_way_started s : s ∈ ["running"; "retry_wait"; "failed"] → op_started s.
Proof. status_table. Qed.
Lemma running_started : op_started "running".
Proof. status_table. Qed.
Lemma finished_status_ok s : s ∈ ["succeeded"; "failed"; "abandoned"] → attempt_status_ok s.
Proof. status_table. Qed.
Lemma allowed_running s : op_allowed s "running" → s ∈ ["running"; "cancelling"].
Proof. status_table. Qed.
Lemma active_allowed s o : s ∈ ["queued"; "running"; "cancelling"] → op_allowed s o →
  o ∈ ["ready"; "running"; "retry_wait"; "succeeded"].
Proof. status_table. Qed.
Lemma allowed_active s o : s ∈ ["running"; "cancelling"] →
  o ∈ ["ready"; "running"; "retry_wait"; "succeeded"] → op_allowed s o.
Proof. status_table. Qed.
Lemma allowed_failed o : o ∈ ["ready"; "succeeded"; "failed"] → op_allowed "failed" o.
Proof. status_table. Qed.
Lemma allowed_cancelled o : o ∈ ["succeeded"; "cancelled"] → op_allowed "cancelled" o.
Proof. status_table. Qed.
Lemma allowed_succeeded : op_allowed "succeeded" "succeeded".
Proof. status_table. Qed.
Lemma succeeded_allowed o : op_allowed "succeeded" o → o = "succeeded".
Proof. status_table. Qed.
Lemma allowed_queued o : o ∈ ["ready"; "succeeded"] → op_allowed "queued" o.
Proof. status_table. Qed.

#[export] Hint Resolve under_way_started running_started finished_status_ok allowed_running
  active_allowed allowed_active allowed_failed allowed_cancelled allowed_succeeded
  allowed_queued : factory.

Section uniqueness.
Context (l : lifecycle) (Htk : tables_ok l) (Hst : statuses_ok l).

(** At most one operation of a job is under way, parked for a retry or
    failed. *)
Lemma started_unique k1 o1 k2 o2 :
  lc_operations l !! k1 = Some o1 → lc_operations l !! k2 = Some o2 →
  or_job_id o1 = or_job_id o2 →
  or_status o1 ∈ ["running"; "retry_wait"; "failed"] →
  or_status o2 ∈ ["running"; "retry_wait"; "failed"] → k1 = k2.
Proof.
  intros H1 H2 Hjob Hs1 Hs2.
  destruct (Z.lt_trichotomy (or_ordinal o1) (or_ordinal o2)) as [Hlt|[Heq|Hlt]].
  - assert (or_status o1 = "succeeded") as Hs.
    { eapply (st_started _ Hst k2 o2); eauto with factory. }
    absurd_mem.
  - by eapply (tk_ordinal _ Htk).
  - assert (or_status o2 = "succeeded") as Hs.
    { eapply (st_started _ Hst k1 o1); eauto with factory. }
    absurd_mem.
Qed.

(** At most one attempt of an operation is running. *)
Lemma running_attempt_unique k1 a1 k2 a2 :
  lc_attempts l !! k1 = Some a1 → lc_attempts l !! k2 = Some a2 →
  ar_operation_id a1 = ar_operation_id a2 →
  ar_status a1 = "running" → ar_status a2 = "running" → k1 = k2.
Proof.
  intros H1 H2 Hop Hs1 Hs2. eapply (tk_number _ Htk); eauto.
  pose proof (st_latest _ Hst _ _ _ _ H1 H2 Hs1 Hop).
  pose proof (st_latest _ Hst _ _ _ _ H2 H1 Hs2 (eq_sym Hop)). lia.
Qed.

(** An operation before a running, parked or failed one has succeeded, so a
    started operation never has an unfinished one before it. *)
Lemma unfinished_not_before k1 o1 k2 o2 :
  lc_operations l !! k1 = Some o1 → lc_operations l !! k2 = Some o2 →
  or_job_id o1 = or_job_id o2 → or_status o1 ≠ "succeeded" →
  op_started (or_status o2) → ~ or_ordinal o1 < or_ordinal o2.
Proof.
  intros H1 H2 Hjob Hs1 Hs2 Hlt. apply Hs1. by eapply (st_started _ Hst k2 o2).
Qed.

(** The job of a running attempt is running or cancelling. *)
Lemma runs_job_status aid a o j :
  runs l aid a o j → or_status o = "running" ∧ jr_status j ∈ ["running"; "cancelling"].
Proof.
  intros (Ha & Har & Ho & Hj).
  assert (or_status o = "running") as Hor by (by eapply (st_att_running _ Hst aid a)).
  split; [done|]. pose proof (st_allowed _ Hst _ _ _ Ho Hj) as Hal. rewrite Hor in Hal.
  eauto with factory.
Qed.
End uniqueness.

(** Rows that change neither identity nor status keep the agreement. *)
Definition op_view (o : OperationRow) := (op_ident o, or_status o).
Definition att_view (a : AttemptRow) := (att_ident a, ar_status a).

Definition same_view (l l' : lifecycle) : Prop :=
  (∀ k, jr_status <$> lc_jobs l' !! k = jr_status <$> lc_jobs l !! k)
  ∧ (∀ k, op_view <$> lc_operations l' !! k = op_view <$> lc_operations l !! k)
  ∧ (∀ k, att_view <$> lc_attempts l' !! k = att_view <$> lc_attempts l !! k).

Lemma same_view_job l l' k j :
  same_view l l' → lc_jobs l' !! k = Some j →
  ∃ j0, lc_jobs l !! k = Some j0 ∧ jr_status j = jr_status j0.
Proof. intros (H & _ & _) Hj. destruct (fmap_eq_Some_l _ _ _ _ (H k) Hj) as (j0 & Hj0 & ?). eauto. Qed.

Lemma same_view_op l l' k o :
  same_view l l' → lc_operations l' !! k = Some o →
  ∃ o0, lc_operations l !! k = Some o0 ∧ or_job_id o = or_job_id o0 ∧ or_ordinal o = or_ordinal o0
        ∧ or_max_attempts o = or_max_attempts o0 ∧ or_status o = or_status o0.
Proof.
  intros (_ & H & _) Ho. destruct (fmap_eq_Some_l _ _ _ _ (H k) Ho) as (o0 & Ho0 & [=]). eauto 10.
Qed.

Lemma same_view_att l l' k a :
  same_view l l' → lc_attempts l' !! k = Some a →
  ∃ a0, lc_attempts l !! k = Some a0 ∧ ar_operation_id a = ar_operation_id a0
        ∧ ar_attempt_number a = ar_attempt_number a0 ∧ ar_status a = ar_status a0.
Proof.
  intros (_ & _ & H) Ha. destruct (fmap_eq_Some_l _ _ _ _ (H k) Ha) as (a0 & Ha0 & [=]). eauto 10.
Qed.

Lemma same_view_sym l l' : same_view l l' → same_view l' l.
Proof. intros (HJ & HO & HA). by split_and!. Qed.

Lemma statuses_ok_view l l' :
  same_view l l' → statuses_ok l →
  (∀ k a, lc_attempts l' !! k = Some a → 1 ≤ ar_lease_epoch a ≤ i64_max
     ∧ ar_recovery_cause a ∈ ["new_operation"; "retry_scheduled"; "lease_expired"]) →
  statuses_ok l'.
Proof.
  intros Hv Hok Hep. pose proof (same_view_sym _ _ Hv) as Hv'. split.
  - intros k j (j0 & Hj & ->)%(same_view_job _ _ _ _ Hv). by apply (st_job _ Hok k).
  - intros k a Ha. split; [|by apply (Hep k)].
    destruct (same_view_att _ _ _ _ Hv Ha) as (a0 & Ha0 & _ & _ & ->). by apply (st_att _ Hok k).
  - intros k o j (o0 & Ho & -> & _ & _ & ->)%(same_view_op _ _ _ _ Hv)
      (j0 & Hj & ->)%(same_view_job _ _ _ _ Hv). by apply (st_allowed _ Hok k).
  - intros k a o (a0 & Ha & Hop & _ & ->)%(same_view_att _ _ _ _ Hv) Har
      (o0 & Ho & _ & _ & _ & ->)%(same_view_op _ _ _ _ Hv). rewrite Hop in Ho.
    by eapply (st_att_running _ Hok).
  - intros k o (o0 & Ho & _ & _ & _ & ->)%(same_view_op _ _ _ _ Hv) Hr.
    destruct (st_op_running _ Hok _ _ Ho Hr) as (ka & a & Ha & Hop & Har).
    destruct (same_view_att _ _ _ _ Hv' Ha) as (a0 & Ha0 & E1 & _ & E2). exists ka, a0.
    split_and!; congruence.
  - intros k1 a1 k2 a2 (x & Hx & -> & -> & ->)%(same_view_att _ _ _ _ Hv)
      (y & Hy & -> & -> & _)%(same_view_att _ _ _ _ Hv). by eapply (st_latest _ Hok).
  - intros k o ka a (o0 & Ho & _ & _ & _ & ->)%(same_view_op _ _ _ _ Hv) Hr
      (a0 & Ha & -> & _ & _)%(same_view_att _ _ _ _ Hv). by eapply (st_ready _ Hok).
  - intros k o ka a (o0 & Ho & _ & _ & -> & ->)%(same_view_op _ _ _ _ Hv) Hr
      (a0 & Ha & -> & -> & _)%(same_view_att _ _ _ _ Hv). by eapply (st_retry _ Hok).
  - intros k o kp p (o0 & Ho & -> & -> & _ & ->)%(same_view_op _ _ _ _ Hv) Hs
      (p0 & Hp & -> & -> & _ & ->)%(same_view_op _ _ _ _ Hv). by eapply (st_started _ Hok).
  - intros k j (j0 & Hj & ->)%(same_view_job _ _ _ _ Hv) Hs.
    destruct (st_pending _ Hok _ _ Hj Hs) as (ko & o & Ho & Hjob & Hos).
    destruct (same_view_op _ _ _ _ Hv' Ho) as (o0 & Ho0 & E1 & _ & _ & E2). exists ko, o0.
    split_and!; congruence.
  - intros k j (j0 & Hj & ->)%(same_view_job _ _ _ _ Hv) Hs.
    destruct (st_cancelling _ Hok _ _ Hj Hs) as (ko & o & Ho & Hjob & Hos).
    destruct (same_view_op _ _ _ _ Hv' Ho) as (o0 & Ho0 & E1 & _ & _ & E2). exists ko, o0.
    split_and!; congruence.
Qed.

(** Ending the running attempt of an operation that leaves [running]. *)
Lemma statuses_ok_settle l aid a a' o o' j j' :
  tables_ok l → statuses_ok l → runs l aid a o j →
  att_ident a' = att_ident a → ar_status a' ∈ ["succeeded"; "failed"; "abandoned"] →
  ar_lease_epoch a' = ar_lease_epoch a → ar_recovery_cause a' = ar_recovery_cause a →
  op_ident o' = op_ident o → or_status o' ∈ ["retry_wait"; "succeeded"; "failed"] →
  (or_status o' = "retry_wait" → ar_attempt_number a < or_max_attempts o) →
  job_status_ok (jr_status j') → jr_status j' ≠ "cancelling" →
  (∀ k p, <[ar_operation_id a := o']> (lc_operations l) !! k = Some p → or_job_id p = or_job_id o →
     op_allowed (jr_status j') (or_status p)) →
  (jr_status j' ∈ ["queued"; "running"] → ∃ k p,
     <[ar_operation_id a := o']> (lc_operations l) !! k = Some p ∧ or_job_id p = or_job_id o
     ∧ or_status p ≠ "succeeded") →
  statuses_ok (mkLifecycle (<[or_job_id o := j']> (lc_jobs l))
    (<[ar_operation_id a := o']> (lc_operations l)) (<[aid := a']> (lc_attempts l))).
Proof.
  intros Htk Hst Hruns [= Hai1 Hai2 Hai3] Has Hep Hrc [= Hoi1 Hoi2 Hoi3 Hoi4] Hos Hretry Hjs Hnc Hal Hpe.
  pose proof Hruns as (Ha & Har & Ho & Hj). destruct (runs_job_status _ Hst _ _ _ _ Hruns) as [Hor Hjr].
  assert (∀ k q, lc_operations l !! k = Some q → or_job_id q = or_job_id o → op_started (or_status q) →
            ~ or_ordinal o < or_ordinal q) as Hnb.
  { intros k q Hq Hqj Hqs. eapply unfinished_not_before; eauto. rewrite Hor. done. }
  split; simpl.
  - intros k i [[<- <-]|[_ Hi]]%lookup_insert_Some; [done|by apply (st_job _ Hst k)].
  - intros k b [[<- <-]|[_ Hb]]%lookup_insert_Some; [|by apply (st_att _ Hst k)].
    rewrite Hep, Hrc. destruct (st_att _ Hst _ _ Ha) as (_ & ? & ?). split_and!; auto with factory; lia.
  - intros k p i Hp [[Hij <-]|[Hij Hi]]%lookup_insert_Some; [by eapply Hal|].
    apply lookup_insert_Some in Hp as [[<- <-]|[_ Hp]]; [congruence|]. by eapply (st_allowed _ Hst).
  - intros k b p [[<- <-]|[Hk Hb]]%lookup_insert_Some Hbr Hp; [absurd_mem|].
    apply lookup_insert_Some in Hp as [[E <-]|[_ Hp]]; [|by eapply (st_att_running _ Hst)].
    exfalso. apply Hk. eapply running_attempt_unique; eauto.
  - intros k p [[<- <-]|[Hk Hp]]%lookup_insert_Some Hpr; [absurd_mem|].
    destruct (st_op_running _ Hst _ _ Hp Hpr) as (kb & b & Hb & Hbo & Hbr). exists kb, b.
    rewrite lookup_insert_ne; [done|]. intros <-. apply Hk. congruence.
  - intros k1 b1 k2 b2 [[<- <-]|[Hk1 H1]]%lookup_insert_Some [[<- <-]|[Hk2 H2]]%lookup_insert_Some Hr He;
      [lia|absurd_mem| |by eapply (st_latest _ Hst)].
    rewrite Hai3. eapply (st_latest _ Hst k1 b1); eauto. congruence.
  - intros k p kb b [[<- <-]|[Hk Hp]]%lookup_insert_Some Hpr; [absurd_mem|].
    intros [[<- <-]|[_ Hb]]%lookup_insert_Some; [|by eapply (st_ready _ Hst)].
    rewrite Hai2. by eapply (st_ready _ Hst k p aid a).
  - intros k p kb b [[<- <-]|[Hk Hp]]%lookup_insert_Some Hpr.
    + rewrite Hoi4. specialize (Hretry Hpr).
      intros [[<- <-]|[_ Hb]]%lookup_insert_Some Hbo; [lia|].
      pose proof (st_latest _ Hst _ _ _ _ Ha Hb Har (eq_sym Hbo)). lia.
    + intros [[<- <-]|[_ Hb]]%lookup_insert_Some Hbo; [congruence|]. by eapply (st_retry _ Hst).
  - intros k q kp p [[<- <-]|[Hk Hq]]%lookup_insert_Some Hqs [[<- <-]|[Hkp Hp]]%lookup_insert_Some Hj' Hlt.
    + lia.
    + rewrite Hoi2 in Hj'. rewrite Hoi3 in Hlt. eapply (st_started _ Hst _ o); eauto.
      rewrite Hor. auto with factory.
    + exfalso. eapply Hnb; eauto; [congruence|]. by rewrite <- Hoi3.
    + by eapply (st_started _ Hst k q).
  - intros k i [[<- <-]|[Hk Hi]]%lookup_insert_Some His; [by apply Hpe|].
    destruct (st_pending _ Hst _ _ Hi His) as (kp & p & Hp & Hpj & Hps). exists kp, p.
    rewrite lookup_insert_ne; [done|]. intros <-. simplify_eq.
  - intros k i [[<- <-]|[Hk Hi]]%lookup_insert_Some His; [done|].
    destruct (st_cancelling _ Hst _ _ Hi His) as (kp & p & Hp & Hpj & Hps). exists kp, p.
    rewrite lookup_insert_ne; [done|]. intros <-. simplify_eq.
Qed.

Lemma unfinished_status_true s : unfinished_status s = true ↔ s ∈ ["ready"; "running"; "retry_wait"].
Proof.
  unfold unfinished_status. rewrite !orb_true_iff, !bool_decide_eq_true, !elem_of_cons.
  pose proof (not_elem_of_nil s). tauto.
Qed.

Lemma lookup_cancelled_Some now jid m k p :
  cancelled_operations now jid m !! k = Some p → ∃ o, m !! k = Some o ∧ op_ident p = op_ident o
    ∧ ((or_job_id o = jid ∧ or_status o ∈ ["ready"; "running"; "retry_wait"] ∧ or_status p = "cancelled")
       ∨ (p = o ∧ (or_job_id o = jid → or_status o ∉ ["ready"; "running"; "retry_wait"]))).
Proof.
  unfold cancelled_operations. rewrite lookup_update_where.
  intros (o & Ho & ->)%fmap_Some. exists o. split; [done|].
  destruct (bool_decide _ && _) eqn:E.
  - apply andb_true_iff in E as [E1%bool_decide_eq_true E2%unfinished_status_true]. auto.
  - split; [done|]. right. split; [done|]. intros Hj Hin%unfinished_status_true.
    rewrite Hin, bool_decide_eq_true_2 in E by done. done.
Qed.

Lemma lookup_cancelled_other now jid m k o :
  m !! k = Some o → or_job_id o ≠ jid → cancelled_operations now jid m !! k = Some o.
Proof.
  intros Ho Hj. unfold cancelled_operations. rewrite lookup_update_where, Ho. simpl.
  by rewrite bool_decide_eq_false_2.
Qed.

(** Cancelling every unfinished operation of a job none of whose attempts is
    left running. *)
Lemma statuses_ok_cancel l jid j now A' :
  tables_ok l → statuses_ok l → lc_jobs l !! jid = Some j →
  jr_status j ∈ ["queued"; "running"; "cancelling"] →
  (∀ k b, A' !! k = Some b → ∃ a, lc_attempts l !! k = Some a ∧ att_ident b = att_ident a
     ∧ ar_lease_epoch b = ar_lease_epoch a ∧ ar_recovery_cause b = ar_recovery_cause a
     ∧ (ar_status b = ar_status a ∨ ar_status b = "abandoned")) →
  (∀ k a o, lc_attempts l !! k = Some a → lc_operations l !! ar_operation_id a = Some o →
     or_job_id o ≠ jid → A' !! k = Some a) →
  no_running_attempt jid (mkLifecycle (lc_jobs l) (lc_operations l) A') →
  statuses_ok (mkLifecycle (<[jid := job_with_status "cancelled" now j]> (lc_jobs l))
    (cancelled_operations now jid (lc_operations l)) A').
Proof.
  intros Htk Hst Hj Hjs HA HA' Hno.
  assert (∀ k o, lc_operations l !! k = Some o → or_job_id o = jid →
            or_status o ∈ ["ready"; "running"; "retry_wait"; "succeeded"]) as Hops.
  { intros k o Ho Hoj. eapply active_allowed; [exact Hjs|]. eapply (st_allowed _ Hst); eauto. congruence. }
  split; simpl.
  - intros k i [[<- <-]|[_ Hi]]%lookup_insert_Some; [simpl; unfold job_status_ok; mem|by apply (st_job _ Hst k)].
  - intros k b Hb. destruct (HA _ _ Hb) as (a & Ha & _ & -> & -> & Hs).
    destruct (st_att _ Hst _ _ Ha) as (? & ? & ?). split_and!; try lia; try done.
    destruct Hs as [->| ->]; [done|]. unfold attempt_status_ok; mem.
  - intros k p i (o & Ho & [= _ Hpj _ _] & Hcase)%lookup_cancelled_Some.
    intros [[Hij <-]|[Hij Hi]]%lookup_insert_Some.
    + apply allowed_cancelled. destruct Hcase as [(_ & _ & ->)|(-> & Hn)]; [mem|].
      specialize (Hops _ _ Ho (eq_sym Hij)). specialize (Hn (eq_sym Hij)).
      mem_cases Hops; rewrite Hops in *; [exfalso; apply Hn; mem..|mem].
    + destruct Hcase as [(Hoj & _)|(-> & _)]; [congruence|]. by eapply (st_allowed _ Hst).
  - intros k b p Hb Hbr (o & Ho & _ & Hcase)%lookup_cancelled_Some.
    destruct (HA _ _ Hb) as (a & Ha & [= _ E _] & _ & _ & Hs).
    destruct Hcase as [(Hoj & _)|(-> & _)]; [by destruct (Hno _ _ _ Hb Hbr Ho)|].
    destruct Hs as [Hs|Hs]; [|congruence]. eapply (st_att_running _ Hst k a); congruence.
  - intros k p (o & Ho & _ & [(_ & _ & ->)|(-> & Hn)])%lookup_cancelled_Some Hpr; [done|].
    destruct (st_op_running _ Hst _ _ Ho Hpr) as (ka & a & Ha & Hao & Har). exists ka, a.
    split_and!; [|done..]. eapply HA'; [done|by rewrite Hao|]. intros Hoj. apply Hn; [done|]. rewrite Hpr. mem.
  - intros k1 b1 k2 b2 Hb1 Hb2 Hr E.
    destruct (HA _ _ Hb1) as (a1 & Ha1 & [= _ E1 ->] & _ & _ & [Hs|Hs]); [|congruence].
    destruct (HA _ _ Hb2) as (a2 & Ha2 & [= _ E2 ->] & _). eapply (st_latest _ Hst k1 a1); eauto; congruence.
  - intros k p kb b (o & Ho & _ & [(_ & _ & ->)|(-> & Hn)])%lookup_cancelled_Some Hpr Hb; [done|].
    destruct (HA _ _ Hb) as (a & Ha & [= _ -> _] & _). by eapply (st_ready _ Hst).
  - intros k p kb b (o & Ho & _ & [(_ & _ & ->)|(-> & Hn)])%lookup_cancelled_Some Hpr Hb; [done|].
    destruct (HA _ _ Hb) as (a & Ha & [= _ -> ->] & _). by eapply (st_retry _ Hst).
  - intros k q kp p (o & Ho & [= _ Hqj Hqo _] & Hc)%lookup_cancelled_Some Hqs
      (o' & Ho' & [= _ Hpj Hpo _] & Hc')%lookup_cancelled_Some Hjj Hlt.
    destruct Hc as [(_ & _ & E)|(-> & Hn)]; [rewrite E in Hqs; unfold op_started in Hqs; absurd_mem|].
    assert (or_status o' = "succeeded") as Hs by (eapply (st_started _ Hst k o); eauto; congruence).
    destruct Hc' as [(_ & Hin & _)|(-> & _)]; [absurd_mem|done].
  - intros k i [[<- <-]|[Hk Hi]]%lookup_insert_Some His; [simpl in His; absurd_mem|].
    destruct (st_pending _ Hst _ _ Hi His) as (kp & p & Hp & Hpj & Hps). exists kp, p.
    split; [|done]. apply lookup_cancelled_other; congruence.
  - intros k i [[<- <-]|[Hk Hi]]%lookup_insert_Some His; [done|].
    destruct (st_cancelling _ Hst _ _ Hi His) as (kp & p & Hp & Hpj & Hps). exists kp, p.
    split; [|done]. apply lookup_cancelled_other; congruence.
Qed.

Lemma statuses_ok_append l jid j' N :
  tables_ok l → statuses_ok l →
  (lc_jobs l !! jid = None ∨ ∃ j, lc_jobs l !! jid = Some j ∧ jr_status j = "succeeded") →
  jr_status j' = "queued" → appended jid (lc_operations l) N →
  statuses_ok (mkLifecycle (<[jid := j']> (lc_jobs l)) (N ∪ lc_operations l) (lc_attempts l)).
Proof.
  intros Htk Hst Hj Hq Hap. pose proof (λ k o, lookup_append_Some _ _ _ k o Hap) as HN.
  assert (∀ k o, lc_operations l !! k = Some o → or_job_id o = jid → or_status o = "succeeded") as Hdone.
  { intros k o Ho Hoj. destruct Hj as [Hj|(j & Hj & Hjs)].
    - destruct (tk_op_job _ Htk _ _ Ho). congruence.
    - apply succeeded_allowed. rewrite <- Hjs. eapply (st_allowed _ Hst); eauto. congruence. }
  assert (∀ ka a k o, lc_attempts l !! ka = Some a → N !! k = Some o → ar_operation_id a ≠ k) as Hnew.
  { intros ka a k o Ha Ho <-. destruct (tk_att_op _ Htk _ _ Ha) as [o' Ho'].
    apply (ap_fresh _ _ _ Hap) in Ho. congruence. }
  split; simpl.
  - intros k i [[<- <-]|[_ Hi]]%lookup_insert_Some; [|by apply (st_job _ Hst k)].
    rewrite Hq. unfold job_status_ok. mem.
  - apply (st_att _ Hst).
  - intros k p i Hp [[Hij <-]|[Hij Hi]]%lookup_insert_Some.
    + rewrite Hq. apply allowed_queued. apply HN in Hp as [Hp|Hp].
      * rewrite (ap_ready _ _ _ Hap _ _ Hp). mem.
      * rewrite (Hdone _ _ Hp (eq_sym Hij)). mem.
    + apply HN in Hp as [Hp|Hp]; [|by eapply (st_allowed _ Hst)].
      by rewrite (ap_job _ _ _ Hap _ _ Hp) in Hij.
  - intros k a o Ha Har [Ho|Ho]%HN; [|by eapply (st_att_running _ Hst)].
    by destruct (Hnew _ _ _ _ Ha Ho).
  - intros k o [Ho|Ho]%HN Hr; [|by eapply (st_op_running _ Hst)].
    rewrite (ap_ready _ _ _ Hap _ _ Ho) in Hr. done.
  - apply (st_latest _ Hst).
  - intros k o ka a [Ho|Ho]%HN Hr Ha; [by eapply Hnew|by eapply (st_ready _ Hst)].
  - intros k o ka a [Ho|Ho]%HN Hr Ha; [|by eapply (st_retry _ Hst)].
    rewrite (ap_ready _ _ _ Hap _ _ Ho) in Hr. done.
  - intros k o kp p [Ho|Ho]%HN Hs Hp Hpj Hlt.
    { pose proof (ap_ready _ _ _ Hap _ _ Ho) as E. unfold op_started in Hs. absurd_mem. }
    apply HN in Hp as [Hp|Hp]; [|by eapply (st_started _ Hst k o)].
    rewrite (ap_job _ _ _ Hap _ _ Hp) in Hpj.
    pose proof (ap_after _ _ _ Hap _ _ _ _ Hp Ho (eq_sym Hpj)). lia.
  - intros k i [[<- <-]|[Hk Hi]]%lookup_insert_Some His.
    + destruct (ap_nonempty _ _ _ Hap) as (k & o & Ho). exists k, o.
      rewrite (ap_job _ _ _ Hap _ _ Ho), (ap_ready _ _ _ Hap _ _ Ho), HN. auto.
    + destruct (st_pending _ Hst _ _ Hi His) as (kp & p & Hp & Hpj & Hps).
      exists kp, p. rewrite HN. auto.
  - intros k i [[<- <-]|[Hk Hi]]%lookup_insert_Some His; [congruence|].
    destruct (st_cancelling _ Hst _ _ Hi His) as (kp & p & Hp & Hpj & Hps).
    exists kp, p. rewrite HN. auto.
Qed.

Lemma statuses_ok_start l o j a now :
  tables_ok l → statuses_ok l →
  lc_operations l !! or_operation_id o = Some o → lc_jobs l !! or_job_id o = Some j →
  jr_status j ∈ ["queued"; "running"] → or_status o ∈ ["ready"; "retry_wait"] →
  predecessors_succeeded l o → lc_attempts l !! ar_attempt_id a = None →
  ar_operation_id a = or_operation_id o → ar_status a = "running" → ar_lease_epoch a = 1 →
  ar_recovery_cause a ∈ ["new_operation"; "retry_scheduled"] →
  (∀ kb b, lc_attempts l !! kb = Some b → ar_operation_id b = or_operation_id o →
     ar_attempt_number b < ar_attempt_number a) →
  statuses_ok (mkLifecycle (<[or_job_id o := job_with_status "running" now j]> (lc_jobs l))
    (<[or_operation_id o := operation_with_status "running" now o]> (lc_operations l))
    (<[ar_attempt_id a := a]> (lc_attempts l))).
Proof.
  intros Htk Hst Ho Hj Hjs Hos Hpred Hfresh Hao Har Hep Hrc Hlt.
  assert (∀ kb b, lc_attempts l !! kb = Some b → ar_operation_id b = or_operation_id o →
            ar_status b ≠ "running") as Hidle.
  { intros kb b Hb Hbo Hbr. assert (or_status o = "running") by (eapply (st_att_running _ Hst kb b); congruence).
    absurd_mem. }
  split; simpl.
  - intros k i [[<- <-]|[_ Hi]]%lookup_insert_Some; [simpl; unfold job_status_ok; mem|by apply (st_job _ Hst k)].
  - intros k b [[<- <-]|[_ Hb]]%lookup_insert_Some; [|by apply (st_att _ Hst k)].
    rewrite Har, Hep. split_and!; [unfold attempt_status_ok; mem|lia|unfold i64_max; lia|].
    mem_cases Hrc; rewrite Hrc; mem.
  - intros k p i Hp [[Hij <-]|[Hij Hi]]%lookup_insert_Some.
    + simpl. apply allowed_active; [mem|].
      apply lookup_insert_Some in Hp as [[<- <-]|[_ Hp]]; [simpl; mem|].
      eapply active_allowed; [|eapply (st_allowed _ Hst); eauto; rewrite <- Hij; eauto].
      mem_cases Hjs; rewrite Hjs; mem.
    + apply lookup_insert_Some in Hp as [[<- <-]|[_ Hp]]; [by simpl in *|]. by eapply (st_allowed _ Hst).
  - intros k b p [[<- <-]|[Hk Hb]]%lookup_insert_Some Hbr Hp.
    + rewrite Hao, lookup_insert_eq in Hp. by simplify_eq.
    + apply lookup_insert_Some in Hp as [[E <-]|[_ Hp]]; [done|by eapply (st_att_running _ Hst)].
  - intros k p [[<- <-]|[Hk Hp]]%lookup_insert_Some Hpr.
    + exists (ar_attempt_id a), a. by rewrite lookup_insert_eq.
    + destruct (st_op_running _ Hst _ _ Hp Hpr) as (kb & b & Hb & Hbo & Hbr). exists kb, b.
      rewrite lookup_insert_ne; [done|]. intros <-. congruence.
  - intros k1 b1 k2 b2 [[<- <-]|[Hk1 H1]]%lookup_insert_Some [[<- <-]|[Hk2 H2]]%lookup_insert_Some Hr E;
      [lia| | |by eapply (st_latest _ Hst)].
    + assert (ar_attempt_number b2 < ar_attempt_number a); [|lia]. eapply Hlt; eauto. congruence.
    + destruct (Hidle _ _ H1); congruence.
  - intros k p kb b [[<- <-]|[Hk Hp]]%lookup_insert_Some Hpr; [done|].
    intros [[<- <-]|[_ Hb]]%lookup_insert_Some; [congruence|by eapply (st_ready _ Hst)].
  - intros k p kb b [[<- <-]|[Hk Hp]]%lookup_insert_Some Hpr; [done|].
    intros [[<- <-]|[_ Hb]]%lookup_insert_Some; [congruence|by eapply (st_retry _ Hst)].
  - intros k q kp p [[<- <-]|[Hk Hq]]%lookup_insert_Some Hqs [[<- <-]|[Hkp Hp]]%lookup_insert_Some Hpj Hl;
      simpl in *.
    + lia.
    + by eapply Hpred.
    + exfalso. eapply (unfinished_not_before _ Hst _ o k q); eauto.
      intros E. absurd_mem.
    + by eapply (st_started _ Hst k q).
  - intros k i [[<- <-]|[Hk Hi]]%lookup_insert_Some His.
    + exists (or_operation_id o), (operation_with_status "running" now o). by rewrite lookup_insert_eq.
    + destruct (st_pending _ Hst _ _ Hi His) as (kp & p & Hp & Hpj & Hps). exists kp, p.
      rewrite lookup_insert_ne; [done|]. intros <-. simplify_eq.
  - intros k i [[<- <-]|[Hk Hi]]%lookup_insert_Some His; [done|].
    destruct (st_cancelling _ Hst _ _ Hi His) as (kp & p & Hp & Hpj & Hps). exists kp, p.
    rewrite lookup_insert_ne; [done|]. intros <-. simplify_eq.
Qed.

Lemma statuses_ok_request_cancel l jid j now :
  statuses_ok l → lc_jobs l !! jid = Some j → jr_status j ∈ ["queued"; "running"] →
  (∃ aid a o, lc_attempts l !! aid = Some a ∧ ar_status a = "running"
     ∧ lc_operations l !! ar_operation_id a = Some o ∧ or_job_id o = jid) →
  statuses_ok (mkLifecycle (<[jid := job_with_status "cancelling" now j]> (lc_jobs l))
    (lc_operations l) (lc_attempts l)).
Proof.
  intros Hst Hj Hjs (aid & a & o & Ha & Har & Ho & Hoj).
  assert (or_status o = "running") as Hor by (by eapply (st_att_running _ Hst aid a)).
  split; simpl; try apply Hst.
  - intros k i [[<- <-]|[_ Hi]]%lookup_insert_Some; [simpl; unfold job_status_ok; mem|by apply (st_job _ Hst k)].
  - intros k p i Hp [[Hij <-]|[Hij Hi]]%lookup_insert_Some; [|by eapply (st_allowed _ Hst)].
    apply allowed_active; [simpl; mem|].
    eapply active_allowed; [|eapply (st_allowed _ Hst); eauto; rewrite <- Hij; eauto].
    mem_cases Hjs; rewrite Hjs; mem.
  - intros k i [[<- <-]|[Hk Hi]]%lookup_insert_Some His; [simpl in His; absurd_mem|].
    by eapply (st_pending _ Hst).
  - intros k i [[<- <-]|[Hk Hi]]%lookup_insert_Some His; [by exists (ar_operation_id a), o|].
    by eapply (st_cancelling _ Hst).
Qed.

(** The rules that settle, move or hand over one running attempt. *)
Section one_attempt.
Context (l : lifecycle) (aid : string) (a : AttemptRow) (o : OperationRow) (j : JobRow).
Context (Htk : tables_ok l) (Hst : statuses_ok l) (Hruns : runs l aid a o j).

Lemma statuses_ok_take_over now owner expires_at ra rc :
  ar_lease_epoch a + 1 ≤ i64_max →
  statuses_ok (mkLifecycle (<[or_job_id o := job_claimed now j]> (lc_jobs l))
    (<[ar_operation_id a := operation_with_status "running" now o]> (lc_operations l))
    (<[aid := take_over owner (ar_lease_epoch a + 1) expires_at ra rc a]> (lc_attempts l))).
Proof.
  intros He. pose proof Hruns as (Ha & Har & Ho & Hj).
  destruct (runs_job_status _ Hst _ _ _ _ Hruns) as [Hor Hjr].
  apply (statuses_ok_view l); [|done|].
  - repeat split; simpl; eapply insert_shape; eauto.
    + unfold job_claimed. case_decide; simpl; [done|]. mem_cases Hjr; congruence.
    + unfold op_view. simpl. by rewrite Hor.
  - simpl. intros k b [[<- <-]|[_ Hb]]%lookup_insert_Some; simpl.
    + destruct (st_att _ Hst _ _ Ha) as (_ & ? & _). split; [lia|mem].
    + by apply (st_att _ Hst k).
Qed.

(** The attempt's operation in a state that is not [running] any more. *)
Lemma other_operations_idle k p :
  lc_operations l !! k = Some p → k ≠ ar_operation_id a → or_job_id p = or_job_id o →
  or_status p ∈ ["ready"; "succeeded"].
Proof.
  intros Hp Hk Hpj. pose proof Hruns as (Ha & Har & Ho & Hj).
  destruct (runs_job_status _ Hst _ _ _ _ Hruns) as [Hor Hjr].
  assert (or_status p ∈ ["ready"; "running"; "retry_wait"; "succeeded"]) as Hin.
  { eapply active_allowed; [|eapply (st_allowed _ Hst); eauto; rewrite Hpj; eauto].
    mem_cases Hjr; rewrite Hjr; mem. }
  mem_cases Hin; rewrite Hin; [mem|exfalso; apply Hk..|mem];
    eapply started_unique; eauto; rewrite ?Hin, ?Hor; mem.
Qed.

Lemma statuses_ok_succeed now :
  jr_status j ≠ "cancelling" →
  let O' := <[ar_operation_id a := operation_with_status "succeeded" now o]> (lc_operations l) in
  statuses_ok (mkLifecycle
    (if exists_row (λ p, bool_decide (or_job_id p = or_job_id o)
                         && negb (bool_decide (or_status p = "succeeded"))) O'
     then lc_jobs l else <[or_job_id o := job_with_status "succeeded" now j]> (lc_jobs l))
    O' (<[aid := attempt_finished "succeeded" (ar_failure a) now a]> (lc_attempts l))).
Proof.
  intros Hnc O'. pose proof Hruns as (Ha & Har & Ho & Hj).
  destruct (runs_job_status _ Hst _ _ _ _ Hruns) as [Hor Hjr].
  assert (jr_status j = "running") as Hjrun by (mem_cases Hjr; congruence).
  destruct (exists_row _ O') eqn:Hrem.
  - rewrite <- (insert_id (lc_jobs l) (or_job_id o) j) by done.
    eapply statuses_ok_settle; eauto; simpl; rewrite ?Hjrun; try done; try mem.
    + intros k p [[<- <-]|[Hk Hp]]%lookup_insert_Some Hpj.
      * apply allowed_active; simpl; mem.
      * apply allowed_active; [mem|].
        pose proof (other_operations_idle _ _ Hp (not_eq_sym Hk) Hpj) as Hin.
        mem_cases Hin; rewrite Hin; mem.
    + intros _. apply exists_row_true in Hrem as (k & p & Hp & Hc). exists k, p.
      apply andb_true_iff in Hc as [Hc1%bool_decide_eq_true Hc2%negb_true_iff%bool_decide_eq_false].
      done.
  - eapply statuses_ok_settle; eauto; simpl; try done; try mem.
    + intros k p Hp Hpj. pose proof (proj1 (exists_row_false _ _) Hrem _ _ Hp) as Hc. simpl in Hc.
      rewrite bool_decide_eq_true_2 in Hc by done. simpl in Hc.
      apply negb_false_iff, bool_decide_eq_true in Hc. rewrite Hc. apply allowed_succeeded.
    + intros. absurd_mem.
Qed.

Lemma statuses_ok_retry now retry_at payload :
  jr_status j ≠ "cancelling" → ar_attempt_number a < or_max_attempts o →
  statuses_ok (mkLifecycle (lc_jobs l)
    (<[ar_operation_id a := operation_retry_at retry_at now o]> (lc_operations l))
    (<[aid := attempt_finished "failed" payload now a]> (lc_attempts l))).
Proof.
  intros Hnc Hlt. pose proof Hruns as (Ha & Har & Ho & Hj).
  destruct (runs_job_status _ Hst _ _ _ _ Hruns) as [Hor Hjr].
  assert (jr_status j = "running") as Hjrun by (mem_cases Hjr; congruence).
  rewrite <- (insert_id (lc_jobs l) (or_job_id o) j) by done.
  eapply statuses_ok_settle; eauto; simpl; rewrite ?Hjrun; try done; try mem.
  - intros k p [[<- <-]|[Hk Hp]]%lookup_insert_Some Hpj.
    + apply allowed_active; simpl; mem.
    + apply allowed_active; [mem|].
      pose proof (other_operations_idle _ _ Hp (not_eq_sym Hk) Hpj) as Hin.
      mem_cases Hin; rewrite Hin; mem.
  - intros _. exists (ar_operation_id a), (operation_retry_at retry_at now o).
    by rewrite lookup_insert_eq.
Qed.

Lemma statuses_ok_fail now payload :
  jr_status j ≠ "cancelling" →
  statuses_ok (mkLifecycle (<[or_job_id o := job_with_status "failed" now j]> (lc_jobs l))
    (<[ar_operation_id a := operation_with_status "failed" now o]> (lc_operations l))
    (<[aid := attempt_finished "failed" payload now a]> (lc_attempts l))).
Proof.
  intros Hnc. pose proof Hruns as (Ha & Har & Ho & Hj).
  eapply statuses_ok_settle; eauto; simpl; try done; try mem.
  - intros k p [[<- <-]|[Hk Hp]]%lookup_insert_Some Hpj; apply allowed_failed; simpl; [mem|].
    pose proof (other_operations_idle _ _ Hp (not_eq_sym Hk) Hpj) as Hin.
    mem_cases Hin; rewrite Hin; mem.
  - intros. absurd_mem.
Qed.

Lemma statuses_ok_acknowledge now payload :
  jr_status j = "cancelling" →
  statuses_ok (mkLifecycle (<[or_job_id o := job_with_status "cancelled" now j]> (lc_jobs l))
    (cancelled_operations now (or_job_id o) (lc_operations l))
    (<[aid := attempt_finished "abandoned" payload now a]> (lc_attempts l))).
Proof.
  intros Hc. pose proof Hruns as (Ha & Har & Ho & Hj).
  destruct (runs_job_status _ Hst _ _ _ _ Hruns) as [Hor Hjr].
  apply statuses_ok_cancel; try done.
  - rewrite Hc. mem.
  - intros k b [[<- <-]|[_ Hb]]%lookup_insert_Some; [exists a; simpl; auto 10|exists b; auto 10].
  - intros k b p Hb Hp Hpj. rewrite lookup_insert_ne; [done|]. intros <-. congruence.
  - intros k b p Hb Hbr Hp Hpj. simpl in *.
    apply lookup_insert_Some in Hb as [[<- <-]|[Hk Hb]]; [done|].
    assert (or_status p = "running") as Hpr by (by eapply (st_att_running _ Hst k b)).
    assert (ar_operation_id b = ar_operation_id a) as E.
    { eapply started_unique; eauto; rewrite ?Hpr, ?Hor; mem. }
    apply Hk. by eapply running_attempt_unique.
Qed.
End one_attempt.

Lemma statuses_ok_lease l aid a expires_at :
  statuses_ok l → lc_attempts l !! aid = Some a →
  statuses_ok (mkLifecycle (lc_jobs l) (lc_operations l)
    (<[aid := attempt_with_lease expires_at a]> (lc_attempts l))).
Proof.
  intros Hst Ha. apply (statuses_ok_view l); [|done|].
  - repeat split; simpl. eapply insert_shape; eauto.
  - simpl. intros k b [[<- <-]|[_ Hb]]%lookup_insert_Some; simpl.
    + by apply (st_att _ Hst aid).
    + by apply (st_att _ Hst k).
Qed.

(** The rules preserve the agreement of statuses. *)
Lemma statuses_ok_step l l' : tables_ok l → statuses_ok l → lifecycle_step l l' → statuses_ok l'.
Proof.
  intros Htk Hst Hstep. destruct Hstep as
    [l jid j' N Hj Hid Hq Hap|l o j a now Ho Hj Hjs Hos Hpred Hf Hao Has He Hc Hn Hlt
    |l aid a o j now owner ex ra rc Hruns Hos He|l aid a ex Ha Har
    |l aid a o j now Hruns Hnc O'|l aid a o j now ra pl Hruns Hnc Hlt
    |l aid a o j now pl Hruns Hnc|l jid j now Hj Hjs Hrun|l jid j now Hj Hjs Hno
    |l aid a o j now pl Hruns Hc].
  - by apply statuses_ok_append.
  - by apply statuses_ok_start.
  - by apply statuses_ok_take_over.
  - by apply statuses_ok_lease.
  - by eapply statuses_ok_succeed.
  - by eapply statuses_ok_retry.
  - by eapply statuses_ok_fail.
  - by apply statuses_ok_request_cancel.
  - apply statuses_ok_cancel; try done.
    + mem_cases Hjs; rewrite Hjs; mem.
    + intros k b Hb. exists b. auto 10.
  - by apply statuses_ok_acknowledge.
Qed.

Lemma lifecycle_ok_step l l' : lifecycle_ok l → lifecycle_step l l' → lifecycle_ok l'.
Proof.
  intros [Htk Hst] Hstep. split; [by eapply tables_ok_step|by eapply statuses_ok_step].
Qed.
