(* ===== verification/Refinement.v ===== *)
(** * The store refines the abstract lifecycle

    Every store method of [Leases], [Events], [Environments], [Attempts],
    [Jobs] and [Recovery] either leaves the jobs, operations and attempts as
    they are or performs one step of [lifecycle_step]. *)

From S2P Require Import Prelude Domain Rows Store Leases Events Environments Attempts Jobs Recovery Lifecycle.
From Stdlib Require Import ZArith Ascii String.
From stdpp Require Import base gmap strings list.

#[local] Open Scope string_scope.
#[local] Open Scope Z_scope.
#[local] Open Scope list_scope.

(** ** Calls that frame the lifecycle *)

Lemma lock_attempt_context_frames {B} (π : db → B) now f : frames π (lock_attempt_context now f).
Proof. unfold lock_attempt_context. solve_frames. Qed.
#[export] Hint Resolve lock_attempt_context_frames : frame.

Lemma insert_checkpoint_frames now i c : frames lifecycle_of (insert_checkpoint now i c).
Proof. unfold insert_checkpoint. solve_frames. Qed.
Lemma insert_attempt_event_frames now c f e : frames lifecycle_of (insert_attempt_event now c f e).
Proof. unfold insert_attempt_event, identity_available. solve_frames. Qed.
Lemma update_environment_frames j p f : frames lifecycle_of (update_environment j p f).
Proof. unfold update_environment. solve_frames. Qed.
#[export] Hint Resolve insert_checkpoint_frames insert_attempt_event_frames update_environment_frames : frame.

Lemma request_release_frames now j : frames lifecycle_of (request_release_in_transaction now j).
Proof. unfold request_release_in_transaction. solve_frames. Qed.
Lemma reactivate_frames now j : frames lifecycle_of (reactivate_in_transaction now j).
Proof. unfold reactivate_in_transaction. solve_frames. Qed.
Lemma require_generation_match_frames {B} (π : db → B) j g u d :
  frames π (require_generation_match j g u d).
Proof. unfold require_generation_match, load_environment_for_update. solve_frames. Qed.
#[export] Hint Resolve request_release_frames reactivate_frames require_generation_match_frames : frame.

(** [framed] replaces the first call that cannot move the lifecycle by the
    equation it gives. *)
Ltac framed :=
  match goal with
  | H : ?t ?s = Ok (_, ?s') |- _ =>
      let E := fresh "E" in
      assert (lifecycle_of s' = lifecycle_of s) as E
        by (let F := fresh in assert (frames lifecycle_of t) as F by (solve [solve_frames]); exact (F _ _ _ H));
      clear H
  end.

(** ** Settlement *)

(** The rows a granted context stands for. *)
Definition context_rows (s : db) (f : AttemptFence) (ctx : AttemptContextRow)
    (a : AttemptRow) (o : OperationRow) (j : JobRow) : Prop :=
  runs (lifecycle_of s) (af_attempt_id f) a o j
  ∧ ctx = mkAttemptContextRow (ar_operation_id a) (or_job_id o) (jr_status j)
            (ar_attempt_number a) (or_max_attempts o).

Lemma lock_context_rows now f s ctx s' :
  lock_attempt_context now f s = Ok (ctx, s') →
  s' = s ∧ fence_live s now f = true ∧ ∃ a o j, context_rows s f ctx a o j.
Proof.
  intros (-> & Hl & a & o & j & Ha & Har & Ho & Hj & ->)%lock_attempt_context_Ok.
  split_and!; [done..|]. exists a, o, j. by split.
Qed.

Lemma context_rows_core s s' f ctx a o j :
  lifecycle_of s' = lifecycle_of s → context_rows s f ctx a o j → context_rows s' f ctx a o j.
Proof. unfold context_rows. by intros ->. Qed.

(** The holder of a live lease is granted the context of its rows. *)
Lemma lock_attempt_context_live now f s :
  lifecycle_ok (lifecycle_of s) → fence_live s now f = true →
  ∃ ctx a o j, context_rows s f ctx a o j ∧ lock_attempt_context now f s = Ok (ctx, s).
Proof.
  intros [Htk Hst] Hl. pose proof Hl as (a & Ha & Hw & He & Hr & Hx)%fence_live_true.
  destruct (tk_att_op _ Htk _ _ Ha) as [o Ho]. destruct (tk_op_job _ Htk _ _ Ho) as [j Hj].
  destruct (st_att _ Hst _ _ Ha) as (_ & Hep & _). simpl in *.
  eexists _, a, o, j. split; [by repeat split|]. unfold lock_attempt_context, mbind, tx_bind, lift, gets.
  rewrite (proj2 (database_lease_epoch_Ok _ (af_lease_epoch f))) by (unfold i64_min in *; split; [done|lia]).
  rewrite Ha. simpl. rewrite (proj2 (lease_live_true _ _ _ _)) by done.
  unfold attempt_context. rewrite Ho. simpl. by rewrite Hj.
Qed.

Section settle.
Context `{External}.

Lemma settle_success_step now f ctx s a o j u s' :
  context_rows s f ctx a o j → jr_status j ≠ "cancelling" →
  settle_success now f ctx s = Ok (u, s') → lifecycle_step (lifecycle_of s) (lifecycle_of s').
Proof.
  intros [Hruns ->] Hnc Hs. pose proof Hruns as (Ha & Har & Ho & Hj). simpl in *.
  unfold settle_success, update_attempt, update_operation, update_job in Hs. simpl in Hs. inv_tx.
  pose proof (step_succeed _ _ _ _ _ now Hruns Hnc) as Hstep. simpl in Hstep.
  unfold has_remaining in *. simpl in *.
  rewrite (alter_insert_row _ _ (operations s) o) in * by done.
  destruct (exists_row _ _) eqn:Hrem; inv_tx.
  - unfold lifecycle_of in *. simpl in *. by rewrite (alter_insert_row _ _ _ a).
  - match goal with H : request_release_in_transaction _ _ _ = _ |- _ =>
      apply request_release_frames in H; rewrite H end.
    unfold lifecycle_of in *. simpl in *.
    by rewrite (alter_insert_row _ _ _ a), (alter_insert_row _ _ (jobs s) j).
Qed.

Lemma settle_failure_step now f ctx failure s a o j u s' :
  context_rows s f ctx a o j → jr_status j ≠ "cancelling" →
  settle_failure now f ctx failure s = Ok (u, s') → lifecycle_step (lifecycle_of s) (lifecycle_of s').
Proof.
  intros [Hruns ->] Hnc Hs. pose proof Hruns as (Ha & Har & Ho & Hj). simpl in *.
  unfold settle_failure, update_attempt, update_operation, update_job in Hs. simpl in Hs. inv_tx.
  destruct (granted_retry _ _) as [retry_at|] eqn:Hg; inv_tx.
  - assert (ar_attempt_number a < or_max_attempts o).
    { destruct failure; simpl in Hg; [|done]. destruct (_ <? _) eqn:E; [lia|done]. }
    pose proof (step_retry _ _ _ _ _ now retry_at (Some (AttemptFailure_to_value failure)) Hruns Hnc) as Hstep.
    unfold lifecycle_of in *. simpl in *.
    rewrite (alter_insert_row _ _ _ a), (alter_insert_row _ _ _ o) by done. by apply Hstep.
  - match goal with H : request_release_in_transaction _ _ _ = _ |- _ =>
      apply request_release_frames in H; rewrite H end.
    pose proof (step_fail _ _ _ _ _ now (Some (AttemptFailure_to_value failure)) Hruns Hnc) as Hstep.
    unfold lifecycle_of in *. simpl in *.
    by rewrite (alter_insert_row _ _ _ a), (alter_insert_row _ _ _ o), (alter_insert_row _ _ _ j).
Qed.

(** A settlement in its parts: the optional checkpoint, the outcome, the
    optional event. *)
Lemma settle_tx_Ok now i f st ck ev s r s' :
  settle_tx now i f st ck ev s = Ok (r, s') →
  ∃ ctx a o j s1 s2,
    context_rows s f ctx a o j ∧ fence_live s now f = true ∧ jr_status j ≠ "cancelling"
    ∧ (match ck with
       | Some c => validate_checkpoint f c = Ok tt ∧ ∃ rec, r = Some rec ∧ insert_checkpoint now i c s = Ok (rec, s1)
       | None => r = None ∧ s1 = s
       end)
    ∧ (match st with
       | SettleSucceeded => settle_success now f ctx s1 = Ok (tt, s2)
       | SettleFailed failure => settle_failure now f ctx failure s1 = Ok (tt, s2)
       end)
    ∧ (match ev with
       | Some e => st = SettleSucceeded ∧ ∃ rec, insert_attempt_event now ctx f e s2 = Ok (rec, s')
       | None => s' = s2
       end).
Proof.
  intros Hs. unfold settle_tx in Hs.
  apply tx_bind_Ok in Hs as (u0 & s0 & Hval & Hs).
  assert (s0 = s ∧ match ck with Some c => validate_checkpoint f c = Ok tt | None => True end) as [-> Hv].
  { destruct ck; inv_tx; [|done]. by destruct u0. }
  clear Hval. inv_tx.
  match goal with H : lock_attempt_context _ _ _ = Ok (?c, _) |- _ =>
    apply lock_context_rows in H as (-> & Hlive & a & o & j & Hctx); rename c into ctx end.
  match goal with H : bool_decide (_ = "cancelling") = false |- _ => apply bool_decide_eq_false in H as Hnc end.
  assert (jr_status j ≠ "cancelling") as Hj by (destruct Hctx as [_ ->]; done).
  repeat match goal with u : unit |- _ => destruct u end.
  match goal with H : _ s = Ok (?r, ?x) |- _ => exists ctx, a, o, j, x end.
  match goal with H : match st with SettleSucceeded => _ | SettleFailed _ => _ end _ = Ok (_, ?x) |- _ =>
    exists x end.
  split_and!; try done.
  - destruct ck; inv_tx; eauto.
  - by destruct st.
  - destruct ev; inv_tx; [|done]. split; [by destruct st|eauto].
Qed.

Lemma settle_outcome_step now f ctx st s a o j s' :
  context_rows s f ctx a o j → jr_status j ≠ "cancelling" →
  match st with
  | SettleSucceeded => settle_success now f ctx s = Ok (tt, s')
  | SettleFailed failure => settle_failure now f ctx failure s = Ok (tt, s')
  end →
  lifecycle_step (lifecycle_of s) (lifecycle_of s').
Proof. destruct st; eauto using settle_success_step, settle_failure_step. Qed.

Lemma settle_tx_step now i f st ck ev s r s' :
  settle_tx now i f st ck ev s = Ok (r, s') →
  fence_live s now f = true ∧ lifecycle_step (lifecycle_of s) (lifecycle_of s').
Proof.
  intros (ctx & a & o & j & s1 & s2 & Hctx & Hlive & Hnc & Hck & Hst & Hev)%settle_tx_Ok.
  split; [done|].
  assert (lifecycle_of s1 = lifecycle_of s) as E1.
  { destruct ck; [|by destruct Hck as [_ ->]]. destruct Hck as (_ & rec & _ & Hck). by framed. }
  assert (lifecycle_of s' = lifecycle_of s2) as ->.
  { destruct ev; [|by subst]. destruct Hev as (_ & rec & Hev). by framed. }
  rewrite <- E1. eapply settle_outcome_step; eauto. by eapply context_rows_core.
Qed.
End settle.

(** ** Leases *)

Lemma update_lease_Ok now expires_at f epoch s r s' :
  update_lease now expires_at f epoch s = Ok (r, s') →
  ∃ a, attempts s !! af_attempt_id f = Some a
    ∧ lease_live now (af_owner_instance_id f) epoch a = true
    ∧ r = attempt_with_lease expires_at a
    ∧ s' = set_attempts (<[af_attempt_id f := attempt_with_lease expires_at a]> (attempts s)) s.
Proof.
  unfold update_lease. intros H. inv_tx.
  destruct (attempts s !! af_attempt_id f) as [a|] eqn:Ha; [|inv_tx].
  destruct (lease_live _ _ _ a) eqn:Hl; inv_tx. eauto.
Qed.

Lemma update_lease_step now expires_at f epoch s r s' :
  update_lease now expires_at f epoch s = Ok (r, s') →
  lifecycle_step (lifecycle_of s) (lifecycle_of s').
Proof.
  intros (a & Ha & Hl & _ & ->)%update_lease_Ok.
  apply lease_live_true in Hl as (_ & _ & Hr & _). by apply (step_lease (lifecycle_of s) _ a).
Qed.

(** ** Cancellation *)

Lemma cancel_tx_step now job_id s u s' :
  cancel_tx now job_id s = Ok (u, s') →
  s' = s ∨ lifecycle_step (lifecycle_of s) (lifecycle_of s').
Proof.
  unfold cancel_tx, update_job, cancel_unfinished_operations. intros H. inv_tx.
  match goal with H : _ <$> _ = Some _ |- _ => apply fmap_Some in H as (j & Hj & ->) end.
  destruct (_ || _); inv_tx; [by left|]. right.
  destruct (_ || _) eqn:Hact; [|inv_tx].
  assert (jr_status j ∈ ["queued"; "running"]) as Hjs
    by (autorewrite with factory in Hact; mem).
  inv_tx. destruct (has_running_attempt _ _) eqn:Hrun; inv_tx.
  - unfold lifecycle_of. simpl. rewrite (alter_insert_row _ _ _ j) by done.
    apply (step_request_cancel (lifecycle_of s) _ j); [done..|].
    apply exists_row_true in Hrun as (aid & a & Ha & Hc). simpl in Hc.
    destruct (operations s !! _) as [o|] eqn:Ho; autorewrite with factory in Hc; [|by destruct Hc].
    exists aid, a, o. naive_solver.
  - framed. rewrite E. unfold lifecycle_of. simpl. rewrite (alter_insert_row _ _ _ j) by done.
    apply (step_cancel (lifecycle_of s) _ j); [done..|].
    intros ka a o Ha Har Ho Hoj. pose proof (proj1 (exists_row_false _ _) Hrun _ _ Ha) as Hc.
    simpl in *. rewrite Ho in Hc. by rewrite !bool_decide_eq_true_2 in Hc.
Qed.

Lemma acknowledge_tx_step now f s r s' :
  acknowledge_tx now f s = Ok (r, s') →
  fence_live s now f = true ∧ lifecycle_step (lifecycle_of s) (lifecycle_of s').
Proof.
  unfold acknowledge_tx, update_job, update_attempt, cancel_unfinished_operations. intros H. inv_tx.
  match goal with H : lock_attempt_context _ _ _ = _ |- _ =>
    apply lock_context_rows in H as (-> & Hlive & a & o & j & Hruns & ->) end.
  split; [done|]. pose proof Hruns as (Ha & Har & Ho & Hj). simpl in *.
  match goal with H : _ <$> _ = Some _ |- _ => apply fmap_Some in H as (j' & Hj' & ->) end.
  assert (j' = j) as -> by congruence.
  match goal with H : negb (bool_decide (jr_status j = _)) = false |- _ =>
    apply negb_false_iff, bool_decide_eq_true in H as Hc end.
  inv_tx. unfold lifecycle_of. simpl.
  rewrite (alter_insert_row _ _ _ a), (alter_insert_row _ _ _ j), decide_True by done.
  by apply (step_acknowledge (lifecycle_of s) _ a o j).
Qed.

(** ** Claims *)

Section claim.
Context `{External}.

(** Rows are stored under their own identifiers, so a listed pair is looked up
    by it. *)
Lemma job_operations_keys s j o :
  tables_ok (lifecycle_of s) → (j, o) ∈ job_operations s →
  operations s !! or_operation_id o = Some o ∧ jobs s !! or_job_id o = Some j ∧ jr_job_id j = or_job_id o.
Proof.
  intros Htk [[k Ho] Hj]%elem_of_job_operations.
  pose proof (tk_op_key _ Htk k o Ho) as <-. by pose proof (tk_job_key _ Htk _ j Hj).
Qed.

(** The state a successful claim starts from and what it reads there. *)
Record claim_reads (now : Z) (locked : gset string) (scope : RecoveryScope) (request : ClaimRequest)
    (s : db) (j : JobRow) (o : OperationRow) (selection : RecoverySelection) : Prop := {
  cl_rows : (j, o) ∈ job_operations s;
  cl_recoverable : is_recoverable now (database_ids scope).1 (database_ids scope).2 j o s;
  cl_unlocked : unlocked locked j o = true;
  cl_profile : profile_gate (ep_provider <$> cr_execution_profile request)
                 (ep_model <$> cr_execution_profile request) j = true;
  cl_first j2 o2 : (j2, o2) ∈ job_operations s →
    is_recoverable now (database_ids scope).1 (database_ids scope).2 j2 o2 s →
    unlocked locked j2 o2 = true →
    profile_gate (ep_provider <$> cr_execution_profile request)
      (ep_model <$> cr_execution_profile request) j2 = true →
    recovery_order (j2, o2) (j, o) = false;
  cl_selection : RecoverySelection_try_from (recovery_selection_row j o s) = Ok selection;
}.

Lemma claim_tx_Some now locked new_id scope request s selection row s' :
  tables_ok (lifecycle_of s) →
  claim_tx now locked new_id scope request s = Ok (Some (selection, row), s') →
  cr_lease_seconds request ≠ 0 ∧ ∃ j o s1,
    claim_reads now locked scope request s j o selection
    ∧ claim_attempt now new_id request selection
        (set_jobs (<[or_job_id o := job_claimed now j]> (jobs s)) s) = Ok (Some row, s1)
    ∧ s' = set_operations (alter (operation_with_status "running" now) (or_operation_id o)
             (operations s1)) s1.
Proof.
  intros Htk Hs. unfold claim_tx in Hs. inv_tx.
  destruct (database_ids scope) as [jb ob] eqn:Hscope. inv_tx.
  destruct (RECOVERY_CANDIDATE_SQL _ _ _ _ _ _ _) as [oid|] eqn:Hcand; inv_tx.
  destruct (RECOVERY_SELECTION_SQL _ _ _ _) as [srow|] eqn:Hsel; inv_tx.
  apply recovery_candidate_Some in Hcand as (j1 & o1 & Hin1 & Hr1 & Hul & Hprof & Hfirst & ->).
  apply recovery_sql_Some in Hsel as (j2 & o2 & Hin2 & Hr2 & ->).
  pose proof (rec_operation_bound _ _ _ _ _ _ Hr2) as Hid. simpl in Hid. apply bool_decide_eq_true in Hid.
  destruct (job_operations_keys _ _ _ Htk Hin1) as (Ho1 & Hj1 & Hk1).
  destruct (job_operations_keys _ _ _ Htk Hin2) as (Ho2 & Hj2 & Hk2).
  assert (o2 = o1) as -> by congruence. assert (j2 = j1) as -> by congruence.
  match goal with H : RecoverySelection_try_from _ = _ |- _ =>
    pose proof (selection_of_row _ _ _ _ H) as (Ej & Eo & _) end.
  rewrite Ej, Eo, Hk1, Hj1 in *. destruct (active_status _); inv_tx.
  match goal with H : claim_attempt _ _ _ _ _ = Ok (?x, ?y) |- _ =>
    rename H into Hclaim; rename y into s1; destruct x; inv_tx end.
  split; [by apply Z.eqb_neq|]. exists j1, o1, s1.
  unfold update_job, update_operation in *. inv_tx. split_and!; [|by rewrite <- Hclaim, (alter_insert_row _ _ _ j1)|done].
  split; try done; by rewrite Hscope.
Qed.

Lemma attempts_made_nonneg l operation_id s :
  tables_ok l → l = lifecycle_of s → 0 ≤ attempts_made (previous_attempt operation_id s).
Proof.
  intros Htk ->. destruct (previous_attempt _ _) as [a|] eqn:Hp; simpl; [|lia].
  apply previous_attempt_Some in Hp as [[k Ha] _].
  destruct (tk_att_op _ Htk _ _ Ha) as [o Ho]. pose proof (tk_att_range _ Htk _ _ _ Ha Ho). lia.
Qed.

Lemma claim_tx_step now locked new_id scope request s selection row s' :
  lifecycle_ok (lifecycle_of s) →
  claim_tx now locked new_id scope request s = Ok (Some (selection, row), s') →
  lifecycle_step (lifecycle_of s) (lifecycle_of s').
Proof.
  intros [Htk Hst] (_ & j & o & s1 & [Hin Hrec _ _ _ Hsel] & Hatt & ->)%claim_tx_Some; [|done].
  destruct (job_operations_keys _ _ _ Htk Hin) as (Ho & Hj & Hk).
  destruct (selection_of_row _ _ _ _ Hsel) as (_ & Eo & Hcause & Hprev & Hnext).
  apply recovery_cause_of_status_Ok in Hcause. apply claim_attempt_Some in Hatt.
  destruct Hatt as [aid a row Hle Haid Ha Har Hex Hep ->|row Hle Hnone Hpos ->]; simpl in *.
  - rewrite Hle in Hcause. rewrite Hprev in Haid. apply fmap_Some in Haid as (b & Hb & ->).
    apply previous_attempt_Some in Hb as [[k Hbk] Hbo].
    rewrite (tk_att_key _ Htk _ _ Hbk) in Ha. assert (b = a) as -> by congruence.
    rewrite <- Hbo in Ho |- *.
    unfold lifecycle_of. simpl. rewrite (alter_insert_row _ _ _ o) by done.
    rewrite (tk_att_key _ Htk _ _ Hbk).
    by apply (step_take_over (lifecycle_of s) k a o j).
  - destruct (rec_ready _ _ _ _ _ _ Hrec) as [Hready|[Hr _]%expired_true];
      [|rewrite Hr in Hcause; by destruct (rs_cause selection)].
    apply startable_true in Hready as (Hjs & Hmade & Hos).
    pose proof (attempts_made_nonneg _ (or_operation_id o) s Htk eq_refl).
    destruct (tk_op_range _ Htk _ _ Ho) as [_ Hmax]. specialize (Hnext Hle).
    rewrite i32_wrapping_add_small in Hnext by (unfold i32_min; lia).
    unfold lifecycle_of. simpl. rewrite (alter_insert_row _ _ _ o) by done.
    set (a := opened_attempt _ _ _ _ _). replace new_id with (ar_attempt_id a)
      by (unfold a, opened_attempt; by destruct (resume_ids _)).
    assert (ar_operation_id a = or_operation_id o ∧ ar_status a = "running" ∧ ar_lease_epoch a = 1
            ∧ ar_attempt_number a = rs_next_attempt_number selection ∧ ar_attempt_id a = new_id
            ∧ ar_recovery_cause a = RecoveryCause_as_database_value (rs_cause selection))
      as (E1 & E2 & E3 & E4 & E5 & E6)
      by (unfold a, opened_attempt; rewrite <- Eo; by destruct (resume_ids _)).
    replace (job_claimed now j) with (job_with_status "running" now j)
      by (unfold job_claimed; rewrite decide_False; [done|intros E; absurd_mem]).
    apply (step_start (lifecycle_of s)); try done; simpl.
    + destruct Hos as [->|[-> _]]; mem.
    + exact (proj1 (has_unfinished_predecessor_false o s) (rec_predecessors _ _ _ _ _ _ Hrec)).
    + by rewrite E5.
    + rewrite E6. destruct (rs_cause selection); simpl; [mem|mem|done].
    + lia.
    + intros kb b Hb Hbo. pose proof (attempts_made_ge _ _ _ _ Hb Hbo). lia.
Qed.
End claim.

(** ** Appended operations *)

Lemma insert_operation_Ok row s u s' :
  insert_operation row s = Ok (u, s') →
  0 ≤ or_ordinal row ∧ 1 ≤ or_max_attempts row ∧ operations s !! or_operation_id row = None
  ∧ s' = set_operations (<[or_operation_id row := row]> (operations s)) s.
Proof.
  unfold insert_operation. intros Hs. inv_tx.
  match goal with H : insert_unique _ _ _ = _ |- _ => apply insert_unique_Ok in H as [? ->] end.
  match goal with H : (_ <? 0) || (_ <=? 0) = false |- _ => apply orb_false_iff in H as [?%Z.ltb_ge ?%Z.leb_gt] end.
  split_and!; [done|lia|done..].
Qed.

(** A batch of new ready operations of one job, all at or past an ordinal. *)
Record added (job_id : string) (lo : Z) (O N : gmap string OperationRow) : Prop := {
  ad_row k o : N !! k = Some o →
    O !! k = None ∧ or_operation_id o = k ∧ or_job_id o = job_id ∧ or_status o = "ready";
  ad_range k o : N !! k = Some o →
    0 ≤ or_ordinal o ≤ i32_max ∧ 1 ≤ or_max_attempts o ≤ i32_max ∧ lo ≤ or_ordinal o;
  ad_distinct k1 o1 k2 o2 : N !! k1 = Some o1 → N !! k2 = Some o2 →
    or_ordinal o1 = or_ordinal o2 → k1 = k2;
}.

Lemma added_empty job_id lo O : added job_id lo O ∅.
Proof. split; intros; simplify_map_eq. Qed.

Lemma added_cons job_id lo O N row :
  added job_id (or_ordinal row + 1) (<[or_operation_id row := row]> O) N →
  O !! or_operation_id row = None → or_job_id row = job_id → or_status row = "ready" →
  0 ≤ or_ordinal row ≤ i32_max → 1 ≤ or_max_attempts row ≤ i32_max → lo ≤ or_ordinal row →
  added job_id lo O (N ∪ {[or_operation_id row := row]}).
Proof.
  intros [Hrow Hrange Hdist] Hfresh Hj Hs Hor Hmax Hlo.
  assert (∀ k o, (N ∪ {[or_operation_id row := row]}) !! k = Some o →
            N !! k = Some o ∨ k = or_operation_id row ∧ o = row) as Hinv.
  { intros k o [Hk|[_ [-> ->]%lookup_singleton_Some]]%lookup_union_Some_raw; auto. }
  split.
  - intros k o [Hk|[-> ->]]%Hinv; [|done].
    destruct (Hrow _ _ Hk) as (?%lookup_insert_None & ?). naive_solver.
  - intros k o [Hk|[-> ->]]%Hinv; [|done]. pose proof (Hrange _ _ Hk). lia.
  - intros k1 o1 k2 o2 [H1|[-> ->]]%Hinv [H2|[-> ->]]%Hinv E; [by eapply Hdist| | |done].
    + pose proof (Hrange _ _ H1). lia.
    + pose proof (Hrange _ _ H2). lia.
Qed.

Lemma added_union N (row : OperationRow) (O : gmap string OperationRow) :
  N ∪ <[or_operation_id row := row]> O = (N ∪ {[or_operation_id row := row]}) ∪ O.
Proof. by rewrite <- (assoc_L (∪)), insert_union_singleton_l. Qed.

Lemma set_operations_twice m1 m2 s : set_operations m1 (set_operations m2 s) = set_operations m1 s.
Proof. done. Qed.

Lemma insert_operations_added now new_id job_id index ops s r s' :
  insert_operations now new_id job_id index ops s = Ok (r, s') →
  ∃ N, s' = set_operations (N ∪ operations s) s
    ∧ added job_id (Z.of_nat index) (operations s) N ∧ (ops ≠ [] → N ≠ ∅).
Proof.
  revert index s r. induction ops as [|op ops IH]; intros index s r Hs; simpl in Hs; inv_tx.
  { exists ∅. rewrite (left_id_L ∅ (∪)). split_and!; [by destruct s|apply added_empty|done]. }
  repeat match goal with H : i32_try_from _ = _ |- _ => apply try_range_Some in H as [-> ?] end.
  match goal with H : insert_operation _ _ = _ |- _ =>
    apply insert_operation_Ok in H as (Ho & Hm & Hf & ->) end.
  match goal with H : insert_operations _ _ _ _ _ _ = _ |- _ =>
    apply IH in H as (N & -> & Had & _) end. simpl in *.
  eexists. split_and!.
  - rewrite set_operations_twice. f_equal. apply (added_union N).
  - apply (added_cons job_id); try done; simpl; try lia. by replace (Z.of_nat index + 1) with (Z.of_nat (S index)) by lia.
  - intros _ E. apply (f_equal (lookup (new_id index))) in E. simpl in E.
    rewrite lookup_empty, lookup_union_None, lookup_singleton_eq in E. by destruct E.
Qed.

(** A wrapped ordinal would be negative and is refused by the table. *)
Lemma i32_wrapping_add_nonneg a b :
  0 ≤ a ≤ i32_max → 0 ≤ b ≤ i32_max → 0 ≤ i32_wrapping_add a b →
  i32_wrapping_add a b = a + b ∧ a + b ≤ i32_max.
Proof.
  intros Ha Hb Hw. destruct (decide (a + b ≤ i32_max)) as [Hle|Hgt].
  { rewrite i32_wrapping_add_small; unfold i32_min; lia. }
  assert ((a + b - i32_min) `mod` 2 ^ 32 = a + b - i32_max - 1) as E.
  { symmetry. apply (Z.mod_unique_pos _ _ 1); unfold i32_min, i32_max in *; lia. }
  unfold i32_wrapping_add in Hw. rewrite E in Hw. unfold i32_min, i32_max in *. lia.
Qed.

Lemma stages_at_empty n : stages_at n [] ∅.
Proof. split; [intros k o Hk; by rewrite lookup_empty in Hk|intros i kind Hi; by destruct i]. Qed.

Lemma stages_at_cons n kinds (N : gmap string OperationRow) row :
  (∀ k o, N !! k = Some o → k ≠ or_operation_id row) →
  or_ordinal row = n → stages_at (n + 1) kinds N →
  stages_at n (or_kind row :: kinds) (N ∪ {[or_operation_id row := row]}).
Proof.
  intros Hfresh Hn [Hin Hall]. split.
  - intros k o [Hk|[_ [_ <-]%lookup_singleton_Some]]%lookup_union_Some_raw.
    + destruct (Hin _ _ Hk) as (i & Hi & E). exists (S i). split; [done|lia].
    + exists 0%nat. split; [done|lia].
  - intros [|i] kind Hi; simpl in Hi.
    + exists (or_operation_id row), row. split; [|lia]. apply lookup_union_Some_raw. right.
      split; [|by rewrite lookup_singleton_eq]. destruct (N !! or_operation_id row) eqn:E; [|done].
      by destruct (Hfresh _ _ E).
    + destruct (Hall _ _ Hi) as (k & o & Hk & E). exists k, o. split; [|lia].
      apply lookup_union_Some_raw. by left.
Qed.

Lemma insert_continuation_added now new_id job_id next input offset kinds s r s' :
  0 ≤ next ≤ i32_max → Z.of_nat offset + Z.of_nat (length kinds) ≤ i32_max →
  insert_continuation now new_id job_id next input offset kinds s = Ok (r, s') →
  ∃ N, s' = set_operations (N ∪ operations s) s
    ∧ added job_id (next + Z.of_nat offset) (operations s) N ∧ (kinds ≠ [] → N ≠ ∅)
    ∧ stages_at (next + Z.of_nat offset) kinds N.
Proof.
  intros Hn. revert offset s r. induction kinds as [|kind kinds IH]; intros offset s r Hl Hs;
    simpl in Hs, Hl; inv_tx.
  { exists ∅. rewrite (left_id_L ∅ (∪)). split_and!; [by destruct s|apply added_empty|done|apply stages_at_empty]. }
  match goal with H : insert_operation _ _ = _ |- _ =>
    apply insert_operation_Ok in H as (Ho & Hm & Hf & ->) end. simpl in *.
  destruct (i32_wrapping_add_nonneg next (Z.of_nat offset)) as [E Hle]; [done|lia|done|].
  match goal with H : insert_continuation _ _ _ _ _ _ _ _ = _ |- _ =>
    apply IH in H as (N & -> & Had & _ & Hat); [|lia] end. simpl in *.
  eexists. split_and!.
  - rewrite set_operations_twice. f_equal. apply (added_union N).
  - apply (added_cons job_id); try done; simpl; try (rewrite E; lia); try (unfold i32_max; lia).
    by replace (i32_wrapping_add next (Z.of_nat offset) + 1) with (next + Z.of_nat (S offset)) by lia.
  - intros _ E'. apply (f_equal (lookup (new_id offset))) in E'. simpl in E'.
    rewrite lookup_empty, lookup_union_None, lookup_singleton_eq in E'. by destruct E'.
  - apply stages_at_cons; simpl; [|done|].
    + intros k o Hk. destruct Had as [Hrow _ _]. destruct (Hrow _ _ Hk) as (Hnone & _). intros ->.
      by rewrite lookup_insert_eq in Hnone.
    + by replace (next + Z.of_nat offset + 1) with (next + Z.of_nat (S offset)) by lia.
Qed.

Lemma added_appended job_id lo O N :
  added job_id lo O N → N ≠ ∅ →
  (∀ k p, O !! k = Some p → or_job_id p = job_id → or_ordinal p < lo) →
  appended job_id O N.
Proof.
  intros [Hrow Hrange Hdist] Hne Hlo. split; try done.
  - by intros k o (? & ? & ? & ?)%Hrow.
  - by intros k o (? & ? & ? & ?)%Hrow.
  - by intros k o (? & ? & ? & ?)%Hrow.
  - by intros k o (? & ? & ? & ?)%Hrow.
  - by intros k o (? & ? & ?)%Hrange.
  - intros k o kp p Hk Hp Hj. pose proof (Hlo _ _ Hp Hj). pose proof (Hrange _ _ Hk). lia.
  - apply map_choose in Hne as (k & o & Hk). eauto.
Qed.

Lemma validate_job_definition_nonempty d u :
  validate_job_definition d = Ok u → jd_operations d ≠ [].
Proof.
  unfold validate_job_definition. intros Hd. inv_tx.
  match goal with H : bool_decide (_ = []) = false |- _ => by apply bool_decide_eq_false in H end.
Qed.

Lemma next_ordinal_of_gt job_id s k p :
  operations s !! k = Some p → or_job_id p = job_id → or_ordinal p < next_ordinal_of job_id s.
Proof.
  intros Hp Hj. unfold next_ordinal_of.
  assert (or_ordinal p ≤ max_of (-1) (or_ordinal <$> operations_of job_id s)); [|lia].
  apply max_of_ge, list_elem_of_fmap_2. apply elem_of_select_rows.
  split; [eauto|by apply bool_decide_eq_true].
Qed.

Lemma next_ordinal_of_last job_id s :
  0 < next_ordinal_of job_id s →
  ∃ k p, operations s !! k = Some p ∧ or_job_id p = job_id ∧ or_ordinal p = next_ordinal_of job_id s - 1.
Proof.
  unfold next_ordinal_of. intros Hpos.
  assert ((or_ordinal <$> operations_of job_id s) ≠ []) as Hne by (intros E; by rewrite E in Hpos).
  apply (max_of_elem (-1)), list_elem_of_fmap in Hne as (p & E & [[k Hp] Hj]%elem_of_select_rows).
  exists k, p. split_and!; [done|by apply bool_decide_eq_true in Hj|lia].
Qed.

(** The transaction of a creation. *)
Lemma create_job_cases now job_id new_id definition s :
  (create_job now job_id new_id definition s).2 = s
  ∨ ∃ ops s', jd_operations definition ≠ [] ∧ jobs s !! job_id = None
      ∧ insert_operations now new_id job_id 0 (jd_operations definition)
          (set_jobs (<[job_id := mkJobRow job_id (jd_kind definition) (jd_input definition) "queued" now now]> (jobs s)) s)
        = Ok (ops, s')
      ∧ (create_job now job_id new_id definition s).2 = s'.
Proof.
  unfold create_job, mbind, proc_bind, proc_lift, commit.
  destruct (validate_job_definition definition) as [u|e] eqn:Hv; [|by left].
  apply validate_job_definition_nonempty in Hv. cbv zeta.
  destruct (create_tx _ _ _ _ s) as [[ops s']|e] eqn:Ht; [|by left].
  right. exists ops, s'. unfold create_tx in Ht. inv_tx.
  match goal with H : insert_unique _ _ _ = _ |- _ => apply insert_unique_Ok in H as [Hnone ->] end. done.
Qed.

Lemma create_job_step now job_id new_id definition s :
  tables_ok (lifecycle_of s) →
  (create_job now job_id new_id definition s).2 = s
  ∨ lifecycle_step (lifecycle_of s) (lifecycle_of (create_job now job_id new_id definition s).2).
Proof.
  intros Htk. destruct (create_job_cases now job_id new_id definition s)
    as [->|(ops & s' & Hne0 & Hnone & Hins & ->)]; [by left|right].
  apply insert_operations_added in Hins as (N & -> & Had & Hne).
  simpl in *. apply (step_append (lifecycle_of s) job_id); simpl; try done; [by left| |naive_solver].
  eapply added_appended; [done|by apply Hne|].
  intros k p Hp <-. destruct (tk_op_job _ Htk _ _ Hp) as [j Hj]. simpl in Hj. congruence.
Qed.

Lemma continuation_round_Ok next round :
  continuation_round next = Ok round →
  4 ≤ next ∧ next = 4 + 3 * (round - 1) ∧ 1 ≤ round.
Proof.
  unfold continuation_round. intros Hr. inv_tx.
  match goal with H : u32_try_from _ = _ |- _ => apply try_range_Some in H as [-> ?] end.
  destruct (_ || _) eqn:Hc; inv_tx. apply orb_false_iff in Hc as [Hlt%Z.ltb_ge Hm].
  apply negb_false_iff, Z.eqb_eq in Hm. pose proof (Z.div_mod (next - 4) 3). lia.
Qed.

Lemma continue_tx_step now new_id job_id feedback s r s' :
  tables_ok (lifecycle_of s) →
  continue_tx now new_id job_id feedback s = Ok (r, s') →
  lifecycle_step (lifecycle_of s) (lifecycle_of s').
Proof.
  intros Htk Hs. unfold continue_tx, update_job in Hs. inv_tx.
  match goal with H : jobs s !! job_id = Some ?x |- _ => rename x into j, H into Hj end.
  match goal with H : JobRecord_try_from j = Ok ?x |- _ => rename x into job, H into Hjob end.
  match goal with H : reactivate_in_transaction _ _ s = Ok (_, ?x) |- _ =>
    rename x into s1; apply reactivate_frames in H as E1 end.
  match goal with H : continuation_round _ = _ |- _ => apply continuation_round_Ok in H as (Hge & Hround & _) end.
  match goal with H : checked_column _ _ = _ |- _ => apply checked_column_Ok in H as [-> Hle] end.
  match goal with H : insert_continuation _ _ _ _ _ _ _ _ = _ |- _ =>
    apply insert_continuation_added in H as (N & -> & Had & Hne & Hat); [|lia|done] end.
  simpl in *. injection E1 as Ejobs Eops Eatt.
  unfold lifecycle_of. simpl. rewrite Ejobs, Eops, Eatt in *.
  rewrite (alter_insert_row _ _ _ j) by done.
  apply (step_append (lifecycle_of s) job_id); simpl; try done.
  - right. exists j. split; [done|].
    apply JobRecord_try_from_Ok in Hjob as (state & Hstate & ->). simpl in *.
    match goal with H : negb (bool_decide (state = _)) = false |- _ =>
      apply negb_false_iff, bool_decide_eq_true in H as -> end. done.
  - by apply (tk_job_key _ Htk).
  - eapply added_appended; [done|by apply Hne|]. intros k p Hp Hpj.
    rewrite Z.add_0_r. apply (next_ordinal_of_gt _ _ k); [|done]. by rewrite Eops.
  - intros j0 Hj0. simplify_eq. split; [done|]. rewrite Z.add_0_r in Hat.
    destruct (next_ordinal_of_last job_id s1) as (k & p & Hp & Hpj & Hpo); [lia|].
    exists (next_ordinal_of job_id s1). split_and!; [lia| |done|exists k, p; by rewrite <- Eops].
    rewrite Hround. match goal with |- (4 + 3 * ?x - 4) `mod` 3 = 0 => replace (4 + 3 * x - 4) with (x * 3) by lia end.
    by rewrite Z_mod_mult.
Qed.
