(* ===== verification/System.v ===== *)
(** * The coordinator as a transition system

    [Call] lists the store's mutating methods and [exec] runs one of them at a
    given time.  Calls of any number of workers and clients interleave at this
    grain: a method is one transaction, or a transaction followed by reads and,
    for a continuation, by one event.  [reachable] holds of the databases some
    sequence of calls produces from the empty schema. *)

From S2P Require Import Prelude Domain Rows Store Leases Events Environments Attempts Jobs Recovery Lifecycle Refinement.
From Stdlib Require Import ZArith Ascii String.
From stdpp Require Import base gmap strings list pretty.

#[local] Open Scope string_scope.
#[local] Open Scope Z_scope.
#[local] Open Scope list_scope.

(** The identifiers a call draws and the rows other transactions hold locked
    are part of the call.  [SkipSequence] is an identity value consumed by an
    insert that was rolled back. *)
Inductive Call : Type :=
| CreateJob (job_id : string) (new_id : nat → string) (definition : JobDefinition)
| ContinueJob (new_id : nat → string) (job_id feedback : string)
| CancelJob (job_id : string)
| AcknowledgeJobCancellation (fence : AttemptFence)
| PutWorkspace (binding : WorkspaceBinding)
| MarkWorkspaceRemoved (job_id : string)
| ClaimRecovery (locked : gset string) (new_id : string) (scope : RecoveryScope) (request : ClaimRequest)
| RenewAttempt (fence : AttemptFence) (lease_seconds : Z)
| RelinquishAttempt (fence : AttemptFence)
| AppendCorrelation (new_id : string) (fence : AttemptFence) (correlation : Correlation)
| SaveCheckpoint (new_id : string) (fence : AttemptFence) (checkpoint : NewCheckpoint)
| PutThreadState (fence : AttemptFence) (thread_id : string) (state : Value)
| SettleAttempt (new_id : string) (fence : AttemptFence) (settlement : AttemptSettlement)
    (checkpoint : option NewCheckpoint) (completion_event : option NewAttemptEvent)
| AppendJobEvent (event : NewJobEvent)
| AppendAttemptEvent (fence : AttemptFence) (event : NewAttemptEvent)
| EnsureEnvironment (new_id : string) (fence : AttemptFence) (backend : string)
| ReserveLocator (fence : AttemptFence) (generation : Z) (locator : string)
| MarkEnvironmentReady (fence : AttemptFence) (generation : Z) (backend_ref url : string)
| MarkEnvironmentFailed (fence : AttemptFence) (generation : Z) (error : string)
| RequestCancellingRelease (fence : AttemptFence)
| RequestEnvironmentRelease (job_id : string) (generation : Z)
| MarkEnvironmentReleased (job_id : string) (generation : Z)
| SkipSequence.

Section system.
Context `{External}.

(** The value a call returns, reduced to success or its error. *)
Definition forget {A : Type} (p : Proc A) : Proc unit := λ s,
  match p s with (Ok _, s') => (Ok tt, s') | (Err e, s') => (Err e, s') end.

Definition call (now : Z) (c : Call) : Proc unit :=
  match c with
  | CreateJob job_id new_id d => forget (create_job now job_id new_id d)
  | ContinueJob new_id job_id feedback => forget (continue_job now new_id job_id feedback)
  | CancelJob job_id => forget (cancel_job now job_id)
  | AcknowledgeJobCancellation f => forget (acknowledge_job_cancellation now f)
  | PutWorkspace b => forget (put_workspace now b)
  | MarkWorkspaceRemoved job_id => forget (mark_workspace_removed now job_id)
  | ClaimRecovery locked new_id scope request => forget (claim_recovery now locked new_id scope request)
  | RenewAttempt f secs => forget (renew_attempt now f secs)
  | RelinquishAttempt f => forget (relinquish_attempt now f)
  | AppendCorrelation new_id f c => forget (append_correlation now new_id f c)
  | SaveCheckpoint new_id f c => forget (save_checkpoint now new_id f c)
  | PutThreadState f t v => forget (put_thread_state now f t v)
  | SettleAttempt new_id f st ck ev => forget (settle_attempt_with_event now new_id f st ck ev)
  | AppendJobEvent e => forget (append_job_event now e)
  | AppendAttemptEvent f e => forget (append_attempt_event now f e)
  | EnsureEnvironment new_id f b => forget (ensure_execution_environment now new_id f b)
  | ReserveLocator f g l => forget (reserve_execution_environment_locator now f g l)
  | MarkEnvironmentReady f g b u => forget (mark_execution_environment_ready now f g b u)
  | MarkEnvironmentFailed f g e => forget (mark_execution_environment_failed now f g e)
  | RequestCancellingRelease f => forget (request_cancelling_execution_environment_release now f)
  | RequestEnvironmentRelease j g => forget (request_execution_environment_release now j g)
  | MarkEnvironmentReleased j g => forget (mark_execution_environment_released now j g)
  | SkipSequence => λ s, (Ok tt, set_events (events s) (next_sequence s + 1) s)
  end.

(** The database a call leaves behind, whether it succeeds or fails. *)
Definition exec (now : Z) (c : Call) (s : db) : db := (call now c s).2.

(** A history is a sequence of calls, each with the time it reads. *)
Fixpoint run (history : list (Z * Call)) (s : db) : db :=
  match history with
  | [] => s
  | (now, c) :: rest => run rest (exec now c s)
  end.

Definition reachable (s : db) : Prop := ∃ history, s = run history empty_db.

(** ** Calls as transactions *)

Lemma forget_snd {A : Type} (p : Proc A) s : (forget p s).2 = (p s).2.
Proof. unfold forget. destruct (p s) as [[a|e] s']; done. Qed.

Lemma forget_Ok {A : Type} (p : Proc A) s u s' :
  forget p s = (Ok u, s') ↔ ∃ a, p s = (Ok a, s').
Proof. unfold forget. destruct u. destruct (p s) as [[a|e] s1]; naive_solver. Qed.

Lemma proc_lift_snd {A B : Type} (p : Proc A) (f : A → Result B) s :
  ((p ≫= λ a, proc_lift (f a)) s).2 = (p s).2.
Proof. unfold mbind, proc_bind, proc_lift. destruct (p s) as [[a|e] s']; done. Qed.

Lemma load_job_snd {A : Type} (p : Proc A) (f : A → string) s :
  ((p ≫= λ a, load_job (f a)) s).2 = (p s).2.
Proof. unfold mbind, proc_bind, load_job. destruct (p s) as [[a|e] s']; done. Qed.

Lemma commit_snd {A : Type} (t : Tx A) s :
  (commit t s).2 = s ∨ ∃ a, t s = Ok (a, (commit t s).2).
Proof. unfold commit. destruct (t s) as [[a s']|e]; [right; by exists a|by left]. Qed.

(** The calls that never touch jobs, operations or attempts. *)
Lemma append_job_event_frames now e s :
  lifecycle_of (append_job_event now e s).2 = lifecycle_of s.
Proof.
  unfold append_job_event. rewrite proc_lift_snd. apply frames_commit.
  unfold identity_available. solve_frames.
Qed.

Lemma continue_job_snd now new_id job_id feedback s :
  lifecycle_of (continue_job now new_id job_id feedback s).2 = lifecycle_of s
  ∨ ∃ r s', continue_tx now new_id job_id (trim feedback) s = Ok (r, s')
      ∧ lifecycle_of (continue_job now new_id job_id feedback s).2 = lifecycle_of s'.
Proof.
  unfold continue_job, mbind, proc_bind, proc_lift, commit.
  destruct (guard_err _ _) as [u|e]; [|by left].
  destruct (continue_tx _ _ _ _ s) as [[r s']|e] eqn:Ht; [|by left].
  right. exists r, s'. split; [done|]. apply append_job_event_frames.
Qed.

Lemma claim_recovery_snd now locked new_id scope request s :
  (claim_recovery now locked new_id scope request s).2 = s
  ∨ ∃ x s', claim_tx now locked new_id scope request s = Ok (Some x, s')
      ∧ (claim_recovery now locked new_id scope request s).2 = s'.
Proof.
  unfold claim_recovery, mbind, proc_bind, commit_some.
  destruct (claim_tx _ _ _ _ _ s) as [[[[sel row]|] s']|e] eqn:Ht; [|by left..].
  right. exists (sel, row), s'. split; [done|]. unfold proc_lift.
  by destruct (AttemptRecord_try_from row).
Qed.

(** [frame_call] proves that a call leaves a projection of the tables alone by
    walking its transaction. *)
Ltac frame_call :=
  unfold put_workspace, mark_workspace_removed, append_correlation, save_checkpoint,
    put_thread_state, append_attempt_event, ensure_execution_environment,
    reserve_execution_environment_locator, mark_execution_environment_ready,
    mark_execution_environment_failed, request_cancelling_execution_environment_release,
    request_execution_environment_release, mark_execution_environment_released,
    renew_attempt, relinquish_attempt, update_lease;
  rewrite ?proc_lift_snd; apply frames_commit;
  unfold MARK_READY, MARK_FAILED, REQUEST_RELEASE, MARK_RELEASED, load_environment_for_update,
    refuse_cancelling;
  solve_frames.

Ltac committed r Ht :=
  match goal with |- context [commit ?t ?s] =>
    destruct (commit_snd t s) as [->|[r Ht]]; [by left|];
    let s' := fresh "s'" in set (s' := (commit t s).2) in *; clearbody s'
  end.

(** Every call moves the lifecycle by at most one rule. *)
Lemma exec_step now c s :
  lifecycle_ok (lifecycle_of s) →
  lifecycle_of (exec now c s) = lifecycle_of s
  ∨ lifecycle_step (lifecycle_of s) (lifecycle_of (exec now c s)).
Proof.
  intros Hok. pose proof Hok as [Htk _].
  unfold exec. destruct c; simpl; rewrite ?forget_snd;
    try (left; solve [frame_call | apply append_job_event_frames | done]).
  - destruct (create_job_step now job_id new_id definition s Htk) as [->|Hstep]; [by left|by right].
  - destruct (continue_job_snd now new_id job_id feedback s) as [->|(r & s' & Ht & ->)]; [by left|right].
    by eapply continue_tx_step.
  - unfold cancel_job. rewrite (load_job_snd _ (λ _, job_id)). committed r Ht.
    apply cancel_tx_step in Ht as [->|Ht]; [by left|by right].
  - unfold acknowledge_job_cancellation. rewrite (load_job_snd _ (λ i, i)). committed r Ht.
    right. by eapply acknowledge_tx_step.
  - destruct (claim_recovery_snd now locked new_id scope request s) as [->|([sel row] & s' & Ht & ->)]; [by left|right].
    by eapply claim_tx_step.
  - unfold renew_attempt. rewrite proc_lift_snd. committed r Ht. inv_tx. right. by eapply update_lease_step.
  - unfold relinquish_attempt. committed r Ht. inv_tx. right. by eapply update_lease_step.
  - unfold settle_attempt_with_event. committed r Ht. right. by eapply settle_tx_step.
Qed.

(** ** Reachable databases *)

Lemma run_app h1 h2 s : run (h1 ++ h2) s = run h2 (run h1 s).
Proof. revert s. induction h1 as [|[now c] h1 IH]; intros s; simpl; [done|apply IH]. Qed.

Lemma reachable_empty : reachable empty_db.
Proof. by exists []. Qed.

Lemma reachable_exec now c s : reachable s → reachable (exec now c s).
Proof. intros [h ->]. exists (h ++ [(now, c)]). by rewrite run_app. Qed.

(** Induction on the last call. *)
Lemma reachable_rect (P : db → Prop) :
  P empty_db → (∀ now c s, reachable s → P s → P (exec now c s)) → ∀ s, reachable s → P s.
Proof.
  intros H0 HS s [h ->]. induction h as [|[now c] h IH] using rev_ind; [done|].
  rewrite run_app. simpl. apply HS; [by exists h|done].
Qed.

Lemma lifecycle_ok_empty : lifecycle_ok (lifecycle_of empty_db).
Proof. split; split; simpl; intros; simplify_map_eq. Qed.

Lemma reachable_lifecycle_ok s : reachable s → lifecycle_ok (lifecycle_of s).
Proof.
  revert s. apply (reachable_rect (λ s, lifecycle_ok (lifecycle_of s))); [apply lifecycle_ok_empty|].
  intros now c s0 _ Hok. destruct (exec_step now c s0 Hok) as [->|Hstep]; [done|].
  by eapply lifecycle_ok_step.
Qed.

Lemma reachable_run h s : reachable s → reachable (run h s).
Proof. intros [h0 ->]. exists (h0 ++ h). by rewrite run_app. Qed.

(** ** Tables a call does not write *)

Section projections.
Context {B : Type} (π : db → B).

Lemma insert_operations_frames now new_id job_id index ops :
  (∀ m s, π (set_operations m s) = π s) → frames π (insert_operations now new_id job_id index ops).
Proof.
  intros Hπ. revert index. induction ops as [|op ops IH]; intros index; simpl;
    unfold insert_operation; solve_frames; apply IH.
Qed.

Lemma insert_continuation_frames now new_id job_id next input offset kinds :
  (∀ m s, π (set_operations m s) = π s) →
  frames π (insert_continuation now new_id job_id next input offset kinds).
Proof.
  intros Hπ. revert offset. induction kinds as [|k kinds IH]; intros offset; simpl;
    unfold insert_operation; solve_frames; apply IH.
Qed.

Lemma create_job_frames now job_id new_id definition s :
  (∀ m s, π (set_operations m s) = π s) → (∀ m s, π (set_jobs m s) = π s) →
  π (create_job now job_id new_id definition s).2 = π s.
Proof.
  intros Ho Hj. destruct (create_job_cases now job_id new_id definition s)
    as [->|(ops & s' & _ & _ & Hins & ->)]; [done|].
  apply insert_operations_frames in Hins; [|done]. by rewrite Hins.
Qed.

Lemma continue_job_frames now new_id job_id feedback s :
  frames π (continue_tx now new_id job_id (trim feedback)) →
  (∀ e s, π (append_job_event now e s).2 = π s) →
  π (continue_job now new_id job_id feedback s).2 = π s.
Proof.
  intros Ht He. unfold continue_job, mbind, proc_bind, proc_lift, commit.
  destruct (guard_err _ _) as [u|e]; [|done].
  destruct (continue_tx _ _ _ _ s) as [[r s']|e] eqn:E; [|done]. simpl.
  rewrite He. by apply Ht in E.
Qed.

Lemma claim_recovery_frames now locked new_id scope request s :
  frames π (claim_tx now locked new_id scope request) →
  π (claim_recovery now locked new_id scope request s).2 = π s.
Proof.
  intros Ht. destruct (claim_recovery_snd now locked new_id scope request s) as [->|(x & s' & E & ->)]; [done|].
  by apply Ht in E.
Qed.

Lemma append_job_event_ignored now e s :
  (∀ l n s, π (set_events l n s) = π s) → π (append_job_event now e s).2 = π s.
Proof.
  intros Hπ. unfold append_job_event. rewrite proc_lift_snd. apply frames_commit.
  unfold identity_available, push_event. solve_frames.
Qed.
End projections.

End system.

(** [frame_all] proves that a call leaves a table alone, with every
    transaction unfolded. *)
Ltac frame_all :=
  unfold cancel_job, acknowledge_job_cancellation, put_workspace, mark_workspace_removed,
    append_correlation, save_checkpoint,
    put_thread_state, append_attempt_event, ensure_execution_environment,
    reserve_execution_environment_locator, mark_execution_environment_ready,
    mark_execution_environment_failed, request_cancelling_execution_environment_release,
    request_execution_environment_release, mark_execution_environment_released,
    renew_attempt, relinquish_attempt, settle_attempt_with_event;
  rewrite ?proc_lift_snd, ?(load_job_snd _ (λ i, i)), ?(load_job_snd _ (λ _, _));
  first [ apply create_job_frames; done
        | apply append_job_event_ignored; done
        | apply continue_job_frames; [|intros; apply append_job_event_ignored; done]
        | apply claim_recovery_frames
        | apply frames_commit ];
  unfold continue_tx, claim_tx, cancel_tx, acknowledge_tx, settle_tx, settle_success, settle_failure,
    claim_attempt, take_over_expired, insert_attempt, update_job, update_operation, update_attempt,
    update_lease, cancel_unfinished_operations, reactivate_in_transaction, request_release_in_transaction,
    insert_checkpoint, insert_attempt_event, identity_available, MARK_READY, MARK_FAILED, REQUEST_RELEASE,
    MARK_RELEASED, update_environment, load_environment_for_update, refuse_cancelling;
  repeat first [ solve_frames_step
               | apply lock_attempt_context_frames | apply require_generation_match_frames
               | apply insert_operations_frames; done | apply insert_continuation_frames; done ].

(** Checkpoints are written by two calls only. *)
Lemma exec_checkpoints `{External} now c s :
  match c with SaveCheckpoint _ _ _ | SettleAttempt _ _ _ _ _ => True
  | _ => checkpoints (exec now c s) = checkpoints s end.
Proof.
  unfold exec. destruct c; simpl; rewrite ?forget_snd; try done; frame_all.
Qed.

(** ** Concrete runs

    Sample histories of the coordinator, used to evaluate the definitions and
    to instantiate the hypotheses of the theorems: a four-stage [factory.task]
    with its workspace, claimed by worker [w1], taken over by [w2], settled
    stage by stage, or cancelled while an attempt runs. *)

(** One choice of the third-party text functions. *)
Definition demo_external : External :=
  {| pg_json_text := λ v, if decide (v = Bool true) then "true" else "{}";
     rfc3339 := λ t, "1970-01-01T00:00:00." +:+ pretty t +:+ "Z" |}.

#[local] Existing Instance demo_external.

Definition demo_operation (kind : string) : OperationDefinition :=
  mkOperationDefinition kind (Object []) 2.

Definition demo_input : Value :=
  Object [("executionProfile", Object [("model", Str "m"); ("provider", Str "p")]);
          ("task", Str "write it ")].

Definition demo_definition : JobDefinition :=
  mkJobDefinition "factory.task" demo_input
    (demo_operation <$> ["codex.plan"; "codex.execute"; "codex.review"; "codex.remediate"]).

Definition demo_ids (prefix : string) (n : nat) : string := prefix +:+ pretty n.

Definition demo_request (worker : string) : ClaimRequest :=
  mkClaimRequest worker 5 (Some (mkExecutionProfile "p" "m")).

Definition demo_fence (attempt worker : string) (epoch : Z) : AttemptFence :=
  mkAttemptFence attempt worker epoch.

Definition demo_binding : WorkspaceBinding :=
  mkWorkspaceBinding "J" "rid" "repo" "HEAD" "base" "branch" "root" "rev".

Definition created_history : list (Z * Call) :=
  [(10, CreateJob "J" (demo_ids "o") demo_definition); (11, PutWorkspace demo_binding)].

Definition running_history : list (Z * Call) :=
  created_history ++ [(12, ClaimRecovery ∅ "a0" ScopeAny (demo_request "w1"))].

(** The lease of [a0] expires and [w2] takes it over. *)
Definition taken_history : list (Z * Call) :=
  running_history ++ [(6000000, ClaimRecovery ∅ "a1" ScopeAny (demo_request "w2"))].

(** One stage: claimed, and settled successfully by [w1]. *)
Definition demo_stage (n : nat) : list (Z * Call) :=
  let at_time := 100 * Z.of_nat n in
  [(at_time + 20, ClaimRecovery ∅ (demo_ids "a" n) ScopeAny (demo_request "w1"));
   (at_time + 30, SettleAttempt (demo_ids "c" n) (demo_fence (demo_ids "a" n) "w1" 1) SettleSucceeded
      (Some (mkNewCheckpoint (demo_ids "a" n) "factory.stage" (Object []) None None None))
      (Some (mkNewAttemptEvent "stage.completed" Null (Some (demo_ids "k" n)))))].

Definition succeeded_history : list (Z * Call) :=
  created_history ++ demo_stage 0 ++ demo_stage 1 ++ demo_stage 2 ++ demo_stage 3.

(** The running attempt provisions an environment, then the job is cancelled. *)
Definition environment_history : list (Z * Call) :=
  running_history ++
  [(13, EnsureEnvironment "env" (demo_fence "a0" "w1" 1) "kubernetes");
   (14, ReserveLocator (demo_fence "a0" "w1" 1) 1 "pod/a")].

Definition cancelling_history : list (Z * Call) :=
  environment_history ++ [(15, CancelJob "J")].

Definition released_history : list (Z * Call) :=
  cancelling_history ++
  [(16, RequestCancellingRelease (demo_fence "a0" "w1" 1)); (17, MarkEnvironmentReleased "J" 1)].

Definition demo (history : list (Z * Call)) : db := run history empty_db.

Lemma demo_reachable history : reachable (demo history).
Proof. by exists history. Qed.

Definition job_status_of (s : db) (job_id : string) : option string := jr_status <$> jobs s !! job_id.

Example succeeded_history_succeeds : job_status_of (demo succeeded_history) "J" = Some "succeeded".
Proof. vm_compute. reflexivity. Qed.
Example cancelling_history_cancels : job_status_of (demo cancelling_history) "J" = Some "cancelling".
Proof. vm_compute. reflexivity. Qed.
Example acknowledged_history_cancelled :
  job_status_of (demo (released_history ++ [(18, AcknowledgeJobCancellation (demo_fence "a0" "w1" 1))])) "J"
  = Some "cancelled".
Proof. vm_compute. reflexivity. Qed.
Example continued_history_queued :
  job_status_of (demo (succeeded_history ++ [(1000, ContinueJob (demo_ids "n") "J" "more tests")])) "J"
  = Some "queued".
Proof. vm_compute. reflexivity. Qed.
