(* ===== verification/Safety.v ===== *)
(** * Safety of the lifecycle

    What the rules of [Lifecycle] guarantee of every history of calls: each
    rule touches one job that is not yet final, moves it along the job state
    machine, and the reachable databases keep the invariant. *)

From S2P Require Import Prelude Domain Rows Store Leases Events Environments Attempts Jobs Recovery Lifecycle Refinement System.
From Stdlib Require Import ZArith Ascii String.
From stdpp Require Import base gmap strings list.

#[local] Open Scope string_scope.
#[local] Open Scope Z_scope.
#[local] Open Scope list_scope.

(** ** Locality *)

(** Everything outside one job is left as it was. *)
Record local_to (job_id : string) (l l' : lifecycle) : Prop := {
  loc_jobs k : k ≠ job_id → lc_jobs l' !! k = lc_jobs l !! k;
  loc_operations k o : lc_operations l !! k = Some o → or_job_id o ≠ job_id →
    lc_operations l' !! k = Some o;
  loc_attempts k a o : lc_attempts l !! k = Some a → lc_operations l !! ar_operation_id a = Some o →
    or_job_id o ≠ job_id → lc_attempts l' !! k = Some a;
}.

Lemma insert_other {A : Type} (m : gmap string A) k k' x y :
  m !! k = Some x → k ≠ k' → <[k' := y]> m !! k = Some x.
Proof. intros Hk Hne. by rewrite lookup_insert_ne. Qed.

(** The rules that rewrite the row of a running attempt, of its operation and
    of its job stay inside that job. *)
Lemma local_to_running l aid a o j J' O' A' :
  runs l aid a o j →
  (∀ k, k ≠ or_job_id o → J' !! k = lc_jobs l !! k) →
  (∀ k p, lc_operations l !! k = Some p → or_job_id p ≠ or_job_id o → O' !! k = Some p) →
  (∀ k b, lc_attempts l !! k = Some b → k ≠ aid → A' !! k = Some b) →
  local_to (or_job_id o) l (mkLifecycle J' O' A').
Proof.
  intros (Ha & _ & Ho & _) HJ HO HA. split; simpl; [done|done|].
  intros k b p Hb Hp Hpj. apply HA; [done|]. intros ->. congruence.
Qed.

Lemma insert_operation_local (m : gmap string OperationRow) k0 o0 o0' jid :
  m !! k0 = Some o0 → or_job_id o0 = jid →
  ∀ k p, m !! k = Some p → or_job_id p ≠ jid → <[k0 := o0']> m !! k = Some p.
Proof. intros H0 <- k p Hp Hj. apply insert_other; [done|]. intros ->. congruence. Qed.

Lemma cancelled_operations_other now jid m k p :
  m !! k = Some p → or_job_id p ≠ jid → cancelled_operations now jid m !! k = Some p.
Proof.
  intros Hp Hj. unfold cancelled_operations. rewrite lookup_update_where, Hp. simpl.
  by rewrite bool_decide_eq_false_2.
Qed.

#[export] Hint Resolve insert_other insert_operation_local cancelled_operations_other : factory.
#[export] Hint Extern 3 (<[_ := _]> _ !! _ = _) => apply lookup_insert_ne; congruence : factory.

Definition touchable (l : lifecycle) (jid : string) : Prop :=
  lc_jobs l !! jid = None
  ∨ ∃ j, lc_jobs l !! jid = Some j ∧ jr_status j ∈ ["queued"; "running"; "cancelling"; "succeeded"].

Lemma runs_touchable l aid a o j : statuses_ok l → runs l aid a o j → touchable l (or_job_id o).
Proof.
  intros Hst Hruns. destruct (runs_job_status _ Hst _ _ _ _ Hruns) as [_ Hjs].
  right. exists j. split; [apply Hruns|]. mem_cases Hjs; rewrite Hjs; mem.
Qed.

Lemma pending_touchable l jid j :
  lc_jobs l !! jid = Some j → jr_status j ∈ ["queued"; "running"] → touchable l jid.
Proof. intros Hj Hjs. right. exists j. split; [done|]. mem_cases Hjs; rewrite Hjs; mem. Qed.

Lemma step_local l l' :
  lifecycle_ok l → lifecycle_step l l' →
  ∃ jid, local_to jid l l' ∧ touchable l jid.
Proof.
  intros [Htk Hst] Hstep. destruct Hstep as
    [l jid j' N Hj Hid Hq Hap|l o j a now Ho Hj Hjs Hos Hpred Hf Hao Has He Hc Hn Hlt
    |l aid a o j now owner ex ra rc Hruns Hos He|l aid a ex Ha Har
    |l aid a o j now Hruns Hnc O'|l aid a o j now ra pl Hruns Hnc Hlt
    |l aid a o j now pl Hruns Hnc|l jid j now Hj Hjs Hrun|l jid j now Hj Hjs Hno
    |l aid a o j now pl Hruns Hc].
  - exists jid. split.
    + split; simpl; [|intros k o Ho _; apply (lookup_append_Some _ _ jid); auto|done].
      intros k Hk. by rewrite lookup_insert_ne.
    + destruct Hj as [Hj|(j & Hj & Hs)]; [by left|]. right. exists j. rewrite Hs. split; [done|mem].
  - exists (or_job_id o). split; [|by eapply pending_touchable].
    split; simpl; [intros; by apply lookup_insert_ne|by eapply insert_operation_local|].
    intros k b p Hb Hp Hpj. apply insert_other; [done|]. intros ->. congruence.
  - exists (or_job_id o). split; [|by eapply runs_touchable].
    pose proof Hruns as (_ & _ & Ho & _). eapply local_to_running; eauto with factory.
  - destruct (tk_att_op _ Htk _ _ Ha) as [o Ho]. destruct (tk_op_job _ Htk _ _ Ho) as [j Hj].
    assert (runs l aid a o j) as Hruns by done.
    exists (or_job_id o). split; [|by eapply runs_touchable]. eapply local_to_running; eauto with factory.
  - exists (or_job_id o). split; [|by eapply runs_touchable].
    pose proof Hruns as (_ & _ & Ho & _). eapply local_to_running; eauto with factory.
    intros k Hk. destruct (exists_row _ O'); [done|by apply lookup_insert_ne].
  - exists (or_job_id o). split; [|by eapply runs_touchable].
    pose proof Hruns as (_ & _ & Ho & _). eapply local_to_running; eauto with factory.
  - exists (or_job_id o). split; [|by eapply runs_touchable].
    pose proof Hruns as (_ & _ & Ho & _). eapply local_to_running; eauto with factory.
  - exists jid. split; [|by eapply pending_touchable]. split; simpl; [|done..].
    intros. by apply lookup_insert_ne.
  - exists jid. split; [|by eapply pending_touchable].
    split; simpl; [intros; by apply lookup_insert_ne|eauto with factory|done].
  - exists (or_job_id o). split; [|by eapply runs_touchable].
    pose proof Hruns as (_ & _ & Ho & _). eapply local_to_running; eauto with factory.
Qed.

(** ** The job state machine *)

(** The transitions a job's status may take in one call. *)
Definition job_next (from to : string) : Prop :=
  from = to
  ∨ (from = "queued" ∧ to ∈ ["running"; "cancelled"])
  ∨ (from = "running" ∧ to ∈ ["cancelling"; "succeeded"; "failed"; "cancelled"])
  ∨ (from = "cancelling" ∧ to = "cancelled")
  ∨ (from = "succeeded" ∧ to = "queued").

Lemma insert_job_next (J : gmap string JobRow) jid j j' k i :
  J !! jid = Some j → job_next (jr_status j) (jr_status j') → J !! k = Some i →
  ∃ i', <[jid := j']> J !! k = Some i' ∧ job_next (jr_status i) (jr_status i').
Proof.
  intros Hj Hnext Hi. destruct (decide (k = jid)) as [->|Hne].
  - exists j'. rewrite lookup_insert_eq. split; [done|]. by simplify_eq.
  - exists i. rewrite lookup_insert_ne by done. split; [done|by left].
Qed.

(** A job with a running attempt is not queued. *)
Lemma running_attempt_job l jid j :
  statuses_ok l → lc_jobs l !! jid = Some j → jr_status j ∈ ["queued"; "running"] →
  (∃ aid a o, lc_attempts l !! aid = Some a ∧ ar_status a = "running"
     ∧ lc_operations l !! ar_operation_id a = Some o ∧ or_job_id o = jid) →
  jr_status j = "running".
Proof.
  intros Hst Hj Hjs (aid & a & o & Ha & Har & Ho & <-).
  destruct (runs_job_status _ Hst aid a o j) as [_ Hr]; [done|]. mem_cases Hr; [done|].
  rewrite Hr in Hjs. absurd_mem.
Qed.

Lemma step_job_next l l' k i :
  lifecycle_ok l → lifecycle_step l l' → lc_jobs l !! k = Some i →
  ∃ i', lc_jobs l' !! k = Some i' ∧ job_next (jr_status i) (jr_status i').
Proof.
  intros [Htk Hst] Hstep Hi. destruct Hstep as
    [l jid j' N Hj Hid Hq Hap|l o j a now Ho Hj Hjs Hos Hpred Hf Hao Has He Hc Hn Hlt
    |l aid a o j now owner ex ra rc Hruns Hos He|l aid a ex Ha Har
    |l aid a o j now Hruns Hnc O'|l aid a o j now ra pl Hruns Hnc Hlt
    |l aid a o j now pl Hruns Hnc|l jid j now Hj Hjs Hrun|l jid j now Hj Hjs Hno
    |l aid a o j now pl Hruns Hc]; simpl;
    try (pose proof (runs_job_status _ Hst _ _ _ _ Hruns) as [_ Hjs];
         pose proof Hruns as (_ & _ & _ & Hj));
    try (exists i; split; [done|by left]).
  - destruct Hj as [Hj|(j & Hj & Hs)].
    + exists i. rewrite lookup_insert_ne by congruence. split; [done|by left].
    + eapply insert_job_next; eauto. rewrite Hs, Hq. unfold job_next. tauto.
  - eapply insert_job_next; eauto. unfold job_next. mem_cases Hjs; rewrite Hjs; simpl; [|tauto].
    right; left. split; [done|mem].
  - eapply insert_job_next; eauto. left. unfold job_claimed. mem_cases Hjs; rewrite Hjs; done.
  - destruct (exists_row _ O'); [exists i; split; [done|by left]|].
    eapply insert_job_next; eauto. mem_cases Hjs; [|done]. rewrite Hjs. simpl.
    right; right; left. split; [done|mem].
  - eapply insert_job_next; eauto. mem_cases Hjs; [|done]. rewrite Hjs. simpl.
    right; right; left. split; [done|mem].
  - eapply insert_job_next; eauto. rewrite (running_attempt_job _ _ _ Hst Hj Hjs Hrun). simpl.
    right; right; left. split; [done|mem].
  - eapply insert_job_next; eauto. unfold job_next. mem_cases Hjs; rewrite Hjs; simpl;
      [right; left|right; right; left]; (split; [done|mem]).
  - eapply insert_job_next; eauto. rewrite Hc. simpl. unfold job_next. tauto.
Qed.

(** A rule leaves a failed or cancelled job, and what belongs to it, alone. *)
Lemma step_final l l' k j :
  lifecycle_ok l → lifecycle_step l l' →
  lc_jobs l !! k = Some j → jr_status j ∈ ["failed"; "cancelled"] →
  lc_jobs l' !! k = Some j
  ∧ (∀ ko o, lc_operations l !! ko = Some o → or_job_id o = k → lc_operations l' !! ko = Some o)
  ∧ (∀ ka a o, lc_attempts l !! ka = Some a → lc_operations l !! ar_operation_id a = Some o →
       or_job_id o = k → lc_attempts l' !! ka = Some a).
Proof.
  intros Hok Hstep Hj Hs. destruct (step_local l l' Hok Hstep) as (jid & [HJ HO HA] & Ht).
  assert (k ≠ jid) as Hne.
  { intros ->. destruct Ht as [Ht|(j' & Hj' & Ht)]; [congruence|].
    assert (j' = j) as -> by congruence. mem_cases Hs; absurd_mem. }
  split_and!; [by rewrite HJ|..].
  - intros ko o Ho <-. by apply HO.
  - intros ka a o Ha Ho <-. by eapply HA.
Qed.

(** The attempts of one operation carry distinct numbers. *)
Lemma attempt_numbers_NoDup s k :
  tables_ok (lifecycle_of s) → NoDup (ar_attempt_number <$> attempts_of k s).
Proof.
  intros Htk. apply select_rows_NoDup. intros k1 a1 k2 a2 H1 H2 E1%bool_decide_eq_true E2%bool_decide_eq_true E.
  eapply (tk_number _ Htk); eauto. congruence.
Qed.

(** ** Theorems over histories *)

Section histories.
Context `{External}.

(** C1: refinement.  From any reachable database, every store call (creation,
    claim, settlement, cancellation, environment and event calls, at any time
    and with any arguments) either leaves jobs, operations and attempts as they
    are or performs exactly one rule of the abstract lifecycle. *)
Theorem exec_refines_lifecycle now c s :
  reachable s →
  lifecycle_of (exec now c s) = lifecycle_of s
  ∨ lifecycle_step (lifecycle_of s) (lifecycle_of (exec now c s)).
Proof. intros Hr. apply exec_step. by apply reachable_lifecycle_ok. Qed.

(** C8: the lifecycle invariant.  In every reachable database the keys, foreign
    keys, numeric ranges and uniqueness constraints hold, every status is a
    known one, and the statuses of a job, its operations and their attempts
    agree. *)
Theorem reachable_well_formed s : reachable s → lifecycle_ok (lifecycle_of s).
Proof. apply reachable_lifecycle_ok. Qed.

(** C2: mutual exclusion.  Two fences that hold live leases at the same time
    for attempts of the same job are the same fence: at most one worker can
    write to a job. *)
Theorem one_live_fence_per_job s now f1 f2 a1 a2 o1 o2 :
  reachable s → fence_live s now f1 = true → fence_live s now f2 = true →
  attempts s !! af_attempt_id f1 = Some a1 → operations s !! ar_operation_id a1 = Some o1 →
  attempts s !! af_attempt_id f2 = Some a2 → operations s !! ar_operation_id a2 = Some o2 →
  or_job_id o1 = or_job_id o2 → f1 = f2.
Proof.
  intros [Htk Hst]%reachable_lifecycle_ok Hl1 Hl2 Ha1 Ho1 Ha2 Ho2 Hj.
  apply fence_live_true in Hl1 as (b1 & Hb1 & Hw1 & He1 & Hr1 & _).
  apply fence_live_true in Hl2 as (b2 & Hb2 & Hw2 & He2 & Hr2 & _).
  assert (b1 = a1) as -> by congruence. assert (b2 = a2) as -> by congruence.
  assert (or_status o1 = "running") as Hs1 by (by eapply (st_att_running _ Hst _ a1)).
  assert (or_status o2 = "running") as Hs2 by (by eapply (st_att_running _ Hst _ a2)).
  assert (ar_operation_id a1 = ar_operation_id a2) as Hop.
  { eapply (started_unique _ Htk Hst); eauto; rewrite ?Hs1, ?Hs2; mem. }
  assert (af_attempt_id f1 = af_attempt_id f2) as Hid by (by eapply (running_attempt_unique _ Htk Hst)).
  rewrite Hid in Ha1. assert (a1 = a2) as -> by congruence.
  destruct f1, f2; simpl in *. congruence.
Qed.

(** the attempt limit.  No operation of a reachable database ever has more
    attempts than its [max_attempts], taken-over attempts included. *)
Theorem attempts_within_limit s k o :
  reachable s → operations s !! k = Some o →
  Z.of_nat (length (attempts_of k s)) ≤ or_max_attempts o.
Proof.
  intros [Htk _]%reachable_lifecycle_ok Ho.
  destruct (tk_op_range _ Htk _ _ Ho) as [_ Hmax].
  assert (length (ar_attempt_number <$> attempts_of k s) ≤ length (seqZ 1 (or_max_attempts o)))%nat as Hlen.
  { apply submseteq_length, NoDup_submseteq; [by apply attempt_numbers_NoDup|].
    intros n (a & -> & Ha)%list_elem_of_fmap. apply elem_of_attempts_of in Ha as [[ka Ha] <-].
    pose proof (tk_att_range _ Htk _ _ _ Ha Ho). apply elem_of_seqZ. lia. }
  rewrite length_fmap, length_seqZ in Hlen. lia.
Qed.

(** the job state machine.  In one call a job is never removed, and its
    status stays or moves queued -> running -> succeeded | failed, queued ->
    cancelled, running -> cancelling -> cancelled, running -> cancelled, or,
    for a continuation, succeeded -> queued; nothing else. *)
Theorem job_transitions now c s k j :
  reachable s → jobs s !! k = Some j →
  ∃ j', jobs (exec now c s) !! k = Some j' ∧ job_next (jr_status j) (jr_status j').
Proof.
  intros Hok%reachable_lifecycle_ok Hj. destruct (exec_step now c s Hok) as [E|Hstep].
  - injection E as -> _ _. exists j. split; [done|by left].
  - by apply (step_job_next _ _ _ _ Hok Hstep).
Qed.

(** finality.  Once a job is failed or cancelled, no history of calls
    changes its row, any of its operations or any of their attempts. *)
Theorem failed_and_cancelled_final history s k j :
  reachable s → jobs s !! k = Some j → jr_status j ∈ ["failed"; "cancelled"] →
  let s' := run history s in
  jobs s' !! k = Some j
  ∧ (∀ ko o, operations s !! ko = Some o → or_job_id o = k → operations s' !! ko = Some o)
  ∧ (∀ ka a o, attempts s !! ka = Some a → operations s !! ar_operation_id a = Some o →
       or_job_id o = k → attempts s' !! ka = Some a).
Proof.
  revert s. induction history as [|[now c] history IH]; intros s Hr Hj Hs; simpl; [done|].
  assert (jobs (exec now c s) !! k = Some j
    ∧ (∀ ko o, operations s !! ko = Some o → or_job_id o = k → operations (exec now c s) !! ko = Some o)
    ∧ (∀ ka a o, attempts s !! ka = Some a → operations s !! ar_operation_id a = Some o →
         or_job_id o = k → attempts (exec now c s) !! ka = Some a)) as (Hj' & Ho' & Ha').
  { apply reachable_lifecycle_ok in Hr as Hok.
    destruct (exec_step now c s Hok) as [[= -> -> ->]|Hstep]; [done|].
    apply (step_final _ _ k j Hok Hstep); done. }
  destruct (IH (exec now c s)) as (Hj'' & Ho'' & Ha''); [by apply reachable_exec|done|done|].
  split_and!; [done|by eauto|by eauto].
Qed.
End histories.

(** ** Witnesses *)

#[local] Existing Instance demo_external.

Lemma exec_refines_lifecycle_witness :
  lifecycle_of (exec 13 (CancelJob "J") (demo running_history)) = lifecycle_of (demo running_history)
  ∨ lifecycle_step (lifecycle_of (demo running_history))
      (lifecycle_of (exec 13 (CancelJob "J") (demo running_history))).
Proof. apply exec_refines_lifecycle. exact (demo_reachable running_history). Defined.

Lemma reachable_well_formed_witness : lifecycle_ok (lifecycle_of (demo taken_history)).
Proof. apply reachable_well_formed. exact (demo_reachable taken_history). Defined.

Lemma one_live_fence_per_job_witness :
  fence_live (demo taken_history) 6000001 (demo_fence "a0" "w2" 2) = true
  ∧ demo_fence "a0" "w2" 2 = demo_fence "a0" "w2" 2.
Proof.
  split; [vm_compute; reflexivity|].
  eapply (one_live_fence_per_job (demo taken_history) 6000001 (demo_fence "a0" "w2" 2) (demo_fence "a0" "w2" 2));
    [exact (demo_reachable taken_history)|vm_compute; reflexivity..].
Defined.

Lemma attempts_within_limit_witness :
  ∃ o, operations (demo taken_history) !! "o0" = Some o
    ∧ Z.of_nat (length (attempts_of "o0" (demo taken_history))) ≤ or_max_attempts o.
Proof.
  eexists. split; [vm_compute; reflexivity|].
  apply (attempts_within_limit (demo taken_history) "o0");
    [exact (demo_reachable taken_history)|vm_compute; reflexivity].
Defined.

Lemma job_transitions_witness :
  ∃ j, jobs (demo running_history) !! "J" = Some j
    ∧ ∃ j', jobs (exec 13 (CancelJob "J") (demo running_history)) !! "J" = Some j'
        ∧ job_next (jr_status j) (jr_status j').
Proof.
  eexists. split; [vm_compute; reflexivity|].
  apply (job_transitions 13 (CancelJob "J") (demo running_history) "J");
    [exact (demo_reachable running_history)|vm_compute; reflexivity].
Defined.

Lemma failed_and_cancelled_final_witness :
  ∃ j, jobs (run [(20, CancelJob "J")] (demo (created_history ++ [(12, CancelJob "J")]))) !! "J" = Some j
    ∧ jr_status j = "cancelled".
Proof.
  eexists. split; [|shelve].
  eapply (failed_and_cancelled_final [(20, CancelJob "J")] (demo (created_history ++ [(12, CancelJob "J")])) "J");
    [exact (demo_reachable (created_history ++ [(12, CancelJob "J")]))|vm_compute; reflexivity|vm_compute; right; left].
  Unshelve. vm_compute. reflexivity.
Defined.
