(* ===== verification/Fencing.v ===== *)
(** * Lease fencing

    Every write of a worker presents the fence it was handed with its lease.
    A call whose fence does not hold the live lease changes nothing, and a
    fence that was taken over or settled never becomes live again. *)

From S2P Require Import Prelude Domain Rows Store Leases Events Environments Attempts Jobs Recovery Lifecycle Refinement System.
From Stdlib Require Import ZArith Ascii String.
From stdpp Require Import base gmap strings list.

#[local] Open Scope string_scope.
#[local] Open Scope Z_scope.
#[local] Open Scope list_scope.

(** ** Claims *)

Section claiming.
Context `{External}.

Definition row_fence (a : AttemptRow) : AttemptFence :=
  mkAttemptFence (ar_attempt_id a) (ar_owner_instance_id a) (ar_lease_epoch a).

Lemma AttemptRecord_try_from_fence row r : AttemptRecord_try_from row = Ok r → fence r = row_fence row.
Proof.
  unfold AttemptRecord_try_from. intros Hr. inv_tx. unfold fence, row_fence. simpl.
  repeat match goal with H : to_u64 _ _ = _ |- _ =>
    apply ok_or_Ok, try_range_Some in H as [-> _] end. done.
Qed.

(** Where the granted attempt comes from: opened under a fresh identifier with
    the next number, or taken over at expiry under the next epoch. *)
Inductive granted_from (now : Z) (new_id : string) (s : db) (o : OperationRow) (row : AttemptRow) : Prop :=
| granted_open :
    ar_attempt_id row = new_id → attempts s !! new_id = None →
    or_status o = "ready" ∨ or_status o = "retry_wait" ∧ or_next_eligible_at o ≤ now →
    ar_lease_epoch row = 1 →
    ar_attempt_number row = attempts_made (previous_attempt (or_operation_id o) s) + 1 →
    granted_from now new_id s o row
| granted_take_over a :
    attempts s !! ar_attempt_id row = Some a → ar_status a = "running" →
    or_status o = "running" → ar_lease_expires_at a ≤ now →
    ar_lease_epoch row = ar_lease_epoch a + 1 →
    ar_attempt_number row = ar_attempt_number a →
    granted_from now new_id s o row.

Record granted (now : Z) (locked : gset string) (new_id : string) (scope : RecoveryScope)
    (request : ClaimRequest) (s : db) (lease : RecoveryLease) (s' : db)
    (j : JobRow) (o : OperationRow) (row : AttemptRow) : Prop := {
  gr_seconds : cr_lease_seconds request ≠ 0;
  gr_reads : claim_reads now locked scope request s j o (rl_selection lease);
  gr_fence : rl_fence lease = row_fence row;
  gr_operation : ar_operation_id row = or_operation_id o;
  gr_running : ar_status row = "running";
  gr_owner : ar_owner_instance_id row = cr_owner_instance_id request;
  gr_deadline : ar_lease_expires_at row = lease_deadline now (cr_lease_seconds request);
  gr_resumes : (ar_resumes_attempt_id row, ar_resumes_checkpoint_id row)
               = resume_ids (rs_resume (rl_selection lease));
  gr_from : granted_from now new_id s o row;
  gr_attempts : attempts s' = <[ar_attempt_id row := row]> (attempts s);
  gr_operations : operations s' = <[or_operation_id o := operation_with_status "running" now o]> (operations s);
  gr_jobs : jobs s' = <[or_job_id o := job_claimed now j]> (jobs s);
  gr_frame : events s' = events s ∧ environments s' = environments s ∧ workspaces s' = workspaces s
             ∧ checkpoints s' = checkpoints s;
}.

Lemma claim_recovery_Some now locked new_id scope request s lease s' :
  claim_recovery now locked new_id scope request s = (Ok (Some lease), s') →
  ∃ row, claim_tx now locked new_id scope request s = Ok (Some (rl_selection lease, row), s')
    ∧ rl_fence lease = row_fence row.
Proof.
  unfold claim_recovery, mbind, proc_bind, commit_some, proc_lift.
  destruct (claim_tx _ _ _ _ _ s) as [[[[sel row]|] s1]|e]; [|by intros [=]..].
  destruct (AttemptRecord_try_from row) as [r|e] eqn:Hrow; [|by intros [=]].
  intros [= <- <-]. exists row. split; [done|]. by apply AttemptRecord_try_from_fence.
Qed.

Lemma claim_granted now locked new_id scope request s lease s' :
  tables_ok (lifecycle_of s) →
  claim_recovery now locked new_id scope request s = (Ok (Some lease), s') →
  ∃ j o row, granted now locked new_id scope request s lease s' j o row.
Proof.
  intros Htk (row & Htx & Hfence)%claim_recovery_Some.
  apply claim_tx_Some in Htx as (Hsecs & j & o & s1 & Hreads & Hatt & ->); [|done].
  pose proof Hreads as [Hin Hrec _ _ _ Hsel].
  destruct (job_operations_keys _ _ _ Htk Hin) as (Ho & Hj & Hk).
  destruct (selection_of_row _ _ _ _ Hsel) as (_ & Eo & Hcause & Hprev & Hnext).
  apply recovery_cause_of_status_Ok in Hcause. apply claim_attempt_Some in Hatt.
  exists j, o, row.
  destruct Hatt as [aid a row Hle Haid Ha Har Hex Hep ->|row Hle Hnone Hpos ->]; simpl in *.
  - rewrite Hle in Hcause. rewrite Hprev in Haid. apply fmap_Some in Haid as (b & Hb & ->).
    apply previous_attempt_Some in Hb as [[k Hbk] Hbo].
    pose proof (tk_att_key _ Htk _ _ Hbk) as Hkey. simpl in Hkey. rewrite Hkey in Ha |- *.
    assert (b = a) as -> by congruence.
    split; simpl; try done; [by destruct (resume_ids _)| |by rewrite Hkey|by rewrite (alter_insert_row _ _ _ o)].
    apply (granted_take_over _ _ _ _ _ a); simpl; try done. by rewrite Hkey.
  - destruct (rec_ready _ _ _ _ _ _ Hrec) as [Hready|[Hr _]%expired_true];
      [|rewrite Hr in Hcause; by destruct (rs_cause _)].
    apply startable_true in Hready as (Hjs & Hmade & Hos).
    pose proof (attempts_made_nonneg _ (or_operation_id o) s Htk eq_refl).
    destruct (tk_op_range _ Htk _ _ Ho) as [_ Hmax]. specialize (Hnext Hle).
    rewrite i32_wrapping_add_small in Hnext by (unfold i32_min; lia).
    unfold opened_attempt in *. destruct (resume_ids _) as [ra rc] eqn:Hres.
    split; simpl; try done; [|by rewrite (alter_insert_row _ _ _ o)].
    by apply granted_open.
Qed.
End claiming.

(** The fence a call presents. *)
Definition call_fence (c : Call) : option AttemptFence :=
  match c with
  | AcknowledgeJobCancellation f | RenewAttempt f _ | RelinquishAttempt f
  | AppendCorrelation _ f _ | SaveCheckpoint _ f _ | PutThreadState f _ _
  | SettleAttempt _ f _ _ _ | AppendAttemptEvent f _ | EnsureEnvironment _ f _
  | ReserveLocator f _ _ | MarkEnvironmentReady f _ _ _ | MarkEnvironmentFailed f _ _
  | RequestCancellingRelease f => Some f
  | _ => None
  end.

(** ** Transactions that require a live lease *)

Section needs.
Context (now : Z) (f : AttemptFence).

Definition needs_lease {A : Type} (t : Tx A) : Prop :=
  ∀ s a s', t s = Ok (a, s') → fence_live s now f = true.

Lemma needs_lock : needs_lease (lock_attempt_context now f).
Proof. by intros s ctx s' (_ & Hl & _)%lock_attempt_context_Ok. Qed.

Lemma needs_bind_l {A B : Type} (m : Tx A) (k : A → Tx B) : needs_lease m → needs_lease (m ≫= k).
Proof. intros Hm s b s' (a & s1 & H1 & _)%tx_bind_Ok. by eapply Hm. Qed.

(** Validation in front of the lock reads and writes nothing. *)
Lemma needs_bind_r {A B : Type} (r : Result A) (k : A → Tx B) :
  (∀ a, needs_lease (k a)) → needs_lease (lift r ≫= k).
Proof. intros Hk s b s' (a & s1 & [_ ->]%lift_Ok & H2)%tx_bind_Ok. by eapply Hk. Qed.

Lemma needs_update_lease expires_at e :
  database_lease_epoch (af_lease_epoch f) = Ok e → needs_lease (update_lease now expires_at f e).
Proof.
  intros [-> _]%database_lease_epoch_Ok s r s' (a & Ha & Hl & _)%update_lease_Ok.
  unfold fence_live. by rewrite Ha.
Qed.

Lemma needs_epoch {B : Type} (k : Z → Tx B) :
  (∀ e, database_lease_epoch (af_lease_epoch f) = Ok e → needs_lease (k e)) →
  needs_lease (lift (database_lease_epoch (af_lease_epoch f)) ≫= k).
Proof. intros Hk s b s' (e & s1 & [He ->]%lift_Ok & H2)%tx_bind_Ok. by eapply Hk. Qed.

(** Without the lease the committed call fails and changes nothing, whatever
    would have followed it. *)
Lemma needs_lease_commit {A : Type} (t : Tx A) s :
  needs_lease t → fence_live s now f = false → ∃ e, commit t s = (Err e, s).
Proof.
  intros Ht Hs. unfold commit. destruct (t s) as [[a s']|e] eqn:E; [|by exists e].
  apply Ht in E. congruence.
Qed.

Lemma needs_lease_call {A : Type} (t : Tx A) s :
  needs_lease t → fence_live s now f = false → ∃ e, forget (commit t) s = (Err e, s).
Proof.
  intros Ht Hs. destruct (needs_lease_commit t s Ht Hs) as [e He]. exists e.
  unfold forget. by rewrite He.
Qed.

Lemma needs_lease_call_then {A B : Type} (t : Tx A) (k : A → Proc B) s :
  needs_lease t → fence_live s now f = false → ∃ e, forget (commit t ≫= k) s = (Err e, s).
Proof.
  intros Ht Hs. destruct (needs_lease_commit t s Ht Hs) as [e He]. exists e.
  unfold forget, mbind, proc_bind. by rewrite He.
Qed.
End needs.

(** [needs] walks a fenced transaction to its lock. *)
Ltac needs :=
  repeat match goal with
  | |- needs_lease _ _ (lock_attempt_context _ _) => apply needs_lock
  | |- needs_lease _ _ (lock_attempt_context _ _ ≫= _) => apply needs_bind_l
  | |- needs_lease _ _ (update_lease _ _ _ _) => by apply needs_update_lease
  | |- needs_lease _ _ (update_lease _ _ _ _ ≫= _) => apply needs_bind_l
  | |- needs_lease _ _ (lift (database_lease_epoch _) ≫= _) => apply needs_epoch; intros ? ?
  | |- needs_lease _ _ (lift _ ≫= _) => apply needs_bind_r; intros ?
  end.

(** ** Fences that are gone for good *)

(** The attempt moved past the fence's epoch, or ended. *)
Definition fenced_off (s : db) (f : AttemptFence) : Prop :=
  ∃ a, attempts s !! af_attempt_id f = Some a
    ∧ (af_lease_epoch f < ar_lease_epoch a ∨ ar_status a ≠ "running").

Lemma fenced_off_not_live s now f : fenced_off s f → fence_live s now f = false.
Proof.
  intros (a & Ha & Hgone). apply not_true_iff_false. rewrite fence_live_true.
  intros (b & Hb & _ & He & Hr & _). assert (b = a) as -> by congruence.
  destruct Hgone; [lia|done].
Qed.

Lemma insert_attempt_mono (A : gmap string AttemptRow) aid a a' k b :
  A !! aid = Some a → ar_status a = "running" → ar_lease_epoch a ≤ ar_lease_epoch a' → A !! k = Some b →
  ∃ b', <[aid := a']> A !! k = Some b' ∧ ar_lease_epoch b ≤ ar_lease_epoch b'
    ∧ (ar_status b ≠ "running" → b' = b).
Proof.
  intros Ha Har He Hb. destruct (decide (k = aid)) as [->|Hne].
  - exists a'. rewrite lookup_insert_eq. assert (b = a) as -> by congruence. done.
  - exists b. rewrite lookup_insert_ne by done. done.
Qed.

(** A rule never lowers an attempt's epoch, and never changes an attempt that
    has ended. *)
Lemma step_attempt_mono l l' k b :
  lifecycle_step l l' → lc_attempts l !! k = Some b →
  ∃ b', lc_attempts l' !! k = Some b' ∧ ar_lease_epoch b ≤ ar_lease_epoch b'
    ∧ (ar_status b ≠ "running" → b' = b).
Proof.
  intros Hstep Hb. destruct Hstep as
    [l jid j' N Hj Hid Hq Hap|l o j a now Ho Hj Hjs Hos Hpred Hf Hao Has He Hc Hn Hlt
    |l aid a o j now owner ex ra rc (Ha & Har & _) Hos He|l aid a ex Ha Har
    |l aid a o j now (Ha & Har & _) Hnc O'|l aid a o j now ra pl (Ha & Har & _) Hnc Hlt
    |l aid a o j now pl (Ha & Har & _) Hnc|l jid j now Hj Hjs Hrun|l jid j now Hj Hjs Hno
    |l aid a o j now pl (Ha & Har & _) Hc]; simpl;
    try (by exists b); try (eapply insert_attempt_mono; eauto; simpl; lia).
  exists b. rewrite lookup_insert_ne by congruence. done.
Qed.

Section fencing.
Context `{External}.

Lemma settle_needs_lease now new_id f st ck ev : needs_lease now f (settle_tx now new_id f st ck ev).
Proof. by intros s r s' [Hl _]%settle_tx_step. Qed.

(** A fenced call without the live lease is refused. *)
Lemma stale_call_refused now c f s :
  call_fence c = Some f → fence_live s now f = false →
  ∃ e, call now c s = (Err e, s).
Proof.
  intros Hc Hs.
  destruct c; simpl in Hc; simplify_eq; simpl.
  all: unfold acknowledge_job_cancellation, acknowledge_tx, renew_attempt, relinquish_attempt,
    append_correlation, save_checkpoint, put_thread_state, settle_attempt_with_event,
    append_attempt_event, ensure_execution_environment, reserve_execution_environment_locator,
    mark_execution_environment_ready, mark_execution_environment_failed,
    request_cancelling_execution_environment_release.
  all: first [eapply needs_lease_call_then | eapply needs_lease_call]; [|done]; needs.
  by apply settle_needs_lease.
Qed.

(** C3: fencing.  A fenced call whose fence does not hold the live lease of its
    attempt (another owner, an older epoch, a settled attempt, an expired
    lease) returns an error and leaves the database exactly as it was. *)
Theorem stale_fence_changes_nothing now c f s :
  call_fence c = Some f → fence_live s now f = false →
  ∃ e, call now c s = (Err e, s).
Proof. apply stale_call_refused. Qed.

Lemma fenced_off_exec now c s f : reachable s → fenced_off s f → fenced_off (exec now c s) f.
Proof.
  intros Hok%reachable_lifecycle_ok (a & Ha & Hgone).
  destruct (exec_step now c s Hok) as [[= _ _ E]|Hstep].
  - exists a. by rewrite E.
  - destruct (step_attempt_mono _ _ _ _ Hstep Ha) as (a' & Ha' & He & Hend).
    exists a'. split; [done|]. destruct Hgone as [Hlt|Hs]; [left; lia|right]. by rewrite Hend.
Qed.

Lemma fenced_off_run history s f : reachable s → fenced_off s f → fenced_off (run history s) f.
Proof.
  revert s. induction history as [|[now c] history IH]; intros s Hr Hf; simpl; [done|].
  apply IH; [by apply reachable_exec|by apply fenced_off_exec].
Qed.

(** C4: take-over is irrevocable.  When a claim hands out an attempt that
    already existed, every fence of that attempt from the previous epoch or
    earlier is dead in every later database: its holder can never write again,
    whatever calls follow and whatever the clock reads. *)
Theorem taken_over_fence_never_live_again now locked new_id scope request s lease s' a f history later :
  reachable s →
  claim_recovery now locked new_id scope request s = (Ok (Some lease), s') →
  attempts s !! af_attempt_id (rl_fence lease) = Some a →
  af_attempt_id f = af_attempt_id (rl_fence lease) → af_lease_epoch f ≤ ar_lease_epoch a →
  fence_live (run history s') later f = false.
Proof.
  intros Hr Hclaim Ha Hid He. apply fenced_off_not_live, fenced_off_run.
  { pose proof (reachable_exec now (ClaimRecovery locked new_id scope request) s Hr) as Hr'.
    unfold exec in Hr'. simpl in Hr'. rewrite forget_snd, Hclaim in Hr'. done. }
  apply claim_granted in Hclaim as (j & o & row & Hg); [|by apply reachable_lifecycle_ok].
  rewrite (gr_fence _ _ _ _ _ _ _ _ _ _ _ Hg) in Ha, Hid. simpl in *.
  exists row. rewrite Hid, (gr_attempts _ _ _ _ _ _ _ _ _ _ _ Hg), lookup_insert_eq. split; [done|left].
  destruct (gr_from _ _ _ _ _ _ _ _ _ _ _ Hg) as [Hn Hnone|b Hb _ _ _ Hep _]; [congruence|].
  assert (b = a) as -> by congruence. lia.
Qed.

(** settled attempts are final.  Once an attempt is no longer running its
    row never changes again, so every fence of it is dead for good. *)
Theorem settled_attempt_final history s k a :
  reachable s → attempts s !! k = Some a → ar_status a ≠ "running" →
  attempts (run history s) !! k = Some a.
Proof.
  revert s. induction history as [|[now c] history IH]; intros s Hr Ha Hs; simpl; [done|].
  apply IH; [by apply reachable_exec| |done]. apply reachable_lifecycle_ok in Hr as Hok.
  destruct (exec_step now c s Hok) as [[= _ _ ->]|Hstep]; [done|].
  destruct (step_attempt_mono _ _ _ _ Hstep Ha) as (a' & Ha' & _ & Hend). by rewrite <- (Hend Hs).
Qed.
End fencing.

(** ** Witnesses *)

#[local] Existing Instance demo_external.

(** The first worker's fence after the take-over. *)
Lemma stale_fence_changes_nothing_witness :
  ∃ e, call 6000001 (SettleAttempt "c" (demo_fence "a0" "w1" 1) SettleSucceeded None None) (demo taken_history)
       = (Err e, demo taken_history).
Proof.
  apply (stale_fence_changes_nothing 6000001 _ (demo_fence "a0" "w1" 1));
    [reflexivity|vm_compute; reflexivity].
Defined.

Lemma taken_over_fence_never_live_again_witness :
  fence_live (run [(6000002, RenewAttempt (demo_fence "a0" "w2" 2) 60)]
    (claim_recovery 6000000 ∅ "a1" ScopeAny (demo_request "w2") (demo running_history)).2)
    6000003 (demo_fence "a0" "w1" 1) = false.
Proof.
  eapply (taken_over_fence_never_live_again 6000000 ∅ "a1" ScopeAny (demo_request "w2") (demo running_history));
    [exact (demo_reachable running_history)|vm_compute; reflexivity|vm_compute; reflexivity
    |vm_compute; reflexivity|vm_compute; discriminate].
Defined.

Lemma settled_attempt_final_witness :
  ∃ a, attempts (run [(500, CancelJob "J")] (demo succeeded_history)) !! "a0" = Some a
    ∧ ar_status a = "succeeded".
Proof.
  eexists. split; [|shelve].
  eapply (settled_attempt_final [(500, CancelJob "J")] (demo succeeded_history) "a0");
    [exact (demo_reachable succeeded_history)|vm_compute; reflexivity|vm_compute; discriminate].
  Unshelve. vm_compute. reflexivity.
Defined.
