(* ===== verification/EventLog.v ===== *)
(** * The event log

    Events are appended in strictly increasing sequence, never changed or
    removed, unique per job and deduplication key, and read back completely by
    following page cursors. *)

From S2P Require Import Prelude Domain Rows Store Leases Events Environments Attempts Jobs Recovery Lifecycle Refinement System Safety.
From Stdlib Require Import ZArith Ascii String Sorted.
From stdpp Require Import base gmap strings list sorting.

#[local] Open Scope string_scope.
#[local] Open Scope Z_scope.
#[local] Open Scope list_scope.

Definition ev_sequence (e : EventRow) : Z := jer_sequence (ev_row e).
Definition ev_job (e : EventRow) : string := jer_job_id (ev_row e).

(** The two columns the log is kept in. *)
Definition log_of (s : db) : list EventRow * Z := (events s, next_sequence s).

(** One call's effect on the log: nothing, an identity value lost, or one event
    of an existing job appended under the next identity value. *)
Inductive log_move (s s' : db) : Prop :=
| log_same : log_of s' = log_of s → log_move s s'
| log_skip : log_of s' = (events s, next_sequence s + 1) → log_move s s'
| log_push row key :
    log_of s' = (events s ++ [mkEventRow row key], next_sequence s + 1) →
    jer_sequence row = next_sequence s → next_sequence s ≤ i64_max →
    is_Some (jobs s' !! jer_job_id row) →
    find_event (jer_job_id row) key s = None → log_move s s'.

Record log_ok (s : db) : Prop := {
  lg_sorted : StronglySorted Z.lt (ev_sequence <$> events s);
  lg_bound e : e ∈ events s → 1 ≤ ev_sequence e < next_sequence s ∧ ev_sequence e ≤ i64_max;
  lg_next : 1 ≤ next_sequence s;
  lg_job e : e ∈ events s → is_Some (jobs s !! ev_job e);
  lg_unique i1 e1 i2 e2 key : events s !! i1 = Some e1 → events s !! i2 = Some e2 →
    ev_job e1 = ev_job e2 → ev_deduplication_key e1 = Some key → ev_deduplication_key e2 = Some key →
    i1 = i2;
}.

Lemma StronglySorted_snoc (l : list Z) n :
  StronglySorted Z.lt l → (∀ x, x ∈ l → x < n) → StronglySorted Z.lt (l ++ [n]).
Proof.
  induction 1 as [|x l Hl IH Hx]; intros Hn; simpl; [by repeat constructor|].
  constructor; [apply IH; intros; apply Hn; by right|].
  apply Forall_app. split; [done|]. constructor; [apply Hn; left|constructor].
Qed.

Lemma find_event_None job_id key s e :
  find_event job_id (Some key) s = None → e ∈ events s → ev_job e = job_id →
  ev_deduplication_key e ≠ Some key.
Proof.
  simpl. intros Hf He Hj Hk. apply list_elem_of_In in He.
  pose proof (find_none _ _ Hf _ He) as Hh. unfold has_key, ev_job in *.
  by rewrite !bool_decide_eq_true_2 in Hh.
Qed.

Lemma log_ok_push row key s s' :
  log_ok s → (∀ k, is_Some (jobs s !! k) → is_Some (jobs s' !! k)) →
  log_of s' = (events s ++ [mkEventRow row key], next_sequence s + 1) →
  jer_sequence row = next_sequence s → next_sequence s ≤ i64_max →
  is_Some (jobs s' !! jer_job_id row) → find_event (jer_job_id row) key s = None → log_ok s'.
Proof.
  intros [Hsort Hb Hn Hj Hu] Hkeep [= Ee En] Hseq Hmax Hrow Hfind. split; rewrite ?Ee, ?En.
  - rewrite fmap_app. apply StronglySorted_snoc; [done|].
    intros x (e & -> & He)%list_elem_of_fmap. unfold ev_sequence at 2. simpl. apply Hb in He. lia.
  - intros e [He| ->%list_elem_of_singleton]%elem_of_app; [apply Hb in He; lia|].
    unfold ev_sequence. simpl. lia.
  - lia.
  - intros e [He| ->%list_elem_of_singleton]%elem_of_app; [by eapply Hkeep, Hj|done].
  - assert (∀ i e, (events s ++ [mkEventRow row key]) !! i = Some e →
              events s !! i = Some e ∨ i = length (events s) ∧ e = mkEventRow row key) as Hinv.
    { intros i e [Hi|[Hi He]]%lookup_app_Some; [by left|right].
      apply list_lookup_singleton_Some in He as [? <-]. split; [lia|done]. }
    assert (∀ i e k, events s !! i = Some e → ev_job e = jer_job_id row →
              key = Some k → ev_deduplication_key e ≠ Some k) as Hnew.
    { intros i e k Hi He ->. eapply find_event_None; eauto. by eapply list_elem_of_lookup_2. }
    intros i1 e1 i2 e2 k [H1|[-> ->]]%Hinv [H2|[-> ->]]%Hinv E K1 K2; [by eapply Hu| | |done].
    + by destruct (Hnew _ _ k H1 E).
    + by destruct (Hnew _ _ k H2 (eq_sym E)).
Qed.

Lemma log_ok_move s s' :
  log_ok s → (∀ k, is_Some (jobs s !! k) → is_Some (jobs s' !! k)) → log_move s s' → log_ok s'.
Proof.
  intros Hok Hkeep [[= Ee En]|[= Ee En]|row key E Hs Hm Hj Hf]; [| |by eapply log_ok_push];
    destruct Hok as [Hsort Hb Hn Hj Hu]; split; rewrite ?Ee, ?En; try done; try lia;
    try (intros e He; by eapply Hkeep, Hj).
  intros e He%Hb. lia.
Qed.

Section log.
Context `{External}.

Lemma exec_log_frames now c s :
  match c with
  | ContinueJob _ _ _ | SettleAttempt _ _ _ _ _ | AppendJobEvent _ | AppendAttemptEvent _ _ | SkipSequence => True
  | _ => log_of (exec now c s) = log_of s
  end.
Proof. unfold exec. destruct c; simpl; rewrite ?forget_snd; try done; frame_all. Qed.

(** ** The two inserts *)

Lemma append_job_event_move now e s : log_move s (append_job_event now e s).2.
Proof.
  unfold append_job_event. rewrite proc_lift_snd.
  match goal with |- context [commit ?t s] =>
    destruct (commit_snd t s) as [->|[r Ht]]; [by apply log_same|]; set (s' := (commit t s).2) in *; clearbody s' end.
  inv_tx. destruct (jobs s !! nje_job_id e) as [j|] eqn:Hj; [|inv_tx].
  unfold identity_available in *. inv_tx.
  match goal with H : checked_column _ _ = _ |- _ => apply checked_column_Ok in H as [-> ?] end.
  eapply log_push; [done|done|simpl; lia|simpl; by rewrite Hj|done].
Qed.

Lemma insert_attempt_event_move now ctx f e s r s' :
  insert_attempt_event now ctx f e s = Ok (r, s') → is_Some (jobs s !! ctx_job_id ctx) →
  log_move s s' ∧ jobs s' = jobs s.
Proof.
  intros Hs Hj. unfold insert_attempt_event, identity_available in Hs. inv_tx.
  match goal with H : checked_column _ _ = _ |- _ => apply checked_column_Ok in H as [-> ?] end.
  destruct (find_event _ _ _) as [ev|] eqn:Hf; inv_tx.
  - split; [by apply log_skip|done].
  - split; [|done]. eapply log_push; [done|done|simpl; lia|done|done].
Qed.

Lemma log_move_framed s s1 s' : log_of s1 = log_of s → log_move s1 s' → log_move s s'.
Proof.
  intros [= Ee En] [E|E|row key E Hs Hm Hj Hf].
  - apply log_same. unfold log_of in *. congruence.
  - apply log_skip. unfold log_of in *. congruence.
  - eapply (log_push _ _ row key); unfold log_of in *; try congruence. revert Hf. unfold find_event. by rewrite Ee.
Qed.

Lemma settle_outcome_frames {B : Type} (π : db → B) now f ctx st s s' :
  (∀ m s, π (set_attempts m s) = π s) → (∀ m s, π (set_operations m s) = π s) →
  (∀ m s, π (set_jobs m s) = π s) → (∀ m s, π (set_environments m s) = π s) →
  match st with
  | SettleSucceeded => settle_success now f ctx s = Ok (tt, s')
  | SettleFailed failure => settle_failure now f ctx failure s = Ok (tt, s')
  end → π s' = π s.
Proof.
  intros Ha Ho Hj He Hst.
  destruct st; unfold settle_success, settle_failure, update_attempt, update_operation, update_job,
    request_release_in_transaction, update_environment in Hst;
    (match type of Hst with ?t _ = _ => assert (frames π t) as F; [solve_frames|exact (F _ _ _ Hst)] end).
Qed.

Lemma settle_outcome_job now f ctx st s a o j s' :
  context_rows s f ctx a o j →
  match st with
  | SettleSucceeded => settle_success now f ctx s = Ok (tt, s')
  | SettleFailed failure => settle_failure now f ctx failure s = Ok (tt, s')
  end → is_Some (jobs s' !! ctx_job_id ctx).
Proof.
  intros [(_ & _ & _ & Hj) ->] Hst. simpl in *.
  assert (∀ g, is_Some (alter g (or_job_id o) (jobs s) !! or_job_id o)) as Halt.
  { intros g. rewrite lookup_alter_eq, Hj. by eexists. }
  destruct st as [|failure]; unfold settle_success, settle_failure, update_attempt, update_operation, update_job in Hst; inv_tx.
  - destruct (has_remaining _ _); inv_tx; [by exists j|].
    framed. injection E as -> _ _. apply Halt.
  - destruct (granted_retry _ _); inv_tx; [by exists j|]. framed. injection E as -> _ _. apply Halt.
Qed.

Lemma exec_log_move now c s : log_move s (exec now c s).
Proof.
  pose proof (exec_log_frames now c s) as E.
  destruct c; try (by apply log_same); clear E; unfold exec; simpl; rewrite ?forget_snd.
  - unfold continue_job, mbind, proc_bind, proc_lift, commit.
    destruct (guard_err _ _); [|by apply log_same].
    destruct (continue_tx _ _ _ _ s) as [[r s1]|e] eqn:Ht; [|by apply log_same]. simpl.
    eapply log_move_framed; [|apply append_job_event_move].
    assert (frames log_of (continue_tx now new_id job_id (trim feedback))) as F; [|by apply F in Ht].
    unfold continue_tx, update_job, reactivate_in_transaction.
    repeat first [ solve_frames_step | apply insert_continuation_frames; done ].
  - unfold settle_attempt_with_event.
    match goal with |- context [commit ?t s] =>
      destruct (commit_snd t s) as [->|[r Ht]]; [by apply log_same|]; set (s' := (commit t s).2) in *; clearbody s' end.
    apply settle_tx_Ok in Ht as (ctx & a & o & j & s1 & s2 & Hctx & _ & _ & Hck & Hst & Hev).
    assert (log_of s1 = log_of s ∧ lifecycle_of s1 = lifecycle_of s) as [E1 L1].
    { destruct checkpoint as [ck|]; [|by destruct Hck as [_ ->]]. destruct Hck as (_ & rec & _ & Hi).
      unfold insert_checkpoint in Hi. split.
      - match type of Hi with ?t _ = _ => assert (frames log_of t) as F by solve_frames; exact (F _ _ _ Hi) end.
      - match type of Hi with ?t _ = _ => assert (frames lifecycle_of t) as F by solve_frames; exact (F _ _ _ Hi) end. }
    assert (log_of s2 = log_of s) as E2.
    { rewrite <- E1. by eapply settle_outcome_frames. }
    destruct completion_event as [ev|]; [|subst; by apply log_same].
    destruct Hev as (_ & rec & Hev). eapply log_move_framed; [exact E2|].
    eapply insert_attempt_event_move; [done|]. eapply settle_outcome_job; [|done]. by eapply context_rows_core.
  - apply append_job_event_move.
  - unfold append_attempt_event.
    match goal with |- context [commit ?t s] =>
      destruct (commit_snd t s) as [->|[r Ht]]; [by apply log_same|]; set (s' := (commit t s).2) in *; clearbody s' end.
    inv_tx. match goal with H : lock_attempt_context _ _ _ = _ |- _ =>
      apply lock_context_rows in H as (-> & _ & a & o & j & (_ & _ & _ & Hj) & ->) end.
    eapply insert_attempt_event_move; [done|]. by exists j.
  - by apply log_skip.
Qed.

(** ** Reachable logs *)

Lemma exec_job_kept now c s k : reachable s → is_Some (jobs s !! k) → is_Some (jobs (exec now c s) !! k).
Proof.
  intros Hok%reachable_lifecycle_ok [j Hj]. destruct (exec_step now c s Hok) as [[= -> _ _]|Hstep]; [by exists j|].
  destruct (step_job_next _ _ _ _ Hok Hstep Hj) as (j' & Hj' & _). by exists j'.
Qed.

Lemma reachable_log_ok s : reachable s → log_ok s.
Proof.
  revert s. apply (reachable_rect log_ok).
  - split; simpl; try done; [constructor|by intros e []%not_elem_of_nil|by intros e []%not_elem_of_nil].
  - intros now c s Hr Hok. eapply log_ok_move; [done| |apply exec_log_move].
    intros k. by apply exec_job_kept.
Qed.

Lemma run_log_suffix history s : ∃ suffix, events (run history s) = events s ++ suffix.
Proof.
  revert s. induction history as [|[now c] history IH]; intros s; simpl; [exists []; by rewrite app_nil_r|].
  destruct (IH (exec now c s)) as [suffix ->].
  destruct (exec_log_move now c s) as [[= -> _]|[= -> _]|row key [= -> _]]; eauto.
  exists ([mkEventRow row key] ++ suffix). by rewrite (assoc_L (++)).
Qed.
End log.

(** ** Pages *)

(** The events of a job in the order of the log. *)
Definition job_events (job_id : string) (s : db) : list JobEventRow :=
  List.filter (λ r, bool_decide (jer_job_id r = job_id)) (ev_row <$> events s).

Definition event_record (r : JobEventRow) : JobEventRecord :=
  mkJobEventRecord (jer_sequence r) (jer_job_id r) (jer_operation_id r) (jer_attempt_id r)
    (jer_kind r) (jer_payload r) (jer_created_at r).

(** Following the cursors of successive pages until an empty page. *)
Fixpoint read_pages (fuel : nat) (job_id : string) (limit after : Z) (s : db) : Result (list JobEventRecord) :=
  match fuel with
  | O => Ok []
  | S n =>
      page ← (list_job_events job_id after limit s).1;
      if decide (jp_events page = []) then Ok [] else
      rest ← read_pages n job_id limit (jp_next_cursor page) s;
      Ok (jp_events page ++ rest)
  end.

Abbreviation seq_sorted := (StronglySorted (λ a b : JobEventRow, jer_sequence a < jer_sequence b)).

Lemma page_order_sorted (l : list JobEventRow) :
  seq_sorted l → order_by (λ a b, jer_sequence a <? jer_sequence b) l = l.
Proof.
  unfold order_by. induction 1 as [|x l Hl IH Hx]; [done|]. cbn [foldr]. rewrite IH.
  destruct l as [|y r]; [done|]. cbn.
  apply Forall_cons in Hx as [Hx _]. by rewrite (proj2 (Z.ltb_ge _ _)) by lia.
Qed.

Lemma sorted_filter (p : JobEventRow → bool) l : seq_sorted l → seq_sorted (List.filter p l).
Proof.
  induction 1 as [|x l Hl IH Hx]; cbn; [constructor|]. destruct (p x); [|done].
  constructor; [done|]. apply Forall_forall. intros y [Hy _]%list_elem_of_In%filter_In.
  apply list_elem_of_In in Hy. by eapply Forall_forall in Hx.
Qed.

Lemma filter_all {A : Type} (p : A → bool) l : (∀ x, x ∈ l → p x = true) → List.filter p l = l.
Proof.
  induction l as [|x l IH]; intros Hp; cbn; [done|]. rewrite Hp by left. f_equal. apply IH.
  intros y Hy. apply Hp. by right.
Qed.

(** The rows past the last row of a page are the rows after the page. *)
Lemma filter_after_page (l : list JobEventRow) n x :
  seq_sorted l → last (take n l) = Some x →
  List.filter (λ r, jer_sequence x <? jer_sequence r) l = drop n l.
Proof.
  intros Hl. revert n. induction Hl as [|y l Hl IH Hy]; intros [|n]; cbn; try done.
  rewrite last_cons. intros Hlast. destruct (last (take n l)) as [z|] eqn:E; injection Hlast as <-.
  - assert (jer_sequence y < jer_sequence z) as Hlt.
    { apply last_Some_elem_of, subseteq_take in E. by eapply Forall_forall in Hy. }
    rewrite (proj2 (Z.ltb_ge _ _)) by lia. by apply IH.
  - rewrite Z.ltb_irrefl. apply last_None in E. rewrite filter_all.
    + destruct n, l; done.
    + intros z Hz. apply Z.ltb_lt. by eapply Forall_forall in Hy.
Qed.

Lemma filter_andb {A : Type} (p q : A → bool) l :
  List.filter (λ x, p x && q x) l = List.filter q (List.filter p l).
Proof.
  induction l as [|x l IH]; cbn; [done|]. destruct (p x); cbn; [|done]. by destruct (q x); rewrite IH.
Qed.

Lemma filter_above (l : list JobEventRow) a b :
  a ≤ b → List.filter (λ r, b <? jer_sequence r) (List.filter (λ r, a <? jer_sequence r) l)
          = List.filter (λ r, b <? jer_sequence r) l.
Proof.
  intros Hab. rewrite <- filter_andb. apply List.filter_ext. intros r.
  destruct (b <? jer_sequence r) eqn:E; [|apply andb_false_r].
  apply Z.ltb_lt in E. by rewrite (proj2 (Z.ltb_lt _ _)) by lia.
Qed.

Lemma job_events_sorted job_id s : log_ok s → seq_sorted (job_events job_id s).
Proof.
  intros Hok. apply sorted_filter. pose proof (lg_sorted _ Hok) as Hs. clear Hok.
  induction (events s) as [|e l IH]; cbn in *; [constructor|].
  apply StronglySorted_inv in Hs as [Hs Hx]. constructor; [by apply IH|].
  apply Forall_forall. intros r (e' & -> & He')%list_elem_of_fmap.
  rewrite Forall_forall in Hx. apply (Hx (ev_sequence e')). by apply list_elem_of_fmap_2.
Qed.

Lemma job_events_bound job_id s r : log_ok s → r ∈ job_events job_id s → 1 ≤ jer_sequence r ≤ i64_max.
Proof.
  intros Hok [Hr _]%list_elem_of_In%filter_In. apply list_elem_of_In, list_elem_of_fmap in Hr as (e & -> & He).
  apply (lg_bound _ Hok) in He. unfold ev_sequence in He. lia.
Qed.

Lemma map_result_total {E A B : Type} (f : A → result E B) (g : A → B) l :
  (∀ x, x ∈ l → f x = Ok (g x)) → map_result f l = Ok (g <$> l).
Proof.
  intros Hf. apply map_result_Ok. induction l as [|x l IH]; cbn; constructor.
  - apply Hf. left.
  - apply IH. intros y Hy. apply Hf. by right.
Qed.

(** A page is the next rows of the job past the cursor. *)
Lemma list_job_events_page job_id after limit s :
  log_ok s → is_Some (jobs s !! job_id) → 1 ≤ limit ≤ 1000 → 0 ≤ after ≤ i64_max →
  let rows := take (Z.to_nat limit) (List.filter (λ r, after <? jer_sequence r) (job_events job_id s)) in
  list_job_events job_id after limit s =
    (Ok (mkJobEventPage (event_record <$> rows)
           (match last rows with Some r => jer_sequence r | None => after end)), s).
Proof.
  intros Hok Hj Hlim Haft rows. unfold list_job_events, commit, mbind, tx_bind.
  unfold lift at 1, guard_err. rewrite (proj2 (Z.eqb_neq limit 0)), (proj2 (Z.ltb_ge 1000 limit)) by lia. simpl.
  rewrite bool_decide_eq_true_2 by done. simpl.
  unfold database_sequence, i64_try_from.
  rewrite try_range_in by (unfold i64_min, i64_max in *; lia). simpl.
  assert (page_rows job_id after (Z.to_nat limit) s = rows) as ->.
  { unfold page_rows, rows. f_equal. rewrite filter_andb. apply page_order_sorted, sorted_filter.
    by apply job_events_sorted. }
  unfold lift. rewrite (map_result_total _ event_record).
  - simpl. unfold mret, tx_ret. do 3 f_equal. rewrite fmap_last. by destruct (last rows).
  - intros r Hr. apply subseteq_take, list_elem_of_In, filter_In in Hr as [Hr%list_elem_of_In _].
    apply job_events_bound in Hr; [|done]. unfold JobEventRecord_try_from, to_u64, u64_try_from.
    rewrite try_range_in by (unfold u64_max, i64_max in *; lia). done.
Qed.

(** Inserting an attempt event leaves it in the log, whether it was new or
    already there. *)
Lemma insert_attempt_event_stored now ctx f e s r s' key :
  insert_attempt_event now ctx f e s = Ok (r, s') → nae_deduplication_key e = Some key →
  ∃ ev, ev ∈ events s' ∧ ev_job ev = ctx_job_id ctx ∧ ev_deduplication_key ev = Some key
    ∧ jer_kind (ev_row ev) = nae_kind e ∧ jer_payload (ev_row ev) = nae_payload e
    ∧ JobEventRecord_try_from (ev_row ev) = Ok r.
Proof.
  intros Hs Hk. unfold insert_attempt_event, identity_available in Hs. inv_tx.
  destruct (find_event _ _ _) as [ev|] eqn:Hf; inv_tx.
  - match goal with H : negb (_ && _) = false |- _ =>
      apply negb_false_iff, andb_true_iff in H as [E1%bool_decide_eq_true E2%bool_decide_eq_true] end.
    rewrite Hk in Hf. apply find_some in Hf as [Hin%list_elem_of_In Hkey].
    apply andb_true_iff in Hkey as [K1%bool_decide_eq_true K2%bool_decide_eq_true]. exists ev. done.
  - eexists (mkEventRow _ _). split; [simpl; apply elem_of_app; right; left|]. done.
Qed.

(** Repeating a stored event finds the stored row again. *)
Lemma insert_attempt_event_repeat now ctx f e s r key ev :
  log_ok s → next_sequence s ≤ i64_max → nae_deduplication_key e = Some key →
  validate_event_kind (nae_kind e) = Ok tt → validate_deduplication_key (nae_deduplication_key e) = Ok tt →
  ev ∈ events s → ev_job ev = ctx_job_id ctx → ev_deduplication_key ev = Some key →
  jer_kind (ev_row ev) = nae_kind e → jer_payload (ev_row ev) = nae_payload e →
  JobEventRecord_try_from (ev_row ev) = Ok r →
  insert_attempt_event now ctx f e s = Ok (r, set_events (events s) (next_sequence s + 1) s).
Proof.
  intros Hok Hmax Hk Hv1 Hv2 Hin Hj Hkey Hkind Hpay Hrec.
  assert (find_event (ctx_job_id ctx) (nae_deduplication_key e) s = Some ev) as Hf.
  { rewrite Hk. simpl. destruct (List.find _ _) as [ev'|] eqn:Hf.
    - apply find_some in Hf as [Hin'%list_elem_of_In Hh].
      apply andb_true_iff in Hh as [K1%bool_decide_eq_true K2%bool_decide_eq_true].
      apply list_elem_of_lookup_1 in Hin as [i1 H1], Hin' as [i2 H2].
      assert (i1 = i2) as -> by (eapply (lg_unique _ Hok); eauto; unfold ev_job in *; congruence). congruence.
    - by destruct (find_event_None _ key _ ev Hf Hin Hj). }
  unfold insert_attempt_event, identity_available, mbind, tx_bind, lift, gets, modify, mret, tx_ret.
  rewrite Hv1, Hv2. pose proof (lg_next _ Hok).
  rewrite (proj2 (checked_column_Ok _ _ (next_sequence s))) by (unfold i64_max in *; split; [done|lia]).
  cbn beta iota. rewrite Hf, Hkind, Hpay, !bool_decide_eq_true_2 by done. cbn. by rewrite Hrec.
Qed.

Section log_theorems.
Context `{External}.

(** C12: the event log invariant.  In every reachable database the sequences
    strictly increase along the log, lie between 1 and the next identity value,
    every event belongs to an existing job, and no two events of a job share a
    deduplication key. *)
Theorem event_log_invariant s : reachable s → log_ok s.
Proof. apply reachable_log_ok. Qed.

(** the log is append-only.  Whatever calls follow, the stored events stay
    as they are and every later event has a larger sequence than all of them,
    so an exclusive cursor never hides an event that is added later. *)
Theorem event_log_append_only history s :
  reachable s →
  ∃ suffix, events (run history s) = events s ++ suffix
    ∧ ∀ e0 e, e0 ∈ events s → e ∈ suffix → ev_sequence e0 < ev_sequence e.
Proof.
  intros Hr. destruct (run_log_suffix history s) as [suffix E]. exists suffix. split; [done|].
  pose proof (lg_sorted _ (reachable_log_ok _ (reachable_run history s Hr))) as Hs.
  rewrite E, fmap_app in Hs. intros e0 e H0 He.
  eapply (StronglySorted_app_1_elem_of Z.lt); [exact Hs|by apply list_elem_of_fmap_2..].
Qed.

(** pages cover the log.  Reading a job's events page by page from cursor 0,
    with any page limit the call accepts, returns every event of the job exactly
    once, in sequence order, and ends with an empty page. *)
Theorem read_pages_complete fuel job_id limit s :
  reachable s → is_Some (jobs s !! job_id) → 1 ≤ limit ≤ 1000 →
  (length (job_events job_id s) < fuel)%nat →
  read_pages fuel job_id limit 0 s = Ok (event_record <$> job_events job_id s).
Proof.
  intros Hr Hj Hlim Hfuel. apply reachable_log_ok in Hr as Hok.
  assert (∀ after, 0 ≤ after ≤ i64_max →
            (length (List.filter (λ r, (after <? jer_sequence r)%Z) (job_events job_id s)) < fuel)%nat →
            read_pages fuel job_id limit after s
            = Ok (event_record <$> List.filter (λ r, after <? jer_sequence r) (job_events job_id s))) as Hgen.
  { clear Hfuel. induction fuel as [|n IH]; intros after Haft Hlen; [lia|]. cbn [read_pages].
    rewrite list_job_events_page by done. set (L := List.filter _ (job_events job_id s)) in *.
    cbn [fst]. unfold mbind at 1, result_bind at 1. cbn [jp_events jp_next_cursor].
    assert (seq_sorted L) as HL by (by apply sorted_filter, job_events_sorted).
    destruct (last (take (Z.to_nat limit) L)) as [x|] eqn:Hlast.
    - rewrite decide_False by (intros E%fmap_nil_inv; by rewrite E in Hlast).
      assert (x ∈ L) as Hx by (by eapply subseteq_take, last_Some_elem_of).
      assert (after < jer_sequence x ≤ i64_max) as Hxb.
      { apply list_elem_of_In, filter_In in Hx as [Hx%list_elem_of_In Hlt%Z.ltb_lt].
        pose proof (job_events_bound _ _ _ Hok Hx). lia. }
      assert (List.filter (λ r, jer_sequence x <? jer_sequence r) (job_events job_id s)
              = drop (Z.to_nat limit) L) as Hdrop.
      { rewrite <- (filter_after_page L _ x) by done. unfold L. by rewrite filter_above by lia. }
      rewrite IH; [|lia|].
      + cbn. rewrite Hdrop, <- fmap_app. by rewrite take_drop.
      + rewrite Hdrop, length_drop.
        assert (L ≠ []) by (intros E; rewrite E in Hx; by apply not_elem_of_nil in Hx).
        destruct L; [done|]. simpl in *. lia.
    - apply last_None in Hlast. rewrite Hlast. cbn.
      assert (L = []) as -> by (destruct (Z.to_nat limit) eqn:E; [lia|]; by destruct L). done. }
  specialize (Hgen 0). rewrite filter_all in Hgen; [apply Hgen; [unfold i64_max; lia|done]|].
  intros r Hin. apply Z.ltb_lt. pose proof (job_events_bound _ _ _ Hok Hin). lia.
Qed.

(** Deduplicated events are idempotent.  Once an attempt event with a
    deduplication key is recorded, recording the same event again for the same
    job (after any calls, from any later lease, even of another attempt) returns
    the first record and adds no event. *)
Theorem append_attempt_event_idempotent now f e key s r s1 history now2 f2 a2 o2 :
  reachable s → nae_deduplication_key e = Some key →
  append_attempt_event now f e s = (Ok r, s1) →
  let s2 := run history s1 in
  fence_live s2 now2 f2 = true → attempts s2 !! af_attempt_id f2 = Some a2 →
  operations s2 !! ar_operation_id a2 = Some o2 → or_job_id o2 = je_job_id r →
  next_sequence s2 ≤ i64_max →
  (append_attempt_event now2 f2 e s2).1 = Ok r
  ∧ events (append_attempt_event now2 f2 e s2).2 = events s2.
Proof.
  intros Hr Hk Happ s2 Hlive Ha2 Ho2 Hjob Hmax.
  assert (reachable s2) as Hr2.
  { apply reachable_run. pose proof (reachable_exec now (AppendAttemptEvent f e) s Hr) as Hr1.
    unfold exec in Hr1. simpl in Hr1. by rewrite forget_snd, Happ in Hr1. }
  unfold append_attempt_event in Happ. apply commit_Ok in Happ.
  apply tx_bind_Ok in Happ as (ctx & s0 & _ & Hins).
  assert (validate_event_kind (nae_kind e) = Ok tt
          ∧ validate_deduplication_key (nae_deduplication_key e) = Ok tt) as [Hv1 Hv2].
  { unfold insert_attempt_event in Hins. inv_tx.
    repeat match goal with u : unit |- _ => destruct u end. done. }
  destruct (insert_attempt_event_stored _ _ _ _ _ _ _ _ Hins Hk)
    as (ev & Hin & Hj & Hkey & Hkind & Hpay & Hrec).
  destruct (lock_attempt_context_live now2 f2 s2) as (ctx2 & a & o & j & [(Ha & _ & Ho & _) Hctx] & Hlock);
    [by apply reachable_lifecycle_ok|done|].
  simpl in Ha, Ho. assert (a = a2) as -> by congruence. assert (o = o2) as -> by congruence.
  assert (ctx_job_id ctx2 = ev_job ev) as Hsame.
  { rewrite Hctx. simpl. rewrite Hjob. unfold JobEventRecord_try_from in Hrec. inv_tx. done. }
  assert (append_attempt_event now2 f2 e s2
          = (Ok r, set_events (events s2) (next_sequence s2 + 1) s2)) as ->; [|done].
  apply commit_Ok, tx_bind_Ok. exists ctx2, s2. split; [done|].
  apply (insert_attempt_event_repeat _ _ _ _ _ _ key ev); try done; [by apply reachable_log_ok|].
  destruct (run_log_suffix history s1) as [suffix E]. unfold s2. rewrite E. apply elem_of_app. by left.
Qed.
End log_theorems.

(** ** Witnesses *)

#[local] Existing Instance demo_external.

Lemma event_log_invariant_witness : log_ok (demo succeeded_history).
Proof. apply event_log_invariant. exact (demo_reachable succeeded_history). Defined.

Lemma event_log_append_only_witness :
  ∃ suffix, events (run (demo_stage 2) (demo (created_history ++ demo_stage 0 ++ demo_stage 1)))
            = events (demo (created_history ++ demo_stage 0 ++ demo_stage 1)) ++ suffix
    ∧ ∀ e0 e, e0 ∈ events (demo (created_history ++ demo_stage 0 ++ demo_stage 1)) → e ∈ suffix →
        ev_sequence e0 < ev_sequence e.
Proof.
  apply event_log_append_only. exact (demo_reachable (created_history ++ demo_stage 0 ++ demo_stage 1)).
Defined.

(** Four events read in pages of three. *)
Lemma read_pages_complete_witness :
  length (job_events "J" (demo succeeded_history)) = 4%nat
  ∧ read_pages 5 "J" 3 0 (demo succeeded_history) = Ok (event_record <$> job_events "J" (demo succeeded_history)).
Proof.
  split; [vm_compute; reflexivity|]. apply read_pages_complete.
  - exact (demo_reachable succeeded_history).
  - vm_compute. eexists. reflexivity.
  - lia.
  - vm_compute. lia.
Defined.

Definition demo_event : NewAttemptEvent := mkNewAttemptEvent "progress" (Bool true) (Some "k").

(** Recorded by the first worker, repeated by the second one after the
    take-over. *)
Lemma append_attempt_event_idempotent_witness :
  ∃ r, (append_attempt_event 20 (demo_fence "a0" "w1" 1) demo_event (demo running_history)).1 = Ok r
    ∧ (append_attempt_event 6000001 (demo_fence "a0" "w2" 2) demo_event
        (run [(6000000, ClaimRecovery ∅ "a1" ScopeAny (demo_request "w2"))]
          (append_attempt_event 20 (demo_fence "a0" "w1" 1) demo_event (demo running_history)).2)).1 = Ok r.
Proof.
  eexists. split; [vm_compute; reflexivity|].
  eapply (append_attempt_event_idempotent 20 (demo_fence "a0" "w1" 1) demo_event "k" (demo running_history) _ _
    [(6000000, ClaimRecovery ∅ "a1" ScopeAny (demo_request "w2"))] 6000001 (demo_fence "a0" "w2" 2));
    [exact (demo_reachable running_history)|vm_compute; reflexivity..|vm_compute; discriminate].
Defined.
