(* ===== verification/EnvironmentLaws.v ===== *)
(** * The life of an execution environment

    Every call moves a job's environment along one state machine: active
    (provisioning, ready, failed), released (releasing, released), and back to
    active only through a continuation, under the next generation and after the
    release finished.  A terminal job's environment is always wanted released,
    and a caller with an old generation changes nothing. *)

From S2P Require Import Prelude Domain Rows Store Leases Events Environments Attempts Jobs Recovery Lifecycle Refinement System Safety Fencing EventLog.
From Stdlib Require Import ZArith Ascii String Sorted.
From stdpp Require Import base gmap strings list.

#[local] Open Scope string_scope.
#[local] Open Scope Z_scope.
#[local] Open Scope list_scope.

(** ** Checkpoints *)

Record checkpoints_ok (s : db) : Prop := {
  ck_key k c : checkpoints s !! k = Some c → ckr_checkpoint_id c = k;
  ck_sequence k c : checkpoints s !! k = Some c → 1 ≤ ckr_sequence c ≤ i64_max;
  ck_attempt k c : checkpoints s !! k = Some c → is_Some (attempts s !! ckr_attempt_id c);
  ck_unique k1 c1 k2 c2 : checkpoints s !! k1 = Some c1 → checkpoints s !! k2 = Some c2 →
    ckr_attempt_id c1 = ckr_attempt_id c2 → ckr_sequence c1 = ckr_sequence c2 → k1 = k2;
}.

(** The checkpoint an insert adds: its sequence is one past the attempt's
    highest. *)
Lemma insert_checkpoint_Ok now id c s r s' :
  insert_checkpoint now id c s = Ok (r, s') →
  ∃ row, checkpoints s !! id = None ∧ s' = set_checkpoints (<[id := row]> (checkpoints s)) s
    ∧ ckr_checkpoint_id row = id ∧ ckr_attempt_id row = nc_attempt_id c
    ∧ ckr_sequence row = max_of 0 (ckr_sequence <$> attempt_checkpoints (nc_attempt_id c) s) + 1
    ∧ ckr_sequence row ≤ i64_max ∧ CheckpointRecord_try_from row = Ok r
    ∧ ckr_kind row = nc_kind c ∧ ckr_payload row = nc_payload c.
Proof.
  unfold insert_checkpoint. intros Hs. inv_tx.
  match goal with H : match nc_correlation_id c with Some _ => _ | None => _ end s = Ok (_, ?x) |- _ =>
    assert (x = s) as -> by (destruct (nc_correlation_id c); by inv_tx); clear H end.
  match goal with H : insert_unique _ _ _ = _ |- _ => apply insert_unique_Ok in H as [Hnone ->] end.
  match goal with H : checked_column _ _ = _ |- _ => apply checked_column_Ok in H as [-> Hle] end.
  eexists. split_and!; eauto; simpl; lia.
Qed.

Lemma attempt_checkpoints_max s id k c :
  checkpoints s !! k = Some c → ckr_attempt_id c = id →
  ckr_sequence c ≤ max_of 0 (ckr_sequence <$> attempt_checkpoints id s).
Proof.
  intros Hc Hid. apply max_of_ge, list_elem_of_fmap_2, elem_of_select_rows.
  split; [eauto|by apply bool_decide_eq_true].
Qed.

Lemma max_of_nonneg l : (∀ x, x ∈ l → 0 ≤ x) → 0 ≤ max_of 0 l.
Proof.
  intros Hl. destruct (decide (l = [])) as [->|Hne]; [done|]. by apply Hl, max_of_elem.
Qed.

Lemma insert_checkpoint_ok now id c s r s' :
  checkpoints_ok s → is_Some (attempts s !! nc_attempt_id c) →
  insert_checkpoint now id c s = Ok (r, s') → checkpoints_ok s'.
Proof.
  intros Hok Hatt (row & Hnone & -> & Hid & Ha & Hseq & Hle & _)%insert_checkpoint_Ok.
  assert (0 ≤ max_of 0 (ckr_sequence <$> attempt_checkpoints (nc_attempt_id c) s)) as Hpos.
  { apply max_of_nonneg. intros x (ck & -> & [[k Hk] _]%elem_of_select_rows)%list_elem_of_fmap.
    pose proof (ck_sequence _ Hok _ _ Hk). lia. }
  split; simpl.
  - intros k d [[<- <-]|[_ Hd]]%lookup_insert_Some; [done|by apply (ck_key _ Hok)].
  - intros k d [[<- <-]|[_ Hd]]%lookup_insert_Some; [lia|by apply (ck_sequence _ Hok k)].
  - intros k d [[<- <-]|[_ Hd]]%lookup_insert_Some; [by rewrite Ha|by apply (ck_attempt _ Hok k)].
  - intros k1 c1 k2 c2 [[<- <-]|[_ H1]]%lookup_insert_Some [[<- <-]|[_ H2]]%lookup_insert_Some E1 E2;
      [done| | |by eapply (ck_unique _ Hok)].
    + pose proof (attempt_checkpoints_max _ (nc_attempt_id c) _ _ H2). rewrite <- Ha in *.
      specialize (H (eq_sym E1)). lia.
    + pose proof (attempt_checkpoints_max _ (nc_attempt_id c) _ _ H1). rewrite <- Ha in *.
      specialize (H E1). lia.
Qed.

Section reachable_tables.
Context `{External}.

Lemma exec_attempt_kept now c s k :
  reachable s → is_Some (attempts s !! k) → is_Some (attempts (exec now c s) !! k).
Proof.
  intros Hok%reachable_lifecycle_ok [a Ha]. destruct (exec_step now c s Hok) as [[= _ _ ->]|Hstep]; [by exists a|].
  destruct (step_attempt_mono _ _ _ _ Hstep Ha) as (a' & Ha' & _). by exists a'.
Qed.

Lemma checkpoints_ok_frame s s' :
  checkpoints s' = checkpoints s → (∀ k, is_Some (attempts s !! k) → is_Some (attempts s' !! k)) →
  checkpoints_ok s → checkpoints_ok s'.
Proof.
  intros E Hatt [Hk Hs Ha Hu]. split; rewrite E; try done. intros k c Hc. by eapply Hatt, Ha.
Qed.

Lemma validate_checkpoint_attempt f c u :
  validate_checkpoint f c = Ok u → nc_attempt_id c = af_attempt_id f.
Proof.
  unfold validate_checkpoint. intros Hv. inv_tx.
  match goal with H : negb (bool_decide (nc_attempt_id _ = _)) = false |- _ =>
    by apply negb_false_iff, bool_decide_eq_true in H end.
Qed.

Lemma lock_attempt_exists now f s ctx s' :
  lock_attempt_context now f s = Ok (ctx, s') → s' = s ∧ is_Some (attempts s !! af_attempt_id f).
Proof. intros (-> & _ & a & o & j & Ha & _)%lock_attempt_context_Ok. by rewrite Ha. Qed.

Lemma settle_checkpoints now i f st ck ev s r s' :
  settle_tx now i f st ck ev s = Ok (r, s') → checkpoints_ok s →
  (∀ k, is_Some (attempts s !! k) → is_Some (attempts s' !! k)) → checkpoints_ok s'.
Proof.
  intros (ctx & a & o & j & s1 & s2 & [Hruns _] & _ & _ & Hck & Hst & Hev)%settle_tx_Ok Hok Hatt.
  assert (checkpoints s2 = checkpoints s1) as E2.
  { destruct st; unfold settle_success, settle_failure, update_attempt, update_operation, update_job,
      request_release_in_transaction, update_environment in Hst;
      (match type of Hst with ?t _ = _ => assert (frames checkpoints t) as F by solve_frames; exact (F _ _ _ Hst) end). }
  assert (checkpoints s' = checkpoints s2) as E3.
  { destruct ev; [|by subst]. destruct Hev as (_ & rec & Hev). unfold insert_attempt_event, identity_available in Hev.
    match type of Hev with ?t _ = _ => assert (frames checkpoints t) as F by solve_frames; exact (F _ _ _ Hev) end. }
  assert (checkpoints_ok s1 ∧ attempts s1 = attempts s) as [Hok1 Ea].
  { destruct ck as [c|]; [|destruct Hck as [_ ->]; done]. destruct Hck as (Hv & rec & _ & Hi).
    split.
    - eapply insert_checkpoint_ok; eauto. rewrite (validate_checkpoint_attempt _ _ _ Hv).
      destruct Hruns as (Ha & _). by exists a.
    - apply insert_checkpoint_Ok in Hi as (row & _ & -> & _). done. }
  apply (checkpoints_ok_frame s1); [congruence| |done]. rewrite Ea. done.
Qed.

Lemma reachable_checkpoints_ok s : reachable s → checkpoints_ok s.
Proof.
  revert s. apply (reachable_rect checkpoints_ok); [split; simpl; intros; simplify_map_eq|].
  intros now c s Hr Hok. pose proof (exec_attempt_kept now c s) as Hatt.
  pose proof (exec_checkpoints now c s) as E.
  destruct c; try (apply (checkpoints_ok_frame s); auto; fail); clear E; unfold exec in *; simpl in *;
    rewrite forget_snd in *.
  - unfold save_checkpoint in *. match goal with |- context [commit ?t s] =>
      destruct (commit_snd t s) as [->|[r Ht]]; [done|] end. inv_tx.
    match goal with H : lock_attempt_context _ _ _ = _ |- _ => apply lock_attempt_exists in H as [-> Hl] end.
    eapply insert_checkpoint_ok; eauto. by erewrite validate_checkpoint_attempt.
  - unfold settle_attempt_with_event in *. match goal with |- context [commit ?t s] =>
      destruct (commit_snd t s) as [->|[r Ht]]; [done|] end.
    eapply settle_checkpoints; eauto.
Qed.
End reachable_tables.

Definition env_state (e : ExecutionEnvironmentRow) : string * string := (eer_desired_state e, eer_status e).

Definition env_state_ok (e : ExecutionEnvironmentRow) : Prop :=
  env_state e ∈ [("active", "provisioning"); ("active", "ready"); ("active", "failed");
                 ("released", "releasing"); ("released", "released")].

(** Transitions inside one generation. *)
Definition env_state_next (x y : string * string) : Prop :=
  y = x ∨ (x.1 = "active" ∧ y ∈ [("active", "ready"); ("active", "failed"); ("released", "releasing")])
  ∨ (x.1 = "released" ∧ y = ("released", "released")).

(** A step inside one generation keeps the environment's identity. *)
Record env_step (e e' : ExecutionEnvironmentRow) : Prop := {
  es_job : eer_job_id e' = eer_job_id e;
  es_id : eer_environment_id e' = eer_environment_id e;
  es_backend : eer_backend e' = eer_backend e;
  es_generation : eer_generation e' = eer_generation e;
  es_state : env_state_next (env_state e) (env_state e');
}.

(** A continuation reopens a released environment under the next generation,
    with nothing of the old backend resource left. *)
Record env_reactivated (e e' : ExecutionEnvironmentRow) : Prop := {
  er_job : eer_job_id e' = eer_job_id e;
  er_id : eer_environment_id e' = eer_environment_id e;
  er_backend : eer_backend e' = eer_backend e;
  er_from : env_state e = ("released", "released");
  er_to : env_state e' = ("active", "provisioning");
  er_generation : eer_generation e' = eer_generation e + 1;
  er_bound : eer_generation e' ≤ i64_max;
  er_ref : eer_backend_ref e' = None ∧ eer_url e' = None;
}.

Lemma env_step_refl e : env_step e e.
Proof. split; try done. by left. Qed.

(** A job that is not in a terminal state. *)
Definition job_open (s : db) (job_id : string) : Prop :=
  ∃ j, jobs s !! job_id = Some j ∧ terminal_status (jr_status j) = false.

(** One call's effect on the environments. *)
Inductive env_change (continues : bool) (s s' : db) : Prop :=
| env_same : environments s' = environments s → env_change continues s s'
| env_set job_id e e' :
    environments s !! job_id = Some e → env_step e e' →
    environments s' = <[job_id := e']> (environments s) → env_change continues s s'
| env_reactivate job_id e e' :
    continues = true → environments s !! job_id = Some e → env_reactivated e e' → job_open s' job_id →
    environments s' = <[job_id := e']> (environments s) → env_change continues s s'
| env_new job_id e' :
    environments s !! job_id = None → eer_job_id e' = job_id → eer_generation e' = 1 →
    env_state e' = ("active", "provisioning") → job_open s job_id →
    environments s' = <[job_id := e']> (environments s) → env_change continues s s'.

Lemma update_environment_Ok job_id p f s r s' :
  update_environment job_id p f s = Ok (r, s') →
  (r = None ∧ s' = s ∧ ∀ e, environments s !! job_id = Some e → p e = false)
  ∨ ∃ e, environments s !! job_id = Some e ∧ p e = true ∧ r = Some (f e)
      ∧ s' = set_environments (<[job_id := f e]> (environments s)) s.
Proof.
  unfold update_environment. intros Hs. inv_tx.
  destruct (environments s !! job_id) as [e|] eqn:He; [|inv_tx; left; by split_and!].
  destruct (p e) eqn:Hp; inv_tx; [right; by exists e|left]. split_and!; [done..|]. by intros ? [= <-].
Qed.

Lemma update_environment_change b job_id p f s r s' :
  update_environment job_id p f s = Ok (r, s') →
  (∀ e, environments s !! job_id = Some e → p e = true → env_step e (f e)) → env_change b s s'.
Proof.
  intros [(_ & -> & _)|(e & He & Hp & _ & ->)]%update_environment_Ok Hf; [by apply env_same|].
  eapply env_set; [done|by apply Hf|done].
Qed.

Lemma release_row_next now e : env_state_ok e → env_step e (release_row now e).
Proof.
  intros Hok. split; try done. unfold release_row, env_state_next, env_state_ok, env_state in *.
  simpl. mem_cases Hok; injection Hok as -> ->; simpl; [right; left|right; left|right; left|by left|by left];
    (split; [done|mem]).
Qed.

Lemma active_next now e status backend_ref url error :
  eer_desired_state e = "active" → status ∈ ["ready"; "failed"] ∨ status = eer_status e →
  env_step e (environment_set (eer_desired_state e) status backend_ref url error now e).
Proof.
  intros Hd Hs. split; try done. unfold env_state_next, env_state. simpl. rewrite Hd.
  destruct Hs as [Hs| ->]; [right; left|by left]. split; [done|]. mem_cases Hs; subst; mem.
Qed.

Lemma released_next now e backend_ref url error :
  eer_desired_state e = "released" →
  env_step e (environment_set (eer_desired_state e) "released" backend_ref url error now e).
Proof. intros Hd. split; try done. unfold env_state_next, env_state. simpl. rewrite Hd. auto. Qed.

Lemma at_generation_true g d e : at_generation g d e = true ↔ eer_generation e = g ∧ eer_desired_state e = d.
Proof. unfold at_generation. by rewrite andb_true_iff, !bool_decide_eq_true. Qed.

Lemma env_change_framed b s s1 s2 s' :
  environments s1 = environments s → (∀ k, job_open s1 k → job_open s k) →
  environments s' = environments s2 → (∀ k, job_open s2 k → job_open s' k) →
  env_change b s1 s2 → env_change b s s'.
Proof.
  intros E1 J1 E2 J2 [E|k e e' He Hn E|k e e' Hb He Hn Hj E|k e' He Hk Hg Hst Hj E]; rewrite E1 in *.
  - apply env_same. congruence.
  - eapply env_set; [done|done|]. congruence.
  - eapply env_reactivate; eauto. congruence.
  - eapply env_new; eauto. congruence.
Qed.

Definition env_states_ok (s : db) : Prop := ∀ k e, environments s !! k = Some e → env_state_ok e.

(** The release that ends a job, after whatever else the transaction wrote. *)
Lemma request_release_change b now job_id s s1 u s' :
  env_states_ok s → environments s1 = environments s →
  request_release_in_transaction now job_id s1 = Ok (u, s') → env_change b s s'.
Proof.
  intros Hok E1 Hs. unfold request_release_in_transaction in Hs. inv_tx.
  match goal with H : update_environment _ _ _ _ = _ |- _ =>
    apply update_environment_Ok in H as [(_ & -> & _)|(e & He & _ & _ & ->)] end; [by apply env_same|].
  rewrite E1 in He. eapply env_set; [done| |simpl; by rewrite E1]. by eapply release_row_next, Hok.
Qed.

Lemma reactivate_change now job_id s u s' :
  reactivate_in_transaction now job_id s = Ok (u, s') →
  environments s' = environments s
  ∨ ∃ e e', environments s !! job_id = Some e ∧ env_reactivated e e'
      ∧ environments s' = <[job_id := e']> (environments s).
Proof.
  unfold reactivate_in_transaction. intros Hs. inv_tx.
  destruct (environments s !! job_id) as [e|] eqn:He; [|inv_tx; by left].
  destruct (_ && _) eqn:Hc; [|inv_tx]. apply andb_true_iff in Hc as [Hd%bool_decide_eq_true Hst%bool_decide_eq_true].
  inv_tx. match goal with H : checked_column _ _ = _ |- _ => apply checked_column_Ok in H as [-> ?] end.
  right. eexists e, _. split_and!; [done| |done]. split; simpl; try done; try lia.
  unfold env_state. by rewrite Hd, Hst.
Qed.

Section env_calls.
Context `{External}.

Lemma exec_env_frames now c s :
  match c with
  | ContinueJob _ _ _ | CancelJob _ | SettleAttempt _ _ _ _ _ | EnsureEnvironment _ _ _
  | ReserveLocator _ _ _ | MarkEnvironmentReady _ _ _ _ | MarkEnvironmentFailed _ _ _
  | RequestCancellingRelease _ | RequestEnvironmentRelease _ _ | MarkEnvironmentReleased _ _ => True
  | _ => environments (exec now c s) = environments s
  end.
Proof. unfold exec. destruct c; simpl; rewrite ?forget_snd; try done; frame_all. Qed.

(** The environment part of a settlement. *)
Lemma settle_outcome_env now f ctx st s s' :
  env_states_ok s →
  match st with
  | SettleSucceeded => settle_success now f ctx s = Ok (tt, s')
  | SettleFailed failure => settle_failure now f ctx failure s = Ok (tt, s')
  end → env_change false s s'.
Proof.
  intros Hok Hst. destruct st as [|failure];
    unfold settle_success, settle_failure, update_attempt, update_operation, update_job in Hst; inv_tx.
  - destruct (has_remaining _ _); inv_tx; [by apply env_same|].
    eapply request_release_change; [done| |eassumption]; done.
  - destruct (granted_retry _ _); inv_tx; [by apply env_same|].
    eapply request_release_change; [done| |eassumption]; done.
Qed.

Ltac env_commit r Ht :=
  match goal with |- context [commit ?t ?s] =>
    destruct (commit_snd t s) as [->|[r Ht]]; [by apply env_same|];
    let s' := fresh "s'" in set (s' := (commit t s).2) in *; clearbody s'
  end.

Lemma require_generation_match_state job_id g u d s r s' :
  require_generation_match job_id g u d s = Ok (r, s') → s' = s.
Proof. apply (require_generation_match_frames id). Qed.

(** The job of a live lease is running or cancelling. *)
Lemma lock_context_open now f s ctx s' :
  lifecycle_ok (lifecycle_of s) → lock_attempt_context now f s = Ok (ctx, s') →
  s' = s ∧ job_open s (ctx_job_id ctx).
Proof.
  intros [_ Hst] (-> & _ & a & o & j & Hruns & ->)%lock_context_rows. split; [done|]. exists j.
  destruct (runs_job_status _ Hst _ _ _ _ Hruns) as [_ Hjs]. split; [apply Hruns|].
  mem_cases Hjs; by rewrite Hjs.
Qed.

Ltac locked Hlc :=
  match goal with H : lock_attempt_context _ _ _ = Ok (?c, _) |- _ =>
    apply (lock_context_open _ _ _ _ _ Hlc) in H as [-> Hjob]; rename c into ctx end;
  unfold refuse_cancelling, load_environment_for_update in *; inv_tx.
Ltac matched :=
  match goal with H : require_generation_match _ _ _ _ _ = _ |- _ =>
    apply require_generation_match_state in H as -> end.

Definition environment_call (c : Call) : bool :=
  match c with
  | EnsureEnvironment _ _ _ | ReserveLocator _ _ _ | MarkEnvironmentReady _ _ _ _
  | MarkEnvironmentFailed _ _ _ | RequestCancellingRelease _ | RequestEnvironmentRelease _ _
  | MarkEnvironmentReleased _ _ => true
  | _ => false
  end.

Lemma environment_call_change now c s :
  lifecycle_ok (lifecycle_of s) → env_states_ok s → environment_call c = true →
  env_change false s (exec now c s).
Proof.
  intros Hlc Hok Hc. destruct c; try done; clear Hc; unfold exec; simpl; rewrite ?forget_snd.
  - unfold ensure_execution_environment. env_commit r Ht. inv_tx. locked Hlc.
    destruct (environments s !! ctx_job_id ctx) as [e|] eqn:He; inv_tx; [by apply env_same|].
    by eapply env_new; [exact He| | | | |reflexivity].
  - unfold reserve_execution_environment_locator. env_commit r Ht. inv_tx. locked Hlc.
    destruct (ee_backend_ref _); inv_tx; [by apply env_same|].
    eapply update_environment_change; [done|]. intros e He [Hg _]%andb_true_iff.
    apply at_generation_true in Hg as [_ Hd]. apply active_next; auto.
  - unfold mark_execution_environment_ready, MARK_READY. env_commit r Ht. inv_tx. locked Hlc.
    matched. eapply update_environment_change; [done|]. intros e He [_ Hd]%at_generation_true.
    apply active_next; [done|]. left. mem.
  - unfold mark_execution_environment_failed, MARK_FAILED. env_commit r Ht. inv_tx. locked Hlc.
    matched. eapply update_environment_change; [done|]. intros e He [_ Hd]%at_generation_true.
    apply active_next; [done|]. left. mem.
  - unfold request_cancelling_execution_environment_release, REQUEST_RELEASE. env_commit r Ht. inv_tx. locked Hlc.
    match goal with H : match ?x with Some _ => _ | None => _ end s = _ |- _ => destruct x; inv_tx end; [|by apply env_same].
    matched. eapply update_environment_change; [done|]. intros e0 He _. by eapply release_row_next, Hok.
  - unfold request_execution_environment_release, REQUEST_RELEASE. env_commit r Ht. inv_tx.
    matched. eapply update_environment_change; [done|]. intros e He _. by eapply release_row_next, Hok.
  - unfold mark_execution_environment_released, MARK_RELEASED. env_commit r Ht. inv_tx.
    matched. eapply update_environment_change; [done|]. intros e He [_ Hd]%at_generation_true. by apply released_next.
Qed.

Lemma settle_env_change now i f st ck ev s r s' :
  env_states_ok s → settle_tx now i f st ck ev s = Ok (r, s') → env_change false s s'.
Proof.
  intros Hok (ctx & a & o & j & s1 & s2 & Hctx & _ & _ & Hck & Hst & Hev)%settle_tx_Ok.
  assert (environments s1 = environments s ∧ jobs s1 = jobs s) as [E1 J1].
  { destruct ck as [ck|]; [|by destruct Hck as [_ ->]]. destruct Hck as (_ & rec & _ & Hi).
    apply insert_checkpoint_Ok in Hi as (row & _ & -> & _). done. }
  assert (environments s' = environments s2 ∧ jobs s' = jobs s2) as [E2 J2].
  { destruct ev as [ev|]; [|by subst]. destruct Hev as (_ & rec & Hev).
    assert (∀ B (π : db → B), (∀ l n s, π (set_events l n s) = π s) → π s' = π s2) as F; [|by split; apply F].
    intros B π Hπ. unfold insert_attempt_event, identity_available, push_event in Hev.
    match type of Hev with ?t _ = _ => assert (frames π t) as F by solve_frames; exact (F _ _ _ Hev) end. }
  eapply (env_change_framed _ s s1 s2); [done|by unfold job_open; rewrite J1|done|by unfold job_open; rewrite J2|].
  eapply settle_outcome_env; [|done]. unfold env_states_ok. by rewrite E1.
Qed.

Lemma cancel_env_change now job_id s r s' :
  env_states_ok s → cancel_tx now job_id s = Ok (r, s') → env_change false s s'.
Proof.
  intros Hok Ht. unfold cancel_tx, update_job, cancel_unfinished_operations in Ht. inv_tx.
  destruct (_ || _); inv_tx; [by apply env_same|]. destruct (_ || _); inv_tx.
  destruct (has_running_attempt _ _); inv_tx; [by apply env_same|].
  eapply request_release_change; [done| |eassumption]; done.
Qed.

Lemma continue_env_change now new_id job_id feedback s r s' :
  continue_tx now new_id job_id feedback s = Ok (r, s') → env_change true s s'.
Proof.
  intros Ht. unfold continue_tx, update_job in Ht. inv_tx.
  match goal with H : jobs s !! job_id = Some ?x |- _ => rename x into j, H into Hj end.
  match goal with H : reactivate_in_transaction _ _ _ = Ok (_, ?x) |- _ =>
    rename x into s1; apply reactivate_frames in H as E1; apply reactivate_change in H as Hre end.
  match goal with H : insert_continuation _ _ _ _ _ _ _ _ = Ok (_, ?x) |- _ => rename H into Hins, x into s2 end.
  apply (insert_continuation_frames environments) in Hins as Ee; [|done].
  apply (insert_continuation_frames jobs) in Hins as Ej; [|done]. simpl in *. injection E1 as E1 _ _.
  assert (job_open s2 job_id) as Hopen.
  { rewrite E1 in Ej. unfold job_open. rewrite Ej, lookup_alter_eq, Hj. eexists. split; [reflexivity|done]. }
  destruct Hre as [Es|(e & e' & He & Hre & Es)]; rewrite Es in Ee; [by apply env_same|].
  eapply env_reactivate; [done|done|exact Hre|done|done].
Qed.

(** A continuation's announcement touches the event log only. *)
Lemma continue_job_env_change now new_id job_id feedback s :
  env_change true s (continue_job now new_id job_id feedback s).2.
Proof.
  unfold continue_job, mbind, proc_bind, proc_lift, commit.
  destruct (guard_err _ _); [|by apply env_same].
  destruct (continue_tx _ _ _ _ s) as [[r s1]|e] eqn:Ht; [|by apply env_same]. simpl.
  eapply (env_change_framed _ s s s1); [done|done|by apply append_job_event_ignored| |by eapply continue_env_change].
  intros k. unfold job_open. by rewrite append_job_event_ignored.
Qed.

Definition is_continue (c : Call) : bool := match c with ContinueJob _ _ _ => true | _ => false end.

Lemma exec_env_change now c s :
  lifecycle_ok (lifecycle_of s) → env_states_ok s → env_change (is_continue c) s (exec now c s).
Proof.
  intros Hlc Hok. pose proof (exec_env_frames now c s) as E.
  destruct c; try (by apply env_same); try (by apply environment_call_change);
    clear E; unfold exec; simpl; rewrite ?forget_snd.
  - apply continue_job_env_change.
  - unfold cancel_job. rewrite (load_job_snd _ (λ _, job_id)). env_commit r Ht. by eapply cancel_env_change.
  - unfold settle_attempt_with_event. env_commit r Ht. by eapply settle_env_change.
Qed.
End env_calls.

(** ** The invariant *)

Record environments_ok (s : db) : Prop := {
  ev_key k e : environments s !! k = Some e → eer_job_id e = k;
  ev_generation k e : environments s !! k = Some e → 1 ≤ eer_generation e ≤ i64_max;
  ev_state k e : environments s !! k = Some e → env_state_ok e;
  ev_job_exists k e : environments s !! k = Some e → is_Some (jobs s !! k);
  ev_terminal k e j : environments s !! k = Some e → jobs s !! k = Some j →
    terminal_status (jr_status j) = true → eer_desired_state e = "released";
}.

Lemma env_step_ok e e' : env_step e e' → env_state_ok e → env_state_ok e'.
Proof.
  intros [_ _ _ _ Hs] Hok. unfold env_state_ok in *.
  destruct Hs as [->|[[_ Hy]|[_ ->]]]; [done| |mem]. mem_cases Hy; rewrite Hy; mem.
Qed.

Lemma env_step_released e e' :
  env_step e e' → eer_desired_state e = "released" → eer_desired_state e' = "released".
Proof.
  intros [_ _ _ _ Hs] Hd. unfold env_state_next, env_state in Hs. simpl in Hs.
  destruct Hs as [[= -> _]|[[Hx _]|[_ [= -> _]]]]; [done|congruence|done].
Qed.

(** A job becomes terminal only when its environment is wanted released. *)
Definition terminates_released (s s' : db) : Prop :=
  ∀ k j', jobs s' !! k = Some j' → terminal_status (jr_status j') = true →
    (∃ j, jobs s !! k = Some j ∧ terminal_status (jr_status j) = true)
    ∨ ∀ e, environments s' !! k = Some e → eer_desired_state e = "released".

Lemma terminates_same_jobs s s' : jobs s' = jobs s → terminates_released s s'.
Proof. intros E k j' Hj' Ht. left. exists j'. by rewrite <- E. Qed.

(** Writing one job's row to a state that is not terminal. *)
Lemma terminates_insert s s' k j :
  jobs s' = <[k := j]> (jobs s) → terminal_status (jr_status j) = false → terminates_released s s'.
Proof.
  intros E Hn i j' Hj' Ht. rewrite E in Hj'.
  apply lookup_insert_Some in Hj' as [[<- <-]|[_ Hj']]; [congruence|]. eauto.
Qed.

Lemma environments_ok_change b s s' :
  environments_ok s → (∀ k, is_Some (jobs s !! k) → is_Some (jobs s' !! k)) →
  terminates_released s s' → env_change b s s' → environments_ok s'.
Proof.
  intros Hok Hkeep Hterm Hch.
  assert (∀ k e', environments s' !! k = Some e' →
    (∃ e, environments s !! k = Some e ∧ (env_step e e' ∨ env_reactivated e e' ∧ job_open s' k))
    ∨ (eer_job_id e' = k ∧ eer_generation e' = 1 ∧ env_state e' = ("active", "provisioning") ∧ job_open s k)) as Hinv.
  { destruct Hch as [E|i e e' He Hn E|i e e' _ He Hn Hj E|i e' He Hk Hg Hst Hj E]; rewrite E.
    - intros k e' He'. left. exists e'. split; [done|]. left. apply env_step_refl.
    - intros k f [[<- <-]|[_ Hf]]%lookup_insert_Some; [by eauto|]. left. exists f. split; [done|]. left. apply env_step_refl.
    - intros k f [[<- <-]|[_ Hf]]%lookup_insert_Some; [by eauto 10|]. left. exists f. split; [done|]. left. apply env_step_refl.
    - intros k f [[<- <-]|[_ Hf]]%lookup_insert_Some; [by right|]. left. exists f. split; [done|]. left. apply env_step_refl. }
  clear Hch. split.
  - intros k e' [(e & He & [Hs|[Hs _]])|(Hk & _)]%Hinv; [| |done].
    + rewrite (es_job _ _ Hs). by apply (ev_key _ Hok).
    + rewrite (er_job _ _ Hs). by apply (ev_key _ Hok).
  - intros k e' [(e & He & [Hs|[Hs _]])|(_ & -> & _)]%Hinv; [| |unfold i64_max; lia];
      pose proof (ev_generation _ Hok _ _ He).
    + by rewrite (es_generation _ _ Hs).
    + pose proof (er_generation _ _ Hs). pose proof (er_bound _ _ Hs). lia.
  - intros k e' [(e & He & [Hs|[Hs _]])|(_ & _ & Hst & _)]%Hinv.
    + eapply env_step_ok; [done|]. by eapply (ev_state _ Hok).
    + unfold env_state_ok. rewrite (er_to _ _ Hs). mem.
    + unfold env_state_ok. rewrite Hst. mem.
  - intros k e' [(e & He & _)|(_ & _ & _ & (j & Hj & _))]%Hinv; apply Hkeep; [by eapply (ev_job_exists _ Hok)|by exists j].
  - intros k e' j' He' Hj' Ht. destruct (Hterm _ _ Hj' Ht) as [(j & Hj & Htj)|Hrel]; [|by apply Hrel].
    apply Hinv in He' as [(e & He & [Hs|[_ (j2 & Hj2 & Hn)]])|(_ & _ & _ & (j2 & Hj2 & Hn))].
    + eapply env_step_released; [done|]. by eapply (ev_terminal _ Hok).
    + congruence.
    + congruence.
Qed.

Ltac term_commit r Ht :=
  match goal with |- context [commit ?t ?s] =>
    destruct (commit_snd t s) as [->|[r Ht]]; [by apply terminates_same_jobs|];
    let s' := fresh "s'" in set (s' := (commit t s).2) in *; clearbody s'
  end.

Section terminal_calls.
Context `{External}.

Lemma exec_jobs_frames now c s :
  match c with
  | CreateJob _ _ _ | ContinueJob _ _ _ | CancelJob _ | AcknowledgeJobCancellation _
  | ClaimRecovery _ _ _ _ | SettleAttempt _ _ _ _ _ => True
  | _ => jobs (exec now c s) = jobs s
  end.
Proof. unfold exec. destruct c; simpl; rewrite ?forget_snd; try done; frame_all. Qed.

Lemma release_row_released now job_id s u s' e :
  request_release_in_transaction now job_id s = Ok (u, s') → environments s' !! job_id = Some e →
  eer_desired_state e = "released" ∧ jobs s' = jobs s.
Proof.
  intros Hs He. unfold request_release_in_transaction in Hs. inv_tx.
  match goal with H : update_environment _ _ _ _ = _ |- _ =>
    apply update_environment_Ok in H as [(_ & -> & Hno)|(e0 & He0 & _ & _ & ->)] end; simpl in *.
  - by apply Hno in He.
  - rewrite lookup_insert_eq in He. by injection He as <-.
Qed.

(** Ending a job in the transaction that releases its environment. *)
Lemma terminates_release now job_id s s1 g u s' :
  jobs s1 = alter g job_id (jobs s) → request_release_in_transaction now job_id s1 = Ok (u, s') →
  terminates_released s s'.
Proof.
  intros E Hs k j' Hj' Ht. apply request_release_frames in Hs as L. injection L as J _ _.
  rewrite J, E in Hj'. destruct (decide (k = job_id)) as [->|Hne].
  - right. intros e He. by eapply release_row_released.
  - left. exists j'. by rewrite lookup_alter_ne in Hj'.
Qed.

Lemma settle_terminates now i f st ck ev s r s' :
  settle_tx now i f st ck ev s = Ok (r, s') → terminates_released s s'.
Proof.
  intros (ctx & a & o & j & s1 & s2 & Hctx & _ & _ & Hck & Hst & Hev)%settle_tx_Ok.
  assert (jobs s1 = jobs s) as J1.
  { destruct ck as [ck|]; [|by destruct Hck as [_ ->]]. destruct Hck as (_ & rec & _ & Hi).
    apply insert_checkpoint_Ok in Hi as (row & _ & -> & _). done. }
  assert (terminates_released s1 s2) as H12.
  { destruct st as [|failure];
      unfold settle_success, settle_failure, update_attempt, update_operation, update_job in Hst; inv_tx.
    - destruct (has_remaining _ _); inv_tx; [by apply terminates_same_jobs|]. by eapply terminates_release; [|eassumption].
    - destruct (granted_retry _ _); inv_tx; [by apply terminates_same_jobs|]. by eapply terminates_release; [|eassumption]. }
  assert (environments s' = environments s2 ∧ jobs s' = jobs s2) as [E2 J2].
  { destruct ev as [ev|]; [|by subst]. destruct Hev as (_ & rec & Hev).
    assert (∀ B (π : db → B), (∀ l n s, π (set_events l n s) = π s) → π s' = π s2) as F; [|by split; apply F].
    intros B π Hπ. unfold insert_attempt_event, identity_available, push_event in Hev.
    match type of Hev with ?t _ = _ => assert (frames π t) as F by solve_frames; exact (F _ _ _ Hev) end. }
  intros k j'. rewrite J2, E2. intros Hj' Ht. destruct (H12 k j' Hj' Ht) as [Hold|Hrel]; [left|by right]. by rewrite <- J1.
Qed.

Lemma cancel_terminates now job_id s r s' : cancel_tx now job_id s = Ok (r, s') → terminates_released s s'.
Proof.
  intros Ht. unfold cancel_tx, update_job, cancel_unfinished_operations in Ht. inv_tx.
  match goal with H : _ <$> _ = Some _ |- _ => apply fmap_Some in H as (j & Hj & ->) end.
  destruct (_ || _); inv_tx; [by apply terminates_same_jobs|]. destruct (_ || _); inv_tx.
  destruct (has_running_attempt _ _); inv_tx; [|by eapply terminates_release; [|eassumption]].
  eapply terminates_insert; [simpl; by apply alter_insert_row|done].
Qed.

Lemma acknowledge_terminates now f s r s' :
  env_states_ok s → acknowledge_tx now f s = Ok (r, s') → terminates_released s s'.
Proof.
  intros Hok Ht. unfold acknowledge_tx, update_job, update_attempt, cancel_unfinished_operations in Ht. inv_tx.
  match goal with H : lock_attempt_context _ _ _ = _ |- _ =>
    apply lock_context_rows in H as (-> & _ & a & o & j & _ & ->) end. simpl in *. inv_tx. simpl in *.
  match goal with H : match eer_status <$> _ with Some _ => _ | None => _ end = false |- _ => rename H into Hrel end.
  intros k j' Hj' Hterm. simpl in *. destruct (decide (k = or_job_id o)) as [->|Hne].
  - right. intros e He. rewrite He in Hrel. simpl in Hrel. apply negb_false_iff, bool_decide_eq_true in Hrel.
    apply Hok in He. unfold env_state_ok, env_state in He. rewrite Hrel in He.
    mem_cases He; by injection He as ->.
  - left. exists j'. by rewrite lookup_alter_ne in Hj'.
Qed.

Lemma continue_terminates now new_id job_id feedback s :
  terminates_released s (continue_job now new_id job_id feedback s).2.
Proof.
  unfold continue_job, mbind, proc_bind, proc_lift, commit.
  destruct (guard_err _ _); [|by apply terminates_same_jobs].
  destruct (continue_tx _ _ _ _ s) as [[r s1]|e] eqn:Ht; [|by apply terminates_same_jobs]. simpl.
  unfold continue_tx, update_job in Ht. inv_tx.
  match goal with H : jobs s !! job_id = Some ?x |- _ => rename x into j, H into Hj end.
  match goal with H : reactivate_in_transaction _ _ _ = Ok (_, ?x) |- _ => apply reactivate_frames in H as E1 end.
  match goal with H : insert_continuation _ _ _ _ _ _ _ _ = _ |- _ =>
    apply (insert_continuation_frames jobs) in H as Ej; [|done] end.
  injection E1 as E1 _ _. simpl in Ej. rewrite E1, (alter_insert_row _ _ _ j) in Ej by done.
  eapply terminates_insert; [rewrite append_job_event_ignored by done; exact Ej|done].
Qed.

Lemma exec_terminates now c s :
  tables_ok (lifecycle_of s) → env_states_ok s → terminates_released s (exec now c s).
Proof.
  intros Htk Hok. pose proof (exec_jobs_frames now c s) as E.
  destruct c; try (by apply terminates_same_jobs); clear E; unfold exec; simpl; rewrite ?forget_snd.
  - destruct (create_job_cases now job_id new_id definition s)
      as [->|(ops & s' & _ & _ & Hins & ->)]; [by apply terminates_same_jobs|].
    apply (insert_operations_frames jobs) in Hins as Ej; [|done]. eapply terminates_insert; [exact Ej|done].
  - apply continue_terminates.
  - unfold cancel_job. rewrite (load_job_snd _ (λ _, job_id)). term_commit r Ht. by eapply cancel_terminates.
  - unfold acknowledge_job_cancellation. rewrite (load_job_snd _ (λ i, i)). term_commit r Ht. by eapply acknowledge_terminates.
  - destruct (claim_recovery_snd now locked new_id scope request s) as [->|([sel row] & s' & Ht & ->)];
      [by apply terminates_same_jobs|].
    apply claim_tx_Some in Ht as (_ & j & o & s1 & _ & Hatt & ->); [|done].
    apply claim_attempt_Some in Hatt.
    eapply (terminates_insert _ _ (or_job_id o) (job_claimed now j)); [by destruct Hatt|].
    unfold job_claimed. by case_decide.
  - unfold settle_attempt_with_event. term_commit r Ht. by eapply settle_terminates.
Qed.
End terminal_calls.

(** ** Theorems *)

(** The generation a call presents, and the job whose environment it means. *)
Definition call_generation (c : Call) : option Z :=
  match c with
  | ReserveLocator _ g _ | MarkEnvironmentReady _ g _ _ | MarkEnvironmentFailed _ g _
  | RequestEnvironmentRelease _ g | MarkEnvironmentReleased _ g => Some g
  | _ => None
  end.

Definition fence_job (f : AttemptFence) (s : db) : option string :=
  a ← attempts s !! af_attempt_id f; o ← operations s !! ar_operation_id a; Some (or_job_id o).

Definition call_job (c : Call) (s : db) : option string :=
  match c with
  | RequestEnvironmentRelease j _ | MarkEnvironmentReleased j _ => Some j
  | _ => f ← call_fence c; fence_job f s
  end.

Section environment_theorems.
Context `{External}.

Lemma reachable_environments_ok s : reachable s → environments_ok s.
Proof.
  revert s. apply (reachable_rect environments_ok); [split; simpl; intros; simplify_map_eq|].
  intros now c s Hr Hok. apply reachable_lifecycle_ok in Hr as Hlc.
  assert (env_states_ok s) as Hst by (intros k e; apply (ev_state _ Hok)).
  apply (environments_ok_change (is_continue c) s); [done| | |by apply exec_env_change].
  - intros k. by apply exec_job_kept.
  - apply exec_terminates; [apply Hlc|done].
Qed.

(** The environment invariant.  In every reachable database an environment
    belongs to an existing job, its generation is a positive 64-bit number, its
    desired state and status are one of the five legal pairs, and the
    environment of a succeeded, failed or cancelled job is wanted released. *)
Theorem environment_invariant s : reachable s → environments_ok s.
Proof. apply reachable_environments_ok. Qed.

(** Where a call takes an environment. *)
Lemma exec_environment now c s k e :
  reachable s → environments s !! k = Some e →
  ∃ e', environments (exec now c s) !! k = Some e'
    ∧ (env_step e e' ∨ is_continue c = true ∧ env_reactivated e e').
Proof.
  intros Hr He. pose proof (reachable_environments_ok s Hr) as Hok.
  destruct (exec_env_change now c s) as [E|i f f' Hf Hn E|i f f' Hc Hf Hn _ E|i f' Hf _ _ _ _ E];
    [by apply reachable_lifecycle_ok|intros j f; apply (ev_state _ Hok)|..]; rewrite E.
  - exists e. split; [done|left; apply env_step_refl].
  - destruct (decide (k = i)) as [->|Hne]; [exists f'|exists e].
    + rewrite lookup_insert_eq. split; [done|left]. by assert (e = f) as -> by congruence.
    + rewrite lookup_insert_ne by done. split; [done|left; apply env_step_refl].
  - destruct (decide (k = i)) as [->|Hne]; [exists f'|exists e].
    + rewrite lookup_insert_eq. split; [done|right]. by assert (e = f) as -> by congruence.
    + rewrite lookup_insert_ne by done. split; [done|left; apply env_step_refl].
  - exists e. rewrite lookup_insert_ne by congruence. split; [done|left; apply env_step_refl].
Qed.

(** C11: environment transitions.  In one call an environment is never removed
    and keeps its identity; it moves along the state machine of its generation,
    and a released one is reopened by a continuation only, under exactly the
    next generation and only after its release finished. *)
Theorem environment_transitions now c s k e :
  reachable s → environments s !! k = Some e →
  ∃ e', environments (exec now c s) !! k = Some e'
    ∧ (env_step e e' ∨ is_continue c = true ∧ env_reactivated e e').
Proof. apply exec_environment. Qed.

Lemma environment_record_generation e r :
  ExecutionEnvironmentRecord_try_from e = Ok r →
  ee_generation r = eer_generation e ∧ ee_backend_ref r = eer_backend_ref e.
Proof.
  unfold ExecutionEnvironmentRecord_try_from. intros Hr. inv_tx. simpl.
  match goal with H : to_u64 _ _ = _ |- _ => apply ok_or_Ok, try_range_Some in H as [-> _] end. done.
Qed.

Lemma load_environment_Some k s r s' e :
  load_environment_for_update k s = Ok (r, s') → environments s !! k = Some e →
  s' = s ∧ ∃ rec, r = Some rec ∧ ExecutionEnvironmentRecord_try_from e = Ok rec.
Proof.
  intros Hs He. unfold load_environment_for_update in Hs. inv_tx. rewrite He in *. simpl in *. inv_tx. eauto.
Qed.

(** A generation-checked update that presents another generation matches no row
    and is then refused. *)
Lemma generation_update_refused k p f g d s u s1 r s' e :
  environments s !! k = Some e → eer_generation e ≠ g →
  (∀ x, p x = true → eer_generation x = g) →
  update_environment k p f s = Ok (u, s1) → require_generation_match k g u d s1 = Ok (r, s') → False.
Proof.
  intros He Hg Hp [(-> & -> & _)|(e0 & He0 & Hpe & _)]%update_environment_Ok Hm.
  - unfold require_generation_match in Hm. inv_tx.
  - apply Hp in Hpe. congruence.
Qed.

Lemma lock_context_job now f s ctx s' k :
  lock_attempt_context now f s = Ok (ctx, s') → fence_job f s = Some k → s' = s ∧ ctx_job_id ctx = k.
Proof.
  intros (-> & _ & a & o & j & (Ha & _ & Ho & _) & ->)%lock_context_rows Hk. simpl in *.
  unfold fence_job in Hk. rewrite Ha in Hk. simpl in Hk. rewrite Ho in Hk. simpl in Hk. split; [done|congruence].
Qed.

Lemma database_sequence_Ok n field m : database_sequence n field = Ok m → m = n.
Proof. unfold database_sequence. intros [-> _]%ok_or_Ok%try_range_Some. done. Qed.

Lemma commit_refused {A : Type} (t : Tx A) s :
  (∀ r s', t s = Ok (r, s') → False) → ∃ err, forget (commit t) s = (Err err, s).
Proof.
  intros Ht. unfold forget, commit. destruct (t s) as [[r s']|e] eqn:E; [by destruct (Ht r s')|by exists e].
Qed.

(** generation fencing.  A call that presents a generation other than the
    one the job's environment is in returns an error and changes nothing, so
    work left over from before a continuation cannot touch the new
    environment. *)
Theorem stale_generation_changes_nothing now c g s k e :
  call_generation c = Some g → call_job c s = Some k →
  environments s !! k = Some e → eer_generation e ≠ g →
  ∃ err, call now c s = (Err err, s).
Proof.
  intros Hc Hk He Hg.
  destruct c; simpl in Hc, Hk; simplify_eq; simpl; apply commit_refused; intros r s' Ht; inv_tx;
    repeat match goal with
    | H : database_sequence _ _ = _ |- _ => apply database_sequence_Ok in H as ->
    | H : lock_attempt_context _ _ _ = _ |- _ => apply (lock_context_job _ _ _ _ _ k) in H as [-> <-]; [|done]
    end; unfold refuse_cancelling in *; inv_tx.
  - match goal with H : load_environment_for_update _ _ = _ |- _ =>
      apply (load_environment_Some _ _ _ _ e) in H as (-> & rec & -> & Hrec); [|done] end.
    apply environment_record_generation in Hrec as [Hgen _]. inv_tx.
    match goal with H : to_u64 _ _ = _ |- _ => apply ok_or_Ok, try_range_Some in H as [-> _] end.
    match goal with H : negb (bool_decide (ee_generation _ = _)) = false |- _ =>
      apply negb_false_iff, bool_decide_eq_true in H end. congruence.
  - eapply generation_update_refused; eauto. by intros y [? _]%at_generation_true.
  - eapply generation_update_refused; eauto. by intros y [? _]%at_generation_true.
  - eapply generation_update_refused; eauto. intros y. simpl. apply bool_decide_eq_true.
  - eapply generation_update_refused; eauto. by intros y [? _]%at_generation_true.
Qed.

(** the first locator wins.  Reserving a locator for an environment that
    already has a backend reference returns that reference and writes nothing;
    otherwise the presented locator is stored, and either way the returned
    record carries what the database holds. *)
Theorem first_locator_wins now f g locator s r s' :
  reserve_execution_environment_locator now f g locator s = (Ok r, s') →
  ∃ k e, fence_job f s = Some k ∧ environments s !! k = Some e ∧ eer_generation e = g
    ∧ ee_backend_ref r = Some (default locator (eer_backend_ref e))
    ∧ (eer_backend_ref <$> environments s' !! k = Some (ee_backend_ref r))
    ∧ (is_Some (eer_backend_ref e) → s' = s).
Proof.
  intros Ht%commit_Ok. inv_tx. unfold refuse_cancelling, load_environment_for_update in *. inv_tx.
  match goal with H : database_sequence _ _ = _ |- _ => apply database_sequence_Ok in H as -> end.
  match goal with H : lock_attempt_context _ _ _ = _ |- _ =>
    apply lock_context_rows in H as (-> & _ & a & o & j & (Ha & _ & Ho & _) & ->) end. simpl in *. inv_tx.
  exists (or_job_id o). destruct (environments s !! or_job_id o) as [e|] eqn:He; simpl in *; inv_tx;
    [|done].
  match goal with H : Some _ = Some _ |- _ => injection H as <- end.
  match goal with H : ExecutionEnvironmentRecord_try_from e = Ok ?x |- _ =>
    apply environment_record_generation in H as [Hgen Href]; rename x into rec end.
  match goal with H : to_u64 _ _ = _ |- _ => apply ok_or_Ok, try_range_Some in H as [-> _] end.
  match goal with H : negb (bool_decide (ee_generation _ = _)) = false |- _ =>
    apply negb_false_iff, bool_decide_eq_true in H as Hg end.
  assert (fence_job f s = Some (or_job_id o)) as Hjob.
  { unfold fence_job. rewrite Ha. simpl. by rewrite Ho. }
  exists e. rewrite Href in *. destruct (eer_backend_ref e) as [l|] eqn:Hl; inv_tx.
  - split_and!; try done; try congruence. rewrite He. simpl. congruence.
  - match goal with H : update_environment _ _ _ _ = _ |- _ =>
      apply update_environment_Ok in H as [(-> & _)|(e0 & He0 & _ & -> & ->)] end; [done|].
    assert (e0 = e) as -> by congruence. match goal with H : Some _ = Some _ |- _ => injection H as <- end.
    match goal with H : ExecutionEnvironmentRecord_try_from _ = _ |- _ =>
      apply environment_record_generation in H as [_ Href'] end. simpl in *.
    rewrite lookup_insert_eq, Href'. split_and!; try done; try congruence.
Qed.
End environment_theorems.

(** ** Witnesses *)

#[local] Existing Instance demo_external.

Lemma environment_invariant_witness : environments_ok (demo environment_history).
Proof. apply environment_invariant. exact (demo_reachable environment_history). Defined.

Lemma environment_transitions_witness :
  ∃ e, environments (demo cancelling_history) !! "J" = Some e
    ∧ ∃ e', environments (exec 16 (RequestCancellingRelease (demo_fence "a0" "w1" 1)) (demo cancelling_history)) !! "J" = Some e'
        ∧ (env_step e e' ∨ is_continue (RequestCancellingRelease (demo_fence "a0" "w1" 1)) = true ∧ env_reactivated e e').
Proof.
  eexists. split; [vm_compute; reflexivity|].
  apply environment_transitions; [exact (demo_reachable cancelling_history)|vm_compute; reflexivity].
Defined.

Lemma stale_generation_changes_nothing_witness :
  ∃ err, call 18 (MarkEnvironmentReleased "J" 2) (demo released_history) = (Err err, demo released_history).
Proof.
  eapply stale_generation_changes_nothing;
    [reflexivity|reflexivity|vm_compute; reflexivity|vm_compute; discriminate].
Defined.

Lemma first_locator_wins_witness :
  ∃ r, (reserve_execution_environment_locator 15 (demo_fence "a0" "w1" 1) 1 "pod/b" (demo environment_history)).1 = Ok r
    ∧ ∃ k e, fence_job (demo_fence "a0" "w1" 1) (demo environment_history) = Some k
    ∧ environments (demo environment_history) !! k = Some e ∧ eer_generation e = 1
    ∧ ee_backend_ref r = Some (default "pod/b" (eer_backend_ref e)).
Proof.
  eexists. split; [vm_compute; reflexivity|].
  edestruct (first_locator_wins 15 (demo_fence "a0" "w1" 1) 1 "pod/b" (demo environment_history))
    as (k & e & Hk & He & Hg & Href & _); [vm_compute; reflexivity|].
  exists k, e. exact (conj Hk (conj He (conj Hg Href))).
Defined.
