(* ===== verification/Progress.v ===== *)
(** * Claims are sound and complete, and jobs make progress

    A claim hands out only work that may run, finds work whenever there is
    some, resumes from the latest checkpoint, and no active job is ever stuck:
    from some time on one of its operations is claimable. *)

From S2P Require Import Prelude Domain Rows Store Leases Events Environments Attempts Jobs Recovery Lifecycle Refinement System Safety Fencing EventLog EnvironmentLaws.
From Stdlib Require Import ZArith Ascii String.
From stdpp Require Import base gmap strings list.

#[local] Open Scope string_scope.
#[local] Open Scope Z_scope.
#[local] Open Scope list_scope.

Section progress.
Context `{External}.

(** ** What may be claimed

    The contract of a claim, stated on the tables: it does not mention the
    queries, the previous attempt or the attempt count. *)

Definition in_scope (scope : RecoveryScope) (j : JobRow) (o : OperationRow) : Prop :=
  match scope with
  | ScopeAny => True
  | ScopeJob job_id => jr_job_id j = job_id
  | ScopeOperation operation_id => or_operation_id o = operation_id
  end.

(** The worker serves the provider and the model pinned in the job's input. *)
Definition serves (request : ClaimRequest) (j : JobRow) : Prop :=
  ∃ p, cr_execution_profile request = Some p
    ∧ json_path_text "executionProfile" "provider" (jr_input j) = Some (ep_provider p)
    ∧ json_path_text "executionProfile" "model" (jr_input j) = Some (ep_model p).

Definition has_active_workspace (j : JobRow) (s : db) : Prop :=
  ∃ w, workspaces s !! jr_job_id j = Some w ∧ wsr_status w = "active".

(** Why an operation waits for a worker: to start, to retry when it is time, or
    because the lease of its running attempt has expired. *)
Inductive waiting (now : Z) (s : db) (j : JobRow) (o : OperationRow) : Prop :=
| waiting_start :
    jr_status j ∈ ["queued"; "running"] → or_status o = "ready" → waiting now s j o
| waiting_retry :
    jr_status j ∈ ["queued"; "running"] → or_status o = "retry_wait" →
    or_next_eligible_at o ≤ now → waiting now s j o
| waiting_take_over k a :
    attempts s !! k = Some a → ar_operation_id a = or_operation_id o →
    ar_status a = "running" → ar_lease_expires_at a ≤ now → waiting now s j o.

Record claimable (now : Z) (locked : gset string) (scope : RecoveryScope) (request : ClaimRequest)
    (s : db) (j : JobRow) (o : OperationRow) : Prop := {
  clm_job : jobs s !! or_job_id o = Some j;
  clm_operation : operations s !! or_operation_id o = Some o;
  clm_scope : in_scope scope j o;
  clm_active : jr_status j ∈ ["queued"; "running"; "cancelling"];
  clm_workspace : jr_kind j = "factory.task" → has_active_workspace j s;
  clm_profile : jr_kind j = "factory.task" → serves request j;
  clm_predecessors : predecessors_succeeded (lifecycle_of s) o;
  clm_waiting : waiting now s j o;
  clm_unlocked : (jr_job_id j ∉ locked) ∧ (or_operation_id o ∉ locked);
}.

(** What the two queries select. *)
Record candidate (now : Z) (locked : gset string) (scope : RecoveryScope) (request : ClaimRequest)
    (s : db) (j : JobRow) (o : OperationRow) : Prop := {
  cnd_rows : (j, o) ∈ job_operations s;
  cnd_recoverable : is_recoverable now (database_ids scope).1 (database_ids scope).2 j o s;
  cnd_unlocked : unlocked locked j o = true;
  cnd_profile : profile_gate (ep_provider <$> cr_execution_profile request)
                  (ep_model <$> cr_execution_profile request) j = true;
}.

Lemma bounds_in_scope scope j o :
  bound_matches (database_ids scope).1 (jr_job_id j) = true
  ∧ bound_matches (database_ids scope).2 (or_operation_id o) = true ↔ in_scope scope j o.
Proof. destruct scope; simpl; rewrite ?bool_decide_eq_true; naive_solver. Qed.

Lemma profile_gate_true request j :
  profile_gate (ep_provider <$> cr_execution_profile request) (ep_model <$> cr_execution_profile request) j = true
  ↔ (jr_kind j = "factory.task" → serves request j).
Proof.
  unfold profile_gate, serves. rewrite orb_true_iff, negb_true_iff, bool_decide_eq_false.
  destruct (decide (jr_kind j = "factory.task")) as [Hk|Hk]; [|naive_solver].
  destruct (cr_execution_profile request) as [p|]; simpl;
    rewrite ?andb_true_iff, ?bool_decide_eq_true; naive_solver.
Qed.

Lemma workspace_gate_true j s :
  workspace_gate j s = true ↔ (jr_kind j = "factory.task" → has_active_workspace j s).
Proof.
  unfold workspace_gate, has_active_workspace, workspace_active.
  rewrite orb_true_iff, negb_true_iff, bool_decide_eq_false.
  destruct (workspaces s !! jr_job_id j) as [w|]; rewrite ?bool_decide_eq_true;
    destruct (decide (jr_kind j = "factory.task")); naive_solver.
Qed.

Lemma unlocked_true locked j o :
  unlocked locked j o = true ↔ (jr_job_id j ∉ locked) ∧ (or_operation_id o ∉ locked).
Proof. unfold unlocked. by rewrite andb_true_iff, !bool_decide_eq_true. Qed.

(** The running attempt of an operation is its latest one. *)
Lemma running_is_previous s ka a :
  lifecycle_ok (lifecycle_of s) → attempts s !! ka = Some a → ar_status a = "running" →
  previous_attempt (ar_operation_id a) s = Some a.
Proof.
  intros [Htk Hst] Ha Hr. pose proof (attempts_made_ge _ s _ _ Ha eq_refl) as Hge.
  destruct (previous_attempt _ s) as [b|] eqn:Hp; simpl in Hge.
  - apply previous_attempt_Some in Hp as [[kb Hb] Hbo].
    pose proof (st_latest _ Hst _ _ _ _ Ha Hb Hr (eq_sym Hbo)) as Hle.
    assert (kb = ka) as -> by (eapply (tk_number _ Htk); eauto; lia). congruence.
  - destruct (tk_att_op _ Htk _ _ Ha) as [o Ho]. pose proof (tk_att_range _ Htk _ _ _ Ha Ho). lia.
Qed.

(** An operation that waits to start or to retry always has attempts left. *)
Lemma waiting_has_attempts s ko o :
  lifecycle_ok (lifecycle_of s) → operations s !! ko = Some o → or_status o ∈ ["ready"; "retry_wait"] →
  attempts_made (previous_attempt (or_operation_id o) s) < or_max_attempts o.
Proof.
  intros [Htk Hst] Ho Hs. pose proof (tk_op_key _ Htk _ _ Ho) as Hkey.
  destruct (tk_op_range _ Htk _ _ Ho) as [_ Hmax].
  destruct (previous_attempt _ s) as [a|] eqn:Hp; simpl; [|lia].
  apply previous_attempt_Some in Hp as [[ka Ha] Hao]. mem_cases Hs.
  - destruct (st_ready _ Hst _ _ _ _ Ho Hs Ha). congruence.
  - eapply (st_retry _ Hst ko); eauto. congruence.
Qed.

Lemma waiting_iff now s j o :
  lifecycle_ok (lifecycle_of s) → operations s !! or_operation_id o = Some o →
  startable now j o (previous_attempt (or_operation_id o) s) = true
  ∨ expired now o (previous_attempt (or_operation_id o) s) = true ↔ waiting now s j o.
Proof.
  intros Hlc Ho. rewrite startable_true, expired_true. split.
  - intros [(Hj & _ & [Hs|[Hs Ht]])|(Hs & a & Hp & Ha & Hx)];
      [by apply waiting_start|by apply waiting_retry|].
    apply previous_attempt_Some in Hp as [[k Hk] Hao]. by eapply waiting_take_over.
  - intros [Hj Hs|Hj Hs Ht|k a Hk Hao Ha Hx].
    + left. split_and!; [done| |auto]. eapply waiting_has_attempts; eauto. rewrite Hs; mem.
    + left. split_and!; [done| |auto]. eapply waiting_has_attempts; eauto. rewrite Hs; mem.
    + right. rewrite <- Hao in Ho |- *. split; [by eapply (st_att_running _ (proj2 Hlc))|].
      exists a. split_and!; [by eapply running_is_previous|done..].
Qed.

(** The queries select exactly what may be claimed. *)
Lemma candidate_iff now locked scope request s j o :
  lifecycle_ok (lifecycle_of s) →
  candidate now locked scope request s j o ↔ claimable now locked scope request s j o.
Proof.
  intros Hlc. split.
  - intros [Hin [Hjb Hob Hact Hws Hpred Hready] Hul Hprof].
    destruct (job_operations_keys _ _ _ (proj1 Hlc) Hin) as (Ho & Hj & Hk). split; try done.
    + by apply bounds_in_scope.
    + by apply workspace_gate_true.
    + by apply profile_gate_true.
    + exact (proj1 (has_unfinished_predecessor_false o s) Hpred).
    + by apply waiting_iff.
    + by apply unlocked_true.
  - intros [Hj Ho Hsc Hact Hws Hprof Hpred Hw Hul]. apply bounds_in_scope in Hsc as [].
    split; [apply elem_of_job_operations; eauto| |by apply unlocked_true|by apply profile_gate_true].
    split; try done; [by apply workspace_gate_true|by apply has_unfinished_predecessor_false|by apply waiting_iff].
Qed.

(** ** Soundness *)

(** C5: claims are sound.  A granted lease is for an operation in scope that
    waits for a worker and whose predecessors all succeeded, of an active job
    whose workspace is active and whose pinned provider and model the worker
    serves; no claimable operation of an older job or an earlier stage was
    passed over; and the returned fence is the live lease of that job, held by
    the requesting worker, until the deadline. *)
Theorem claim_sound now locked new_id scope request s lease s' :
  reachable s → claim_recovery now locked new_id scope request s = (Ok (Some lease), s') →
  ∃ j o, claimable now locked scope request s j o
    ∧ (∀ j2 o2, claimable now locked scope request s j2 o2 → recovery_order (j2, o2) (j, o) = false)
    ∧ af_owner_instance_id (rl_fence lease) = cr_owner_instance_id request
    ∧ fence_job (rl_fence lease) s' = Some (jr_job_id j)
    ∧ ∀ t, t < lease_deadline now (cr_lease_seconds request) → fence_live s' t (rl_fence lease) = true.
Proof.
  intros Hlc%reachable_lifecycle_ok (j & o & row & Hg)%claim_granted; [|exact (proj1 Hlc)].
  destruct Hg as [_ Hreads Hfence Hop Hrun Howner Hdead _ _ Hatts Hops _ _].
  destruct Hreads as [Hin Hrec Hul Hprof Hfirst _]. rewrite Hfence. simpl.
  destruct (job_operations_keys _ _ _ (proj1 Hlc) Hin) as (Ho & Hj & Hk).
  exists j, o. split_and!; [by apply candidate_iff| |done| |].
  - intros j2 o2 []%candidate_iff; [|done]. by apply Hfirst.
  - unfold fence_job. simpl. rewrite Hatts, lookup_insert_eq. simpl.
    by rewrite Hops, Hop, lookup_insert_eq, Hk.
  - intros t Ht. apply fence_live_true. exists row. simpl. rewrite Hatts, lookup_insert_eq, Hdead. done.
Qed.

(** ** Completeness *)

Lemma to_u32_small z field : 0 ≤ z ≤ i32_max → to_u32 z field = Ok z.
Proof. intros Hz. unfold to_u32, u32_try_from. rewrite try_range_in; [done|]. unfold u32_max, i32_max in *. lia. Qed.

Lemma to_u64_small z field : 0 ≤ z ≤ i64_max → to_u64 z field = Ok z.
Proof. intros Hz. unfold to_u64, u64_try_from. rewrite try_range_in; [done|]. unfold u64_max, i64_max in *. lia. Qed.

Lemma resumable_checkpoint_stored j o s x :
  x ∈ resumable_checkpoints j o s →
  (∃ k, checkpoints s !! k = Some x.2) ∧ attempts s !! ckr_attempt_id x.2 = Some x.1.2
  ∧ operations s !! ar_operation_id x.1.2 = Some x.1.1
  ∧ or_job_id x.1.1 = jr_job_id j ∧ or_ordinal x.1.1 ≤ or_ordinal o.
Proof.
  unfold resumable_checkpoints. intros (c & Hin & Hc)%list_elem_of_bind. apply elem_of_values in Hc.
  destruct (attempts s !! _) as [a|] eqn:Ha; [|by apply not_elem_of_nil in Hin].
  destruct (operations s !! _) as [co|] eqn:Hco; [|by apply not_elem_of_nil in Hin].
  destruct (_ && _) eqn:Hb; [|by apply not_elem_of_nil in Hin].
  apply list_elem_of_singleton in Hin as ->. autorewrite with factory in Hb. simpl. naive_solver.
Qed.

(** The selected row always converts: nothing the query returns is out of
    range. *)
Lemma selection_total now job_id operation_id s j o :
  lifecycle_ok (lifecycle_of s) → checkpoints_ok s → (j, o) ∈ job_operations s →
  is_recoverable now job_id operation_id j o s →
  ∃ selection, RecoverySelection_try_from (recovery_selection_row j o s) = Ok selection.
Proof.
  intros [Htk Hst] Hck Hin Hrec. destruct (job_operations_keys _ _ _ Htk Hin) as (Ho & Hj & Hk).
  destruct (tk_op_range _ Htk _ _ Ho) as [_ Hmax].
  pose proof (attempts_made_nonneg _ (or_operation_id o) s Htk eq_refl) as Hpos.
  assert (∃ cause, recovery_cause_of_status (or_status o) = Ok cause
          ∧ (cause ≠ LeaseExpired → attempts_made (previous_attempt (or_operation_id o) s) < or_max_attempts o))
    as (cause & Hcause & Hlt).
  { destruct (rec_ready _ _ _ _ _ _ Hrec) as [(_ & Hlt & Hs)%startable_true|[Hs _]%expired_true].
    - destruct Hs as [->|[-> _]]; eexists; (split; [reflexivity|done]).
    - rewrite Hs. exists LeaseExpired. done. }
  assert (attempts_made (previous_attempt (or_operation_id o) s) ≤ i32_max) as Hle.
  { destruct (previous_attempt _ _) as [a|] eqn:Hp; simpl; [|unfold i32_max; lia].
    apply previous_attempt_Some in Hp as [[k Ha] Hao]. rewrite <- Hao in Ho.
    pose proof (tk_att_range _ Htk _ _ _ Ha Ho). lia. }
  assert (∃ c, selection_checkpoint (recovery_selection_row j o s) = Ok c) as [c Hc].
  { unfold selection_checkpoint, recovery_selection_row, resume_checkpoint. simpl.
    destruct (best resume_order _) as [x|] eqn:Hb; simpl; [|by eexists].
    apply best_elem, resumable_checkpoint_stored in Hb as ((k & Hk') & _).
    pose proof (ck_sequence _ Hck _ _ Hk'). rewrite to_u64_small by lia. by eexists. }
  assert (∃ c, selection_correlation (recovery_selection_row j o s) = Ok c) as [co Hco].
  { unfold selection_correlation, recovery_selection_row. simpl.
    match goal with |- context [cor_correlation_id <$> ?x] => destruct x; simpl end; by eexists. }
  unfold RecoverySelection_try_from. simpl. rewrite Hcause. simpl. rewrite Hc. simpl. rewrite Hco. simpl.
  rewrite (to_u32_small (or_max_attempts o)) by lia.
  rewrite to_u32_small; [by eexists|].
  destruct cause; [specialize (Hlt ltac:(done))|specialize (Hlt ltac:(done))|lia];
    rewrite i32_wrapping_add_small; unfold i32_min; lia.
Qed.

Lemma candidate_query now locked scope request s j o :
  candidate now locked scope request s j o →
  is_Some (RECOVERY_CANDIDATE_SQL now locked (database_ids scope).1 (database_ids scope).2
    (ep_provider <$> cr_execution_profile request) (ep_model <$> cr_execution_profile request) s).
Proof.
  intros [Hin Hrec%recoverable_true Hul Hprof]. unfold RECOVERY_CANDIDATE_SQL.
  destruct (best recovery_order _) as [[j1 o1]|] eqn:Hb; [by eexists|]. apply best_None in Hb. exfalso.
  assert ((j, o) ∈ ([] : list (JobRow * OperationRow))) as []%not_elem_of_nil. rewrite <- Hb.
  apply list_elem_of_In, filter_In. rewrite <- list_elem_of_In. split; [done|]. simpl. by rewrite Hul, Hprof, Hrec.
Qed.

Lemma selection_of_candidate now job_id operation_id s j o :
  tables_ok (lifecycle_of s) → (j, o) ∈ job_operations s → is_recoverable now job_id operation_id j o s →
  RECOVERY_SELECTION_SQL now job_id (Some (or_operation_id o)) s = Some (recovery_selection_row j o s).
Proof.
  intros Htk Hin Hrec. assert (is_recoverable now job_id (Some (or_operation_id o)) j o s) as Hrec'.
  { destruct Hrec. split; try done. simpl. by apply bool_decide_eq_true. }
  destruct (RECOVERY_SELECTION_SQL _ _ _ _) as [row|] eqn:Hsql.
  - apply recovery_sql_Some in Hsql as (j1 & o1 & Hin1 & Hr1 & ->).
    pose proof (rec_operation_bound _ _ _ _ _ _ Hr1) as Hid. simpl in Hid. apply bool_decide_eq_true in Hid.
    destruct (job_operations_keys _ _ _ Htk Hin) as (Ho & Hj & _).
    destruct (job_operations_keys _ _ _ Htk Hin1) as (Ho1 & Hj1 & _).
    assert (o1 = o) as -> by congruence. by assert (j1 = j) as -> by congruence.
  - unfold RECOVERY_SELECTION_SQL in Hsql. destruct (best _ _) as [[j1 o1]|] eqn:Hb; [done|].
    apply best_None in Hb. exfalso. apply recoverable_true in Hrec'.
    assert ((j, o) ∈ ([] : list (JobRow * OperationRow))) as []%not_elem_of_nil. rewrite <- Hb.
    apply list_elem_of_In, filter_In. rewrite <- list_elem_of_In. by split.
Qed.

Lemma attempt_record_total row :
  ar_status row = "running" → 1 ≤ ar_attempt_number row ≤ i32_max → 1 ≤ ar_lease_epoch row ≤ i64_max →
  ar_recovery_cause row ∈ ["new_operation"; "retry_scheduled"; "lease_expired"] →
  ∃ r, AttemptRecord_try_from row = Ok r.
Proof.
  intros Hs Hn He Hc. unfold AttemptRecord_try_from. rewrite Hs. rewrite to_u32_small, to_u64_small by lia.
  mem_cases Hc; rewrite Hc; by eexists.
Qed.

(** The two ways the claim produces its attempt never fail on recoverable
    rows. *)
Lemma take_over_total now aid owner ex ra rc s a :
  attempts s !! aid = Some a → ar_status a = "running" → ar_lease_expires_at a ≤ now →
  1 ≤ ar_lease_epoch a < i64_max →
  ∃ s1, take_over_expired now aid owner ex ra rc s
        = Ok (Some (take_over owner (ar_lease_epoch a + 1) ex ra rc a), s1).
Proof.
  intros Ha Hr Hx He. unfold take_over_expired, mbind, tx_bind, gets, lift, modify, mret, tx_ret.
  rewrite Ha, bool_decide_eq_true_2, (proj2 (Z.leb_le _ _) Hx) by done. simpl.
  rewrite (proj2 (checked_column_Ok _ _ (ar_lease_epoch a + 1))) by (unfold i64_max in *; split; [done|lia]).
  by eexists.
Qed.

Lemma insert_attempt_total row s :
  0 < ar_attempt_number row → attempts s !! ar_attempt_id row = None →
  (∀ k b, attempts s !! k = Some b → ar_operation_id b = ar_operation_id row →
     ar_attempt_number b < ar_attempt_number row) →
  ∃ s1, insert_attempt row s = Ok (tt, s1).
Proof.
  intros Hpos Hnone Hlt. unfold insert_attempt, mbind, tx_bind, gets, lift, modify.
  rewrite (proj2 (Z.leb_gt _ _) Hpos). simpl.
  replace (exists_row _ (attempts s)) with false.
  - simpl. rewrite (proj2 (insert_unique_Ok _ _ _ _) (conj Hnone eq_refl)). by eexists.
  - symmetry. apply exists_row_false. intros k b Hb. apply not_true_iff_false. autorewrite with factory.
    intros [Ho Hn]. pose proof (Hlt _ _ Hb Ho). lia.
Qed.

Section one_selection.
Context (now : Z) (new_id : string) (request : ClaimRequest) (s s0 : db) (j : JobRow) (o : OperationRow)
  (selection : RecoverySelection).
Context (Hlc : lifecycle_ok (lifecycle_of s)) (E0 : attempts s0 = attempts s)
  (Hin : (j, o) ∈ job_operations s)
  (Hsel : RecoverySelection_try_from (recovery_selection_row j o s) = Ok selection).

Lemma claim_attempt_open_total :
  attempts s !! new_id = None → startable now j o (previous_attempt (or_operation_id o) s) = true →
  ∃ row s1 r, claim_attempt now new_id request selection s0 = Ok (Some row, s1)
    ∧ AttemptRecord_try_from row = Ok r.
Proof using All.
  intros Hnone (Hjs & Hmade & Hos)%startable_true. destruct Hlc as [Htk Hst].
  destruct (job_operations_keys _ _ _ Htk Hin) as (Ho & Hj & Hk).
  destruct (selection_of_row _ _ _ _ Hsel) as (_ & Eo & Hcause & _ & Hnext).
  apply recovery_cause_of_status_Ok in Hcause. destruct (tk_op_range _ Htk _ _ Ho) as [_ Hmax].
  assert (rs_cause selection ≠ LeaseExpired) as Hle
    by (intros E; rewrite E in Hcause; destruct Hos as [?|[? _]]; congruence).
  specialize (Hnext Hle). pose proof (attempts_made_nonneg _ (or_operation_id o) s Htk eq_refl).
  rewrite i32_wrapping_add_small in Hnext by (unfold i32_min; lia).
  unfold claim_attempt. destruct (resume_ids _) as [ra rc] eqn:Hres. rewrite decide_False by done.
  unfold i32_try_from. rewrite try_range_in by (unfold i32_min; lia).
  remember (opened_attempt now new_id request selection (rs_next_attempt_number selection)) as row eqn:Hopen.
  assert (row = mkAttemptRow new_id (or_operation_id o) (rs_next_attempt_number selection) "running"
    (cr_owner_instance_id request) 1 (lease_deadline now (cr_lease_seconds request))
    (RecoveryCause_as_database_value (rs_cause selection)) ra rc None now None) as Hrow
    by (rewrite Hopen; unfold opened_attempt; by rewrite Hres, Eo).
  destruct (insert_attempt_total row s0) as [s1 Hins]; rewrite ?E0.
  - rewrite Hrow. simpl. lia.
  - by rewrite Hrow.
  - rewrite Hrow. simpl. intros k b Hb Hbo. pose proof (attempts_made_ge _ _ _ _ Hb Hbo). lia.
  - destruct (attempt_record_total row) as [r Hr];
      [by rewrite Hrow|rewrite Hrow; simpl; lia|rewrite Hrow; unfold i64_max; simpl; lia
      |rewrite Hrow; simpl; destruct (rs_cause selection); simpl; mem|].
    exists row, s1, r. split; [|done]. unfold mbind, tx_bind. simpl. by rewrite <- Hopen, Hins.
Qed.

Lemma claim_attempt_take_over_total :
  (∀ k a, attempts s !! k = Some a → ar_lease_epoch a < i64_max) →
  expired now o (previous_attempt (or_operation_id o) s) = true →
  ∃ row s1 r, claim_attempt now new_id request selection s0 = Ok (Some row, s1)
    ∧ AttemptRecord_try_from row = Ok r.
Proof using All.
  intros Hep (Hs & a & Hp & Har & Hx)%expired_true. destruct Hlc as [Htk Hst].
  destruct (job_operations_keys _ _ _ Htk Hin) as (Ho & Hj & Hk).
  destruct (selection_of_row _ _ _ _ Hsel) as (_ & Eo & Hcause & Hprev & _).
  apply recovery_cause_of_status_Ok in Hcause. destruct (tk_op_range _ Htk _ _ Ho) as [_ Hmax].
  rewrite Hs in Hcause. assert (rs_cause selection = LeaseExpired) as Hle by (by destruct (rs_cause _)).
  unfold claim_attempt. destruct (resume_ids _) as [ra rc]. rewrite decide_True by done.
  rewrite Hprev, Hp. simpl.
  apply previous_attempt_Some in Hp as [[k Ha] Hao]. rewrite (tk_att_key _ Htk _ _ Ha).
  destruct (st_att _ Hst _ _ Ha) as (_ & He & _). pose proof (Hep _ _ Ha). rewrite <- Hao in Ho.
  pose proof (tk_att_range _ Htk _ _ _ Ha Ho).
  destruct (take_over_total now k (cr_owner_instance_id request)
    (lease_deadline now (cr_lease_seconds request)) ra rc s0 a) as [s1 Ht]; [by rewrite E0|done|done|simpl in *; lia|].
  rewrite Ht. edestruct attempt_record_total as [r Hr]; [..|by eauto]; simpl in *; [done|lia|lia|mem].
Qed.
End one_selection.

(** A claim for which some row qualifies succeeds with a lease. *)
Lemma claim_grants now locked new_id scope request s j o :
  reachable s → cr_lease_seconds request ≠ 0 → attempts s !! new_id = None →
  (∀ k a, attempts s !! k = Some a → ar_lease_epoch a < i64_max) →
  claimable now locked scope request s j o →
  ∃ lease s', claim_recovery now locked new_id scope request s = (Ok (Some lease), s').
Proof.
  intros Hr Hsecs Hnone Hep Hc. pose proof (reachable_lifecycle_ok s Hr) as Hlc. pose proof Hlc as [Htk Hst].
  apply candidate_iff in Hc; [|done]. destruct (candidate_query _ _ _ _ _ _ _ Hc) as [oid Hcand]. clear Hc j o.
  pose proof Hcand as (j & o & Hin & Hrec & Hul & Hprof & _ & ->)%recovery_candidate_Some.
  destruct (job_operations_keys _ _ _ Htk Hin) as (Ho & Hj & Hk).
  destruct (selection_total _ _ _ _ _ _ Hlc (reachable_checkpoints_ok s Hr) Hin Hrec) as [sel Hsel].
  destruct (selection_of_row _ _ _ _ Hsel) as (Ej & Eo & _).
  assert (∃ row s1 r, claim_attempt now new_id request sel
     (set_jobs (alter (job_claimed now) (rs_job_id sel) (jobs s)) s) = Ok (Some row, s1)
     ∧ AttemptRecord_try_from row = Ok r) as (row & s1 & r & Hatt & Hrow).
  { destruct (rec_ready _ _ _ _ _ _ Hrec);
      [by eapply claim_attempt_open_total|by eapply claim_attempt_take_over_total]. }
  unfold claim_recovery, mbind, proc_bind, commit_some, claim_tx.
  unfold mbind, tx_bind, gets, lift, mret, tx_ret, update_job, update_operation, modify, guard_err.
  rewrite (proj2 (Z.eqb_neq _ _) Hsecs). destruct (database_ids scope) as [jb ob]. simpl in *.
  rewrite Hcand, (selection_of_candidate _ _ _ _ _ _ Htk Hin Hrec), Hsel.
  rewrite Ej, Hk, Hj, (proj2 (active_status_true _) (rec_active _ _ _ _ _ _ Hrec)).
  rewrite Ej, Hk in Hatt. rewrite Hatt. unfold proc_lift. rewrite Hrow. by eauto.
Qed.

(** C6: claims are complete.  With a positive lease time, a fresh attempt
    identifier and lease epochs short of the 64-bit limit, a claim succeeds with
    a lease whenever some operation in scope is claimable, and returns nothing,
    changing nothing, exactly when none is; it never fails. *)
Theorem claim_complete now locked new_id scope request s :
  reachable s → cr_lease_seconds request ≠ 0 → attempts s !! new_id = None →
  (∀ k a, attempts s !! k = Some a → ar_lease_epoch a < i64_max) →
  (∃ j o, claimable now locked scope request s j o)
    ∧ (∃ lease s', claim_recovery now locked new_id scope request s = (Ok (Some lease), s'))
  ∨ (∀ j o, ~ claimable now locked scope request s j o)
    ∧ claim_recovery now locked new_id scope request s = (Ok None, s).
Proof.
  intros Hr Hsecs Hnone Hep. pose proof (reachable_lifecycle_ok s Hr) as Hlc.
  destruct (RECOVERY_CANDIDATE_SQL now locked (database_ids scope).1 (database_ids scope).2
    (ep_provider <$> cr_execution_profile request) (ep_model <$> cr_execution_profile request) s)
    as [oid|] eqn:Hcand.
  - left. pose proof Hcand as (j & o & Hin & Hrec & Hul & Hprof & _ & ->)%recovery_candidate_Some.
    assert (claimable now locked scope request s j o) as Hc by (by apply candidate_iff).
    split; [by exists j, o|by eapply claim_grants].
  - right. split.
    + intros j o Hc%candidate_iff; [|done]. apply candidate_query in Hc as [oid Hc]. congruence.
    + unfold claim_recovery, mbind, proc_bind, commit_some, claim_tx, mbind, tx_bind, gets, lift, mret, tx_ret, guard_err.
      rewrite (proj2 (Z.eqb_neq _ _) Hsecs). destruct (database_ids scope) as [jb ob]. simpl in *. by rewrite Hcand.
Qed.

(** ** Resumption *)

#[local] Instance resume_order_strict_weak : StrictWeak resume_order.
Proof.
  split; unfold resume_order.
  - intros [[ox ax] cx] [[oy ay] cy]. autorewrite with factory. intros Hxy. apply not_true_iff_false.
    autorewrite with factory. lia.
  - intros [[ox ax] cx] [[oy ay] cy] [[oz az] cz]. rewrite <- !not_true_iff_false. autorewrite with factory. lia.
Qed.

Lemma selection_resume j o s selection :
  RecoverySelection_try_from (recovery_selection_row j o s) = Ok selection →
  match rs_resume selection with
  | ResumeFresh => resume_checkpoint j o s = None
  | FromCheckpoint c => ∃ row, resume_checkpoint j o s = Some row ∧ CheckpointRecord_try_from row = Ok c
  end.
Proof.
  intros (_ & _ & _ & _ & _ & Hc)%RecoverySelection_try_from_Ok.
  unfold selection_checkpoint, recovery_selection_row in Hc. simpl in Hc.
  destruct (resume_checkpoint j o s) as [row|]; simpl in Hc.
  - inv_tx. destruct (rs_resume selection) as [|c]; [done|]. exists row. split; [done|].
    unfold CheckpointRecord_try_from, required in *. inv_tx. simplify_eq.
    match goal with H : to_u64 _ _ = _ |- _ => rewrite H end. done.
  - by destruct (rs_resume selection).
Qed.

(** resumption.  A granted lease resumes from a stored checkpoint of the same
    job, at the claimed operation's own or an earlier stage, and no later stage,
    attempt or sequence of that job has one; it starts fresh only when the job
    has no such checkpoint.  The attempt row records what it resumes from. *)
Theorem claim_resumes_latest now locked new_id scope request s lease s' :
  reachable s → claim_recovery now locked new_id scope request s = (Ok (Some lease), s') →
  ∃ j o row, claimable now locked scope request s j o
  ∧ attempts s' !! af_attempt_id (rl_fence lease) = Some row
  ∧ (ar_resumes_attempt_id row, ar_resumes_checkpoint_id row) = resume_ids (rs_resume (rl_selection lease)) ∧
  match rs_resume (rl_selection lease) with
  | ResumeFresh => resumable_checkpoints j o s = []
  | FromCheckpoint c =>
      ∃ x, x ∈ resumable_checkpoints j o s
        ∧ cp_checkpoint_id c = ckr_checkpoint_id x.2 ∧ cp_attempt_id c = ar_attempt_id x.1.2
        ∧ cp_payload c = ckr_payload x.2
        ∧ ∀ y, y ∈ resumable_checkpoints j o s → resume_order y x = false
  end.
Proof.
  intros Hlc%reachable_lifecycle_ok (j & o & row & Hg)%claim_granted; [|exact (proj1 Hlc)]. pose proof Hlc as [Htk _].
  destruct (gr_reads _ _ _ _ _ _ _ _ _ _ _ Hg) as [Hin Hrec Hul Hprof _ Hsel].
  exists j, o, row. split; [by apply candidate_iff|]. split.
  { by rewrite (gr_fence _ _ _ _ _ _ _ _ _ _ _ Hg), (gr_attempts _ _ _ _ _ _ _ _ _ _ _ Hg), lookup_insert_eq. }
  split; [exact (gr_resumes _ _ _ _ _ _ _ _ _ _ _ Hg)|]. apply selection_resume in Hsel. unfold resume_checkpoint in Hsel.
  destruct (rs_resume (rl_selection lease)) as [|c].
  - by apply fmap_None, best_None in Hsel.
  - destruct Hsel as (ck & (x & Hb & ->)%fmap_Some & Hc). exists x.
    pose proof (best_elem _ _ _ Hb) as Hx. split; [done|].
    pose proof (resumable_checkpoint_stored _ _ _ _ Hx) as (_ & Ha & _).
    unfold CheckpointRecord_try_from in Hc. inv_tx. simpl. split_and!; [done| |done|exact (best_first _ _ _ Hb)].
    by rewrite (tk_att_key _ Htk _ _ Ha).
Qed.

(** ** No active job is stuck *)

(** The first operation of a job that has not succeeded. *)
Lemma first_unfinished s k :
  (∃ ko o, operations s !! ko = Some o ∧ or_job_id o = k ∧ or_status o ≠ "succeeded") →
  ∃ ko o, operations s !! ko = Some o ∧ or_job_id o = k ∧ or_status o ≠ "succeeded"
    ∧ ∀ kp p, operations s !! kp = Some p → or_job_id p = k → or_ordinal p < or_ordinal o →
        or_status p = "succeeded".
Proof.
  intros (k0 & o0 & Ho0 & Hj0 & Hs0).
  set (p := λ o, bool_decide (or_job_id o = k) && negb (bool_decide (or_status o = "succeeded"))).
  assert (∀ o, o ∈ select_rows p (operations s) ↔
            (∃ ko, operations s !! ko = Some o) ∧ or_job_id o = k ∧ or_status o ≠ "succeeded") as Hsel.
  { intros o. rewrite elem_of_select_rows. unfold p. by autorewrite with factory. }
  destruct (best (λ a b, or_ordinal a <? or_ordinal b) (select_rows p (operations s))) as [o|] eqn:Hb.
  - pose proof (best_elem _ _ _ Hb) as ([ko Ho] & Hj & Hs)%Hsel. exists ko, o. split_and!; try done.
    intros kp q Hq Hqj Hlt. destruct (decide (or_status q = "succeeded")) as [|Hn]; [done|exfalso].
    assert (or_ordinal o ≤ or_ordinal q); [|lia]. apply (best_min _ _ _ Hb), Hsel. eauto.
  - apply best_None in Hb. exfalso. assert (o0 ∈ select_rows p (operations s)) as Hin by (apply Hsel; eauto).
    rewrite Hb in Hin. by apply not_elem_of_nil in Hin.
Qed.

(** When the first unfinished operation of an active job can be picked up. *)
Lemma unfinished_waits s j o :
  lifecycle_ok (lifecycle_of s) → operations s !! or_operation_id o = Some o →
  (jr_status j ∈ ["queued"; "running"] ∧ or_status o ∈ ["ready"; "retry_wait"] ∨ or_status o = "running") →
  ∃ T, ∀ now, T ≤ now → waiting now s j o.
Proof.
  intros Hlc Ho [[Hjs Hs]|Hs].
  - exists (or_next_eligible_at o). intros now Hnow. mem_cases Hs; [by apply waiting_start|by apply waiting_retry].
  - destruct (st_op_running _ (proj2 Hlc) _ _ Ho Hs) as (ka & a & Ha & Hao & Har).
    exists (ar_lease_expires_at a). intros now Hnow. by eapply waiting_take_over.
Qed.

(** The operation an active job waits for: the first that has not succeeded. *)
Lemma active_job_waits s k j :
  lifecycle_ok (lifecycle_of s) → jobs s !! k = Some j → jr_status j ∈ ["queued"; "running"; "cancelling"] →
  ∃ o T, operations s !! or_operation_id o = Some o ∧ or_job_id o = k
    ∧ predecessors_succeeded (lifecycle_of s) o ∧ ∀ now, T ≤ now → waiting now s j o.
Proof.
  intros Hlc Hj Hjs. pose proof Hlc as [Htk Hst].
  assert (∃ ko o, operations s !! ko = Some o ∧ or_job_id o = k ∧ or_status o ≠ "succeeded") as Hun.
  { mem_cases Hjs; [apply (st_pending _ Hst k j Hj); rewrite Hjs; mem..|].
    destruct (st_cancelling _ Hst k j Hj Hjs) as (ko & o & Ho & Hoj & Hr). exists ko, o.
    split_and!; [done..|]. by rewrite Hr. }
  apply first_unfinished in Hun as (ko & o & Ho & Hoj & Hs & Hfirst). subst k.
  pose proof (tk_op_key _ Htk _ _ Ho) as Hkey. simpl in Hkey. subst ko.
  pose proof (st_allowed _ Hst _ _ _ Ho Hj) as Hal.
  assert (or_status o ∈ ["ready"; "running"; "retry_wait"; "succeeded"]) as Hos by (by eapply active_allowed).
  destruct (unfinished_waits s j o Hlc Ho) as [T HT].
  { destruct (decide (jr_status j = "cancelling")) as [Hc|Hnc].
    - right. destruct (st_cancelling _ Hst _ _ Hj Hc) as (kr & r & Hr & Hrj & Hrs).
      destruct (Z.lt_trichotomy (or_ordinal r) (or_ordinal o)) as [Hlt|[Heq|Hgt]].
      + rewrite (Hfirst _ _ Hr Hrj Hlt) in Hrs. done.
      + assert (kr = or_operation_id o) as -> by (eapply (tk_ordinal _ Htk); eauto). simpl in *. congruence.
      + destruct Hs. eapply (st_started _ Hst kr r); eauto. rewrite Hrs. apply running_started.
    - mem_cases Hos; [left|by right|left|done]; rewrite Hos; (split; [|mem]);
        mem_cases Hjs; try done; rewrite Hjs; mem. }
  exists o, T. split_and!; [done..| |done]. intros kp p Hp Hpj Hlt. by eapply Hfirst.
Qed.

(** C7: no active job is stuck.  For every queued, running or cancelling job of a
    reachable database (with an active workspace, if it is a task), there is a
    time from which on any worker that serves the job and asks for it, while
    nobody else holds its rows or moved it first, is granted a lease. *)
Theorem active_job_claimable s k j :
  reachable s → jobs s !! k = Some j → jr_status j ∈ ["queued"; "running"; "cancelling"] →
  (jr_kind j = "factory.task" → has_active_workspace j s) →
  (∀ ka a, attempts s !! ka = Some a → ar_lease_epoch a < i64_max) →
  ∃ T o, or_job_id o = k ∧ ∀ now locked new_id request,
    T ≤ now → (jr_kind j = "factory.task" → serves request j) → cr_lease_seconds request ≠ 0 →
    attempts s !! new_id = None → k ∉ locked → or_operation_id o ∉ locked →
    ∃ lease s', claim_recovery_for_job now locked new_id k request s = (Ok (Some lease), s').
Proof.
  intros Hr Hj Hjs Hws Hep. pose proof (reachable_lifecycle_ok s Hr) as Hlc.
  destruct (active_job_waits s k j Hlc Hj Hjs) as (o & T & Ho & Hoj & Hpred & HT).
  pose proof (tk_job_key _ (proj1 Hlc) _ _ Hj) as Hk.
  exists T, o. split; [done|]. intros now locked new_id request Hnow Hsv Hsecs Hnone Hkl Hol.
  apply (claim_grants now locked new_id (ScopeJob k) request s j o); try done.
  split; simpl; try done; [by rewrite Hoj|by apply HT|by rewrite Hk].
Qed.
End progress.

(** ** Witnesses *)

#[local] Existing Instance demo_external.

Lemma claim_sound_witness :
  ∃ lease s', claim_recovery 12 ∅ "a0" ScopeAny (demo_request "w1") (demo created_history) = (Ok (Some lease), s')
    ∧ ∃ j o, claimable 12 ∅ ScopeAny (demo_request "w1") (demo created_history) j o
        ∧ fence_job (rl_fence lease) s' = Some (jr_job_id j).
Proof.
  eexists _, _. split; [vm_compute; reflexivity|].
  edestruct (claim_sound 12 ∅ "a0" ScopeAny (demo_request "w1") (demo created_history))
    as (j & o & Hc & _ & _ & Hjob & _);
    [exact (demo_reachable created_history)|vm_compute; reflexivity|exact (ex_intro _ j (ex_intro _ o (conj Hc Hjob)))].
Defined.

Lemma claim_complete_witness :
  (∃ j o, claimable 12 ∅ ScopeAny (demo_request "w1") (demo created_history) j o)
    ∧ (∃ lease s', claim_recovery 12 ∅ "a0" ScopeAny (demo_request "w1") (demo created_history) = (Ok (Some lease), s'))
  ∨ (∀ j o, ~ claimable 12 ∅ ScopeAny (demo_request "w1") (demo created_history) j o)
    ∧ claim_recovery 12 ∅ "a0" ScopeAny (demo_request "w1") (demo created_history) = (Ok None, demo created_history).
Proof.
  apply claim_complete.
  - exact (demo_reachable created_history).
  - discriminate.
  - vm_compute. reflexivity.
  - intros k a Ha. vm_compute in Ha. destruct k; discriminate Ha.
Defined.

(** The second stage resumes from the checkpoint of the first. *)
Lemma claim_resumes_latest_witness :
  ∃ lease s', claim_recovery 200 ∅ "b" ScopeAny (demo_request "w1") (demo (created_history ++ demo_stage 0))
              = (Ok (Some lease), s')
    ∧ ∃ j o row, claimable 200 ∅ ScopeAny (demo_request "w1") (demo (created_history ++ demo_stage 0)) j o
    ∧ attempts s' !! af_attempt_id (rl_fence lease) = Some row
    ∧ (ar_resumes_attempt_id row, ar_resumes_checkpoint_id row) = resume_ids (rs_resume (rl_selection lease)) ∧
  match rs_resume (rl_selection lease) with
  | ResumeFresh => resumable_checkpoints j o (demo (created_history ++ demo_stage 0)) = []
  | FromCheckpoint c =>
      ∃ x, x ∈ resumable_checkpoints j o (demo (created_history ++ demo_stage 0))
        ∧ cp_checkpoint_id c = ckr_checkpoint_id x.2 ∧ cp_attempt_id c = ar_attempt_id x.1.2
        ∧ cp_payload c = ckr_payload x.2
        ∧ ∀ y, y ∈ resumable_checkpoints j o (demo (created_history ++ demo_stage 0)) → resume_order y x = false
  end.
Proof.
  eexists _, _. split; [vm_compute; reflexivity|].
  eapply (claim_resumes_latest 200 ∅ "b" ScopeAny (demo_request "w1") (demo (created_history ++ demo_stage 0)));
    [exact (demo_reachable (created_history ++ demo_stage 0))|vm_compute; reflexivity].
Defined.

Lemma active_job_claimable_witness :
  ∃ j, jobs (demo cancelling_history) !! "J" = Some j
    ∧ ∃ T o, or_job_id o = "J" ∧ ∀ now locked new_id request,
        T ≤ now → (jr_kind j = "factory.task" → serves request j) → cr_lease_seconds request ≠ 0 →
        attempts (demo cancelling_history) !! new_id = None → "J" ∉ locked → or_operation_id o ∉ locked →
        ∃ lease s', claim_recovery_for_job now locked new_id "J" request (demo cancelling_history)
                    = (Ok (Some lease), s').
Proof.
  eexists. split; [vm_compute; reflexivity|].
  apply active_job_claimable;
    [exact (demo_reachable cancelling_history)|vm_compute; reflexivity|right; right; left|..].
  - intros _. eexists. split; vm_compute; reflexivity.
  - intros ka a Ha. apply Z.ltb_lt, negb_false_iff.
    refine (proj1 (exists_row_false (λ a, negb (ar_lease_epoch a <? i64_max)) _) _ ka a Ha).
    vm_compute. reflexivity.
Defined.
