(* ===== verification/Outcomes.v ===== *)
(** * What each operation on a job does

    The functional behaviour of settlement, cancellation, acknowledgement,
    continuation, workspace binding and job reads, on every branch. *)

From S2P Require Import Prelude Sequences Domain Rows Store Leases Events Environments Attempts Jobs Recovery Lifecycle Refinement System Safety Fencing EventLog EnvironmentLaws Progress.
From Stdlib Require Import ZArith Ascii String Sorted.
From stdpp Require Import base gmap strings list sorting.

#[local] Open Scope string_scope.
#[local] Open Scope Z_scope.
#[local] Open Scope list_scope.

(** ** Reads *)

Definition operation_states : list string :=
  ["ready"; "running"; "retry_wait"; "succeeded"; "failed"; "cancelled"].

Lemma op_allowed_known js os : op_allowed js os → os ∈ operation_states.
Proof.
  unfold op_allowed, operation_states. intros [[_ Ho]|[[_ Ho]|[[_ ->]|[[_ Ho]|[_ Ho]]]]]; try mem; mem_cases Ho; subst; mem.
Qed.

Lemma OperationRecord_total o :
  or_status o ∈ operation_states → 0 ≤ or_ordinal o ≤ i32_max → 1 ≤ or_max_attempts o ≤ i32_max →
  ∃ r, OperationRecord_try_from o = Ok r ∧ op_operation_id r = or_operation_id o
    ∧ op_ordinal r = or_ordinal o ∧ op_kind r = or_kind o.
Proof.
  intros Hs Ho Hm. unfold OperationRecord_try_from. rewrite !to_u32_small by lia.
  unfold operation_states in Hs. mem_cases Hs; rewrite Hs; eexists; split_and!; reflexivity.
Qed.

Lemma Forall_choose {A B : Type} (P : A → B → Prop) l :
  Forall (λ x, ∃ y, P x y) l → ∃ l', Forall2 P l l'.
Proof.
  induction 1 as [|x l [y Hy] _ [l' IH]]; [by exists []|]. exists (y :: l'). by constructor.
Qed.

Lemma Forall2_sorted {A B : Type} (f : A → Z) (g : B → Z) (P : A → B → Prop) l l' :
  (∀ x y, P x y → g y = f x) → Forall2 P l l' →
  StronglySorted (λ a b, f a < f b) l → StronglySorted Z.lt (g <$> l').
Proof.
  intros Hfg. induction 1 as [|x y l l' Hxy Hl IH]; intros Hs; cbn; [constructor|].
  apply StronglySorted_inv in Hs as [Hs Hx]. constructor; [by apply IH|].
  clear IH Hs. rewrite (Hfg _ _ Hxy). clear Hxy. induction Hl as [|a b l l' Hab Hl IH]; cbn; [constructor|].
  apply Forall_cons in Hx as [Hx1 Hx2]. constructor; [by rewrite (Hfg _ _ Hab)|by apply IH].
Qed.

Section reads.
Context `{External}.

Lemma elem_of_operations_of k s o :
  o ∈ operations_of k s ↔ (∃ ko, operations s !! ko = Some o) ∧ or_job_id o = k.
Proof. unfold operations_of. by rewrite elem_of_select_rows, bool_decide_eq_true. Qed.

(** The operations of a job, ordered, have strictly increasing ordinals. *)
Lemma operations_of_increasing k s :
  tables_ok (lifecycle_of s) →
  StronglySorted (λ a b, or_ordinal a < or_ordinal b) (order_by by_ordinal (operations_of k s)).
Proof.
  intros Htk. apply order_by_increasing.
  - intros x y [[kx Hx] Ex]%elem_of_operations_of [[ky Hy] Ey]%elem_of_operations_of E.
    assert (kx = ky) as -> by (eapply (tk_ordinal _ Htk); eauto; congruence). congruence.
  - apply (NoDup_fmap_1 or_operation_id), select_rows_NoDup. intros k1 a1 k2 a2 H1 H2 _ _ E.
    rewrite <- (tk_op_key _ Htk _ _ H1), <- (tk_op_key _ Htk _ _ H2). done.
Qed.

Lemma load_job_row_total s k j :
  lifecycle_ok (lifecycle_of s) → jobs s !! k = Some j →
  ∃ job ops, load_job_row k s = Ok (mkDurableJob job ops)
    ∧ JobRecord_try_from j = Ok job
    ∧ Forall2 (λ o r, OperationRecord_try_from o = Ok r ∧ op_operation_id r = or_operation_id o
                      ∧ op_ordinal r = or_ordinal o ∧ op_kind r = or_kind o)
        (order_by by_ordinal (operations_of k s)) ops.
Proof.
  intros [Htk Hst] Hj.
  assert (∃ job, JobRecord_try_from j = Ok job) as [job Hjob].
  { pose proof (st_job _ Hst _ _ Hj) as Hs. unfold job_status_ok in Hs. unfold JobRecord_try_from.
    mem_cases Hs; rewrite Hs; by eexists. }
  assert (∃ ops, Forall2 (λ o r, OperationRecord_try_from o = Ok r ∧ op_operation_id r = or_operation_id o
                      ∧ op_ordinal r = or_ordinal o ∧ op_kind r = or_kind o)
        (order_by by_ordinal (operations_of k s)) ops) as [ops Hops].
  { apply Forall_choose, Forall_forall. intros o [[ko Ho] Hoj]%elem_of_order_by%elem_of_operations_of.
    destruct (tk_op_range _ Htk _ _ Ho). apply OperationRecord_total; [|done..].
    eapply op_allowed_known, (st_allowed _ Hst); [exact Ho|]. by rewrite Hoj. }
  exists job, ops. split_and!; [|done..]. unfold load_job_row. rewrite Hj. simpl.
  rewrite (proj2 (map_result_Ok _ _ ops)); [simpl; by rewrite Hjob|].
  eapply Forall2_impl; [exact Hops|]. naive_solver.
Qed.

(** jobs always load.  Reading a job of a reachable database never fails: it
    returns the job and exactly its operations, in strictly increasing ordinal
    order. *)
Theorem load_job_complete s k j :
  reachable s → jobs s !! k = Some j →
  ∃ d, load_job k s = (Ok d, s)
    ∧ job_id (dj_job d) = k ∧ jr_status j = JobState_as_database_value (job_state (dj_job d))
    ∧ StronglySorted Z.lt (op_ordinal <$> dj_operations d)
    ∧ ∀ oid, oid ∈ (op_operation_id <$> dj_operations d)
             ↔ ∃ o, operations s !! oid = Some o ∧ or_job_id o = k.
Proof.
  intros Hlc%reachable_lifecycle_ok Hj. pose proof Hlc as [Htk _].
  destruct (load_job_row_total s k j Hlc Hj) as (job & ops & Hload & Hjob & Hops).
  exists (mkDurableJob job ops). unfold load_job. rewrite Hload. simpl.
  apply JobRecord_try_from_Ok in Hjob as (state & Hstate & ->). simpl.
  split_and!; [done|by apply (tk_job_key _ Htk)|done| |].
  - eapply (Forall2_sorted or_ordinal); [|exact Hops|by apply operations_of_increasing]. naive_solver.
  - assert ((op_operation_id <$> ops) = or_operation_id <$> order_by by_ordinal (operations_of k s)) as ->.
    { clear Hload. induction Hops as [|o r l l' (_ & E & _) _ IH]; cbn; [done|]. by rewrite E, IH. }
    intros oid. rewrite list_elem_of_fmap. split.
    + intros (o & -> & [[ko Ho] Hoj]%elem_of_order_by%elem_of_operations_of). exists o.
      by rewrite (tk_op_key _ Htk _ _ Ho).
    + intros (o & Ho & Hoj). exists o. rewrite (tk_op_key _ Htk _ _ Ho). split; [done|].
      apply elem_of_order_by, elem_of_operations_of. eauto.
Qed.
End reads.

(** ** Settlement *)

Section settlements.
Context `{External}.

(** The release of a job's environment never fails and writes nothing else. *)
Lemma request_release_total now job_id s :
  ∃ m, request_release_in_transaction now job_id s = Ok (tt, set_environments m s)
    ∧ m = match environments s !! job_id with
          | Some e => <[job_id := release_row now e]> (environments s)
          | None => environments s
          end.
Proof.
  unfold request_release_in_transaction, update_environment, mbind, tx_bind, gets, modify, mret, tx_ret.
  destruct (environments s !! job_id) as [e|]; [by eexists|]. exists (environments s). by destruct s.
Qed.

(** The environments after a job ended. *)
Definition environments_released (now : Z) (job_id : string) (s : db) : gmap string ExecutionEnvironmentRow :=
  match environments s !! job_id with
  | Some e => <[job_id := release_row now e]> (environments s)
  | None => environments s
  end.


(** C10: a failed settlement.  The attempt becomes failed with the reported
    failure.  A retry is granted exactly when one was asked for and the
    operation has attempts left: the operation then waits until the requested
    time and the job keeps running.  Otherwise the operation and the job fail and
    the environment is released. *)
Theorem settle_failure_effect now new_id f s a o j failure :
  reachable s → fence_live s now f = true →
  runs (lifecycle_of s) (af_attempt_id f) a o j → jr_status j = "running" →
  let s' := (settle_attempt now new_id f (SettleFailed failure) None s).2 in
  (settle_attempt now new_id f (SettleFailed failure) None s).1 = Ok None
  ∧ attempts s' = <[af_attempt_id f := attempt_finished "failed" (Some (AttemptFailure_to_value failure)) now a]> (attempts s)
  ∧ match failure with
    | RetryAt retry_at _ => ar_attempt_number a < or_max_attempts o →
        operations s' = <[ar_operation_id a := operation_retry_at retry_at now o]> (operations s)
        ∧ jobs s' = jobs s ∧ environments s' = environments s
    | Terminal _ => True
    end
  ∧ (match failure with RetryAt _ _ => or_max_attempts o ≤ ar_attempt_number a | Terminal _ => True end →
     operations s' = <[ar_operation_id a := operation_with_status "failed" now o]> (operations s)
     ∧ jobs s' = <[or_job_id o := job_with_status "failed" now j]> (jobs s)
     ∧ environments s' = environments_released now (or_job_id o) s).
Proof.
  intros Hr Hlive (Ha & Har & Ho & Hj) Hjs. simpl in *.
  destruct (lock_attempt_context_live now f s (reachable_lifecycle_ok s Hr) Hlive)
    as (ctx & a0 & o0 & j0 & [(Ha0 & _ & Ho0 & Hj0) Hctx] & Hlock). simpl in *.
  assert (a0 = a) as -> by congruence. assert (o0 = o) as -> by congruence. assert (j0 = j) as -> by congruence.
  unfold settle_attempt, settle_attempt_with_event, settle_tx, commit.
  unfold mbind, tx_bind, lift, mret, tx_ret. simpl. rewrite Hlock, Hctx. simpl. rewrite Hjs. simpl.
  unfold settle_failure, update_attempt, update_operation, update_job, mbind, tx_bind, modify, granted_retry. simpl.
  rewrite (alter_insert_row _ _ _ a) by done.
  destruct failure as [retry_at d|d]; [destruct (_ <? _) eqn:E; [apply Z.ltb_lt in E|apply Z.ltb_ge in E]|]; simpl;
    try (match goal with |- context [request_release_in_transaction ?n ?i ?x] =>
           destruct (request_release_total n i x) as (m & -> & Hm) end); simpl in *;
    rewrite (alter_insert_row _ _ _ o) by done; split_and!; try done; try (intros; lia);
    by rewrite (alter_insert_row _ _ _ j).
Qed.
End settlements.

(** ** Cancellation *)

Section cancellation.
Context `{External}.

Lemma load_job_after {A : Type} (p : Proc A) s a s' k j :
  lifecycle_ok (lifecycle_of s') → p s = (Ok a, s') → jobs s' !! k = Some j →
  ∃ d, (p ≫= λ _, load_job k) s = (Ok d, s').
Proof.
  intros Hlc Hp Hj. destruct (load_job_row_total s' k j Hlc Hj) as (job & ops & Hload & _).
  exists (mkDurableJob job ops). unfold mbind, proc_bind, load_job. by rewrite Hp, Hload.
Qed.

Lemma exec_lifecycle_ok now c s : reachable s → lifecycle_ok (lifecycle_of (exec now c s)).
Proof. intros Hr. by apply reachable_lifecycle_ok, reachable_exec. Qed.

Lemma cancel_job_exec now k s : (cancel_job now k s).2 = exec now (CancelJob k) s.
Proof. unfold exec. simpl. by rewrite forget_snd. Qed.

(** What cancelling a job does, by the job's status. *)
Inductive cancel_outcome (now : Z) (k : string) (j : JobRow) (s : db) : Result unit → db → Prop :=
| cancel_already :
    jr_status j ∈ ["cancelled"; "cancelling"] → cancel_outcome now k j s (Ok tt) s
| cancel_refused :
    jr_status j ∈ ["succeeded"; "failed"] →
    cancel_outcome now k j s (Err (JobNotCancellable k (jr_status j))) s
| cancel_requested s' :
    jr_status j = "running" → has_running_attempt k s = true →
    s' = set_jobs (<[k := job_with_status "cancelling" now j]> (jobs s)) s →
    cancel_outcome now k j s (Ok tt) s'
| cancel_done s' :
    jr_status j ∈ ["queued"; "running"] → has_running_attempt k s = false →
    jobs s' = <[k := job_with_status "cancelled" now j]> (jobs s) →
    operations s' = cancelled_operations now k (operations s) → attempts s' = attempts s →
    environments s' = environments_released now k s →
    cancel_outcome now k j s (Ok tt) s'.

Lemma cancel_tx_outcome now k j s :
  lifecycle_ok (lifecycle_of s) → jobs s !! k = Some j →
  ∃ r s', commit (cancel_tx now k) s = (r, s') ∧ cancel_outcome now k j s r s'.
Proof.
  intros [Htk Hst] Hj. pose proof (st_job _ Hst _ _ Hj) as Hs. unfold job_status_ok in Hs. simpl in Hs.
  unfold commit, cancel_tx, mbind, tx_bind, gets, lift, throw, mret, tx_ret. rewrite Hj. simpl.
  assert (jr_status j ∈ ["queued"; "running"] → has_running_attempt k s = true → jr_status j = "running") as Hrun.
  { intros Hq (ka & a & Ha & Hc)%exists_row_true. simpl in Hc.
    destruct (operations s !! _) as [o|] eqn:Ho; autorewrite with factory in Hc; [|by destruct Hc].
    apply (running_attempt_job (lifecycle_of s) k j Hst Hj Hq). exists ka, a, o. tauto. }
  destruct (bool_decide (jr_status j = "cancelled") || bool_decide (jr_status j = "cancelling")) eqn:E1;
    [|destruct (bool_decide (jr_status j = "queued") || bool_decide (jr_status j = "running")) eqn:E2].
  - eexists _, _. split; [done|]. apply cancel_already. autorewrite with factory in E1. mem.
  - assert (jr_status j ∈ ["queued"; "running"]) as Hq by (autorewrite with factory in E2; mem).
    destruct (has_running_attempt k s) eqn:Hra.
    + eexists _, _. split; [done|]. apply cancel_requested; [by apply Hrun|done|].
      by rewrite <- (alter_insert_row (job_with_status "cancelling" now)).
    + unfold cancel_unfinished_operations, update_job, modify. simpl.
      match goal with |- context [request_release_in_transaction ?n ?i ?x] =>
        destruct (request_release_total n i x) as (m & -> & Hm) end. simpl in *.
      eexists _, _. split; [done|]. apply cancel_done; try done. simpl. by apply alter_insert_row.
  - eexists _, _. split; [done|]. apply cancel_refused.
    apply orb_false_iff in E1 as [?%bool_decide_eq_false ?%bool_decide_eq_false].
    apply orb_false_iff in E2 as [?%bool_decide_eq_false ?%bool_decide_eq_false].
    mem_cases Hs; try done; rewrite Hs; mem.
Qed.

(** Cancellation.  Cancelling an existing job of a reachable database cancels
    it at once, with its unfinished operations, when no attempt runs; marks it
    cancelling, and touches nothing else, when one does; changes nothing when it
    is cancelling or cancelled already; and is refused with the job's status when
    it has succeeded or failed. *)
Theorem cancel_job_effect now k j s :
  reachable s → jobs s !! k = Some j →
  ∃ r s', cancel_outcome now k j s r s' ∧ (cancel_job now k s).2 = s'
    ∧ match r with
      | Ok _ => ∃ d, (cancel_job now k s).1 = Ok d
      | Err e => (cancel_job now k s).1 = Err e
      end.
Proof.
  intros Hr Hj. destruct (cancel_tx_outcome now k j s) as (r & s' & Ht & Hout); [by apply reachable_lifecycle_ok|done|].
  pose proof (exec_lifecycle_ok now (CancelJob k) s Hr) as Hlc. rewrite <- cancel_job_exec in Hlc.
  exists r, s'. split; [done|]. destruct r as [u|e].
  - assert ((cancel_job now k s).2 = s') as E.
    { unfold cancel_job, mbind, proc_bind, load_job. by rewrite Ht. }
    split; [done|]. rewrite E in Hlc.
    destruct (exec_job_kept now (CancelJob k) s k Hr) as [j' Hj']; [by exists j|].
    rewrite <- cancel_job_exec, E in Hj'.
    destruct (load_job_after _ _ _ _ k j' Hlc Ht Hj') as [d Hd]. exists d. unfold cancel_job. by rewrite Hd.
  - unfold cancel_job, mbind, proc_bind. by rewrite Ht.
Qed.

(** The environment of the job, if it has one, has been released. *)
Definition environment_gone (k : string) (s : db) : bool :=
  match environments s !! k with
  | Some e => bool_decide (eer_status e = "released")
  | None => true
  end.

Lemma acknowledge_tx_total now f s a o j :
  lifecycle_ok (lifecycle_of s) → fence_live s now f = true →
  runs (lifecycle_of s) (af_attempt_id f) a o j → jr_status j = "cancelling" →
  environment_gone (or_job_id o) s = true →
  acknowledge_tx now f s = Ok (or_job_id o,
    set_jobs (<[or_job_id o := job_with_status "cancelled" now j]> (jobs s))
      (set_operations (cancelled_operations now (or_job_id o) (operations s))
        (set_attempts (<[af_attempt_id f := attempt_finished "abandoned" (Some cancellation_failure) now a]>
           (attempts s)) s))).
Proof.
  intros Hlc Hlive (Ha & Har & Ho & Hj) Hc Hgone. simpl in *.
  destruct (lock_attempt_context_live now f s Hlc Hlive) as (ctx & a0 & o0 & j0 & [(Ha0 & _ & Ho0 & Hj0) Hctx] & Hlock).
  simpl in *. assert (a0 = a) as -> by congruence. assert (o0 = o) as -> by congruence. assert (j0 = j) as -> by congruence.
  unfold acknowledge_tx, mbind, tx_bind, gets, lift, mret, tx_ret, update_attempt, update_job,
    cancel_unfinished_operations, modify.
  rewrite Hlock, Hctx. simpl. rewrite Hj. simpl. rewrite Hc. simpl.
  assert (guard_err (match eer_status <$> environments s !! or_job_id o with
                     | Some status => negb (bool_decide (status = "released"))
                     | None => false end)
    (InvalidInput [Lit "execution environment for cancelling job "; Display (or_job_id o);
                   Lit " must be released before acknowledgement"]) = Ok tt) as ->.
  { apply guard_err_Ok. unfold environment_gone in Hgone.
    destruct (environments s !! _) as [e|]; simpl; [by rewrite Hgone|done]. }
  simpl. by rewrite (alter_insert_row _ _ _ a), (alter_insert_row _ _ _ j), decide_True by done.
Qed.

(** Acknowledged cancellation.  The holder of the live lease of a cancelling
    job ends the cancellation exactly when the job's environment, if any, has
    been released: then the attempt is abandoned, the job is cancelled, and
    every operation of the job is succeeded or cancelled; otherwise the call is
    refused and nothing changes. *)
Theorem acknowledge_cancellation_effect now f s a o j :
  reachable s → fence_live s now f = true →
  runs (lifecycle_of s) (af_attempt_id f) a o j → jr_status j = "cancelling" →
  let s' := (acknowledge_job_cancellation now f s).2 in
  (environment_gone (or_job_id o) s = true →
     (∃ d, (acknowledge_job_cancellation now f s).1 = Ok d)
     ∧ jobs s' = <[or_job_id o := job_with_status "cancelled" now j]> (jobs s)
     ∧ attempts s' = <[af_attempt_id f := attempt_finished "abandoned" (Some cancellation_failure) now a]> (attempts s)
     ∧ ∀ k p, operations s' !! k = Some p → or_job_id p = or_job_id o → or_status p ∈ ["succeeded"; "cancelled"])
  ∧ (environment_gone (or_job_id o) s = false →
     (∃ e, (acknowledge_job_cancellation now f s).1 = Err e) ∧ s' = s).
Proof.
  intros Hr Hlive Hruns Hc s'. pose proof (reachable_lifecycle_ok s Hr) as Hlc. split; intros Hgone.
  - pose proof (acknowledge_tx_total now f s a o j Hlc Hlive Hruns Hc Hgone) as Ht.
    pose proof (exec_lifecycle_ok now (AcknowledgeJobCancellation f) s Hr) as Hlc'.
    unfold exec in Hlc'. simpl in Hlc'. rewrite forget_snd in Hlc'. fold s' in Hlc'.
    assert (s' = set_jobs (<[or_job_id o := job_with_status "cancelled" now j]> (jobs s))
      (set_operations (cancelled_operations now (or_job_id o) (operations s))
        (set_attempts (<[af_attempt_id f := attempt_finished "abandoned" (Some cancellation_failure) now a]>
           (attempts s)) s))) as Es.
    { unfold s', acknowledge_job_cancellation, mbind, proc_bind, commit. by rewrite Ht. }
    assert (jobs s' !! or_job_id o = Some (job_with_status "cancelled" now j)) as Hj'
      by (rewrite Es; simpl; by rewrite lookup_insert_eq).
    split_and!.
    + destruct (load_job_row_total s' _ _ Hlc' Hj') as (job & ops & Hload & _). exists (mkDurableJob job ops).
      unfold acknowledge_job_cancellation, mbind, proc_bind, commit. rewrite Ht, <- Es. unfold load_job. by rewrite Hload.
    + by rewrite Es.
    + by rewrite Es.
    + intros k p Hp Hpj. pose proof Hlc' as [_ Hst'].
      assert (op_allowed "cancelled" (or_status p)) as Hal.
      { change "cancelled" with (jr_status (job_with_status "cancelled" now j)).
        eapply (st_allowed _ Hst'); [exact Hp|]. simpl. by rewrite Hpj. }
      unfold op_allowed in Hal. destruct Hal as [[E _]|[[E _]|[[E _]|[[E _]|[_ Hs]]]]]; try done. mem_cases E; done.
  - unfold s', acknowledge_job_cancellation. rewrite (load_job_snd _ (λ i, i)).
    assert (∃ e, commit (acknowledge_tx now f) s = (Err e, s)) as [e He].
    { unfold commit. destruct (acknowledge_tx now f s) as [[i s1]|e] eqn:Ht; [exfalso|by exists e].
      unfold acknowledge_tx in Ht. inv_tx. destruct Hruns as (Ha & _ & Ho & _). simpl in Ha, Ho.
      match goal with H : lock_attempt_context _ _ _ = _ |- _ =>
        apply lock_context_rows in H as (-> & _ & a0 & o0 & j0 & (Ha0 & _ & Ho0 & _) & ->) end. simpl in *.
      assert (a0 = a) as -> by congruence. assert (o0 = o) as -> by congruence. inv_tx.
      unfold environment_gone in Hgone. destruct (environments s !! or_job_id o) as [e|]; simpl in *; [|done].
      rewrite Hgone in *. done. }
    unfold mbind, proc_bind. rewrite He. eauto.
Qed.
End cancellation.

(** ** Continuation *)

Section continuation.
Context `{External}.

Definition continuation_row (now : Z) (id job_id : string) (ordinal : Z) (kind : string) (input : Value) : OperationRow :=
  mkOperationRow id job_id ordinal kind input "ready" 3 now now now.

Lemma insert_continuation_rows now new_id k n input s u s' :
  0 ≤ n ≤ i32_max →
  insert_continuation now new_id k n input 0 CONTINUATION_KINDS s = Ok (u, s') →
  n + 2 ≤ i32_max
  ∧ s' = set_operations
      (<[new_id 2%nat := continuation_row now (new_id 2%nat) k (n + 2) "codex.remediate" (Object [])]>
      (<[new_id 1%nat := continuation_row now (new_id 1%nat) k (n + 1) "codex.review" (Object [])]>
      (<[new_id 0%nat := continuation_row now (new_id 0%nat) k n "codex.iterate" input]> (operations s)))) s.
Proof.
  intros Hn Hs. unfold CONTINUATION_KINDS in Hs. simpl in Hs. inv_tx.
  repeat match goal with H : insert_operation _ _ = _ |- _ =>
    apply insert_operation_Ok in H as (? & _ & _ & ->) end. simpl in *.
  destruct (i32_wrapping_add_nonneg n 2) as [E2 ?]; [done|unfold i32_max; lia|done|].
  change (Z.of_nat 2) with 2. change (Z.of_nat 1) with 1. change (Z.of_nat 0) with 0.
  rewrite E2, !i32_wrapping_add_small by (unfold i32_min; lia). by rewrite Z.add_0_r.
Qed.

(** Continuation.  A continuation that succeeds was given non-blank feedback
    for a succeeded [factory.task] with an active workspace; it requeues the job
    with the feedback appended to its task and adds exactly one round, the
    stages iterate, review and remediate at the next three ordinals, where the
    four initial stages and the earlier rounds of three account for all
    ordinals before them. *)
Theorem continue_job_effect now new_id k feedback s d s' :
  continue_job now new_id k feedback s = (Ok d, s') →
  ∃ j task n r,
    jobs s !! k = Some j ∧ jr_kind j = "factory.task" ∧ jr_status j = "succeeded"
    ∧ workspace_active k s = true ∧ trim feedback ≠ EmptyString
    ∧ value_get "task" (jr_input j) = Some (Str task)
    ∧ n = next_ordinal_of k s ∧ n = 4 + 3 * (r - 1) ∧ 1 ≤ r ∧ n + 2 ≤ i32_max
    ∧ jobs s' = <[k := job_requeued (value_set "task" (Str (follow_up_task task (trim feedback) r)) (jr_input j)) now j]> (jobs s)
    ∧ operations s' =
        <[new_id 2%nat := continuation_row now (new_id 2%nat) k (n + 2) "codex.remediate" (Object [])]>
        (<[new_id 1%nat := continuation_row now (new_id 1%nat) k (n + 1) "codex.review" (Object [])]>
        (<[new_id 0%nat := continuation_row now (new_id 0%nat) k n "codex.iterate" (feedback_input (trim feedback) r)]>
           (operations s)))
    ∧ attempts s' = attempts s.
Proof.
  intros Hc. unfold continue_job, mbind, proc_bind, proc_lift, commit in Hc. simpl in Hc.
  destruct (bool_decide (trim feedback = "")) eqn:Hblank; simpl in Hc; [done|].
  destruct (continue_tx now new_id k (trim feedback) s) as [[r s1]|e] eqn:Ht; [|done].
  assert (lifecycle_of s' = lifecycle_of s1) as Hs'.
  { unfold load_job in Hc. injection Hc as _ <-. apply append_job_event_frames. }
  unfold continue_tx, update_job in Ht. inv_tx.
  match goal with H : value_get "task" _ ≫= as_str = Some ?x |- _ => apply bind_Some in H as (v & Hv & Hstr); rename x into task end.
  match goal with H : jobs s !! k = Some ?x |- _ => rename x into j, H into Hj end.
  match goal with H : JobRecord_try_from j = Ok ?x |- _ => apply JobRecord_try_from_Ok in H as (st & Hst & ->) end.
  match goal with H : reactivate_in_transaction _ _ s = Ok (_, ?x) |- _ =>
    rename x into sr; apply reactivate_frames in H as E1 end.
  injection E1 as Ejobs Eops Eatt.
  assert (next_ordinal_of k sr = next_ordinal_of k s) as En by (unfold next_ordinal_of, operations_of; by rewrite Eops).
  rewrite En in *. match goal with H : checked_column _ _ = _ |- _ => apply checked_column_Ok in H as [-> Hle] end.
  match goal with H : continuation_round _ = Ok ?x |- _ =>
    rename x into r; apply continuation_round_Ok in H as (Hge & Hround & Hr) end.
  match goal with H : insert_continuation _ _ _ _ _ _ _ _ = _ |- _ =>
    apply insert_continuation_rows in H as [Hmax ->]; [|lia] end. simpl in *.
  repeat match goal with H : negb (bool_decide _) = false |- _ => apply negb_false_iff, bool_decide_eq_true in H end.
  match goal with H : negb (workspace_active _ _) = false |- _ => apply negb_false_iff in H end.
  subst st. simpl in *. injection Hs' as Hj' Ho' Ha'. rewrite Hj', Ho', Ha', Eatt, Eops, Ejobs.
  exists j, task, (next_ordinal_of k s), r.
  split_and!; try done; [by apply bool_decide_eq_false in Hblank| |].
  - rewrite Hv. destruct v; simpl in Hstr; congruence.
  - by apply alter_insert_row.
Qed.
End continuation.

(** ** Workspaces *)

Section workspaces.
Context `{External}.

Definition workspace_identity (w : WorkspaceRow) : string * string * string * Z :=
  (wsr_job_id w, wsr_repository_id w, wsr_base_revision w, wsr_created_at w).

Lemma exec_workspaces_frames now c s :
  match c with
  | PutWorkspace _ | MarkWorkspaceRemoved _ => True
  | _ => workspaces (exec now c s) = workspaces s
  end.
Proof. unfold exec. destruct c; simpl; rewrite ?forget_snd; try done; frame_all. Qed.

Lemma exec_workspace_kept now c s k w :
  workspaces s !! k = Some w →
  ∃ w', workspaces (exec now c s) !! k = Some w' ∧ workspace_identity w' = workspace_identity w.
Proof.
  intros Hw. pose proof (exec_workspaces_frames now c s) as E.
  assert (∀ i w0 w1, workspaces s !! i = Some w0 → workspace_identity w1 = workspace_identity w0 →
    ∃ w', <[i := w1]> (workspaces s) !! k = Some w' ∧ workspace_identity w' = workspace_identity w) as Hset.
  { intros i w0 w1 H0 Hid. destruct (decide (k = i)) as [->|Hne]; [exists w1|exists w].
    - rewrite lookup_insert_eq. split; [done|]. congruence.
    - by rewrite lookup_insert_ne. }
  destruct c; try (exists w; by rewrite E); clear E; unfold exec; simpl; rewrite ?forget_snd.
  - unfold put_workspace. rewrite proc_lift_snd. match goal with |- context [commit ?t s] =>
      destruct (commit_snd t s) as [->|[r Ht]]; [by exists w|]; set (s' := (commit t s).2) in *; clearbody s' end.
    inv_tx. simpl. destruct (workspaces s !! wb_job_id binding) as [w0|] eqn:H0; simpl.
    + by eapply Hset.
    + exists w. rewrite lookup_insert_ne; [done|]. intros <-. congruence.
  - unfold mark_workspace_removed. rewrite proc_lift_snd. match goal with |- context [commit ?t s] =>
      destruct (commit_snd t s) as [->|[r Ht]]; [by exists w|]; set (s' := (commit t s).2) in *; clearbody s' end.
    inv_tx. simpl. by eapply Hset.
Qed.

(** a workspace keeps its identity.  Once a job is bound to a repository at a
    base revision, no history of calls unbinds it or changes the repository
    identifier, the base revision or the creation time of the binding, whatever
    later bindings present. *)
Theorem workspace_identity_fixed history s k w :
  workspaces s !! k = Some w →
  ∃ w', workspaces (run history s) !! k = Some w' ∧ workspace_identity w' = workspace_identity w.
Proof.
  revert s w. induction history as [|[now c] history IH]; intros s w Hw; simpl; [by exists w|].
  destruct (exec_workspace_kept now c s k w Hw) as (w1 & Hw1 & E1).
  destruct (IH _ _ Hw1) as (w2 & Hw2 & E2). exists w2. split; [done|congruence].
Qed.

(** continuation rounds.  The round of an ordinal is defined exactly for the
    ordinals that follow a complete lifecycle (four stages, then rounds of
    three), and it counts those rounds from one. *)
Theorem continuation_round_exact n round :
  0 ≤ n ≤ i32_max →
  continuation_round n = Ok round ↔ 1 ≤ round ∧ n = 4 + 3 * (round - 1).
Proof.
  intros Hn. split.
  - intros (_ & Hr & Hpos)%continuation_round_Ok. done.
  - intros [Hpos ->]. unfold continuation_round, u32_try_from.
    rewrite try_range_in by (unfold u32_max, i32_max in *; lia). simpl.
    replace (4 + 3 * (round - 1) - 4) with ((round - 1) * 3) by lia.
    rewrite Z.mod_mul, Z.div_mul by lia. rewrite (proj2 (Z.ltb_ge _ _)) by lia. simpl. f_equal. lia.
Qed.
End workspaces.

(** ** Witnesses *)

#[local] Existing Instance demo_external.

Lemma load_job_complete_witness :
  ∃ d, load_job "J" (demo succeeded_history) = (Ok d, demo succeeded_history)
    ∧ job_id (dj_job d) = "J" ∧ StronglySorted Z.lt (op_ordinal <$> dj_operations d).
Proof.
  edestruct (load_job_complete (demo succeeded_history) "J") as (d & Hload & Hid & _ & Hsorted & _);
    [exact (demo_reachable succeeded_history)|vm_compute; reflexivity|].
  exists d. exact (conj Hload (conj Hid Hsorted)).
Defined.


Lemma settle_failure_effect_witness :
  (settle_attempt 20 "c" (demo_fence "a0" "w1" 1) (SettleFailed (RetryAt 900 Null)) None (demo running_history)).1 = Ok None.
Proof.
  eapply (settle_failure_effect 20 "c" (demo_fence "a0" "w1" 1) (demo running_history)).
  - exact (demo_reachable running_history).
  - vm_compute. reflexivity.
  - split; [vm_compute; reflexivity|]. split; [vm_compute; reflexivity|].
    split; [vm_compute; reflexivity|vm_compute; reflexivity].
  - vm_compute. reflexivity.
Defined.

Lemma cancel_job_effect_witness :
  ∃ j, jobs (demo running_history) !! "J" = Some j
  ∧ ∃ r s', cancel_outcome 13 "J" j (demo running_history) r s' ∧ (cancel_job 13 "J" (demo running_history)).2 = s'.
Proof.
  eexists. split; [vm_compute; reflexivity|].
  edestruct (cancel_job_effect 13 "J") as (r & s' & Hout & Hs & _);
    [exact (demo_reachable running_history)|vm_compute; reflexivity|].
  exists r, s'. exact (conj Hout Hs).
Defined.

Lemma acknowledge_cancellation_effect_witness :
  environment_gone "J" (demo released_history) = true
  ∧ ∃ d, (acknowledge_job_cancellation 18 (demo_fence "a0" "w1" 1) (demo released_history)).1 = Ok d.
Proof.
  split; [vm_compute; reflexivity|].
  eapply (acknowledge_cancellation_effect 18 (demo_fence "a0" "w1" 1) (demo released_history)).
  - exact (demo_reachable released_history).
  - vm_compute. reflexivity.
  - split; [vm_compute; reflexivity|]. split; [vm_compute; reflexivity|].
    split; [vm_compute; reflexivity|vm_compute; reflexivity].
  - vm_compute. reflexivity.
  - vm_compute. reflexivity.
Defined.

Lemma continue_job_effect_witness :
  ∃ j n r, jobs (demo succeeded_history) !! "J" = Some j
    ∧ n = next_ordinal_of "J" (demo succeeded_history) ∧ n = 4 + 3 * (r - 1).
Proof.
  edestruct (continue_job_effect 1000 (demo_ids "n") "J" "more tests" (demo succeeded_history))
    as (j & task & n & r & Hj & _ & _ & _ & _ & _ & Hn & Hr & _); [vm_compute; reflexivity|].
  exists j, n, r. exact (conj Hj (conj Hn Hr)).
Defined.

Lemma workspace_identity_fixed_witness :
  ∃ w', workspaces (run [(50, PutWorkspace (mkWorkspaceBinding "J" "other" "repo" "HEAD" "base2" "b" "r" "v"))]
          (demo created_history)) !! "J" = Some w'
    ∧ workspace_identity w' = ("J", "rid", "base", 11).
Proof.
  edestruct (workspace_identity_fixed [(50, PutWorkspace (mkWorkspaceBinding "J" "other" "repo" "HEAD" "base2" "b" "r" "v"))]
    (demo created_history) "J") as (w' & Hw & E); [vm_compute; reflexivity|].
  exists w'. exact (conj Hw E).
Defined.

Lemma continuation_round_exact_witness : continuation_round 7 = Ok 2 ↔ 1 ≤ 2 ∧ 7 = 4 + 3 * (2 - 1).
Proof. apply continuation_round_exact. unfold i32_max. lia. Defined.
