(* ===== verification/Runner.v ===== *)
(** * The worker loop

    [runner.rs]: one worker claims attempts into its slots, runs an executor for
    each while a heartbeat keeps the lease, and commits the outcome.  The worker
    is a state machine whose steps are the points where the source awaits
    something: a store call, an executor hook, the join of the executor task or
    a timer.  What is awaited, and when it happens, is the observation the step
    is given, so the machine runs under any interleaving with the executor, the
    other workers and the clients. *)

From S2P Require Import Prelude Sequences Domain Rows Store Leases Events Environments Attempts Jobs Recovery.
From Stdlib Require Import ZArith Ascii String.
From stdpp Require Import base gmap strings list.

#[local] Open Scope string_scope.
#[local] Open Scope Z_scope.
#[local] Open Scope list_scope.

(** ** Configuration

    A [Duration] is its nanoseconds. *)

Definition nanos_per_second : Z := 1000000000.
Definition LEASE_SLACK : Z := nanos_per_second.
Definition JOB_CONTROL_POLL_INTERVAL : Z := nanos_per_second.

Definition as_secs (d : Z) : Z := d / nanos_per_second.
Definition subsec_nanos (d : Z) : Z := d mod nanos_per_second.
Definition saturating_sub (a b : Z) : Z := Z.max 0 (a - b).

Record RunnerConfig : Type := mkRunnerConfig {
  rc_worker_id : string;
  rc_lease_duration : Z;
  rc_poll_interval : Z;
  rc_shutdown_grace : Z;
  rc_slots : Z;
  rc_execution_profile : option ExecutionProfile;
}.

Definition validate_config (config : RunnerConfig) : Result unit :=
  guard_err (rc_slots config =? 0) (InvalidInput [Lit "runner slots must be at least one"]) ≫= λ _,
  guard_err ((as_secs (rc_lease_duration config) <? 3)
             || negb (subsec_nanos (rc_lease_duration config) =? 0)
             || (u32_max <? as_secs (rc_lease_duration config)))
    (InvalidInput [Lit "runner lease duration must be 3..=u32::MAX whole seconds"]) ≫= λ _,
  guard_err (rc_poll_interval config =? 0)
    (InvalidInput [Lit "runner poll interval must be non-zero"]) ≫= λ _,
  guard_err (rc_shutdown_grace config =? 0)
    (InvalidInput [Lit "runner shutdown grace must be non-zero"]) ≫= λ _,
  guard_err (saturating_sub (rc_lease_duration config) LEASE_SLACK <? rc_shutdown_grace config)
    (InvalidInput [Lit "runner shutdown grace must leave at least one second of lease slack"]) ≫= λ _,
  match rc_execution_profile config with
  | Some profile =>
      guard_err (is_blank (ep_provider profile) || is_blank (ep_model profile))
        (InvalidInput [Lit "runner execution profile requires a provider and model"])
  | None => Ok tt
  end.

(** [u32::try_from(duration.as_secs()).expect(..)]: a validated configuration
    is in range. *)
Definition lease_seconds (duration : Z) : Z := default 0 (u32_try_from (as_secs duration)).

(** Local time is in microseconds, as the database's. *)
Definition lease_deadline_remaining (lease_expires_at clock : Z) : Z :=
  saturating_sub (Z.max 0 ((lease_expires_at - clock) * 1000)) LEASE_SLACK.

Definition terminal_job (state : JobState) : bool :=
  match state with JobSucceeded | JobFailed | JobCancelled => true | _ => false end.

Definition invalid_checkpoint (error : CoordinatorError) : bool :=
  match error with CheckpointCorrelationMismatch => true | _ => false end.

Definition lease_or_database_error (error : CoordinatorError) : bool :=
  match error with
  | Database _ | AttemptLeaseUnavailable _ | AttemptNotRunning _ => true
  | _ => false
  end.

(** ** Executor outcomes *)

Record OperationCheckpoint : Type := mkOperationCheckpoint {
  oc_kind : string;
  oc_payload : Value;
  oc_workspace_root : option string;
  oc_workspace_revision : option string;
  oc_correlation_id : option string;
}.

Definition into_new (checkpoint : OperationCheckpoint) (fence : AttemptFence) : NewCheckpoint :=
  mkNewCheckpoint (af_attempt_id fence) (oc_kind checkpoint) (oc_payload checkpoint)
    (oc_workspace_root checkpoint) (oc_workspace_revision checkpoint) (oc_correlation_id checkpoint).

Inductive OperationOutcome : Type :=
| Complete (checkpoint : option OperationCheckpoint) (completion_event : option NewAttemptEvent)
| Fail (checkpoint : option OperationCheckpoint) (failure : AttemptFailure).

(** What joining the executor task yields: its result, or the loss of the task
    with the text of the join error. *)
Inductive ExecutionResult : Type :=
| Joined (result : Result OperationOutcome)
| JoinFailed (is_panic : bool) (message : string).

(** All durable state handed to the executor. *)
Record OperationExecutionContext : Type := mkOperationExecutionContext {
  oec_lease : RecoveryLease;
  oec_job : JobRecord;
  oec_operation : OperationRecord;
  oec_workspace : option WorkspaceRecord;
}.

(** ** Awaited store calls

    A store call lands at some time and returns its result, or the connection
    is lost: the caller sees an error, and the call took effect or did not. *)

Inductive Landing : Type :=
| Landed (now : Z)
| Lost (error : CoordinatorError) (effect : option Z).

Definition land {A : Type} (l : Landing) (p : Z → Proc A) : Proc A :=
  match l with
  | Landed now => p now
  | Lost e None => λ s, (Err e, s)
  | Lost e (Some now) => λ s, (Err e, (p now s).2)
  end.

(** A call under [tokio::time::timeout]: it returns in time, or the deadline
    passes first and it took effect or did not. *)
Inductive Bounded : Type :=
| InTime (l : Landing)
| TimedOut (effect : option Z).

Definition within {A : Type} (remaining : Z) (b : Bounded) (p : Z → Proc A) : Proc (option A) := λ s,
  if remaining =? 0 then (Ok None, s)
  else match b with
       | InTime l => match land l p s with (Ok a, s') => (Ok (Some a), s') | (Err e, s') => (Err e, s') end
       | TimedOut None => (Ok None, s)
       | TimedOut (Some now) => (Ok None, (p now s).2)
       end.

Definition lease_bounded {A : Type} (lease_expires_at clock : Z) : Bounded → (Z → Proc A) → Proc (option A) :=
  within (lease_deadline_remaining lease_expires_at clock).

Definition control_bounded {A : Type} (lease_expires_at clock : Z) : Bounded → (Z → Proc A) → Proc (option A) :=
  within (Z.min (lease_deadline_remaining lease_expires_at clock) JOB_CONTROL_POLL_INTERVAL).

(** ** One attempt *)

(** What follows once the executor has been cancelled and joined. *)
Inductive AfterDrain : Type :=
| DrainRelinquish
| DrainAcknowledge
| DrainReturn (result : Result unit).

(** Where [run_attempt] is: each constructor is a point that awaits. *)
Inductive Point : Type :=
| AtRenew
| AtLoadJob
| AtLoadWorkspace (job : JobRecord) (operation : OperationRecord)
| AtRenewAgain (job : JobRecord) (operation : OperationRecord) (workspace : option WorkspaceRecord)
| AtSelect (context : OperationExecutionContext) (lease_expires_at : Z)
| AtDrain (context : OperationExecutionContext) (next : AfterDrain)
| AtSettle (context : OperationExecutionContext) (outcome : OperationOutcome)
| AtSettleFallback (context : OperationExecutionContext) (failure : AttemptFailure)
| AtReconcile (context : OperationExecutionContext) (settled_succeeded : bool)
| AtPublish (context : OperationExecutionContext)
| AtCleanup (context : OperationExecutionContext)
| AtReleaseEnvironment (context : OperationExecutionContext)
| AtAcknowledge (context : OperationExecutionContext)
| AtRelinquishAfter (error : CoordinatorError)
| AtCleanupDrained (context : OperationExecutionContext)
| AtRelinquish (cleanup : Result unit)
| AtReturn (result : Result unit).

(** The executor task: not spawned, running (with its cancellation flag), or
    finished with a result nobody may have joined yet. *)
Inductive Executor : Type :=
| NotSpawned
| Executing (cancelled : bool)
| Finished (result : ExecutionResult).

(** What the attempt observes at an await point.  [clock] is the worker's own
    [Utc::now()], [new_id] the identifier a settlement may draw. *)
Inductive Observation : Type :=
| StoreReturns (l : Landing) (new_id : string) (clock : Z)
| ExecutorJoined (clock : Z)
| ShutdownRequested
| Heartbeat (clock : Z) (renewal : Bounded)
| JobControl (clock : Z) (read : Bounded)
| HookReturns (result : Result unit).

(** The text of an error, as [to_string] prints it. *)
Class ErrorText : Type := { error_text : CoordinatorError → string }.

Section attempt.
Context `{External, ErrorText}.
Context (config : RunnerConfig) (lease : RecoveryLease).

Definition attempt_fence : AttemptFence := rl_fence lease.
Definition attempt_job : string := rs_job_id (rl_selection lease).
Definition attempt_seconds : Z := lease_seconds (rc_lease_duration config).

(** [lease.attempt = renewed]. *)
Definition with_attempt (renewed : AttemptRecord) : RecoveryLease :=
  mkRecoveryLease (rl_selection lease) renewed (rl_fence lease).

(** The outcome of a joined execution, or the error [run_attempt] returns. *)
Definition execution_outcome (clock : Z) (result : ExecutionResult) : Result OperationOutcome :=
  match result with
  | Joined (Ok outcome) => Ok outcome
  | Joined (Err error) =>
      if lease_or_database_error error then Err error
      else Ok (Fail None (RetryAt clock
                 (Object [("cause", Str "executorFailed"); ("message", Str (error_text error))])))
  | JoinFailed is_panic message =>
      Ok (Fail None (RetryAt clock
        (Object [("cause", Str (if is_panic then "executorPanicked" else "executorTaskLost"));
                 ("message", Str message)])))
  end.

Definition settlement_parts (outcome : OperationOutcome) :
    AttemptSettlement * option OperationCheckpoint * option NewAttemptEvent :=
  match outcome with
  | Complete checkpoint completion_event => (SettleSucceeded, checkpoint, completion_event)
  | Fail checkpoint failure => (SettleFailed failure, checkpoint, None)
  end.

Definition fallback_failure (clock : Z) (settlement : AttemptSettlement) : AttemptFailure :=
  match settlement with
  | SettleFailed failure => failure
  | SettleSucceeded => RetryAt clock (Object [("cause", Str "invalidFinalCheckpoint")])
  end.

Definition has_blank_kind (checkpoint : option NewCheckpoint) : bool :=
  match checkpoint with Some c => is_blank (nc_kind c) | None => false end.

(** [match settle_outcome(..) { .. }]. *)
Definition after_settlement (context : OperationExecutionContext) (result : Result bool) : Point :=
  match result with
  | Ok settled_succeeded => AtReconcile context settled_succeeded
  | Err (JobCancellationRequested _) => AtCleanup context
  | Err error => AtReturn (Err error)
  end.

(** The first settlement call of [settle_outcome]: a blank checkpoint kind goes
    to the fallback at once, a checkpoint that does not belong to the attempt
    after the store refused it. *)
Definition settle_first (l : Landing) (new_id : string) (clock : Z)
    (context : OperationExecutionContext) (outcome : OperationOutcome) (s : db) : Point * db :=
  let '(settlement, checkpoint, completion_event) := settlement_parts outcome in
  let fallback := fallback_failure clock settlement in
  let checkpoint := (λ c, into_new c attempt_fence) <$> checkpoint in
  if has_blank_kind checkpoint then
    match land l (λ now, settle_attempt now new_id attempt_fence (SettleFailed fallback) None) s with
    | (Ok _, s') => (after_settlement context (Ok false), s')
    | (Err e, s') => (after_settlement context (Err e), s')
    end
  else
    match land l (λ now, settle_attempt_with_event now new_id attempt_fence settlement checkpoint
                           completion_event) s with
    | (Ok _, s') => (after_settlement context (Ok (is_success settlement)), s')
    | (Err e, s') =>
        if bool_decide (is_Some checkpoint) && invalid_checkpoint e then (AtSettleFallback context fallback, s')
        else (after_settlement context (Err e), s')
    end.

Definition settle_fallback (l : Landing) (new_id : string) (context : OperationExecutionContext)
    (failure : AttemptFailure) (s : db) : Point * db :=
  match land l (λ now, settle_attempt now new_id attempt_fence (SettleFailed failure) None) s with
  | (Ok _, s') => (after_settlement context (Ok false), s')
  | (Err e, s') => (after_settlement context (Err e), s')
  end.

(** [cancellation.cancel()]: a running executor sees its flag. *)
Definition cancel_executor (executor : Executor) : Executor :=
  match executor with Executing _ => Executing true | other => other end.

(** The points up to the spawn of the executor. *)
Definition start_step (p : Point) (l : Landing) (s : db) : option (Point * Executor * db) :=
  match p with
  | AtRenew =>
      match land l (λ now, renew_attempt now attempt_fence attempt_seconds) s with
      | (Ok _, s') => Some (AtLoadJob, NotSpawned, s')
      | (Err e, s') => Some (AtReturn (Err e), NotSpawned, s')
      end
  | AtLoadJob =>
      match land l (λ _, load_job attempt_job) s with
      | (Ok durable_job, s') =>
          if terminal_job (job_state (dj_job durable_job)) then Some (AtReturn (Ok tt), NotSpawned, s')
          else match List.find (λ o, bool_decide (op_operation_id o = rs_operation_id (rl_selection lease)))
                       (dj_operations durable_job) with
               | Some operation => Some (AtLoadWorkspace (dj_job durable_job) operation, NotSpawned, s')
               | None =>
                   Some (AtReturn (Err (InvalidInput
                     [Lit "claimed operation "; Display (rs_operation_id (rl_selection lease));
                      Lit " is missing from job "; Display attempt_job])), NotSpawned, s')
               end
      | (Err e, s') => Some (AtReturn (Err e), NotSpawned, s')
      end
  | AtLoadWorkspace job operation =>
      match land l (λ _, load_workspace attempt_job) s with
      | (Ok workspace, s') => Some (AtRenewAgain job operation workspace, NotSpawned, s')
      | (Err e, s') => Some (AtReturn (Err e), NotSpawned, s')
      end
  | AtRenewAgain job operation workspace =>
      match land l (λ now, renew_attempt now attempt_fence attempt_seconds) s with
      | (Ok renewed, s') =>
          let context := mkOperationExecutionContext (with_attempt renewed) job operation workspace in
          if decide (job_state job = JobCancelling) then Some (AtCleanup context, NotSpawned, s')
          else Some (AtSelect context (at_lease_expires_at renewed), Executing false, s')
      | (Err e, s') => Some (AtReturn (Err e), NotSpawned, s')
      end
  | _ => None
  end.

(** One turn of the [select!] loop. *)
Definition select_step (context : OperationExecutionContext) (lease_expires_at : Z) (executor : Executor)
    (o : Observation) (s : db) : option (Point * Executor * db) :=
  match o with
  | ExecutorJoined clock =>
      match executor with
      | Finished result =>
          match execution_outcome clock result with
          | Ok outcome => Some (AtSettle context outcome, executor, s)
          | Err error => Some (AtReturn (Err error), executor, s)
          end
      | _ => None
      end
  | ShutdownRequested => Some (AtDrain context DrainRelinquish, cancel_executor executor, s)
  | Heartbeat clock renewal =>
      match lease_bounded lease_expires_at clock renewal
              (λ now, renew_attempt now attempt_fence attempt_seconds) s with
      | (Ok (Some renewed), s') => Some (AtSelect context (at_lease_expires_at renewed), executor, s')
      | (Ok None, s') =>
          Some (AtDrain context (DrainReturn (Err (AttemptLeaseUnavailable (af_attempt_id attempt_fence)))),
                cancel_executor executor, s')
      | (Err error, s') => Some (AtDrain context (DrainReturn (Err error)), cancel_executor executor, s')
      end
  | JobControl clock read =>
      match control_bounded lease_expires_at clock read (λ _, load_job attempt_job) s with
      | (Ok (Some job), s') =>
          if decide (job_state (dj_job job) = JobCancelling) then
            Some (AtDrain context DrainAcknowledge, cancel_executor executor, s')
          else if terminal_job (job_state (dj_job job)) then
            Some (AtDrain context (DrainReturn (Ok tt)), cancel_executor executor, s')
          else Some (AtSelect context lease_expires_at, executor, s')
      | (_, s') => Some (AtSelect context lease_expires_at, executor, s')
      end
  | _ => None
  end.

Definition after_drain (context : OperationExecutionContext) (next : AfterDrain) : Point :=
  match next with
  | DrainRelinquish => AtCleanupDrained context
  | DrainAcknowledge => AtCleanup context
  | DrainReturn result => AtReturn result
  end.

(** [(Err(error), _) | (Ok(()), Err(error)) => Err(error)]. *)
Definition both (cleanup relinquish : Result unit) : Result unit :=
  match cleanup with Err e => Err e | Ok _ => relinquish end.

(** The points that await an executor hook. *)
Definition hook_step (p : Point) (result : Result unit) : option Point :=
  match p with
  | AtReconcile context settled_succeeded =>
      Some (if settled_succeeded then AtPublish context else AtReturn (Ok tt))
  | AtPublish _ => Some (AtReturn (Ok tt))
  | AtCleanup context =>
      Some (match result with Ok _ => AtReleaseEnvironment context | Err e => AtRelinquishAfter e end)
  | AtReleaseEnvironment context =>
      Some (match result with Ok _ => AtAcknowledge context | Err e => AtRelinquishAfter e end)
  | AtCleanupDrained _ => Some (AtRelinquish result)
  | _ => None
  end.

(** The points that await a store call once the executor is gone. *)
Definition finish_step (p : Point) (l : Landing) (new_id : string) (clock : Z) (s : db) : option (Point * db) :=
  match p with
  | AtSettle context outcome => Some (settle_first l new_id clock context outcome s)
  | AtSettleFallback context failure => Some (settle_fallback l new_id context failure s)
  | AtAcknowledge _ =>
      match land l (λ now, acknowledge_job_cancellation now attempt_fence) s with
      | (Ok _, s') => Some (AtReturn (Ok tt), s')
      | (Err e, s') => Some (AtRelinquishAfter e, s')
      end
  | AtRelinquishAfter error =>
      Some (AtReturn (Err error), (land l (λ now, relinquish_attempt now attempt_fence) s).2)
  | AtRelinquish cleanup =>
      let '(relinquish, s') := land l (λ now, relinquish_attempt now attempt_fence) s in
      Some (AtReturn (both cleanup relinquish), s')
  | _ => None
  end.

(** One step of [run_attempt]; [None] when the observation cannot occur here. *)
Definition attempt_step (p : Point) (executor : Executor) (o : Observation) (s : db) :
    option (Point * Executor * db) :=
  match p, o with
  | (AtRenew | AtLoadJob | AtLoadWorkspace _ _ | AtRenewAgain _ _ _), StoreReturns l _ _ =>
      start_step p l s
  | AtSelect context lease_expires_at, _ => select_step context lease_expires_at executor o s
  | AtDrain context next, ExecutorJoined _ =>
      match executor with
      | Finished _ => Some (after_drain context next, executor, s)
      | _ => None
      end
  | _, HookReturns result => p' ← hook_step p result; Some (p', executor, s)
  | _, StoreReturns l new_id clock => '(p', s') ← finish_step p l new_id clock s; Some (p', executor, s')
  | _, _ => None
  end.
End attempt.

(** ** The claim loop *)

(** Where [DurableRunner::run] is. *)
Inductive LoopPoint : Type :=
| LoopStart
| LoopTop
| LoopClaim
| LoopWait
| LoopDrain
| LoopStopped.

(** What the loop observes: the shutdown flag is set, the reconciliation hook
    returned, no slot is free, a claim returned, a shutdown interrupted a claim
    (which may still land) or a wait, an attempt returned, the poll timer fired,
    or the set of attempts ran empty. *)
Inductive LoopObservation : Type :=
| ShutdownSeen
| ReconcileReturned
| SlotsFull
| ClaimReturned (locked : gset string) (new_id : string) (l : Landing)
| ClaimInterrupted (locked : gset string) (new_id : string) (effect : option Z)
| WaitInterrupted
| AttemptReturned (index : nat)
| PollElapsed
| AllJoined.

Section loop.
Context `{External}.
Context (config : RunnerConfig).

Definition claim_request : ClaimRequest :=
  mkClaimRequest (rc_worker_id config) (lease_seconds (rc_lease_duration config)) (rc_execution_profile config).

(** [attempts] is the [JoinSet]: one entry per spawned attempt that has not been
    joined. *)
Definition has_slot (attempts : list RecoveryLease) : bool :=
  Z.of_nat (length attempts) <? rc_slots config.

Definition loop_step (p : LoopPoint) (attempts : list RecoveryLease) (o : LoopObservation) (s : db) :
    option (LoopPoint * list RecoveryLease * db) :=
  match p, o with
  | LoopStart, ReconcileReturned => Some (LoopTop, attempts, s)
  | LoopTop, ShutdownSeen => Some (LoopDrain, attempts, s)
  | LoopTop, ReconcileReturned => Some (LoopClaim, attempts, s)
  | LoopClaim, SlotsFull => if has_slot attempts then None else Some (LoopWait, attempts, s)
  | LoopClaim, ShutdownSeen => if has_slot attempts then Some (LoopDrain, attempts, s) else None
  | LoopClaim, ClaimReturned locked new_id l =>
      if has_slot attempts then
        match land l (λ now, claim_next_recovery now locked new_id claim_request) s with
        | (Ok (Some lease), s') => Some (LoopClaim, attempts ++ [lease], s')
        | (Ok None, s') | (Err _, s') => Some (LoopWait, attempts, s')
        end
      else None
  | LoopClaim, ClaimInterrupted locked new_id effect =>
      if has_slot attempts then
        Some (LoopDrain, attempts,
              match effect with
              | Some now => (claim_next_recovery now locked new_id claim_request s).2
              | None => s
              end)
      else None
  | LoopWait, WaitInterrupted => Some (LoopDrain, attempts, s)
  | LoopWait, AttemptReturned i =>
      if decide (i < length attempts)%nat then Some (LoopTop, delete i attempts, s) else None
  | LoopWait, PollElapsed => Some (LoopTop, attempts, s)
  | LoopDrain, AttemptReturned i =>
      if decide (i < length attempts)%nat then Some (LoopDrain, delete i attempts, s) else None
  | LoopDrain, AllJoined => if decide (length attempts = 0%nat) then Some (LoopStopped, attempts, s) else None
  | _, _ => None
  end.
End loop.
