(* ===== verification/RunnerLaws.v ===== *)
(** * What the worker loop guarantees

    The worker next to everything else that moves: its own steps, the executor
    finishing, and store calls of anybody (the executor, other workers, clients)
    in any order.  A worker that lost its lease cannot change the database, the
    executor is never left running, every attempt returns once it leaves its
    loop, and a settled attempt is reported as what it is. *)

From S2P Require Import Prelude Sequences Domain Rows Store Leases Events Environments Attempts Jobs Recovery Lifecycle Refinement System Safety Fencing Runner.
From Stdlib Require Import ZArith Ascii String.
From stdpp Require Import base gmap strings list relations.

#[local] Open Scope string_scope.
#[local] Open Scope Z_scope.
#[local] Open Scope list_scope.

Section runner_laws.
Context `{External, ErrorText}.

(** ** The worker in its world *)

Record world : Type := mkWorld {
  w_point : Point;
  w_executor : Executor;
  w_db : db;
}.

Section one_attempt.
Context (config : RunnerConfig) (lease : RecoveryLease).

(** A step of the attempt itself. *)
Inductive own_step (w w' : world) : Prop :=
| own_step_intro o :
    attempt_step config lease (w_point w) (w_executor w) o (w_db w)
      = Some (w_point w', w_executor w', w_db w') → own_step w w'.

(** A step of anything else: the executor finishes, or somebody calls the
    store. *)
Inductive other_step : world → world → Prop :=
| executor_finishes p cancelled result s :
    other_step (mkWorld p (Executing cancelled) s) (mkWorld p (Finished result) s)
| somebody_calls p executor s now c :
    other_step (mkWorld p executor s) (mkWorld p executor (exec now c s)).

Definition world_step (w w' : world) : Prop := own_step w w' ∨ other_step w w'.

(** The worlds an attempt goes through, from the moment its lease was
    claimed. *)
Definition started (w : world) : Prop :=
  ∃ s, reachable s ∧ rtc world_step (mkWorld AtRenew NotSpawned s) w.

(** ** The database under an attempt *)

Lemma land_snd {A : Type} l (p : Z → Proc A) s :
  (land l p s).2 = s ∨ ∃ now, (land l p s).2 = (p now s).2.
Proof. destruct l as [now|e [now|]]; simpl; eauto. Qed.

Lemma within_snd {A : Type} remaining b (p : Z → Proc A) s :
  (within remaining b p s).2 = s ∨ ∃ now, (within remaining b p s).2 = (p now s).2.
Proof.
  unfold within. destruct (remaining =? 0); [by left|]. destruct b as [l|[now|]]; simpl; [|eauto..].
  destruct (land_snd l p s) as [E|[now E]]; destruct (land l p s) as [[a|e] s']; simpl in *; eauto.
Qed.

(** The attempt touches the database with calls that carry its own fence
    only. *)
Definition fenced_call (s s' : db) : Prop :=
  s' = s ∨ ∃ now c, call_fence c = Some (attempt_fence lease) ∧ s' = exec now c s.

Lemma land_fenced {A : Type} l (p : Z → Proc A) (c : Call) s r s' :
  call_fence c = Some (attempt_fence lease) → (∀ now, exec now c s = (p now s).2) →
  land l p s = (r, s') → fenced_call s s'.
Proof.
  intros Hc He Hl. destruct (land_snd l p s) as [E|[now E]]; rewrite Hl in E; simpl in E; subst; [by left|].
  right. exists now, c. by rewrite He.
Qed.

Lemma land_read {A : Type} l (p : Z → Proc A) s r s' :
  (∀ now, (p now s).2 = s) → land l p s = (r, s') → fenced_call s s'.
Proof.
  intros Hp Hl. left. destruct (land_snd l p s) as [E|[now E]]; rewrite Hl in E; simpl in E; congruence.
Qed.

Lemma renew_landed l s r s' :
  land l (λ now, renew_attempt now (attempt_fence lease) (attempt_seconds config)) s = (r, s') → fenced_call s s'.
Proof.
  apply (land_fenced _ _ (RenewAttempt (attempt_fence lease) (attempt_seconds config))); [done|].
  intros now. unfold exec. simpl. by rewrite forget_snd.
Qed.

Lemma settle_landed l new_id st ck ev s r s' :
  land l (λ now, settle_attempt_with_event now new_id (attempt_fence lease) st ck ev) s = (r, s') → fenced_call s s'.
Proof.
  apply (land_fenced _ _ (SettleAttempt new_id (attempt_fence lease) st ck ev)); [done|].
  intros now. unfold exec. simpl. by rewrite forget_snd.
Qed.

Lemma relinquish_landed l s r s' :
  land l (λ now, relinquish_attempt now (attempt_fence lease)) s = (r, s') → fenced_call s s'.
Proof.
  apply (land_fenced _ _ (RelinquishAttempt (attempt_fence lease))); [done|].
  intros now. unfold exec. simpl. by rewrite forget_snd.
Qed.

Lemma acknowledge_landed l s r s' :
  land l (λ now, acknowledge_job_cancellation now (attempt_fence lease)) s = (r, s') → fenced_call s s'.
Proof.
  apply (land_fenced _ _ (AcknowledgeJobCancellation (attempt_fence lease))); [done|].
  intros now. unfold exec. simpl. by rewrite forget_snd.
Qed.

Lemma load_job_landed l s r s' : land l (λ _, load_job (attempt_job lease)) s = (r, s') → fenced_call s s'.
Proof. by apply land_read. Qed.

Lemma load_workspace_landed l s r s' : land l (λ _, load_workspace (attempt_job lease)) s = (r, s') → fenced_call s s'.
Proof. by apply land_read. Qed.

Lemma within_fenced {A : Type} remaining b (p : Z → Proc A) s r s' :
  (∀ l r s', land l p s = (r, s') → fenced_call s s') → within remaining b p s = (r, s') → fenced_call s s'.
Proof.
  intros Hl. unfold within. destruct (remaining =? 0); [intros [= _ ->]; by left|].
  destruct b as [l|[now|]].
  - destruct (land l p s) as [[a|e] s1] eqn:E; intros [= _ ->]; by eapply Hl.
  - intros [= _ <-]. apply (Hl (Landed now) (p now s).1). simpl. by destruct (p now s).
  - intros [= _ ->]. by left.
Qed.

Create HintDb landed.
#[local] Hint Resolve renew_landed settle_landed relinquish_landed acknowledge_landed load_job_landed
  load_workspace_landed : landed.

Ltac landed_cases Hs :=
  repeat match type of Hs with
  | context [match land ?l ?p ?s with _ => _ end] => destruct (land l p s) as [[?|?] ?] eqn:?
  | (if ?b then _ else _) = Some _ => destruct b
  | match ?x with _ => _ end = Some _ => destruct x
  end; simplify_eq.

Lemma start_step_fenced p l s p' ex' s' :
  start_step config lease p l s = Some (p', ex', s') → fenced_call s s'.
Proof. intros Hs. destruct p; simpl in Hs; try done; landed_cases Hs; eauto with landed. Qed.

Lemma settle_first_fenced l new_id clock ctx outcome s p' s' :
  settle_first lease l new_id clock ctx outcome s = (p', s') → fenced_call s s'.
Proof.
  unfold settle_first, settle_attempt. destruct (settlement_parts outcome) as [[st ck] ev].
  destruct (has_blank_kind _); destruct (land _ _ s) as [[?|?] ?] eqn:E;
    try (destruct (_ && _)); intros [= _ <-]; eauto with landed.
Qed.

Lemma settle_fallback_fenced l new_id ctx failure s p' s' :
  settle_fallback lease l new_id ctx failure s = (p', s') → fenced_call s s'.
Proof.
  unfold settle_fallback, settle_attempt. destruct (land _ _ s) as [[?|?] ?] eqn:E; intros [= _ <-]; eauto with landed.
Qed.

Lemma finish_step_fenced p l new_id clock s p' s' :
  finish_step lease p l new_id clock s = Some (p', s') → fenced_call s s'.
Proof.
  intros Hs. destruct p; simpl in Hs; try done; landed_cases Hs;
    eauto using settle_first_fenced, settle_fallback_fenced with landed.
  eapply relinquish_landed, surjective_pairing.
Qed.

Lemma select_step_fenced ctx expires ex o s p' ex' s' :
  select_step config lease ctx expires ex o s = Some (p', ex', s') → fenced_call s s'.
Proof.
  intros Hs. destruct o as [| clock | | clock b | clock b |]; simpl in Hs; try done.
  - destruct ex; try done. destruct (execution_outcome _ _); simplify_eq; by left.
  - simplify_eq. by left.
  - unfold lease_bounded in Hs. destruct (within _ _ _ s) as [[[?|]|?] ?] eqn:E; simplify_eq;
      eapply within_fenced; eauto; eauto with landed.
  - unfold control_bounded in Hs. destruct (within _ _ _ s) as [[[?|]|?] ?] eqn:E; landed_cases Hs;
      eapply within_fenced; eauto; eauto with landed.
Qed.

Lemma own_step_fenced w w' : own_step w w' → fenced_call (w_db w) (w_db w').
Proof.
  intros [o Hs]. destruct (w_point w), o; cbn beta iota delta [attempt_step] in Hs; try done;
    eauto using start_step_fenced, select_step_fenced.
  all: first
    [ destruct (w_executor w); simplify_eq; by left
    | apply bind_Some in Hs as ([p1 s1] & Hf & Hs); simplify_eq; by eapply finish_step_fenced
    | apply bind_Some in Hs as (p1 & Hf & Hs); simplify_eq; by left ].
Qed.

Lemma fenced_call_reachable s s' : reachable s → fenced_call s s' → reachable s'.
Proof. intros Hr [->|(now & c & _ & ->)]; [done|by apply reachable_exec]. Qed.

Lemma world_step_reachable w w' : reachable (w_db w) → world_step w w' → reachable (w_db w').
Proof.
  intros Hr [Ho|Ho]; [eapply fenced_call_reachable; [done|by apply own_step_fenced]|].
  inversion Ho; subst; simpl in *; [done|by apply reachable_exec].
Qed.

Lemma worlds_reachable w w' : rtc world_step w w' → reachable (w_db w) → reachable (w_db w').
Proof. induction 1; eauto using world_step_reachable. Qed.

(** A lost lease stays lost, whatever the world does. *)
Lemma world_step_fenced_off w w' f :
  reachable (w_db w) → fenced_off (w_db w) f → world_step w w' → fenced_off (w_db w') f.
Proof.
  intros Hr Hf [Ho|Ho].
  - apply own_step_fenced in Ho as [->|(now & c & _ & ->)]; [done|by apply fenced_off_exec].
  - inversion Ho; subst; simpl in *; [done|by apply fenced_off_exec].
Qed.

Lemma worlds_fenced_off w w' f :
  rtc world_step w w' → reachable (w_db w) → fenced_off (w_db w) f → fenced_off (w_db w') f.
Proof. induction 1; eauto using world_step_fenced_off, world_step_reachable. Qed.


(** ** The executor is never left running *)

(** The executor runs only while the attempt is in its loop, or after it was
    told to stop and the attempt waits for it. *)
Definition executor_ok (p : Point) (ex : Executor) : Prop :=
  match p with
  | AtRenew | AtLoadJob | AtLoadWorkspace _ _ | AtRenewAgain _ _ _ => ex = NotSpawned
  | AtSelect _ _ => ex = Executing false ∨ ∃ r, ex = Finished r
  | AtDrain _ _ => ex = Executing true ∨ ∃ r, ex = Finished r
  | _ => ex = NotSpawned ∨ ∃ r, ex = Finished r
  end.

Lemma after_settlement_ok ctx r ex :
  ex = NotSpawned ∨ (∃ res, ex = Finished res) → executor_ok (after_settlement ctx r) ex.
Proof. destruct r as [b|e]; [done|]. by destruct e. Qed.

Lemma cancel_ok ctx next ex :
  ex = Executing false ∨ (∃ r, ex = Finished r) → executor_ok (AtDrain ctx next) (cancel_executor ex).
Proof. intros [->|[r ->]]; [by left|right; by exists r]. Qed.

Lemma start_executor p l s p' ex' s' :
  start_step config lease p l s = Some (p', ex', s') → executor_ok p' ex'.
Proof. intros Hs. destruct p; simpl in Hs; try done; landed_cases Hs; simpl; auto. Qed.

Lemma select_executor ctx expires ex o s p' ex' s' :
  executor_ok (AtSelect ctx expires) ex →
  select_step config lease ctx expires ex o s = Some (p', ex', s') → executor_ok p' ex'.
Proof.
  intros Hex Hs. destruct o as [| clock | | clock b | clock b |]; simpl in Hs; try done.
  - destruct ex; try done. destruct (execution_outcome _ _); simplify_eq; right; eauto.
  - simplify_eq. by apply cancel_ok.
  - destruct (lease_bounded _ _ _ _ s) as [[[?|]|?] ?]; simplify_eq; first [done|by apply cancel_ok].
  - destruct (control_bounded _ _ _ _ s) as [[[?|]|?] ?]; landed_cases Hs; first [done|by apply cancel_ok].
Qed.

Lemma settle_first_executor l new_id clock ctx outcome s ex :
  ex = NotSpawned ∨ (∃ r, ex = Finished r) →
  executor_ok (settle_first lease l new_id clock ctx outcome s).1 ex.
Proof.
  intros Hex. unfold settle_first. destruct (settlement_parts outcome) as [[st ck] ev].
  destruct (has_blank_kind _); destruct (land _ _ s) as [[?|?] ?]; try (destruct (_ && _)); cbn [fst];
    first [by apply after_settlement_ok|exact Hex].
Qed.

Lemma settle_fallback_executor l new_id ctx failure s ex :
  ex = NotSpawned ∨ (∃ r, ex = Finished r) →
  executor_ok (settle_fallback lease l new_id ctx failure s).1 ex.
Proof.
  intros Hex. unfold settle_fallback. destruct (land _ _ s) as [[?|?] ?]; by apply after_settlement_ok.
Qed.

Lemma finish_executor p l new_id clock s p' s' ex :
  ex = NotSpawned ∨ (∃ r, ex = Finished r) →
  finish_step lease p l new_id clock s = Some (p', s') → executor_ok p' ex.
Proof.
  intros Hex Hs. destruct p; cbn beta iota delta [finish_step] in Hs; try done; landed_cases Hs; try done.
  - pose proof (settle_first_executor l new_id clock context outcome s ex Hex) as Hp. by rewrite Hs in Hp.
  - pose proof (settle_fallback_executor l new_id context failure s ex Hex) as Hp. by rewrite Hs in Hp.
Qed.

Lemma hook_executor p r p' ex : executor_ok p ex → hook_step p r = Some p' → executor_ok p' ex.
Proof.
  intros Hex Hs. destruct p; simpl in Hs; try done; simplify_eq; simpl in Hex |- *;
    try (case_match); simpl; auto.
Qed.

Lemma own_step_executor w w' :
  executor_ok (w_point w) (w_executor w) → own_step w w' → executor_ok (w_point w') (w_executor w').
Proof.
  intros Hex [o Hs]. destruct (w_point w), o; cbn beta iota delta [attempt_step] in Hs; try done;
    try (by eapply start_executor); try (by eapply select_executor).
  all: first
    [ apply bind_Some in Hs as ([p1 s1] & Hf & [= <- <- _]); first [discriminate Hf|exact (finish_executor _ _ _ _ _ _ _ _ Hex Hf)]
    | apply bind_Some in Hs as (p1 & Hf & [= <- <- _]); by eapply hook_executor
    | destruct (w_executor w); try discriminate Hs; injection Hs as <- <- _; destruct next; right; eauto ].
Qed.

Lemma world_step_executor w w' :
  executor_ok (w_point w) (w_executor w) → world_step w w' → executor_ok (w_point w') (w_executor w').
Proof.
  intros Hex [Ho|Ho]; [by eapply own_step_executor|]. inversion Ho; subst; simpl in *; [|done].
  destruct p; simpl in *; try done; first [right; eauto|by destruct Hex as [|[]]].
Qed.

(** the executor is always joined.  In every world an attempt goes through,
    the executor runs only inside the attempt's loop, or after it was told to
    stop while the attempt waits for it: when the attempt settles, cleans up,
    acknowledges, relinquishes or returns, no executor task of it is running. *)
Theorem executor_joined w :
  started w →
  match w_executor w with
  | Executing cancelled => ∃ ctx,
      (∃ expires, w_point w = AtSelect ctx expires ∧ cancelled = false)
      ∨ (∃ next, w_point w = AtDrain ctx next ∧ cancelled = true)
  | _ => True
  end.
Proof.
  intros (s & _ & Hw). assert (executor_ok (w_point w) (w_executor w)) as Hex.
  { revert Hw. apply (rtc_ind_r (λ w, executor_ok (w_point w) (w_executor w))); [done|].
    intros w1 w2 _ Hstep Hok. by eapply world_step_executor. }
  destruct (w_executor w) as [| c | r]; try done.
  destruct (w_point w); simpl in Hex; try (destruct Hex as [Hex|[? Hex]]);
    try discriminate Hex; injection Hex as ->; eauto.
Qed.

(** ** Attempts return *)

(** How many own steps are left at most, the loop counted once. *)
Definition rank (p : Point) : nat :=
  match p with
  | AtRenew => 12 | AtLoadJob => 11 | AtLoadWorkspace _ _ => 10 | AtRenewAgain _ _ _ => 9
  | AtSelect _ _ => 8 | AtDrain _ _ | AtSettle _ _ => 7 | AtSettleFallback _ _ => 6
  | AtCleanup _ => 5 | AtReleaseEnvironment _ => 4 | AtAcknowledge _ => 3
  | AtCleanupDrained _ | AtReconcile _ _ => 2
  | AtPublish _ | AtRelinquish _ | AtRelinquishAfter _ => 1
  | AtReturn _ => 0
  end.

Lemma after_settlement_rank ctx r : (rank (after_settlement ctx r) < 6)%nat.
Proof. destruct r as [b|e]; [simpl; lia|]. destruct e; simpl; lia. Qed.

Lemma settle_first_rank l new_id clock ctx outcome s :
  (rank (settle_first lease l new_id clock ctx outcome s).1 < 7)%nat.
Proof.
  unfold settle_first. destruct (settlement_parts outcome) as [[st ck] ev].
  destruct (has_blank_kind _); destruct (land _ _ s) as [[?|?] ?]; try (destruct (_ && _)); cbn [fst];
    first [simpl; lia|eapply Nat.lt_trans; [apply after_settlement_rank|lia]].
Qed.

Lemma finish_rank p l new_id clock s p' s' :
  finish_step lease p l new_id clock s = Some (p', s') → (rank p' < rank p)%nat.
Proof.
  intros Hs. destruct p; cbn beta iota delta [finish_step] in Hs; try done; landed_cases Hs; simpl; try lia.
  - pose proof (settle_first_rank l new_id clock context outcome s) as Hp. by rewrite Hs in Hp.
  - unfold settle_fallback in Hs. destruct (land _ _ s) as [[?|?] ?];
      apply (f_equal fst) in Hs; cbn [fst] in Hs; subst; apply after_settlement_rank.
Qed.

Definition in_loop (p : Point) : bool := match p with AtSelect _ _ => true | _ => false end.

Lemma start_rank p l s p' ex' s' :
  start_step config lease p l s = Some (p', ex', s') → (rank p' < rank p)%nat.
Proof. intros Hs. destruct p; simpl in Hs; try done; landed_cases Hs; simpl; lia. Qed.

Lemma select_rank ctx expires ex o s p' ex' s' :
  select_step config lease ctx expires ex o s = Some (p', ex', s') → (rank p' < 8)%nat ∨ in_loop p' = true.
Proof.
  intros Hs. destruct o as [| clock | | clock b | clock b |]; simpl in Hs; try done.
  - destruct ex; try done. destruct (execution_outcome _ _); simplify_eq; left; simpl; lia.
  - simplify_eq. left; simpl; lia.
  - destruct (lease_bounded _ _ _ _ s) as [[[?|]|?] ?]; simplify_eq; first [by right|left; simpl; lia].
  - destruct (control_bounded _ _ _ _ s) as [[[?|]|?] ?]; landed_cases Hs; first [by right|left; simpl; lia].
Qed.

Lemma hook_rank p r p' : hook_step p r = Some p' → (rank p' < rank p)%nat.
Proof. intros Hs. destruct p; simpl in Hs; simplify_eq; try (case_match); simpl; lia. Qed.

(** Every own step comes closer to the end, but for a turn of the loop. *)
Lemma own_step_rank w w' :
  own_step w w' →
  (rank (w_point w') < rank (w_point w))%nat ∨ in_loop (w_point w) = true ∧ in_loop (w_point w') = true.
Proof.
  intros [o Hs]. destruct (w_point w), o; cbn beta iota delta [attempt_step] in Hs; try done.
  all: first
    [ apply start_rank in Hs; by left
    | apply select_rank in Hs as [?|?]; [by left|by right]
    | apply bind_Some in Hs as ([p1 s1] & Hf & [= <- _ _]); left; by eapply finish_rank
    | apply bind_Some in Hs as (p1 & Hf & [= <- _ _]); left; by eapply hook_rank
    | destruct (w_executor w); try discriminate Hs; injection Hs as <- _ _; left; destruct next; simpl; lia ].
Qed.

(** [counted n w w']: from [w] to [w'] with [n] own steps and any others. *)
Inductive counted : nat → world → world → Prop :=
| counted_refl w : counted 0 w w
| counted_own n w w1 w2 : own_step w w1 → counted n w1 w2 → counted (S n) w w2
| counted_other n w w1 w2 : other_step w w1 → counted n w1 w2 → counted n w w2.

Lemma counted_rank n w w' :
  counted n w w' → (rank (w_point w) < 8)%nat → (n + rank (w_point w') ≤ rank (w_point w))%nat.
Proof.
  induction 1 as [w|n w w1 w2 Ho _ IH|n w w1 w2 Ho _ IH]; intros Hr; [lia| |].
  - destruct (own_step_rank _ _ Ho) as [Hlt|[Hl _]]; [lia|]. destruct (w_point w); simpl in *; try done; lia.
  - assert (w_point w1 = w_point w) as E by (by inversion Ho). rewrite E in IH. by apply IH.
Qed.

(** An attempt that has not returned can move, or waits for its executor. *)
Lemma attempt_moves w :
  executor_ok (w_point w) (w_executor w) → (rank (w_point w) < 8)%nat →
  (∃ r, w_point w = AtReturn r) ∨ (∃ w', own_step w w') ∨ w_executor w = Executing true.
Proof.
  destruct w as [p ex s]. simpl. intros Hex Hr.
  assert (∀ o p' ex' s', attempt_step config lease p ex o s = Some (p', ex', s') →
    ∃ w', own_step (mkWorld p ex s) w') as Hown.
  { intros o p' ex' s' Hs. by exists (mkWorld p' ex' s'), o. }
  destruct p; simpl in Hr; try lia;
    [|destruct (finish_step lease (AtSettle context outcome) (Landed 0) "" 0 s) as [[]|] eqn:E; [|done]
     |destruct (finish_step lease (AtSettleFallback context failure) (Landed 0) "" 0 s) as [[]|] eqn:E; [|done]
     |..]; try (by right; left; eapply (Hown (HookReturns (Ok tt)))); try (by left; eexists).
  - destruct Hex as [->|[r ->]]; [by right; right|right; left; by eapply (Hown (ExecutorJoined 0))].
  - right; left. eapply (Hown (StoreReturns (Landed 0) "" 0)). cbn beta iota delta [attempt_step]. by rewrite E.
  - right; left. eapply (Hown (StoreReturns (Landed 0) "" 0)). cbn beta iota delta [attempt_step]. by rewrite E.
  - right; left.
    destruct (land (Landed 0) (λ now, acknowledge_job_cancellation now (attempt_fence lease)) s) as [[d|e] s1] eqn:E;
      eapply (Hown (StoreReturns (Landed 0) "" 0)); cbn beta iota delta [attempt_step finish_step]; by rewrite E.
  - right; left. by eapply (Hown (StoreReturns (Landed 0) "" 0)).
  - right; left. destruct (land (Landed 0) (λ now, relinquish_attempt now (attempt_fence lease)) s) as [r s1] eqn:E.
    eapply (Hown (StoreReturns (Landed 0) "" 0)); cbn beta iota delta [attempt_step finish_step]; by rewrite E.
Qed.

Lemma started_executor_ok w : started w → executor_ok (w_point w) (w_executor w).
Proof.
  intros (s & _ & Hw). revert Hw. apply (rtc_ind_r (λ w, executor_ok (w_point w) (w_executor w))); [done|].
  intros w1 w2 _ Hstep Hok. by eapply world_step_executor.
Qed.

(** Attempts return.  Once an attempt has left its loop (the executor
    finished, a shutdown, a lost lease or a cancelled job), it takes at most
    seven more steps of its own, whatever happens around it, and until it has
    returned it is never stuck: it can take a step, or it waits for an executor
    that has been told to stop. *)
Theorem attempt_returns w n w' :
  started w → (rank (w_point w) < 8)%nat → counted n w w' →
  (n ≤ 7)%nat
  ∧ ((∃ r, w_point w' = AtReturn r) ∨ (∃ w2, own_step w' w2) ∨ w_executor w' = Executing true).
Proof.
  intros Hst Hr Hc. pose proof (counted_rank _ _ _ Hc Hr) as Hle. split; [lia|].
  apply attempt_moves; [|lia]. apply started_executor_ok in Hst. clear Hr Hle.
  induction Hc as [w|n w w1 w2 Ho Hc IH|n w w1 w2 Ho Hc IH]; [done| |];
    apply IH; apply (world_step_executor w w1); first [done|by left|by right].
Qed.

(** ** Settlement *)

(** What a successful settlement leaves in the attempt's row. *)
Lemma settle_tx_status now i f st ck ev s r s' :
  settle_tx now i f st ck ev s = Ok (r, s') →
  ∃ a, attempts s' !! af_attempt_id f = Some a
    ∧ ar_status a = (if is_success st then "succeeded" else "failed").
Proof.
  intros (ctx & a & o & j & s1 & s2 & Hctx & _ & _ & Hck & Hst & Hev)%settle_tx_Ok.
  assert (lifecycle_of s1 = lifecycle_of s) as E1.
  { destruct ck; [|by destruct Hck as [_ ->]]. destruct Hck as (_ & rec & _ & Hck). by framed. }
  assert (lifecycle_of s' = lifecycle_of s2) as E2.
  { destruct ev; [|by subst]. destruct Hev as (_ & rec & Hev). by framed. }
  apply (f_equal lc_attempts) in E2. simpl in E2. rewrite E2.
  destruct Hctx as [(Ha & _) _]. simpl in Ha. apply (f_equal lc_attempts) in E1. simpl in E1. rewrite <- E1 in Ha.
  destruct st as [|failure];
    unfold settle_success, settle_failure, update_attempt, update_operation, update_job in Hst; inv_tx.
  - destruct (has_remaining _ _); inv_tx; try framed; try (apply (f_equal lc_attempts) in E; simpl in E; rewrite E);
      simpl; rewrite (alter_insert_row _ _ _ a), lookup_insert_eq by done; by eexists.
  - destruct (granted_retry _ _); inv_tx; try framed; try (apply (f_equal lc_attempts) in E; simpl in E; rewrite E);
      simpl; rewrite (alter_insert_row _ _ _ a), lookup_insert_eq by done; by eexists.
Qed.

Lemma settle_event_cases now i f st ck ev s :
  (∃ r s', settle_attempt_with_event now i f st ck ev s = (Ok r, s')
     ∧ ∃ a, attempts s' !! af_attempt_id f = Some a
         ∧ ar_status a = (if is_success st then "succeeded" else "failed"))
  ∨ ∃ e, settle_attempt_with_event now i f st ck ev s = (Err e, s).
Proof.
  unfold settle_attempt_with_event, commit.
  destruct (settle_tx _ _ _ _ _ _ s) as [[r s']|e] eqn:Ht; [left|right; by eexists].
  exists r, s'. split; [done|]. by eapply settle_tx_status.
Qed.

(** What a settlement step must have done. *)
Definition settled_as (b : bool) (s' : db) : Prop :=
  ∃ a, attempts s' !! af_attempt_id (attempt_fence lease) = Some a
    ∧ ar_status a = (if b then "succeeded" else "failed").

Definition settlement_reported (s s' : db) (p' : Point) : Prop :=
  match p' with
  | AtReconcile _ b => settled_as b s'
  | _ => s' = s
  end.

Lemma refused_reported ctx e s : settlement_reported s s (after_settlement ctx (Err e)).
Proof. by destruct e. Qed.

(** settlements are reported as they are.  When a settlement call of the
    worker returns, the worker goes on to publish a success exactly when the
    attempt's row is now succeeded, treats it as settled but not succeeded
    exactly when the row is now failed, and in every other case (refused
    checkpoint, requested cancellation, lost lease, any other error) the
    database is as it was.  A success is only reported for a completed outcome
    whose checkpoint kind is not blank. *)
Theorem settlement_faithful p ex now new_id clock s p' ex' s' :
  (∃ ctx outcome, p = AtSettle ctx outcome) ∨ (∃ ctx failure, p = AtSettleFallback ctx failure) →
  attempt_step config lease p ex (StoreReturns (Landed now) new_id clock) s = Some (p', ex', s') →
  settlement_reported s s' p'
  ∧ ((∃ ctx, p' = AtReconcile ctx true) → ∃ ctx checkpoint event, p = AtSettle ctx (Complete checkpoint event)
       ∧ (∀ c, checkpoint = Some c → is_blank (oc_kind c) = false)).
Proof.
  intros [(ctx & outcome & ->)|(ctx & failure & ->)]; cbn beta iota delta [attempt_step finish_step];
    intros ([p1 s1] & [= Hs] & [= <- _ <-])%bind_Some.
  - unfold settle_first in Hs. destruct (settlement_parts outcome) as [[st ck] ev] eqn:Hparts.
    destruct (has_blank_kind _) eqn:Hblank; unfold settle_attempt in Hs; cbn [land] in Hs.
    + destruct (settle_event_cases now new_id (attempt_fence lease) (SettleFailed (fallback_failure clock st)) None None s)
        as [(r & s2 & E & Hset)|[e E]]; rewrite E in Hs; injection Hs as <- <-.
      * split; [done|]. by intros [c [=]].
      * split; [apply refused_reported|]. intros [c Hc]. by destruct e.
    + destruct (settle_event_cases now new_id (attempt_fence lease) st
        ((λ c, into_new c (attempt_fence lease)) <$> ck) ev s) as [(r & s2 & E & Hset)|[e E]]; rewrite E in Hs.
      * injection Hs as <- <-. split; [done|]. intros [c [= _ Hb]]. destruct outcome as [ck' ev'|]; [|by injection Hparts as <-].
        injection Hparts as <- <- <-. exists ctx, ck', ev'. split; [done|]. by intros c' ->.
      * destruct (_ && _); injection Hs as <- <-; [split; [done|by intros [c [=]]]|].
        split; [apply refused_reported|]. intros [c Hc]. by destruct e.
  - unfold settle_fallback, settle_attempt in Hs. cbn [land] in Hs.
    destruct (settle_event_cases now new_id (attempt_fence lease) (SettleFailed failure) None None s)
      as [(r & s2 & E & Hset)|[e E]]; rewrite E in Hs; injection Hs as <- <-.
    + split; [done|]. by intros [c [=]].
    + split; [apply refused_reported|]. intros [c Hc]. by destruct e.
Qed.
End one_attempt.

(** ** The claim loop *)

Section one_worker.
Context (config : RunnerConfig).

Inductive loop_reach : LoopPoint → list RecoveryLease → Prop :=
| loop_begin : loop_reach LoopStart []
| loop_next p l o s p' l' s' :
    loop_reach p l → loop_step config p l o s = Some (p', l', s') → loop_reach p' l'.

(** slots.  A validated worker never runs more attempts than it has slots,
    never claims while it drains, and has joined every attempt it spawned when
    it stops. *)
Theorem slots_respected p attempts :
  validate_config config = Ok tt → 0 ≤ rc_slots config → loop_reach p attempts →
  Z.of_nat (length attempts) ≤ rc_slots config
  ∧ (p = LoopStopped → attempts = [])
  ∧ (∀ o s p' attempts' s', p = LoopDrain → loop_step config p attempts o s = Some (p', attempts', s') →
       (p' = LoopDrain ∨ p' = LoopStopped) ∧ s' = s ∧ (length attempts' ≤ length attempts)%nat).
Proof.
  intros Hv Hs Hr. split_and!.
  - induction Hr as [|p l o s p' l' s' Hr IH Hstep]; [done|].
    assert (∀ i, (i < length l)%nat → Z.of_nat (length (delete i l)) ≤ rc_slots config) as Hdel.
    { intros i Hi. rewrite length_delete by (by apply lookup_lt_is_Some). lia. }
    destruct p, o; simpl in Hstep; try done; repeat case_match; simplify_eq; auto.
    rewrite length_app. simpl. unfold has_slot in *. lia.
  - intros ->. inversion Hr as [|p l o s p' l' s' _ Hstep]; subst.
    destruct p, o; simpl in Hstep; try done; repeat case_match; simplify_eq. by apply nil_length_inv.
  - intros o s p' l' s' -> Hstep. destruct o; simpl in Hstep; try done; repeat case_match; simplify_eq; auto.
    split_and!; auto. rewrite length_delete by (by apply lookup_lt_is_Some). lia.
Qed.

(** lease timing.  A validated configuration asks the store for a whole number
    of seconds between 3 and the 32-bit limit, so the conversion to the store's
    argument never fails; the heartbeat comes round before the bounded renewal
    gives up; and the shutdown grace ends a second before a fresh lease does. *)
Theorem validated_lease_timing :
  0 ≤ rc_lease_duration config → 0 ≤ rc_slots config → validate_config config = Ok tt →
  u32_try_from (as_secs (rc_lease_duration config)) = Some (lease_seconds (rc_lease_duration config))
  ∧ 3 ≤ lease_seconds (rc_lease_duration config) ≤ u32_max
  ∧ rc_lease_duration config = lease_seconds (rc_lease_duration config) * nanos_per_second
  ∧ (∀ renewed_at clock, renewed_at <= clock → (clock - renewed_at) * 1000 <= rc_lease_duration config / 3 →
       0 < lease_deadline_remaining (lease_deadline renewed_at (lease_seconds (rc_lease_duration config))) clock)
  ∧ rc_shutdown_grace config ≤ rc_lease_duration config - LEASE_SLACK
  ∧ 1 ≤ rc_slots config.
Proof.
  intros Hd Hs Hv. unfold validate_config in Hv. inv_tx.
  repeat match goal with
  | H : (_ =? _) = false |- _ => apply Z.eqb_neq in H
  | H : (_ <? _) = false |- _ => apply Z.ltb_ge in H
  | H : _ || _ = false |- _ => apply orb_false_iff in H as [? ?]
  | H : negb _ = false |- _ => apply negb_false_iff, Z.eqb_eq in H
  end.
  unfold as_secs, subsec_nanos in *. assert (nanos_per_second = 1000000000) as En by done.
  pose proof (Z.div_mod (rc_lease_duration config) nanos_per_second ltac:(lia)) as Hdm.
  assert (u32_try_from (rc_lease_duration config / nanos_per_second)
          = Some (rc_lease_duration config / nanos_per_second)) as Hu
    by (apply try_range_in; unfold u32_max in *; lia).
  unfold lease_seconds, as_secs. rewrite Hu. cbn [default]. unfold id.
  unfold lease_deadline_remaining, lease_deadline, LEASE_SLACK, saturating_sub in *.
  rewrite En in *. split_and!; [done|lia..| |lia|lia]. intros renewed_at clock Hle Hthird.
  set (q := rc_lease_duration config / 1000000000) in *. set (d := rc_lease_duration config) in *.
  pose proof (Z.mul_div_le d 3 ltac:(lia)). lia.
Qed.
End one_worker.
End runner_laws.

(** ** Witnesses *)

#[local] Existing Instance demo_external.

Definition demo_error_text : ErrorText := {| error_text := λ _, "error" |}.
#[local] Existing Instance demo_error_text.

Definition demo_config : RunnerConfig :=
  mkRunnerConfig "w1" (5 * nanos_per_second) nanos_per_second nanos_per_second 2
    (Some (mkExecutionProfile "p" "m")).

(** The lease [w1] holds on the first stage of the sample job. *)
Definition demo_lease : RecoveryLease :=
  mkRecoveryLease
    (mkRecoverySelection "J" "o0" "codex.plan" NewOperation None 1 2 ResumeFresh None)
    (mkAttemptRecord "a0" "o0" 1 AttRunning "w1" 1 5000012 NewOperation None None None 12 None)
    (demo_fence "a0" "w1" 1).

(** The demo attempt, driven by a list of observations alone. *)
Fixpoint drive (p : Point) (ex : Executor) (os : list Observation) (s : db) : option (Point * Executor * db) :=
  match os with
  | [] => Some (p, ex, s)
  | o :: rest =>
      match attempt_step demo_config demo_lease p ex o s with
      | Some (p', ex', s') => drive p' ex' rest s'
      | None => None
      end
  end.

Definition store_at (now : Z) : Observation := StoreReturns (Landed now) "c" now.

(** Started at 20, told to shut down while the executor runs. *)
Example demo_attempt_loops :
  ∃ ctx s', drive AtRenew NotSpawned [store_at 20; store_at 21; store_at 22; store_at 23] (demo running_history)
            = Some (AtSelect ctx 5000023, Executing false, s').
Proof. eexists _, _. vm_compute. reflexivity. Qed.

Lemma drive_started os s p ex s' :
  reachable s → drive AtRenew NotSpawned os s = Some (p, ex, s') → started demo_config demo_lease (mkWorld p ex s').
Proof.
  intros Hr Hd. exists s. split; [done|]. revert Hd. generalize AtRenew NotSpawned. revert s Hr.
  induction os as [|o os IH]; intros s Hr p0 ex0 Hd; simpl in Hd; [by injection Hd as -> -> ->|].
  destruct (attempt_step _ _ _ _ _ _) as [[[p1 ex1] s1]|] eqn:Hs; [|done].
  assert (own_step demo_config demo_lease (mkWorld p0 ex0 s) (mkWorld p1 ex1 s1)) as Hown by (by exists o).
  eapply rtc_l; [left; exact Hown|]. apply IH; [|done].
  eapply (world_step_reachable demo_config demo_lease (mkWorld p0 ex0 s) (mkWorld p1 ex1 s1)); [done|by left].
Qed.

Definition demo_world (os : list Observation) : world :=
  match drive AtRenew NotSpawned os (demo running_history) with
  | Some (p, ex, s) => mkWorld p ex s
  | None => mkWorld AtRenew NotSpawned empty_db
  end.

Definition loop_observations : list Observation := [store_at 20; store_at 21; store_at 22; store_at 23].
Definition drain_observations : list Observation := loop_observations ++ [ShutdownRequested].

Lemma demo_world_started os :
  is_Some (drive AtRenew NotSpawned os (demo running_history)) → started demo_config demo_lease (demo_world os).
Proof.
  intros [[[p ex] s] Hd]. unfold demo_world. rewrite Hd. eapply drive_started; [apply demo_reachable|exact Hd].
Qed.


Lemma executor_joined_witness :
  started demo_config demo_lease (demo_world drain_observations)
  ∧ w_executor (demo_world drain_observations) = Executing true
  ∧ ∃ ctx,
      (∃ expires, w_point (demo_world drain_observations) = AtSelect ctx expires ∧ true = false)
      ∨ (∃ next, w_point (demo_world drain_observations) = AtDrain ctx next ∧ true = true).
Proof.
  assert (started demo_config demo_lease (demo_world drain_observations)) as Hst
    by (apply demo_world_started; eexists; vm_compute; reflexivity).
  split; [exact Hst|]. split; [vm_compute; reflexivity|].
  exact (executor_joined demo_config demo_lease (demo_world drain_observations) Hst).
Defined.

Lemma attempt_returns_witness :
  (0 ≤ 7)%nat
  ∧ ((∃ r, w_point (demo_world drain_observations) = AtReturn r)
     ∨ (∃ w2, own_step demo_config demo_lease (demo_world drain_observations) w2)
     ∨ w_executor (demo_world drain_observations) = Executing true).
Proof.
  apply (attempt_returns demo_config demo_lease (demo_world drain_observations) 0).
  - apply demo_world_started. eexists. vm_compute. reflexivity.
  - vm_compute. repeat constructor.
  - constructor.
Defined.

(** A completed outcome with no checkpoint, settled at 30. *)
Definition demo_context : OperationExecutionContext :=
  mkOperationExecutionContext demo_lease (mkJobRecord "J" "factory.task" Null JobRunning 0 0)
    (mkOperationRecord "o0" "J" 0 "codex.plan" Null OpRunning 2 0 0 0) None.

Definition demo_settlement : option (Point * Executor * db) :=
  attempt_step demo_config demo_lease (AtSettle demo_context (Complete None None))
    (Finished (Joined (Ok (Complete None None)))) (store_at 30) (demo running_history).

Lemma settlement_faithful_witness :
  match demo_settlement with
  | Some (p', ex', s') => settlement_reported demo_lease (demo running_history) s' p'
  | None => False
  end.
Proof.
  destruct demo_settlement as [[[p' ex'] s']|] eqn:E; [|vm_compute in E; discriminate E].
  refine (proj1 (settlement_faithful demo_config demo_lease _ _ 30 "c" 30 (demo running_history) p' ex' s' _ E)).
  left. by exists demo_context, (Complete None None).
Defined.

Lemma slots_respected_witness :
  loop_reach demo_config LoopClaim [] ∧ Z.of_nat (length ([] : list RecoveryLease)) ≤ rc_slots demo_config.
Proof.
  assert (loop_reach demo_config LoopClaim []) as Hr.
  { apply (loop_next _ LoopTop [] ReconcileReturned empty_db _ _ empty_db); [|reflexivity].
    apply (loop_next _ LoopStart [] ReconcileReturned empty_db _ _ empty_db); [constructor|reflexivity]. }
  split; [exact Hr|].
  refine (proj1 (slots_respected demo_config LoopClaim [] _ _ Hr)); [vm_compute; reflexivity|vm_compute; discriminate].
Defined.

Lemma validated_lease_timing_witness :
  u32_try_from (as_secs (rc_lease_duration demo_config)) = Some (lease_seconds (rc_lease_duration demo_config)).
Proof.
  refine (proj1 (validated_lease_timing demo_config _ _ _));
    [vm_compute; discriminate|vm_compute; discriminate|vm_compute; reflexivity].
Defined.
