(* ===== verification/StageOutput.v ===== *)
(** * Stage output

    [stage_output.rs]: the reducer that rebuilds what each settled stage of a
    job said from the job's event log, shared by the worker (when it publishes
    artifacts) and the command line.  It picks the turn the runtime accepted for
    the stage, the message of that turn that counts as its answer, and, for a
    remediation stage, one turn for every cycle and role. *)

From S2P Require Import Prelude Sequences Domain.
From Stdlib Require Import ZArith Ascii String.
From stdpp Require Import base gmap strings list sorting countable pretty.

#[local] Open Scope string_scope.
#[local] Open Scope Z_scope.
#[local] Open Scope list_scope.

(** ** Data *)

Inductive StageOutputTurnRole : Type := RoleStage | RoleRemediation | RoleReview.

#[export] Instance StageOutputTurnRole_eq_dec : EqDecision StageOutputTurnRole.
Proof. solve_decision. Defined.

Definition heading (r : StageOutputTurnRole) : string :=
  match r with RoleStage => "Stage" | RoleRemediation => "Remediation" | RoleReview => "Review" end.

Definition role_rank (role : StageOutputTurnRole) : Z :=
  match role with RoleRemediation => 0 | RoleReview => 1 | RoleStage => 2 end.

Definition parse_turn_role (value : string) : option StageOutputTurnRole :=
  if decide (value = "stage") then Some RoleStage
  else if decide (value = "remediation") then Some RoleRemediation
  else if decide (value = "review") then Some RoleReview
  else None.

#[export] Instance role_rank_inj : Inj (=) (=) role_rank.
Proof. by intros [] []. Qed.

#[export] Instance StageOutputTurnRole_countable : Countable StageOutputTurnRole.
Proof.
  refine (inj_countable' (λ r, Z.to_nat (role_rank r))
    (λ n, match n with 0%nat => RoleRemediation | 1%nat => RoleReview | _ => RoleStage end) _).
  by intros [].
Defined.

Record ValidatedAgentTurn : Type := mkValidatedAgentTurn {
  vt_attempt_id : string;
  vt_turn_id : string;
  vt_role : StageOutputTurnRole;
  vt_review_cycle : Z;
}.

#[export] Instance ValidatedAgentTurn_eq_dec : EqDecision ValidatedAgentTurn.
Proof. solve_decision. Defined.

Record ValidatedStageOutput : Type := mkValidatedStageOutput {
  vs_operation_id : string;
  vs_stage : string;
  vs_turns : list ValidatedAgentTurn;
}.

Record CompletedStageOutput : Type := mkCompletedStageOutput {
  co_operation_id : string;
  co_stage : string;
  co_markdown : string;
  co_findings : option Value;
}.

Definition APPROVED_NO_REMEDIATION : string :=
  "No remediation was required because review approved the result.".

(** A [StageOutputReductionError] is its message. *)
Abbreviation Reduced := (result (list fmt_part)).

Record AgentMessage : Type := mkAgentMessage {
  am_streamed : string;
  am_complete : string;
  am_phase : option string;
  am_completed_sequence : option Z;
}.

Definition empty_message : AgentMessage := mkAgentMessage "" "" None None.

(** [event.payload.get(k).and_then(Value::as_str)]. *)
Definition field_str (k : string) (e : JobEventRecord) : option string :=
  v ← value_get k (je_payload e); as_str v.

(** The role and the cycle a marker event names. *)
Definition marker_role (e : JobEventRecord) : option StageOutputTurnRole :=
  field_str "role" e ≫= parse_turn_role.

Definition marker_cycle (e : JobEventRecord) : option Z :=
  v ← value_get "reviewCycle" (je_payload e); n ← as_u64 v; u32_try_from n.

Definition of_operation (operation_id : string) (e : JobEventRecord) : bool :=
  bool_decide (je_operation_id e = Some operation_id).

(** ** The answer of one turn *)

Definition message_kind (kind : string) : bool :=
  bool_decide (kind ∈ ["agent.message"; "agent.message.started"; "agent.message.completed"]).

(** The event belongs to the validated turn. *)
Definition of_turn (operation_id : string) (turn : ValidatedAgentTurn) (e : JobEventRecord) : bool :=
  of_operation operation_id e
  && bool_decide (je_attempt_id e = Some (vt_attempt_id turn))
  && bool_decide (field_str "turnId" e = Some (vt_turn_id turn)).

(** One event of a message: its phase, then its text (appended when streamed,
    replacing the complete text otherwise), then its completion. *)
Definition update_message (e : JobEventRecord) (m : AgentMessage) : AgentMessage :=
  let phase := match field_str "phase" e with Some p => Some p | None => am_phase m end in
  let is_delta := bool_decide (je_kind e = "agent.message") in
  let text := field_str "text" e in
  let streamed :=
    if is_delta then match text with Some t => am_streamed m +:+ t | None => am_streamed m end
    else am_streamed m in
  let complete :=
    if is_delta then am_complete m
    else match text with Some t => t | None => am_complete m end in
  let completed :=
    if decide (je_kind e = "agent.message.completed") then Some (je_sequence e)
    else am_completed_sequence m in
  mkAgentMessage streamed complete phase completed.

Definition record_event (messages : gmap string AgentMessage) (e : JobEventRecord) :
    gmap string AgentMessage :=
  if message_kind (je_kind e) then
    match field_str "itemId" e with
    | Some item_id =>
        <[item_id := update_message e (default empty_message (messages !! item_id))]> messages
    | None => messages
    end
  else messages.

Definition turn_messages (events : list JobEventRecord) (operation_id : string)
    (turn : ValidatedAgentTurn) : gmap string AgentMessage :=
  foldl record_event ∅ (List.filter (of_turn operation_id turn) events).

Definition message_markdown (m : AgentMessage) : string :=
  if decide (am_complete m = "") then am_streamed m else am_complete m.

(** A message that may be the answer, with the sequence it completed at. *)
Definition answer_of (allow_commentary : bool) (m : AgentMessage) : option (Z * string) :=
  sequence ← am_completed_sequence m;
  if allow_commentary || negb (bool_decide (am_phase m = Some "commentary")) then
    if is_blank (message_markdown m) then None else Some (sequence, message_markdown m)
  else None.

Section reducer.
Context `{HashOrder}.

Definition choose_answer (allow_commentary : bool) (messages : gmap string AgentMessage) : option string :=
  snd <$> max_by_key fst (omap (answer_of allow_commentary) (hash_values (values messages))).

Definition reduce_turn (events : list JobEventRecord) (operation_id : string)
    (validated : ValidatedAgentTurn) : option string :=
  let messages := turn_messages events operation_id validated in
  match choose_answer false messages with
  | Some markdown => Some markdown
  | None => choose_answer true messages
  end.

(** ** Rendering *)

Definition nl : ascii := ascii_of_nat 10.
Definition newline_str : string := String nl EmptyString.

(** [markdown.ends_with('\n')]. *)
Fixpoint ends_with_newline (s : string) : bool :=
  match s with
  | EmptyString => false
  | String c EmptyString => bool_decide (c = nl)
  | String _ r => ends_with_newline r
  end.

Definition close_line (s : string) : string := if ends_with_newline s then s else s +:+ newline_str.

(** One turn of the transcript. *)
Definition render_turn (turn : ValidatedAgentTurn) (output : string) : string :=
  "### Cycle " +:+ pretty (vt_review_cycle turn) +:+ ": " +:+ heading (vt_role turn)
  +:+ newline_str +:+ newline_str +:+ "Attempt: `" +:+ vt_attempt_id turn +:+ "`  " +:+ newline_str
  +:+ "Turn: `" +:+ vt_turn_id turn +:+ "`" +:+ newline_str +:+ newline_str +:+ output.

Fixpoint render_turns (index : nat) (markdown : string) (turns : list (ValidatedAgentTurn * string)) : string :=
  match turns with
  | [] => markdown
  | (turn, output) :: r =>
      let markdown := if decide (index = 0%nat) then markdown else markdown +:+ newline_str in
      render_turns (S index) (close_line (markdown +:+ render_turn turn output)) r
  end.

Definition render_remediation_transcript (turns : list (ValidatedAgentTurn * string)) : string :=
  render_turns 0 "" turns.

(** ** Validated stages *)

Definition reduce_stage (events : list JobEventRecord) (stage : ValidatedStageOutput) :
    Reduced CompletedStageOutput :=
  if decide (vs_turns stage = []) then
    Err [Lit "validated "; Display (vs_stage stage); Lit " stage has no agent turns"]
  else
    turns ← map_result (λ turn,
      markdown ← ok_or (reduce_turn events (vs_operation_id stage) turn)
        [Lit "validated "; Display (vs_stage stage); Lit " turn "; Display (vt_turn_id turn);
         Lit " from attempt "; Display (vt_attempt_id turn); Lit " has no completed agent output"];
      Ok (turn, markdown)) (vs_turns stage);
    markdown ←
      (if decide (vs_stage stage = "remediate") then Ok (render_remediation_transcript turns)
       else match turns with
            | [(_, markdown)] => Ok markdown
            | _ => Err [Lit "single-turn "; Display (vs_stage stage); Lit " stage has ";
                        DisplayZ (Z.of_nat (length turns)); Lit " validated turns"]
            end);
    Ok (mkCompletedStageOutput (vs_operation_id stage) (vs_stage stage) markdown None).

Definition reduce_completed_stage_outputs (validated : list ValidatedStageOutput)
    (events : list JobEventRecord) : Reduced (list CompletedStageOutput) :=
  map_result (reduce_stage events) validated.

(** ** Markers of a remediation stage *)

(** The slot of a marker: its cycle and role, when it has both and does not lie
    after the terminal marker. *)
Definition marker_slot (terminal_cycle : Z) (terminal_role : StageOutputTurnRole) (e : JobEventRecord) :
    option (Z * StageOutputTurnRole) :=
  role ← marker_role e;
  cycle ← marker_cycle e;
  if (terminal_cycle <? cycle) || ((cycle =? terminal_cycle) && (role_rank terminal_role <? role_rank role))
  then None else Some (cycle, role).

Definition keep_latest (terminal_cycle : Z) (terminal_role : StageOutputTurnRole)
    (latest : gmap (Z * StageOutputTurnRole) JobEventRecord) (marker : JobEventRecord) :
    gmap (Z * StageOutputTurnRole) JobEventRecord :=
  match marker_slot terminal_cycle terminal_role marker with
  | None => latest
  | Some key =>
      match latest !! key with
      | Some slot => if je_sequence slot <? je_sequence marker then <[key := marker]> latest else latest
      | None => <[key := marker]> latest
      end
  end.

(** The sort key of the collected markers; both parts are always there. *)
Definition marker_key (e : JobEventRecord) : Z * Z :=
  (default 0 (marker_cycle e), default 0 (role_rank <$> marker_role e)).

Definition pair_lt (x y : Z * Z) : bool := (x.1 <? y.1) || ((x.1 =? y.1) && (x.2 <? y.2)).

Definition is_turn_marker (operation_id : string) (upper_sequence : Z) (e : JobEventRecord) : bool :=
  (je_sequence e <=? upper_sequence) && of_operation operation_id e
  && bool_decide (je_kind e = "review_cycle.turn_completed").

Definition remediation_markers (events : list JobEventRecord) (operation_id : string)
    (completion : JobEventRecord) : Reduced (list JobEventRecord) :=
  terminal_role ← ok_or (marker_role completion) [Lit "completion marker has no valid role"];
  terminal_cycle ← ok_or (marker_cycle completion) [Lit "completion marker has no valid cycle"];
  let latest := foldl (keep_latest terminal_cycle terminal_role) ∅
    (List.filter (is_turn_marker operation_id (je_sequence completion)) events) in
  let latest := <[(terminal_cycle, terminal_role) := completion]> latest in
  Ok (order_by (λ x y, pair_lt (marker_key x) (marker_key y)) (hash_values (map_to_list latest).*2)).

(** ** Accepted turns *)

Definition is_turn_output (operation_id turn_id : string) (upper_sequence : Z) (e : JobEventRecord) : bool :=
  (je_sequence e <=? upper_sequence) && of_operation operation_id e
  && bool_decide (je_kind e = "agent.message.completed")
  && bool_decide (field_str "turnId" e = Some turn_id).

Definition accepted_turn (events : list JobEventRecord) (marker : JobEventRecord)
    (operation_id : string) (upper_sequence : Z) : Reduced (option ValidatedAgentTurn) :=
  turn_id ← ok_or (field_str "turnId" marker) [Lit "validated turn marker has no turnId"];
  role ← ok_or (marker_role marker) [Lit "validated turn marker has no valid role"];
  review_cycle ← ok_or (marker_cycle marker) [Lit "validated turn marker has no valid cycle"];
  let attempt_id := max_by_key je_sequence
    (List.filter (is_turn_output operation_id turn_id upper_sequence) events) ≫= je_attempt_id in
  Ok ((λ attempt_id, mkValidatedAgentTurn attempt_id turn_id role review_cycle) <$> attempt_id).

Definition settled_findings (completion : JobEventRecord) : Reduced (option Value) :=
  match value_get "findings" (je_payload completion) with
  | None => Ok None
  | Some findings =>
      if is_array findings then Ok (Some findings)
      else Err [Lit "settled stage findings payload is not an array"]
  end.

(** ** Settled jobs *)

(** [kind.strip_prefix("codex.").unwrap_or(kind)]. *)
Definition stage_of_kind (kind : string) : string := default kind (Prelude.strip_prefix "codex." kind).

Definition is_completion (operation_id : string) (e : JobEventRecord) : bool :=
  of_operation operation_id e && bool_decide (je_kind e = "stage.completed").

(** The last completion event of an operation. *)
Definition completion_of (operation_id : string) (events : list JobEventRecord) : option JobEventRecord :=
  max_by_key je_sequence (List.filter (is_completion operation_id) events).

Definition turn_lt (x y : ValidatedAgentTurn) : bool :=
  pair_lt (vt_review_cycle x, role_rank (vt_role x)) (vt_review_cycle y, role_rank (vt_role y)).

(** [iter().flatten()] over options. *)
Definition flatten_options {A : Type} (l : list (option A)) : list A := omap (λ x, x) l.

Definition with_findings (findings : option Value) (o : CompletedStageOutput) : CompletedStageOutput :=
  mkCompletedStageOutput (co_operation_id o) (co_stage o) (co_markdown o) findings.

Definition reduce_operation (events : list JobEventRecord) (operation : OperationRecord) :
    Reduced (list CompletedStageOutput) :=
  let id := op_operation_id operation in
  let stage := stage_of_kind (op_kind operation) in
  completion ← ok_or (completion_of id events)
    [Lit "settled "; Display stage; Lit " stage has no completion event"];
  findings ← settled_findings completion;
  markers ← (if decide (stage = "remediate") then remediation_markers events id completion
             else Ok [completion]);
  found ← map_result (λ marker, accepted_turn events marker id (je_sequence completion)) markers;
  let turns := order_by turn_lt (flatten_options found) in
  if bool_decide (stage = "remediate") && bool_decide (turns = [])
     && bool_decide (marker_role completion = Some RoleReview) then
    Ok [mkCompletedStageOutput id stage APPROVED_NO_REMEDIATION findings]
  else if decide (length turns = length markers) then
    reduced ← reduce_completed_stage_outputs [mkValidatedStageOutput id stage turns] events;
    Ok (List.map (with_findings findings) reduced)
  else Err [Lit "settled "; Display stage; Lit " stage has an accepted turn without completed agent output"].

Definition settled_operations (job : DurableJob) : list OperationRecord :=
  order_by (λ a b, op_ordinal a <? op_ordinal b)
    (List.filter (λ o, bool_decide (op_state o = OpSucceeded)) (dj_operations job)).

Definition reduce_settled_job_outputs (job : DurableJob) (events : list JobEventRecord) :
    Reduced (list CompletedStageOutput) :=
  outputs ← map_result (reduce_operation events) (settled_operations job);
  Ok (concat outputs).
End reducer.

(** ** The result document *)

(** [char::to_uppercase] beyond ASCII and [serde_json::to_vec_pretty] are
    library functions; the first is given the UTF-8 bytes of one character. *)
Class Rendering : Type := {
  unicode_uppercase : string → string;
  to_vec_pretty : Value → Reduced string;
}.

(** The bytes a character takes, from its first byte. *)
Definition char_width (c : ascii) : nat :=
  let b := byte_of c in
  if (b <? 128)%nat then 1%nat else if (b <? 224)%nat then 2%nat else if (b <? 240)%nat then 3%nat else 4%nat.

Definition to_uppercase `{Rendering} (char : string) : string :=
  match char with
  | String c EmptyString =>
      let b := byte_of c in
      if (97 <=? b)%nat && (b <=? 122)%nat then String (ascii_of_nat (b - 32)) EmptyString else char
  | _ => unicode_uppercase char
  end.

Definition capitalize `{Rendering} (s : string) : string :=
  match s with
  | EmptyString => EmptyString
  | String c _ =>
      to_uppercase (String.substring 0 (char_width c) s)
      +:+ String.substring (char_width c) (String.length s - char_width c) s
  end.

Fixpoint render_outputs `{Rendering} (markdown : string) (outputs : list CompletedStageOutput) : string :=
  match outputs with
  | [] => markdown
  | output :: r =>
      render_outputs (close_line (markdown +:+ newline_str +:+ "## " +:+ capitalize (co_stage output)
                                  +:+ newline_str +:+ newline_str +:+ co_markdown output)) r
  end.

Definition render_job_result `{Rendering} (outputs : list CompletedStageOutput) : string :=
  render_outputs ("# Result" +:+ newline_str) outputs.

Definition render_job_findings `{Rendering} (outputs : list CompletedStageOutput) :
    Reduced (option string) :=
  map_transpose to_vec_pretty (last outputs ≫= co_findings).
