(* ===== verification/StageOutputLaws.v ===== *)
(** * What the stage output reducer returns

    The reducer's answer for a turn against a declarative reading of the log,
    the markers of a remediation stage, the shape of the whole result, and its
    independence from hash-map order and from events of other operations. *)

From S2P Require Import Prelude Sequences Domain StageOutput.
From Stdlib Require Import ZArith Ascii String Sorted.
From stdpp Require Import base gmap strings list sorting.

#[local] Open Scope string_scope.
#[local] Open Scope Z_scope.
#[local] Open Scope list_scope.

(** ** Messages *)

(** The events of a turn that belong to one message item. *)
Definition of_item (i : string) (e : JobEventRecord) : bool :=
  message_kind (je_kind e) && bool_decide (field_str "itemId" e = Some i).

Definition is_delta (e : JobEventRecord) : bool := bool_decide (je_kind e = "agent.message").
Definition is_completed (e : JobEventRecord) : bool := bool_decide (je_kind e = "agent.message.completed").

(** What the log says about an item: the streamed pieces joined, the last full
    text, the last phase, and where it last completed. *)
Definition item_message (i : string) (events : list JobEventRecord) : AgentMessage :=
  let own := List.filter (of_item i) events in
  mkAgentMessage
    (foldr String.append "" (omap (field_str "text") (List.filter is_delta own)))
    (default "" (last (omap (field_str "text") (List.filter (λ e, negb (is_delta e)) own))))
    (last (omap (field_str "phase") own))
    (last (je_sequence <$> List.filter is_completed own)).

Lemma string_append_assoc (a b c : string) : ((a +:+ b) +:+ c) = (a +:+ (b +:+ c)).
Proof. induction a as [|x a IH]; [done|]. exact (f_equal (String x) IH). Qed.

Lemma append_empty (a : string) : (a +:+ "") = a.
Proof. induction a as [|x a IH]; [done|]. exact (f_equal (String x) IH). Qed.

Lemma foldr_append_snoc l (x : string) :
  foldr String.append "" (l ++ [x]) = (foldr String.append "" l +:+ x).
Proof.
  induction l as [|y l IH]; simpl; [apply append_empty|]. rewrite IH. symmetry. apply string_append_assoc.
Qed.

Lemma filter_snoc {A : Type} (p : A → bool) l x :
  List.filter p (l ++ [x]) = List.filter p l ++ (if p x then [x] else []).
Proof. rewrite List.filter_app. simpl. by destruct (p x). Qed.

Lemma item_message_snoc i l e :
  item_message i (l ++ [e]) = if of_item i e then update_message e (item_message i l) else item_message i l.
Proof.
  unfold item_message. rewrite filter_snoc. destruct (of_item i e); [|by rewrite app_nil_r].
  generalize (List.filter (of_item i) l). clear l. intros l.
  rewrite !filter_snoc. unfold update_message, is_delta, is_completed. simpl. f_equal.
  - destruct (bool_decide _); [|by rewrite app_nil_r]. rewrite omap_app. simpl.
    destruct (field_str "text" e); [apply foldr_append_snoc|by rewrite app_nil_r].
  - destruct (bool_decide _); simpl; [by rewrite app_nil_r|]. rewrite omap_app. simpl.
    destruct (field_str "text" e); [by rewrite last_snoc|by rewrite app_nil_r].
  - rewrite omap_app. simpl. destruct (field_str "phase" e); [by rewrite last_snoc|by rewrite app_nil_r].
  - case_decide as Hc; [|by rewrite bool_decide_eq_false_2, app_nil_r by done].
    rewrite bool_decide_eq_true_2, fmap_app by done. apply last_snoc.
Qed.

Lemma item_message_none i l :
  Forall (λ e, of_item i e = false) l → item_message i l = empty_message.
Proof.
  induction l as [|e l IH] using rev_ind; [done|]. intros [Hl He]%Forall_app.
  rewrite Forall_singleton in He. rewrite item_message_snoc, He. by apply IH.
Qed.

(** The fold over the turn's events computes exactly that. *)
Lemma record_events_lookup l i :
  foldl record_event ∅ l !! i =
  if existsb (of_item i) l then Some (item_message i l) else None.
Proof.
  induction l as [|e l IH] using rev_ind; [done|].
  rewrite foldl_app, existsb_app. simpl. rewrite orb_false_r, item_message_snoc.
  unfold record_event at 1, of_item at 2 3. destruct (message_kind (je_kind e)); simpl;
    [|by rewrite orb_false_r, IH].
  destruct (field_str "itemId" e) as [k|].
  - destruct (decide (k = i)) as [->|Hn].
    + rewrite lookup_insert_eq, bool_decide_eq_true_2, orb_true_r by done. f_equal. f_equal.
      rewrite IH. destruct (existsb (of_item i) l) eqn:Hex; [done|]. simpl. symmetry.
      apply item_message_none, Forall_forall. intros x Hx. apply not_true_iff_false. intros Ho.
      apply not_true_iff_false in Hex. apply Hex, existsb_exists. exists x. by rewrite <- list_elem_of_In.
    + rewrite lookup_insert_ne, bool_decide_eq_false_2, orb_false_r by congruence. done.
  - rewrite bool_decide_eq_false_2, orb_false_r by done. done.
Qed.

(** ** The answer of a turn *)

Definition turn_events (events : list JobEventRecord) (operation_id : string) (turn : ValidatedAgentTurn) :
    list JobEventRecord :=
  List.filter (of_turn operation_id turn) events.

(** Item [i] of the turn completed at [sequence] with a non-blank [markdown]
    (outside the commentary phase, unless that is allowed). *)
Definition answers (allow_commentary : bool) (events : list JobEventRecord) (i : string)
    (sequence : Z) (markdown : string) : Prop :=
  answer_of allow_commentary (item_message i events) = Some (sequence, markdown).

(** The answer that completed last. *)
Definition last_answer (allow_commentary : bool) (events : list JobEventRecord) (markdown : string) : Prop :=
  ∃ i sequence, answers allow_commentary events i sequence markdown
    ∧ ∀ i' sequence' markdown', answers allow_commentary events i' sequence' markdown' → sequence' ≤ sequence.

Lemma list_filter_elem {A : Type} (p : A → bool) l x : x ∈ List.filter p l ↔ x ∈ l ∧ p x = true.
Proof. by rewrite !list_elem_of_In, filter_In. Qed.

Lemma sequence_event events e1 e2 :
  NoDup (je_sequence <$> events) → e1 ∈ events → e2 ∈ events → je_sequence e1 = je_sequence e2 → e1 = e2.
Proof.
  intros Hnd [n1 H1]%list_elem_of_lookup [n2 H2]%list_elem_of_lookup Hs.
  assert (n1 = n2) as -> by (eapply NoDup_lookup; [done|rewrite list_lookup_fmap, H1; done|
    rewrite list_lookup_fmap, H2; simpl; by rewrite Hs]). congruence.
Qed.

Lemma answers_event allow es i q md :
  answers allow es i q md → ∃ e, e ∈ es ∧ of_item i e = true ∧ is_completed e = true ∧ je_sequence e = q.
Proof.
  unfold answers, answer_of, item_message. simpl.
  destruct (last (je_sequence <$> _)) as [q'|] eqn:Hl; simpl; [|done].
  intros Ha. assert (q' = q) as -> by (repeat case_match; congruence). clear Ha.
  apply last_Some_elem_of in Hl. apply list_elem_of_fmap in Hl as (e & -> & He).
  apply list_filter_elem in He as [[? ?]%list_filter_elem ?]. eauto.
Qed.

Lemma answers_unique allow es i j q md md' :
  NoDup (je_sequence <$> es) → answers allow es i q md → answers allow es j q md' → i = j ∧ md = md'.
Proof.
  intros Hnd H1 H2. destruct (answers_event _ _ _ _ _ H1) as (e1 & He1 & Hi1 & _ & Hq1).
  destruct (answers_event _ _ _ _ _ H2) as (e2 & He2 & Hi2 & _ & Hq2).
  assert (e1 = e2) as -> by (eapply sequence_event; eauto; congruence).
  unfold of_item in Hi1, Hi2. apply andb_true_iff in Hi1 as [_ Hi1%bool_decide_eq_true].
  apply andb_true_iff in Hi2 as [_ Hi2%bool_decide_eq_true]. assert (i = j) as -> by congruence.
  unfold answers in *. split; [done|congruence].
Qed.

Lemma no_item_no_answer allow es i q md : existsb (of_item i) es = false → ~ answers allow es i q md.
Proof.
  intros Hex (e & He & Hi & _)%answers_event. apply not_true_iff_false in Hex. apply Hex, existsb_exists.
  exists e. by rewrite <- list_elem_of_In.
Qed.

(** The filtered events keep distinct sequences. *)
Lemma filter_sequences p events :
  NoDup (je_sequence <$> events) → NoDup (je_sequence <$> List.filter p events).
Proof.
  induction events as [|e l IH]; [done|]. simpl. rewrite NoDup_cons. intros [Hn Hnd].
  destruct (p e); [|by apply IH]. simpl. apply NoDup_cons. split; [|by apply IH].
  rewrite list_elem_of_fmap. intros (x & Hs & Hx). apply Hn. apply list_elem_of_fmap.
  exists x. split; [done|]. by apply list_filter_elem in Hx as [].
Qed.

(** ** Sorting by cycle and rank *)

#[local] Instance pair_lt_strict_weak {A : Type} (f : A → Z * Z) : StrictWeak (λ x y, pair_lt (f x) (f y)).
Proof.
  split; unfold pair_lt.
  - intros x y. autorewrite with factory. intros Hxy. apply not_true_iff_false. autorewrite with factory. lia.
  - intros x y z. rewrite <- !not_true_iff_false. autorewrite with factory. lia.
Qed.

Lemma pair_lt_tie x y : pair_lt x y = false → pair_lt y x = false → x = y.
Proof.
  destruct x as [a b], y as [c d]. unfold pair_lt. simpl. rewrite <- !not_true_iff_false.
  autorewrite with factory. intros. f_equal; lia.
Qed.

Section answers.
Context `{HashOrder}.

Lemma elem_of_answers allow events op turn q md :
  (q, md) ∈ omap (answer_of allow) (hash_values (values (turn_messages events op turn)))
  ↔ ∃ i, answers allow (turn_events events op turn) i q md.
Proof.
  rewrite list_elem_of_omap. split.
  - intros (m & Hm & Ha). apply elem_of_hash_values, elem_of_values in Hm as [i Hi].
    unfold turn_messages in Hi. rewrite record_events_lookup in Hi.
    destruct (existsb (of_item i) _); [|done]. injection Hi as <-. by exists i.
  - intros [i Hi]. exists (item_message i (turn_events events op turn)). split; [|done].
    apply elem_of_hash_values, elem_of_values. exists i. unfold turn_messages.
    rewrite record_events_lookup. destruct (existsb (of_item i) _) eqn:Hex; [done|].
    by apply no_item_no_answer in Hi.
Qed.

Lemma choose_answer_Some allow events op turn md :
  NoDup (je_sequence <$> events) →
  choose_answer allow (turn_messages events op turn) = Some md
  ↔ last_answer allow (turn_events events op turn) md.
Proof.
  intros Hnd%(filter_sequences (of_turn op turn)). unfold choose_answer. split.
  - intros ([q m] & [Hin Hmax]%max_by_key_Some & [= ->])%fmap_Some. simpl in *.
    apply elem_of_answers in Hin as [i Hi]. exists i, q. split; [done|].
    intros i' q' m' Ha. apply (Hmax (q', m')). apply elem_of_answers. eauto.
  - intros (i & q & Hi & Hmax). rewrite (max_by_key_unique fst _ (q, md)); [done|..].
    + intros [q' m'] Hin. simpl. intros ->. apply elem_of_answers in Hin as [j Hj].
      by destruct (answers_unique _ _ _ _ _ _ _ Hnd Hi Hj) as [_ ->].
    + apply elem_of_answers. eauto.
    + intros [q' m'] Hin. apply elem_of_answers in Hin as [j Hj]. simpl. eauto.
Qed.

Lemma choose_answer_None allow events op turn :
  choose_answer allow (turn_messages events op turn) = None
  ↔ ∀ i q md, ~ answers allow (turn_events events op turn) i q md.
Proof.
  unfold choose_answer. rewrite fmap_None, max_by_key_None. split.
  - intros Hnil i q md Hi. assert ((q, md) ∈ ([] : list (Z * string))) as []%not_elem_of_nil.
    rewrite <- Hnil. apply elem_of_answers. eauto.
  - intros Hno. destruct (omap _ _) as [|[q md] l] eqn:Hl; [done|]. exfalso.
    assert ((q, md) ∈ omap (answer_of allow) (hash_values (values (turn_messages events op turn)))) as Hin
      by (rewrite Hl; left).
    apply elem_of_answers in Hin as [i Hi]. by eapply Hno.
Qed.

(** the answer of a turn.  In a log whose events have distinct sequences, the
    reducer returns for an accepted turn the text of the message that completed
    last in that turn and attempt, leaving commentary aside when there is any
    other completed message, blank messages always; the text is the full text
    the log gives, or the streamed pieces joined in order when there is none.
    It returns nothing exactly when the turn completed no such message. *)
Theorem reduce_turn_answer events op turn md :
  NoDup (je_sequence <$> events) →
  let es := turn_events events op turn in
  (reduce_turn events op turn = Some md ↔
     last_answer false es md
     ∨ (∀ i q m, ~ answers false es i q m) ∧ last_answer true es md)
  ∧ (reduce_turn events op turn = None ↔ ∀ i q m, ~ answers true es i q m).
Proof.
  intros Hnd es. subst es. unfold reduce_turn. destruct (choose_answer false _) as [m0|] eqn:Hc.
  - pose proof Hc as Hl. apply choose_answer_Some in Hl; [|done]. split.
    + split.
      * intros [= ->]. by left.
      * rewrite <- (choose_answer_Some false events op turn md Hnd). intros [Hm|[Hno _]]; [congruence|].
        destruct Hl as (i & q & Hi & _). by destruct (Hno i q m0).
    + split; [done|]. intros Hno. destruct Hl as (i & q & Hi & _). destruct (Hno i q m0).
      unfold answers, answer_of in *. destruct (am_completed_sequence _); [|done]. simpl in *.
      by destruct (negb _).
  - pose proof (proj1 (choose_answer_None _ _ _ _) Hc) as Hno. rewrite choose_answer_Some, choose_answer_None by done. split; [|done].
    split; [by right|]. intros [(i & q & Hi & _)|[_ Hl]]; [by destruct (Hno i q md)|done].
Qed.

(** ** The markers of a remediation stage *)

Section one_stage.
Context (tc : Z) (tr : StageOutputTurnRole).

(** The marker of a slot that the loop keeps: one of the highest sequence. *)
Definition kept (l : list JobEventRecord) (key : Z * StageOutputTurnRole) (e : JobEventRecord) : Prop :=
  e ∈ l ∧ marker_slot tc tr e = Some key
  ∧ ∀ e', e' ∈ l → marker_slot tc tr e' = Some key → je_sequence e' ≤ je_sequence e.

Definition slot_holds (l : list JobEventRecord) (key : Z * StageOutputTurnRole)
    (found : option JobEventRecord) : Prop :=
  match found with
  | Some e => kept l key e
  | None => ∀ e, e ∈ l → marker_slot tc tr e ≠ Some key
  end.

Lemma slot_holds_other l m key found :
  marker_slot tc tr m ≠ Some key → slot_holds l key found → slot_holds (l ++ [m]) key found.
Proof.
  intros Hm. destruct found as [e|].
  - intros (Hin & Hs & Hmax). split; [set_solver|]. split; [done|].
    intros e' [H'|H'%list_elem_of_singleton]%elem_of_app Hk; [by apply Hmax|by subst].
  - intros Hno e [H'|H'%list_elem_of_singleton]%elem_of_app; [by apply Hno|by subst].
Qed.

Lemma keep_latest_lookup l key : slot_holds l key (foldl (keep_latest tc tr) ∅ l !! key).
Proof.
  induction l as [|m l IH] using rev_ind; [simpl; rewrite lookup_empty; by intros e He%not_elem_of_nil|].
  rewrite foldl_app. simpl. unfold keep_latest at 1.
  destruct (marker_slot tc tr m) as [k|] eqn:Hm; [|apply slot_holds_other; [congruence|done]].
  destruct (decide (k = key)) as [->|Hn].
  2:{ apply (slot_holds_other _ m) in IH; [|congruence].
      destruct (_ !! k) as [e|]; [destruct (_ <? _)|]; by rewrite ?lookup_insert_ne. }
  destruct (_ !! key) as [e|] eqn:He.
  - destruct IH as (Hin & Hs & Hmax).
    destruct (je_sequence e <? je_sequence m) eqn:Hlt; rewrite ?lookup_insert_eq, ?He;
      [apply Z.ltb_lt in Hlt|apply Z.ltb_ge in Hlt]; (split; [set_solver|]); (split; [done|]);
      (intros e' [H'|H'%list_elem_of_singleton]%elem_of_app Hk; [specialize (Hmax _ H' Hk); lia|subst; lia]).
  - rewrite lookup_insert_eq. split; [set_solver|]. split; [done|].
    intros e' [H'|H'%list_elem_of_singleton]%elem_of_app Hk; [by destruct (IH e' H')|by subst].
Qed.

(** The map before sorting. *)
Definition latest_markers (l : list JobEventRecord) (completion : JobEventRecord) :
    gmap (Z * StageOutputTurnRole) JobEventRecord :=
  <[(tc, tr) := completion]> (foldl (keep_latest tc tr) ∅ l).

Lemma marker_slot_Some e key :
  marker_slot tc tr e = Some key →
  marker_cycle e = Some key.1 ∧ marker_role e = Some key.2 ∧ pair_lt (tc, role_rank tr) (marker_key e) = false.
Proof.
  unfold marker_slot, marker_key, pair_lt. destruct (marker_role e) as [role|]; simpl; [|done].
  destruct (marker_cycle e) as [cycle|]; simpl; [|done].
  rewrite (Z.eqb_sym cycle tc). destruct (_ || _) eqn:E; [done|]. by intros [= <-].
Qed.

Lemma latest_markers_key l completion key e :
  marker_cycle completion = Some tc → marker_role completion = Some tr →
  latest_markers l completion !! key = Some e →
  marker_cycle e = Some key.1 ∧ marker_role e = Some key.2.
Proof.
  intros Hc Hr. unfold latest_markers. destruct (decide (key = (tc, tr))) as [->|Hn].
  - rewrite lookup_insert_eq. by intros [= <-].
  - rewrite lookup_insert_ne by done. pose proof (keep_latest_lookup l key) as Hk. intros He.
    rewrite He in Hk. destruct Hk as (_ & Hs & _). apply marker_slot_Some in Hs. naive_solver.
Qed.

(** Distinct slots have distinct sort keys, so the sort has no ties. *)
Lemma latest_markers_tie l completion x y :
  marker_cycle completion = Some tc → marker_role completion = Some tr →
  x ∈ (map_to_list (latest_markers l completion)).*2 → y ∈ (map_to_list (latest_markers l completion)).*2 →
  marker_key x = marker_key y → x = y.
Proof.
  intros Hc Hr Hx Hy E. apply list_elem_of_fmap in Hx as ([kx x'] & -> & Hx%elem_of_map_to_list).
  apply list_elem_of_fmap in Hy as ([ky y'] & -> & Hy%elem_of_map_to_list). simpl in *.
  destruct (latest_markers_key _ _ _ _ Hc Hr Hx) as [Hcx Hrx].
  destruct (latest_markers_key _ _ _ _ Hc Hr Hy) as [Hcy Hry].
  unfold marker_key in E. rewrite Hcx, Hrx, Hcy, Hry in E. simpl in E.
  destruct kx as [cx rx], ky as [cy ry]. simpl in E. injection E as -> E%(inj role_rank). subst. congruence.
Qed.

Lemma latest_markers_NoDup l completion :
  marker_cycle completion = Some tc → marker_role completion = Some tr →
  NoDup (map_to_list (latest_markers l completion)).*2.
Proof.
  intros Hc Hr. apply NoDup_fmap_2_strong; [|apply NoDup_map_to_list].
  intros [kx x] [ky y] Hx%elem_of_map_to_list Hy%elem_of_map_to_list. simpl. intros <-.
  destruct (latest_markers_key _ _ _ _ Hc Hr Hx) as [Hcx Hrx].
  destruct (latest_markers_key _ _ _ _ Hc Hr Hy) as [Hcy Hry].
  f_equal. destruct kx, ky. simpl in *. congruence.
Qed.

Lemma latest_markers_elem l completion e :
  NoDup (je_sequence <$> l) →
  e ∈ (map_to_list (latest_markers l completion)).*2
  ↔ e = completion ∨ ∃ key, key ≠ (tc, tr) ∧ kept l key e.
Proof.
  intros Hnd. rewrite list_elem_of_fmap. split.
  - intros ([key e'] & -> & Hk%elem_of_map_to_list). simpl. unfold latest_markers in Hk.
    destruct (decide (key = (tc, tr))) as [->|Hn]; [rewrite lookup_insert_eq in Hk; left; congruence|].
    rewrite lookup_insert_ne in Hk by done. right. exists key. split; [done|].
    pose proof (keep_latest_lookup l key) as Hh. by rewrite Hk in Hh.
  - intros [->|(key & Hn & Hk)].
    + exists ((tc, tr), completion). split; [done|]. apply elem_of_map_to_list, lookup_insert_eq.
    + exists (key, e). split; [done|]. apply elem_of_map_to_list. unfold latest_markers.
      rewrite lookup_insert_ne by done. pose proof (keep_latest_lookup l key) as Hh.
      destruct Hk as (Hin & Hs & Hmax). destruct (_ !! key) as [e'|]; [|by destruct (Hh e)].
      destruct Hh as (Hin' & Hs' & Hmax'). f_equal. eapply sequence_event; [done..|].
      specialize (Hmax _ Hin' Hs'). specialize (Hmax' _ Hin Hs). lia.
Qed.
End one_stage.

Lemma remediation_markers_Ok events op completion markers :
  remediation_markers events op completion = Ok markers ↔
  ∃ tc tr, marker_cycle completion = Some tc ∧ marker_role completion = Some tr
    ∧ markers = order_by (λ x y, pair_lt (marker_key x) (marker_key y)) (hash_values
        (map_to_list (latest_markers tc tr
           (List.filter (is_turn_marker op (je_sequence completion)) events) completion)).*2).
Proof.
  unfold remediation_markers. destruct (marker_role completion) as [tr|]; simpl; [|naive_solver].
  destruct (marker_cycle completion) as [tc|]; simpl; [|naive_solver].
  unfold latest_markers. naive_solver.
Qed.

(** Strictly sorted lists have their greatest element last. *)
Lemma strict_last {A : Type} (lt : A → A → bool) l x :
  StronglySorted (λ a b, lt a b = true) l → x ∈ l → (∀ y, y ∈ l → lt x y = false) → last l = Some x.
Proof.
  intros Hs. induction Hs as [|y l Hl IH Hy]; intros Hx Hmax; [by apply not_elem_of_nil in Hx|].
  destruct l as [|z l]; [by apply list_elem_of_singleton in Hx as ->|].
  change (last (y :: z :: l)) with (last (z :: l)). apply IH; [|intros w Hw; apply Hmax; by right].
  apply elem_of_cons in Hx as [->|Hx]; [|done]. exfalso.
  assert (lt y z = true) as Hz by (rewrite Forall_forall in Hy; apply Hy; left).
  assert (lt y z = false) by (apply Hmax; right; left). congruence.
Qed.

(** the turns of a remediation stage.  When the completion event names its
    cycle and role, the reducer considers exactly one marker for every cycle and
    role up to the completion's: the completion itself for its own slot, which
    comes last, and for every other slot the last marker the operation recorded
    before the completion, in the order of cycle and role; markers beyond the
    completion's slot, of other operations or recorded later are left out. *)
Theorem remediation_markers_exact events op completion markers :
  NoDup (je_sequence <$> events) →
  remediation_markers events op completion = Ok markers →
  ∃ tc tr, marker_cycle completion = Some tc ∧ marker_role completion = Some tr
    ∧ StronglySorted (λ x y, pair_lt (marker_key x) (marker_key y) = true) markers
    ∧ last markers = Some completion
    ∧ ∀ e, e ∈ markers ↔ e = completion
        ∨ ∃ key, key ≠ (tc, tr)
            ∧ kept tc tr (List.filter (is_turn_marker op (je_sequence completion)) events) key e.
Proof.
  intros Hnd (tc & tr & Hc & Hr & ->)%remediation_markers_Ok. exists tc, tr.
  set (l := List.filter _ events). set (m := latest_markers tc tr l completion).
  assert (∀ e, e ∈ hash_values (map_to_list m).*2 ↔
    e = completion ∨ ∃ key, key ≠ (tc, tr) ∧ kept tc tr l key e) as Hmem.
  { intros e. rewrite elem_of_hash_values. apply latest_markers_elem. by apply filter_sequences. }
  assert (StronglySorted (λ x y, pair_lt (marker_key x) (marker_key y) = true)
    (order_by (λ x y, pair_lt (marker_key x) (marker_key y)) (hash_values (map_to_list m).*2))) as Hsort.
  { apply order_by_strict; [apply _|rewrite hash_values_perm; by apply latest_markers_NoDup|].
    intros x y. rewrite !elem_of_hash_values. intros Hx Hy H1 H2.
    eapply latest_markers_tie; eauto. by apply pair_lt_tie. }
  split_and!; try done; [|intros e; by rewrite elem_of_order_by].
  eapply (strict_last (λ x y, pair_lt (marker_key x) (marker_key y)));
    [done|apply elem_of_order_by, Hmem; by left|].
  intros y Hy%elem_of_order_by%Hmem.
  assert (marker_key completion = (tc, role_rank tr)) as -> by (unfold marker_key; by rewrite Hc, Hr).
  destruct Hy as [->|(key & _ & _ & Hs & _)]; [|by apply marker_slot_Some in Hs as (_ & _ & ?)].
  unfold marker_key. rewrite Hc, Hr. unfold pair_lt. simpl.
  by rewrite Z.ltb_irrefl, Z.ltb_irrefl, andb_false_r.
Qed.
End answers.

(** ** Independence from hash order *)

Lemma map_result_ext {E A B : Type} (f g : A → result E B) l :
  (∀ x, x ∈ l → f x = g x) → map_result f l = map_result g l.
Proof.
  induction l as [|x l IH]; [done|]. intros Hfg. simpl. rewrite (Hfg x) by left.
  rewrite IH; [done|]. intros y Hy. apply Hfg. by right.
Qed.

Lemma reduce_turn_order (H1 H2 : HashOrder) events op turn :
  NoDup (je_sequence <$> events) → @reduce_turn H1 events op turn = @reduce_turn H2 events op turn.
Proof.
  intros Hnd. assert (∀ allow, @choose_answer H1 allow (turn_messages events op turn)
                               = @choose_answer H2 allow (turn_messages events op turn)) as Hc.
  { intros allow. apply option_eq. intros md. by rewrite !choose_answer_Some. }
  unfold reduce_turn. by rewrite !Hc.
Qed.

Lemma reduce_stage_order (H1 H2 : HashOrder) events stage :
  NoDup (je_sequence <$> events) → @reduce_stage H1 events stage = @reduce_stage H2 events stage.
Proof.
  intros Hnd. unfold reduce_stage. case_decide; [done|]. f_equal.
  apply map_result_ext. intros turn _. by rewrite (reduce_turn_order H1 H2).
Qed.

Lemma remediation_markers_order (H1 H2 : HashOrder) events op completion :
  @remediation_markers H1 events op completion = @remediation_markers H2 events op completion.
Proof.
  unfold remediation_markers. destruct (marker_role completion) as [tr|] eqn:Hr; [|done]. simpl.
  destruct (marker_cycle completion) as [tc|] eqn:Hc; [|done]. simpl. f_equal.
  apply (order_by_permuted (λ x y, pair_lt (marker_key x) (marker_key y)));
    [by rewrite !hash_values_perm|].
  intros x y. rewrite !elem_of_hash_values. intros Hx Hy E1 E2.
  eapply (latest_markers_tie tc tr); eauto. by apply pair_lt_tie.
Qed.

(** determinism.  The result for a settled job does not depend on the order in
    which the hash maps of the reducer list their values: whatever the two
    orders are, a log with distinct sequences is reduced to the same outputs or
    the same error. *)
Theorem reduce_hash_order_irrelevant (H1 H2 : HashOrder) job events :
  NoDup (je_sequence <$> events) →
  @reduce_settled_job_outputs H1 job events = @reduce_settled_job_outputs H2 job events.
Proof.
  intros Hnd. unfold reduce_settled_job_outputs. f_equal. apply map_result_ext. intros operation _.
  unfold reduce_operation. destruct (completion_of _ events) as [completion|]; [|done]. simpl.
  destruct (settled_findings completion) as [findings|]; [|done]. simpl.
  rewrite (remediation_markers_order H1 H2). destruct (if decide _ then _ else _) as [markers|]; [|done]. simpl.
  destruct (map_result _ markers) as [found|]; [|done]. simpl.
  destruct (_ && _); [done|]. case_decide; [|done].
  unfold reduce_completed_stage_outputs. simpl. by rewrite (reduce_stage_order H1 H2).
Qed.

(** ** One output per settled stage *)

Section settled.
Context `{HashOrder}.

(** What an output owes to the log: it is the stage's own, its findings are
    those of the last completion event, and outside remediation its text is the
    answer of the turn that event accepts. *)
Definition output_of (events : list JobEventRecord) (operation : OperationRecord) (o : CompletedStageOutput) : Prop :=
  co_operation_id o = op_operation_id operation
  ∧ co_stage o = stage_of_kind (op_kind operation)
  ∧ ∃ completion, completion_of (op_operation_id operation) events = Some completion
    ∧ settled_findings completion = Ok (co_findings o)
    ∧ (co_stage o ≠ "remediate" → ∃ turn,
         accepted_turn events completion (op_operation_id operation) (je_sequence completion) = Ok (Some turn)
         ∧ reduce_turn events (op_operation_id operation) turn = Some (co_markdown o)).

Lemma reduce_stage_Ok events stage o :
  reduce_stage events stage = Ok o →
  co_operation_id o = vs_operation_id stage ∧ co_stage o = vs_stage stage
  ∧ (vs_stage stage ≠ "remediate" → ∃ turn, vs_turns stage = [turn]
       ∧ reduce_turn events (vs_operation_id stage) turn = Some (co_markdown o)).
Proof.
  unfold reduce_stage. case_decide; [done|]. intros Hs. inv_tx.
  match goal with H : map_result _ _ = Ok _ |- _ => apply map_result_Ok in H; rename H into Hturns end.
  simpl. split_and!; [done..|]. intros Hn.
  match goal with H : (if decide _ then _ else _) = Ok _ |- _ => rewrite decide_False in H by done; rename H into Hm end.
  inversion Hturns as [|turn p l l' Hp Hl]; subst; [done|]. destruct p as [t md].
  destruct l'; [|by destruct t]. apply Forall2_nil_inv_r in Hl as ->. inv_tx. eauto.
Qed.

Lemma reduce_operation_output events operation outs :
  reduce_operation events operation = Ok outs → ∃ o, outs = [o] ∧ output_of events operation o.
Proof.
  unfold reduce_operation. intros Hr. inv_tx.
  match goal with H : completion_of _ _ = Some ?c |- _ => rename H into Hc; rename c into completion end.
  match goal with H : settled_findings _ = Ok ?f |- _ => rename H into Hf; rename f into findings end.
  match goal with H : map_result _ ?m = Ok ?f |- _ => rename H into Hfound; rename m into markers; rename f into found end.
  match goal with H : (if decide (stage_of_kind _ = _) then _ else _) = Ok _ |- _ => rename H into Hmarkers end.
  destruct (_ && _) eqn:Happ.
  - inv_tx. apply andb_true_iff in Happ as [[Hst%bool_decide_eq_true _]%andb_true_iff _].
    eexists. split; [done|]. unfold output_of. simpl. split_and!; [done..|]. exists completion.
    split_and!; [done..|]. by intros [].
  - case_decide as Hlen; [|inv_tx]. inv_tx. unfold reduce_completed_stage_outputs in *. simpl in *. inv_tx.
    match goal with H : reduce_stage _ _ = Ok ?r |- _ => apply reduce_stage_Ok in H as (Hi & Hs & Ht); rename r into o end.
    simpl in *. eexists. split; [done|]. unfold output_of. simpl. split_and!; [done..|]. exists completion.
    split_and!; [done..|]. rewrite Hs. intros Hn. rewrite decide_False in Hmarkers by done. inv_tx.
    simpl in Hfound. inv_tx. destruct (Ht Hn) as (turn & Hturns & Hmd). exists turn. split; [|done].
    match goal with H : accepted_turn _ _ _ _ = Ok ?f |- _ => destruct f as [t|]; [|done] end. simpl in *. congruence.
Qed.

End settled.

(** ** Isolation *)

Lemma filter_filter {A : Type} (p q : A → bool) l :
  (∀ x, q x = true → p x = true) → List.filter q (List.filter p l) = List.filter q l.
Proof.
  intros Hqp. induction l as [|x l IH]; [done|]. simpl. destruct (p x) eqn:Hp; simpl; [by rewrite IH|].
  destruct (q x) eqn:Hq; [|done]. apply Hqp in Hq. congruence.
Qed.

(** Every filter of the reducer looks at one operation's events only. *)
Lemma filter_operation (q : JobEventRecord → bool) op l1 l2 :
  (∀ e, q e = true → of_operation op e = true) →
  List.filter (of_operation op) l1 = List.filter (of_operation op) l2 →
  List.filter q l1 = List.filter q l2.
Proof.
  intros Hq E. rewrite <- (filter_filter (of_operation op) q l1), <- (filter_filter (of_operation op) q l2) by done.
  by rewrite E.
Qed.

Section isolation.
Context `{HashOrder} (op : string) (l1 l2 : list JobEventRecord)
  (E : List.filter (of_operation op) l1 = List.filter (of_operation op) l2).

Local Ltac one_operation :=
  apply (filter_operation _ op); [|exact E]; intros e;
  unfold of_turn, is_turn_marker, is_turn_output, is_completion; autorewrite with factory; tauto.

Lemma completion_isolated : completion_of op l1 = completion_of op l2.
Proof using E. unfold completion_of. f_equal. one_operation. Qed.

Lemma markers_isolated completion :
  remediation_markers l1 op completion = remediation_markers l2 op completion.
Proof using E.
  unfold remediation_markers. assert (List.filter (is_turn_marker op (je_sequence completion)) l1
    = List.filter (is_turn_marker op (je_sequence completion)) l2) as -> by one_operation. done.
Qed.

Lemma accepted_turn_isolated marker upper :
  accepted_turn l1 marker op upper = accepted_turn l2 marker op upper.
Proof using E.
  unfold accepted_turn. destruct (field_str "turnId" marker) as [t|]; [|done]. simpl.
  assert (List.filter (is_turn_output op t upper) l1 = List.filter (is_turn_output op t upper) l2) as -> by one_operation.
  done.
Qed.

Lemma reduce_stage_isolated stage turns :
  reduce_stage l1 (mkValidatedStageOutput op stage turns) = reduce_stage l2 (mkValidatedStageOutput op stage turns).
Proof using E.
  unfold reduce_stage. simpl. case_decide; [done|]. f_equal. apply map_result_ext. intros turn _.
  assert (reduce_turn l1 op turn = reduce_turn l2 op turn) as ->; [|done].
  assert (List.filter (of_turn op turn) l1 = List.filter (of_turn op turn) l2) as Ht by one_operation.
  unfold reduce_turn, turn_messages. by rewrite Ht.
Qed.
End isolation.

(** isolation.  The outputs depend on the events of the job's succeeded
    operations only: two logs that agree on those, event for event, reduce to
    the same result, whatever else (events of other operations, of the job
    itself, in any interleaving) they hold. *)
Theorem settled_outputs_isolated `{HashOrder} job l1 l2 :
  (∀ operation, operation ∈ settled_operations job →
     List.filter (of_operation (op_operation_id operation)) l1
     = List.filter (of_operation (op_operation_id operation)) l2) →
  reduce_settled_job_outputs job l1 = reduce_settled_job_outputs job l2.
Proof.
  intros Hall. unfold reduce_settled_job_outputs. f_equal. apply map_result_ext. intros operation Hop.
  specialize (Hall operation Hop). unfold reduce_operation. rewrite (completion_isolated _ _ _ Hall).
  destruct (completion_of _ l2) as [completion|]; [|done]. simpl.
  destruct (settled_findings completion) as [findings|]; [|done]. simpl.
  rewrite (markers_isolated _ _ _ Hall). destruct (if decide _ then _ else _) as [markers|]; [|done]. simpl.
  rewrite (map_result_ext _ (λ marker, accepted_turn l2 marker (op_operation_id operation) (je_sequence completion)))
    by (intros; by apply accepted_turn_isolated).
  destruct (map_result _ markers) as [found|]; [|done]. simpl.
  destruct (_ && _); [done|]. case_decide; [|done].
  unfold reduce_completed_stage_outputs. simpl. by rewrite (reduce_stage_isolated _ _ _ Hall).
Qed.

(** ** Witnesses

    A log with an execute stage (a streamed answer and a later commentary) and a
    remediate stage of one cycle. *)

Definition listed_order : HashOrder := {| hash_values A l := l; hash_values_perm A l := reflexivity l |}.
Definition reversed_order : HashOrder :=
  {| hash_values A l := rev l; hash_values_perm A l := symmetry (Permutation_rev l) |}.

Definition sample_event (sequence : Z) (op kind turn : string) (fields : list (string * Value)) : JobEventRecord :=
  mkJobEventRecord sequence "job" (Some op) (Some "attempt") kind (Object (("turnId", Str turn) :: fields)) 0.

Definition sample_completion : JobEventRecord :=
  sample_event 9 "y" "stage.completed" "t2"
    [("role", Str "review"); ("reviewCycle", Num (PosInt 1)); ("findings", Array [])].

Definition sample_log : list JobEventRecord :=
  [ sample_event 1 "x" "agent.message" "t0" [("itemId", Str "i"); ("text", Str "Done ")];
    sample_event 2 "x" "agent.message" "t0" [("itemId", Str "i"); ("text", Str "well")];
    sample_event 3 "x" "agent.message.completed" "t0" [("itemId", Str "i"); ("phase", Str "final_answer")];
    sample_event 4 "x" "agent.message.completed" "t0"
      [("itemId", Str "c"); ("phase", Str "commentary"); ("text", Str "notes")];
    sample_event 5 "x" "stage.completed" "t0" [("role", Str "stage"); ("reviewCycle", Num (PosInt 0))];
    sample_event 6 "y" "agent.message.completed" "t1" [("itemId", Str "i"); ("text", Str "fixed")];
    sample_event 7 "y" "review_cycle.turn_completed" "t1"
      [("role", Str "remediation"); ("reviewCycle", Num (PosInt 1))];
    sample_event 8 "y" "agent.message.completed" "t2" [("itemId", Str "i"); ("text", Str "approved")];
    sample_completion ].

Definition sample_operation (id kind : string) (ordinal : Z) : OperationRecord :=
  mkOperationRecord id "job" ordinal kind Null OpSucceeded 3 0 0 0.

Definition sample_job : DurableJob :=
  mkDurableJob (mkJobRecord "job" "factory.task" Null JobSucceeded 0 0)
    [sample_operation "y" "codex.remediate" 3; sample_operation "x" "codex.execute" 1].

Definition sample_turn : ValidatedAgentTurn := mkValidatedAgentTurn "attempt" "t0" RoleStage 0.

#[local] Existing Instance listed_order.

Example sample_outputs :
  match reduce_settled_job_outputs sample_job sample_log with
  | Ok outputs => List.map (λ o, (co_stage o, co_findings o)) outputs
                  = [("execute", None); ("remediate", Some (Array []))]
  | Err _ => False
  end.
Proof. vm_compute. reflexivity. Qed.

Lemma sample_log_distinct : NoDup (je_sequence <$> sample_log).
Proof. refine (bool_decide_unpack (NoDup (je_sequence <$> sample_log)) _). vm_compute. exact I. Qed.

Lemma reduce_turn_answer_witness :
  reduce_turn sample_log "x" sample_turn = Some "Done well"
  ∧ (last_answer false (turn_events sample_log "x" sample_turn) "Done well"
     ∨ (∀ i q m, ~ answers false (turn_events sample_log "x" sample_turn) i q m)
       ∧ last_answer true (turn_events sample_log "x" sample_turn) "Done well").
Proof.
  split; [vm_compute; reflexivity|].
  apply (reduce_turn_answer sample_log "x" sample_turn "Done well" sample_log_distinct).
  vm_compute. reflexivity.
Defined.

Lemma remediation_markers_exact_witness :
  ∃ markers, remediation_markers sample_log "y" sample_completion = Ok markers
    ∧ length markers = 2%nat ∧ last markers = Some sample_completion.
Proof.
  eexists. split; [vm_compute; reflexivity|]. split; [reflexivity|].
  edestruct (remediation_markers_exact sample_log "y" sample_completion) as (tc & tr & _ & _ & _ & Hl & _);
    [exact sample_log_distinct|vm_compute; reflexivity|exact Hl].
Defined.

Lemma reduce_hash_order_irrelevant_witness :
  @reduce_settled_job_outputs listed_order sample_job sample_log
  = @reduce_settled_job_outputs reversed_order sample_job sample_log.
Proof. apply reduce_hash_order_irrelevant, sample_log_distinct. Defined.


(** Without the execute stage's events of other turns, with a foreign event. *)
Lemma settled_outputs_isolated_witness :
  reduce_settled_job_outputs sample_job (sample_event 0 "z" "stage.completed" "t9" [] :: sample_log)
  = reduce_settled_job_outputs sample_job sample_log.
Proof.
  apply settled_outputs_isolated. intros operation Hop. vm_compute in Hop.
  apply elem_of_cons in Hop as [->|Hop]; [vm_compute; reflexivity|].
  apply list_elem_of_singleton in Hop as ->. vm_compute. reflexivity.
Defined.
