(* ===== verification/Serde.v ===== *)
(** * Derived JSON codecs

    What [#[derive(Serialize, Deserialize)]] generates for the shapes the
    program uses, on [serde_json::Value]: a structure is written as an object
    and read from an object or from an array of its fields in order, a unit
    variant is written as its name and read from its name or from an object
    with that single key and a null value, [null] is the absent option.
    Attributes select the treatment of a field that is not there. *)

From S2P Require Import Prelude.
From Stdlib Require Import ZArith Ascii String.
From stdpp Require Import base strings list option sets.

#[local] Open Scope string_scope.
#[local] Open Scope Z_scope.
#[local] Open Scope list_scope.

(** [Serialize] and [Deserialize]; a value that does not have the expected
    shape is [None]. *)
Class Serde (A : Type) : Type := {
  ser : A → Value;
  de : Value → option A;
}.

(** The text of a deserialization error, for what was to be read. *)
Class DecodeText : Type := { decode_error : string → Value → string }.

(** The law of a codec on the values that fit its representation. *)
Class SerdeRoundTrip (A : Type) `{Serde A} (fits : A → Prop) : Prop :=
  de_ser a : fits a → de (ser a) = Some a.

(** ** Objects *)

(** The map of a structure, built field by field; [None] is a field that
    [skip_serializing_if] leaves out. *)
Definition add_field (f : list (string * Value)) (kv : string * option Value) : list (string * Value) :=
  match kv.2 with Some v => assoc_set kv.1 v f | None => f end.

Definition object_of (fields : list (string * option Value)) : Value :=
  Object (foldl add_field [] fields).

(** A field of a structure as the visitor finds it. *)
Inductive Found : Type :=
| Present (v : Value)
| MissingKey
| MissingElement.

Definition find_key (f : list (string * Value)) (k : string) : Found :=
  match assoc_get k f with Some v => Present v | None => MissingKey end.

Fixpoint find_elements (names : list string) (l : list Value) : list Found :=
  match names, l with
  | [], _ => []
  | _ :: r, v :: l' => Present v :: find_elements r l'
  | _ :: r, [] => MissingElement :: find_elements r []
  end.

(** [deserialize_struct]: an object is visited by key and keys that are not
    fields are ignored; an array is visited in order and must not be longer
    than the structure. *)
Definition struct_fields (names : list string) (v : Value) : option (list Found) :=
  match v with
  | Object f => Some (find_key f <$> names)
  | Array l => if decide (length l ≤ length names)%nat then Some (find_elements names l) else None
  | _ => None
  end.

(** The same with [deny_unknown_fields]. *)
Definition struct_fields_strict (names : list string) (v : Value) : option (list Found) :=
  match v with
  | Object f => if forallb (λ kv, bool_decide (kv.1 ∈ names)) f then struct_fields names v else None
  | _ => struct_fields names v
  end.

(** A plain field, an [Option] field and a field with [#[serde(default)]]. *)
Definition field {A : Type} `{Serde A} (f : Found) : option A :=
  match f with Present v => de v | _ => None end.

Definition field_or {A : Type} `{Serde A} (d : A) (f : Found) : option A :=
  match f with Present v => de v | _ => Some d end.

(** ** Basic shapes *)

#[export] Instance serde_string : Serde string := {| ser := Str; de := as_str |}.
#[export] Instance serde_value : Serde Value := {| ser := id; de := Some |}.
#[export] Instance serde_bool : Serde bool :=
  {| ser := Bool; de v := match v with Bool b => Some b | _ => None end |}.

Definition ser_u64 (n : Z) : Value := Num (PosInt n).
Definition de_u64 (v : Value) : option Z := as_u64 v ≫= u64_try_from.
Definition de_u32 (v : Value) : option Z := as_u64 v ≫= u32_try_from.

Definition field_u64 (f : Found) : option Z := match f with Present v => de_u64 v | _ => None end.
Definition field_u32 (f : Found) : option Z := match f with Present v => de_u32 v | _ => None end.
Definition field_u64_or (d : Z) (f : Found) : option Z :=
  match f with Present v => de_u64 v | _ => Some d end.

Section options.
Context {A : Type} `{Serde A}.

Definition de_option (v : Value) : option (option A) :=
  match v with Null => Some None | _ => Some <$> de v end.

#[export] Instance serde_option : Serde (option A) :=
  {| ser o := match o with Some a => ser a | None => Null end; de := de_option |}.

(** An [Option] field without attributes: a missing key is [None], a missing
    array element an error. *)
Definition field_option (f : Found) : option (option A) :=
  match f with Present v => de v | MissingKey => Some None | MissingElement => None end.
End options.

Section lists.
Context {A : Type} `{Serde A}.

Definition de_list (v : Value) : option (list A) :=
  match v with Array l => mapM de l | _ => None end.

#[export] Instance serde_list : Serde (list A) :=
  {| ser l := Array (ser <$> l); de := de_list |}.
End lists.

(** The name a unit variant is read from. *)
Definition variant_name (v : Value) : option string :=
  match v with
  | Str s => Some s
  | Object [(k, Null)] => Some k
  | _ => None
  end.

(** ** Laws *)

Lemma assoc_get_set_ne k k' x f : k ≠ k' → assoc_get k (assoc_set k' x f) = assoc_get k f.
Proof.
  intros Hne. induction f as [|[j v] r IH]; cbn; [by rewrite decide_False|].
  destruct (String.compare k' j) eqn:E; cbn.
  - apply String.compare_eq_iff in E as ->. by rewrite !(decide_False (P := k = j)).
  - by rewrite (decide_False (P := k = k')).
  - by destruct (decide (k = j)).
Qed.

(** Looking up a field of a written structure. *)
Definition lookup_field (k : string) (fields : list (string * option Value)) : option Value :=
  foldl (λ o kv, if String.eqb k kv.1 then match kv.2 with Some v => Some v | None => o end else o)
    None fields.

Lemma assoc_get_fields k fields : assoc_get k (foldl add_field [] fields) = lookup_field k fields.
Proof.
  unfold lookup_field. induction fields as [|[j o] r IH] using rev_ind; [done|].
  rewrite !foldl_app. cbn. unfold add_field at 1. cbn.
  destruct o as [v|]; [|by rewrite IH; destruct (String.eqb k j)].
  destruct (String.eqb_spec k j) as [->|Hne]; [apply assoc_get_set|by rewrite assoc_get_set_ne].
Qed.

Lemma assoc_set_keys k x f : (assoc_set k x f).*1 ⊆ k :: f.*1.
Proof.
  induction f as [|[j v] r IH]; cbn; [done|].
  destruct (String.compare k j) eqn:E; cbn; [apply String.compare_eq_iff in E as ->|..]; set_solver.
Qed.

Lemma object_of_keys fields : (foldl add_field [] fields).*1 ⊆ fields.*1.
Proof.
  induction fields as [|[j o] r IH] using rev_ind; [done|].
  rewrite foldl_app, fmap_app. cbn. unfold add_field at 1. cbn. destruct o as [v|]; [|set_solver].
  pose proof (assoc_set_keys j v (foldl add_field [] r)). set_solver.
Qed.

(** Reading back the fields of a written structure. *)
Definition written (fields : list (string * option Value)) (k : string) : Found :=
  match lookup_field k fields with Some v => Present v | None => MissingKey end.

Lemma struct_fields_object names fields :
  struct_fields names (object_of fields) = Some (written fields <$> names).
Proof.
  cbn. f_equal. apply list_fmap_ext. intros ? k _. unfold find_key, written. by rewrite assoc_get_fields.
Qed.

Lemma struct_fields_strict_object names fields :
  fields.*1 ⊆ names →
  struct_fields_strict names (object_of fields) = Some (written fields <$> names).
Proof.
  intros Hs. cbn. replace (forallb _ _) with true; [apply struct_fields_object|].
  symmetry. apply forallb_forall. intros [k v] Hin%list_elem_of_In. apply bool_decide_eq_true.
  apply Hs, object_of_keys, list_elem_of_fmap. by exists (k, v).
Qed.

#[export] Instance serde_string_law : SerdeRoundTrip string (λ _, True).
Proof. done. Qed.
#[export] Instance serde_value_law : SerdeRoundTrip Value (λ _, True).
Proof. done. Qed.
#[export] Instance serde_bool_law : SerdeRoundTrip bool (λ _, True).
Proof. done. Qed.

Definition fits_u64 (n : Z) : Prop := 0 ≤ n ≤ u64_max.
Definition fits_u32 (n : Z) : Prop := 0 ≤ n ≤ u32_max.

Lemma de_ser_u64 n : fits_u64 n → de_u64 (ser_u64 n) = Some n.
Proof. intros. cbn. by apply try_range_in. Qed.

Lemma de_ser_u32 n : fits_u32 n → de_u32 (ser_u64 n) = Some n.
Proof. intros. cbn. by apply try_range_in. Qed.

(** An optional value is read back when it is not itself written as [null]. *)
Lemma de_ser_option {A} `{Serde A} {fits : A → Prop} `{!SerdeRoundTrip A fits} (o : option A) :
  (∀ a, o = Some a → fits a ∧ ser a ≠ Null) → de (ser o) = Some o.
Proof.
  destruct o as [a|]; [|done]. intros Ha. destruct (Ha a eq_refl) as [Hf Hn]. cbn. unfold de_option.
  pose proof (de_ser a Hf) as E. destruct (ser a); [done|by rewrite E..].
Qed.

#[export] Instance serde_list_law {A} `{Serde A} {fits : A → Prop} `{!SerdeRoundTrip A fits} :
  SerdeRoundTrip (list A) (Forall fits).
Proof.
  intros l Hl. cbn. induction Hl as [|a l Ha Hl IH]; [done|]. cbn. by rewrite (de_ser a Ha), IH.
Qed.

(** Reads a structure back that was just written. *)
Ltac read_back :=
  rewrite ?struct_fields_object; cbn -[ser de de_u64 de_u32 ser_u64];
  repeat (first [rewrite de_ser by solve [done|eauto] | rewrite de_ser_option by solve [done|eauto|naive_solver]
                | rewrite de_ser_u64 by solve [done|eauto]
                | rewrite de_ser_u32 by solve [done|eauto]];
          cbn -[ser de de_u64 de_u32 ser_u64]).
