(* ===== verification/ProviderTools.v ===== *)
(** * Profiles and tools of the provider bridge

    [providers/src/profiles.rs]: the providers a task can be pinned to.
    [providers/src/tools.rs] and the helpers of [responses.rs]: the tools of a
    Responses request become functions with names a provider accepts, and what
    the provider calls is led back to the tool it was offered.  [serde_json]'s
    text and the parser of patches are parameters. *)

From S2P Require Import Prelude Serde.
From Stdlib Require Import ZArith Ascii String.
From stdpp Require Import base gmap strings option list pretty.

#[local] Open Scope string_scope.
#[local] Open Scope Z_scope.
#[local] Open Scope list_scope.

(** ** Profiles *)

Inductive AdapterKind : Type := DirectResponses | ChatCompletions | AnthropicMessages.

#[export] Instance AdapterKind_eq_dec : EqDecision AdapterKind.
Proof. solve_decision. Defined.

Record BaseUrlChoice : Type := mkBaseUrlChoice {
  bu_id : string;
  bu_label : string;
  bu_url : string;
}.

Record ProviderProfile : Type := mkProviderProfile {
  pp_id : string;
  pp_label : string;
  pp_adapter_kind : AdapterKind;
  pp_api_key_env : string;
  pp_default_model : string;
  pp_models : list string;
  pp_base_urls : list BaseUrlChoice;
  pp_context_window : Z;
}.

Definition OPENAI_MODELS : list string := ["gpt-5.6-sol"; "gpt-5.6-terra"; "gpt-5.6-luna"].
Definition ANTHROPIC_MODELS : list string :=
  ["claude-haiku-4-5"; "claude-sonnet-5"; "claude-opus-5"; "claude-fable-5"].
Definition DEEPSEEK_MODELS : list string := ["deepseek-v4-pro"; "deepseek-v4-flash"].
Definition ZAI_MODELS : list string := ["glm-5.2"; "glm-5.1"; "glm-5"].

Definition OPENAI_BASES : list BaseUrlChoice := [mkBaseUrlChoice "standard" "OpenAI API" "https://api.openai.com/v1"].
Definition ANTHROPIC_BASES : list BaseUrlChoice := [mkBaseUrlChoice "standard" "Claude API" "https://api.anthropic.com"].
Definition DEEPSEEK_BASES : list BaseUrlChoice := [mkBaseUrlChoice "standard" "DeepSeek API" "https://api.deepseek.com"].
Definition ZAI_BASES : list BaseUrlChoice :=
  [mkBaseUrlChoice "coding" "Coding Developer Plan" "https://api.z.ai/api/coding/paas/v4";
   mkBaseUrlChoice "standard" "Standard API" "https://api.z.ai/api/paas/v4"].

Definition PROFILES : list ProviderProfile :=
  [mkProviderProfile "openai" "OpenAI" DirectResponses "OPENAI_API_KEY" "gpt-5.6-sol" OPENAI_MODELS OPENAI_BASES 1050000;
   mkProviderProfile "anthropic" "Anthropic Claude" AnthropicMessages "ANTHROPIC_API_KEY" "claude-sonnet-5"
     ANTHROPIC_MODELS ANTHROPIC_BASES 1000000;
   mkProviderProfile "deepseek" "DeepSeek" ChatCompletions "DEEPSEEK_API_KEY" "deepseek-v4-pro"
     DEEPSEEK_MODELS DEEPSEEK_BASES 128000;
   mkProviderProfile "zai" "Z.AI" ChatCompletions "ZAI_API_KEY" "glm-5.2" ZAI_MODELS ZAI_BASES 1000000].

Definition provider_profile (id : string) : option ProviderProfile :=
  snd <$> list_find (λ p, pp_id p = id) PROFILES.

(** [Value::to_string] and [serde_json::from_str::<Value>]. *)
Class JsonCodec : Type := {
  json_text : Value → string;
  json_parse : string → result string Value;
}.

(** [codex_apply_patch::parse_patch]: the number of hunks and the patch. *)
Class PatchParser : Type := { parse_patch : string → result string (nat * string) }.

Inductive TranslationError : Type :=
| InvalidRequest (detail : string)
| UnsupportedItem (item : string)
| UnknownTool (name : string)
| InvalidToolArguments (tool : string) (detail : string).

(** ** Access to JSON *)

Definition as_array (v : Value) : option (list Value) :=
  match v with Array l => Some l | _ => None end.

Definition get_str (k : string) (v : Value) : option string := value_get k v ≫= as_str.
Definition get_array (k : string) (v : Value) : option (list Value) := value_get k v ≫= as_array.

(** [Value::pointer] with two keys. *)
Definition pointer2 (k1 k2 : string) (v : Value) : option Value := value_get k1 v ≫= value_get k2.

(** [Option::filter] of a text that is not empty. *)
Definition nonempty (o : option string) : option string :=
  match o with Some EmptyString => None | _ => o end.

Definition required_string (v : Value) (fld : string) : result TranslationError string :=
  ok_or (nonempty (get_str fld v)) (InvalidRequest ("missing " +:+ fld)).

(** [str::join("\n")]. *)
Definition nl : string := String (ascii_of_nat 10) EmptyString.

Fixpoint join_lines (l : list string) : string :=
  match l with
  | [] => EmptyString
  | [s] => s
  | s :: r => s +:+ nl +:+ join_lines r
  end.

Definition request_model (request : Value) : result TranslationError string :=
  ok_or (nonempty (get_str "model" request)) (InvalidRequest "missing model").

Definition request_input (request : Value) : result TranslationError (list Value) :=
  ok_or (get_array "input" request) (InvalidRequest "missing input array").

Definition part_text (part : Value) : option string :=
  match get_str "text" part with Some t => Some t | None => as_str part end.

Definition item_text (item : Value) : string :=
  match value_get "content" item with
  | Some (Str text) => text
  | Some (Array parts) => join_lines (omap part_text parts)
  | _ => EmptyString
  end.

Definition output_text `{JsonCodec} (output : option Value) : string :=
  match output with
  | Some (Str text) => text
  | Some (Array items) => join_lines (omap (get_str "text") items)
  | Some other => json_text other
  | None => EmptyString
  end.

(** ** Bindings *)

Definition APPLY_PATCH_TOOL_NAME : string := "apply_patch".

Definition APPLY_PATCH_CHAT_DESCRIPTION : string := join_lines
  ["Apply a patch to files using Codex apply_patch grammar, not standard unified-diff grammar. Pass the complete raw patch in `patch`. For an update, follow this exact form:";
   "*** Begin Patch"; "*** Update File: path/to/file"; "@@"; "-old line"; "+new line"; "*** End Patch";
   "The `-` and `+` must be the first character of each changed line. Use a bare `@@` hunk header, or `@@` followed by literal source context. Never use numbered unified-diff range headers such as `@@ -1 +1 @@`. The patch must contain at least one add, delete, or update hunk."].

Definition APPLY_PATCH_CHAT_INPUT_DESCRIPTION : string :=
  "Complete raw Codex apply_patch text using the exact grammar example in the tool description. Update hunks use bare `@@` (or `@@` plus literal source context), never numbered unified-diff ranges such as `@@ -1 +1 @@`; `-` and `+` are the first character of changed lines.".

Inductive ToolKind : Type :=
| Function (name : string) (namespace : option string)
| Custom (name : string) (namespace : option string).

Definition kind_name (k : ToolKind) : string := match k with Function n _ | Custom n _ => n end.
Definition kind_namespace (k : ToolKind) : option string := match k with Function _ ns | Custom _ ns => ns end.
Definition is_apply_patch (k : ToolKind) : bool :=
  match k with Custom name None => bool_decide (name = APPLY_PATCH_TOOL_NAME) | _ => false end.

Record ToolBinding : Type := mkToolBinding {
  tb_wire_name : string;
  tb_kind : ToolKind;
  tb_description : string;
  tb_input_schema : Value;
}.

Definition with_wire_name (name : string) (b : ToolBinding) : ToolBinding :=
  mkToolBinding name (tb_kind b) (tb_description b) (tb_input_schema b).

(** [ToolCatalog]: its bindings in the order of the request. *)
Definition ToolCatalog : Type := list ToolBinding.

Definition string_schema (fld description : string) : Value := object_of
  [("type", Some (Str "object"));
   ("properties", Some (object_of [(fld, Some (object_of [("type", Some (Str "string")); ("description", Some (Str description))]))]));
   ("required", Some (Array [Str fld])); ("additionalProperties", Some (Bool false))].

Definition chat_description (b : ToolBinding) : string :=
  if is_apply_patch (tb_kind b) then APPLY_PATCH_CHAT_DESCRIPTION else tb_description b.

Definition chat_input_schema (b : ToolBinding) : Value :=
  if is_apply_patch (tb_kind b) then string_schema "patch" APPLY_PATCH_CHAT_INPUT_DESCRIPTION else tb_input_schema b.

Definition chat_tools (c : ToolCatalog) : list Value :=
  (λ b, object_of [("type", Some (Str "function")); ("function", Some (object_of
     [("name", Some (Str (tb_wire_name b))); ("description", Some (Str (chat_description b)));
      ("parameters", Some (chat_input_schema b))]))]) <$> c.

Definition anthropic_tools (c : ToolCatalog) : list Value :=
  (λ b, object_of [("name", Some (Str (tb_wire_name b))); ("description", Some (Str (tb_description b)));
                   ("input_schema", Some (tb_input_schema b))]) <$> c.

(** ** Names *)

Definition wire_char (c : ascii) : bool :=
  let n := nat_of_ascii c in
  ((48 <=? n) && (n <=? 57) || (65 <=? n) && (n <=? 90) || (97 <=? n) && (n <=? 122) || (n =? 95) || (n =? 45))%nat.

(** A byte inside a code point. *)
Definition continuation_byte (c : ascii) : bool := let n := nat_of_ascii c in ((128 <=? n) && (n <? 192))%nat.

(** One code point that is not allowed becomes one underscore. *)
Fixpoint sanitize (s : string) : string :=
  match s with
  | EmptyString => EmptyString
  | String c r =>
      if continuation_byte c then sanitize r
      else String (if wire_char c then c else "_"%char) (sanitize r)
  end.

Definition sanitized_wire_name (namespace : option string) (name : string) : string :=
  sanitize (match namespace with Some ns => ns +:+ "__" +:+ name | None => name end).

(** The tools whose own name this is, by position. *)
Definition owners (bindings : list ToolBinding) (name : string) : list nat :=
  filter (λ i, kind_name <$> (tb_kind <$> bindings !! i) = Some name) (seq 0 (length bindings)).

(** The name is another tool's, or that of several. *)
Definition conflicts_with_alias (bindings : list ToolBinding) (index : nat) (candidate : string) : bool :=
  match owners bindings candidate with
  | [] => false
  | [owner] => negb (bool_decide (owner = index))
  | _ => true
  end.

Definition synthetic (index : nat) : string := "factory_tool_" +:+ pretty index.

(** The first index from [index] on whose name is free; no more than [fuel] are tried. *)
Fixpoint find_synthetic (free : string → bool) (fuel : nat) (index : nat) : option nat :=
  match fuel with
  | O => None
  | S n => if free (synthetic index) then Some index else find_synthetic free n (S index)
  end.

(** One name; the next synthetic index. *)
Definition choose_wire_name (bindings : list ToolBinding) (used : list string) (next : nat) (index : nat) (b : ToolBinding) :
    option (string * nat) :=
  let sanitized := sanitized_wire_name (kind_namespace (tb_kind b)) (kind_name (tb_kind b)) in
  if bool_decide (sanitized = EmptyString) || (64 <? String.length sanitized)%nat
     || bool_decide (sanitized ∈ used) || conflicts_with_alias bindings index sanitized then
    i ← find_synthetic (λ candidate, negb (bool_decide (candidate ∈ used)) && negb (conflicts_with_alias bindings index candidate))
          (S (2 * length bindings)) next;
    Some (synthetic i, S i)
  else Some (sanitized, next).

Fixpoint assign_from (bindings : list ToolBinding) (used : list string) (next : nat) (index : nat) (rest : list ToolBinding) :
    option (list ToolBinding) :=
  match rest with
  | [] => Some []
  | b :: rest =>
      named ← choose_wire_name bindings used next index b;
      assigned ← assign_from bindings (named.1 :: used) named.2 (S index) rest;
      Some (with_wire_name named.1 b :: assigned)
  end.

(** The search for a free name ends before the fuel does, so this is [Some]. *)
Definition assign_wire_names (bindings : list ToolBinding) : option (list ToolBinding) := assign_from bindings [] 0 0 bindings.

(** ** The catalog of a request *)

Definition unnamed (kind : ToolKind) (description : string) (schema : Value) : ToolBinding :=
  mkToolBinding EmptyString kind description schema.

Definition push_function (tool : Value) (namespace : option string) : result TranslationError ToolBinding :=
  if decide (get_str "type" tool = Some "function") then
    name ← required_string tool "name";
    Ok (unnamed (Function name namespace) (default EmptyString (get_str "description" tool))
          (default (object_of [("type", Some (Str "object")); ("properties", Some (Object []))]) (value_get "parameters" tool)))
  else Err (UnsupportedItem "non-function namespace member").

(** A member without a description of its own has that of its namespace. *)
Definition describe_member (description : string) (tool : Value) : Value :=
  match nonempty (get_str "description" tool) with
  | Some _ => tool
  | None => value_set "description" (Str description) tool
  end.

Definition tool_bindings (tool : Value) : result TranslationError (list ToolBinding) :=
  let kind := default EmptyString (get_str "type" tool) in
  if decide (kind = "function") then b ← push_function tool None; Ok [b]
  else if decide (kind = "namespace") then
    namespace ← required_string tool "name";
    nested ← ok_or (get_array "tools" tool) (InvalidRequest ("namespace " +:+ namespace +:+ " is missing tools"));
    map_result (λ member, push_function
                  (describe_member (default EmptyString (get_str "description" tool)) member) (Some namespace)) nested
  else if decide (kind = "custom") then
    name ← required_string tool "name";
    Ok [unnamed (Custom name None) (default EmptyString (get_str "description" tool))
          (string_schema "input" "Raw freeform input for this tool")]
  else if decide (kind = "web_search") then Ok []
  else if decide (kind = "tool_search") then Err (UnsupportedItem kind)
  else Err (UnsupportedItem ("tool type " +:+ kind)).

Definition request_bindings (request : Value) : result TranslationError (list ToolBinding) :=
  found ← map_result tool_bindings (default [] (get_array "tools" request));
  Ok (concat found).

(** [ToolCatalog::from_request]; the names are always found. *)
Definition from_request (request : Value) : result TranslationError ToolCatalog :=
  bindings ← request_bindings request;
  Ok (default bindings (assign_wire_names bindings)).

(** ** Lookup *)

Definition by_wire_name (c : ToolCatalog) (name : string) : option ToolBinding :=
  match filter (λ b, tb_wire_name b = name ∨ kind_name (tb_kind b) = name) c with
  | [b] => Some b
  | _ => None
  end.

Definition wire_name (c : ToolCatalog) (namespace : option string) (name : string) : option string :=
  match filter (λ b, kind_name (tb_kind b) = name ∧ kind_namespace (tb_kind b) = namespace) c with
  | b :: _ => Some (tb_wire_name b)
  | [] => None
  end.

Definition historical_wire_name (c : ToolCatalog) (namespace : option string) (name : string) : string :=
  match wire_name c namespace name with
  | Some w => w
  | None =>
      let w := sanitized_wire_name namespace name in
      if decide (w = EmptyString) then "factory_historical_tool" else String.substring 0 64 w
  end.

(** ** Arguments of custom tools *)

Section arguments.
Context `{JsonCodec, PatchParser}.

Definition custom_field (namespace : option string) (name : string) : string :=
  if decide (namespace = None ∧ name = APPLY_PATCH_TOOL_NAME) then "patch" else "input".

Definition chat_custom_arguments (namespace : option string) (name input : string) : string :=
  json_text (object_of [(custom_field namespace name, Some (Str input))]).

Definition invalid_apply_patch_arguments (detail : string) : TranslationError :=
  InvalidToolArguments APPLY_PATCH_TOOL_NAME detail.

Definition QUOTE : string := String (ascii_of_nat 34) EmptyString.

Definition starts_with (p s : string) : bool := bool_decide (is_Some (Prelude.strip_prefix p s)).

Definition looks_like_raw_patch (v : string) : bool :=
  starts_with "*** Begin Patch" v || starts_with "<<EOF" v || starts_with "<<'EOF'" v
  || starts_with ("<<" +:+ QUOTE +:+ "EOF" +:+ QUOTE) v.

(** The patch inside the arguments. *)
Definition patch_candidate (trimmed : string) : result TranslationError string :=
  match json_parse trimmed with
  | Ok (Str patch) => Ok patch
  | Ok (Object [(fld, v)]) =>
      if decide (fld = "patch" ∨ fld = "input") then
        ok_or (as_str v) (invalid_apply_patch_arguments ("field `" +:+ fld +:+ "` must be a string"))
      else Err (invalid_apply_patch_arguments
                  ("unsupported field `" +:+ fld +:+ "`; expected `patch` or legacy `input`"))
  | Ok (Object _) => Err (invalid_apply_patch_arguments
      "expected exactly one string field named `patch` (or legacy `input`)")
  | Ok _ => Err (invalid_apply_patch_arguments
      "expected raw patch text, a JSON string, or an object with one `patch` field")
  | Err error =>
      if looks_like_raw_patch trimmed then Ok trimmed
      else Err (invalid_apply_patch_arguments
        ("arguments are neither raw patch text nor supported JSON: " +:+ error))
  end.

Definition normalize_apply_patch (arguments : string) : result TranslationError string :=
  candidate ← patch_candidate (trim arguments);
  match parse_patch candidate with
  | Err error => Err (invalid_apply_patch_arguments error)
  | Ok (O, _) => Err (invalid_apply_patch_arguments "patch contains no file hunks")
  | Ok (_, patch) => Ok patch
  end.

Definition generic_custom_input (arguments : string) : string :=
  match json_parse arguments with
  | Ok v => default arguments (get_str "input" v)
  | Err _ => arguments
  end.

Definition normalize_custom_input (b : ToolBinding) (arguments : string) : result TranslationError string :=
  if is_apply_patch (tb_kind b) then normalize_apply_patch arguments else Ok (generic_custom_input arguments).
End arguments.
