(* ===== verification/AgentState.v ===== *)
(** * The agent's durable state

    [extension/src/model.rs] and [extension/src/limits.rs]: the state the agent
    of one job works on (its work units with their progress, the current
    review with its remediations, the finished review cycles, the activity of
    its subagents), the recovery point of a detached review, and the bounds on
    the text the agent may store. *)

From S2P Require Import Prelude.
From Stdlib Require Import ZArith Ascii String.
From stdpp Require Import base strings list option.

#[local] Open Scope string_scope.
#[local] Open Scope Z_scope.
#[local] Open Scope list_scope.

(** ** Data *)

Inductive FactoryProgressStatus : Type :=
| ProgressPending | ProgressInProgress | ProgressCompleted | ProgressBlocked.

Inductive FactoryReviewVerdict : Type := Approve | RequestChanges | VerdictBlocked.

Inductive FactoryFindingSeverity : Type := Critical | Major | Minor.

Inductive FactoryRemediationDisposition : Type :=
| DispositionAccepted | DispositionRejected | DispositionDeferred | DispositionResolved.

Inductive FactorySubagentHistorySource : Type := CoordinatorJobEvents.

Inductive FactorySubagentTool : Type :=
| SpawnAgent | SendInput | ResumeAgent | Wait | CloseAgent | Interact | InterruptAgent.

Inductive FactorySubagentToolCallStatus : Type := CallInProgress | CallCompleted | CallFailed.

Inductive FactorySubagentStatus : Type :=
| SubagentPendingInit | SubagentRunning | SubagentInterrupted | SubagentCompleted
| SubagentErrored | SubagentShutdown | SubagentNotFound.

Record FactoryWorkUnit : Type := mkFactoryWorkUnit {
  wu_id : string;
  wu_title : string;
  wu_description : string;
  wu_depends_on : list string;
  wu_status : FactoryProgressStatus;
  wu_progress_summary : option string;
}.

Record FactoryReviewFinding : Type := mkFactoryReviewFinding {
  rf_id : string;
  rf_severity : FactoryFindingSeverity;
  rf_unit_id : string;
  rf_title : string;
  rf_evidence : string;
  rf_recommendation : string;
}.

Record FactoryReviewReport : Type := mkFactoryReviewReport {
  rr_generation : Z;
  rr_recorded_turn_id : option string;
  rr_recorded_thread_id : option string;
  rr_recorded_parent_thread_id : option string;
  rr_recorded_parent_turn_id : option string;
  rr_recorded_subagent_kind : option string;
  rr_verdict : FactoryReviewVerdict;
  rr_summary : string;
  rr_findings : list FactoryReviewFinding;
}.

Record FactoryRemediationRecord : Type := mkFactoryRemediationRecord {
  rem_finding_id : string;
  rem_disposition : FactoryRemediationDisposition;
  rem_rationale : string;
  rem_unit_id : string;
}.

Record FactoryReviewCycle : Type := mkFactoryReviewCycle {
  rc_review : FactoryReviewReport;
  rc_remediations : list FactoryRemediationRecord;
}.

Record FactoryReviewRecoveryBaseline : Type := mkFactoryReviewRecoveryBaseline {
  rb_revision : Z;
  rb_review : option FactoryReviewReport;
  rb_remediations : list FactoryRemediationRecord;
  rb_review_history : list FactoryReviewCycle;
}.

Record FactorySubagentState : Type := mkFactorySubagentState {
  ss_thread_id : string;
  ss_status : FactorySubagentStatus;
  ss_terminal : bool;
  ss_message : option string;
}.

Record FactorySubagentActivity : Type := mkFactorySubagentActivity {
  sa_call_id : string;
  sa_turn_id : string;
  sa_sender_thread_id : string;
  sa_receiver_thread_ids : list string;
  sa_tool : FactorySubagentTool;
  sa_prompt : option string;
  sa_status : FactorySubagentToolCallStatus;
  sa_agents : list FactorySubagentState;
  sa_created_at : string;
  sa_updated_at : string;
}.

Record FactorySubagentHistory : Type := mkFactorySubagentHistory {
  sh_source : FactorySubagentHistorySource;
  sh_event_kind : string;
  sh_latest_sequence : Z;
}.

Record FactoryState : Type := mkFactoryState {
  fs_revision : Z;
  fs_work_units : list FactoryWorkUnit;
  fs_review : option FactoryReviewReport;
  fs_remediations : list FactoryRemediationRecord;
  fs_review_history : list FactoryReviewCycle;
  fs_subagents : list FactorySubagentActivity;
  fs_subagent_history : option FactorySubagentHistory;
  fs_review_recovery : option FactoryReviewRecoveryBaseline;
}.

(** [FactoryState::default()]. *)
Definition default_state : FactoryState := mkFactoryState 0 [] None [] [] [] None None.

#[export] Instance FactoryProgressStatus_eq_dec : EqDecision FactoryProgressStatus.
Proof. solve_decision. Defined.
#[export] Instance FactoryReviewVerdict_eq_dec : EqDecision FactoryReviewVerdict.
Proof. solve_decision. Defined.
#[export] Instance FactoryFindingSeverity_eq_dec : EqDecision FactoryFindingSeverity.
Proof. solve_decision. Defined.
#[export] Instance FactoryRemediationDisposition_eq_dec : EqDecision FactoryRemediationDisposition.
Proof. solve_decision. Defined.
#[export] Instance FactorySubagentHistorySource_eq_dec : EqDecision FactorySubagentHistorySource.
Proof. solve_decision. Defined.
#[export] Instance FactorySubagentTool_eq_dec : EqDecision FactorySubagentTool.
Proof. solve_decision. Defined.
#[export] Instance FactorySubagentToolCallStatus_eq_dec : EqDecision FactorySubagentToolCallStatus.
Proof. solve_decision. Defined.
#[export] Instance FactorySubagentStatus_eq_dec : EqDecision FactorySubagentStatus.
Proof. solve_decision. Defined.
#[export] Instance FactoryWorkUnit_eq_dec : EqDecision FactoryWorkUnit.
Proof. solve_decision. Defined.
#[export] Instance FactoryReviewFinding_eq_dec : EqDecision FactoryReviewFinding.
Proof. solve_decision. Defined.
#[export] Instance FactoryReviewReport_eq_dec : EqDecision FactoryReviewReport.
Proof. solve_decision. Defined.
#[export] Instance FactoryRemediationRecord_eq_dec : EqDecision FactoryRemediationRecord.
Proof. solve_decision. Defined.
#[export] Instance FactoryReviewCycle_eq_dec : EqDecision FactoryReviewCycle.
Proof. solve_decision. Defined.
#[export] Instance FactoryReviewRecoveryBaseline_eq_dec : EqDecision FactoryReviewRecoveryBaseline.
Proof. solve_decision. Defined.
#[export] Instance FactorySubagentState_eq_dec : EqDecision FactorySubagentState.
Proof. solve_decision. Defined.
#[export] Instance FactorySubagentActivity_eq_dec : EqDecision FactorySubagentActivity.
Proof. solve_decision. Defined.
#[export] Instance FactorySubagentHistory_eq_dec : EqDecision FactorySubagentHistory.
Proof. solve_decision. Defined.
#[export] Instance FactoryState_eq_dec : EqDecision FactoryState.
Proof. solve_decision. Defined.

(** Field updates. *)
Definition with_work_units (units : list FactoryWorkUnit) (s : FactoryState) : FactoryState :=
  mkFactoryState (fs_revision s) units (fs_review s) (fs_remediations s) (fs_review_history s)
    (fs_subagents s) (fs_subagent_history s) (fs_review_recovery s).

Definition with_revision (revision : Z) (s : FactoryState) : FactoryState :=
  mkFactoryState revision (fs_work_units s) (fs_review s) (fs_remediations s) (fs_review_history s)
    (fs_subagents s) (fs_subagent_history s) (fs_review_recovery s).

Definition with_review (review : option FactoryReviewReport)
    (remediations : list FactoryRemediationRecord) (history : list FactoryReviewCycle)
    (s : FactoryState) : FactoryState :=
  mkFactoryState (fs_revision s) (fs_work_units s) review remediations history
    (fs_subagents s) (fs_subagent_history s) (fs_review_recovery s).

Definition with_recovery (baseline : option FactoryReviewRecoveryBaseline) (s : FactoryState) :
    FactoryState :=
  mkFactoryState (fs_revision s) (fs_work_units s) (fs_review s) (fs_remediations s)
    (fs_review_history s) (fs_subagents s) (fs_subagent_history s) baseline.

Definition with_generation (generation : Z) (r : FactoryReviewReport) : FactoryReviewReport :=
  mkFactoryReviewReport generation (rr_recorded_turn_id r) (rr_recorded_thread_id r)
    (rr_recorded_parent_thread_id r) (rr_recorded_parent_turn_id r) (rr_recorded_subagent_kind r)
    (rr_verdict r) (rr_summary r) (rr_findings r).

(** [u64::saturating_add(1)]. *)
Definition saturating_succ (n : Z) : Z := Z.min (n + 1) u64_max.

(** ** Detached-review recovery *)

Definition rollback_review_recovery (s : FactoryState) : bool * FactoryState :=
  match fs_review_recovery s with
  | None => (false, s)
  | Some baseline =>
      (true, with_recovery None (with_revision (rb_revision baseline)
        (with_review (rb_review baseline) (rb_remediations baseline) (rb_review_history baseline) s)))
  end.

Definition prepare_review_recovery (s : FactoryState) : FactoryState :=
  let s := (rollback_review_recovery s).2 in
  with_recovery (Some (mkFactoryReviewRecoveryBaseline (fs_revision s) (fs_review s)
    (fs_remediations s) (fs_review_history s))) s.

Definition commit_review_recovery (s : FactoryState) : bool * FactoryState :=
  (bool_decide (is_Some (fs_review_recovery s)), with_recovery None s).

(** ** Recording a review *)

(** The generation of the current review, else of the last finished cycle. *)
Definition current_generation (s : FactoryState) : Z :=
  match fs_review s with
  | Some review => rr_generation review
  | None => match list.last (fs_review_history s) with
            | Some cycle => rr_generation (rc_review cycle)
            | None => 0
            end
  end.

(** The current review was recorded by the turn of [review]. *)
Definition same_turn (s : FactoryState) (review : FactoryReviewReport) : bool :=
  match fs_review s with
  | Some current => bool_decide (is_Some (rr_recorded_turn_id current))
                    && bool_decide (rr_recorded_turn_id current = rr_recorded_turn_id review)
  | None => false
  end.

Definition record_review (s : FactoryState) (review : FactoryReviewReport) : FactoryState :=
  let generation := current_generation s in
  if same_turn s review then
    with_review (Some (with_generation (Z.max generation 1) review)) (fs_remediations s)
      (fs_review_history s) s
  else
    let history :=
      match fs_remediations s, fs_review s with
      | _ :: _, Some current =>
          fs_review_history s ++ [mkFactoryReviewCycle current (fs_remediations s)]
      | _, _ => fs_review_history s
      end in
    with_review (Some (with_generation (saturating_succ generation) review)) [] history s.

(** ** Limits *)

Definition MAX_WORK_UNITS : Z := 32.
Definition MAX_FINDINGS : Z := 32.
Definition MAX_DEPENDENCIES : Z := 32.
Definition MAX_IDENTIFIER_CHARS : Z := 128.
Definition MAX_TITLE_CHARS : Z := 512.
Definition MAX_DETAIL_CHARS : Z := 4096.
Definition MAX_SUMMARY_CHARS : Z := 4096.

(** [str::chars().count()]: the bytes that start a code point. *)
Definition starts_char (c : ascii) : bool :=
  negb ((128 <=? byte_of c)%nat && (byte_of c <=? 191)%nat).

Definition chars_count (s : string) : Z :=
  Z.of_nat (length (List.filter starts_char (list_ascii_of_string s))).

Definition require_bounded_text (fld value : string) (max_chars : Z) : result (list fmt_part) unit :=
  if is_blank value then Err [Display fld; Lit " must not be empty"]
  else if max_chars <? chars_count value then
    Err [Display fld; Lit " must contain at most "; DisplayZ max_chars; Lit " characters, found ";
         DisplayZ (chars_count value)]
  else Ok tt.

Lemma require_bounded_text_Ok fld value max_chars u :
  require_bounded_text fld value max_chars = Ok u ↔ is_blank value = false ∧ chars_count value ≤ max_chars.
Proof.
  unfold require_bounded_text. destruct u, (is_blank value); [naive_solver|].
  destruct (Z.ltb_spec max_chars (chars_count value)); split; naive_solver lia.
Qed.
