(* ===== verification/WorkGraph.v ===== *)
(** * Dependency graphs of work units

    The cycle check that both the decomposition tool
    ([extension/src/tools.rs]) and the stage validator
    ([runtime/src/stages.rs]) run on the dependencies of the work units: count
    the open dependencies of every unit, complete the units without any, and
    release the units that wait for them, until nothing is ready.  The check
    accepts exactly the graphs without a cycle, in whatever order the hash map
    lists the ready units. *)

From S2P Require Import Prelude Sequences.
From Stdlib Require Import ZArith String.
From stdpp Require Import base gmap strings list sets fin_sets relations.

#[local] Open Scope nat_scope.
#[local] Open Scope list_scope.

Section graph.
Context `{HashOrder} {U : Type} (uid : U → string) (deps : U → list string).

(** ** The check *)

(** The completed units and the open dependencies of every unit. *)
Abbreviation Counts := (prod (gset string) (gmap string nat)).

Definition initial_counts (units : list U) : gmap string nat :=
  collect_map uid (λ u, length (deps u)) units.

(** The units that are not completed and have no open dependency, as the hash
    map lists them. *)
Definition ready_units (st : Counts) : list string :=
  (filter (λ kc : string * nat, (kc.1 ∉ st.1) ∧ kc.2 = 0) (hash_values (map_to_list st.2))).*1.

(** One unit less to wait for: every unit that depends on [id] is counted down
    once ([saturating_sub(1)]). *)
Definition release (units : list U) (id : string) (remaining : gmap string nat) : gmap string nat :=
  foldl (λ m u, if decide (id ∈ deps u) then alter pred (uid u) m else m) remaining units.

Definition complete_unit (units : list U) (st : Counts) (id : string) : Counts :=
  ({[id]} ∪ st.1, release units id st.2).

Fixpoint complete_rounds (fuel : nat) (units : list U) (st : Counts) : Counts :=
  match fuel with
  | O => st
  | S n =>
      match ready_units st with
      | [] => st
      | ready => complete_rounds n units (foldl (complete_unit units) st ready)
      end
  end.

Definition acyclic_check (units : list U) : bool :=
  let st := complete_rounds (S (length units)) units (∅, initial_counts units) in
  bool_decide (size st.1 = length units).

(** ** Dependency and cycles *)

(** [x] depends directly on [y]. *)
Definition depends_on (units : list U) (x y : string) : Prop :=
  ∃ u, u ∈ units ∧ uid u = x ∧ y ∈ deps u.

Definition cyclic (units : list U) : Prop := ∃ x, tc (depends_on units) x x.

(** What the callers have checked before: identifiers are distinct, and every
    unit lists known dependencies without repetition. *)
Record graph_ok (units : list U) : Prop := {
  graph_ids : NoDup (uid <$> units);
  graph_deps : ∀ u, u ∈ units → NoDup (deps u);
  graph_known : ∀ u d, u ∈ units → d ∈ deps u → d ∈ uid <$> units;
}.

Context (units : list U) (Hok : graph_ok units).

Lemma unit_by_id u v : u ∈ units → v ∈ units → uid u = uid v → u = v.
Proof.
  intros Hu Hv E. destruct Hok as [Hids _ _].
  apply list_elem_of_lookup in Hu as [i Hi], Hv as [j Hj].
  assert (i = j) as ->; [|congruence].
  eapply NoDup_lookup; [exact Hids|by rewrite list_lookup_fmap, Hi|by rewrite list_lookup_fmap, Hj, E].
Qed.

Lemma depends_on_deps u y : u ∈ units → depends_on units (uid u) y ↔ y ∈ deps u.
Proof.
  intros Hu. split; [|by exists u]. intros (v & Hv & E & Hy). by rewrite (unit_by_id u v).
Qed.

(** ** The loop invariant *)

Definition open_deps (done : gset string) (u : U) : list string := filter (.∉ done) (deps u).

Record counted (st : Counts) : Prop := {
  counted_dom : dom st.2 = list_to_set (uid <$> units);
  counted_open : ∀ u, u ∈ units → st.2 !! uid u = Some (length (open_deps st.1 u));
  counted_known : st.1 ⊆ list_to_set (uid <$> units);
  counted_acc : ∀ x, x ∈ st.1 → sn (depends_on units) x;
}.

Lemma counted_initial : counted (∅, initial_counts units).
Proof.
  destruct Hok as [Hids _ _]. constructor; cbn.
  - apply set_eq. intros x. rewrite elem_of_dom, elem_of_list_to_set, list_elem_of_fmap. unfold is_Some, initial_counts.
    setoid_rewrite collect_map_lookup; [|done]. naive_solver.
  - intros u Hu. apply collect_map_lookup; [done|]. exists u. split_and!; [done..|].
    unfold open_deps. symmetry. f_equal. induction (deps u) as [|d l IH]; [done|]. rewrite filter_cons, decide_True by set_solver. by f_equal.
  - set_solver.
  - set_solver.
Qed.

Lemma release_lookup_ne (us : list U) id m x :
  x ∉ uid <$> us → release us id m !! x = m !! x.
Proof.
  unfold release. revert m. induction us as [|v us IH]; intros m; cbn; [done|].
  rewrite not_elem_of_cons. intros [Hx Hus]. rewrite IH by done.
  destruct (decide (id ∈ deps v)); [|done]. by rewrite lookup_alter_ne.
Qed.

Lemma release_lookup (us : list U) id m u :
  NoDup (uid <$> us) → u ∈ us →
  release us id m !! uid u = if decide (id ∈ deps u) then pred <$> m !! uid u else m !! uid u.
Proof.
  revert m. induction us as [|v us IH]; intros m; [by intros _ ?%not_elem_of_nil|].
  cbn. intros [Hv Hnd]%NoDup_cons Hu. apply elem_of_cons in Hu as [->|Hu].
  - change (foldl _ ?m us) with (release us id m). rewrite release_lookup_ne by done.
    destruct (decide (id ∈ deps v)); [|done]. by rewrite lookup_alter_eq.
  - change (foldl _ ?m us) with (release us id m). rewrite IH by done.
    assert (uid v ≠ uid u) by (intros E; apply Hv; rewrite E; by apply list_elem_of_fmap_2).
    destruct (decide (id ∈ deps v)); [|done]. by rewrite lookup_alter_ne.
Qed.

Lemma release_dom (us : list U) id m : dom (release us id m) = dom m.
Proof.
  unfold release. revert m. induction us as [|v us IH]; intros m; cbn; [done|].
  rewrite IH. destruct (decide (id ∈ deps v)); [apply dom_alter_L|done].
Qed.

(** Completing one more dependency leaves one open dependency less. *)
Lemma filter_one_less (done : gset string) id (l : list string) :
  NoDup l → id ∉ done →
  length (filter (.∉ {[id]} ∪ done) l)
  = if decide (id ∈ l) then pred (length (filter (.∉ done) l)) else length (filter (.∉ done) l).
Proof.
  intros Hnd Hid. induction l as [|d l IH]; [done|]. apply NoDup_cons in Hnd as [Hd Hnd].
  specialize (IH Hnd). rewrite !filter_cons. destruct (decide (d = id)) as [->|Hne].
  - rewrite (decide_False (P := id ∉ {[id]} ∪ done)) by set_solver.
    rewrite (decide_True (P := id ∉ done)) by done. rewrite decide_False in IH by done.
    rewrite decide_True by set_solver. by rewrite IH.
  - destruct (decide (d ∈ done)) as [Hdone|Hdone].
    + rewrite (decide_False (P := d ∉ {[id]} ∪ done)) by set_solver.
      rewrite (decide_False (P := d ∉ done)) by naive_solver. rewrite IH.
      destruct (decide (id ∈ l)), (decide (id ∈ d :: l)); set_solver.
    + rewrite (decide_True (P := d ∉ {[id]} ∪ done)) by set_solver.
      rewrite (decide_True (P := d ∉ done)) by done. cbn [length]. rewrite IH.
      destruct (decide (id ∈ l)) as [Hl|Hl].
      * rewrite decide_True by set_solver. cbn. apply Nat.succ_pred.
        intros Hz%length_zero_iff_nil. assert (id ∈ filter (.∉ done) l) as Hin
          by (by apply list_elem_of_filter). rewrite Hz in Hin. by apply not_elem_of_nil in Hin.
      * rewrite decide_False by set_solver. done.
Qed.

Lemma counted_complete st id :
  counted st → id ∈ uid <$> units → id ∉ st.1 → (∀ y, depends_on units id y → y ∈ st.1) →
  counted (complete_unit units st id).
Proof.
  intros [Hd Ho Hk Ha] Hid Hn Hdeps. destruct Hok as [Hids Hnd _]. constructor; cbn.
  - by rewrite release_dom.
  - intros u Hu. rewrite release_lookup by done. rewrite Ho by done. unfold open_deps.
    rewrite filter_one_less by auto. by destruct (decide (id ∈ deps u)).
  - set_solver.
  - intros x [->%elem_of_singleton|Hx]%elem_of_union; [|by apply Ha].
    constructor. intros y Hy. apply Ha. by apply Hdeps.
Qed.

Lemma ready_units_spec st x :
  counted st → x ∈ ready_units st ↔ x ∈ uid <$> units ∧ (x ∉ st.1) ∧ ∀ y, depends_on units x y → y ∈ st.1.
Proof.
  intros Hc. unfold ready_units. rewrite list_elem_of_fmap.
  setoid_rewrite list_elem_of_filter. setoid_rewrite elem_of_hash_values. split.
  - intros ([k c] & -> & [Hk Hz] & Hin%elem_of_map_to_list). cbn in *. subst c.
    assert (k ∈ uid <$> units) as Hids.
    { apply elem_of_dom_2 in Hin. rewrite (counted_dom _ Hc) in Hin. by apply elem_of_list_to_set in Hin. }
    split_and!; [done..|]. intros y Hy.
    apply list_elem_of_fmap in Hids as (u & -> & Hu). rewrite (counted_open _ Hc) in Hin by done.
    injection Hin as Hl%length_zero_iff_nil. apply depends_on_deps in Hy; [|done].
    destruct (decide (y ∈ st.1)) as [|Hny]; [done|].
    assert (y ∈ open_deps st.1 u) as Hin by (by apply list_elem_of_filter).
    rewrite Hl in Hin. by apply not_elem_of_nil in Hin.
  - intros (Hids & Hn & Hdeps). apply list_elem_of_fmap in Hids as (u & -> & Hu).
    exists (uid u, 0). split_and!; [done..|]. apply elem_of_map_to_list.
    rewrite (counted_open _ Hc) by done. f_equal. apply length_zero_iff_nil.
    apply elem_of_nil_inv. intros y [Hny Hy]%list_elem_of_filter. by apply Hny, Hdeps, depends_on_deps.
Qed.

Lemma ready_units_NoDup st : NoDup (ready_units st).
Proof.
  unfold ready_units. apply NoDup_fmap_fst.
  - intros k c1 c2 [[_ E1] _]%list_elem_of_filter [[_ E2] _]%list_elem_of_filter. cbn in *. congruence.
  - apply list.NoDup_filter. rewrite hash_values_perm. apply NoDup_map_to_list.
Qed.

(** A round keeps the invariant and completes every ready unit. *)
Lemma counted_round l st :
  counted st → NoDup l →
  (∀ x, x ∈ l → x ∈ uid <$> units ∧ (x ∉ st.1) ∧ ∀ y, depends_on units x y → y ∈ st.1) →
  counted (foldl (complete_unit units) st l) ∧
  (foldl (complete_unit units) st l).1 = list_to_set l ∪ st.1.
Proof.
  revert st. induction l as [|x l IH]; intros st Hc Hnd Hl; cbn; [split; [done|set_solver]|].
  apply NoDup_cons in Hnd as [Hx Hnd]. destruct (Hl x) as (Hid & Hn & Hd); [left|].
  destruct (IH (complete_unit units st x)) as [Hc' ->]; [by apply counted_complete|done| |].
  - intros y Hy. destruct (Hl y) as (Hyid & Hyn & Hyd); [by right|]. cbn.
    rewrite not_elem_of_union, not_elem_of_singleton. split_and!; [done|congruence|done|].
    intros z Hz. apply elem_of_union_r. by apply Hyd.
  - split; [done|]. cbn. rewrite (union_assoc_L _ _ st.1). f_equal. apply union_comm_L.
Qed.

(** The same for the units that are ready. *)
Lemma counted_ready st :
  counted st →
  counted (foldl (complete_unit units) st (ready_units st)) ∧
  (foldl (complete_unit units) st (ready_units st)).1 = list_to_set (ready_units st) ∪ st.1.
Proof.
  intros Hc. apply counted_round; [done|apply ready_units_NoDup|]. intros y. by apply ready_units_spec.
Qed.

Lemma complete_rounds_S n st :
  complete_rounds (S n) units st
  = if decide (ready_units st = []) then st
    else complete_rounds n units (foldl (complete_unit units) st (ready_units st)).
Proof. cbn. by destruct (ready_units st). Qed.

Lemma counted_rounds n st : counted st → counted (complete_rounds n units st).
Proof.
  revert st. induction n as [|n IH]; intros st Hc; [done|]. rewrite complete_rounds_S.
  destruct (decide (ready_units st = [])); [done|]. apply IH. by apply counted_ready.
Qed.

Lemma counted_size st : counted st → size st.1 ≤ length units.
Proof.
  intros Hc. rewrite <- (length_fmap uid units), <- (size_list_to_set (C := gset string)) by apply Hok.
  apply subseteq_size, counted_known, Hc.
Qed.

(** The rounds given are enough: the loop ends because nothing is ready. *)
Lemma complete_rounds_done n st :
  counted st → length units < n + size st.1 → ready_units (complete_rounds n units st) = [].
Proof.
  revert st. induction n as [|n IH]; intros st Hc Hn; [pose proof (counted_size st Hc); lia|].
  rewrite complete_rounds_S. destruct (decide (ready_units st = [])) as [|Hne]; [done|].
  destruct (counted_ready st Hc) as [Hc' E1]. apply IH; [done|]. rewrite E1, size_union.
  - rewrite size_list_to_set by apply ready_units_NoDup.
    destruct (ready_units st); [done|]. cbn [length]. lia.
  - apply elem_of_disjoint. intros y Hy Hd. apply elem_of_list_to_set, ready_units_spec in Hy; naive_solver.
Qed.

(** ** Cycles in a finite graph *)

Lemma sn_not_cyclic x : sn (depends_on units) x → ¬ tc (depends_on units) x x.
Proof.
  intros Hsn. induction Hsn as [x Hsn IH]. intros Hx.
  assert (∃ z, depends_on units x z ∧ rtc (depends_on units) z x) as (z & Hz & Hr)
    by (inversion Hx; subst; eauto using rtc_refl, tc_rtc).
  apply (IH z Hz). eapply tc_rtc_l; [exact Hr|by apply tc_once].
Qed.

Lemma tc_known x y : tc (depends_on units) x y → x ∈ uid <$> units ∧ y ∈ uid <$> units.
Proof.
  assert (∀ x y, depends_on units x y → x ∈ uid <$> units ∧ y ∈ uid <$> units) as H1.
  { intros a b (u & Hu & <- & Hb). split; [by apply list_elem_of_fmap_2|by eapply graph_known]. }
  induction 1; naive_solver.
Qed.

Lemma acyclic_sn x : ¬ cyclic units → sn (depends_on units) x.
Proof.
  intros Hc. apply tc_finite_sn; [intros y Hy; apply Hc; by exists y|].
  exists (uid <$> units). intros y Hy. by eapply tc_known.
Qed.

Lemma acyclic_all_done st x :
  counted st → ready_units st = [] → ¬ cyclic units → x ∈ uid <$> units → x ∈ st.1.
Proof.
  intros Hc Hr Hcyc. induction (acyclic_sn x Hcyc) as [x _ IH]. intros Hx.
  destruct (decide (x ∈ st.1)) as [|Hn]; [done|].
  assert (x ∈ ready_units st) as Hin; [|rewrite Hr in Hin; by apply not_elem_of_nil in Hin].
  apply ready_units_spec; [done|]. split_and!; [done..|]. intros y Hy. apply IH; [done|].
  by eapply tc_known, tc_once.
Qed.

(** The check accepts exactly the graphs without a cycle. *)
Lemma acyclic_check_spec : acyclic_check units = true ↔ ¬ cyclic units.
Proof.
  unfold acyclic_check. set (st := complete_rounds _ _ _). rewrite bool_decide_eq_true.
  assert (counted st) as Hc by apply counted_rounds, counted_initial.
  assert (ready_units st = []) as Hr.
  { apply complete_rounds_done; [apply counted_initial|]. cbn. rewrite size_empty. lia. }
  assert (size (list_to_set (C := gset string) (uid <$> units)) = length units) as Hs.
  { rewrite size_list_to_set by apply Hok. apply length_fmap. }
  split.
  - intros Hsize [x Hx]. apply (sn_not_cyclic x); [|done]. apply (counted_acc _ Hc).
    replace st.1 with (list_to_set (C := gset string) (uid <$> units)).
    { apply elem_of_list_to_set. by eapply tc_known. }
    symmetry. apply set_subseteq_size_eq; [apply (counted_known _ Hc)|]. lia.
  - intros Hcyc. rewrite <- Hs. f_equal. apply set_eq. intros x. split; [apply (counted_known _ Hc)|].
    intros Hx%elem_of_list_to_set. by eapply acyclic_all_done.
Qed.
End graph.
