(* ===== verification/AgentTools.v ===== *)
(** * The agent's tools

    [extension/src/stage.rs], [extension/src/state.rs],
    [extension/src/backend.rs], [extension/src/tools.rs] and the thread
    lifecycle of [extension/src/lib.rs]: the state objects the threads of one
    session share, their write-through update, the stage a tool call is
    authorised for, and the four tools that change the agent's state. *)

From S2P Require Import Prelude Sequences AgentState WorkGraph.
From Stdlib Require Import ZArith Ascii String.
From stdpp Require Import base gmap strings list option.

#[local] Open Scope string_scope.
#[local] Open Scope Z_scope.
#[local] Open Scope list_scope.

(** ** Stages of a turn *)

Inductive FactoryTurnStage : Type := TurnPlan | TurnExecute | TurnReview | TurnRemediate.

#[export] Instance FactoryTurnStage_eq_dec : EqDecision FactoryTurnStage.
Proof. solve_decision. Defined.

Definition FACTORY_STAGE_METADATA_KEY : string := "factory_stage".

Definition turn_stage_name (s : FactoryTurnStage) : string :=
  match s with
  | TurnPlan => "codex.plan"
  | TurnExecute => "codex.execute"
  | TurnReview => "codex.review"
  | TurnRemediate => "codex.remediate"
  end.

Definition turn_stage_from_name (value : string) : option FactoryTurnStage :=
  if decide (value = "codex.plan") then Some TurnPlan
  else if decide (value = "codex.execute") then Some TurnExecute
  else if decide (value = "codex.review") then Some TurnReview
  else if decide (value = "codex.remediate") then Some TurnRemediate
  else None.

(** ** Threads

    What the runtime records of a thread: the context of a detached review
    started by the worker, and where the thread comes from. *)
Record DetachedReviewThreadContext : Type := mkDetachedReviewThreadContext {
  drc_parent_thread_id : string;
  drc_parent_turn_id : string;
  drc_durable_state_key : string;
}.

Inductive SessionSource : Type := ReviewSubagent | OtherSubagent | NotSubagent.

#[export] Instance SessionSource_eq_dec : EqDecision SessionSource.
Proof. solve_decision. Defined.

Inductive FactoryThreadScope : Type := ScopeParent | ScopeDetachedReview | ScopeSubagent.

(** [ThreadStartInput]: the thread, its session, and the two facts above. *)
Record ThreadStart : Type := mkThreadStart {
  th_thread_id : string;
  th_session_id : string;
  th_context : option DetachedReviewThreadContext;
  th_source : SessionSource;
}.

Definition scope_for_start (t : ThreadStart) : FactoryThreadScope :=
  if bool_decide (is_Some (th_context t)) || bool_decide (th_source t = ReviewSubagent)
  then ScopeDetachedReview
  else if decide (th_source t = NotSubagent) then ScopeParent else ScopeSubagent.

Definition durable_thread_key_for_start (t : ThreadStart) : string :=
  match th_context t with
  | Some context => drc_durable_state_key context
  | None => if decide (th_source t = ReviewSubagent) then th_session_id t else th_thread_id t
  end.

(** ** Backend and shared state objects *)

(** A [FactoryBackendError] is its message. *)
Abbreviation Message := (list fmt_part).

(** [trait FactoryStateBackend] over the world it acts on. *)
Class FactoryStateBackend (W : Type) : Type := {
  backend_load : string → proc W Message (option FactoryState);
  backend_save : string → FactoryState → proc W Message unit;
}.

(** The registry maps a durable key to the state object its threads share; a
    state object caches the last state it loaded or saved. *)
Record AgentWorld (W : Type) : Type := mkAgentWorld {
  aw_states : gmap string (option FactoryState);
  aw_backend : W;
}.
Arguments mkAgentWorld {W} _ _.
Arguments aw_states {W} _.
Arguments aw_backend {W} _.

Section shared_state.
Context {W : Type} `{FactoryStateBackend W}.

(** [FactoryStateRegistry::get_or_create]. *)
Definition get_or_create (key : string) (w : AgentWorld W) : AgentWorld W :=
  match aw_states w !! key with
  | Some _ => w
  | None => mkAgentWorld (<[key := None]> (aw_states w)) (aw_backend w)
  end.

Definition on_thread_start (t : ThreadStart) (w : AgentWorld W) : FactoryThreadScope * AgentWorld W :=
  (scope_for_start t, get_or_create (durable_thread_key_for_start t) w).

(** A resumed thread keeps the scope it was given when it started. *)
Definition on_thread_resume (stored : option FactoryThreadScope) (context : option DetachedReviewThreadContext)
    (thread_id : string) (w : AgentWorld W) : FactoryThreadScope * AgentWorld W :=
  (match stored, context with
   | Some scope, _ => scope
   | None, Some _ => ScopeDetachedReview
   | None, None => ScopeParent
   end, get_or_create thread_id w).

Definition cached (key : string) (w : AgentWorld W) : option FactoryState := mjoin (aw_states w !! key).

Definition set_cache (key : string) (s : FactoryState) (w : AgentWorld W) : AgentWorld W :=
  mkAgentWorld (<[key := Some s]> (aw_states w)) (aw_backend w).

(** A call of the backend. *)
Definition on_backend {A : Type} (p : proc W Message A) : proc (AgentWorld W) Message A := λ w,
  let '(r, b) := p (aw_backend w) in (r, mkAgentWorld (aw_states w) b).

Definition load_if_needed (key : string) : proc (AgentWorld W) Message FactoryState := λ w,
  match cached key w with
  | Some s => (Ok s, w)
  | None =>
      match on_backend (backend_load key) w with
      | (Ok loaded, w') => let s := default default_state loaded in (Ok s, set_cache key s w')
      | (Err e, w') => (Err e, w')
      end
  end.

(** [next.revision = next.revision.saturating_add(1)]. *)
Definition bump (s : FactoryState) : FactoryState := with_revision (saturating_succ (fs_revision s)) s.

(** [FactoryThreadState::snapshot] and [update]: the mutation works on a copy,
    which becomes the cached state only after the backend has saved it. *)
Definition snapshot (key : string) : proc (AgentWorld W) Message FactoryState := load_if_needed key.

Definition keep_state (key : string) (next : FactoryState) : proc (AgentWorld W) Message FactoryState :=
  λ w, (Ok next, set_cache key next w).

Definition update (key : string) (mutation : FactoryState → result Message FactoryState) :
    proc (AgentWorld W) Message FactoryState :=
  current ← load_if_needed key;
  mutated ← proc_lift (mutation current);
  _ ← on_backend (backend_save key (bump mutated));
  keep_state key (bump mutated).
End shared_state.

(** ** Tool calls *)

Inductive FactoryToolKind : Type := ToolDecompose | ToolProgress | ToolReview | ToolRemediation.

#[export] Instance FactoryToolKind_eq_dec : EqDecision FactoryToolKind.
Proof. solve_decision. Defined.

Record WorkUnitArgs : Type := mkWorkUnitArgs {
  ua_id : string;
  ua_title : string;
  ua_description : string;
  ua_depends_on : list string;
}.

Record ProgressArgs : Type := mkProgressArgs {
  pa_unit_id : string;
  pa_status : FactoryProgressStatus;
  pa_summary : string;
}.

Record ReviewArgs : Type := mkReviewArgs {
  ra_verdict : FactoryReviewVerdict;
  ra_summary : string;
  ra_findings : list FactoryReviewFinding;
}.

(** A [ToolCall]: the turn it is made in, the metadata of that turn and the
    text of its arguments ([None] when it is not a function call). *)
Record ToolCall : Type := mkToolCall {
  call_turn_id : string;
  call_metadata : option string;
  call_arguments : option string;
}.

(** [serde_json::from_str] at the types the tools read. *)
Class JsonText : Type := {
  parse_value : string → option Value;
  parse_decompose_args : string → result string (list WorkUnitArgs);
  parse_progress_args : string → result string ProgressArgs;
  parse_review_args : string → result string ReviewArgs;
  parse_remediation_args : string → result string (list FactoryRemediationRecord);
}.

Inductive FunctionCallError : Type :=
| RespondToModel (message : Message)
| NotAFunctionCall.

Record MutationReceipt : Type := mkMutationReceipt {
  mr_operation : string;
  mr_revision : Z;
  mr_work_unit_count : Z;
  mr_finding_count : Z;
  mr_remediation_count : Z;
}.

Definition receipt (operation : string) (s : FactoryState) : MutationReceipt :=
  mkMutationReceipt operation (fs_revision s) (Z.of_nat (length (fs_work_units s)))
    (match fs_review s with Some review => Z.of_nat (length (rr_findings review)) | None => 0 end)
    (Z.of_nat (length (fs_remediations s))).

Definition tool_name (k : FactoryToolKind) : string :=
  match k with
  | ToolDecompose => "factory_decompose"
  | ToolProgress => "factory_update_progress"
  | ToolReview => "factory_record_review"
  | ToolRemediation => "factory_record_remediation"
  end.

Definition tool_kinds (s : FactoryTurnStage) : list FactoryToolKind :=
  match s with
  | TurnPlan => [ToolDecompose]
  | TurnExecute => [ToolProgress]
  | TurnReview => [ToolReview]
  | TurnRemediate => [ToolRemediation]
  end.

(** The tools a thread is offered. *)
Definition tools (stage : FactoryTurnStage) (scope : FactoryThreadScope) : list FactoryToolKind :=
  match scope with
  | ScopeParent => tool_kinds stage
  | ScopeDetachedReview => tool_kinds TurnReview
  | ScopeSubagent => []
  end.

(** The tools of the Codex runtime a stage turns off. *)
Definition disabled_tools_for_step (stage : FactoryTurnStage) : list string :=
  if decide (stage = TurnPlan) then ["apply_patch"; "request_permissions"] else [].

Section authorization.
Context `{JsonText}.

Definition turn_metadata (call : ToolCall) : option Value := text ← call_metadata call; parse_value text.

Definition metadata_text (call : ToolCall) (key : string) : option string :=
  metadata ← turn_metadata call; v ← value_get key metadata; as_str v.

Definition tool_stage (call : ToolCall) : option FactoryTurnStage :=
  name ← metadata_text call FACTORY_STAGE_METADATA_KEY; turn_stage_from_name name.

Definition require_tool_stage (call : ToolCall) (name : string) (allowed : list FactoryTurnStage) :
    result Message unit :=
  stage ← ok_or (tool_stage call)
    [Display name; Lit " is unavailable because this turn has no valid Factory stage"];
  if decide (stage ∈ allowed) then Ok tt
  else Err [Display name; Lit " is unavailable during "; Display (turn_stage_name stage);
            Lit "; allowed stage: "; Display (String.concat ", " (turn_stage_name <$> allowed))].

Definition authorize (k : FactoryToolKind) (call : ToolCall) (detached_review : bool) : result Message unit :=
  match k with
  | ToolDecompose => require_tool_stage call (tool_name k) [TurnPlan]
  | ToolProgress => require_tool_stage call (tool_name k) [TurnExecute]
  | ToolReview =>
      if detached_review then Ok tt else require_tool_stage call (tool_name k) [TurnReview]
  | ToolRemediation => require_tool_stage call (tool_name k) [TurnRemediate]
  end.
End authorization.

(** ** What the tools check *)

Section checks.
Context `{HashOrder}.

Definition check_unit (u : WorkUnitArgs) : result Message unit :=
  _ ← require_bounded_text "work unit id" (ua_id u) MAX_IDENTIFIER_CHARS;
  _ ← require_bounded_text "work unit title" (ua_title u) MAX_TITLE_CHARS;
  _ ← require_bounded_text "work unit description" (ua_description u) MAX_DETAIL_CHARS;
  guard_err (MAX_DEPENDENCIES <? Z.of_nat (length (ua_depends_on u)))
    [Lit "work unit "; Display (ua_id u); Lit " supports at most "; DisplayZ MAX_DEPENDENCIES; Lit " dependencies"].

Definition check_dependency (ids : gset string) (u : WorkUnitArgs) (dependency : string) : result Message unit :=
  _ ← require_bounded_text "work unit dependency ID" dependency MAX_IDENTIFIER_CHARS;
  _ ← guard_err (bool_decide (dependency = ua_id u))
        [Lit "work unit "; Display (ua_id u); Lit " cannot depend on itself"];
  guard_err (bool_decide (dependency ∉ ids))
    [Lit "work unit "; Display (ua_id u); Lit " depends on unknown unit "; Display dependency].

Definition validate_acyclic (units : list WorkUnitArgs) : result Message unit :=
  guard_err (negb (acyclic_check ua_id ua_depends_on units))
    [Lit "Factory work unit dependencies contain a cycle"].

Definition validate_decomposition (units : list WorkUnitArgs) : result Message unit :=
  _ ← guard_err (bool_decide (units = []))
        [Lit "Factory decomposition requires at least one work unit"];
  _ ← guard_err (MAX_WORK_UNITS <? Z.of_nat (length units))
        [Lit "Factory decomposition supports at most "; DisplayZ MAX_WORK_UNITS; Lit " work units"];
  _ ← each_new ua_id check_unit
        (λ u, [Lit "duplicate Factory work unit id "; Display (ua_id u)]) (λ _, Ok tt) ∅ units;
  let ids := list_to_set (ua_id <$> units) in
  _ ← for_each (λ u,
        each_new id (check_dependency ids u)
          (λ d, [Lit "work unit "; Display (ua_id u); Lit " repeats dependency "; Display d])
          (λ _, Ok tt) ∅ (ua_depends_on u)) units;
  validate_acyclic units.
End checks.

Definition check_finding (f : FactoryReviewFinding) : result Message unit :=
  _ ← require_bounded_text "finding id" (rf_id f) MAX_IDENTIFIER_CHARS;
  _ ← require_bounded_text "finding unit id" (rf_unit_id f) MAX_IDENTIFIER_CHARS;
  _ ← require_bounded_text "finding title" (rf_title f) MAX_TITLE_CHARS;
  _ ← require_bounded_text "finding evidence" (rf_evidence f) MAX_DETAIL_CHARS;
  require_bounded_text "finding recommendation" (rf_recommendation f) MAX_DETAIL_CHARS.

Definition validate_review (args : ReviewArgs) (s : FactoryState) : result Message unit :=
  _ ← require_bounded_text "review summary" (ra_summary args) MAX_SUMMARY_CHARS;
  _ ← guard_err (MAX_FINDINGS <? Z.of_nat (length (ra_findings args)))
        [Lit "Factory review supports at most "; DisplayZ MAX_FINDINGS; Lit " findings"];
  _ ← guard_err (bool_decide (ra_verdict args ≠ Approve) && bool_decide (ra_findings args = []))
        [Lit "non-approved Factory reviews require at least one finding"];
  _ ← guard_err (bool_decide (ra_verdict args = Approve) && negb (bool_decide (ra_findings args = [])))
        [Lit "approved Factory reviews require an empty findings array; put passing evidence in the summary"];
  let unit_ids : gset string := list_to_set (wu_id <$> fs_work_units s) in
  each_new rf_id check_finding (λ f, [Lit "duplicate Factory finding id "; Display (rf_id f)])
    (λ f, guard_err (bool_decide (rf_unit_id f ∉ unit_ids))
       [Lit "finding "; Display (rf_id f); Lit " references unknown unit "; Display (rf_unit_id f)])
    ∅ (ra_findings args).

Definition check_disposition (d : FactoryRemediationRecord) : result Message unit :=
  _ ← require_bounded_text "remediation finding id" (rem_finding_id d) MAX_IDENTIFIER_CHARS;
  _ ← require_bounded_text "remediation unit id" (rem_unit_id d) MAX_IDENTIFIER_CHARS;
  require_bounded_text "remediation rationale" (rem_rationale d) MAX_DETAIL_CHARS.

Definition match_finding (findings : gmap string string) (d : FactoryRemediationRecord) : result Message unit :=
  unit_id ← ok_or (findings !! rem_finding_id d)
    [Lit "remediation references unknown finding "; Display (rem_finding_id d)];
  guard_err (bool_decide (unit_id ≠ rem_unit_id d))
    [Lit "remediation "; Display (rem_finding_id d); Lit " must use finding unit "; Display unit_id].

Definition validate_remediations (dispositions : list FactoryRemediationRecord) (s : FactoryState) :
    result Message unit :=
  _ ← guard_err (bool_decide (dispositions = []))
        [Lit "Factory remediation requires at least one disposition"];
  _ ← guard_err (MAX_FINDINGS <? Z.of_nat (length dispositions))
        [Lit "Factory remediation supports at most "; DisplayZ MAX_FINDINGS; Lit " dispositions"];
  review ← ok_or (fs_review s) [Lit "Factory remediation requires a current review"];
  each_new rem_finding_id check_disposition
    (λ d, [Lit "duplicate remediation disposition for "; Display (rem_finding_id d)])
    (match_finding (collect_map rf_id rf_unit_id (rr_findings review))) ∅ dispositions.

(** ** The mutations *)

Definition pending_unit (u : WorkUnitArgs) : FactoryWorkUnit :=
  mkFactoryWorkUnit (ua_id u) (ua_title u) (ua_description u) (ua_depends_on u) ProgressPending None.

Definition decompose_mutation (units : list WorkUnitArgs) (s : FactoryState) : result Message FactoryState :=
  _ ← guard_err (negb (bool_decide (fs_work_units s = [])))
        [Lit "factory_decompose may be called only once in a fresh Plan turn"];
  Ok (with_review None [] [] (with_work_units (pending_unit <$> units) s)).

Definition is_completed (u : FactoryWorkUnit) : bool := bool_decide (wu_status u = ProgressCompleted).

(** The dependencies that some unit of that name has not completed. *)
Definition incomplete_dependencies (s : FactoryState) (u : FactoryWorkUnit) : list string :=
  List.filter (λ d, existsb (λ v, bool_decide (wu_id v = d) && negb (is_completed v)) (fs_work_units s))
    (wu_depends_on u).

Definition complete_work_unit (summary : string) (u : FactoryWorkUnit) : FactoryWorkUnit :=
  mkFactoryWorkUnit (wu_id u) (wu_title u) (wu_description u) (wu_depends_on u)
    ProgressCompleted (Some summary).

Definition progress_mutation (args : ProgressArgs) (s : FactoryState) : result Message FactoryState :=
  _ ← guard_err (bool_decide (pa_status args ≠ ProgressCompleted))
        [Lit "factory_update_progress accepts only completed status after implementation and verification"];
  found ← ok_or (list_find (λ u, wu_id u = pa_unit_id args) (fs_work_units s))
        [Lit "unknown Factory work unit "; Display (pa_unit_id args)];
  let '(unit_index, unit) := found in
  _ ← guard_err (is_completed unit)
        [Lit "work unit "; Display (pa_unit_id args); Lit " is already completed and cannot be rewritten"];
  _ ← guard_err (negb (bool_decide (incomplete_dependencies s unit = [])))
        [Lit "work unit "; Display (pa_unit_id args); Lit " has incomplete dependencies: ";
         Display (String.concat ", " (incomplete_dependencies s unit))];
  Ok (with_work_units (alter (complete_work_unit (pa_summary args)) unit_index (fs_work_units s)) s).

Definition review_mutation (report : FactoryReviewReport) (args : ReviewArgs) (s : FactoryState) :
    result Message FactoryState :=
  _ ← validate_review args s;
  Ok (record_review s report).

Definition remediation_mutation (dispositions : list FactoryRemediationRecord) (s : FactoryState) :
    result Message FactoryState :=
  _ ← validate_remediations dispositions s;
  Ok (with_review (fs_review s) dispositions (fs_review_history s) s).

(** ** The tools *)

(** [FactoryToolExecutor]: the state object it shares, the thread it serves. *)
Record FactoryToolExecutor : Type := mkFactoryToolExecutor {
  te_kind : FactoryToolKind;
  te_state : string;
  te_active_thread_id : string;
  te_context : option DetachedReviewThreadContext;
}.

Section tools.
Context {W : Type} `{FactoryStateBackend W} `{JsonText} `{HashOrder}.

Definition respond {A : Type} (r : result Message A) : result FunctionCallError A :=
  match r with Ok a => Ok a | Err m => Err (RespondToModel m) end.

(** [parse_args]. *)
Definition parse_args {A : Type} (parse : string → result string A) (call : ToolCall) :
    result FunctionCallError A :=
  text ← ok_or (call_arguments call) NotAFunctionCall;
  match parse text with Ok a => Ok a | Err m => Err (RespondToModel [Display m]) end.

(** [self.state.update(mutation)] and the receipt of the new state. *)
Definition update_and_receipt (x : FactoryToolExecutor) (operation : string)
    (mutation : FactoryState → result Message FactoryState) :
    proc (AgentWorld W) FunctionCallError MutationReceipt := λ w,
  match update (te_state x) mutation w with
  | (Ok s, w') => (Ok (receipt operation s), w')
  | (Err m, w') => (Err (RespondToModel m), w')
  end.

Definition decompose (x : FactoryToolExecutor) (call : ToolCall) :
    proc (AgentWorld W) FunctionCallError MutationReceipt :=
  units ← proc_lift (parse_args parse_decompose_args call);
  _ ← proc_lift (respond (validate_decomposition units));
  update_and_receipt x "decompose" (decompose_mutation units).

Definition progress (x : FactoryToolExecutor) (call : ToolCall) :
    proc (AgentWorld W) FunctionCallError MutationReceipt :=
  args ← proc_lift (parse_args parse_progress_args call);
  _ ← proc_lift (respond (require_bounded_text "unit_id" (pa_unit_id args) MAX_IDENTIFIER_CHARS));
  _ ← proc_lift (respond (require_bounded_text "summary" (pa_summary args) MAX_SUMMARY_CHARS));
  update_and_receipt x "progress" (progress_mutation args).

(** Who recorded a review: the detached review the thread serves, or what the
    turn's metadata says. *)
Definition review_report (x : FactoryToolExecutor) (call : ToolCall) (args : ReviewArgs) : FactoryReviewReport :=
  match te_context x with
  | Some context =>
      mkFactoryReviewReport 0 (Some (call_turn_id call)) (Some (te_active_thread_id x))
        (Some (drc_parent_thread_id context)) (Some (drc_parent_turn_id context)) (Some "review")
        (ra_verdict args) (ra_summary args) (ra_findings args)
  | None =>
      mkFactoryReviewReport 0 (Some (call_turn_id call)) (metadata_text call "thread_id")
        (metadata_text call "parent_thread_id") (metadata_text call "parent_turn_id")
        (metadata_text call "subagent_kind") (ra_verdict args) (ra_summary args) (ra_findings args)
  end.

Definition review (x : FactoryToolExecutor) (call : ToolCall) :
    proc (AgentWorld W) FunctionCallError MutationReceipt :=
  args ← proc_lift (parse_args parse_review_args call);
  update_and_receipt x "review" (review_mutation (review_report x call args) args).

Definition remediation (x : FactoryToolExecutor) (call : ToolCall) :
    proc (AgentWorld W) FunctionCallError MutationReceipt :=
  dispositions ← proc_lift (parse_args parse_remediation_args call);
  update_and_receipt x "remediation" (remediation_mutation dispositions).

(** [ToolExecutor::handle]. *)
Definition handle (x : FactoryToolExecutor) (call : ToolCall) :
    proc (AgentWorld W) FunctionCallError MutationReceipt :=
  _ ← proc_lift (respond (authorize (te_kind x) call (bool_decide (is_Some (te_context x)))));
  match te_kind x with
  | ToolDecompose => decompose x call
  | ToolProgress => progress x call
  | ToolReview => review x call
  | ToolRemediation => remediation x call
  end.
End tools.
