(* ===== verification/Stages.v ===== *)
(** * Stage contracts

    [runtime/src/stages.rs]: the kinds of stages a task goes through, the order
    they come in, and the state the agent must have left when a stage ends. *)

From S2P Require Import Prelude Sequences AgentState WorkGraph AgentTools.
From Stdlib Require Import ZArith Ascii String.
From stdpp Require Import base gmap strings list option.

#[local] Open Scope string_scope.
#[local] Open Scope Z_scope.
#[local] Open Scope list_scope.

(** ** Kinds of stages *)

Inductive OperationKind : Type := KindPlan | KindExecute | KindReview | KindRemediate | KindIterate.

#[export] Instance OperationKind_eq_dec : EqDecision OperationKind.
Proof. solve_decision. Defined.

Definition ALL : list OperationKind := [KindPlan; KindExecute; KindReview; KindRemediate].

Definition at_ordinal (ordinal : Z) : OperationKind :=
  match ALL !! Z.to_nat ordinal with
  | Some kind => kind
  | None =>
      let r := (ordinal - Z.of_nat (length ALL)) mod 3 in
      if r =? 0 then KindIterate else if r =? 1 then KindReview else KindRemediate
  end.

Definition as_wire_name (k : OperationKind) : string :=
  match k with
  | KindPlan => "codex.plan"
  | KindExecute => "codex.execute"
  | KindReview => "codex.review"
  | KindRemediate => "codex.remediate"
  | KindIterate => "codex.iterate"
  end.

(** ** Instructions *)

Definition AUTONOMOUS_PROMPT : string :=
  "Work autonomously until this stage is complete. Persist the required Factory state with the named Factory tools. Do not stop at advice or ask for confirmation.".

Definition PLAN_PROMPT : string :=
  "Inspect the repository without modifying it. On every Plan attempt, create a fresh, dependency-ordered decomposition after rollback. Decompose only implementation and verification work for Execute; never create work units for the later Factory Review, Remediate, or re-review stages because Factory owns that lifecycle. The only permitted Factory state mutation during Plan is exactly one call to factory_decompose. Do not call factory_update_progress, factory_record_review, or factory_record_remediation. Every persisted work unit must remain pending with no progress or result summary. Do not implement any work during planning.".

Definition EXECUTE_PROMPT : string :=
  "Implement every incomplete work unit in dependency order. For each unit, implement and verify the result, then call factory_update_progress exactly once with completed and a concise evidence-based summary. "
  +:+ "Do not perform instructions explicitly scoped to the later Factory Review, Remediate, or re-review stages during Execute. "
  +:+ "Run the required verification; never skip or weaken it to avoid generated files. Before finishing, inspect the complete workspace diff and remove only untracked transient residue created solely by verification, such as __pycache__/, *.pyc, and .pytest_cache/. "
  +:+ "Preserve every tracked file and every output required by the original task, even when it is generated. Do not mark a unit completed before its work and verification are finished. Do not finish while any unit is incomplete.".

Definition REVIEW_PROMPT : string :=
  "Independently inspect the completed changes, the complete workspace diff including untracked files, and the verification results. Treat task instructions explicitly scoped to execution as evidence to verify, not actions to repeat during review. "
  +:+ "Request changes for transient verification residue only when it is untracked and not an output required by the original task. Do not reject or undercount tracked files or task-required generated outputs merely because they are generated. "
  +:+ "Call factory_record_review exactly once. An approve verdict must use an empty findings array and put passing evidence in the summary. A request_changes or blocked verdict must include at least one concrete finding tied to a work-unit ID. Do not modify files during review.".

Definition REMEDIATE_PROMPT : string :=
  "Address every current review finding, verify each fix, and call factory_record_remediation exactly once with one matching disposition per finding. Do not leave any finding undispositioned. "
  +:+ "For a transient-residue finding, remove only untracked residue that is not required by the original task. Preserve every tracked file and requested output, rerun the required verification, then clean any new transient verification residue before recording remediation.".

Definition ITERATE_PROMPT : string :=
  "Address the newest follow-up feedback section appended to the task. Implement and verify every requested change in the workspace. Run the required verification; never skip or weaken it to avoid generated files. "
  +:+ "Before finishing, inspect the complete workspace diff and remove only untracked transient residue created solely by verification, such as __pycache__/, *.pyc, and .pytest_cache/. Preserve every tracked file and every output required by the original task, even when it is generated. "
  +:+ "Work units from earlier rounds stay completed and must not be rewritten: do not call factory_update_progress, factory_decompose, factory_record_review, or factory_record_remediation. Finish only when the follow-up feedback is fully applied and verified.".

Definition prompt (k : OperationKind) : string :=
  match k with
  | KindPlan => PLAN_PROMPT
  | KindExecute => EXECUTE_PROMPT
  | KindReview => REVIEW_PROMPT
  | KindRemediate => REMEDIATE_PROMPT
  | KindIterate => ITERATE_PROMPT
  end.

(** The stage the tools of a turn are authorised for. *)
Definition turn_stage (k : OperationKind) : FactoryTurnStage :=
  match k with
  | KindPlan => TurnPlan
  | KindExecute | KindIterate => TurnExecute
  | KindReview => TurnReview
  | KindRemediate => TurnRemediate
  end.

(** The sandbox the turn runs in. *)
Inductive SandboxPolicy : Type :=
| SandboxReadOnly (network_access : bool)
| SandboxDangerFullAccess.

Definition sandbox_policy (k : OperationKind) : SandboxPolicy :=
  match k with KindPlan => SandboxReadOnly true | _ => SandboxDangerFullAccess end.

Inductive StageValidationError : Type :=
| UnknownOperationKind (kind : string)
| Missing (fld : string)
| Invalid (fld : string) (detail : Message).

Abbreviation StageResult := (result StageValidationError).

Definition from_str (value : string) : StageResult OperationKind :=
  if decide (value = "codex.plan") then Ok KindPlan
  else if decide (value = "codex.execute") then Ok KindExecute
  else if decide (value = "codex.review") then Ok KindReview
  else if decide (value = "codex.remediate") then Ok KindRemediate
  else if decide (value = "codex.iterate") then Ok KindIterate
  else Err (UnknownOperationKind value).

(** ** Text *)

Definition require_text (fld value : string) : StageResult unit :=
  guard_err (is_blank value) (Invalid fld [Lit "must not be empty"]).

Definition require_optional_text (fld : string) (value : option string) : StageResult string :=
  v ← ok_or value (Missing fld);
  _ ← require_text fld v;
  Ok v.

(** ** Review baselines *)

Record ReviewBaseline : Type := mkReviewBaseline {
  bl_generation : Z;
  bl_parent_thread_id : string;
  bl_parent_turn_id : string;
}.

Definition baseline_from_parts (generation : Z) (parent_thread_id parent_turn_id : string) :
    StageResult ReviewBaseline :=
  _ ← require_text "review parent thread id" parent_thread_id;
  _ ← require_text "review parent turn id" parent_turn_id;
  Ok (mkReviewBaseline generation parent_thread_id parent_turn_id).

Definition baseline_capture (s : FactoryState) (parent_thread_id parent_turn_id : string) :
    StageResult ReviewBaseline :=
  baseline_from_parts (match fs_review s with Some review => rr_generation review | None => 0 end)
    parent_thread_id parent_turn_id.

Section validation.
Context `{HashOrder}.

(** ** Plan and execution *)

Definition validate_unit (u : FactoryWorkUnit) : StageResult unit :=
  _ ← require_text "work unit id" (wu_id u);
  _ ← require_text "work unit title" (wu_title u);
  require_text "work unit description" (wu_description u).

Definition validate_dependency (ids : gset string) (u : FactoryWorkUnit) (dependency : string) : StageResult unit :=
  _ ← require_text "work unit dependency" dependency;
  _ ← guard_err (bool_decide (dependency = wu_id u))
        (Invalid "work-unit decomposition" [Lit "unit "; Display (wu_id u); Lit " depends on itself"]);
  guard_err (bool_decide (dependency ∉ ids))
    (Invalid "work-unit decomposition"
       [Lit "unit "; Display (wu_id u); Lit " depends on unknown unit "; Display dependency]).

Definition validate_acyclic_state (units : list FactoryWorkUnit) : StageResult unit :=
  guard_err (negb (acyclic_check wu_id wu_depends_on units))
    (Invalid "work-unit decomposition" [Lit "dependency graph contains a cycle"]).

Definition validate_decomposition_state (s : FactoryState) : StageResult unit :=
  let units := fs_work_units s in
  _ ← guard_err (bool_decide (units = [])) (Missing "work-unit decomposition");
  _ ← each_new wu_id validate_unit
        (λ u, Invalid "work-unit decomposition" [Lit "duplicate unit id "; Display (wu_id u)])
        (λ _, Ok tt) ∅ units;
  let ids := list_to_set (wu_id <$> units) in
  _ ← for_each (λ u,
        each_new id (validate_dependency ids u)
          (λ d, Invalid "work-unit decomposition"
                  [Lit "unit "; Display (wu_id u); Lit " repeats dependency "; Display d])
          (λ _, Ok tt) ∅ (wu_depends_on u)) units;
  validate_acyclic_state units.

Definition status_name (p : FactoryProgressStatus) : string :=
  match p with
  | ProgressPending => "Pending"
  | ProgressInProgress => "InProgress"
  | ProgressCompleted => "Completed"
  | ProgressBlocked => "Blocked"
  end.

Definition validate_pending (u : FactoryWorkUnit) : StageResult unit :=
  _ ← guard_err (bool_decide (wu_status u ≠ ProgressPending))
        (Invalid "planning state" [Lit "unit "; Display (wu_id u); Lit " has execution status ";
                                   Display (status_name (wu_status u))]);
  guard_err (bool_decide (is_Some (wu_progress_summary u)))
    (Invalid "planning state" [Lit "unit "; Display (wu_id u); Lit " has an execution progress summary"]).

Definition validate_plan (s : FactoryState) : StageResult unit :=
  _ ← validate_decomposition_state s;
  _ ← for_each validate_pending (fs_work_units s);
  guard_err (bool_decide (is_Some (fs_review s)) || negb (bool_decide (fs_remediations s = []))
             || negb (bool_decide (fs_review_history s = [])))
    (Invalid "planning state" [Lit "planning must not record review or remediation results"]).

Definition validate_completed (u : FactoryWorkUnit) : StageResult unit :=
  _ ← guard_err (negb (is_completed u))
        (Invalid "execution progress" [Lit "unit "; Display (wu_id u); Lit " is not completed"]);
  match wu_progress_summary u with
  | Some summary => require_text "work unit progress summary" summary
  | None => Err (Invalid "execution progress"
                   [Lit "unit "; Display (wu_id u); Lit " has no progress summary"])
  end.

Definition validate_execute (s : FactoryState) : StageResult unit :=
  _ ← validate_decomposition_state s;
  for_each validate_completed (fs_work_units s).

(** ** Reviews *)

Definition validate_finding (f : FactoryReviewFinding) : StageResult unit :=
  _ ← require_text "review finding id" (rf_id f);
  _ ← require_text "review finding unit id" (rf_unit_id f);
  _ ← require_text "review finding title" (rf_title f);
  _ ← require_text "review finding evidence" (rf_evidence f);
  require_text "review finding recommendation" (rf_recommendation f).

(** The generation has advanced beyond the baseline. *)
Definition check_generation (review : FactoryReviewReport) (baseline : option ReviewBaseline) : StageResult unit :=
  _ ← guard_err (rr_generation review =? 0)
        (Invalid "review generation" [Lit "generation must be positive"]);
  match baseline with
  | Some b =>
      guard_err (rr_generation review <=? bl_generation b)
        (Invalid "review generation" [Lit "generation "; DisplayZ (rr_generation review);
                                      Lit " did not advance beyond "; DisplayZ (bl_generation b)])
  | None => Ok tt
  end.

(** The review was recorded by a review thread of the expected parent turn. *)
Definition check_provenance (review : FactoryReviewReport) (baseline : option ReviewBaseline) : StageResult unit :=
  _ ← require_optional_text "review recorded turn id" (rr_recorded_turn_id review);
  thread_id ← require_optional_text "review recorded thread id" (rr_recorded_thread_id review);
  parent_thread_id ← require_optional_text "review recorded parent thread id" (rr_recorded_parent_thread_id review);
  parent_turn_id ← require_optional_text "review recorded parent turn id" (rr_recorded_parent_turn_id review);
  kind ← require_optional_text "review recorded subagent kind" (rr_recorded_subagent_kind review);
  _ ← guard_err (bool_decide (kind ≠ "review"))
        (Invalid "review provenance" [Lit "subagent kind must be review, found "; Debug kind]);
  _ ← guard_err (bool_decide (thread_id = parent_thread_id))
        (Invalid "review provenance" [Lit "review thread must differ from its parent thread"]);
  match baseline with
  | Some b =>
      _ ← guard_err (bool_decide (parent_thread_id ≠ bl_parent_thread_id b))
            (Invalid "review provenance" [Lit "parent thread is "; Debug parent_thread_id;
                                          Lit ", expected "; Debug (bl_parent_thread_id b)]);
      guard_err (bool_decide (parent_turn_id ≠ bl_parent_turn_id b))
        (Invalid "review provenance" [Lit "parent turn is "; Debug parent_turn_id;
                                      Lit ", expected "; Debug (bl_parent_turn_id b)])
  | None => Ok tt
  end.

Definition validate_review_report (review : FactoryReviewReport) (s : FactoryState)
    (baseline : option ReviewBaseline) : StageResult unit :=
  _ ← check_generation review baseline;
  _ ← require_text "review summary" (rr_summary review);
  _ ← check_provenance review baseline;
  _ ← guard_err (bool_decide (rr_verdict review ≠ Approve) && bool_decide (rr_findings review = []))
        (Invalid "review findings" [Lit "a non-approved review requires at least one finding"]);
  _ ← guard_err (bool_decide (rr_verdict review = Approve) && negb (bool_decide (rr_findings review = [])))
        (Invalid "review findings" [Lit "an approved review must not contain findings"]);
  let unit_ids : gset string := list_to_set (wu_id <$> fs_work_units s) in
  each_new rf_id validate_finding
    (λ f, Invalid "review findings" [Lit "duplicate finding id "; Display (rf_id f)])
    (λ f, guard_err (bool_decide (rf_unit_id f ∉ unit_ids))
       (Invalid "review findings" [Lit "finding "; Display (rf_id f); Lit " references unknown unit ";
                                   Display (rf_unit_id f)]))
    ∅ (rr_findings review).

Definition validate_review_stage (s : FactoryState) (baseline : ReviewBaseline) : StageResult unit :=
  _ ← validate_execute s;
  review ← ok_or (fs_review s) (Missing "review");
  validate_review_report review s (Some baseline).

(** ** Remediation *)

Definition validate_record (r : FactoryRemediationRecord) : StageResult unit :=
  _ ← require_text "remediation finding id" (rem_finding_id r);
  _ ← require_text "remediation unit id" (rem_unit_id r);
  require_text "remediation rationale" (rem_rationale r).

Definition record_matches (findings : gmap string string) (r : FactoryRemediationRecord) : StageResult unit :=
  expected_unit ← ok_or (findings !! rem_finding_id r)
    (Invalid "remediation" [Lit "unknown finding "; Display (rem_finding_id r)]);
  guard_err (bool_decide (expected_unit ≠ rem_unit_id r))
    (Invalid "remediation" [Lit "finding "; Display (rem_finding_id r); Lit " belongs to unit ";
                            Display expected_unit; Lit ", not "; Display (rem_unit_id r)]).

Definition validate_remediation (s : FactoryState) : StageResult unit :=
  _ ← validate_execute s;
  review ← ok_or (fs_review s) (Missing "review");
  _ ← validate_review_report review s None;
  if decide (rr_verdict review = Approve) then
    guard_err (negb (bool_decide (fs_remediations s = [])))
      (Invalid "remediation" [Lit "an approved review must not have remediation records"])
  else
    _ ← guard_err (bool_decide (length (fs_remediations s) ≠ length (rr_findings review)))
          (Invalid "remediation" [Lit "expected "; DisplayZ (Z.of_nat (length (rr_findings review)));
             Lit " records, found "; DisplayZ (Z.of_nat (length (fs_remediations s)))]);
    each_new rem_finding_id validate_record
      (λ r, Invalid "remediation" [Lit "duplicate record for finding "; Display (rem_finding_id r)])
      (record_matches (collect_map rf_id rf_unit_id (rr_findings review))) ∅ (fs_remediations s).

Definition validate_stage (kind : OperationKind) (s : FactoryState) (baseline : option ReviewBaseline) :
    StageResult unit :=
  match kind with
  | KindPlan => validate_plan s
  | KindExecute | KindIterate => validate_execute s
  | KindReview =>
      b ← ok_or baseline (Missing "review baseline");
      validate_review_stage s b
  | KindRemediate => validate_remediation s
  end.
End validation.
