(* ===== verification/StateDocument.v ===== *)
(** * The durable state document

    [extension/src/state_document.rs]: how the agent's state is written into the
    one JSON document stored for its thread (work-unit definitions apart from
    their progress), and how it is read back, with the errors of a document that
    does not describe a state. *)

From S2P Require Import Prelude Sequences Serde AgentState.
From Stdlib Require Import ZArith Ascii String.
From stdpp Require Import base gmap strings list option.

#[local] Open Scope string_scope.
#[local] Open Scope Z_scope.
#[local] Open Scope list_scope.

(** ** Unit variants *)

Definition enum_ser {A : Type} (name : A → string) (a : A) : Value := Str (name a).

Definition enum_de {A : Type} (all : list A) (name : A → string) (v : Value) : option A :=
  n ← variant_name v; snd <$> list_find (λ a, name a = n) all.

Definition progress_name (p : FactoryProgressStatus) : string :=
  match p with
  | ProgressPending => "pending" | ProgressInProgress => "in_progress"
  | ProgressCompleted => "completed" | ProgressBlocked => "blocked"
  end.
Definition verdict_name (v : FactoryReviewVerdict) : string :=
  match v with Approve => "approve" | RequestChanges => "request_changes" | VerdictBlocked => "blocked" end.
Definition severity_name (s : FactoryFindingSeverity) : string :=
  match s with Critical => "critical" | Major => "major" | Minor => "minor" end.
Definition disposition_name (d : FactoryRemediationDisposition) : string :=
  match d with
  | DispositionAccepted => "accepted" | DispositionRejected => "rejected"
  | DispositionDeferred => "deferred" | DispositionResolved => "resolved"
  end.

#[export] Instance serde_progress : Serde FactoryProgressStatus :=
  {| ser := enum_ser progress_name;
     de := enum_de [ProgressPending; ProgressInProgress; ProgressCompleted; ProgressBlocked] progress_name |}.
#[export] Instance serde_verdict : Serde FactoryReviewVerdict :=
  {| ser := enum_ser verdict_name; de := enum_de [Approve; RequestChanges; VerdictBlocked] verdict_name |}.
#[export] Instance serde_severity : Serde FactoryFindingSeverity :=
  {| ser := enum_ser severity_name; de := enum_de [Critical; Major; Minor] severity_name |}.
#[export] Instance serde_disposition : Serde FactoryRemediationDisposition :=
  {| ser := enum_ser disposition_name;
     de := enum_de [DispositionAccepted; DispositionRejected; DispositionDeferred; DispositionResolved]
             disposition_name |}.

(** ** Structures *)

(** A field that [skip_serializing_if = "Option::is_none"] leaves out. *)
Definition skip_none {A : Type} `{Serde A} (o : option A) : option Value := ser <$> o.

Definition ser_finding (f : FactoryReviewFinding) : Value := object_of
  [("id", Some (ser (rf_id f))); ("severity", Some (ser (rf_severity f)));
   ("unit_id", Some (ser (rf_unit_id f))); ("title", Some (ser (rf_title f)));
   ("evidence", Some (ser (rf_evidence f))); ("recommendation", Some (ser (rf_recommendation f)))].

Definition de_finding (v : Value) : option FactoryReviewFinding :=
  fs ← struct_fields ["id"; "severity"; "unit_id"; "title"; "evidence"; "recommendation"] v;
  match fs with
  | [f1; f2; f3; f4; f5; f6] =>
        id ← field f1; severity ← field f2; unit_id ← field f3; title ← field f4; evidence ← field f5;
        recommendation ← field f6;
        Some (mkFactoryReviewFinding id severity unit_id title evidence recommendation)
  | _ => None
  end.

#[export] Instance serde_finding : Serde FactoryReviewFinding := {| ser := ser_finding; de := de_finding |}.

Definition ser_report (r : FactoryReviewReport) : Value := object_of
  [("generation", Some (ser_u64 (rr_generation r)));
   ("recorded_turn_id", skip_none (rr_recorded_turn_id r));
   ("recorded_thread_id", skip_none (rr_recorded_thread_id r));
   ("recorded_parent_thread_id", skip_none (rr_recorded_parent_thread_id r));
   ("recorded_parent_turn_id", skip_none (rr_recorded_parent_turn_id r));
   ("recorded_subagent_kind", skip_none (rr_recorded_subagent_kind r));
   ("verdict", Some (ser (rr_verdict r))); ("summary", Some (ser (rr_summary r)));
   ("findings", Some (ser (rr_findings r)))].

Definition de_report (v : Value) : option FactoryReviewReport :=
  fs ← struct_fields ["generation"; "recorded_turn_id"; "recorded_thread_id"; "recorded_parent_thread_id";
                        "recorded_parent_turn_id"; "recorded_subagent_kind"; "verdict"; "summary"; "findings"] v;
  match fs with
  | [f1; f2; f3; f4; f5; f6; f7; f8; f9] =>
        generation ← field_u64_or 0 f1; turn ← field_or None f2; thread ← field_or None f3;
        parent ← field_or None f4; parent_turn ← field_or None f5; kind ← field_or None f6;
        verdict ← field f7; summary ← field f8; findings ← field f9;
        Some (mkFactoryReviewReport generation turn thread parent parent_turn kind verdict summary findings)
  | _ => None
  end.

#[export] Instance serde_report : Serde FactoryReviewReport := {| ser := ser_report; de := de_report |}.

Definition ser_remediation (r : FactoryRemediationRecord) : Value := object_of
  [("finding_id", Some (ser (rem_finding_id r))); ("disposition", Some (ser (rem_disposition r)));
   ("rationale", Some (ser (rem_rationale r))); ("unit_id", Some (ser (rem_unit_id r)))].

Definition de_remediation (v : Value) : option FactoryRemediationRecord :=
  fs ← struct_fields ["finding_id"; "disposition"; "rationale"; "unit_id"] v;
  match fs with
  | [f1; f2; f3; f4] =>
        finding_id ← field f1; disposition ← field f2; rationale ← field f3; unit_id ← field f4;
        Some (mkFactoryRemediationRecord finding_id disposition rationale unit_id)
  | _ => None
  end.

#[export] Instance serde_remediation : Serde FactoryRemediationRecord := {| ser := ser_remediation; de := de_remediation |}.

Definition ser_cycle (c : FactoryReviewCycle) : Value := object_of [("review", Some (ser (rc_review c))); ("remediations", Some (ser (rc_remediations c)))].

Definition de_cycle (v : Value) : option FactoryReviewCycle :=
  fs ← struct_fields ["review"; "remediations"] v;
  match fs with
  | [f1; f2] => review ← field f1; remediations ← field f2; Some (mkFactoryReviewCycle review remediations)
  | _ => None
  end.

#[export] Instance serde_cycle : Serde FactoryReviewCycle := {| ser := ser_cycle; de := de_cycle |}.

Definition ser_baseline (b : FactoryReviewRecoveryBaseline) : Value := object_of
  [("revision", Some (ser_u64 (rb_revision b))); ("review", Some (ser (rb_review b)));
   ("remediations", Some (ser (rb_remediations b))); ("review_history", Some (ser (rb_review_history b)))].

Definition de_baseline (v : Value) : option FactoryReviewRecoveryBaseline :=
  fs ← struct_fields ["revision"; "review"; "remediations"; "review_history"] v;
  match fs with
  | [f1; f2; f3; f4] =>
        revision ← field_u64 f1; review ← field_option f2; remediations ← field f3; history ← field f4;
        Some (mkFactoryReviewRecoveryBaseline revision review remediations history)
  | _ => None
  end.

#[export] Instance serde_baseline : Serde FactoryReviewRecoveryBaseline := {| ser := ser_baseline; de := de_baseline |}.

(** Subagent activity. *)
Definition subagent_tool_name (t : FactorySubagentTool) : string :=
  match t with
  | SpawnAgent => "spawn_agent" | SendInput => "send_input" | ResumeAgent => "resume_agent" | Wait => "wait"
  | CloseAgent => "close_agent" | Interact => "interact" | InterruptAgent => "interrupt_agent"
  end.
Definition call_status_name (c : FactorySubagentToolCallStatus) : string :=
  match c with CallInProgress => "in_progress" | CallCompleted => "completed" | CallFailed => "failed" end.
Definition subagent_status_name (c : FactorySubagentStatus) : string :=
  match c with
  | SubagentPendingInit => "pending_init" | SubagentRunning => "running" | SubagentInterrupted => "interrupted"
  | SubagentCompleted => "completed" | SubagentErrored => "errored" | SubagentShutdown => "shutdown"
  | SubagentNotFound => "not_found"
  end.
Definition history_source_name (c : FactorySubagentHistorySource) : string := "coordinator_job_events".

#[export] Instance serde_subagent_tool : Serde FactorySubagentTool :=
  {| ser := enum_ser subagent_tool_name;
     de := enum_de [SpawnAgent; SendInput; ResumeAgent; Wait; CloseAgent; Interact; InterruptAgent]
             subagent_tool_name |}.
#[export] Instance serde_call_status : Serde FactorySubagentToolCallStatus :=
  {| ser := enum_ser call_status_name; de := enum_de [CallInProgress; CallCompleted; CallFailed] call_status_name |}.
#[export] Instance serde_subagent_status : Serde FactorySubagentStatus :=
  {| ser := enum_ser subagent_status_name;
     de := enum_de [SubagentPendingInit; SubagentRunning; SubagentInterrupted; SubagentCompleted;
                    SubagentErrored; SubagentShutdown; SubagentNotFound] subagent_status_name |}.
#[export] Instance serde_history_source : Serde FactorySubagentHistorySource :=
  {| ser := enum_ser history_source_name; de := enum_de [CoordinatorJobEvents] history_source_name |}.

Definition ser_subagent_state (s : FactorySubagentState) : Value := object_of
  [("thread_id", Some (ser (ss_thread_id s))); ("status", Some (ser (ss_status s)));
   ("terminal", Some (ser (ss_terminal s))); ("message", Some (ser (ss_message s)))].

Definition de_subagent_state (v : Value) : option FactorySubagentState :=
  fs ← struct_fields ["thread_id"; "status"; "terminal"; "message"] v;
  match fs with
  | [f1; f2; f3; f4] =>
        thread_id ← field f1; status ← field f2; terminal ← field f3; message ← field_option f4;
        Some (mkFactorySubagentState thread_id status terminal message)
  | _ => None
  end.

#[export] Instance serde_subagent_state : Serde FactorySubagentState := {| ser := ser_subagent_state; de := de_subagent_state |}.

Definition ser_activity (a : FactorySubagentActivity) : Value := object_of
  [("call_id", Some (ser (sa_call_id a))); ("turn_id", Some (ser (sa_turn_id a)));
   ("sender_thread_id", Some (ser (sa_sender_thread_id a)));
   ("receiver_thread_ids", Some (ser (sa_receiver_thread_ids a))); ("tool", Some (ser (sa_tool a)));
   ("prompt", Some (ser (sa_prompt a))); ("status", Some (ser (sa_status a)));
   ("agents", Some (ser (sa_agents a))); ("created_at", Some (ser (sa_created_at a)));
   ("updated_at", Some (ser (sa_updated_at a)))].

Definition de_activity (v : Value) : option FactorySubagentActivity :=
  fs ← struct_fields ["call_id"; "turn_id"; "sender_thread_id"; "receiver_thread_ids"; "tool"; "prompt";
                        "status"; "agents"; "created_at"; "updated_at"] v;
  match fs with
  | [f1; f2; f3; f4; f5; f6; f7; f8; f9; f10] =>
        call_id ← field f1; turn_id ← field f2; sender ← field f3; receivers ← field f4; tool ← field f5;
        prompt ← field_option f6; status ← field f7; agents ← field f8; created ← field f9; updated ← field f10;
        Some (mkFactorySubagentActivity call_id turn_id sender receivers tool prompt status agents created updated)
  | _ => None
  end.

#[export] Instance serde_activity : Serde FactorySubagentActivity := {| ser := ser_activity; de := de_activity |}.

Definition ser_history (h : FactorySubagentHistory) : Value := object_of
  [("source", Some (ser (sh_source h))); ("event_kind", Some (ser (sh_event_kind h)));
   ("latest_sequence", Some (ser_u64 (sh_latest_sequence h)))].

Definition de_history (v : Value) : option FactorySubagentHistory :=
  fs ← struct_fields ["source"; "event_kind"; "latest_sequence"] v;
  match fs with
  | [f1; f2; f3] =>
        source ← field f1; kind ← field f2; sequence ← field_u64 f3;
        Some (mkFactorySubagentHistory source kind sequence)
  | _ => None
  end.

#[export] Instance serde_history : Serde FactorySubagentHistory := {| ser := ser_history; de := de_history |}.

(** ** The contributors of the document *)

Record WorkUnitDefinition : Type := mkWorkUnitDefinition {
  wd_id : string;
  wd_title : string;
  wd_description : string;
  wd_depends_on : list string;
}.

Record WorkUnitProgress : Type := mkWorkUnitProgress {
  wp_id : string;
  wp_status : FactoryProgressStatus;
  wp_progress_summary : option string;
}.

Record DecompositionDocument : Type := mkDecompositionDocument {
  dd_revision : Z;
  dd_work_units : list WorkUnitDefinition;
}.

Record SubagentsDocument : Type := mkSubagentsDocument {
  sd_activities : list FactorySubagentActivity;
  sd_history : option FactorySubagentHistory;
}.

Definition ser_definition (u : WorkUnitDefinition) : Value := object_of
  [("id", Some (ser (wd_id u))); ("title", Some (ser (wd_title u)));
   ("description", Some (ser (wd_description u))); ("depends_on", Some (ser (wd_depends_on u)))].

Definition de_definition (v : Value) : option WorkUnitDefinition :=
  fs ← struct_fields ["id"; "title"; "description"; "depends_on"] v;
  match fs with
  | [f1; f2; f3; f4] =>
        id ← field f1; title ← field f2; description ← field f3; depends_on ← field f4;
        Some (mkWorkUnitDefinition id title description depends_on)
  | _ => None
  end.

#[export] Instance serde_definition : Serde WorkUnitDefinition := {| ser := ser_definition; de := de_definition |}.

Definition ser_unit_progress (u : WorkUnitProgress) : Value := object_of
  [("id", Some (ser (wp_id u))); ("status", Some (ser (wp_status u)));
   ("progress_summary", Some (ser (wp_progress_summary u)))].

Definition de_unit_progress (v : Value) : option WorkUnitProgress :=
  fs ← struct_fields ["id"; "status"; "progress_summary"] v;
  match fs with
  | [f1; f2; f3] =>
        id ← field f1; status ← field f2; summary ← field_option f3; Some (mkWorkUnitProgress id status summary)
  | _ => None
  end.

#[export] Instance serde_unit_progress : Serde WorkUnitProgress := {| ser := ser_unit_progress; de := de_unit_progress |}.

Definition ser_decomposition (d : DecompositionDocument) : Value := object_of [("revision", Some (ser_u64 (dd_revision d))); ("work_units", Some (ser (dd_work_units d)))].

Definition de_decomposition (v : Value) : option DecompositionDocument :=
  fs ← struct_fields ["revision"; "work_units"] v;
  match fs with
  | [f1; f2] => revision ← field_u64 f1; units ← field f2; Some (mkDecompositionDocument revision units)
  | _ => None
  end.

#[export] Instance serde_decomposition : Serde DecompositionDocument := {| ser := ser_decomposition; de := de_decomposition |}.

(** [ProgressDocument], [RemediationDocument] and [ReviewHistoryDocument] wrap
    one list. *)
Definition ser_list_document {A : Type} `{Serde A} (name : string) (l : list A) : Value :=
  object_of [(name, Some (ser l))].

Definition de_list_document {A : Type} `{Serde A} (name : string) (v : Value) : option (list A) :=
  fs ← struct_fields [name] v;
  match fs with [f1] => field f1 | _ => None end.

Definition ser_subagents (d : SubagentsDocument) : Value := object_of [("activities", Some (ser (sd_activities d))); ("history", skip_none (sd_history d))].

Definition de_subagents (v : Value) : option SubagentsDocument :=
  fs ← struct_fields ["activities"; "history"] v;
  match fs with
  | [f1; f2] => activities ← field f1; history ← field_or None f2; Some (mkSubagentsDocument activities history)
  | _ => None
  end.

#[export] Instance serde_subagents : Serde SubagentsDocument := {| ser := ser_subagents; de := de_subagents |}.

(** ** The document *)

Record FactoryStateDocument : Type := mkFactoryStateDocument {
  doc_decomposition : option Value;
  doc_progress : option Value;
  doc_review : option Value;
  doc_remediation : option Value;
  doc_review_history : option Value;
  doc_subagents : option Value;
  doc_review_recovery : option Value;
}.

Definition ser_document (d : FactoryStateDocument) : Value := object_of
  [("decomposition", doc_decomposition d); ("progress", doc_progress d); ("review", doc_review d);
   ("remediation", doc_remediation d); ("reviewHistory", doc_review_history d);
   ("subagents", doc_subagents d); ("reviewRecovery", doc_review_recovery d)].

Definition de_document (v : Value) : option FactoryStateDocument :=
  fs ← struct_fields ["decomposition"; "progress"; "review"; "remediation"; "reviewHistory"; "subagents";
                        "reviewRecovery"] v;
  match fs with
  | [f1; f2; f3; f4; f5; f6; f7] =>
        decomposition ← field_or None f1; progress ← field_or None f2; review ← field_or None f3;
        remediation ← field_or None f4; history ← field_or None f5; subagents ← field_or None f6;
        recovery ← field_or None f7;
        Some (mkFactoryStateDocument decomposition progress review remediation history subagents recovery)
  | _ => None
  end.

#[export] Instance serde_document : Serde FactoryStateDocument := {| ser := ser_document; de := de_document |}.

Definition unit_definition (u : FactoryWorkUnit) : WorkUnitDefinition :=
  mkWorkUnitDefinition (wu_id u) (wu_title u) (wu_description u) (wu_depends_on u).

Definition unit_progress (u : FactoryWorkUnit) : WorkUnitProgress :=
  mkWorkUnitProgress (wu_id u) (wu_status u) (wu_progress_summary u).

Definition from_state (s : FactoryState) : FactoryStateDocument :=
  mkFactoryStateDocument
    (Some (ser (mkDecompositionDocument (fs_revision s) (unit_definition <$> fs_work_units s))))
    (Some (ser_list_document "work_units" (unit_progress <$> fs_work_units s)))
    (ser <$> fs_review s)
    (Some (ser_list_document "records" (fs_remediations s)))
    (Some (ser_list_document "cycles" (fs_review_history s)))
    (Some (ser (mkSubagentsDocument (fs_subagents s) (fs_subagent_history s))))
    (ser <$> fs_review_recovery s).

Section into_state.
Context `{DecodeText}.

Definition from_value {A : Type} (decode : Value → option A) (contributor : string) (v : Value) :
    result (list fmt_part) A :=
  ok_or (decode v)
    [Lit "decode Factory "; Display contributor; Lit " state: "; Display (decode_error contributor v)].

(** The progress entries by their unit. *)
Fixpoint index_progress (m : gmap string WorkUnitProgress) (l : list WorkUnitProgress) :
    result (list fmt_part) (gmap string WorkUnitProgress) :=
  match l with
  | [] => Ok m
  | e :: r =>
      if decide (is_Some (m !! wp_id e)) then Err [Lit "Factory progress contains a duplicate work-unit ID"]
      else index_progress (<[wp_id e := e]> m) r
  end.

Definition merge_unit (d : WorkUnitDefinition) (p : WorkUnitProgress) : FactoryWorkUnit :=
  mkFactoryWorkUnit (wd_id d) (wd_title d) (wd_description d) (wd_depends_on d) (wp_status p) (wp_progress_summary p).

(** Every definition takes its progress entry; what is left is returned. *)
Fixpoint join_units (m : gmap string WorkUnitProgress) (l : list WorkUnitDefinition) :
    result (list fmt_part) (list FactoryWorkUnit * gmap string WorkUnitProgress) :=
  match l with
  | [] => Ok ([], m)
  | d :: r =>
      p ← ok_or (m !! wd_id d) [Lit "Factory progress is missing work unit "; Display (wd_id d)];
      rest ← join_units (delete (wd_id d) m) r;
      Ok (merge_unit d p :: rest.1, rest.2)
  end.

Definition join_progress (definitions : list WorkUnitDefinition) (progress : list WorkUnitProgress) :
    result (list fmt_part) (list FactoryWorkUnit) :=
  by_id ← index_progress ∅ progress;
  joined ← join_units by_id definitions;
  if decide (joined.2 = ∅) then Ok joined.1
  else Err [Lit "Factory progress references an unknown work-unit ID"].

Definition into_state (d : FactoryStateDocument) : result (list fmt_part) FactoryState :=
  match doc_decomposition d with
  | None =>
      if bool_decide (doc_progress d = None) && bool_decide (doc_review d = None)
         && bool_decide (doc_remediation d = None) && bool_decide (doc_review_history d = None)
         && bool_decide (doc_subagents d = None) && bool_decide (doc_review_recovery d = None)
      then Ok default_state
      else Err [Lit "Factory state has contributor data without a decomposition"]
  | Some decomposition =>
      decomposition ← from_value (de (A := DecompositionDocument)) "decomposition" decomposition;
      progress ← ok_or (doc_progress d) [Lit "Factory state is missing progress"];
      progress ← from_value (de_list_document "work_units") "progress" progress;
      work_units ← join_progress (dd_work_units decomposition) progress;
      review ← map_transpose (from_value de "review") (doc_review d);
      remediations ← map_transpose (from_value (de_list_document "records") "remediation") (doc_remediation d);
      history ← map_transpose (from_value (de_list_document "cycles") "review history") (doc_review_history d);
      subagents ← map_transpose (from_value (de (A := SubagentsDocument)) "subagents") (doc_subagents d);
      recovery ← map_transpose (from_value de "review recovery") (doc_review_recovery d);
      Ok (mkFactoryState (dd_revision decomposition) work_units review (default [] remediations)
            (default [] history) (default [] (sd_activities <$> subagents)) (subagents ≫= sd_history) recovery)
  end.
End into_state.

(** ** What a document can hold *)

(** What fits the wire format: the 64-bit numbers. *)
Definition fits_report (r : FactoryReviewReport) : Prop := fits_u64 (rr_generation r).
Definition fits_cycle (c : FactoryReviewCycle) : Prop := fits_report (rc_review c).
Definition fits_baseline (b : FactoryReviewRecoveryBaseline) : Prop :=
  fits_u64 (rb_revision b) ∧ (∀ r, rb_review b = Some r → fits_report r) ∧ Forall fits_cycle (rb_review_history b).
Definition fits_history (h : FactorySubagentHistory) : Prop := fits_u64 (sh_latest_sequence h).

Record fits_state (s : FactoryState) : Prop := {
  fit_revision : fits_u64 (fs_revision s);
  fit_review : ∀ r, fs_review s = Some r → fits_report r;
  fit_cycles : Forall fits_cycle (fs_review_history s);
  fit_subagents : ∀ h, fs_subagent_history s = Some h → fits_history h;
  fit_recovery : ∀ b, fs_review_recovery s = Some b → fits_baseline b;
}.

(** A state its document gives back unchanged. *)
Definition representable (s : FactoryState) : Prop := NoDup (wu_id <$> fs_work_units s) ∧ fits_state s.
