(* ===== verification/StateBackend.v ===== *)
(** * The state backend over HTTP

    [extension/src/factoryd.rs] and the routes of [coordinator/src/http.rs] it
    calls: the agent's state is saved as one JSON document per thread, under the
    fence of the attempt that runs the agent, by requests that may be lost before
    or after they took effect.  A request reaches the handler of its route with
    the thread it names; everything it carries goes through its JSON encoding. *)

From S2P Require Import Prelude Domain Rows Store Leases Events Runner Serde AgentState AgentTools StateDocument.
From Stdlib Require Import ZArith Ascii String.
From stdpp Require Import base gmap strings list option pretty.

#[local] Open Scope string_scope.
#[local] Open Scope Z_scope.
#[local] Open Scope list_scope.

(** ** Responses *)

Record Response : Type := mkResponse {
  resp_status : Z;
  resp_body : Value;
}.

Definition status_success (status : Z) : bool := (200 <=? status) && (status <? 300).

(** Texts of the HTTP libraries: a status as it is displayed, the body of a
    response as text, the error of a body that cannot be decoded, and the answer
    of the extractor to a request body of the wrong shape. *)
Class HttpText : Type := {
  status_text : Z → string;
  body_text : Value → string;
  decode_text : Value → string;
  rejection : Value → Response;
}.

Inductive ApiError : Type :=
| ApiCoordinator (error : CoordinatorError)
| ThreadStateNotFound (thread_id : string).

(** The status and code of a coordinator error. *)
Definition error_status (e : CoordinatorError) : Z * string :=
  match e with
  | InvalidJobDefinition _ => (400, "invalidJobDefinition")
  | InvalidInput _ => (400, "invalidInput")
  | JobNotFound _ => (404, "jobNotFound")
  | JobNotCancellable _ _ => (409, "jobNotCancellable")
  | JobNotContinuable _ _ => (409, "jobNotContinuable")
  | JobCancellationRequested _ => (409, "jobCancellationRequested")
  | WorkspaceNotFound _ => (404, "workspaceNotFound")
  | ExecutionEnvironmentNotFound _ => (404, "executionEnvironmentNotFound")
  | ExecutionEnvironmentGenerationStale _ _ => (409, "executionEnvironmentGenerationStale")
  | Workspace _ => (422, "workspaceOperationFailed")
  | WorkspaceRebindRequired _ _ => (409, "workspaceRebindRequired")
  | AttemptNotRunning _ => (409, "attemptNotRunning")
  | AttemptLeaseUnavailable _ => (409, "attemptLeaseUnavailable")
  | CorrelationMismatch => (409, "correlationMismatch")
  | CheckpointCorrelationMismatch => (409, "checkpointCorrelationMismatch")
  | ThreadStateOwnershipMismatch _ _ => (409, "threadStateOwnershipMismatch")
  | Database _ | Serialization | UnsupportedState _ _ | NumericRange _ => (500, "internalError")
  end.

Section handlers.
Context `{External, ErrorText, HttpText}.

(** [IntoResponse for ApiError]. *)
Definition into_response (e : ApiError) : Response :=
  let '(status, code, message) :=
    match e with
    | ThreadStateNotFound thread_id =>
        (404, "threadStateNotFound", "Factory state for thread " +:+ thread_id +:+ " was not found")
    | ApiCoordinator error => (error_status error, error_text error)
    end in
  mkResponse status
    (object_of [("error", Some (object_of [("code", Some (Str code)); ("message", Some (Str message))]))]).

(** The answer to a handler's result. *)
Definition respond_with (r : result ApiError Response) : Response :=
  match r with Ok response => response | Err e => into_response e end.

(** ** Records on the wire *)

Definition ser_thread_state (r : FactoryThreadStateRecord) : Value := object_of
  [("threadId", Some (Str (ts_thread_id r))); ("state", Some (ts_state r));
   ("revision", Some (ser_u64 (ts_revision r))); ("createdAt", Some (Str (rfc3339 (ts_created_at r))));
   ("updatedAt", Some (Str (rfc3339 (ts_updated_at r))))].

Definition ser_job_event (r : JobEventRecord) : Value := object_of
  [("sequence", Some (ser_u64 (je_sequence r))); ("jobId", Some (Str (je_job_id r)));
   ("operationId", Some (ser (je_operation_id r))); ("attemptId", Some (ser (je_attempt_id r)));
   ("kind", Some (Str (je_kind r))); ("payload", Some (je_payload r));
   ("createdAt", Some (Str (rfc3339 (je_created_at r))))].

(** [ThreadStateWriteRequest]: as the backend writes it, as the handler reads it. *)
Definition ser_write_request (fence : AttemptFence) (state : FactoryStateDocument) : Value := object_of
  [("attemptId", Some (Str (af_attempt_id fence))); ("ownerInstanceId", Some (Str (af_owner_instance_id fence)));
   ("leaseEpoch", Some (ser_u64 (af_lease_epoch fence))); ("state", Some (ser state))].

Definition de_write_request (v : Value) : option (AttemptFence * Value) :=
  fs ← struct_fields ["attemptId"; "ownerInstanceId"; "leaseEpoch"; "state"] v;
  match fs with
  | [f1; f2; f3; f4] =>
      attempt_id ← field f1; owner ← field f2; epoch ← field_u64 f3; state ← field f4;
      Some (mkAttemptFence attempt_id owner epoch, state)
  | _ => None
  end.

(** [AttemptEventWriteRequest], whose event is flattened into the request. *)
Definition ser_event_request (fence : AttemptFence) (kind : string) (payload : Value) (deduplication_key : string) : Value :=
  object_of
    [("ownerInstanceId", Some (Str (af_owner_instance_id fence))); ("leaseEpoch", Some (ser_u64 (af_lease_epoch fence)));
     ("kind", Some (Str kind)); ("payload", Some payload); ("deduplicationKey", Some (Str deduplication_key))].

Definition de_new_attempt_event (f : list (string * Value)) : option NewAttemptEvent :=
  kind ← field (find_key f "kind"); payload ← field (find_key f "payload");
  key ← field_or (A := option string) None (find_key f "deduplicationKey");
  Some (mkNewAttemptEvent kind payload key).

Definition de_event_request (attempt_id : string) (v : Value) : option (AttemptFence * NewAttemptEvent) :=
  match v with
  | Object f =>
      owner ← field (find_key f "ownerInstanceId"); epoch ← field_u64 (find_key f "leaseEpoch");
      event ← de_new_attempt_event f;
      Some (mkAttemptFence attempt_id owner epoch, event)
  | _ => None
  end.

(** ** Handlers *)

(** A handler runs at some time and answers. *)
Abbreviation Handler := (Z → db → Response * db).

Definition handle_result {A : Type} (p : Proc A) (answer : A → result ApiError Response) : db → Response * db := λ s,
  match p s with
  | (Ok a, s') => (respond_with (answer a), s')
  | (Err e, s') => (into_response (ApiCoordinator e), s')
  end.

Definition get_thread_state (thread_id : string) : Handler := λ _,
  handle_result (load_thread_state thread_id) (λ found,
    state ← ok_or found (ThreadStateNotFound thread_id);
    Ok (mkResponse 200 (ser_thread_state state))).

Definition put_thread_state_route (thread_id : string) (request : Value) : Handler := λ now s,
  match de_write_request request with
  | Some (fence, state) =>
      handle_result (put_thread_state now fence thread_id state) (λ r, Ok (mkResponse 200 (ser_thread_state r))) s
  | None => (rejection request, s)
  end.

Definition post_attempt_event (attempt_id : string) (request : Value) : Handler := λ now s,
  match de_event_request attempt_id request with
  | Some (fence, event) =>
      handle_result (append_attempt_event now fence event) (λ r, Ok (mkResponse 201 (ser_job_event r))) s
  | None => (rejection request, s)
  end.

(** ** Requests *)

(** What becomes of a request: it is answered, or it is lost with an error, and
    then it took effect or did not. *)
Inductive Delivery : Type :=
| Answered (now : Z)
| RequestLost (error : string)
| AnswerLost (now : Z) (error : string).

(** The database and the fate of the requests to come. *)
Record FactorydWorld : Type := mkFactorydWorld {
  fw_db : db;
  fw_deliveries : list Delivery;
}.

Definition NO_CONNECTION : string := "connection closed".

Definition send (h : Handler) : proc FactorydWorld string Response := λ w,
  match fw_deliveries w with
  | [] => (Err NO_CONNECTION, w)
  | Answered now :: rest => let '(r, s) := h now (fw_db w) in (Ok r, mkFactorydWorld s rest)
  | RequestLost e :: rest => (Err e, mkFactorydWorld (fw_db w) rest)
  | AnswerLost now e :: rest => (Err e, mkFactorydWorld (h now (fw_db w)).2 rest)
  end.

(** ** The backend *)

Definition request_error (operation error : string) : Message :=
  [Lit "factoryd "; Display operation; Lit " failed: "; Display error].

Definition response_error (operation : string) (r : Response) : Message :=
  [Lit "factoryd "; Display operation; Lit " returned HTTP "; Display (status_text (resp_status r)); Lit ": ";
   Display (body_text (resp_body r))].

(** [FactoryStateFence::new]. *)
Definition FactoryStateFence_new (attempt_id owner_instance_id : string) (lease_epoch : Z) : result Message AttemptFence :=
  _ ← guard_err (is_blank attempt_id) [Lit "attempt ID must not be empty"];
  _ ← guard_err (is_blank owner_instance_id) [Lit "coordinator instance ID must not be empty"];
  _ ← guard_err (lease_epoch =? 0) [Lit "lease epoch must be positive"];
  Ok (mkAttemptFence attempt_id owner_instance_id lease_epoch).

Definition send_request (operation : string) (h : Handler) : proc FactorydWorld Message Response := λ w,
  match send h w with (Ok r, w') => (Ok r, w') | (Err e, w') => (Err (request_error operation e), w') end.

(** The document of a [FactorydThreadStateRecord]; its other fields are ignored. *)
Definition de_thread_state_record (v : Value) : option FactoryStateDocument :=
  fs ← struct_fields ["state"] v;
  match fs with [f] => field f | _ => None end.

Definition decode_body {A : Type} (operation : string) (decode : Value → option A) (r : Response) : result Message A :=
  ok_or (decode (resp_body r)) (request_error operation (decode_text (resp_body r))).

Context `{DecodeText}.

Definition load_answer (r : Response) : result Message (option FactoryState) :=
  if decide (resp_status r = 404) then Ok None
  else if status_success (resp_status r) then
    d ← decode_body "decode load response" de_thread_state_record r;
    s ← into_state d;
    Ok (Some s)
  else Err (response_error "load" r).

Definition factoryd_load (thread_id : string) : proc FactorydWorld Message (option FactoryState) :=
  r ← send_request "load" (get_thread_state thread_id);
  proc_lift (load_answer r).

Definition save_answer (s : FactoryState) (r : Response) : result Message unit :=
  if status_success (resp_status r) then
    d ← decode_body "decode save response" de_thread_state_record r;
    stored ← into_state d;
    guard_err (negb (bool_decide (stored = s)))
      [Lit "factoryd save response did not preserve the exact Factory state"]
  else Err (response_error "save" r).

Context (fence : AttemptFence).

Definition factoryd_save (thread_id : string) (s : FactoryState) : proc FactorydWorld Message unit :=
  r ← send_request "save" (put_thread_state_route thread_id (ser_write_request fence (from_state s)));
  proc_lift (save_answer s r).

(** The sequence of a [FactorydJobEventRecord]. *)
Definition de_job_event_record (v : Value) : option Z :=
  fs ← struct_fields ["sequence"] v;
  match fs with [f] => field_u64 f | _ => None end.

Definition append_answer (r : Response) : result Message (option Z) :=
  if status_success (resp_status r) then
    sequence ← decode_body "decode append-event response" de_job_event_record r;
    Ok (Some sequence)
  else Err (response_error "append event" r).

Definition factoryd_append_event (kind : string) (payload : Value) (deduplication_key : string) :
    proc FactorydWorld Message (option Z) :=
  r ← send_request "append event"
        (post_attempt_event (af_attempt_id fence) (ser_event_request fence kind payload deduplication_key));
  proc_lift (append_answer r).

(** [FactoryStateBackend for FactorydStateBackend]. *)
Definition factoryd_backend : FactoryStateBackend FactorydWorld := {|
  backend_load := factoryd_load;
  backend_save := factoryd_save;
|}.
End handlers.
