(* ===== verification/Checkpoint.v ===== *)
(** * Stage checkpoints and resumption

    [runtime/src/checkpoint.rs] and the decisions of
    [runtime/src/executor/resume.rs]: what the worker writes before and after
    every turn of a stage, how a later attempt reads it back, where it resumes,
    and which agent state lets a recorded turn count as completed. *)

From S2P Require Import Prelude Sequences Domain Runner Serde AgentState AgentTools Stages.
From Stdlib Require Import ZArith Ascii String.
From stdpp Require Import base gmap strings option list.

#[local] Open Scope string_scope.
#[local] Open Scope Z_scope.
#[local] Open Scope list_scope.

Definition STAGE_CHECKPOINT_KIND : string := "factory.stage".

(** ** Data *)

Inductive StageCheckpointPhase : Type := PhaseAwaitingTurn | PhaseTurnCompleted | PhaseCompleted.

Inductive StageTurnRole : Type := TurnRoleStage | TurnRoleRemediation | TurnRoleReview.

#[export] Instance StageCheckpointPhase_eq_dec : EqDecision StageCheckpointPhase.
Proof. solve_decision. Defined.
#[export] Instance StageTurnRole_eq_dec : EqDecision StageTurnRole.
Proof. solve_decision. Defined.

Record StageLineage : Type := mkStageLineage {
  ln_parent_execution_thread_id : string;
  ln_active_thread_id : string;
  ln_turn_id : string;
}.

Record FactoryStateBaselines : Type := mkFactoryStateBaselines {
  bs_revision : Z;
  bs_review_generation : option Z;
  bs_expected_review_parent_turn_id : option string;
}.

Record StageCheckpoint : Type := mkStageCheckpoint {
  sc_operation : OperationKind;
  sc_parent_execution_thread_id : string;
  sc_active_thread_id : string;
  sc_turn_id : string;
  sc_phase : StageCheckpointPhase;
  sc_turn_role : StageTurnRole;
  sc_review_cycle : Z;
  sc_state_revision_baseline : Z;
  sc_review_generation_baseline : option Z;
  sc_expected_review_parent_turn_id : option string;
}.

Inductive StageCheckpointError : Type :=
| WrongKind (actual : string)
| Malformed (detail : Message)
| NotCompleted (phase : StageCheckpointPhase).

Abbreviation CheckpointResult := (result StageCheckpointError).

(** ** Validation *)

Definition require_checkpoint_text (fld value : string) : CheckpointResult unit :=
  guard_err (is_blank value) (Malformed [Display fld; Lit " must not be empty"]).

Definition validate_lineage (l : StageLineage) : CheckpointResult unit :=
  _ ← require_checkpoint_text "parentExecutionThreadId" (ln_parent_execution_thread_id l);
  _ ← require_checkpoint_text "activeThreadId" (ln_active_thread_id l);
  require_checkpoint_text "turnId" (ln_turn_id l).

Definition new_lineage (parent active turn : string) : CheckpointResult StageLineage :=
  _ ← validate_lineage (mkStageLineage parent active turn);
  Ok (mkStageLineage parent active turn).

Definition lineage (c : StageCheckpoint) : StageLineage :=
  mkStageLineage (sc_parent_execution_thread_id c) (sc_active_thread_id c) (sc_turn_id c).

(** The roles and cycles a stage may have. *)
Definition role_fits (operation : OperationKind) (role : StageTurnRole) (cycle : Z) : bool :=
  match operation, role with
  | (KindPlan | KindExecute | KindIterate), TurnRoleStage => cycle =? 0
  | KindReview, TurnRoleReview => cycle =? 0
  | KindRemediate, (TurnRoleRemediation | TurnRoleReview) => 0 <? cycle
  | _, _ => false
  end.

Definition validate_checkpoint (c : StageCheckpoint) : CheckpointResult unit :=
  _ ← validate_lineage (lineage c);
  _ ← guard_err (negb (role_fits (sc_operation c) (sc_turn_role c) (sc_review_cycle c)))
        (Malformed [Lit "turnRole and reviewCycle do not match the operation"]);
  let review_turn := bool_decide (sc_turn_role c = TurnRoleReview) in
  _ ← guard_err (negb (Bool.eqb review_turn (bool_decide (is_Some (sc_review_generation_baseline c)))))
        (Malformed [Lit "reviewGenerationBaseline must be present only for review turns"]);
  _ ← guard_err (negb (Bool.eqb review_turn (bool_decide (is_Some (sc_expected_review_parent_turn_id c)))))
        (Malformed [Lit "expectedReviewParentTurnId must be present only for review turns"]);
  match sc_expected_review_parent_turn_id c with
  | Some parent_turn_id => require_checkpoint_text "expectedReviewParentTurnId" parent_turn_id
  | None => Ok tt
  end.

Definition new_checkpoint (operation : OperationKind) (l : StageLineage) (phase : StageCheckpointPhase)
    (role : StageTurnRole) (cycle : Z) (b : FactoryStateBaselines) : CheckpointResult StageCheckpoint :=
  let c := mkStageCheckpoint operation (ln_parent_execution_thread_id l) (ln_active_thread_id l)
    (ln_turn_id l) phase role cycle (bs_revision b) (bs_review_generation b)
    (bs_expected_review_parent_turn_id b) in
  _ ← validate_checkpoint c;
  Ok c.

Definition awaiting_turn (operation : OperationKind) (l : StageLineage) :=
  new_checkpoint operation l PhaseAwaitingTurn.
Definition turn_completed (operation : OperationKind) (l : StageLineage) :=
  new_checkpoint operation l PhaseTurnCompleted.
Definition completed (operation : OperationKind) (l : StageLineage) :=
  new_checkpoint operation l PhaseCompleted.

(** ** Encoding *)

Definition phase_name (p : StageCheckpointPhase) : string :=
  match p with
  | PhaseAwaitingTurn => "awaitingTurn" | PhaseTurnCompleted => "turnCompleted" | PhaseCompleted => "completed"
  end.

Definition role_name (r : StageTurnRole) : string :=
  match r with TurnRoleStage => "stage" | TurnRoleRemediation => "remediation" | TurnRoleReview => "review" end.

Definition phase_from_name (n : string) : option StageCheckpointPhase :=
  if decide (n = "awaitingTurn") then Some PhaseAwaitingTurn
  else if decide (n = "turnCompleted") then Some PhaseTurnCompleted
  else if decide (n = "completed") then Some PhaseCompleted
  else None.

Definition role_from_name (n : string) : option StageTurnRole :=
  if decide (n = "stage") then Some TurnRoleStage
  else if decide (n = "remediation") then Some TurnRoleRemediation
  else if decide (n = "review") then Some TurnRoleReview
  else None.

Definition de_operation_kind (v : Value) : option OperationKind :=
  name ← as_str v; match from_str name with Ok k => Some k | Err _ => None end.

Definition ser_checkpoint (c : StageCheckpoint) : Value := object_of
  [("operation", Some (Str (as_wire_name (sc_operation c))));
   ("parentExecutionThreadId", Some (Str (sc_parent_execution_thread_id c)));
   ("activeThreadId", Some (Str (sc_active_thread_id c)));
   ("turnId", Some (Str (sc_turn_id c)));
   ("phase", Some (Str (phase_name (sc_phase c))));
   ("turnRole", Some (Str (role_name (sc_turn_role c))));
   ("reviewCycle", Some (ser_u64 (sc_review_cycle c)));
   ("stateRevisionBaseline", Some (ser_u64 (sc_state_revision_baseline c)));
   ("reviewGenerationBaseline", ser_u64 <$> sc_review_generation_baseline c);
   ("expectedReviewParentTurnId", Str <$> sc_expected_review_parent_turn_id c)].

(** A field read by a function of its own. *)
Definition field_with {A : Type} (decode : Value → option A) (f : Found) : option A :=
  match f with Present v => decode v | _ => None end.

(** An [Option] field with [#[serde(default)]]. *)
Definition field_default {A : Type} (decode : Value → option A) (f : Found) : option (option A) :=
  match f with
  | Present Null => Some None
  | Present v => Some <$> decode v
  | _ => Some None
  end.

Definition checkpoint_fields : list string :=
  ["operation"; "parentExecutionThreadId"; "activeThreadId"; "turnId"; "phase"; "turnRole"; "reviewCycle";
   "stateRevisionBaseline"; "reviewGenerationBaseline"; "expectedReviewParentTurnId"].

Definition de_checkpoint (v : Value) : option StageCheckpoint :=
  fs ← struct_fields_strict checkpoint_fields v;
  match fs with
  | [f1; f2; f3; f4; f5; f6; f7; f8; f9; f10] =>
      operation ← field_with de_operation_kind f1; parent ← field f2; active ← field f3; turn ← field f4;
      phase ← field_with (λ v, variant_name v ≫= phase_from_name) f5;
      role ← field_with (λ v, variant_name v ≫= role_from_name) f6;
      cycle ← field_u32 f7; revision ← field_u64 f8;
      generation ← field_default de_u64 f9; parent_turn ← field_default as_str f10;
      Some (mkStageCheckpoint operation parent active turn phase role cycle revision generation parent_turn)
  | _ => None
  end.

Definition StageCheckpoint_encode (c : StageCheckpoint) (workspace_root workspace_revision correlation_id : option string) :
    CheckpointResult OperationCheckpoint :=
  _ ← validate_checkpoint c;
  Ok (mkOperationCheckpoint STAGE_CHECKPOINT_KIND (ser_checkpoint c) workspace_root workspace_revision correlation_id).

Section decoding.
Context `{DecodeText}.

Definition StageCheckpoint_decode (record : CheckpointRecord) : CheckpointResult StageCheckpoint :=
  _ ← guard_err (negb (bool_decide (cp_kind record = STAGE_CHECKPOINT_KIND))) (WrongKind (cp_kind record));
  c ← ok_or (de_checkpoint (cp_payload record))
        (Malformed [Display (decode_error "stage checkpoint" (cp_payload record))]);
  _ ← validate_checkpoint c;
  Ok c.

Definition lineage_from_completed (record : CheckpointRecord) : CheckpointResult StageLineage :=
  c ← StageCheckpoint_decode record;
  _ ← guard_err (negb (bool_decide (sc_phase c = PhaseCompleted))) (NotCompleted (sc_phase c));
  Ok (lineage c).

(** ** Resumption *)

(** [ExecutionFailure]. *)
Inductive ExecutionFailure : Type :=
| CoordinatorFailure (error : CoordinatorError)
| TerminalFailure (message : Message)
| RetryableFailure (message : Message)
| PlanValidationFailure (message : Message)
| CancelledFailure.

Inductive ResumePoint : Type :=
| ResumeAtStart
| ResumePrevious (checkpoint : StageCheckpoint)
| ResumeCurrent (checkpoint : StageCheckpoint) (correlation_id : option string).

(** [{:?}] of a phase and of an optional text. *)
Definition phase_debug (p : StageCheckpointPhase) : string :=
  match p with
  | PhaseAwaitingTurn => "AwaitingTurn" | PhaseTurnCompleted => "TurnCompleted" | PhaseCompleted => "Completed"
  end.

Definition option_debug (o : option string) : Message :=
  match o with Some s => [Lit "Some("; Debug s; Lit ")"] | None => [Lit "None"] end.

(** [Display for StageCheckpointError]. *)
Definition checkpoint_error_text (e : StageCheckpointError) : Message :=
  match e with
  | WrongKind actual => [Lit "checkpoint kind must be factory.stage, got "; Display actual]
  | Malformed detail => Lit "malformed stage checkpoint: " :: detail
  | NotCompleted phase => [Lit "stage checkpoint is not completed: "; Display (phase_debug phase)]
  end.

Definition resume_decode (resume : ResumeStrategy) (ordinal : Z) (operation : OperationKind)
    (workspace_root workspace_revision : string) : result ExecutionFailure ResumePoint :=
  match resume with
  | ResumeFresh =>
      if decide (operation = KindPlan ∧ ordinal = 0) then Ok ResumeAtStart
      else Err (TerminalFailure [Lit "non-plan stage has no completed predecessor checkpoint"])
  | FromCheckpoint record =>
      if decide (cp_workspace_root record = Some workspace_root ∧
                 cp_workspace_revision record = Some workspace_revision) then
        match StageCheckpoint_decode record with
        | Err e => Err (TerminalFailure (checkpoint_error_text e))
        | Ok c =>
            if decide (sc_operation c = operation) then Ok (ResumeCurrent c (cp_correlation_id record))
            else if decide (ordinal = 0) then
              Err (TerminalFailure [Lit "plan stage resumed from another operation"])
            else if decide (sc_operation c = at_ordinal (ordinal - 1) ∧ sc_phase c = PhaseCompleted) then
              Ok (ResumePrevious c)
            else Err (TerminalFailure
              [Lit "resume checkpoint is not the completed immediately preceding Factory stage"])
        end
      else Err (TerminalFailure [Lit "resume checkpoint does not belong to the current managed worktree"])
  end.
End decoding.

Definition resume_current (r : ResumePoint) : option (StageCheckpoint * option string) :=
  match r with ResumeCurrent c correlation_id => Some (c, correlation_id) | _ => None end.

Definition preceding_checkpoint (r : ResumePoint) : option StageCheckpoint :=
  match r with ResumePrevious c => Some c | _ => None end.

Definition preceding_turn_id (r : ResumePoint) : option string := sc_turn_id <$> preceding_checkpoint r.

Definition correlation_checkpoint (r : ResumePoint) : option StageCheckpoint :=
  match r with ResumeAtStart => None | ResumePrevious c | ResumeCurrent c _ => Some c end.

Definition resume_parent_thread_id (r : ResumePoint) : option string :=
  match r with
  | ResumeAtStart => None
  | ResumePrevious c | ResumeCurrent c _ => Some (sc_parent_execution_thread_id c)
  end.

Definition set_current_correlation (value : string) (r : ResumePoint) : ResumePoint :=
  match r with ResumeCurrent c _ => ResumeCurrent c (Some value) | _ => r end.

(** ** The state a recorded turn must have left *)

(** [Display for StageValidationError]. *)
Definition validation_text (e : StageValidationError) : Message :=
  match e with
  | UnknownOperationKind kind => [Lit "unknown Factory operation kind "; Debug kind]
  | Missing fld => [Lit "Factory state is missing "; Display fld]
  | Invalid fld detail => Lit "invalid Factory " :: Display fld :: Lit ": " :: detail
  end.

Definition with_text {A : Type} (r : StageResult A) : result Message A :=
  match r with Ok a => Ok a | Err e => Err (validation_text e) end.

Definition checkpoint_review_baseline (c : StageCheckpoint) : result Message ReviewBaseline :=
  generation ← ok_or (sc_review_generation_baseline c)
    [Lit "review checkpoint has no review generation baseline"];
  parent_turn_id ← ok_or (sc_expected_review_parent_turn_id c)
    [Lit "review checkpoint has no expected parent turn"];
  with_text (baseline_from_parts generation (sc_parent_execution_thread_id c) parent_turn_id).

Definition revision_advanced (s : FactoryState) (c : StageCheckpoint) : result Message unit :=
  guard_err (fs_revision s <=? sc_state_revision_baseline c)
    [Lit "Factory state revision "; DisplayZ (fs_revision s); Lit " did not advance beyond ";
     DisplayZ (sc_state_revision_baseline c)].

Section checkpoint_state.
Context `{HashOrder}.

Definition validate_checkpoint_state (s : FactoryState) (c : StageCheckpoint) : result Message unit :=
  match sc_turn_role c with
  | TurnRoleStage =>
      _ ← with_text (validate_stage (sc_operation c) s None);
      if decide (sc_operation c = KindIterate) then Ok tt else revision_advanced s c
  | TurnRoleRemediation =>
      _ ← with_text (validate_stage KindRemediate s None);
      review ← ok_or (fs_review s) [Lit "Factory state has no review"];
      if decide (rr_verdict review = Approve) then Ok tt else revision_advanced s c
  | TurnRoleReview =>
      baseline ← checkpoint_review_baseline c;
      _ ← with_text (validate_stage KindReview s (Some baseline));
      review ← ok_or (fs_review s) [Lit "Factory state has no review"];
      _ ← guard_err (negb (bool_decide (rr_recorded_thread_id review = Some (sc_active_thread_id c))))
            (Lit "review was recorded by thread " :: option_debug (rr_recorded_thread_id review)
             ++ [Lit ", expected "; Debug (sc_active_thread_id c)]);
      guard_err (negb (bool_decide (rr_recorded_turn_id review = Some (sc_turn_id c))))
        (Lit "review was recorded by turn " :: option_debug (rr_recorded_turn_id review)
         ++ [Lit ", expected "; Debug (sc_turn_id c)])
  end.
End checkpoint_state.

Definition review_baselines (s : FactoryState) (b : ReviewBaseline) : FactoryStateBaselines :=
  mkFactoryStateBaselines (fs_revision s) (Some (bl_generation b)) (Some (bl_parent_turn_id b)).

Definition checkpoint_baselines (c : StageCheckpoint) : FactoryStateBaselines :=
  mkFactoryStateBaselines (sc_state_revision_baseline c) (sc_review_generation_baseline c)
    (sc_expected_review_parent_turn_id c).

Definition terminal_on_error {A : Type} (r : CheckpointResult A) : result ExecutionFailure A :=
  match r with Ok a => Ok a | Err e => Err (TerminalFailure (checkpoint_error_text e)) end.

Definition encode_checkpoint (c : StageCheckpoint) (workspace : string * string) (correlation_id : option string) :
    result ExecutionFailure OperationCheckpoint :=
  terminal_on_error (StageCheckpoint_encode c (Some workspace.1) (Some workspace.2) correlation_id).

Definition final_checkpoint (c : StageCheckpoint) (workspace : string * string) (correlation_id : option string) :
    result ExecutionFailure OperationCheckpoint :=
  done ← terminal_on_error (completed (sc_operation c) (lineage c) (sc_turn_role c) (sc_review_cycle c)
                              (checkpoint_baselines c));
  encode_checkpoint done workspace correlation_id.
