(* ===== verification/Executor.v ===== *)
(** * Executing a stage

    [runtime/src/executor/stage_loop.rs] and the parts of
    [runtime/src/executor/mod.rs], [resume.rs] and [task.rs] it runs: one turn of
    the agent with its checkpoints and events, a single-turn stage, and the
    remediation loop that alternates remediation and review turns until the
    review approves or the cycles are used up.  The Codex session, the store, the
    worktree and the state backend are the operations of a host the code calls;
    every one of them may fail and may change the world in any way. *)

From S2P Require Import Prelude Sequences Domain Runner Serde AgentState AgentTools Stages StateDocument Checkpoint.
From Stdlib Require Import ZArith Ascii String.
From stdpp Require Import base gmap strings option list pretty.

#[local] Open Scope string_scope.
#[local] Open Scope Z_scope.
#[local] Open Scope list_scope.

(** ** The host *)

(** A started turn: the request that started it, its thread and itself. *)
Record TurnCorrelation : Type := mkTurnCorrelation {
  tc_request_id : string;
  tc_thread_id : string;
  tc_turn_id : string;
}.

(** Waiting for a turn fails because the lease was lost, or otherwise. *)
Inductive WaitError : Type :=
| WaitLeaseLost
| WaitFailed (message : string).

Inductive TurnStatus : Type := TurnStatusCompleted | TurnStatusOther.

#[export] Instance TurnStatus_eq_dec : EqDecision TurnStatus.
Proof. solve_decision. Defined.

Class StageHost (W : Type) : Type := {
  host_backend :: FactoryStateBackend W;
  snapshot_type : Type;
  is_cancelled : W → bool;
  persisted_turn_status : string → string → proc W string (option TurnStatus);
  start_review : string → string → string → proc W string TurnCorrelation;
  start_text_turn : string → SandboxPolicy → FactoryTurnStage → proc W string TurnCorrelation;
  wait_for_completion : proc W WaitError unit;
  emit_event : option (string * string) → string → Value → proc W CoordinatorError unit;
  append_correlation : Correlation → proc W CoordinatorError string;
  write_checkpoint : OperationCheckpoint → proc W CoordinatorError unit;
  capture_review_snapshot : proc W CoordinatorError snapshot_type;
  restore_review_snapshot : snapshot_type → proc W CoordinatorError bool;
  acknowledge_review_mutation : proc W CoordinatorError unit;
  validate_pristine : proc W CoordinatorError unit;
  restore_worktree : proc W CoordinatorError unit;
}.

(** [Display for CoordinatorError]. *)
Class CoordinatorText : Type := { coordinator_text : CoordinatorError → string }.

(** ** Effects *)

Section effects.
Context {W : Type}.

(** [Result::map_err] of an awaited call. *)
Definition map_err {E F A : Type} (f : E → F) (p : proc W E A) : proc W F A := λ w,
  match p w with (Ok a, w') => (Ok a, w') | (Err e, w') => (Err (f e), w') end.

(** The result of a block as a value. *)
Definition attempt {E F A : Type} (p : proc W E A) : proc W F (result E A) := λ w,
  let '(r, w') := p w in (Ok r, w').

(** A call whose result is ignored. *)
Definition ignore {E F A : Type} (p : proc W E A) : proc W F unit := λ w, (Ok tt, (p w).2).

Definition fail {E A : Type} (e : E) : proc W E A := λ w, (Err e, w).
Definition done {E A : Type} (a : A) : proc W E A := λ w, (Ok a, w).
Definition when {E : Type} (c : bool) (p : proc W E unit) : proc W E unit := if c then p else done tt.
Definition observe {E A : Type} (f : W → A) : proc W E A := λ w, (Ok (f w), w).
End effects.

(** ** What a run of a stage is given *)

Record StageContext : Type := mkStageContext {
  sx_parent_thread_id : string;
  sx_workspace : string * string;
  sx_task : string;
  sx_job_id : string;
  sx_operation_id : string;
  sx_attempt_id : string;
  sx_checkpoint_correlation : option DurableCorrelationRecord;
  sx_max_review_cycles : Z;
}.

(** ** Prompts *)

Definition lf : string := String (ascii_of_nat 10) EmptyString.

Definition stage_prompt (task : string) (operation : OperationKind) (role : StageTurnRole) (cycle : Z) : string :=
  let instruction :=
    match role with
    | TurnRoleStage => prompt operation
    | TurnRoleRemediation => "Remediation cycle " +:+ pretty cycle +:+ ". " +:+ prompt KindRemediate
    | TurnRoleReview =>
        if decide (operation = KindRemediate) then
          "Post-remediation review cycle " +:+ pretty cycle +:+ ". " +:+ prompt KindReview
          +:+ " Inspect the actual changes and verification results before deciding."
        else prompt KindReview
    end in
  "Current Factory stage contract:" +:+ lf +:+ instruction +:+ lf +:+ lf +:+ AUTONOMOUS_PROMPT +:+ lf +:+ lf
  +:+ "Original task (apply only within the current stage contract):" +:+ lf +:+ task.

(** ** Completion *)

Record CompletedOperation : Type := mkCompletedOperation {
  cop_checkpoint : OperationCheckpoint;
  cop_completion_event : NewAttemptEvent;
}.

Definition complete_stage (c : StageCheckpoint) (s : FactoryState) (durable : OperationCheckpoint) : CompletedOperation :=
  let findings := match fs_review s with Some review => ser (rr_findings review) | None => Array [] end in
  mkCompletedOperation durable
    (mkNewAttemptEvent "stage.completed"
       (object_of [("stage", Some (Str (as_wire_name (sc_operation c)))); ("role", Some (Str (role_name (sc_turn_role c))));
                   ("reviewCycle", Some (ser_u64 (sc_review_cycle c))); ("threadId", Some (Str (sc_active_thread_id c)));
                   ("turnId", Some (Str (sc_turn_id c))); ("findings", Some findings)]) None).

Section executor.
Context {W : Type} `{StageHost W} `{CoordinatorText} `{HashOrder}.
Context (x : StageContext).

Abbreviation Exec := (proc W ExecutionFailure).

Definition retryable_text {A : Type} (p : proc W string A) : Exec A :=
  map_err (λ m, RetryableFailure [Display m]) p.
Definition retryable_message {A : Type} (p : proc W Message A) : Exec A := map_err RetryableFailure p.
Definition coordinator {A : Type} (p : proc W CoordinatorError A) : Exec A := map_err CoordinatorFailure p.
Definition retryable_coordinator {A : Type} (p : proc W CoordinatorError A) : Exec A :=
  map_err (λ e, RetryableFailure [Display (coordinator_text e)]) p.

(** ** State and review recovery *)

Definition load_state : Exec FactoryState :=
  loaded ← retryable_message (backend_load (sx_parent_thread_id x));
  done (default default_state loaded).

Definition save_state (s : FactoryState) : Exec unit :=
  retryable_message (backend_save (sx_parent_thread_id x) s).

Definition update_review_recovery (commit : bool) : Exec bool :=
  s ← load_state;
  let '(changed, s') := if commit then commit_review_recovery s else rollback_review_recovery s in
  _ ← when changed (save_state s');
  done changed.

Definition commit_detached_review : Exec unit := _ ← update_review_recovery true; done tt.
Definition rollback_detached_review : Exec bool := update_review_recovery false.

Definition prepare_detached_review : Exec snapshot_type :=
  s ← load_state;
  let '(rolled_back, s1) := rollback_review_recovery s in
  _ ← when rolled_back (save_state s1);
  snapshot ← retryable_coordinator capture_review_snapshot;
  saved ← attempt (save_state (prepare_review_recovery s1));
  match saved with
  | Ok _ => done snapshot
  | Err e => _ ← ignore (restore_review_snapshot snapshot); fail e
  end.

Definition restore_factory_plan_state (parent_thread_id : string) : proc W Message unit :=
  map_err (λ m, Lit "restore Factory planning state: " :: m) (backend_save parent_thread_id default_state).

Definition restore_plan_baseline : proc W Message unit :=
  _ ← restore_factory_plan_state (sx_parent_thread_id x);
  map_err (λ e, [Lit "restore managed plan worktree: "; Display (coordinator_text e)]) restore_worktree.

(** ** Correlations *)

Definition durable_correlation (request_id : string) (thread_id turn_id : option string) : Correlation :=
  mkCorrelation (sx_job_id x) (sx_operation_id x) (sx_attempt_id x) request_id thread_id turn_id None.

Definition append_turn_correlation (turn : TurnCorrelation) : Exec string :=
  coordinator (append_correlation (durable_correlation (tc_request_id turn) (Some (tc_thread_id turn)) (Some (tc_turn_id turn)))).

Definition append_checkpoint_turn_correlation (c : StageCheckpoint) : Exec string :=
  match sx_checkpoint_correlation x with
  | None => fail (TerminalFailure [Lit "checkpoint has no exact turn correlation"])
  | Some source =>
      if decide (co_thread_id (dc_correlation source) = Some (sc_active_thread_id c) ∧
                 co_turn_id (dc_correlation source) = Some (sc_turn_id c)) then
        coordinator (append_correlation (durable_correlation (co_request_id (dc_correlation source))
                       (Some (sc_active_thread_id c)) (Some (sc_turn_id c))))
      else fail (TerminalFailure [Lit "checkpoint correlation does not match its Codex turn"])
  end.

Definition persisted_turn_completed (c : StageCheckpoint) : Exec bool :=
  status ← retryable_text (persisted_turn_status (sc_active_thread_id c) (sc_turn_id c));
  done (bool_decide (status = Some TurnStatusCompleted)).

(** ** Events *)

Definition turn_payload (operation : OperationKind) (role : StageTurnRole) (cycle : Z) (message : option string) : Value :=
  object_of [("stage", Some (Str (as_wire_name operation))); ("role", Some (Str (role_name role)));
             ("reviewCycle", Some (ser_u64 cycle)); ("message", Str <$> message)].

Definition emit_review_cycle_completed (c : StageCheckpoint) : Exec unit :=
  coordinator (emit_event (Some (sc_active_thread_id c, sc_turn_id c)) "review_cycle.turn_completed"
                 (turn_payload (sc_operation c) (sc_turn_role c) (sc_review_cycle c) None)).

(** The error text of a failure that is reported as an event. *)
Definition emit_stage_error (c : StageCheckpoint) (message : string) : Exec unit :=
  coordinator (emit_event (Some (sc_active_thread_id c, sc_turn_id c)) "stage.error"
                 (turn_payload (sc_operation c) (sc_turn_role c) (sc_review_cycle c) (Some message))).

(** ** One turn *)

Definition start_turn (operation : OperationKind) (role : StageTurnRole) (cycle : Z) (b : FactoryStateBaselines) :
    Exec TurnCorrelation :=
  let text := stage_prompt (sx_task x) operation role cycle in
  started ←
    match role with
    | TurnRoleReview =>
        match bs_expected_review_parent_turn_id b with
        | None => fail (TerminalFailure [Lit "review turn has no exact parent turn baseline"])
        | Some parent_turn_id => attempt (start_review text parent_turn_id (sx_parent_thread_id x))
        end
    | _ => attempt (start_text_turn text (sandbox_policy operation) (turn_stage operation))
    end;
  match started with
  | Ok turn => done turn
  | Err message =>
      _ ← coordinator (emit_event None "stage.error" (turn_payload operation role cycle (Some message)));
      fail (RetryableFailure [Display message])
  end.

Definition write_stage_checkpoint (c : StageCheckpoint) (correlation_id : string) : Exec unit :=
  durable ← proc_lift (encode_checkpoint c (sx_workspace x) (Some correlation_id));
  coordinator (write_checkpoint durable).

(** Waiting for the turn, with the event of a failure. *)
Definition await_turn (turn : TurnCorrelation) (operation : OperationKind) (role : StageTurnRole) (cycle : Z) : Exec unit :=
  waited ← attempt wait_for_completion;
  match waited with
  | Ok _ => done tt
  | Err WaitLeaseLost => fail (CoordinatorFailure (AttemptLeaseUnavailable (sx_attempt_id x)))
  | Err (WaitFailed message) =>
      cancelled ← observe is_cancelled;
      if cancelled : bool then fail CancelledFailure
      else
        _ ← coordinator (emit_event (Some (tc_thread_id turn, tc_turn_id turn)) "stage.error"
                           (turn_payload operation role cycle (Some message)));
        fail (RetryableFailure [Display message])
  end.

(** The turn itself: started, correlated, recorded as awaited, awaited, recorded
    as completed. *)
Definition execute_turn (operation : OperationKind) (role : StageTurnRole) (cycle : Z) (b : FactoryStateBaselines) :
    Exec (StageCheckpoint * string) :=
  turn ← start_turn operation role cycle b;
  correlation_id ← append_turn_correlation turn;
  l ← proc_lift (terminal_on_error (new_lineage (sx_parent_thread_id x) (tc_thread_id turn) (tc_turn_id turn)));
  awaiting ← proc_lift (terminal_on_error (awaiting_turn operation l role cycle b));
  _ ← write_stage_checkpoint awaiting correlation_id;
  _ ← await_turn turn operation role cycle;
  completed ← proc_lift (terminal_on_error (turn_completed operation l role cycle b));
  _ ← write_stage_checkpoint completed correlation_id;
  done (completed, correlation_id).

Definition WORKTREE_MODIFIED : string := "detached review modified its managed worktree; changes were restored".

(** After a review turn the worktree is put back as it was; a review that
    changed it does not count. *)
Definition finish_review (snapshot : snapshot_type) (operation : OperationKind) (role : StageTurnRole) (cycle : Z)
    (executed : result ExecutionFailure (StageCheckpoint * string)) : Exec (StageCheckpoint * string) :=
  changed ← retryable_coordinator (restore_review_snapshot snapshot);
  if changed : bool then
    _ ← rollback_detached_review;
    _ ← retryable_coordinator acknowledge_review_mutation;
    match executed with
    | Ok (c, _) =>
        _ ← coordinator (emit_event (Some (sc_active_thread_id c, sc_turn_id c)) "stage.error"
                           (turn_payload operation role cycle (Some WORKTREE_MODIFIED)));
        fail (RetryableFailure [Display WORKTREE_MODIFIED])
    | Err e => fail e
    end
  else
    match executed with
    | Ok turn => done turn
    | Err e => _ ← rollback_detached_review; fail e
    end.

Definition run_turn (operation : OperationKind) (role : StageTurnRole) (cycle : Z) (b : FactoryStateBaselines) :
    Exec (StageCheckpoint * string) :=
  cancelled ← observe is_cancelled;
  if cancelled : bool then fail CancelledFailure
  else
    _ ← coordinator (emit_event None
          (if decide (operation = KindRemediate) then "review_cycle.turn_started" else "stage.started")
          (turn_payload operation role cycle None));
    if decide (role = TurnRoleReview) then
      snapshot ← prepare_detached_review;
      executed ← attempt (execute_turn operation role cycle b);
      finish_review snapshot operation role cycle executed
    else execute_turn operation role cycle b.

(** ** A single-turn stage *)

(** The end of a stage whose state has been accepted. *)
Definition accept_stage (operation : OperationKind) (c : StageCheckpoint) (s : FactoryState) (correlation_id : option string) :
    Exec CompletedOperation :=
  _ ← when (bool_decide (sc_turn_role c = TurnRoleReview)) commit_detached_review;
  _ ← (if decide (operation = KindPlan) then
         pristine ← attempt validate_pristine;
         match pristine with
         | Ok _ => done tt
         | Err e =>
             let message := "plan modified its managed worktree: " +:+ coordinator_text e in
             _ ← emit_stage_error c message;
             fail (PlanValidationFailure [Display message])
         end
       else done tt);
  durable ← proc_lift (final_checkpoint c (sx_workspace x) correlation_id);
  done (complete_stage c s durable).

(** Rolls back what a review turn stored. *)
Definition discard_review (c : StageCheckpoint) : Exec unit :=
  if decide (sc_turn_role c = TurnRoleReview) then _ ← rollback_detached_review; done tt else done tt.

(** A turn recorded by an earlier attempt: completed from what it left, refused
    for good, or to be run again. *)
Definition promote_recorded (operation : OperationKind) (c : StageCheckpoint) (correlation_id : option string) :
    Exec (option CompletedOperation) :=
  may_promote ← (if decide (sc_phase c = PhaseAwaitingTurn) then persisted_turn_completed c else done true);
  if may_promote : bool then
    s ← load_state;
    match validate_checkpoint_state s c with
    | Ok _ => completed ← accept_stage operation c s correlation_id; done (Some completed)
    | Err error =>
        if decide (sc_phase c = PhaseCompleted) then
          _ ← discard_review c;
          fail (TerminalFailure (Lit "completed stage state is no longer valid: " :: error))
        else done None
    end
  else done None.

(** The role, cycle and baselines of the turn to run. *)
Definition next_turn (operation : OperationKind) (resume : ResumePoint) :
    Exec (StageTurnRole * Z * FactoryStateBaselines) :=
  match resume_current resume with
  | Some (c, _) =>
      done (sc_turn_role c, sc_review_cycle c,
            if decide (operation = KindPlan) then mkFactoryStateBaselines 0 None None else checkpoint_baselines c)
  | None =>
      s ← load_state;
      if decide (operation = KindReview) then
        match preceding_turn_id resume with
        | None => fail (TerminalFailure [Lit "review stage has no completed execute turn to review"])
        | Some parent_turn_id =>
            match baseline_capture s (sx_parent_thread_id x) parent_turn_id with
            | Err e => fail (TerminalFailure (validation_text e))
            | Ok baseline => done (TurnRoleReview, 0, review_baselines s baseline)
            end
        end
      else done (TurnRoleStage, 0, mkFactoryStateBaselines (fs_revision s) None None)
  end.

Definition prepare_rerun (operation : OperationKind) (resume : ResumePoint) : Exec unit :=
  if decide (operation = KindPlan) then retryable_message restore_plan_baseline
  else match resume_current resume with
       | Some (c, _) => discard_review c
       | None => done tt
       end.

(** The text of a message, for an event. *)
Context (message_text : Message → string).

Definition run_single_stage (operation : OperationKind) (resume : ResumePoint) : Exec CompletedOperation :=
  promoted ← (match resume_current resume with
              | Some (c, correlation_id) => promote_recorded operation c correlation_id
              | None => done None
              end);
  match promoted with
  | Some completed => done completed
  | None =>
      turn ← next_turn operation resume;
      let '(role, cycle, baselines) := turn in
      _ ← prepare_rerun operation resume;
      ran ← run_turn operation role cycle baselines;
      let '(c, correlation_id) := ran in
      s ← load_state;
      match validate_checkpoint_state s c with
      | Err error =>
          _ ← discard_review c;
          _ ← emit_stage_error c (message_text error);
          if decide (operation = KindPlan) then
            fail (PlanValidationFailure (Lit "plan produced execution state instead of a pure decomposition: " :: error))
          else fail (RetryableFailure error)
      | Ok _ => accept_stage operation c s (Some correlation_id)
      end
  end.

(** ** The remediation loop *)

Inductive ReviewLoopStep : Type :=
| RunStep (role : StageTurnRole) (cycle : Z) (baselines : FactoryStateBaselines)
| EvaluateStep (checkpoint : StageCheckpoint) (correlation_id : option string) (may_rerun : bool).

Definition rerun (c : StageCheckpoint) : ReviewLoopStep :=
  RunStep (sc_turn_role c) (sc_review_cycle c) (checkpoint_baselines c).

(** The remediation stage is over. *)
Definition finish_remediation (c : StageCheckpoint) (s : FactoryState) (correlation_id : option string) :
    Exec (CompletedOperation + ReviewLoopStep) :=
  durable ← proc_lift (final_checkpoint c (sx_workspace x) correlation_id);
  done (inl (complete_stage c s durable)).

(** What follows a turn whose state was accepted. *)
Definition after_turn (c : StageCheckpoint) (s : FactoryState) (correlation_id : option string) :
    Exec (CompletedOperation + ReviewLoopStep) :=
  _ ← when (bool_decide (sc_turn_role c = TurnRoleReview)) commit_detached_review;
  match fs_review s with
  | None => fail (RetryableFailure [Lit "Factory state has no review"])
  | Some review =>
      match sc_turn_role c with
      | TurnRoleRemediation =>
          if decide (rr_verdict review = Approve) then finish_remediation c s correlation_id
          else
            _ ← emit_review_cycle_completed c;
            match baseline_capture s (sx_parent_thread_id x) (sc_turn_id c) with
            | Err e => fail (TerminalFailure (validation_text e))
            | Ok baseline => done (inr (RunStep TurnRoleReview (sc_review_cycle c) (review_baselines s baseline)))
            end
      | TurnRoleReview =>
          if decide (rr_verdict review = Approve) then finish_remediation c s correlation_id
          else
            _ ← emit_review_cycle_completed c;
            if sx_max_review_cycles x <=? sc_review_cycle c then
              fail (TerminalFailure [Lit "review still requires changes after "; DisplayZ (sx_max_review_cycles x);
                                     Lit " remediation cycles"])
            else done (inr (RunStep TurnRoleRemediation (sc_review_cycle c + 1)
                              (mkFactoryStateBaselines (fs_revision s) None None)))
      | TurnRoleStage => fail (TerminalFailure [Lit "remediation checkpoint cannot use the stage turn role"])
      end
  end.

(** The turn of an evaluated checkpoint is known to have ended. *)
Definition turn_ended (c : StageCheckpoint) : Exec bool :=
  if decide (sc_phase c = PhaseAwaitingTurn) then persisted_turn_completed c else done true.

Definition loop_step (step : ReviewLoopStep) : Exec (CompletedOperation + ReviewLoopStep) :=
  cancelled ← observe is_cancelled;
  if cancelled : bool then fail CancelledFailure
  else
    match step with
    | RunStep role cycle baselines =>
        ran ← run_turn KindRemediate role cycle baselines;
        let '(c, correlation_id) := ran in
        done (inr (EvaluateStep c (Some correlation_id) false))
    | EvaluateStep c correlation_id may_rerun =>
        ended ← turn_ended c;
        if ended : bool then
          s ← load_state;
          match validate_checkpoint_state s c with
          | Ok _ => after_turn c s correlation_id
          | Err error =>
              _ ← discard_review c;
              if may_rerun then done (inr (rerun c))
              else if decide (sc_phase c = PhaseCompleted) then
                fail (TerminalFailure (Lit "completed remediation state is no longer valid: " :: error))
              else fail (RetryableFailure error)
          end
        else
          _ ← discard_review c;
          done (inr (rerun c))
    end.

(** The first step, or a remediation that an approved review makes empty. *)
Definition first_step (resume : ResumePoint) : Exec (CompletedOperation + ReviewLoopStep) :=
  match resume_current resume with
  | Some (c, correlation_id) =>
      done (inr (EvaluateStep c correlation_id (negb (bool_decide (sc_phase c = PhaseCompleted)))))
  | None =>
      s ← load_state;
      if is_ok (validate_stage KindRemediate s None)
         && bool_decide (rr_verdict <$> fs_review s = Some Approve) then
        match preceding_checkpoint resume with
        | None => fail (TerminalFailure [Lit "approved remediation has no completed review checkpoint"])
        | Some review =>
            c ← proc_lift (terminal_on_error
                  (completed KindRemediate (lineage review) TurnRoleReview 1 (checkpoint_baselines review)));
            _ ← proc_lift (match validate_checkpoint_state s c with
                           | Ok _ => Ok tt
                           | Err m => Err (TerminalFailure m)
                           end);
            correlation_id ← append_checkpoint_turn_correlation review;
            durable ← proc_lift (encode_checkpoint c (sx_workspace x) (Some correlation_id));
            done (inl (complete_stage c s durable))
        end
      else done (inr (RunStep TurnRoleRemediation 1 (mkFactoryStateBaselines (fs_revision s) None None)))
  end.

(** The loop; [None] only when the fuel is used up. *)
Fixpoint remediation_loop (fuel : nat) (step : ReviewLoopStep) : W → option (result ExecutionFailure CompletedOperation * W) := λ w,
  match fuel with
  | O => None
  | S n =>
      match loop_step step w with
      | (Err e, w') => Some (Err e, w')
      | (Ok (inl completed), w') => Some (Ok completed, w')
      | (Ok (inr next), w') => remediation_loop n next w'
      end
  end.

Definition run_remediation_loop (fuel : nat) (resume : ResumePoint) : W → option (result ExecutionFailure CompletedOperation * W) := λ w,
  match first_step resume w with
  | (Err e, w') => Some (Err e, w')
  | (Ok (inl completed), w') => Some (Ok completed, w')
  | (Ok (inr step), w') => remediation_loop fuel step w'
  end.
End executor.
