(* ===== verification/Keeps.v ===== *)
(** * Reasoning about procedures

    Whatever a procedure returns, its world before and after are related; with a
    preorder this follows from the calls it makes.  A postcondition speaks of the
    value and the world a procedure ends with, or of the world it fails in. *)

From S2P Require Import Prelude Executor.
From stdpp Require Import base relations tactics.

(** A sequence fails at its first step, or goes on. *)
Lemma bind_cases {W E A B : Type} (p : proc W E A) (k : A → proc W E B) w r w' :
  (p ≫= k) w = (r, w') → (∃ e, r = Err e ∧ p w = (Err e, w')) ∨ ∃ a w1, p w = (Ok a, w1) ∧ k a w1 = (r, w').
Proof. unfold mbind, proc_bind. destruct (p w) as [[a|e] w1]; intros ?; simplify_eq; eauto. Qed.

Definition keeps_to {W E A : Type} (R : relation W) (p : proc W E A) : Prop := ∀ w r w', p w = (r, w') → R w w'.

Create HintDb within.

Section within.
Context {W : Type} (R : relation W) `{!PreOrder R}.

Lemma within_bind {E A B : Type} (m : proc W E A) (k : A → proc W E B) :
  keeps_to R m → (∀ a, keeps_to R (k a)) → keeps_to R (m ≫= k).
Proof.
  intros Hm Hk w r w'. unfold mbind, proc_bind. destruct (m w) as [[a|e] w1] eqn:E1.
  - intros Hr. etrans; [by eapply Hm|by eapply Hk].
  - intros ?; simplify_eq. by eapply Hm.
Qed.

Lemma within_done {E A : Type} (a : A) : keeps_to R (done a : proc W E A).
Proof. intros w r w' [= _ <-]. done. Qed.

Lemma within_fail {E A : Type} (e : E) : keeps_to R (fail e : proc W E A).
Proof. intros w r w' [= _ <-]. done. Qed.

Lemma within_lift {E A : Type} (x : result E A) : keeps_to R (proc_lift x : proc W E A).
Proof. intros w r w' [= _ <-]. done. Qed.

Lemma within_map_err {E F A : Type} (f : E → F) (p : proc W E A) : keeps_to R p → keeps_to R (map_err f p).
Proof.
  intros Hp w r w'. unfold map_err. destruct (p w) as [[a|e] w1] eqn:E1; intros ?; simplify_eq; by eapply Hp.
Qed.

Lemma within_attempt {E F A : Type} (p : proc W E A) : keeps_to R p → keeps_to R (attempt p : proc W F _).
Proof. intros Hp w r w'. unfold attempt. destruct (p w) as [q w1] eqn:E1; intros ?; simplify_eq; by eapply Hp. Qed.

Lemma within_ignore {E F A : Type} (p : proc W E A) : keeps_to R p → keeps_to R (ignore p : proc W F unit).
Proof. intros Hp w r w'. unfold ignore. destruct (p w) as [q w1] eqn:E1; intros ?; simplify_eq; by eapply Hp. Qed.
End within.

#[export] Hint Resolve within_map_err within_attempt within_ignore : within.

(** Follows the structure of a procedure down to the calls it makes. *)
Ltac stay_within :=
  repeat first
    [ eassumption
    | solve [eauto with within]
    | apply within_bind; [try typeclasses eauto| |intros]
    | apply within_done; typeclasses eauto
    | apply within_fail; typeclasses eauto
    | apply within_lift; typeclasses eauto
    | apply within_map_err
    | apply within_attempt
    | apply within_ignore
    | match goal with |- ∀ _, _ => intro end
    | match goal with |- keeps_to _ (match ?x with _ => _ end) => destruct x end
    | match goal with |- keeps_to _ (if ?x then _ else _) => destruct x end ].

(** ** Postconditions *)

(** From [w], the procedure ends in [Q] with a value or in [F] with an error. *)
Definition ends {W E A : Type} (p : proc W E A) (w : W) (Q : A → W → Prop) (F : W → Prop) : Prop :=
  match p w with (Ok a, w') => Q a w' | (Err _, w') => F w' end.

Section rules.
Context {W : Type}.
Implicit Types (F : W → Prop) (w : W).

Lemma ends_run {E A : Type} (p : proc W E A) w Q F r w' :
  ends p w Q F → p w = (r, w') → match r with Ok a => Q a w' | Err _ => F w' end.
Proof. unfold ends. intros Hp Hr. by rewrite Hr in Hp. Qed.

Lemma ends_intro {E A : Type} (p : proc W E A) w Q F :
  (∀ r w', p w = (r, w') → match r with Ok a => Q a w' | Err _ => F w' end) → ends p w Q F.
Proof. unfold ends. intros Hp. destruct (p w) as [[a|e] w'] eqn:Eq; by specialize (Hp _ _ eq_refl). Qed.

Lemma ends_mono {E A : Type} (p : proc W E A) w Q Q' F F' :
  ends p w Q F → (∀ a w', Q a w' → Q' a w') → (∀ w', F w' → F' w') → ends p w Q' F'.
Proof. unfold ends. destruct (p w) as [[a|e] w']; auto. Qed.

Lemma ends_bind {E A B : Type} (p : proc W E A) (k : A → proc W E B) w Q F :
  ends p w (λ a w1, ends (k a) w1 Q F) F → ends (p ≫= k) w Q F.
Proof. unfold ends, mbind, proc_bind. by destruct (p w) as [[a|e] w1]. Qed.

Lemma ends_done {E A : Type} (a : A) w Q F : Q a w → ends (done a : proc W E A) w Q F.
Proof. done. Qed.

Lemma ends_fail {E A : Type} (e : E) w (Q : A → W → Prop) F : F w → ends (fail e : proc W E A) w Q F.
Proof. done. Qed.

Lemma ends_lift {E A : Type} (r : result E A) w Q F :
  match r with Ok a => Q a w | Err _ => F w end → ends (proc_lift r : proc W E A) w Q F.
Proof. by destruct r. Qed.

Lemma ends_observe {E A : Type} (f : W → A) w Q F : Q (f w) w → ends (observe f : proc W E A) w Q F.
Proof. done. Qed.

Lemma ends_map_err {E E' A : Type} (f : E → E') (p : proc W E A) w Q F : ends p w Q F → ends (map_err f p) w Q F.
Proof. unfold ends, map_err. by destruct (p w) as [[a|e] w1]. Qed.

Lemma ends_attempt {E E' A : Type} (p : proc W E A) w Q F :
  ends p w (λ a w', Q (Ok a) w') (λ w', ∀ e, Q (Err e) w') → ends (attempt p : proc W E' _) w Q F.
Proof. unfold ends, attempt. destruct (p w) as [[a|e] w1]; auto. Qed.

(** What every outcome satisfies. *)
Lemma ends_always {E A : Type} (R : relation W) (p : proc W E A) w :
  keeps_to R p → ends p w (λ _ w', R w w') (R w).
Proof. intros Hp. apply ends_intro. intros r w' Hr. apply Hp in Hr. by destruct r. Qed.
End rules.

(** A step whose behaviour is a lemma; its error case is left with the goals. *)
Ltac ends_step lem := apply ends_bind; eapply ends_mono; [eapply lem|cbn beta|cbn beta].
