(* ===== verification/EnvironmentWork.v ===== *)
(** * Environments of a worker

    The execution-environment part of [runtime/src/executor/mod.rs]: an operation
    provisions the environment of its job before it runs, a cancelled job's
    environment is released, and a worker reconciles whatever releases an earlier
    worker left pending.  The store calls are those of [Environments]; the
    provisioner (Docker, Kubernetes, local processes) is an interface whose calls
    may fail. *)

From S2P Require Import Prelude Domain Rows Store Leases Environments Runner Checkpoint Executor.
From Stdlib Require Import ZArith Ascii String.
From stdpp Require Import base gmap strings list option pretty.

#[local] Open Scope string_scope.
#[local] Open Scope Z_scope.
#[local] Open Scope list_scope.

(** [ProvisionedExecutionEnvironment]. *)
Record Provisioned : Type := mkProvisioned {
  pv_backend_ref : string;
  pv_url : string;
}.

(** The store as a worker reaches it: a call runs at some time and may draw an
    identifier.  [trait ExecutionEnvironmentProvisioner] follows. *)
Class EnvironmentHost (W : Type) : Type := {
  store_call : ∀ {A : Type}, (Z → string → Proc A) → proc W CoordinatorError A;
  provisioner_backend : string;
  durable_locator : ExecutionEnvironmentRecord → result string (option string);
  provision : ExecutionEnvironmentRecord → string → string → proc W string Provisioned;
  deprovision : ExecutionEnvironmentRecord → proc W string unit;
}.

Section environments.
Context {W : Type} `{EnvironmentHost W}.

(** ** Release *)

Definition release_execution_environment_backend (environment : ExecutionEnvironmentRecord) :
    proc W CoordinatorError unit :=
  if decide (ee_backend environment = provisioner_backend) then
    map_err (λ error, InvalidInput
        [Lit "release "; Display provisioner_backend; Lit " execution environment ";
         Display (ee_environment_id environment); Lit " generation "; DisplayZ (ee_generation environment);
         Lit ": "; Display error])
      (deprovision environment)
  else fail (InvalidInput
    [Lit "execution environment "; Display (ee_environment_id environment); Lit " uses backend ";
     Debug (ee_backend environment); Lit ", but this worker serves "; Debug provisioner_backend]).

(** An environment that moved to another generation needs no release. *)
Definition release_execution_environment (environment : ExecutionEnvironmentRecord) : proc W CoordinatorError unit :=
  _ ← release_execution_environment_backend environment;
  marked ← attempt (store_call (λ now _,
    mark_execution_environment_released now (ee_job_id environment) (ee_generation environment)));
  match marked with
  | Ok _ => done tt
  | Err (ExecutionEnvironmentGenerationStale _ _) => done tt
  | Err error => fail error
  end.

(** Every listed environment is tried; the failures are counted. *)
Fixpoint release_all (environments : list ExecutionEnvironmentRecord) (failures : Z) : proc W CoordinatorError Z :=
  match environments with
  | [] => done failures
  | environment :: rest =>
      released ← attempt (release_execution_environment environment);
      release_all rest (if is_ok released then failures else failures + 1)
  end.

Definition reconcile_releasing_environments : proc W CoordinatorError unit :=
  environments ← store_call (λ _ _, list_releasing_execution_environments provisioner_backend);
  failures ← release_all environments 0;
  if failures =? 0 then done tt
  else fail (InvalidInput [DisplayZ failures; Lit " execution environment release(s) remain pending"]).

Definition release_cancelled_environment (fence : AttemptFence) : proc W CoordinatorError unit :=
  found ← store_call (λ now _, request_cancelling_execution_environment_release now fence);
  match found with
  | None => done tt
  | Some environment => release_execution_environment environment
  end.

(** ** Provisioning *)

(** [require_text] of the task. *)
Definition required_text (fld value : string) : result string unit :=
  guard_err (is_blank value) (fld +:+ " must not be empty").

Abbreviation Work := (proc W ExecutionFailure).

(** Records why the environment could not be used, and fails. *)
Definition provisioning_failed {A : Type} (fence : AttemptFence) (environment : ExecutionEnvironmentRecord)
    (message : string) : Work A :=
  _ ← map_err CoordinatorFailure (store_call (λ now _,
        mark_execution_environment_failed now fence (ee_generation environment) message));
  fail (RetryableFailure [Display message]).

(** The address of the backend's object is stored before the object exists. *)
Definition reserve_locator (fence : AttemptFence) (environment : ExecutionEnvironmentRecord) :
    Work ExecutionEnvironmentRecord :=
  match durable_locator environment with
  | Err error => fail (TerminalFailure [Lit "derive "; Display provisioner_backend;
                                        Lit " execution environment locator: "; Display error])
  | Ok None => done environment
  | Ok (Some locator) =>
      map_err CoordinatorFailure (store_call (λ now _,
        reserve_execution_environment_locator now fence (ee_generation environment) locator))
  end.

Definition SelectedExecutionEnvironment : Type := string * Provisioned.

Definition ensure_environment (fence : AttemptFence) (workspace_root : string)
    (repository_metadata_root : Result string) : Work SelectedExecutionEnvironment :=
  metadata_root ← map_err CoordinatorFailure (proc_lift repository_metadata_root);
  ensured ← map_err CoordinatorFailure (store_call (λ now new_id,
    ensure_execution_environment now new_id fence provisioner_backend));
  environment ← reserve_locator fence ensured;
  provisioned ← attempt (provision environment workspace_root metadata_root);
  match provisioned with
  | Err error => provisioning_failed fence environment
      ("provision " +:+ provisioner_backend +:+ " execution environment " +:+ ee_environment_id environment
       +:+ " generation " +:+ pretty (ee_generation environment) +:+ ": " +:+ error)
  | Ok p =>
      match (_ ← required_text "execution environment backend reference" (pv_backend_ref p);
             required_text "execution environment URL" (pv_url p)) with
      | Err message => provisioning_failed fence environment message
      | Ok _ =>
          ready ← map_err CoordinatorFailure (store_call (λ now _,
            mark_execution_environment_ready now fence (ee_generation environment) (pv_backend_ref p) (pv_url p)));
          done (ee_environment_id ready, p)
      end
  end.
End environments.
