(* ===== verification/Operation.v ===== *)
(** * Executing an operation

    [runtime/src/executor/mod.rs] and [task.rs]: what a worker does with a
    claimed operation.  It checks the job and its input, takes the workspace
    lock, provisions the environment, starts a Codex session on the thread the
    checkpoint names, runs the stage of [Executor] in it, shuts the session down
    and puts back what a failed plan or review left; the result becomes an
    outcome of the attempt runner. *)

From S2P Require Import Prelude Sequences Domain Store Leases Environments Attempts Jobs Runner Serde AgentState AgentTools.
From S2P Require Import Stages StateDocument StateBackend Checkpoint Executor EnvironmentWork ProviderTools.
From Stdlib Require Import ZArith Ascii String.
From stdpp Require Import base gmap strings option list pretty.

#[local] Open Scope string_scope.
#[local] Open Scope Z_scope.
#[local] Open Scope list_scope.

(** ** The input of a task *)

Record FactoryTaskInput : Type := mkFactoryTaskInput {
  ti_task : string;
  ti_execution_profile : option ExecutionProfile;
  ti_repository_id : option string;
  ti_developer_instructions : option string;
}.

#[export] Instance ExecutionProfile_eq_dec : EqDecision ExecutionProfile.
Proof. solve_decision. Defined.

Definition ser_profile (p : ExecutionProfile) : Value :=
  object_of [("provider", Some (Str (ep_provider p))); ("model", Some (Str (ep_model p)))].

Definition de_profile (v : Value) : option ExecutionProfile :=
  fs ← struct_fields ["provider"; "model"] v;
  match fs with
  | [f1; f2] => provider ← field f1; model ← field f2; Some (mkExecutionProfile provider model)
  | _ => None
  end.

#[export] Instance serde_profile : Serde ExecutionProfile := {| ser := ser_profile; de := de_profile |}.

Definition ser_task_input (i : FactoryTaskInput) : Value := object_of
  [("task", Some (Str (ti_task i))); ("executionProfile", Some (ser (ti_execution_profile i)));
   ("repositoryId", Some (ser (ti_repository_id i)));
   ("developerInstructions", Some (ser (ti_developer_instructions i)))].

Definition de_task_input (v : Value) : option FactoryTaskInput :=
  fs ← struct_fields ["task"; "executionProfile"; "repositoryId"; "developerInstructions"] v;
  match fs with
  | [f1; f2; f3; f4] =>
      task ← field f1; profile ← field_or None f2; repository_id ← field_or None f3;
      instructions ← field_or None f4;
      Some (mkFactoryTaskInput task profile repository_id instructions)
  | _ => None
  end.

#[export] Instance serde_task_input : Serde FactoryTaskInput := {| ser := ser_task_input; de := de_task_input |}.

Definition terminal_text {A : Type} (r : result string A) : result ExecutionFailure A :=
  match r with Ok a => Ok a | Err m => Err (TerminalFailure [Display m]) end.

Definition terminal_message {A : Type} (r : result Message A) : result ExecutionFailure A :=
  match r with Ok a => Ok a | Err m => Err (TerminalFailure m) end.

(** [require_optional_text]. *)
Definition optional_text (fld : string) (value : option string) : result ExecutionFailure unit :=
  match value with Some v => terminal_text (required_text fld v) | None => Ok tt end.

Definition check_profile (profile : ExecutionProfile) : result ExecutionFailure unit :=
  _ ← terminal_text (required_text "execution profile provider" (ep_provider profile));
  _ ← terminal_text (required_text "execution profile model" (ep_model profile));
  match provider_profile (ep_provider profile) with
  | Some _ => Ok tt
  | None => Err (TerminalFailure [Lit "execution profile provider "; Debug (ep_provider profile);
                                  Lit " is not a canonical Factory provider ID"])
  end.

Definition parse_task_input `{DecodeText} (value : Value) : result ExecutionFailure FactoryTaskInput :=
  input ← ok_or (de value) (TerminalFailure
            [Lit "invalid factory.task input: "; Display (decode_error "FactoryTaskInput" value)]);
  _ ← terminal_text (required_text "task" (ti_task input));
  _ ← match ti_execution_profile input with Some profile => check_profile profile | None => Ok tt end;
  _ ← optional_text "repository identity" (ti_repository_id input);
  _ ← optional_text "developer instructions" (ti_developer_instructions input);
  Ok input.

(** ** The shape of a job *)

Definition stage_matches (ordinal : nat) (actual : OperationRecord) : bool :=
  bool_decide (op_ordinal actual = Z.of_nat ordinal)
  && bool_decide (op_kind actual = as_wire_name (at_ordinal (Z.of_nat ordinal))).

Fixpoint stages_match (ordinal : nat) (operations : list OperationRecord) : bool :=
  match operations with
  | [] => true
  | actual :: rest => stage_matches ordinal actual && stages_match (S ordinal) rest
  end.

Definition check_shape (operations : list OperationRecord) : result ExecutionFailure unit :=
  let count := Z.of_nat (length operations) in
  let base := Z.of_nat (length ALL) in
  _ ← guard_err ((count <? base) || negb ((count - base) mod 3 =? 0))
        (TerminalFailure [Lit "factory.task must contain plan, execute, review, remediate, plus complete iterate, review, remediate continuation rounds"]);
  guard_err (negb (stages_match 0 operations))
    (TerminalFailure [Lit "factory.task operations must follow plan, execute, review, remediate, then iterate, review, remediate rounds"]).

(** ** The host of an operation *)

Inductive ParentThread : Type :=
| NewThread
| ResumeThread (thread_id : string).

(** The request that started or resumed a thread. *)
Record ThreadCorrelation : Type := mkThreadCorrelation {
  thc_request_id : string;
  thc_thread_id : string;
}.

(** What the worker sets of the configuration of a session. *)
Record SessionConfig : Type := mkSessionConfig {
  cfg_cwd : string;
  cfg_workspace_roots : list string;
  cfg_review_model : option string;
  cfg_model : option string;
  cfg_developer_instructions : option string;
  cfg_environment : string * string;
}.

(** The workspace lock and worktrees, the sessions, the worker's clock, and the
    results of the libraries that parse paths and URLs.  Waiting for the lock
    gives [None] when the cancellation came first; [url_parse] answers whether
    the URL cannot be a base. *)
Class OperationHost (W : Type) : Type := {
  operation_stages :: StageHost W;
  operation_environments :: EnvironmentHost W;
  execution_guard : Type;
  acquire_workspace_execution : string → proc W CoordinatorError execution_guard;
  acquire_unless_cancelled : string → proc W CoordinatorError (option execution_guard);
  release_guard : execution_guard → proc W CoordinatorError unit;
  recover_review_snapshot : proc W CoordinatorError bool;
  recreate_worktree : proc W CoordinatorError unit;
  repository_metadata_root : string → Result string;
  start_session : SessionConfig → string → FactoryTurnStage → ParentThread → proc W string ThreadCorrelation;
  shutdown_session : proc W string unit;
  worker_clock : W → Z;
  absolute_root : string → result string string;
  base_instructions : option string;
  remote_only : string → string → result string unit;
  url_parse : string → result string bool;
}.

Record ExecutorConfig : Type := mkExecutorConfig {
  ec_factoryd_base_url : string;
  ec_max_review_cycles : Z;
  ec_execution_profile : ExecutionProfile;
}.

Definition DEFAULT_MAX_REVIEW_CYCLES : Z := 5.

(** [with_max_review_cycles]; the two managers are read from the environment. *)
Definition with_max_review_cycles (base_url : string) (profile : ExecutionProfile) (max_review_cycles : Z)
    (workspaces artifacts : result string unit) : result string ExecutorConfig :=
  _ ← required_text "factoryd base URL" base_url;
  _ ← guard_err (max_review_cycles =? 0) "maximum review cycles must be positive";
  _ ← workspaces;
  _ ← artifacts;
  Ok (mkExecutorConfig base_url max_review_cycles profile).

(** ** Effects that may run out of fuel *)

Definition oproc (W E A : Type) : Type := W → option (result E A * W).

Section fuelled.
Context {W E : Type}.

Definition ototal {A : Type} (p : proc W E A) : oproc W E A := λ w, Some (p w).

#[export] Instance oproc_bind : MBind (oproc W E) := λ _ _ k m w,
  match m w with
  | Some (Ok a, w') => k a w'
  | Some (Err e, w') => Some (Err e, w')
  | None => None
  end.

Definition oattempt {F A : Type} (p : oproc W E A) : oproc W F (result E A) := λ w,
  match p w with Some (r, w') => Some (Ok r, w') | None => None end.
End fuelled.

Section operation.
Context {W : Type} `{OperationHost W} `{CoordinatorText} `{HashOrder} `{DecodeText}.
Context (message_text : Message → string) (config : ExecutorConfig) (context : OperationExecutionContext).

Abbreviation Exec := (proc W ExecutionFailure).

Definition operation_fence : AttemptFence := rl_fence (oec_lease context).

(** The stage of [Executor] for a thread of this operation. *)
Definition stage_context (parent_thread_id : string) (workspace : WorkspaceRecord) (task : string) : StageContext :=
  mkStageContext parent_thread_id (wr_root workspace, wr_revision workspace) task
    (job_id (oec_job context)) (op_operation_id (oec_operation context)) (af_attempt_id operation_fence)
    (rs_checkpoint_correlation (rl_selection (oec_lease context))) (ec_max_review_cycles config).

(** ** Checks *)

Definition operation_kind : result ExecutionFailure OperationKind :=
  match from_str (op_kind (oec_operation context)) with
  | Ok kind => Ok kind
  | Err e => Err (TerminalFailure (validation_text e))
  end.

Definition PROFILE_MISSING : string := "factory.task predates execution-profile pinning; rerun the task".

Definition validate_job_shape (operation : OperationKind) : Exec unit :=
  _ ← proc_lift (guard_err (negb (bool_decide (job_kind (oec_job context) = "factory.task")))
        (TerminalFailure [Lit "unsupported durable job kind "; Debug (job_kind (oec_job context))]));
  job ← coordinator (store_call (λ _ _, load_job (job_id (oec_job context))));
  _ ← proc_lift (check_shape (dj_operations job));
  _ ← proc_lift (guard_err (negb (bool_decide (at_ordinal (op_ordinal (oec_operation context)) = operation)))
        (TerminalFailure [Lit "claimed operation kind does not match its Factory stage ordinal"]));
  input ← proc_lift (parse_task_input (job_input (oec_job context)));
  match ti_execution_profile input with
  | None => fail (TerminalFailure [Lit PROFILE_MISSING])
  | Some profile =>
      if decide (profile = ec_execution_profile config) then done tt
      else fail (TerminalFailure
        [Lit "job requires provider "; Display (ep_provider profile); Lit " model "; Display (ep_model profile);
         Lit ", but this worker serves provider "; Display (ep_provider (ec_execution_profile config));
         Lit " model "; Display (ep_model (ec_execution_profile config))])
  end.

Definition start_args_for_workspace (workspace_root : string) (input : FactoryTaskInput)
    (environment : SelectedExecutionEnvironment) : result ExecutionFailure SessionConfig :=
  match absolute_root workspace_root with
  | Err e => Err (TerminalFailure [Lit "invalid workspace root: "; Display e])
  | Ok root =>
      match ti_execution_profile input with
      | None => Err (TerminalFailure [Lit PROFILE_MISSING])
      | Some profile =>
          match remote_only environment.1 (pv_url environment.2) with
          | Err e => Err (RetryableFailure
              [Lit "configure Codex execution environment "; Display environment.1; Lit ": "; Display e])
          | Ok _ => Ok (mkSessionConfig root [root] None (Some (ep_model profile))
              (match ti_developer_instructions input with
               | Some instructions => Some instructions
               | None => base_instructions
               end) (environment.1, pv_url environment.2))
          end
      end
  end.

(** [FactorydStateBackend::new]; the path is only given its final slash. *)
Definition factoryd_new (base_url : string) : result Message unit :=
  match url_parse base_url with
  | Err e => Err [Lit "invalid factoryd URL: "; Display e]
  | Ok cannot_be_a_base => guard_err cannot_be_a_base [Lit "factoryd URL must be a hierarchical URL"]
  end.

Definition open_backend : result ExecutionFailure unit :=
  _ ← terminal_message (FactoryStateFence_new (af_attempt_id operation_fence)
        (af_owner_instance_id operation_fence) (af_lease_epoch operation_fence));
  terminal_message (factoryd_new (ec_factoryd_base_url config)).

(** [FactoryRepositoryId::new]. *)
Definition repository_identity (value : string) : result string string :=
  if decide (trim value = EmptyString) then Err "Factory repository identity must not be empty"
  else Ok (trim value).

(** ** Recovery of worktrees *)

Definition prepare_plan_workspace (workspace : WorkspaceRecord) : Exec unit :=
  restored ← attempt restore_worktree;
  match restored with
  | Ok _ => done tt
  | Err (WorkspaceRebindRequired _ _) =>
      found ← coordinator (store_call (λ _ _, load_execution_environment (wr_job_id workspace)));
      _ ← (match found with
           | Some environment => coordinator (release_execution_environment_backend environment)
           | None => done tt
           end);
      coordinator recreate_worktree
  | Err e => fail (CoordinatorFailure e)
  end.

(** Both halves are tried before either failure is reported. *)
Definition cleanup_detached_review (x : StageContext) : Exec unit :=
  recovered ← attempt (map_err (λ e, RetryableFailure
                 [Lit "restore detached-review workspace: "; Display (coordinator_text e)]) recover_review_snapshot);
  rolled_back ← attempt (rollback_detached_review x);
  match recovered, rolled_back with
  | Ok recovered, Ok _ => when recovered (retryable_coordinator acknowledge_review_mutation)
  | Err e, _ | _, Err e => fail e
  end.

(** ** One session *)

Definition append_thread_correlation (x : StageContext) (thread : ThreadCorrelation) : Exec string :=
  coordinator (append_correlation (durable_correlation x (thc_request_id thread) (Some (thc_thread_id thread)) None)).

Definition append_resumed_turn_correlation (x : StageContext) (resume : ResumePoint) : Exec (option string) :=
  match resume_current resume with
  | None => done None
  | Some (c, _) => correlation_id ← append_checkpoint_turn_correlation x c; done (Some correlation_id)
  end.

Definition reviews (operation : OperationKind) : bool :=
  bool_decide (operation = KindReview ∨ operation = KindRemediate).

(** A review that the last attempt was interrupted in is undone. *)
Definition recover_interrupted_review (x : StageContext) : Exec unit :=
  recovered ← map_err (λ e, RetryableFailure
    [Lit "recover detached-review workspace snapshot: "; Display (coordinator_text e)]) recover_review_snapshot;
  if recovered : bool then
    _ ← rollback_detached_review x;
    retryable_coordinator acknowledge_review_mutation
  else done tt.

Definition run_stage (fuel : nat) (x : StageContext) (operation : OperationKind) (resume : ResumePoint) :
    oproc W ExecutionFailure CompletedOperation :=
  match operation with
  | KindRemediate => run_remediation_loop x fuel resume
  | _ => ototal (run_single_stage x message_text operation resume)
  end.

Definition run_session (fuel : nat) (x : StageContext) (thread : ThreadCorrelation) (operation : OperationKind)
    (resume : ResumePoint) : oproc W ExecutionFailure CompletedOperation :=
  _ ← ototal (append_thread_correlation x thread);
  correlation ← ototal (append_resumed_turn_correlation x resume);
  let resume := match correlation with
                | Some correlation_id => set_current_correlation correlation_id resume
                | None => resume
                end in
  _ ← ototal (when (reviews operation) (recover_interrupted_review x));
  run_stage fuel x operation resume.

(** The result once the session is shut down. *)
Definition session_result (r : result ExecutionFailure CompletedOperation) (shutdown : result string unit)
    (cancelled : bool) : result ExecutionFailure CompletedOperation :=
  if cancelled then Err CancelledFailure
  else match r, shutdown with
       | Ok completed, Ok _ => Ok completed
       | Err (PlanValidationFailure m), Ok _ => Err (RetryableFailure m)
       | Err e, _ => Err e
       | Ok _, Err e => Err (RetryableFailure [Lit "Codex shutdown failed after stage completion: "; Display e])
       end.

Definition is_cancelled_failure (r : result ExecutionFailure CompletedOperation) : bool :=
  match r with Err CancelledFailure => true | _ => false end.

(** What a failed stage left is put back; a failure to do so is reported unless
    the operation was cancelled. *)
Definition undo_failed (x : StageContext) (operation : OperationKind) (r : result ExecutionFailure CompletedOperation) :
    Exec CompletedOperation :=
  if bool_decide (operation = KindPlan) && negb (is_ok r) then
    cleanup ← attempt (restore_plan_baseline x);
    match cleanup with
    | Err m => if is_cancelled_failure r then proc_lift r
               else fail (RetryableFailure (Lit "Plan failed and rollback failed: " :: m))
    | Ok _ => proc_lift r
    end
  else if reviews operation && negb (is_ok r) then
    cleanup ← attempt (cleanup_detached_review x);
    match cleanup with
    | Err e => if is_cancelled_failure r then proc_lift r else fail e
    | Ok _ => proc_lift r
    end
  else proc_lift r.

Definition parent_thread (resume : ResumePoint) : ParentThread :=
  match resume with
  | ResumeAtStart => NewThread
  | ResumePrevious c | ResumeCurrent c _ => ResumeThread (sc_parent_execution_thread_id c)
  end.

(** What is needed before a session can start. *)
Definition session_inputs (operation : OperationKind) (input : FactoryTaskInput) (workspace : WorkspaceRecord) :
    result ExecutionFailure (ResumePoint * string) :=
  resume ← resume_decode (rs_resume (rl_selection (oec_lease context))) (op_ordinal (oec_operation context)) operation
             (wr_root workspace) (wr_revision workspace);
  _ ← open_backend;
  _ ← (match ti_repository_id input with
       | Some id => guard_err (negb (bool_decide (id = wr_repository_id workspace)))
           (TerminalFailure [Lit "job repository identity "; Debug id;
                             Lit " does not match its managed workspace identity "; Debug (wr_repository_id workspace)])
       | None => Ok tt
       end);
  repository_id ← terminal_text (repository_identity (wr_repository_id workspace));
  Ok (resume, repository_id).

Definition execute_with_workspace_guard (fuel : nat) (operation : OperationKind) (input : FactoryTaskInput)
    (workspace : WorkspaceRecord) (args : SessionConfig) : oproc W ExecutionFailure CompletedOperation :=
  inputs ← ototal (proc_lift (session_inputs operation input workspace));
  let '(resume, repository_id) := inputs in
  thread ← ototal (map_err (λ e, RetryableFailure [Lit "start native Codex runtime: "; Display e])
                    (start_session args repository_id (turn_stage operation) (parent_thread resume)));
  let x := stage_context (thc_thread_id thread) workspace (ti_task input) in
  r ← oattempt (run_session fuel x thread operation resume);
  shutdown ← ototal (attempt shutdown_session);
  cancelled ← ototal (observe is_cancelled);
  ototal (undo_failed x operation (session_result r shutdown cancelled)).

(** ** The operation *)

(** The part that runs under the workspace lock. *)
Definition guarded_operation (fuel : nat) (operation : OperationKind) (input : FactoryTaskInput)
    (workspace : WorkspaceRecord) : oproc W ExecutionFailure CompletedOperation :=
  _ ← ototal (if decide (operation = KindPlan) then prepare_plan_workspace workspace else done tt);
  environment ← ototal (ensure_environment operation_fence (wr_root workspace)
                         (repository_metadata_root (wr_repository_id workspace)));
  args ← ototal (proc_lift (start_args_for_workspace (wr_root workspace) input environment));
  execute_with_workspace_guard fuel operation input workspace args.

(** The checks before the lock is taken. *)
Definition operation_inputs : Exec (OperationKind * FactoryTaskInput * WorkspaceRecord) :=
  cancelled ← observe is_cancelled;
  if cancelled : bool then fail CancelledFailure
  else
    operation ← proc_lift operation_kind;
    _ ← validate_job_shape operation;
    input ← proc_lift (parse_task_input (job_input (oec_job context)));
    match oec_workspace context with
    | None => fail (TerminalFailure [Lit "durable job has no managed worktree"])
    | Some workspace =>
        _ ← proc_lift (guard_err (match wr_state workspace with WsActive => false | WsRemoved => true end)
              (TerminalFailure [Lit "durable job worktree is not active"]));
        _ ← proc_lift (terminal_text (required_text "workspace root" (wr_root workspace)));
        _ ← proc_lift (terminal_text (required_text "workspace revision" (wr_revision workspace)));
        done (operation, input, workspace)
    end.

Definition execute_operation (fuel : nat) : oproc W ExecutionFailure CompletedOperation :=
  inputs ← ototal operation_inputs;
  let '(operation, input, workspace) := inputs in
  acquired ← ototal (coordinator (acquire_unless_cancelled (wr_job_id workspace)));
  match acquired with
  | None => ototal (fail CancelledFailure)
  | Some guard =>
      r ← oattempt (guarded_operation fuel operation input workspace);
      release ← ototal (attempt (release_guard guard));
      ototal (proc_lift
        match r, release with
        | Ok completed, Ok _ => Ok completed
        | Err e, _ => Err e
        | Ok _, Err e => Err (RetryableFailure
            [Lit "release managed workspace execution lock: "; Display (coordinator_text e)])
        end)
  end.

Definition failure_detail (cause : string) (m : Message) : Value :=
  Object [("cause", Str cause); ("message", Str (message_text m))].

(** A retry is due in five seconds. *)
Definition RETRY_DELAY : Z := 5000000.

(** The outcome of an execution at [clock]. *)
Definition operation_outcome (clock : Z) (r : result ExecutionFailure CompletedOperation) : Result OperationOutcome :=
  match r with
  | Ok completed => Ok (Complete (Some (cop_checkpoint completed)) (Some (cop_completion_event completed)))
  | Err (CoordinatorFailure e) => Err e
  | Err CancelledFailure => Err (AttemptLeaseUnavailable (af_attempt_id operation_fence))
  | Err (TerminalFailure m) => Ok (Fail None (Terminal (failure_detail "stageExecutionFailed" m)))
  | Err (RetryableFailure m) | Err (PlanValidationFailure m) =>
      Ok (Fail None (RetryAt (clock + RETRY_DELAY) (failure_detail "stageExecutionRetry" m)))
  end.

(** [OperationExecutor::execute]. *)
Definition execute (fuel : nat) : oproc W CoordinatorError OperationOutcome := λ w,
  match execute_operation fuel w with
  | Some (r, w') => Some (operation_outcome (worker_clock w') r, w')
  | None => None
  end.

(** ** Cancellation *)

Definition cancelled_cleanup (operation : OperationKind) (workspace : WorkspaceRecord) : Exec unit :=
  resume ← proc_lift (resume_decode (rs_resume (rl_selection (oec_lease context))) (op_ordinal (oec_operation context))
                        operation (wr_root workspace) (wr_revision workspace));
  let x parent_thread_id := stage_context parent_thread_id workspace EmptyString in
  _ ← (match correlation_checkpoint resume with
       | Some c => _ ← append_checkpoint_turn_correlation (x EmptyString) c; done tt
       | None => done tt
       end);
  _ ← proc_lift open_backend;
  match operation with
  | KindPlan =>
      _ ← (match resume_parent_thread_id resume with
           | Some parent_thread_id => map_err RetryableFailure (restore_factory_plan_state parent_thread_id)
           | None => done tt
           end);
      prepare_plan_workspace workspace
  | KindReview | KindRemediate =>
      match resume_parent_thread_id resume with
      | Some parent_thread_id => cleanup_detached_review (x parent_thread_id)
      | None => done tt
      end
  | KindExecute | KindIterate => done tt
  end.

Definition cleanup_cancelled_operation : Exec unit :=
  operation ← proc_lift operation_kind;
  match oec_workspace context with
  | None => fail (TerminalFailure [Lit "durable job has no managed worktree"])
  | Some workspace =>
      guard ← coordinator (acquire_workspace_execution (wr_job_id workspace));
      cleanup ← attempt (cancelled_cleanup operation workspace);
      release ← attempt (release_guard guard);
      match cleanup, release with
      | Err e, _ => fail e
      | Ok _, Err e => fail (CoordinatorFailure e)
      | Ok _, Ok _ => done tt
      end
  end.

Definition cancel_cleanup_error (e : ExecutionFailure) : CoordinatorError :=
  match e with
  | CoordinatorFailure e => e
  | TerminalFailure m | RetryableFailure m | PlanValidationFailure m =>
      InvalidInput (Lit "cancelled Factory operation cleanup failed: " :: m)
  | CancelledFailure => InvalidInput [Lit "cancelled Factory operation cleanup was itself cancelled"]
  end.

(** The hooks of [OperationExecutor]. *)
Definition cleanup_cancelled : proc W CoordinatorError unit := map_err cancel_cleanup_error cleanup_cancelled_operation.
Definition release_cancelled_execution_environment : proc W CoordinatorError unit :=
  release_cancelled_environment operation_fence.
End operation.
