(* ===== verification/AgentDemo.v ===== *)
(** * A small agent session

    Concrete values for the agent's components: two work units of which one
    depends on the other, a detached review with one finding, a backend in
    memory, the JSON texts the tools are called with, and a host whose agent
    plans and then reviews.  The theorems are applied to them. *)

From S2P Require Import Prelude Sequences Domain Runner Serde AgentState WorkGraph AgentTools Stages.
From S2P Require Import StateDocument Checkpoint Executor.
From Stdlib Require Import ZArith Ascii String.
From stdpp Require Import base gmap strings option list.

#[local] Open Scope string_scope.
#[local] Open Scope Z_scope.
#[local] Open Scope list_scope.

(** ** Parameters *)

#[export] Instance demo_order : HashOrder.
Proof. refine {| hash_values A l := l |}. done. Defined.

#[export] Instance demo_decode_text : DecodeText := {| decode_error _ _ := "invalid type" |}.

#[export] Instance demo_coordinator_text : CoordinatorText := {| coordinator_text _ := "coordinator error" |}.

(** ** Units, reviews and remediations *)

Definition demo_args : list WorkUnitArgs :=
  [mkWorkUnitArgs "core" "Core" "Write the core" [];
   mkWorkUnitArgs "tests" "Tests" "Write the tests" ["core"]].

Definition demo_planned : FactoryState := bump (with_work_units (pending_unit <$> demo_args) default_state).

Definition demo_core : FactoryWorkUnit :=
  mkFactoryWorkUnit "core" "Core" "Write the core" [] ProgressCompleted (Some "written").
Definition demo_tests : FactoryWorkUnit :=
  mkFactoryWorkUnit "tests" "Tests" "Write the tests" ["core"] ProgressCompleted (Some "passing").

Definition demo_executed : FactoryState := with_revision 3 (with_work_units [demo_core; demo_tests] default_state).

Definition demo_finding : FactoryReviewFinding :=
  mkFactoryReviewFinding "f1" Major "core" "Wrong result" "Observed 1" "Return 2".

Definition demo_context : DetachedReviewThreadContext := mkDetachedReviewThreadContext "parent" "execute-turn" "parent".

Definition demo_reviewer : FactoryToolExecutor := mkFactoryToolExecutor ToolReview "parent" "review-thread" (Some demo_context).
Definition demo_planner : FactoryToolExecutor := mkFactoryToolExecutor ToolDecompose "parent" "parent" None.

Definition demo_review_args : ReviewArgs := mkReviewArgs RequestChanges "One finding" [demo_finding].
Definition demo_approval_args : ReviewArgs := mkReviewArgs Approve "Verified" [].

Definition demo_review_call : ToolCall := mkToolCall "review-turn" None (Some "review").
Definition demo_plan_call : ToolCall := mkToolCall "plan-turn" (Some "plan") (Some "decompose").

Definition demo_disposition : FactoryRemediationRecord :=
  mkFactoryRemediationRecord "f1" DispositionResolved "Returns 2 now" "core".

(** The texts of the calls above. *)
#[export] Instance demo_json : JsonText := {|
  parse_value text :=
    if decide (text = "plan") then Some (Object [("factory_stage", Str "codex.plan")]) else None;
  parse_decompose_args text := if decide (text = "decompose") then Ok demo_args else Err "expected value";
  parse_progress_args _ := Err "expected value";
  parse_review_args text := if decide (text = "review") then Ok demo_review_args else Err "expected value";
  parse_remediation_args _ := Err "expected value";
|}.

Definition demo_report : FactoryReviewReport := with_generation 1 (review_report demo_reviewer demo_review_call demo_review_args).
Definition demo_approval : FactoryReviewReport := with_generation 1 (review_report demo_reviewer demo_review_call demo_approval_args).

Definition demo_reviewed : FactoryState := with_revision 4 (with_review (Some demo_report) [] [] demo_executed).
Definition demo_approved : FactoryState := with_revision 4 (with_review (Some demo_approval) [] [] demo_executed).

(** ** A backend in memory *)

Abbreviation Memory := (gmap string FactoryState).

#[export] Instance demo_backend : FactoryStateBackend Memory := {|
  backend_load key m := (Ok (m !! key), m);
  backend_save key s m := (Ok tt, <[key := s]> m);
|}.

Definition demo_world : AgentWorld Memory := mkAgentWorld {["parent" := None]} ∅.

(** ** Checkpoints *)

Definition demo_plan_checkpoint : StageCheckpoint :=
  mkStageCheckpoint KindPlan "parent" "parent" "plan-turn" PhaseCompleted TurnRoleStage 0 0 None None.

Definition demo_review_checkpoint : StageCheckpoint :=
  mkStageCheckpoint KindReview "parent" "review-thread" "review-turn" PhaseTurnCompleted TurnRoleReview 0 3
    (Some 0) (Some "execute-turn").

Definition demo_record (c : StageCheckpoint) : CheckpointRecord :=
  mkCheckpointRecord "c1" "a1" 1 STAGE_CHECKPOINT_KIND (ser_checkpoint c) (Some "/w") (Some "rev") None 0.

(** ** A host whose agent stores a given state in its turn *)

Record Host : Type := mkHost {
  ho_memory : Memory;
  ho_result : FactoryState;
}.

Definition demo_host_backend : FactoryStateBackend Host := {|
  backend_load key w := (Ok (ho_memory w !! key), w);
  backend_save key s w := (Ok tt, mkHost (<[key := s]> (ho_memory w)) (ho_result w));
|}.

Definition nothing {E : Type} : proc Host E unit := λ w, (Ok tt, w).

#[export] Instance demo_host : StageHost Host := {|
  host_backend := demo_host_backend;
  snapshot_type := unit;
  is_cancelled _ := false;
  persisted_turn_status _ _ := λ w, (Ok (Some TurnStatusCompleted), w);
  start_review _ _ _ := λ w, (Ok (mkTurnCorrelation "request" "review-thread" "review-turn"), w);
  start_text_turn _ _ _ := λ w, (Ok (mkTurnCorrelation "request" "parent" "plan-turn"), w);
  wait_for_completion := λ w, (Ok tt, mkHost (<["parent" := ho_result w]> (ho_memory w)) (ho_result w));
  emit_event _ _ _ := nothing;
  append_correlation _ := λ w, (Ok "correlation", w);
  write_checkpoint _ := nothing;
  capture_review_snapshot := nothing;
  restore_review_snapshot _ := λ w, (Ok false, w);
  acknowledge_review_mutation := nothing;
  validate_pristine := nothing;
  restore_worktree := nothing;
|}.

Definition demo_stage : StageContext := mkStageContext "parent" ("/w", "rev") "Do it" "j1" "o1" "a1"
  (Some (mkDurableCorrelationRecord "k1" (mkCorrelation "j1" "o0" "a0" "request" (Some "review-thread") (Some "review-turn") None) 0))
  5.
