(* ===== verification/AgentLaws.v ===== *)
(** * Laws of the agent's state

    What the tools of the agent guarantee to the stage contracts that are
    checked after them: the decomposition the plan stage may store is one every
    later stage accepts, units are completed in dependency order and can always
    be completed, a recorded review advances its generation and is accepted,
    and a rolled-back review leaves no trace. *)

From S2P Require Import Prelude Sequences AgentState WorkGraph AgentTools Stages AgentDemo.
From Stdlib Require Import ZArith Ascii String.
From stdpp Require Import base gmap strings list option sets relations.

#[local] Open Scope string_scope.
#[local] Open Scope Z_scope.
#[local] Open Scope list_scope.

Lemma bind_unit_Ok {E B : Type} (m : result E unit) (k : result E B) b :
  (m ≫= λ _, k) = Ok b ↔ m = Ok tt ∧ k = Ok b.
Proof. destruct m as [[]|]; cbn; naive_solver. Qed.

(** Rewrites a chain of checks into the conjunction of its conditions. *)
Ltac checks := rewrite ?bind_unit_Ok, ?guard_err_Ok, ?require_bounded_text_Ok, ?each_new_Ok, ?for_each_Ok.

#[local] Opaque each_new for_each acyclic_check guard_err require_bounded_text.

Section laws.
Context `{HashOrder}.

(** ** Decompositions *)

(** Non-blank text, and text the tools accept. *)
Definition texted (s : string) : Prop := is_blank s = false.
Definition bounded (n : Z) (s : string) : Prop := texted s ∧ chars_count s ≤ n.

Lemma require_text_Ok fld v u : require_text fld v = Ok u ↔ texted v.
Proof. apply guard_err_Ok. Qed.

(** The dependency lists of the units, given how a unit names itself. *)
Record dependencies_ok {U : Type} (uid : U → string) (deps : U → list string) (units : list U) : Prop := {
  deps_ids : NoDup (uid <$> units);
  deps_distinct : ∀ u, u ∈ units → NoDup (deps u);
  deps_texted : ∀ u d, u ∈ units → d ∈ deps u → texted d;
  deps_other : ∀ u d, u ∈ units → d ∈ deps u → d ≠ uid u;
  deps_known : ∀ u d, u ∈ units → d ∈ deps u → d ∈ uid <$> units;
  deps_acyclic : ¬ cyclic uid deps units;
}.

Lemma dependencies_graph {U : Type} (uid : U → string) deps units :
  dependencies_ok uid deps units → graph_ok uid deps units.
Proof. intros []. by constructor. Qed.

(** The decomposition every stage after the plan relies on. *)
Record decomposed (units : list FactoryWorkUnit) : Prop := {
  dec_some : units ≠ [];
  dec_texted : Forall (λ u, texted (wu_id u) ∧ texted (wu_title u) ∧ texted (wu_description u)) units;
  dec_graph : dependencies_ok wu_id wu_depends_on units;
}.

(** The dependency checks of both validators, with their conditions. *)
Lemma dependency_checks_Ok {U E : Type} (uid : U → string) (deps : U → list string) (units : list U)
    (check : U → string → result E unit) (dup : U → string → E) (cycle : E) :
  NoDup (uid <$> units) →
  (∀ u d, u ∈ units → d ∈ deps u → check u d = Ok tt → texted d ∧ d ≠ uid u ∧ d ∈ uid <$> units) →
  (_ ← for_each (λ u, each_new id (check u) (dup u) (λ _, Ok tt) ∅ (deps u)) units;
   guard_err (negb (acyclic_check uid deps units)) cycle) = Ok tt ↔
  (∀ u d, u ∈ units → d ∈ deps u → check u d = Ok tt) ∧ dependencies_ok uid deps units.
Proof.
  intros Hnd Hcheck. checks. setoid_rewrite each_new_Ok. rewrite Forall_forall, negb_false_iff. split.
  - intros [Hu Hc].
    assert (∀ u d, u ∈ units → d ∈ deps u → check u d = Ok tt) as Hall.
    { intros u d Hin Hd. destruct (Hu u Hin) as [Hf _]. rewrite Forall_forall in Hf. by apply Hf. }
    assert (graph_ok uid deps units) as Hg.
    { constructor; [done| |].
      - intros u Hin. destruct (Hu u Hin) as [_ Hd]. by rewrite list_fmap_id in Hd.
      - intros u d Hin Hd. by eapply Hcheck, Hall. }
    split; [done|]. constructor; [done|apply Hg| | |apply Hg|by apply acyclic_check_spec].
    + intros u d Hin Hd. by eapply Hcheck, Hall.
    + intros u d Hin Hd. by eapply Hcheck, Hall.
  - intros [Hall Hd]. pose proof (dependencies_graph _ _ _ Hd) as Hg. split; [|by apply acyclic_check_spec; [|apply Hd]].
    intros u Hin. rewrite list_fmap_id. split; [|by apply Hg]. apply Forall_forall. naive_solver.
Qed.

Lemma validate_decomposition_state_Ok s u :
  validate_decomposition_state s = Ok u ↔ decomposed (fs_work_units s).
Proof.
  destruct u. unfold validate_decomposition_state, validate_acyclic_state. rewrite !(bind_unit_Ok (guard_err _ _)), guard_err_Ok.
  rewrite (bind_unit_Ok (each_new _ _ _ _ _ _)), each_new_Ok, bool_decide_eq_false.
  assert (∀ u, validate_unit u = Ok tt ↔ texted (wu_id u) ∧ texted (wu_title u) ∧ texted (wu_description u)) as Hu.
  { intros u. unfold validate_unit. checks. by rewrite !require_text_Ok. }
  assert (∀ ids u d, validate_dependency ids u d = Ok tt ↔ texted d ∧ d ≠ wu_id u ∧ d ∈ ids) as Hd.
  { intros ids u d. unfold validate_dependency. checks.
    rewrite require_text_Ok, !bool_decide_eq_false. destruct (decide (d ∈ ids)); naive_solver. }
  split.
  - intros (Hne & [Hf Hnd] & Hg). rewrite dependency_checks_Ok in Hg; [|done|].
    + destruct Hg as [_ Hg]. constructor; [done| |done]. eapply Forall_impl; [exact Hf|]. naive_solver.
    + intros u d _ _ (?&?&?%elem_of_list_to_set)%Hd. done.
  - intros [Hne Hf Hg]. split_and!; [done| |apply Hg|].
    + eapply Forall_impl; [exact Hf|]. naive_solver.
    + apply dependency_checks_Ok; [apply Hg| |].
      * intros u d _ _ (?&?&?%elem_of_list_to_set)%Hd. done.
      * split; [|done]. intros u d Hin Hdd. apply Hd. rewrite elem_of_list_to_set.
        split_and!; by eapply Hg.
Qed.

(** Two decompositions with the same names and dependencies. *)
Section same_graph.
Context {U V : Type} (uid : U → string) (deps : U → list string) (vid : V → string) (vdeps : V → list string).
Context (us : list U) (vs : list V).
Hypothesis Hsame : (λ u, (uid u, deps u)) <$> us = (λ v, (vid v, vdeps v)) <$> vs.

Lemma same_graph_ids : uid <$> us = vid <$> vs.
Proof using Hsame.
  apply (f_equal (fmap fst)) in Hsame. by rewrite <- !list_fmap_compose in Hsame.
Qed.

Lemma same_graph_unit v : v ∈ vs → ∃ u, u ∈ us ∧ uid u = vid v ∧ deps u = vdeps v.
Proof using Hsame.
  intros Hv. apply (list_elem_of_fmap_2 (λ v, (vid v, vdeps v))) in Hv. rewrite <- Hsame in Hv.
  apply list_elem_of_fmap in Hv as (u & [= E1 E2] & Hu). by exists u.
Qed.
End same_graph.

Lemma same_graph_dependencies {U V : Type} (uid : U → string) deps (vid : V → string) vdeps us vs :
  (λ u, (uid u, deps u)) <$> us = (λ v, (vid v, vdeps v)) <$> vs →
  dependencies_ok uid deps us → dependencies_ok vid vdeps vs.
Proof.
  intros Hs [H1 H2 H3 H4 H5 H6]. pose proof (same_graph_unit _ _ _ _ _ _ Hs) as Hu.
  pose proof (same_graph_ids _ _ _ _ _ _ Hs) as Hi. constructor.
  - by rewrite <- Hi.
  - intros v (u & Hin & E1 & E2)%Hu. rewrite <- ?E1, <- ?E2. by apply H2.
  - intros v d (u & Hin & E1 & E2)%Hu. rewrite <- ?E1, <- ?E2. by apply H3.
  - intros v d (u & Hin & E1 & E2)%Hu. rewrite <- ?E1, <- ?E2. by apply H4.
  - rewrite <- Hi. intros v d (u & Hin & E1 & E2)%Hu. rewrite <- ?E1, <- ?E2. by apply H5.
  - intros [x Hx]. apply H6. exists x. revert Hx. generalize x at 2 4. intros y.
    assert (∀ a b, depends_on vid vdeps vs a b → depends_on uid deps us a b) as Hd.
    { intros a b (v & (u & Hin & E1 & E2)%Hu & <- & Hb). exists u. by rewrite E2. }
    induction 1; [apply tc_once|eapply tc_l]; eauto.
Qed.

Lemma validate_decomposition_Ok units u :
  validate_decomposition units = Ok u ↔
  units ≠ [] ∧ Z.of_nat (length units) ≤ MAX_WORK_UNITS ∧
  Forall (λ u, bounded MAX_IDENTIFIER_CHARS (ua_id u) ∧ bounded MAX_TITLE_CHARS (ua_title u) ∧
    bounded MAX_DETAIL_CHARS (ua_description u) ∧
    Z.of_nat (length (ua_depends_on u)) ≤ MAX_DEPENDENCIES ∧
    Forall (bounded MAX_IDENTIFIER_CHARS) (ua_depends_on u)) units ∧
  dependencies_ok ua_id ua_depends_on units.
Proof.
  destruct u. unfold validate_decomposition, validate_acyclic. rewrite !(bind_unit_Ok (guard_err _ _)), !guard_err_Ok.
  rewrite (bind_unit_Ok (each_new _ _ _ _ _ _)), each_new_Ok, bool_decide_eq_false, Z.ltb_ge.
  assert (∀ u, check_unit u = Ok tt ↔ bounded MAX_IDENTIFIER_CHARS (ua_id u) ∧
    bounded MAX_TITLE_CHARS (ua_title u) ∧ bounded MAX_DETAIL_CHARS (ua_description u) ∧
    Z.of_nat (length (ua_depends_on u)) ≤ MAX_DEPENDENCIES) as Hu.
  { intros u. unfold check_unit. checks. by rewrite Z.ltb_ge. }
  assert (∀ ids u d, check_dependency ids u d = Ok tt ↔
    bounded MAX_IDENTIFIER_CHARS d ∧ d ≠ ua_id u ∧ d ∈ ids) as Hd.
  { intros ids u d. unfold check_dependency. checks.
    rewrite !bool_decide_eq_false. unfold bounded, texted. destruct (decide (d ∈ ids)); tauto. }
  setoid_rewrite Hu. split.
  - intros (Hne & Hlen & [Hf Hnd] & Hg). rewrite dependency_checks_Ok in Hg; [|done|].
    + destruct Hg as [Hc Hg]. split_and!; [done..| |done]. rewrite Forall_forall in Hf |- *.
      intros u Hin. destruct (Hf u Hin) as [(?&?&?&?) _]. split_and!; [done..|].
      apply Forall_forall. intros d Hdd. by eapply Hd, Hc.
    + intros u d _ _ ([? _]&?&?%elem_of_list_to_set)%Hd. done.
  - intros (Hne & Hlen & Hf & Hg). rewrite Forall_forall in Hf. split_and!; [done..| |apply Hg|].
    + apply Forall_forall. intros u Hin. destruct (Hf u Hin) as (?&?&?&?&?). by split_and!.
    + apply dependency_checks_Ok; [apply Hg| |].
      * intros u d _ _ ([? _]&?&?%elem_of_list_to_set)%Hd. done.
      * split; [|done]. intros u d Hin Hdd. apply Hd. rewrite elem_of_list_to_set.
        destruct (Hf u Hin) as (_&_&_&_&Hb). rewrite Forall_forall in Hb. split_and!; [by apply Hb|by eapply Hg..].
Qed.

(** What the tool accepts is what the later stages call a decomposition. *)
Lemma pending_units_decomposed units :
  validate_decomposition units = Ok tt → decomposed (pending_unit <$> units).
Proof.
  intros (Hne & _ & Hf & Hg)%validate_decomposition_Ok. constructor.
  - by intros ->%fmap_nil_inv.
  - apply Forall_fmap. eapply Forall_impl; [exact Hf|]. intros u ([? _]&[? _]&[? _]&_). done.
  - eapply same_graph_dependencies; [|exact Hg]. by rewrite <- list_fmap_compose.
Qed.

(** ** The plan *)

Lemma validate_plan_Ok s u :
  validate_plan s = Ok u ↔
  decomposed (fs_work_units s) ∧
  Forall (λ u, wu_status u = ProgressPending ∧ wu_progress_summary u = None) (fs_work_units s) ∧
  fs_review s = None ∧ fs_remediations s = [] ∧ fs_review_history s = [].
Proof.
  destruct u. unfold validate_plan. checks. rewrite validate_decomposition_state_Ok.
  assert (∀ u, validate_pending u = Ok tt ↔ wu_status u = ProgressPending ∧ wu_progress_summary u = None) as Hp.
  { intros u. unfold validate_pending. checks. rewrite !bool_decide_eq_false, eq_None_not_Some.
    destruct (decide (wu_status u = ProgressPending)); naive_solver. }
  setoid_rewrite Hp. rewrite !orb_false_iff, !negb_false_iff, !bool_decide_eq_true, bool_decide_eq_false, eq_None_not_Some.
  naive_solver.
Qed.

Lemma decompose_mutation_plan units s s' :
  validate_decomposition units = Ok tt → decompose_mutation units s = Ok s' →
  validate_plan s' = Ok tt ∧ fs_revision s' = fs_revision s.
Proof.
  intros Hv. unfold decompose_mutation. rewrite bind_unit_Ok. intros [_ [= <-]]. split; [|done].
  apply validate_plan_Ok. cbn. split_and!; [by apply pending_units_decomposed| |done..].
  apply Forall_fmap, Forall_true. done.
Qed.

(** ** Progress in dependency order *)

Record sound_state (s : FactoryState) : Prop := {
  sound_units : fs_work_units s = [] ∨ decomposed (fs_work_units s);
  sound_summary : ∀ u, u ∈ fs_work_units s → is_completed u = true →
    ∃ summary, wu_progress_summary u = Some summary ∧ texted summary;
  sound_order : ∀ u v, u ∈ fs_work_units s → v ∈ fs_work_units s → is_completed u = true →
    wu_id v ∈ wu_depends_on u → is_completed v = true;
}.

Lemma incomplete_dependencies_nil s u :
  incomplete_dependencies s u = [] ↔
  ∀ v, v ∈ fs_work_units s → wu_id v ∈ wu_depends_on u → is_completed v = true.
Proof.
  unfold incomplete_dependencies. split.
  - intros E v Hv Hd. destruct (is_completed v) eqn:Hc; [done|].
    assert (In (wu_id v) []) as []. rewrite <- E. apply filter_In. split; [by apply list_elem_of_In|].
    apply existsb_exists. exists v. split; [by apply list_elem_of_In|]. by rewrite bool_decide_eq_true_2, Hc.
  - intros Hall. apply elem_of_nil_inv. intros d [Hd Hx]%list_elem_of_In%filter_In.
    apply existsb_exists in Hx as (v & Hv%list_elem_of_In & [E%bool_decide_eq_true Hn]%andb_true_iff).
    apply list_elem_of_In in Hd. rewrite (Hall v) in Hn; [done..|by rewrite E].
Qed.

Lemma progress_mutation_Ok args s s' :
  progress_mutation args s = Ok s' ↔
  pa_status args = ProgressCompleted ∧
  ∃ i u, list_find (λ u, wu_id u = pa_unit_id args) (fs_work_units s) = Some (i, u) ∧
    is_completed u = false ∧ incomplete_dependencies s u = [] ∧
    s' = with_work_units (alter (complete_work_unit (pa_summary args)) i (fs_work_units s)) s.
Proof.
  unfold progress_mutation. rewrite bind_unit_Ok, guard_err_Ok, bool_decide_eq_false, bind_Ok. split.
  - intros (Hs & [i u] & Hf%ok_or_Ok & Hr). revert Hr. rewrite !bind_unit_Ok, !guard_err_Ok, negb_false_iff.
    rewrite bool_decide_eq_true. intros (Hc & Hi & [= <-]). split; [by apply dec_stable|]. by exists i, u.
  - intros (Hs & i & u & Hf & Hc & Hi & ->). split; [naive_solver|]. exists (i, u). split; [by apply ok_or_Ok|].
    rewrite !bind_unit_Ok, !guard_err_Ok, negb_false_iff. by rewrite bool_decide_eq_true.
Qed.

(** Completing a unit keeps every name and dependency. *)
Lemma alter_same_graph i summary (units : list FactoryWorkUnit) :
  (λ u, (wu_id u, wu_depends_on u)) <$> units
  = (λ u, (wu_id u, wu_depends_on u)) <$> alter (complete_work_unit summary) i units.
Proof.
  apply list_eq. intros j. rewrite !list_lookup_fmap, list_lookup_alter.
  destruct (decide (i = j)) as [->|]; [|done]. by destruct (units !! j).
Qed.

Lemma alter_decomposed i summary units :
  decomposed units → decomposed (alter (complete_work_unit summary) i units).
Proof.
  intros [Hne Hf Hg]. constructor.
  - intros E%(f_equal length). rewrite length_alter in E. by destruct units.
  - by apply Forall_alter; [|done].
  - eapply same_graph_dependencies; [apply alter_same_graph|done].
Qed.

Lemma elem_of_alter_unit i u summary (units : list FactoryWorkUnit) v :
  units !! i = Some u → v ∈ alter (complete_work_unit summary) i units →
  v = complete_work_unit summary u ∨ v ∈ units.
Proof.
  intros Hi [j Hj]%list_elem_of_lookup. rewrite list_lookup_alter in Hj.
  destruct (decide (i = j)) as [->|]; [rewrite Hi in Hj; injection Hj; auto|].
  right. by eapply list_elem_of_lookup_2.
Qed.

Lemma progress_sound args s s' :
  texted (pa_summary args) → progress_mutation args s = Ok s' → sound_state s → sound_state s'.
Proof.
  intros Ht (_ & i & u & (Hi & Hid & _)%list_find_Some & Hc & Hdeps & ->)%progress_mutation_Ok [Hu Hs Ho].
  rewrite incomplete_dependencies_nil in Hdeps. assert (u ∈ fs_work_units s) as Hin by (by eapply list_elem_of_lookup_2).
  constructor; cbn.
  - right. apply alter_decomposed. destruct Hu as [E|]; [by rewrite E in Hi|done].
  - intros v Hv. apply (elem_of_alter_unit i u) in Hv as [->|Hv]; [|by apply Hs|done]. cbn. eauto.
  - intros v w Hv Hw. apply (elem_of_alter_unit i u) in Hv, Hw; [|done..].
    destruct Hw as [->|Hw]; [done|]. destruct Hv as [->|Hv]; [|by apply Ho]. cbn. intros _. by apply Hdeps.
Qed.

(** ** Completing every unit *)

(** Some open unit has nothing left to wait for. *)
Lemma open_unit_ready s :
  sound_state s → (∃ u, u ∈ fs_work_units s ∧ is_completed u = false) →
  ∃ u, u ∈ fs_work_units s ∧ is_completed u = false ∧ incomplete_dependencies s u = [].
Proof.
  intros [Hu _ _] (u & Hin & Hopen).
  assert (decomposed (fs_work_units s)) as [_ _ Hg] by (destruct Hu as [E|]; [rewrite E in Hin; set_solver|done]).
  pose proof (acyclic_sn _ _ _ (dependencies_graph _ _ _ Hg) (wu_id u) (deps_acyclic _ _ _ Hg)) as Hsn.
  remember (wu_id u) as x eqn:Ex. revert u Ex Hin Hopen. induction Hsn as [x _ IH]. intros u -> Hin Hopen.
  destruct (decide (incomplete_dependencies s u = [])) as [|Hne]; [by exists u|].
  destruct (incomplete_dependencies s u) as [|d l] eqn:E; [done|].
  assert (In d (incomplete_dependencies s u)) as Hd by (rewrite E; by left).
  apply filter_In in Hd as [Hd (v & Hv & [Hvd%bool_decide_eq_true Hvo%negb_true_iff]%andb_true_iff)%existsb_exists].
  apply list_elem_of_In in Hd, Hv. apply (IH (wu_id v)) with v; [|done..].
  exists u. by rewrite Hvd.
Qed.

(** A run of completed calls of the progress tool. *)
Fixpoint run_progress (summary : string) (order : list string) (s : FactoryState) : result Message FactoryState :=
  match order with
  | [] => Ok s
  | x :: r => t ← progress_mutation (mkProgressArgs x ProgressCompleted summary) s; run_progress summary r (bump t)
  end.

Definition open_ids (s : FactoryState) : list string :=
  wu_id <$> List.filter (λ u, negb (is_completed u)) (fs_work_units s).

Lemma filter_alter_perm i u summary (units : list FactoryWorkUnit) :
  units !! i = Some u → is_completed u = false →
  List.filter (λ u, negb (is_completed u)) units
  ≡ₚ u :: List.filter (λ u, negb (is_completed u)) (alter (complete_work_unit summary) i units).
Proof.
  revert i. induction units as [|v units IH]; intros [|i]; cbn; [done..| |].
  - intros [= ->] Hc. by rewrite Hc.
  - intros Hi Hc. pose proof (IH i Hi Hc) as Hp. destruct (negb (is_completed v)); [|done].
    rewrite Hp. constructor.
Qed.

Lemma validate_execute_Ok s u :
  validate_execute s = Ok u ↔
  decomposed (fs_work_units s) ∧
  Forall (λ u, is_completed u = true ∧ ∃ summary, wu_progress_summary u = Some summary ∧ texted summary)
    (fs_work_units s).
Proof.
  destruct u. unfold validate_execute. checks. rewrite validate_decomposition_state_Ok.
  assert (∀ u, validate_completed u = Ok tt ↔
    is_completed u = true ∧ ∃ summary, wu_progress_summary u = Some summary ∧ texted summary) as Hv.
  { intros u. unfold validate_completed. rewrite bind_unit_Ok, guard_err_Ok, negb_false_iff.
    destruct (wu_progress_summary u); [rewrite require_text_Ok|]; naive_solver. }
  by setoid_rewrite Hv.
Qed.

Lemma progress_opens args s s' :
  progress_mutation args s = Ok s' →
  open_ids s ≡ₚ pa_unit_id args :: open_ids s'.
Proof.
  intros (_ & i & u & (Hi & Hid & _)%list_find_Some & Hc & _ & ->)%progress_mutation_Ok.
  unfold open_ids. rewrite (filter_alter_perm i u (pa_summary args)) by done. cbn. by rewrite Hid.
Qed.

Lemma progress_accepts s u summary :
  sound_state s → u ∈ fs_work_units s → is_completed u = false → incomplete_dependencies s u = [] →
  ∃ s', progress_mutation (mkProgressArgs (wu_id u) ProgressCompleted summary) s = Ok s'.
Proof.
  intros [Hu _ _] Hin Hc Hi.
  assert (decomposed (fs_work_units s)) as [_ _ Hg] by (destruct Hu as [E|]; [rewrite E in Hin; set_solver|done]).
  destruct (list_find_elem_of (λ v, wu_id v = wu_id u) (fs_work_units s) u) as [[i v] Hf]; [done..|].
  pose proof Hf as (Hv & Hid & _)%list_find_Some.
  assert (v = u) as ->.
  { eapply (unit_by_id wu_id wu_depends_on); [by apply dependencies_graph|by eapply list_elem_of_lookup_2|done|done]. }
  eexists. apply progress_mutation_Ok. split; [done|]. by exists i, u.
Qed.

Lemma open_ids_nil s u : open_ids s = [] → u ∈ fs_work_units s → is_completed u = true.
Proof.
  unfold open_ids. intros E%fmap_nil_inv Hu. destruct (is_completed u) eqn:Hc; [done|].
  assert (In u []) as []. rewrite <- E. apply filter_In. rewrite Hc. split; [by apply list_elem_of_In|done].
Qed.

Lemma all_completed_validates s :
  sound_state s → fs_work_units s ≠ [] → open_ids s = [] → validate_execute s = Ok tt.
Proof.
  intros [[?|Hd] Hs _] Hne Ho; [done|]. apply validate_execute_Ok. split; [done|]. apply Forall_forall.
  intros u Hu. pose proof (open_ids_nil s u Ho Hu). eauto.
Qed.

Lemma open_ids_unit s : open_ids s ≠ [] → ∃ u, u ∈ fs_work_units s ∧ is_completed u = false.
Proof.
  unfold open_ids. intros Hne.
  destruct (List.filter (λ u, negb (is_completed u)) (fs_work_units s)) as [|u l] eqn:E; [done|].
  exists u. assert (In u (List.filter (λ u, negb (is_completed u)) (fs_work_units s))) as Hin by (rewrite E; by left).
  apply filter_In in Hin as [Hin Hn%negb_true_iff]. by apply list_elem_of_In in Hin.
Qed.

Lemma progress_nonempty args s s' :
  progress_mutation args s = Ok s' → fs_work_units s' ≠ [].
Proof.
  intros (_ & i & u & (Hi & _)%list_find_Some & _ & _ & ->)%progress_mutation_Ok. cbn.
  intros E%(f_equal length). rewrite length_alter in E. by apply length_zero_iff_nil in E as E'; rewrite E' in Hi.
Qed.

Lemma sound_state_units s s' : fs_work_units s' = fs_work_units s → sound_state s → sound_state s'.
Proof. intros E [H1 H2 H3]. constructor; rewrite E; done. Qed.

Lemma run_progress_exists n s summary :
  length (open_ids s) = n → sound_state s → fs_work_units s ≠ [] → texted summary →
  ∃ order s', order ≡ₚ open_ids s ∧ run_progress summary order s = Ok s' ∧ validate_execute s' = Ok tt.
Proof.
  revert s. induction n as [|n IH]; intros s En Hs Hne Ht.
  { apply length_zero_iff_nil in En. exists [], s. rewrite En. split_and!; [done..|].
    by apply all_completed_validates. }
  destruct (open_unit_ready s Hs) as (u & Hu & Hc & Hi); [apply open_ids_unit; by destruct (open_ids s)|].
  destruct (progress_accepts s u summary Hs Hu Hc Hi) as [s1 H1].
  pose proof (progress_opens _ _ _ H1) as Hp. cbn in Hp.
  assert (sound_state s1) as Hs1 by (by apply (progress_sound (mkProgressArgs (wu_id u) ProgressCompleted summary) s s1)).
  destruct (IH (bump s1)) as (order & s' & Ho & Hr & Hv);
    [|by eapply sound_state_units; [|exact Hs1]|by apply (progress_nonempty _ _ _ H1)|done|].
  - apply Permutation_length in Hp. cbn in Hp. change (open_ids (bump s1)) with (open_ids s1). lia.
  - exists (wu_id u :: order), s'. split_and!; [by rewrite Hp, Ho| |done]. cbn. by rewrite H1.
Qed.

Lemma run_progress_once order s summary s' :
  run_progress summary order s = Ok s' → order ++ open_ids s' ≡ₚ open_ids s.
Proof.
  revert s. induction order as [|x r IH]; intros s; cbn; [by intros [= ->]|].
  intros (s1 & H1 & Hr)%bind_Ok. rewrite (progress_opens _ _ _ H1). cbn. constructor. by apply (IH (bump s1)).
Qed.

Lemma run_progress_revision order s summary s' :
  run_progress summary order s = Ok s' → fs_revision s ≤ u64_max →
  fs_revision s' = Z.min (fs_revision s + Z.of_nat (length order)) u64_max.
Proof.
  revert s. induction order as [|x r IH]; intros s; cbn -[Z.of_nat]; [intros [= ->]; lia|].
  intros (s1 & (_ & i & u & _ & _ & _ & ->)%progress_mutation_Ok & Hr)%bind_Ok Hm.
  apply IH in Hr; cbn -[Z.of_nat] in *; unfold saturating_succ in *; lia.
Qed.

(** C15: The decomposition checks are exact: the tool accepts a list of work units
    exactly when it has 1 to 32 units with bounded, non-blank texts and at most 32
    dependencies each, all names are distinct, every dependency is a known other unit
    named once, and the dependency graph has no cycle; the stage contract accepts the
    stored units under the same conditions on names and graph. Neither depends on the
    order in which the hash map of open dependencies is listed. *)
Theorem decomposition_checks_exact units s :
  (validate_decomposition units = Ok tt ↔
     units ≠ [] ∧ Z.of_nat (length units) ≤ MAX_WORK_UNITS ∧
     Forall (λ u, bounded MAX_IDENTIFIER_CHARS (ua_id u) ∧ bounded MAX_TITLE_CHARS (ua_title u) ∧
       bounded MAX_DETAIL_CHARS (ua_description u) ∧
       Z.of_nat (length (ua_depends_on u)) ≤ MAX_DEPENDENCIES ∧
       Forall (bounded MAX_IDENTIFIER_CHARS) (ua_depends_on u)) units ∧
     dependencies_ok ua_id ua_depends_on units) ∧
  (validate_decomposition_state s = Ok tt ↔ decomposed (fs_work_units s)).
Proof. split; [apply validate_decomposition_Ok|apply validate_decomposition_state_Ok]. Qed.

(** C16: Execution can always be finished, and every unit is completed once: from
    every state the agent can be in after its decomposition there is an order of the
    open units in which the progress tool accepts a completion for each of them, and
    the execute contract then accepts the state; and in whatever order completions
    are accepted, no unit is completed twice and each one advances the revision. *)
Theorem execution_completes s summary :
  sound_state s → fs_work_units s ≠ [] → texted summary → fs_revision s ≤ u64_max →
  (∃ order s', order ≡ₚ open_ids s ∧ run_progress summary order s = Ok s' ∧ validate_execute s' = Ok tt) ∧
  (∀ order s', run_progress summary order s = Ok s' →
     order ++ open_ids s' ≡ₚ open_ids s ∧
     fs_revision s' = Z.min (fs_revision s + Z.of_nat (length order)) u64_max).
Proof.
  intros Hs Hne Ht Hm. split; [by eapply run_progress_exists|].
  intros order s' Hr. split; [by eapply run_progress_once|by eapply run_progress_revision].
Qed.
End laws.

(** ** Witness *)

Lemma demo_planned_sound : sound_state demo_planned.
Proof.
  constructor.
  - right. apply (pending_units_decomposed demo_args). vm_compute. reflexivity.
  - intros u Hu Hc. cbn in Hu. repeat (apply elem_of_cons in Hu as [->|Hu]; [done|]). by apply not_elem_of_nil in Hu.
  - intros u v Hu _ Hc. cbn in Hu. repeat (apply elem_of_cons in Hu as [->|Hu]; [done|]). by apply not_elem_of_nil in Hu.
Qed.

Lemma execution_completes_witness :
  sound_state demo_planned ∧ fs_work_units demo_planned ≠ [] ∧
  ∃ order s', order ≡ₚ ["core"; "tests"] ∧ run_progress "verified" order demo_planned = Ok s' ∧
    validate_execute s' = Ok tt.
Proof.
  split; [apply demo_planned_sound|]. split; [done|].
  apply (execution_completes demo_planned "verified"); [apply demo_planned_sound|done|reflexivity|].
  cbn. unfold saturating_succ, u64_max. lia.
Defined.
