(* ===== verification/AgentWorlds.v ===== *)
(** * Shared agent state

    The state objects of [extension/src/state.rs] against what a backend
    promises: an update is written through before it is cached, a refused or
    failed one leaves the cached state, every tool changes only what the stage
    it belongs to owns, and no sequence of tool calls, accepted or refused,
    leaves a state outside the work-unit invariant. *)

From S2P Require Import Prelude Sequences Serde AgentState WorkGraph AgentTools Stages StateDocument AgentDemo AgentLaws.
From Stdlib Require Import ZArith Ascii String.
From stdpp Require Import base gmap strings list option relations.

#[local] Open Scope string_scope.
#[local] Open Scope Z_scope.
#[local] Open Scope list_scope.

(** What the extension relies on from its backend: a load reads what is stored;
    a save that succeeds has stored the state, one that fails has either done
    so or not (the answer may be lost) as long as the state can be represented,
    and neither touches another key. *)
Class BackendLaws (W : Type) `{FactoryStateBackend W} : Type := {
  stored : W → string → option FactoryState;
  load_spec key b r b' : backend_load key b = (r, b') →
    (∀ k, stored b' k = stored b k) ∧ (∀ o, r = Ok o → o = stored b key);
  save_spec key s b r b' : backend_save key s b = (r, b') →
    (∀ k, k ≠ key → stored b' k = stored b k) ∧
    (representable s → stored b' key = stored b key ∨ stored b' key = Some s) ∧
    (∀ u, r = Ok u → stored b' key = Some s);
}.

Section worlds.
Context {W : Type} `{BackendLaws W}.
Implicit Types w : AgentWorld W.

(** The state of a key as the next tool call sees it. *)
Definition effective (key : string) (w : AgentWorld W) : FactoryState :=
  match cached key w with
  | Some s => s
  | None => default default_state (stored (aw_backend w) key)
  end.

(** Nothing of another key changes. *)
Definition others_kept (key : string) (w w' : AgentWorld W) : Prop :=
  ∀ k, k ≠ key → cached k w' = cached k w ∧ stored (aw_backend w') k = stored (aw_backend w) k.

Lemma cached_set_cache key s w : cached key (set_cache key s w) = Some s.
Proof. unfold cached, set_cache. cbn. by rewrite lookup_insert_eq. Qed.

Lemma cached_set_cache_ne key k s w : k ≠ key → cached k (set_cache key s w) = cached k w.
Proof. intros Hk. unfold cached, set_cache. cbn. by rewrite lookup_insert_ne. Qed.

(** Loading gives the effective state and caches it; a failed load changes
    nothing. *)
Lemma load_if_needed_spec key w r w' :
  load_if_needed key w = (r, w') →
  others_kept key w w' ∧ stored (aw_backend w') key = stored (aw_backend w) key ∧
  match r with
  | Ok s => s = effective key w ∧ cached key w' = Some s
  | Err _ => cached key w = None ∧ cached key w' = None
  end.
Proof.
  unfold load_if_needed, effective. destruct (cached key w) as [s|] eqn:Hc.
  { intros [= <- <-]. split_and!; [done..|]. by rewrite Hc. }
  unfold on_backend. destruct (backend_load key (aw_backend w)) as [[o|e] b] eqn:Hl;
    intros [= <- <-]; destruct (load_spec _ _ _ _ Hl) as [Hs Ho].
  - rewrite (Ho o eq_refl). split_and!; [|apply Hs|done|apply cached_set_cache].
    intros k Hk. split; [|apply Hs]. by rewrite cached_set_cache_ne.
  - split_and!; [|apply Hs|done|done]. intros k Hk. split; [done|apply Hs].
Qed.

(** The outcome of an update. *)
Inductive updated (key : string) (m : FactoryState → result Message FactoryState) (w : AgentWorld W) :
    result Message FactoryState → AgentWorld W → Prop :=
| UpdateSaved s w' :
    m (effective key w) = Ok s → cached key w' = Some (bump s) →
    stored (aw_backend w') key = Some (bump s) → updated key m w (Ok (bump s)) w'
| UpdateFailed e w' :
    (cached key w' = cached key w ∨ cached key w' = Some (effective key w)) →
    (stored (aw_backend w') key = stored (aw_backend w) key ∨
     ∃ s, m (effective key w) = Ok s ∧
       (representable (bump s) → stored (aw_backend w') key = Some (bump s))) →
    updated key m w (Err e) w'.

Lemma update_updated key m w r w' :
  update key m w = (r, w') → others_kept key w w' ∧ updated key m w r w'.
Proof.
  unfold update, mbind, proc_bind. destruct (load_if_needed key w) as [[s|e] w1] eqn:Hl;
    apply load_if_needed_spec in Hl as (Hk1 & Hst1 & Hr1); [destruct Hr1 as [-> Hc1]|destruct Hr1 as [Hc0 Hc1]].
  2:{ intros [= <- <-]. split; [done|]. constructor; [left; congruence|by left]. }
  unfold proc_lift. destruct (m (effective key w)) as [s|e] eqn:Hm.
  2:{ intros [= <- <-]. split; [done|]. constructor; [by right|by left]. }
  unfold on_backend. destruct (backend_save _ _ (aw_backend w1)) as [[u|e] b] eqn:Hs; cbn;
    intros [= <- <-]; destruct (save_spec _ _ _ _ _ Hs) as (Hko & Hold & Hnew).
  - split.
    + intros k Hk. destruct (Hk1 k Hk) as [E1 E2]. rewrite cached_set_cache_ne by done. split; [exact E1|].
      cbn. by rewrite Hko.
    + constructor; [done|apply cached_set_cache|by eapply Hnew].
  - split.
    + intros k Hk. destruct (Hk1 k Hk) as [E1 E2]. split; [exact E1|]. cbn. by rewrite Hko.
    + constructor; [right; exact Hc1|]. cbn.
      destruct (decide (stored b key = stored (aw_backend w1) key)) as [->|Hne]; [by left|].
      right. exists s. split; [done|]. intros Hrep. by destruct (Hold Hrep).
Qed.

(** Updates are written through: when an update succeeds, the mutation was applied
    to the state the thread saw, its revision advanced by one, and the result is both
    cached and stored; when it fails, the thread keeps seeing the state it saw, and the
    backend holds what it held before unless the save itself failed after storing the
    new state, which then is what it holds if a document can represent it. No other key
    changes. *)
Theorem update_write_through key m w r w' :
  update key m w = (r, w') →
  others_kept key w w' ∧
  match r with
  | Ok s => ∃ t, m (effective key w) = Ok t ∧ s = bump t ∧
      cached key w' = Some s ∧ stored (aw_backend w') key = Some s
  | Err _ =>
      (cached key w' = cached key w ∨ cached key w' = Some (effective key w)) ∧
      (stored (aw_backend w') key = stored (aw_backend w) key ∨
       ∃ t, m (effective key w) = Ok t ∧
         (representable (bump t) → stored (aw_backend w') key = Some (bump t)))
  end.
Proof.
  intros [Hk Hu]%update_updated. split; [done|]. destruct Hu; [by eexists|by split].
Qed.

(** ** Tools *)

Context `{JsonText} `{HashOrder}.

(** What an accepted tool call did: the stage it was made in, and a change of
    the fields that stage owns. *)
Definition tool_effect (x : FactoryToolExecutor) (call : ToolCall) (s s' : FactoryState) : Prop :=
  match te_kind x with
  | ToolDecompose =>
      tool_stage call = Some TurnPlan ∧ fs_work_units s = [] ∧
      ∃ units, validate_decomposition units = Ok tt ∧
        s' = with_review None [] [] (with_work_units (pending_unit <$> units) s)
  | ToolProgress =>
      tool_stage call = Some TurnExecute ∧
      ∃ args, texted (pa_summary args) ∧ progress_mutation args s = Ok s' ∧
        s' = with_work_units (fs_work_units s') s
  | ToolReview =>
      (is_Some (te_context x) ∨ tool_stage call = Some TurnReview) ∧
      ∃ args, validate_review args s = Ok tt ∧ s' = record_review s (review_report x call args)
  | ToolRemediation =>
      tool_stage call = Some TurnRemediate ∧
      ∃ ds, validate_remediations ds s = Ok tt ∧
        s' = with_review (fs_review s) ds (fs_review_history s) s
  end.

Lemma require_tool_stage_Ok call name stage u :
  require_tool_stage call name [stage] = Ok u → tool_stage call = Some stage.
Proof.
  unfold require_tool_stage. intros (st & Hst%ok_or_Ok & Hr)%bind_Ok.
  destruct (decide (st ∈ [stage])) as [E%list_elem_of_singleton|]; [by subst|done].
Qed.

(** A check before the update either refuses the call or lets it go on. *)
Lemma lift_then {S E A B : Type} (m : result E A) (k : A → proc S E B) s r s' :
  (proc_lift m ≫= k) s = (r, s') → (s' = s ∧ ∃ e, r = Err e) ∨ ∃ a, m = Ok a ∧ k a s = (r, s').
Proof. unfold mbind, proc_bind, proc_lift. destruct m; naive_solver. Qed.

Lemma respond_Ok {A : Type} (m : result Message A) a : respond m = Ok a ↔ m = Ok a.
Proof. destruct m; cbn; naive_solver. Qed.

(** A tool call either is refused before it touches the state, or it runs the
    update of a mutation whose success is the effect of the tool. *)
Definition refused_or_updates (x : FactoryToolExecutor) (effect : FactoryState → FactoryState → Prop)
    (w : AgentWorld W) (r : result FunctionCallError MutationReceipt) (w' : AgentWorld W) : Prop :=
  (w' = w ∧ ∃ e, r = Err e) ∨
  ∃ m r', update (te_state x) m w = (r', w') ∧ is_ok r = is_ok r' ∧ ∀ s s', m s = Ok s' → effect s s'.

Lemma update_and_receipt_updates x operation m (effect : FactoryState → FactoryState → Prop) w r w' :
  (∀ s s', m s = Ok s' → effect s s') →
  update_and_receipt x operation m w = (r, w') → refused_or_updates x effect w r w'.
Proof.
  intros Hm. unfold update_and_receipt. destruct (update _ m w) as [[s|e] w1] eqn:Hu; intros [= <- <-];
    right; by eexists m, _.
Qed.

Ltac check_or_refuse H a E :=
  apply lift_then in H as [Href|(a & E & H)]; [by left|].

Lemma handle_updates x call w r w' :
  handle x call w = (r, w') → refused_or_updates x (tool_effect x call) w r w'.
Proof.
  unfold handle, tool_effect. intros Hh. check_or_refuse Hh u0 Ha. apply respond_Ok in Ha.
  destruct (te_kind x); cbn in Ha.
  - apply require_tool_stage_Ok in Ha. unfold decompose in Hh. check_or_refuse Hh units Hp.
    check_or_refuse Hh u1 Hv. apply respond_Ok in Hv. destruct u1.
    eapply update_and_receipt_updates; [|exact Hh]. intros s s'. unfold decompose_mutation.
    rewrite bind_unit_Ok, guard_err_Ok, negb_false_iff, bool_decide_eq_true. intros [Hn [= <-]]. eauto.
  - apply require_tool_stage_Ok in Ha. unfold progress in Hh. check_or_refuse Hh args Hp.
    check_or_refuse Hh u1 Hi. check_or_refuse Hh u2 Hs. apply respond_Ok, require_bounded_text_Ok in Hs as [Ht _].
    eapply update_and_receipt_updates; [|exact Hh]. intros s s' Hm. split; [done|]. exists args.
    split_and!; [done..|]. apply progress_mutation_Ok in Hm as (_ & i & u & _ & _ & _ & ->). done.
  - unfold review in Hh. check_or_refuse Hh args Hp. eapply update_and_receipt_updates; [|exact Hh].
    intros s s'. unfold review_mutation. rewrite bind_unit_Ok. intros [Hv [= <-]]. split; [|eauto].
    destruct (te_context x); [by left|right]. by apply require_tool_stage_Ok in Ha.
  - apply require_tool_stage_Ok in Ha. unfold remediation in Hh. check_or_refuse Hh ds Hp.
    eapply update_and_receipt_updates; [|exact Hh].
    intros s s'. unfold remediation_mutation. rewrite bind_unit_Ok. intros [Hv [= <-]]. eauto.
Qed.

(** An accepted tool call was made in the stage its tool belongs to (or by a
    detached review), advances the revision by one, is stored and cached, and changes
    only what that stage owns: the plan stores a decomposition where there was none and
    the plan contract accepts it, execution changes only work units, a review records a
    report, remediation replaces only the remediation records. *)
Theorem tool_changes_own_fields x call w r w' :
  handle x call w = (Ok r, w') →
  ∃ s', tool_effect x call (effective (te_state x) w) s' ∧
    cached (te_state x) w' = Some (bump s') ∧ stored (aw_backend w') (te_state x) = Some (bump s') ∧
    (te_kind x = ToolDecompose → validate_plan (bump s') = Ok tt).
Proof.
  intros [[_ [e ?]]|(m & r' & Hu & Hr & Heff)]%handle_updates; [done|]. destruct r' as [s|]; [|done].
  apply update_updated in Hu as [_ Hu]. inversion Hu as [t w1 Hm Hc Hs Et Ew|]; subst.
  exists t. split_and!; [by apply Heff|done|done|]. intros Hk. specialize (Heff _ _ Hm).
  unfold tool_effect in Heff. rewrite Hk in Heff. destruct Heff as (_ & Hn & units & Hv & ->).
  destruct (decompose_mutation_plan units (effective (te_state x) w)
    (with_review None [] [] (with_work_units (pending_unit <$> units) (effective (te_state x) w)))) as [Hp _];
    [done| |].
  - unfold decompose_mutation. by rewrite Hn.
  - apply validate_plan_Ok in Hp. by apply validate_plan_Ok.
Qed.

(** ** The work-unit invariant *)

Lemma sound_default : sound_state default_state.
Proof. constructor; cbn; [by left|set_solver..]. Qed.

Lemma record_review_units s review : fs_work_units (record_review s review) = fs_work_units s.
Proof. unfold record_review. by destruct (same_turn s review). Qed.

Lemma tool_effect_sound x call s s' : tool_effect x call s s' → sound_state s → sound_state s'.
Proof.
  unfold tool_effect. intros He Hs. destruct (te_kind x).
  - destruct He as (_ & _ & units & Hv & ->). constructor; cbn.
    + right. by apply pending_units_decomposed.
    + intros u (a & -> & _)%list_elem_of_fmap. done.
    + intros u v (a & -> & _)%list_elem_of_fmap. done.
  - destruct He as (_ & args & Ht & Hm & _). by eapply progress_sound.
  - destruct He as (_ & args & _ & ->). eapply sound_state_units; [apply record_review_units|done].
  - destruct He as (_ & ds & _ & ->). by eapply sound_state_units; [|exact Hs].
Qed.

(** The numbers of a state stay within their 64 bits. *)
Lemma fits_default : fits_state default_state.
Proof. constructor; cbn; [unfold fits_u64, u64_max; lia|done..]. Qed.

Lemma saturating_succ_fits n : fits_u64 n → fits_u64 (saturating_succ n).
Proof. unfold fits_u64, saturating_succ, u64_max. lia. Qed.

Lemma fits_bump s : fits_state s → fits_state (bump s).
Proof. intros [Hr ? ? ? ?]. by constructor; [apply saturating_succ_fits|..]. Qed.

Lemma current_generation_fits s : fits_state s → fits_u64 (current_generation s).
Proof.
  intros [_ Hr Hc _ _]. unfold current_generation. destruct (fs_review s) as [r|]; [by apply Hr|].
  destruct (last (fs_review_history s)) as [c|] eqn:E; [|unfold fits_u64, u64_max; lia].
  rewrite Forall_forall in Hc. by apply Hc, last_Some_elem_of.
Qed.

Lemma record_review_fits s review : fits_state s → fits_state (record_review s review).
Proof.
  intros Hs. pose proof (current_generation_fits s Hs) as Hg. destruct Hs as [Hrev Hr Hc Hsub Hrec].
  unfold record_review. destruct (same_turn s review); (constructor; cbn; [done| | |done|done]).
  - intros r [= <-]. unfold fits_report, fits_u64, u64_max in *. cbn. lia.
  - done.
  - intros r [= <-]. unfold fits_report. cbn. by apply saturating_succ_fits.
  - destruct (fs_remediations s); [done|]. destruct (fs_review s) as [r|] eqn:E; [|done].
    apply Forall_app. split; [done|]. constructor; [by apply Hr|done].
Qed.

Lemma tool_effect_fits x call s s' : tool_effect x call s s' → fits_state s → fits_state s'.
Proof.
  unfold tool_effect. intros He Hs. destruct (te_kind x).
  - destruct He as (_ & _ & units & _ & ->). destruct Hs. by constructor.
  - destruct He as (_ & args & _ & _ & ->). destruct Hs. by constructor.
  - destruct He as (_ & args & _ & ->). by apply record_review_fits.
  - destruct He as (_ & ds & _ & ->). destruct Hs. by constructor.
Qed.

(** A state with sound work units and numbers in range. *)
Definition good_state (s : FactoryState) : Prop := sound_state s ∧ fits_state s.

Lemma good_representable s : good_state s → representable s.
Proof.
  intros [[[Hn|Hd] _ _] Hf]; (split; [|done]); [rewrite Hn; constructor|apply Hd].
Qed.

(** Every state a thread has or could load satisfies the invariant. *)
Definition world_sound (w : AgentWorld W) : Prop :=
  ∀ key s, cached key w = Some s ∨ stored (aw_backend w) key = Some s → good_state s.

Lemma effective_sound key w : world_sound w → good_state (effective key w).
Proof.
  intros Hw. unfold effective. destruct (cached key w) as [s|] eqn:Hc; [apply (Hw key); by left|].
  destruct (stored (aw_backend w) key) as [s|] eqn:Hs; [apply (Hw key); by right|split; [apply sound_default|apply fits_default]].
Qed.

Lemma get_or_create_sound key w : world_sound w → world_sound (get_or_create key w).
Proof.
  intros Hw k s. unfold get_or_create. destruct (aw_states w !! key) as [c|] eqn:E; [apply Hw|].
  unfold cached. cbn. destruct (decide (k = key)) as [->|Hk].
  - rewrite lookup_insert_eq. cbn. intros [?|?]; [done|]. apply (Hw key). by right.
  - rewrite lookup_insert_ne by done. apply Hw.
Qed.

Lemma update_sound key m w r w' :
  (∀ s', m (effective key w) = Ok s' → good_state s') →
  update key m w = (r, w') → world_sound w → world_sound w'.
Proof.
  intros Hm [Hk Hu]%update_updated Hw k s Hs. destruct (decide (k = key)) as [->|Hne].
  2:{ destruct (Hk k Hne) as [Ec Es]. rewrite Ec, Es in Hs. by apply (Hw k). }
  assert (∀ t, m (effective key w) = Ok t → good_state (bump t)) as Hb.
  { intros t [Hso Hfi]%Hm. split; [by eapply sound_state_units; [|exact Hso]|by apply fits_bump]. }
  destruct Hu as [t w1 Ht Hc Hst|e w1 Hc Hst].
  - rewrite Hc, Hst in Hs. assert (s = bump t) as -> by naive_solver. by apply Hb.
  - destruct Hs as [Hs|Hs].
    + destruct Hc as [Hc|Hc]; rewrite Hc in Hs; [apply (Hw key); by left|].
      injection Hs as <-. by apply effective_sound.
    + destruct Hst as [Hst|(t & Ht & Hst)]; [rewrite Hst in Hs; apply (Hw key); by right|].
      rewrite Hst in Hs by (by apply good_representable, Hb). injection Hs as <-. by apply Hb.
Qed.

(** The steps of a session: threads start and resume, tools are called. *)
Inductive session_step : AgentWorld W → AgentWorld W → Prop :=
| StepThreadStart t w : session_step w (on_thread_start t w).2
| StepThreadResume sc c thread w : session_step w (on_thread_resume sc c thread w).2
| StepSnapshot key r w w' : snapshot key w = (r, w') → session_step w w'
| StepTool x call r w w' : handle x call w = (r, w') → session_step w w'.

(** C17: The work-unit invariant: whatever threads start and whatever tools they call,
    with whatever arguments and outcomes, every state that is cached or stored has
    either no work units or a decomposition with distinct names, known, distinct and
    acyclic dependencies, every completed unit has evidence, a unit is completed only
    after everything it depends on, and all numbers stay within their 64 bits; so every
    one of them can be represented as a durable document. *)
Theorem sessions_keep_work_units_sound w w' :
  rtc session_step w w' → world_sound w →
  world_sound w' ∧ ∀ key s, cached key w' = Some s → representable s.
Proof.
  intros Hr Hw. assert (world_sound w') as Hw'; [|split; [done|]; intros key s Hc; apply good_representable, (Hw' key); by left].
  revert Hw. induction Hr as [|w w1 w' Hstep _ IH]; [done|]. intros Hw. apply IH. destruct Hstep as [t w|sc c th w|key r w w1 Hs|x call r w w1 Hh].
  - by apply get_or_create_sound.
  - by apply get_or_create_sound.
  - apply load_if_needed_spec in Hs as (Hk & Hst & Hr). intros k s Hks. destruct (decide (k = key)) as [->|Hne].
    + destruct Hks as [Hc|Hc]; [|apply (Hw key); right; congruence].
      destruct r as [t|e]; [|destruct Hr; congruence]. destruct Hr as [-> Ht].
      rewrite Ht in Hc. injection Hc as <-. by apply effective_sound.
    + destruct (Hk k Hne) as [Ec Es]. rewrite Ec, Es in Hks. by apply (Hw k).
  - apply handle_updates in Hh as [[-> _]|(m & r' & Hu & _ & Heff)]; [done|].
    eapply update_sound; [|exact Hu|done]. intros s' Hm. destruct (effective_sound (te_state x) w Hw) as [Hso Hfi]. specialize (Heff _ _ Hm).
    split; [by eapply tool_effect_sound|by eapply tool_effect_fits].
Qed.
End worlds.

(** ** Witnesses *)

#[export] Instance demo_backend_laws : BackendLaws Memory.
Proof.
  refine {| stored m key := m !! key |}.
  - intros key b r b' [= <- <-]. split; [done|]. by intros o [= <-].
  - intros key s b r b' [= <- <-]. split_and!.
    + intros k Hk. by rewrite lookup_insert_ne.
    + intros _. right. by rewrite lookup_insert_eq.
    + intros u _. by rewrite lookup_insert_eq.
Defined.

Definition demo_planned_world : AgentWorld Memory := (handle demo_planner demo_plan_call demo_world).2.

Lemma update_write_through_witness :
  update "parent" (decompose_mutation demo_args) demo_world = (Ok demo_planned, demo_planned_world) ∧
  cached "parent" demo_planned_world = Some demo_planned.
Proof.
  assert (update "parent" (decompose_mutation demo_args) demo_world = (Ok demo_planned, demo_planned_world)) as Hu
    by (vm_compute; reflexivity).
  split; [exact Hu|].
  destruct (update_write_through "parent" (decompose_mutation demo_args) demo_world (Ok demo_planned) demo_planned_world Hu)
    as [_ (t & _ & _ & Hc & _)].
  exact Hc.
Defined.

Definition demo_receipt : MutationReceipt := mkMutationReceipt "decompose" 1 2 0 0.

Lemma tool_changes_own_fields_witness :
  handle demo_planner demo_plan_call demo_world = (Ok demo_receipt, demo_planned_world) ∧
  ∃ s', cached "parent" demo_planned_world = Some (bump s') ∧ validate_plan (bump s') = Ok tt.
Proof.
  assert (handle demo_planner demo_plan_call demo_world = (Ok demo_receipt, demo_planned_world)) as Hh
    by (vm_compute; reflexivity).
  split; [exact Hh|].
  destruct (tool_changes_own_fields demo_planner demo_plan_call demo_world demo_receipt demo_planned_world Hh)
    as (s' & _ & Hc & _ & Hp).
  exists s'. split; [exact Hc|]. apply Hp. reflexivity.
Defined.

Lemma sessions_keep_work_units_sound_witness :
  rtc session_step demo_world demo_planned_world ∧ world_sound demo_planned_world.
Proof.
  assert (rtc session_step demo_world demo_planned_world) as Hr.
  { apply rtc_once. eapply (StepTool demo_planner demo_plan_call). apply surjective_pairing. }
  split; [exact Hr|]. refine (proj1 (sessions_keep_work_units_sound demo_world demo_planned_world Hr _)).
  intros key s [Hc|Hc].
  - unfold cached, demo_world in Hc. cbn in Hc. destruct (decide (key = "parent")) as [->|Hne].
    + rewrite lookup_singleton_eq in Hc. discriminate Hc.
    + rewrite lookup_singleton_ne in Hc by (symmetry; exact Hne). discriminate Hc.
  - cbn in Hc. rewrite lookup_empty in Hc. discriminate Hc.
Defined.
