(* ===== verification/ReviewLaws.v ===== *)
(** * Reviews and remediations

    The review tool against the review contract: a review recorded by the
    detached review of a turn is the one the contract expects, however often it
    is recorded; a remediation the tool accepts fulfils the contract exactly
    when it answers every finding; and rolling a detached review back restores
    the state it started from. *)

From S2P Require Import Prelude Sequences AgentState WorkGraph AgentTools Stages AgentDemo AgentLaws AgentWorlds.
From Stdlib Require Import ZArith Ascii String.
From stdpp Require Import base gmap strings list option relations.

#[local] Open Scope string_scope.
#[local] Open Scope Z_scope.
#[local] Open Scope list_scope.

#[local] Opaque each_new for_each acyclic_check guard_err require_bounded_text.

(** ** Rollback *)

(** A review or a remediation the tools accept. *)
Inductive review_change : FactoryState → FactoryState → Prop :=
| ReviewRecorded report args s t :
    review_mutation report args s = Ok t → review_change s (bump t)
| RemediationRecorded ds s t :
    remediation_mutation ds s = Ok t → review_change s (bump t).

(** Everything but the fields a review owns and the revision. *)
Definition unowned (s : FactoryState) :=
  (fs_work_units s, fs_subagents s, fs_subagent_history s, fs_review_recovery s).

Lemma record_review_unowned s review : unowned (record_review s review) = unowned s.
Proof. unfold record_review. by destruct (same_turn s review). Qed.

Lemma review_change_unowned s s' : review_change s s' → unowned s' = unowned s.
Proof.
  destruct 1 as [report args s t Hm|ds s t Hm].
  - unfold review_mutation in Hm. rewrite bind_unit_Ok in Hm. destruct Hm as [_ [= <-]].
    by rewrite <- (record_review_unowned s report).
  - unfold remediation_mutation in Hm. rewrite bind_unit_Ok in Hm. by destruct Hm as [_ [= <-]].
Qed.

(** A detached review can be undone exactly: after the rollback point has been
    taken, rolling back after any number of recorded reviews and remediations gives the
    very state the rollback point was taken in, revision included, with an earlier
    unfinished review undone as well. *)
Theorem review_rollback_exact s s' :
  rtc review_change (prepare_review_recovery s) s' →
  rollback_review_recovery s' = (true, (rollback_review_recovery s).2).
Proof.
  intros Hr. assert (unowned s' = unowned (prepare_review_recovery s)) as Hu.
  { induction Hr as [|a b c Hab _ IH]; [done|]. by rewrite IH, (review_change_unowned a b). }
  set (s0 := (rollback_review_recovery s).2) in *.
  assert (fs_review_recovery s0 = None) as Hn.
  { unfold s0, rollback_review_recovery. by destruct (fs_review_recovery s) eqn:E. }
  unfold prepare_review_recovery in Hu. fold s0 in Hu. unfold unowned in Hu. cbn in Hu.
  destruct s' as [rev units rvw rems hist subs subh rec], s0. cbn in *. injection Hu as -> -> -> ->.
  by subst.
Qed.

(** ** Recording *)

Section reviews.
Context `{HashOrder} `{JsonText}.

(** The calls one detached review makes of its tool. *)
Fixpoint run_reviews (x : FactoryToolExecutor) (calls : list (ToolCall * ReviewArgs)) (s : FactoryState) :
    result Message FactoryState :=
  match calls with
  | [] => Ok s
  | (call, args) :: r => t ← review_mutation (review_report x call args) args s; run_reviews x r (bump t)
  end.

(** The state after at least one accepted call of a turn. *)
Record reviewed (x : FactoryToolExecutor) (turn : string) (s0 s : FactoryState) : Prop := {
  rv_units : fs_work_units s = fs_work_units s0;
  rv_remediations : fs_remediations s = [];
  rv_report : ∃ call args, call_turn_id call = turn ∧ validate_review args s0 = Ok tt ∧
    fs_review s = Some (with_generation (saturating_succ (current_generation s0)) (review_report x call args));
}.

Lemma validate_review_units args s s' :
  fs_work_units s' = fs_work_units s → validate_review args s' = validate_review args s.
Proof. intros E. unfold validate_review. by rewrite E. Qed.

Lemma report_turn x call args : rr_recorded_turn_id (review_report x call args) = Some (call_turn_id call).
Proof. unfold review_report. by destruct (te_context x). Qed.

Lemma first_review x call args s t :
  review_mutation (review_report x call args) args s = Ok t →
  (∀ r, fs_review s = Some r → rr_recorded_turn_id r ≠ Some (call_turn_id call)) →
  reviewed x (call_turn_id call) s (bump t).
Proof.
  unfold review_mutation. rewrite bind_unit_Ok. intros [Hv [= <-]] Hnew. unfold record_review.
  assert (same_turn s (review_report x call args) = false) as ->.
  { unfold same_turn. destruct (fs_review s) as [r|]; [|done]. rewrite report_turn.
    apply andb_false_iff. right. apply bool_decide_eq_false. by apply Hnew. }
  constructor; [done..|]. by exists call, args.
Qed.

Lemma next_review x call args s0 s t :
  0 ≤ current_generation s0 → reviewed x (call_turn_id call) s0 s →
  review_mutation (review_report x call args) args s = Ok t → reviewed x (call_turn_id call) s0 (bump t).
Proof.
  intros Hg [Hu Hr (c & a & Hc & _ & Hrep)]. unfold review_mutation. rewrite bind_unit_Ok.
  rewrite (validate_review_units _ s0 s Hu). intros [Hv [= <-]]. unfold record_review.
  assert (same_turn s (review_report x call args) = true) as ->.
  { unfold same_turn. rewrite Hrep. cbn. rewrite !report_turn, Hc. by rewrite !bool_decide_eq_true_2. }
  constructor; cbn; [done..|]. exists call, args. split_and!; [done..|]. unfold current_generation at 1.
  rewrite Hrep. cbn. rewrite Z.max_l; [done|]. unfold saturating_succ, u64_max. lia.
Qed.

Lemma run_reviews_reviewed x turn calls s s' :
  calls ≠ [] → Forall (λ c, call_turn_id c.1 = turn) calls → 0 ≤ current_generation s →
  (∀ r, fs_review s = Some r → rr_recorded_turn_id r ≠ Some turn) →
  run_reviews x calls s = Ok s' → reviewed x turn s s'.
Proof.
  intros Hne Hturn Hg Hnew. destruct calls as [|[call args] calls]; [done|].
  apply Forall_cons in Hturn as [<- Hturn]. cbn. intros (t & H1 & Hr)%bind_Ok.
  apply first_review in H1; [|done]. revert Hr H1. generalize (bump t) as s1.
  induction calls as [|[c a] calls IH]; intros s1; cbn; [by intros [= ->]|].
  apply Forall_cons in Hturn as [Hc Hturn]. cbn in Hc. rewrite <- Hc in *.
  intros (t' & H2 & Hr)%bind_Ok Hs1. apply (IH ltac:(done) Hturn (bump t')); [done|]. by eapply next_review.
Qed.

(** ** The review contract *)

(** Findings as both checks read them. *)
Definition findings_ok (findings : list FactoryReviewFinding) (units : list FactoryWorkUnit) : Prop :=
  NoDup (rf_id <$> findings) ∧
  Forall (λ f, texted (rf_id f) ∧ texted (rf_unit_id f) ∧ texted (rf_title f) ∧ texted (rf_evidence f) ∧
    texted (rf_recommendation f) ∧ rf_unit_id f ∈ wu_id <$> units) findings.

(** The verdict and the findings agree. *)
Definition verdict_ok (verdict : FactoryReviewVerdict) (findings : list FactoryReviewFinding) : Prop :=
  verdict = Approve ↔ findings = [].

Lemma verdict_checks {E : Type} verdict findings (e1 e2 : E) (k : result E unit) :
  (_ ← guard_err (bool_decide (verdict ≠ Approve) && bool_decide (findings = [])) e1;
   _ ← guard_err (bool_decide (verdict = Approve) && negb (bool_decide (findings = []))) e2; k) = Ok tt ↔
  verdict_ok verdict findings ∧ k = Ok tt.
Proof.
  rewrite !bind_unit_Ok, !guard_err_Ok, !andb_false_iff, negb_false_iff, !bool_decide_eq_false, bool_decide_eq_true.
  unfold verdict_ok. destruct (decide (verdict = Approve)), (decide (findings = [])); tauto.
Qed.

Lemma known_unit_Ok {E : Type} f (units : list FactoryWorkUnit) (e : E) :
  guard_err (bool_decide (rf_unit_id f ∉ (list_to_set (wu_id <$> units) : gset string))) e = Ok tt ↔
  rf_unit_id f ∈ wu_id <$> units.
Proof.
  rewrite guard_err_Ok, bool_decide_eq_false, elem_of_list_to_set.
  destruct (decide (rf_unit_id f ∈ wu_id <$> units)); tauto.
Qed.

Lemma validate_review_Ok args s :
  validate_review args s = Ok tt →
  texted (ra_summary args) ∧ verdict_ok (ra_verdict args) (ra_findings args) ∧
  findings_ok (ra_findings args) (fs_work_units s).
Proof.
  unfold validate_review. rewrite 2!bind_unit_Ok, require_bounded_text_Ok, verdict_checks, each_new_Ok.
  intros ([Ht _] & _ & Hv & Hf & Hnd). split_and!; [done..|]. split; [done|].
  eapply Forall_impl; [exact Hf|]. intros f [Hc Hk%known_unit_Ok]. unfold check_finding in Hc.
  rewrite !bind_unit_Ok, !require_bounded_text_Ok in Hc. unfold texted. tauto.
Qed.

Lemma require_optional_text_Ok fld o v : require_optional_text fld o = Ok v ↔ o = Some v ∧ texted v.
Proof.
  unfold require_optional_text. rewrite bind_Ok. setoid_rewrite ok_or_Ok. setoid_rewrite bind_unit_Ok.
  setoid_rewrite require_text_Ok. naive_solver.
Qed.

(** The provenance of a report, with the parent it is expected to have. *)
Definition provenance_ok (r : FactoryReviewReport) (b : option ReviewBaseline) : Prop :=
  ∃ turn thread parent parent_turn,
    rr_recorded_turn_id r = Some turn ∧ rr_recorded_thread_id r = Some thread ∧
    rr_recorded_parent_thread_id r = Some parent ∧ rr_recorded_parent_turn_id r = Some parent_turn ∧
    rr_recorded_subagent_kind r = Some "review" ∧
    texted turn ∧ texted thread ∧ texted parent ∧ texted parent_turn ∧ thread ≠ parent ∧
    (∀ b', b = Some b' → parent = bl_parent_thread_id b' ∧ parent_turn = bl_parent_turn_id b').

Lemma check_provenance_accepts r b : provenance_ok r b → check_provenance r b = Ok tt.
Proof.
  intros (turn & thread & parent & parent_turn & E1 & E2 & E3 & E4 & E5 & T1 & T2 & T3 & T4 & Hne & Hb).
  unfold check_provenance. apply bind_Ok. exists turn. rewrite require_optional_text_Ok. split; [done|].
  apply bind_Ok. exists thread. rewrite require_optional_text_Ok. split; [done|].
  apply bind_Ok. exists parent. rewrite require_optional_text_Ok. split; [done|].
  apply bind_Ok. exists parent_turn. rewrite require_optional_text_Ok. split; [done|].
  apply bind_Ok. exists "review". rewrite require_optional_text_Ok. split; [done|].
  rewrite !bind_unit_Ok, !guard_err_Ok, !bool_decide_eq_false. split_and!; [naive_solver|done|].
  destruct b as [b|]; [|done]. destruct (Hb b eq_refl) as [-> ->].
  rewrite bind_unit_Ok, !guard_err_Ok, !bool_decide_eq_false. naive_solver.
Qed.

Lemma validate_review_report_accepts r s b :
  1 ≤ rr_generation r → (∀ b', b = Some b' → bl_generation b' < rr_generation r) →
  texted (rr_summary r) → provenance_ok r b → verdict_ok (rr_verdict r) (rr_findings r) →
  findings_ok (rr_findings r) (fs_work_units s) → validate_review_report r s b = Ok tt.
Proof.
  intros Hg Hb Ht Hp Hv [Hnd Hf]. unfold validate_review_report.
  rewrite 3!bind_unit_Ok, verdict_checks, each_new_Ok, require_text_Ok. split_and!; [|done|by apply check_provenance_accepts|done| |done].
  - unfold check_generation. rewrite bind_unit_Ok, guard_err_Ok, Z.eqb_neq. split; [lia|].
    destruct b as [b|]; [|done]. rewrite guard_err_Ok, Z.leb_gt. by apply Hb.
  - eapply Forall_impl; [exact Hf|]. intros f (?&?&?&?&?&Hk). split; [|by apply known_unit_Ok].
    unfold validate_finding. by rewrite !bind_unit_Ok, !require_text_Ok.
Qed.

Lemma validate_execute_units s s' :
  fs_work_units s' = fs_work_units s → validate_execute s = Ok tt → validate_execute s' = Ok tt.
Proof. rewrite !validate_execute_Ok. by intros ->. Qed.

(** A review recorded one or more times by its turn is the one the contract
    expects, against the baseline taken before; the last report counts. *)
Lemma recorded_review_accepted x ctx turn calls s s' b :
  te_context x = Some ctx → validate_execute s = Ok tt →
  baseline_capture s (drc_parent_thread_id ctx) (drc_parent_turn_id ctx) = Ok b →
  texted turn → texted (te_active_thread_id x) → te_active_thread_id x ≠ drc_parent_thread_id ctx →
  (∀ r, fs_review s = Some r → rr_recorded_turn_id r ≠ Some turn) →
  0 ≤ current_generation s < u64_max →
  calls ≠ [] → Forall (λ c, call_turn_id c.1 = turn) calls → run_reviews x calls s = Ok s' →
  validate_review_stage s' b = Ok tt ∧ fs_remediations s' = [] ∧
  ∃ r, fs_review s' = Some r ∧ rr_generation r = current_generation s + 1 ∧
    rr_recorded_turn_id r = Some turn ∧ rr_recorded_thread_id r = Some (te_active_thread_id x).
Proof.
  intros Hx He Hb Htt Hth Hne Hnew Hg Hc Hturn Hr.
  destruct (run_reviews_reviewed x turn calls s s') as [Hu Hrem (call & args & Hct & Hv & Hrep)]; [done|done|lia|done..|].
  unfold baseline_capture, baseline_from_parts in Hb. rewrite !bind_unit_Ok, !require_text_Ok in Hb.
  destruct Hb as (Tp & Tt & [= <-]).
  assert (saturating_succ (current_generation s) = current_generation s + 1) as Hs by (unfold saturating_succ; lia).
  rewrite Hs in Hrep. apply validate_review_Ok in Hv as (Hts & Hvd & Hf). split_and!; [|done|].
  2:{ eexists. split; [done|]. unfold review_report. rewrite Hx. cbn. by rewrite Hct. }
  unfold validate_review_stage. rewrite bind_unit_Ok. split; [by eapply validate_execute_units|].
  rewrite Hrep. cbn. unfold review_report in *. rewrite Hx in *. apply validate_review_report_accepts; cbn.
  - lia.
  - intros b' [= <-]. cbn. unfold current_generation in *. destruct (fs_review s); lia.
  - done.
  - exists (call_turn_id call), (te_active_thread_id x), (drc_parent_thread_id ctx), (drc_parent_turn_id ctx).
    cbn. rewrite Hct. split_and!; [done..|]. by intros b' [= <-].
  - done.
  - by rewrite Hu.
Qed.

(** ** The remediation contract *)

Lemma match_finding_matches findings d :
  match_finding findings d = Ok tt ↔ record_matches findings d = Ok tt.
Proof.
  unfold match_finding, record_matches. rewrite !bind_Ok. setoid_rewrite ok_or_Ok. setoid_rewrite guard_err_Ok. done.
Qed.

Lemma validate_remediations_Ok ds s r :
  fs_review s = Some r → validate_remediations ds s = Ok tt →
  ds ≠ [] ∧ NoDup (rem_finding_id <$> ds) ∧
  Forall (λ d, validate_record d = Ok tt ∧
    record_matches (collect_map rf_id rf_unit_id (rr_findings r)) d = Ok tt) ds.
Proof.
  intros Hr. unfold validate_remediations. rewrite 2!bind_unit_Ok, guard_err_Ok, bool_decide_eq_false, Hr. cbn.
  rewrite each_new_Ok. intros (Hne & _ & Hf & Hnd). split_and!; [done..|].
  eapply Forall_impl; [exact Hf|]. intros d [Hc Hm]. split; [|by apply match_finding_matches].
  unfold check_disposition in Hc. unfold validate_record.
  rewrite !bind_unit_Ok, !require_bounded_text_Ok in Hc. rewrite !bind_unit_Ok, !require_text_Ok. unfold texted. tauto.
Qed.

(** A remediation the tool accepts fulfils the remediation contract exactly when
    it answers every finding of the current review: starting from a state with a valid
    review that asks for changes, the contract accepts the stored dispositions if and
    only if there are as many of them as findings, and then the answered findings are
    exactly the findings of the review. *)
Theorem remediation_answers_findings ds s t r :
  validate_execute s = Ok tt → fs_review s = Some r → rr_verdict r ≠ Approve →
  validate_review_report r s None = Ok tt → remediation_mutation ds s = Ok t →
  (validate_remediation t = Ok tt ↔ length ds = length (rr_findings r)) ∧
  (validate_remediation t = Ok tt → rem_finding_id <$> ds ≡ₚ rf_id <$> rr_findings r).
Proof.
  intros He Hr Hv Hrep. unfold remediation_mutation. rewrite bind_unit_Ok. intros [Hd [= <-]].
  apply (validate_remediations_Ok ds s r Hr) in Hd as (Hne & Hnd & Hf).
  assert (validate_remediation (with_review (fs_review s) ds (fs_review_history s) s) = Ok tt ↔
    length ds = length (rr_findings r)) as Hiff.
  { unfold validate_remediation. rewrite bind_unit_Ok. cbn. rewrite Hr. cbn. rewrite bind_unit_Ok, decide_False by done.
    rewrite bind_unit_Ok, guard_err_Ok, bool_decide_eq_false, each_new_Ok.
    split; [intros (_&_&Hl&_); by apply dec_stable|]. intros Hl.
    split_and!; [by eapply validate_execute_units; [|exact He]|exact Hrep|naive_solver|done|done]. }
  split; [done|]. intros Hl%Hiff.
  assert (NoDup (rf_id <$> rr_findings r)) as Hnf.
  { unfold validate_review_report in Hrep. rewrite 3!bind_unit_Ok, verdict_checks, each_new_Ok in Hrep. tauto. }
  apply submseteq_length_Permutation; [|by rewrite !length_fmap; lia].
  apply NoDup_submseteq; [done|]. intros x (d & -> & Hd)%list_elem_of_fmap.
  rewrite Forall_forall in Hf. destruct (Hf d Hd) as [_ Hm]. unfold record_matches in Hm.
  apply bind_Ok in Hm as (unit_id & Hl'%ok_or_Ok & _).
  apply collect_map_lookup in Hl' as (f & Hin & <- & _); [|done]. by apply list_elem_of_fmap_2.
Qed.
End reviews.

(** ** Witnesses *)

Lemma review_rollback_exact_witness :
  rtc review_change (prepare_review_recovery demo_executed)
    (bump (record_review (prepare_review_recovery demo_executed) demo_report)) ∧
  rollback_review_recovery (bump (record_review (prepare_review_recovery demo_executed) demo_report))
  = (true, demo_executed).
Proof.
  assert (rtc review_change (prepare_review_recovery demo_executed)
    (bump (record_review (prepare_review_recovery demo_executed) demo_report))) as Hr.
  { apply rtc_once. apply (ReviewRecorded demo_report demo_review_args). vm_compute. reflexivity. }
  split; [exact Hr|]. apply (review_rollback_exact demo_executed). exact Hr.
Defined.

Lemma remediation_answers_findings_witness :
  validate_remediation (with_review (Some demo_report) [demo_disposition] [] demo_reviewed) = Ok tt ∧
  rem_finding_id <$> [demo_disposition] ≡ₚ rf_id <$> rr_findings demo_report.
Proof.
  destruct (remediation_answers_findings [demo_disposition] demo_reviewed
    (with_review (Some demo_report) [demo_disposition] [] demo_reviewed) demo_report) as [H1 H2];
    [vm_compute; reflexivity|reflexivity|discriminate|vm_compute; reflexivity|vm_compute; reflexivity|].
  split; [apply H1; reflexivity|]. apply H2, H1. reflexivity.
Defined.
