(* ===== verification/StateDocumentLaws.v ===== *)
(** * Laws of the state document

    A state written into its document and stored as JSON is read back exactly,
    provided its numbers fit the wire format and its work units have distinct
    names; and a document is refused exactly when its parts do not describe one
    state. *)

From S2P Require Import Prelude Sequences Serde AgentState StateDocument AgentDemo.
From Stdlib Require Import ZArith Ascii String.
From stdpp Require Import base gmap strings option list.

#[local] Open Scope string_scope.
#[local] Open Scope Z_scope.
#[local] Open Scope list_scope.

(** ** Codecs *)

#[export] Instance serde_progress_law : SerdeRoundTrip FactoryProgressStatus (λ _, True).
Proof. by intros [] _. Qed.
#[export] Instance serde_verdict_law : SerdeRoundTrip FactoryReviewVerdict (λ _, True).
Proof. by intros [] _. Qed.
#[export] Instance serde_severity_law : SerdeRoundTrip FactoryFindingSeverity (λ _, True).
Proof. by intros [] _. Qed.
#[export] Instance serde_disposition_law : SerdeRoundTrip FactoryRemediationDisposition (λ _, True).
Proof. by intros [] _. Qed.
#[export] Instance serde_subagent_tool_law : SerdeRoundTrip FactorySubagentTool (λ _, True).
Proof. by intros [] _. Qed.
#[export] Instance serde_call_status_law : SerdeRoundTrip FactorySubagentToolCallStatus (λ _, True).
Proof. by intros [] _. Qed.
#[export] Instance serde_subagent_status_law : SerdeRoundTrip FactorySubagentStatus (λ _, True).
Proof. by intros [] _. Qed.
#[export] Instance serde_history_source_law : SerdeRoundTrip FactorySubagentHistorySource (λ _, True).
Proof. by intros [] _. Qed.

Lemma trivial_list {A : Type} (l : list A) : Forall (λ _, True) l.
Proof. by apply Forall_true. Qed.
#[local] Hint Resolve trivial_list : core.

#[export] Instance serde_finding_law : SerdeRoundTrip FactoryReviewFinding (λ _, True).
Proof. intros [] _. cbn [de ser serde_finding]; unfold de_finding, ser_finding. read_back. done. Qed.

#[export] Instance serde_report_law : SerdeRoundTrip FactoryReviewReport fits_report.
Proof.
  intros [g t1 t2 t3 t4 t5 v s f] Hf. unfold fits_report in Hf. cbn in Hf. cbn [de ser serde_report]; unfold de_report, ser_report.
  destruct t1, t2, t3, t4, t5; read_back; done.
Qed.

#[export] Instance serde_remediation_law : SerdeRoundTrip FactoryRemediationRecord (λ _, True).
Proof. intros [] _. cbn [de ser serde_remediation]; unfold de_remediation, ser_remediation. read_back. done. Qed.

#[export] Instance serde_cycle_law : SerdeRoundTrip FactoryReviewCycle fits_cycle.
Proof. intros [] Hf. cbn [de ser serde_cycle]; unfold de_cycle, ser_cycle. read_back. done. Qed.

#[export] Instance serde_baseline_law : SerdeRoundTrip FactoryReviewRecoveryBaseline fits_baseline.
Proof. intros [rev r rs h] (Hr & Hv & Hh); cbn in Hr, Hv, Hh; cbn [de ser serde_baseline]; unfold de_baseline, ser_baseline. read_back. done. Qed.

#[export] Instance serde_subagent_state_law : SerdeRoundTrip FactorySubagentState (λ _, True).
Proof. intros [] _. cbn [de ser serde_subagent_state]; unfold de_subagent_state, ser_subagent_state. read_back. done. Qed.

#[export] Instance serde_activity_law : SerdeRoundTrip FactorySubagentActivity (λ _, True).
Proof. intros [] _. cbn [de ser serde_activity]; unfold de_activity, ser_activity. read_back. done. Qed.

#[export] Instance serde_history_law : SerdeRoundTrip FactorySubagentHistory fits_history.
Proof. intros [] Hf. unfold fits_history in Hf. cbn in Hf; cbn [de ser serde_history]; unfold de_history, ser_history. read_back. done. Qed.

#[export] Instance serde_definition_law : SerdeRoundTrip WorkUnitDefinition (λ _, True).
Proof. intros [] _. cbn [de ser serde_definition]; unfold de_definition, ser_definition. read_back. done. Qed.

#[export] Instance serde_unit_progress_law : SerdeRoundTrip WorkUnitProgress (λ _, True).
Proof. intros [] _. cbn [de ser serde_unit_progress]; unfold de_unit_progress, ser_unit_progress. read_back. done. Qed.

#[export] Instance serde_decomposition_law :
  SerdeRoundTrip DecompositionDocument (λ d, fits_u64 (dd_revision d)).
Proof. intros [] Hf. cbn in Hf; cbn [de ser serde_decomposition]; unfold de_decomposition, ser_decomposition. read_back. done. Qed.

#[export] Instance serde_subagents_law :
  SerdeRoundTrip SubagentsDocument (λ d, ∀ h, sd_history d = Some h → fits_history h).
Proof.
  intros [a [h|]] Hf; cbn in Hf; cbn [de ser serde_subagents]; unfold de_subagents, ser_subagents; [|by read_back].
  specialize (Hf h eq_refl). read_back.
  change (ser h) with (ser (Some h)). by rewrite de_ser_option by naive_solver.
Qed.

Lemma list_document_read {A : Type} `{Serde A} {fits : A → Prop} `{!SerdeRoundTrip A fits} name (l : list A) :
  Forall fits l → de_list_document name (ser_list_document name l) = Some l.
Proof.
  intros Hl. unfold de_list_document, ser_list_document. rewrite struct_fields_object.
  cbn -[ser de]. unfold written. cbn -[ser de]. rewrite String.eqb_refl. cbn -[ser de]. by rewrite de_ser.
Qed.

(** ** Units and their progress *)

Section join.
Context `{DecodeText}.

Lemma index_progress_Ok l m m' :
  index_progress m l = Ok m' ↔
  NoDup (wp_id <$> l) ∧ Forall (λ e, m !! wp_id e = None) l ∧
  m' = foldl (λ m e, <[wp_id e := e]> m) m l.
Proof.
  revert m. induction l as [|e l IH]; intros m; cbn.
  { split; [intros [= <-]; split_and!; [apply NoDup_nil_2|done..]|naive_solver]. }
  rewrite NoDup_cons, Forall_cons. destruct (decide (is_Some (m !! wp_id e))) as [Hs|Hn].
  { split; [done|]. intros (_ & [Hn _] & _). rewrite Hn in Hs. by destruct Hs. }
  apply eq_None_not_Some in Hn. rewrite IH. split.
  - intros (Hnd & Hf & ->). rewrite Forall_forall in Hf. split_and!; [|done|done| |done].
    + intros (x & Hk & Hx)%list_elem_of_fmap. specialize (Hf x Hx). by rewrite Hk, lookup_insert_eq in Hf.
    + apply Forall_forall. intros x Hx. specialize (Hf x Hx). destruct (decide (wp_id x = wp_id e)) as [E|E];
        [by rewrite E, lookup_insert_eq in Hf|by rewrite lookup_insert_ne in Hf].
  - intros ([Hni Hnd] & [_ Hf] & ->). split_and!; [done| |done]. rewrite Forall_forall in Hf |- *.
    intros x Hx. rewrite lookup_insert_ne; [by apply Hf|]. intros E. apply Hni. rewrite E. by apply list_elem_of_fmap_2.
Qed.

(** The index of distinct entries. *)
Lemma index_progress_collect l :
  NoDup (wp_id <$> l) → index_progress ∅ l = Ok (collect_map wp_id id l).
Proof. intros Hnd. apply index_progress_Ok. split_and!; [done| |done]. apply Forall_forall. by intros. Qed.

Lemma index_progress_dup l : ¬ NoDup (wp_id <$> l) →
  index_progress ∅ l = Err [Lit "Factory progress contains a duplicate work-unit ID"].
Proof.
  intros Hn. destruct (index_progress ∅ l) as [m|e] eqn:E.
  { apply index_progress_Ok in E as [? _]. done. }
  f_equal. revert E. clear Hn. generalize (∅ : gmap string WorkUnitProgress).
  induction l as [|x l IH]; intros m; cbn; [done|]. destruct (decide _); [naive_solver|apply IH].
Qed.

Lemma Forall2_weaken {A B : Type} (P Q : A → B → Prop) l k :
  (∀ x y, x ∈ l → P x y → Q x y) → Forall2 P l k → Forall2 Q l k.
Proof.
  intros HPQ Hf. induction Hf as [|x y l k Hxy Hf IH]; constructor; [apply HPQ; [left|done]|].
  apply IH. intros a b Ha. apply HPQ. by right.
Qed.

(** The unit of a definition whose entry is in the index. *)
Definition joined (m : gmap string WorkUnitProgress) (d : WorkUnitDefinition) (u : FactoryWorkUnit) : Prop :=
  ∃ p, m !! wd_id d = Some p ∧ u = merge_unit d p.

Lemma joined_delete m x l us :
  x ∉ wd_id <$> l → Forall2 (joined (delete x m)) l us ↔ Forall2 (joined m) l us.
Proof.
  intros Hx. assert (∀ d, d ∈ l → delete x m !! wd_id d = m !! wd_id d) as He.
  { intros d Hd. apply lookup_delete_ne. intros ->. apply Hx. by apply list_elem_of_fmap_2. }
  split; apply Forall2_weaken; intros d u Hd; unfold joined; by rewrite He.
Qed.

(** Joining takes every definition's entry out of the index, once. *)
Lemma join_units_Ok l m us rest :
  join_units m l = Ok (us, rest) ↔
  NoDup (wd_id <$> l) ∧ Forall2 (joined m) l us ∧ rest = foldl (λ m d, delete (wd_id d) m) m l.
Proof.
  revert m us rest. induction l as [|d l IH]; intros m us rest; cbn.
  { split; [intros [= <- <-]; split_and!; [apply NoDup_nil_2|constructor|done]|].
    intros (_ & ->%Forall2_nil_inv_l & ->). done. }
  rewrite bind_Ok, NoDup_cons. setoid_rewrite ok_or_Ok. setoid_rewrite bind_Ok. split.
  - intros (p & Hp & [us' rest'] & (Hnd & Hf & ->)%IH & [= <- <-]).
    assert (wd_id d ∉ wd_id <$> l) as Hd.
    { intros (d' & E & Hd')%list_elem_of_fmap. apply list_elem_of_lookup in Hd' as [i Hi].
      destruct (Forall2_lookup_l _ _ _ _ _ Hf Hi) as (u & _ & q & Hq & _).
      by rewrite E, lookup_delete_eq in Hq. }
    split_and!; [done..| |done]. constructor; [by exists p|by eapply joined_delete].
  - intros ([Hd Hnd] & (u & us' & (p & Hp & ->) & Hf & ->)%Forall2_cons_inv_l & ->).
    exists p. split; [done|]. exists (us', foldl (λ m d, delete (wd_id d) m) (delete (wd_id d) m) l).
    split; [|done]. apply IH. split_and!; [done|by apply joined_delete|done].
Qed.

Lemma foldl_delete_lookup l (m : gmap string WorkUnitProgress) k :
  foldl (λ m d, delete (wd_id d) m) m l !! k = if decide (k ∈ wd_id <$> l) then None else m !! k.
Proof.
  revert m. induction l as [|d l IH]; intros m; cbn; [done|]. rewrite IH.
  destruct (decide (k ∈ wd_id <$> l)) as [Hl|Hl]; [by rewrite decide_True by set_solver|].
  destruct (decide (k = wd_id d)) as [->|Hne].
  - by rewrite lookup_delete_eq, decide_True by set_solver.
  - by rewrite lookup_delete_ne, decide_False by set_solver.
Qed.

Lemma join_progress_Ok definitions progress us :
  join_progress definitions progress = Ok us ↔
  NoDup (wp_id <$> progress) ∧ wd_id <$> definitions ≡ₚ wp_id <$> progress ∧
  Forall2 (joined (collect_map wp_id id progress)) definitions us.
Proof.
  unfold join_progress. destruct (decide (NoDup (wp_id <$> progress))) as [Hnd|Hnd].
  2:{ rewrite index_progress_dup by done. cbn. naive_solver. }
  rewrite index_progress_collect by done. cbn. rewrite bind_Ok.
  assert (∀ k, is_Some (collect_map wp_id id progress !! k) ↔ k ∈ wp_id <$> progress) as Hdom.
  { intros k. unfold is_Some. setoid_rewrite collect_map_lookup; [|done]. rewrite list_elem_of_fmap. naive_solver. }
  split.
  - intros ([us' rest] & (Hd & Hf & ->)%join_units_Ok & Hr). cbn in Hr.
    destruct (decide (foldl _ _ _ = ∅)) as [He|]; [|done]. injection Hr as <-. split_and!; [done| |done].
    apply NoDup_Permutation; [done..|]. intros k. rewrite <- Hdom. split.
    + intros (d & -> & [i Hi]%list_elem_of_lookup)%list_elem_of_fmap.
      destruct (Forall2_lookup_l _ _ _ _ _ Hf Hi) as (u & _ & q & Hq & _). by exists q.
    + intros [q Hq]. assert (foldl (λ m d, delete (wd_id d) m) (collect_map wp_id id progress) definitions !! k = None)
        as Hk by (by rewrite He). rewrite foldl_delete_lookup in Hk. destruct (decide _); [done|congruence].
  - intros (_ & Hp & Hf). exists (us, foldl (λ m d, delete (wd_id d) m) (collect_map wp_id id progress) definitions).
    split; [apply join_units_Ok; split_and!; [by rewrite Hp|done..]|]. cbn. rewrite decide_True; [done|].
    apply map_eq. intros k. rewrite foldl_delete_lookup, lookup_empty. destruct (decide _) as [|Hk]; [done|].
    rewrite Hp in Hk. apply eq_None_not_Some. by rewrite Hdom.
Qed.

(** ** Errors *)

Lemma from_value_Ok {A : Type} (decode : Value → option A) contributor v a :
  decode v = Some a → from_value decode contributor v = Ok a.
Proof. unfold from_value. by intros ->. Qed.

Lemma join_units_Err l m e :
  join_units m l = Err e →
  ∃ i d, l !! i = Some d ∧ e = [Lit "Factory progress is missing work unit "; Display (wd_id d)] ∧
    (m !! wd_id d = None ∨ wd_id d ∈ wd_id <$> take i l).
Proof.
  revert m. induction l as [|d l IH]; intros m; cbn; [done|]. intros [He|(p & _ & He)]%bind_Err.
  - exists 0%nat, d. destruct (m !! wd_id d); cbn in He; [done|]. injection He as <-. split_and!; [done..|by left].
  - apply bind_Err in He as [(i & d' & Hi & -> & Hm)%IH|(x & _ & ?)]; [|done].
    exists (S i), d'. split_and!; [done..|]. destruct Hm as [Hm|Hm]; [|right; cbn; set_solver].
    destruct (decide (wd_id d' = wd_id d)) as [E|E]; [right; cbn; set_solver|].
    left. by rewrite lookup_delete_ne in Hm.
Qed.

(** A stored document whose work units and progress disagree is refused with the
    reason: an entry given twice, a unit without an entry of its own (missing, or taken
    by an earlier unit of the same name), or an entry of no unit; and they disagree only
    in these cases, so that distinct entries for exactly the defined units are joined. *)
Theorem into_state_disagreement d v dd pv progress e :
  doc_decomposition d = Some v → de v = Some dd →
  doc_progress d = Some pv → de_list_document "work_units" pv = Some progress →
  join_progress (dd_work_units dd) progress = Err e →
  into_state d = Err e ∧
  ¬ (NoDup (wp_id <$> progress) ∧ wd_id <$> dd_work_units dd ≡ₚ wp_id <$> progress) ∧
  ((e = [Lit "Factory progress contains a duplicate work-unit ID"] ∧ ¬ NoDup (wp_id <$> progress)) ∨
   (∃ i u, dd_work_units dd !! i = Some u ∧
      e = [Lit "Factory progress is missing work unit "; Display (wd_id u)] ∧
      (wd_id u ∉ wp_id <$> progress ∨ wd_id u ∈ wd_id <$> take i (dd_work_units dd))) ∨
   (e = [Lit "Factory progress references an unknown work-unit ID"] ∧
      ∃ p, p ∈ progress ∧ wp_id p ∉ wd_id <$> dd_work_units dd)).
Proof.
  intros Hd Hv Hp Hpv He. split; [|split].
  - unfold into_state. rewrite Hd, (from_value_Ok _ _ _ _ Hv). cbn. rewrite Hp. cbn.
    rewrite (from_value_Ok _ _ _ _ Hpv). cbn. by rewrite He.
  - intros [Hnd Hperm].
    assert (∃ us, Forall2 (joined (collect_map wp_id id progress)) (dd_work_units dd) us) as [us Hf].
    { assert (∀ u, u ∈ dd_work_units dd → ∃ p, collect_map wp_id id progress !! wd_id u = Some p) as Hex.
      { intros u Hu. assert (wd_id u ∈ wp_id <$> progress) as (p & E & Hin)%list_elem_of_fmap
          by (rewrite <- Hperm; by apply list_elem_of_fmap_2).
        exists p. apply collect_map_lookup; [done|]. by exists p. }
      clear -Hex. induction (dd_work_units dd) as [|u l IH]; [by exists []|].
      destruct (Hex u) as [p Hp]; [left|]. destruct IH as [us Hus]; [intros w Hw; apply Hex; by right|].
      exists (merge_unit u p :: us). constructor; [by exists p|done]. }
    assert (join_progress (dd_work_units dd) progress = Ok us) as Hok by (by apply join_progress_Ok). congruence.
  - unfold join_progress in He. destruct (decide (NoDup (wp_id <$> progress))) as [Hnd|Hnd].
    2:{ rewrite index_progress_dup in He by done. injection He as <-. by left. }
    right. rewrite index_progress_collect in He by done. cbn in He.
    apply bind_Err in He as [(i & u & Hi & -> & Hm)%join_units_Err|([us rest] & (_ & _ & ->)%join_units_Ok & He)].
    + left. exists i, u. split_and!; [done..|]. destruct Hm as [Hm|Hm]; [left|by right].
      intros (p & E & Hin)%list_elem_of_fmap.
      assert (collect_map wp_id id progress !! wd_id u = Some p) as Hl by (apply collect_map_lookup; [done|]; by exists p).
      congruence.
    + right. cbn in He. destruct (decide (foldl _ _ _ = ∅)) as [|Hne]; [done|]. injection He as <-. split; [done|].
      apply map_choose in Hne as (k & p & Hk). rewrite foldl_delete_lookup in Hk.
      destruct (decide _) as [|Hn]; [done|]. apply collect_map_lookup in Hk as (q & Hq & <- & _); [|done]. by exists q.
Qed.

(** ** Round trip *)

Lemma join_from_state (us : list FactoryWorkUnit) :
  join_progress (unit_definition <$> us) (unit_progress <$> us)
  = if decide (NoDup (wu_id <$> us)) then Ok us
    else Err [Lit "Factory progress contains a duplicate work-unit ID"].
Proof.
  assert (wp_id <$> (unit_progress <$> us) = wu_id <$> us) as E1 by (by rewrite <- list_fmap_compose).
  assert (wd_id <$> (unit_definition <$> us) = wu_id <$> us) as E2 by (by rewrite <- list_fmap_compose).
  destruct (decide _) as [Hnd|Hnd].
  - apply join_progress_Ok. rewrite E1, E2. split_and!; [done..|].
    assert (∀ u, u ∈ us → joined (collect_map wp_id id (unit_progress <$> us)) (unit_definition u) u) as Hj.
    { intros u Hu. exists (unit_progress u). split; [|by destruct u]. apply collect_map_lookup; [by rewrite E1|].
      exists (unit_progress u). split_and!; [by apply list_elem_of_fmap_2|done..]. }
    apply Forall2_fmap_l. clear Hnd E1 E2. revert Hj. generalize (joined (collect_map wp_id id (unit_progress <$> us))).
    intros R Hj. induction us as [|u us IH]; constructor; [apply Hj; left|]. apply IH. intros. apply Hj. by right.
  - unfold join_progress. rewrite index_progress_dup by (by rewrite E1). done.
Qed.

Lemma map_transpose_read {A : Type} (encode : A → Value) (decode : Value → option A) contributor (o : option A) :
  (∀ a, o = Some a → decode (encode a) = Some a) →
  map_transpose (from_value decode contributor) (encode <$> o) = Ok o.
Proof. intros Hd. destruct o as [a|]; [|done]. cbn. by rewrite (from_value_Ok _ _ _ a) by (by apply Hd). Qed.

Lemma map_transpose_read_Some {A : Type} (decode : Value → option A) contributor v a :
  decode v = Some a → map_transpose (from_value decode contributor) (Some v) = Ok (Some a).
Proof. intros Hd. cbn. by rewrite (from_value_Ok _ _ _ a). Qed.

(** A document without null contributors is read back from its JSON. *)
Definition no_null (o : option Value) : Prop := o ≠ Some Null.

Lemma read_optional (o : option Value) :
  no_null o → field_or None (match o with Some v => Present v | None => MissingKey end) = Some o.
Proof. by destruct o as [[]|]. Qed.

Lemma document_read d :
  Forall no_null [doc_decomposition d; doc_progress d; doc_review d; doc_remediation d; doc_review_history d;
                  doc_subagents d; doc_review_recovery d] →
  de (ser d) = Some d.
Proof.
  destruct d as [d1 d2 d3 d4 d5 d6 d7]. rewrite !Forall_cons. intros Hf. cbn in Hf.
  destruct Hf as (H1 & H2 & H3 & H4 & H5 & H6 & H7 & _). cbn [de ser serde_document].
  unfold de_document, ser_document. rewrite struct_fields_object. cbn -[field_or]. unfold written. cbn -[field_or].
  assert (∀ o : option Value, match o with Some v => Some v | None => None end = o) as Ho by (by intros []).
  rewrite !Ho. repeat (rewrite read_optional by done; cbn -[field_or]). done.
Qed.

Lemma from_state_read s : de (ser (from_state s)) = Some (from_state s).
Proof.
  apply document_read. rewrite !Forall_cons. cbn. unfold no_null.
  split_and!; try done; by destruct (fs_review s), (fs_review_recovery s).
Qed.

Lemma into_from_state s :
  fits_state s →
  into_state (from_state s) =
    if decide (NoDup (wu_id <$> fs_work_units s)) then Ok s
    else Err [Lit "Factory progress contains a duplicate work-unit ID"].
Proof.
  intros [Hrev Hrvw Hcyc Hsub Hrec].
  unfold into_state, from_state. cbn [doc_decomposition doc_progress doc_review doc_remediation
    doc_review_history doc_subagents doc_review_recovery].
  rewrite (from_value_Ok _ _ _ (mkDecompositionDocument (fs_revision s) (unit_definition <$> fs_work_units s)))
    by (by apply de_ser).
  cbn [mbind result_bind ok_or]. rewrite (from_value_Ok _ _ _ (unit_progress <$> fs_work_units s))
    by (apply list_document_read; by apply Forall_true).
  cbn [mbind result_bind dd_work_units]. rewrite join_from_state. destruct (decide _) as [Hnd|Hnd]; [|done].
  cbn [mbind result_bind].
  rewrite (map_transpose_read ser) by (intros r Hr; apply de_ser; auto). cbn [mbind result_bind].
  rewrite (map_transpose_read_Some _ _ _ (fs_remediations s))
    by (by apply list_document_read, Forall_true). cbn [mbind result_bind].
  rewrite (map_transpose_read_Some _ _ _ (fs_review_history s)) by (by apply list_document_read).
  cbn [mbind result_bind].
  rewrite (map_transpose_read_Some _ _ _ (mkSubagentsDocument (fs_subagents s) (fs_subagent_history s)))
    by (by apply de_ser). cbn [mbind result_bind].
  rewrite (map_transpose_read ser) by (intros b Hb; apply de_ser; auto). cbn. by destruct s.
Qed.
(** C18: The durable state document loses nothing: a state whose numbers fit the wire
    format, written as a document and stored as JSON, is read back as the very same
    document, and the document gives back the very same state exactly when its work
    units have distinct names; otherwise reading it reports the duplicate. *)
Theorem state_document_roundtrip s :
  fits_state s →
  de (ser (from_state s)) = Some (from_state s) ∧
  into_state (from_state s) =
    if decide (NoDup (wu_id <$> fs_work_units s)) then Ok s
    else Err [Lit "Factory progress contains a duplicate work-unit ID"].
Proof. intros Hf. split; [apply from_state_read|by apply into_from_state]. Qed.
End join.

(** ** Witnesses *)

Lemma state_document_roundtrip_witness :
  fits_state demo_reviewed ∧ into_state (from_state demo_reviewed) = Ok demo_reviewed.
Proof.
  assert (fits_state demo_reviewed) as Hf.
  { constructor; cbn; [unfold fits_u64, u64_max; lia| |constructor|discriminate|discriminate].
    intros r [= <-]. unfold fits_report, fits_u64, u64_max. cbn. lia. }
  split; [exact Hf|]. destruct (state_document_roundtrip demo_reviewed Hf) as [_ He]. rewrite He.
  vm_compute. reflexivity.
Defined.

(** A document whose progress lacks an entry for its second unit. *)
Definition demo_torn : FactoryStateDocument :=
  mkFactoryStateDocument
    (Some (ser (mkDecompositionDocument 3 [unit_definition demo_core; unit_definition demo_tests])))
    (Some (ser_list_document "work_units" [unit_progress demo_core])) None None None None None.

Lemma into_state_disagreement_witness :
  into_state demo_torn = Err [Lit "Factory progress is missing work unit "; Display "tests"].
Proof.
  apply (into_state_disagreement demo_torn
    (ser (mkDecompositionDocument 3 [unit_definition demo_core; unit_definition demo_tests]))
    (mkDecompositionDocument 3 [unit_definition demo_core; unit_definition demo_tests])
    (ser_list_document "work_units" [unit_progress demo_core]) [unit_progress demo_core]);
    vm_compute; reflexivity.
Defined.
