(* ===== verification/StateBackendLaws.v ===== *)
(** * Laws of the HTTP state backend

    The backend of [StateBackend] keeps the promises the agent's tools are
    verified against ([BackendLaws]), over the coordinator's own tables: a load
    reads the stored document, a save is exact, it needs the live lease of the
    attempt and the thread it belongs to, and a lost answer leaves the old state
    or the new one.  With them, an accepted tool call is durable. *)

From S2P Require Import Prelude Sequences Domain Rows Store Leases Events Runner Serde AgentState AgentTools Stages.
From S2P Require Import StateDocument StateBackend System AgentDemo AgentLaws AgentWorlds StateDocumentLaws.
From Stdlib Require Import ZArith Ascii String.
From stdpp Require Import base gmap strings list option.

#[local] Open Scope string_scope.
#[local] Open Scope Z_scope.
#[local] Open Scope list_scope.

Section backend.
Context `{External, ErrorText, HttpText, DecodeText}.

(** ** Documents on the wire *)

Lemma thread_state_record_read r : de_thread_state_record (ser_thread_state r) = de (ts_state r).
Proof. unfold de_thread_state_record, ser_thread_state. rewrite struct_fields_object. cbn. by destruct (de_document _). Qed.

#[local] Opaque de_thread_state_record ser_thread_state.

Lemma write_request_read fence d :
  fits_u64 (af_lease_epoch fence) → de_write_request (ser_write_request fence d) = Some (fence, ser d).
Proof.
  intros Hf. unfold de_write_request, ser_write_request. rewrite struct_fields_object. cbn -[de_u64 ser_u64].
  rewrite de_ser_u64 by done. cbn. by destruct fence.
Qed.

Lemma event_request_read fence kind payload key :
  fits_u64 (af_lease_epoch fence) →
  de_event_request (af_attempt_id fence) (ser_event_request fence kind payload key)
  = Some (fence, mkNewAttemptEvent kind payload (Some key)).
Proof.
  intros Hf. unfold de_event_request, ser_event_request, object_of, de_new_attempt_event.
  unfold find_key. rewrite !assoc_get_fields. cbn -[de_u64 ser_u64]. rewrite de_ser_u64 by done. cbn. by destruct fence.
Qed.

(** The state a stored document describes. *)
Definition document_state (v : Value) : option FactoryState :=
  d ← de_document v; match into_state d with Ok s => Some s | Err _ => None end.

Definition stored_state (w : FactorydWorld) (key : string) : option FactoryState :=
  row ← thread_states (fw_db w) !! key; document_state (tsr_state row).

Lemma document_state_from s : representable s → document_state (ser (from_state s)) = Some s.
Proof.
  intros [Hnd Hf]. unfold document_state. change (de_document ?v) with (de (A := FactoryStateDocument) v).
  rewrite from_state_read. cbn -[into_state from_state]. by rewrite into_from_state, decide_True.
Qed.

(** ** Loading *)

Lemma send_keeps (h : Z → db → Response * db) w r w' :
  (∀ now d, (h now d).2 = d) → send h w = (r, w') → fw_db w' = fw_db w.
Proof.
  intros Hh. unfold send. destruct (fw_deliveries w) as [|[now|e|now e] rest]; [by intros [= _ <-]| |by intros [= _ <-]|].
  - specialize (Hh now (fw_db w)). destruct (h now (fw_db w)) as [a d]. by intros [= _ <-].
  - intros [= _ <-]. apply Hh.
Qed.

Lemma load_thread_state_eq key s :
  load_thread_state key s = (map_transpose FactoryThreadStateRecord_try_from (thread_states s !! key), s).
Proof. done. Qed.

Lemma get_thread_state_db key now s : (get_thread_state key now s).2 = s.
Proof. unfold get_thread_state, handle_result. rewrite load_thread_state_eq. by destruct (map_transpose _ _). Qed.

Lemma load_answer_Ok key now s o :
  load_answer (get_thread_state key now s).1 = Ok o →
  o = (row ← thread_states s !! key; document_state (tsr_state row)).
Proof.
  unfold get_thread_state, handle_result. rewrite load_thread_state_eq. unfold load_answer.
  destruct (thread_states s !! key) as [row|]; [|by intros [= <-]]. cbn.
  unfold FactoryThreadStateRecord_try_from. destruct (to_u64 (tsr_revision row) _) as [rev|e] eqn:E; cbn.
  - unfold decode_body. cbn. rewrite thread_state_record_read. cbn. unfold document_state.
    destruct (de_document (tsr_state row)) as [d|]; [|done]. cbn. destruct (into_state d); [by intros [= <-]|done].
  - unfold to_u64 in E. by destruct (u64_try_from _); simplify_eq/=.
Qed.

(** ** Saving *)

Context (fence : AttemptFence) (Hepoch : fits_u64 (af_lease_epoch fence)).

(** The store call a save makes. *)
Definition saving (now : Z) (key : string) (s : FactoryState) : Proc FactoryThreadStateRecord :=
  put_thread_state now fence key (ser (from_state s)).

Lemma put_route key s now d :
  put_thread_state_route key (ser_write_request fence (from_state s)) now d
  = match saving now key s d with
    | (Ok r, d') => (mkResponse 200 (ser_thread_state r), d')
    | (Err e, d') => (into_response (ApiCoordinator e), d')
    end.
Proof. unfold put_thread_state_route. rewrite write_request_read by done. done. Qed.

(** What an accepted save needed and stored. *)
Lemma saving_Ok now key s d r d' :
  saving now key s d = (Ok r, d') →
  fence_live d now fence = true ∧ thread_of_attempt (af_attempt_id fence) key d = true ∧
  ts_state r = ser (from_state s) ∧
  ∃ row, tsr_state row = ser (from_state s) ∧ 0 ≤ tsr_revision row ≤ u64_max ∧ d' = set_thread_states (<[key := row]> (thread_states d)) d.
Proof.
  unfold saving, put_thread_state. rewrite commit_Ok. intros (ctx & s1 & Hl & Hr)%tx_bind_Ok.
  apply lock_attempt_context_Ok in Hl as (-> & Hlive & _).
  apply tx_bind_Ok in Hr as (b & s2 & [-> ->]%gets_Ok & Hr).
  apply tx_bind_Ok in Hr as (u & s3 & [Hb ->]%lift_Ok & Hr). apply guard_err_Ok, negb_false_iff in Hb.
  apply tx_bind_Ok in Hr as (found & s4 & [-> ->]%gets_Ok & Hr).
  apply tx_bind_Ok in Hr as (row & s5 & [Hrow ->]%lift_Ok & Hr).
  apply tx_bind_Ok in Hr as (u' & s6 & ->%modify_Ok & [Hr ->]%lift_Ok).
  assert (tsr_state row = ser (from_state s)) as Hst.
  { unfold thread_state_upsert in Hrow. destruct (thread_states d !! key); [|by simplify_eq].
    apply bind_Ok in Hrow as (rev & _ & [= <-]). done. }
  apply bind_Ok in Hr as (rev & Hrev%ok_or_Ok & [= <-]). apply try_range_Some in Hrev as [_ Hrev]. cbn. eauto 10.
Qed.

Lemma saving_Err now key s d e d' : saving now key s d = (Err e, d') → d' = d.
Proof. unfold saving, put_thread_state. by intros [_ ->]%commit_Err. Qed.

Lemma error_status_fails e : status_success (error_status e).1 = false.
Proof. by destruct e. Qed.

Lemma save_refused s e : is_ok (save_answer s (into_response (ApiCoordinator e))) = false.
Proof.
  unfold save_answer, into_response. pose proof (error_status_fails e) as Hf.
  destruct (error_status e) as [status code]. cbn in *. by rewrite Hf.
Qed.

Lemma save_accepted s r :
  ts_state r = ser (from_state s) → representable s →
  save_answer s (mkResponse 200 (ser_thread_state r)) = Ok tt.
Proof.
  intros Hst [Hnd Hf]. unfold save_answer, decode_body. cbn. rewrite thread_state_record_read, Hst, from_state_read.
  cbn -[into_state from_state]. rewrite into_from_state, decide_True by done. cbn. by rewrite bool_decide_eq_true_2.
Qed.

(** A save that reports success has the stored document describe the state. *)
Lemma save_answer_stored s r :
  save_answer s (mkResponse 200 (ser_thread_state r)) = Ok tt → document_state (ts_state r) = Some s.
Proof.
  unfold save_answer, decode_body, document_state. cbn. rewrite thread_state_record_read. cbn.
  destruct (de_document (ts_state r)) as [d|]; [|done]. cbn. destruct (into_state d) as [s'|]; [|done]. cbn.
  rewrite guard_err_Ok, negb_false_iff, bool_decide_eq_true. by intros ->.
Qed.

(** The database after a request, and the time it took effect. *)
Definition effect_time (w : FactorydWorld) : option Z :=
  match fw_deliveries w with
  | Answered now :: _ | AnswerLost now _ :: _ => Some now
  | _ => None
  end.

Definition answered (w : FactorydWorld) : bool :=
  match fw_deliveries w with Answered _ :: _ => true | _ => false end.

Lemma save_cases key s w r w' :
  factoryd_save fence key s w = (r, w') →
  match effect_time w with
  | None => fw_db w' = fw_db w ∧ is_ok r = false
  | Some now =>
      match saving now key s (fw_db w) with
      | (Ok rec, d) => fw_db w' = d ∧ is_ok r = answered w && is_ok (save_answer s (mkResponse 200 (ser_thread_state rec)))
      | (Err _, _) => fw_db w' = fw_db w ∧ is_ok r = false
      end
  end.
Proof.
  unfold factoryd_save, send_request, send, effect_time, answered, mbind, proc_bind.
  destruct (fw_deliveries w) as [|[now|e|now e] rest]; cbn.
  - by intros [= <- <-].
  - rewrite put_route. destruct (saving now key s (fw_db w)) as [[rec|e] d] eqn:E; cbn; intros [= <- <-]; cbn; [done|].
    split; [by eapply saving_Err|by apply save_refused].
  - by intros [= <- <-].
  - rewrite put_route. destruct (saving now key s (fw_db w)) as [[rec|err] d] eqn:E; cbn; intros [= <- <-]; cbn; [done|].
    split; [by eapply saving_Err|done].
Qed.

(** ** The interface *)

Lemma factoryd_load_spec key b r b' :
  factoryd_load key b = (r, b') →
  (∀ k, stored_state b' k = stored_state b k) ∧ (∀ o, r = Ok o → o = stored_state b key).
Proof.
  unfold factoryd_load, send_request, send, stored_state, mbind, proc_bind.
  destruct (fw_deliveries b) as [|[now|e|now e] rest]; cbn; [by intros [= <- <-]| |by intros [= <- <-]|].
  - destruct (get_thread_state key now (fw_db b)) as [resp d] eqn:E. cbn. intros [= <- <-]. cbn.
    pose proof (get_thread_state_db key now (fw_db b)) as Hd. rewrite E in Hd. cbn in Hd. subst d. split; [done|].
    intros o Ho. apply (load_answer_Ok key now). by rewrite E.
  - intros [= <- <-]. cbn. by rewrite get_thread_state_db.
Qed.

Lemma factoryd_save_spec key s b r b' :
  factoryd_save fence key s b = (r, b') →
  (∀ k, k ≠ key → stored_state b' k = stored_state b k) ∧
  (representable s → stored_state b' key = stored_state b key ∨ stored_state b' key = Some s) ∧
  (∀ u, r = Ok u → stored_state b' key = Some s).
Proof.
  intros Hs. apply save_cases in Hs. unfold stored_state.
  destruct (effect_time b) as [now|]; [|destruct Hs as [-> Hr]; split_and!; [done|by left|by destruct r]].
  destruct (saving now key s (fw_db b)) as [[rec|e] d] eqn:E; [|destruct Hs as [-> Hr]; split_and!; [done|by left|by destruct r]].
  apply saving_Ok in E as (_ & _ & Hst & row & Hrow & _ & ->). destruct Hs as [-> Hr]. cbn. split_and!.
  - intros k Hk. by rewrite lookup_insert_ne.
  - intros Hrep. right. rewrite lookup_insert_eq. cbn. rewrite Hrow. by apply document_state_from.
  - intros [] ->. rewrite lookup_insert_eq. cbn. rewrite Hrow, <- Hst. apply save_answer_stored.
    symmetry in Hr. apply andb_true_iff in Hr as [_ Hr]. by destruct (save_answer _ _) as [[]|].
Qed.

#[export] Instance factoryd_backend_laws : BackendLaws FactorydWorld (H := factoryd_backend fence) :=
  Build_BackendLaws FactorydWorld (factoryd_backend fence) stored_state factoryd_load_spec factoryd_save_spec.

(** The store call of a save. *)
Lemma saving_refused now key s d :
  fence_live d now fence = false → ∃ e, saving now key s d = (Err e, d).
Proof.
  intros Hf. unfold saving. destruct (put_thread_state now fence key (ser (from_state s)) d) as [[rec|e] d'] eqn:E.
  - apply saving_Ok in E as [Hl _]. congruence.
  - apply saving_Err in E as ->. eauto.
Qed.

(** A load in an answered request reads the state. *)
Lemma load_reads key s d now rest row :
  thread_states d !! key = Some row → 0 ≤ tsr_revision row ≤ u64_max → document_state (tsr_state row) = Some s →
  factoryd_load key (mkFactorydWorld d (Answered now :: rest)) = (Ok (Some s), mkFactorydWorld d rest).
Proof.
  intros Hrow Hrev Hs. unfold factoryd_load, send_request, send, mbind, proc_bind. cbn [fw_deliveries fw_db].
  unfold get_thread_state, handle_result. rewrite load_thread_state_eq, Hrow. cbn.
  unfold FactoryThreadStateRecord_try_from, to_u64, u64_try_from. rewrite try_range_in by done. cbn.
  unfold load_answer, decode_body. cbn. rewrite thread_state_record_read. cbn. unfold document_state in Hs.
  destruct (de_document (tsr_state row)) as [doc|]; [|done]. cbn in *. destruct (into_state doc); [|done]. by injection Hs as ->.
Qed.

(** C20: A save over HTTP is exactly the fenced store call: it reports success just when the
    request was answered and the store accepted the document, what is then stored
    describes the very state that was saved, and the next answered load gives it back;
    without the live lease, or when the request is lost on its way, it fails and the
    database is untouched; when only the answer is lost, the database holds what the
    store call left. *)
Theorem save_exact key s w r w' :
  factoryd_save fence key s w = (r, w') → representable s →
  match effect_time w with
  | None => fw_db w' = fw_db w ∧ is_ok r = false
  | Some now =>
      fw_db w' = (put_thread_state now fence key (ser (from_state s)) (fw_db w)).2 ∧
      is_ok r = answered w && is_ok (put_thread_state now fence key (ser (from_state s)) (fw_db w)).1 ∧
      (fence_live (fw_db w) now fence = false → fw_db w' = fw_db w ∧ is_ok r = false) ∧
      (is_ok r = true → stored_state w' key = Some s ∧
         ∀ later rest, factoryd_load key (mkFactorydWorld (fw_db w') (Answered later :: rest))
                       = (Ok (Some s), mkFactorydWorld (fw_db w') rest))
  end.
Proof.
  intros Hs Hrep. pose proof Hs as Hc. apply save_cases in Hc. destruct (effect_time w) as [now|]; [|done].
  fold (saving now key s). destruct (saving now key s (fw_db w)) as [[rec|e] d] eqn:E; cbn.
  - apply saving_Ok in E as (Hl & _ & Hst & row & Hrow & Hrev & Ed). destruct Hc as [Hd Hr].
    rewrite (save_accepted s rec Hst Hrep) in Hr. split_and!; [done|done|congruence|]. intros _.
    assert (document_state (tsr_state row) = Some s) as Hdoc by (rewrite Hrow; by apply document_state_from).
    assert (thread_states (fw_db w') !! key = Some row) as Hlook by (rewrite Hd, Ed; cbn; apply lookup_insert_eq).
    split; [unfold stored_state; by rewrite Hlook|]. intros later rest. by eapply load_reads.
  - apply saving_Err in E as ->. destruct Hc as [-> Hr]. rewrite Hr, andb_false_r. done.
Qed.
(** ** Tools over the backend *)

Context `{JsonText} `{HashOrder}.
Implicit Types w : AgentWorld FactorydWorld.

Abbreviation agent_db w := (fw_db (aw_backend w)).

Lemma load_keeps_db key w r w' :
  @load_if_needed _ (factoryd_backend fence) key w = (r, w') → agent_db w' = agent_db w.
Proof.
  unfold load_if_needed. destruct (cached key w); [by intros [= _ <-]|]. unfold on_backend. cbn.
  destruct (factoryd_load key (aw_backend w)) as [o b] eqn:E.
  assert (fw_db b = fw_db (aw_backend w)) as Hb.
  { unfold factoryd_load, send_request, mbind, proc_bind in E.
    destruct (send (get_thread_state key) (aw_backend w)) as [a b'] eqn:Hs.
    apply send_keeps in Hs; [|apply get_thread_state_db]. by destruct a; injection E as <- <-. }
  destruct o as [o|e]; intros [= _ <-]; done.
Qed.

(** The save of an update starts from the database the update found. *)
Lemma update_over_http key m w r w' :
  @update _ (factoryd_backend fence) key m w = (r, w') →
  (agent_db w' = agent_db w ∧ is_ok r = false) ∨
  ∃ s b, fw_db b = agent_db w ∧ (∃ r', factoryd_save fence key s b = (r', aw_backend w') ∧ is_ok r' = is_ok r) ∧
    (∀ s', r = Ok s' → s' = s).
Proof.
  unfold update, mbind, proc_bind, proc_lift. destruct (load_if_needed key w) as [[c|e] w1] eqn:Hl;
    apply load_keeps_db in Hl as Hd; [|intros [= <- <-]; by left].
  destruct (m c) as [t|e]; [|intros [= <- <-]; by left]. unfold on_backend. cbn.
  destruct (factoryd_save fence key (bump t) (aw_backend w1)) as [[u|e] b] eqn:Hs; cbn; intros [= <- <-]; right.
  - exists (bump t), (aw_backend w1). split_and!; [done|by eexists|]. by intros s' [= <-].
  - exists (bump t), (aw_backend w1). split_and!; [done|by eexists|done].
Qed.

(** Tools work on durable, fenced state: a tool call that is accepted has stored, under
    the live lease of its attempt and for a thread of that attempt, a document that
    describes exactly the state the tool reports; and an agent whose attempt has lost its
    lease can call any tool at any time without changing the database. *)
Theorem tools_durable_and_fenced x call w r w' :
  @handle _ (factoryd_backend fence) _ _ x call w = (r, w') →
  (is_ok r = true → ∃ s' now,
     tool_effect x call (@effective _ (factoryd_backend fence) _ (te_state x) w) s' ∧
     fence_live (agent_db w) now fence = true ∧
     thread_of_attempt (af_attempt_id fence) (te_state x) (agent_db w) = true ∧
     stored_state (aw_backend w') (te_state x) = Some (bump s')) ∧
  ((∀ now, fence_live (agent_db w) now fence = false) → agent_db w' = agent_db w ∧ is_ok r = false).
Proof.
  intros [[-> [e ->]]|(m & r' & Hu & -> & Heff)]%handle_updates; [done|].
  pose proof Hu as Hu'. apply update_updated in Hu' as [_ Hup].
  apply update_over_http in Hu as [[Hd Hr]|(s & b & Hb & (r0 & Hs & Hr) & Hs')]; [by rewrite Hr|].
  apply save_cases in Hs. rewrite <- Hr, <- Hb. split.
  - intros Hok. rewrite Hok in Hr. destruct r' as [s'|]; [|done]. inversion Hup as [t w1 Hm Hc Hst Et Ew|]; subst.
    destruct (effect_time b) as [now|]; [|destruct Hs; congruence].
    destruct (saving now (te_state x) s (fw_db b)) as [[rec|e] d] eqn:E; [|destruct Hs; congruence].
    apply saving_Ok in E as (Hl & Ht & _). exists t, now. split_and!; [by apply Heff|done|done|exact Hst].
  - intros Hstale. destruct (effect_time b) as [now|]; [|done].
    destruct (saving_refused now (te_state x) s (fw_db b) (Hstale now)) as [e E]. by rewrite E in Hs.
Qed.
End backend.

(** ** Witnesses *)

#[local] Existing Instance demo_external.

Definition demo_http_errors : ErrorText := {| error_text _ := "error" |}.
#[local] Existing Instance demo_http_errors.

Definition demo_http : HttpText := {|
  status_text _ := "500"; body_text _ := "{}"; decode_text _ := "missing field";
  rejection _ := mkResponse 422 Null;
|}.
#[local] Existing Instance demo_http.

(** The attempt [a0] runs and has started the thread [parent]. *)
Definition demo_thread_db : db :=
  demo (running_history ++ [(13, AppendCorrelation "k0" (demo_fence "a0" "w1" 1)
    (mkCorrelation "J" "o0" "a0" "request" (Some "parent") None None))]).

Definition demo_backend_world : FactorydWorld := mkFactorydWorld demo_thread_db [Answered 14; Answered 15].

Lemma demo_epoch : fits_u64 (af_lease_epoch (demo_fence "a0" "w1" 1)).
Proof. unfold fits_u64, u64_max. cbn. lia. Qed.

Lemma demo_planned_representable : representable demo_planned.
Proof.
  split; [apply (bool_decide_eq_true_1 (NoDup (wu_id <$> fs_work_units demo_planned))); vm_compute; reflexivity|].
  constructor; cbn; [vm_compute; split; discriminate|discriminate|constructor|discriminate|discriminate].
Qed.

Definition demo_saved_world : FactorydWorld :=
  (factoryd_save (demo_fence "a0" "w1" 1) "parent" demo_planned demo_backend_world).2.

Lemma save_exact_witness :
  factoryd_save (demo_fence "a0" "w1" 1) "parent" demo_planned demo_backend_world = (Ok tt, demo_saved_world) ∧
  stored_state demo_saved_world "parent" = Some demo_planned.
Proof.
  assert (factoryd_save (demo_fence "a0" "w1" 1) "parent" demo_planned demo_backend_world = (Ok tt, demo_saved_world)) as Hs.
  { unfold demo_saved_world. rewrite (surjective_pairing (factoryd_save _ _ _ _)) at 1. f_equal; vm_compute; reflexivity. }
  split; [exact Hs|].
  destruct (save_exact (demo_fence "a0" "w1" 1) demo_epoch "parent" demo_planned demo_backend_world (Ok tt)
    demo_saved_world Hs demo_planned_representable) as (_ & _ & _ & Hl).
  apply Hl. reflexivity.
Defined.

Definition demo_agent_world : AgentWorld FactorydWorld := mkAgentWorld {["parent" := None]} demo_backend_world.

Definition demo_tool_world : AgentWorld FactorydWorld :=
  (@handle _ (factoryd_backend (demo_fence "a0" "w1" 1)) _ _ demo_planner demo_plan_call demo_agent_world).2.

Lemma tools_durable_and_fenced_witness :
  ∃ receipt, @handle _ (factoryd_backend (demo_fence "a0" "w1" 1)) _ _ demo_planner demo_plan_call demo_agent_world
    = (Ok receipt, demo_tool_world) ∧
  ∃ s', stored_state (aw_backend demo_tool_world) "parent" = Some (bump s').
Proof.
  exists demo_receipt.
  assert (@handle _ (factoryd_backend (demo_fence "a0" "w1" 1)) _ _ demo_planner demo_plan_call demo_agent_world
    = (Ok demo_receipt, demo_tool_world)) as Hh.
  { unfold demo_tool_world. rewrite (surjective_pairing (handle _ _ _)) at 1. f_equal; vm_compute; reflexivity. }
  split; [exact Hh|].
  destruct (tools_durable_and_fenced (demo_fence "a0" "w1" 1) demo_epoch demo_planner demo_plan_call demo_agent_world
    (Ok demo_receipt) demo_tool_world Hh) as [Hok _].
  destruct (Hok eq_refl) as (s' & now & _ & _ & _ & Hs). exists s'. exact Hs.
Defined.
