(* ===== verification/CheckpointLaws.v ===== *)
(** * Laws of stage checkpoints

    A checkpoint is read back as it was written, only well-formed ones are ever
    written or read, resuming never mistakes another stage's checkpoint for its
    own, and the turns the agent's tools complete are the turns that count. *)

From S2P Require Import Prelude Sequences Domain Runner Serde AgentState WorkGraph AgentTools Stages.
From S2P Require Import Jobs Checkpoint AgentDemo AgentLaws ReviewLaws.
From Stdlib Require Import ZArith Ascii String.
From stdpp Require Import base gmap strings option list.

#[local] Open Scope string_scope.
#[local] Open Scope Z_scope.
#[local] Open Scope list_scope.

(** ** Well-formed checkpoints *)

Record checkpoint_shape (c : StageCheckpoint) : Prop := {
  shape_parent : texted (sc_parent_execution_thread_id c);
  shape_active : texted (sc_active_thread_id c);
  shape_turn : texted (sc_turn_id c);
  shape_role : role_fits (sc_operation c) (sc_turn_role c) (sc_review_cycle c) = true;
  shape_generation : sc_turn_role c = TurnRoleReview ↔ is_Some (sc_review_generation_baseline c);
  shape_parent_turn : sc_turn_role c = TurnRoleReview ↔ is_Some (sc_expected_review_parent_turn_id c);
  shape_parent_turn_text : ∀ t, sc_expected_review_parent_turn_id c = Some t → texted t;
}.

Lemma require_checkpoint_text_Ok fld v u : require_checkpoint_text fld v = Ok u ↔ texted v.
Proof. apply guard_err_Ok. Qed.

Lemma review_iff_present (P Q : Prop) `{!Decision P, !Decision Q} :
  negb (Bool.eqb (bool_decide P) (bool_decide Q)) = false ↔ (P ↔ Q).
Proof. rewrite negb_false_iff, Bool.eqb_true_iff. repeat case_bool_decide; naive_solver. Qed.

Lemma validate_checkpoint_Ok c u : validate_checkpoint c = Ok u ↔ checkpoint_shape c.
Proof.
  destruct u. unfold validate_checkpoint, validate_lineage.
  rewrite !bind_unit_Ok, !guard_err_Ok, !require_checkpoint_text_Ok, !review_iff_present, negb_false_iff.
  assert ((match sc_expected_review_parent_turn_id c with
           | Some t => require_checkpoint_text "expectedReviewParentTurnId" t
           | None => Ok tt
           end) = Ok tt ↔ ∀ t, sc_expected_review_parent_turn_id c = Some t → texted t) as ->.
  { destruct (sc_expected_review_parent_turn_id c); [rewrite require_checkpoint_text_Ok|]; naive_solver. }
  split; [intros ((?&?&?)&?&?&?&?); by constructor|intros []; by split_and!].
Qed.

(** What the numbers of a checkpoint are on the wire. *)
Record checkpoint_fits (c : StageCheckpoint) : Prop := {
  fits_cycle_number : fits_u32 (sc_review_cycle c);
  fits_revision_baseline : fits_u64 (sc_state_revision_baseline c);
  fits_generation_baseline : ∀ g, sc_review_generation_baseline c = Some g → fits_u64 g;
}.

(** ** Names *)

Lemma from_str_wire k : from_str (as_wire_name k) = Ok k.
Proof. by destruct k. Qed.

Lemma phase_round_trip p : phase_from_name (phase_name p) = Some p.
Proof. by destruct p. Qed.

Lemma role_round_trip r : role_from_name (role_name r) = Some r.
Proof. by destruct r. Qed.

Section laws.
Context `{DecodeText}.

Lemma de_ser_checkpoint c : checkpoint_fits c → de_checkpoint (ser_checkpoint c) = Some c.
Proof.
  intros [H1 H2 H3]. unfold de_checkpoint, ser_checkpoint. rewrite struct_fields_strict_object by (cbn; set_solver).
  destruct c as [op p a t ph r cy rv g pt]. cbn in H1, H2, H3.
  cbn -[de_u64 de_u32 ser_u64 from_str phase_from_name role_from_name].
  rewrite from_str_wire, phase_round_trip, role_round_trip, de_ser_u32, de_ser_u64 by done. cbn -[de_u64 ser_u64].
  destruct g as [g|], pt as [pt|]; cbn -[de_u64]; [..|done|done]; by rewrite de_ser_u64 by (by apply H3).
Qed.

Lemma de_u64_fits v n : de_u64 v = Some n → fits_u64 n.
Proof. unfold de_u64. by intros (? & _ & [-> ?]%try_range_Some)%bind_Some. Qed.

Lemma field_u64_fits f n : field_u64 f = Some n → fits_u64 n.
Proof. destruct f; [apply de_u64_fits|done..]. Qed.

Lemma field_u32_fits f n : field_u32 f = Some n → fits_u32 n.
Proof. destruct f; [|done..]. cbn. unfold de_u32. by intros (? & _ & [-> ?]%try_range_Some)%bind_Some. Qed.

Lemma field_default_fits f n : field_default de_u64 f = Some (Some n) → fits_u64 n.
Proof.
  destruct f as [v| |]; [|done..]. destruct v; cbn -[de_u64]; [done|..];
    intros (x & Hd & [= ->])%fmap_Some_1; by eapply de_u64_fits.
Qed.

Lemma de_checkpoint_fits v c : de_checkpoint v = Some c → checkpoint_fits c.
Proof.
  unfold de_checkpoint. intros (fs & _ & Hc)%bind_Some.
  do 10 (destruct fs as [|? fs]; [done|]). destruct fs; [|done].
  repeat match type of Hc with _ ≫= _ = Some _ => apply bind_Some in Hc as (? & ? & Hc) end.
  injection Hc as <-. constructor; cbn; [by eapply field_u32_fits|by eapply field_u64_fits|].
  intros g ->. by eapply field_default_fits.
Qed.

Lemma decode_Ok record c :
  StageCheckpoint_decode record = Ok c ↔
  cp_kind record = STAGE_CHECKPOINT_KIND ∧ de_checkpoint (cp_payload record) = Some c ∧ checkpoint_shape c.
Proof.
  unfold StageCheckpoint_decode. rewrite bind_unit_Ok, guard_err_Ok, negb_false_iff, bool_decide_eq_true, bind_Ok.
  setoid_rewrite ok_or_Ok. setoid_rewrite bind_unit_Ok. setoid_rewrite validate_checkpoint_Ok. naive_solver.
Qed.

Lemma encode_Ok c root revision correlation oc :
  StageCheckpoint_encode c root revision correlation = Ok oc ↔
  checkpoint_shape c ∧
  oc = mkOperationCheckpoint STAGE_CHECKPOINT_KIND (ser_checkpoint c) root revision correlation.
Proof. unfold StageCheckpoint_encode. rewrite bind_unit_Ok, validate_checkpoint_Ok. naive_solver. Qed.

(** A record that kept the kind and the payload of an encoded checkpoint. *)
Definition stores (record : CheckpointRecord) (oc : OperationCheckpoint) : Prop :=
  cp_kind record = oc_kind oc ∧ cp_payload record = oc_payload oc.

Lemma decode_encoded c root revision correlation oc record :
  checkpoint_fits c → StageCheckpoint_encode c root revision correlation = Ok oc → stores record oc → StageCheckpoint_decode record = Ok c.
Proof.
  intros Hf [Hs ->]%encode_Ok [Hk Hp]. apply decode_Ok. split_and!; [done| |done].
  rewrite Hp. by apply de_ser_checkpoint.
Qed.

(** The completed form of a turn's checkpoint. *)
Definition as_completed (c : StageCheckpoint) : StageCheckpoint :=
  mkStageCheckpoint (sc_operation c) (sc_parent_execution_thread_id c) (sc_active_thread_id c) (sc_turn_id c)
    PhaseCompleted (sc_turn_role c) (sc_review_cycle c) (sc_state_revision_baseline c)
    (sc_review_generation_baseline c) (sc_expected_review_parent_turn_id c).

Lemma shape_as_completed c : checkpoint_shape (as_completed c) ↔ checkpoint_shape c.
Proof. split; intros []; by constructor. Qed.

Lemma fits_as_completed c : checkpoint_fits c → checkpoint_fits (as_completed c).
Proof. intros []. by constructor. Qed.

Lemma final_checkpoint_Ok c workspace correlation oc :
  final_checkpoint c workspace correlation = Ok oc ↔
  StageCheckpoint_encode (as_completed c) (Some workspace.1) (Some workspace.2) correlation = Ok oc.
Proof.
  unfold final_checkpoint, completed, new_checkpoint, encode_checkpoint, terminal_on_error.
  change (mkStageCheckpoint _ _ _ _ PhaseCompleted _ _ _ _ _) with (as_completed c).
  unfold StageCheckpoint_encode.
  destruct (validate_checkpoint (as_completed c)) as [[]|] eqn:E; cbn; rewrite ?E; cbn; naive_solver.
Qed.

(** C19: A checkpoint survives its storage: a checkpoint whose numbers fit the wire
    format can be encoded exactly when it is well formed, and every stored record that
    kept the kind and the payload decodes to the very same checkpoint; the same holds
    for its completed form, which is written when the stage ends and from which the
    next stage takes its lineage. *)
Theorem checkpoint_roundtrip c root revision correlation :
  checkpoint_fits c →
  (is_ok (StageCheckpoint_encode c (Some root) (Some revision) correlation) = true ↔ checkpoint_shape c) ∧
  (is_ok (final_checkpoint c (root, revision) correlation) = true ↔ checkpoint_shape c) ∧
  (∀ oc record, StageCheckpoint_encode c (Some root) (Some revision) correlation = Ok oc → stores record oc →
     StageCheckpoint_decode record = Ok c) ∧
  (∀ oc record, final_checkpoint c (root, revision) correlation = Ok oc → stores record oc →
     StageCheckpoint_decode record = Ok (as_completed c) ∧ lineage_from_completed record = Ok (lineage c)).
Proof.
  intros Hf. assert (∀ {E A : Type} (r : result E A), is_ok r = true ↔ ∃ a, r = Ok a) as Hok
    by (intros E A []; cbn; naive_solver).
  split_and!.
  - rewrite Hok. setoid_rewrite encode_Ok. naive_solver.
  - rewrite Hok. setoid_rewrite final_checkpoint_Ok. setoid_rewrite encode_Ok. rewrite <- (shape_as_completed c).
    naive_solver.
  - intros oc record He Hs. by eapply decode_encoded.
  - intros oc record He%final_checkpoint_Ok Hs.
    assert (StageCheckpoint_decode record = Ok (as_completed c)) as Hd by (eapply decode_encoded; [by apply fits_as_completed|done..]).
    split; [done|]. unfold lineage_from_completed. by rewrite Hd.
Qed.

(** Only well-formed checkpoints are ever read: a record decodes only when it is a
    stage checkpoint with no unknown fields, non-blank thread and turn names, numbers in
    range, a role and a cycle that fit its stage, and a review baseline exactly when it
    belongs to a review turn. *)
Theorem decode_well_formed record c :
  StageCheckpoint_decode record = Ok c →
  cp_kind record = STAGE_CHECKPOINT_KIND ∧ checkpoint_shape c ∧ checkpoint_fits c.
Proof. intros (Hk & Hd & Hs)%decode_Ok. split_and!; [done..|]. by eapply de_checkpoint_fits. Qed.

(** ** The order of stages *)

Lemma at_ordinal_base n : 0 ≤ n < 4 → Some (at_ordinal n) = ALL !! Z.to_nat n.
Proof.
  intros Hn. unfold at_ordinal. destruct (ALL !! Z.to_nat n) eqn:E; [done|].
  apply lookup_ge_None in E. cbn in E. lia.
Qed.

Lemma at_ordinal_round n : 4 ≤ n →
  at_ordinal n = if (n - 4) mod 3 =? 0 then KindIterate else if (n - 4) mod 3 =? 1 then KindReview else KindRemediate.
Proof.
  intros Hn. unfold at_ordinal. rewrite lookup_ge_None_2; [done|]. cbn. lia.
Qed.

(** Neighbouring stages are of different kinds. *)
Lemma at_ordinal_neighbours n : 1 ≤ n → at_ordinal n ≠ at_ordinal (n - 1).
Proof.
  intros Hn. destruct (decide (n < 5)) as [Hlt|Hge].
  - assert (n = 1 ∨ n = 2 ∨ n = 3 ∨ n = 4) as [->|[->|[->| ->]]] by lia; done.
  - rewrite !at_ordinal_round by lia. replace (n - 1 - 4) with (n - 4 - 1) by lia. generalize (n - 4). intros m.
    assert (m mod 3 = 0 ∧ (m - 1) mod 3 = 2 ∨ m mod 3 = 1 ∧ (m - 1) mod 3 = 0 ∨ m mod 3 = 2 ∧ (m - 1) mod 3 = 1)
      as [[-> ->]|[[-> ->]|[-> ->]]] by (Z.to_euclidean_division_equations; lia); done.
Qed.

(** A stage resumes where it may, and always when it may: an attempt starts fresh
    exactly as the first stage; from a checkpoint it resumes exactly when the checkpoint
    is readable and belongs to the same worktree, either in a turn of its own stage or
    after the completed stage just before its own. Neighbouring stages are of different
    kinds, so the two cases are never confused. *)
Theorem resume_point_exact resume n root revision point :
  0 ≤ n →
  resume_decode resume n (at_ordinal n) root revision = Ok point ↔
  match resume with
  | ResumeFresh => n = 0 ∧ point = ResumeAtStart
  | FromCheckpoint record =>
      cp_workspace_root record = Some root ∧ cp_workspace_revision record = Some revision ∧
      ∃ c, StageCheckpoint_decode record = Ok c ∧
        ((sc_operation c = at_ordinal n ∧ point = ResumeCurrent c (cp_correlation_id record)) ∨
         (0 < n ∧ sc_operation c = at_ordinal (n - 1) ∧ sc_phase c = PhaseCompleted ∧ point = ResumePrevious c))
  end.
Proof.
  intros Hn. unfold resume_decode. destruct resume as [|record].
  { destruct (decide _) as [[_ ->]|Hd]; [naive_solver|]. split; [done|]. intros [-> _]. by destruct Hd. }
  destruct (decide _) as [[Hr Hv]|Hd]; [|naive_solver]. destruct (StageCheckpoint_decode record) as [c|]; [|naive_solver].
  pose proof (at_ordinal_neighbours n) as Hne.
  destruct (decide (sc_operation c = at_ordinal n)) as [Ho|Ho].
  { split; [intros [= <-]; eauto 10|]. intros (_ & _ & c' & [= <-] & [[_ ->]|(Hpos & Hc & _)]); [done|].
    destruct Hne; [lia|congruence]. }
  destruct (decide (n = 0)) as [->|Hz].
  { split; [done|]. intros (_ & _ & c' & [= <-] & [[? _]|[? _]]); [done|lia]. }
  destruct (decide (_ ∧ _)) as [[Hp Hph]|Hnp].
  - split; [intros [= <-]; split_and!; [done..|]; exists c; split; [done|]; right; split_and!; [lia|done..]|].
    intros (_ & _ & c' & [= <-] & [[? _]|(_ & _ & _ & ->)]); done.
  - split; [done|]. naive_solver.
Qed.
End laws.

(** ** Turns that count *)

Section turns.
Context `{HashOrder} `{JsonText}.

(** A detached review counts however often it is recorded: when the thread of a
    detached review records its findings one or more times in its turn, from a state the
    execute contract accepts, the checkpoint of that turn accepts the resulting state;
    the generation has advanced by exactly one beyond the earlier reviews and no earlier
    remediation is left with the current review. *)
Theorem detached_review_counts x ctx turn calls s s' b c operation cycle :
  te_context x = Some ctx → validate_execute s = Ok tt →
  baseline_capture s (drc_parent_thread_id ctx) (drc_parent_turn_id ctx) = Ok b →
  texted turn → texted (te_active_thread_id x) → te_active_thread_id x ≠ drc_parent_thread_id ctx →
  (∀ r, fs_review s = Some r → rr_recorded_turn_id r ≠ Some turn) →
  0 ≤ current_generation s < u64_max →
  turn_completed operation (mkStageLineage (drc_parent_thread_id ctx) (te_active_thread_id x) turn)
    TurnRoleReview cycle (review_baselines s b) = Ok c →
  calls ≠ [] → Forall (λ k, call_turn_id k.1 = turn) calls → run_reviews x calls s = Ok s' →
  validate_checkpoint_state s' c = Ok tt ∧ fs_remediations s' = [] ∧
  ∃ r, fs_review s' = Some r ∧ rr_generation r = current_generation s + 1.
Proof.
  intros Hx He Hb Htt Hth Hne Hnew Hg Hc Hcalls Hturn Hr.
  destruct (recorded_review_accepted x ctx turn calls s s' b) as (Hv & Hrem & r & Hrev & Hgen & Ht & Hthr); [done..|].
  split_and!; [|done|by exists r]. unfold turn_completed, new_checkpoint in Hc. rewrite bind_unit_Ok in Hc.
  destruct Hc as [_ [= <-]]. unfold validate_checkpoint_state, checkpoint_review_baseline. cbn -[validate_stage].
  unfold baseline_capture, baseline_from_parts in Hb. rewrite !bind_unit_Ok in Hb. destruct Hb as (T1 & T2 & [= <-]).
  cbn -[validate_stage]. unfold baseline_from_parts. rewrite T1, T2. cbn -[validate_review_stage]. rewrite Hv. cbn.
  rewrite Hrev. cbn. rewrite Ht, Hthr. by rewrite !bool_decide_eq_true_2.
Qed.
End turns.

(** ** Witnesses *)

Lemma demo_checkpoint_fits : checkpoint_fits demo_review_checkpoint.
Proof. constructor; cbn; unfold fits_u32, fits_u64, u32_max, u64_max; [lia|lia|]. intros g [= <-]. lia. Qed.

Lemma checkpoint_roundtrip_witness :
  checkpoint_fits demo_review_checkpoint ∧
  StageCheckpoint_decode (demo_record demo_review_checkpoint) = Ok demo_review_checkpoint.
Proof.
  split; [apply demo_checkpoint_fits|].
  destruct (checkpoint_roundtrip demo_review_checkpoint "/w" "rev" None demo_checkpoint_fits) as (_ & _ & Hd & _).
  apply (Hd (mkOperationCheckpoint STAGE_CHECKPOINT_KIND (ser_checkpoint demo_review_checkpoint) (Some "/w") (Some "rev") None));
    [vm_compute; reflexivity|split; reflexivity].
Defined.

Lemma decode_well_formed_witness :
  StageCheckpoint_decode (demo_record demo_plan_checkpoint) = Ok demo_plan_checkpoint ∧
  checkpoint_shape demo_plan_checkpoint.
Proof.
  assert (StageCheckpoint_decode (demo_record demo_plan_checkpoint) = Ok demo_plan_checkpoint) as Hd
    by (vm_compute; reflexivity).
  split; [exact Hd|]. apply (decode_well_formed (demo_record demo_plan_checkpoint) demo_plan_checkpoint Hd).
Defined.

Lemma resume_point_exact_witness :
  resume_decode (FromCheckpoint (demo_record demo_plan_checkpoint)) 1 (at_ordinal 1) "/w" "rev"
  = Ok (ResumePrevious demo_plan_checkpoint).
Proof.
  apply (resume_point_exact (FromCheckpoint (demo_record demo_plan_checkpoint)) 1 "/w" "rev"
    (ResumePrevious demo_plan_checkpoint)); [lia|].
  split; [reflexivity|]. split; [reflexivity|]. exists demo_plan_checkpoint. split; [vm_compute; reflexivity|].
  right. split; [lia|]. split; [reflexivity|]. split; reflexivity.
Defined.

Lemma detached_review_counts_witness :
  validate_checkpoint_state demo_reviewed demo_review_checkpoint = Ok tt.
Proof.
  apply (detached_review_counts demo_reviewer demo_context "review-turn" [(demo_review_call, demo_review_args)]
    demo_executed demo_reviewed (mkReviewBaseline 0 "parent" "execute-turn") demo_review_checkpoint KindReview 0);
    [reflexivity|vm_compute; reflexivity|vm_compute; reflexivity|reflexivity|reflexivity|discriminate|
     discriminate|cbn; unfold u64_max; lia|vm_compute; reflexivity|discriminate| |vm_compute; reflexivity].
  constructor; [reflexivity|constructor].
Defined.
