(* ===== verification/ExecutorLaws.v ===== *)
(** * Laws of stage execution

    For every host, whatever its calls return and change: the remediation loop
    returns within a bounded number of steps, and a stage is reported complete
    only from a state its contract accepted, with an approving review at the end
    of a remediation and an untouched worktree at the end of a plan. *)

From S2P Require Import Prelude Sequences Domain Runner Serde AgentState AgentTools Stages StateDocument Checkpoint.
From S2P Require Import Executor AgentDemo.
From Stdlib Require Import ZArith Ascii String.
From stdpp Require Import base gmap strings option list.

#[local] Open Scope string_scope.
#[local] Open Scope Z_scope.
#[local] Open Scope list_scope.

(** ** Runs that succeed *)

Lemma proc_bind_Ok {S E A B : Type} (m : proc S E A) (k : A → proc S E B) s b s' :
  (m ≫= k) s = (Ok b, s') ↔ ∃ a s1, m s = (Ok a, s1) ∧ k a s1 = (Ok b, s').
Proof. unfold mbind, proc_bind. destruct (m s) as [[a|e] s1]; naive_solver. Qed.

Lemma map_err_Ok {W E F A : Type} (f : E → F) (p : proc W E A) w a w' :
  map_err f p w = (Ok a, w') ↔ p w = (Ok a, w').
Proof. unfold map_err. destruct (p w) as [[]]; naive_solver. Qed.

Lemma done_Ok {W E A : Type} (a b : A) (w w' : W) : (done a : proc W E A) w = (Ok b, w') ↔ b = a ∧ w' = w.
Proof. unfold done. naive_solver. Qed.

Lemma fail_Ok {W E A : Type} (e : E) (b : A) (w w' : W) : (fail e : proc W E A) w = (Ok b, w') ↔ False.
Proof. unfold fail. naive_solver. Qed.

Lemma proc_lift_Ok {W E A : Type} (r : result E A) (b : A) (w w' : W) :
  (proc_lift r : proc W E A) w = (Ok b, w') ↔ r = Ok b ∧ w' = w.
Proof. unfold proc_lift. naive_solver. Qed.

Lemma attempt_Ok {W E F A : Type} (p : proc W E A) (r : result E A) (w w' : W) :
  (attempt p : proc W F _) w = (Ok r, w') ↔ p w = (r, w').
Proof. unfold attempt. destruct (p w). naive_solver. Qed.

Lemma observe_Ok {W E A : Type} (f : W → A) (a : A) (w w' : W) :
  (observe f : proc W E A) w = (Ok a, w') ↔ a = f w ∧ w' = w.
Proof. unfold observe. naive_solver. Qed.

Lemma terminal_on_error_Ok {A : Type} (r : CheckpointResult A) a : terminal_on_error r = Ok a ↔ r = Ok a.
Proof. destruct r; cbn; naive_solver. Qed.

(** Takes a successful run apart, one call at a time. *)
Ltac inv_run H :=
  lazymatch type of H with
  | (_ ≫= _) _ = (Ok _, _) =>
      let a := fresh "a" in let w := fresh "w" in let Hm := fresh "Hrun" in
      apply proc_bind_Ok in H as (a & w & Hm & H); cbv beta in H; inv_run Hm; inv_run H
  | done _ _ = (Ok _, _) => apply done_Ok in H as [? ?]; simplify_eq
  | fail _ _ = (Ok _, _) => by apply fail_Ok in H
  | proc_lift _ _ = (Ok _, _) => apply proc_lift_Ok in H as [H ?]; simplify_eq
  | observe _ _ = (Ok _, _) => apply observe_Ok in H as [? ?]; simplify_eq
  | attempt _ _ = (Ok _, _) => rewrite attempt_Ok in H
  | map_err _ _ _ = (Ok _, _) => rewrite map_err_Ok in H
  | _ => idtac
  end.

Section laws.
Context {W : Type} `{StageHost W} `{CoordinatorText} `{HashOrder}.
Context (x : StageContext).

(** ** One turn *)

(** The checkpoint a completed turn hands on. *)
Definition turn_of (operation : OperationKind) (role : StageTurnRole) (cycle : Z) (c : StageCheckpoint) : Prop :=
  sc_operation c = operation ∧ sc_turn_role c = role ∧ sc_review_cycle c = cycle ∧
  sc_phase c = PhaseTurnCompleted ∧ sc_parent_execution_thread_id c = sx_parent_thread_id x ∧
  validate_checkpoint c = Ok tt.

Lemma new_lineage_Ok p a t l : new_lineage p a t = Ok l → l = mkStageLineage p a t.
Proof. unfold new_lineage. intros (u & _ & [= <-])%bind_Ok. done. Qed.

Lemma new_checkpoint_Ok operation l phase role cycle b c :
  new_checkpoint operation l phase role cycle b = Ok c →
  validate_checkpoint c = Ok tt ∧ sc_operation c = operation ∧ sc_turn_role c = role ∧ sc_review_cycle c = cycle ∧
  sc_phase c = phase ∧ lineage c = l.
Proof.
  unfold new_checkpoint. intros (u & Hv & [= <-])%bind_Ok. destruct u. split_and!; [done..|]. by destruct l.
Qed.

Lemma execute_turn_Ok operation role cycle b w c correlation w' :
  execute_turn x operation role cycle b w = (Ok (c, correlation), w') → turn_of operation role cycle c.
Proof.
  unfold execute_turn. intros Hr. inv_run Hr.
  repeat match goal with H : terminal_on_error _ = Ok _ |- _ => apply terminal_on_error_Ok in H end.
  match goal with H : new_lineage _ _ _ = Ok _ |- _ => apply new_lineage_Ok in H as -> end.
  match goal with H : turn_completed _ _ _ _ _ = Ok _ |- _ => apply new_checkpoint_Ok in H as (Hv & Ho & Hrole & Hc & Hp & Hl) end.
  unfold turn_of. split_and!; try done. by injection Hl.
Qed.

Lemma run_turn_Ok operation role cycle b w c correlation w' :
  run_turn x operation role cycle b w = (Ok (c, correlation), w') → turn_of operation role cycle c.
Proof.
  unfold run_turn. intros Hr. inv_run Hr. destruct (is_cancelled w); [by inv_run Hr|]. inv_run Hr.
  destruct (decide (role = TurnRoleReview)); [|by eapply execute_turn_Ok]. inv_run Hr.
  unfold finish_review in Hr. apply proc_bind_Ok in Hr as (changed & w3 & _ & Hr).
  destruct changed; [inv_run Hr; destruct a1 as [[c1 k1]|]; by inv_run Hr|].
  destruct a1 as [[c1 k1]|]; inv_run Hr. by eapply execute_turn_Ok.
Qed.

(** ** The loop returns *)

Definition turns_left (cycle : Z) : nat := Z.to_nat (sx_max_review_cycles x - cycle).

(** Steps left before a turn has run. *)
Definition run_rank (role : StageTurnRole) (cycle : Z) : nat :=
  match role with
  | TurnRoleRemediation => 4 * turns_left cycle + 4
  | TurnRoleReview => 4 * turns_left cycle + 2
  | TurnRoleStage => 2
  end.

Definition step_rank (step : ReviewLoopStep) : nat :=
  match step with
  | RunStep role cycle _ => run_rank role cycle
  | EvaluateStep c _ may_rerun =>
      if may_rerun || bool_decide (sc_phase c = PhaseAwaitingTurn)
      then S (run_rank (sc_turn_role c) (sc_review_cycle c))
      else pred (run_rank (sc_turn_role c) (sc_review_cycle c))
  end.

Lemma evaluate_rank c correlation may_rerun :
  (pred (run_rank (sc_turn_role c) (sc_review_cycle c)) ≤ step_rank (EvaluateStep c correlation may_rerun)
   ≤ S (run_rank (sc_turn_role c) (sc_review_cycle c)))%nat.
Proof. unfold step_rank. destruct (_ || _); lia. Qed.

Lemma after_turn_rank c s correlation w next w' :
  after_turn x c s correlation w = (Ok (inr next), w') →
  (step_rank next < pred (run_rank (sc_turn_role c) (sc_review_cycle c)))%nat.
Proof.
  unfold after_turn. intros Hr. apply proc_bind_Ok in Hr as (u & w1 & _ & Hr).
  destruct (fs_review s) as [review|]; [|by inv_run Hr]. destruct (sc_turn_role c).
  - by inv_run Hr.
  - destruct (decide (rr_verdict review = Approve)); [unfold finish_remediation in Hr; inv_run Hr|].
    inv_run Hr. destruct (baseline_capture _ _ _); inv_run Hr. cbn. lia.
  - destruct (decide (rr_verdict review = Approve)); [unfold finish_remediation in Hr; inv_run Hr|].
    inv_run Hr. destruct (Z.leb_spec (sx_max_review_cycles x) (sc_review_cycle c)); inv_run Hr.
    cbn. unfold turns_left. lia.
Qed.

Lemma loop_step_rank step w next w' :
  loop_step x step w = (Ok (inr next), w') → (step_rank next < step_rank step)%nat.
Proof.
  unfold loop_step. intros Hr. apply proc_bind_Ok in Hr as (c0 & w1 & _ & Hr).
  destruct c0; [by inv_run Hr|]. destruct step as [role cycle b|c correlation may_rerun].
  - apply proc_bind_Ok in Hr as ([c k] & w2 & Ht & Hr). inv_run Hr.
    apply run_turn_Ok in Ht as (_ & Hrole & Hc & Hp & _). cbn. rewrite Hp, Hrole, Hc.
    rewrite bool_decide_eq_false_2 by done. destruct role; unfold run_rank; lia.
  - apply proc_bind_Ok in Hr as (ended & w2 & He & Hr). unfold turn_ended in He. destruct ended.
    + apply proc_bind_Ok in Hr as (s & w3 & _ & Hr). destruct (validate_checkpoint_state s c) as [u|e].
      * apply after_turn_rank in Hr. pose proof (evaluate_rank c correlation may_rerun). lia.
      * apply proc_bind_Ok in Hr as (u & w4 & _ & Hr). destruct may_rerun.
        { inv_run Hr. unfold step_rank, rerun. cbn [orb]. lia. }
        destruct (decide (sc_phase c = PhaseCompleted)); by inv_run Hr.
    + apply proc_bind_Ok in Hr as (u & w4 & _ & Hr). inv_run Hr.
      destruct (decide (sc_phase c = PhaseAwaitingTurn)) as [E|]; [|by inv_run He].
      unfold step_rank, rerun. rewrite bool_decide_eq_true_2, orb_true_r by done. lia.
Qed.

Lemma remediation_loop_returns_from n step w :
  (step_rank step < n)%nat → ∃ r w', remediation_loop x n step w = Some (r, w').
Proof.
  revert step w. induction n as [|n IH]; intros step w Hn; [lia|]. cbn.
  destruct (loop_step x step w) as [[[completed|next]|e] w'] eqn:Hs; [eauto| |eauto].
  apply IH. apply loop_step_rank in Hs. lia.
Qed.

Lemma run_rank_bound role cycle : 0 ≤ cycle → (run_rank role cycle ≤ 4 * Z.to_nat (sx_max_review_cycles x) + 4)%nat.
Proof. intros. destruct role; cbn; unfold turns_left; lia. Qed.

(** The remediation loop always returns: with at most [M] review cycles it ends,
    with a result or a failure, within [4 M + 6] rounds, from a fresh start and from
    every checkpoint it may resume from, whatever the agent, the store, the worktree and
    the state backend do. *)
Theorem remediation_loop_returns resume w :
  (∀ c correlation, resume_current resume = Some (c, correlation) → 0 ≤ sc_review_cycle c) →
  ∃ r w', run_remediation_loop x (4 * Z.to_nat (sx_max_review_cycles x) + 6) resume w = Some (r, w').
Proof.
  intros Hc. unfold run_remediation_loop. destruct (first_step x resume w) as [[[completed|step]|e] w1] eqn:Hf; [eauto| |eauto].
  apply remediation_loop_returns_from. unfold first_step in Hf.
  destruct (resume_current resume) as [[c correlation]|].
  - inv_run Hf. pose proof (run_rank_bound (sc_turn_role c) (sc_review_cycle c) (Hc _ _ eq_refl)).
    pose proof (evaluate_rank c correlation (negb (bool_decide (sc_phase c = PhaseCompleted)))). lia.
  - apply proc_bind_Ok in Hf as (s & w2 & _ & Hf). destruct (_ && _).
    + destruct (preceding_checkpoint resume); inv_run Hf.
    + inv_run Hf. pose proof (run_rank_bound TurnRoleRemediation 1). cbn in *. lia.
Qed.

(** ** What a completed stage rests on *)

(** The state the stage was completed from: read from the backend, and accepted
    by the contract of the checkpoint that is written as completed. *)
Definition completed_from (c : StageCheckpoint) (s : FactoryState) (completed : CompletedOperation) : Prop :=
  validate_checkpoint_state s c = Ok tt ∧ (∃ w1 w2, load_state x w1 = (Ok s, w2)) ∧
  ∃ durable correlation,
    final_checkpoint c (sx_workspace x) correlation = Ok durable ∧ completed = complete_stage c s durable.

Lemma accept_stage_Ok operation c s correlation w completed w' :
  accept_stage x operation c s correlation w = (Ok completed, w') →
  (∃ durable, final_checkpoint c (sx_workspace x) correlation = Ok durable ∧ completed = complete_stage c s durable) ∧
  (operation = KindPlan → ∃ u w1 w2, validate_pristine w1 = (Ok u, w2)).
Proof.
  unfold accept_stage. intros Hr. apply proc_bind_Ok in Hr as (u & w1 & _ & Hr).
  apply proc_bind_Ok in Hr as (v & w2 & Hp & Hr). inv_run Hr. split; [eauto|]. intros ->.
  rewrite decide_True in Hp by done. apply proc_bind_Ok in Hp as (pristine & w3 & Ha & Hp). rewrite attempt_Ok in Ha.
  destruct pristine as [t|e]; [eauto|]. inv_run Hp.
Qed.

Lemma promote_recorded_Ok operation c correlation w completed w' :
  promote_recorded x operation c correlation w = (Ok (Some completed), w') →
  ∃ s, completed_from c s completed ∧ (operation = KindPlan → ∃ u w1 w2, validate_pristine w1 = (Ok u, w2)).
Proof.
  unfold promote_recorded. intros Hr. apply proc_bind_Ok in Hr as (may & w1 & _ & Hr).
  destruct may; [|by inv_run Hr]. apply proc_bind_Ok in Hr as (s & w2 & Hs & Hr).
  destruct (validate_checkpoint_state s c) as [[]|e] eqn:Hv.
  - apply proc_bind_Ok in Hr as (a & w3 & Ha & Hr). inv_run Hr. apply accept_stage_Ok in Ha as [(d & Hd & ->) Hp].
    exists s. split; [|done]. split_and!; [done|by eauto|by eauto].
  - destruct (decide (sc_phase c = PhaseCompleted)); inv_run Hr.
Qed.

(** A single-turn stage is reported complete only when its contract holds: the
    completed checkpoint and event belong to a state read from the backend that the
    contract of the checkpoint accepts; the checkpoint is the recorded one the attempt
    resumed from or that of the turn it ran itself, of the same stage; and a plan is
    complete only after its worktree was found untouched. *)
Theorem stage_completes_validated message_text operation resume w completed w' :
  run_single_stage x message_text operation resume w = (Ok completed, w') →
  ∃ c s, completed_from c s completed ∧
    ((∃ correlation, resume_current resume = Some (c, correlation)) ∨ ∃ role cycle, turn_of operation role cycle c) ∧
    (operation = KindPlan → ∃ u w1 w2, validate_pristine w1 = (Ok u, w2)).
Proof.
  unfold run_single_stage. intros Hr. apply proc_bind_Ok in Hr as (promoted & w1 & Hp & Hr). destruct promoted as [d|].
  - inv_run Hr. destruct (resume_current resume) as [[c k]|]; [|by inv_run Hp].
    apply promote_recorded_Ok in Hp as (s & Hc & Hpl). exists c, s. split_and!; [done| |done]. left. eauto.
  - clear Hp. apply proc_bind_Ok in Hr as ([[role cycle] b] & w2 & _ & Hr).
    apply proc_bind_Ok in Hr as (u & w3 & _ & Hr). apply proc_bind_Ok in Hr as ([c k] & w4 & Ht%run_turn_Ok & Hr).
    apply proc_bind_Ok in Hr as (s & w5 & Hs & Hr). destruct (validate_checkpoint_state s c) as [[]|e] eqn:Hv.
    + apply accept_stage_Ok in Hr as [(d & Hd & ->) Hpl]. exists c, s. split_and!; [|right; by eauto|done].
      split_and!; [done|by eauto|by eauto].
    + apply proc_bind_Ok in Hr as (? & ? & _ & Hr). apply proc_bind_Ok in Hr as (? & ? & _ & Hr).
      destruct (decide (operation = KindPlan)); by inv_run Hr.
Qed.

Lemma after_turn_completed c s correlation w completed w' :
  after_turn x c s correlation w = (Ok (inl completed), w') →
  (∃ durable, final_checkpoint c (sx_workspace x) correlation = Ok durable ∧ completed = complete_stage c s durable) ∧
  rr_verdict <$> fs_review s = Some Approve.
Proof.
  unfold after_turn. intros Hr. apply proc_bind_Ok in Hr as (u & w1 & _ & Hr).
  destruct (fs_review s) as [review|]; [|by inv_run Hr]. destruct (sc_turn_role c).
  - by inv_run Hr.
  - destruct (decide (rr_verdict review = Approve)) as [E|].
    + unfold finish_remediation in Hr. inv_run Hr. cbn. rewrite E. eauto.
    + inv_run Hr. destruct (baseline_capture _ _ _); inv_run Hr.
  - destruct (decide (rr_verdict review = Approve)) as [E|].
    + unfold finish_remediation in Hr. inv_run Hr. cbn. rewrite E. eauto.
    + inv_run Hr. destruct (_ <=? _); inv_run Hr.
Qed.

Lemma loop_step_completed step w completed w' :
  loop_step x step w = (Ok (inl completed), w') →
  ∃ c s, completed_from c s completed ∧ rr_verdict <$> fs_review s = Some Approve.
Proof.
  unfold loop_step. intros Hr. apply proc_bind_Ok in Hr as (c0 & w1 & _ & Hr). destruct c0; [by inv_run Hr|].
  destruct step as [role cycle b|c correlation may_rerun].
  - apply proc_bind_Ok in Hr as ([c k] & w2 & _ & Hr). inv_run Hr.
  - apply proc_bind_Ok in Hr as (ended & w2 & _ & Hr). destruct ended.
    + apply proc_bind_Ok in Hr as (s & w3 & Hs & Hr). destruct (validate_checkpoint_state s c) as [[]|e] eqn:Hv.
      * apply after_turn_completed in Hr as [(d & Hd & ->) Happ]. exists c, s. split; [|done].
        split_and!; [done|by eauto|by eauto].
      * apply proc_bind_Ok in Hr as (u & w4 & _ & Hr). destruct may_rerun; [inv_run Hr|].
        destruct (decide (sc_phase c = PhaseCompleted)); by inv_run Hr.
    + apply proc_bind_Ok in Hr as (u & w4 & _ & Hr). inv_run Hr.
Qed.

Lemma first_step_completed resume w completed w' :
  first_step x resume w = (Ok (inl completed), w') →
  ∃ c s, validate_checkpoint_state s c = Ok tt ∧ (∃ w1 w2, load_state x w1 = (Ok s, w2)) ∧
    (∃ durable correlation, encode_checkpoint c (sx_workspace x) correlation = Ok durable ∧
       completed = complete_stage c s durable) ∧
    sc_phase c = PhaseCompleted ∧ rr_verdict <$> fs_review s = Some Approve.
Proof.
  unfold first_step. intros Hr. destruct (resume_current resume) as [[c k]|]; [inv_run Hr|].
  apply proc_bind_Ok in Hr as (s & w1 & Hs & Hr). destruct (is_ok _); cbn [andb] in Hr; [|inv_run Hr].
  destruct (bool_decide _) eqn:Happ; cbn [andb] in Hr; [|inv_run Hr]. apply bool_decide_eq_true in Happ. cbn in Hr.
  destruct (preceding_checkpoint resume) as [review|]; [|by inv_run Hr]. inv_run Hr.
  match goal with H : terminal_on_error _ = Ok _ |- _ => apply terminal_on_error_Ok, new_checkpoint_Ok in H as (_ & _ & _ & _ & Hph & _) end.
  match goal with H : match validate_checkpoint_state ?s ?c with _ => _ end = Ok _ |- _ =>
    destruct (validate_checkpoint_state s c) as [[]|] eqn:Hv; [|done]; exists c, s end.
  split_and!; [done|by eauto|by eauto|done|done].
Qed.

(** A remediation stage is reported complete only after approval: the state it was
    completed from was read from the backend, the contract of the completed checkpoint
    accepts it, and its current review approves the result, whether the approval came
    from the stage's own loop, from an earlier attempt, or from the review before it. *)
Theorem remediation_completes_approved fuel resume w completed w' :
  run_remediation_loop x fuel resume w = Some (Ok completed, w') →
  ∃ c s, validate_checkpoint_state s c = Ok tt ∧ (∃ w1 w2, load_state x w1 = (Ok s, w2)) ∧
    rr_verdict <$> fs_review s = Some Approve ∧
    ∃ durable correlation, completed = complete_stage c s durable ∧
      (final_checkpoint c (sx_workspace x) correlation = Ok durable ∨
       sc_phase c = PhaseCompleted ∧ encode_checkpoint c (sx_workspace x) correlation = Ok durable).
Proof.
  unfold run_remediation_loop. destruct (first_step x resume w) as [[[d|step]|e] w1] eqn:Hf; [| |done].
  - intros [= -> ->]. apply first_step_completed in Hf as (c & s & Hv & Hl & (du & k & He & ->) & Hp & Ha).
    exists c, s. split_and!; [done..|]. exists du, k. auto.
  - clear Hf. revert step w1. induction fuel as [|n IH]; intros step w1; cbn; [done|].
    destruct (loop_step x step w1) as [[[d|next]|e] w2] eqn:Hs; [|apply IH|done].
    intros [= -> ->]. apply loop_step_completed in Hs as (c & s & (Hv & Hl & du & k & Hd & ->) & Ha).
    exists c, s. split_and!; [done..|]. exists du, k. auto.
Qed.
End laws.

(** ** Witnesses *)

Lemma remediation_loop_returns_witness :
  ∃ r w', run_remediation_loop demo_stage 26 ResumeAtStart (mkHost ∅ demo_reviewed) = Some (r, w').
Proof.
  apply (remediation_loop_returns demo_stage ResumeAtStart (mkHost ∅ demo_reviewed)). intros c k. discriminate.
Defined.

Definition demo_plan_run : result ExecutionFailure CompletedOperation * Host :=
  run_single_stage demo_stage (λ _, "") KindPlan ResumeAtStart (mkHost ∅ demo_planned).

Lemma stage_completes_validated_witness :
  ∃ completed w', demo_plan_run = (Ok completed, w') ∧
    ∃ c s, completed_from demo_stage c s completed.
Proof.
  destruct demo_plan_run as [[completed|e] w'] eqn:E; [|vm_compute in E; discriminate].
  exists completed, w'. split; [reflexivity|].
  destruct (stage_completes_validated demo_stage (λ _, "") KindPlan ResumeAtStart (mkHost ∅ demo_planned) completed w' E)
    as (c & s & Hc & _).
  exists c, s. exact Hc.
Defined.

(** A remediation after an approving review. *)
Definition demo_approved_host : Host := mkHost {["parent" := demo_approved]} demo_approved.

Definition demo_remediation_run : option (result ExecutionFailure CompletedOperation * Host) :=
  run_remediation_loop demo_stage 26 (ResumePrevious (mkStageCheckpoint KindReview "parent" "review-thread" "review-turn"
    PhaseCompleted TurnRoleReview 0 3 (Some 0) (Some "execute-turn"))) demo_approved_host.

Lemma remediation_completes_approved_witness :
  ∃ completed w', demo_remediation_run = Some (Ok completed, w') ∧
    ∃ s, rr_verdict <$> fs_review s = Some Approve.
Proof.
  destruct demo_remediation_run as [[[completed|e] w']|] eqn:E; [|vm_compute in E; discriminate|vm_compute in E; discriminate].
  exists completed, w'. split; [reflexivity|].
  destruct (remediation_completes_approved demo_stage 26 _ _ completed w' E) as (c & s & _ & _ & Ha & _).
  exists s. exact Ha.
Defined.
