(* ===== verification/TaskShape.v ===== *)
(** * The shape of a task

    A [factory.task] holds its four initial stages and complete continuation
    rounds, at consecutive ordinals.  The executor checks this before it runs an
    operation; the store keeps it. *)

From S2P Require Import Prelude Sequences Domain Rows Store Leases Attempts Jobs Recovery Lifecycle Refinement System.
From S2P Require Import Safety Outcomes Stages Checkpoint Operation CheckpointLaws.
From Stdlib Require Import ZArith Ascii String Sorted.
From stdpp Require Import base gmap strings list option sorting.

#[local] Open Scope string_scope.
#[local] Open Scope Z_scope.
#[local] Open Scope list_scope.

(** ** Operations of a task *)

Definition op_view (o : OperationRow) := (or_job_id o, or_ordinal o, or_kind o).

(** The rows of a job are the stages at the ordinals below [4 + 3 r]. *)
Definition task_rounds (jid : string) (r : Z) (O : gmap string OperationRow) : Prop :=
  0 ≤ r
  ∧ (∀ n, 0 ≤ n < 4 + 3 * r → ∃ k o, O !! k = Some o ∧ or_job_id o = jid ∧ or_ordinal o = n)
  ∧ ∀ k o, O !! k = Some o → or_job_id o = jid →
      0 ≤ or_ordinal o < 4 + 3 * r ∧ or_kind o = as_wire_name (at_ordinal (or_ordinal o)).

Definition task_shaped (jid : string) (O : gmap string OperationRow) : Prop := ∃ r, task_rounds jid r O.

Lemma task_rounds_view jid r (O O' : gmap string OperationRow) :
  (∀ k, op_view <$> O' !! k = op_view <$> O !! k) → task_rounds jid r O → task_rounds jid r O'.
Proof.
  intros Hv (Hr & Hall & Hin). split_and!; [done| |].
  - intros n Hn. destruct (Hall _ Hn) as (k & o & Ho & Hj & Hord).
    destruct (fmap_eq_Some_l _ _ _ _ (eq_sym (Hv k)) Ho) as (o' & Ho' & [=]). exists k, o'. split_and!; congruence.
  - intros k o Ho Hj. destruct (fmap_eq_Some_l _ _ _ _ (Hv k) Ho) as (o' & Ho' & [= E1 E2 E3]).
    rewrite E2, E3. apply (Hin k); congruence.
Qed.

(** Appended rows of another job change nothing. *)
Lemma task_rounds_other jid other r (O N : gmap string OperationRow) :
  other ≠ jid → appended other O N → task_rounds jid r O → task_rounds jid r (N ∪ O).
Proof.
  intros Hne Hap (Hr & Hall & Hin). split_and!; [done| |].
  - intros n Hn. destruct (Hall _ Hn) as (k & o & Ho & Hj & Hord). exists k, o. split; [|done].
    apply (lookup_append_Some _ _ other); auto.
  - intros k o [Ho|Ho]%(lookup_append_Some _ _ other) Hj; [|by apply (Hin k)|done].
    by rewrite (ap_job _ _ _ Hap _ _ Ho) in Hj.
Qed.

Lemma continuation_kind i kind n :
  CONTINUATION_KINDS !! i = Some kind → 4 ≤ n → (n - 4) mod 3 = 0 →
  kind = as_wire_name (at_ordinal (n + Z.of_nat i)) ∧ (i < 3)%nat.
Proof.
  intros Hi Hn Hm. pose proof (lookup_lt_Some _ _ _ Hi) as Hlt. cbn in Hlt. split; [|done].
  assert (∀ d, 0 ≤ d < 3 → (n + d - 4) mod 3 = d) as E.
  { intros d Hd. replace (n + d - 4) with ((n - 4) + d) by lia. rewrite Zplus_mod, Hm, Z.add_0_l, Zmod_mod.
    by apply Z.mod_small. }
  rewrite at_ordinal_round by lia. destruct i as [|[|[|i]]]; cbn in Hi; simplify_eq; rewrite E by lia; done.
Qed.

Lemma task_rounds_append jid r (O N : gmap string OperationRow) :
  appended jid O N → one_round jid O N → task_rounds jid r O → task_rounds jid (r + 1) (N ∪ O).
Proof.
  intros Hap (n & Hn & Hm & [Hin Hall] & (kp & p & Hp & Hpj & Hpo)) (Hr & HallO & HinO).
  assert (n = 4 + 3 * r) as ->.
  { destruct (HinO _ _ Hp Hpj) as [Hlt _]. destruct (HallO (3 + 3 * r)) as (k1 & o1 & H1 & Hj1 & Ho1); [lia|].
    destruct (Hall 0%nat "codex.iterate" eq_refl) as (k2 & o2 & H2 & Ho2).
    pose proof (ap_after _ _ _ Hap _ _ _ _ H2 H1 Hj1). lia. }
  split_and!; [lia| |].
  - intros m Hrange. destruct (decide (m < 4 + 3 * r)) as [Hlt|Hge].
    + destruct (HallO m) as (k & o & Ho & Hj & Hord); [lia|]. exists k, o. split; [|done].
      apply (lookup_append_Some _ _ jid); auto.
    + destruct (lookup_lt_is_Some_2 CONTINUATION_KINDS (Z.to_nat (m - (4 + 3 * r)))) as [kind Hk]; [cbn; lia|].
      destruct (Hall _ _ Hk) as (k & o & Ho & Hord).
      exists k, o. split_and!; [apply (lookup_append_Some _ _ jid); auto|by eapply (ap_job _ _ _ Hap)|lia].
  - intros k o [Ho|Ho]%(lookup_append_Some _ _ jid) Hj; [| |done].
    + destruct (Hin _ _ Ho) as (i & Hi & ->). destruct (continuation_kind _ _ _ Hi Hn Hm) as [-> Hlt]. split; [lia|done].
    + destruct (HinO _ _ Ho Hj). split; [lia|done].
Qed.

(** ** Steps *)

Lemma cancelled_operations_view now jid (m : gmap string OperationRow) k :
  op_view <$> cancelled_operations now jid m !! k = op_view <$> m !! k.
Proof.
  unfold cancelled_operations. rewrite lookup_update_where.
  destruct (m !! k) as [o|]; [|done]. simpl. by destruct (_ && _).
Qed.

(** A rule appends to one job or keeps every operation's job, ordinal and kind. *)
Lemma step_operations l l' :
  lifecycle_step l l' →
  (∀ k, op_view <$> lc_operations l' !! k = op_view <$> lc_operations l !! k)
  ∨ ∃ jid N, lc_operations l' = N ∪ lc_operations l ∧ appended jid (lc_operations l) N
      ∧ (is_Some (lc_jobs l !! jid) → one_round jid (lc_operations l) N).
Proof.
  destruct 1 as
    [l jid j' N Hj Hid Hst Hap Hround|l o j a now Ho Hj Hjs Hos Hpred Hf Hao Has He Hc Hn Hlt
    |l aid a o j now owner ex ra rc (Ha & Har & Ho & Hj) Hos He|l aid a ex Ha Har
    |l aid a o j now (Ha & Har & Ho & Hj) Hnc O'|l aid a o j now ra pl (Ha & Har & Ho & Hj) Hnc Hlt
    |l aid a o j now pl (Ha & Har & Ho & Hj) Hnc|l jid j now Hj Hjs Hrun|l jid j now Hj Hjs Hno
    |l aid a o j now pl (Ha & Har & Ho & Hj) Hc]; simpl;
    [|left; first [done|apply cancelled_operations_view|by eapply insert_shape]..].
  right. exists jid, N. split_and!; [done..|]. intros [j Hj']. by apply (Hround j).
Qed.

Lemma task_shaped_step l l' jid :
  lifecycle_step l l' → is_Some (lc_jobs l !! jid) → task_shaped jid (lc_operations l) →
  task_shaped jid (lc_operations l').
Proof.
  intros [Hv|(other & N & -> & Hap & Hround)]%step_operations Hj [r Hr].
  - exists r. by eapply task_rounds_view.
  - destruct (decide (other = jid)) as [->|Hne].
    + exists (r + 1). by apply task_rounds_append; [|apply Hround|].
    + exists r. by eapply task_rounds_other.
Qed.

Section histories.
Context `{External}.

Lemma task_shaped_run history s jid :
  reachable s → is_Some (jobs s !! jid) → task_shaped jid (operations s) →
  is_Some (jobs (run history s) !! jid) ∧ task_shaped jid (operations (run history s)).
Proof.
  revert s. induction history as [|[now c] history IH]; intros s Hr Hj Ht; simpl; [done|].
  pose proof (reachable_lifecycle_ok _ Hr) as Hok. apply IH; [by apply reachable_exec|..].
  - destruct (exec_step now c s Hok) as [[= -> _ _]|Hstep]; [done|]. destruct Hj as [j Hj].
    destruct (step_job_next _ _ _ _ Hok Hstep Hj) as (j' & Hj' & _). by exists j'.
  - destruct (exec_step now c s Hok) as [[= _ -> _]|Hstep]; [done|]. by apply (task_shaped_step _ _ jid Hstep).
Qed.

(** ** The check of the executor *)

Lemma stages_match_spec n ops :
  stages_match n ops = true ↔
  ∀ i r, ops !! i = Some r → op_ordinal r = Z.of_nat (n + i)
    ∧ op_kind r = as_wire_name (at_ordinal (Z.of_nat (n + i))).
Proof.
  revert n. induction ops as [|r ops IH]; intros n; simpl; [split; [intros _ i r Hi; by destruct i|done]|].
  rewrite andb_true_iff, IH. unfold stage_matches. rewrite andb_true_iff, !bool_decide_eq_true. split.
  - intros [[Ho Hk] Hrest] [|i] r' Hi; simpl in Hi; simplify_eq; [by rewrite Nat.add_0_r|].
    replace (n + S i)%nat with (S n + i)%nat by lia. by apply Hrest.
  - intros Hall. split.
    + specialize (Hall 0%nat r eq_refl). by rewrite Nat.add_0_r in Hall.
    + intros i r' Hi. replace (S n + i)%nat with (n + S i)%nat by lia. by apply Hall.
Qed.

Lemma check_shape_Ok ops :
  check_shape ops = Ok tt ↔
  (∃ r, 0 ≤ r ∧ Z.of_nat (length ops) = 4 + 3 * r) ∧
  ∀ i r, ops !! i = Some r → op_ordinal r = Z.of_nat i ∧ op_kind r = as_wire_name (at_ordinal (Z.of_nat i)).
Proof.
  unfold check_shape. change (Z.of_nat (length ALL)) with 4. rewrite <- (stages_match_spec 0).
  set (n := Z.of_nat (length ops)). split.
  - intros Hc. inv_tx. match goal with H : _ || _ = false |- _ => apply orb_false_iff in H as [Hlt%Z.ltb_ge Hm] end.
    apply negb_false_iff, Z.eqb_eq in Hm. split; [|by apply negb_false_iff].
    exists ((n - 4) / 3). pose proof (Z.div_mod (n - 4) 3). split; [apply Z.div_pos|]; lia.
  - intros [(r & Hr & Hn) ->]. rewrite Hn. replace (4 + 3 * r - 4) with (r * 3) by lia. rewrite Z_mod_mult.
    destruct (4 + 3 * r <? 4) eqn:E; [apply Z.ltb_lt in E; lia|done].
Qed.

(** A strictly increasing list of exactly the numbers from [m] to [n]. *)
Lemma increasing_positions (l : list Z) m n :
  StronglySorted Z.lt l → m ≤ n → (∀ x, x ∈ l ↔ m ≤ x < n) →
  Z.of_nat (length l) = n - m ∧ ∀ i x, l !! i = Some x → x = m + Z.of_nat i.
Proof.
  intros Hs. revert m. induction Hs as [|y l Hs IH Hy]; intros m Hmn Hx.
  - split; [|intros i x Hi; by destruct i]. destruct (decide (m = n)) as [->|Hne]; [simpl; lia|].
    assert (m ∈ []) as Hin by (apply Hx; lia). by apply not_elem_of_nil in Hin.
  - rewrite Forall_forall in Hy.
    assert (m ≤ y < n) as Hr by (apply Hx; left).
    assert (y = m) as ->.
    { destruct (decide (y = m)) as [|Hne]; [done|]. assert (m ∈ y :: l) as [E|Hin]%elem_of_cons by (apply Hx; lia); [lia|].
      apply Hy in Hin. lia. }
    destruct (IH (m + 1)) as [Hlen Hpos]; [lia| |].
    { intros x. split.
      - intros Hin. pose proof (Hy _ Hin). assert (x ∈ m :: l) as Hin' by (by right). apply Hx in Hin'. lia.
      - intros Hrange. assert (x ∈ m :: l) as [->|Hin]%elem_of_cons by (apply Hx; lia); [lia|done]. }
    split; [simpl; lia|]. intros [|i] x Hi; simpl in Hi; simplify_eq; [lia|]. rewrite (Hpos _ _ Hi). lia.
Qed.

(** The loaded operations of a job, as rows. *)
Lemma loaded_operations s k d s' :
  reachable s → load_job k s = (Ok d, s') →
  StronglySorted Z.lt (op_ordinal <$> dj_operations d) ∧
  ∀ n kind, (∃ r, r ∈ dj_operations d ∧ op_ordinal r = n ∧ op_kind r = kind)
            ↔ ∃ ko o, operations s !! ko = Some o ∧ or_job_id o = k ∧ or_ordinal o = n ∧ or_kind o = kind.
Proof.
  intros Hlc%reachable_lifecycle_ok Hl. unfold load_job in Hl. injection Hl as Hl _.
  destruct (jobs s !! k) as [j|] eqn:Hj; [|by unfold load_job_row in Hl; rewrite Hj in Hl].
  destruct (load_job_row_total s k j Hlc Hj) as (job & ops & Hload & _ & Hops). rewrite Hload in Hl. simplify_eq. simpl.
  split; [eapply (Forall2_sorted or_ordinal); [|exact Hops|by apply operations_of_increasing, Hlc]; naive_solver|].
  intros n kind. split.
  - intros (r & Hr & <- & <-). apply list_elem_of_lookup in Hr as [i Hi].
    destruct (Forall2_lookup_r _ _ _ _ _ Hops Hi) as (o & Ho & _ & _ & -> & ->).
    apply list_elem_of_lookup_2, elem_of_order_by, elem_of_operations_of in Ho as [[ko Ho] Hoj]. by exists ko, o.
  - intros (ko & o & Ho & Hoj & <- & <-).
    assert (o ∈ order_by by_ordinal (operations_of k s)) as [i Hi]%list_elem_of_lookup.
    { apply elem_of_order_by, elem_of_operations_of. eauto. }
    destruct (Forall2_lookup_l _ _ _ _ _ Hops Hi) as (r & Hr & _ & _ & E1 & E2).
    exists r. split; [by eapply list_elem_of_lookup_2|done].
Qed.

(** The check accepts exactly the tasks of complete rounds. *)
Lemma check_shape_exact s k d s' :
  reachable s → load_job k s = (Ok d, s') →
  check_shape (dj_operations d) = Ok tt ↔ task_shaped k (operations s).
Proof.
  intros Hr Hl. destruct (loaded_operations _ _ _ _ Hr Hl) as [Hs Hin]. rewrite check_shape_Ok. split.
  - intros [(r & Hr0 & Hlen) Hall]. exists r. split_and!; [done| |].
    + intros n Hn. destruct (lookup_lt_is_Some_2 (dj_operations d) (Z.to_nat n)) as [x Hx]; [lia|].
      destruct (Hall _ _ Hx) as [Ho _]. destruct (proj1 (Hin n (op_kind x))) as (ko & o & Hko & Hj & Hord & _).
      { exists x. split_and!; [by eapply list_elem_of_lookup_2|lia|done]. }
      by exists ko, o.
    + intros ko o Ho Hj. destruct (proj2 (Hin (or_ordinal o) (or_kind o))) as (x & [i Hx]%list_elem_of_lookup & Hxo & Hxk); [eauto 10|].
      destruct (Hall _ _ Hx) as [E1 E2]. pose proof (lookup_lt_Some _ _ _ Hx). rewrite <- Hxo, <- Hxk, E2, E1. split; [lia|done].
  - intros (r & Hr0 & Hall & Hkind).
    destruct (increasing_positions (op_ordinal <$> dj_operations d) 0 (4 + 3 * r) Hs) as [Hlen Hpos]; [lia| |].
    { intros n. rewrite list_elem_of_fmap. split.
      - intros (x & -> & Hx). destruct (proj1 (Hin (op_ordinal x) (op_kind x))) as (ko & o & Ho & Hj & <- & _); [eauto|].
        by apply (Hkind ko).
      - intros Hn. destruct (Hall _ Hn) as (ko & o & Ho & Hj & Hord).
        destruct (proj2 (Hin n (or_kind o))) as (x & Hx & Hxo & _); [eauto 10|]. eauto. }
    rewrite length_fmap in Hlen. split; [exists r; split; [done|lia]|]. intros i x Hx.
    assert (op_ordinal x = Z.of_nat i) as E.
    { rewrite (Hpos i (op_ordinal x)); [lia|]. by rewrite list_lookup_fmap, Hx. }
    split; [done|]. destruct (proj1 (Hin (op_ordinal x) (op_kind x))) as (ko & o & Ho & Hj & Hord & <-).
    { exists x. split; [by eapply list_elem_of_lookup_2|done]. }
    rewrite <- E, <- Hord. by apply (Hkind ko).
Qed.

(** The shape of a task is never lost: once the operations of a job pass the check the
    executor makes before every stage (the four initial stages, then complete rounds of
    iterate, review and remediate, at consecutive ordinals), they pass it in every later
    database, whatever calls are made in between, continuations included; so no operation
    of such a job is ever failed for good over its job's shape. *)
Theorem task_shape_kept history s k d :
  reachable s → load_job k s = (Ok d, s) → check_shape (dj_operations d) = Ok tt →
  ∃ d', load_job k (run history s) = (Ok d', run history s) ∧ check_shape (dj_operations d') = Ok tt.
Proof.
  intros Hr Hl Hc. apply (check_shape_exact _ _ _ _ Hr Hl) in Hc.
  assert (is_Some (jobs s !! k)) as Hj.
  { destruct (jobs s !! k) eqn:E; [done|]. unfold load_job, load_job_row in Hl. by rewrite E in Hl. }
  destruct (task_shaped_run history s k Hr Hj Hc) as [[j' Hj'] Ht].
  pose proof (reachable_run history _ Hr) as Hr'.
  destruct (load_job_row_total _ _ _ (reachable_lifecycle_ok _ Hr') Hj') as (job & ops & Hload & _).
  assert (load_job k (run history s) = (Ok (mkDurableJob job ops), run history s)) as Hl' by (unfold load_job; by rewrite Hload).
  eexists. split; [exact Hl'|]. by apply (check_shape_exact _ _ _ _ Hr' Hl').
Qed.
End histories.

(** ** Witnesses *)

#[local] Existing Instance demo_external.

Definition continued_call : list (Z * Call) := [(1000, ContinueJob (demo_ids "n") "J" "more tests")].

(** A task that succeeded and is continued has seven stages. *)
Lemma task_shape_kept_witness :
  ∃ d', load_job "J" (run continued_call (demo succeeded_history)) = (Ok d', run continued_call (demo succeeded_history))
    ∧ check_shape (dj_operations d') = Ok tt.
Proof.
  destruct (load_job_row "J" (demo succeeded_history)) as [d|e] eqn:E; [|vm_compute in E; discriminate].
  apply (task_shape_kept continued_call (demo succeeded_history) "J" d (demo_reachable succeeded_history)).
  - unfold load_job. rewrite E. reflexivity.
  - vm_compute in E. injection E as <-. vm_compute. reflexivity.
Defined.
