(* ===== verification/Discipline.v ===== *)
(** * The lock and the session of an operation

    A worker touches the worktree and the environment of a job only while it
    owns the workspace lock, and drives a Codex session only between its start
    and its shutdown.  The rules are those of a typestate: each call of the host
    is given the phases it may be made in, and nothing else is assumed of it.  A
    procedure that leads from phase to phase under these assumptions makes every
    call in a phase that allows it. *)

From S2P Require Import Prelude Sequences Domain Store Leases Environments Attempts Jobs Runner Serde AgentState AgentTools.
From S2P Require Import Stages StateDocument StateBackend Checkpoint Executor EnvironmentWork ProviderTools Operation.
From Stdlib Require Import ZArith Ascii String.
From stdpp Require Import base gmap strings option list.

#[local] Open Scope string_scope.
#[local] Open Scope Z_scope.
#[local] Open Scope list_scope.

(** ** Procedures that keep a predicate *)

Class Keeps {W E A : Type} (P : W → Prop) (p : proc W E A) : Prop := keeps w : P w → P (p w).2.

(** A procedure that moves from [P] to [Q], or to [R] when it fails. *)
Definition moves {W E A : Type} (P : W → Prop) (Q : A → W → Prop) (R : W → Prop) (p : proc W E A) : Prop :=
  ∀ w, P w → match p w with (Ok a, w') => Q a w' | (Err _, w') => R w' end.

Definition okeeps {W E A : Type} (P Q : W → Prop) (p : oproc W E A) : Prop :=
  ∀ w r w', p w = Some (r, w') → P w → Q w'.

Section combinators.
Context {W : Type} (P : W → Prop).

#[export] Instance keeps_bind {E A B : Type} (m : proc W E A) (k : A → proc W E B) :
  Keeps P m → (∀ a, Keeps P (k a)) → Keeps P (m ≫= k).
Proof.
  intros Hm Hk w Hw. unfold mbind, proc_bind. pose proof (Hm w Hw) as H1.
  destruct (m w) as [[a|e] w1]; [|done]. by apply Hk.
Qed.

#[export] Instance keeps_lift {E A : Type} (r : result E A) : Keeps P (proc_lift r).
Proof. by intros w. Qed.
#[export] Instance keeps_done {E A : Type} (a : A) : Keeps (E := E) P (done a).
Proof. by intros w. Qed.
#[export] Instance keeps_fail {E A : Type} (e : E) : Keeps (A := A) P (fail e).
Proof. by intros w. Qed.
#[export] Instance keeps_observe {E A : Type} (f : W → A) : Keeps (E := E) P (observe f).
Proof. by intros w. Qed.
#[export] Instance keeps_map_err {E F A : Type} (f : E → F) (p : proc W E A) : Keeps P p → Keeps P (map_err f p).
Proof. intros Hp w Hw. unfold map_err. pose proof (Hp w Hw) as H1. by destruct (p w) as [[a|e] w1]. Qed.
#[export] Instance keeps_attempt {E F A : Type} (p : proc W E A) : Keeps P p → Keeps (E := F) P (attempt p).
Proof. intros Hp w Hw. unfold attempt. pose proof (Hp w Hw) as H1. by destruct (p w). Qed.
#[export] Instance keeps_ignore {E F A : Type} (p : proc W E A) : Keeps P p → Keeps (E := F) P (ignore p).
Proof. intros Hp w Hw. by apply Hp. Qed.
#[export] Instance keeps_when {E : Type} c (p : proc W E unit) : Keeps P p → Keeps P (when c p).
Proof. intros Hp. destruct c; apply _. Qed.
End combinators.

(** Case analysis on what a procedure branches on, then the instances. *)
Ltac keeps :=
  repeat first
    [ progress intros
    | apply _
    | apply keeps_bind
    | apply keeps_when
    | apply keeps_map_err | apply keeps_attempt | apply keeps_ignore
    | case_match ].

(** ** Phases *)

Inductive Phase : Type := Unlocked | Locked | InSession.

(** The lock is held. *)
Class UnderLock (ph : Phase) : Prop := under_lock : ph ≠ Unlocked.

#[export] Instance locked_under_lock : UnderLock Locked.
Proof. done. Qed.
#[export] Instance session_under_lock : UnderLock InSession.
Proof. done. Qed.

Class Discipline {W : Type} `{OperationHost W} (at_phase : Phase → W → Prop) : Prop := {
  store_anywhere ph A (f : Z → string → Proc A) :: Keeps (at_phase ph) (store_call f);
  load_locked ph key :: UnderLock ph → Keeps (at_phase ph) (backend_load key);
  save_locked ph key s :: UnderLock ph → Keeps (at_phase ph) (backend_save key s);
  restore_locked ph :: UnderLock ph → Keeps (at_phase ph) restore_worktree;
  recreate_locked ph :: UnderLock ph → Keeps (at_phase ph) recreate_worktree;
  recover_locked ph :: UnderLock ph → Keeps (at_phase ph) recover_review_snapshot;
  acknowledge_locked ph :: UnderLock ph → Keeps (at_phase ph) acknowledge_review_mutation;
  provision_locked ph e root metadata :: UnderLock ph → Keeps (at_phase ph) (provision e root metadata);
  deprovision_locked ph e :: UnderLock ph → Keeps (at_phase ph) (deprovision e);
  correlation_locked ph c :: UnderLock ph → Keeps (at_phase ph) (append_correlation c);
  status_in_session thread turn :: Keeps (at_phase InSession) (persisted_turn_status thread turn);
  review_in_session text turn key :: Keeps (at_phase InSession) (start_review text turn key);
  turn_in_session text policy stage :: Keeps (at_phase InSession) (start_text_turn text policy stage);
  wait_in_session :: Keeps (at_phase InSession) wait_for_completion;
  event_in_session turn kind payload :: Keeps (at_phase InSession) (emit_event turn kind payload);
  checkpoint_in_session c :: Keeps (at_phase InSession) (write_checkpoint c);
  capture_in_session :: Keeps (at_phase InSession) capture_review_snapshot;
  snapshot_in_session snapshot :: Keeps (at_phase InSession) (restore_review_snapshot snapshot);
  pristine_in_session :: Keeps (at_phase InSession) validate_pristine;
  acquire_locks job : moves (at_phase Unlocked) (λ _, at_phase Locked) (at_phase Unlocked) (acquire_workspace_execution job);
  acquire_may_lock job : moves (at_phase Unlocked)
    (λ g, at_phase (if g is Some _ then Locked else Unlocked)) (at_phase Unlocked) (acquire_unless_cancelled job);
  release_unlocks guard w : at_phase Locked w → at_phase Unlocked (release_guard guard w).2;
  start_opens args id stage parent : moves (at_phase Locked) (λ _, at_phase InSession) (at_phase Locked)
    (start_session args id stage parent);
  shutdown_closes w : at_phase InSession w → at_phase Locked (shutdown_session w).2;
}.

Section discipline.
Context {W : Type} `{OperationHost W} (at_phase : Phase → W → Prop) `{!Discipline at_phase}.
Context `{CoordinatorText} `{HashOrder} `{DecodeText}.

(** ** Procedures of a stage *)

Section stage.
Context (x : StageContext).

#[export] Instance load_state_keeps ph : UnderLock ph → Keeps (at_phase ph) (load_state x).
Proof. unfold load_state, retryable_message. keeps. Qed.
#[export] Instance save_state_keeps ph s : UnderLock ph → Keeps (at_phase ph) (save_state x s).
Proof. unfold save_state, retryable_message. keeps. Qed.
#[export] Instance update_review_recovery_keeps ph commit : UnderLock ph → Keeps (at_phase ph) (update_review_recovery x commit).
Proof. unfold update_review_recovery. keeps. Qed.
#[export] Instance rollback_keeps ph : UnderLock ph → Keeps (at_phase ph) (rollback_detached_review x).
Proof. unfold rollback_detached_review. keeps. Qed.
#[export] Instance commit_keeps ph : UnderLock ph → Keeps (at_phase ph) (commit_detached_review x).
Proof. unfold commit_detached_review. keeps. Qed.
#[export] Instance plan_baseline_keeps ph : UnderLock ph → Keeps (at_phase ph) (restore_plan_baseline x).
Proof. unfold restore_plan_baseline, restore_factory_plan_state. keeps. Qed.
#[export] Instance checkpoint_correlation_keeps ph c : UnderLock ph → Keeps (at_phase ph) (append_checkpoint_turn_correlation x c).
Proof. unfold append_checkpoint_turn_correlation, coordinator. keeps. Qed.
#[export] Instance cleanup_review_keeps ph : UnderLock ph → Keeps (at_phase ph) (cleanup_detached_review x).
Proof. unfold cleanup_detached_review, retryable_coordinator. keeps. Qed.

Abbreviation In := (Keeps (at_phase InSession)).

#[export] Instance prepare_review_keeps : In (prepare_detached_review x).
Proof. unfold prepare_detached_review, retryable_coordinator. keeps. Qed.
#[export] Instance turn_correlation_keeps turn : In (append_turn_correlation x turn).
Proof. unfold append_turn_correlation, coordinator. keeps. Qed.
#[export] Instance persisted_keeps c : In (persisted_turn_completed c).
Proof. unfold persisted_turn_completed, retryable_text. keeps. Qed.
#[export] Instance cycle_event_keeps c : In (emit_review_cycle_completed c).
Proof. unfold emit_review_cycle_completed, coordinator. keeps. Qed.
#[export] Instance error_event_keeps c m : In (emit_stage_error c m).
Proof. unfold emit_stage_error, coordinator. keeps. Qed.
#[export] Instance start_turn_keeps operation role cycle b : In (start_turn x operation role cycle b).
Proof. unfold start_turn, coordinator. keeps. Qed.
#[export] Instance write_checkpoint_keeps c id : In (write_stage_checkpoint x c id).
Proof. unfold write_stage_checkpoint, coordinator. keeps. Qed.
#[export] Instance await_turn_keeps turn operation role cycle : In (await_turn x turn operation role cycle).
Proof. unfold await_turn, coordinator. keeps. Qed.
#[export] Instance execute_turn_keeps operation role cycle b : In (execute_turn x operation role cycle b).
Proof. unfold execute_turn. keeps. Qed.
#[export] Instance finish_review_keeps snapshot operation role cycle executed :
  In (finish_review x snapshot operation role cycle executed).
Proof. unfold finish_review, retryable_coordinator, coordinator. keeps. Qed.
#[export] Instance run_turn_keeps operation role cycle b : In (run_turn x operation role cycle b).
Proof. unfold run_turn, coordinator. keeps. Qed.
#[export] Instance accept_stage_keeps operation c s id : In (accept_stage x operation c s id).
Proof. unfold accept_stage. keeps. Qed.
#[export] Instance discard_review_keeps c : In (discard_review x c).
Proof. unfold discard_review. keeps. Qed.
#[export] Instance promote_keeps operation c id : In (promote_recorded x operation c id).
Proof. unfold promote_recorded. keeps. Qed.
#[export] Instance next_turn_keeps operation resume : In (next_turn x operation resume).
Proof. unfold next_turn. keeps. Qed.
#[export] Instance prepare_rerun_keeps operation resume : In (prepare_rerun x operation resume).
Proof. unfold prepare_rerun, retryable_message. keeps. Qed.
#[export] Instance single_stage_keeps message_text operation resume : In (run_single_stage x message_text operation resume).
Proof. unfold run_single_stage. keeps. Qed.
#[export] Instance after_turn_keeps c s id : In (after_turn x c s id).
Proof. unfold after_turn, finish_remediation. keeps. Qed.
#[export] Instance loop_step_keeps step : In (Executor.loop_step x step).
Proof. unfold Executor.loop_step, turn_ended. keeps. Qed.
#[export] Instance first_step_keeps resume : In (first_step x resume).
Proof. unfold first_step. keeps. Qed.

Lemma remediation_loop_keeps fuel resume :
  okeeps (at_phase InSession) (at_phase InSession) (run_remediation_loop x fuel resume).
Proof.
  assert (∀ n step, okeeps (at_phase InSession) (at_phase InSession) (remediation_loop x n step)) as Hloop.
  { induction n as [|n IH]; intros step w r w'; cbn; [done|]. intros Hr Hw.
    pose proof (keeps (p := Executor.loop_step x step) w Hw) as Hkept.
    destruct (Executor.loop_step x step w) as [[[c|next]|e] w1]; simplify_eq; [done| |done]. by eapply IH. }
  intros w r w' Hr Hw. unfold run_remediation_loop in Hr. pose proof (keeps (p := first_step x resume) w Hw) as Hkept.
  destruct (first_step x resume w) as [[[c|step]|e] w1]; simplify_eq; [done| |done]. by eapply Hloop.
Qed.
End stage.

(** ** The operation *)

Lemma okeeps_total {E A : Type} (P : W → Prop) (p : proc W E A) : Keeps P p → okeeps P P (ototal p).
Proof. intros Hp w r w' [= E'] Hw. pose proof (Hp w Hw) as Hkept. by rewrite E' in Hkept. Qed.

Lemma okeeps_bind {E A B : Type} (P Q R : W → Prop) (m : oproc W E A) (k : A → oproc W E B) :
  (∀ w a w', m w = Some (Ok a, w') → P w → Q w') → (∀ w e w', m w = Some (Err e, w') → P w → R w') →
  (∀ a, okeeps Q R (k a)) → okeeps P R (m ≫= k).
Proof.
  intros Ho He Hk w r w' Hr Hw. unfold mbind, oproc_bind in Hr.
  destruct (m w) as [[[a|e] w1]|] eqn:Em; [by eapply Hk, Ho|simplify_eq; by eapply He|done].
Qed.

Lemma okeeps_step {E A B : Type} (P : W → Prop) (m : proc W E A) (k : A → oproc W E B) :
  Keeps P m → (∀ a, okeeps P P (k a)) → okeeps P P (ototal m ≫= k).
Proof. intros Hm Hk. eapply okeeps_bind; [..|exact Hk]; intros; by eapply okeeps_total. Qed.

Lemma oattempt_keeps {E F A : Type} (P Q : W → Prop) (p : oproc W E A) : okeeps P Q p → okeeps P Q (oattempt (F := F) p).
Proof.
  intros Hp w r w' Hr Hw. unfold oattempt in Hr. destruct (p w) as [[r1 w1]|] eqn:Ep; simplify_eq. by eapply Hp.
Qed.

Context (message_text : Message → string) (config : ExecutorConfig) (context : OperationExecutionContext).

#[export] Instance validate_shape_keeps operation : Keeps (at_phase Unlocked) (validate_job_shape config context operation).
Proof. unfold validate_job_shape, coordinator. keeps. Qed.
#[export] Instance operation_inputs_keeps : Keeps (at_phase Unlocked) (operation_inputs config context).
Proof. unfold operation_inputs. keeps. Qed.
#[export] Instance ensure_environment_keeps fence root metadata : Keeps (at_phase Locked) (ensure_environment fence root metadata).
Proof. unfold ensure_environment, reserve_locator, provisioning_failed. keeps. Qed.
#[export] Instance prepare_plan_keeps workspace : Keeps (at_phase Locked) (prepare_plan_workspace workspace).
Proof. unfold prepare_plan_workspace, coordinator, release_execution_environment_backend. keeps. Qed.
#[export] Instance undo_failed_keeps x operation r : Keeps (at_phase Locked) (undo_failed x operation r).
Proof. unfold undo_failed. keeps. Qed.
#[export] Instance cancelled_cleanup_keeps operation workspace : Keeps (at_phase Locked) (cancelled_cleanup config context operation workspace).
Proof. unfold cancelled_cleanup, restore_factory_plan_state. keeps. Qed.

Lemma run_session_keeps fuel x thread operation resume :
  okeeps (at_phase InSession) (at_phase InSession) (run_session message_text fuel x thread operation resume).
Proof.
  unfold run_session, append_thread_correlation, append_resumed_turn_correlation, recover_interrupted_review,
    coordinator, retryable_coordinator.
  apply okeeps_step; [keeps|intros _]. apply okeeps_step; [keeps|intros id]. apply okeeps_step; [keeps|intros _].
  destruct operation; first [apply remediation_loop_keeps|apply okeeps_total; apply _].
Qed.

Lemma guarded_session_keeps fuel operation input workspace args :
  okeeps (at_phase Locked) (at_phase Locked)
    (execute_with_workspace_guard message_text config context fuel operation input workspace args).
Proof.
  unfold execute_with_workspace_guard. apply okeeps_step; [apply _|intros [resume id]].
  eapply (okeeps_bind _ (at_phase InSession)).
  - intros w a w' [= E] Hw. unfold map_err in E. pose proof (start_opens args id (turn_stage operation) (parent_thread resume) w Hw).
    destruct (start_session _ _ _ _ w) as [[]]; by simplify_eq.
  - intros w e w' [= E] Hw. unfold map_err in E. pose proof (start_opens args id (turn_stage operation) (parent_thread resume) w Hw).
    destruct (start_session _ _ _ _ w) as [[]]; by simplify_eq.
  - intros thread. eapply (okeeps_bind _ (at_phase InSession)).
    + intros w a w' Hr Hw. eapply oattempt_keeps; [apply run_session_keeps|exact Hr|done].
    + intros w e w' Hr Hw. unfold oattempt in Hr. by destruct (run_session _ _ _ _ _ _ w) as [[]|].
    + intros result. eapply (okeeps_bind _ (at_phase Locked)).
      * intros w a w' [= E] Hw. unfold attempt in E. pose proof (shutdown_closes w Hw).
        destruct (shutdown_session w); by simplify_eq.
      * intros w e w' [= E] Hw. unfold attempt in E. by destruct (shutdown_session w).
      * intros shutdown. apply okeeps_step; [apply _|]. intros cancelled. apply okeeps_total. apply _.
Qed.

Lemma guarded_operation_keeps fuel operation input workspace :
  okeeps (at_phase Locked) (at_phase Locked) (guarded_operation message_text config context fuel operation input workspace).
Proof.
  unfold guarded_operation. apply okeeps_step; [keeps|intros _]. apply okeeps_step; [apply _|intros environment].
  apply okeeps_step; [apply _|intros args]. apply guarded_session_keeps.
Qed.

(** What follows the release of the lock is decided by the results alone. *)
Lemma release_keeps {A : Type} guard (k : result CoordinatorError unit → result ExecutionFailure A) :
  okeeps (at_phase Locked) (at_phase Unlocked)
    (release ← ototal (attempt (release_guard guard)); ototal (proc_lift (k release))).
Proof.
  intros w r w' Hr Hw. unfold mbind, oproc_bind, ototal, attempt, proc_lift in Hr.
  pose proof (release_unlocks guard w Hw). destruct (release_guard guard w) as [rel w1]. by simplify_eq.
Qed.

Lemma execute_operation_keeps fuel :
  okeeps (at_phase Unlocked) (at_phase Unlocked) (execute_operation message_text config context fuel).
Proof.
  unfold execute_operation. apply okeeps_step; [apply _|intros [[operation input] workspace]].
  intros w r w' Hr Hw. unfold mbind, oproc_bind, ototal at 1, coordinator, map_err in Hr.
  pose proof (acquire_may_lock (wr_job_id workspace) w Hw) as Hacq.
  destruct (acquire_unless_cancelled (wr_job_id workspace) w) as [[[guard|]|e] w1]; [|by injection Hr as <- <-..].
  revert Hr Hacq. eapply (okeeps_bind (at_phase Locked) (at_phase Locked)).
  - intros w2 a w3 Hr Hw2. eapply oattempt_keeps; [apply guarded_operation_keeps|exact Hr|done].
  - intros w2 e w3 Hr Hw2. unfold oattempt in Hr. by destruct (guarded_operation _ _ _ _ _ _ _ w2) as [[]|].
  - intros result. apply release_keeps.
Qed.

Lemma cleanup_operation_keeps : Keeps (at_phase Unlocked) (cleanup_cancelled_operation config context).
Proof.
  unfold cleanup_cancelled_operation.
  apply keeps_bind; [apply _|intros operation]. destruct (oec_workspace context) as [workspace|]; [|apply _].
  intros w Hw. unfold mbind, proc_bind, coordinator, map_err.
  pose proof (acquire_locks (wr_job_id workspace) w Hw) as Hacq.
  destruct (acquire_workspace_execution (wr_job_id workspace) w) as [[guard|e] w1]; [|done]. unfold attempt.
  pose proof (keeps (p := cancelled_cleanup config context operation workspace) w1 Hacq) as Hkept.
  destruct (cancelled_cleanup config context operation workspace w1) as [cleanup w2].
  pose proof (release_unlocks guard w2 Hkept) as Hun. destruct (release_guard guard w2) as [released w3].
  by destruct cleanup, released.
Qed.
End discipline.
