(* ===== verification/OperationDemo.v ===== *)
(** * An operation on a small host

    The plan stage of the sample job of [System], executed on a host that keeps the
    database, the agent's state, and the phase it is in, and that notes every
    call made in a phase that does not allow it. *)

From S2P Require Import Prelude Sequences Domain Rows Store Leases Environments Attempts Jobs Recovery System Runner.
From S2P Require Import Serde AgentState AgentTools Stages StateDocument StateBackend Checkpoint Executor EnvironmentWork.
From S2P Require Import AgentDemo Operation Discipline.
From Stdlib Require Import ZArith Ascii String.
From stdpp Require Import base gmap strings option list.

#[local] Open Scope string_scope.
#[local] Open Scope Z_scope.
#[local] Open Scope list_scope.

Record Worker : Type := mkWorker {
  wk_db : db;
  wk_now : Z;
  wk_memory : gmap string FactoryState;
  wk_result : FactoryState;
  wk_phase : Phase;
  wk_violated : bool;
}.

Definition set_phase (ph : Phase) (w : Worker) : Worker :=
  mkWorker (wk_db w) (wk_now w) (wk_memory w) (wk_result w) ph (wk_violated w).
Definition set_memory (m : gmap string FactoryState) (w : Worker) : Worker :=
  mkWorker (wk_db w) (wk_now w) m (wk_result w) (wk_phase w) (wk_violated w).
Definition violate (w : Worker) : Worker :=
  mkWorker (wk_db w) (wk_now w) (wk_memory w) (wk_result w) (wk_phase w) true.

Definition under_the_lock (ph : Phase) : bool := match ph with Unlocked => false | _ => true end.
Definition in_a_session (ph : Phase) : bool := match ph with InSession => true | _ => false end.
Definition just_locked (ph : Phase) : bool := match ph with Locked => true | _ => false end.
Definition is_unlocked (ph : Phase) : bool := match ph with Unlocked => true | _ => false end.

(** A call that is allowed in some phases, changes the worker and answers. *)
Definition call_in {E A : Type} (allowed : Phase → bool) (f : Worker → Worker) (a : Worker → A) : proc Worker E A := λ w,
  let w1 := if allowed (wk_phase w) then w else violate w in (Ok (a w1), f w1).

Definition quiet {E A : Type} (allowed : Phase → bool) (a : A) : proc Worker E A := call_in allowed id (λ _, a).

#[local] Instance worker_backend : FactoryStateBackend Worker := {|
  backend_load key := call_in under_the_lock id (λ w, wk_memory w !! key);
  backend_save key s := call_in under_the_lock (λ w, set_memory (<[key := s]> (wk_memory w)) w) (λ _, tt);
|}.

#[local] Instance worker_stages : StageHost Worker := {|
  host_backend := worker_backend;
  snapshot_type := unit;
  is_cancelled _ := false;
  persisted_turn_status _ _ := quiet in_a_session (Some TurnStatusCompleted);
  start_review _ _ _ := quiet in_a_session (mkTurnCorrelation "request" "review-thread" "review-turn");
  start_text_turn _ _ _ := quiet in_a_session (mkTurnCorrelation "request" "parent" "plan-turn");
  wait_for_completion := call_in in_a_session (λ w, set_memory (<["parent" := wk_result w]> (wk_memory w)) w) (λ _, tt);
  emit_event _ _ _ := quiet in_a_session tt;
  append_correlation _ := quiet under_the_lock "correlation";
  write_checkpoint _ := quiet in_a_session tt;
  capture_review_snapshot := quiet in_a_session tt;
  restore_review_snapshot _ := quiet in_a_session false;
  acknowledge_review_mutation := quiet under_the_lock tt;
  validate_pristine := quiet in_a_session tt;
  restore_worktree := quiet under_the_lock tt;
|}.

#[local] Instance worker_environments : EnvironmentHost Worker := {|
  store_call A f w := let '(r, s) := f (wk_now w) "env1" (wk_db w) in
    (r, mkWorker s (wk_now w + 1) (wk_memory w) (wk_result w) (wk_phase w) (wk_violated w));
  provisioner_backend := "kubernetes";
  durable_locator e := Ok (Some ("pod/" +:+ ee_environment_id e));
  provision e _ _ := quiet under_the_lock (mkProvisioned ("pod/" +:+ ee_environment_id e) "ws://pod");
  deprovision _ := quiet under_the_lock tt;
|}.

#[local] Instance worker_host : OperationHost Worker := {|
  operation_stages := worker_stages;
  operation_environments := worker_environments;
  execution_guard := unit;
  acquire_workspace_execution _ := call_in is_unlocked (set_phase Locked) (λ _, tt);
  acquire_unless_cancelled _ := call_in is_unlocked (set_phase Locked) (λ _, Some tt);
  release_guard _ := call_in just_locked (set_phase Unlocked) (λ _, tt);
  recover_review_snapshot := quiet under_the_lock false;
  recreate_worktree := quiet under_the_lock tt;
  repository_metadata_root _ := Ok "metadata";
  start_session _ _ _ _ := call_in just_locked (set_phase InSession) (λ _, mkThreadCorrelation "request" "parent");
  shutdown_session := call_in in_a_session (set_phase Locked) (λ _, tt);
  worker_clock := wk_now;
  absolute_root root := Ok root;
  base_instructions := None;
  remote_only _ _ := Ok tt;
  url_parse _ := Ok false;
|}.

(** No call was made in a phase that does not allow it. *)
Definition worker_phase (ph : Phase) (w : Worker) : Prop := wk_phase w = ph ∧ wk_violated w = false.

Lemma call_in_keeps {E A : Type} allowed f (a : Worker → A) ph :
  allowed ph = true → (∀ w, wk_phase (f w) = wk_phase w ∧ wk_violated (f w) = wk_violated w) →
  Keeps (E := E) (worker_phase ph) (call_in allowed f a).
Proof.
  intros Ha Hf w [Hp Hv]. unfold call_in. rewrite Hp, Ha. destruct (Hf w) as [E1 E2]. split; cbn; congruence.
Qed.

#[local] Instance worker_discipline : Discipline worker_phase.
Proof.
  split; intros;
    try (match goal with Hu : UnderLock ?ph |- _ => destruct ph; [done| |] end);
    try (by apply call_in_keeps);
    try (by intros w [Hp Hv]; unfold call_in; cbn; rewrite Hp; cbn; rewrite ?Hv).
  - intros w [Hp Hv]. cbn. destruct (f _ _ _). by split.
  - destruct H as [Hp Hv]. unfold call_in. cbn. rewrite Hp. by split.
  - destruct H as [Hp Hv]. unfold call_in. cbn. rewrite Hp. by split.
Qed.

(** ** The plan of a job *)

Definition plan_input : Value :=
  Object [("executionProfile", Object [("model", Str "gpt-5.6-sol"); ("provider", Str "openai")]);
          ("task", Str "write it")].

Definition plan_context : OperationExecutionContext :=
  mkOperationExecutionContext
    (mkRecoveryLease (mkRecoverySelection "J" "o0" "codex.plan" NewOperation None 1 3 ResumeFresh None)
       (mkAttemptRecord "a0" "o0" 1 AttRunning "w1" 1 5000012 NewOperation None None None 12 None)
       (demo_fence "a0" "w1" 1))
    (mkJobRecord "J" "factory.task" plan_input JobRunning 0 0)
    (mkOperationRecord "o0" "J" 0 "codex.plan" Null OpRunning 3 0 0 0)
    (Some (mkWorkspaceRecord "J" "rid" "repo" "HEAD" "base" "branch" "root" "rev" WsActive 0 0)).

Definition worker_config : ExecutorConfig :=
  mkExecutorConfig "http://factoryd/" DEFAULT_MAX_REVIEW_CYCLES (mkExecutionProfile "openai" "gpt-5.6-sol").

Definition planning (result : FactoryState) : Worker := mkWorker (demo running_history) 13 ∅ result Unlocked false.
