(* ===== verification/OperationLaws.v ===== *)
(** * Facts about executing operations

    An execution always returns; it reports a stage complete only when the job,
    the input and the stored state meet every condition; what a failed plan or
    review left is put back or the failure says that it could not be; and the
    workspace lock and the session are used by their rules. *)

From S2P Require Import Prelude Sequences Domain Rows Store Leases Environments Attempts Jobs System Runner Serde.
From S2P Require Import AgentState AgentTools Stages StateDocument StateBackend Checkpoint Executor EnvironmentWork.
From S2P Require Import Operation AgentDemo CheckpointLaws ExecutorLaws Discipline OperationDemo.
From Stdlib Require Import ZArith Ascii String.
From stdpp Require Import base gmap strings option list.

#[local] Open Scope string_scope.
#[local] Open Scope Z_scope.
#[local] Open Scope list_scope.

(** ** Fuelled procedures *)

Section fuelled.
Context {W : Type}.

Lemma obind_Ok {E A B : Type} (m : oproc W E A) (k : A → oproc W E B) w b w' :
  (m ≫= k) w = Some (Ok b, w') ↔ ∃ a w1, m w = Some (Ok a, w1) ∧ k a w1 = Some (Ok b, w').
Proof. unfold mbind, oproc_bind. destruct (m w) as [[[a|e] w1]|]; naive_solver. Qed.

Lemma ototal_Ok {E A : Type} (p : proc W E A) w a w' : ototal p w = Some (Ok a, w') ↔ p w = (Ok a, w').
Proof. unfold ototal. split; [by intros [= ->]|by intros ->]. Qed.

Lemma oattempt_Ok {E F A : Type} (p : oproc W E A) w (r : result E A) w' :
  oattempt (F := F) p w = Some (Ok r, w') ↔ p w = Some (r, w').
Proof. unfold oattempt. destruct (p w) as [[r1 w1]|]; naive_solver. Qed.

(** A procedure that returns from every world. *)
Definition returns {E A : Type} (p : oproc W E A) : Prop := ∀ w, is_Some (p w).

Lemma returns_total {E A : Type} (p : proc W E A) : returns (ototal p).
Proof. by intros w. Qed.

Lemma returns_bind {E A B : Type} (m : oproc W E A) (k : A → oproc W E B) :
  returns m → (∀ w a w', m w = Some (Ok a, w') → is_Some (k a w')) → returns (m ≫= k).
Proof.
  intros Hm Hk w. unfold mbind, oproc_bind. destruct (Hm w) as [[[a|e] w1] Hw]; rewrite Hw; [by eapply Hk|done].
Qed.

Lemma returns_step {E A B : Type} (m : oproc W E A) (k : A → oproc W E B) :
  returns m → (∀ a, returns (k a)) → returns (m ≫= k).
Proof. intros Hm Hk. apply returns_bind; [done|]. intros w a w' _. apply Hk. Qed.

Lemma returns_attempt {E F A : Type} (p : oproc W E A) : returns p → returns (oattempt (F := F) p).
Proof. intros Hp w. unfold oattempt. destruct (Hp w) as [[r w1] ->]. by eexists. Qed.
End fuelled.

Section laws.
Context {W : Type} `{OperationHost W} `{CoordinatorText} `{HashOrder} `{DecodeText}.
Context (message_text : Message → string) (config : ExecutorConfig) (context : OperationExecutionContext).

(** ** Returning *)

(** The cycle of a checkpoint that was read is not negative. *)
Lemma resume_decode_cycle strategy ordinal operation root revision resume c correlation :
  resume_decode strategy ordinal operation root revision = Ok resume →
  resume_current resume = Some (c, correlation) → 0 ≤ sc_review_cycle c.
Proof.
  unfold resume_decode. destruct strategy as [|record]; [case_decide; intros; by simplify_eq|].
  case_decide; [|done]. destruct (StageCheckpoint_decode record) as [d|e] eqn:Hd; [|done].
  intros Hr Hc. assert (d = c) as ->.
  { repeat case_decide; simplify_eq; cbn in Hc; congruence. }
  apply decode_Ok in Hd as (_ & Hd & _). apply de_checkpoint_fits in Hd as [Hcycle _]. unfold fits_u32 in Hcycle. lia.
Qed.

Lemma set_current_cycle resume id c correlation :
  resume_current (set_current_correlation id resume) = Some (c, correlation) →
  ∃ correlation', resume_current resume = Some (c, correlation').
Proof. destruct resume; cbn; naive_solver. Qed.

Definition stage_fuel : nat := 4 * Z.to_nat (ec_max_review_cycles config) + 6.

Lemma run_session_returns x thread operation resume :
  sx_max_review_cycles x = ec_max_review_cycles config →
  (∀ c correlation, resume_current resume = Some (c, correlation) → 0 ≤ sc_review_cycle c) →
  returns (run_session message_text stage_fuel x thread operation resume).
Proof.
  intros Hx Hc. unfold run_session. apply returns_step; [apply returns_total|intros _].
  apply returns_step; [apply returns_total|intros id]. apply returns_step; [apply returns_total|intros _].
  destruct operation; unfold run_stage; try apply returns_total. intros w.
  unfold stage_fuel. rewrite <- Hx. match goal with |- is_Some (run_remediation_loop _ _ ?resume w) =>
    destruct (remediation_loop_returns x resume w) as (r & w' & Hr) end; [|rewrite Hr; by eexists].
  intros c correlation. destruct id; [|apply Hc]. intros (k & Hk)%set_current_cycle. by eapply Hc.
Qed.

(** C23: An execution always returns: with the fuel of at most [4 M + 6] rounds for [M]
    review cycles, whatever the job, the checkpoint, the agent, the store, the worktree
    and the environment do, it ends with an outcome or an error. *)
Theorem execution_returns w : ∃ r w', execute message_text config context stage_fuel w = Some (r, w').
Proof.
  assert (returns (execute_operation message_text config context stage_fuel)) as Hr.
  { unfold execute_operation. apply returns_step; [apply returns_total|intros [[operation input] workspace]].
    apply returns_step; [apply returns_total|intros [guard|]]; [|apply returns_total].
    apply returns_step; [|intros r; apply returns_step; [apply returns_total|intros release; apply returns_total]].
    apply returns_attempt. unfold guarded_operation.
    do 3 (apply returns_step; [apply returns_total|intros ?]). unfold execute_with_workspace_guard.
    apply returns_bind; [apply returns_total|]. intros w1 [resume id] w2 Hi.
    apply ototal_Ok, proc_lift_Ok in Hi as [Hi _]. revert w2. apply returns_step; [apply returns_total|intros thread].
    apply returns_step; [|intros; do 2 (apply returns_step; [apply returns_total|intros ?]); apply returns_total].
    apply returns_attempt, run_session_returns; [done|]. intros c correlation. unfold session_inputs in Hi.
    apply bind_Ok in Hi as (resume' & Hd & Hi).
    repeat (apply bind_Ok in Hi as (? & _ & Hi)). injection Hi as -> _. by eapply resume_decode_cycle. }
  unfold execute. destruct (Hr w) as [[r w'] ->]. eauto.
Qed.

(** ** Completion *)

(** What a completed operation rests on: the checks of the job and its input, and a
    state read from the thread that the contract of the completed checkpoint accepts. *)
Record completion (operation : OperationKind) (completed : CompletedOperation) : Prop := {
  cm_kind : operation_kind context = Ok operation;
  cm_ordinal : at_ordinal (op_ordinal (oec_operation context)) = operation;
  cm_shape : ∃ job (w1 w2 : W), store_call (λ _ _, load_job (job_id (oec_job context))) w1 = (Ok job, w2)
    ∧ check_shape (dj_operations job) = Ok tt;
  cm_input : ∃ input, parse_task_input (job_input (oec_job context)) = Ok input
    ∧ ti_execution_profile input = Some (ec_execution_profile config);
  cm_state : ∃ workspace thread task c s durable, oec_workspace context = Some workspace
    ∧ wr_state workspace = WsActive
    ∧ validate_checkpoint_state s c = Ok tt
    ∧ (∃ (w1 w2 : W), load_state (stage_context config context thread workspace task) w1 = (Ok s, w2))
    ∧ completed = complete_stage c s durable
    ∧ (operation = KindRemediate → rr_verdict <$> fs_review s = Some Approve);
  cm_pristine : operation = KindPlan → ∃ u (w1 w2 : W), validate_pristine w1 = (Ok u, w2);
  cm_session : ∃ (w1 w2 : W), shutdown_session w1 = (Ok tt, w2) ∧ is_cancelled w2 = false;
}.

Lemma validate_job_shape_Ok operation w u w' :
  validate_job_shape config context operation w = (Ok u, w') →
  at_ordinal (op_ordinal (oec_operation context)) = operation
  ∧ (∃ job (w1 w2 : W), store_call (λ _ _, load_job (job_id (oec_job context))) w1 = (Ok job, w2)
       ∧ check_shape (dj_operations job) = Ok tt)
  ∧ ∃ input, parse_task_input (job_input (oec_job context)) = Ok input
       ∧ ti_execution_profile input = Some (ec_execution_profile config).
Proof.
  unfold validate_job_shape, coordinator. intros Hr. inv_run Hr.
  repeat match goal with H : guard_err _ _ = Ok _ |- _ => apply guard_err_Ok, negb_false_iff, bool_decide_eq_true in H end.
  match goal with H : match ti_execution_profile ?i with _ => _ end _ = _ |- _ => rename i into input, H into Hp end.
  destruct (ti_execution_profile input) as [profile|] eqn:Hprofile; [|by inv_run Hp].
  case_decide; [|by inv_run Hp]. subst profile.
  match goal with H : check_shape _ = Ok ?u |- _ => destruct u end. split_and!; [done|by eauto 10|by eauto].
Qed.

Lemma operation_inputs_Ok w operation input workspace w' :
  operation_inputs config context w = (Ok (operation, input, workspace), w') →
  operation_kind context = Ok operation ∧ oec_workspace context = Some workspace ∧ wr_state workspace = WsActive
  ∧ ∃ u (w1 w2 : W), validate_job_shape config context operation w1 = (Ok u, w2).
Proof.
  unfold operation_inputs. intros Hr. apply proc_bind_Ok in Hr as (cancelled & w1 & _ & Hr).
  destruct cancelled; [by inv_run Hr|]. apply proc_bind_Ok in Hr as (kind & w2 & [Hk ->]%proc_lift_Ok & Hr).
  apply proc_bind_Ok in Hr as (u & w3 & Hv & Hr). apply proc_bind_Ok in Hr as (i & w4 & _ & Hr).
  destruct (oec_workspace context) as [ws|]; [|by inv_run Hr]. inv_run Hr.
  match goal with H : guard_err _ _ = Ok _ |- _ => apply guard_err_Ok in H; destruct (wr_state ws) eqn:E; [|done] end.
  split_and!; [done..|by eauto].
Qed.

Lemma run_stage_completed fuel x operation resume w completed w' :
  run_stage message_text fuel x operation resume w = Some (Ok completed, w') →
  (∃ c s durable, validate_checkpoint_state s c = Ok tt ∧ (∃ (w1 w2 : W), load_state x w1 = (Ok s, w2))
     ∧ completed = complete_stage c s durable
     ∧ (operation = KindRemediate → rr_verdict <$> fs_review s = Some Approve))
  ∧ (operation = KindPlan → ∃ u (w1 w2 : W), validate_pristine w1 = (Ok u, w2)).
Proof.
  assert (∀ op, run_single_stage x message_text op resume w = (Ok completed, w') → op ≠ KindRemediate →
    (∃ c s durable, validate_checkpoint_state s c = Ok tt ∧ (∃ (w1 w2 : W), load_state x w1 = (Ok s, w2))
       ∧ completed = complete_stage c s durable ∧ (op = KindRemediate → rr_verdict <$> fs_review s = Some Approve))
    ∧ (op = KindPlan → ∃ u (w1 w2 : W), validate_pristine w1 = (Ok u, w2))) as Hsingle.
  { intros op Hr Hne. apply stage_completes_validated in Hr as (c & s & (Hv & Hl & d & k & _ & ->) & _ & Hp).
    split; [|done]. exists c, s, d. split_and!; done. }
  unfold run_stage. destruct operation; try (intros Hr%ototal_Ok; by apply Hsingle).
  intros Hr. apply remediation_completes_approved in Hr as (c & s & Hv & Hl & Ha & d & k & -> & _).
  split; [|done]. exists c, s, d. split_and!; done.
Qed.

Lemma session_result_Ok r shutdown cancelled completed :
  session_result r shutdown cancelled = Ok completed → r = Ok completed ∧ shutdown = Ok tt ∧ cancelled = false.
Proof. unfold session_result. destruct cancelled; [done|]. by destruct r as [|[]], shutdown as [[]|]; intros [= ->]. Qed.

Lemma undo_failed_Ok x operation r w completed w' :
  undo_failed x operation r w = (Ok completed, w') → r = Ok completed.
Proof.
  unfold undo_failed. destruct r as [d|e]; cbn [is_ok negb]; rewrite ?andb_false_r, ?andb_true_r.
  { by intros [[= ->] _]%proc_lift_Ok. }
  intros Hr. exfalso. repeat (case_match; try done); inv_run Hr; repeat (case_match; try done); by inv_run Hr.
Qed.

Lemma guarded_session_completed fuel operation input workspace args w completed w' :
  execute_with_workspace_guard message_text config context fuel operation input workspace args w = Some (Ok completed, w') →
  (∃ thread c s durable, validate_checkpoint_state s c = Ok tt
     ∧ (∃ (w1 w2 : W), load_state (stage_context config context thread workspace (ti_task input)) w1 = (Ok s, w2))
     ∧ completed = complete_stage c s durable
     ∧ (operation = KindRemediate → rr_verdict <$> fs_review s = Some Approve))
  ∧ (operation = KindPlan → ∃ u (w1 w2 : W), validate_pristine w1 = (Ok u, w2))
  ∧ ∃ (w1 w2 : W), shutdown_session w1 = (Ok tt, w2) ∧ is_cancelled w2 = false.
Proof.
  unfold execute_with_workspace_guard. intros Hr.
  apply obind_Ok in Hr as ([resume id] & w1 & _ & Hr). apply obind_Ok in Hr as (thread & w2 & _ & Hr).
  apply obind_Ok in Hr as (r & w3 & Hs & Hr). rewrite oattempt_Ok in Hs. apply obind_Ok in Hr as (shutdown & w4 & Hsd & Hr).
  apply ototal_Ok in Hsd. rewrite attempt_Ok in Hsd.
  apply obind_Ok in Hr as (cancelled & w5 & Hc & Hr). apply ototal_Ok, observe_Ok in Hc as [-> ->].
  apply ototal_Ok, undo_failed_Ok, session_result_Ok in Hr as (-> & -> & Hc).
  unfold run_session in Hs. apply obind_Ok in Hs as (k1 & w6 & _ & Hs). apply obind_Ok in Hs as (k2 & w7 & _ & Hs).
  apply obind_Ok in Hs as (u & w8 & _ & Hs). apply run_stage_completed in Hs as [(c & s & d & Hv & Hl & -> & Ha) Hp].
  split_and!; [|done|by eauto]. exists (thc_thread_id thread), c, s, d. done.
Qed.


(** ** Failure *)

Lemma obind_Err {E A B : Type} (m : oproc W E A) (k : A → oproc W E B) w e w' :
  (m ≫= k) w = Some (Err e, w') ↔ m w = Some (Err e, w') ∨ ∃ a w1, m w = Some (Ok a, w1) ∧ k a w1 = Some (Err e, w').
Proof. unfold mbind, oproc_bind. destruct (m w) as [[[a|e'] w1]|]; naive_solver. Qed.

(** What is put back after a failed stage, and what the failure then says. *)
Definition undone (x : StageContext) (operation : OperationKind) (e : ExecutionFailure) (w w' : W) : Prop :=
  match operation with
  | KindPlan =>
      restore_plan_baseline x w = (Ok tt, w')
      ∨ ∃ m, restore_plan_baseline x w = (Err m, w')
             ∧ e = RetryableFailure (Lit "Plan failed and rollback failed: " :: m)
  | KindReview | KindRemediate =>
      cleanup_detached_review x w = (Ok tt, w') ∨ cleanup_detached_review x w = (Err e, w')
  | KindExecute | KindIterate => w' = w
  end.

Lemma undo_failed_Err x operation e0 w e w' :
  undo_failed x operation (Err e0) w = (Err e, w') → e ≠ CancelledFailure → undone x operation e w w'.
Proof.
  unfold undo_failed, undone, mbind, proc_bind, attempt, proc_lift, fail.
  intros Hr Hne.
  assert (bool_decide (operation = KindPlan) = match operation with KindPlan => true | _ => false end) as E1 by (by destruct operation).
  assert (reviews operation = match operation with KindReview | KindRemediate => true | _ => false end) as E2 by (by destruct operation).
  rewrite E1, E2 in Hr. destruct operation; cbn in Hr; [|by simplify_eq| | |by simplify_eq].
  - destruct (restore_plan_baseline x w) as [[[]|m] w1]; [simplify_eq; by left|].
    destruct e0; cbn in Hr; simplify_eq; eauto.
  - destruct (cleanup_detached_review x w) as [[[]|m] w1]; [simplify_eq; by left|].
    destruct e0; cbn in Hr; simplify_eq; eauto.
  - destruct (cleanup_detached_review x w) as [[[]|m] w1]; [simplify_eq; by left|].
    destruct e0; cbn in Hr; simplify_eq; eauto.
Qed.

Lemma undo_failed_of_Ok x operation completed (w : W) : undo_failed x operation (Ok completed) w = (Ok completed, w).
Proof. unfold undo_failed. cbn. by rewrite !andb_false_r. Qed.

(** A failed stage leaves no trace it does not report: when an execution under the lock
    fails without having been cancelled, then either no session was started, or the last
    thing it did, after the session was shut down, was to put back what the stage may
    have left (a plan's agent state and worktree, a review's worktree snapshot and
    recorded state), and if that failed the failure it returns is that one. *)
Theorem failed_stage_undone fuel operation input workspace args w e w' :
  execute_with_workspace_guard message_text config context fuel operation input workspace args w = Some (Err e, w') →
  e ≠ CancelledFailure →
  (session_inputs config context operation input workspace = Err e ∧ w' = w)
  ∨ (∃ m id parent, start_session args id (turn_stage operation) parent w = (Err m, w')
       ∧ e = RetryableFailure [Lit "start native Codex runtime: "; Display m])
  ∨ ∃ thread r w1 w2, shutdown_session w1 = (r, w2)
       ∧ undone (stage_context config context thread workspace (ti_task input)) operation e w2 w'.
Proof.
  unfold execute_with_workspace_guard. intros Hr Hne. apply obind_Err in Hr as [Hr|([resume id] & w1 & Hi & Hr)].
  { left. by injection Hr as -> ->. }
  apply ototal_Ok, proc_lift_Ok in Hi as [Hi ->]. right. apply obind_Err in Hr as [Hr|(thread & w1 & _ & Hr)].
  { left. injection Hr as Hr. unfold map_err in Hr. destruct (start_session _ _ _ _ _) as [[]] eqn:Es; simplify_eq.
    by eexists _, _, _. }
  right. apply obind_Err in Hr as [Hr|(r & w2 & _ & Hr)].
  { unfold oattempt in Hr. by destruct (run_session _ _ _ _ _ _ w1) as [[]|]. }
  apply obind_Err in Hr as [Hr|(shutdown & w3 & Hs & Hr)]; [by injection Hr as Hr; unfold attempt in Hr; destruct (shutdown_session _)|].
  apply ototal_Ok in Hs. rewrite attempt_Ok in Hs.
  apply obind_Err in Hr as [Hr|(cancelled & w4 & Hc & Hr)]; [done|]. apply ototal_Ok, observe_Ok in Hc as [_ ->].
  injection Hr as Hr. exists (thc_thread_id thread), shutdown, w2, w3. split; [done|].
  destruct (session_result r shutdown cancelled) as [completed|e0]; [by rewrite undo_failed_of_Ok in Hr|].
  by eapply undo_failed_Err.
Qed.

(** Locks and sessions are used as they must be and never left behind: given only
    that each call of the host may be made in its own phases (the store always; the
    state backend, the worktree, the environments and the correlations under the
    workspace lock; turns, events, checkpoints and review snapshots in a session), an
    execution and the cleanup of a cancelled operation, from a worker that holds nothing,
    make every call in such a phase and end, on every path, holding neither the lock nor
    a session. *)
Theorem lock_and_session_discipline (at_phase : Phase → W → Prop) fuel w r w' :
  Discipline at_phase → at_phase Unlocked w →
  (execute message_text config context fuel w = Some (r, w') → at_phase Unlocked w')
  ∧ at_phase Unlocked (cleanup_cancelled config context w).2.
Proof.
  intros Hd Hw. split.
  - unfold execute. destruct (execute_operation message_text config context fuel w) as [[r1 w1]|] eqn:E; [|done].
    intros [= _ <-]. by eapply execute_operation_keeps.
  - unfold cleanup_cancelled. apply keeps_map_err; [by apply cleanup_operation_keeps|done].
Qed.
End laws.

(** ** Witnesses *)

#[local] Existing Instance demo_external.
#[local] Existing Instance worker_backend.
#[local] Existing Instance worker_stages.
#[local] Existing Instance worker_environments.
#[local] Existing Instance worker_host.
#[local] Existing Instance worker_discipline.

Definition plan_fuel : nat := stage_fuel worker_config.

Definition demo_execution (result : FactoryState) : option (Result OperationOutcome * Worker) :=
  execute (λ _, "") worker_config plan_context plan_fuel (planning result).

Lemma lock_and_session_discipline_witness :
  ∃ r w', demo_execution demo_planned = Some (r, w') ∧ is_ok r = true ∧ worker_phase Unlocked w'.
Proof.
  destruct (demo_execution demo_planned) as [[r w']|] eqn:E; [|vm_compute in E; discriminate].
  exists r, w'. split; [reflexivity|]. split; [vm_compute in E; injection E as <- _; reflexivity|].
  assert (worker_phase Unlocked (planning demo_planned)) as Hw by (split; reflexivity).
  destruct (lock_and_session_discipline (λ _, "") worker_config plan_context worker_phase plan_fuel
    (planning demo_planned) r w' worker_discipline Hw) as [Hx _]. exact (Hx E).
Defined.


(** A plan that leaves executed work units is refused and undone. *)
Definition plan_workspace : WorkspaceRecord :=
  mkWorkspaceRecord "J" "rid" "repo" "HEAD" "base" "branch" "root" "rev" WsActive 0 0.

Definition demo_failed_plan : option (result ExecutionFailure CompletedOperation * Worker) :=
  execute_with_workspace_guard (λ _, "") worker_config plan_context plan_fuel KindPlan
    (mkFactoryTaskInput "write it" None None None) plan_workspace
    (mkSessionConfig "root" ["root"] None None None ("env1", "ws://pod")) (set_phase Locked (planning demo_executed)).

Lemma failed_stage_undone_witness :
  ∃ e w', demo_failed_plan = Some (Err e, w') ∧ e ≠ CancelledFailure ∧
  ((session_inputs worker_config plan_context KindPlan (mkFactoryTaskInput "write it" None None None) plan_workspace = Err e
    ∧ w' = set_phase Locked (planning demo_executed))
   ∨ (∃ m : string, e = RetryableFailure [Lit "start native Codex runtime: "; Display m])
   ∨ ∃ thread w2, undone (stage_context worker_config plan_context thread plan_workspace "write it") KindPlan e w2 w').
Proof.
  destruct demo_failed_plan as [[[completed|e] w']|] eqn:E; [vm_compute in E; discriminate| |vm_compute in E; discriminate].
  assert (e ≠ CancelledFailure) as Hne by (vm_compute in E; injection E as <- _; discriminate).
  exists e, w'. split; [reflexivity|]. split; [exact Hne|].
  destruct (failed_stage_undone (λ _, "") worker_config plan_context plan_fuel KindPlan
    (mkFactoryTaskInput "write it" None None None) plan_workspace
    (mkSessionConfig "root" ["root"] None None None ("env1", "ws://pod")) (set_phase Locked (planning demo_executed)) e w' E Hne)
    as [Hi|[(m & id & parent & _ & Hm)|(thread & r & w1 & w2 & _ & Hu)]];
    [left; exact Hi|right; left; exists m; exact Hm|right; right; exists thread, w2; exact Hu].
Defined.
