(* ===== verification/EnvironmentWorkLaws.v ===== *)
(** * Laws of a worker's environments

    With store calls that interleave with everybody else's and may be lost, and a
    provisioner that may fail: a release that reports success leaves the
    environment released or already in a later generation, one failed release
    never keeps the others from being released, and an operation runs only in an
    environment that was recorded ready for it under its live lease. *)

From S2P Require Import Prelude Domain Rows Store Leases Environments Lifecycle Refinement System Safety EnvironmentLaws.
From S2P Require Import Runner Checkpoint Executor EnvironmentWork ExecutorLaws.
From Stdlib Require Import ZArith Ascii String.
From stdpp Require Import base gmap strings list option relations.

#[local] Open Scope string_scope.
#[local] Open Scope Z_scope.
#[local] Open Scope list_scope.

(** ** The host *)

Section host.
Context `{External}.

(** Anybody's store calls. *)
Definition store_step (s s' : db) : Prop := ∃ now c, s' = exec now c s.
Abbreviation others := (rtc store_step).

(** A call lands on the database and returns, or the connection is lost and it
    took effect or did not. *)
Inductive lands {A : Type} (f : Z → string → Proc A) (s : db) : Result A → db → Prop :=
| LandsReturned now id r s' : f now id s = (r, s') → lands f s r s'
| LandsLost e : lands f s (Err (Database e)) s
| LandsAnswerLost now id e : lands f s (Err (Database e)) (f now id s).2.

(** What a worker's world promises: a store call lands somewhere between other
    calls, and the provisioner touches the database only as others do. *)
Class StoreHostLaws (W : Type) `{EnvironmentHost W} : Type := {
  host_db : W → db;
  store_call_lands {A} (f : Z → string → Proc A) w r w' : store_call f w = (r, w') →
    ∃ s s', others (host_db w) s ∧ lands f s r s' ∧ others s' (host_db w');
  provision_others environment root metadata w r w' :
    provision environment root metadata w = (r, w') → others (host_db w) (host_db w');
  deprovision_others environment w r w' :
    deprovision environment w = (r, w') → others (host_db w) (host_db w');
}.

Lemma others_reachable s s' : others s s' → reachable s → reachable s'.
Proof. induction 1 as [|s s1 s' (now & c & ->) _ IH]; [done|]. intros Hr. by apply IH, reachable_exec. Qed.

(** A landed call is one of the store's calls. *)
Lemma lands_step {A : Type} (f : Z → string → Proc A) (c : Z → string → Call) s r s' :
  (∀ now id, forget (f now id) = call now (c now id)) → lands f s r s' → others s s'.
Proof.
  intros Hc Hl. assert (∀ now id, (f now id s).2 = exec now (c now id) s) as Hs
    by (intros now id; unfold exec; by rewrite <- Hc, forget_snd).
  destruct Hl as [now id r s' Hr|e|now id e]; [|done|]; apply rtc_once.
  - exists now, (c now id). by rewrite <- Hs, Hr.
  - exists now, (c now id). apply Hs.
Qed.

(** ** Generations *)

(** The environment of a job is at generation [g] or later; it is released at
    generation [g], or has moved on. *)
Definition known_at (job_id : string) (g : Z) (s : db) : Prop :=
  ∃ e, environments s !! job_id = Some e ∧ g ≤ eer_generation e.

Definition released_at (job_id : string) (g : Z) (s : db) : Prop :=
  ∃ e, environments s !! job_id = Some e ∧
    (g < eer_generation e ∨ eer_generation e = g ∧ env_state e = ("released", "released")).

Lemma known_at_others job_id g s s' : others s s' → reachable s → known_at job_id g s → known_at job_id g s'.
Proof.
  induction 1 as [|s s1 s' (now & c & ->) _ IH]; [done|]. intros Hr (e & He & Hg).
  apply IH; [by apply reachable_exec|]. destruct (exec_environment now c s job_id e Hr He) as (e' & He' & Hstep).
  exists e'. split; [done|]. destruct Hstep as [Hs|[_ Hs]]; [rewrite (es_generation _ _ Hs)|rewrite (er_generation _ _ Hs)]; lia.
Qed.

Lemma released_at_others job_id g s s' : others s s' → reachable s → released_at job_id g s → released_at job_id g s'.
Proof.
  induction 1 as [|s s1 s' (now & c & ->) _ IH]; [done|]. intros Hr (e & He & Hg).
  apply IH; [by apply reachable_exec|]. destruct (exec_environment now c s job_id e Hr He) as (e' & He' & Hstep).
  exists e'. split; [done|]. destruct Hstep as [Hs|[_ Hs]].
  - rewrite (es_generation _ _ Hs). destruct Hg as [Hg|[Hg Hst]]; [by left|right]. split; [done|].
    destruct (es_state _ _ Hs) as [->|[[Ha _]|[_ ->]]]; [done| |done]. rewrite Hst in Ha. done.
  - rewrite (er_generation _ _ Hs). left. destruct Hg as [|[]]; lia.
Qed.

Lemma released_known job_id g s : released_at job_id g s → known_at job_id g s.
Proof. intros (e & He & [Hg|[Hg _]]); exists e; (split; [done|lia]). Qed.

(** ** Release *)

Lemma mark_released_Ok now job_id g s r s' :
  mark_execution_environment_released now job_id g s = (Ok r, s') → released_at job_id g s'.
Proof.
  unfold mark_execution_environment_released. rewrite commit_Ok. intros (g' & s1 & [Hg ->]%lift_Ok & Hr)%tx_bind_Ok.
  apply database_sequence_Ok in Hg as ->. apply tx_bind_Ok in Hr as (u & s2 & Hu & Hm).
  pose proof (require_generation_match_state _ _ _ _ _ _ _ Hm) as ->. unfold MARK_RELEASED in Hu.
  apply update_environment_Ok in Hu as [(-> & -> & _)|(e & He & Hp & -> & ->)].
  - unfold require_generation_match in Hm. inv_tx.
  - apply at_generation_true in Hp as [Hg Hd].
    eexists. cbn. rewrite lookup_insert_eq. split; [done|right]. unfold env_state. cbn. by rewrite Hd.
Qed.

(** The only stale-generation error is that of the generation check. *)
Definition is_stale (e : CoordinatorError) : bool :=
  match e with ExecutionEnvironmentGenerationStale _ _ => true | _ => false end.

Lemma environment_record_not_stale e err :
  ExecutionEnvironmentRecord_try_from e = Err err → is_stale err = false.
Proof.
  unfold ExecutionEnvironmentRecord_try_from, to_u64, DesiredState_from_database_value,
    EnvironmentStatus_from_database_value, mbind, result_bind, ok_or.
  repeat case_match; intros; by simplify_eq/=.
Qed.

(** Nobody is stale at the generation of the row. *)
Lemma require_generation_current job_id g desired s e err :
  require_generation_match job_id g None desired s = Err err → environments s !! job_id = Some e →
  eer_generation e = g → is_stale err = false.
Proof.
  intros Ht He Hg. unfold require_generation_match, load_environment_for_update, mbind, tx_bind, gets, lift, throw in Ht.
  rewrite He in Ht. cbn in Ht. destruct (ExecutionEnvironmentRecord_try_from e) as [rec|?] eqn:E; cbn in Ht.
  2:{ injection Ht as <-. by eapply environment_record_not_stale. }
  apply environment_record_generation in E as [Hrec _].
  unfold to_u64, ok_or, u64_try_from in Ht. destruct (try_range 0 u64_max g) as [g'|] eqn:Hr; cbn in Ht; [|by simplify_eq/=].
  apply try_range_Some in Hr as [-> _]. rewrite bool_decide_eq_true_2 in Ht by congruence. cbn in Ht.
  destruct (bool_decide _); cbn in Ht; by simplify_eq/=.
Qed.

Lemma mark_released_stale now job_id g s err s' :
  mark_execution_environment_released now job_id g s = (Err err, s') → is_stale err = true →
  known_at job_id g s → released_at job_id g s'.
Proof.
  unfold mark_execution_environment_released. intros [Ht ->]%commit_Err Hst (e & He & Hle).
  exists e. split; [done|left]. destruct (decide (eer_generation e = g)) as [Hg|]; [exfalso|lia].
  unfold mbind, tx_bind, lift at 1 in Ht. destruct (database_sequence g generation_field) as [g'|?] eqn:Hds.
  2:{ injection Ht as <-. unfold database_sequence, ok_or in Hds. case_match; by simplify_eq/=. }
  apply database_sequence_Ok in Hds as ->. unfold MARK_RELEASED, update_environment, mbind, tx_bind, gets in Ht.
  rewrite He in Ht. destruct (at_generation g "released" e); cbn in Ht.
  - unfold lift in Ht. destruct (ExecutionEnvironmentRecord_try_from _) eqn:E; [done|].
    apply environment_record_not_stale in E. congruence.
  - eapply require_generation_current in Ht; [congruence|done|done].
Qed.

End host.

Section worker.
Context `{External} {W : Type} `{!EnvironmentHost W} `{!StoreHostLaws W}.
Implicit Types w : W.

Abbreviation others := (rtc store_step).

(** A store call of the worker, with everybody else's around it. *)
Lemma store_call_others {A : Type} (f : Z → string → Proc A) (c : Z → string → Call) w r w' :
  (∀ now id, forget (f now id) = call now (c now id)) →
  store_call f w = (r, w') → others (host_db w) (host_db w').
Proof.
  intros Hc (s & s' & Ho & Hl & Ho')%store_call_lands. etrans; [exact Ho|]. etrans; [by eapply lands_step|done].
Qed.

Lemma deprovision_step environment w r w' :
  release_execution_environment_backend environment w = (r, w') → others (host_db w) (host_db w').
Proof.
  unfold release_execution_environment_backend. destruct (decide _) as [Hb|]; [|by intros [= _ <-]].
  unfold map_err. destruct (deprovision environment w) as [[u|e] w1] eqn:E; intros [= _ <-];
    by eapply deprovision_others.
Qed.

Definition marks_released (environment : ExecutionEnvironmentRecord) (now : Z) (_ : string) :=
  mark_execution_environment_released now (ee_job_id environment) (ee_generation environment).

Lemma release_environment_others environment w r w' :
  release_execution_environment environment w = (r, w') → others (host_db w) (host_db w').
Proof.
  unfold release_execution_environment, mbind, proc_bind.
  destruct (release_execution_environment_backend environment w) as [[u|e] w1] eqn:Hb; apply deprovision_step in Hb;
    [|by intros [= _ <-]].
  unfold attempt. destruct (store_call _ w1) as [marked w2] eqn:Hs.
  apply (store_call_others _ (λ _ _, MarkEnvironmentReleased (ee_job_id environment) (ee_generation environment))) in Hs; [|done].
  intros Hr. assert (w' = w2) as -> by (destruct marked as [|[]]; by injection Hr as _ <-). by etrans.
Qed.

(** A release that reports success has released the environment, or somebody
    moved it to a later generation. *)
Lemma release_environment_Ok environment w w' :
  reachable (host_db w) → known_at (ee_job_id environment) (ee_generation environment) (host_db w) →
  release_execution_environment environment w = (Ok tt, w') →
  released_at (ee_job_id environment) (ee_generation environment) (host_db w').
Proof.
  intros Hr Hk. unfold release_execution_environment, mbind, proc_bind.
  destruct (release_execution_environment_backend environment w) as [[u|e] w1] eqn:Hb; apply deprovision_step in Hb;
    [|done].
  apply (known_at_others _ _ _ _ Hb Hr) in Hk. apply (others_reachable _ _ Hb) in Hr. clear Hb.
  unfold attempt. destruct (store_call _ w1) as [marked w2] eqn:Hs.
  apply store_call_lands in Hs as (s & s' & Ho & Hl & Ho').
  apply (known_at_others _ _ _ _ Ho Hr) in Hk. apply (others_reachable _ _ Ho) in Hr.
  intros Hres. assert (released_at (ee_job_id environment) (ee_generation environment) s') as Hrel.
  { destruct Hl as [now id r s' Hf|e|now id e]; [|done|done]. destruct r as [rec|err]; [by eapply mark_released_Ok|].
    eapply mark_released_stale; [exact Hf| |done]. by destruct err. }
  assert (w' = w2) as -> by (destruct marked as [|[]]; unfold done, fail in Hres; by simplify_eq).
  eapply released_at_others; [exact Ho'| |exact Hrel].
  eapply others_reachable; [|exact Hr].
  by eapply (lands_step _ (λ _ _, MarkEnvironmentReleased (ee_job_id environment) (ee_generation environment))).
Qed.

(** ** Reconciliation *)

Lemma release_all_spec environments failures w r w' :
  reachable (host_db w) → Forall (λ e, known_at (ee_job_id e) (ee_generation e) (host_db w)) environments →
  release_all environments failures w = (r, w') →
  ∃ failed, sublist failed environments ∧ r = Ok (failures + Z.of_nat (length failed)) ∧ others (host_db w) (host_db w') ∧
    (∀ e, e ∈ environments → e ∉ failed → released_at (ee_job_id e) (ee_generation e) (host_db w')) ∧
    (∀ e, e ∈ failed → ∃ w1 err w2, release_execution_environment e w1 = (Err err, w2)).
Proof.
  revert failures w. induction environments as [|e es IH]; intros failures w Hr Hk.
  { intros [= <- <-]. exists []. cbn. rewrite Z.add_0_r. split_and!; [done..|set_solver|set_solver]. }
  apply Forall_cons in Hk as [Hke Hk]. cbn. unfold mbind, proc_bind, attempt.
  destruct (release_execution_environment e w) as [released w1] eqn:Hrel.
  pose proof (release_environment_others _ _ _ _ Hrel) as Ho.
  assert (reachable (host_db w1)) as Hr1 by (by eapply others_reachable).
  intros Hres. apply IH in Hres as (failed & Hsub & -> & Ho' & Hok & Hbad); [|done|].
  2:{ eapply Forall_impl; [exact Hk|]. intros e' He'. by eapply known_at_others. }
  destruct released as [[]|err]; cbn.
  - exists failed. split_and!; [by constructor|done|by etrans| |done].
    intros e' [->|He']%elem_of_cons Hn; [|by apply Hok]. eapply released_at_others; [exact Ho'|done|].
    exact (release_environment_Ok _ _ _ Hr Hke Hrel).
  - exists (e :: failed). split_and!; [by constructor|cbn [length]; f_equal; lia|by etrans| |].
    + intros e' He' [Hne Hn]%not_elem_of_cons. apply elem_of_cons in He' as [->|He']; [done|by apply Hok].
    + intros e' [->|He']%elem_of_cons; [by do 3 eexists|by apply Hbad].
Qed.

(** The environments a worker of this backend has to release. *)
Definition pending_release (s : db) (e : ExecutionEnvironmentRow) : Prop :=
  environments s !! eer_job_id e = Some e ∧ eer_backend e = provisioner_backend ∧
  env_state e = ("released", "releasing").

Lemma environment_record_job e r : ExecutionEnvironmentRecord_try_from e = Ok r → ee_job_id r = eer_job_id e.
Proof. unfold ExecutionEnvironmentRecord_try_from. intros Hr. inv_tx. done. Qed.

Lemma listed_pending s environments s' :
  reachable s → list_releasing_execution_environments provisioner_backend s = (Ok environments, s') →
  s' = s ∧ (∀ e, pending_release s e →
    ∃ rec, rec ∈ environments ∧ ee_job_id rec = eer_job_id e ∧ ee_generation rec = eer_generation e) ∧
  Forall (λ rec, known_at (ee_job_id rec) (ee_generation rec) s) environments.
Proof.
  intros Hr. unfold list_releasing_execution_environments. rewrite commit_Ok. intros Hl. inv_tx.
  match goal with H : map_result _ _ = Ok _ |- _ => rename H into Hm end. apply map_result_Ok in Hm.
  assert (∀ e rec, ExecutionEnvironmentRecord_try_from e = Ok rec →
            ee_job_id rec = eer_job_id e ∧ ee_generation rec = eer_generation e) as Hrec.
  { intros e rec He. split; [by apply environment_record_job|by apply environment_record_generation]. }
  split_and!; [done| |].
  - intros e (He & Hb & Hst). assert (e ∈ order_by release_order (select_rows (λ r,
      bool_decide (eer_backend r = provisioner_backend) && bool_decide (eer_desired_state r = "released")
      && bool_decide (eer_status r = "releasing")) (Store.environments s))) as Hin.
    { rewrite elem_of_order_by, elem_of_select_rows. split; [by eexists|]. injection Hst as Hd Hs.
      by rewrite !bool_decide_eq_true_2. }
    apply list_elem_of_lookup in Hin as [i Hi]. destruct (Forall2_lookup_l _ _ _ _ _ Hm Hi) as (rec & Hri & Hrc).
    exists rec. split; [by eapply list_elem_of_lookup_2|by apply Hrec].
  - apply Forall_forall. intros rec [i Hi]%list_elem_of_lookup.
    destruct (Forall2_lookup_r _ _ _ _ _ Hm Hi) as (e & Hei & Hre). apply list_elem_of_lookup_2 in Hei.
    rewrite elem_of_order_by, elem_of_select_rows in Hei. destruct Hei as [[k Hk] _].
    destruct (Hrec _ _ Hre) as [Ej Eg]. exists e. rewrite Ej, Eg.
    rewrite (ev_key _ (reachable_environments_ok s Hr) _ _ Hk). split; [done|lia].
Qed.

(** Reconciliation misses nothing and blocks on nothing: it lists every environment
    of its backend whose release is pending, tries each of them once, and afterwards
    every one whose release did not fail is released, or was taken to a later generation
    by somebody else; it reports success exactly when none failed and otherwise how many
    did. This holds with any calls of others in between, and with answers lost. *)
Theorem reconciliation_complete w r w' :
  reachable (host_db w) → reconcile_releasing_environments w = (r, w') →
  (∃ e, r = Err (e : CoordinatorError) ∧ ∃ w1,
     store_call (λ _ _, list_releasing_execution_environments provisioner_backend) w = (Err e, w1)) ∨
  ∃ s failed, others (host_db w) s ∧
    (r = if decide (failed = []) then Ok tt
         else Err (InvalidInput [DisplayZ (Z.of_nat (length failed)); Lit " execution environment release(s) remain pending"])) ∧
    (∀ e, pending_release s e → (∀ rec, rec ∈ failed → ee_job_id rec ≠ eer_job_id e) →
       released_at (eer_job_id e) (eer_generation e) (host_db w')) ∧
    (∀ rec, rec ∈ failed → ∃ w1 err w2, release_execution_environment rec w1 = (Err err, w2)).
Proof.
  intros Hr. unfold reconcile_releasing_environments, mbind, proc_bind.
  destruct (store_call _ w) as [[environments|e] w1] eqn:Hs; intros Hres; [right|injection Hres as <- <-; left; by eauto].
  apply store_call_lands in Hs as (s & s' & Ho & Hl & Ho').
  apply (others_reachable _ _ Ho) in Hr.
  inversion Hl as [now id r0 s0 Hf Er Es| |]; subst.
  apply (listed_pending _ _ _ Hr) in Hf as (-> & Hall & Hknown).
  destruct (release_all environments 0 w1) as [failures w2] eqn:Hrel.
  apply release_all_spec in Hrel as (failed & Hsub & -> & Ho2 & Hok & Hbad);
    [|by eapply others_reachable|eapply Forall_impl; [exact Hknown|]; intros rec Hrec; by eapply known_at_others].
  exists s, failed.
  assert (w' = w2) as -> by (destruct (_ =? 0); unfold done, fail in Hres; by simplify_eq).
  split_and!; [done| | |done].
  - rewrite Z.add_0_l in Hres. destruct (decide (failed = [])) as [->|Hne]; [by injection Hres as <-|].
    replace (Z.of_nat (length failed) =? 0) with false in Hres; [by injection Hres as <-|].
    symmetry. apply Z.eqb_neq. by destruct failed.
  - intros e He Hn. destruct (Hall e He) as (rec & Hrec & Ej & Eg). rewrite <- Ej, <- Eg. apply Hok; [done|].
    intros Hf. by apply (Hn rec Hf).
Qed.

(** ** Provisioning *)

Lemma mark_ready_Ok now f g backend_ref url s rec s' :
  mark_execution_environment_ready now f g backend_ref url s = (Ok rec, s') →
  fence_live s now f = true ∧ ∃ job_id row, fence_job f s = Some job_id ∧ environments s' !! job_id = Some row ∧
    env_state row = ("active", "ready") ∧ eer_generation row = g ∧ eer_backend_ref row = Some backend_ref ∧
    eer_url row = Some url ∧ eer_environment_id row = ee_environment_id rec.
Proof.
  unfold mark_execution_environment_ready. rewrite commit_Ok. intros Hr.
  apply tx_bind_Ok in Hr as (u1 & s1 & [_ ->]%lift_Ok & Hr). apply tx_bind_Ok in Hr as (u2 & s2 & [_ ->]%lift_Ok & Hr).
  apply tx_bind_Ok in Hr as (g' & s3 & [->%database_sequence_Ok ->]%lift_Ok & Hr).
  apply tx_bind_Ok in Hr as (ctx & s4 & Hl & Hr). apply tx_bind_Ok in Hr as (u3 & s5 & Hc & Hr).
  apply tx_bind_Ok in Hr as (updated & s6 & Hu & Hr).
  pose proof (lock_attempt_context_Ok _ _ _ _ _ Hl) as (-> & Hlive & _). split; [done|].
  apply lock_context_rows in Hl as (_ & _ & a & o & j & (Ha & _ & Ho & _) & ->). cbn in *.
  unfold refuse_cancelling in Hc. inv_tx.
  exists (or_job_id o). unfold MARK_READY in Hu.
  apply update_environment_Ok in Hu as [(-> & -> & _)|(e & He & Hp & -> & ->)].
  { exfalso. unfold require_generation_match in Hr. inv_tx. }
  apply at_generation_true in Hp as [Hg Hd]. cbn in Hr. apply lift_Ok in Hr as [Hr ->].
  eexists. cbn. rewrite lookup_insert_eq. split_and!; [|done|unfold env_state; cbn; by rewrite Hd|done..|].
  - unfold fence_job. rewrite Ha. cbn. by rewrite Ho.
  - unfold ExecutionEnvironmentRecord_try_from in Hr. inv_tx. done.
Qed.

Lemma provisioning_failed_Ok {A : Type} fence environment message w (a : A) w' :
  provisioning_failed fence environment message w = (Ok a, w') → False.
Proof. unfold provisioning_failed. intros (u & w1 & _ & Hf)%proc_bind_Ok. by apply fail_Ok in Hf. Qed.

Lemma reserve_Ok now f g locator s rec s' :
  reserve_execution_environment_locator now f g locator s = (Ok rec, s') →
  is_Some (ee_backend_ref rec) ∧ ee_generation rec = g.
Proof.
  unfold reserve_execution_environment_locator. rewrite commit_Ok. intros Hr. inv_tx.
  repeat match goal with
  | H : database_sequence _ _ = Ok _ |- _ => apply database_sequence_Ok in H as ->
  | H : to_u64 _ _ = Ok _ |- _ => apply ok_or_Ok, try_range_Some in H as [-> _]
  | H : negb _ = false |- _ => apply negb_false_iff, bool_decide_eq_true in H
  end.
  case_match; inv_tx; [by eauto|].
  match goal with H : update_environment _ _ _ _ = _ |- _ =>
    apply update_environment_Ok in H as [(-> & _)|(e & _ & Hp & -> & _)]; simplify_eq end.
  match goal with H : ExecutionEnvironmentRecord_try_from _ = _ |- _ =>
    apply environment_record_generation in H as [-> ->] end. cbn.
  apply andb_true_iff in Hp as [[Hg _]%at_generation_true _]. eauto.
Qed.

(** C21: An operation runs only in an environment made for it: when provisioning reports an
    environment, the provisioner returned it for a generation of the job's environment,
    with its address stored beforehand where the backend has one, and the same
    generation, reference and URL were then recorded as ready while the attempt held its
    live lease on that job, whatever others did in between. *)
Theorem environment_ready_under_lease fence root metadata w id p w' :
  ensure_environment fence root metadata w = (Ok (id, p), w') →
  ∃ ensured environment metadata_root w1 w2, provision environment root metadata_root w1 = (Ok p, w2) ∧
    match durable_locator ensured with
    | Ok (Some _) => is_Some (ee_backend_ref environment) ∧ ee_generation environment = ee_generation ensured
    | Ok None => environment = ensured
    | Err _ => False
    end ∧
    ∃ now s s' job_id row, others (host_db w2) s ∧ others s' (host_db w') ∧
      fence_live s now fence = true ∧ fence_job fence s = Some job_id ∧ environments s' !! job_id = Some row ∧
      env_state row = ("active", "ready") ∧ eer_generation row = ee_generation environment ∧
      eer_backend_ref row = Some (pv_backend_ref p) ∧ eer_url row = Some (pv_url p) ∧ eer_environment_id row = id.
Proof.
  unfold ensure_environment. intros Hr. apply proc_bind_Ok in Hr as (metadata_root & w0 & _ & Hr).
  apply proc_bind_Ok in Hr as (ensured & w1 & _ & Hr). apply proc_bind_Ok in Hr as (environment & w2 & Hres & Hr).
  apply proc_bind_Ok in Hr as (provisioned & w3 & Hp & Hr). rewrite attempt_Ok in Hp.
  destruct provisioned as [q|e]; [|by apply provisioning_failed_Ok in Hr].
  destruct (_ ← _; _) as [u|e]; [|by apply provisioning_failed_Ok in Hr].
  apply proc_bind_Ok in Hr as (ready & w4 & Hm & Hr). apply done_Ok in Hr as [[= -> ->] ->]. rewrite map_err_Ok in Hm.
  exists ensured, environment, metadata_root, w2, w3. split_and!; [done| |].
  - unfold reserve_locator in Hres. destruct (durable_locator ensured) as [[locator|]|e].
    + rewrite map_err_Ok in Hres. apply store_call_lands in Hres as (s & s' & _ & Hl & _).
      inversion Hl as [now i r0 s0 Hf| |]; subst. by eapply reserve_Ok.
    + by apply done_Ok in Hres as [-> _].
    + by apply fail_Ok in Hres.
  - apply store_call_lands in Hm as (s & s' & Ho & Hl & Ho'). inversion Hl as [now i r0 s0 Hf| |]; subst.
    apply mark_ready_Ok in Hf as (Hlive & job_id & row & ? & ? & ? & ? & ? & ? & ?). eauto 20.
Qed.
End worker.

(** ** Witnesses *)

#[local] Existing Instance demo_external.

(** A worker on its own: its calls land one after the other. *)
Record DemoWorker : Type := mkDemoWorker {
  dw_db : db;
  dw_now : Z;
}.

#[local] Instance demo_environment_host : EnvironmentHost DemoWorker := {|
  store_call A f w := let '(r, s) := f (dw_now w) "env1" (dw_db w) in (r, mkDemoWorker s (dw_now w + 1));
  provisioner_backend := "kubernetes";
  durable_locator e := Ok (Some ("pod/" +:+ ee_environment_id e));
  provision e _ _ := λ w, (Ok (mkProvisioned ("pod/" +:+ ee_environment_id e) "ws://pod"), w);
  deprovision _ := λ w, (Ok tt, w);
|}.

#[local] Instance demo_store_host_laws : StoreHostLaws DemoWorker.
Proof.
  refine {| host_db := dw_db |}.
  - intros A f w r w'. cbn. destruct (f (dw_now w) "env1" (dw_db w)) as [r0 s] eqn:E. intros [= <- <-].
    exists (dw_db w), s. split_and!; [done|by eapply LandsReturned|done].
  - by intros environment root metadata w r w' [= _ <-].
  - by intros environment w r w' [= _ <-].
Defined.

Definition releasing_history := cancelling_history ++ [(16, RequestCancellingRelease (demo_fence "a0" "w1" 1))].

Definition demo_releasing : DemoWorker := mkDemoWorker (demo releasing_history) 17.

Lemma demo_releasing_reachable : reachable (host_db demo_releasing).
Proof. cbv [host_db demo_store_host_laws demo_releasing dw_db]. apply (demo_reachable releasing_history). Qed.

Definition demo_reconciled : DemoWorker := (reconcile_releasing_environments demo_releasing).2.

Lemma reconciliation_complete_witness :
  reconcile_releasing_environments demo_releasing = (Ok tt, demo_reconciled) ∧
  ((∃ e, Ok tt = Err (e : CoordinatorError)) ∨ ∃ s (failed : list ExecutionEnvironmentRecord),
     (∀ e, pending_release s e → (∀ rec, rec ∈ failed → ee_job_id rec ≠ eer_job_id e) →
        released_at (eer_job_id e) (eer_generation e) (host_db demo_reconciled))) ∧
  released_at "J" 1 (host_db demo_reconciled).
Proof.
  assert (reconcile_releasing_environments demo_releasing = (Ok tt, demo_reconciled)) as Hr.
  { unfold demo_reconciled. rewrite (surjective_pairing (reconcile_releasing_environments _)) at 1.
    f_equal; vm_compute; reflexivity. }
  split_and!; [exact Hr| |].
  - destruct (reconciliation_complete demo_releasing (Ok tt) demo_reconciled demo_releasing_reachable Hr)
      as [(e & He & _)|(s & failed & _ & _ & Hrel & _)]; [left; by exists e|right; by exists s, failed].
  - eexists. split; [vm_compute; reflexivity|]. right. split; vm_compute; reflexivity.
Defined.

Definition demo_idle : DemoWorker := mkDemoWorker (demo running_history) 13.

Definition demo_provisioned : DemoWorker :=
  (ensure_environment (demo_fence "a0" "w1" 1) "root" (Ok "meta") demo_idle).2.

Lemma environment_ready_under_lease_witness :
  ensure_environment (demo_fence "a0" "w1" 1) "root" (Ok "meta") demo_idle
    = (Ok ("env1", mkProvisioned "pod/env1" "ws://pod"), demo_provisioned) ∧
  ∃ s s' job_id row, rtc store_step s' (host_db demo_provisioned) ∧ fence_job (demo_fence "a0" "w1" 1) s = Some job_id ∧
    environments s' !! job_id = Some row ∧ env_state row = ("active", "ready").
Proof.
  assert (ensure_environment (demo_fence "a0" "w1" 1) "root" (Ok "meta") demo_idle
    = (Ok ("env1", mkProvisioned "pod/env1" "ws://pod"), demo_provisioned)) as Hr.
  { unfold demo_provisioned. rewrite (surjective_pairing (ensure_environment _ _ _ _)) at 1.
    f_equal; vm_compute; reflexivity. }
  split; [exact Hr|].
  destruct (environment_ready_under_lease (demo_fence "a0" "w1" 1) "root" (Ok "meta") demo_idle "env1"
    (mkProvisioned "pod/env1" "ws://pod") demo_provisioned Hr)
    as (ensured & environment & metadata_root & w1 & w2 & _ & _ & now & s & s' & job_id & row & _ & Ho & _ & Hj & He & Hst & _).
  exists s, s', job_id, row. exact (conj Ho (conj Hj (conj He Hst))).
Defined.

