(* ===== verification/ResponseStream.v ===== *)
(** * The response stream of the provider bridge

    [providers/src/response_stream.rs] and the provider state of
    [responses.rs]: what a provider says, in whatever pieces it arrives, becomes
    the events of one Responses answer.  [Uuid::new_v4] is a parameter, the
    text drawn at each position; the number of texts drawn is passed along. *)

From S2P Require Import Prelude Serde ProviderTools.
From Stdlib Require Import ZArith Ascii String.
From stdpp Require Import base gmap strings option list.

#[local] Open Scope string_scope.
#[local] Open Scope Z_scope.
#[local] Open Scope list_scope.

(** [Uuid::new_v4().simple().to_string()], the n-th time it is called. *)
Class UuidSource : Type := { new_v4 : nat → string }.

(** [json!] with an object. *)
Definition obj (fields : list (string * Value)) : Value := object_of (prod_map id Some <$> fields).

Definition opt_str (o : option string) : Value := match o with Some s => Str s | None => Null end.
Definition unsigned (n : Z) : Value := Num (PosInt n).

(** [BTreeMap<usize, _>]: the entries in key order. *)
Section btree.
Context {A : Type}.

Fixpoint bt_get (k : Z) (m : list (Z * A)) : option A :=
  match m with
  | [] => None
  | (j, a) :: r => if decide (k = j) then Some a else bt_get k r
  end.

Fixpoint bt_set (k : Z) (x : A) (m : list (Z * A)) : list (Z * A) :=
  match m with
  | [] => [(k, x)]
  | (j, a) :: r =>
      match Z.compare k j with Eq => (k, x) :: r | Lt => (k, x) :: m | Gt => (j, a) :: bt_set k x r end
  end.

Fixpoint bt_remove (k : Z) (m : list (Z * A)) : list (Z * A) :=
  match m with
  | [] => []
  | (j, a) :: r => if decide (k = j) then r else (j, a) :: bt_remove k r
  end.
End btree.

(** ** Provider state *)

Definition STATE_PREFIX : string := "factory-provider-state:".

Inductive ProviderState : Type :=
| Chat (reasoning_content : string)
| Anthropic (thinking_blocks : list Value).

(** Internally tagged by [kind]. *)
Definition ser_provider_state (s : ProviderState) : Value :=
  match s with
  | Chat reasoning_content => obj [("kind", Str "chat"); ("reasoning_content", Str reasoning_content)]
  | Anthropic thinking_blocks => obj [("kind", Str "anthropic"); ("thinking_blocks", Array thinking_blocks)]
  end.

Definition de_provider_fields (kind : string) (found : string → Found) : option ProviderState :=
  if decide (kind = "chat") then Chat <$> field (found "reasoning_content")
  else if decide (kind = "anthropic") then Anthropic <$> field (found "thinking_blocks")
  else None.

Definition de_provider_state (v : Value) : option ProviderState :=
  match v with
  | Object f => kind ← assoc_get "kind" f ≫= as_str; de_provider_fields kind (find_key f)
  | Array [Str kind] => de_provider_fields kind (λ _, MissingElement)
  | Array [Str kind; content] => de_provider_fields kind (λ _, Present content)
  | _ => None
  end.

#[export] Instance serde_provider_state : Serde ProviderState :=
  {| ser := ser_provider_state; de := de_provider_state |}.

Definition encode_provider_state `{JsonCodec} (s : ProviderState) : string := STATE_PREFIX +:+ json_text (ser s).

Definition decode_provider_state `{JsonCodec} (value : string) : option ProviderState :=
  payload ← Prelude.strip_prefix STATE_PREFIX value;
  match json_parse payload with Ok v => de v | Err _ => None end.

Definition reasoning_state `{JsonCodec} (item : Value) : option ProviderState :=
  get_str "encrypted_content" item ≫= decode_provider_state.

(** ** The stream *)

Record Usage : Type := mkUsage {
  u_input_tokens : Z;
  u_output_tokens : Z;
  u_cached_input_tokens : Z;
  u_reasoning_tokens : Z;
}.

Definition default_usage : Usage := mkUsage 0 0 0 0.

Record ToolOutput : Type := mkToolOutput {
  to_item_id : string;
  to_call_id : string;
  to_wire_name : string;
  to_arguments : string;
  to_output_index : option Z;
}.

Record ResponsesStream : Type := mkResponsesStream {
  rs_response_id : string;
  rs_model : string;
  rs_catalog : ToolCatalog;
  rs_reasoning_id : string;
  rs_message_id : string;
  rs_reasoning : string;
  rs_text : string;
  rs_reasoning_output_index : option Z;
  rs_message_output_index : option Z;
  rs_tools : list (Z * ToolOutput);
  rs_next_output_index : Z;
  rs_finish_reason : option string;
  rs_usage : Usage;
}.

Definition with_reasoning (reasoning : string) (index next : Z) (s : ResponsesStream) : ResponsesStream :=
  mkResponsesStream (rs_response_id s) (rs_model s) (rs_catalog s) (rs_reasoning_id s) (rs_message_id s)
    reasoning (rs_text s) (Some index) (rs_message_output_index s) (rs_tools s) next (rs_finish_reason s) (rs_usage s).

Definition with_text (text : string) (index next : Z) (s : ResponsesStream) : ResponsesStream :=
  mkResponsesStream (rs_response_id s) (rs_model s) (rs_catalog s) (rs_reasoning_id s) (rs_message_id s)
    (rs_reasoning s) text (rs_reasoning_output_index s) (Some index) (rs_tools s) next (rs_finish_reason s) (rs_usage s).

Definition with_tools (tools : list (Z * ToolOutput)) (next : Z) (s : ResponsesStream) : ResponsesStream :=
  mkResponsesStream (rs_response_id s) (rs_model s) (rs_catalog s) (rs_reasoning_id s) (rs_message_id s)
    (rs_reasoning s) (rs_text s) (rs_reasoning_output_index s) (rs_message_output_index s) tools next
    (rs_finish_reason s) (rs_usage s).

Definition with_finish_reason (reason : option string) (s : ResponsesStream) : ResponsesStream :=
  mkResponsesStream (rs_response_id s) (rs_model s) (rs_catalog s) (rs_reasoning_id s) (rs_message_id s)
    (rs_reasoning s) (rs_text s) (rs_reasoning_output_index s) (rs_message_output_index s) (rs_tools s)
    (rs_next_output_index s) reason (rs_usage s).

Definition set_usage (usage : Usage) (s : ResponsesStream) : ResponsesStream :=
  mkResponsesStream (rs_response_id s) (rs_model s) (rs_catalog s) (rs_reasoning_id s) (rs_message_id s)
    (rs_reasoning s) (rs_text s) (rs_reasoning_output_index s) (rs_message_output_index s) (rs_tools s)
    (rs_next_output_index s) (rs_finish_reason s) usage.

Definition set_finish_reason (reason : option string) (s : ResponsesStream) : ResponsesStream :=
  match reason with Some r => with_finish_reason (Some r) s | None => s end.

(** [ResponsesStream::new]; [suffix] is the text drawn. *)
Definition new_stream (suffix model : string) (catalog : ToolCatalog) : ResponsesStream :=
  mkResponsesStream ("resp_" +:+ suffix) model catalog ("rs_" +:+ suffix) ("msg_" +:+ suffix)
    EmptyString EmptyString None None [] 0 None default_usage.

Definition created (s : ResponsesStream) : Value := obj
  [("type", Str "response.created");
   ("response", obj [("id", Str (rs_response_id s)); ("object", Str "response"); ("status", Str "in_progress");
                     ("model", Str (rs_model s)); ("output", Array [])])].

(** ** Events *)

Definition item_added (index : Z) (item : Value) : Value := obj
  [("type", Str "response.output_item.added"); ("output_index", unsigned index); ("item", item)].

Definition item_done (index : Z) (item : Value) : Value := obj
  [("type", Str "response.output_item.done"); ("output_index", unsigned index); ("item", item)].

Definition reasoning_item (id text : string) (encrypted_content : option string) : Value :=
  let summary := if decide (text = EmptyString) then []
                 else [obj [("type", Str "summary_text"); ("text", Str text)]] in
  obj [("id", Str id); ("type", Str "reasoning"); ("summary", Array summary); ("content", Null);
       ("encrypted_content", opt_str encrypted_content)].

Definition reasoning_part_added (id : string) (index : Z) : Value := obj
  [("type", Str "response.reasoning_summary_part.added"); ("item_id", Str id); ("output_index", unsigned index);
   ("summary_index", unsigned 0); ("part", obj [("type", Str "summary_text"); ("text", Str EmptyString)])].

Definition reasoning_text_delta (id : string) (index : Z) (delta : string) : Value := obj
  [("type", Str "response.reasoning_summary_text.delta"); ("item_id", Str id); ("output_index", unsigned index);
   ("summary_index", unsigned 0); ("delta", Str delta)].

Definition reasoning_text_done (id : string) (index : Z) (text : string) : Value := obj
  [("type", Str "response.reasoning_summary_text.done"); ("item_id", Str id); ("output_index", unsigned index);
   ("summary_index", unsigned 0); ("text", Str text)].

Definition message_started (id : string) : Value := obj
  [("id", Str id); ("type", Str "message"); ("role", Str "assistant"); ("status", Str "in_progress"); ("content", Array [])].

Definition message_completed (id text : string) : Value := obj
  [("id", Str id); ("type", Str "message"); ("role", Str "assistant"); ("status", Str "completed");
   ("content", Array [obj [("type", Str "output_text"); ("text", Str text); ("annotations", Array [])]])].

Definition output_text_delta (id : string) (index : Z) (delta : string) : Value := obj
  [("type", Str "response.output_text.delta"); ("item_id", Str id); ("output_index", unsigned index);
   ("content_index", unsigned 0); ("delta", Str delta)].

Definition output_text_done (id : string) (index : Z) (text : string) : Value := obj
  [("type", Str "response.output_text.done"); ("item_id", Str id); ("output_index", unsigned index);
   ("content_index", unsigned 0); ("text", Str text)].

Definition output_item_added (index : Z) (tool : ToolOutput) (b : ToolBinding) : Value :=
  item_added index
    match tb_kind b with
    | Function name namespace => obj
        [("id", Str (to_item_id tool)); ("type", Str "function_call"); ("name", Str name);
         ("namespace", opt_str namespace); ("arguments", Str EmptyString); ("call_id", Str (to_call_id tool))]
    | Custom name namespace => obj
        [("id", Str (to_item_id tool)); ("type", Str "custom_tool_call"); ("status", Str "in_progress"); ("name", Str name);
         ("namespace", opt_str namespace); ("input", Str EmptyString); ("call_id", Str (to_call_id tool))]
    end.

Definition custom_input_delta (tool : ToolOutput) (index : Z) (input : string) : Value := obj
  [("type", Str "response.custom_tool_call_input.delta"); ("item_id", Str (to_item_id tool));
   ("call_id", Str (to_call_id tool)); ("output_index", unsigned index); ("delta", Str input)].

(** [custom_input] is there for a custom tool. *)
Definition completed_tool_item (tool : ToolOutput) (b : ToolBinding) (custom_input : option string) : Value :=
  match tb_kind b with
  | Function name namespace => obj
      [("id", Str (to_item_id tool)); ("type", Str "function_call"); ("name", Str name);
       ("namespace", opt_str namespace); ("arguments", Str (to_arguments tool)); ("call_id", Str (to_call_id tool))]
  | Custom name namespace => obj
      [("id", Str (to_item_id tool)); ("type", Str "custom_tool_call"); ("status", Str "completed"); ("name", Str name);
       ("namespace", opt_str namespace); ("input", Str (default EmptyString custom_input)); ("call_id", Str (to_call_id tool))]
  end.

Definition failed_event (response_id message : string) : Value := obj
  [("type", Str "response.failed");
   ("response", obj [("id", Str response_id); ("status", Str "failed");
                     ("error", obj [("code", Str "provider_error"); ("message", Str message)])])].

Definition incomplete_event (response_id : string) : Value := obj
  [("type", Str "response.incomplete");
   ("response", obj [("id", Str response_id); ("status", Str "incomplete");
                     ("incomplete_details", obj [("reason", Str "max_output_tokens")])])].

(** The sum of two [u64] wraps. *)
Definition completed_event (response_id model : string) (u : Usage) : Value := obj
  [("type", Str "response.completed");
   ("response", obj
      [("id", Str response_id); ("object", Str "response"); ("status", Str "completed"); ("model", Str model);
       ("end_turn", Bool true);
       ("usage", obj
          [("input_tokens", unsigned (u_input_tokens u)); ("output_tokens", unsigned (u_output_tokens u));
           ("total_tokens", unsigned ((u_input_tokens u + u_output_tokens u) mod 2 ^ 64));
           ("input_tokens_details", obj [("cached_tokens", unsigned (u_cached_input_tokens u))]);
           ("output_tokens_details", obj [("reasoning_tokens", unsigned (u_reasoning_tokens u))])])])].

(** ** Deltas *)

Definition reasoning_delta (delta : string) (s : ResponsesStream) : list Value * ResponsesStream :=
  if decide (delta = EmptyString) then ([], s)
  else
    let '(index, next, added) :=
      match rs_reasoning_output_index s with
      | Some index => (index, rs_next_output_index s, [])
      | None => (rs_next_output_index s, rs_next_output_index s + 1,
                 [item_added (rs_next_output_index s) (reasoning_item (rs_reasoning_id s) EmptyString None);
                  reasoning_part_added (rs_reasoning_id s) (rs_next_output_index s)])
      end in
    (added ++ [reasoning_text_delta (rs_reasoning_id s) index delta],
     with_reasoning (rs_reasoning s +:+ delta) index next s).

Definition text_delta (delta : string) (s : ResponsesStream) : list Value * ResponsesStream :=
  if decide (delta = EmptyString) then ([], s)
  else
    let '(index, next, added) :=
      match rs_message_output_index s with
      | Some index => (index, rs_next_output_index s, [])
      | None => (rs_next_output_index s, rs_next_output_index s + 1,
                 [item_added (rs_next_output_index s) (message_started (rs_message_id s))])
      end in
    (added ++ [output_text_delta (rs_message_id s) index delta], with_text (rs_text s +:+ delta) index next s).

Definition push_opt (s : string) (o : option string) : string := s +:+ default EmptyString o.

(** The entry of a tool call with what arrived appended. *)
Definition tool_entry (s : ResponsesStream) (suffix : string) (index : Z) (call_id wire_name arguments : option string) :
    ToolOutput :=
  let tool := default (mkToolOutput ("fc_" +:+ suffix) EmptyString EmptyString EmptyString None) (bt_get index (rs_tools s)) in
  mkToolOutput (to_item_id tool) (push_opt (to_call_id tool) call_id) (push_opt (to_wire_name tool) wire_name)
    (push_opt (to_arguments tool) arguments) (to_output_index tool).

Definition announced (tool : ToolOutput) (index : Z) : ToolOutput :=
  mkToolOutput (to_item_id tool) (to_call_id tool) (to_wire_name tool) (to_arguments tool) (Some index).

(** A call is announced once it has an id, the name of a tool and arguments. *)
Definition tool_delta (suffix : string) (index : Z) (call_id wire_name arguments : option string) (s : ResponsesStream) :
    list Value * ResponsesStream :=
  let tool := tool_entry s suffix index call_id wire_name arguments in
  match to_output_index tool, by_wire_name (rs_catalog s) (to_wire_name tool) with
  | None, Some b =>
      if bool_decide (to_call_id tool ≠ EmptyString)
         && (bool_decide (is_Some arguments) || bool_decide (to_arguments tool ≠ EmptyString)) then
        let tool := announced tool (rs_next_output_index s) in
        ([output_item_added (rs_next_output_index s) tool b],
         with_tools (bt_set index tool (rs_tools s)) (rs_next_output_index s + 1) s)
      else ([], with_tools (bt_set index tool (rs_tools s)) (rs_next_output_index s) s)
  | _, _ => ([], with_tools (bt_set index tool (rs_tools s)) (rs_next_output_index s) s)
  end.

(** ** The end *)

Section finish.
Context `{JsonCodec, PatchParser}.

(** The events that close the reasoning, and the next index. *)
Definition finish_reasoning (s : ResponsesStream) (provider_state : option ProviderState) : list Value * Z :=
  match rs_reasoning_output_index s, provider_state with
  | Some index, _ =>
      ([reasoning_text_done (rs_reasoning_id s) index (rs_reasoning s);
        item_done index (reasoning_item (rs_reasoning_id s) (rs_reasoning s) (encode_provider_state <$> provider_state))],
       rs_next_output_index s)
  | None, Some state =>
      ([item_added (rs_next_output_index s) (reasoning_item (rs_reasoning_id s) EmptyString None);
        item_done (rs_next_output_index s)
          (reasoning_item (rs_reasoning_id s) EmptyString (Some (encode_provider_state state)))],
       rs_next_output_index s + 1)
  | None, None => ([], rs_next_output_index s)
  end.

Definition finish_message (s : ResponsesStream) : list Value :=
  match rs_message_output_index s with
  | Some index => [output_text_done (rs_message_id s) index (rs_text s);
                   item_done index (message_completed (rs_message_id s) (rs_text s))]
  | None => []
  end.

Definition custom_input_of (b : ToolBinding) (arguments : string) : result TranslationError (option string) :=
  match tb_kind b with
  | Custom _ _ => input ← normalize_custom_input b arguments; Ok (Some input)
  | Function _ _ => Ok None
  end.

(** The events of one tool call, and the next index. *)
Definition finish_tool (catalog : ToolCatalog) (next : Z) (tool : ToolOutput) : result TranslationError (list Value * Z) :=
  b ← ok_or (by_wire_name catalog (to_wire_name tool)) (UnknownTool (to_wire_name tool));
  let '(index, next', added) :=
    match to_output_index tool with
    | Some index => (index, next, [])
    | None => (next, next + 1, [output_item_added next tool b])
    end in
  custom_input ← custom_input_of b (to_arguments tool);
  Ok (added ++ (match custom_input with Some input => [custom_input_delta tool index input] | None => [] end)
        ++ [item_done index (completed_tool_item tool b custom_input)], next').

Fixpoint finish_tools (catalog : ToolCatalog) (next : Z) (tools : list (Z * ToolOutput)) : result TranslationError (list Value) :=
  match tools with
  | [] => Ok []
  | (_, tool) :: rest =>
      one ← finish_tool catalog next tool;
      events ← finish_tools catalog one.2 rest;
      Ok (one.1 ++ events)
  end.

Definition terminal_event (s : ResponsesStream) : Value :=
  match rs_finish_reason s with
  | Some reason =>
      if decide (reason ∈ ["length"; "max_tokens"]) then incomplete_event (rs_response_id s)
      else if decide (reason ∈ ["content_filter"; "sensitive"; "network_error"; "insufficient_system_resource"]) then
        failed_event (rs_response_id s) reason
      else completed_event (rs_response_id s) (rs_model s) (rs_usage s)
  | None => completed_event (rs_response_id s) (rs_model s) (rs_usage s)
  end.

Definition finish (s : ResponsesStream) (provider_state : option ProviderState) : result TranslationError (list Value) :=
  let '(reasoning, next) := finish_reasoning s provider_state in
  tools ← finish_tools (rs_catalog s) next (rs_tools s);
  Ok (reasoning ++ finish_message s ++ tools ++ [terminal_event s]).
End finish.
