(* ===== verification/ChatBridge.v ===== *)
(** * Chat providers

    [providers/src/chat.rs]: a Responses request becomes a chat completion
    request, and the chunks of its answer become Responses events.  The model of
    a translator carries, beside the fields of the source, the number of
    identifiers drawn. *)

From S2P Require Import Prelude Serde ProviderTools ResponseStream.
From Stdlib Require Import ZArith Ascii String.
From stdpp Require Import base gmap strings option list.

#[local] Open Scope string_scope.
#[local] Open Scope Z_scope.
#[local] Open Scope list_scope.

(** [AdapterConfig] of [config.rs]. *)
Record AdapterConfig : Type := mkAdapterConfig {
  ac_bind_host : string;
  ac_port : Z;
  ac_advertised_base_url : string;
  ac_profile : ProviderProfile;
  ac_model : string;
  ac_upstream_base_url : string;
  ac_api_key_env : string;
  ac_api_key : string;
  ac_state_dir : string;
  ac_max_tokens : Z;
}.

(** A body being filled. *)
Definition insert_if (b : bool) (k : string) (v : Value) (body : Value) : Value :=
  if b then value_set k v body else body.

Definition insert_opt (k : string) (o : option Value) (body : Value) : Value :=
  match o with Some v => value_set k v body | None => body end.


(** ** Messages *)

(** [AssistantMessage]: the turn of the assistant being gathered. *)
Record AssistantMessage : Type := mkAssistantMessage {
  am_content : string;
  am_reasoning_content : string;
  am_tool_calls : list Value;
}.

Definition empty_assistant : AssistantMessage := mkAssistantMessage EmptyString EmptyString [].

Definition assistant_message (a : AssistantMessage) : Value :=
  insert_if (negb (bool_decide (am_tool_calls a = []))) "tool_calls" (Array (am_tool_calls a))
    (insert_if (negb (bool_decide (am_reasoning_content a = EmptyString))) "reasoning_content" (Str (am_reasoning_content a))
       (obj [("role", Str "assistant");
             ("content", if decide (am_content a = EmptyString) then Null else Str (am_content a))])).

(** [flush_assistant]; the turn is empty afterwards. *)
Definition flush_assistant (messages : list Value) (a : AssistantMessage) : list Value :=
  if bool_decide (am_content a = EmptyString) && bool_decide (am_reasoning_content a = EmptyString)
     && bool_decide (am_tool_calls a = []) then messages
  else messages ++ [assistant_message a].

Definition reasoning_text (item : Value) : string :=
  join_lines (omap (get_str "text") (default [] (get_array "content" item) ++ default [] (get_array "summary" item))).

Definition chat_message (role text : string) : Value := obj [("role", Str role); ("content", Str text)].

Definition chat_tool_call (id wire_name arguments : string) : Value := obj
  [("id", Str id); ("type", Str "function"); ("function", obj [("name", Str wire_name); ("arguments", Str arguments)])].

Definition chat_tool_result (call_id content : string) : Value := obj
  [("role", Str "tool"); ("tool_call_id", Str call_id); ("content", Str content)].

Section messages.
Context `{JsonCodec} (tools : ToolCatalog).

Definition historical_arguments (item_type : string) (namespace : option string) (name : string) (item : Value) : string :=
  if decide (item_type = "custom_tool_call") then
    chat_custom_arguments namespace name (default EmptyString (get_str "input" item))
  else default "{}" (get_str "arguments" item).

(** One item of the input. *)
Definition message_step (item : Value) (st : list Value * AssistantMessage) :
    result TranslationError (list Value * AssistantMessage) :=
  let '(messages, a) := st in
  let item_type := default EmptyString (get_str "type" item) in
  if decide (item_type = "message") then
    let role := default "user" (get_str "role" item) in
    let text := item_text item in
    if decide (role = "assistant") then
      Ok (messages, mkAssistantMessage (am_content a +:+ text) (am_reasoning_content a) (am_tool_calls a))
    else
      Ok (flush_assistant messages a
            ++ [chat_message (if decide (role ∈ ["developer"; "system"]) then "system" else "user") text], empty_assistant)
  else if decide (item_type = "reasoning") then
    let reasoning := match reasoning_state item with
                     | Some (Chat reasoning_content) => reasoning_content
                     | _ => reasoning_text item
                     end in
    Ok (messages, mkAssistantMessage (am_content a) (am_reasoning_content a +:+ reasoning) (am_tool_calls a))
  else if decide (item_type ∈ ["function_call"; "custom_tool_call"]) then
    name ← required_string item "name";
    let namespace := get_str "namespace" item in
    call_id ← required_string item "call_id";
    let call := chat_tool_call call_id (historical_wire_name tools namespace name)
                  (historical_arguments item_type namespace name item) in
    Ok (messages, mkAssistantMessage (am_content a) (am_reasoning_content a) (am_tool_calls a ++ [call]))
  else if decide (item_type ∈ ["function_call_output"; "custom_tool_call_output"]) then
    call_id ← required_string item "call_id";
    Ok (flush_assistant messages a ++ [chat_tool_result call_id (output_text (value_get "output" item))], empty_assistant)
  else if decide (item_type = "compaction_trigger") then Ok (messages, a)
  else Err (UnsupportedItem ("input type " +:+ item_type)).

Fixpoint message_loop (input : list Value) (st : list Value * AssistantMessage) :
    result TranslationError (list Value * AssistantMessage) :=
  match input with
  | [] => Ok st
  | item :: rest => st' ← message_step item st; message_loop rest st'
  end.

Definition build_messages (input : list Value) (request : Value) : result TranslationError (list Value) :=
  let system := match nonempty (get_str "instructions" request) with
                | Some instructions => [chat_message "system" instructions]
                | None => []
                end in
  st ← message_loop input (system, empty_assistant);
  Ok (flush_assistant st.1 st.2).
End messages.

(** ** The request *)

Record PreparedRequest : Type := mkPreparedRequest {
  pr_body : Value;
  pr_tools : ToolCatalog;
}.

Definition reasoning_effort (request : Value) : option string := pointer2 "reasoning" "effort" request ≫= as_str.

Definition zai_fields (body : Value) : Value :=
  let body := value_set "thinking" (obj [("type", Str "enabled"); ("clear_thinking", Bool false)])
                (value_set "tool_stream" (Bool true) body) in
  insert_if (bool_decide (is_Some (value_get "tools" body))) "tool_choice" (Str "auto") body.

Definition chat_body (request : Value) (config : AdapterConfig) (model : string) (messages chat_tools : list Value) : Value :=
  let body := obj [("model", Str model); ("messages", Array messages); ("stream", Bool true);
                   ("stream_options", obj [("include_usage", Bool true)]); ("thinking", obj [("type", Str "enabled")])] in
  let body := insert_opt "reasoning_effort" (Str <$> reasoning_effort request) body in
  let body := if bool_decide (chat_tools = []) then body
              else value_set "parallel_tool_calls" (default (Bool true) (value_get "parallel_tool_calls" request))
                     (value_set "tools" (Array chat_tools) body) in
  if decide (pp_id (ac_profile config) = "zai") then zai_fields body else body.

Definition prepare_chat_request `{JsonCodec} (request : Value) (config : AdapterConfig) : result TranslationError PreparedRequest :=
  model ← request_model request;
  tools ← from_request request;
  input ← request_input request;
  messages ← build_messages tools input request;
  Ok (mkPreparedRequest (chat_body request config model messages (chat_tools tools)) tools).

(** ** The answer *)

Record ChatStreamTranslator : Type := mkChatStreamTranslator {
  ct_responses : ResponsesStream;
  ct_reasoning : string;
  ct_saw_finish_reason : bool;
  ct_drawn : nat;
}.

Definition get_u64 (k : string) (v : Value) : option Z := value_get k v ≫= as_u64.

Definition chat_usage (v : Value) : Usage := mkUsage
  (default 0 (get_u64 "prompt_tokens" v)) (default 0 (get_u64 "completion_tokens" v))
  (default 0 (match value_get "prompt_cache_hit_tokens" v with
              | Some hit => Some hit
              | None => pointer2 "prompt_tokens_details" "cached_tokens" v
              end ≫= as_u64))
  (default 0 (pointer2 "completion_tokens_details" "reasoning_tokens" v ≫= as_u64)).

Definition is_null (v : Value) : bool := match v with Null => true | _ => false end.

Definition set_chat_usage (chunk : Value) (s : ResponsesStream) : ResponsesStream :=
  match value_get "usage" chunk with
  | Some usage => if is_null usage then s else set_usage (chat_usage usage) s
  | None => s
  end.

Section translator.
Context `{JsonCodec, UuidSource}.

Definition new_chat (drawn : nat) (model : string) (tools : ToolCatalog) : ChatStreamTranslator :=
  mkChatStreamTranslator (new_stream (new_v4 drawn) model tools) EmptyString false (S drawn).

(** The pieces of the tool calls of a chunk, in order. *)
Definition chat_tool_delta (tool : Value) (st : list Value * ResponsesStream * nat) : list Value * ResponsesStream * nat :=
  let '(events, s, drawn) := st in
  let function := default Null (value_get "function" tool) in
  let '(more, s') := tool_delta (new_v4 drawn) (default 0 (get_u64 "index" tool)) (get_str "id" tool)
                       (get_str "name" function) (get_str "arguments" function) s in
  (events ++ more, s', S drawn).

Definition chat_tool_deltas (tool_calls : list Value) (st : list Value * ResponsesStream * nat) :
    list Value * ResponsesStream * nat := foldl (λ st tool, chat_tool_delta tool st) st tool_calls.

(** What the [delta] of a choice adds. *)
Definition chat_delta (delta : Value) (s : ResponsesStream) (drawn : nat) : list Value * ResponsesStream * nat :=
  let '(events1, s1) := reasoning_delta (default EmptyString (get_str "reasoning_content" delta)) s in
  let '(events2, s2) := text_delta (default EmptyString (get_str "content" delta)) s1 in
  chat_tool_deltas (default [] (get_array "tool_calls" delta)) (events1 ++ events2, s2, drawn).

Definition first_choice (chunk : Value) : option Value := get_array "choices" chunk ≫= head.

(** [ChatStreamTranslator::push]. *)
Definition chat_push (chunk : Value) (t : ChatStreamTranslator) : result TranslationError (list Value * ChatStreamTranslator) :=
  match value_get "error" chunk with
  | Some error => Err (InvalidRequest ("upstream provider error: " +:+ json_text error))
  | None =>
      let s := set_chat_usage chunk (ct_responses t) in
      match first_choice chunk with
      | None => Ok ([], mkChatStreamTranslator s (ct_reasoning t) (ct_saw_finish_reason t) (ct_drawn t))
      | Some choice =>
          let finish_reason := nonempty (get_str "finish_reason" choice) in
          let saw := ct_saw_finish_reason t || bool_decide (is_Some finish_reason) in
          let s := set_finish_reason finish_reason s in
          match value_get "delta" choice with
          | None => Ok ([], mkChatStreamTranslator s (ct_reasoning t) saw (ct_drawn t))
          | Some delta =>
              let '(events, s, drawn) := chat_delta delta s (ct_drawn t) in
              Ok (events, mkChatStreamTranslator s
                            (ct_reasoning t +:+ default EmptyString (get_str "reasoning_content" delta)) saw drawn)
          end
      end
  end.

Definition chat_state (t : ChatStreamTranslator) : option ProviderState :=
  if decide (ct_reasoning t = EmptyString) then None else Some (Chat (ct_reasoning t)).

(** [ChatStreamTranslator::finish]. *)
Definition chat_finish `{PatchParser} (saw_end_marker : bool) (t : ChatStreamTranslator) : result TranslationError (list Value) :=
  if negb (ct_saw_finish_reason t) then Err (InvalidRequest "truncated chat stream: no terminal finish_reason")
  else if negb saw_end_marker then Err (InvalidRequest "truncated chat stream: missing [DONE] marker")
  else finish (ct_responses t) (chat_state t).
End translator.
