(* ===== verification/AnthropicBridge.v ===== *)
(** * The Anthropic provider

    [providers/src/anthropic.rs] and the model capabilities of [profiles.rs]: a
    Responses request becomes a Messages request, and the events of its answer
    become Responses events. *)

From S2P Require Import Prelude Serde ProviderTools ResponseStream ChatBridge.
From Stdlib Require Import ZArith Ascii String.
From stdpp Require Import base gmap strings option list.

#[local] Open Scope string_scope.
#[local] Open Scope Z_scope.
#[local] Open Scope list_scope.

(** ** Model capabilities *)

Inductive AnthropicEffortSupport : Type := Unsupported | ThroughHigh | ThroughMax | ThroughXHighAndMax.

#[export] Instance AnthropicEffortSupport_eq_dec : EqDecision AnthropicEffortSupport.
Proof. solve_decision. Defined.

Definition supports_any (e : AnthropicEffortSupport) : bool := negb (bool_decide (e = Unsupported)).

Definition effort_supports (e : AnthropicEffortSupport) (effort : string) : bool :=
  if decide (effort ∈ ["low"; "medium"; "high"]) then supports_any e
  else if decide (effort = "xhigh") then bool_decide (e = ThroughXHighAndMax)
  else if decide (effort = "max") then bool_decide (e = ThroughMax ∨ e = ThroughXHighAndMax)
  else false.

Record AnthropicModelCapabilities : Type := mkCapabilities {
  supports_adaptive_thinking : bool;
  adaptive_thinking_is_required : bool;
  supports_thinking_display : bool;
  mc_effort : AnthropicEffortSupport;
  mc_context_window : Z;
  mc_max_output_tokens : Z;
}.

Definition ascii_digit (c : ascii) : bool := let n := nat_of_ascii c in ((48 <=? n) && (n <=? 57))%nat.

Definition matches_alias_or_dated_snapshot (model alias : string) : bool :=
  bool_decide (model = alias)
  || match Prelude.strip_prefix alias model ≫= Prelude.strip_prefix "-" with
     | Some date => (String.length date =? 8)%nat && forallb ascii_digit (list_ascii_of_string date)
     | None => false
     end.

Definition anthropic_model_capabilities (model : string) : option AnthropicModelCapabilities :=
  if matches_alias_or_dated_snapshot model "claude-haiku-4-5" || matches_alias_or_dated_snapshot model "claude-sonnet-4-5" then
    Some (mkCapabilities false false false Unsupported 200000 64000)
  else if matches_alias_or_dated_snapshot model "claude-opus-4-5" then
    Some (mkCapabilities false false false ThroughHigh 200000 64000)
  else if decide (model ∈ ["claude-sonnet-4-6"; "claude-opus-4-6"]) then
    Some (mkCapabilities true false true ThroughMax 1000000 128000)
  else if decide (model ∈ ["claude-sonnet-5"; "claude-opus-4-7"; "claude-opus-4-8"; "claude-opus-5"]) then
    Some (mkCapabilities true false true ThroughXHighAndMax 1000000 128000)
  else if decide (model ∈ ["claude-fable-5"; "claude-mythos-5"]) then
    Some (mkCapabilities true true true ThroughXHighAndMax 1000000 128000)
  else if decide (model = "claude-mythos-preview") then
    Some (mkCapabilities true true true ThroughMax 1000000 128000)
  else None.

(** A capability of a model that is known. *)
Definition is_some_and {A : Type} (p : A → bool) (o : option A) : bool := match o with Some a => p a | None => false end.

(** ** Messages *)

Definition block_message (role : string) (block : Value) : Value := obj [("role", Str role); ("content", Array [block])].

(** The block joins the last message when that has the same role. *)
Fixpoint push_block (messages : list Value) (role : string) (block : Value) : list Value :=
  match messages with
  | [] => [block_message role block]
  | [last] =>
      match get_str "role" last, value_get "content" last with
      | Some r, Some (Array content) =>
          if decide (r = role) then [value_set "content" (Array (content ++ [block])) last]
          else [last; block_message role block]
      | _, _ => [last; block_message role block]
      end
  | m :: rest => m :: push_block rest role block
  end.

Definition text_block (text : string) : Value := obj [("type", Str "text"); ("text", Str text)].

Definition tool_use_block (id wire_name : string) (input : Value) : Value := obj
  [("type", Str "tool_use"); ("id", Str id); ("name", Str wire_name); ("input", input)].

Definition tool_result_block (call_id content : string) : Value := obj
  [("type", Str "tool_result"); ("tool_use_id", Str call_id); ("content", Str content)].

Definition double_newline : string := nl +:+ nl.

Section messages.
Context `{JsonCodec} (tools : ToolCatalog).

Definition historical_input (item_type : string) (item : Value) : Value :=
  if decide (item_type = "custom_tool_call") then obj [("input", Str (default EmptyString (get_str "input" item)))]
  else match json_parse (default "{}" (get_str "arguments" item)) with Ok v => v | Err _ => Object [] end.

(** One item of the input; the system prompt and the messages. *)
Definition anthropic_step (item : Value) (st : string * list Value) : result TranslationError (string * list Value) :=
  let '(system, messages) := st in
  let item_type := default EmptyString (get_str "type" item) in
  if decide (item_type = "message") then
    let role := default "user" (get_str "role" item) in
    let text := item_text item in
    if decide (role ∈ ["developer"; "system"]) then
      Ok ((if decide (system = EmptyString) then system else system +:+ double_newline) +:+ text, messages)
    else Ok (system, push_block messages (if decide (role = "assistant") then "assistant" else "user") (text_block text))
  else if decide (item_type = "reasoning") then
    match reasoning_state item with
    | Some (Anthropic thinking_blocks) =>
        Ok (system, foldl (λ messages block, push_block messages "assistant" block) messages thinking_blocks)
    | _ => Ok (system, messages)
    end
  else if decide (item_type ∈ ["function_call"; "custom_tool_call"]) then
    name ← required_string item "name";
    call_id ← required_string item "call_id";
    Ok (system, push_block messages "assistant"
                  (tool_use_block call_id (historical_wire_name tools (get_str "namespace" item) name)
                     (historical_input item_type item)))
  else if decide (item_type ∈ ["function_call_output"; "custom_tool_call_output"]) then
    call_id ← required_string item "call_id";
    Ok (system, push_block messages "user" (tool_result_block call_id (output_text (value_get "output" item))))
  else if decide (item_type = "compaction_trigger") then Ok (system, messages)
  else Err (UnsupportedItem ("input type " +:+ item_type)).

Fixpoint anthropic_loop (input : list Value) (st : string * list Value) : result TranslationError (string * list Value) :=
  match input with
  | [] => Ok st
  | item :: rest => st' ← anthropic_step item st; anthropic_loop rest st'
  end.

Definition build_anthropic_messages (input : list Value) (request : Value) : result TranslationError (string * list Value) :=
  anthropic_loop input (default EmptyString (get_str "instructions" request), []).
End messages.

(** ** The request *)

(** What the effort of the request changes. *)
Definition apply_effort (model : string) (capabilities : option AnthropicModelCapabilities) (effort : option string)
    (body : Value) : result TranslationError Value :=
  match effort with
  | None => Ok body
  | Some effort =>
      if decide (effort = "none") then
        if is_some_and adaptive_thinking_is_required capabilities then
          Err (InvalidRequest ("model " +:+ model +:+ " does not support disabling adaptive thinking"))
        else if is_some_and supports_adaptive_thinking capabilities then
          Ok (value_set "thinking" (obj [("type", Str "disabled")]) body)
        else Ok body
      else if is_some_and (λ c, effort_supports (mc_effort c) effort) capabilities then
        Ok (value_set "output_config" (obj [("effort", Str effort)]) body)
      else if bool_decide (is_Some capabilities) then
        Err (InvalidRequest ("model " +:+ model +:+ " does not support Anthropic effort " +:+ effort))
      else
        Err (InvalidRequest ("cannot determine whether custom Anthropic model " +:+ model +:+ " supports effort " +:+ effort
               +:+ "; omit the reasoning effort or select a known model"))
  end.

Definition summary_display (model summary : string) : result TranslationError string :=
  if decide (summary ∈ ["auto"; "concise"; "detailed"]) then Ok "summarized"
  else if decide (summary = "none") then Ok "omitted"
  else Err (InvalidRequest ("unsupported reasoning summary " +:+ summary +:+ " for Anthropic model " +:+ model)).

(** What the summary of the request changes: only adaptive thinking has a display. *)
Definition apply_summary (model : string) (capabilities : option AnthropicModelCapabilities) (summary : option string)
    (body : Value) : result TranslationError Value :=
  match value_get "thinking" body, summary with
  | Some thinking, Some summary =>
      if bool_decide (get_str "type" thinking = Some "adaptive") && is_some_and supports_thinking_display capabilities then
        display ← summary_display model summary;
        Ok (value_set "thinking" (value_set "display" (Str display) thinking) body)
      else Ok body
  | _, _ => Ok body
  end.

Definition effective_max_tokens (config : AdapterConfig) (capabilities : option AnthropicModelCapabilities) : Z :=
  match capabilities with
  | Some c => Z.min (ac_max_tokens config) (mc_max_output_tokens c)
  | None => ac_max_tokens config
  end.

Definition anthropic_base_body (config : AdapterConfig) (model system : string) (messages : list Value)
    (capabilities : option AnthropicModelCapabilities) : Value :=
  insert_if (negb (bool_decide (system = EmptyString))) "system" (Str system)
    (insert_if (is_some_and supports_adaptive_thinking capabilities) "thinking" (obj [("type", Str "adaptive")])
       (obj [("model", Str model); ("messages", Array messages);
             ("max_tokens", unsigned (effective_max_tokens config capabilities)); ("stream", Bool true)])).

Definition prepare_anthropic_request `{JsonCodec} (request : Value) (config : AdapterConfig) :
    result TranslationError PreparedRequest :=
  model ← request_model request;
  tools ← from_request request;
  input ← request_input request;
  built ← build_anthropic_messages tools input request;
  let capabilities := anthropic_model_capabilities model in
  let body := anthropic_base_body config model built.1 built.2 capabilities in
  body ← apply_effort model capabilities (reasoning_effort request) body;
  body ← apply_summary model capabilities (pointer2 "reasoning" "summary" request ≫= as_str) body;
  Ok (mkPreparedRequest
        (insert_if (negb (bool_decide (anthropic_tools tools = []))) "tools" (Array (anthropic_tools tools)) body) tools).

(** ** The answer *)

Inductive AnthropicBlock : Type :=
| Thinking (thinking signature : string)
| Tool (has_input : bool)
| Text
| Opaque (block : Value).

Record AnthropicStreamTranslator : Type := mkAnthropicStreamTranslator {
  at_responses : ResponsesStream;
  at_blocks : list (Z * AnthropicBlock);
  at_thinking_blocks : list Value;
  at_usage : Usage;
  at_saw_stop_reason : bool;
  at_saw_message_stop : bool;
  at_drawn : nat;
}.

Definition update_usage (target : Usage) (v : Value) : Usage := mkUsage
  (default (u_input_tokens target) (get_u64 "input_tokens" v))
  (default (u_output_tokens target) (get_u64 "output_tokens" v))
  (default (u_cached_input_tokens target) (get_u64 "cache_read_input_tokens" v))
  (u_reasoning_tokens target).

Definition update_usage_opt (v : option Value) (t : AnthropicStreamTranslator) : AnthropicStreamTranslator :=
  mkAnthropicStreamTranslator (at_responses t) (at_blocks t) (at_thinking_blocks t)
    (match v with Some v => update_usage (at_usage t) v | None => at_usage t end)
    (at_saw_stop_reason t) (at_saw_message_stop t) (at_drawn t).

Definition with_block (blocks : list (Z * AnthropicBlock)) (s : ResponsesStream) (t : AnthropicStreamTranslator) :
    AnthropicStreamTranslator :=
  mkAnthropicStreamTranslator s blocks (at_thinking_blocks t) (at_usage t) (at_saw_stop_reason t) (at_saw_message_stop t)
    (at_drawn t).

(** A draw of an identifier. *)
Definition drawn_once (t : AnthropicStreamTranslator) : AnthropicStreamTranslator :=
  mkAnthropicStreamTranslator (at_responses t) (at_blocks t) (at_thinking_blocks t) (at_usage t) (at_saw_stop_reason t)
    (at_saw_message_stop t) (S (at_drawn t)).

Definition keep_thinking (block : Value) (t : AnthropicStreamTranslator) : AnthropicStreamTranslator :=
  mkAnthropicStreamTranslator (at_responses t) (at_blocks t) (at_thinking_blocks t ++ [block]) (at_usage t)
    (at_saw_stop_reason t) (at_saw_message_stop t) (at_drawn t).

Definition thinking_block (thinking signature : string) : Value := obj
  [("type", Str "thinking"); ("thinking", Str thinking); ("signature", Str signature)].

Definition str_or_empty (k : string) (v : Value) : string := default EmptyString (get_str k v).
Definition block_index (event : Value) : Z := default 0 (get_u64 "index" event).

Definition as_empty_object (v : Value) : bool := match v with Object [] => true | _ => false end.

Section translator.
Context `{JsonCodec, UuidSource}.

Definition new_anthropic (drawn : nat) (model : string) (tools : ToolCatalog) : AnthropicStreamTranslator :=
  mkAnthropicStreamTranslator (new_stream (new_v4 drawn) model tools) [] [] default_usage false false (S drawn).

Abbreviation pushed := (result TranslationError (list Value * AnthropicStreamTranslator)).

Definition block_start (event : Value) (t : AnthropicStreamTranslator) : pushed :=
  let index := block_index event in
  let block := default Null (value_get "content_block" event) in
  let kind := str_or_empty "type" block in
  if decide (kind = "thinking") then
    let '(events, s) := reasoning_delta (str_or_empty "thinking" block) (at_responses t) in
    Ok (events, with_block (bt_set index (Thinking (str_or_empty "thinking" block) (str_or_empty "signature" block)) (at_blocks t)) s t)
  else if decide (kind = "redacted_thinking") then
    Ok ([], with_block (bt_set index (Opaque block) (at_blocks t)) (at_responses t) t)
  else if decide (kind = "text") then
    let '(events, s) := text_delta (str_or_empty "text" block) (at_responses t) in
    Ok (events, with_block (bt_set index Text (at_blocks t)) s t)
  else if decide (kind = "tool_use") then
    let input := default (Object []) (value_get "input" block) in
    let has_input := negb (as_empty_object input) in
    let '(events, s) := tool_delta (new_v4 (at_drawn t)) index (get_str "id" block) (get_str "name" block)
                          (if has_input then Some (json_text input) else None) (at_responses t) in
    Ok (events, with_block (bt_set index (Tool has_input) (at_blocks t)) s (drawn_once t))
  else Err (UnsupportedItem ("Anthropic content block " +:+ kind)).

Definition append_thinking (text signature : string) (index : Z) (blocks : list (Z * AnthropicBlock)) : list (Z * AnthropicBlock) :=
  match bt_get index blocks with
  | Some (Thinking thinking signed) => bt_set index (Thinking (thinking +:+ text) (signed +:+ signature)) blocks
  | _ => blocks
  end.

Definition mark_input (index : Z) (blocks : list (Z * AnthropicBlock)) : list (Z * AnthropicBlock) :=
  match bt_get index blocks with
  | Some (Tool _) => bt_set index (Tool true) blocks
  | _ => blocks
  end.

Definition block_delta (event : Value) (t : AnthropicStreamTranslator) : pushed :=
  let index := block_index event in
  let delta := default Null (value_get "delta" event) in
  let kind := str_or_empty "type" delta in
  if decide (kind = "thinking_delta") then
    let text := str_or_empty "thinking" delta in
    let '(events, s) := reasoning_delta text (at_responses t) in
    Ok (events, with_block (append_thinking text EmptyString index (at_blocks t)) s t)
  else if decide (kind = "signature_delta") then
    Ok ([], with_block (append_thinking EmptyString (str_or_empty "signature" delta) index (at_blocks t)) (at_responses t) t)
  else if decide (kind = "text_delta") then
    let '(events, s) := text_delta (str_or_empty "text" delta) (at_responses t) in
    Ok (events, with_block (at_blocks t) s t)
  else if decide (kind = "input_json_delta") then
    let '(events, s) := tool_delta (new_v4 (at_drawn t)) index None None (get_str "partial_json" delta) (at_responses t) in
    Ok (events, with_block (mark_input index (at_blocks t)) s (drawn_once t))
  else Err (UnsupportedItem ("Anthropic delta " +:+ kind)).

Definition block_stop (event : Value) (t : AnthropicStreamTranslator) : pushed :=
  let index := block_index event in
  let closed := with_block (bt_remove index (at_blocks t)) (at_responses t) t in
  match bt_get index (at_blocks t) with
  | Some (Thinking thinking signature) => Ok ([], keep_thinking (thinking_block thinking signature) closed)
  | Some (Opaque block) => Ok ([], keep_thinking block closed)
  | Some (Tool false) =>
      let '(events, s) := tool_delta (new_v4 (at_drawn t)) index None None (Some "{}") (at_responses t) in
      Ok (events, with_block (at_blocks closed) s (drawn_once closed))
  | _ => Ok ([], closed)
  end.

Definition message_delta (event : Value) (t : AnthropicStreamTranslator) : AnthropicStreamTranslator :=
  let stop_reason := nonempty (pointer2 "delta" "stop_reason" event ≫= as_str) in
  update_usage_opt (value_get "usage" event)
    (mkAnthropicStreamTranslator (set_finish_reason stop_reason (at_responses t)) (at_blocks t) (at_thinking_blocks t)
       (at_usage t) (at_saw_stop_reason t || bool_decide (is_Some stop_reason)) (at_saw_message_stop t) (at_drawn t)).

Definition message_stop (t : AnthropicStreamTranslator) : AnthropicStreamTranslator :=
  mkAnthropicStreamTranslator (at_responses t) (at_blocks t) (at_thinking_blocks t) (at_usage t) (at_saw_stop_reason t)
    true (at_drawn t).

Definition anthropic_event (event : Value) (t : AnthropicStreamTranslator) : pushed :=
  let kind := str_or_empty "type" event in
  if decide (kind = "message_start") then Ok ([], update_usage_opt (pointer2 "message" "usage" event) t)
  else if decide (kind = "content_block_start") then block_start event t
  else if decide (kind = "content_block_delta") then block_delta event t
  else if decide (kind = "content_block_stop") then block_stop event t
  else if decide (kind = "message_delta") then Ok ([], message_delta event t)
  else if decide (kind = "error") then
    Err (InvalidRequest ("upstream provider error: "
           +:+ json_text (default (obj [("message", Str "unknown Anthropic stream error")]) (value_get "error" event))))
  else if decide (kind = "message_stop") then Ok ([], message_stop t)
  else if decide (kind = "ping") then Ok ([], t)
  else Err (UnsupportedItem ("Anthropic event " +:+ kind)).

(** [AnthropicStreamTranslator::push]; the usage is handed on after every event. *)
Definition anthropic_push (event : Value) (t : AnthropicStreamTranslator) : pushed :=
  r ← anthropic_event event t;
  Ok (r.1, with_block (at_blocks r.2) (set_usage (at_usage r.2) (at_responses r.2)) r.2).

Definition anthropic_state (t : AnthropicStreamTranslator) : option ProviderState :=
  if decide (at_thinking_blocks t = []) then None else Some (Anthropic (at_thinking_blocks t)).

(** [AnthropicStreamTranslator::finish]. *)
Definition anthropic_finish `{PatchParser} (t : AnthropicStreamTranslator) : result TranslationError (list Value) :=
  match at_blocks t with
  | _ :: _ => Err (InvalidRequest "truncated Anthropic stream: content block was not closed")
  | [] =>
      if negb (at_saw_stop_reason t) then Err (InvalidRequest "truncated Anthropic stream: no terminal stop_reason")
      else if negb (at_saw_message_stop t) then Err (InvalidRequest "truncated Anthropic stream: missing message_stop")
      else finish (at_responses t) (anthropic_state t)
  end.
End translator.
