(* ===== verification/BridgeServer.v ===== *)
(** * The server of the provider bridge

    [providers/src/server.rs], [sse.rs] and the configuration and model catalog
    of [config.rs]: a Responses request is translated, forwarded, and its answer
    streamed back as server-sent events.  The upstream provider and the client
    that reads the answer are parameters: what the provider sends, in which
    frames, and after how many frames the client goes away are arbitrary. *)

From S2P Require Import Prelude Serde ProviderTools ResponseStream ChatBridge AnthropicBridge.
From Stdlib Require Import ZArith Ascii String.
From stdpp Require Import base gmap strings option list pretty.

#[local] Open Scope string_scope.
#[local] Open Scope Z_scope.
#[local] Open Scope list_scope.

(** ** Frames *)

Definition sse_encode `{JsonCodec} (event : Value) : string := "data: " +:+ json_text event +:+ nl +:+ nl.
Definition sse_done : string := "data: [DONE]" +:+ nl +:+ nl.

(** The channel to the client: what was sent, and how much more the client
    takes before it is gone ([None]: it stays). *)
Record Channel : Type := mkChannel {
  ch_sent : list string;
  ch_room : option nat;
}.

Definition open_channel (room : option nat) : Channel := mkChannel [] room.

(** [Sender::send]; the flag is [is_ok]. *)
Definition channel_send (frame : string) (c : Channel) : bool * Channel :=
  match ch_room c with
  | None => (true, mkChannel (ch_sent c ++ [frame]) None)
  | Some O => (false, c)
  | Some (S n) => (true, mkChannel (ch_sent c ++ [frame]) (Some n))
  end.

(** One item of [bytes_stream().eventsource()]. *)
Inductive SseItem : Type :=
| SseEvent (data : string)
| SseError (error : string).

(** [#[error]] texts of [TranslationError]. *)
Definition translation_error_text (e : TranslationError) : string :=
  match e with
  | InvalidRequest detail => "invalid Responses request: " +:+ detail
  | UnsupportedItem item => "unsupported Responses item: " +:+ item
  | UnknownTool name => "provider returned unknown tool " +:+ name
  | InvalidToolArguments tool detail => "provider returned invalid arguments for tool " +:+ tool +:+ ": " +:+ detail
  end.

Inductive Translator : Type :=
| ChatTranslator (t : ChatStreamTranslator)
| AnthropicTranslator (t : AnthropicStreamTranslator).

Definition translator_stream (t : Translator) : ResponsesStream :=
  match t with ChatTranslator t => ct_responses t | AnthropicTranslator t => at_responses t end.

Definition translator_created (t : Translator) : Value := created (translator_stream t).
Definition translator_response_id (t : Translator) : string := rs_response_id (translator_stream t).

Section streaming.
Context `{JsonCodec, PatchParser, UuidSource}.

Definition translator_push (event : Value) (t : Translator) : result TranslationError (list Value * Translator) :=
  match t with
  | ChatTranslator t => r ← chat_push event t; Ok (r.1, ChatTranslator r.2)
  | AnthropicTranslator t => r ← anthropic_push event t; Ok (r.1, AnthropicTranslator r.2)
  end.

Definition translator_finish (saw_end_marker : bool) (t : Translator) : result TranslationError (list Value) :=
  match t with
  | ChatTranslator t => chat_finish saw_end_marker t
  | AnthropicTranslator t => anthropic_finish t
  end.

Definition send_failure (response_id message : string) (c : Channel) : Channel :=
  (channel_send sse_done (channel_send (sse_encode (failed_event response_id message)) c).2).2.

(** The events one after the other; [false] when the client is gone. *)
Fixpoint send_events (events : list Value) (c : Channel) : bool * Channel :=
  match events with
  | [] => (true, c)
  | event :: rest =>
      let '(ok, c') := channel_send (sse_encode event) c in
      if ok then send_events rest c' else (false, c')
  end.

Definition finish_stream (saw_end_marker : bool) (t : Translator) (c : Channel) : Channel :=
  match translator_finish saw_end_marker t with
  | Err error => send_failure (translator_response_id t) (translation_error_text error) c
  | Ok events =>
      let '(ok, c') := send_events events c in
      if ok then (channel_send sse_done c').2 else c'
  end.

(** The loop over what the provider sends. *)
Fixpoint stream_loop (upstream : list SseItem) (t : Translator) (c : Channel) : Channel :=
  match upstream with
  | [] => finish_stream false t c
  | SseError error :: _ => send_failure (translator_response_id t) error c
  | SseEvent data :: rest =>
      if decide (data = "[DONE]") then finish_stream true t c
      else
        match json_parse data with
        | Err error => send_failure (translator_response_id t) error c
        | Ok value =>
            match translator_push value t with
            | Err error => send_failure (translator_response_id t) (translation_error_text error) c
            | Ok (events, t') =>
                let '(ok, c') := send_events events c in
                if ok then stream_loop rest t' c' else c'
            end
        end
  end.

Definition stream_upstream (upstream : list SseItem) (t : Translator) (c : Channel) : Channel :=
  let '(ok, c') := channel_send (sse_encode (translator_created t)) c in
  if ok then stream_loop upstream t c' else c'.

(** ** Requests *)

Inductive HandlerError : Type :=
| BadRequest (message : string)
| Translation (error : TranslationError)
| Upstream (error : string).

Definition handler_error_response (e : HandlerError) : Z * Value :=
  let '(status, message) :=
    match e with
    | BadRequest message => (400, message)
    | Translation error => (400, translation_error_text error)
    | Upstream error => (502, error)
    end in
  (status, obj [("error", obj [("message", Str message)])]).

Fixpoint trim_end_slashes_rev (l : list ascii) : list ascii :=
  match l with
  | c :: r => if decide (c = "/"%char) then trim_end_slashes_rev r else l
  | [] => []
  end.

(** [str::trim_end_matches('/')]. *)
Definition trim_end_slashes (s : string) : string :=
  string_of_list_ascii (reverse (trim_end_slashes_rev (reverse (list_ascii_of_string s)))).

(** [str::strip_suffix]. *)
Definition strip_suffix (suffix s : string) : option string :=
  let n := (String.length s - String.length suffix)%nat in
  if decide (String.substring 0 n s +:+ suffix = s) then Some (String.substring 0 n s) else None.

Definition anthropic_messages_url (upstream_base_url : string) : string :=
  let base := trim_end_slashes upstream_base_url in
  default base (strip_suffix "/v1" base) +:+ "/v1/messages".

Record UpstreamRequest : Type := mkUpstreamRequest {
  ur_url : string;
  ur_headers : list (string * string);
  ur_body : Value;
}.

(** What the provider answers: no response, a response that is refused, with its
    body or the error of reading it, or a stream. *)
Inductive UpstreamResponse : Type :=
| NoResponse (error : string)
| Refused (status : Z) (content_type : option string) (body : result string string)
| Streaming (items : list SseItem).

Inductive BridgeResponse : Type :=
| JsonResponse (status : Z) (body : Value)
| RawResponse (status : Z) (content_type : option string) (body : string)
| EventStream (channel : Channel).

Definition as_bool (v : Value) : option bool := match v with Bool b => Some b | _ => None end.

(** The translated request and the translator of its answer. *)
Definition translate_request (config : AdapterConfig) (drawn : nat) (request : Value) :
    result HandlerError (UpstreamRequest * Translator) :=
  if negb (bool_decide (value_get "stream" request ≫= as_bool = Some true)) then
    Err (BadRequest "Factory provider adapters require stream=true")
  else
    let requested_model := default EmptyString (get_str "model" request) in
    if negb (bool_decide (requested_model = ac_model config)) then
      Err (BadRequest ("adapter is configured for model " +:+ ac_model config +:+ ", not " +:+ requested_model))
    else
      match pp_adapter_kind (ac_profile config) with
      | ChatCompletions =>
          match prepare_chat_request request config with
          | Err e => Err (Translation e)
          | Ok prepared =>
              Ok (mkUpstreamRequest (ac_upstream_base_url config +:+ "/chat/completions")
                    [("authorization", "Bearer " +:+ ac_api_key config)] (pr_body prepared),
                  ChatTranslator (new_chat drawn (ac_model config) (pr_tools prepared)))
          end
      | AnthropicMessages =>
          match prepare_anthropic_request request config with
          | Err e => Err (Translation e)
          | Ok prepared =>
              Ok (mkUpstreamRequest (anthropic_messages_url (ac_upstream_base_url config))
                    [("x-api-key", ac_api_key config); ("anthropic-version", "2023-06-01")] (pr_body prepared),
                  AnthropicTranslator (new_anthropic drawn (ac_model config) (pr_tools prepared)))
          end
      | DirectResponses => Err (BadRequest "direct Responses providers must bypass this adapter")
      end.

(** [responses] around [forward_responses]: the provider answers the request,
    the client takes as many frames as [room]. *)
Definition responses (config : AdapterConfig) (provider : UpstreamRequest → UpstreamResponse) (room : option nat)
    (drawn : nat) (request : Value) : BridgeResponse :=
  let fail e := let '(status, body) := handler_error_response e in JsonResponse status body in
  match translate_request config drawn request with
  | Err e => fail e
  | Ok (upstream_request, translator) =>
      match provider upstream_request with
      | NoResponse error => fail (Upstream error)
      | Refused _ _ (Err error) => fail (Upstream error)
      | Refused status content_type (Ok body) => RawResponse status content_type body
      | Streaming items => EventStream (stream_upstream items translator (open_channel room))
      end
  end.
End streaming.

(** ** Configuration *)

Inductive ConfigError : Type :=
| UnknownProvider (id : string)
| DirectProvider (id : string)
| MissingApiKey (name : string)
| InvalidEnv (name : string)
| InvalidConfig (message : string).

(** Decimal digits, after an optional [+]: [u16::from_str] and [u32::from_str]. *)
Fixpoint digits_value (acc : Z) (l : list ascii) : option Z :=
  match l with
  | [] => Some acc
  | c :: r => if ascii_digit c then digits_value (acc * 10 + (Z.of_nat (nat_of_ascii c) - 48)) r else None
  end.

Definition parse_unsigned (bits : Z) (s : string) : option Z :=
  let digits := match list_ascii_of_string s with c :: r => if decide (c = "+"%char) then r else c :: r | [] => [] end in
  match digits with
  | [] => None
  | _ => n ← digits_value 0 digits; if n <? 2 ^ bits then Some n else None
  end.

Section configuration.
(** The environment, and the directory [software-factory/provider] below
    [std::env::temp_dir]. *)
Context (env : string → option string) (default_state_dir : string).

Definition env_parse (name : string) (bits dflt : Z) : result ConfigError Z :=
  match env name with
  | Some value => ok_or (parse_unsigned bits value) (InvalidEnv name)
  | None => Ok dflt
  end.

Definition advertised_host (bind_host : string) : string :=
  if decide (bind_host ∈ ["0.0.0.0"; "::"]) then "127.0.0.1" else bind_host.

Definition first_base_url (profile : ProviderProfile) : string :=
  match pp_base_urls profile with b :: _ => bu_url b | [] => EmptyString end.

Definition from_env : result ConfigError AdapterConfig :=
  let configured_id := default "zai" (env "FACTORY_PROVIDER_UPSTREAM_ID") in
  profile ← ok_or (provider_profile configured_id) (UnknownProvider configured_id);
  if decide (pp_adapter_kind profile = DirectResponses) then Err (DirectProvider (pp_id profile))
  else
    let bind_host := default "127.0.0.1" (env "FACTORY_PROVIDER_BIND_HOST") in
    port ← env_parse "FACTORY_PROVIDER_PORT" 16 10101;
    let advertised_base_url := default ("http://" +:+ advertised_host bind_host +:+ ":" +:+ pretty port +:+ "/v1")
                                 (env "FACTORY_PROVIDER_ADVERTISED_URL") in
    let model := default (pp_default_model profile) (env "FACTORY_PROVIDER_UPSTREAM_MODEL") in
    if is_blank model then Err (InvalidConfig "model must not be empty")
    else
      let upstream_base_url := trim_end_slashes (default (first_base_url profile) (env "FACTORY_PROVIDER_UPSTREAM_BASE_URL")) in
      let api_key_env := default (pp_api_key_env profile) (env "FACTORY_PROVIDER_UPSTREAM_API_KEY_ENV") in
      api_key ← ok_or (env api_key_env) (MissingApiKey api_key_env);
      let state_dir := default default_state_dir (env "FACTORY_PROVIDER_STATE_DIR") in
      max_tokens ← env_parse "FACTORY_PROVIDER_MAX_TOKENS" 32 65536;
      Ok (mkAdapterConfig bind_host port advertised_base_url profile model upstream_base_url api_key_env api_key
            state_dir max_tokens).
End configuration.

(** ** The model catalog *)

(** The fields of the catalog's one model that depend on the profile or the
    model; the others are constants. *)
Record ModelInfo : Type := mkModelInfo {
  mi_slug : string;
  mi_display_name : string;
  mi_description : string;
  mi_default_reasoning_level : option string;
  mi_supported_reasoning_levels : list string;
  mi_supports_reasoning_summary_parameter : bool;
  mi_default_reasoning_summary : string;
  mi_context_window : Z;
  mi_max_context_window : Z;
}.

Definition REASONING_EFFORTS : list string := ["low"; "medium"; "high"; "xhigh"; "max"].

Definition model_catalog (profile : ProviderProfile) (model : string) : ModelInfo :=
  let anthropic := bool_decide (pp_id profile = "anthropic") in
  let capabilities := if anthropic then anthropic_model_capabilities model else None in
  let supports_effort := negb anthropic || is_some_and (λ c, supports_any (mc_effort c)) capabilities in
  let supports_reasoning_summary := negb anthropic || is_some_and supports_thinking_display capabilities in
  let levels := if supports_effort then
                  filter (λ effort, negb anthropic || is_some_and (λ c, effort_supports (mc_effort c) effort) capabilities = true)
                    REASONING_EFFORTS
                else [] in
  let context_window := match capabilities with Some c => mc_context_window c | None => pp_context_window profile end in
  mkModelInfo model model (pp_label profile +:+ " through the Factory transport adapter.")
    (if supports_effort then Some "medium" else None) levels supports_reasoning_summary
    (if supports_reasoning_summary then "auto" else "none") context_window context_window.

(** ** The selection handed to Codex *)

Definition CODEX_PROVIDER_ID : string := "factory-provider".
Definition GENERATED_MODEL_CATALOG_PATH : string := "/var/lib/software-factory/provider/codex-models.json".

Record CodexProviderSelection : Type := mkSelection {
  cs_model : string;
  cs_model_provider : string;
  cs_model_catalog_json : option string;
  cs_config : list (string * Value);
}.

Definition selection_provider (profile : ProviderProfile) (base_url : string) : Value :=
  insert_if (bool_decide (pp_adapter_kind profile = DirectResponses)) "env_key" (Str (pp_api_key_env profile))
    (obj [("name", Str (pp_label profile)); ("base_url", Str base_url); ("wire_api", Str "responses");
          ("requires_openai_auth", Bool false); ("supports_websockets", Bool false)]).

(** [CodexProviderSelection::for_profile]; an empty path counts as none. *)
Definition for_profile (profile : ProviderProfile) (base_url model : string) (catalog : option string) : CodexProviderSelection :=
  let catalog := match nonempty catalog with
                 | Some path => Some path
                 | None => if decide (pp_adapter_kind profile = DirectResponses) then None else Some GENERATED_MODEL_CATALOG_PATH
                 end in
  let provider := ("model_providers." +:+ CODEX_PROVIDER_ID, selection_provider profile (trim_end_slashes base_url)) in
  mkSelection model CODEX_PROVIDER_ID catalog
    (match catalog with Some path => assoc_set "model_catalog_json" (Str path) [provider] | None => [provider] end).

Definition thread_start_fields (s : CodexProviderSelection) : Value := obj
  [("model", Str (cs_model s)); ("modelProvider", Str (cs_model_provider s)); ("config", Object (cs_config s))].

(** [ProviderAdapter::bind]: a port of 0 is replaced by the one the listener got. *)
Definition bind (config : AdapterConfig) (bound_port : Z) (catalog_path : string) : AdapterConfig * CodexProviderSelection :=
  let config := if ac_port config =? 0 then
                  mkAdapterConfig (ac_bind_host config) bound_port ("http://127.0.0.1:" +:+ pretty bound_port +:+ "/v1")
                    (ac_profile config) (ac_model config) (ac_upstream_base_url config) (ac_api_key_env config)
                    (ac_api_key config) (ac_state_dir config) (ac_max_tokens config)
                else config in
  (config, for_profile (ac_profile config) (ac_advertised_base_url config) (ac_model config) (Some catalog_path)).

(** ** A bridge at work

    A concrete codec, patch parser and source of identifiers, a request with
    tools whose names collide, and a provider that answers it; the theorems about
    the bridge are applied to them. *)

(** JSON text without escapes. *)
Definition quoted (s : string) : string := QUOTE +:+ s +:+ QUOTE.

Fixpoint commas (l : list string) : string :=
  match l with [] => EmptyString | [s] => s | s :: r => s +:+ "," +:+ commas r end.

Fixpoint show (v : Value) : string :=
  match v with
  | Null => "null"
  | Bool b => if b then "true" else "false"
  | Num (PosInt n | NegInt n) => pretty n
  | Num (Float repr) => repr
  | Str s => quoted s
  | Array l => "[" +:+ commas (List.map show l) +:+ "]"
  | Object f => "{" +:+ commas (List.map (λ kv, quoted kv.1 +:+ ":" +:+ show kv.2) f) +:+ "}"
  end.

Definition fn_tool (name : string) : Value := obj [("type", Str "function"); ("name", Str name); ("description", Str "d")].

(** Two tools of one name in two namespaces, a name that providers do not
    accept, one that another tool's cleaned name collides with, and a custom tool. *)
Definition demo_tools : list Value :=
  [obj [("type", Str "namespace"); ("name", Str "fs"); ("tools", Array [fn_tool "read"; fn_tool "write"])];
   obj [("type", Str "namespace"); ("name", Str "net"); ("tools", Array [fn_tool "read"])];
   fn_tool "list files"; fn_tool "list_files"; obj [("type", Str "web_search")];
   obj [("type", Str "custom"); ("name", Str "apply_patch"); ("description", Str "edit")]].

Definition demo_state : ProviderState := Anthropic [Str "t1"; Str "t2"].

(** The table of texts the demo reads. *)
Definition chunk (delta : list (string * Value)) (finish_reason : Value) : Value := obj
  [("choices", Array [obj [("delta", obj delta); ("finish_reason", finish_reason)]])].

Definition call_chunk (index : Z) (fields : list (string * Value)) (function : list (string * Value)) : Value :=
  chunk [("tool_calls", Array [obj (("index", unsigned index) :: fields ++ [("function", obj function)])])] Null.

Definition patch_arguments : Value := obj [("patch", Str "*** Begin Patch")].

Definition demo_chunks : list Value :=
  [chunk [("reasoning_content", Str "think ")] Null;
   call_chunk 1 [("id", Str "c1")] [("name", Str "list_")];
   chunk [("reasoning_content", Str "more"); ("content", Str "Hel")] Null;
   call_chunk 0 [("id", Str "c0")] [("name", Str "fs__read"); ("arguments", Str "{")];
   call_chunk 1 [] [("name", Str "files"); ("arguments", Str "{}")];
   call_chunk 0 [] [("arguments", Str "}")];
   call_chunk 2 [("id", Str "c2")] [("name", Str "apply_patch"); ("arguments", Str (show patch_arguments))];
   chunk [("content", Str "lo")] (Str "tool_calls")].

Definition demo_values : list Value := patch_arguments :: ser demo_state :: demo_chunks.

#[export] Instance demo_codec : JsonCodec := {|
  json_text := show;
  json_parse text := match filter (λ v, show v = text) demo_values with v :: _ => Ok v | [] => Err "expected value" end;
|}.

#[export] Instance demo_patches : PatchParser := {| parse_patch p := Ok (1%nat, p) |}.

#[export] Instance demo_uuids : UuidSource := {| new_v4 := pretty |}.

#[export] Instance demo_uuids_inj : Inj (=) (=) (@new_v4 demo_uuids).
Proof. intros i j. apply (inj pretty). Qed.

Definition demo_profile (id : string) : ProviderProfile :=
  default (mkProviderProfile "" "" DirectResponses "" "" [] [] 0) (provider_profile id).

Definition demo_config : AdapterConfig := mkAdapterConfig "127.0.0.1" 10101 "http://127.0.0.1:10101/v1" (demo_profile "zai")
  "glm-5.2" "https://api.z.ai/api/paas/v4" "ZAI_API_KEY" "secret" "/tmp" 65536.

Definition demo_input : list Value :=
  [obj [("type", Str "message"); ("role", Str "developer"); ("content", Str "Be brief.")];
   obj [("type", Str "message"); ("role", Str "user"); ("content", Str "Hi")];
   obj [("type", Str "function_call"); ("name", Str "read"); ("namespace", Str "net"); ("call_id", Str "h1"); ("arguments", Str "{}")];
   obj [("type", Str "function_call_output"); ("call_id", Str "h1"); ("output", Str "ok")]].

Definition demo_request : Value := obj
  [("model", Str "glm-5.2"); ("stream", Bool true); ("tools", Array demo_tools); ("input", Array demo_input);
   ("instructions", Str "You are a tool.")].

Definition demo_provider (r : UpstreamRequest) : UpstreamResponse :=
  if decide (ur_url r = "https://api.z.ai/api/paas/v4/chat/completions") then
    Streaming ((SseEvent ∘ show <$> demo_chunks) ++ [SseEvent "[DONE]"])
  else NoResponse "no route".

Definition demo_catalog : ToolCatalog := match from_request demo_request with Ok c => c | Err _ => [] end.

Definition demo_bindings : list ToolBinding := match request_bindings demo_request with Ok l => l | Err _ => [] end.

(** The names the provider sees. *)
Example demo_wire_names :
  tb_wire_name <$> (demo_catalog : list ToolBinding) = ["fs__read"; "fs__write"; "net__read"; "factory_tool_0"; "list_files"; "apply_patch"].
Proof. vm_compute. reflexivity. Qed.

(** The answer as the client reads it: the items, in the order of their announcement. *)
Definition demo_translator : Translator :=
  ChatTranslator (new_chat 0 "glm-5.2" demo_catalog).

Definition demo_answer : Channel := stream_upstream ((SseEvent ∘ show <$> demo_chunks) ++ [SseEvent "[DONE]"]) demo_translator (open_channel None).

Example demo_answer_frames : length (ch_sent demo_answer) = 21%nat.
Proof. vm_compute. reflexivity. Qed.

Example demo_translation :
  match translate_request demo_config 0 demo_request with Ok (_, t) => t = demo_translator | Err _ => False end.
Proof. vm_compute. reflexivity. Qed.
