(* ===== verification/ProviderToolsLaws.v ===== *)
(** * Facts about the tools of the provider bridge

    Every tool of a request is offered under a name that providers accept, that
    no other tool answers to, and that leads back to it. *)

From S2P Require Import Prelude Serde ProviderTools ResponseStream ChatBridge AnthropicBridge BridgeServer.
From Stdlib Require Import ZArith NArith Ascii String.
From stdpp Require Import base gmap strings option list pretty.

#[local] Open Scope string_scope.
#[local] Open Scope Z_scope.
#[local] Open Scope list_scope.

(** ** Characters *)

Fixpoint all_chars (p : ascii → bool) (s : string) : bool :=
  match s with EmptyString => true | String c r => p c && all_chars p r end.

Lemma all_chars_app p s t : all_chars p (s +:+ t) = all_chars p s && all_chars p t.
Proof.
  induction s as [|c s IH]; [done|]. change (String c s +:+ t) with (String c (s +:+ t)). cbn [all_chars].
  by rewrite IH, andb_assoc.
Qed.

Lemma length_string_app s t : String.length (s +:+ t) = (String.length s + String.length t)%nat.
Proof.
  induction s as [|c s IH]; [done|]. change (String c s +:+ t) with (String c (s +:+ t)). cbn [String.length].
  by rewrite IH.
Qed.

Lemma sanitize_chars s : all_chars wire_char (sanitize s) = true.
Proof.
  induction s as [|c s IH]; cbn; [done|]. destruct (continuation_byte c); [done|]. cbn. rewrite IH, andb_true_r.
  by destruct (wire_char c) eqn:E.
Qed.

Lemma pretty_N_go_chars x s :
  all_chars wire_char s = true → all_chars wire_char (pretty_N_go x s) = true.
Proof.
  revert s. induction (N.lt_wf_0 x) as [x _ IH]; intros s Hs.
  destruct (decide (0 < x)%N) as [Hx|Hx]; [|replace x with 0%N by lia; by rewrite pretty_N_go_0].
  rewrite pretty_N_go_step by done. apply IH; [by apply N.div_lt|]. cbn. rewrite Hs, andb_true_r.
  unfold pretty_N_char. by repeat case_match.
Qed.

Lemma pretty_N_go_length k x s :
  (x < 10 ^ k)%N → (String.length (pretty_N_go x s) ≤ N.to_nat k + String.length s)%nat.
Proof.
  revert x s. induction k as [|k IH] using N.peano_ind; intros x s Hx.
  - replace x with 0%N by (change (10 ^ 0)%N with 1%N in Hx; lia). rewrite pretty_N_go_0. lia.
  - destruct (decide (0 < x)%N) as [H0|H0]; [|replace x with 0%N by lia; rewrite pretty_N_go_0; lia].
    rewrite pretty_N_go_step by done. etrans; [apply IH|simpl; lia].
    rewrite N.pow_succ_r' in Hx. by apply N.Div0.div_lt_upper_bound.
Qed.

Lemma synthetic_chars i : all_chars wire_char (synthetic i) = true.
Proof.
  unfold synthetic. rewrite all_chars_app. cbn [all_chars]. unfold pretty, pretty_nat, pretty, pretty_N.
  case_decide; [done|]. by apply pretty_N_go_chars.
Qed.

Lemma synthetic_length i : Z.of_nat i < 10 ^ 51 → (String.length (synthetic i) ≤ 64)%nat.
Proof.
  intros Hi. unfold synthetic. rewrite length_string_app. cbn [String.length Nat.add].
  unfold pretty, pretty_nat, pretty, pretty_N. case_decide; [cbn; lia|].
  pose proof (pretty_N_go_length 51 (N.of_nat i) EmptyString) as Hl. cbn [String.length] in Hl. rewrite Nat.add_0_r in Hl.
  change (N.to_nat 51) with 51%nat in Hl. assert (N.of_nat i < 10 ^ 51)%N by lia. specialize (Hl ltac:(done)). lia.
Qed.

#[export] Instance synthetic_inj : Inj (=) (=) synthetic.
Proof. intros i j E. unfold synthetic in E. apply (inj _) in E. by apply (inj pretty) in E. Qed.

(** ** The search for a free name *)

Lemma find_synthetic_Some free fuel next i :
  find_synthetic free fuel next = Some i → free (synthetic i) = true ∧ (next ≤ i < next + fuel)%nat.
Proof.
  revert next. induction fuel as [|n IH]; intros next; cbn [find_synthetic]; [done|].
  destruct (free (synthetic next)) eqn:Ef; [intros [= <-]; split; [done|lia]|].
  intros [Hf Hi]%IH. split; [done|lia].
Qed.

Lemma find_synthetic_None free fuel next :
  find_synthetic free fuel next = None → ∀ i, i ∈ seq next fuel → free (synthetic i) = false.
Proof.
  revert next. induction fuel as [|n IH]; intros next; cbn [find_synthetic seq]; [intros _ i Hi; by apply not_elem_of_nil in Hi|].
  destruct (free (synthetic next)) eqn:Ef; [done|]. intros Hn i [->|Hi]%elem_of_cons; [done|]. by apply (IH (S next)).
Qed.

(** More names are tried than are taken. *)
Lemma find_synthetic_finds free (taken : list string) fuel next :
  (∀ name, free name = false → name ∈ taken) → (length taken < fuel)%nat →
  is_Some (find_synthetic free fuel next).
Proof.
  intros Htaken Hfuel. destruct (find_synthetic free fuel next) eqn:E; [done|]. exfalso.
  assert (synthetic <$> seq next fuel ⊆+ taken) as Hs%submseteq_length.
  { apply NoDup_submseteq; [apply NoDup_fmap_2; [apply _|apply NoDup_seq]|].
    intros name (i & -> & Hi)%list_elem_of_fmap. apply Htaken. by eapply find_synthetic_None. }
  rewrite length_fmap, length_seq in Hs. lia.
Qed.

Lemma owner_named bindings name : owners bindings name ≠ [] → name ∈ ((kind_name ∘ tb_kind) <$> bindings).
Proof.
  intros Hn. destruct (owners bindings name) as [|i r] eqn:E; [done|].
  assert (i ∈ owners bindings name) as Hi by (rewrite E; set_solver). unfold owners in Hi.
  apply list_elem_of_filter in Hi as [Hk _].
  destruct (bindings !! i) as [b|] eqn:Eb; [|done]. cbn in Hk. simplify_eq.
  apply list_elem_of_fmap. exists b. split; [done|]. by eapply list_elem_of_lookup_2.
Qed.

Lemma owned bindings j b : bindings !! j = Some b → j ∈ owners bindings (kind_name (tb_kind b)).
Proof.
  intros Hb. unfold owners. apply list_elem_of_filter. rewrite Hb. split; [done|]. apply elem_of_seq.
  apply lookup_lt_Some in Hb. lia.
Qed.

(** A name without conflict is the own name of no other tool. *)
Lemma no_conflict bindings index name j b :
  conflicts_with_alias bindings index name = false → bindings !! j = Some b → kind_name (tb_kind b) = name → j = index.
Proof.
  intros Hc Hb <-. apply owned in Hb. unfold conflicts_with_alias in Hc.
  destruct (owners bindings _) as [|i [|]]; [by apply not_elem_of_nil in Hb| |done].
  apply list_elem_of_singleton in Hb as ->. apply negb_false_iff, bool_decide_eq_true in Hc. done.
Qed.

(** ** The names assigned *)

(** A name providers accept. *)
Definition acceptable (name : string) : Prop :=
  all_chars wire_char name = true ∧ (1 ≤ String.length name ≤ 64)%nat.

Definition fit (bindings : list ToolBinding) (used : list string) (index : nat) (name : string) : Prop :=
  acceptable name ∧ (name ∉ used) ∧ conflicts_with_alias bindings index name = false.

Lemma acceptable_synthetic i : Z.of_nat i < 10 ^ 51 → acceptable (synthetic i).
Proof.
  intros Hi. split; [apply synthetic_chars|]. split; [|by apply synthetic_length].
  unfold synthetic. rewrite length_string_app. cbn [String.length Nat.add]. lia.
Qed.

Lemma choose_wire_name_fit bindings used next index b :
  (length used ≤ length bindings)%nat → Z.of_nat (next + S (2 * length bindings)) < 10 ^ 51 →
  ∃ name next', choose_wire_name bindings used next index b = Some (name, next') ∧ fit bindings used index name
    ∧ (next' ≤ next + S (2 * length bindings))%nat.
Proof.
  intros Hu Hnext. unfold choose_wire_name. set (w := sanitized_wire_name _ _).
  destruct (bool_decide (w = EmptyString) || _ || _ || _) eqn:E.
  - destruct (find_synthetic_finds
      (λ candidate, negb (bool_decide (candidate ∈ used)) && negb (conflicts_with_alias bindings index candidate))
      (used ++ ((kind_name ∘ tb_kind) <$> bindings)) (S (2 * length bindings)) next) as [i Hi].
    { intros name [Hf|Hf]%andb_false_iff; apply negb_false_iff in Hf.
      - apply bool_decide_eq_true in Hf. set_solver.
      - apply elem_of_app. right. apply owner_named. unfold conflicts_with_alias in Hf. by destruct (owners _ _). }
    { rewrite length_app, length_fmap. lia. }
    rewrite Hi. cbn [mbind option_bind]. apply find_synthetic_Some in Hi as [[Hf1 Hf2]%andb_true_iff Hi].
    exists (synthetic i), (S i). repeat split; [apply synthetic_chars| | | | |lia].
    + apply acceptable_synthetic. lia.
    + apply acceptable_synthetic. lia.
    + by apply negb_true_iff, bool_decide_eq_false in Hf1.
    + by apply negb_true_iff in Hf2.
  - apply orb_false_iff in E as [[[E1 E2]%orb_false_iff E3]%orb_false_iff E4].
    apply bool_decide_eq_false in E1, E3. apply Nat.ltb_ge in E2.
    exists w, next. repeat split; [apply sanitize_chars| |done|done|done|lia].
    destruct w; [done|cbn; lia].
Qed.

Lemma assign_from_fit bindings rest used next index :
  (length used + length rest ≤ length bindings)%nat →
  Z.of_nat (next + length rest * S (2 * length bindings)) < 10 ^ 51 →
  ∃ assigned, assign_from bindings used next index rest = Some assigned
    ∧ length assigned = length rest
    ∧ NoDup (tb_wire_name <$> assigned)
    ∧ ∀ k b, assigned !! k = Some b →
        fit bindings used (index + k) (tb_wire_name b)
        ∧ ∃ b0, rest !! k = Some b0 ∧ b = with_wire_name (tb_wire_name b) b0.
Proof.
  revert used next index. induction rest as [|b rest IH]; intros used next index Hu Hn.
  { exists []. repeat split; [constructor|..]; done. }
  cbn [length] in Hu, Hn. cbn [assign_from].
  destruct (choose_wire_name_fit bindings used next index b) as (name & next' & -> & Hfit & Hnext); [lia|lia|].
  cbn [mbind option_bind fst snd].
  destruct (IH (name :: used) next' (S index)) as (assigned & -> & Hlen & Hnd & Hall); [cbn; lia|lia|].
  cbn [mbind option_bind]. eexists. split; [done|]. split; [cbn; lia|]. split.
  - cbn. constructor; [|done]. intros (b' & Heq & [k Hk]%list_elem_of_lookup)%list_elem_of_fmap.
    destruct (Hall _ _ Hk) as [(_ & Hf & _) _]. rewrite <- Heq in Hf. set_solver.
  - intros [|k] b' Hk; cbn in Hk; [simplify_eq; rewrite Nat.add_0_r; split; [done|by exists b]|].
    destruct (Hall _ _ Hk) as [(Ha & Hf & Hc) Hb]. rewrite Nat.add_succ_r.
    split; [|exact Hb]. split; [done|]. split; [set_solver|done].
Qed.

(** ** What a name leads to *)

Lemma filter_singleton {A : Type} (P : A → Prop) `{∀ x, Decision (P x)} (l : list A) i x :
  l !! i = Some x → P x → (∀ j y, l !! j = Some y → P y → j = i) → filter P l = [x].
Proof.
  revert i. induction l as [|y l IH]; intros i Hi Hx Hu; [done|]. destruct i as [|i]; cbn in Hi.
  - simplify_eq. rewrite filter_cons_True by done. f_equal.
    destruct (filter P l) as [|z r] eqn:E; [done|]. exfalso.
    assert (z ∈ filter P l) as [Hz [j Hj]%list_elem_of_lookup]%list_elem_of_filter by (rewrite E; set_solver).
    by specialize (Hu (S j) z Hj Hz).
  - rewrite filter_cons_False by (intros Hy; by specialize (Hu O y eq_refl Hy)).
    apply (IH i); [done..|]. intros j z Hj Hz. specialize (Hu (S j) z Hj Hz). lia.
Qed.

(** The catalog holds the tools of the request, each with a fit name. *)
Definition named_catalog (bindings c : list ToolBinding) : Prop :=
  length c = length bindings ∧ NoDup (tb_wire_name <$> c)
  ∧ ∀ k b, c !! k = Some b →
      fit bindings [] k (tb_wire_name b) ∧ ∃ b0, bindings !! k = Some b0 ∧ b = with_wire_name (tb_wire_name b) b0.

Lemma assign_wire_names_named bindings :
  Z.of_nat (length bindings) < 2 ^ 32 → ∃ c, assign_wire_names bindings = Some c ∧ named_catalog bindings c.
Proof.
  intros Hlen. destruct (assign_from_fit bindings bindings [] 0 0) as (c & Hc & Hl & Hnd & Hall); [cbn; lia|nia|].
  by exists c.
Qed.

Section resolution.
Context (bindings c : list ToolBinding) (Hnamed : named_catalog bindings c).

Lemma named_kind k b : c !! k = Some b → ∃ b0, bindings !! k = Some b0 ∧ tb_kind b0 = tb_kind b.
Proof. intros Hb. apply Hnamed in Hb as (_ & b0 & Hb0 & ->). by exists b0. Qed.

Lemma wire_name_unique i j b b' :
  c !! i = Some b → c !! j = Some b' → tb_wire_name b = tb_wire_name b' → i = j.
Proof.
  intros Hi Hj E. destruct Hnamed as (_ & Hnd & _). apply (NoDup_lookup _ i j (tb_wire_name b) Hnd).
  - by rewrite list_lookup_fmap, Hi.
  - by rewrite list_lookup_fmap, Hj, E.
Qed.

(** No tool is offered under the own name of another. *)
Lemma alias_unique i j b b' :
  c !! i = Some b → c !! j = Some b' → kind_name (tb_kind b') = tb_wire_name b → j = i.
Proof.
  intros Hi Hj E. destruct (named_kind _ _ Hj) as (b0 & Hb0 & Hk). apply Hnamed in Hi as ((_ & _ & Hc) & _).
  eapply no_conflict; [exact Hc|exact Hb0|]. by rewrite Hk.
Qed.

Lemma by_wire_name_own b : b ∈ c → by_wire_name c (tb_wire_name b) = Some b.
Proof.
  intros [i Hi]%list_elem_of_lookup. unfold by_wire_name.
  rewrite (filter_singleton _ c i b Hi); [done|by left|].
  intros j y Hj [E|E]; [by eapply wire_name_unique|by eapply alias_unique].
Qed.

Lemma by_wire_name_alias b :
  b ∈ c → (∀ b', b' ∈ c → kind_name (tb_kind b') = kind_name (tb_kind b) → b' = b) →
  by_wire_name c (kind_name (tb_kind b)) = Some b.
Proof.
  intros [i Hi]%list_elem_of_lookup Hu. unfold by_wire_name.
  rewrite (filter_singleton _ c i b Hi); [done|by right|].
  intros j y Hj [E|E]; [symmetry; by eapply alias_unique|].
  apply Hu in E as ->; [|by eapply list_elem_of_lookup_2]. by eapply wire_name_unique.
Qed.

Lemma wire_name_own b :
  b ∈ c → (∀ b', b' ∈ c → kind_name (tb_kind b') = kind_name (tb_kind b) →
                 kind_namespace (tb_kind b') = kind_namespace (tb_kind b) → b' = b) →
  wire_name c (kind_namespace (tb_kind b)) (kind_name (tb_kind b)) = Some (tb_wire_name b).
Proof.
  intros [i Hi]%list_elem_of_lookup Hu. unfold wire_name. rewrite (filter_singleton _ c i b Hi); [done|done|].
  intros j y Hj [E1 E2]. apply Hu in E1 as ->; [|by eapply list_elem_of_lookup_2|done]. by eapply wire_name_unique.
Qed.
End resolution.

(** Whatever tools a request carries, each is offered to the provider
    under a name of 1 to 64 letters, digits, underscores and hyphens; no two
    share one; a call by that name leads back to exactly that tool, and so
    does a call by the tool's own name when no other tool has it; a call
    recorded in the history is replayed under the name its tool has now. *)
Theorem wire_names_resolve request bindings :
  request_bindings request = Ok bindings → Z.of_nat (length bindings) < 2 ^ 32 →
  ∃ c, from_request request = Ok c
    ∧ (∃ names, c = zip_with with_wire_name names bindings ∧ length names = length bindings ∧ NoDup names)
    ∧ ∀ b, b ∈ c →
        acceptable (tb_wire_name b)
        ∧ by_wire_name c (tb_wire_name b) = Some b
        ∧ ((∀ b', b' ∈ c → kind_name (tb_kind b') = kind_name (tb_kind b) → b' = b) →
           by_wire_name c (kind_name (tb_kind b)) = Some b)
        ∧ ((∀ b', b' ∈ c → kind_name (tb_kind b') = kind_name (tb_kind b) →
                           kind_namespace (tb_kind b') = kind_namespace (tb_kind b) → b' = b) →
           historical_wire_name c (kind_namespace (tb_kind b)) (kind_name (tb_kind b)) = tb_wire_name b).
Proof.
  intros Hb Hlen. destruct (assign_wire_names_named bindings Hlen) as (c & Hc & Hn). exists c.
  unfold from_request. rewrite Hb. cbn [mbind result_bind]. rewrite Hc. split; [done|]. split; [|intros b Hin].
  - exists (tb_wire_name <$> c). destruct Hn as (Hl & Hnd & Hall). rewrite length_fmap. split; [|done].
    apply list_eq. intros k. rewrite lookup_zip_with, list_lookup_fmap.
    destruct (c !! k) as [b|] eqn:E; [|done]. destruct (Hall _ _ E) as (_ & b0 & -> & Hb0). cbn. by f_equal.
  - split; [|split; [by eapply by_wire_name_own|split]].
    + apply list_elem_of_lookup in Hin as [k Hk]. by apply Hn in Hk as [[Ha _] _].
    + by eapply by_wire_name_alias.
    + intros Hu. unfold historical_wire_name. by erewrite wire_name_own.
Qed.

Lemma wire_names_resolve_witness :
  ∃ c, from_request demo_request = Ok c ∧ length c = 6%nat ∧ ∀ b, b ∈ c → by_wire_name c (tb_wire_name b) = Some b.
Proof.
  assert (request_bindings demo_request = Ok demo_bindings) as Hb by (vm_compute; reflexivity).
  destruct (wire_names_resolve demo_request demo_bindings Hb ltac:(vm_compute; reflexivity)) as (c & Hc & (names & -> & Hn & _) & Hall).
  eexists. split; [exact Hc|]. split; [|intros b Hin; apply (Hall b Hin)].
  rewrite length_zip_with, Hn. vm_compute. reflexivity.
Defined.
