(* ===== verification/StreamLaws.v ===== *)
(** * Facts about the response stream

    What the stream keeps is described by slots, one for each item it has or
    may announce; the client's view of the items agrees with the slots after
    every event, so every event is one the client accepts. *)

From S2P Require Import Prelude Serde ProviderTools ResponseStream.
From Stdlib Require Import ZArith Ascii String Sorted.
From stdpp Require Import base gmap strings option list.

#[local] Open Scope string_scope.
#[local] Open Scope Z_scope.
#[local] Open Scope list_scope.

(** ** Events as the client reads them *)

Inductive Event : Type :=
| Created (response_id : string)
| Added (index : Z) (id : string)
| PartAdded (index : Z) (id : string)
| Delta (index : Z) (id delta : string)
| TextDone (index : Z) (id text : string)
| ItemDone (index : Z) (id : string) (content : option string)
| Completed (response_id : string)
| Incomplete (response_id : string)
| Failed (response_id : string).

Definition get_num (k : string) (v : Value) : option Z := value_get k v ≫= as_u64.

(** The text of a completed item that was sent in pieces before. *)
Definition streamed_content (item : Value) : option string :=
  kind ← get_str "type" item;
  if decide (kind = "message") then Some (item_text item)
  else if decide (kind = "reasoning") then Some (join_lines (omap (get_str "text") (default [] (get_array "summary" item))))
  else if decide (kind = "custom_tool_call") then get_str "input" item
  else None.

Definition read_item_event (kind : string) (v : Value) : option Event :=
  index ← get_num "output_index" v;
  if decide (kind = "response.output_item.added") then Added index <$> (pointer2 "item" "id" v ≫= as_str)
  else if decide (kind = "response.output_item.done") then
    item ← value_get "item" v; id ← get_str "id" item; Some (ItemDone index id (streamed_content item))
  else
    id ← get_str "item_id" v;
    if decide (kind = "response.reasoning_summary_part.added") then Some (PartAdded index id)
    else if decide (kind ∈ ["response.reasoning_summary_text.delta"; "response.output_text.delta";
                            "response.custom_tool_call_input.delta"]) then Delta index id <$> get_str "delta" v
    else if decide (kind ∈ ["response.reasoning_summary_text.done"; "response.output_text.done"]) then
      TextDone index id <$> get_str "text" v
    else None.

Definition read_event (v : Value) : option Event :=
  kind ← get_str "type" v;
  let response_id := pointer2 "response" "id" v ≫= as_str in
  if decide (kind = "response.created") then Created <$> response_id
  else if decide (kind = "response.completed") then Completed <$> response_id
  else if decide (kind = "response.incomplete") then Incomplete <$> response_id
  else if decide (kind = "response.failed") then Failed <$> response_id
  else read_item_event kind v.

(** ** The client *)

Record Item : Type := mkItem {
  it_id : string;
  it_text : string;
  it_done : bool;
}.

Inductive Client : Type :=
| Waiting
| Receiving (response_id : string) (items : list Item)
| Ended (items : list Item).

Definition item_at (items : list Item) (index : Z) (id : string) : option Item :=
  it ← items !! Z.to_nat index;
  if decide (0 ≤ index ∧ it_id it = id ∧ it_done it = false) then Some it else None.

Definition put (items : list Item) (index : Z) (it : Item) : list Item := <[Z.to_nat index := it]> items.

Definition receive_item (e : Event) (items : list Item) : option (list Item) :=
  match e with
  | Added index id =>
      if decide (index = Z.of_nat (length items) ∧ id ∉ it_id <$> items) then Some (items ++ [mkItem id EmptyString false])
      else None
  | PartAdded index id => it ← item_at items index id; if decide (it_text it = EmptyString) then Some items else None
  | Delta index id delta => it ← item_at items index id; Some (put items index (mkItem id (it_text it +:+ delta) false))
  | TextDone index id text => it ← item_at items index id; if decide (it_text it = text) then Some items else None
  | ItemDone index id content =>
      it ← item_at items index id;
      if decide (default (it_text it) content = it_text it) then Some (put items index (mkItem id (it_text it) true)) else None
  | _ => None
  end.

Definition receive_event (e : Event) (c : Client) : option Client :=
  match c, e with
  | Waiting, Created id => Some (Receiving id [])
  | Receiving id items, (Completed id' | Incomplete id') =>
      if decide (id' = id ∧ Forall (λ it, it_done it = true) items) then Some (Ended items) else None
  | Receiving id items, Failed id' => if decide (id' = id) then Some (Ended items) else None
  | Receiving id items, e => Receiving id <$> receive_item e items
  | _, _ => None
  end.

Definition receive (v : Value) (c : Client) : option Client := e ← read_event v; receive_event e c.

Fixpoint receive_all (l : list Value) (c : Client) : option Client :=
  match l with
  | [] => Some c
  | v :: r => c' ← receive v c; receive_all r c'
  end.

Lemma receive_all_app l1 l2 c : receive_all (l1 ++ l2) c = receive_all l1 c ≫= receive_all l2.
Proof.
  revert c. induction l1 as [|v l1 IH]; intros c; [done|]. cbn. destruct (receive v c); [apply IH|done].
Qed.

(** ** Reading what is written *)

Section reading.
Implicit Types (index : Z) (id text delta : string).

Lemma read_created s : read_event (created s) = Some (Created (rs_response_id s)).
Proof. reflexivity. Qed.

Lemma read_reasoning_added index id : read_event (item_added index (reasoning_item id EmptyString None)) = Some (Added index id).
Proof. reflexivity. Qed.

Lemma read_reasoning_part index id : read_event (reasoning_part_added id index) = Some (PartAdded index id).
Proof. reflexivity. Qed.

Lemma read_reasoning_delta index id delta : read_event (reasoning_text_delta id index delta) = Some (Delta index id delta).
Proof. reflexivity. Qed.

Lemma read_reasoning_text index id text : read_event (reasoning_text_done id index text) = Some (TextDone index id text).
Proof. reflexivity. Qed.

Lemma read_reasoning_done index id text enc :
  read_event (item_done index (reasoning_item id text enc)) = Some (ItemDone index id (Some text)).
Proof. unfold reasoning_item. destruct (decide (text = EmptyString)) as [->|Hne]; reflexivity. Qed.

Lemma read_message_added index id : read_event (item_added index (message_started id)) = Some (Added index id).
Proof. reflexivity. Qed.

Lemma read_message_delta index id delta : read_event (output_text_delta id index delta) = Some (Delta index id delta).
Proof. reflexivity. Qed.

Lemma read_message_text index id text : read_event (output_text_done id index text) = Some (TextDone index id text).
Proof. reflexivity. Qed.

Lemma read_message_done index id text : read_event (item_done index (message_completed id text)) = Some (ItemDone index id (Some text)).
Proof. reflexivity. Qed.

Lemma read_tool_added index tool b : read_event (output_item_added index tool b) = Some (Added index (to_item_id tool)).
Proof. unfold output_item_added. by destruct (tb_kind b). Qed.

Lemma read_custom_delta index tool input :
  read_event (custom_input_delta tool index input) = Some (Delta index (to_item_id tool) input).
Proof. reflexivity. Qed.

(** A function call comes whole; the input of a custom tool was sent before. *)
Lemma read_tool_done index tool b input :
  read_event (item_done index (completed_tool_item tool b input))
  = Some (ItemDone index (to_item_id tool)
            match tb_kind b with Function _ _ => None | Custom _ _ => Some (default EmptyString input) end).
Proof. unfold completed_tool_item. by destruct (tb_kind b). Qed.

Lemma read_failed id message : read_event (failed_event id message) = Some (Failed id).
Proof. reflexivity. Qed.

Lemma read_incomplete id : read_event (incomplete_event id) = Some (Incomplete id).
Proof. reflexivity. Qed.

Lemma read_completed id model u : read_event (completed_event id model u) = Some (Completed id).
Proof. reflexivity. Qed.
End reading.

Create Rewrite HintDb events.
#[export] Hint Rewrite read_created read_reasoning_added read_reasoning_part read_reasoning_delta read_reasoning_text
  read_reasoning_done read_message_added read_message_delta read_message_text read_message_done read_tool_added
  read_custom_delta read_tool_done read_failed read_incomplete read_completed : events.

(** ** Slots *)

(** The position of an item once it is announced, its name and its text. *)
Record Slot : Type := mkSlot {
  sl_index : option Z;
  sl_id : string;
  sl_text : string;
}.

Definition slot_holds (items : list Item) (sl : Slot) : Prop :=
  match sl_index sl with
  | Some i => 0 ≤ i ∧ items !! Z.to_nat i = Some (mkItem (sl_id sl) (sl_text sl) false)
  | None => (sl_id sl ∉ it_id <$> items) ∧ sl_text sl = EmptyString
  end.

(** The items of the client agree with the slots. *)
Record Agree (slots : list Slot) (items : list Item) : Prop := {
  agree_slots : NoDup (sl_id <$> slots);
  agree_items : NoDup (it_id <$> items);
  agree_hold : ∀ sl, sl ∈ slots → slot_holds items sl;
  agree_open : ∀ it, it ∈ items → it_done it = false → it_id it ∈ sl_id <$> slots;
}.

#[export] Instance Agree_perm : Proper ((≡ₚ) ==> (=) ==> iff) Agree.
Proof.
  intros l1 l2 Hp items _ <-. split; intros [H1 H2 H3 H4]; split; try done.
  - by rewrite <- Hp.
  - intros sl. rewrite <- Hp. apply H3.
  - intros it Hit Hd. rewrite <- Hp. by apply H4.
  - by rewrite Hp.
  - intros sl. rewrite Hp. apply H3.
  - intros it Hit Hd. rewrite Hp. by apply H4.
Qed.

(** The id at a position of the items changes with the item only. *)
Lemma ids_put items i it it' :
  items !! Z.to_nat i = Some it → it_id it' = it_id it → it_id <$> put items i it' = it_id <$> items.
Proof.
  intros Hi Hid. unfold put. rewrite list_fmap_insert, Hid. apply list_insert_id. by rewrite list_lookup_fmap, Hi.
Qed.

Lemma item_at_held items i id text :
  slot_holds items (mkSlot (Some i) id text) → item_at items i id = Some (mkItem id text false).
Proof. intros [H0 Hi]. unfold item_at. cbn in Hi. rewrite Hi. cbn. by rewrite decide_True. Qed.

(** Another slot holds after the item of a slot was replaced. *)
Lemma slot_holds_put items i id it it' sl :
  items !! Z.to_nat i = Some it → it_id it = id → it_id it' = id → sl_id sl ≠ id →
  slot_holds items sl → slot_holds (put items i it') sl.
Proof.
  intros Hi Hid Hid' Hne. unfold slot_holds. rewrite (ids_put items i it it') by congruence.
  destruct (sl_index sl) as [j|]; [|done]. intros [H0 Hj]. split; [done|]. unfold put.
  rewrite list_lookup_insert_ne; [done|]. intros E. rewrite E in Hi. rewrite Hi in Hj. simplify_eq.
Qed.

Section slot_moves.
Context (rest : list Slot) (items : list Item).

Lemma agree_fresh id : id ∉ sl_id <$> rest → id ∉ it_id <$> items → Agree rest items → Agree (mkSlot None id EmptyString :: rest) items.
Proof.
  intros Hn1 Hn2 [H1 H2 H3 H4]. split; [by constructor|done| |].
  - intros sl [->|Hsl]%elem_of_cons; [done|by apply H3].
  - intros it Hit Hd. cbn. apply elem_of_cons. right. by apply H4.
Qed.

Lemma agree_drop id text : Agree (mkSlot None id text :: rest) items → Agree rest items.
Proof.
  intros [H1 H2 H3 H4]. split; [by apply NoDup_cons in H1 as [_ ?]|done| |].
  - intros sl Hsl. apply H3. set_solver.
  - intros it Hit Hd. specialize (H4 it Hit Hd). cbn in H4. apply elem_of_cons in H4 as [E|]; [|done].
    specialize (H3 (mkSlot None id text) ltac:(set_solver)) as [Hn _]. cbn in Hn. exfalso. apply Hn, list_elem_of_fmap.
    by exists it.
Qed.

Lemma agree_announce id text :
  Agree (mkSlot None id text :: rest) items →
  receive_item (Added (Z.of_nat (length items)) id) items = Some (items ++ [mkItem id EmptyString false])
  ∧ Agree (mkSlot (Some (Z.of_nat (length items))) id EmptyString :: rest) (items ++ [mkItem id EmptyString false]).
Proof.
  intros [H1 H2 H3 H4]. destruct (H3 (mkSlot None id text) ltac:(set_solver)) as [Hn _]. cbn in Hn.
  split; [cbn; by rewrite decide_True|]. apply NoDup_cons in H1 as [Hid H1]. split.
  - by constructor.
  - rewrite fmap_app. apply NoDup_app. split; [done|]. split; [|apply NoDup_singleton].
    intros x Hx Hx'. apply list_elem_of_singleton in Hx' as ->. done.
  - intros sl [->|Hsl]%elem_of_cons; unfold slot_holds; cbn.
    + split; [lia|]. rewrite Nat2Z.id, lookup_app_r, Nat.sub_diag by done. done.
    + specialize (H3 sl ltac:(set_solver)). unfold slot_holds in H3. destruct (sl_index sl) as [j|].
      * destruct H3 as [H0 Hj]. split; [done|]. by apply lookup_app_l_Some.
      * destruct H3 as [Hn' Ht]. split; [|done]. rewrite fmap_app. cbn. intros [|E%list_elem_of_singleton]%elem_of_app; [done|].
        apply Hid, list_elem_of_fmap. by exists sl.
  - intros it [Hit|Hit%list_elem_of_singleton]%elem_of_app Hd; cbn; apply elem_of_cons; [|left; by subst].
    specialize (H4 it Hit Hd). cbn in H4. by apply elem_of_cons in H4.
Qed.

Section held.
Context (i : Z) (id text : string) (Hagree : Agree (mkSlot (Some i) id text :: rest) items).

Lemma agree_held : slot_holds items (mkSlot (Some i) id text).
Proof. apply Hagree. set_solver. Qed.

Lemma agree_at : items !! Z.to_nat i = Some (mkItem id text false).
Proof. apply agree_held. Qed.

Lemma agree_others sl : sl ∈ rest → sl_id sl ≠ id.
Proof.
  intros Hsl E. destruct Hagree as [H1 _ _ _]. apply NoDup_cons in H1 as [Hid _]. apply Hid, list_elem_of_fmap. by exists sl.
Qed.

Lemma agree_delta delta :
  receive_item (Delta i id delta) items = Some (put items i (mkItem id (text +:+ delta) false))
  ∧ Agree (mkSlot (Some i) id (text +:+ delta) :: rest) (put items i (mkItem id (text +:+ delta) false)).
Proof.
  split; [cbn; by rewrite (item_at_held _ _ _ _ agree_held)|].
  pose proof agree_at as Hat. destruct Hagree as [H1 H2 H3 H4]. split; [done|by erewrite ids_put| |].
  - intros sl [->|Hsl]%elem_of_cons.
    + split; [apply agree_held|]. cbn. unfold put. rewrite list_lookup_insert_eq; [done|]. by eapply lookup_lt_Some.
    + eapply slot_holds_put; [done..|by apply agree_others|]. apply H3. set_solver.
  - intros it [j Hj]%list_elem_of_lookup Hd. assert (it_id it ∈ it_id <$> put items i (mkItem id (text +:+ delta) false)) as Hin.
    { apply list_elem_of_fmap. exists it. split; [done|]. by eapply list_elem_of_lookup_2. }
    unfold put in Hj. destruct (decide (Z.to_nat i = j)) as [<-|Hne].
    + rewrite list_lookup_insert_eq in Hj by (by eapply lookup_lt_Some). simplify_eq. cbn. set_solver.
    + rewrite list_lookup_insert_ne in Hj by done. apply H4 in Hd; [done|by eapply list_elem_of_lookup_2].
Qed.

Lemma agree_text : receive_item (TextDone i id text) items = Some items.
Proof. cbn. rewrite (item_at_held _ _ _ _ agree_held). cbn. by rewrite decide_True. Qed.

Lemma agree_done content :
  default text content = text →
  receive_item (ItemDone i id content) items = Some (put items i (mkItem id text true))
  ∧ Agree rest (put items i (mkItem id text true)).
Proof.
  intros Hc. split; [cbn; rewrite (item_at_held _ _ _ _ agree_held); cbn; by rewrite decide_True|].
  pose proof agree_at as Hat. destruct Hagree as [H1 H2 H3 H4].
  split; [by apply NoDup_cons in H1 as [_ ?]|by erewrite ids_put| |].
  - intros sl Hsl. eapply slot_holds_put; [done..|by apply agree_others|]. apply H3. set_solver.
  - intros it [j Hj]%list_elem_of_lookup Hd. unfold put in Hj. destruct (decide (Z.to_nat i = j)) as [<-|Hne].
    + rewrite list_lookup_insert_eq in Hj by (by eapply lookup_lt_Some). by simplify_eq.
    + rewrite list_lookup_insert_ne in Hj by done.
      assert (it_id it ∈ sl_id <$> mkSlot (Some i) id text :: rest) as Hin by (apply H4; [by eapply list_elem_of_lookup_2|done]).
      cbn in Hin. apply elem_of_cons in Hin as [E|]; [|done]. exfalso. apply Hne.
      apply (NoDup_lookup _ (Z.to_nat i) j id H2); [by rewrite list_lookup_fmap, Hat|by rewrite list_lookup_fmap, Hj, <- E].
Qed.
End held.
End slot_moves.

Lemma agree_part rest items i id :
  Agree (mkSlot (Some i) id EmptyString :: rest) items → receive_item (PartAdded i id) items = Some items.
Proof. intros Ha. cbn. by rewrite (item_at_held _ _ _ _ (agree_held _ _ _ _ _ Ha)). Qed.

(** When no slot is left, every item is complete. *)
Lemma agree_complete items : Agree [] items → Forall (λ it, it_done it = true) items.
Proof.
  intros Ha. apply Forall_forall. intros it Hit. destruct (it_done it) eqn:Hd; [done|].
  apply (agree_open _ _ Ha) in Hd; [|done]. by apply not_elem_of_nil in Hd.
Qed.

(** ** Ordered entries *)

Section btree_laws.
Context {A : Type}.
Implicit Types (m : list (Z * A)).

Definition ordered m : Prop := StronglySorted Z.lt m.*1.

Lemma ordered_tail j a m : ordered ((j, a) :: m) → ordered m ∧ ∀ k b, (k, b) ∈ m → j < k.
Proof.
  intros Hs. inversion Hs as [|? ? Ht Hall]; subst. split; [done|]. intros k b Hk. rewrite Forall_forall in Hall.
  apply Hall, list_elem_of_fmap. by exists (k, b).
Qed.

Lemma bt_set_keys k x m j b : (j, b) ∈ bt_set k x m → (j = k ∧ b = x) ∨ (j, b) ∈ m.
Proof.
  induction m as [|[j' a] m IH]; cbn; [set_solver|]. destruct (Z.compare k j'); set_solver.
Qed.

Lemma bt_set_ordered k x m : ordered m → ordered (bt_set k x m).
Proof.
  induction m as [|[j a] m IH]; intros Hs; cbn; [repeat constructor|].
  destruct (ordered_tail _ _ _ Hs) as [Ht Hlt]. destruct (Z.compare_spec k j) as [->|Hkj|Hkj].
  - by inversion Hs; constructor.
  - constructor; [done|]. cbn. constructor; [done|]. apply Forall_forall. intros y (p & -> & Hy)%list_elem_of_fmap.
    destruct p as [y b]. specialize (Hlt _ _ Hy). cbn. lia.
  - constructor; [by apply IH|]. apply Forall_forall. intros y ([y' b] & -> & Hy)%list_elem_of_fmap.
    apply bt_set_keys in Hy as [[-> _]|Hy]; [done|by eapply Hlt].
Qed.

Lemma bt_set_new k x m : bt_get k m = None → bt_set k x m ≡ₚ (k, x) :: m.
Proof.
  induction m as [|[j a] m IH]; cbn; [done|]. destruct (decide (k = j)); [done|]. intros Hn.
  destruct (Z.compare_spec k j); [done|done|]. rewrite IH by done. apply Permutation_swap.
Qed.

Lemma bt_set_old k x a m :
  ordered m → bt_get k m = Some a → ∃ rest, m ≡ₚ (k, a) :: rest ∧ bt_set k x m ≡ₚ (k, x) :: rest.
Proof.
  induction m as [|[j b] m IH]; cbn; [done|]. intros Hs. destruct (ordered_tail _ _ _ Hs) as [Ht Hlt].
  destruct (decide (k = j)) as [->|Hne].
  - intros [= <-]. exists m. by rewrite Z.compare_refl.
  - intros Hg. destruct (IH Ht Hg) as (rest & Hm & Hset). exists ((j, b) :: rest).
    assert ((k, a) ∈ m) as Hin by (rewrite Hm; set_solver). specialize (Hlt _ _ Hin).
    destruct (Z.compare_spec k j); [done|lia|]. rewrite Hset, Hm at 1. split; apply Permutation_swap.
Qed.
End btree_laws.

(** ** The stream *)

Definition tool_slot (tool : ToolOutput) : Slot := mkSlot (to_output_index tool) (to_item_id tool) EmptyString.

Definition slots_of (s : ResponsesStream) : list Slot :=
  mkSlot (rs_reasoning_output_index s) (rs_reasoning_id s) (rs_reasoning s)
  :: mkSlot (rs_message_output_index s) (rs_message_id s) (rs_text s)
  :: (tool_slot ∘ snd <$> rs_tools s).

Section streams.
Context `{UuidSource} `{!Inj (=) (=) new_v4}.

(** A name the stream may have given to an item. *)
Definition drawn_name (drawn : nat) (id : string) : Prop :=
  (∃ x, id = "rs_" +:+ x) ∨ (∃ x, id = "msg_" +:+ x) ∨ ∃ k, (k < drawn)%nat ∧ id = "fc_" +:+ new_v4 k.

Lemma drawn_name_mono n m id : (n ≤ m)%nat → drawn_name n id → drawn_name m id.
Proof. intros Hnm [H1|[H1|(k & Hk & ->)]]; [by left|by right; left|]. right; right. exists k. split; [lia|done]. Qed.

Lemma drawn_name_fresh drawn : ¬ drawn_name drawn ("fc_" +:+ new_v4 drawn).
Proof.
  intros [[x E]|[[x E]|(k & Hk & E)]]; [discriminate E..|]. apply (inj _) in E. apply (inj new_v4) in E. lia.
Qed.

Record Streams (s : ResponsesStream) (drawn : nat) (items : list Item) : Prop := {
  st_agree : Agree (slots_of s) items;
  st_next : rs_next_output_index s = Z.of_nat (length items);
  st_ordered : ordered (rs_tools s);
  st_slot_names : Forall (drawn_name drawn) (sl_id <$> slots_of s);
  st_item_names : Forall (drawn_name drawn) (it_id <$> items);
}.

(** The client takes the events and agrees with the stream afterwards. *)
Definition Emits (s : ResponsesStream) (items : list Item) (events : list Value) (s' : ResponsesStream) (drawn : nat) : Prop :=
  rs_response_id s' = rs_response_id s ∧
  ∃ items', receive_all events (Receiving (rs_response_id s) items) = Some (Receiving (rs_response_id s) items')
            ∧ Streams s' drawn items'.

Lemma emits_nothing s items s' drawn :
  rs_response_id s' = rs_response_id s → Streams s' drawn items → Emits s items [] s' drawn.
Proof. intros E Hs. split; [done|]. by exists items. Qed.

Lemma emits_app s1 items1 l1 s2 n2 l2 s3 n3 :
  Emits s1 items1 l1 s2 n2 → (∀ items2, Streams s2 n2 items2 → Emits s2 items2 l2 s3 n3) → Emits s1 items1 (l1 ++ l2) s3 n3.
Proof.
  intros (E2 & items2 & Hr2 & H2) H3. destruct (H3 _ H2) as (E3 & items3 & Hr3 & Hs3). split; [congruence|].
  exists items3. split; [|done]. rewrite receive_all_app, Hr2. cbn. by rewrite <- E2.
Qed.

Lemma streams_new suffix model catalog drawn : Streams (new_stream suffix model catalog) drawn [].
Proof.
  split; cbn; [|done|constructor| |constructor].
  - split; [|constructor| |set_solver].
    + cbn. constructor; [|constructor; [set_solver|constructor]]. intros E%list_elem_of_singleton. discriminate E.
    + intros sl Hsl. unfold slots_of in Hsl. cbn in Hsl.
      repeat (apply elem_of_cons in Hsl as [->|Hsl]; [split; [set_solver|done]|]). by apply not_elem_of_nil in Hsl.
  - constructor; [left; by eexists|]. constructor; [right; left; by eexists|constructor].
Qed.

Lemma receive_item_step v e id items items' :
  read_event v = Some e → receive_item e items = Some items' → receive v (Receiving id items) = Some (Receiving id items').
Proof. intros Hv He. unfold receive. rewrite Hv. cbn. destruct e; cbn in He |- *; try done; by rewrite He. Qed.

(** The announcement of a slot, and the text it grows by. *)
Lemma receive_announce v rest items id text rid :
  read_event v = Some (Added (Z.of_nat (length items)) id) → Agree (mkSlot None id text :: rest) items →
  receive v (Receiving rid items) = Some (Receiving rid (items ++ [mkItem id EmptyString false]))
  ∧ Agree (mkSlot (Some (Z.of_nat (length items))) id EmptyString :: rest) (items ++ [mkItem id EmptyString false]).
Proof. intros Hv [He Ha]%agree_announce. split; [by eapply receive_item_step|done]. Qed.

Lemma receive_delta v rest items i id text delta rid :
  read_event v = Some (Delta i id delta) → Agree (mkSlot (Some i) id text :: rest) items →
  ∃ items', receive v (Receiving rid items) = Some (Receiving rid items')
    ∧ it_id <$> items' = it_id <$> items ∧ Agree (mkSlot (Some i) id (text +:+ delta) :: rest) items'.
Proof.
  intros Hv Ha. destruct (agree_delta _ _ _ _ _ Ha delta) as [He Ha']. eexists. split; [by eapply receive_item_step|].
  split; [|done]. eapply ids_put; [by eapply agree_at|done].
Qed.

Lemma receive_done v rest items i id text content rid :
  read_event v = Some (ItemDone i id content) → Agree (mkSlot (Some i) id text :: rest) items → default text content = text →
  ∃ items', receive v (Receiving rid items) = Some (Receiving rid items')
    ∧ it_id <$> items' = it_id <$> items ∧ Agree rest items'.
Proof.
  intros Hv Ha Hc. destruct (agree_done _ _ _ _ _ Ha content Hc) as [He Ha']. eexists. split; [by eapply receive_item_step|].
  split; [|done]. eapply ids_put; [by eapply agree_at|done].
Qed.

Lemma ids_length items items' : it_id <$> items' = it_id <$> items → length items' = length items.
Proof. intros E%(f_equal length). by rewrite !length_fmap in E. Qed.

Lemma reasoning_delta_emits delta s n items :
  Streams s n items → Emits s items (reasoning_delta delta s).1 (reasoning_delta delta s).2 n.
Proof.
  intros [Ha Hn Ho Hs Hi]. unfold reasoning_delta. destruct (decide (delta = EmptyString)); [by apply emits_nothing|].
  unfold slots_of in Ha. destruct (rs_reasoning_output_index s) as [i|] eqn:Ei; cbn [fst snd app].
  - destruct (receive_delta _ _ _ _ _ _ delta (rs_response_id s) (read_reasoning_delta _ _ _) Ha) as (items' & Hr & Hids & Ha').
    split; [done|]. exists items'. cbn [receive_all]. rewrite Hr. split; [done|].
    split; [done|by rewrite (ids_length _ _ Hids)|done|done|by rewrite Hids].
  - rewrite Hn.
    destruct (agree_hold _ _ Ha (mkSlot None (rs_reasoning_id s) (rs_reasoning s)) ltac:(set_solver)) as [_ Ht]. cbn in Ht.
    destruct (receive_announce _ _ _ _ _ (rs_response_id s) (read_reasoning_added _ _) Ha) as [Hr1 Ha1].
    pose proof (agree_part _ _ _ _ Ha1) as Hp.
    destruct (receive_delta _ _ _ _ _ _ delta (rs_response_id s) (read_reasoning_delta _ _ _) Ha1) as (items' & Hr & Hids & Ha').
    split; [done|]. exists items'. cbn [receive_all app]. rewrite Hr1. cbn [mbind option_bind].
    rewrite (receive_item_step _ _ _ _ _ (read_reasoning_part _ _) Hp). cbn [mbind option_bind]. rewrite Hr. split; [done|].
    split; [|cbn; rewrite (ids_length _ _ Hids), length_app; cbn; lia|done|done|].
    + unfold slots_of. cbn. by rewrite Ht.
    + rewrite Hids, fmap_app. apply Forall_app. split; [done|]. apply Forall_singleton. by inversion Hs.
Qed.

Lemma text_delta_emits delta s n items :
  Streams s n items → Emits s items (text_delta delta s).1 (text_delta delta s).2 n.
Proof.
  intros [Ha Hn Ho Hs Hi]. unfold text_delta. destruct (decide (delta = EmptyString)); [by apply emits_nothing|].
  unfold slots_of in Ha. rewrite Permutation_swap in Ha.
  destruct (rs_message_output_index s) as [i|] eqn:Ei; cbn [fst snd app].
  - destruct (receive_delta _ _ _ _ _ _ delta (rs_response_id s) (read_message_delta _ _ _) Ha) as (items' & Hr & Hids & Ha').
    split; [done|]. exists items'. cbn [receive_all]. rewrite Hr. split; [done|].
    split; [|by rewrite (ids_length _ _ Hids)|done|done|by rewrite Hids]. unfold slots_of. by rewrite Permutation_swap.
  - rewrite Hn.
    destruct (agree_hold _ _ Ha (mkSlot None (rs_message_id s) (rs_text s)) ltac:(set_solver)) as [_ Ht]. cbn in Ht.
    destruct (receive_announce _ _ _ _ _ (rs_response_id s) (read_message_added _ _) Ha) as [Hr1 Ha1].
    destruct (receive_delta _ _ _ _ _ _ delta (rs_response_id s) (read_message_delta _ _ _) Ha1) as (items' & Hr & Hids & Ha').
    split; [done|]. exists items'. cbn [receive_all app]. rewrite Hr1. cbn [mbind option_bind]. rewrite Hr. split; [done|].
    split; [|cbn; rewrite (ids_length _ _ Hids), length_app; cbn; lia|done|done|].
    + unfold slots_of. cbn. rewrite Ht, Permutation_swap. done.
    + rewrite Hids, fmap_app. apply Forall_app. split; [done|]. apply Forall_singleton.
      inversion Hs as [|? ? _ Hs']; subst. by inversion Hs'.
Qed.

(** The slots with the entry of one tool call first, before and after. *)
Lemma tool_entry_slots s n items suffix index call_id wire_name arguments :
  suffix = new_v4 n → Streams s n items →
  ∃ rest, Agree (tool_slot (tool_entry s suffix index call_id wire_name arguments) :: rest) items
    ∧ Forall (drawn_name (S n)) (sl_id <$> tool_slot (tool_entry s suffix index call_id wire_name arguments) :: rest)
    ∧ ∀ tool next, slots_of (with_tools (bt_set index tool (rs_tools s)) next s) ≡ₚ tool_slot tool :: rest.
Proof.
  intros -> [Ha Hn Ho Hs Hi]. unfold tool_entry. destruct (bt_get index (rs_tools s)) as [old|] eqn:Eg.
  - destruct (bt_set_old index old old (rs_tools s) Ho Eg) as (others & Hm & _).
    set (common := mkSlot (rs_reasoning_output_index s) (rs_reasoning_id s) (rs_reasoning s)
                   :: mkSlot (rs_message_output_index s) (rs_message_id s) (rs_text s) :: (tool_slot ∘ snd <$> others)).
    assert (slots_of s ≡ₚ tool_slot old :: common) as Hp.
    { unfold slots_of, common. rewrite Hm. cbn. solve_Permutation. }
    exists common. rewrite Hp in Ha. split; [done|]. split.
    + eapply Forall_impl; [|intros id; apply (drawn_name_mono n); lia]. cbn. by rewrite Hp in Hs.
    + intros tool next. destruct (bt_set_old index tool old (rs_tools s) Ho Eg) as (others' & Hm' & Hset).
      unfold slots_of, common. cbn. rewrite Hset. cbn.
      assert (others' ≡ₚ others) as ->; [|solve_Permutation]. rewrite Hm in Hm'. by apply Permutation_cons_inv in Hm'.
  - cbn. exists (slots_of s). split; [|split].
    + apply agree_fresh; [| |done].
      * intros Hin. rewrite Forall_forall in Hs. apply Hs in Hin. by apply drawn_name_fresh in Hin.
      * intros Hin. rewrite Forall_forall in Hi. apply Hi in Hin. by apply drawn_name_fresh in Hin.
    + constructor; [right; right; exists n; split; [lia|done]|].
      eapply Forall_impl; [done|]. intros id. apply drawn_name_mono. lia.
    + intros tool next. unfold slots_of. cbn. rewrite (bt_set_new index tool) by done. cbn. solve_Permutation.
Qed.

Lemma tool_delta_emits suffix index call_id wire_name arguments s n items :
  suffix = new_v4 n → Streams s n items →
  Emits s items (tool_delta suffix index call_id wire_name arguments s).1
    (tool_delta suffix index call_id wire_name arguments s).2 (S n).
Proof.
  intros Hsuf Hst. destruct (tool_entry_slots s n items suffix index call_id wire_name arguments Hsuf Hst)
    as (rest & Ha & Hnames & Hslots). destruct Hst as [_ Hn Ho _ Hi].
  unfold tool_delta. set (tool := tool_entry s suffix index call_id wire_name arguments) in *.
  assert (Forall (drawn_name (S n)) (it_id <$> items)) as Hi'.
  { eapply Forall_impl; [done|]. intros id. apply drawn_name_mono. lia. }
  assert (Emits s items [] (with_tools (bt_set index tool (rs_tools s)) (rs_next_output_index s) s) (S n)) as Hquiet.
  { apply emits_nothing; [done|]. split; [by rewrite Hslots|done|by apply bt_set_ordered|by rewrite Hslots|done]. }
  destruct (to_output_index tool) as [i|] eqn:Ei; [done|].
  destruct (by_wire_name (rs_catalog s) (to_wire_name tool)) as [b|]; [|done].
  destruct (bool_decide _ && _); [|done]. cbn [fst snd]. rewrite Hn.
  unfold tool_slot in Ha. rewrite Ei in Ha.
  destruct (receive_announce (output_item_added (Z.of_nat (length items)) (announced tool (Z.of_nat (length items))) b)
              _ _ _ _ (rs_response_id s) (read_tool_added _ _ _) Ha) as [Hr1 Ha1].
  split; [done|]. eexists. cbn [receive_all]. rewrite Hr1. split; [done|].
  split; [by rewrite Hslots|cbn; rewrite length_app; cbn; lia|by apply bt_set_ordered|by rewrite Hslots|].
  rewrite fmap_app. apply Forall_app. split; [done|]. apply Forall_singleton. by inversion Hnames.
Qed.
End streams.

(** ** The end of the stream *)

Section finishing.
Context `{JsonCodec, PatchParser}.
Implicit Types (rest : list Slot) (items : list Item) (rid : string).

(** Events that leave the client with the slots [rest]. *)
Definition Closes rid items (events : list Value) rest (next : Z) : Prop :=
  ∃ items', receive_all events (Receiving rid items) = Some (Receiving rid items') ∧ Agree rest items'
            ∧ next = Z.of_nat (length items').

Lemma finish_reasoning_closes s ps rest items :
  Agree (mkSlot (rs_reasoning_output_index s) (rs_reasoning_id s) (rs_reasoning s) :: rest) items →
  rs_next_output_index s = Z.of_nat (length items) →
  Closes (rs_response_id s) items (finish_reasoning s ps).1 rest (finish_reasoning s ps).2.
Proof.
  intros Ha Hn. unfold finish_reasoning. destruct (rs_reasoning_output_index s) as [i|]; [|destruct ps as [ps|]]; cbn [fst snd].
  - pose proof (agree_text _ _ _ _ _ Ha) as Ht.
    destruct (receive_done _ _ _ _ _ _ _ (rs_response_id s) (read_reasoning_done i (rs_reasoning_id s) (rs_reasoning s)
                (encode_provider_state <$> ps)) Ha eq_refl) as (items' & Hr & Hids & Ha').
    exists items'. cbn [receive_all]. rewrite (receive_item_step _ _ _ _ _ (read_reasoning_text _ _ _) Ht).
    cbn [mbind option_bind]. rewrite Hr. cbn. by rewrite (ids_length _ _ Hids).
  - rewrite Hn. destruct (receive_announce _ _ _ _ _ (rs_response_id s) (read_reasoning_added _ _) Ha) as [Hr1 Ha1].
    destruct (receive_done _ _ _ _ _ _ _ (rs_response_id s) (read_reasoning_done (Z.of_nat (length items)) (rs_reasoning_id s)
                EmptyString (Some (encode_provider_state ps))) Ha1 eq_refl) as (items' & Hr & Hids & Ha').
    exists items'. cbn [receive_all]. rewrite Hr1. cbn [mbind option_bind]. rewrite Hr. cbn.
    rewrite (ids_length _ _ Hids), length_app. cbn. split; [done|]. split; [done|lia].
  - exists items. split; [done|]. split; [by eapply agree_drop|done].
Qed.

Lemma finish_message_closes s rest items next :
  Agree (mkSlot (rs_message_output_index s) (rs_message_id s) (rs_text s) :: rest) items → next = Z.of_nat (length items) →
  Closes (rs_response_id s) items (finish_message s) rest next.
Proof.
  intros Ha Hn. unfold finish_message. destruct (rs_message_output_index s) as [i|].
  - pose proof (agree_text _ _ _ _ _ Ha) as Ht.
    destruct (receive_done _ _ _ _ _ _ _ (rs_response_id s) (read_message_done i (rs_message_id s) (rs_text s)) Ha eq_refl)
      as (items' & Hr & Hids & Ha').
    exists items'. cbn [receive_all]. rewrite (receive_item_step _ _ _ _ _ (read_message_text _ _ _) Ht).
    cbn [mbind option_bind]. rewrite Hr. cbn. by rewrite (ids_length _ _ Hids).
  - exists items. split; [done|]. split; [by eapply agree_drop|done].
Qed.

(** The input of a custom tool and the completed call, of a call that was announced. *)
Lemma finish_announced_closes rid items rest tool b input i :
  Agree (mkSlot (Some i) (to_item_id tool) EmptyString :: rest) items →
  custom_input_of b (to_arguments tool) = Ok input →
  Closes rid items ((match input with Some input => [custom_input_delta tool i input] | None => [] end)
                    ++ [item_done i (completed_tool_item tool b input)]) rest (Z.of_nat (length items)).
Proof.
  intros Ha Hc. pose proof (read_tool_done i tool b input) as Hread. unfold custom_input_of in Hc.
  destruct (tb_kind b).
  - simplify_eq. destruct (receive_done _ _ _ _ _ _ _ rid Hread Ha eq_refl) as (items' & Hr & Hids & Ha').
    exists items'. cbn [receive_all app]. rewrite Hr. cbn. by rewrite (ids_length _ _ Hids).
  - destruct (normalize_custom_input b (to_arguments tool)) as [text|]; [|done]. cbn in Hc. simplify_eq.
    destruct (receive_delta _ _ _ _ _ _ text rid (read_custom_delta i tool text) Ha) as (items1 & Hr1 & Hids1 & Ha1).
    destruct (receive_done _ _ _ _ _ _ _ rid Hread Ha1 eq_refl) as (items' & Hr & Hids & Ha').
    exists items'. cbn [receive_all app]. rewrite Hr1. cbn [mbind option_bind]. rewrite Hr. cbn.
    by rewrite (ids_length _ _ Hids), (ids_length _ _ Hids1).
Qed.

Lemma finish_tool_closes rid catalog items rest tool next one :
  Agree (tool_slot tool :: rest) items → next = Z.of_nat (length items) →
  finish_tool catalog next tool = Ok one → Closes rid items one.1 rest one.2.
Proof.
  intros Ha Hn. unfold finish_tool. destruct (by_wire_name catalog (to_wire_name tool)) as [b|]; [|done]. cbn [ok_or mbind result_bind].
  unfold tool_slot in Ha. destruct (to_output_index tool) as [i|].
  - destruct (custom_input_of b (to_arguments tool)) as [input|] eqn:Ei; [|done]. cbn. intros [= <-]. cbn [fst snd app].
    rewrite Hn. by apply finish_announced_closes.
  - destruct (custom_input_of b (to_arguments tool)) as [input|] eqn:Ei; [|done]. cbn. intros [= <-]. cbn [fst snd]. subst next.
    destruct (receive_announce _ _ _ _ _ rid (read_tool_added _ tool b) Ha) as [Hr1 Ha1].
    destruct (finish_announced_closes rid _ _ _ _ _ _ Ha1 Ei) as (items' & Hr & Ha' & Hl).
    exists items'. change (output_item_added ?i tool b :: ?l) with ([output_item_added i tool b] ++ l).
    rewrite receive_all_app. cbn [receive_all]. rewrite Hr1. cbn [mbind option_bind]. split; [done|]. split; [done|].
    rewrite length_app in Hl. cbn in Hl. lia.
Qed.

Lemma finish_tools_closes rid catalog tools items next events :
  Agree (tool_slot ∘ snd <$> tools) items → next = Z.of_nat (length items) →
  finish_tools catalog next tools = Ok events → ∃ next', Closes rid items events [] next'.
Proof.
  revert items next events. induction tools as [|[k tool] tools IH]; intros items next events Ha Hn; cbn [finish_tools].
  - intros [= <-]. exists next, items. by split.
  - destruct (finish_tool catalog next tool) as [one|] eqn:E1; [|done]. cbn [mbind result_bind].
    destruct (finish_tools catalog one.2 tools) as [more|] eqn:E2; [|done]. cbn. intros [= <-].
    destruct (finish_tool_closes rid _ _ _ _ _ _ Ha Hn E1) as (items1 & Hr1 & Ha1 & Hn1).
    destruct (IH _ _ _ Ha1 Hn1 E2) as (next' & items2 & Hr2 & Ha2 & Hn2). exists next', items2.
    by rewrite receive_all_app, Hr1.
Qed.

(** The last event ends the answer, with every item complete. *)
Lemma finish_ends s ps n items events `{UuidSource} :
  Streams s n items → finish s ps = Ok events →
  ∃ items', receive_all events (Receiving (rs_response_id s) items) = Some (Ended items')
            ∧ Forall (λ it, it_done it = true) items'.
Proof.
  intros [Ha Hn _ _ _] Hf. unfold finish in Hf. unfold slots_of in Ha.
  destruct (finish_reasoning_closes s ps _ items Ha Hn) as (items1 & Hr1 & Ha1 & Hn1).
  destruct (finish_reasoning s ps) as [reasoning next]. cbn [fst snd] in *.
  destruct (finish_tools (rs_catalog s) next (rs_tools s)) as [tools|] eqn:Et; [|done]. cbn in Hf. simplify_eq.
  destruct (finish_message_closes s _ _ _ Ha1 eq_refl) as (items2 & Hr2 & Ha2 & Hn2).
  destruct (finish_tools_closes (rs_response_id s) _ _ _ _ _ Ha2 Hn2 Et) as (next' & items3 & Hr3 & Ha3 & _).
  pose proof (agree_complete _ Ha3) as Hdone. exists items3. split; [|done].
  rewrite receive_all_app, Hr1. cbn [mbind option_bind]. rewrite receive_all_app, Hr2. cbn [mbind option_bind].
  rewrite receive_all_app, Hr3. cbn [mbind option_bind receive_all]. unfold terminal_event.
  destruct (rs_finish_reason s) as [reason|]; repeat case_decide; unfold receive; autorewrite with events; cbn;
    by rewrite decide_True.
Qed.

Lemma failed_ends rid items message : receive (failed_event rid message) (Receiving rid items) = Some (Ended items).
Proof. unfold receive. autorewrite with events. cbn. by rewrite decide_True. Qed.
End finishing.
