(* ===== verification/BridgeLaws.v ===== *)
(** * Facts about the provider bridge

    Whatever the provider sends, and whenever the client goes away, what the
    client receives is a well-formed answer or the beginning of one. *)

From S2P Require Import Prelude Serde ProviderTools ResponseStream ChatBridge AnthropicBridge BridgeServer StreamLaws.
From Stdlib Require Import ZArith Ascii String.
From stdpp Require Import base gmap strings option list.

#[local] Open Scope string_scope.
#[local] Open Scope Z_scope.
#[local] Open Scope list_scope.

(** ** The channel *)

(** As much of the frames as the client takes. *)
Definition deliver (frames : list string) (c : Channel) : Channel :=
  match ch_room c with
  | None => mkChannel (ch_sent c ++ frames) None
  | Some n => mkChannel (ch_sent c ++ take n frames) (Some (n - length frames)%nat)
  end.

Lemma deliver_nil c : deliver [] c = c.
Proof. destruct c as [sent [n|]]; unfold deliver; cbn; rewrite ?take_nil, app_nil_r, ?Nat.sub_0_r; done. Qed.

Lemma deliver_app a b c : deliver (a ++ b) c = deliver b (deliver a c).
Proof.
  destruct c as [sent [n|]]; unfold deliver; cbn; rewrite <- app_assoc; [|done].
  rewrite take_app, length_app. do 2 f_equal. lia.
Qed.

Lemma deliver_gone l c : ch_room c = Some O → deliver l c = c.
Proof. destruct c as [sent room]; cbn; intros ->. unfold deliver. cbn. by rewrite take_0, app_nil_r. Qed.

Lemma send_deliver frame c :
  (channel_send frame c).2 = deliver [frame] c ∧ ((channel_send frame c).1 = false → ch_room (deliver [frame] c) = Some O).
Proof.
  destruct c as [sent [[|n]|]]; unfold channel_send, deliver; cbn; split; try done.
  - by rewrite app_nil_r.
  - by rewrite take_nil, Nat.sub_0_r.
Qed.

Section streaming.
Context `{JsonCodec, PatchParser, UuidSource}.

Lemma send_events_deliver events c :
  (send_events events c).2 = deliver (sse_encode <$> events) c
  ∧ ((send_events events c).1 = false → ch_room (deliver (sse_encode <$> events) c) = Some O).
Proof.
  revert c. induction events as [|event events IH]; intros c; cbn; [by rewrite deliver_nil|].
  change (sse_encode event :: ?l) with ([sse_encode event] ++ l). rewrite deliver_app.
  pose proof (send_deliver (sse_encode event) c) as [E1 E2].
  destruct (channel_send (sse_encode event) c) as [[|] c']; cbn in *; subst c'; [apply IH|].
  rewrite (deliver_gone (sse_encode <$> events)) by (by apply E2). split; [done|exact E2].
Qed.

(** What is sent before a step, and the step when the client is still there. *)
Lemma send_then events c (k : Channel → Channel) frames :
  (∀ c', k c' = deliver frames c') →
  (let '(ok, c') := send_events events c in if ok then k c' else c') = deliver ((sse_encode <$> events) ++ frames) c.
Proof.
  intros Hk. rewrite deliver_app. pose proof (send_events_deliver events c) as [E1 E2].
  destruct (send_events events c) as [[|] c']; cbn in *; subst c'; [by rewrite Hk|]. by rewrite (deliver_gone _ (deliver _ _)) by (by apply E2).
Qed.

Lemma send_failure_deliver rid message c :
  send_failure rid message c = deliver [sse_encode (failed_event rid message); sse_done] c.
Proof.
  unfold send_failure. rewrite (proj1 (send_deliver _ _)), (proj1 (send_deliver _ _)), <- deliver_app. done.
Qed.

(** ** The events of a whole answer *)

Definition failure (t : Translator) (message : string) : list Value := [failed_event (translator_response_id t) message].

Definition final_events (saw_end_marker : bool) (t : Translator) : list Value :=
  match translator_finish saw_end_marker t with
  | Ok events => events
  | Err error => failure t (translation_error_text error)
  end.

Fixpoint answer_events (upstream : list SseItem) (t : Translator) : list Value :=
  match upstream with
  | [] => final_events false t
  | SseError error :: _ => failure t error
  | SseEvent data :: rest =>
      if decide (data = "[DONE]") then final_events true t
      else
        match json_parse data with
        | Err error => failure t error
        | Ok value =>
            match translator_push value t with
            | Err error => failure t (translation_error_text error)
            | Ok (events, t') => events ++ answer_events rest t'
            end
        end
  end.

Lemma finish_stream_deliver saw t c :
  finish_stream saw t c = deliver ((sse_encode <$> final_events saw t) ++ [sse_done]) c.
Proof.
  unfold finish_stream, final_events. destruct (translator_finish saw t) as [events|error].
  - apply (send_then events c (λ c', (channel_send sse_done c').2)). intros c'. apply send_deliver.
  - apply send_failure_deliver.
Qed.

Lemma stream_loop_deliver upstream t c :
  stream_loop upstream t c = deliver ((sse_encode <$> answer_events upstream t) ++ [sse_done]) c.
Proof.
  revert t c. induction upstream as [|[data|error] rest IH]; intros t c; cbn [stream_loop answer_events];
    [apply finish_stream_deliver| |apply send_failure_deliver].
  destruct (decide (data = "[DONE]")); [apply finish_stream_deliver|].
  destruct (json_parse data) as [value|error]; [|apply send_failure_deliver].
  destruct (translator_push value t) as [[events t']|error]; [|apply send_failure_deliver].
  rewrite fmap_app, <- app_assoc. apply (send_then events c (stream_loop rest t')). intros c'. apply IH.
Qed.

Lemma stream_upstream_deliver upstream t c :
  stream_upstream upstream t c
  = deliver ((sse_encode <$> translator_created t :: answer_events upstream t) ++ [sse_done]) c.
Proof.
  unfold stream_upstream. change (sse_encode <$> ?v :: ?l) with ([sse_encode v] ++ (sse_encode <$> l)).
  rewrite <- app_assoc, deliver_app. pose proof (send_deliver (sse_encode (translator_created t)) c) as [E1 E2].
  destruct (channel_send _ c) as [[|] c']; cbn in *; subst c'; [apply stream_loop_deliver|]. by rewrite (deliver_gone _ (deliver _ _)) by (by apply E2).
Qed.
End streaming.

(** ** Every event is accepted *)

Section acceptance.
Context `{JsonCodec, PatchParser, UuidSource} `{!Inj (=) (=) new_v4}.

Lemma streams_usage u s n items : Streams s n items → Streams (set_usage u s) n items.
Proof. by intros [? ? ? ? ?]. Qed.

Lemma streams_reason r s n items : Streams s n items → Streams (set_finish_reason r s) n items.
Proof. destruct r; [|done]. by intros [? ? ? ? ?]. Qed.

Lemma reason_id r s : rs_response_id (set_finish_reason r s) = rs_response_id s.
Proof. by destruct r. Qed.

Lemma emits_from s0 s items l s' n :
  rs_response_id s = rs_response_id s0 → Emits s items l s' n → Emits s0 items l s' n.
Proof. unfold Emits. intros ->. done. Qed.

Lemma streams_chat_usage chunk s n items : Streams s n items → Streams (set_chat_usage chunk s) n items.
Proof.
  unfold set_chat_usage. destruct (value_get "usage" chunk) as [u|]; [|done]. destruct (is_null u); [done|]. apply streams_usage.
Qed.

Lemma chat_usage_id chunk s : rs_response_id (set_chat_usage chunk s) = rs_response_id s.
Proof. unfold set_chat_usage. destruct (value_get "usage" chunk) as [u|]; [|done]. by destruct (is_null u). Qed.

Lemma chat_tool_deltas_emits tool_calls s0 items0 events s n :
  Emits s0 items0 events s n →
  ∃ events' s' n', chat_tool_deltas tool_calls (events, s, n) = (events', s', n') ∧ Emits s0 items0 events' s' n'.
Proof.
  revert events s n. induction tool_calls as [|tool tool_calls IH]; intros events s n He; [by exists events, s, n|].
  cbn [chat_tool_deltas foldl chat_tool_delta].
  pose proof (tool_delta_emits (new_v4 n) (default 0 (get_u64 "index" tool)) (get_str "id" tool)
    (get_str "name" (default Null (value_get "function" tool))) (get_str "arguments" (default Null (value_get "function" tool))) s n)
    as Ht. destruct (tool_delta _ _ _ _ _ s) as [more s']. apply IH. eapply emits_app; [done|]. intros items Hs. by apply Ht.
Qed.

Lemma chat_delta_emits delta s n items :
  Streams s n items →
  ∃ events s' n', chat_delta delta s n = (events, s', n') ∧ Emits s items events s' n'.
Proof.
  intros Hs. unfold chat_delta.
  pose proof (reasoning_delta_emits (default EmptyString (get_str "reasoning_content" delta)) s n items Hs) as Hrd.
  destruct (reasoning_delta _ s) as [events1 s1].
  pose proof (λ items, text_delta_emits (default EmptyString (get_str "content" delta)) s1 n items) as Htd.
  destruct (text_delta _ s1) as [events2 s2]. apply chat_tool_deltas_emits. eapply emits_app; [done|exact Htd].
Qed.

Lemma chat_push_emits v t events t' items :
  chat_push v t = Ok (events, t') → Streams (ct_responses t) (ct_drawn t) items →
  Emits (ct_responses t) items events (ct_responses t') (ct_drawn t').
Proof.
  intros Hp Hs. unfold chat_push in Hp. destruct (value_get "error" v); [done|].
  apply (streams_chat_usage v) in Hs.
  destruct (first_choice v) as [choice|]; [|simplify_eq; apply emits_nothing; [apply chat_usage_id|done]].
  apply (streams_reason (nonempty (get_str "finish_reason" choice))) in Hs.
  destruct (value_get "delta" choice) as [delta|];
    [|simplify_eq; apply emits_nothing; [cbn; by rewrite reason_id, chat_usage_id|done]].
  destruct (chat_delta_emits delta _ _ _ Hs) as (events' & s' & n' & E & He). rewrite E in Hp. simplify_eq.
  eapply emits_from; [|exact He]. by rewrite reason_id, chat_usage_id.
Qed.

(** An event of the Anthropic stream, by its effect on the response stream. *)
Lemma anthropic_event_emits v t events t' items :
  anthropic_event v t = Ok (events, t') → Streams (at_responses t) (at_drawn t) items →
  Emits (at_responses t) items events (at_responses t') (at_drawn t').
Proof.
  intros Hp Hs. unfold anthropic_event in Hp.
  assert (∀ t1, at_responses t1 = at_responses t → at_drawn t1 = at_drawn t →
                Emits (at_responses t) items [] (at_responses t1) (at_drawn t1)) as Hquiet.
  { intros t1 -> ->. by apply emits_nothing. }
  pose proof (λ d, reasoning_delta_emits d _ _ _ Hs) as Hr. pose proof (λ d, text_delta_emits d _ _ _ Hs) as Ht.
  pose proof (λ i c w a, tool_delta_emits _ i c w a _ _ _ eq_refl Hs) as Hd.
  repeat (case_decide; [|]); try done; try (simplify_eq; by apply Hquiet).
  - unfold block_start in Hp. repeat (case_decide; [|]); try done.
    + specialize (Hr (str_or_empty "thinking" (default Null (value_get "content_block" v)))).
      destruct (reasoning_delta _ _). by simplify_eq.
    + simplify_eq. by apply Hquiet.
    + specialize (Ht (str_or_empty "text" (default Null (value_get "content_block" v)))).
      destruct (text_delta _ _). by simplify_eq.
    + match type of Hp with context [tool_delta _ ?i ?c ?w ?a _] => specialize (Hd i c w a) end.
      destruct (tool_delta _ _ _ _ _ _). by simplify_eq.
  - unfold block_delta in Hp. repeat (case_decide; [|]); try done.
    + specialize (Hr (str_or_empty "thinking" (default Null (value_get "delta" v)))).
      destruct (reasoning_delta _ _). by simplify_eq.
    + simplify_eq. by apply Hquiet.
    + specialize (Ht (str_or_empty "text" (default Null (value_get "delta" v)))).
      destruct (text_delta _ _). by simplify_eq.
    + match type of Hp with context [tool_delta _ ?i ?c ?w ?a _] => specialize (Hd i c w a) end.
      destruct (tool_delta _ _ _ _ _ _). by simplify_eq.
  - unfold block_stop in Hp. destruct (bt_get _ _) as [[| [|] | |]|]; try (simplify_eq; by apply Hquiet).
    match type of Hp with context [tool_delta _ ?i ?c ?w ?a _] => specialize (Hd i c w a) end.
    destruct (tool_delta _ _ _ _ _ _). by simplify_eq.
  - simplify_eq. cbn. apply emits_nothing; [apply reason_id|by apply streams_reason].
Qed.

Lemma anthropic_push_emits v t events t' items :
  anthropic_push v t = Ok (events, t') → Streams (at_responses t) (at_drawn t) items →
  Emits (at_responses t) items events (at_responses t') (at_drawn t').
Proof.
  intros Hp Hs. unfold anthropic_push in Hp. destruct (anthropic_event v t) as [[events1 t1]|] eqn:E; [|done].
  cbn in Hp. simplify_eq. destruct (anthropic_event_emits _ _ _ _ _ E Hs) as (Hid & items' & Hr & Hs').
  split; [done|]. exists items'. split; [done|]. by apply streams_usage.
Qed.

Definition translator_drawn (t : Translator) : nat :=
  match t with ChatTranslator t => ct_drawn t | AnthropicTranslator t => at_drawn t end.

Definition TStreams (t : Translator) (items : list Item) : Prop := Streams (translator_stream t) (translator_drawn t) items.

Lemma translator_push_emits v t events t' items :
  translator_push v t = Ok (events, t') → TStreams t items →
  Emits (translator_stream t) items events (translator_stream t') (translator_drawn t').
Proof.
  destruct t as [t|t]; cbn; intros Hp.
  - destruct (chat_push v t) as [[events1 t1]|] eqn:E; [|done]. cbn in Hp. simplify_eq. by apply (chat_push_emits v).
  - destruct (anthropic_push v t) as [[events1 t1]|] eqn:E; [|done]. cbn in Hp. simplify_eq. by apply (anthropic_push_emits v).
Qed.

(** The answer ends from here, whatever comes. *)
Definition ends (t : Translator) (items : list Item) (events : list Value) : Prop :=
  ∃ items', receive_all events (Receiving (translator_response_id t) items) = Some (Ended items').

Lemma failure_ends t items message : ends t items (failure t message).
Proof. exists items. unfold failure. cbn [receive_all]. by rewrite failed_ends. Qed.

Lemma final_events_end saw t items : TStreams t items → ends t items (final_events saw t).
Proof.
  intros Hs. unfold final_events. destruct (translator_finish saw t) as [events|] eqn:E; [|apply failure_ends].
  assert (∃ ps, finish (translator_stream t) ps = Ok events) as [ps Hf].
  { destruct t as [t|t]; cbn in E.
    - unfold chat_finish in E. destruct (negb _); [done|]. destruct (negb _); [done|]. by eexists.
    - unfold anthropic_finish in E. destruct (at_blocks t); [|done]. destruct (negb _); [done|]. destruct (negb _); [done|]. by eexists. }
  destruct (finish_ends _ _ _ _ _ Hs Hf) as (items' & Hr & _). by exists items'.
Qed.

Lemma answer_events_end upstream t items : TStreams t items → ends t items (answer_events upstream t).
Proof.
  revert t items. induction upstream as [|[data|error] rest IH]; intros t items Hs; cbn [answer_events];
    [by apply final_events_end| |apply failure_ends].
  destruct (decide (data = "[DONE]")); [by apply final_events_end|].
  destruct (json_parse data) as [value|error]; [|apply failure_ends].
  destruct (translator_push value t) as [[events t']|error] eqn:E; [|apply failure_ends].
  destruct (translator_push_emits _ _ _ _ _ E Hs) as (Hid & items1 & Hr1 & Hs1).
  destruct (IH t' items1 Hs1) as (items2 & Hr2). exists items2. rewrite receive_all_app. unfold translator_response_id in *.
  rewrite Hr1. cbn. by rewrite <- Hid.
Qed.

Lemma translate_request_streams config drawn request upstream t :
  translate_request config drawn request = Ok (upstream, t) → TStreams t [].
Proof.
  unfold translate_request. intros Ht. destruct (negb _); [done|]. destruct (negb _); [done|].
  destruct (pp_adapter_kind (ac_profile config)); [done| |].
  - destruct (prepare_chat_request request config); [|done]. simplify_eq. apply streams_new.
  - destruct (prepare_anthropic_request request config); [|done]. simplify_eq. apply streams_new.
Qed.
End acceptance.

(** C24: Whatever events, garbage or errors the provider streams, the frames
    the client is sent are the events of one answer the client accepts from its
    beginning to its end, each item announced once at the next position under a
    new name, its pieces adding up to the text it is completed with, every item
    complete before the answer is, and the end marker after it; a client that
    goes away early has received the beginning of just that. *)
Theorem bridge_answer_accepted `{JsonCodec, PatchParser, UuidSource} config provider room drawn request channel :
  Inj (=) (=) new_v4 →
  responses config provider room drawn request = EventStream channel →
  ∃ events items, receive_all events Waiting = Some (Ended items)
    ∧ let frames := (sse_encode <$> events) ++ [sse_done] in
      ch_sent channel = match room with None => frames | Some n => take n frames end.
Proof.
  intros Hinj Hr. unfold responses in Hr.
  destruct (translate_request config drawn request) as [[upstream t]|e] eqn:Et; [|by destruct (handler_error_response e)].
  destruct (provider upstream) as [e| |items]; [done|by destruct body|]. simplify_eq.
  destruct (answer_events_end items t []) as (items' & Hi).
  { by eapply translate_request_streams. }
  exists (translator_created t :: answer_events items t), items'. split.
  - cbn [receive_all]. unfold receive at 1, translator_created. rewrite read_created. exact Hi.
  - rewrite stream_upstream_deliver. unfold deliver, open_channel. cbn [ch_room ch_sent]. by destruct room.
Qed.

Lemma bridge_answer_accepted_witness :
  responses demo_config demo_provider None 0 demo_request = EventStream demo_answer
  ∧ ∃ events items, receive_all events Waiting = Some (Ended items)
      ∧ ch_sent demo_answer = (sse_encode <$> events) ++ [sse_done].
Proof.
  assert (responses demo_config demo_provider None 0 demo_request = EventStream demo_answer) as E by (vm_compute; reflexivity).
  split; [exact E|]. exact (bridge_answer_accepted demo_config demo_provider None 0 demo_request demo_answer demo_uuids_inj E).
Defined.
