(* ===== verification/BridgeFidelity.v ===== *)
(** * What the provider says is what the client gets

    The pieces of an answer, in whatever order and size they come, are gathered
    by kind and by tool call; the items the stream completes hold exactly the
    gathered text. *)

From S2P Require Import Prelude Serde ProviderTools ResponseStream ChatBridge AnthropicBridge BridgeServer StreamLaws.
From Stdlib Require Import ZArith Ascii String Sorted.
From stdpp Require Import base gmap strings option list.

#[local] Open Scope string_scope.
#[local] Open Scope Z_scope.
#[local] Open Scope list_scope.

(** ** Pieces *)

Inductive Piece : Type :=
| Reason (delta : string)
| Say (delta : string)
| Call (index : Z) (call_id wire_name arguments : option string).

Fixpoint concat_str (l : list string) : string :=
  match l with [] => EmptyString | s :: r => s +:+ concat_str r end.

Definition reason_of (p : Piece) : option string := match p with Reason d => Some d | _ => None end.
Definition say_of (p : Piece) : option string := match p with Say d => Some d | _ => None end.

(** The pieces of one call, by field. *)
Definition call_of (k : Z) (p : Piece) : option (option string * option string * option string) :=
  match p with Call i c w a => if decide (i = k) then Some (c, w, a) else None | _ => None end.

Definition reasoned (l : list Piece) : string := concat_str (omap reason_of l).
Definition said (l : list Piece) : string := concat_str (omap say_of l).

Definition call_text (f : option string * option string * option string → option string) (k : Z) (l : list Piece) : string :=
  concat_str (omap f (omap (call_of k) l)).

Definition id_part (c : option string * option string * option string) : option string := c.1.1.
Definition name_part (c : option string * option string * option string) : option string := c.1.2.
Definition arguments_part (c : option string * option string * option string) : option string := c.2.

Definition called (k : Z) (l : list Piece) : Prop := ∃ c w a, Call k c w a ∈ l.

Lemma concat_str_app l1 l2 : concat_str (l1 ++ l2) = concat_str l1 +:+ concat_str l2.
Proof. induction l1 as [|s l1 IH]; [done|]. cbn. by rewrite IH, string_app_assoc. Qed.

Lemma string_app_nil (s : string) : s +:+ EmptyString = s.
Proof. induction s as [|c s IH]; [done|]. change (String c s +:+ EmptyString) with (String c (s +:+ EmptyString)). by rewrite IH. Qed.

Lemma concat_str_one s : concat_str [s] = s.
Proof. cbn. apply string_app_nil. Qed.

Lemma call_text_app f k l1 l2 : call_text f k (l1 ++ l2) = call_text f k l1 +:+ call_text f k l2.
Proof. unfold call_text. by rewrite !omap_app, concat_str_app. Qed.

Lemma call_text_call f k i c w a :
  call_text f k [Call i c w a] = if decide (i = k) then default EmptyString (f (c, w, a)) else EmptyString.
Proof.
  unfold call_text. cbn. case_decide; [|done]. cbn. destruct (f (c, w, a)); cbn; [apply string_app_nil|done].
Qed.

Lemma call_text_uncalled f k l : ¬ called k l → call_text f k l = EmptyString.
Proof.
  intros Hn. induction l as [|p l IH]; [done|]. change (p :: l) with ([p] ++ l). rewrite call_text_app.
  rewrite IH by (intros (c & w & a & ?); apply Hn; exists c, w, a; set_solver). destruct p as [d|d|i c w a]; [done|done|].
  rewrite call_text_call, decide_False; [done|]. intros ->. apply Hn. exists c, w, a. set_solver.
Qed.

Lemma called_app k l1 l2 : called k (l1 ++ l2) ↔ called k l1 ∨ called k l2.
Proof. unfold called. set_solver. Qed.

Lemma called_call k i c w a : called k [Call i c w a] ↔ k = i.
Proof. unfold called. split; [set_solver|intros ->; exists c, w, a; set_solver]. Qed.

Lemma string_app_empty (a b : string) : a +:+ b ≠ EmptyString ↔ a ≠ EmptyString ∨ b ≠ EmptyString.
Proof. destruct a as [|x a]; [naive_solver|]. split; [by left|]. intros _. discriminate. Qed.

Lemma reasoned_app l1 l2 : reasoned (l1 ++ l2) = reasoned l1 +:+ reasoned l2.
Proof. unfold reasoned. by rewrite omap_app, concat_str_app. Qed.

Lemma said_app l1 l2 : said (l1 ++ l2) = said l1 +:+ said l2.
Proof. unfold said. by rewrite omap_app, concat_str_app. Qed.

Lemma bt_get_set {A : Type} k j (x : A) m : ordered m → bt_get j (bt_set k x m) = if decide (j = k) then Some x else bt_get j m.
Proof.
  induction m as [|[i a] m IH]; intros Ho; cbn; [done|]. destruct (ordered_tail _ _ _ Ho) as [Ht Hlt].
  destruct (Z.compare_spec k i) as [->|Hki|Hki]; cbn.
  - by destruct (decide (j = i)).
  - done.
  - rewrite (IH Ht). destruct (decide (j = i)) as [->|]; [|done]. rewrite decide_False by lia. done.
Qed.

(** ** What the stream has gathered *)

Definition holds_call (l : list Piece) (k : Z) (tool : ToolOutput) : Prop :=
  called k l ∧ to_call_id tool = call_text id_part k l ∧ to_wire_name tool = call_text name_part k l
  ∧ to_arguments tool = call_text arguments_part k l.

Record Heard (l : list Piece) (s : ResponsesStream) : Prop := {
  h_reasoning : rs_reasoning s = reasoned l;
  h_text : rs_text s = said l;
  h_reasoning_index : is_Some (rs_reasoning_output_index s) ↔ reasoned l ≠ EmptyString;
  h_message_index : is_Some (rs_message_output_index s) ↔ said l ≠ EmptyString;
  h_ordered : ordered (rs_tools s);
  h_calls : ∀ k, match bt_get k (rs_tools s) with Some tool => holds_call l k tool | None => ¬ called k l end;
}.

Lemma heard_new suffix model catalog : Heard [] (new_stream suffix model catalog).
Proof.
  split; cbn; [done|done| | |constructor|].
  - split; [by intros []|done].
  - split; [by intros []|done].
  - intros k (c & w & a & Hin). by apply not_elem_of_nil in Hin.
Qed.

(** Pieces that concern no call leave the calls as they are. *)
Lemma holds_call_skip l p k tool :
  (∀ i c w a, p ≠ Call i c w a) → holds_call l k tool → holds_call (l ++ [p]) k tool.
Proof.
  intros Hp (Hc & E1 & E2 & E3). unfold holds_call. rewrite called_app, !call_text_app.
  destruct p as [d|d|]; [| |by edestruct Hp]; cbn; rewrite !string_app_nil; auto.
Qed.

Lemma uncalled_skip l p k : (∀ i c w a, p ≠ Call i c w a) → ¬ called k l → ¬ called k (l ++ [p]).
Proof. intros Hp Hn. rewrite called_app. intros [|(c & w & a & E%list_elem_of_singleton)]; [done|]. by edestruct Hp. Qed.

Lemma heard_reasoning_delta d l s : Heard l s → Heard (l ++ [Reason d]) (reasoning_delta d s).2.
Proof.
  intros [H1 H2 H3 H4 H5 H6]. assert (reasoned (l ++ [Reason d]) = reasoned l +:+ d) as Er.
  { rewrite reasoned_app. unfold reasoned at 2. cbn [omap list_omap reason_of]. by rewrite concat_str_one. }
  assert (said (l ++ [Reason d]) = said l) as Es by (rewrite said_app; apply string_app_nil).
  assert (∀ k, match bt_get k (rs_tools s) with Some tool => holds_call (l ++ [Reason d]) k tool | None => ¬ called k (l ++ [Reason d]) end) as Hc.
  { intros k. specialize (H6 k). destruct (bt_get k (rs_tools s)); [by apply holds_call_skip|by apply uncalled_skip]. }
  unfold reasoning_delta. destruct (decide (d = EmptyString)) as [->|Hd].
  - rewrite string_app_nil in Er. split; cbn; by rewrite ?Er, ?Es.
  - destruct (rs_reasoning_output_index s) as [i|] eqn:Ei; split; cbn; rewrite ?Er, ?Es, ?H1; try done;
      (split; [intros _; apply string_app_empty; by right|done]).
Qed.

Lemma heard_text_delta d l s : Heard l s → Heard (l ++ [Say d]) (text_delta d s).2.
Proof.
  intros [H1 H2 H3 H4 H5 H6]. assert (said (l ++ [Say d]) = said l +:+ d) as Es.
  { rewrite said_app. unfold said at 2. cbn [omap list_omap say_of]. by rewrite concat_str_one. }
  assert (reasoned (l ++ [Say d]) = reasoned l) as Er by (rewrite reasoned_app; apply string_app_nil).
  assert (∀ k, match bt_get k (rs_tools s) with Some tool => holds_call (l ++ [Say d]) k tool | None => ¬ called k (l ++ [Say d]) end) as Hc.
  { intros k. specialize (H6 k). destruct (bt_get k (rs_tools s)); [by apply holds_call_skip|by apply uncalled_skip]. }
  unfold text_delta. destruct (decide (d = EmptyString)) as [->|Hd].
  - rewrite string_app_nil in Es. split; cbn; by rewrite ?Er, ?Es.
  - destruct (rs_message_output_index s) as [i|] eqn:Ei; split; cbn; rewrite ?Er, ?Es, ?H2; try done;
      (split; [intros _; apply string_app_empty; by right|done]).
Qed.

(** The entry with the piece appended. *)
Lemma holds_call_entry l s suffix k c w a tool :
  Heard l s →
  tool = tool_entry s suffix k c w a ∨ (∃ i, tool = announced (tool_entry s suffix k c w a) i) →
  holds_call (l ++ [Call k c w a]) k tool.
Proof.
  intros Hh Ht. assert (holds_call (l ++ [Call k c w a]) k (tool_entry s suffix k c w a)) as He.
  { pose proof (h_calls _ _ Hh k) as Hk. unfold holds_call, tool_entry. rewrite called_app, called_call, !call_text_app, !call_text_call.
    rewrite !decide_True by done. destruct (bt_get k (rs_tools s)) as [old|]; cbn.
    - destruct Hk as (_ & -> & -> & ->). split; [by right|done].
    - rewrite !call_text_uncalled by done. split; [by right|done]. }
  destruct Ht as [->|[i ->]]; exact He.
Qed.

Lemma holds_call_other l k i c w a tool : k ≠ i → holds_call l k tool → holds_call (l ++ [Call i c w a]) k tool.
Proof.
  intros Hne (Hc & E1 & E2 & E3). unfold holds_call. rewrite called_app, !call_text_app, !call_text_call.
  rewrite !decide_False by done. rewrite !string_app_nil. auto.
Qed.

Lemma heard_tool_delta suffix i c w a l s : Heard l s → Heard (l ++ [Call i c w a]) (tool_delta suffix i c w a s).2.
Proof.
  intros Hh. pose proof (holds_call_entry l s suffix i c w a) as He. pose proof Hh as [H1 H2 H3 H4 H5 H6].
  assert (reasoned (l ++ [Call i c w a]) = reasoned l) as Er by (rewrite reasoned_app; apply string_app_nil).
  assert (said (l ++ [Call i c w a]) = said l) as Es by (rewrite said_app; apply string_app_nil).
  assert (∀ tool next, tool = tool_entry s suffix i c w a ∨ (∃ j, tool = announced (tool_entry s suffix i c w a) j) →
            Heard (l ++ [Call i c w a]) (with_tools (bt_set i tool (rs_tools s)) next s)) as Hset.
  { intros tool next Ht. split; cbn; rewrite ?Er, ?Es; try done; [by apply bt_set_ordered|].
    intros k. rewrite bt_get_set by done. destruct (decide (k = i)) as [->|Hne]; [by apply He|].
    specialize (H6 k). destruct (bt_get k (rs_tools s)); [by apply holds_call_other|].
    rewrite called_app, called_call. tauto. }
  unfold tool_delta. destruct (to_output_index _); [apply Hset; by left|].
  destruct (by_wire_name _ _); [|apply Hset; by left]. destruct (bool_decide _ && _); apply Hset; [right; by eexists|by left].
Qed.

(** ** Completed items *)

Definition done_item (v : Value) : option Value :=
  if decide (get_str "type" v = Some "response.output_item.done") then value_get "item" v else None.

Definition done_items (events : list Value) : list Value := omap done_item events.

Lemma done_item_done i item : done_item (item_done i item) = Some item.
Proof. reflexivity. Qed.

Lemma reasoning_delta_undone d s : done_items (reasoning_delta d s).1 = [].
Proof. unfold reasoning_delta. case_decide; [done|]. by destruct (rs_reasoning_output_index s). Qed.

Lemma text_delta_undone d s : done_items (text_delta d s).1 = [].
Proof. unfold text_delta. case_decide; [done|]. by destruct (rs_message_output_index s). Qed.

Lemma added_undone i tool b : done_item (output_item_added i tool b) = None.
Proof. unfold output_item_added. by destruct (tb_kind b). Qed.

Lemma tool_delta_undone suffix i c w a s : done_items (tool_delta suffix i c w a s).1 = [].
Proof.
  unfold tool_delta. destruct (to_output_index _); [done|]. destruct (by_wire_name _ _); [|done].
  destruct (bool_decide _ && _); [|done]. unfold done_items. cbn. by rewrite added_undone.
Qed.

Section finishing.
Context `{JsonCodec, PatchParser}.

(** The item of a call: the tool its name leads to, with its arguments. *)
Definition completes (catalog : ToolCatalog) (tool : ToolOutput) (item : Value) : Prop :=
  ∃ b input, by_wire_name catalog (to_wire_name tool) = Some b ∧ custom_input_of b (to_arguments tool) = Ok input
    ∧ item = completed_tool_item tool b input.

Lemma finish_tool_done catalog next tool one :
  finish_tool catalog next tool = Ok one → ∃ item, done_items one.1 = [item] ∧ completes catalog tool item.
Proof.
  unfold finish_tool. destruct (by_wire_name catalog (to_wire_name tool)) as [b|] eqn:Eb; [|done]. cbn [ok_or mbind result_bind].
  set (r := match to_output_index tool with Some _ => _ | None => _ end).
  assert (done_items r.2 = []) as Hr.
  { unfold r. destruct (to_output_index tool); [done|]. unfold done_items. cbn. by rewrite added_undone. }
  destruct r as [[index next'] added]. destruct (custom_input_of b (to_arguments tool)) as [input|] eqn:Ei; [|done].
  cbn. intros [= <-]. exists (completed_tool_item tool b input). split; [|by exists b, input].
  cbn in Hr |- *. unfold done_items in *. rewrite !omap_app, Hr. cbn [app]. by destruct input.
Qed.

Lemma finish_tools_done catalog tools next events :
  finish_tools catalog next tools = Ok events → Forall2 (completes catalog) tools.*2 (done_items events).
Proof.
  revert next events. induction tools as [|[k tool] tools IH]; intros next events; cbn [finish_tools].
  - intros [= <-]. constructor.
  - destruct (finish_tool catalog next tool) as [one|] eqn:E1; [|done]. cbn [mbind result_bind].
    destruct (finish_tools catalog one.2 tools) as [more|] eqn:E2; [|done]. cbn. intros [= <-].
    destruct (finish_tool_done _ _ _ _ E1) as (item & Hd & Hc). unfold done_items in *. rewrite omap_app, Hd.
    constructor; [done|]. by eapply IH.
Qed.

Lemma terminal_undone s : done_item (terminal_event s) = None.
Proof. unfold terminal_event. destruct (rs_finish_reason s); repeat case_decide; done. Qed.

(** The reasoning and the message an answer ends with. *)
Definition reasoning_items (s : ResponsesStream) (reasoning : string) (ps : option ProviderState) : list Value :=
  if decide (reasoning = EmptyString ∧ ps = None) then []
  else [reasoning_item (rs_reasoning_id s) reasoning (encode_provider_state <$> ps)].

Definition message_items (s : ResponsesStream) (text : string) : list Value :=
  if decide (text = EmptyString) then [] else [message_completed (rs_message_id s) text].

Lemma finish_done l s ps events :
  Heard l s → finish s ps = Ok events →
  ∃ items, done_items events = reasoning_items s (reasoned l) ps ++ message_items s (said l) ++ items
    ∧ Forall2 (completes (rs_catalog s)) (rs_tools s).*2 items.
Proof.
  intros [H1 H2 H3 H4 H5 H6] Hf. unfold finish in Hf.
  assert (done_items (finish_reasoning s ps).1 = reasoning_items s (reasoned l) ps) as Hr.
  { unfold finish_reasoning, reasoning_items. destruct (rs_reasoning_output_index s) as [i|].
    - destruct H3 as [H3 _]. specialize (H3 ltac:(done)). rewrite decide_False by tauto. cbn. by rewrite <- H1.
    - assert (reasoned l = EmptyString) as E.
      { destruct (decide (reasoned l = EmptyString)) as [|Hne]; [done|]. by apply H3 in Hne as []. }
      rewrite E. destruct ps as [st|]; [rewrite decide_False by naive_solver; done|by rewrite decide_True]. }
  assert (done_items (finish_message s) = message_items s (said l)) as Hm.
  { unfold finish_message, message_items. destruct (rs_message_output_index s) as [i|].
    - destruct H4 as [H4 _]. specialize (H4 ltac:(done)). rewrite decide_False by done. cbn. by rewrite <- H2.
    - rewrite decide_True; [done|]. destruct (decide (said l = EmptyString)) as [|Hne]; [done|]. by apply H4 in Hne as []. }
  destruct (finish_reasoning s ps) as [reasoning next]. cbn [fst snd] in *.
  destruct (finish_tools (rs_catalog s) next (rs_tools s)) as [tools|] eqn:Et; [|done]. cbn in Hf. simplify_eq.
  exists (done_items tools). unfold done_items in *. rewrite !omap_app. cbn [omap list_omap]. rewrite terminal_undone, Hr, Hm.
  split; [by rewrite app_nil_r|]. by eapply finish_tools_done.
Qed.
End finishing.

(** ** The pieces of a provider event *)

Definition chat_call_piece (tool : Value) : Piece :=
  let function := default Null (value_get "function" tool) in
  Call (default 0 (get_u64 "index" tool)) (get_str "id" tool) (get_str "name" function) (get_str "arguments" function).

Definition chat_pieces (chunk : Value) : list Piece :=
  match first_choice chunk ≫= value_get "delta" with
  | Some delta => Reason (str_or_empty "reasoning_content" delta) :: Say (str_or_empty "content" delta)
                  :: (chat_call_piece <$> default [] (get_array "tool_calls" delta))
  | None => []
  end.

Section pieces.
Context `{JsonCodec, PatchParser, UuidSource}.

(** A call that closes without input has the empty object. *)
Definition anthropic_pieces (event : Value) (blocks : list (Z * AnthropicBlock)) : list Piece :=
  let index := block_index event in
  let block := default Null (value_get "content_block" event) in
  let delta := default Null (value_get "delta" event) in
  let kind := str_or_empty "type" event in
  if decide (kind = "content_block_start") then
    let block_kind := str_or_empty "type" block in
    if decide (block_kind = "thinking") then [Reason (str_or_empty "thinking" block)]
    else if decide (block_kind = "text") then [Say (str_or_empty "text" block)]
    else if decide (block_kind = "tool_use") then
      let input := default (Object []) (value_get "input" block) in
      [Call index (get_str "id" block) (get_str "name" block)
         (if negb (as_empty_object input) then Some (json_text input) else None)]
    else []
  else if decide (kind = "content_block_delta") then
    let delta_kind := str_or_empty "type" delta in
    if decide (delta_kind = "thinking_delta") then [Reason (str_or_empty "thinking" delta)]
    else if decide (delta_kind = "text_delta") then [Say (str_or_empty "text" delta)]
    else if decide (delta_kind = "input_json_delta") then [Call index None None (get_str "partial_json" delta)]
    else []
  else if decide (kind = "content_block_stop") then
    match bt_get index blocks with Some (Tool false) => [Call index None None (Some "{}")] | _ => [] end
  else [].

Definition event_pieces (event : Value) (t : Translator) : list Piece :=
  match t with ChatTranslator _ => chat_pieces event | AnthropicTranslator t => anthropic_pieces event (at_blocks t) end.

(** All the events of a provider, and their pieces. *)
Fixpoint push_all (values : list Value) (t : Translator) : result TranslationError (list Value * Translator) :=
  match values with
  | [] => Ok ([], t)
  | v :: rest =>
      one ← translator_push v t;
      more ← push_all rest one.2;
      Ok (one.1 ++ more.1, more.2)
  end.

Fixpoint all_pieces (values : list Value) (t : Translator) : list Piece :=
  match values with
  | [] => []
  | v :: rest =>
      event_pieces v t ++ match translator_push v t with Ok (_, t') => all_pieces rest t' | Err _ => [] end
  end.

(** What a step does to what was gathered, and that it completes no item. *)
Definition Hears (s : ResponsesStream) (events : list Value) (pieces : list Piece) (s' : ResponsesStream) : Prop :=
  (∀ l, Heard l s → Heard (l ++ pieces) s') ∧ done_items events = []
  ∧ rs_catalog s' = rs_catalog s ∧ rs_reasoning_id s' = rs_reasoning_id s ∧ rs_message_id s' = rs_message_id s.

Lemma hears_quiet s s' : (∀ l, Heard l s → Heard l s') → rs_catalog s' = rs_catalog s →
  rs_reasoning_id s' = rs_reasoning_id s → rs_message_id s' = rs_message_id s → Hears s [] [] s'.
Proof. intros Hh E1 E2 E3. split; [|done]. intros l. rewrite app_nil_r. apply Hh. Qed.

Lemma hears_app s1 e1 p1 s2 e2 p2 s3 : Hears s1 e1 p1 s2 → Hears s2 e2 p2 s3 → Hears s1 (e1 ++ e2) (p1 ++ p2) s3.
Proof.
  intros (Ha & Hd & E1 & E2 & E3) (Ha' & Hd' & E1' & E2' & E3'). split.
  - intros l Hl. rewrite app_assoc. auto.
  - unfold done_items in *. rewrite omap_app, Hd, Hd'. split; [done|]. split; [congruence|]. split; congruence.
Qed.

Lemma hears_reasoning d s : Hears s (reasoning_delta d s).1 [Reason d] (reasoning_delta d s).2.
Proof.
  split; [intros l; apply heard_reasoning_delta|]. split; [apply reasoning_delta_undone|].
  unfold reasoning_delta. case_decide; [done|]. by destruct (rs_reasoning_output_index s).
Qed.

Lemma hears_text d s : Hears s (text_delta d s).1 [Say d] (text_delta d s).2.
Proof.
  split; [intros l; apply heard_text_delta|]. split; [apply text_delta_undone|].
  unfold text_delta. case_decide; [done|]. by destruct (rs_message_output_index s).
Qed.

Lemma hears_tool suffix i c w a s : Hears s (tool_delta suffix i c w a s).1 [Call i c w a] (tool_delta suffix i c w a s).2.
Proof.
  split; [intros l; apply heard_tool_delta|]. split; [apply tool_delta_undone|].
  unfold tool_delta. destruct (to_output_index _); [done|]. destruct (by_wire_name _ _); [|done]. by destruct (bool_decide _ && _).
Qed.

Lemma heard_usage u l s : Heard l s → Heard l (set_usage u s).
Proof. by intros [? ? ? ? ? ?]. Qed.

Lemma heard_reason r l s : Heard l s → Heard l (set_finish_reason r s).
Proof. destruct r; [|done]. by intros [? ? ? ? ? ?]. Qed.

Lemma hears_usage u s : Hears s [] [] (set_usage u s).
Proof. apply hears_quiet; try done. intros l. apply heard_usage. Qed.

Lemma hears_reason r s : Hears s [] [] (set_finish_reason r s).
Proof. apply hears_quiet; [intros l; apply heard_reason|by destruct r..]. Qed.

Lemma hears_chat_usage chunk s : Hears s [] [] (set_chat_usage chunk s).
Proof.
  unfold set_chat_usage. destruct (value_get "usage" chunk) as [u|]; [destruct (is_null u)|]; try apply hears_usage; by apply hears_quiet.
Qed.

Lemma hears_chat_tools tools events s n pieces s0 :
  Hears s0 events pieces s →
  ∃ events' s' n', chat_tool_deltas tools (events, s, n) = (events', s', n')
    ∧ Hears s0 events' (pieces ++ (chat_call_piece <$> tools)) s'.
Proof.
  revert events s n pieces. induction tools as [|tool tools IH]; intros events s n pieces Hh.
  { exists events, s, n. cbn. by rewrite app_nil_r. }
  cbn [chat_tool_deltas foldl chat_tool_delta]. set (fn := default Null (value_get "function" tool)).
  pose proof (hears_tool (new_v4 n) (default 0 (get_u64 "index" tool)) (get_str "id" tool) (get_str "name" fn)
                (get_str "arguments" fn) s) as Ht.
  destruct (tool_delta _ _ _ _ _ s) as [more s']. cbn [fst snd] in Ht.
  destruct (IH (events ++ more) s' (S n) _ (hears_app _ _ _ _ _ _ _ Hh Ht)) as (e' & s'' & n' & E & Hh').
  exists e', s'', n'. split; [exact E|]. rewrite <- app_assoc in Hh'. exact Hh'.
Qed.

Lemma reasoned_calls tools : reasoned (chat_call_piece <$> tools) = EmptyString.
Proof. by induction tools. Qed.

Lemma hears_chat_push v t events t' :
  chat_push v t = Ok (events, t') →
  Hears (ct_responses t) events (chat_pieces v) (ct_responses t') ∧ ct_reasoning t' = ct_reasoning t +:+ reasoned (chat_pieces v).
Proof.
  intros Hp. unfold chat_push in Hp. unfold chat_pieces. destruct (value_get "error" v); [done|].
  pose proof (hears_chat_usage v (ct_responses t)) as Hu. set (s1 := set_chat_usage v (ct_responses t)) in *.
  destruct (first_choice v) as [choice|]; cbn [mbind option_bind]; [|simplify_eq; cbn; by rewrite string_app_nil].
  pose proof (hears_app _ _ _ _ _ _ _ Hu (hears_reason (nonempty (get_str "finish_reason" choice)) s1)) as Hr.
  set (s2 := set_finish_reason _ s1) in *.
  destruct (value_get "delta" choice) as [delta|]; [|simplify_eq; cbn; by rewrite string_app_nil].
  unfold chat_delta in Hp.
  pose proof (hears_reasoning (default EmptyString (get_str "reasoning_content" delta)) s2) as Hr1.
  destruct (reasoning_delta _ s2) as [e1 s3]. cbn [fst snd] in Hr1.
  pose proof (hears_text (default EmptyString (get_str "content" delta)) s3) as Ht1.
  destruct (text_delta _ s3) as [e2 s4]. cbn [fst snd] in Ht1.
  destruct (hears_chat_tools (default [] (get_array "tool_calls" delta)) (e1 ++ e2) s4 (ct_drawn t) _ _
              (hears_app _ _ _ _ _ _ _ Hr (hears_app _ _ _ _ _ _ _ Hr1 Ht1))) as (e' & s' & n' & E & Hh).
  rewrite E in Hp. simplify_eq. split; [exact Hh|]. cbn [ct_reasoning]. f_equal.
  change (Reason ?d :: ?r) with ([Reason d] ++ r). rewrite reasoned_app. change (Say ?d :: ?r) with ([Say d] ++ r).
  rewrite reasoned_app, reasoned_calls. unfold reasoned. cbn [omap list_omap reason_of concat_str]. by rewrite !string_app_nil.
Qed.

Lemma hears_block_start v t events t' :
  str_or_empty "type" v = "content_block_start" → block_start v t = Ok (events, t') →
  Hears (at_responses t) events (anthropic_pieces v (at_blocks t)) (at_responses t').
Proof.
  intros Hk. unfold block_start, anthropic_pieces. rewrite Hk.
  set (block := default Null (value_get "content_block" v)).
  rewrite (decide_True (P := "content_block_start" = "content_block_start")) by done.
  pose proof (hears_reasoning (str_or_empty "thinking" block) (at_responses t)) as Hr.
  pose proof (hears_text (str_or_empty "text" block) (at_responses t)) as Ht.
  destruct (decide (str_or_empty "type" block = "thinking")).
  { destruct (reasoning_delta _ _). intros [= <- <-]. done. }
  destruct (decide (str_or_empty "type" block = "redacted_thinking")) as [E|].
  { intros [= <- <-]. rewrite !decide_False by congruence. by apply hears_quiet. }
  destruct (decide (str_or_empty "type" block = "text")).
  { destruct (text_delta _ _). intros [= <- <-]. done. }
  destruct (decide (str_or_empty "type" block = "tool_use")); [|done].
  match goal with |- context [tool_delta ?n ?i ?c ?w ?a ?s] => pose proof (hears_tool n i c w a s) as Hd end.
  destruct (tool_delta _ _ _ _ _ _). intros [= <- <-]. done.
Qed.

Lemma hears_block_delta v t events t' :
  str_or_empty "type" v = "content_block_delta" → block_delta v t = Ok (events, t') →
  Hears (at_responses t) events (anthropic_pieces v (at_blocks t)) (at_responses t').
Proof.
  intros Hk. unfold block_delta, anthropic_pieces.
  rewrite Hk, (decide_False (P := "content_block_delta" = "content_block_start")) by done.
  rewrite (decide_True (P := "content_block_delta" = "content_block_delta")) by done.
  set (delta := default Null (value_get "delta" v)).
  pose proof (hears_reasoning (str_or_empty "thinking" delta) (at_responses t)) as Hr.
  pose proof (hears_text (str_or_empty "text" delta) (at_responses t)) as Ht.
  destruct (decide (str_or_empty "type" delta = "thinking_delta")).
  { destruct (reasoning_delta _ _). intros [= <- <-]. done. }
  destruct (decide (str_or_empty "type" delta = "signature_delta")) as [E|].
  { intros [= <- <-]. rewrite !decide_False by congruence. by apply hears_quiet. }
  destruct (decide (str_or_empty "type" delta = "text_delta")).
  { destruct (text_delta _ _). intros [= <- <-]. done. }
  destruct (decide (str_or_empty "type" delta = "input_json_delta")); [|done].
  match goal with |- context [tool_delta ?n ?i ?c ?w ?a ?s] => pose proof (hears_tool n i c w a s) as Hd end.
  destruct (tool_delta _ _ _ _ _ _). intros [= <- <-]. done.
Qed.

Lemma hears_block_stop v t events t' :
  str_or_empty "type" v = "content_block_stop" → block_stop v t = Ok (events, t') →
  Hears (at_responses t) events (anthropic_pieces v (at_blocks t)) (at_responses t').
Proof.
  intros Hk. unfold block_stop, anthropic_pieces.
  rewrite Hk, (decide_False (P := "content_block_stop" = "content_block_start")) by done.
  rewrite (decide_False (P := "content_block_stop" = "content_block_delta")) by done.
  rewrite (decide_True (P := "content_block_stop" = "content_block_stop")) by done.
  assert (Hears (at_responses t) [] [] (at_responses t)) as Hq by (by apply hears_quiet).
  destruct (bt_get _ _) as [[| [|] | |]|]; try (by intros [= <- <-]).
  match goal with |- context [tool_delta ?n ?i ?c ?w ?a ?s] => pose proof (hears_tool n i c w a s) as Hd end.
  destruct (tool_delta _ _ _ _ _ _). intros [= <- <-]. done.
Qed.

(** Events of other kinds say nothing. *)
Lemma other_event_pieces v blocks :
  str_or_empty "type" v ≠ "content_block_start" → str_or_empty "type" v ≠ "content_block_delta" →
  str_or_empty "type" v ≠ "content_block_stop" → anthropic_pieces v blocks = [].
Proof. intros Hs Hd Hp. unfold anthropic_pieces. by rewrite !decide_False by done. Qed.

Lemma hears_anthropic_event v t events t' :
  anthropic_event v t = Ok (events, t') → Hears (at_responses t) events (anthropic_pieces v (at_blocks t)) (at_responses t').
Proof.
  unfold anthropic_event. assert (Hears (at_responses t) [] [] (at_responses t)) as Hq by (by apply hears_quiet).
  case_decide as E1; [intros [= <- <-]; by rewrite other_event_pieces by (by rewrite E1)|].
  case_decide as E2; [by apply hears_block_start|]. case_decide as E3; [by apply hears_block_delta|].
  case_decide as E4; [by apply hears_block_stop|].
  rewrite other_event_pieces by done.
  case_decide as E5; [intros [= <- <-]; apply hears_reason|]. case_decide; [done|].
  case_decide; [by intros [= <- <-]|]. case_decide; [by intros [= <- <-]|done].
Qed.

Lemma hears_translator_push v t events t' :
  translator_push v t = Ok (events, t') → Hears (translator_stream t) events (event_pieces v t) (translator_stream t').
Proof.
  destruct t as [t|t]; cbn; intros Hp.
  - destruct (chat_push v t) as [[events1 t1]|] eqn:E; [|done]. cbn in Hp. simplify_eq. by apply hears_chat_push.
  - unfold anthropic_push in Hp. destruct (anthropic_event v t) as [[events1 t1]|] eqn:E; [|done]. cbn in Hp. simplify_eq.
    apply hears_anthropic_event in E. pose proof (hears_app _ _ _ _ _ _ _ E (hears_usage (at_usage t1) _)) as Hh.
    by rewrite !app_nil_r in Hh.
Qed.

Lemma hears_push_all values t events t' :
  push_all values t = Ok (events, t') → Hears (translator_stream t) events (all_pieces values t) (translator_stream t').
Proof.
  revert t events. induction values as [|v values IH]; intros t events; cbn [push_all all_pieces].
  - intros [= <- <-]. by apply hears_quiet.
  - destruct (translator_push v t) as [[e1 t1]|] eqn:E1; [|done]. cbn [mbind result_bind fst snd].
    destruct (push_all values t1) as [[e2 t2]|] eqn:E2; [|done]. cbn. intros [= <- <-].
    eapply hears_app; [by apply hears_translator_push|by apply IH].
Qed.

(** ** The answer *)

Definition new_translator (chat : bool) (drawn : nat) (model : string) (tools : ToolCatalog) : Translator :=
  if chat then ChatTranslator (new_chat drawn model tools) else AnthropicTranslator (new_anthropic drawn model tools).

Definition translator_state (t : Translator) : option ProviderState :=
  match t with ChatTranslator t => chat_state t | AnthropicTranslator t => anthropic_state t end.

(** The calls of the pieces, in the order of their positions. *)
Definition gathered (l : list Piece) (calls : list (Z * ToolOutput)) : Prop :=
  StronglySorted Z.lt calls.*1 ∧ (∀ k, k ∈ calls.*1 ↔ called k l) ∧ ∀ k tool, (k, tool) ∈ calls → holds_call l k tool.

Lemma bt_get_elem {A : Type} k (a : A) m : ordered m → (k, a) ∈ m ↔ bt_get k m = Some a.
Proof.
  induction m as [|[j b] m IH]; intros Ho; cbn; [split; [set_solver|done]|].
  destruct (ordered_tail _ _ _ Ho) as [Ht Hlt]. rewrite elem_of_cons. destruct (decide (k = j)) as [->|Hne].
  - split; [|intros [= ->]; by left]. intros [[= ->]|Hin]; [done|]. specialize (Hlt _ _ Hin). lia.
  - rewrite <- (IH Ht). naive_solver.
Qed.

Lemma heard_gathered l s : Heard l s → gathered l (rs_tools s).
Proof.
  intros [_ _ _ _ Ho Hc]. split; [done|]. split.
  - intros k. specialize (Hc k). split.
    + intros ([k' tool] & -> & Hin)%list_elem_of_fmap. cbn. cbn in Hc. apply (bt_get_elem _ _ _ Ho) in Hin. rewrite Hin in Hc. apply Hc.
    + intros Hk. destruct (bt_get k (rs_tools s)) as [tool|] eqn:E; [|done]. apply (bt_get_elem _ _ _ Ho) in E.
      apply list_elem_of_fmap. by exists (k, tool).
  - intros k tool Hin. apply (bt_get_elem _ _ _ Ho) in Hin. specialize (Hc k). by rewrite Hin in Hc.
Qed.

Lemma translator_finish_stream saw t events :
  translator_finish saw t = Ok events → finish (translator_stream t) (translator_state t) = Ok events.
Proof.
  destruct t as [t|t]; cbn.
  - unfold chat_finish. destruct (negb _); [done|]. by destruct (negb _).
  - unfold anthropic_finish. destruct (at_blocks t); [|done]. destruct (negb _); [done|]. by destruct (negb _).
Qed.
End pieces.

(** C25: An answer that comes to its end completes, in this order, one
    reasoning item with all the reasoning the provider sent, one message with
    all the text it sent, and for each tool call position, in ascending order,
    one call of the tool its name leads to, with the call id, the name and the
    arguments put together from the pieces sent for that position; nothing else
    is completed, however the pieces were split and interleaved. *)
Theorem answer_faithful `{JsonCodec, PatchParser, UuidSource} chat drawn model tools values sent t saw last :
  push_all values (new_translator chat drawn model tools) = Ok (sent, t) →
  translator_finish saw t = Ok last →
  let pieces := all_pieces values (new_translator chat drawn model tools) in
  let s0 := translator_stream (new_translator chat drawn model tools) in
  ∃ calls items, gathered pieces calls ∧ Forall2 (completes tools) calls.*2 items
    ∧ done_items (sent ++ last)
      = reasoning_items s0 (reasoned pieces) (translator_state t) ++ message_items s0 (said pieces) ++ items.
Proof.
  intros Hp Hf. apply translator_finish_stream in Hf. apply hears_push_all in Hp as (Hh & Hd & Ec & Er & Em).
  assert (Heard (all_pieces values (new_translator chat drawn model tools)) (translator_stream t)) as Hheard.
  { apply (Hh []). destruct chat; apply heard_new. }
  destruct (finish_done _ _ _ _ Hheard Hf) as (items & Hi & Hall). exists (rs_tools (translator_stream t)), items.
  split; [by apply heard_gathered|]. split; [by destruct chat; rewrite Ec in Hall|].
  unfold done_items in *. rewrite omap_app, Hd, Hi. unfold reasoning_items, message_items. by rewrite Er, Em.
Qed.

Definition demo_pushed : list Value * Translator :=
  match push_all demo_chunks (new_translator true 0 "glm-5.2" demo_catalog) with Ok p => p | Err _ => ([], demo_translator) end.

Definition demo_last : list Value :=
  match translator_finish true demo_pushed.2 with Ok l => l | Err _ => [] end.

Lemma answer_faithful_witness :
  push_all demo_chunks (new_translator true 0 "glm-5.2" demo_catalog) = Ok (demo_pushed.1, demo_pushed.2)
  ∧ translator_finish true demo_pushed.2 = Ok demo_last
  ∧ ∃ calls items, gathered (all_pieces demo_chunks demo_translator) calls ∧ Forall2 (completes demo_catalog) calls.*2 items.
Proof.
  assert (push_all demo_chunks (new_translator true 0 "glm-5.2" demo_catalog) = Ok (demo_pushed.1, demo_pushed.2)) as E1
    by (vm_compute; reflexivity).
  assert (translator_finish true demo_pushed.2 = Ok demo_last) as E2 by (vm_compute; reflexivity).
  split; [exact E1|]. split; [exact E2|].
  destruct (answer_faithful true 0 "glm-5.2" demo_catalog demo_chunks demo_pushed.1 demo_pushed.2 true demo_last E1 E2)
    as (calls & items & Hg & Hc & _). exists calls, items. split; [exact Hg|exact Hc].
Defined.
