(* ===== verification/BridgeRequests.v ===== *)
(** * Facts about the requests of the provider bridge

    The history of a thread reaches the Messages API in its order, grouped in
    turns that alternate; what a provider kept in the state of a reasoning item
    comes back to it; and the model catalog advertises only what a request may
    ask for. *)

From S2P Require Import Prelude Serde ProviderTools ResponseStream ChatBridge AnthropicBridge BridgeServer StreamLaws BridgeFidelity.
From Stdlib Require Import ZArith Ascii String.
From stdpp Require Import base gmap strings option list.

#[local] Open Scope string_scope.
#[local] Open Scope Z_scope.
#[local] Open Scope list_scope.

(** ** Turns *)

(** A message as its role and its blocks. *)
Definition turn (m : Value) : option (string * list Value) :=
  role ← get_str "role" m; content ← get_array "content" m; Some (role, content).

Definition turn_value (t : string * list Value) : Value := obj [("role", Str t.1); ("content", Array t.2)].

(** A block joins a turn of its role at the end, or opens one. *)
Fixpoint add_block (turns : list (string * list Value)) (role : string) (block : Value) : list (string * list Value) :=
  match turns with
  | [] => [(role, [block])]
  | [(r, content)] => if decide (r = role) then [(r, content ++ [block])] else [(r, content); (role, [block])]
  | t :: rest => t :: add_block rest role block
  end.

Definition flatten (turns : list (string * list Value)) : list (string * Value) :=
  concat ((λ t : string * list Value, pair t.1 <$> t.2) <$> turns).

Fixpoint alternates (turns : list (string * list Value)) : Prop :=
  match turns with
  | t1 :: ((t2 :: _) as rest) => t1.1 ≠ t2.1 ∧ alternates rest
  | _ => True
  end.

Lemma push_block_turns turns role block : push_block (turn_value <$> turns) role block = turn_value <$> add_block turns role block.
Proof.
  induction turns as [|[r content] turns IH]; [done|]. destruct turns as [|t2 turns].
  - cbn [fmap list_fmap push_block add_block]. change (get_str "role" (turn_value (r, content))) with (Some r).
    change (value_get "content" (turn_value (r, content))) with (Some (Array content)). cbv iota.
    destruct (decide (r = role)); reflexivity.
  - change (turn_value (r, content) :: push_block (turn_value <$> t2 :: turns) role block
            = turn_value (r, content) :: (turn_value <$> add_block (t2 :: turns) role block)). by rewrite IH.
Qed.

Lemma flatten_add turns role block : flatten (add_block turns role block) = flatten turns ++ [(role, block)].
Proof.
  induction turns as [|[r content] turns IH]; [done|]. destruct turns as [|t2 turns].
  - cbn. case_decide as E; cbn; rewrite !app_nil_r; [by rewrite fmap_app, E|done].
  - change (flatten ((r, content) :: add_block (t2 :: turns) role block) = flatten ((r, content) :: t2 :: turns) ++ [(role, block)]).
    unfold flatten in *. cbn [fmap list_fmap concat]. cbn [fmap list_fmap concat] in IH. rewrite <- app_assoc. f_equal. exact IH.
Qed.

Lemma add_block_first t turns role block : ∃ t' rest, add_block (t :: turns) role block = t' :: rest ∧ t'.1 = t.1.
Proof.
  destruct t as [r content], turns as [|t2 turns]; cbn [add_block]; [destruct (decide (r = role))|]; eexists _, _; by split.
Qed.

Lemma alternates_add turns role block : alternates turns → alternates (add_block turns role block).
Proof.
  induction turns as [|[r content] turns IH]; [done|]. destruct turns as [|t2 turns].
  - intros _. cbn [add_block]. by destruct (decide (r = role)).
  - intros [Hne Ha]. specialize (IH Ha). destruct (add_block_first t2 turns role block) as (t' & rest & E & E1).
    change (alternates ((r, content) :: add_block (t2 :: turns) role block)). rewrite E in IH |- *.
    cbn [alternates]. split; [by rewrite E1|done].
Qed.

Lemma add_block_nonempty turns role block :
  Forall (λ t, t.2 ≠ []) turns → Forall (λ t, t.2 ≠ []) (add_block turns role block).
Proof.
  induction turns as [|[r content] turns IH]; intros Hf; [by repeat constructor|]. inversion Hf as [|? ? Hc Hr]; subst.
  destruct turns as [|t2 turns]; [|constructor; [done|by apply IH]].
  cbn. case_decide; repeat constructor; cbn; [by intros [_ E]%app_eq_nil|done|done].
Qed.

Section history.
Context `{JsonCodec} (tools : ToolCatalog).

Definition item_kind (item : Value) : string := default EmptyString (get_str "type" item).
Definition item_role (item : Value) : string := default "user" (get_str "role" item).
Definition instructs (item : Value) : bool :=
  bool_decide (item_kind item = "message" ∧ item_role item ∈ ["developer"; "system"]).

(** The blocks an item stands for. *)
Definition item_blocks (item : Value) : list (string * Value) :=
  if decide (item_kind item = "message") then
    if instructs item then []
    else [(if decide (item_role item = "assistant") then "assistant" else "user", text_block (item_text item))]
  else if decide (item_kind item = "reasoning") then
    match reasoning_state item with Some (Anthropic blocks) => pair "assistant" <$> blocks | _ => [] end
  else if decide (item_kind item ∈ ["function_call"; "custom_tool_call"]) then
    [("assistant", tool_use_block (str_or_empty "call_id" item)
        (historical_wire_name tools (get_str "namespace" item) (str_or_empty "name" item)) (historical_input (item_kind item) item))]
  else if decide (item_kind item ∈ ["function_call_output"; "custom_tool_call_output"]) then
    [("user", tool_result_block (str_or_empty "call_id" item) (output_text (value_get "output" item)))]
  else [].

(** The turns that the blocks make. *)
Definition add_blocks (blocks : list (string * Value)) (turns : list (string * list Value)) : list (string * list Value) :=
  foldl (λ turns b, add_block turns b.1 b.2) turns blocks.

Definition system_text (system : string) (item : Value) : string :=
  if instructs item then (if decide (system = EmptyString) then system else system +:+ double_newline) +:+ item_text item
  else system.

Lemma required_string_Ok item fld s : required_string item fld = Ok s → str_or_empty fld item = s.
Proof.
  unfold required_string, str_or_empty. destruct (get_str fld item) as [[|c r]|]; cbn; [done| |done]. by intros [= <-].
Qed.

Lemma push_blocks_turns role blocks turns :
  foldl (λ messages block, push_block messages role block) (turn_value <$> turns) blocks
  = turn_value <$> add_blocks (pair role <$> blocks) turns.
Proof. revert turns. induction blocks as [|b blocks IH]; intros turns; [done|]. cbn. by rewrite push_block_turns, IH. Qed.

Lemma anthropic_step_turns item system turns st :
  anthropic_step tools item (system, turn_value <$> turns) = Ok st →
  st = (system_text system item, turn_value <$> add_blocks (item_blocks item) turns).
Proof.
  unfold anthropic_step, system_text, item_blocks, instructs. fold (item_kind item) (item_role item).
  destruct (decide (item_kind item = "message")) as [E|E].
  - destruct (decide (item_role item ∈ ["developer"; "system"])) as [Er|Er].
    + rewrite bool_decide_true by done. intros [= <-]. done.
    + rewrite bool_decide_false by tauto. intros [= <-]. cbn. by rewrite push_block_turns.
  - rewrite bool_decide_false by tauto. destruct (decide (item_kind item = "reasoning")).
    { destruct (reasoning_state item) as [[|blocks]|]; intros [= <-]; [done| |done]. by rewrite push_blocks_turns. }
    destruct (decide (item_kind item ∈ ["function_call"; "custom_tool_call"])).
    { destruct (required_string item "name") as [name|] eqn:E1; [|done]. cbn [mbind result_bind].
      destruct (required_string item "call_id") as [call_id|] eqn:E2; [|done]. cbn.
      apply required_string_Ok in E1 as <-, E2 as <-. intros [= <-]. by rewrite push_block_turns. }
    destruct (decide (item_kind item ∈ ["function_call_output"; "custom_tool_call_output"])).
    { destruct (required_string item "call_id") as [call_id|] eqn:E2; [|done]. cbn.
      apply required_string_Ok in E2 as <-. intros [= <-]. by rewrite push_block_turns. }
    destruct (decide (item_kind item = "compaction_trigger")); [|done]. by intros [= <-].
Qed.

Lemma anthropic_loop_turns input system turns st :
  anthropic_loop tools input (system, turn_value <$> turns) = Ok st →
  st = (foldl system_text system input, turn_value <$> add_blocks (concat (item_blocks <$> input)) turns).
Proof.
  revert system turns. induction input as [|item input IH]; intros system turns; cbn [anthropic_loop]; [by intros [= <-]|].
  destruct (anthropic_step tools item _) as [st'|] eqn:E; [|done]. cbn [mbind result_bind].
  apply anthropic_step_turns in E as ->. intros ->%IH. cbn. unfold add_blocks. by rewrite foldl_app.
Qed.

Lemma add_blocks_spec blocks turns :
  flatten (add_blocks blocks turns) = flatten turns ++ blocks
  ∧ (alternates turns → alternates (add_blocks blocks turns))
  ∧ (Forall (λ t, t.2 ≠ []) turns → Forall (λ t, t.2 ≠ []) (add_blocks blocks turns)).
Proof.
  revert turns. induction blocks as [|[role block] blocks IH]; intros turns; [cbn; by rewrite app_nil_r|].
  destruct (IH (add_block turns role block)) as (Hf & Ha & Hn).
  change (add_blocks ((role, block) :: blocks) turns) with (add_blocks blocks (add_block turns role block)).
  split; [rewrite Hf, flatten_add, <- app_assoc; done|].
  split; [intros; by apply Ha, alternates_add|intros; by apply Hn, add_block_nonempty].
Qed.
End history.

(** The messages of an Anthropic request hold, in the order of the
    conversation and each under its role, exactly the blocks its items stand
    for: no item is dropped, repeated or moved.  Neighbouring messages have
    different roles and none is empty, and the instructions given in the
    conversation follow those of the request. *)
Theorem anthropic_history_kept `{JsonCodec} tools input request system messages :
  build_anthropic_messages tools input request = Ok (system, messages) →
  ∃ turns, messages = turn_value <$> turns ∧ alternates turns ∧ Forall (λ t, t.2 ≠ []) turns
    ∧ flatten turns = concat (item_blocks tools <$> input)
    ∧ system = foldl system_text (str_or_empty "instructions" request) input.
Proof.
  intros Hb. apply (anthropic_loop_turns tools input _ []) in Hb. simplify_eq.
  destruct (add_blocks_spec (concat (item_blocks tools <$> input)) []) as (Hf & Ha & Hn).
  eexists. split; [done|]. split; [by apply Ha|]. split; [by apply Hn|]. by split.
Qed.

Definition demo_messages : string * list Value :=
  match build_anthropic_messages demo_catalog demo_input demo_request with Ok p => p | Err _ => ("", []) end.

Lemma anthropic_history_kept_witness :
  build_anthropic_messages demo_catalog demo_input demo_request = Ok (demo_messages.1, demo_messages.2)
  ∧ length demo_messages.2 = 3%nat
  ∧ ∃ turns, demo_messages.2 = turn_value <$> turns ∧ alternates turns.
Proof.
  assert (build_anthropic_messages demo_catalog demo_input demo_request = Ok (demo_messages.1, demo_messages.2)) as E
    by (vm_compute; reflexivity).
  split; [exact E|]. split; [vm_compute; reflexivity|].
  destruct (anthropic_history_kept demo_catalog demo_input demo_request _ _ E) as (turns & Ht & Ha & _). by exists turns.
Defined.

(** ** Provider state *)

Lemma strip_prefix_app p s : Prelude.strip_prefix p (p +:+ s) = Some s.
Proof.
  induction p as [|c p IH]; [done|]. change (String c p +:+ s) with (String c (p +:+ s)). cbn. by rewrite decide_True.
Qed.

Lemma mapM_Some_id {A : Type} (l : list A) : mapM Some l = Some l.
Proof. induction l as [|a l IH]; [done|]. cbn [mapM list_fmap]. cbn. rewrite IH. done. Qed.

Lemma de_ser_provider_state state : de (ser state) = Some state.
Proof.
  destruct state as [text|blocks]; [done|].
  change (de (ser (Anthropic blocks))) with (Anthropic <$> mapM (@Some Value) blocks). by rewrite mapM_Some_id.
Qed.

Section replay.
Context `{JsonCodec}.

Lemma decode_encode_provider_state state :
  json_parse (json_text (ser state)) = Ok (ser state) → decode_provider_state (encode_provider_state state) = Some state.
Proof.
  intros Hj. unfold decode_provider_state, encode_provider_state. rewrite strip_prefix_app. cbn [mbind option_bind].
  rewrite Hj. apply de_ser_provider_state.
Qed.

Lemma reasoning_item_state id text state :
  json_parse (json_text (ser state)) = Ok (ser state) →
  reasoning_state (reasoning_item id text (Some (encode_provider_state state))) = Some state.
Proof. intros Hj. rewrite <- decode_encode_provider_state by done. unfold reasoning_item. by destruct (decide (text = EmptyString)). Qed.
End replay.

(** What a provider needs to see again travels in the reasoning item the
    client keeps: when the item comes back in the history, the Anthropic provider
    is handed exactly the thinking blocks it sent, in its own turn, and the chat
    provider exactly its reasoning. *)
Theorem provider_state_replayed `{JsonCodec} tools id text state system messages a :
  json_parse (json_text (ser state)) = Ok (ser state) →
  let item := reasoning_item id text (Some (encode_provider_state state)) in
  match state with
  | Anthropic blocks =>
      anthropic_step tools item (system, messages)
      = Ok (system, foldl (λ messages block, push_block messages "assistant" block) messages blocks)
  | Chat reasoning =>
      message_step tools item (messages, a)
      = Ok (messages, mkAssistantMessage (am_content a) (am_reasoning_content a +:+ reasoning) (am_tool_calls a))
  end.
Proof.
  intros Hj item. pose proof (reasoning_item_state id text state Hj) as Hs.
  assert (get_str "type" item = Some "reasoning") as Ht by (unfold item, reasoning_item; by destruct (decide (text = EmptyString))).
  destruct state as [reasoning|blocks]; unfold message_step, anthropic_step; rewrite Ht; cbn [default];
    (rewrite decide_False by done; rewrite decide_True by done; fold item in Hs; by rewrite Hs).
Qed.

Lemma provider_state_replayed_witness :
  json_parse (json_text (ser demo_state)) = Ok (ser demo_state)
  ∧ anthropic_step demo_catalog (reasoning_item "rs_0" "" (Some (encode_provider_state demo_state))) ("", [])
    = Ok ("", [turn_value ("assistant", [Str "t1"; Str "t2"])]).
Proof.
  assert (json_parse (json_text (ser demo_state)) = Ok (ser demo_state)) as E by (vm_compute; reflexivity).
  split; [exact E|]. exact (provider_state_replayed demo_catalog "rs_0" "" demo_state "" [] empty_assistant E).
Defined.

(** ** Efforts *)

Lemma effort_supports_listed e effort : effort_supports e effort = true → effort ∈ REASONING_EFFORTS.
Proof.
  unfold effort_supports, REASONING_EFFORTS. case_decide; [set_solver|]. case_decide; [set_solver|]. case_decide; [set_solver|done].
Qed.

Lemma effort_supports_any e effort : effort_supports e effort = true → supports_any e = true.
Proof.
  unfold effort_supports. destruct e; [|done..]. repeat case_decide; done.
Qed.

(** The levels the catalog of an Anthropic model lists. *)
Lemma anthropic_levels profile model effort :
  pp_id profile = "anthropic" →
  effort ∈ mi_supported_reasoning_levels (model_catalog profile model)
  ↔ is_some_and (λ c, effort_supports (mc_effort c) effort) (anthropic_model_capabilities model) = true.
Proof.
  intros Hp. unfold model_catalog. rewrite bool_decide_true by done. cbn [mi_supported_reasoning_levels negb orb].
  destruct (anthropic_model_capabilities model) as [c|]; cbn [is_some_and]; [|split; [set_solver|done]].
  destruct (supports_any (mc_effort c)) eqn:Ea.
  - rewrite list_elem_of_filter. split; [naive_solver|]. intros He. split; [done|]. by eapply effort_supports_listed.
  - split; [set_solver|]. intros He%effort_supports_any. congruence.
Qed.

(** The model catalog and the translation of requests agree: for an
    Anthropic model, a reasoning effort other than "none" is accepted exactly
    when the catalog lists it, and the default effort of the catalog is one it
    lists. *)
Theorem advertised_efforts_accepted profile model effort body :
  pp_id profile = "anthropic" → effort ≠ "none" →
  let info := model_catalog profile model in
  let accepted := apply_effort model (anthropic_model_capabilities model) (Some effort) body in
  (effort ∈ mi_supported_reasoning_levels info → accepted = Ok (value_set "output_config" (obj [("effort", Str effort)]) body))
  ∧ (effort ∉ mi_supported_reasoning_levels info → ∃ e, accepted = Err e)
  ∧ (∀ level, mi_default_reasoning_level info = Some level → level ∈ mi_supported_reasoning_levels info).
Proof.
  intros Hp Hn info accepted. unfold info, accepted, apply_effort. rewrite decide_False by done.
  rewrite (anthropic_levels profile model effort Hp).
  split; [by intros ->|]. split.
  - intros ->%not_true_is_false. case_bool_decide; by eexists.
  - intros level. rewrite (anthropic_levels profile model level Hp). unfold model_catalog.
    rewrite bool_decide_true by done. cbn [mi_default_reasoning_level negb orb].
    destruct (anthropic_model_capabilities model) as [c|]; [|done]. cbn [is_some_and].
    destruct (supports_any (mc_effort c)) eqn:Ea; [|done]. intros [= <-]. exact Ea.
Qed.

Lemma advertised_efforts_accepted_witness :
  "xhigh" ∈ mi_supported_reasoning_levels (model_catalog (demo_profile "anthropic") "claude-opus-5")
  ∧ apply_effort "claude-opus-5" (anthropic_model_capabilities "claude-opus-5") (Some "xhigh") (Object [])
    = Ok (value_set "output_config" (obj [("effort", Str "xhigh")]) (Object [])).
Proof.
  assert ("xhigh" ∈ mi_supported_reasoning_levels (model_catalog (demo_profile "anthropic") "claude-opus-5")) as Hin.
  { apply (bool_decide_unpack _). vm_compute. reflexivity. }
  split; [exact Hin|].
  apply (advertised_efforts_accepted (demo_profile "anthropic") "claude-opus-5" "xhigh" (Object [])); [reflexivity|discriminate|exact Hin].
Defined.
