(* ===== verification/AttemptEvents.v ===== *)
(** * The events of an attempt

    [runtime/src/events.rs]: what the Codex session of an attempt reports becomes
    concise events in the job's log, written under the fence of the attempt; the
    text an agent streams is gathered into chunks cut between code points.
    Notifications and items of the vendored app-server protocol have the fields
    the mapping reads; statuses and phases are the values they serialize to. *)

From S2P Require Import Prelude Domain Rows Store Leases Events Serde ResponseStream.
From Stdlib Require Import ZArith Ascii String.
From stdpp Require Import base gmap sets strings list option.

#[local] Open Scope string_scope.
#[local] Open Scope Z_scope.
#[local] Open Scope list_scope.

Definition CHUNK_BYTES : nat := 1024.

(** [CoordinatorStore::append_attempt_event] as the writer reaches it. *)
Class EventSink (W : Type) : Type := {
  append_event : AttemptFence → NewAttemptEvent → proc W CoordinatorError unit;
}.

(** ** Code points *)

Definition within_code_point (c : ascii) : bool := let n := nat_of_ascii c in ((128 <=? n) && (n <? 192))%nat.

(** [str::is_char_boundary]. *)
Definition is_char_boundary (value : string) (n : nat) : bool :=
  match String.get n value with
  | Some c => (n =? 0)%nat || negb (within_code_point c)
  | None => (n =? String.length value)%nat
  end.

(** The greatest boundary that is not above [n]; 0 is one. *)
Fixpoint boundary_below (value : string) (n : nat) : nat :=
  match n with
  | O => O
  | S k => if is_char_boundary value n then n else boundary_below value k
  end.

Fixpoint leading_within (s : string) : nat :=
  match s with String c r => if within_code_point c then S (leading_within r) else O | EmptyString => O end.

(** [char::len_utf8] of the first character. *)
Definition first_char_len (value : string) : nat :=
  match value with String _ r => S (leading_within r) | EmptyString => O end.

Definition utf8_prefix (value : string) (limit : nat) : nat :=
  let split := boundary_below value (Nat.min (String.length value) limit) in
  if (split =? 0)%nat && negb (bool_decide (value = EmptyString)) then first_char_len value else split.

(** [String::split_off]. *)
Fixpoint split_at (n : nat) (s : string) : string * string :=
  match n, s with
  | S k, String c r => let '(a, b) := split_at k r in (String c a, b)
  | _, _ => (EmptyString, s)
  end.

(** ** Compact text *)

Definition CR : ascii := ascii_of_nat 13.
Definition LF : ascii := ascii_of_nat 10.

(** [replace("\r\n", "\n").replace('\r', "\n")]. *)
Fixpoint normalize_newlines (s : string) : string :=
  match s with
  | EmptyString => EmptyString
  | String c r =>
      if decide (c = CR) then
        match r with
        | String c' r' => if decide (c' = LF) then String LF (normalize_newlines r') else String LF (normalize_newlines r)
        | EmptyString => String LF EmptyString
        end
      else String c (normalize_newlines r)
  end.

(** [str::lines]: what follows the last line feed is a line unless it is empty. *)
Fixpoint lines_from (line : string) (s : string) : list string :=
  match s with
  | EmptyString => if decide (line = EmptyString) then [] else [line]
  | String c r => if decide (c = LF) then line :: lines_from EmptyString r else lines_from (line +:+ String c EmptyString) r
  end.

Definition line_feed : string := String LF EmptyString.

Definition compact_line (st : string * bool) (line : string) : string * bool :=
  let '(output, blank) := st in
  let line := trim_end line in
  if decide (line = EmptyString) then (output, blank || negb (bool_decide (output = EmptyString)))
  else
    let separated := if decide (output = EmptyString) then output
                     else output +:+ line_feed +:+ (if blank then line_feed else EmptyString) in
    (separated +:+ line, false).

Definition compact (value : string) : option string :=
  let output := (foldl compact_line (EmptyString, false) (lines_from EmptyString (normalize_newlines value))).1 in
  if decide (output = EmptyString) then None else Some output.

Definition brief (value : string) : string :=
  let value := default EmptyString (compact value) in
  let split := utf8_prefix value (CHUNK_BYTES - 3) in
  if decide (split = String.length value) then value else (split_at split value).1 +:+ "...".

(** ** Coalescing *)

Record ActiveTurn : Type := mkActiveTurn { av_thread : string; av_turn : string }.

Record StreamKey : Type := mkStreamKey {
  sk_kind : string;
  sk_item : string;
  sk_part : option Z;
}.

#[export] Instance StreamKey_eq_dec : EqDecision StreamKey.
Proof. solve_decision. Defined.

Record TextChunk : Type := mkTextChunk { tch_key : StreamKey; tch_text : string }.

Record TextCoalescer : Type := mkTextCoalescer {
  tc_pending : option TextChunk;
  tc_limit : nat;
}.

Definition new_coalescer : TextCoalescer := mkTextCoalescer None CHUNK_BYTES.

(** [TextCoalescer::flush]: the chunk, unless it is empty. *)
Definition coalescer_flush (c : TextCoalescer) : option TextChunk * TextCoalescer :=
  (p ← tc_pending c; if decide (tch_text p = EmptyString) then None else Some p, mkTextCoalescer None (tc_limit c)).

(** The loop that cuts full chunks off; no more than [fuel] are cut. *)
Fixpoint cut_chunks (fuel : nat) (limit : nat) (key : StreamKey) (text : string) : list TextChunk * string :=
  match fuel with
  | O => ([], text)
  | S n =>
      if (limit <=? String.length text)%nat then
        let '(raw, remainder) := split_at (utf8_prefix text limit) text in
        let '(ready, rest) := cut_chunks n limit key remainder in
        ((if decide (raw = EmptyString) then [] else [mkTextChunk key raw]) ++ ready, rest)
      else ([], text)
  end.

(** [TextCoalescer::push]; every cut takes at least one byte. *)
Definition coalescer_push (key : StreamKey) (delta : string) (c : TextCoalescer) : list TextChunk * TextCoalescer :=
  let '(flushed, text) :=
    match tc_pending c with
    | Some p => if decide (tch_key p = key) then ([], tch_text p)
                else (option_list (coalescer_flush c).1, EmptyString)
    | None => ([], EmptyString)
    end in
  let text := text +:+ delta in
  let '(ready, rest) := cut_chunks (String.length text) (tc_limit c) key text in
  (flushed ++ ready, mkTextCoalescer (Some (mkTextChunk key rest)) (tc_limit c)).

(** ** Notifications *)

Inductive ThreadItem : Type :=
| AgentMessage (id text : string) (phase : Value)
| ReasoningItem (id : string) (summary : list string)
| CommandExecution (id command : string) (status exit_code : Value)
| McpToolCall (id server tool : string) (status : Value)
| DynamicToolCall (id tool : string) (status : Value)
| CollabAgentToolCall (id : string) (tool status : Value)
| WebSearch (id : string)
| FileChange (id : string) (paths : list string) (status : Value)
| ContextCompaction (id : string)
| OtherItem (id : string).

Definition item_id (item : ThreadItem) : string :=
  match item with
  | AgentMessage id _ _ | ReasoningItem id _ | CommandExecution id _ _ _ | McpToolCall id _ _ _ | DynamicToolCall id _ _
  | CollabAgentToolCall id _ _ | WebSearch id | FileChange id _ _ | ContextCompaction id | OtherItem id => id
  end.

(** The token counts of one response. *)
Record ResponseUsage : Type := mkResponseUsage {
  ru_total_tokens : Z;
  ru_input_tokens : Z;
  ru_cached_input_tokens : Z;
  ru_cache_write_input_tokens : Z;
  ru_output_tokens : Z;
  ru_reasoning_output_tokens : Z;
}.

Inductive Notice : Type :=
| AgentMessageDelta (item delta : string)
| ReasoningSummaryTextDelta (item : string) (summary_index : Z) (delta : string)
| CommandExecutionOutputDelta (item delta : string)
| ItemStarted (item : ThreadItem)
| ItemCompleted (item : ThreadItem)
| RawResponseCompleted (response_id : string) (usage : option ResponseUsage)
| TurnStarted (status : Value)
| TurnCompleted (completed : bool) (status : Value) (error : option string)
| TurnPlanUpdated (explanation : option string) (plan : list (string * Value))
| FileChangePatchUpdated (item : string) (paths : list string)
| McpToolCallProgress (item message : string)
| ErrorNotice (message : string) (will_retry : bool)
| ModelRerouted (from_model to_model : string)
| ContextCompacted
| OtherNotice.

(** [ServerNotification]: what is reported, and of which turn. *)
Record ServerNotification : Type := mkNotification {
  sn_thread : string;
  sn_turn : string;
  sn_notice : Notice;
}.

Definition stream_delta (n : Notice) : option (StreamKey * string) :=
  match n with
  | AgentMessageDelta item delta => Some (mkStreamKey "agent.message" item None, delta)
  | ReasoningSummaryTextDelta item index delta => Some (mkStreamKey "reasoning.summary" item (Some index), delta)
  | CommandExecutionOutputDelta item delta => Some (mkStreamKey "tool.output" item None, delta)
  | _ => None
  end.

(** A signed number of JSON. *)
Definition signed (n : Z) : Value := Num (if n <? 0 then NegInt n else PosInt n).

Definition model_usage_event (n : Notice) : option (string * Value) :=
  match n with
  | RawResponseCompleted response_id (Some u) =>
      Some ("model.usage:" +:+ response_id, obj
        [("totalTokens", signed (ru_total_tokens u)); ("inputTokens", signed (ru_input_tokens u));
         ("cachedInputTokens", signed (ru_cached_input_tokens u)); ("cacheWriteInputTokens", signed (ru_cache_write_input_tokens u));
         ("outputTokens", signed (ru_output_tokens u)); ("reasoningOutputTokens", signed (ru_reasoning_output_tokens u))])
  | _ => None
  end.

Definition phase_kind (completed : bool) (prefix : string) : string :=
  prefix +:+ (if completed then ".completed" else ".started").

Definition strings (l : list string) : Value := Array (Str <$> l).

(** The kind and the details of an item. *)
Definition item_detail (item : ThreadItem) (completed : bool) : option (string * Value) :=
  match item with
  | AgentMessage _ text phase =>
      text ← compact text; Some (phase_kind completed "agent.message", obj [("text", Str text); ("phase", phase)])
  | ReasoningItem _ summary =>
      match omap compact summary with
      | [] => None
      | parts => Some (phase_kind completed "reasoning.summary", obj [("summary", strings parts)])
      end
  | CommandExecution _ command status exit_code =>
      Some (phase_kind completed "tool", obj
        [("type", Str "command"); ("message", Str (brief command)); ("status", status); ("exitCode", exit_code)])
  | McpToolCall _ server tool status =>
      Some (phase_kind completed "tool", obj
        [("type", Str "mcp"); ("message", Str (server +:+ "." +:+ tool)); ("status", status)])
  | DynamicToolCall _ tool status =>
      Some (phase_kind completed "tool", obj [("type", Str "dynamic"); ("message", Str tool); ("status", status)])
  | CollabAgentToolCall _ tool status =>
      Some (phase_kind completed "tool", obj [("type", Str "subagent"); ("tool", tool); ("status", status)])
  | WebSearch _ => Some (phase_kind completed "tool", obj [("type", Str "webSearch")])
  | FileChange _ paths status => Some (phase_kind completed "file", obj [("paths", strings paths); ("status", status)])
  | ContextCompaction _ => Some (phase_kind completed "context.compaction", obj [])
  | OtherItem _ => None
  end.

Definition item_event (item : ThreadItem) (completed : bool) : option (string * Value) :=
  detail ← item_detail item completed;
  Some (detail.1, value_set "itemId" (Str (item_id item)) detail.2).

Definition plan_step (step : string * Value) : Value := obj [("step", Str (brief step.1)); ("status", step.2)].

Definition map_event (n : Notice) : option (string * Value) :=
  match n with
  | TurnStarted status => Some ("turn.started", obj [("status", status)])
  | TurnCompleted completed status error =>
      Some (if completed then "turn.completed" else "turn.error", obj [("status", status); ("message", opt_str error)])
  | TurnPlanUpdated explanation plan =>
      Some ("turn.plan", obj [("summary", opt_str (brief <$> (explanation ≫= compact))); ("steps", Array (plan_step <$> plan))])
  | ItemStarted item => item_event item false
  | FileChangePatchUpdated item paths => Some ("file.updated", obj [("itemId", Str item); ("paths", strings paths)])
  | McpToolCallProgress item message => Some ("tool.progress", obj [("itemId", Str item); ("message", Str (brief message))])
  | ErrorNotice message will_retry =>
      Some (if will_retry then "turn.warning" else "turn.error", obj [("message", Str (brief message)); ("willRetry", Bool will_retry)])
  | ModelRerouted from_model to_model =>
      Some ("turn.warning", obj [("message", Str ("model rerouted from " +:+ from_model +:+ " to " +:+ to_model))])
  | ContextCompacted => Some ("context.compacted", obj [])
  | _ => None
  end.

(** ** What was streamed *)

Record StreamedContent : Type := mkStreamedContent {
  sc_agent_messages : gset string;
  sc_reasoning_summary_parts : gmap string (gset Z);
}.

Definition no_content : StreamedContent := mkStreamedContent ∅ ∅.

Definition record_streamed_content (key : StreamKey) (c : StreamedContent) : StreamedContent :=
  if decide (sk_kind key = "agent.message") then
    mkStreamedContent ({[sk_item key]} ∪ sc_agent_messages c) (sc_reasoning_summary_parts c)
  else
    match decide (sk_kind key = "reasoning.summary"), sk_part key with
    | left _, Some part =>
        mkStreamedContent (sc_agent_messages c)
          (<[sk_item key := {[part]} ∪ default ∅ (sc_reasoning_summary_parts c !! sk_item key)]> (sc_reasoning_summary_parts c))
    | _, _ => c
    end.

(** The parts of a summary that were not streamed, with their positions. *)
Definition remaining_parts (streamed : gset Z) (summary : list string) : list (Z * string) :=
  omap (λ ip : nat * string, if decide (Z.of_nat ip.1 ∈ streamed) then None else (λ s, (Z.of_nat ip.1, s)) <$> compact ip.2)
    (zip (seq 0 (length summary)) summary).

(** A completed item leaves out what was streamed before. *)
Definition completed_item_event (item : ThreadItem) (c : StreamedContent) : option (string * Value) * StreamedContent :=
  match item with
  | AgentMessage id _ phase =>
      if decide (id ∈ sc_agent_messages c) then
        (Some ("agent.message.completed", obj [("itemId", Str id); ("phase", phase)]),
         mkStreamedContent (sc_agent_messages c ∖ {[id]}) (sc_reasoning_summary_parts c))
      else (item_event item true, c)
  | ReasoningItem id summary =>
      match sc_reasoning_summary_parts c !! id with
      | None => (item_event item true, c)
      | Some streamed =>
          let remaining := remaining_parts streamed summary in
          (Some ("reasoning.summary.completed", obj
             [("itemId", Str id); ("summary", strings remaining.*2); ("summaryIndexes", Array (signed <$> remaining.*1))]),
           mkStreamedContent (sc_agent_messages c) (delete id (sc_reasoning_summary_parts c)))
      end
  | _ => (item_event item true, c)
  end.

(** ** The writer *)

Record AttemptEventWriter : Type := mkAttemptEventWriter {
  ew_fence : AttemptFence;
  ew_active : option ActiveTurn;
  ew_text : TextCoalescer;
  ew_streamed_content : StreamedContent;
}.

Definition with_coalescer (c : TextCoalescer) (w : AttemptEventWriter) : AttemptEventWriter :=
  mkAttemptEventWriter (ew_fence w) (ew_active w) c (ew_streamed_content w).

Definition with_streamed (c : StreamedContent) (w : AttemptEventWriter) : AttemptEventWriter :=
  mkAttemptEventWriter (ew_fence w) (ew_active w) (ew_text w) c.

Definition new_writer (fence : AttemptFence) : AttemptEventWriter :=
  mkAttemptEventWriter fence None new_coalescer no_content.

Definition activate (thread turn : string) (w : AttemptEventWriter) : AttemptEventWriter :=
  mkAttemptEventWriter (ew_fence w) (Some (mkActiveTurn thread turn)) (ew_text w) no_content.

Definition correlate (payload : Value) (active : option ActiveTurn) : Value :=
  let payload := match payload with Object f => Object f | _ => Object [("detail", payload)] end in
  match active with
  | Some a => value_set "turnId" (Str (av_turn a)) (value_set "threadId" (Str (av_thread a)) payload)
  | None => payload
  end.

Definition targets (active : option ActiveTurn) (thread turn : string) : bool :=
  match active with Some a => bool_decide (av_thread a = thread) && bool_decide (av_turn a = turn) | None => false end.

Section writer.
Context {W : Type} `{EventSink W}.

Abbreviation writing := (proc (AttemptEventWriter * W) CoordinatorError).

(** A change of the writer alone. *)
Definition update_writer {A : Type} (f : AttemptEventWriter → A * AttemptEventWriter) : writing A :=
  λ s, let '(a, w) := f s.1 in (Ok a, (w, s.2)).

Definition persist_with_deduplication (kind : string) (payload : Value) (deduplication_key : option string) : writing unit :=
  λ s, let '(r, world) := append_event (ew_fence s.1) (mkNewAttemptEvent kind (correlate payload (ew_active s.1)) deduplication_key) s.2 in
       (r, (s.1, world)).

Definition persist (kind : string) (payload : Value) : writing unit := persist_with_deduplication kind payload None.

Definition chunk_payload (chunk : TextChunk) : Value := obj
  [("itemId", Str (sk_item (tch_key chunk)));
   ("partIndex", match sk_part (tch_key chunk) with Some part => signed part | None => Null end); ("text", Str (tch_text chunk))].

Definition persist_chunk (chunk : TextChunk) : writing unit :=
  _ ← persist (sk_kind (tch_key chunk)) (chunk_payload chunk);
  update_writer (λ w, (tt, with_streamed (record_streamed_content (tch_key chunk) (ew_streamed_content w)) w)).

Fixpoint persist_chunks (chunks : list TextChunk) : writing unit :=
  match chunks with
  | [] => λ s, (Ok tt, s)
  | chunk :: rest => _ ← persist_chunk chunk; persist_chunks rest
  end.

Definition flush : writing unit :=
  chunk ← update_writer (λ w, let '(chunk, c) := coalescer_flush (ew_text w) in (chunk, with_coalescer c w));
  persist_chunks (option_list chunk).

Definition emit (kind : string) (payload : Value) : writing unit := _ ← flush; persist kind payload.

Definition observe_delta (key : StreamKey) (delta : string) : writing unit :=
  chunks ← update_writer (λ w, let '(chunks, c) := coalescer_push key delta (ew_text w) in (chunks, with_coalescer c w));
  persist_chunks chunks.

Definition observe_completed (item : ThreadItem) : writing unit :=
  _ ← flush;
  event ← update_writer (λ w, let '(event, c) := completed_item_event item (ew_streamed_content w) in (event, with_streamed c w));
  match event with Some (kind, payload) => persist kind payload | None => λ s, (Ok tt, s) end.

(** What a notification of the active turn leads to. *)
Definition observe_notice (n : Notice) : writing unit :=
  match stream_delta n with
  | Some (key, delta) => observe_delta key delta
  | None =>
      match n with
      | ItemCompleted item => observe_completed item
      | _ =>
          match model_usage_event n with
          | Some (deduplication_key, payload) =>
              _ ← flush; persist_with_deduplication "model.usage" payload (Some deduplication_key)
          | None =>
              match map_event n with
              | Some (kind, payload) => emit kind payload
              | None => λ s, (Ok tt, s)
              end
          end
      end
  end.

(** [AttemptEventWriter::observe]; other turns are ignored. *)
Definition observe_notification (n : ServerNotification) : writing unit :=
  λ s, if targets (ew_active s.1) (sn_thread n) (sn_turn n) then observe_notice (sn_notice n) s else (Ok tt, s).

Fixpoint observe_all (l : list ServerNotification) : writing unit :=
  match l with
  | [] => λ s, (Ok tt, s)
  | n :: rest => _ ← observe_notification n; observe_all rest
  end.
End writer.
