(* ===== verification/AttemptEventsLaws.v ===== *)
(** * Facts about the events of an attempt

    The text an agent streams is recorded exactly: chunk by chunk, in order,
    without loss, repetition or a cut inside a code point, whatever it is
    interleaved with, and under the turn it belongs to. *)

From S2P Require Import Prelude Domain Rows Store Leases Events Environments Attempts Jobs Recovery System Serde ResponseStream AttemptEvents.
From Stdlib Require Import ZArith Ascii String.
From stdpp Require Import base gmap sets strings list option.

#[local] Open Scope string_scope.
#[local] Open Scope Z_scope.
#[local] Open Scope list_scope.

(** ** Cutting text *)

Definition bytes (s : string) : list ascii := list_ascii_of_string s.

Lemma bytes_app a b : bytes (a +:+ b) = bytes a ++ bytes b.
Proof.
  induction a as [|c a IH]; [done|]. change (String c a +:+ b) with (String c (a +:+ b)). unfold bytes in *. cbn. by rewrite IH.
Qed.

Lemma bytes_length s : length (bytes s) = String.length s.
Proof. induction s as [|c s IH]; [done|]. unfold bytes in *. cbn. by rewrite IH. Qed.

Lemma bytes_nil s : bytes s = [] ↔ s = EmptyString.
Proof. by destruct s. Qed.

Lemma split_at_bytes n s : bytes (split_at n s).1 = take n (bytes s) ∧ bytes (split_at n s).2 = drop n (bytes s).
Proof.
  revert s. induction n as [|n IH]; intros s; [done|]. destruct s as [|c s]; [done|]. specialize (IH s).
  cbn [split_at]. destruct (split_at n s) as [a b]. cbn [fst snd] in *. destruct IH as [E1 E2].
  split; [exact (f_equal (cons c) E1)|exact E2].
Qed.

Lemma get_bytes n s : String.get n s = bytes s !! n.
Proof. revert n. induction s as [|c s IH]; intros [|n]; try done. cbn. apply IH. Qed.

(** A text does not begin inside a code point. *)
Definition starts_whole (l : list ascii) : Prop := match l with c :: _ => within_code_point c = false | [] => True end.

(** One code point. *)
Definition one_code_point (s : string) : Prop := ∃ c l, bytes s = c :: l ∧ Forall (λ c, within_code_point c = true) l.

Lemma boundary_below_le s n : (boundary_below s n ≤ n)%nat.
Proof. induction n as [|n IH]; cbn; [done|]. destruct (is_char_boundary s (S n)); lia. Qed.

Lemma boundary_below_whole s n :
  (boundary_below s n ≤ String.length s)%nat → boundary_below s n ≠ O → starts_whole (drop (boundary_below s n) (bytes s)).
Proof.
  induction n as [|n IH]; cbn [boundary_below]; [done|]. destruct (is_char_boundary s (S n)) eqn:E; [|done].
  intros _ _. unfold is_char_boundary in E. rewrite get_bytes in E. unfold starts_whole.
  destruct (drop (S n) (bytes s)) as [|c l] eqn:Ed; [done|].
  assert (bytes s !! S n = Some c) as Hc.
  { rewrite <- (take_drop (S n) (bytes s)), Ed.
    rewrite lookup_app_r; rewrite length_take; [|lia].
    assert (S n < length (bytes s))%nat. { apply (f_equal length) in Ed. rewrite length_drop in Ed. cbn in Ed. lia. }
    replace (S n - Nat.min (S n) (length (bytes s)))%nat with O by lia. done. }
  rewrite Hc in E. by apply orb_true_iff in E as [?%Nat.eqb_eq|?%negb_true_iff].
Qed.

Lemma leading_within_spec s :
  Forall (λ c, within_code_point c = true) (take (leading_within s) (bytes s)) ∧ starts_whole (drop (leading_within s) (bytes s))
  ∧ (leading_within s ≤ String.length s)%nat.
Proof.
  induction s as [|c s IH]; [repeat split; constructor|]. cbn [leading_within]. destruct (within_code_point c) eqn:E.
  - destruct IH as (H1 & H2 & H3). split; [exact (Forall_cons_2 (λ c, within_code_point c = true) c _ E H1)|]. split; [exact H2|cbn; lia].
  - split; [constructor|]. split; [exact E|cbn; lia].
Qed.

(** A cut takes something, ends between code points and is short, or one code point. *)
Lemma utf8_prefix_cut s limit :
  s ≠ EmptyString →
  let n := utf8_prefix s limit in
  (0 < n ≤ String.length s)%nat ∧ starts_whole (drop n (bytes s)) ∧ ((n ≤ limit)%nat ∨ one_code_point (split_at n s).1).
Proof.
  intros Hs. unfold utf8_prefix. pose proof (boundary_below_le s (Nat.min (String.length s) limit)) as Hle.
  pose proof (boundary_below_whole s (Nat.min (String.length s) limit)) as Hw.
  destruct (Nat.eqb_spec (boundary_below s (Nat.min (String.length s) limit)) 0) as [E|E]; cbn [andb].
  - rewrite bool_decide_false by done. cbn [negb]. destruct s as [|c s]; [done|]. cbn [first_char_len].
    destruct (leading_within_spec s) as (H1 & H2 & H3). cbn zeta. split; [cbn; lia|]. split; [exact H2|].
    right. exists c, (take (leading_within s) (bytes s)). split; [|done]. apply (split_at_bytes (S (leading_within s)) (String c s)).
  - cbn zeta. split; [lia|]. split; [apply Hw; [lia|done]|]. left. lia.
Qed.

(** ** Chunks as a sequence of bytes *)

Definition expand (l : list TextChunk) : list (StreamKey * ascii) := concat ((λ c, pair (tch_key c) <$> bytes (tch_text c)) <$> l).

Lemma expand_app a b : expand (a ++ b) = expand a ++ expand b.
Proof. unfold expand. by rewrite fmap_app, concat_app. Qed.

Lemma expand_one key text : expand [mkTextChunk key text] = pair key <$> bytes text.
Proof. unfold expand. cbn. apply app_nil_r. Qed.

(** A chunk as it may be recorded. *)
Definition sound_chunk (limit : nat) (c : TextChunk) : Prop :=
  tch_text c ≠ EmptyString ∧ starts_whole (bytes (tch_text c))
  ∧ ((String.length (tch_text c) ≤ limit)%nat ∨ one_code_point (tch_text c)).

Lemma cut_chunks_spec fuel limit key text :
  (String.length text ≤ fuel)%nat → (0 < limit)%nat → starts_whole (bytes text) →
  let '(ready, rest) := cut_chunks fuel limit key text in
  expand ready ++ expand [mkTextChunk key rest] = expand [mkTextChunk key text]
  ∧ Forall (sound_chunk limit) ready ∧ Forall (λ c, tch_key c = key) ready
  ∧ (String.length rest < limit)%nat ∧ starts_whole (bytes rest).
Proof.
  intros Hf Hl. revert text Hf. induction fuel as [|fuel IH]; intros text Hf Hw; cbn [cut_chunks].
  { assert (text = EmptyString) as -> by (apply bytes_nil, nil_length_inv; rewrite bytes_length; lia). done. }
  destruct (Nat.leb_spec limit (String.length text)) as [Hle|Hlt]; [|done].
  assert (text ≠ EmptyString) as Hne by (intros ->; cbn in Hle; lia).
  destruct (utf8_prefix_cut text limit Hne) as (Hn & Hw' & Hshort). cbn zeta in *.
  set (n := utf8_prefix text limit) in *. destruct (split_at_bytes n text) as [Ha Hb].
  destruct (split_at n text) as [raw remainder]. cbn [fst snd] in *.
  assert (raw ≠ EmptyString) as Hraw.
  { intros ->. apply (f_equal length) in Ha. rewrite length_take, !bytes_length in Ha. cbn in Ha. lia. }
  assert (String.length remainder < String.length text)%nat as Hrem.
  { rewrite <- (bytes_length remainder), Hb, length_drop, bytes_length. lia. }
  specialize (IH remainder ltac:(lia) ltac:(by rewrite Hb)).
  destruct (cut_chunks fuel limit key remainder) as [ready rest]. destruct IH as (He & Hs & Hk & Hr & Hw2).
  rewrite decide_False by done. cbn [app]. change (mkTextChunk key raw :: ready) with ([mkTextChunk key raw] ++ ready).
  split; [|split; [|split; [by constructor|done]]].
  - rewrite expand_app, <- app_assoc, He, !expand_one, <- fmap_app, Ha, Hb, take_drop. done.
  - constructor; [|done]. split; [done|]. split.
    + cbn [tch_text]. rewrite Ha. destruct (bytes text) as [|c l]; [by rewrite take_nil|]. destruct n; [lia|done].
    + destruct Hshort as [Hs'|Hs']; [left|by right]. cbn [tch_text]. rewrite <- bytes_length, Ha, length_take. lia.
Qed.

(** ** The coalescer *)

Definition pending (c : TextCoalescer) : list TextChunk := option_list (tc_pending c).

(** What is pending is less than a chunk and begins whole. *)
Definition sound_coalescer (c : TextCoalescer) : Prop :=
  (0 < tc_limit c)%nat
  ∧ Forall (λ p, (String.length (tch_text p) < tc_limit c)%nat ∧ starts_whole (bytes (tch_text p))) (pending c).

Lemma coalescer_flush_spec c :
  sound_coalescer c →
  expand (option_list (coalescer_flush c).1) = expand (pending c)
  ∧ Forall (sound_chunk (tc_limit c)) (option_list (coalescer_flush c).1)
  ∧ sound_coalescer (coalescer_flush c).2 ∧ pending (coalescer_flush c).2 = [].
Proof.
  intros [Hl Hp]. unfold coalescer_flush, pending in *. destruct (tc_pending c) as [[key text]|]; cbn in *.
  - apply Forall_singleton in Hp as [Hlt Hw]. cbn in *.
    destruct (decide (text = EmptyString)) as [->|Hne]; cbn; (split; [done|]); (split; [|done]); [constructor|].
    apply Forall_singleton. split; [done|]. split; [done|]. left. cbn. lia.
  - split; [done|]. split; [constructor|done].
Qed.

Lemma starts_whole_app a b : starts_whole a → starts_whole b → starts_whole (a ++ b).
Proof. by destruct a. Qed.

Lemma coalescer_push_spec key delta c :
  sound_coalescer c → starts_whole (bytes delta) →
  let '(chunks, c') := coalescer_push key delta c in
  expand chunks ++ expand (pending c') = expand (pending c) ++ expand [mkTextChunk key delta]
  ∧ Forall (sound_chunk (tc_limit c)) chunks ∧ sound_coalescer c' ∧ tc_limit c' = tc_limit c.
Proof.
  intros Hc Hd. destruct (coalescer_flush_spec c Hc) as (Hfe & Hfs & _). destruct Hc as [Hl Hp]. unfold coalescer_push.
  set (r := match tc_pending c with Some _ => _ | None => _ end).
  assert (expand r.1 ++ expand [mkTextChunk key r.2] = expand (pending c) ∧ Forall (sound_chunk (tc_limit c)) r.1
          ∧ starts_whole (bytes r.2)) as (He & Hs & Hw).
  { unfold r, pending in *. destruct (tc_pending c) as [[k text]|] eqn:Ep; cbn [tch_key tch_text].
    - destruct (decide (k = key)) as [->|Hk]; cbn [fst snd].
      + apply Forall_singleton in Hp as [_ Hw]. split; [done|]. split; [constructor|exact Hw].
      + split; [rewrite Hfe; by rewrite app_nil_r|]. by split.
    - split; [done|]. split; [constructor|done]. }
  destruct r as [flushed text]. cbn [fst snd] in *.
  pose proof (cut_chunks_spec (String.length (text +:+ delta)) (tc_limit c) key (text +:+ delta) (Nat.le_refl _) Hl) as Hcut.
  rewrite bytes_app in Hcut. specialize (Hcut (starts_whole_app _ _ Hw Hd)).
  destruct (cut_chunks _ _ key _) as [ready rest]. destruct Hcut as (Hce & Hcs & _ & Hrest & Hwr).
  split; [|split; [by apply Forall_app|]].
  - rewrite expand_app, <- app_assoc. change (pending (mkTextCoalescer (Some ?p) _)) with [p].
    rewrite Hce, <- He, <- app_assoc. f_equal.
    rewrite !expand_one, bytes_app, fmap_app. done.
  - split; [|done]. split; [done|]. unfold pending. cbn. by apply Forall_singleton.
Qed.

(** The keys are those of what was pending or pushed. *)
Lemma cut_chunks_keys fuel limit key text : Forall (λ c, tch_key c = key) (cut_chunks fuel limit key text).1.
Proof.
  revert text. induction fuel as [|fuel IH]; intros text; cbn [cut_chunks]; [constructor|].
  destruct (limit <=? String.length text)%nat; [|constructor]. destruct (split_at _ text) as [raw remainder].
  specialize (IH remainder). destruct (cut_chunks fuel limit key remainder) as [ready rest]. cbn [fst] in *.
  apply Forall_app. split; [|done]. destruct (decide (raw = EmptyString)); repeat constructor.
Qed.

Lemma coalescer_push_keys (P : StreamKey → Prop) key delta c :
  P key → Forall (P ∘ tch_key) (pending c) →
  Forall (P ∘ tch_key) ((coalescer_push key delta c).1 ++ pending (coalescer_push key delta c).2).
Proof.
  intros Hk Hp. unfold coalescer_push. set (r := match tc_pending c with Some _ => _ | None => _ end).
  assert (Forall (P ∘ tch_key) r.1) as Hr.
  { unfold r, pending, coalescer_flush in *. destruct (tc_pending c) as [p|]; cbn in *; [|constructor].
    destruct (decide (tch_key p = key)); cbn; [constructor|]. destruct (decide (tch_text p = EmptyString)); [constructor|done]. }
  destruct r as [flushed text]. pose proof (cut_chunks_keys (String.length (text +:+ delta)) (tc_limit c) key (text +:+ delta)) as Hc.
  destruct (cut_chunks _ _ key _) as [ready rest]. cbn [fst snd] in *. rewrite !Forall_app. split; [split; [done|]|].
  - eapply Forall_impl; [|exact Hc]. cbn. by intros x ->.
  - apply Forall_singleton. exact Hk.
Qed.

(** ** The log *)

(** What a sink promises: an event that is accepted is recorded last, or was
    recorded before under its deduplication key. *)
Class EventSinkLaws (W : Type) `{EventSink W} : Type := {
  recorded : AttemptFence → W → list (string * Value);
  append_recorded f e w u w' :
    append_event f e w = (Ok u, w') →
    recorded f w' = recorded f w ++ [(nae_kind e, nae_payload e)]
    ∨ (is_Some (nae_deduplication_key e) ∧ recorded f w' = recorded f w);
}.

Definition STREAM_KINDS : list string := ["agent.message"; "reasoning.summary"; "tool.output"].

Definition as_i64 (v : Value) : option Z := match v with Num (PosInt n | NegInt n) => Some n | _ => None end.

(** The chunk an event of the log holds. *)
Definition chunk_of (e : string * Value) : option TextChunk :=
  if decide (e.1 ∈ STREAM_KINDS) then
    item ← value_get "itemId" e.2 ≫= as_str;
    text ← value_get "text" e.2 ≫= as_str;
    Some (mkTextChunk (mkStreamKey e.1 item (value_get "partIndex" e.2 ≫= as_i64)) text)
  else None.

(** The event names the turn. *)
Definition names_turn (active : option ActiveTurn) (e : string * Value) : Prop :=
  match active with
  | Some a => value_get "threadId" e.2 = Some (Str (av_thread a)) ∧ value_get "turnId" e.2 = Some (Str (av_turn a))
  | None => True
  end.

Lemma value_get_set k x v f : v = Object f → value_get k (value_set k x v) = Some x.
Proof. intros ->. apply assoc_get_set. Qed.

Lemma value_get_set_ne k k' x v : k ≠ k' → value_get k (value_set k' x v) = value_get k v.
Proof. intros Hne. destruct v; try done. by apply assoc_get_set_ne. Qed.

Lemma correlate_names_turn kind payload active : names_turn active (kind, correlate payload active).
Proof.
  destruct active as [a|]; [|done]. unfold names_turn, correlate. cbn [snd].
  set (p := match payload with Object f => Object f | _ => _ end). assert (∃ f, p = Object f) as [f ->] by (destruct payload; by eexists).
  split; [|by eapply value_get_set]. rewrite value_get_set_ne by done. by eapply value_get_set.
Qed.

Lemma correlate_get k payload active :
  k ≠ "threadId" → k ≠ "turnId" → (∃ f, payload = Object f) → value_get k (correlate payload active) = value_get k payload.
Proof.
  intros H1 H2 [f ->]. unfold correlate. destruct active as [a|]; [|done]. by rewrite !value_get_set_ne.
Qed.

Lemma chunk_recorded chunk active :
  sk_kind (tch_key chunk) ∈ STREAM_KINDS →
  chunk_of (sk_kind (tch_key chunk), correlate (chunk_payload chunk) active) = Some chunk.
Proof.
  intros Hk. unfold chunk_of. cbn [fst snd]. rewrite decide_True by done.
  assert (∃ f, chunk_payload chunk = Object f) as Hf by (by eexists).
  rewrite !correlate_get by done. destruct chunk as [[kind item part] text]. cbn in Hk |- *.
  destruct part as [part|]; [|done]. cbn. unfold signed. by destruct (part <? 0).
Qed.

Lemma chunk_of_other kind payload : kind ∉ STREAM_KINDS → chunk_of (kind, payload) = None.
Proof. intros Hk. unfold chunk_of. cbn [fst]. by rewrite decide_False. Qed.

(** No other event is of a kind that text is streamed under. *)
Definition unstreamed (kind : string) : bool := negb (bool_decide (kind ∈ STREAM_KINDS)).

Lemma unstreamed_spec kind : unstreamed kind = true → kind ∉ STREAM_KINDS.
Proof. unfold unstreamed. by intros ?%negb_true_iff%bool_decide_eq_false. Qed.

Lemma item_event_unstreamed item completed e : item_event item completed = Some e → unstreamed e.1 = true.
Proof.
  unfold item_event. destruct (item_detail item completed) as [d|] eqn:Ed; [|done]. cbn. intros [= <-]. cbn [fst].
  destruct item; cbn in Ed; try (destruct completed; simplify_eq; reflexivity).
  - destruct (compact text); [|done]. cbn in Ed. destruct completed; simplify_eq; reflexivity.
  - destruct (omap compact summary); [done|]. destruct completed; simplify_eq; reflexivity.
Qed.

Lemma map_event_unstreamed n e : map_event n = Some e → unstreamed e.1 = true.
Proof.
  destruct n; cbn; try done; try (by intros [= <-]); [apply item_event_unstreamed| |].
  - destruct completed; by intros [= <-].
  - destruct will_retry; by intros [= <-].
Qed.

Lemma completed_item_unstreamed item c e : (completed_item_event item c).1 = Some e → unstreamed e.1 = true.
Proof.
  destruct item; cbn [completed_item_event fst]; try apply item_event_unstreamed.
  - destruct (decide (id ∈ sc_agent_messages c)); cbn [fst]; [by intros [= <-]|apply item_event_unstreamed].
  - destruct (sc_reasoning_summary_parts c !! id); cbn [fst]; [by intros [= <-]|apply item_event_unstreamed].
Qed.

Lemma stream_delta_streamed n key delta : stream_delta n = Some (key, delta) → sk_kind key ∈ STREAM_KINDS.
Proof. destruct n; cbn; try done; intros [= <- _]; cbn; unfold STREAM_KINDS; set_solver. Qed.

(** The text a list of notifications streams for the active turn. *)
Definition delta_of (active : option ActiveTurn) (n : ServerNotification) : option TextChunk :=
  if targets active (sn_thread n) (sn_turn n) then (λ kd, mkTextChunk kd.1 kd.2) <$> stream_delta (sn_notice n) else None.

Section writer_laws.
Context {W : Type} `{EventSinkLaws W}.

Section run.
Context (fence : AttemptFence) (active : option ActiveTurn) (limit : nat) (base : list (string * Value)).

(** The log since [base] and what is pending hold the text seen. *)
Record Wrote (seen : list TextChunk) (w : AttemptEventWriter) (world : W) : Prop := {
  wr_fence : ew_fence w = fence;
  wr_active : ew_active w = active;
  wr_limit : tc_limit (ew_text w) = limit;
  wr_coalescer : sound_coalescer (ew_text w);
  wr_kinds : Forall (λ c, sk_kind (tch_key c) ∈ STREAM_KINDS) (pending (ew_text w));
  wr_log : ∃ new, recorded fence world = base ++ new
    ∧ expand (omap chunk_of new) ++ expand (pending (ew_text w)) = expand seen
    ∧ Forall (sound_chunk limit) (omap chunk_of new) ∧ Forall (names_turn active) new;
}.

Lemma persist_wrote seen kind payload key w world u w' world' :
  Wrote seen w world → kind ∉ STREAM_KINDS →
  persist_with_deduplication kind payload key (w, world) = (Ok u, (w', world')) → Wrote seen w' world'.
Proof.
  intros [Hf Ha Hl Hc Hp (new & Hr & He & Hs & Ht)] Hk. unfold persist_with_deduplication. cbn [fst snd].
  destruct (append_event _ _ world) as [[[]|e] world1] eqn:E; [|done]. intros [= _ <- <-].
  split; try done. rewrite Hf, Ha in E. apply append_recorded in E as [E|[_ E]]; [|exists new; by rewrite E].
  exists (new ++ [(kind, correlate payload active)]). rewrite E, Hr, app_assoc. split; [done|].
  rewrite omap_app. cbn [omap list_omap]. rewrite chunk_of_other by done. rewrite app_nil_r.
  split; [done|]. split; [done|]. apply Forall_app. split; [done|]. apply Forall_singleton, correlate_names_turn.
Qed.

(** Chunks that were taken out of the coalescer are recorded in order. *)
Lemma persist_chunks_wrote seen chunks w world u w' world' new :
  ew_fence w = fence → ew_active w = active → tc_limit (ew_text w) = limit → sound_coalescer (ew_text w) →
  recorded fence world = base ++ new →
  expand (omap chunk_of new) ++ expand chunks ++ expand (pending (ew_text w)) = expand seen →
  Forall (sound_chunk limit) (omap chunk_of new) → Forall (names_turn active) new → Forall (sound_chunk limit) chunks →
  Forall (λ c, sk_kind (tch_key c) ∈ STREAM_KINDS) (chunks ++ pending (ew_text w)) →
  persist_chunks chunks (w, world) = (Ok u, (w', world')) → Wrote seen w' world' ∧ ew_text w' = ew_text w.
Proof.
  revert w world new. induction chunks as [|chunk chunks IH]; intros w world new Hf Ha Hl Hc Hr He Hs Ht Hcs Hks; cbn [persist_chunks].
  { intros [= _ <- <-]. split; [|done]. split; try done. by exists new. }
  apply Forall_cons_1 in Hcs as [Hc1 Hcs]. apply Forall_cons_1 in Hks as [Hk1 Hks].
  unfold persist_chunk, persist, persist_with_deduplication, mbind, proc_bind. cbn [fst snd].
  destruct (append_event _ _ world) as [[[]|e] world1] eqn:E; [|done]. cbn.
  rewrite Hf, Ha in E. apply append_recorded in E as [E|[[? ?] _]]; [|done]. cbn [nae_kind nae_payload] in E.
  match goal with |- persist_chunks _ (?w1, _) = _ → _ =>
    apply (IH w1 world1 (new ++ [(sk_kind (tch_key chunk), correlate (chunk_payload chunk) active)])); cbn; try done end.
  - by rewrite E, Hr, app_assoc.
  - rewrite omap_app. cbn [omap list_omap]. rewrite chunk_recorded by done. rewrite expand_app, <- app_assoc, <- He.
    f_equal. change (chunk :: chunks) with ([chunk] ++ chunks). by rewrite expand_app, <- app_assoc.
  - rewrite omap_app. cbn [omap list_omap]. rewrite chunk_recorded by done. apply Forall_app. split; [done|by apply Forall_singleton].
  - apply Forall_app. split; [done|]. apply Forall_singleton, correlate_names_turn.
Qed.

Lemma flush_wrote seen w world u w' world' :
  Wrote seen w world → flush (w, world) = (Ok u, (w', world')) → Wrote seen w' world' ∧ pending (ew_text w') = [].
Proof.
  intros [Hf Ha Hl Hc Hp (new & Hr & He & Hs & Ht)]. unfold flush, update_writer, mbind, proc_bind. cbn [fst snd].
  destruct (coalescer_flush_spec _ Hc) as (Hfe & Hfs & Hfc & Hfp).
  assert (Forall (λ c, sk_kind (tch_key c) ∈ STREAM_KINDS) (option_list (coalescer_flush (ew_text w)).1)) as Hk.
  { unfold coalescer_flush, pending in *. cbn. destruct (tc_pending (ew_text w)) as [p|]; cbn in *; [|constructor].
    destruct (decide (tch_text p = EmptyString)); [constructor|done]. }
  assert (tc_limit (coalescer_flush (ew_text w)).2 = limit) as Hl' by done.
  destruct (coalescer_flush (ew_text w)) as [chunk c']. cbn [fst snd] in *. intros Hr'.
  apply (persist_chunks_wrote seen _ _ _ _ _ _ new) in Hr' as [Hw Ht']; cbn; try done.
  - split; [done|]. rewrite Ht'. exact Hfp.
  - by rewrite Hfp, app_nil_r, Hfe.
  - by rewrite <- Hl.
  - rewrite Hfp, app_nil_r. done.
Qed.

Lemma observe_delta_wrote seen key delta w world u w' world' :
  Wrote seen w world → sk_kind key ∈ STREAM_KINDS → starts_whole (bytes delta) →
  observe_delta key delta (w, world) = (Ok u, (w', world')) → Wrote (seen ++ [mkTextChunk key delta]) w' world'.
Proof.
  intros [Hf Ha Hl Hc Hp (new & Hr & He & Hs & Ht)] Hk Hd. unfold observe_delta, update_writer, mbind, proc_bind. cbn [fst snd].
  pose proof (coalescer_push_spec key delta _ Hc Hd) as Hpush.
  pose proof (coalescer_push_keys (λ k, sk_kind k ∈ STREAM_KINDS) key delta _ Hk Hp) as Hkeys.
  destruct (coalescer_push key delta (ew_text w)) as [chunks c']. destruct Hpush as (Hpe & Hps & Hpc & Hpl). cbn [fst snd] in *.
  intros Hr'. apply (persist_chunks_wrote (seen ++ [mkTextChunk key delta]) _ _ _ _ _ _ new) in Hr' as [Hw _]; cbn; try done.
  - congruence.
  - rewrite Hpe, expand_app, app_assoc, He. done.
  - by rewrite <- Hl.
Qed.

Lemma after_flush_wrote seen kind payload key w world u w' world' :
  Wrote seen w world → unstreamed kind = true →
  (flush ≫= λ _, persist_with_deduplication kind payload key) (w, world) = (Ok u, (w', world')) → Wrote seen w' world'.
Proof.
  intros Hw Hk%unstreamed_spec. unfold mbind, proc_bind. destruct (flush (w, world)) as [[[]|e] [w1 world1]] eqn:E; [|done].
  apply (flush_wrote seen) in E as [Hw1 _]; [|done]. by apply persist_wrote.
Qed.

Lemma observe_completed_wrote seen item w world u w' world' :
  Wrote seen w world → observe_completed item (w, world) = (Ok u, (w', world')) → Wrote seen w' world'.
Proof.
  intros Hw. unfold observe_completed, mbind, proc_bind. destruct (flush (w, world)) as [[[]|e] [w1 world1]] eqn:E; [|done].
  apply (flush_wrote seen) in E as [Hw1 _]; [|done]. unfold update_writer. cbn [fst snd].
  pose proof (completed_item_unstreamed item (ew_streamed_content w1)) as Hk.
  destruct (completed_item_event item (ew_streamed_content w1)) as [event c]. cbn [fst] in Hk.
  assert (Wrote seen (with_streamed c w1) world1) as Hw2 by (by destruct Hw1).
  destruct event as [[kind payload]|]; [|by intros [= _ <- <-]].
  apply persist_wrote; [done|]. apply unstreamed_spec. by apply (Hk (kind, payload)).
Qed.

Lemma observe_wrote seen n w world u w' world' :
  Wrote seen w world → Forall (λ c, starts_whole (bytes (tch_text c))) (option_list (delta_of active n)) →
  observe_notification n (w, world) = (Ok u, (w', world')) → Wrote (seen ++ option_list (delta_of active n)) w' world'.
Proof.
  intros Hw Hd. pose proof (wr_active _ _ _ Hw) as Ha. unfold observe_notification, delta_of in *. cbn [fst].
  rewrite Ha. destruct (targets active (sn_thread n) (sn_turn n)); [|intros [= _ <- <-]; cbn; by rewrite app_nil_r].
  unfold observe_notice. destruct (stream_delta (sn_notice n)) as [[key delta]|] eqn:Es; cbn [fmap option_fmap option_map option_list] in *.
  { apply (Forall_singleton (λ c, starts_whole (bytes (tch_text c)))) in Hd. apply observe_delta_wrote; [done|by eapply stream_delta_streamed|done]. }
  change (option_list None) with (@nil TextChunk). rewrite app_nil_r. destruct (sn_notice n) as [| | | |item|id usage| | | | | | | | |] eqn:En; try discriminate Es;
    try (by apply observe_completed_wrote);
    try (destruct (model_usage_event _) as [[k payload]|]; [by apply after_flush_wrote|]);
    (destruct (map_event _) as [[kind payload]|] eqn:Em;
       [apply map_event_unstreamed in Em; by apply after_flush_wrote|by intros [= _ <- <-]]).
Qed.

Lemma observe_all_wrote ns seen w world u w' world' :
  Wrote seen w world → Forall (λ c, starts_whole (bytes (tch_text c))) (omap (delta_of active) ns) →
  observe_all ns (w, world) = (Ok u, (w', world')) → Wrote (seen ++ omap (delta_of active) ns) w' world'.
Proof.
  revert seen w world. induction ns as [|n ns IH]; intros seen w world Hw Hd; cbn [observe_all].
  { intros [= _ <- <-]. cbn. by rewrite app_nil_r. }
  unfold mbind, proc_bind. destruct (observe_notification n (w, world)) as [[[]|e] [w1 world1]] eqn:E; [|done].
  replace (omap (delta_of active) (n :: ns)) with (option_list (delta_of active n) ++ omap (delta_of active) ns) in Hd |- *
    by (cbn; by destruct (delta_of active n)).
  apply Forall_app in Hd as [Hd1 Hd2]. apply (observe_wrote seen) in E; [|done|done]. intros Hr.
  rewrite app_assoc. by eapply IH.
Qed.
End run.
End writer_laws.

(** ** The coordinator's log *)

Section store_sink.
Context (now : Z).

#[export] Instance store_sink : EventSink db := {|
  append_event fence event s :=
    let '(r, s') := append_attempt_event now fence event s in (match r with Ok _ => Ok tt | Err e => Err e end, s');
|}.

(** The events of an attempt, in the order of the log. *)
Definition attempt_log (fence : AttemptFence) (s : db) : list (string * Value) :=
  (λ e, (jer_kind (ev_row e), jer_payload (ev_row e)))
    <$> List.filter (λ e, bool_decide (jer_attempt_id (ev_row e) = Some (af_attempt_id fence))) (events s).

Lemma store_append_recorded f e s u s' :
  append_event f e s = (Ok u, s') →
  attempt_log f s' = attempt_log f s ++ [(nae_kind e, nae_payload e)]
  ∨ (is_Some (nae_deduplication_key e) ∧ attempt_log f s' = attempt_log f s).
Proof.
  cbn. destruct (append_attempt_event now f e s) as [[r|] s1] eqn:E; [|done]. intros [= _ <-].
  unfold append_attempt_event in E. apply commit_Ok, tx_bind_Ok in E as (ctx & s0 & (-> & _)%lock_attempt_context_Ok & Hins).
  unfold insert_attempt_event, identity_available in Hins. inv_tx.
  destruct (find_event _ _ _) as [ev|] eqn:Hf; inv_tx.
  - right. split; [|done]. destruct (nae_deduplication_key e); [done|discriminate Hf].
  - left. unfold attempt_log. cbn. rewrite List.filter_app, fmap_app. cbn. by rewrite bool_decide_true.
Qed.

#[export] Instance store_sink_laws : EventSinkLaws db :=
  {| recorded := attempt_log; append_recorded := store_append_recorded |}.
End store_sink.

(** C26: The text of an active turn is recorded exactly.  After any
    notifications, of this turn and of others, and a last flush, the chunks the
    log gained hold the streamed text byte for byte and in its order, each piece
    under its item and part; no chunk is empty, begins inside a code point or is
    longer than 1024 bytes unless it is one code point; and every event names the
    turn. *)
Theorem streamed_text_exact {W : Type} `{EventSinkLaws W} ns w world u w1 world1 u2 w2 world2 :
  tc_pending (ew_text w) = None → tc_limit (ew_text w) = CHUNK_BYTES →
  Forall (λ c, starts_whole (bytes (tch_text c))) (omap (delta_of (ew_active w)) ns) →
  observe_all ns (w, world) = (Ok u, (w1, world1)) → flush (w1, world1) = (Ok u2, (w2, world2)) →
  ∃ new, recorded (ew_fence w) world2 = recorded (ew_fence w) world ++ new
    ∧ expand (omap chunk_of new) = expand (omap (delta_of (ew_active w)) ns)
    ∧ Forall (sound_chunk CHUNK_BYTES) (omap chunk_of new)
    ∧ Forall (names_turn (ew_active w)) new.
Proof.
  intros Hp Hl Hd Hr Hfl.
  assert (Wrote (ew_fence w) (ew_active w) CHUNK_BYTES (recorded (ew_fence w) world) [] w world) as Hw.
  { split; try done; unfold sound_coalescer, pending; rewrite ?Hp, ?Hl; [|constructor|].
    - split; [unfold CHUNK_BYTES; lia|constructor].
    - exists []. rewrite app_nil_r. repeat split; constructor. }
  apply (observe_all_wrote (ew_fence w) (ew_active w) CHUNK_BYTES (recorded (ew_fence w) world) ns []) in Hr; [|done|done].
  apply (flush_wrote _ _ _ _ _ _ _ _ _ _ Hr) in Hfl as [[_ _ _ _ _ (new & Hrec & He & Hs & Ht)] Hpend].
  exists new. rewrite Hpend, app_nil_r in He. done.
Qed.

(** A turn of [a0] that streams two items, of which one is cut, amid the events
    of another turn. *)
Definition demo_writer : AttemptEventWriter := activate "t1" "u1" (new_writer (demo_fence "a0" "w1" 1)).

Definition demo_notifications : list ServerNotification :=
  [mkNotification "t1" "u1" (ReasoningSummaryTextDelta "r" 0 "thinking");
   mkNotification "t1" "u1" (AgentMessageDelta "m" "Hel");
   mkNotification "t1" "u2" (AgentMessageDelta "m" "not mine");
   mkNotification "t1" "u1" (AgentMessageDelta "m" "lo");
   mkNotification "t1" "u1" (ItemCompleted (AgentMessage "m" "Hello" Null))].

Definition demo_observed : AttemptEventWriter * db := (observe_all (H := store_sink 20) demo_notifications (demo_writer, demo running_history)).2.

Example demo_recorded :
  omap chunk_of (attempt_log (demo_fence "a0" "w1" 1) demo_observed.2)
  = [mkTextChunk (mkStreamKey "reasoning.summary" "r" (Some 0)) "thinking"; mkTextChunk (mkStreamKey "agent.message" "m" None) "Hello"].
Proof. vm_compute. reflexivity. Qed.

Lemma streamed_text_exact_witness :
  ∃ new, attempt_log (demo_fence "a0" "w1" 1) (flush (H := store_sink 20) demo_observed).2.2
         = attempt_log (demo_fence "a0" "w1" 1) (demo running_history) ++ new
    ∧ expand (omap chunk_of new) = expand (omap (delta_of (Some (mkActiveTurn "t1" "u1"))) demo_notifications).
Proof.
  assert (observe_all (H := store_sink 20) demo_notifications (demo_writer, demo running_history)
          = (Ok tt, (demo_observed.1, demo_observed.2))) as E1 by (vm_compute; reflexivity).
  assert (flush (H := store_sink 20) (demo_observed.1, demo_observed.2)
          = (Ok tt, ((flush (H := store_sink 20) demo_observed).2.1, (flush (H := store_sink 20) demo_observed).2.2))) as E2
    by (vm_compute; reflexivity).
  destruct (@streamed_text_exact db (store_sink 20) (store_sink_laws 20) demo_notifications demo_writer (demo running_history)
              tt _ _ tt _ _ eq_refl eq_refl ltac:(repeat constructor) E1 E2) as (new & Hr & He & _). exists new. split; [exact Hr|exact He].
Defined.
