(* ===== verification/Subagents.v ===== *)
(** * Sub-agent activity

    [extension/src/subagents.rs]: what the agents of a thread do to other agents
    is kept in the thread's state, bounded once every activity is archived in the
    job's event log.  Items of the vendored protocol carry the fields the
    recording reads; the digest and the archive are parameters. *)

From S2P Require Import Prelude Serde AgentState AgentTools StateDocument ProviderTools.
From Stdlib Require Import ZArith Ascii String.
From stdpp Require Import base gmap sets strings list option.

#[local] Open Scope string_scope.
#[local] Open Scope Z_scope.
#[local] Open Scope list_scope.

Definition SUBAGENT_EVENT_KIND : string := "factory.subagent.activity".
Definition MAX_PROJECTED_SUBAGENT_ACTIVITIES : nat := 24.

(** [FactoryStateBackend::append_event]: the sequence of the archived event,
    [None] when the backend keeps no events. *)
Class ActivityArchive (W : Type) : Type := {
  archive_event : string → Value → string → proc W Message (option Z);
}.

(** The hexadecimal SHA-256 digest of a text. *)
Class Sha256 : Type := { sha256_hex : string → string }.

(** ** Items *)

Inductive CollabAgentTool : Type := CollabSpawnAgent | CollabSendInput | CollabResumeAgent | CollabWait | CollabCloseAgent.
Inductive CollabCallStatus : Type := CollabInProgress | CollabCompleted | CollabFailed.

Inductive AgentStatus : Type :=
| AgentPendingInit | AgentRunning | AgentInterrupted
| AgentCompleted (message : option string)
| AgentErrored (message : string)
| AgentShutdown | AgentNotFound.

(** [CollabAgentToolCallItem]; the states are in the order of their hash map. *)
Record CollabItem : Type := mkCollabItem {
  ci_id : string;
  ci_sender_thread_id : string;
  ci_receiver_thread_ids : list string;
  ci_tool : CollabAgentTool;
  ci_prompt : option string;
  ci_status : CollabCallStatus;
  ci_agents_states : list (string * AgentStatus);
}.

Inductive SubAgentActivityKind : Type := KindStarted | KindInteracted | KindInterrupted.

(** [SubAgentActivityItem]. *)
Record NativeItem : Type := mkNativeItem {
  ni_id : string;
  ni_kind : SubAgentActivityKind;
  ni_agent_thread_id : string;
}.

(** The items of a turn. *)
Inductive FactoryTurnItem : Type :=
| ItemCollabAgentToolCall (item : CollabItem)
| ItemSubAgentActivity (item : NativeItem)
| ItemUntracked.

Definition map_tool (t : CollabAgentTool) : FactorySubagentTool :=
  match t with
  | CollabSpawnAgent => SpawnAgent
  | CollabSendInput => SendInput
  | CollabResumeAgent => ResumeAgent
  | CollabWait => Wait
  | CollabCloseAgent => CloseAgent
  end.

Definition map_call_status (s : CollabCallStatus) : FactorySubagentToolCallStatus :=
  match s with CollabInProgress => CallInProgress | CollabCompleted => CallCompleted | CollabFailed => CallFailed end.

Definition map_agent_state (entry : string * AgentStatus) : FactorySubagentState :=
  let '(status, terminal, message) :=
    match entry.2 with
    | AgentPendingInit => (SubagentPendingInit, false, None)
    | AgentRunning => (SubagentRunning, false, None)
    | AgentInterrupted => (SubagentInterrupted, false, None)
    | AgentCompleted message => (SubagentCompleted, true, message)
    | AgentErrored message => (SubagentErrored, true, Some message)
    | AgentShutdown => (SubagentShutdown, true, None)
    | AgentNotFound => (SubagentNotFound, true, None)
    end in
  mkFactorySubagentState entry.1 status terminal message.

(** Sorted by thread. *)
Definition map_agent_states (item : CollabItem) : list FactorySubagentState :=
  order_by (λ a b, String.ltb (ss_thread_id a) (ss_thread_id b)) (map_agent_state <$> ci_agents_states item).

Definition collab_activity (observed_at turn_id : string) (item : CollabItem) : FactorySubagentActivity :=
  mkFactorySubagentActivity (ci_id item) turn_id (ci_sender_thread_id item) (ci_receiver_thread_ids item) (map_tool (ci_tool item))
    (ci_prompt item) (map_call_status (ci_status item)) (map_agent_states item) observed_at observed_at.

Definition native_activity (observed_at turn_id thread_id : string) (item : NativeItem) : FactorySubagentActivity :=
  let state status := mkFactorySubagentState (ni_agent_thread_id item) status false None in
  let '(tool, agents) :=
    match ni_kind item with
    | KindStarted => (SpawnAgent, [state SubagentRunning])
    | KindInteracted => (Interact, [])
    | KindInterrupted => (InterruptAgent, [state SubagentInterrupted])
    end in
  mkFactorySubagentActivity (ni_id item) turn_id thread_id [ni_agent_thread_id item] tool None CallCompleted agents
    observed_at observed_at.

(** ** The projection *)

Definition same_logical_activity (left right : FactorySubagentActivity) : bool :=
  bool_decide (sa_call_id left = sa_call_id right) && bool_decide (sa_turn_id left = sa_turn_id right)
  && bool_decide (sa_sender_thread_id left = sa_sender_thread_id right).

Definition with_created_at (created_at : string) (a : FactorySubagentActivity) : FactorySubagentActivity :=
  mkFactorySubagentActivity (sa_call_id a) (sa_turn_id a) (sa_sender_thread_id a) (sa_receiver_thread_ids a) (sa_tool a)
    (sa_prompt a) (sa_status a) (sa_agents a) created_at (sa_updated_at a).

(** [any(|id| seen.insert(id))]: it stops at the first agent not seen before. *)
Fixpoint insert_any (seen : gset string) (ids : list string) : bool * gset string :=
  match ids with
  | [] => (false, seen)
  | id :: rest => if decide (id ∈ seen) then insert_any seen rest else (true, {[id]} ∪ seen)
  end.

(** From the last activity on, those that show an agent for the first time. *)
Fixpoint select_latest (activities : list FactorySubagentActivity) (count : nat) (seen : gset string) (selected : list nat) : list nat :=
  match count with
  | O => selected
  | S index =>
      match activities !! index with
      | None => selected
      | Some a =>
          let '(new, seen) := insert_any seen (sa_receiver_thread_ids a) in
          if new then
            let selected := selected ++ [index] in
            if (length selected =? MAX_PROJECTED_SUBAGENT_ACTIVITIES)%nat then selected
            else select_latest activities index seen selected
          else select_latest activities index seen selected
      end
  end.

(** The most recent others, until the projection is full. *)
Fixpoint fill_recent (count : nat) (selected : list nat) : list nat :=
  match count with
  | O => selected
  | S index =>
      if (length selected =? MAX_PROJECTED_SUBAGENT_ACTIVITIES)%nat then selected
      else fill_recent index (if decide (index ∈ selected) then selected else selected ++ [index])
  end.

Definition projected_indexes (activities : list FactorySubagentActivity) : list nat :=
  order_by Nat.ltb (fill_recent (length activities) (select_latest activities (length activities) ∅ [])).

Definition bounded_projection (activities : list FactorySubagentActivity) : list FactorySubagentActivity :=
  if (length activities <=? MAX_PROJECTED_SUBAGENT_ACTIVITIES)%nat then activities
  else omap (λ index, activities !! index) (projected_indexes activities).

Definition with_subagents (activities : list FactorySubagentActivity) (history : option FactorySubagentHistory) (s : FactoryState) :
    FactoryState :=
  mkFactoryState (fs_revision s) (fs_work_units s) (fs_review s) (fs_remediations s) (fs_review_history s) activities history
    (fs_review_recovery s).

Definition existing_activity (a : FactorySubagentActivity) (l : list FactorySubagentActivity) : option (nat * FactorySubagentActivity) :=
  list_find (λ existing, same_logical_activity existing a = true) l.

(** An earlier state of the activity is replaced; it keeps its creation time. *)
Definition put_activity (a : FactorySubagentActivity) (l : list FactorySubagentActivity) : list FactorySubagentActivity :=
  match existing_activity a l with
  | Some (position, existing) => delete position l ++ [with_created_at (sa_created_at existing) a]
  | None => l ++ [a]
  end.

(** [durable_archive] is the latest sequence the archive gave out. *)
Definition apply_activity (a : FactorySubagentActivity) (durable_archive : option Z) (s : FactoryState) : FactoryState :=
  let activities := put_activity a (fs_subagents s) in
  match durable_archive with
  | None => with_subagents activities (fs_subagent_history s) s
  | Some latest =>
      let history :=
        match fs_subagent_history s with
        | Some h => mkFactorySubagentHistory (sh_source h) (sh_event_kind h) (Z.max (sh_latest_sequence h) latest)
        | None => mkFactorySubagentHistory CoordinatorJobEvents SUBAGENT_EVENT_KIND latest
        end in
      with_subagents (bounded_projection activities) (Some history) s
  end.

(** ** The archive *)

Fixpoint assoc_remove (k : string) (f : list (string * Value)) : list (string * Value) :=
  match f with
  | [] => []
  | (k', v) :: r => if decide (k = k') then r else (k', v) :: assoc_remove k r
  end.

Definition remove_key (k : string) (v : Value) : Value := match v with Object f => Object (assoc_remove k f) | _ => v end.

(** What identifies an activity: all of it but its times. *)
Definition activity_payload (a : FactorySubagentActivity) : Value :=
  remove_key "updated_at" (remove_key "created_at" (ser a)).

Section recording.
Context {W : Type} `{FactoryStateBackend W, ActivityArchive W, JsonCodec, Sha256}.

Definition activity_event (a : FactorySubagentActivity) : Value * string :=
  (activity_payload a, SUBAGENT_EVENT_KIND +:+ ":" +:+ sha256_hex (json_text (activity_payload a))).

Definition archive_activity (a : FactorySubagentActivity) : proc (AgentWorld W) Message (option Z) :=
  on_backend (archive_event SUBAGENT_EVENT_KIND (activity_event a).1 (activity_event a).2).

Definition extend_archive (archive : option Z) (sequence : Z) : option Z :=
  Some (match archive with Some latest => Z.max latest sequence | None => sequence end).

(** One after the other; [None] as soon as the backend keeps no events. *)
Fixpoint archive_list (l : list FactorySubagentActivity) (archive : option Z) : proc (AgentWorld W) Message (option Z) :=
  match l with
  | [] => proc_lift (Ok archive)
  | a :: rest =>
      reference ← archive_activity a;
      match reference with
      | None => proc_lift (Ok None)
      | Some sequence => archive_list rest (extend_archive archive sequence)
      end
  end.

Definition archive_activities (s : FactoryState) (a : FactorySubagentActivity) : proc (AgentWorld W) Message (option Z) :=
  archive_list ((if bool_decide (fs_subagent_history s = None) then fs_subagents s else []) ++ [a]) None.

Definition upsert_activity (key : string) (a : FactorySubagentActivity) : proc (AgentWorld W) Message unit :=
  s ← snapshot key;
  let a := match existing_activity a (fs_subagents s) with
           | Some (_, existing) => with_created_at (sa_created_at existing) a
           | None => a
           end in
  durable_archive ← archive_activities s a;
  _ ← update key (λ state, Ok (apply_activity a durable_archive state));
  proc_lift (Ok tt).

Definition record_collab_activity (key observed_at turn_id : string) (item : CollabItem) : proc (AgentWorld W) Message unit :=
  upsert_activity key (collab_activity observed_at turn_id item).

Definition record_native_activity (key observed_at turn_id thread_id : string) (item : NativeItem) : proc (AgentWorld W) Message unit :=
  upsert_activity key (native_activity observed_at turn_id thread_id item).

(** [TurnItemContributor::contribute]: [thread] is the state object of the
    thread and its identifier, [None] outside a factory session. *)
Definition contribute (thread : option (string * string)) (observed_at turn_id : string) (item : FactoryTurnItem) :
    proc (AgentWorld W) Message unit :=
  match thread with
  | None => proc_lift (Ok tt)
  | Some (key, thread_id) =>
      match item with
      | ItemCollabAgentToolCall i => record_collab_activity key observed_at turn_id i
      | ItemSubAgentActivity i => record_native_activity key observed_at turn_id thread_id i
      | ItemUntracked => proc_lift (Ok tt)
      end
  end.
End recording.
