(* ===== verification/SubagentsLaws.v ===== *)
(** * Facts about sub-agent activity

    The projection is bounded, keeps the order of the activities and the latest
    activity of every agent, and leaves out nothing the archive does not hold. *)

From S2P Require Import Prelude Sequences Domain Rows Store Leases Events Attempts Lifecycle Refinement System Safety EventLog Runner Serde AgentState AgentTools StateDocument StateBackend AgentWorlds StateDocumentLaws StateBackendLaws ProviderTools BridgeServer Subagents.
From Stdlib Require Import ZArith Ascii String Sorted.
From stdpp Require Import base gmap sets strings option list.

#[local] Open Scope string_scope.
#[local] Open Scope Z_scope.
#[local] Open Scope list_scope.

(** ** Sorting positions *)

#[local] Instance ltb_order : StrictWeak Nat.ltb.
Proof. split; intros *; rewrite ?Nat.ltb_lt, ?Nat.ltb_ge; lia. Qed.

Lemma positions_sorted (l : list nat) : NoDup l → StronglySorted lt (order_by Nat.ltb l).
Proof.
  intros Hn. pose proof (order_by_strict Nat.ltb l Hn) as Hs.
  assert (StronglySorted (λ a b, Nat.ltb a b = true) (order_by Nat.ltb l)) as Hs'
    by (apply Hs; intros x y _ _; rewrite !Nat.ltb_ge; lia).
  clear Hs. induction Hs' as [|x r Hr IH Hx]; constructor; [done|]. eapply Forall_impl; [exact Hx|]. cbn. intros y. apply Nat.ltb_lt.
Qed.

(** ** What is selected *)

Abbreviation limit := MAX_PROJECTED_SUBAGENT_ACTIVITIES.

Lemma limit_value : limit = 24%nat.
Proof. reflexivity. Qed.

(** Positions from [count] on, each once, no more than fit. *)
Definition chosen (len count : nat) (selected : list nat) : Prop :=
  NoDup selected ∧ Forall (λ i, count ≤ i < len)%nat selected ∧ (length selected ≤ limit)%nat.

Lemma chosen_mono len count count' selected : (count' ≤ count)%nat → chosen len count selected → chosen len count' selected.
Proof.
  intros Hc (Hn & Hf & Hl). split; [done|]. split; [|done]. eapply Forall_impl; [exact Hf|]. cbn. intros; lia.
Qed.

Lemma chosen_add len count selected :
  (count < len)%nat → (length selected < limit)%nat → chosen len (S count) selected → chosen len count (selected ++ [count]).
Proof.
  intros Hc Hl (Hn & Hf & _). split; [|split].
  - apply NoDup_app. split; [done|]. split; [|apply NoDup_singleton]. intros i Hi Hi'.
    apply list_elem_of_singleton in Hi' as ->. rewrite Forall_forall in Hf. specialize (Hf _ Hi). lia.
  - apply Forall_app. split; [|apply Forall_singleton; lia]. eapply Forall_impl; [exact Hf|]. cbn. intros; lia.
  - rewrite length_app. cbn. lia.
Qed.

Lemma insert_any_spec seen ids :
  let '(new, seen') := insert_any seen ids in
  if new then ∃ id, id ∈ ids ∧ (id ∉ seen) ∧ seen' = {[id]} ∪ seen else seen' = seen ∧ ∀ id, id ∈ ids → id ∈ seen.
Proof.
  induction ids as [|id ids IH]; cbn; [set_solver|]. destruct (decide (id ∈ seen)) as [Hin|Hn].
  - destruct (insert_any seen ids) as [[|] seen']; [|set_solver]. destruct IH as (x & Hx & Hn & ->). exists x. set_solver.
  - exists id. set_solver.
Qed.

Lemma select_latest_chosen activities count seen selected :
  (count ≤ length activities)%nat → (length selected < limit)%nat → chosen (length activities) count selected →
  let r := select_latest activities count seen selected in
  chosen (length activities) 0 r ∧ selected ⊆ r.
Proof.
  revert seen selected. induction count as [|index IH]; intros seen selected Hc Hl Hch; cbn [select_latest]; [by split|].
  destruct (activities !! index) as [a|] eqn:Ea; [|split; [exact (chosen_mono _ _ _ _ (Nat.le_0_l _) Hch)|done]].
  destruct (insert_any seen (sa_receiver_thread_ids a)) as [[|] seen'].
  - assert (chosen (length activities) index (selected ++ [index])) as Hadd by (apply chosen_add; [lia|done|done]).
    destruct (Nat.eqb_spec (length (selected ++ [index])) limit) as [E|E]; cbn zeta.
    + split; [exact (chosen_mono _ _ _ _ (Nat.le_0_l _) Hadd)|set_solver].
    + destruct (IH seen' (selected ++ [index]) ltac:(lia)) as [H1 H2]; [|done|]; [|split; [done|set_solver]].
      destruct Hadd as (_ & _ & Hle). lia.
  - apply IH; [lia|done|]. exact (chosen_mono _ _ _ _ (Nat.le_succ_diag_r _) Hch).
Qed.

Lemma fill_recent_chosen len count selected :
  (count ≤ len)%nat → chosen len 0 selected →
  let r := fill_recent count selected in
  chosen len 0 r ∧ selected ⊆ r ∧ (length r = limit ∨ ∀ i, (i < count)%nat → i ∈ r).
Proof.
  revert selected. induction count as [|index IH]; intros selected Hc Hch; cbn [fill_recent].
  { split; [done|]. split; [done|]. right. lia. }
  destruct (Nat.eqb_spec (length selected) limit) as [E|E]; [split; [done|]; split; [done|by left]|].
  assert (chosen len 0 (if decide (index ∈ selected) then selected else selected ++ [index])) as Hch'.
  { case_decide as Hi; [done|]. destruct Hch as (Hn & Hf & Hl). split; [|split].
    - apply NoDup_app. split; [done|]. split; [set_solver|apply NoDup_singleton].
    - apply Forall_app. split; [done|]. apply Forall_singleton. lia.
    - rewrite length_app. cbn. lia. }
  destruct (IH _ ltac:(lia) Hch') as (H1 & H2 & H3). split; [done|]. split; [case_decide; set_solver|].
  destruct H3 as [H3|H3]; [by left|right]. intros i Hi. destruct (decide (i = index)) as [->|]; [|apply H3; lia].
  apply H2. case_decide; set_solver.
Qed.

(** The positions of the projection of more activities than fit. *)
Lemma projected_indexes_spec activities :
  (limit < length activities)%nat →
  let r := projected_indexes activities in
  StronglySorted lt r ∧ length r = limit ∧ Forall (λ i, (i < length activities)%nat) r
  ∧ select_latest activities (length activities) ∅ [] ⊆ r.
Proof.
  intros Hlen. unfold projected_indexes.
  destruct (select_latest_chosen activities (length activities) ∅ []) as [Hs _]; [lia|cbn; unfold limit; lia| |].
  { split; [constructor|]. split; [constructor|cbn; lia]. }
  destruct (fill_recent_chosen _ _ _ (Nat.le_refl _) Hs) as ((Hn & Hf & Hl) & Hsub & Hfull).
  set (r := fill_recent _ _) in *. cbn zeta. split; [by apply positions_sorted|].
  rewrite (Permutation_length (order_by_perm _ _)). split; [|split].
  - destruct Hfull as [|Hall]; [done|]. exfalso.
    assert (seq 0 (length activities) ⊆+ r) as Hsub'%submseteq_length.
    { apply NoDup_submseteq; [apply NoDup_seq|]. intros i Hi%elem_of_seq. apply Hall. lia. }
    rewrite length_seq in Hsub'. lia.
  - rewrite Forall_forall in Hf |- *. intros i Hi. rewrite order_by_perm in Hi. specialize (Hf _ Hi). lia.
  - intros i Hi. rewrite order_by_perm. by apply Hsub.
Qed.

(** ** The latest activity of an agent *)

Definition agents_of (l : list FactorySubagentActivity) : gset string := list_to_set (concat (sa_receiver_thread_ids <$> l)).

Definition names_agent (l : list FactorySubagentActivity) (i : nat) (x : string) : Prop :=
  ∃ a, l !! i = Some a ∧ x ∈ sa_receiver_thread_ids a.

(** The last activity that names the agent. *)
Definition latest_of (l : list FactorySubagentActivity) (x : string) (i : nat) : Prop :=
  names_agent l i x ∧ ∀ j, (i < j)%nat → ¬ names_agent l j x.

Lemma names_agents l i x : names_agent l i x → x ∈ agents_of l.
Proof.
  intros (a & Ha & Hx). unfold agents_of. apply elem_of_list_to_set, list_elem_of_In, List.in_concat.
  exists (sa_receiver_thread_ids a). split; [|by apply list_elem_of_In]. apply list_elem_of_In, list_elem_of_fmap.
  exists a. split; [done|]. by eapply list_elem_of_lookup_2.
Qed.

Section latest.
Context (l : list FactorySubagentActivity) (Hfew : (size (agents_of l) ≤ limit)%nat).

(** What the search has seen, down to a position. *)
Record Searched (count : nat) (seen : gset string) (selected : list nat) : Prop := {
  se_named x : x ∈ seen → ∃ j, (count ≤ j)%nat ∧ names_agent l j x;
  se_count : (length selected ≤ size seen)%nat;
  se_found x i : latest_of l x i → (count ≤ i)%nat → i ∈ selected;
}.

Lemma searched_agents count seen selected : Searched count seen selected → seen ⊆ agents_of l.
Proof. intros Hs x (j & _ & Hj)%(se_named _ _ _ Hs). by eapply names_agents. Qed.

Lemma select_latest_found count seen selected x i :
  (count ≤ length l)%nat → Searched count seen selected → latest_of l x i → i ∈ select_latest l count seen selected.
Proof.
  revert seen selected. induction count as [|index IH]; intros seen selected Hc Hs Hi; cbn [select_latest].
  { apply (se_found _ _ _ Hs x); [done|lia]. }
  destruct (l !! index) as [a|] eqn:Ea; [|apply lookup_ge_None in Ea; lia].
  pose proof (insert_any_spec seen (sa_receiver_thread_ids a)) as Hin.
  destruct (insert_any seen (sa_receiver_thread_ids a)) as [[|] seen'].
  - destruct Hin as (id & Hid & Hnew & ->).
    assert (Searched index ({[id]} ∪ seen) (selected ++ [index])) as Hs'.
    { split.
      - intros y [->%elem_of_singleton|Hy]%elem_of_union; [exists index; split; [lia|by exists a]|].
        destruct (se_named _ _ _ Hs y Hy) as (j & Hj & Hn). exists j. split; [lia|done].
      - rewrite length_app, size_union by set_solver. rewrite size_singleton. pose proof (se_count _ _ _ Hs). cbn. lia.
      - intros y j Hy Hj. apply elem_of_app. destruct (decide (j = index)) as [->|]; [right; set_solver|left].
        apply (se_found _ _ _ Hs y); [done|lia]. }
    destruct (Nat.eqb_spec (length (selected ++ [index])) limit) as [E|E]; [|apply IH; [lia|done|done]].
    destruct (decide (index ≤ i)%nat) as [Hge|Hlt]; [by eapply (se_found _ _ _ Hs')|]. exfalso.
    pose proof (searched_agents _ _ _ Hs') as Hsub. pose proof (se_count _ _ _ Hs') as Hsize.
    assert (x ∈ {[id]} ∪ seen) as Hx.
    { destruct (decide (x ∈ {[id]} ∪ seen)) as [|Hx]; [done|]. exfalso.
      assert (size ({[id]} ∪ seen) < size (agents_of l))%nat; [|lia].
      apply subset_size. split; [done|]. intros Hsup. apply Hx, Hsup. eapply names_agents. apply Hi. }
    destruct (se_named _ _ _ Hs' x Hx) as (j & Hj & Hn). destruct Hi as [_ Hi]. by apply (Hi j); [lia|].
  - destruct Hin as [-> Hall]. apply IH; [lia| |done]. split.
    + intros y Hy. destruct (se_named _ _ _ Hs y Hy) as (j & Hj & Hn). exists j. split; [lia|done].
    + apply Hs.
    + intros y j Hy Hj. destruct (decide (j = index)) as [->|]; [|apply (se_found _ _ _ Hs y); [done|lia]]. exfalso.
      destruct Hy as [(b & Hb & Hyb) Hlast]. simplify_eq. specialize (Hall _ Hyb).
      destruct (se_named _ _ _ Hs y Hall) as (j & Hj' & Hn). by apply (Hlast j); [lia|].
Qed.
End latest.

Lemma select_latest_complete l x i :
  (size (agents_of l) ≤ limit)%nat → latest_of l x i → i ∈ select_latest l (length l) ∅ [].
Proof.
  intros Hfew Hi. eapply select_latest_found; [exact Hfew|done| |done]. split; [set_solver|cbn; lia|].
  intros y j ((a & Ha & _) & _) Hj. apply lookup_lt_Some in Ha. lia.
Qed.

(** A list of positions picks the activities at them. *)
Lemma pick_elem (l : list FactorySubagentActivity) (r : list nat) i a :
  i ∈ r → l !! i = Some a → a ∈ omap (λ index, l !! index) r.
Proof. intros Hi Ha. apply list_elem_of_omap. by exists i. Qed.

Lemma pick_length (l : list FactorySubagentActivity) (r : list nat) :
  Forall (λ i, (i < length l)%nat) r → length (omap (λ index, l !! index) r) = length r.
Proof.
  induction 1 as [|i r Hi _ IH]; [done|]. cbn. destruct (lookup_lt_is_Some_2 _ _ Hi) as [a ->]. cbn. by rewrite IH.
Qed.

Lemma drop_sublist {A : Type} (l : list A) k i : (k ≤ i)%nat → drop i l `sublist_of` drop k l.
Proof.
  intros Hki. assert (drop i l = drop (i - k) (drop k l)) as ->; [|apply sublist_drop].
  rewrite skipn_skipn. f_equal. lia.
Qed.

Lemma pick_sublist (l : list FactorySubagentActivity) (r : list nat) k :
  StronglySorted lt r → Forall (le k) r → omap (λ index, l !! index) r `sublist_of` drop k l.
Proof.
  intros Hs. revert k. induction Hs as [|i r Hs IH Hall]; intros k Hk; [apply sublist_nil_l|].
  apply Forall_cons in Hk as [Hki _]. assert (Forall (le (S i)) r) as Hi by (eapply Forall_impl; [exact Hall|]; cbn; lia).
  specialize (IH _ Hi). cbn. destruct (l !! i) as [a|] eqn:Ea; cbn.
  - etrans; [|exact (drop_sublist l k i Hki)]. rewrite (drop_S _ _ _ Ea). by apply sublist_skip.
  - etrans; [exact IH|]. apply drop_sublist. lia.
Qed.

Lemma bounded_projection_sublist l : bounded_projection l `sublist_of` l.
Proof.
  unfold bounded_projection. destruct (Nat.leb_spec (length l) limit) as [Hle|Hgt]; [done|].
  destruct (projected_indexes_spec l Hgt) as (Hs & _). apply (pick_sublist l _ 0); [done|].
  apply Forall_forall. intros; lia.
Qed.

Lemma bounded_projection_length l : length (bounded_projection l) = Nat.min (length l) limit.
Proof.
  unfold bounded_projection. destruct (Nat.leb_spec (length l) limit) as [Hle|Hgt]; [lia|].
  destruct (projected_indexes_spec l Hgt) as (_ & Hlen & Hf & _). rewrite pick_length by done. lia.
Qed.

Lemma bounded_projection_latest l x i a :
  (size (agents_of l) ≤ limit)%nat → latest_of l x i → l !! i = Some a → a ∈ bounded_projection l.
Proof.
  intros Hfew Hi Ha. unfold bounded_projection. destruct (Nat.leb_spec (length l) limit) as [Hle|Hgt].
  - by eapply list_elem_of_lookup_2.
  - destruct (projected_indexes_spec l Hgt) as (_ & _ & _ & Hsel).
    apply (pick_elem _ _ i); [|done]. apply Hsel. by eapply select_latest_complete.
Qed.

(** ** Recording *)

(** The call an activity is about. *)
Definition identity (a : FactorySubagentActivity) : string * string * string :=
  (sa_call_id a, sa_turn_id a, sa_sender_thread_id a).

Lemma same_logical_identity a b : same_logical_activity a b = true ↔ identity a = identity b.
Proof.
  unfold same_logical_activity, identity. rewrite !andb_true_iff, !bool_decide_eq_true. naive_solver congruence.
Qed.

(** An activity with the creation time of its earlier state. *)
Definition stamped (l : list FactorySubagentActivity) (a : FactorySubagentActivity) : FactorySubagentActivity :=
  match existing_activity a l with Some (_, existing) => with_created_at (sa_created_at existing) a | None => a end.

Lemma identity_stamped l a : identity (stamped l a) = identity a.
Proof. unfold stamped. by destruct (existing_activity a l) as [[i x]|]. Qed.

Lemma existing_stamped l a : existing_activity (stamped l a) l = existing_activity a l.
Proof. unfold stamped. destruct (existing_activity a l) as [[i x]|] eqn:Ex; exact Ex. Qed.

(** Recording replaces the earlier state of the same call, and only that. *)
Lemma put_stamped l a : ∃ rest,
  put_activity (stamped l a) l = rest ++ [stamped l a] ∧ rest `sublist_of` l
  ∧ (NoDup (identity <$> l) → identity a ∉ identity <$> rest)
  ∧ ∀ b, b ∈ l → identity b ≠ identity a → b ∈ rest.
Proof.
  unfold put_activity. rewrite existing_stamped.
  destruct (existing_activity a l) as [[i x]|] eqn:Ex.
  - exists (delete i l). split; [unfold stamped; by rewrite Ex|]. apply list_find_Some in Ex as (Hi & Hx & _).
    apply same_logical_identity in Hx. split; [apply sublist_delete|]. pose proof (delete_Permutation _ _ _ Hi) as Hp. split.
    + intros Hn. rewrite Hp in Hn at 1. cbn in Hn. apply NoDup_cons in Hn as [Hn _]. by rewrite <- Hx.
    + intros b Hb Hba. rewrite Hp in Hb. apply elem_of_cons in Hb as [->|]; [done|done].
  - exists l. split; [done|]. split; [done|]. split; [|done]. intros _ (b & Hb & Hl)%list_elem_of_fmap.
    apply list_find_None in Ex. rewrite Forall_forall in Ex. apply (Ex b Hl). by apply same_logical_identity.
Qed.

(** What is recorded: at the end, in place of its earlier state. *)
Lemma put_stamped_spec l a b :
  b ∈ put_activity (stamped l a) l → b ∈ l ∨ b = stamped l a.
Proof.
  destruct (put_stamped l a) as (rest & -> & Hr & _). intros [Hb|Hb]%elem_of_app; [left|right; set_solver].
  by eapply elem_of_sublist.
Qed.

Lemma put_stamped_NoDup l a : NoDup (identity <$> l) → NoDup (identity <$> put_activity (stamped l a) l).
Proof.
  intros Hn. destruct (put_stamped l a) as (rest & -> & Hr & Hfresh & _). rewrite fmap_app. cbn. rewrite identity_stamped.
  apply NoDup_app. split; [|split; [|apply NoDup_singleton]].
  - eapply sublist_NoDup; [exact Hn|by apply fmap_sublist].
  - intros x Hx Hx'. apply list_elem_of_singleton in Hx' as ->. by apply Hfresh.
Qed.

(** What recording relies on from the archive: a backend either keeps events or
    does not, an event it gave a sequence is held, and nothing held is lost. *)
Class ArchiveLaws (W : Type) `{FactoryStateBackend W, ActivityArchive W} : Type := {
  keeps_events : bool;
  holds : W → string → Value → string → Prop;
  archive_kept kind payload key b o b' : archive_event kind payload key b = (Ok o, b') →
    if keeps_events then is_Some o ∧ holds b' kind payload key else o = None;
  archive_grows kind payload key b r b' : archive_event kind payload key b = (r, b') →
    ∀ k v d, holds b k v d → holds b' k v d;
  save_holds key s b r b' : backend_save key s b = (r, b') → ∀ k v d, holds b k v d → holds b' k v d;
  load_holds key b r b' : backend_load key b = (r, b') → ∀ k v d, holds b k v d → holds b' k v d;
}.

Section recorded.
Context {W : Type} `{ArchiveLaws W, JsonCodec, Sha256}.
Implicit Types w : AgentWorld W.

Definition archived (w : AgentWorld W) (a : FactorySubagentActivity) : Prop :=
  holds (aw_backend w) SUBAGENT_EVENT_KIND (activity_event a).1 (activity_event a).2.

(** Once a state says where its history is, the history holds every activity of it. *)
Definition complete (w : AgentWorld W) (s : FactoryState) : Prop :=
  keeps_events = true → is_Some (fs_subagent_history s) → ∀ a, a ∈ fs_subagents s → archived w a.

Definition recorded (w : AgentWorld W) (s : FactoryState) (a : FactorySubagentActivity) : Prop :=
  a ∈ fs_subagents s ∨ archived w a.

(** The archive only grows and the cached states stay. *)
Definition archives (w w' : AgentWorld W) : Prop :=
  aw_states w' = aw_states w ∧ ∀ a, archived w a → archived w' a.

Lemma archive_activity_spec a w r w' :
  archive_activity a w = (r, w') →
  archives w w' ∧ (∀ o, r = Ok o → if keeps_events then is_Some o ∧ archived w' a else o = None).
Proof.
  unfold archive_activity, on_backend. destruct (archive_event _ _ _ _) as [q b] eqn:E. intros ?; simplify_eq. split.
  - split; [done|]. intros x Hx. by eapply archive_grows.
  - intros o ->. by apply archive_kept in E.
Qed.

Lemma archives_trans w1 w2 w3 : archives w1 w2 → archives w2 w3 → archives w1 w3.
Proof. intros [? ?] [? ?]. split; [congruence|auto]. Qed.

Lemma archive_list_spec l o w r w' :
  archive_list l o w = (r, w') →
  archives w w'
  ∧ (∀ latest, r = Ok latest → if keeps_events then (is_Some o ∨ l ≠ [] → is_Some latest) ∧ Forall (archived w') l else l ≠ [] → latest = None).
Proof.
  revert o w. induction l as [|a l IH]; intros o w; cbn [archive_list].
  { unfold proc_lift. intros ?; simplify_eq. split; [by split|]. intros latest ?; simplify_eq. destruct keeps_events; [|done].
    split; [|constructor]. by intros [|]. }
  unfold mbind, proc_bind. destruct (archive_activity a w) as [[q|e] w1] eqn:Ea; apply archive_activity_spec in Ea as [Hg Hk].
  - specialize (Hk _ eq_refl). destruct q as [n|].
    + intros Hr. destruct (IH _ _ Hr) as [Hg' Hl]. split; [by eapply archives_trans|]. intros latest Hlat. specialize (Hl _ Hlat).
      destruct keeps_events; [|done]. destruct Hl as [Hl Hf], Hk as [_ Hk]. split; [intros _; apply Hl; left; by eexists|].
      constructor; [by apply Hg'|done].
    + unfold proc_lift. intros ?; simplify_eq. split; [done|]. intros latest ?; simplify_eq.
      destruct keeps_events; [|done]. by destruct Hk as [[? ?] _].
  - intros ?; simplify_eq. split; [done|]. done.
Qed.

Lemma archive_activities_spec s a w r w' :
  archive_activities s a w = (r, w') → complete w s →
  archives w w'
  ∧ (∀ latest, r = Ok latest →
      if keeps_events then is_Some latest ∧ archived w' a ∧ (∀ b, b ∈ fs_subagents s → archived w' b) else latest = None).
Proof.
  unfold archive_activities. intros (Hg & Hl)%archive_list_spec Hc. split; [done|]. intros latest ->. specialize (Hl _ eq_refl).
  unfold complete in Hc. destruct keeps_events; [|apply Hl; by destruct (bool_decide _), (fs_subagents s)]. destruct Hl as [Hsome Hf].
  split; [apply Hsome; right; by destruct (bool_decide _), (fs_subagents s)|]. apply Forall_app in Hf as [Hf Ha].
  split; [by inversion Ha|]. intros b Hb. destruct (fs_subagent_history s) as [h|] eqn:Eh.
  - by apply Hg, Hc.
  - rewrite bool_decide_true in Hf by done. rewrite Forall_forall in Hf. by apply Hf.
Qed.

Lemma snapshot_Ok key w s w1 :
  snapshot key w = (Ok s, w1) → cached key w1 = Some s ∧ ∀ a, archived w a → archived w1 a.
Proof.
  unfold snapshot, load_if_needed. destruct (cached key w) as [t|] eqn:Ec; [intros ?; by simplify_eq|].
  unfold on_backend. destruct (backend_load key (aw_backend w)) as [[o|e] b] eqn:El; intros ?; simplify_eq.
  split; [apply cached_set_cache|]. intros a Ha. by eapply load_holds.
Qed.

(** A recording that went through: the state before, the one after. *)
Lemma upsert_Ok key a w w' :
  upsert_activity key a w = (Ok tt, w') →
  ∃ s w1 latest w2 b,
    snapshot key w = (Ok s, w1) ∧ archive_activities s (stamped (fs_subagents s) a) w1 = (Ok latest, w2)
    ∧ let s' := bump (apply_activity (stamped (fs_subagents s) a) latest s) in
      (∃ u, backend_save key s' (aw_backend w2) = (Ok u, b)) ∧ w' = set_cache key s' (mkAgentWorld (aw_states w2) b).
Proof.
  unfold upsert_activity. unfold mbind at 1, proc_bind at 1. destruct (snapshot key w) as [[s|e] w1] eqn:Es; [|done].
  fold (stamped (fs_subagents s) a). unfold mbind at 1, proc_bind at 1.
  destruct (archive_activities s (stamped (fs_subagents s) a) w1) as [[latest|e] w2] eqn:Ea; [|done].
  assert (cached key w2 = Some s) as Hc.
  { destruct (archive_list_spec _ _ _ _ _ Ea) as [[Hst _] _]. unfold cached. rewrite Hst. by apply (snapshot_Ok key w). }
  unfold update, mbind, proc_bind, load_if_needed, on_backend, keep_state, proc_lift. rewrite Hc.
  destruct (backend_save _ _ (aw_backend w2)) as [[u|e] b] eqn:Eb; [|done]. intros [= <-].
  exists s, w1, latest, w2, b. eauto.
Qed.

Lemma apply_subagents a latest s :
  fs_subagents (bump (apply_activity a latest s)) =
    match latest with None => put_activity a (fs_subagents s) | Some _ => bounded_projection (put_activity a (fs_subagents s)) end
  ∧ (is_Some (fs_subagent_history (bump (apply_activity a latest s))) ↔ is_Some latest ∨ is_Some (fs_subagent_history s)).
Proof. destruct latest as [n|]; cbn; split; try done; destruct (fs_subagent_history s); cbn; naive_solver. Qed.

End recorded.


(** ** A backend that keeps events *)

Abbreviation Logged := (gmap string FactoryState * list (string * Value * string))%type.

#[export] Instance logged_backend : FactoryStateBackend Logged := {|
  backend_load key b := (Ok (b.1 !! key), b);
  backend_save key s b := (Ok tt, (<[key := s]> b.1, b.2));
|}.

#[export] Instance logged_archive : ActivityArchive Logged := {|
  archive_event kind payload key b := (Ok (Some (Z.of_nat (length b.2))), (b.1, b.2 ++ [(kind, payload, key)]));
|}.

#[export] Instance logged_laws : ArchiveLaws Logged.
Proof.
  refine {| keeps_events := true; holds b kind payload key := (kind, payload, key) ∈ b.2 |}; cbn; intros; simplify_eq; cbn; set_solver.
Defined.

#[local] Instance plain_digest : Sha256 := {| sha256_hex text := text |}.

Definition demo_activity (call agent time : string) : FactorySubagentActivity :=
  native_activity time "t1" "parent" (mkNativeItem call KindStarted agent).

Definition demo_busy : FactoryState := with_subagents [demo_activity "c1" "a1" "1"; demo_activity "c2" "a2" "2"] None default_state.
Definition demo_recording : AgentWorld Logged := mkAgentWorld {["parent" := Some demo_busy]} (∅, []).


(** ** The archive over HTTP *)

Section archive.
Context `{External, ErrorText, HttpText, DecodeText} (fence : AttemptFence) (fits : fits_u64 (af_lease_epoch fence)).

(** [FactorydStateBackend::append_event]. *)
Definition factoryd_archive : ActivityArchive FactorydWorld := {| archive_event := factoryd_append_event fence |}.

(** The log holds an event under its deduplication key. *)
Definition logged (w : FactorydWorld) (kind : string) (payload : Value) (key : string) : Prop :=
  ∃ ev, ev ∈ events (fw_db w) ∧ ev_deduplication_key ev = Some key ∧ jer_kind (ev_row ev) = kind ∧ jer_payload (ev_row ev) = payload.

Lemma logged_grows w w' kind payload key : events (fw_db w) ⊆ events (fw_db w') → logged w kind payload key → logged w' kind payload key.
Proof. intros Hsub (ev & Hin & Hev). exists ev. split; [by apply Hsub|done]. Qed.

Lemma exec_grows now c s : events s ⊆ events (exec now c s).
Proof. destruct (run_log_suffix [(now, c)] s) as [suffix E]. cbn in E. rewrite E. set_solver. Qed.

(** Requests whose handlers only add events. *)
Lemma send_request_grows operation (h : Z → db → Response * db) w r w' :
  (∀ now d, events d ⊆ events (h now d).2) → send_request operation h w = (r, w') → events (fw_db w) ⊆ events (fw_db w').
Proof.
  intros Hh. unfold send_request, send. destruct (fw_deliveries w) as [|[now|e|now e] rest]; cbn;
    [by intros [= _ <-]| |by intros [= _ <-]|].
  - specialize (Hh now (fw_db w)). destruct (h now (fw_db w)) as [a d]. by intros [= _ <-].
  - intros [= _ <-]. apply Hh.
Qed.

Lemma handle_result_snd {A : Type} (p : Proc A) answer s : (handle_result p answer s).2 = (p s).2.
Proof. unfold handle_result. by destruct (p s) as [[] ]. Qed.

Lemma append_event_grows kind payload key w r w' :
  factoryd_append_event fence kind payload key w = (r, w') → events (fw_db w) ⊆ events (fw_db w').
Proof.
  unfold factoryd_append_event, mbind, proc_bind, proc_lift.
  destruct (send_request _ _ w) as [[a|e] w1] eqn:Es; intros [= _ <-]; (eapply send_request_grows; [|exact Es]);
    intros now d; unfold post_attempt_event; (destruct (de_event_request _ _) as [[f ev]|]; [|done]);
    rewrite handle_result_snd; pose proof (exec_grows now (AppendAttemptEvent f ev) d) as Hg;
    unfold exec in Hg; cbn in Hg; by rewrite forget_snd in Hg.
Qed.

Lemma save_grows key s w r w' : factoryd_save fence key s w = (r, w') → events (fw_db w) ⊆ events (fw_db w').
Proof.
  unfold factoryd_save, mbind, proc_bind, proc_lift.
  destruct (send_request _ _ w) as [[a|e] w1] eqn:Es; intros [= _ <-]; (eapply send_request_grows; [|exact Es]);
    intros now d; unfold put_thread_state_route; (destruct (de_write_request _) as [[f v]|]; [|done]);
    rewrite handle_result_snd; pose proof (exec_grows now (PutThreadState f key v) d) as Hg;
    unfold exec in Hg; cbn in Hg; by rewrite forget_snd in Hg.
Qed.

Lemma load_grows key w r w' : factoryd_load key w = (r, w') → events (fw_db w) ⊆ events (fw_db w').
Proof.
  unfold factoryd_load, mbind, proc_bind, proc_lift.
  destruct (send_request _ _ w) as [[a|e] w1] eqn:Es; intros [= _ <-]; (eapply send_request_grows; [|exact Es]);
    intros now d; by rewrite get_thread_state_db.
Qed.

Lemma append_refused e : is_ok (append_answer (into_response (ApiCoordinator e))) = false.
Proof.
  unfold append_answer, into_response. pose proof (error_status_fails e) as Hf.
  destruct (error_status e) as [status code]. cbn in *. by rewrite Hf.
Qed.

(** What is reported as archived is in the log. *)
Lemma append_event_kept kind payload key w o w' :
  factoryd_append_event fence kind payload key w = (Ok o, w') → is_Some o ∧ logged w' kind payload key.
Proof.
  unfold factoryd_append_event, mbind, proc_bind, proc_lift, send_request, send.
  destruct (fw_deliveries w) as [|[now|e|now e] rest]; [done| |done|done]. unfold post_attempt_event.
  rewrite event_request_read by done. unfold handle_result.
  destruct (append_attempt_event now fence _ (fw_db w)) as [[record|e] d] eqn:Ea; cbn -[append_answer into_response].
  - intros [= Hans <-]. split.
    + unfold append_answer in Hans. destruct (status_success _); [|done]. destruct (decode_body _ _ _); [|done]. by injection Hans as <-.
    + unfold append_attempt_event in Ea. apply commit_Ok, tx_bind_Ok in Ea as (ctx & s0 & _ & Hins).
      destruct (insert_attempt_event_stored _ _ _ _ _ _ _ key Hins eq_refl) as (ev & Hin & _ & Hk & Hkind & Hp & _).
      exists ev. done.
  - intros [= Hans <-]. pose proof (append_refused e) as Hr. by rewrite Hans in Hr.
Qed.

#[export] Instance factoryd_archive_laws :
  ArchiveLaws FactorydWorld (H := factoryd_backend fence) (H0 := factoryd_archive).
Proof.
  refine (Build_ArchiveLaws FactorydWorld (factoryd_backend fence) factoryd_archive true logged _ _ _ _).
  - apply append_event_kept.
  - intros kind payload key b r b' Hr k v d. apply logged_grows. exact (append_event_grows _ _ _ _ _ _ Hr).
  - intros key s b r b' Hr k v d. apply logged_grows. exact (save_grows _ _ _ _ _ Hr).
  - intros key b r b' Hr k v d. apply logged_grows. exact (load_grows _ _ _ _ Hr).
Defined.

Context `{JsonCodec, Sha256}.
#[local] Hint Extern 0 (FactoryStateBackend FactorydWorld) => exact (factoryd_backend fence) : typeclass_instances.
#[local] Hint Extern 0 (ActivityArchive FactorydWorld) => exact factoryd_archive : typeclass_instances.

(** A recording that reports success has put the activity into the log of the
    coordinator, and every activity of a state that had none there yet. *)
Theorem recorded_activity_logged key a w s w1 w' :
  snapshot key w = (Ok s, w1) → upsert_activity key a w = (Ok tt, w') →
  let in_log b := logged (aw_backend w') SUBAGENT_EVENT_KIND (activity_event b).1 (activity_event b).2 in
  in_log (stamped (fs_subagents s) a) ∧ (fs_subagent_history s = None → ∀ b, b ∈ fs_subagents s → in_log b).
Proof.
  intros Hs (s0 & w0 & latest & w2 & b & Hs0 & Ha & (u & Hb) & ->)%upsert_Ok. rewrite Hs in Hs0. injection Hs0 as <- <-.
  apply archive_list_spec in Ha as [_ Hall]. specialize (Hall _ eq_refl). destruct Hall as [_ Hall]. cbn zeta.
  assert (∀ x, archived w2 x → logged b SUBAGENT_EVENT_KIND (activity_event x).1 (activity_event x).2) as Hkeep.
  { intros x Hx. eapply logged_grows; [|exact Hx]. exact (save_grows _ _ _ _ _ Hb). }
  apply Forall_app in Hall as [Hf Hlast]. split; [apply Hkeep; by inversion Hlast|].
  intros Hnone x Hx. apply Hkeep. rewrite bool_decide_true in Hf by done. rewrite Forall_forall in Hf. by apply Hf.
Qed.
End archive.
