(* ===== verification/Artifacts.v ===== *)
(** * Artifacts

    [coordinator/src/artifacts.rs]: the files a job's settled outputs are rendered
    to, a copy in the coordinator's directory and, for a matching checkout, one in
    the workspace's.  The file system is an interface whose calls may fail; paths
    and contents are strings of bytes. *)

From S2P Require Import Prelude Sequences Domain Rows Store Leases Events Jobs Runner StageOutput Serde ProviderTools Executor EnvironmentWork ResponseStream.
From Stdlib Require Import ZArith Ascii String.
From stdpp Require Import base gmap strings list option.

#[local] Open Scope string_scope.
#[local] Open Scope list_scope.

Definition FACTORY_ARTIFACT_ROOT_ENV : string := "FACTORY_ARTIFACT_ROOT".

Inductive JobArtifactFile : Type :=
| ArtifactJob | ArtifactTask | ArtifactPlan | ArtifactExecute | ArtifactIterate | ArtifactReview | ArtifactRemediate
| ArtifactResult | ArtifactFindings.

#[export] Instance JobArtifactFile_eq_dec : EqDecision JobArtifactFile.
Proof. solve_decision. Defined.

Definition ALL_ARTIFACT_FILES : list JobArtifactFile :=
  [ArtifactJob; ArtifactTask; ArtifactPlan; ArtifactExecute; ArtifactIterate; ArtifactReview; ArtifactRemediate;
   ArtifactResult; ArtifactFindings].

Definition artifact_file_name (f : JobArtifactFile) : string :=
  match f with
  | ArtifactJob => "job.json"
  | ArtifactTask => "task.md"
  | ArtifactPlan => "plan.md"
  | ArtifactExecute => "execute.md"
  | ArtifactIterate => "iterate.md"
  | ArtifactReview => "review.md"
  | ArtifactRemediate => "remediate.md"
  | ArtifactResult => "result.md"
  | ArtifactFindings => "findings.json"
  end.

Definition for_stage (stage : string) : option JobArtifactFile :=
  if decide (stage = "plan") then Some ArtifactPlan
  else if decide (stage = "execute") then Some ArtifactExecute
  else if decide (stage = "iterate") then Some ArtifactIterate
  else if decide (stage = "review") then Some ArtifactReview
  else if decide (stage = "remediate") then Some ArtifactRemediate
  else None.

(** ** Paths *)

Fixpoint ends_with_slash (s : string) : bool :=
  match s with
  | EmptyString => false
  | String c EmptyString => bool_decide (c = "/"%char)
  | String _ r => ends_with_slash r
  end.

(** [Path::join] on Unix: an absolute path replaces the base. *)
Definition path_join (base path : string) : string :=
  match path with
  | String "/" _ => path
  | _ => match base with
         | EmptyString => path
         | _ => if ends_with_slash base then base +:+ path else base +:+ "/" +:+ path
         end
  end.

Record ArtifactPaths : Type := mkArtifactPaths {
  ap_coordinator_dir : string;
  ap_local_projection_dir : option string;
}.

Record ArtifactManager : Type := mkArtifactManager {
  am_root : string;
  am_host_repository_id : option string;
}.

Record ArtifactProjectionWarning : Type := mkArtifactProjectionWarning {
  apw_file : JobArtifactFile;
  apw_message : string;
}.

Definition new_manager (root : string) (host_repository_id : option string) : Result ArtifactManager :=
  if decide (root = EmptyString) then Err (InvalidInput [Display FACTORY_ARTIFACT_ROOT_ENV; Lit " must not be empty"])
  else Ok (mkArtifactManager root host_repository_id).

(** [env] is the process environment, [temp_dir] the system's directory. *)
Definition manager_from_env (env : string → option string) (temp_dir : string) : Result ArtifactManager :=
  let root := default (path_join temp_dir "software-factory/artifacts") (env FACTORY_ARTIFACT_ROOT_ENV) in
  let host_repository_id := env "FACTORY_HOST_REPOSITORY_ID" ≫= λ value, if is_blank value then None else Some value in
  new_manager root host_repository_id.

Definition job_paths (m : ArtifactManager) (job_id repository_id : string) : ArtifactPaths :=
  mkArtifactPaths (path_join (path_join (am_root m) "coordinator/jobs") job_id)
    (if String.prefix "local:" repository_id && bool_decide (am_host_repository_id m = Some repository_id)
     then Some (path_join (path_join (am_root m) "local/jobs") job_id) else None).

(** ** The file system *)

(** [std::io::Error]: whether its kind is [NotFound], and its text. *)
Record IoError : Type := mkIoError {
  io_not_found : bool;
  io_text : string;
}.

Class ArtifactFiles (W : Type) : Type := {
  create_dir_all : string → proc W IoError unit;
  write_file : string → string → proc W IoError unit;
  rename_file : string → string → proc W IoError unit;
  remove_file : string → proc W IoError unit;
  read_file : string → proc W IoError string;
  is_regular_file : string → W → bool;
  (* opened, created when missing, and locked; the second kind of error is that of the blocking task *)
  lock_file : string → proc W (IoError + string) unit;
  new_uuid : W → string * W;
}.

Definition artifact_io (e : IoError) : CoordinatorError :=
  Workspace [Lit "artifact storage operation failed: "; Display (io_text e)].

(** ** Contents *)

Definition inventory_metadata (job : DurableJob) (workspace : option WorkspaceRecord) (repository_id : string) : Value :=
  let profile := value_get "executionProfile" (job_input (dj_job job)) in
  let metadata := obj [("jobId", Str (job_id (dj_job job)));
                       ("task", opt_str (get_str "task" (job_input (dj_job job))));
                       ("provider", opt_str (profile ≫= get_str "provider"));
                       ("model", opt_str (profile ≫= get_str "model"));
                       ("repositoryId", Str repository_id)] in
  match workspace with
  | Some w => value_set "baseRevision" (Str (wr_base_revision w)) (value_set "baseRef" (Str (wr_base_ref w)) metadata)
  | None => metadata
  end.

Definition task_markdown (job : DurableJob) : string :=
  close_line ("# Task" +:+ newline_str +:+ newline_str
              +:+ default EmptyString (get_str "task" (job_input (dj_job job)))).

Definition inventory_contents `{Rendering} (job : DurableJob) (workspace : option WorkspaceRecord) (repository_id : string) :
    Result (string * string) :=
  match to_vec_pretty (inventory_metadata job workspace repository_id) with
  | Ok job_json => Ok (job_json, task_markdown job)
  | Err _ => Err Serialization
  end.

(** The files of the settled stages, in the order of the outputs. *)
Fixpoint stage_files (outputs : list CompletedStageOutput) : Result (list (JobArtifactFile * string)) :=
  match outputs with
  | [] => Ok []
  | output :: rest =>
      file ← ok_or (for_stage (co_stage output))
               (InvalidInput [Lit "settled artifact stage "; Debug (co_stage output); Lit " is not recognized"]);
      files ← stage_files rest;
      Ok ((file, co_markdown output) :: files)
  end.

Section manager.
Context {W : Type} `{ArtifactFiles W, Rendering, CoordinatorText}.

Abbreviation Art := (proc W CoordinatorError).

(** ** Single files *)

(** [new_uuid] as a step. *)
Definition fresh_uuid {E : Type} : proc W E string := λ w, let '(id, w') := new_uuid w in (Ok id, w').

(** The contents are written beside the file and moved over it. *)
Definition atomic_replace (directory name contents : string) : proc W IoError unit :=
  uuid ← fresh_uuid;
  let temporary := path_join directory ("." +:+ name +:+ "." +:+ uuid +:+ ".tmp") in
  _ ← write_file temporary contents;
  renamed ← attempt (rename_file temporary (path_join directory name));
  match renamed with
  | Ok _ => done tt
  | Err e => _ ← ignore (remove_file temporary); fail e
  end.

Definition project_file (projection_dir : string) (file : JobArtifactFile) (contents : string) : proc W IoError unit :=
  _ ← create_dir_all projection_dir;
  atomic_replace projection_dir (artifact_file_name file) contents.

Definition remove_generated_file (path : string) : proc W IoError unit :=
  removed ← attempt (remove_file path);
  match removed with
  | Ok _ => done tt
  | Err e => if io_not_found e then done tt else fail e
  end.

(** What a failed projection leaves: a warning with the text of the error. *)
Definition warned (file : JobArtifactFile) (text : IoError → string) (p : proc W IoError unit) :
    Art (option ArtifactProjectionWarning) :=
  r ← attempt p;
  match r with
  | Ok _ => done None
  | Err e => done (Some (mkArtifactProjectionWarning file (text e)))
  end.

Definition ensure_coordinator_job_dir (m : ArtifactManager) (job_id repository_id : string) : Art ArtifactPaths :=
  _ ← map_err artifact_io (create_dir_all (ap_coordinator_dir (job_paths m job_id repository_id)));
  done (job_paths m job_id repository_id).

Definition write_job_file (paths : ArtifactPaths) (file : JobArtifactFile) (contents : string) :
    Art (option ArtifactProjectionWarning) :=
  _ ← map_err artifact_io (create_dir_all (ap_coordinator_dir paths));
  _ ← map_err artifact_io (atomic_replace (ap_coordinator_dir paths) (artifact_file_name file) contents);
  match ap_local_projection_dir paths with
  | None => done None
  | Some projection_dir => warned file io_text (project_file projection_dir file contents)
  end.

Definition remove_job_file (paths : ArtifactPaths) (file : JobArtifactFile) : Art (option ArtifactProjectionWarning) :=
  _ ← map_err artifact_io (remove_generated_file (path_join (ap_coordinator_dir paths) (artifact_file_name file)));
  match ap_local_projection_dir paths with
  | None => done None
  | Some projection_dir =>
      warned file (λ e, coordinator_text (artifact_io e))
        (remove_generated_file (path_join projection_dir (artifact_file_name file)))
  end.

Definition read_job_file (paths : ArtifactPaths) (file : JobArtifactFile) : Art (option string) :=
  r ← attempt (read_file (path_join (ap_coordinator_dir paths) (artifact_file_name file)));
  match r with
  | Ok contents => done (Some contents)
  | Err e => if io_not_found e then done None else fail (artifact_io e)
  end.

(** Both copies are regular files with the same bytes. *)
Definition projected_file_matches {E : Type} (paths : ArtifactPaths) (file : JobArtifactFile) : proc W E bool :=
  match ap_local_projection_dir paths with
  | None => done false
  | Some directory =>
      let coordinator_copy := path_join (ap_coordinator_dir paths) (artifact_file_name file) in
      let projected := path_join directory (artifact_file_name file) in
      regular ← observe (λ w, is_regular_file coordinator_copy w && is_regular_file projected w);
      if negb regular then done false
      else
        left ← attempt (read_file coordinator_copy);
        right ← attempt (read_file projected);
        done (match left, right with Ok a, Ok b => bool_decide (a = b) | _, _ => false end)
  end.

Definition acquire_publication_lock (coordinator_dir : string) : Art unit :=
  map_err (λ e, match e with
                | inl e => artifact_io e
                | inr text => Workspace [Lit "artifact lock task failed: "; Display text]
                end)
    (lock_file (path_join coordinator_dir ".publication.lock")).

Definition acquire_publication_guard (paths : ArtifactPaths) : Art unit :=
  _ ← map_err artifact_io (create_dir_all (ap_coordinator_dir paths));
  acquire_publication_lock (ap_coordinator_dir paths).

(** ** All files of a job *)

(** [for (file, contents) in files { ... }]: the first error ends it. *)
Fixpoint write_files (paths : ArtifactPaths) (files : list (JobArtifactFile * string)) (warnings : list ArtifactProjectionWarning) :
    Art (list ArtifactProjectionWarning) :=
  match files with
  | [] => done warnings
  | (file, contents) :: rest =>
      warning ← write_job_file paths file contents;
      write_files paths rest (warnings ++ option_list warning)
  end.

Definition initialize_job_files (m : ArtifactManager) (job : DurableJob) (workspace : option WorkspaceRecord) :
    Art (list ArtifactProjectionWarning) :=
  let repository_id :=
    default EmptyString (match workspace with
                         | Some w => Some (wr_repository_id w)
                         | None => get_str "repositoryId" (job_input (dj_job job))
                         end) in
  paths ← ensure_coordinator_job_dir m (job_id (dj_job job)) repository_id;
  contents ← proc_lift (inventory_contents job workspace repository_id);
  write_files paths [(ArtifactJob, contents.1); (ArtifactTask, contents.2)] [].

(** One inventory file: kept and projected again, or generated. *)
Definition initialize_missing (paths : ArtifactPaths) (file : JobArtifactFile) (generated : string) :
    Art (option ArtifactProjectionWarning) :=
  found ← read_job_file paths file;
  match found with
  | Some current =>
      match ap_local_projection_dir paths with
      | None => done None
      | Some projection_dir => warned file (λ e, coordinator_text (artifact_io e)) (project_file projection_dir file current)
      end
  | None => write_job_file paths file generated
  end.

Definition initialize_missing_job_files (paths : ArtifactPaths) (job : DurableJob) : Art (list ArtifactProjectionWarning) :=
  let repository_id := default EmptyString (get_str "repositoryId" (job_input (dj_job job))) in
  contents ← proc_lift (inventory_contents job None repository_id);
  job_warning ← initialize_missing paths ArtifactJob contents.1;
  task_warning ← initialize_missing paths ArtifactTask contents.2;
  done (option_list job_warning ++ option_list task_warning).

Fixpoint reconcile_files (paths : ArtifactPaths) (projection_dir : string) (files : list JobArtifactFile)
    (warnings : list ArtifactProjectionWarning) : Art (list ArtifactProjectionWarning) :=
  match files with
  | [] => done warnings
  | file :: rest =>
      found ← read_job_file paths file;
      match found with
      | None => reconcile_files paths projection_dir rest warnings
      | Some contents =>
          warning ← warned file io_text (project_file projection_dir file contents);
          reconcile_files paths projection_dir rest (warnings ++ option_list warning)
      end
  end.

Definition reconcile_projection (paths : ArtifactPaths) : Art (list ArtifactProjectionWarning) :=
  match ap_local_projection_dir paths with
  | None => done []
  | Some projection_dir => reconcile_files paths projection_dir ALL_ARTIFACT_FILES []
  end.

Definition publish_settled_outputs (paths : ArtifactPaths) (outputs : list CompletedStageOutput) :
    Art (list ArtifactProjectionWarning) :=
  files ← proc_lift (stage_files outputs);
  rendered ← proc_lift (match render_job_findings outputs with Ok f => Ok f | Err message => Err (InvalidInput message) end);
  removed ← (match rendered with
             | Some _ => done None
             | None => remove_job_file paths ArtifactFindings
             end : Art (option ArtifactProjectionWarning));
  write_files paths
    (files ++ option_list ((λ findings, (ArtifactFindings, findings)) <$> rendered) ++ [(ArtifactResult, render_job_result outputs)])
    (option_list removed).
End manager.

#[local] Open Scope Z_scope.
#[local] Open Scope list_scope.

(** ** Publication of settled outputs

    [runtime/src/executor/artifacts.rs]: after an operation settled, its worker
    reads the job and all its events back from the store and renders the settled
    outputs to the files of the job.  The store calls are those of a host. *)

Definition EVENT_PAGE : Z := 1000.

#[export] Instance AttemptState_eq_dec : EqDecision AttemptState.
Proof. solve_decision. Defined.

Definition require_settled_publication (attempt_state : AttemptState) (operation_state : OperationState) : Result unit :=
  guard_err (negb (bool_decide (attempt_state = AttSucceeded)))
    (InvalidInput [Lit "artifact publication requires a settled successful attempt"]);;
  guard_err (negb (bool_decide (operation_state = OpSucceeded)))
    (InvalidInput [Lit "artifact publication requires a settled successful operation"]).

Section publication.
Context {W : Type} `{EnvironmentHost W, ArtifactFiles W, HashOrder, Rendering, CoordinatorText}.

Abbreviation Pub := (proc W CoordinatorError).

(** Page after page until one is not full; [None] when the fuel ends first. *)
Fixpoint load_events_from (fuel : nat) (job_id : string) (after : Z) (events : list JobEventRecord) :
    Pub (option (list JobEventRecord)) :=
  match fuel with
  | O => done None
  | S n =>
      page ← store_call (λ _ _, list_job_events job_id after EVENT_PAGE);
      let events := events ++ jp_events page in
      if (length (jp_events page) <? Z.to_nat EVENT_PAGE)%nat then done (Some events)
      else load_events_from n job_id (jp_next_cursor page) events
  end.

Definition load_all_job_events (fuel : nat) (job_id : string) : Pub (option (list JobEventRecord)) :=
  load_events_from fuel job_id 0 [].

(** Failing to record the warning changes nothing. *)
Definition emit_settled_artifact_warning {E : Type} (job_id message : string) : proc W E unit :=
  ignore (store_call (λ now _, append_job_event now
    (mkNewJobEvent job_id "artifact.warning" (obj [("message", Str message)])))).

Definition emit_projection_warning {E : Type} (job_id : string) (warning : ArtifactProjectionWarning) : proc W E unit :=
  emit_settled_artifact_warning job_id
    ("the workspace projection of " +:+ artifact_file_name (apw_file warning) +:+ " could not be refreshed: "
     +:+ apw_message warning).

Fixpoint emit_warnings {E : Type} (job_id : string) (warnings : list ArtifactProjectionWarning) : proc W E unit :=
  match warnings with
  | [] => done tt
  | warning :: rest => _ ← emit_projection_warning job_id warning; emit_warnings job_id rest
  end.

(** From the events on. *)
Definition publish_outputs (paths : ArtifactPaths) (job : DurableJob) (operation : OperationRecord)
    (events : list JobEventRecord) : Pub unit :=
  outputs ← proc_lift (match reduce_settled_job_outputs job events with
                       | Ok outputs => Ok outputs
                       | Err message => Err (InvalidInput (Lit "reconstruct settled stage output: " :: message))
                       end);
  if existsb (λ output, bool_decide (co_operation_id output = op_operation_id operation)) outputs then
    warnings ← publish_settled_outputs paths outputs;
    emit_warnings (job_id (dj_job job)) warnings
  else fail (InvalidInput [Lit "settled "; Display (op_kind operation); Lit " stage has no validated output"]).

(** [Some tt] is [Ok(())]; [None] is running out of fuel. *)
Definition publish_settled_artifacts_inner (fuel : nat) (m : ArtifactManager) (context : OperationExecutionContext) :
    Pub (option unit) :=
  let id := job_id (oec_job context) in
  settled ← store_call (λ _ _, load_attempt (af_attempt_id (rl_fence (oec_lease context))));
  found ← store_call (λ _ _, load_workspace id);
  workspace ← proc_lift (ok_or found (Workspace [Lit "artifact workspace is missing"]));
  let paths := job_paths m id (wr_repository_id workspace) in
  _ ← acquire_publication_guard paths;
  job ← store_call (λ _ _, load_job id);
  operation ← proc_lift (ok_or (List.find (λ o, bool_decide (op_operation_id o = op_operation_id (oec_operation context)))
                                  (dj_operations job))
                           (InvalidInput [Lit "settled artifact operation is missing"]));
  _ ← proc_lift (require_settled_publication (at_state settled) (op_state operation));
  warnings ← initialize_job_files m job (Some workspace);
  _ ← emit_warnings (job_id (dj_job job)) warnings;
  events ← load_all_job_events fuel (job_id (dj_job job));
  match events with
  | None => done None
  | Some events => _ ← publish_outputs paths job operation events; done (Some tt)
  end.

Definition publish_settled_artifacts (fuel : nat) (m : ArtifactManager) (context : OperationExecutionContext) : Pub (option unit) :=
  published ← attempt (publish_settled_artifacts_inner fuel m context);
  match published with
  | Ok r => done r
  | Err error =>
      let message := "post-settlement artifact publication failed: " +:+ coordinator_text error in
      _ ← emit_settled_artifact_warning (job_id (oec_job context)) message;
      fail (Workspace [Display message])
  end.
End publication.
