(* ===== verification/ArtifactsLaws.v ===== *)
(** * Facts about artifacts

    A file of a job is replaced as a whole or stays as it was, publishing shows
    for every stage the latest settled output, and the result is replaced last. *)

From S2P Require Import Prelude Domain Serde StageOutput Executor ProviderTools ResponseStream Artifacts.
From Stdlib Require Import ZArith Ascii String.
From stdpp Require Import base gmap strings option list.

#[local] Open Scope string_scope.
#[local] Open Scope list_scope.

(** What the rendering relies on from the file system: a write changes its own
    file, a rename moves a file over another one or changes nothing, a removal
    removes a file or changes nothing, and the rest changes no artifact. *)
Class FileLaws (W : Type) `{ArtifactFiles W} : Type := {
  file_at : W → string → option string;
  create_dir_same d w r w' : create_dir_all d w = (r, w') → ∀ q, file_at w' q = file_at w q;
  write_spec p c w r w' : write_file p c w = (r, w') →
    (∀ q, q ≠ p → file_at w' q = file_at w q) ∧ ∀ u, r = Ok u → file_at w' p = Some c;
  rename_spec a b w r w' : rename_file a b w = (r, w') → a ≠ b →
    match r with
    | Ok _ => file_at w' b = file_at w a ∧ ∀ q, q ≠ a → q ≠ b → file_at w' q = file_at w q
    | Err _ => ∀ q, file_at w' q = file_at w q
    end;
  remove_spec p w r w' : remove_file p w = (r, w') →
    (∀ q, q ≠ p → file_at w' q = file_at w q) ∧
    match r with
    | Ok _ => file_at w' p = None
    | Err e => file_at w' p = file_at w p ∧ (io_not_found e = true → file_at w p = None)
    end;
  read_spec p w r w' : read_file p w = (r, w') →
    (∀ q, file_at w' q = file_at w q) ∧
    match r with Ok c => file_at w p = Some c | Err e => io_not_found e = true → file_at w p = None end;
  lock_same p w r w' : lock_file p w = (r, w') → ∀ q, q ≠ p → file_at w' q = file_at w q;
  uuid_same w id w' : new_uuid w = (id, w') → ∀ q, file_at w' q = file_at w q;
}.

(** ** Paths *)

Fixpoint last_char (s : string) : option ascii :=
  match s with
  | EmptyString => None
  | String c EmptyString => Some c
  | String _ r => last_char r
  end.

Lemma last_char_app a b : b ≠ EmptyString → last_char (a +:+ b) = last_char b.
Proof.
  intros Hb. induction a as [|c a IH]; [done|]. change (String c a +:+ b) with (String c (a +:+ b)). cbn [last_char]. destruct (a +:+ b) as [|x r] eqn:E; [|exact IH].
  destruct a; [by rewrite <- E in Hb|discriminate].
Qed.

Lemma last_char_join base p : p ≠ EmptyString → last_char (path_join base p) = last_char p.
Proof.
  intros Hp. assert (last_char (match base with EmptyString => p | _ => if ends_with_slash base then base +:+ p else base +:+ "/" +:+ p end)
    = last_char p) as H.
  { destruct base as [|c b]; [done|]. destruct (ends_with_slash _); [by rewrite last_char_app|].
    by rewrite last_char_app, (last_char_app "/") by (by destruct p). }
  unfold path_join. destruct p as [|[[] [] [] [] [] [] [] []] p]; first [exact H|done].
Qed.

(** A path that does not start at the root. *)
Definition relative (p : string) : Prop := match p with String "/" _ => False | _ => True end.

Lemma join_relative base p : relative p →
  path_join base p = match base with EmptyString => p | _ => if ends_with_slash base then base +:+ p else base +:+ "/" +:+ p end.
Proof. unfold path_join, relative. destruct p as [|[[] [] [] [] [] [] [] []] p]; by intros []. Qed.

Lemma join_inj base p q : relative p → relative q → path_join base p = path_join base q → p = q.
Proof.
  intros Hp Hq. rewrite !join_relative by done. destruct base as [|c b]; [done|].
  destruct (ends_with_slash _); intros E; repeat apply (inj (String.append _)) in E; done.
Qed.

Lemma file_name_relative f : relative (artifact_file_name f).
Proof. by destruct f. Qed.

#[export] Instance file_name_inj : Inj (=) (=) artifact_file_name.
Proof. by intros [] []. Qed.

(** The path of an artifact in a directory. *)
Definition at_dir (d : string) (f : JobArtifactFile) : string := path_join d (artifact_file_name f).
Definition artifact_path (q : string) : Prop := ∃ d f, q = at_dir d f.

Lemma at_dir_inj d f g : at_dir d f = at_dir d g → f = g.
Proof. intros E. apply join_inj in E; [|apply file_name_relative..]. by apply (inj artifact_file_name). Qed.

Lemma artifact_path_last q : artifact_path q → last_char q = Some "d"%char ∨ last_char q = Some "n"%char.
Proof. intros (d & f & ->). unfold at_dir. rewrite last_char_join by (by destruct f). destruct f; cbn; auto. Qed.

(** No artifact is a temporary file or the lock. *)
Lemma temporary_no_artifact d name uuid : ¬ artifact_path (path_join d ("." +:+ name +:+ "." +:+ uuid +:+ ".tmp")).
Proof.
  intros H%artifact_path_last. rewrite last_char_join in H by done. rewrite 4!last_char_app in H; [|try done..].
  - destruct H; discriminate.
  - by destruct uuid.
  - by destruct name.
Qed.

Lemma lock_no_artifact d : ¬ artifact_path (path_join d ".publication.lock").
Proof. intros H%artifact_path_last. rewrite last_char_join in H by done. destruct H; discriminate. Qed.

(** Joining puts something in front that only depends on the base. *)
Lemma join_front base : ∃ front, ∀ p, relative p → path_join base p = front +:+ p.
Proof.
  exists (match base with EmptyString => EmptyString | _ => if ends_with_slash base then base else base +:+ "/" end).
  intros p Hp. rewrite join_relative by done. destruct base as [|c b]; [done|]. destruct (ends_with_slash _); [done|].
  by rewrite string_app_assoc.
Qed.

Lemma join_extends base p : relative p → ∃ r, path_join base p = base +:+ r.
Proof.
  intros Hp. rewrite join_relative by done. destruct base as [|c b]; [by exists p|]. destruct (ends_with_slash _); eauto.
Qed.

(** The two copies never share a file. *)
Definition apart (paths : ArtifactPaths) : Prop :=
  ∀ d, ap_local_projection_dir paths = Some d → ∀ f g, at_dir d f ≠ at_dir (ap_coordinator_dir paths) g.

Lemma job_paths_apart m id repository_id : relative id → apart (job_paths m id repository_id).
Proof.
  intros Hid d Hd f g. unfold job_paths, at_dir in *. cbn [ap_coordinator_dir ap_local_projection_dir] in *.
  destruct (_ && _); [apply (inj Some) in Hd; subst d|done].
  destruct (join_front (am_root m)) as [front Hf]. rewrite !Hf by done.
  destruct (join_extends (front +:+ "local/jobs") id Hid) as [r1 ->].
  destruct (join_extends (front +:+ "coordinator/jobs") id Hid) as [r2 ->].
  destruct (join_extends ((front +:+ "local/jobs") +:+ r1) (artifact_file_name f) (file_name_relative f)) as [r3 ->].
  destruct (join_extends ((front +:+ "coordinator/jobs") +:+ r2) (artifact_file_name g) (file_name_relative g)) as [r4 ->].
  rewrite !string_app_assoc. intros E%(inj (String.append _)). discriminate.
Qed.

(** ** Single files *)

Section files.
Context {W : Type} `{FileLaws W, Rendering, CoordinatorText}.
Implicit Types w : W.

(** No artifact changes but those at the given paths. *)
Definition only_at (ps : list string) (w w' : W) : Prop :=
  ∀ q, artifact_path q → q ∉ ps → file_at w' q = file_at w q.

Lemma only_at_same ps w w' : (∀ q, file_at w' q = file_at w q) → only_at ps w w'.
Proof. intros H' q _ _. apply H'. Qed.

Lemma only_at_trans ps1 ps2 w1 w2 w3 : only_at ps1 w1 w2 → only_at ps2 w2 w3 → only_at (ps1 ++ ps2) w1 w3.
Proof.
  intros H12 H23 q Hq Hn. rewrite not_elem_of_app in Hn. rewrite H23, H12; [done|done|apply Hn|done|apply Hn].
Qed.

Definition shown (w : W) (d : string) (f : JobArtifactFile) : option string := file_at w (at_dir d f).

Lemma only_at_nil w w' d f : only_at [] w w' → shown w' d f = shown w d f.
Proof. intros H'. apply H'; [by exists d, f|set_solver]. Qed.

(** The file is replaced as a whole, or no artifact changes. *)
Lemma atomic_replace_spec d f contents w r w' :
  atomic_replace d (artifact_file_name f) contents w = (r, w') →
  match r with
  | Ok _ => only_at [at_dir d f] w w' ∧ shown w' d f = Some contents
  | Err _ => only_at [] w w'
  end.
Proof.
  unfold atomic_replace, mbind, proc_bind, fresh_uuid, attempt, ignore, done, fail.
  destruct (new_uuid w) as [uuid w1] eqn:E1. set (tmp := path_join d _). pose proof (uuid_same _ _ _ E1) as S1.
  pose proof (temporary_no_artifact d (artifact_file_name f) uuid) as Htmp. fold tmp in Htmp.
  assert (∀ q, artifact_path q → q ≠ tmp) as Hne by (intros q Hq ->; done).
  assert (tmp ≠ at_dir d f) as Htf by (intros E; apply Htmp; rewrite E; by exists d, f).
  destruct (write_file tmp contents w1) as [[u|e] w2] eqn:E2; destruct (write_spec _ _ _ _ _ E2) as [S2 C2].
  - destruct (rename_file tmp _ w2) as [[u'|e] w3] eqn:E3; pose proof (rename_spec _ _ _ _ _ E3 Htf) as S3.
    + intros ?; simplify_eq. destruct S3 as [C3 S3]. unfold shown. split; [|by unfold at_dir; rewrite C3, (C2 u)].
      intros q Hq Hn. rewrite S3, S2, S1; [done|by apply Hne|by apply Hne|set_solver].
    + destruct (remove_file tmp w3) as [q4 w4] eqn:E4. destruct (remove_spec _ _ _ _ E4) as [S4 _]. intros ?; simplify_eq.
      intros q Hq _. cbn. rewrite S4, S3, S2, S1; [done|by apply Hne..].
  - intros ?; simplify_eq. intros q Hq _. rewrite S2, S1; [done|by apply Hne].
Qed.

Lemma project_file_spec d f contents w r w' :
  project_file d f contents w = (r, w') →
  match r with
  | Ok _ => only_at [at_dir d f] w w' ∧ shown w' d f = Some contents
  | Err _ => only_at [] w w'
  end.
Proof.
  unfold project_file, mbind, proc_bind. destruct (create_dir_all d w) as [[u|e] w1] eqn:E1;
    pose proof (create_dir_same _ _ _ _ E1) as S1; [|intros ?; simplify_eq; by apply only_at_same].
  intros Hr%atomic_replace_spec. destruct r as [u'|e].
  - destruct Hr as [Ho Hs]. split; [|done]. exact (only_at_trans [] _ _ _ _ (only_at_same _ _ _ S1) Ho).
  - exact (only_at_trans [] _ _ _ _ (only_at_same _ _ _ S1) Hr).
Qed.

Lemma remove_generated_file_spec d f w r w' :
  remove_generated_file (at_dir d f) w = (r, w') →
  match r with
  | Ok _ => only_at [at_dir d f] w w' ∧ shown w' d f = None
  | Err _ => only_at [] w w'
  end.
Proof.
  unfold remove_generated_file, mbind, proc_bind, attempt, done, fail.
  destruct (remove_file (at_dir d f) w) as [[u|e] w1] eqn:E1; destruct (remove_spec _ _ _ _ E1) as [S1 C1].
  - intros ?; simplify_eq. split; [|done]. intros q _ Hn. apply S1. set_solver.
  - assert (only_at [] w w1) as Hsame.
    { intros q _ _. destruct (decide (q = at_dir d f)) as [->|Hn]; [apply C1|by apply S1]. }
    destruct (io_not_found e) eqn:En; intros ?; simplify_eq; [|done]. split.
    + intros q Hq _. apply Hsame; [done|set_solver].
    + rewrite (only_at_nil _ _ _ _ Hsame). by apply C1.
Qed.

(** ** Both copies *)

Lemma warned_spec f text p w r w' :
  warned f text p w = (r, w') →
  ∃ q w1, p w = (q, w1) ∧ w' = w1
    ∧ match q with Ok _ => r = Ok None | Err e => r = Ok (Some (mkArtifactProjectionWarning f (text e))) end.
Proof.
  unfold warned, mbind, proc_bind, attempt, done. destruct (p w) as [[u|e] w1]; intros ?; simplify_eq; eauto 10.
Qed.

(** One file changed: the coordinator's copy, and the projection unless warned. *)
Record Changed (paths : ArtifactPaths) (f : JobArtifactFile) (v : option string) (warning : option ArtifactProjectionWarning)
    (w w' : W) : Prop := {
  ch_coordinator g : shown w' (ap_coordinator_dir paths) g = if decide (g = f) then v else shown w (ap_coordinator_dir paths) g;
  ch_local d g : ap_local_projection_dir paths = Some d →
    shown w' d g = if decide (g = f) then (match warning with None => v | Some _ => shown w d g end) else shown w d g;
  ch_warning x : warning = Some x → apw_file x = f;
}.

Definition unchanged (paths : ArtifactPaths) (w w' : W) : Prop :=
  ∀ d f, d = ap_coordinator_dir paths ∨ ap_local_projection_dir paths = Some d → shown w' d f = shown w d f.

Lemma only_at_unchanged paths w w' : only_at [] w w' → unchanged paths w w'.
Proof. intros Ho d f _. by apply only_at_nil. Qed.

Lemma only_at_shown d f g w w' : only_at [at_dir d f] w w' → g ≠ f → shown w' d g = shown w d g.
Proof. intros Ho Hn. apply Ho; [by exists d, g|]. intros E%list_elem_of_singleton%at_dir_inj. done. Qed.

Lemma changed_both paths f v q (p : proc W IoError unit) text w w1 r w' :
  apart paths → only_at [at_dir (ap_coordinator_dir paths) f] w w1 → shown w1 (ap_coordinator_dir paths) f = v →
  ap_local_projection_dir paths = Some q →
  (∀ w r w', p w = (r, w') → match r with Ok _ => only_at [at_dir q f] w w' ∧ shown w' q f = v | Err _ => only_at [] w w' end) →
  warned f text p w1 = (r, w') → ∃ warning, r = Ok warning ∧ Changed paths f v warning w w'.
Proof.
  intros Hap Ho Hv Hq Hp Hw. apply warned_spec in Hw as (z & w2 & Hz & -> & Hr). specialize (Hp _ _ _ Hz).
  assert (∀ g, shown w1 q g = shown w q g) as Hq1.
  { intros g. apply Ho; [by exists q, g|]. intros E%list_elem_of_singleton. by eapply Hap. }
  assert (∀ g, only_at [at_dir q f] w1 w2 → shown w2 (ap_coordinator_dir paths) g = shown w1 (ap_coordinator_dir paths) g) as Hc.
  { intros g Ho2. apply Ho2; [by exists (ap_coordinator_dir paths), g|]. intros E%list_elem_of_singleton. by eapply Hap. }
  destruct z as [u|e].
  - destruct Hp as [Ho2 Hv2]. exists None. split; [done|]. split; [|intros d g Hd; simplify_eq|done].
    + intros g. rewrite Hc by done. case_decide as Hg; [by subst|by apply (only_at_shown _ f)].
    + case_decide as Hg; [by subst|]. rewrite (only_at_shown _ _ _ _ _ Ho2 Hg). apply Hq1.
  - eexists. split; [done|]. split; [|intros d g Hd; simplify_eq|by intros x [= <-]].
    + intros g. rewrite (only_at_nil _ _ _ _ Hp). case_decide as Hg; [by subst|by apply (only_at_shown _ f)].
    + rewrite (only_at_nil _ _ _ _ Hp), Hq1. by case_decide.
Qed.

Lemma changed_single paths f v w w' :
  only_at [at_dir (ap_coordinator_dir paths) f] w w' → shown w' (ap_coordinator_dir paths) f = v →
  ap_local_projection_dir paths = None → Changed paths f v None w w'.
Proof.
  intros Ho Hv Hn. split; [|by rewrite Hn|done]. intros g. case_decide as Hg; [by subst|by apply (only_at_shown _ f)].
Qed.

Lemma write_job_file_spec paths f contents w r w' :
  apart paths → write_job_file paths f contents w = (r, w') →
  match r with Ok warning => Changed paths f (Some contents) warning w w' | Err _ => unchanged paths w w' end.
Proof.
  intros Hap. unfold write_job_file. unfold mbind at 1, proc_bind at 1, map_err at 1.
  destruct (create_dir_all _ w) as [[u|e] w1] eqn:E1; pose proof (create_dir_same _ _ _ _ E1) as S1;
    [|intros ?; simplify_eq; by apply only_at_unchanged, only_at_same].
  unfold mbind at 1, proc_bind at 1, map_err at 1.
  destruct (atomic_replace _ _ _ w1) as [[u'|e] w2] eqn:E2; apply atomic_replace_spec in E2.
  - destruct E2 as [Ho Hv]. apply (only_at_trans [] _ w) in Ho; [|by apply only_at_same].
    destruct (ap_local_projection_dir paths) as [d|] eqn:Ed.
    + intros (warning & -> & Hc)%(changed_both paths f (Some contents) d _ _ w); [done..|].
      intros ? ? ?. apply project_file_spec.
    + unfold done. intros ?; simplify_eq. by apply changed_single.
  - intros ?; simplify_eq. apply only_at_unchanged. exact (only_at_trans [] [] _ _ _ (only_at_same _ _ _ S1) E2).
Qed.

Lemma remove_job_file_spec paths f w r w' :
  apart paths → remove_job_file paths f w = (r, w') →
  match r with Ok warning => Changed paths f None warning w w' | Err _ => unchanged paths w w' end.
Proof.
  intros Hap. unfold remove_job_file. unfold mbind at 1, proc_bind at 1, map_err at 1.
  destruct (remove_generated_file _ w) as [[u|e] w2] eqn:E2; apply remove_generated_file_spec in E2.
  - destruct E2 as [Ho Hv]. destruct (ap_local_projection_dir paths) as [d|] eqn:Ed.
    + intros (warning & -> & Hc)%(changed_both paths f None d _ _ w); [done..|].
      intros ? ? ?. apply remove_generated_file_spec.
    + unfold done. intros ?; simplify_eq. by apply changed_single.
  - intros ?; simplify_eq. by apply only_at_unchanged.
Qed.

(** ** All files of a job *)

(** The new contents, or else the old. *)
Definition newer (new old : option string) : option string := match new with Some _ => new | None => old end.

(** The last contents written to a file. *)
Fixpoint written_to (f : JobArtifactFile) (files : list (JobArtifactFile * string)) : option string :=
  match files with
  | [] => None
  | (g, contents) :: rest => newer (written_to f rest) (if decide (f = g) then Some contents else None)
  end.

Lemma written_to_app f a b : written_to f (a ++ b) = newer (written_to f b) (written_to f a).
Proof. induction a as [|[g c] a IH]; cbn; [by destruct (written_to f b)|]. rewrite IH. by destruct (written_to f b). Qed.

Lemma written_to_not f files : f ∉ files.*1 → written_to f files = None.
Proof.
  induction files as [|[g c] files IH]; cbn; [done|]. intros Hn. rewrite not_elem_of_cons in Hn.
  rewrite IH by apply Hn. by rewrite decide_False by apply Hn.
Qed.

Lemma write_files_spec paths files warnings w r w' :
  apart paths → write_files paths files warnings w = (r, w') →
  match r with
  | Ok warnings' =>
      (∀ g, shown w' (ap_coordinator_dir paths) g = newer (written_to g files) (shown w (ap_coordinator_dir paths) g))
      ∧ (∀ d g, ap_local_projection_dir paths = Some d → g ∉ apw_file <$> warnings' → shown w' d g = newer (written_to g files) (shown w d g))
      ∧ warnings ⊆ warnings'
  | Err _ =>
      ∃ part rest, files = part ++ rest ∧ rest ≠ []
        ∧ (∀ g, shown w' (ap_coordinator_dir paths) g = newer (written_to g part) (shown w (ap_coordinator_dir paths) g))
        ∧ (∀ d g, ap_local_projection_dir paths = Some d → g ∉ part.*1 → shown w' d g = shown w d g)
  end.
Proof.
  intros Hap. revert warnings w. induction files as [|[f c] files IH]; intros warnings w; cbn [write_files].
  { unfold done. intros ?; simplify_eq. split_and!; [intros g|intros d g _ _|done]; done. }
  unfold mbind, proc_bind. destruct (write_job_file paths f c w) as [[warning|e] w1] eqn:E1;
    apply (write_job_file_spec _ _ _ _ _ _ Hap) in E1.
  - intros Hr. specialize (IH _ _ Hr). destruct r as [warnings'|e].
    + destruct IH as (Hc & Hl & Hsub). split_and!; [| |set_solver].
      * intros g. rewrite Hc, (ch_coordinator _ _ _ _ _ _ E1 g). cbn [written_to]. destruct (written_to g files); [done|]. by case_decide.
      * intros d g Hd Hg. rewrite (Hl d g Hd Hg), (ch_local _ _ _ _ _ _ E1 d g Hd). cbn [written_to].
        destruct (written_to g files); [done|]. case_decide as Hgf; [|done]. subst g. destruct warning as [x|]; [|done].
        exfalso. apply Hg. rewrite <- (ch_warning _ _ _ _ _ _ E1 x eq_refl). apply list_elem_of_fmap_2. set_solver.
    + destruct IH as (part & rest & -> & Hr' & Hc & Hl). exists ((f, c) :: part), rest. split_and!; [done|done| |].
      * intros g. rewrite Hc, (ch_coordinator _ _ _ _ _ _ E1 g). cbn [written_to]. destruct (written_to g part); [done|]. by case_decide.
      * intros d g Hd Hg. cbn in Hg. rewrite not_elem_of_cons in Hg. rewrite (Hl d g Hd) by apply Hg.
        rewrite (ch_local _ _ _ _ _ _ E1 d g Hd). by rewrite decide_False by apply Hg.
  - intros ?; simplify_eq. exists [], ((f, c) :: files). split_and!; [done|done| |].
    + intros g. cbn. by rewrite E1 by auto.
    + intros d g Hd _. apply E1. auto.
Qed.

(** What the settled outputs say of a stage: its last output. *)
Definition latest_output (f : JobArtifactFile) (outputs : list CompletedStageOutput) : option string :=
  last (omap (λ o, if decide (for_stage (co_stage o) = Some f) then Some (co_markdown o) else None) outputs).

(** What the files of a job show once its outputs are published. *)
Definition rendered_file (outputs : list CompletedStageOutput) (findings : option string) (f : JobArtifactFile) (old : option string) :
    option string :=
  match f with
  | ArtifactResult => Some (render_job_result outputs)
  | ArtifactFindings => findings
  | _ => newer (latest_output f outputs) old
  end.

Lemma stage_files_spec outputs files :
  stage_files outputs = Ok files →
  (∀ f, written_to f files = latest_output f outputs)
  ∧ ∀ f, f ∈ files.*1 → f ∉ [ArtifactJob; ArtifactTask; ArtifactResult; ArtifactFindings].
Proof.
  revert files. induction outputs as [|o outputs IH]; intros files; cbn [stage_files].
  { intros [= <-]. split; [done|]. cbn. set_solver. }
  unfold mbind, result_bind. destruct (for_stage (co_stage o)) as [g|] eqn:Eg; cbn; [|done].
  destruct (stage_files outputs) as [fs|]; [|done]. intros [= <-]. destruct (IH fs eq_refl) as [Hw Hn]. split.
  - intros f. cbn. rewrite Hw. unfold latest_output. cbn. rewrite Eg. destruct (decide (Some g = Some f)) as [E|E]; cbn.
    + injection E as ->. rewrite decide_True by done. rewrite last_cons. by destruct (last _).
    + rewrite decide_False by congruence. by destruct (last _).
  - intros f [->|Hf]%elem_of_cons; [|by apply Hn]. unfold for_stage in Eg. repeat case_decide; simplify_eq; set_solver.
Qed.

(** No output belongs to the other files. *)
Lemma latest_output_none f outputs :
  f ∈ [ArtifactJob; ArtifactTask; ArtifactResult; ArtifactFindings] → latest_output f outputs = None.
Proof.
  intros Hf. unfold latest_output. induction outputs as [|o outputs IH]; [done|]. cbn. rewrite decide_False; [exact IH|].
  unfold for_stage. repeat case_decide; intros ?; simplify_eq; set_solver.
Qed.

(** Published: both copies show what was rendered, the projection up to the
    files a warning names. *)
Definition Published (paths : ArtifactPaths) (outputs : list CompletedStageOutput) (warnings : list ArtifactProjectionWarning)
    (w w' : W) : Prop :=
  ∃ findings, render_job_findings outputs = Ok findings
  ∧ (∀ f, shown w' (ap_coordinator_dir paths) f = rendered_file outputs findings f (shown w (ap_coordinator_dir paths) f))
  ∧ (∀ d f, ap_local_projection_dir paths = Some d → f ∉ apw_file <$> warnings →
      shown w' d f = rendered_file outputs findings f (shown w d f)).

(** The findings are removed when there are none. *)
Lemma removed_spec paths (rendered : option string) w r w' :
  apart paths →
  (match rendered with Some _ => done None | None => remove_job_file paths ArtifactFindings end :
     proc W CoordinatorError (option ArtifactProjectionWarning)) w = (r, w') →
  match r with
  | Ok warning =>
      (∀ f, shown w' (ap_coordinator_dir paths) f =
        if decide (f = ArtifactFindings ∧ rendered = None) then None else shown w (ap_coordinator_dir paths) f)
      ∧ (∀ d f, ap_local_projection_dir paths = Some d → f ∉ apw_file <$> option_list warning →
          shown w' d f = if decide (f = ArtifactFindings ∧ rendered = None) then None else shown w d f)
      ∧ ∀ x, warning = Some x → apw_file x = ArtifactFindings
  | Err _ => unchanged paths w w'
  end.
Proof.
  intros Hap. destruct rendered as [c|].
  - intros [= <- <-]. split_and!; [intros; by rewrite decide_False by naive_solver..|done].
  - intros Hr%(remove_job_file_spec _ _ _ _ _ Hap). destruct r as [warning|e]; [|done]. split_and!.
    + intros f. rewrite (ch_coordinator _ _ _ _ _ _ Hr). by repeat case_decide; try naive_solver.
    + intros d f Hd Hf. rewrite (ch_local _ _ _ _ _ _ Hr _ _ Hd). destruct warning as [x|]; [|by repeat case_decide; try naive_solver].
      cbn in Hf. rewrite (ch_warning _ _ _ _ _ _ Hr x eq_refl) in Hf. repeat case_decide; try naive_solver; set_solver.
    + apply (ch_warning _ _ _ _ _ _ Hr).
Qed.

Lemma rendered_file_written outputs rendered files f old :
  stage_files outputs = Ok files →
  newer (written_to f (files ++ option_list ((λ c, (ArtifactFindings, c)) <$> rendered) ++ [(ArtifactResult, render_job_result outputs)]))
    (if decide (f = ArtifactFindings ∧ rendered = None) then None else old)
  = rendered_file outputs rendered f old.
Proof.
  intros [Hw _]%stage_files_spec. rewrite !written_to_app, Hw.
  assert (f = ArtifactResult ∨ f = ArtifactFindings ∨ f ≠ ArtifactResult ∧ f ≠ ArtifactFindings) as [->|[->|[Hres Hfin]]]
    by (destruct f; auto).
  - done.
  - rewrite latest_output_none by set_solver. by destruct rendered.
  - replace (rendered_file outputs rendered f old) with (newer (latest_output f outputs) old) by (by destruct f).
    rewrite (written_to_not f [_]), (written_to_not f (option_list _)) by (destruct rendered; cbn; set_solver).
    by rewrite decide_False by naive_solver.
Qed.

Lemma publish_settled_outputs_spec paths outputs w r w' :
  apart paths → publish_settled_outputs paths outputs w = (r, w') →
  match r with
  | Ok warnings => Published paths outputs warnings w w'
  | Err _ => ∀ d f, d = ap_coordinator_dir paths ∨ ap_local_projection_dir paths = Some d →
      f ∈ [ArtifactJob; ArtifactTask; ArtifactResult] → shown w' d f = shown w d f
  end.
Proof.
  intros Hap. unfold publish_settled_outputs. unfold mbind at 1, proc_bind at 1, proc_lift at 1.
  destruct (stage_files outputs) as [files|e] eqn:Ef; [|by intros [= <- <-]].
  unfold mbind at 1, proc_bind at 1, proc_lift at 1.
  destruct (render_job_findings outputs) as [rendered|e] eqn:Er; [|by intros [= <- <-]].
  unfold mbind at 1, proc_bind at 1.
  match goal with |- context [match ?p w with _ => _ end] => destruct (p w) as [[removed|e] w1] eqn:E1 end;
    apply (removed_spec _ _ _ _ _ Hap) in E1; [|intros [= <- <-]; intros d f Hd _; by apply E1].
  destruct E1 as (Hc1 & Hl1 & Hw1). intros Hr%(write_files_spec _ _ _ _ _ _ Hap). destruct r as [warnings|e].
  - destruct Hr as (Hc & Hl & Hsub). exists rendered. split; [done|]. split.
    + intros f. rewrite Hc, Hc1. by apply rendered_file_written.
    + intros d f Hd Hf. rewrite Hl, Hl1; [by apply rendered_file_written|done| |done|done].
      intros Hin. apply Hf. apply list_elem_of_fmap in Hin as (x & -> & Hx). apply list_elem_of_fmap_2. by apply Hsub.
  - destruct Hr as (part & rest & Hsplit & Hne & Hc & Hl). intros d f Hd Hf.
    assert (f ≠ ArtifactFindings) as Hff by (clear - Hf; set_solver).
    assert (f ∉ part.*1) as Hnot.
    { intros Hin. apply stage_files_spec in Ef as [_ Hst]. destruct rest as [|x rest _] using rev_ind; [done|].
      rewrite (assoc_L (++)), (assoc_L (++)) in Hsplit. apply app_inj_tail in Hsplit as [Hsplit _].
      assert (f ∈ (part ++ rest).*1) as Hin' by (rewrite fmap_app; apply elem_of_app; by left).
      rewrite <- Hsplit, fmap_app in Hin'. apply elem_of_app in Hin' as [Hin'%Hst|Hin'].
      - apply Hin'. clear - Hf. set_solver.
      - destruct rendered as [c|]; cbn in Hin'; [by apply list_elem_of_singleton in Hin'|by apply elem_of_nil in Hin']. }
    destruct Hd as [->|Hd].
    + rewrite Hc, Hc1, written_to_not by done. by rewrite decide_False by naive_solver.
    + rewrite (Hl d f Hd Hnot), Hl1; [by rewrite decide_False by naive_solver|done|].
      destruct removed as [x|]; cbn; [rewrite (Hw1 x eq_refl)|]; clear - Hff; set_solver.
Qed.
End files.
