(* ===== verification/PublicationLaws.v ===== *)
(** * Facts about publication

    All events of the job are read, whatever is recorded meanwhile, and the files
    of the job show what they reduce to. *)

From S2P Require Import Prelude Sequences Domain Rows Store Leases Events Environments Jobs Recovery Lifecycle Refinement System Safety EventLog.
From S2P Require Import Runner RunnerLaws StageOutput StageOutputLaws Executor Keeps ExecutorLaws EnvironmentWork EnvironmentWorkLaws ResponseStream Artifacts ArtifactsLaws.
From Stdlib Require Import ZArith Ascii String Sorted.
From stdpp Require Import base gmap strings option relations list.

#[local] Open Scope string_scope.
#[local] Open Scope Z_scope.
#[local] Open Scope list_scope.

(** ** Reading all events *)

Section events.
Context `{External}.
Abbreviation others := (rtc store_step).

Lemma others_events s s' : others s s' → ∃ suffix, events s' = events s ++ suffix.
Proof.
  induction 1 as [|s s1 s' (now & c & ->) _ [suffix ->]]; [exists []; by rewrite app_nil_r|].
  destruct (run_log_suffix [(now, c)] s) as [first E]. cbn in E. rewrite E. exists (first ++ suffix). by rewrite (assoc_L (++)).
Qed.

Lemma others_job id s s' : others s s' → reachable s → is_Some (jobs s !! id) → is_Some (jobs s' !! id).
Proof.
  induction 1 as [|s s1 s' (now & c & ->) _ IH]; [done|]. intros Hr Hj. apply IH; [by apply reachable_exec|by apply exec_job_kept].
Qed.

Lemma job_events_suffix id s s' : others s s' → ∃ suffix, job_events id s' = job_events id s ++ suffix.
Proof.
  intros [suffix E]%others_events. unfold job_events. rewrite E, fmap_app, List.filter_app. eauto.
Qed.

(** The events past a cursor. *)
Definition events_after (id : string) (after : Z) (s : db) : list JobEventRow :=
  List.filter (λ r, after <? jer_sequence r) (job_events id s).

(** A full page stays the first one whatever is recorded later. *)
Lemma page_then_rest id after n x s s' :
  reachable s → others s s' → after ≤ jer_sequence x →
  (n ≤ length (events_after id after s))%nat → last (take n (events_after id after s)) = Some x →
  events_after id after s' = take n (events_after id after s) ++ events_after id (jer_sequence x) s'.
Proof.
  intros Hr Ho Hx Hn Hlast. pose proof (others_reachable _ _ Ho Hr) as Hr'. apply reachable_log_ok in Hr'.
  destruct (job_events_suffix id _ _ Ho) as [suffix E].
  assert (events_after id after s' = events_after id after s ++ List.filter (λ r, after <? jer_sequence r) suffix) as E'.
  { unfold events_after. by rewrite E, List.filter_app. }
  assert (take n (events_after id after s') = take n (events_after id after s)) as Et by (rewrite E', take_app_le by lia; done).
  rewrite <- (take_drop n (events_after id after s')) at 1. rewrite Et. f_equal.
  rewrite <- (filter_after_page (events_after id after s') n x).
  - unfold events_after. by rewrite filter_above.
  - apply sorted_filter, job_events_sorted. done.
  - by rewrite Et.
Qed.

Context {W : Type} `{!EnvironmentHost W} `{!StoreHostLaws W}.

(** A page as the worker gets it. *)
Lemma page_call id after w page w1 :
  reachable (host_db w) → is_Some (jobs (host_db w) !! id) → 0 ≤ after ≤ i64_max →
  store_call (λ _ _, list_job_events id after EVENT_PAGE) w = (Ok page, w1) →
  ∃ s, others (host_db w) s ∧ others s (host_db w1)
    ∧ let rows := take (Z.to_nat EVENT_PAGE) (events_after id after s) in
      jp_events page = event_record <$> rows
      ∧ jp_next_cursor page = match last rows with Some r => jer_sequence r | None => after end.
Proof.
  intros Hr Hj Ha (s & s' & Ho & Hl & Ho')%store_call_lands. exists s. split; [done|].
  pose proof (others_reachable _ _ Ho Hr) as Hrs. inversion Hl as [now i r0 s0 Hf| |]; subst.
  rewrite list_job_events_page in Hf; [|by apply reachable_log_ok|exact (others_job _ _ _ Ho Hr Hj)|unfold EVENT_PAGE; lia|done].
  injection Hf as <- <-. done.
Qed.

Lemma load_events_spec fuel id after acc w r w' :
  reachable (host_db w) → is_Some (jobs (host_db w) !! id) → 0 ≤ after ≤ i64_max →
  load_events_from fuel id after acc w = (Ok r, w') →
  ∃ s, others (host_db w) s ∧ others s (host_db w')
    ∧ match r with
      | Some loaded => loaded = acc ++ (event_record <$> events_after id after s)
      | None => (Z.to_nat EVENT_PAGE * fuel ≤ length (events_after id after s))%nat
      end.
Proof.
  revert after acc w. induction fuel as [|n IH]; intros after acc w Hr Hj Ha; cbn [load_events_from].
  { intros [-> ->]%done_Ok. exists (host_db w). split; [done|]. split; [done|]. lia. }
  intros (page & w1 & Hp & Hrun)%proc_bind_Ok. cbv beta zeta in Hrun.
  destruct (page_call _ _ _ _ _ Hr Hj Ha Hp) as (s & Ho & Ho1 & Hev & Hcur). rewrite Hev, length_fmap, length_take in Hrun.
  pose proof (others_reachable _ _ Ho Hr) as Hrs. pose proof (others_reachable _ _ Ho1 Hrs) as Hr1.
  pose proof (others_job _ _ _ (transitivity Ho Ho1) Hr Hj) as Hj1.
  destruct (Nat.ltb_spec (Nat.min (Z.to_nat EVENT_PAGE) (length (events_after id after s))) (Z.to_nat EVENT_PAGE)) as [Hlt|Hge].
  - apply done_Ok in Hrun as [-> ->]. exists s. split_and!; [done|done|]. by rewrite take_ge by lia.
  - destruct (last (take (Z.to_nat EVENT_PAGE) (events_after id after s))) as [x|] eqn:Hlast.
    2: { apply last_None, (f_equal length) in Hlast. rewrite length_take in Hlast. unfold EVENT_PAGE in *. cbn in Hlast. lia. }
    assert (after < jer_sequence x ≤ i64_max) as Hx.
    { apply last_Some_elem_of, subseteq_take in Hlast. apply list_elem_of_In, filter_In in Hlast as [Hin Hlt%Z.ltb_lt].
      apply list_elem_of_In in Hin. pose proof (job_events_bound _ _ _ (reachable_log_ok _ Hrs) Hin). lia. }
    rewrite Hcur in Hrun. apply IH in Hrun as (s2 & Ho2 & Ho3 & Hres); [|done|done|lia].
    assert (others s s2) as Hs2 by (by etrans). exists s2. split_and!; [by etrans|done|].
    pose proof (page_then_rest id after (Z.to_nat EVENT_PAGE) x s s2 Hrs Hs2 ltac:(lia) ltac:(lia) Hlast) as E. rewrite E.
    destruct r as [loaded|].
    + rewrite Hres, fmap_app. by rewrite (assoc_L (++)).
    + rewrite length_app, length_take. lia.
Qed.
End events.

(** The file operations, for any relation the single calls keep to. *)
Section files_within.
Context {W : Type} `{ArtifactFiles W, Rendering, CoordinatorText} (R : relation W) `{!PreOrder R}.

Record CallsWithin : Prop := {
  cw_create d : keeps_to R (create_dir_all d);
  cw_write p c : keeps_to R (write_file p c);
  cw_rename a b : keeps_to R (rename_file a b);
  cw_remove p : keeps_to R (remove_file p);
  cw_lock p : keeps_to R (lock_file p);
  cw_uuid w id w' : new_uuid w = (id, w') → R w w';
}.

Hypothesis calls : CallsWithin.

Lemma create_within d : keeps_to R (create_dir_all d).
Proof. apply calls. Qed.

Lemma write_within p c : keeps_to R (write_file p c).
Proof. apply calls. Qed.

Lemma rename_within p q : keeps_to R (rename_file p q).
Proof. apply calls. Qed.

Lemma remove_within p : keeps_to R (remove_file p).
Proof. apply calls. Qed.

Lemma lock_within p : keeps_to R (lock_file p).
Proof. apply calls. Qed.
#[local] Hint Resolve create_within write_within rename_within remove_within lock_within : within.

Lemma fresh_uuid_within {E : Type} : keeps_to R (fresh_uuid : proc W E string).
Proof. intros w r w'. unfold fresh_uuid. destruct (new_uuid w) as [id w1] eqn:E1. intros ?; simplify_eq. by eapply (cw_uuid calls). Qed.
#[local] Hint Resolve fresh_uuid_within : within.

Lemma atomic_replace_within d name c : keeps_to R (atomic_replace d name c).
Proof. unfold atomic_replace. stay_within. Qed.
#[local] Hint Resolve atomic_replace_within : within.

Lemma warned_within f text (p : proc W IoError unit) : keeps_to R p → keeps_to R (warned f text p).
Proof. intros Hp. unfold warned. stay_within. Qed.
#[local] Hint Resolve warned_within : within.

Lemma write_job_file_within paths f c : keeps_to R (write_job_file paths f c).
Proof. unfold write_job_file, project_file. stay_within. Qed.
#[local] Hint Resolve write_job_file_within : within.

Lemma write_files_within paths files warnings : keeps_to R (write_files paths files warnings).
Proof. revert warnings. induction files as [|[f c] files IH]; intros warnings; cbn [write_files]; stay_within. Qed.
#[local] Hint Resolve write_files_within : within.

Lemma guard_within paths : keeps_to R (acquire_publication_guard paths).
Proof. unfold acquire_publication_guard, acquire_publication_lock. stay_within. Qed.

Lemma initialize_within m job workspace : keeps_to R (initialize_job_files m job workspace).
Proof. unfold initialize_job_files, ensure_coordinator_job_dir. stay_within. Qed.

Lemma remove_job_file_within paths f : keeps_to R (remove_job_file paths f).
Proof. unfold remove_job_file, remove_generated_file. stay_within. Qed.
#[local] Hint Resolve remove_job_file_within : within.

Lemma publish_settled_outputs_within paths outputs : keeps_to R (publish_settled_outputs paths outputs).
Proof. unfold publish_settled_outputs. stay_within. Qed.
End files_within.

(** ** Publication *)

(** What publishing relies on besides: the store's calls touch no artifact, and
    the file system's calls touch the database only as others do. *)
Class PublicationLaws (W : Type) `{External} `{!EnvironmentHost W} `{!StoreHostLaws W} `{!ArtifactFiles W} `{!FileLaws W} : Prop := {
  store_call_files {A} (f : Z → string → Proc A) w r w' : store_call f w = (r, w') →
    ∀ q, artifact_path q → file_at w' q = file_at w q;
  files_others : CallsWithin (λ w w' : W, rtc store_step (host_db w) (host_db w'));
}.

(** What the files of a job show after publication. *)
Definition final_file `{Rendering} (inventory : string * string) (outputs : list CompletedStageOutput) (findings : option string)
    (f : JobArtifactFile) (old : option string) : option string :=
  match f with
  | ArtifactJob => Some inventory.1
  | ArtifactTask => Some inventory.2
  | _ => rendered_file outputs findings f old
  end.

Section publication.
Context `{External} {W : Type} `{!EnvironmentHost W} `{!StoreHostLaws W} `{!ArtifactFiles W} `{!FileLaws W} `{!PublicationLaws W}.
Context `{HashOrder, Rendering, CoordinatorText}.
Abbreviation others := (rtc store_step).

Definition db_moves (w w' : W) : Prop := others (host_db w) (host_db w').
Definition same_artifacts (w w' : W) : Prop := ∀ q, artifact_path q → file_at w' q = file_at w q.

#[local] Instance db_moves_preorder : PreOrder db_moves.
Proof. unfold db_moves. split; [intros w; apply rtc_refl|]. intros w1 w2 w3 H12 H23. by etrans. Qed.

#[local] Instance same_artifacts_preorder : PreOrder same_artifacts.
Proof. split; [by intros w q|]. intros w1 w2 w3 H12 H23 q Hq. by rewrite H23, H12. Qed.

Lemma shown_same w w' d f : same_artifacts w w' → shown w' d f = shown w d f.
Proof. intros Hs. apply Hs. by exists d, f. Qed.

Lemma store_call_same {A : Type} (f : Z → string → Proc A) : keeps_to same_artifacts (store_call f : proc W _ A).
Proof. intros w r w' Hr q Hq. by eapply store_call_files. Qed.
#[local] Hint Resolve store_call_same : within.

Lemma guard_same paths : keeps_to same_artifacts (acquire_publication_guard paths : proc W _ _).
Proof.
  unfold acquire_publication_guard, acquire_publication_lock. apply within_bind; [apply _| |intros _]; apply within_map_err.
  - intros w r w' Hr q _. by eapply create_dir_same.
  - intros w r w' Hr q Hq. eapply lock_same; [done|]. intros ->. by eapply lock_no_artifact.
Qed.

Lemma emit_same id warnings {E : Type} : keeps_to same_artifacts (emit_warnings id warnings : proc W E unit).
Proof. induction warnings; cbn; unfold emit_projection_warning, emit_settled_artifact_warning; stay_within. Qed.

Lemma load_events_same fuel id after acc : keeps_to same_artifacts (load_events_from fuel id after acc : proc W _ _).
Proof. revert after acc. induction fuel as [|n IH]; intros after acc; cbn [load_events_from]; stay_within. Qed.

(** A read of the store: what it returns was so at some time meanwhile. *)
Lemma read_call {A : Type} (p : Proc A) w a w1 :
  (∀ s, (p s).2 = s) → store_call (λ _ _, p) w = (Ok a, w1) →
  ∃ s, others (host_db w) s ∧ others s (host_db w1) ∧ (p s).1 = Ok a.
Proof.
  intros Hp (s & s' & Ho & Hl & Ho')%store_call_lands. inversion Hl as [now i r0 s0 Hf| |]; subst.
  exists s. rewrite Hf. split_and!; [done| |done]. specialize (Hp s). rewrite Hf in Hp. cbn in Hp. by subst.
Qed.

Lemma load_attempt_read id s : (load_attempt id s).2 = s.
Proof. unfold load_attempt. rewrite proc_lift_snd. unfold commit, mbind, tx_bind, gets, lift. by destruct (ok_or _ _). Qed.

(** The inventory is written, and nothing else. *)
Lemma initialize_spec m job workspace w r w' :
  relative (job_id (dj_job job)) → initialize_job_files m job (Some workspace) w = (r, w') →
  let paths := job_paths m (job_id (dj_job job)) (wr_repository_id workspace) in
  match r with
  | Ok warnings => ∃ inventory, inventory_contents job (Some workspace) (wr_repository_id workspace) = Ok inventory
      ∧ let files := [(ArtifactJob, inventory.1); (ArtifactTask, inventory.2)] in
        (∀ g, shown w' (ap_coordinator_dir paths) g = newer (written_to g files) (shown w (ap_coordinator_dir paths) g))
        ∧ ∀ d g, ap_local_projection_dir paths = Some d → g ∉ apw_file <$> warnings →
            shown w' d g = newer (written_to g files) (shown w d g)
  | Err _ => shown w' (ap_coordinator_dir paths) ArtifactResult = shown w (ap_coordinator_dir paths) ArtifactResult
  end.
Proof.
  intros Hrel. pose proof (job_paths_apart m _ (wr_repository_id workspace) Hrel) as Hap.
  unfold initialize_job_files, ensure_coordinator_job_dir. cbn [default from_option]. set (paths := job_paths _ _ _) in *.
  unfold mbind at 1, proc_bind at 1. unfold mbind at 1, proc_bind at 1. unfold map_err at 1.
  destruct (create_dir_all _ w) as [[u|e] w1] eqn:E1; pose proof (create_dir_same _ _ _ _ E1) as S1;
    [|intros [= <- <-]; apply S1]. cbn [done].
  unfold mbind at 1, proc_bind at 1, proc_lift at 1.
  assert (∀ d g, shown w1 d g = shown w d g) as Hw1 by (intros; apply S1).
  destruct (inventory_contents job (Some workspace) _) as [inventory|e] eqn:Ei; [|intros [= <- <-]; apply Hw1].
  intros Hr%(write_files_spec _ _ _ _ _ _ Hap). destruct r as [warnings|e].
  - destruct Hr as (Hc & Hl & _). exists inventory. split; [done|]. split.
    + intros g. by rewrite Hc, Hw1.
    + intros d g Hd Hg. by rewrite (Hl d g Hd Hg), Hw1.
  - destruct Hr as (part & rest & Hsplit & _ & Hc & _). rewrite Hc, Hw1, written_to_not; [done|].
    intros Hin. assert (ArtifactResult ∈ (part ++ rest).*1) as Hin' by (rewrite fmap_app; apply elem_of_app; by left).
    rewrite <- Hsplit in Hin'. cbn in Hin'. clear - Hin'. set_solver.
Qed.

Lemma publish_outputs_spec paths job operation loaded w r w' :
  apart paths → publish_outputs paths job operation loaded w = (r, w') →
  match r with
  | Ok _ => ∃ outputs warnings, reduce_settled_job_outputs job loaded = Ok outputs
      ∧ op_operation_id operation ∈ co_operation_id <$> outputs ∧ Published paths outputs warnings w w'
  | Err _ => shown w' (ap_coordinator_dir paths) ArtifactResult = shown w (ap_coordinator_dir paths) ArtifactResult
  end.
Proof.
  intros Hap. unfold publish_outputs. intros [(e & -> & [= _ <-])|(outputs & w1 & Ho & Hr)]%bind_cases; [done|].
  apply proc_lift_Ok in Ho as [Ho ->]. destruct (existsb _ outputs) eqn:Ex; [|by injection Hr as <- <-].
  apply bind_cases in Hr as [(e & -> & Hp)|(warnings & w2 & Hp & He)].
  - apply publish_settled_outputs_spec in Hp; [|done]. apply Hp; [by left|set_solver].
  - apply publish_settled_outputs_spec in Hp; [|done]. apply emit_same in He as Hs.
    destruct (reduce_settled_job_outputs job loaded) as [os|e] eqn:Ered; [injection Ho as ->|done].
    assert (r = Ok tt) as ->.
    { clear - He. revert w2 He. induction warnings as [|x l IH]; intros w2; cbn; [by intros [= <- _]|apply IH]. }
    exists outputs, warnings. split; [done|]. split.
    + apply existsb_exists in Ex as (o & Hin & Hid%bool_decide_eq_true). rewrite <- Hid. apply list_elem_of_fmap_2. by apply list_elem_of_In.
    + destruct Hp as (findings & Hf & Hc & Hl). exists findings. split; [done|]. split.
      * intros f. rewrite (shown_same _ _ _ _ Hs). apply Hc.
      * intros d f Hd Hn. rewrite (shown_same _ _ _ _ Hs). by apply Hl.
Qed.

(** The job's files show what the job, as it was after the settlement, and all
    its events reduce to. *)
Definition PublishedJob (m : ArtifactManager) (context : OperationExecutionContext) (w w' : W) : Prop :=
  ∃ s1 s2 s3 settled workspace job operation outputs inventory findings (warnings : list ArtifactProjectionWarning),
    others (host_db w) s1 ∧ others s1 s2 ∧ others s2 s3 ∧ others s3 (host_db w')
    ∧ (load_attempt (af_attempt_id (rl_fence (oec_lease context))) s1).1 = Ok settled ∧ at_state settled = AttSucceeded
    ∧ (load_job (job_id (oec_job context)) s2).1 = Ok job ∧ operation ∈ dj_operations job
    ∧ op_operation_id operation = op_operation_id (oec_operation context) ∧ op_state operation = OpSucceeded
    ∧ reduce_settled_job_outputs job (event_record <$> job_events (job_id (oec_job context)) s3) = Ok outputs
    ∧ op_operation_id operation ∈ co_operation_id <$> outputs
    ∧ inventory_contents job (Some workspace) (wr_repository_id workspace) = Ok inventory
    ∧ render_job_findings outputs = Ok findings
    ∧ let paths := job_paths m (job_id (oec_job context)) (wr_repository_id workspace) in
      ∀ d f, d = ap_coordinator_dir paths ∨ ap_local_projection_dir paths = Some d ∧ f ∉ apw_file <$> warnings →
        shown w' d f = final_file inventory outputs findings f (shown w d f).

Lemma final_file_steps inventory outputs findings f old :
  rendered_file outputs findings f (newer (written_to f [(ArtifactJob, inventory.1); (ArtifactTask, inventory.2)]) old)
  = final_file inventory outputs findings f old.
Proof.
  destruct f; cbn; try done; by rewrite latest_output_none by set_solver.
Qed.

Lemma load_job_id id s job : reachable s → (load_job id s).1 = Ok job → job_id (dj_job job) = id ∧ is_Some (jobs s !! id).
Proof.
  intros Hr. cbn. unfold load_job_row. intros (row & Hrow & (ops & _ & (record & Hrec & [= <-])%bind_Ok)%bind_Ok)%bind_Ok.
  destruct (jobs s !! id) as [j|] eqn:Ej; [injection Hrow as ->|done].
  apply JobRecord_try_from_Ok in Hrec as (state & _ & ->). cbn. split; [|done].
  destruct (reachable_lifecycle_ok _ Hr) as [Htk _]. by apply (tk_job_key _ Htk).
Qed.

Lemma load_all_spec fuel id w r w' :
  reachable (host_db w) → is_Some (jobs (host_db w) !! id) → load_all_job_events fuel id w = (Ok r, w') →
  ∃ s, others (host_db w) s ∧ others s (host_db w')
    ∧ match r with
      | Some loaded => loaded = event_record <$> job_events id s
      | None => (Z.to_nat EVENT_PAGE * fuel ≤ length (job_events id s))%nat
      end.
Proof.
  intros Hr Hj (s & Ho & Ho' & Hs)%load_events_spec; [|done|done|unfold i64_max; lia].
  assert (events_after id 0 s = job_events id s) as E.
  { unfold events_after. apply filter_all. intros x Hx. apply Z.ltb_lt.
    pose proof (job_events_bound _ _ _ (reachable_log_ok _ (others_reachable _ _ Ho Hr)) Hx). lia. }
  rewrite E in Hs. exists s. done.
Qed.

(** The steps up to the events: reads, the lock and the inventory. *)
Lemma publication_starts fuel m context w r w' :
  publish_settled_artifacts_inner fuel m context w = (r, w') →
  (∃ e, r = Err e ∧ same_artifacts w w') ∨
  ∃ settled workspace job operation w1 w2 w3,
    store_call (λ _ _, load_attempt (af_attempt_id (rl_fence (oec_lease context)))) w = (Ok settled, w1)
    ∧ db_moves w1 w2 ∧ same_artifacts w w2
    ∧ store_call (λ _ _, load_job (job_id (oec_job context))) w2 = (Ok job, w3)
    ∧ List.find (λ o, bool_decide (op_operation_id o = op_operation_id (oec_operation context))) (dj_operations job) = Some operation
    ∧ at_state settled = AttSucceeded ∧ op_state operation = OpSucceeded
    ∧ (warnings ← initialize_job_files m job (Some workspace);
       _ ← emit_warnings (job_id (dj_job job)) warnings;
       loaded ← load_all_job_events fuel (job_id (dj_job job));
       match loaded with
       | None => done None
       | Some loaded =>
           _ ← publish_outputs (job_paths m (job_id (oec_job context)) (wr_repository_id workspace)) job operation loaded;
           done (Some tt)
       end) w3 = (r, w').
Proof.
  unfold publish_settled_artifacts_inner. intros Hr.
  apply bind_cases in Hr as [(e & -> & C1)|(settled & w1 & C1 & Hr)]; apply store_call_same in C1 as S1; [left; eauto|].
  apply bind_cases in Hr as [(e & -> & C2)|(found & w2 & C2 & Hr)]; apply store_call_same in C2 as S2; [left; eexists; split; [done|by etrans]|].
  apply bind_cases in Hr as [(e & -> & [= _ <-])|(workspace & w2' & Hl & Hr)]; [left; eexists; split; [done|by etrans]|].
  apply proc_lift_Ok in Hl as [_ ->].
  apply bind_cases in Hr as [(e & -> & C3)|(u & w3 & C3 & Hr)]; apply guard_same in C3 as S3;
    [left; eexists; split; [done|by repeat (etrans; [eassumption|])]|].
  assert (same_artifacts w w3) as S13 by (etrans; [exact S1|]; by etrans).
  apply bind_cases in Hr as [(e & -> & C4)|(job & w4 & C4 & Hr)]; apply store_call_same in C4 as S4; [left; eexists; split; [done|by etrans]|].
  assert (same_artifacts w w4) as S14 by (by etrans).
  apply bind_cases in Hr as [(e & -> & [= _ <-])|(operation & w5 & Hl & Hr)]; [left; eauto|]. apply proc_lift_Ok in Hl as [Hf ->].
  apply bind_cases in Hr as [(e & -> & [= _ <-])|([] & w6 & Hl & Hr)]; [left; eauto|]. apply proc_lift_Ok in Hl as [Hs ->].
  right. exists settled, workspace, job, operation, w1, w3, w4.
  assert (at_state settled = AttSucceeded ∧ op_state operation = OpSucceeded) as [Hsa Hso].
  { unfold require_settled_publication, guard_err in Hs. destruct (bool_decide_reflect (at_state settled = AttSucceeded)); [|done].
    destruct (bool_decide_reflect (op_state operation = OpSucceeded)); [|done]. done. }
  split_and!; try done.
  - destruct (store_call_lands _ _ _ _ C2) as (s & s' & Ho & Hla & Ho'). unfold db_moves. etrans; [exact Ho|].
    assert (s' = s) as -> by (inversion Hla as [now i q s0 Hfx| |]; [by injection Hfx|done..]).
    etrans; [exact Ho'|]. eapply (guard_within db_moves); [apply files_others|done].
  - revert Hf. by destruct (List.find _ _); cbn; intros ?; simplify_eq.
Qed.

Lemma find_operation (operation_id : string) ops o :
  List.find (λ o, bool_decide (op_operation_id o = operation_id)) ops = Some o → o ∈ ops ∧ op_operation_id o = operation_id.
Proof. intros [Hin Hid]%List.find_some. split; [by apply list_elem_of_In|]. by apply bool_decide_eq_true in Hid. Qed.

Lemma emit_others id warnings {E : Type} w r w' : (emit_warnings id warnings : proc W E unit) w = (r, w') → db_moves w w' ∧ r = Ok tt.
Proof.
  revert w. induction warnings as [|x l IH]; intros w; cbn; [by intros [= <- <-]|].
  intros [(e & _ & [=])|(u & w1 & Hw & Hr)]%bind_cases. destruct (IH _ Hr) as [Hm ->]. split; [|done]. etrans; [|exact Hm].
  unfold emit_projection_warning, emit_settled_artifact_warning, ignore in Hw. injection Hw as _ <-.
  destruct (store_call _ w) as [q w2] eqn:E1. destruct (store_call_lands _ _ _ _ E1) as (s & s' & Ho & Hla & Ho'). cbn.
  unfold db_moves. etrans; [exact Ho|]. etrans; [|exact Ho'].
  eapply (lands_step _ (λ _ _, AppendJobEvent _)); [|exact Hla]. done.
Qed.

Lemma publish_outputs_others paths job operation loaded : keeps_to db_moves (publish_outputs paths job operation loaded : proc W _ _).
Proof.
  unfold publish_outputs. apply within_bind; [apply _|apply within_lift; apply _|]. intros outputs. destruct (existsb _ _).
  - apply within_bind; [apply _|apply publish_settled_outputs_within; [apply _|apply files_others]|].
    intros warnings w r w' Hw. by apply emit_others in Hw as [Hw _].
  - apply within_fail; apply _.
Qed.

(** What follows the reads. *)
Lemma publication_ends fuel m context settled workspace job operation s1 s2 w w1 r w' :
  let id := job_id (oec_job context) in
  reachable (host_db w) → relative id → others (host_db w) s1 → others s1 s2 → others s2 (host_db w1) → same_artifacts w w1 →
  (load_attempt (af_attempt_id (rl_fence (oec_lease context))) s1).1 = Ok settled → (load_job id s2).1 = Ok job →
  operation ∈ dj_operations job → op_operation_id operation = op_operation_id (oec_operation context) →
  at_state settled = AttSucceeded → op_state operation = OpSucceeded →
  (warnings ← initialize_job_files m job (Some workspace);
   _ ← emit_warnings (job_id (dj_job job)) warnings;
   loaded ← load_all_job_events fuel (job_id (dj_job job));
   match loaded with
   | None => done None
   | Some loaded =>
       _ ← publish_outputs (job_paths m id (wr_repository_id workspace)) job operation loaded;
       done (Some tt)
   end) w1 = (r, w') →
  match r with
  | Ok (Some _) => PublishedJob m context w w'
  | Ok None => (Z.to_nat EVENT_PAGE * fuel ≤ length (job_events id (host_db w')))%nat
  | Err _ => let d := ap_coordinator_dir (job_paths m id EmptyString) in shown w' d ArtifactResult = shown w d ArtifactResult
  end.
Proof.
  intros id Hr Hrel Ho1 Ho2 Ho3 Hsame Hatt Hjob Hin Hopid Hsa Hso Hrun.
  pose proof (others_reachable _ _ Ho2 (others_reachable _ _ Ho1 Hr)) as Hr2. pose proof (others_reachable _ _ Ho3 Hr2) as Hr1.
  destruct (load_job_id _ _ _ Hr2 Hjob) as [Hid Hex]. fold id in Hid. rewrite Hid in Hrun.
  assert (relative (job_id (dj_job job))) as Hrel' by (by rewrite Hid).
  apply bind_cases in Hrun as [(e & -> & Hi)|(warnings1 & w2 & Hi & Hrun)]; pose proof (initialize_spec _ _ _ _ _ _ Hrel' Hi) as Hspec;
    rewrite Hid in Hspec; [cbn zeta in *; rewrite <- (shown_same w w1) by done; exact Hspec|].
  destruct Hspec as (inventory & Hinv & Hc & Hl). set (paths := job_paths m id (wr_repository_id workspace)) in *.
  assert (db_moves w1 w2) as Hm2 by (eapply (initialize_within db_moves files_others); exact Hi).
  apply bind_cases in Hrun as [(e & -> & He)|([] & w3 & He & Hrun)]; destruct (emit_others _ _ _ _ _ He) as [Hm3 Hok]; [done|].
  apply emit_same in He. pose proof (transitivity Hm2 Hm3) as Hm13.
  assert (reachable (host_db w3)) as Hr3 by (by eapply others_reachable).
  assert (is_Some (jobs (host_db w3) !! id)) as Hex3 by exact (others_job _ _ _ (transitivity Ho3 Hm13) Hr2 Hex).
  assert (∀ g, shown w3 (ap_coordinator_dir paths) g
    = newer (written_to g [(ArtifactJob, inventory.1); (ArtifactTask, inventory.2)]) (shown w (ap_coordinator_dir paths) g)) as Hc3
    by (intros g; rewrite (shown_same w2 w3), Hc, (shown_same w w1) by done; done).
  assert (shown w3 (ap_coordinator_dir paths) ArtifactResult = shown w (ap_coordinator_dir paths) ArtifactResult) as Hres
    by (by rewrite Hc3).
  apply bind_cases in Hrun as [(e & -> & Hld)|(loaded & w4 & Hld & Hrun)];
    pose proof (load_events_same _ _ _ _ _ _ _ Hld) as S4; [etrans; [by apply shown_same|exact Hres]|].
  apply load_all_spec in Hld as (s3 & Hos3 & Ho4 & Hld); [|done|done]. destruct loaded as [loaded|].
  2: { injection Hrun as <- <-. destruct (job_events_suffix id _ _ Ho4) as [suffix ->]. rewrite length_app. lia. }
  subst loaded. pose proof (job_paths_apart m id (wr_repository_id workspace) Hrel) as Hap.
  apply bind_cases in Hrun as [(e & -> & Hp)|(u & w5 & Hp & Hrun)]; pose proof (publish_outputs_spec _ _ _ _ _ _ _ Hap Hp) as Hps.
  { etrans; [exact Hps|]. etrans; [by apply (shown_same w3 w4)|exact Hres]. }
  injection Hrun as <- <-. destruct Hps as (outputs & warnings2 & Hred & Hmem & findings & Hfind & Hc5 & Hl5).
  exists s1, s2, s3, settled, workspace, job, operation, outputs, inventory, findings, (warnings1 ++ warnings2).
  split_and!; try done.
  - etrans; [exact Ho3|]. etrans; [exact Hm13|done].
  - etrans; [exact Ho4|]. exact (publish_outputs_others _ _ _ _ _ _ _ Hp).
  - fold id paths. cbn zeta. intros d f [->|[Hd Hf]].
    + by rewrite Hc5, (shown_same w3 w4), Hc3, final_file_steps by done.
    + rewrite fmap_app, not_elem_of_app in Hf. destruct Hf as [Hf1 Hf2].
      by rewrite (Hl5 d f Hd Hf2), (shown_same w3 w4), (shown_same w2 w3), (Hl d f Hd Hf1), (shown_same w w1), final_file_steps by done.
Qed.

End publication.

(** ** A worker with files *)

#[local] Existing Instance demo_external.
#[local] Existing Instance listed_order.

Record Publisher : Type := mkPublisher {
  pb_db : db;
  pb_files : gmap string string;
}.

#[local] Instance publisher_host : EnvironmentHost Publisher := {|
  store_call A f w := let '(r, s) := f 60 "id" (pb_db w) in (r, mkPublisher s (pb_files w));
  provisioner_backend := "local";
  durable_locator _ := Ok None;
  provision _ _ _ := λ w, (Ok (mkProvisioned "ref" "url"), w);
  deprovision _ := λ w, (Ok tt, w);
|}.

#[local] Instance publisher_host_laws : StoreHostLaws Publisher.
Proof.
  refine {| host_db := pb_db |}.
  - intros A f w r w'. cbn. destruct (f 60 "id" (pb_db w)) as [r0 s] eqn:E. intros [= <- <-].
    exists (pb_db w), s. split_and!; [apply rtc_refl|by eapply LandsReturned|apply rtc_refl].
  - intros environment root metadata w r w' [= _ <-]. apply rtc_refl.
  - intros environment w r w' [= _ <-]. apply rtc_refl.
Defined.

Definition missing : IoError := mkIoError true "No such file or directory".
Definition with_files (files : gmap string string) (w : Publisher) : Publisher := mkPublisher (pb_db w) files.

#[local] Instance publisher_files : ArtifactFiles Publisher := {|
  create_dir_all _ w := (Ok tt, w);
  write_file p c w := (Ok tt, with_files (<[p := c]> (pb_files w)) w);
  rename_file a b w := match pb_files w !! a with
                       | Some c => (Ok tt, with_files (<[b := c]> (delete a (pb_files w))) w)
                       | None => (Err missing, w)
                       end;
  remove_file p w := match pb_files w !! p with
                     | Some _ => (Ok tt, with_files (delete p (pb_files w)) w)
                     | None => (Err missing, w)
                     end;
  read_file p w := (match pb_files w !! p with Some c => Ok c | None => Err missing end, w);
  is_regular_file p w := bool_decide (is_Some (pb_files w !! p));
  lock_file _ w := (Ok tt, w);
  new_uuid w := ("u", w);
|}.

#[local] Instance publisher_file_laws : FileLaws Publisher.
Proof.
  refine {| file_at w p := pb_files w !! p |}; cbn.
  - by intros d w r w' [= _ <-].
  - intros p c w r w' [= <- <-]. cbn. split; [intros q Hq; by rewrite lookup_insert_ne|intros _ _; by rewrite lookup_insert_eq].
  - intros a b w r w' Hr Hab. destruct (pb_files w !! a) as [c|] eqn:Ea; injection Hr as <- <-; cbn; [|done].
    rewrite lookup_insert_eq. split; [done|]. intros q Hqa Hqb. by rewrite lookup_insert_ne, lookup_delete_ne.
  - intros p w r w' Hr. destruct (pb_files w !! p) as [c|] eqn:Ea; injection Hr as <- <-; cbn; [|by split].
    rewrite lookup_delete_eq. split; [|done]. intros q Hq. by rewrite lookup_delete_ne.
  - intros p w r w' [= <- <-]. split; [done|]. by destruct (pb_files w !! p).
  - by intros p w r w' [= _ <-].
  - by intros w id w' [= _ <-].
Defined.

#[local] Instance publisher_laws : PublicationLaws Publisher.
Proof.
  split.
  - intros A f w r w'. cbn. destruct (f 60 "id" (pb_db w)) as [r0 s]. by intros [= _ <-].
  - assert (∀ w w' : Publisher, pb_db w' = pb_db w → rtc store_step (host_db w) (host_db w')) as Hs.
    { intros w w' E. cbn. rewrite E. apply rtc_refl. }
    split; cbn.
    + intros d w r w' [= _ <-]. by apply Hs.
    + intros p c w r w' [= _ <-]. by apply Hs.
    + intros a b w r w' Hr. apply Hs. by destruct (pb_files w !! a); injection Hr as _ <-.
    + intros p w r w' Hr. apply Hs. by destruct (pb_files w !! p); injection Hr as _ <-.
    + intros p w r w' [= _ <-]. by apply Hs.
    + intros w id w' [= _ <-]. by apply Hs.
Qed.

#[local] Instance plain_rendering : Rendering := {| unicode_uppercase c := c; to_vec_pretty _ := Ok "{}" |}.
#[local] Instance plain_coordinator_text : CoordinatorText := {| coordinator_text _ := "error" |}.

(** The plan stage answered in turn [t] and was settled. *)
Definition planned_history : list (Z * Call) :=
  [(10, CreateJob "J" (demo_ids "o") demo_definition);
   (11, PutWorkspace (mkWorkspaceBinding "J" "local:checkout" "repo" "HEAD" "base" "branch" "root" "rev"));
   (12, ClaimRecovery ∅ "a0" ScopeAny (demo_request "w1"));
   (13, AppendAttemptEvent (demo_fence "a0" "w1" 1)
          (mkNewAttemptEvent "agent.message.completed"
             (Object [("itemId", Str "i"); ("text", Str "First, the parser."); ("turnId", Str "t")]) None));
   (14, SettleAttempt "c0" (demo_fence "a0" "w1" 1) SettleSucceeded
          (Some (mkNewCheckpoint "a0" "factory.stage" (Object []) None None None))
          (Some (mkNewAttemptEvent "stage.completed"
                   (Object [("reviewCycle", Num (PosInt 0)); ("role", Str "stage"); ("turnId", Str "t")]) None)))].

Definition demo_manager : ArtifactManager := mkArtifactManager "/artifacts" (Some "local:checkout").
Definition demo_publisher : Publisher := mkPublisher (demo planned_history) ∅.
Definition demo_published : Publisher := (publish_settled_artifacts 1 demo_manager demo_context demo_publisher).2.

Lemma demo_publisher_reachable : reachable (host_db demo_publisher).
Proof. cbv [host_db publisher_host_laws demo_publisher pb_db]. apply (demo_reachable planned_history). Qed.

