(* ===== verification/Session.v ===== *)
(** * Sessions

    [runtime/src/session.rs]: one autonomous Codex session on the in-process
    app-server: it starts or rejoins a thread, runs one turn at a time, waits for
    the turn while it answers every server request, and is interrupted and closed
    when the attempt is cancelled.  The app-server is an interface whose requests
    may fail; an [anyhow] error is the text it displays. *)

From S2P Require Import Prelude Domain Serde AgentTools Stages Executor Operation ResponseStream AttemptEvents.
From Stdlib Require Import ZArith Ascii String.
From stdpp Require Import base gmap strings list option pretty.

#[local] Open Scope string_scope.
#[local] Open Scope Z_scope.
#[local] Open Scope list_scope.

Definition INTERRUPT_TIMEOUT_SECS : Z := 5.
Definition REMOTE_RECOVERY_GRACE_SECS : Z := 30.
Definition SHUTDOWN_TIMEOUT_SECS : Z := 50.

(** ** The protocol *)

Inductive ModeKind : Type := ModePlan | ModeDefault.

(** [TurnEnvironmentParams]. *)
Record TurnEnvironment : Type := mkTurnEnvironment {
  te_environment_id : string;
  te_cwd : string;
  te_roots : list string;
}.

Record RequestedThread : Type := mkRequestedThread {
  rt_cwd : string;
  rt_roots : list string;
  rt_model : option string;
  rt_model_provider : string;
  rt_developer_instructions : option string;
  rt_ephemeral : bool;
  rt_environments : option (list TurnEnvironment);
}.

(** The fields both requests for a thread set: approvals are never asked for and
    the sandbox is off. *)
Record ThreadParams : Type := mkThreadParams {
  tp_model : option string;
  tp_model_provider : option string;
  tp_cwd : option string;
  tp_roots : option (list string);
  tp_never_approve : bool;
  tp_full_access : bool;
  tp_developer_instructions : option string;
}.

Record ThreadStartParams : Type := mkThreadStartParams {
  tst_params : ThreadParams;
  tst_ephemeral : option bool;
  tst_environments : option (list TurnEnvironment);
}.

Record ThreadResumeParams : Type := mkThreadResumeParams {
  trp_thread_id : string;
  trp_params : ThreadParams;
  trp_exclude_turns : bool;
}.

(** What the app-server settled on. *)
Record EffectiveThread : Type := mkEffectiveThread {
  et_thread_id : string;
  et_cwd : string;
  et_roots : list string;
  et_model : string;
  et_model_provider : string;
  et_never_approve : bool;
  et_full_access : bool;
}.

Record CollaborationMode : Type := mkCollaborationMode {
  cm_mode : ModeKind;
  cm_model : string;
  cm_reasoning_effort : option string;
  cm_developer_instructions : option string;
}.

Record TurnStartParams : Type := mkTurnStartParams {
  tsp_thread_id : string;
  tsp_input : string;
  tsp_environments : option (list TurnEnvironment);
  tsp_cwd : option string;
  tsp_roots : option (list string);
  tsp_never_approve : bool;
  tsp_sandbox_policy : SandboxPolicy;
  tsp_model : option string;
  tsp_collaboration_mode : CollaborationMode;
  tsp_metadata : list (string * string);
}.

Record ReviewStartParams : Type := mkReviewStartParams {
  rsp_thread_id : string;
  rsp_instructions : string;
  rsp_parent_thread_id : string;
  rsp_parent_turn_id : string;
  rsp_durable_state_key : string;
}.

(** [ServerRequest]: the request and, where the rejection names it, the thread. *)
Inductive ServerRequest : Type :=
| CommandExecutionRequestApproval (request_id thread_id : string)
| FileChangeRequestApproval (request_id thread_id : string)
| ToolRequestUserInput (request_id thread_id : string)
| DynamicToolCall (request_id thread_id : string)
| ChatgptAuthTokensRefresh (request_id : string)
| AttestationGenerate (request_id : string)
| CurrentTimeRead (request_id : string)
| ApplyPatchApproval (request_id conversation_id : string)
| ExecCommandApproval (request_id conversation_id : string)
| PermissionsRequestApproval (request_id thread_id : string)
| McpServerElicitationRequest (request_id : string).

Inductive InProcessServerEvent : Type :=
| ServerRequestEvent (request : ServerRequest)
| NotificationEvent (n : ServerNotification)
| Lagged (skipped : Z).

Inductive EnvironmentConnectionState : Type := Connected | Disconnected.

(** The first of the awaited futures to be ready. *)
Inductive NextEvent : Type :=
| NextCancelled
| RemoteRecoveryExpired
| RemoteEnvironment (state : option EnvironmentConnectionState)
| Server (event : option InProcessServerEvent).

(** [InProcessAppServerClient], and the futures a session selects among: whether
    a recovery is pending and whether an environment is monitored decide which
    can be ready.  A request that is bounded by a timeout fails with [None] when
    the time is up. *)
Class AppServer (W : Type) : Type := {
  start_client : proc W string unit;
  thread_start : Z → ThreadStartParams → proc W string EffectiveThread;
  thread_resume : Z → ThreadResumeParams → proc W string EffectiveThread;
  thread_read : Z → string → proc W string (string * list (string * TurnStatus));
  turn_start : Z → TurnStartParams → proc W string string;
  review_start : Z → ReviewStartParams → proc W string (string * string);
  turn_interrupt : Z → string → string → proc W (option string) unit;
  resolve_server_request : string → Value → proc W string unit;
  reject_server_request : string → Z → string → proc W string unit;
  client_shutdown : proc W (option string) unit;
  current_state : W → EnvironmentConnectionState;
  select_next : bool → bool → W → NextEvent * W;
}.

(** Texts of the vendored types. *)
Class SessionText : Type := {
  turn_error_text : string → string;
  turn_status_debug : Value → string;
}.

(** ** The session *)

(** [client] tells whether the client is still there; of the monitor the
    environment is kept. *)
Record AutonomousSession : Type := mkAutonomousSession {
  as_client : bool;
  as_request_ids : Z;
  as_parent : ThreadCorrelation;
  as_cwd : string;
  as_roots : list string;
  as_model : string;
  as_model_provider : string;
  as_environments : option (list TurnEnvironment);
  as_remote_environment : option string;
  as_active_turn : option TurnCorrelation;
  as_latest_turn : option TurnCorrelation;
}.

Definition with_turns (active latest : option TurnCorrelation) (s : AutonomousSession) : AutonomousSession :=
  mkAutonomousSession (as_client s) (as_request_ids s) (as_parent s) (as_cwd s) (as_roots s) (as_model s) (as_model_provider s)
    (as_environments s) (as_remote_environment s) active latest.

Definition with_client (client : bool) (s : AutonomousSession) : AutonomousSession :=
  mkAutonomousSession client (as_request_ids s) (as_parent s) (as_cwd s) (as_roots s) (as_model s) (as_model_provider s)
    (as_environments s) (as_remote_environment s) (as_active_turn s) (as_latest_turn s).

Definition with_request_ids (n : Z) (s : AutonomousSession) : AutonomousSession :=
  mkAutonomousSession (as_client s) n (as_parent s) (as_cwd s) (as_roots s) (as_model s) (as_model_provider s)
    (as_environments s) (as_remote_environment s) (as_active_turn s) (as_latest_turn s).

Definition without_monitor (s : AutonomousSession) : AutonomousSession :=
  mkAutonomousSession (as_client s) (as_request_ids s) (as_parent s) (as_cwd s) (as_roots s) (as_model s) (as_model_provider s)
    (as_environments s) None (as_active_turn s) (as_latest_turn s).

(** [RequestIdSequence::next]. *)
Definition request_id_next (n : Z) : Z := n + 1.

(** A request id as it is displayed. *)
Definition request_text (id : Z) : string := pretty id.

Definition default_turn_environments (environment_id : option string) (cwd : string) (roots : list string) :
    option (list TurnEnvironment) :=
  (λ id, [mkTurnEnvironment id cwd roots]) <$> environment_id.

Definition native_collaboration_mode (model : string) (mode : ModeKind) : CollaborationMode :=
  mkCollaborationMode mode model None None.

Definition thread_params (r : RequestedThread) : ThreadParams :=
  mkThreadParams (rt_model r) (Some (rt_model_provider r)) (Some (rt_cwd r)) (Some (rt_roots r)) true true
    (rt_developer_instructions r).

Definition start_params (r : RequestedThread) : ThreadStartParams :=
  mkThreadStartParams (thread_params r) (Some (rt_ephemeral r)) (rt_environments r).

Definition resume_params (r : RequestedThread) (thread_id : string) : ThreadResumeParams :=
  mkThreadResumeParams thread_id (thread_params r) true.


(** [EffectiveThread::require_exact]. *)
Definition require_exact (e : EffectiveThread) (r : RequestedThread) : result Message unit :=
  _ ← guard_err (is_blank (et_thread_id e)) [Lit "app-server returned an empty thread id"];
  _ ← guard_err (negb (bool_decide (et_cwd e = rt_cwd r)))
        [Lit "app-server selected cwd "; Display (et_cwd e); Lit " instead of "; Display (rt_cwd r)];
  _ ← guard_err (negb (bool_decide (et_roots e = rt_roots r)))
        [Lit "app-server changed the requested runtime workspace roots"];
  _ ← match rt_model r with
      | Some model => guard_err (negb (bool_decide (et_model e = model)))
                        [Lit "app-server selected model "; Debug (et_model e); Lit " instead of "; Debug model]
      | None => Ok tt
      end;
  _ ← guard_err (negb (bool_decide (et_model_provider e = rt_model_provider r)))
        [Lit "app-server selected provider "; Debug (et_model_provider e); Lit " instead of "; Debug (rt_model_provider r)];
  _ ← guard_err (negb (et_never_approve e)) [Lit "app-server did not apply the never-approve policy"];
  guard_err (negb (et_full_access e)) [Lit "app-server did not apply danger-full-access"].

Definition remote_environment_event_payload (kind environment_id : string) : Value :=
  let message :=
    if decide (kind = "environment.disconnected") then
      "Remote execution environment `" +:+ environment_id +:+ "` disconnected; waiting up to "
      +:+ pretty REMOTE_RECOVERY_GRACE_SECS +:+ " seconds for Codex recovery"
    else if decide (kind = "environment.connected") then
      "Remote execution environment `" +:+ environment_id +:+ "` reconnected"
    else "Remote execution environment `" +:+ environment_id +:+ "` changed state" in
  obj [("environmentId", Str environment_id); ("message", Str message)].

(** [update_remote_recovery]: a recovery is the environment it waits for; its
    deadline is the host's. *)
Definition update_remote_recovery (environment_id : string) (state : EnvironmentConnectionState) (recovery : option string) :
    option string * option string :=
  match state, recovery with
  | Disconnected, None => (Some "environment.disconnected", Some environment_id)
  | Connected, Some _ => (Some "environment.connected", None)
  | _, _ => (None, recovery)
  end.

(** The id, the method and the reason of a rejection. *)
Definition request_rejection (r : ServerRequest) : option (string * string * string) :=
  let about what thread := what +:+ " in exec mode for thread `" +:+ thread +:+ "`" in
  match r with
  | CommandExecutionRequestApproval id thread =>
      Some (id, "item/commandExecution/requestApproval", about "command execution approval is not supported" thread)
  | FileChangeRequestApproval id thread =>
      Some (id, "item/fileChange/requestApproval", about "file change approval is not supported" thread)
  | ToolRequestUserInput id thread =>
      Some (id, "item/tool/requestUserInput", about "request_user_input is not supported" thread)
  | DynamicToolCall id thread => Some (id, "item/tool/call", about "dynamic tool calls are not supported" thread)
  | ChatgptAuthTokensRefresh id =>
      Some (id, "account/chatgptAuthTokens/refresh", "chatgpt auth token refresh is not supported in exec mode")
  | AttestationGenerate id => Some (id, "attestation/generate", "attestation generation is not supported in exec mode")
  | CurrentTimeRead id => Some (id, "currentTime/read", "external current time is not supported in exec mode")
  | ApplyPatchApproval id conversation =>
      Some (id, "applyPatchApproval", about "apply_patch approval is not supported" conversation)
  | ExecCommandApproval id conversation =>
      Some (id, "execCommandApproval", about "exec command approval is not supported" conversation)
  | PermissionsRequestApproval id thread =>
      Some (id, "item/permissions/requestApproval", about "permissions approval is not supported" thread)
  | McpServerElicitationRequest _ => None
  end.

(** [McpServerElicitationRequestResponse] that cancels. *)
Definition elicitation_cancelled : Value := obj [("_meta", Null); ("action", Str "cancel"); ("content", Null)].

(** ** Operations *)

Section session.
Context {W : Type} `{AppServer W, EventSink W, CoordinatorText, SessionText}.

(** The session, the writer of its attempt's events, and everything else. *)
Record SessionWorld : Type := mkSessionWorld {
  sw_session : AutonomousSession;
  sw_events : AttemptEventWriter;
  sw_world : W;
}.

Abbreviation Sess := (proc SessionWorld Message).

Definition on_client {E A : Type} (p : proc W E A) : proc SessionWorld E A := λ w,
  let '(r, world) := p (sw_world w) in (r, mkSessionWorld (sw_session w) (sw_events w) world).

Definition on_session {E A : Type} (f : AutonomousSession → A * AutonomousSession) : proc SessionWorld E A := λ w,
  let '(a, s) := f (sw_session w) in (Ok a, mkSessionWorld s (sw_events w) (sw_world w)).

Definition on_writer {A : Type} (p : proc (AttemptEventWriter * W) CoordinatorError A) : Sess A := λ w,
  let '(r, (events, world)) := p (sw_events w, sw_world w) in
  (match r with Ok a => Ok a | Err e => Err [Display (coordinator_text e)] end, mkSessionWorld (sw_session w) events world).

(** [.context(text)]: only the text is displayed. *)
Definition in_context {E A : Type} (text : string) (p : proc SessionWorld E A) : Sess A := map_err (λ _, [Lit text]) p.

Definition shutdown_client : proc W Message unit :=
  map_err (λ e, match e with
                | Some _ => [Lit "shut down in-process app-server"]
                | None => [Lit "in-process app-server shutdown exceeded "; DisplayZ SHUTDOWN_TIMEOUT_SECS; Lit " seconds"]
                end) client_shutdown.

(** [self.client()?]. *)
Definition require_client : Sess unit :=
  s ← observe sw_session;
  if as_client s then done tt else fail [Lit "session is closed"].

Definition require_idle : Sess unit :=
  s ← observe sw_session;
  match as_active_turn s with
  | Some turn => fail [Lit "thread "; Display (tc_thread_id turn); Lit " already has active turn "; Display (tc_turn_id turn)]
  | None => done tt
  end.

Definition next_request_id {E : Type} : proc SessionWorld E Z :=
  on_session (λ s, let id := request_id_next (as_request_ids s) in (id, with_request_ids id s)).

Definition record_turn (turn : TurnCorrelation) : Sess TurnCorrelation :=
  on_session (λ s, (turn, with_turns (Some turn) (Some turn) s)).

Definition clear_active {E : Type} : proc SessionWorld E unit :=
  on_session (λ s, (tt, with_turns None (as_latest_turn s) s)).

Definition require_given (value message : string) : Sess unit :=
  if is_blank value then fail [Lit message] else done tt.

Definition session_persisted_turn_status (thread_id turn_id : string) : Sess (option TurnStatus) :=
  _ ← require_idle;
  _ ← require_given thread_id "persisted turn thread id must not be empty";
  _ ← require_given turn_id "persisted turn id must not be empty";
  id ← next_request_id;
  _ ← require_client;
  response ← in_context "thread/read persisted turn status" (on_client (thread_read id thread_id));
  if decide (response.1 = thread_id) then
    done (snd <$> List.find (λ turn, bool_decide (turn.1 = turn_id)) response.2)
  else fail [Lit "thread/read returned thread "; Display response.1; Lit " instead of "; Display thread_id].

Definition text_turn_params (s : AutonomousSession) (prompt : string) (sandbox_policy : SandboxPolicy) (mode : ModeKind)
    (stage : FactoryTurnStage) : TurnStartParams :=
  mkTurnStartParams (thc_thread_id (as_parent s)) prompt (as_environments s) (Some (as_cwd s)) (Some (as_roots s)) true
    sandbox_policy (Some (as_model s)) (native_collaboration_mode (as_model s) mode)
    [(FACTORY_STAGE_METADATA_KEY, turn_stage_name stage)].

Definition session_start_text_turn (prompt : string) (sandbox_policy : SandboxPolicy) (mode : ModeKind) (stage : FactoryTurnStage) :
    Sess TurnCorrelation :=
  _ ← require_idle;
  _ ← require_given prompt "turn prompt must not be empty";
  id ← next_request_id;
  s ← observe sw_session;
  _ ← require_client;
  turn_id ← in_context "turn/start" (on_client (turn_start id (text_turn_params s prompt sandbox_policy mode stage)));
  record_turn (mkTurnCorrelation (request_text id) (thc_thread_id (as_parent s)) turn_id).

Definition session_start_review (instructions parent_turn_id durable_state_key : string) : Sess TurnCorrelation :=
  _ ← require_idle;
  _ ← require_given instructions "review instructions must not be empty";
  _ ← require_given parent_turn_id "review parent turn id must not be empty";
  _ ← require_given durable_state_key "review durable state key must not be empty";
  id ← next_request_id;
  s ← observe sw_session;
  _ ← require_client;
  response ← in_context "review/start" (on_client (review_start id
    (mkReviewStartParams (thc_thread_id (as_parent s)) instructions (thc_thread_id (as_parent s)) parent_turn_id durable_state_key)));
  record_turn (mkTurnCorrelation (request_text id) response.1 response.2).

(** [AutonomousSession::shutdown]. *)
Definition session_shutdown : Sess unit :=
  s ← observe sw_session;
  if as_client s then
    _ ← on_session (λ s, (tt, with_client false s));
    on_client shutdown_client
  else done tt.

(** ** Waiting *)

(** The turn a completion reports. *)
Record Turn : Type := mkTurn {
  tn_id : string;
  tn_status : Value;
}.

(** [AutonomousSession::cancel]: the turn is interrupted and the client closed;
    it always ends in an error. *)
Definition interrupt_error (active : TurnCorrelation) (id : Z) : Sess (option Message) :=
  s ← observe sw_session;
  if as_client s then
    interrupted ← attempt (on_client (turn_interrupt id (tc_thread_id active) (tc_turn_id active)));
    done (match interrupted with
          | Ok _ => None
          | Err (Some error) => Some [Display error]
          | Err None => Some [Lit "turn/interrupt exceeded "; DisplayZ INTERRUPT_TIMEOUT_SECS; Lit " seconds"]
          end)
  else done (Some [Lit "session was already closed"]).

Definition session_cancel {A : Type} (active : TurnCorrelation) : Sess A :=
  id ← next_request_id;
  interrupted ← interrupt_error active id;
  _ ← clear_active;
  shut ← attempt session_shutdown;
  fail ([Lit "turn "; Display (tc_thread_id active); Lit "/"; Display (tc_turn_id active); Lit " cancelled with request ";
         Display (request_text id)]
        ++ match interrupted with Some error => Lit "; interrupt error: " :: error | None => [] end
        ++ match shut with Err error => Lit "; shutdown error: " :: error | Ok _ => [] end).

(** [bail!("{message}; {cleanup}")]. *)
Definition cancel_with {A : Type} (message : string) (active : TurnCorrelation) : Sess A := λ w,
  match session_cancel (A := A) active w with
  | (Err cleanup, w') => (Err ([Display message; Lit "; "] ++ cleanup), w')
  | (Ok a, w') => (Ok a, w')
  end.

Definition handle_server_request (request : ServerRequest) : Sess unit :=
  match request_rejection request with
  | Some (id, method, reason) =>
      map_err (λ _, [Lit "reject "; Display method]) (on_client (reject_server_request id (-32000) reason))
  | None =>
      match request with
      | McpServerElicitationRequest id =>
          in_context "resolve mcpServer/elicitation/request" (on_client (resolve_server_request id elicitation_cancelled))
      | _ => done tt
      end
  end.

(** The notification is about the turn. *)
Definition about_turn (active : TurnCorrelation) (n : ServerNotification) : bool :=
  bool_decide (sn_thread n = tc_thread_id active) && bool_decide (sn_turn n = tc_turn_id active).

(** The notification ends the turn. *)
Definition terminal (active : TurnCorrelation) (n : ServerNotification) : bool :=
  about_turn active n
  && match sn_notice n with ErrorNotice _ will_retry => negb will_retry | TurnCompleted _ _ _ => true | _ => false end.

(** What a round of waiting leads to: another one, or the turn. *)
Inductive Round : Type :=
| WaitOn (recovery : option string)
| TurnEnded (turn : Turn).

Definition turn_name (active : TurnCorrelation) : list fmt_part :=
  [Lit "turn "; Display (tc_thread_id active); Lit "/"; Display (tc_turn_id active)].

Definition observe_event (active : TurnCorrelation) (recovery : option string) (n : ServerNotification) : Sess Round :=
  observed ← attempt (on_writer (observe_notification n));
  _ ← (if terminal active n then clear_active else done tt);
  _ ← proc_lift observed;
  if about_turn active n then
    match sn_notice n with
    | ErrorNotice message false => fail (turn_name active ++ [Lit " failed: "; Display (turn_error_text message)])
    | TurnCompleted completed status error =>
        if completed then done (TurnEnded (mkTurn (sn_turn n) status))
        else fail (turn_name active ++ [Lit " ended with status "; Display (turn_status_debug status)]
                   ++ match error with Some message => [Lit ": "; Display (turn_error_text message)] | None => [] end)
    | _ => done (WaitOn recovery)
    end
  else done (WaitOn recovery).

Definition server_event (active : TurnCorrelation) (recovery : option string) (event : InProcessServerEvent) : Sess Round :=
  match event with
  | ServerRequestEvent request => _ ← require_client; _ ← handle_server_request request; done (WaitOn recovery)
  | NotificationEvent n => observe_event active recovery n
  | Lagged skipped =>
      _ ← clear_active;
      _ ← on_writer (emit "turn.error"
            (obj [("message", Str ("Codex event stream lost " +:+ pretty skipped +:+ " events")); ("skipped", unsigned skipped)]));
      fail [Lit "app-server event stream lost "; DisplayZ skipped; Lit " events; durable execution cannot continue"]
  end.

Definition CLOSED_MONITOR : string := "remote execution environment connection monitor closed".

Definition recovery_expired (active : TurnCorrelation) (recovery : option string) : Sess Round :=
  s ← observe sw_session;
  state ← observe (λ w, current_state (sw_world w));
  if bool_decide (is_Some (as_remote_environment s)) && match state with Connected => true | Disconnected => false end then
    _ ← match recovery with
        | Some environment_id =>
            on_writer (emit "environment.connected" (remote_environment_event_payload "environment.connected" environment_id))
        | None => done tt
        end;
    done (WaitOn None)
  else
    match recovery with
    | None => fail [Lit "remote recovery timer expired without an environment"]
    | Some environment_id =>
        let message := "remote execution environment `" +:+ environment_id +:+ "` remained disconnected for "
                       +:+ pretty REMOTE_RECOVERY_GRACE_SECS +:+ " seconds" in
        _ ← on_writer (emit "turn.error" (obj [("message", Str message); ("environmentId", Str environment_id)]));
        cancel_with message active
    end.

Definition environment_changed (recovery : option string) (state : EnvironmentConnectionState) : Sess Round :=
  s ← observe sw_session;
  match as_remote_environment s with
  | None => fail [Lit "remote environment state changed without a monitor"]
  | Some environment_id =>
      let '(kind, recovery) := update_remote_recovery environment_id state recovery in
      _ ← match kind with
          | Some kind => on_writer (emit kind (remote_environment_event_payload kind environment_id))
          | None => done tt
          end;
      done (WaitOn recovery)
  end.

Definition next_event (recovery : option string) : Sess NextEvent := λ w,
  let '(next, world) := select_next (bool_decide (is_Some recovery)) (bool_decide (is_Some (as_remote_environment (sw_session w))))
                          (sw_world w) in
  (Ok next, mkSessionWorld (sw_session w) (sw_events w) world).

Definition wait_round (active : TurnCorrelation) (recovery : option string) : Sess Round :=
  _ ← require_client;
  next ← next_event recovery;
  match next with
  | NextCancelled =>
      _ ← ignore (on_writer (emit "turn.cancelled" (obj [("message", Str "turn cancelled after the durable attempt stopped")])));
      session_cancel active
  | RemoteRecoveryExpired => recovery_expired active recovery
  | RemoteEnvironment (Some state) => environment_changed recovery state
  | RemoteEnvironment None =>
      _ ← on_session (λ s, (tt, without_monitor s));
      _ ← on_writer (emit "turn.error" (obj [("message", Str CLOSED_MONITOR)]));
      cancel_with CLOSED_MONITOR active
  | Server (Some event) => server_event active recovery event
  | Server None =>
      _ ← clear_active;
      _ ← on_writer (emit "turn.error" (obj [("message", Str "Codex event stream closed before turn completion")]));
      fail [Lit "app-server event stream closed while waiting for "; Display (tc_thread_id active); Lit "/";
            Display (tc_turn_id active)]
  end.

(** [None] when the fuel ends before the turn. *)
Fixpoint wait_loop (fuel : nat) (active : TurnCorrelation) (recovery : option string) : Sess (option Turn) :=
  match fuel with
  | O => done None
  | S n =>
      round ← wait_round active recovery;
      match round with
      | TurnEnded turn => done (Some turn)
      | WaitOn recovery => wait_loop n active recovery
      end
  end.

Definition session_wait_for_completion (fuel : nat) : Sess (option Turn) :=
  s ← observe sw_session;
  active ← proc_lift (ok_or (as_active_turn s) [Lit "session has no active turn"]);
  state ← observe (λ w, current_state (sw_world w));
  recovery ← match as_remote_environment s, state with
             | Some environment_id, Disconnected =>
                 let '(kind, recovery) := update_remote_recovery environment_id Disconnected None in
                 _ ← match kind with
                     | Some kind => on_writer (emit kind (remote_environment_event_payload kind environment_id))
                     | None => done tt
                     end;
                 done recovery
             | _, _ => done None
             end;
  wait_loop fuel active recovery.

(** ** Starting *)

(** The configuration a session is started with; of the environments, the
    default one and whether its connection can be watched. *)
Record StartArgs : Type := mkStartArgs {
  sg_requested : RequestedThread;
  sg_default_environment : option (string * bool);
}.

Definition requested_thread (a : StartArgs) : RequestedThread :=
  let r := sg_requested a in
  mkRequestedThread (rt_cwd r) (rt_roots r) (rt_model r) (rt_model_provider r) (rt_developer_instructions r) (rt_ephemeral r)
    (default_turn_environments (fst <$> sg_default_environment a) (rt_cwd r) (rt_roots r)).

Definition default_remote_environment_monitor (a : StartArgs) : option string :=
  match sg_default_environment a with Some (id, true) => Some id | _ => None end.

Definition request_parent (r : RequestedThread) (parent : ParentThread) (id : Z) : proc W Message EffectiveThread :=
  match parent with
  | NewThread => map_err (λ _, [Lit "thread/start"]) (thread_start id (start_params r))
  | ResumeThread thread_id =>
      if is_blank thread_id then fail [Lit "resume thread id must not be empty"]
      else map_err (λ _, [Lit "thread/resume"]) (thread_resume id (resume_params r thread_id))
  end.

(** [AutonomousSession::start]: what is not exactly as requested is shut down. *)
Definition session_start (a : StartArgs) (parent : ParentThread) : proc W Message (AutonomousSession * ThreadCorrelation) :=
  let requested := requested_thread a in
  _ ← map_err (λ _, [Lit "start native Codex runtime"]) start_client;
  let id := request_id_next 0 in
  effective ← attempt (request_parent requested parent id);
  match effective with
  | Err error => _ ← ignore shutdown_client; fail error
  | Ok effective =>
      match require_exact effective requested with
      | Err error => _ ← ignore shutdown_client; fail error
      | Ok _ =>
          let correlation := mkThreadCorrelation (request_text id) (et_thread_id effective) in
          done (mkAutonomousSession true id correlation (et_cwd effective) (et_roots effective) (et_model effective)
                  (et_model_provider effective) (rt_environments requested) (default_remote_environment_monitor a) None None,
                correlation)
      end
  end.
End session.
Arguments SessionWorld W : clear implicits.
