(* ===== verification/SessionLaws.v ===== *)
(** * The protocol of a session

    Whatever is asked of a session and however its app-server behaves, the calls
    it makes follow one protocol: one turn at a time, fresh request ids, every
    server request answered before anything else, nothing after the client is
    closed.  Waiting returns a turn only when exactly that turn completed. *)

From S2P Require Import Prelude Domain Serde AgentTools Stages Executor Keeps ExecutorLaws Operation ResponseStream AttemptEvents Session.
From Stdlib Require Import ZArith Ascii String.
From stdpp Require Import base gmap strings option list pretty.

#[local] Open Scope string_scope.
#[local] Open Scope Z_scope.
#[local] Open Scope list_scope.

(** ** Calls *)

(** What a session does with its client: requests with their ids (a turn that
    was started is named), answers to server requests, the end of the client, and
    the events it took. *)
Inductive ClientCall : Type :=
| CallThreadRead (id : Z)
| CallTurnStart (id : Z) (started : option (string * string))
| CallInterrupt (id : Z) (thread turn : string)
| CallAnswer (request_id : string)
| CallShutdown
| Delivered (event : NextEvent).

Definition ok_value {E A : Type} (r : result E A) : option A := match r with Ok a => Some a | Err _ => None end.

(** The calls made so far can be read off the world; the event log is another
    part of it. *)
Class AppServerTrace (W : Type) `{AppServer W} `{EventSink W} : Type := {
  calls : W → list ClientCall;
  thread_read_called id thread w r w' : thread_read id thread w = (r, w') → calls w' = calls w ++ [CallThreadRead id];
  turn_start_called id params w r w' : turn_start id params w = (r, w') →
    calls w' = calls w ++ [CallTurnStart id ((λ turn, (tsp_thread_id params, turn)) <$> ok_value r)];
  review_start_called id params w r w' : review_start id params w = (r, w') → calls w' = calls w ++ [CallTurnStart id (ok_value r)];
  turn_interrupt_called id thread turn w r w' : turn_interrupt id thread turn w = (r, w') →
    calls w' = calls w ++ [CallInterrupt id thread turn];
  resolve_called id v w r w' : resolve_server_request id v w = (r, w') → calls w' = calls w ++ [CallAnswer id];
  reject_called id code reason w r w' : reject_server_request id code reason w = (r, w') → calls w' = calls w ++ [CallAnswer id];
  shutdown_called w r w' : client_shutdown w = (r, w') → calls w' = calls w ++ [CallShutdown];
  select_called recovering monitored w next w' : select_next recovering monitored w = (next, w') → calls w' = calls w ++ [Delivered next];
  append_not_called fence event w r w' : append_event fence event w = (r, w') → calls w' = calls w;
}.

(** The events among some calls. *)
Definition events_of (cs : list ClientCall) : list NextEvent := omap (λ c, match c with Delivered event => Some event | _ => None end) cs.

(** ** The protocol *)

Definition request_of (r : ServerRequest) : string :=
  match r with
  | CommandExecutionRequestApproval id _ | FileChangeRequestApproval id _ | ToolRequestUserInput id _ | DynamicToolCall id _
  | ChatgptAuthTokensRefresh id | AttestationGenerate id | CurrentTimeRead id | ApplyPatchApproval id _ | ExecCommandApproval id _
  | PermissionsRequestApproval id _ | McpServerElicitationRequest id => id
  end.

Record Protocol : Type := mkProtocol {
  pr_last : Z;
  pr_open : bool;
  pr_active : option (string * string);
  pr_asked : option string;
}.

(** The notification ends the turn of a thread. *)
Definition ends_turn (active : string * string) (n : ServerNotification) : bool :=
  bool_decide (sn_thread n = active.1) && bool_decide (sn_turn n = active.2)
  && match sn_notice n with ErrorNotice _ will_retry => negb will_retry | TurnCompleted _ _ _ => true | _ => false end.

(** An event leaves the turn, ends it, or asks. *)
Definition deliver (active : string * string) (event : NextEvent) (p : Protocol) : Protocol :=
  match event with
  | Server (Some (ServerRequestEvent r)) => mkProtocol (pr_last p) true (Some active) (Some (request_of r))
  | Server (Some (NotificationEvent n)) =>
      if ends_turn active n then mkProtocol (pr_last p) true None None else p
  | Server (Some (Lagged _)) | Server None => mkProtocol (pr_last p) true None None
  | _ => p
  end.

(** One call; [None] is a violation. *)
Definition protocol_step (p : Protocol) (c : ClientCall) : option Protocol :=
  if negb (pr_open p) then None
  else
    match c with
    | CallAnswer id => if decide (pr_asked p = Some id) then Some (mkProtocol (pr_last p) true (pr_active p) None) else None
    | _ =>
        if decide (pr_asked p = None) then
          match c with
          | CallThreadRead id =>
              if decide (pr_active p = None ∧ pr_last p < id) then Some (mkProtocol id true None None) else None
          | CallTurnStart id started =>
              if decide (pr_active p = None ∧ pr_last p < id) then Some (mkProtocol id true started None) else None
          | CallInterrupt id thread turn =>
              if decide (pr_active p = Some (thread, turn) ∧ pr_last p < id) then Some (mkProtocol id true (pr_active p) None) else None
          | CallShutdown => Some (mkProtocol (pr_last p) false None None)
          | Delivered event => match pr_active p with Some active => Some (deliver active event p) | None => None end
          | CallAnswer _ => None
          end
        else None
    end.

Fixpoint protocol_run (p : Protocol) (cs : list ClientCall) : option Protocol :=
  match cs with
  | [] => Some p
  | c :: rest => p' ← protocol_step p c; protocol_run p' rest
  end.

Lemma protocol_run_app p cs cs' : protocol_run p (cs ++ cs') = (q ← protocol_run p cs; protocol_run q cs').
Proof. revert p. induction cs as [|c cs IH]; intros p; cbn; [done|]. destruct (protocol_step p c); cbn; [apply IH|done]. Qed.

(** The protocol of a session that has just started. *)
Definition started : Protocol := mkProtocol 1 true None None.

Section protocol.
Context {W : Type} `{AppServerTrace W} `{CoordinatorText, SessionText}.
Implicit Types w : SessionWorld W.

(** The calls before the session. *)
Context (before : list ClientCall).

Definition reached (p : Protocol) (w : SessionWorld W) : Prop :=
  ∃ cs, calls (sw_world w) = before ++ cs ∧ protocol_run started cs = Some p.

Lemma reached_step p c q w w' :
  reached p w → calls (sw_world w') = calls (sw_world w) ++ [c] → protocol_step p c = Some q → reached q w'.
Proof.
  intros (cs & Hc & Hr) Hcall Hs. exists (cs ++ [c]). split; [by rewrite Hcall, Hc, (assoc_L (++))|].
  rewrite protocol_run_app, Hr. cbn. by rewrite Hs.
Qed.

Definition turn_of (t : TurnCorrelation) : string * string := (tc_thread_id t, tc_turn_id t).

(** The session knows where the protocol is. *)
Definition in_step (w : SessionWorld W) : Prop :=
  ∃ p, reached p w ∧ pr_asked p = None ∧ pr_last p ≤ as_request_ids (sw_session w)
    ∧ pr_open p = as_client (sw_session w)
    ∧ (as_client (sw_session w) = true → pr_active p = turn_of <$> as_active_turn (sw_session w)).

(** As before, apart from the writer. *)
Definition quiet (w w' : SessionWorld W) : Prop :=
  calls (sw_world w') = calls (sw_world w) ∧ sw_session w' = sw_session w.

#[local] Instance quiet_preorder : PreOrder quiet.
Proof. split; [by intros w|]. intros w1 w2 w3 [? ?] [? ?]. split; congruence. Qed.

Lemma quiet_in_step w w' : quiet w w' → in_step w → in_step w'.
Proof. intros [Hc Hs] (p & (cs & Hcs & Hr) & Hp). exists p. rewrite Hs. split; [|done]. exists cs. by rewrite Hc. Qed.

(** ** The writer *)

Definition same_calls (s s' : AttemptEventWriter * W) : Prop := calls s'.2 = calls s.2.

#[local] Instance same_calls_preorder : PreOrder same_calls.
Proof. split; [by intros s|]. unfold same_calls. intros s1 s2 s3 ? ?. congruence. Qed.

Lemma update_writer_same {A : Type} (f : AttemptEventWriter → A * AttemptEventWriter) :
  keeps_to same_calls (update_writer f : proc (AttemptEventWriter * W) _ A).
Proof. intros s r s'. unfold update_writer. destruct (f s.1). by intros [= _ <-]. Qed.

Lemma persist_same kind payload key : keeps_to same_calls (persist_with_deduplication (W := W) kind payload key).
Proof.
  intros s r s'. unfold persist_with_deduplication. destruct (append_event _ _ _) as [q world] eqn:E. intros [= _ <-].
  by apply append_not_called in E.
Qed.
#[local] Hint Resolve update_writer_same persist_same : within.

Lemma persist_chunks_same chunks : keeps_to same_calls (persist_chunks (W := W) chunks).
Proof.
  induction chunks as [|c chunks IH]; cbn; [apply (within_done same_calls)|]. unfold persist_chunk, persist. stay_within.
Qed.
#[local] Hint Resolve persist_chunks_same : within.

Lemma flush_same : keeps_to same_calls (flush (W := W)).
Proof. unfold flush. stay_within. Qed.
#[local] Hint Resolve flush_same : within.

Lemma emit_same_calls kind payload : keeps_to same_calls (emit (W := W) kind payload).
Proof. unfold emit, persist. stay_within. Qed.
#[local] Hint Resolve emit_same_calls : within.

Lemma observe_same_calls n : keeps_to same_calls (observe_notification (W := W) n).
Proof.
  assert (keeps_to same_calls (observe_notice (W := W) (sn_notice n))) as Hn.
  { unfold observe_notice, observe_delta, observe_completed, persist. stay_within; apply (within_done same_calls). }
  intros s r s'. unfold observe_notification. destruct (targets _ _ _); [apply Hn|by intros [= _ <-]].
Qed.

Lemma on_writer_quiet {A : Type} (p : proc (AttemptEventWriter * W) CoordinatorError A) :
  keeps_to same_calls p → keeps_to quiet (on_writer p).
Proof.
  intros Hp w r w'. unfold on_writer. destruct (p _) as [q [events world]] eqn:E. intros [= _ <-]. apply Hp in E. by split.
Qed.

Lemma emit_quiet kind payload : keeps_to quiet (on_writer (emit (W := W) kind payload)).
Proof. apply on_writer_quiet, emit_same_calls. Qed.

Lemma observe_quiet n : keeps_to quiet (on_writer (observe_notification (W := W) n)).
Proof. apply on_writer_quiet, observe_same_calls. Qed.

(** ** Requests *)

Lemma require_client_Ok w u w' : require_client w = (Ok u, w') → w' = w ∧ as_client (sw_session w) = true.
Proof.
  unfold require_client. intros (s & w1 & [-> ->]%observe_Ok & Hr)%proc_bind_Ok. destruct (as_client _); [by injection Hr as _ <-|done].
Qed.

Lemma require_client_same w r w' : require_client w = (r, w') → w' = w.
Proof. unfold require_client, observe, mbind, proc_bind. destruct (as_client _); by intros [= _ <-]. Qed.

Lemma require_idle_Ok w u w' : require_idle w = (Ok u, w') → w' = w ∧ as_active_turn (sw_session w) = None.
Proof.
  unfold require_idle. intros (s & w1 & [-> ->]%observe_Ok & Hr)%proc_bind_Ok. destruct (as_active_turn _); [done|by injection Hr as _ <-].
Qed.

Lemma require_idle_same w r w' : require_idle w = (r, w') → w' = w.
Proof. unfold require_idle, observe, mbind, proc_bind. destruct (as_active_turn _); by intros [= _ <-]. Qed.

Lemma require_given_same value message w r w' : require_given (W := W) value message w = (r, w') → w' = w.
Proof. unfold require_given. destruct (is_blank value); by intros [= _ <-]. Qed.

(** A fresh id has been drawn. *)
Definition ready (id : Z) (w : SessionWorld W) : Prop :=
  ∃ p, reached p w ∧ pr_asked p = None ∧ pr_last p < id ∧ as_request_ids (sw_session w) = id
    ∧ pr_open p = as_client (sw_session w)
    ∧ (as_client (sw_session w) = true → pr_active p = turn_of <$> as_active_turn (sw_session w)).

Lemma ready_in_step id w : ready id w → in_step w.
Proof. intros (p & Hr & Ha & Hl & Hi & Ho & Hact). exists p. split_and!; try done. lia. Qed.

Lemma next_request_id_ready {E : Type} w (r : result E Z) w' :
  in_step w → next_request_id w = (r, w') →
  ∃ id, r = Ok id ∧ ready id w' ∧ sw_session w' = with_request_ids id (sw_session w) ∧ calls (sw_world w') = calls (sw_world w).
Proof.
  intros (p & Hr & Ha & Hl & Ho & Hact). unfold next_request_id, on_session, request_id_next. intros [= <- <-].
  eexists. split; [done|]. split; [|done]. exists p. split_and!; try done. cbn. lia.
Qed.

Lemma request_step id c q w w' :
  ready id w → as_client (sw_session w) = true → as_active_turn (sw_session w) = None →
  calls (sw_world w') = calls (sw_world w) ++ [c] →
  (∀ p, pr_asked p = None → pr_last p < id → pr_open p = true → pr_active p = None → protocol_step p c = Some q) → reached q w'.
Proof.
  intros (p & Hr & Ha & Hl & _ & Ho & Hact) Hc Hi Hcall Hs. eapply reached_step; [exact Hr|exact Hcall|]. apply Hs; [done|done|congruence|].
  rewrite Hact by done. by rewrite Hi.
Qed.

Lemma on_client_inv {E A : Type} (q : proc W E A) w r w' :
  on_client q w = (r, w') → ∃ world, q (sw_world w) = (r, world) ∧ w' = mkSessionWorld (sw_session w) (sw_events w) world.
Proof. unfold on_client. destruct (q (sw_world w)) as [a world] eqn:Eq. intros [= <- <-]. eauto. Qed.

Lemma in_context_inv {E A : Type} text (q : proc (SessionWorld W) E A) w r w' :
  in_context text q w = (r, w') → ∃ r0, q w = (r0, w') ∧ ok_value r = ok_value r0.
Proof. unfold in_context, map_err. destruct (q w) as [[a|e] w1]; intros [= <- <-]; eauto. Qed.

Definition stays (w w' : SessionWorld W) : Prop := in_step w → in_step w'.

#[local] Instance stays_preorder : PreOrder stays.
Proof. unfold stays. split; [by intros w ?|]. intros w1 w2 w3 ? ? ?. auto. Qed.

(** In step once a request was made. *)
Lemma in_step_after id started w :
  reached (mkProtocol id true started None) w → as_client (sw_session w) = true → id ≤ as_request_ids (sw_session w) →
  started = turn_of <$> as_active_turn (sw_session w) → in_step w.
Proof. intros Hr Hc Hi Hs. exists (mkProtocol id true started None). by split_and!. Qed.

Lemma persisted_turn_status_stays thread_id turn_id : keeps_to stays (session_persisted_turn_status (W := W) thread_id turn_id).
Proof.
  intros w r w' Hr Hin. unfold session_persisted_turn_status in Hr.
  apply bind_cases in Hr as [(e & _ & ->%require_idle_same)|([] & w1 & [-> Hidle]%require_idle_Ok & Hr)]; [done|].
  apply bind_cases in Hr as [(e & _ & ->%require_given_same)|([] & w1 & ->%require_given_same & Hr)]; [done|].
  apply bind_cases in Hr as [(e & _ & ->%require_given_same)|([] & w1 & ->%require_given_same & Hr)]; [done|].
  apply bind_cases in Hr as [(e & _ & Hn)|(id & w1 & Hn & Hr)];
    destruct (next_request_id_ready _ _ _ Hin Hn) as (id' & [=] & Hrd & Hs & _); subst id'.
  apply bind_cases in Hr as [(e & _ & ->%require_client_same)|([] & w2 & [-> Hc]%require_client_Ok & Hr)]; [by eapply ready_in_step|].
  assert (∀ r0 w2, in_context "thread/read persisted turn status" (on_client (thread_read id thread_id)) w1 = (r0, w2) → in_step w2) as Hread.
  { intros r0 w2 (r1 & (world & Ht & ->)%on_client_inv & _)%in_context_inv. apply thread_read_called in Ht.
    assert (reached (mkProtocol id true None None) (mkSessionWorld (sw_session w1) (sw_events w1) world)) as Hre.
    { eapply request_step; [exact Hrd|done|by rewrite Hs|exact Ht|]. intros p Ha Hl Ho Hact. unfold protocol_step.
      rewrite Ho. cbn. by rewrite decide_True, decide_True. }
    eapply in_step_after; [exact Hre|done| |cbn; rewrite Hs; cbn; by rewrite Hidle]. cbn. rewrite Hs. cbn. lia. }
  apply bind_cases in Hr as [(e & _ & Hb)|(response & w2 & Hb & Hr)]; [by eapply Hread|].
  destruct (decide _) in Hr; injection Hr as _ <-; by eapply Hread.
Qed.

(** Starting a turn: the request names the turn that is recorded. *)
Lemma start_turn_stays {A : Type} id text (q : proc W string A) (f : A → TurnCorrelation) w r w' :
  (∀ world r0 world', q world = (r0, world') →
     calls world' = calls world ++ [CallTurnStart id ((λ a, turn_of (f a)) <$> ok_value r0)]) →
  ready id w → as_client (sw_session w) = true → as_active_turn (sw_session w) = None →
  (x ← in_context text (on_client q); record_turn (f x)) w = (r, w') → in_step w'.
Proof.
  intros Hq Hrd Hc Hi Hr.
  assert (∀ r0 w2, in_context text (on_client q) w = (r0, w2) →
    sw_session w2 = sw_session w ∧ reached (mkProtocol id true ((λ a, turn_of (f a)) <$> ok_value r0) None) w2) as Hstart.
  { intros r0 w2 (r1 & (world & Ht & ->)%on_client_inv & ->)%in_context_inv. split; [done|]. apply Hq in Ht.
    eapply request_step; [exact Hrd|done|done|exact Ht|]. intros p Ha Hl Ho Hact. unfold protocol_step.
    rewrite Ho. cbn. by rewrite decide_True, decide_True. }
  assert (as_request_ids (sw_session w) = id) as Hids by (by destruct Hrd as (p & _ & _ & _ & ? & _)).
  apply bind_cases in Hr as [(e & _ & Hb)|(x & w2 & Hb & Hr)]; destruct (Hstart _ _ Hb) as [Hs Hre].
  - eapply in_step_after; [exact Hre|by rewrite Hs|rewrite Hs; lia|by rewrite Hs, Hi].
  - unfold record_turn, on_session in Hr. injection Hr as _ <-. destruct Hre as (cs & Hcs & Hrun).
    eapply in_step_after; [exists cs; split; [exact Hcs|exact Hrun]|cbn; by rewrite Hs|cbn; rewrite Hs; lia|done].
Qed.

Lemma start_text_turn_stays prompt policy mode stage : keeps_to stays (session_start_text_turn (W := W) prompt policy mode stage).
Proof.
  intros w r w' Hr Hin. unfold session_start_text_turn in Hr.
  apply bind_cases in Hr as [(e & _ & ->%require_idle_same)|([] & w1 & [-> Hidle]%require_idle_Ok & Hr)]; [done|].
  apply bind_cases in Hr as [(e & _ & ->%require_given_same)|([] & w1 & ->%require_given_same & Hr)]; [done|].
  apply bind_cases in Hr as [(e & _ & Hn)|(id & w1 & Hn & Hr)];
    destruct (next_request_id_ready _ _ _ Hin Hn) as (id' & [=] & Hrd & Hs & _); subst id'.
  apply bind_cases in Hr as [(e & _ & [=])|(s & w2 & [-> ->]%observe_Ok & Hr)].
  apply bind_cases in Hr as [(e & _ & ->%require_client_same)|([] & w2 & [-> Hc]%require_client_Ok & Hr)]; [by eapply ready_in_step|].
  eapply (start_turn_stays id _ _ (λ turn, mkTurnCorrelation (request_text id) (thc_thread_id (as_parent (sw_session w1))) turn));
    [|exact Hrd|done|by rewrite Hs|exact Hr].
  intros world r0 world' Ht. by apply turn_start_called in Ht.
Qed.

Lemma start_review_stays instructions parent_turn key : keeps_to stays (session_start_review (W := W) instructions parent_turn key).
Proof.
  intros w r w' Hr Hin. unfold session_start_review in Hr.
  apply bind_cases in Hr as [(e & _ & ->%require_idle_same)|([] & w1 & [-> Hidle]%require_idle_Ok & Hr)]; [done|].
  do 3 (apply bind_cases in Hr as [(e & _ & ->%require_given_same)|([] & w1 & ->%require_given_same & Hr)]; [done|]).
  apply bind_cases in Hr as [(e & _ & Hn)|(id & w1 & Hn & Hr)];
    destruct (next_request_id_ready _ _ _ Hin Hn) as (id' & [=] & Hrd & Hs & _); subst id'.
  apply bind_cases in Hr as [(e & _ & [=])|(s & w2 & [-> ->]%observe_Ok & Hr)].
  apply bind_cases in Hr as [(e & _ & ->%require_client_same)|([] & w2 & [-> Hc]%require_client_Ok & Hr)]; [by eapply ready_in_step|].
  eapply (start_turn_stays id _ _ (λ response, mkTurnCorrelation (request_text id) response.1 response.2));
    [|exact Hrd|done|by rewrite Hs|exact Hr].
  intros world r0 world' Ht. apply review_start_called in Ht. rewrite Ht. do 2 f_equal. by destruct r0 as [[]|].
Qed.

Lemma shutdown_stays : keeps_to stays (session_shutdown (W := W)).
Proof.
  intros w r w' Hr Hin. unfold session_shutdown in Hr.
  apply bind_cases in Hr as [(e & _ & [=])|(s & w1 & [-> ->]%observe_Ok & Hr)].
  destruct (as_client (sw_session w)) eqn:Hc; [|by injection Hr as _ <-].
  apply bind_cases in Hr as [(e & _ & [=])|(u & w1 & Hs & Hr)]. injection Hs as <- <-. apply on_client_inv in Hr as (world & Hr & ->).
  unfold shutdown_client, map_err in Hr. destruct (client_shutdown _) as [q world1] eqn:Eq. apply shutdown_called in Eq.
  assert (world1 = world) as -> by (destruct q; by injection Hr). destruct Hin as (p & Hre & Ha & Hl & Ho & Hact).
  exists (mkProtocol (pr_last p) false None None). split_and!; try done. eapply reached_step; [exact Hre|exact Eq|].
  unfold protocol_step. rewrite Ho, Hc. cbn. by rewrite decide_True.
Qed.

(** ** Waiting *)

(** The turn is running and the client is there. *)
Definition waiting (active : TurnCorrelation) (w : SessionWorld W) : Prop :=
  in_step w ∧ as_client (sw_session w) = true ∧ as_active_turn (sw_session w) = Some active.

Lemma quiet_waiting active w w' : quiet w w' → waiting active w → waiting active w'.
Proof. intros Hq (Hin & Hc & Ha). destruct Hq as [Hcalls Hs] eqn:Eq. split; [by eapply quiet_in_step|]. by rewrite Hs. Qed.

Lemma clear_active_inv {E : Type} w (r : result E unit) w' :
  clear_active w = (r, w') →
  r = Ok tt ∧ w' = mkSessionWorld (with_turns None (as_latest_turn (sw_session w)) (sw_session w)) (sw_events w) (sw_world w).
Proof. by intros [= <- <-]. Qed.

Lemma shutdown_inv w r w' :
  as_client (sw_session w) = true → session_shutdown w = (r, w') →
  calls (sw_world w') = calls (sw_world w) ++ [CallShutdown] ∧ sw_session w' = with_client false (sw_session w).
Proof.
  intros Hc Hr. unfold session_shutdown in Hr. apply bind_cases in Hr as [(e & _ & [=])|(s & w1 & [-> ->]%observe_Ok & Hr)].
  rewrite Hc in Hr. apply bind_cases in Hr as [(e & _ & [=])|(u & w1 & Hs & Hr)]. injection Hs as <- <-.
  apply on_client_inv in Hr as (world & Hr & ->). unfold shutdown_client, map_err in Hr.
  destruct (client_shutdown _) as [q world1] eqn:Eq. apply shutdown_called in Eq.
  assert (world1 = world) as -> by (destruct q; by injection Hr). done.
Qed.

(** Cancelling interrupts the turn, closes the client and reports an error. *)
Lemma cancel_spec {A : Type} active w (r : result Message A) w' :
  waiting active w → session_cancel active w = (r, w') →
  (∃ e, r = Err e) ∧ in_step w' ∧ as_client (sw_session w') = false ∧ as_active_turn (sw_session w') = None
  ∧ ∃ id, calls (sw_world w') = calls (sw_world w) ++ [CallInterrupt id (tc_thread_id active) (tc_turn_id active); CallShutdown].
Proof.
  intros (Hin & Hc & Ha) Hr. unfold session_cancel in Hr.
  apply bind_cases in Hr as [(e & _ & [=])|(id & w1 & Hn & Hr)].
  destruct (next_request_id_ready _ _ _ Hin Hn) as (id' & [=] & (p & Hre & Hask & Hl & Hi & Ho & Hact) & Hs & Hcalls); subst id'.
  assert (as_client (sw_session w1) = true) as Hc1 by (by rewrite Hs).
  assert (as_active_turn (sw_session w1) = Some active) as Ha1 by (by rewrite Hs).
  unfold interrupt_error in Hr.
  apply bind_cases in Hr as [(e & _ & Hb)|(interrupted & w2 & Hb & Hr)];
    apply bind_cases in Hb as [(e' & _ & [=])|(s & w2' & [-> ->]%observe_Ok & Hb)]; rewrite Hc1 in Hb;
    (apply bind_cases in Hb as [(e' & _ & Hb)|(x & w3 & Hb & Hd)]; [unfold attempt in Hb; by destruct (on_client _ _)|]); [done|].
  injection Hd as _ ->. rewrite attempt_Ok in Hb. apply on_client_inv in Hb as (world & Hb & ->). apply turn_interrupt_called in Hb.
  apply bind_cases in Hr as [(e & _ & [=])|(u & w3 & Hcl & Hr)]. apply clear_active_inv in Hcl as [_ ->].
  apply bind_cases in Hr as [(e & _ & Hb')|(shut & w4 & Hsd & Hr)]; [unfold attempt in Hb'; by destruct (session_shutdown _)|].
  rewrite attempt_Ok in Hsd. apply shutdown_inv in Hsd as [Hsd Hs4]; [|done]. injection Hr as <- <-. cbn in Hsd.
  split; [eauto|]. rewrite Hs4. split_and!; [|done|done|].
  - exists (mkProtocol id false None None). rewrite Hs4. split_and!; try done; [|cbn; lia].
    eapply (reached_step (mkProtocol id true (Some (turn_of active)) None) CallShutdown _ (mkSessionWorld (sw_session w1) (sw_events w1) world));
      [|exact Hsd|done].
    eapply (reached_step p (CallInterrupt id (tc_thread_id active) (tc_turn_id active)) _ w1); [exact Hre|exact Hb|].
    rewrite Ha1 in Hact. unfold protocol_step. rewrite Ho, Hc1. cbn. rewrite decide_True by done. rewrite decide_True; [by rewrite Hact|].
    split; [by rewrite Hact|done].
  - exists id. rewrite Hsd, Hb, Hcalls. by rewrite <- (assoc_L (++)).
Qed.

(** An event has been taken. *)
Definition took (active : TurnCorrelation) (event : NextEvent) (w w1 : SessionWorld W) : Prop :=
  calls (sw_world w1) = calls (sw_world w) ++ [Delivered event] ∧ sw_session w1 = sw_session w
  ∧ as_client (sw_session w) = true ∧ as_active_turn (sw_session w) = Some active
  ∧ ∃ p, reached (deliver (turn_of active) event p) w1 ∧ pr_asked p = None ∧ pr_last p ≤ as_request_ids (sw_session w)
    ∧ pr_open p = true ∧ pr_active p = Some (turn_of active).

Lemma next_event_took active recovery w r w1 :
  waiting active w → next_event recovery w = (r, w1) → ∃ event, r = Ok event ∧ took active event w w1.
Proof.
  intros ((p & Hre & Hask & Hl & Ho & Hact) & Hc & Ha) Hn. unfold next_event in Hn.
  destruct (select_next _ _ _) as [event world] eqn:Es. injection Hn as <- <-. apply select_called in Es.
  exists event. split; [done|]. split_and!; try done. specialize (Hact Hc). rewrite Ha in Hact. cbn in Hact.
  exists p. split_and!; [|done|done|congruence|done]. eapply (reached_step p (Delivered event)); [exact Hre|exact Es|].
  unfold protocol_step. rewrite Ho, Hc. cbn. rewrite decide_True by done. by rewrite Hact.
Qed.

(** The event leaves the turn running. *)
Lemma took_waiting active event w w1 :
  took active event w w1 → (∀ p, deliver (turn_of active) event p = p) → waiting active w1.
Proof.
  intros (_ & Hs & Hc & Ha & p & Hre & Hask & Hl & Ho & Hact) Hd. rewrite Hd in Hre. split; [|by rewrite Hs].
  exists p. rewrite Hs, Hc, Ha. by split_and!.
Qed.

(** The event ends the turn, and the session lets go of it. *)
Lemma took_ended active event w w1 w2 :
  took active event w w1 → (∀ p, deliver (turn_of active) event p = mkProtocol (pr_last p) true None None) →
  calls (sw_world w2) = calls (sw_world w1) →
  sw_session w2 = with_turns None (as_latest_turn (sw_session w)) (sw_session w) →
  in_step w2 ∧ as_client (sw_session w2) = true ∧ as_active_turn (sw_session w2) = None.
Proof.
  intros (_ & _ & Hc & _ & p & Hre & Hask & Hl & Ho & Hact) Hd Hcalls Hs. rewrite Hd in Hre. rewrite Hs. split; [|done].
  exists (mkProtocol (pr_last p) true None None). rewrite Hs. cbn. split_and!; [|done|done|done|done].
  destruct Hre as (cs & Hcs & Hrun). exists cs. by rewrite Hcalls.
Qed.

(** How a round of waiting ends. *)
Definition round_spec (active : TurnCorrelation) (w : SessionWorld W) (r : result Message Round) (w' : SessionWorld W) : Prop :=
  match r with
  | Ok (WaitOn _) => waiting active w' ∧ ∃ event rest, calls (sw_world w') = calls (sw_world w) ++ Delivered event :: rest
      ∧ event ≠ NextCancelled ∧ events_of rest = []
  | Ok (TurnEnded turn) =>
      in_step w' ∧ as_client (sw_session w') = true ∧ as_active_turn (sw_session w') = None
      ∧ ∃ n error, calls (sw_world w') = calls (sw_world w) ++ [Delivered (Server (Some (NotificationEvent n)))]
          ∧ about_turn active n = true ∧ sn_notice n = TurnCompleted true (tn_status turn) error ∧ tn_id turn = tc_turn_id active
  | Err _ =>
      in_step w' ∧ ∃ event rest, calls (sw_world w') = calls (sw_world w) ++ Delivered event :: rest
        ∧ events_of rest = []
        ∧ (event = NextCancelled → as_client (sw_session w') = false
            ∧ ∃ id, rest = [CallInterrupt id (tc_thread_id active) (tc_turn_id active); CallShutdown])
  end.

Lemma handle_request_answers request w r w' :
  handle_server_request request w = (r, w') →
  sw_session w' = sw_session w ∧ calls (sw_world w') = calls (sw_world w) ++ [CallAnswer (request_of request)].
Proof.
  unfold handle_server_request, in_context. destruct request; cbn [request_rejection request_of]; unfold map_err;
    destruct (on_client _ w) as [q w1] eqn:Eq; apply on_client_inv in Eq as (world & Eq & ->);
    (destruct q; intros [= _ <-]; (split; [done|]); first [by apply reject_called in Eq|by apply resolve_called in Eq]).
Qed.

Lemma server_request_round active recovery request w w1 r w' :
  took active (Server (Some (ServerRequestEvent request))) w w1 → server_event active recovery (ServerRequestEvent request) w1 = (r, w') →
  round_spec active w r w'.
Proof.
  intros (Hcalls & Hs & Hc & Ha & p & Hre & Hask & Hl & Ho & Hact) Hr. unfold server_event in Hr.
  apply bind_cases in Hr as [(e & _ & Hq)|(u & w2 & [-> _]%require_client_Ok & Hr)].
  { unfold require_client, observe, mbind, proc_bind in Hq. by rewrite Hs, Hc in Hq. }
  assert (∀ q w2, handle_server_request request w1 = (q, w2) →
    waiting active w2 ∧ calls (sw_world w2) = calls (sw_world w) ++ [Delivered (Server (Some (ServerRequestEvent request))); CallAnswer (request_of request)])
    as Hh.
  { intros q w2 [Hs2 Hcalls2]%handle_request_answers. split; [|by rewrite Hcalls2, Hcalls, <- (assoc_L (++))].
    split; [|by rewrite Hs2, Hs]. exists (mkProtocol (pr_last p) true (Some (turn_of active)) None). rewrite Hs2, Hs. cbn.
    split_and!; [|done|done|done|by rewrite Ha]. eapply reached_step; [exact Hre|exact Hcalls2|]. cbn. by rewrite decide_True. }
  apply bind_cases in Hr as [(e & -> & Hq)|(u' & w2 & Hq & Hr)]; destruct (Hh _ _ Hq) as [Hw Hcs].
  - split; [apply Hw|]. eexists _, _. split; [exact Hcs|done].
  - injection Hr as <- <-. split; [done|]. eexists _, _. split; [exact Hcs|done].
Qed.

(** A quiet step between an event and the error it leads to. *)
Lemma ended_failure active event w w1 {A : Type} (p : proc (AttemptEventWriter * W) CoordinatorError A) (e : Message) (r : result Message Round) w' :
  took active event w w1 → (∀ p, deliver (turn_of active) event p = mkProtocol (pr_last p) true None None) → event ≠ NextCancelled →
  keeps_to same_calls p → (_ ← clear_active; _ ← on_writer p; fail e) w1 = (r, w') → round_spec active w r w'.
Proof.
  intros Ht Hd Hne Hp Hr. apply bind_cases in Hr as [(e' & _ & [=])|(u & w2 & [_ ->]%clear_active_inv & Hr)].
  assert (∀ q w3, on_writer p (mkSessionWorld (with_turns None (as_latest_turn (sw_session w1)) (sw_session w1)) (sw_events w1) (sw_world w1)) = (q, w3) →
    in_step w3 ∧ calls (sw_world w3) = calls (sw_world w) ++ [Delivered event]) as Hq.
  { intros q w3 [Hc3 Hs3]%(on_writer_quiet p Hp). cbn in Hc3, Hs3. destruct Ht as (Hcalls & Hs & Hrest) eqn:Et.
    split; [|by rewrite Hc3, Hcalls]. eapply (took_ended active event w w1); [exact Ht|exact Hd|exact Hc3|]. by rewrite Hs3, Hs. }
  apply bind_cases in Hr as [(e' & -> & Hw)|(a & w3 & Hw & Hr)]; [|injection Hr as <- <-]; destruct (Hq _ _ Hw) as [Hin Hcs];
    (split; [done|]; eexists _, []; split; [exact Hcs|done]).
Qed.

Lemma ends_turn_terminal active n : ends_turn (turn_of active) n = terminal active n.
Proof. done. Qed.

Lemma about_turn_id active n : about_turn active n = true → sn_turn n = tc_turn_id active.
Proof. by intros [_ ?%bool_decide_eq_true]%andb_true_iff. Qed.

(** What an observed notification leads to, once the session let go of an ended turn. *)
Lemma notification_round active recovery n w w1 r w' :
  took active (Server (Some (NotificationEvent n))) w w1 → observe_event active recovery n w1 = (r, w') → round_spec active w r w'.
Proof.
  intros Ht Hr. pose proof Ht as (Hcalls & Hs & _). unfold observe_event in Hr.
  apply bind_cases in Hr as [(e & _ & Hb)|(observed & w2 & Hb & Hr)]; [unfold attempt in Hb; by destruct (on_writer _ _)|].
  rewrite attempt_Ok in Hb. apply observe_quiet in Hb as [Hc2 Hs2].
  destruct (terminal active n) eqn:Hterm.
  - apply bind_cases in Hr as [(e & _ & [=])|(u & w3 & [_ ->]%clear_active_inv & Hr)].
    destruct (took_ended active _ w w1 (mkSessionWorld (with_turns None (as_latest_turn (sw_session w2)) (sw_session w2)) (sw_events w2) (sw_world w2)) Ht)
      as (Hin & Hcl & Hact); [intros p; cbn; by rewrite ends_turn_terminal, Hterm|exact Hc2|cbn; by rewrite Hs2, Hs|].
    set (w3 := mkSessionWorld _ _ _) in *. assert (calls (sw_world w3) = calls (sw_world w) ++ [Delivered (Server (Some (NotificationEvent n)))]) as Hcs
      by (cbn; by rewrite Hc2).
    assert (∀ e : Message, (Err e, w3) = (r, w') → round_spec active w r w') as Hfail.
    { intros e [= <- <-]. split; [done|]. eexists _, []. split; [exact Hcs|done]. }
    apply bind_cases in Hr as [(e & -> & Hl)|(u' & w4 & Hl & Hr)]; [unfold proc_lift in Hl; injection Hl as _ <-; by apply (Hfail e)|].
    apply proc_lift_Ok in Hl as [_ ->]. apply andb_true_iff in Hterm as [Habout Hterm]. rewrite Habout in Hr.
    destruct (sn_notice n) as [| | | | | | |completed status error| | | |message will_retry| | |] eqn:En; try done.
    + destruct completed; [|by eapply Hfail]. injection Hr as <- <-. split_and!; try done. exists n, error. split_and!; [done|done|done|].
      by apply about_turn_id.
    + destruct will_retry; [done|]. by eapply Hfail.
  - assert (waiting active w2) as Hw2.
    { eapply quiet_waiting; [by split|]. eapply took_waiting; [exact Ht|]. intros p. cbn. by rewrite ends_turn_terminal, Hterm. }
    assert (calls (sw_world w2) = calls (sw_world w) ++ [Delivered (Server (Some (NotificationEvent n)))]) as Hcs by (by rewrite Hc2).
    apply bind_cases in Hr as [(e & _ & [=])|(u & w3 & Hd & Hr)]. injection Hd as _ <-.
    apply bind_cases in Hr as [(e & -> & Hl)|(u' & w4 & Hl & Hr)].
    { unfold proc_lift in Hl. injection Hl as _ <-. split; [apply Hw2|]. eexists _, []. split; [exact Hcs|done]. }
    apply proc_lift_Ok in Hl as [_ ->].
    assert (r = Ok (WaitOn recovery) ∧ w' = w2) as [-> ->].
    { unfold terminal in Hterm. destruct (about_turn active n); [|by injection Hr as <- <-]. cbn in Hterm.
      destruct (sn_notice n) as [| | | | | | |completed status error| | | |message will_retry| | |]; try done; try (by injection Hr as <- <-).
      destruct will_retry; [by injection Hr as <- <-|done]. }
    split; [done|]. eexists _, []. split; [exact Hcs|done].
Qed.

(** An event that leaves the turn running, what follows being quiet. *)
Lemma running_round active event w w1 w2 recovery :
  took active event w w1 → (∀ p, deliver (turn_of active) event p = p) → event ≠ NextCancelled → quiet w1 w2 →
  round_spec active w (Ok (WaitOn recovery)) w2.
Proof.
  intros Ht Hd Hne Hq. split; [eapply quiet_waiting; [exact Hq|by eapply took_waiting]|]. destruct Ht as (Hcalls & _), Hq as [Hc _].
  eexists _, []. split; [by rewrite Hc, Hcalls|done].
Qed.

Lemma running_failure active event w w1 w2 (e : Message) :
  took active event w w1 → (∀ p, deliver (turn_of active) event p = p) → event ≠ NextCancelled → quiet w1 w2 →
  round_spec active w (Err e) w2.
Proof.
  intros Ht Hd Hne Hq. split; [eapply quiet_in_step; [exact Hq|by eapply took_waiting]|]. destruct Ht as (Hcalls & _), Hq as [Hc _].
  eexists _, []. split; [by rewrite Hc, Hcalls|done].
Qed.

Lemma cancel_with_round active event message w w1 w2 (r : result Message Round) w' :
  took active event w w1 → event ≠ NextCancelled → waiting active w2 → calls (sw_world w2) = calls (sw_world w1) →
  cancel_with message active w2 = (r, w') → round_spec active w r w'.
Proof.
  intros (Hcalls & _) Hne Hw Hc Hr. unfold cancel_with in Hr. destruct (session_cancel active w2) as [q w3] eqn:Eq.
  apply (cancel_spec _ _ _ _ Hw) in Eq as ((e & ->) & Hin & _ & _ & id & Hcs). injection Hr as <- <-. split; [done|].
  eexists _, _. split; [rewrite Hcs, Hc, Hcalls, <- (assoc_L (++)); reflexivity|done].
Qed.

Lemma recovery_expired_round active recovery w w1 r w' :
  took active RemoteRecoveryExpired w w1 → recovery_expired active recovery w1 = (r, w') → round_spec active w r w'.
Proof.
  intros Ht Hr. unfold recovery_expired in Hr.
  apply bind_cases in Hr as [(e & _ & [=])|(s & w2 & [-> ->]%observe_Ok & Hr)].
  apply bind_cases in Hr as [(e & _ & [=])|(state & w2 & [-> ->]%observe_Ok & Hr)].
  pose proof (took_waiting _ _ _ _ Ht (λ p, eq_refl)) as Hw1. destruct (_ && _).
  - assert (∀ q w2, match recovery with
        | Some id => on_writer (emit "environment.connected" (remote_environment_event_payload "environment.connected" id))
        | None => done tt end w1 = (q, w2) → quiet w1 w2) as Hq
      by (intros q w2; destruct recovery; [apply emit_quiet|by intros [= _ <-]]).
    apply bind_cases in Hr as [(e & -> & Hb)|(u & w2 & Hb & Hr)]; apply Hq in Hb;
      [|injection Hr as <- <-]; by (eapply running_failure || eapply running_round).
  - destruct recovery as [id|]; [|injection Hr as <- <-; by eapply running_failure].
    apply bind_cases in Hr as [(e & -> & Hb)|(u & w2 & Hb & Hr)]; apply emit_quiet in Hb; [by eapply running_failure|].
    eapply cancel_with_round; [exact Ht|done|by eapply quiet_waiting|apply Hb|exact Hr].
Qed.

Lemma environment_changed_round active recovery state w w1 r w' :
  took active (RemoteEnvironment (Some state)) w w1 → environment_changed recovery state w1 = (r, w') → round_spec active w r w'.
Proof.
  intros Ht Hr. unfold environment_changed in Hr.
  apply bind_cases in Hr as [(e & _ & [=])|(s & w2 & [-> ->]%observe_Ok & Hr)].
  destruct (as_remote_environment _) as [id|]; [|injection Hr as <- <-; by eapply running_failure].
  destruct (update_remote_recovery id state recovery) as [kind recovery'].
  assert (∀ q w2, match kind with Some kind => on_writer (emit kind (remote_environment_event_payload kind id)) | None => done tt end w1
    = (q, w2) → quiet w1 w2) as Hq by (intros q w2; destruct kind; [apply emit_quiet|by intros [= _ <-]]).
  apply bind_cases in Hr as [(e & -> & Hb)|(u & w2 & Hb & Hr)]; apply Hq in Hb;
    [|injection Hr as <- <-]; by (eapply running_failure || eapply running_round).
Qed.

Lemma monitor_closed_round active w w1 (r : result Message Round) w' :
  took active (RemoteEnvironment None) w w1 →
  (_ ← on_session (λ s, (tt, without_monitor s)); _ ← on_writer (emit "turn.error" (obj [("message", Str CLOSED_MONITOR)]));
   cancel_with CLOSED_MONITOR active) w1 = (r, w') → round_spec active w r w'.
Proof.
  intros Ht Hr. apply bind_cases in Hr as [(e & _ & [=])|(u & w2 & Hs & Hr)]. injection Hs as _ <-.
  pose proof (took_waiting _ _ _ _ Ht (λ p, eq_refl)) as Hw1.
  assert (waiting active (mkSessionWorld (without_monitor (sw_session w1)) (sw_events w1) (sw_world w1))) as Hw2 by exact Hw1.
  apply bind_cases in Hr as [(e & -> & Hb)|(u' & w2 & Hb & Hr)]; apply emit_quiet in Hb.
  - split; [by eapply quiet_in_step, Hw2|]. destruct Ht as (Hcalls & _), Hb as [Hc _]. eexists _, []. split; [by rewrite Hc, <- Hcalls|done].
  - eapply cancel_with_round; [exact Ht|done|by eapply quiet_waiting|apply Hb|exact Hr].
Qed.

Lemma wait_round_spec active recovery w r w' :
  waiting active w → wait_round active recovery w = (r, w') → round_spec active w r w'.
Proof.
  intros Hw Hr. unfold wait_round in Hr.
  apply bind_cases in Hr as [(e & _ & Hq)|(u & w1 & [-> _]%require_client_Ok & Hr)].
  { destruct Hw as (_ & Hc & _). unfold require_client, observe, mbind, proc_bind in Hq. by rewrite Hc in Hq. }
  apply bind_cases in Hr as [(e & _ & Hn)|(event & w1 & Hn & Hr)];
    destruct (next_event_took _ _ _ _ _ Hw Hn) as (event' & [=] & Ht); subst event'.
  destruct event as [| |[state|]|[[request|n|skipped]|]].
  - apply bind_cases in Hr as [(e & _ & [=])|(x & w2 & Hi & Hr)]. unfold ignore in Hi. injection Hi as _ <-.
    destruct (on_writer _ w1) as [q w2] eqn:Eq. apply emit_quiet in Eq. cbn in Hr.
    apply cancel_spec in Hr as ((e & ->) & Hin & Hcl & _ & id & Hcs); [|eapply quiet_waiting; [exact Eq|by eapply took_waiting]].
    split; [done|]. destruct Ht as (Hcalls & _), Eq as [Hc _]. eexists _, _. split; [rewrite Hcs, Hc, Hcalls, <- (assoc_L (++)); reflexivity|eauto].
  - by eapply recovery_expired_round.
  - by eapply environment_changed_round.
  - by eapply monitor_closed_round.
  - by eapply server_request_round.
  - by eapply notification_round.
  - cbn [server_event] in Hr. by eapply ended_failure, Hr; [| | |apply emit_same_calls].
  - by eapply ended_failure, Hr; [| | |apply emit_same_calls].
Qed.

Lemma events_of_app a b : events_of (a ++ b) = events_of a ++ events_of b.
Proof. apply omap_app. Qed.

(** How waiting ends: with the turn, out of fuel, or with an error; [cs] are the
    calls made meanwhile. *)
Definition wait_spec (fuel : nat) (active : TurnCorrelation) (cs : list ClientCall) (r : result Message (option Turn)) (w' : SessionWorld W) : Prop :=
  match r with
  | Ok (Some turn) =>
      as_client (sw_session w') = true ∧ as_active_turn (sw_session w') = None
      ∧ ∃ es n error, events_of cs = es ++ [Server (Some (NotificationEvent n))] ∧ (NextCancelled ∉ es)
          ∧ about_turn active n = true ∧ sn_notice n = TurnCompleted true (tn_status turn) error ∧ tn_id turn = tc_turn_id active
  | Ok None => length (events_of cs) = fuel ∧ (NextCancelled ∉ events_of cs)
  | Err _ =>
      cs = [] ∨ ∃ es event, events_of cs = es ++ [event] ∧ (NextCancelled ∉ es)
        ∧ (event = NextCancelled → as_client (sw_session w') = false
            ∧ ∃ pre id, cs = pre ++ [Delivered NextCancelled; CallInterrupt id (tc_thread_id active) (tc_turn_id active); CallShutdown])
  end.

Lemma wait_loop_spec fuel active recovery w r w' :
  waiting active w → wait_loop fuel active recovery w = (r, w') →
  in_step w' ∧ ∃ cs, calls (sw_world w') = calls (sw_world w) ++ cs ∧ wait_spec fuel active cs r w'.
Proof.
  revert recovery w. induction fuel as [|n IH]; intros recovery w Hw Hr; cbn [wait_loop] in Hr.
  { injection Hr as <- <-. split; [apply Hw|]. exists []. rewrite app_nil_r. split; [done|]. split; [done|set_solver]. }
  apply bind_cases in Hr as [(e & -> & Hround)|(round & w1 & Hround & Hr)]; apply (wait_round_spec _ _ _ _ _ Hw) in Hround.
  { destruct Hround as (Hin & event & rest & Hcs & Hrest & Hcancel). split; [done|]. exists (Delivered event :: rest). split; [done|].
    right. exists [], event. split; [cbn; by fold (events_of rest); rewrite Hrest|]. split; [set_solver|].
    intros E. destruct (Hcancel E) as [Hcl (id & ->)]. split; [done|]. exists [], id. by rewrite E. }
  destruct round as [recovery'|turn].
  - destruct Hround as (Hw1 & event & rest & Hcs & Hne & Hrest). apply IH in Hr as (Hin & cs & Hcs' & Hspec); [|done]. split; [done|].
    exists (Delivered event :: rest ++ cs). rewrite Hcs', Hcs, <- (assoc_L (++)). split; [done|].
    assert (events_of (Delivered event :: rest ++ cs) = event :: events_of cs) as E
      by (cbn; fold (events_of (rest ++ cs)); by rewrite events_of_app, Hrest).
    unfold wait_spec in *. rewrite E. destruct r as [[turn|]|e].
    + destruct Hspec as (Hc & Ha & es & m & error & Hes & Hno & Hrest'). split_and!; [done|done|]. exists (event :: es), m, error.
      rewrite Hes. split; [done|]. split; [set_solver|done].
    + destruct Hspec as [Hlen Hno]. split; [cbn; by rewrite Hlen|set_solver].
    + destruct Hspec as [->|(es & ev & Hes & Hno & Hcancel)].
      * right. exists [], event. split; [done|]. split; [set_solver|done].
      * right. exists (event :: es), ev. rewrite Hes. split; [done|]. split; [set_solver|]. intros Eev. destruct (Hcancel Eev) as [Hcl (pre & id & ->)].
        split; [done|]. exists (Delivered event :: rest ++ pre), id. cbn. by rewrite (assoc_L (++)).
  - injection Hr as <- <-. destruct Hround as (Hin & Hc & Ha & m & error & Hcs & Hab & Hn & Hid). split; [done|]. eexists. split; [exact Hcs|].
    split_and!; [done|done|]. exists [], m, error. split; [done|]. split; [set_solver|done].
Qed.

Lemma wait_for_completion_spec fuel w r w' :
  in_step w → as_client (sw_session w) = true → session_wait_for_completion fuel w = (r, w') →
  in_step w' ∧ ∃ cs, calls (sw_world w') = calls (sw_world w) ++ cs
    ∧ match as_active_turn (sw_session w) with
      | Some active => wait_spec fuel active cs r w'
      | None => cs = [] ∧ r = Err [Lit "session has no active turn"]
      end.
Proof.
  intros Hin Hc Hr. unfold session_wait_for_completion in Hr.
  apply bind_cases in Hr as [(e & _ & [=])|(s & w1 & [-> ->]%observe_Ok & Hr)].
  destruct (as_active_turn (sw_session w)) as [active|] eqn:Ha.
  2: { injection Hr as <- <-. split; [done|]. exists []. by rewrite app_nil_r. }
  apply bind_cases in Hr as [(e & _ & [=])|(active' & w1 & [[= ->] ->]%proc_lift_Ok & Hr)].
  apply bind_cases in Hr as [(e & _ & [=])|(state & w1 & [-> ->]%observe_Ok & Hr)].
  apply bind_cases in Hr as [(e & -> & Hb)|(recovery & w1 & Hb & Hr)].
  - assert (quiet w w') as Hq.
    { destruct (as_remote_environment _); [|by injection Hb as _ <-]. destruct (current_state _); [by injection Hb as _ <-|].
      apply bind_cases in Hb as [(e' & _ & Hb)|(u & w2 & Hb & [=])]. by apply emit_quiet in Hb. }
    split; [by eapply quiet_in_step|]. exists []. rewrite app_nil_r. split; [apply Hq|]. by left.
  - assert (quiet w w1) as Hq.
    { destruct (as_remote_environment _); [|by injection Hb as _ <-]. destruct (current_state _); [by injection Hb as _ <-|].
      apply bind_cases in Hb as [(e' & [=] & _)|(u & w2 & Hb & Hd)]. injection Hd as _ <-. by apply emit_quiet in Hb. }
    apply wait_loop_spec in Hr as (Hin' & cs & Hcs & Hspec); [|eapply quiet_waiting; [exact Hq|done]].
    split; [done|]. exists cs. split; [by rewrite Hcs; destruct Hq as [-> _]|done].
Qed.

(** The wait of a closed session makes no call. *)
Lemma wait_closed fuel w r w' :
  as_client (sw_session w) = false → session_wait_for_completion fuel w = (r, w') → quiet w w'.
Proof.
  intros Hc Hr. unfold session_wait_for_completion in Hr.
  apply bind_cases in Hr as [(e & _ & [=])|(s & w1 & [-> ->]%observe_Ok & Hr)].
  apply bind_cases in Hr as [(e & _ & [= _ <-])|(active & w1 & [_ ->]%proc_lift_Ok & Hr)]; [done|].
  apply bind_cases in Hr as [(e & _ & [=])|(state & w1 & [-> ->]%observe_Ok & Hr)].
  assert (∀ q w1, match as_remote_environment (sw_session w), current_state (sw_world w) with
    | Some id, Disconnected =>
        let '(kind, recovery) := update_remote_recovery id Disconnected None in
        _ ← match kind with Some kind => on_writer (emit kind (remote_environment_event_payload kind id)) | None => done tt end;
        done recovery
    | _, _ => done None
    end w = (q, w1) → quiet w w1) as Hq.
  { intros q w1. destruct (as_remote_environment _); [|by intros [= _ <-]]. destruct (current_state _); [by intros [= _ <-]|]. cbn.
    intros [(e' & _ & Hb)|(u & w2 & Hb & [= _ <-])]%bind_cases; by apply emit_quiet in Hb. }
  apply bind_cases in Hr as [(e & _ & Hb)|(recovery & w1 & Hb & Hr)]; apply Hq in Hb as Hquiet; [done|].
  etrans; [exact Hquiet|]. destruct fuel as [|n]; cbn [wait_loop] in Hr; [by injection Hr as _ <-|].
  apply bind_cases in Hr as [(e & _ & Hb')|(round & w2 & Hb' & _)]; unfold wait_round in Hb';
    (apply bind_cases in Hb' as [(e' & Herr & Hcl)|(u & w3 & [_ Hcl]%require_client_Ok & _)];
      [|destruct Hquiet as [_ Hs]; rewrite Hs in Hcl; congruence]).
  - by apply require_client_same in Hcl as ->.
  - done.
Qed.

Lemma wait_stays fuel : keeps_to stays (session_wait_for_completion (W := W) fuel).
Proof.
  intros w r w' Hr Hin. destruct (as_client (sw_session w)) eqn:Hc.
  - by apply (wait_for_completion_spec _ _ _ _ Hin Hc) in Hr as [Hr _].
  - apply (wait_closed _ _ _ _ Hc) in Hr. by eapply quiet_in_step.
Qed.
End protocol.

(** ** Sessions *)

(** What the worker asks of a session. *)
Inductive SessionOp : Type :=
| AskStatus (thread turn : string)
| StartText (prompt : string) (policy : SandboxPolicy) (mode : ModeKind) (stage : FactoryTurnStage)
| StartReview (instructions parent_turn key : string)
| WaitTurn (fuel : nat)
| ShutDown.

Section sessions.
Context {W : Type} `{AppServerTrace W} `{CoordinatorText, SessionText}.

(** An operation, whatever it returns. *)
Definition session_op (w : SessionWorld W) (op : SessionOp) : SessionWorld W :=
  match op with
  | AskStatus thread turn => (session_persisted_turn_status thread turn w).2
  | StartText prompt policy mode stage => (session_start_text_turn prompt policy mode stage w).2
  | StartReview instructions parent_turn key => (session_start_review instructions parent_turn key w).2
  | WaitTurn fuel => (session_wait_for_completion fuel w).2
  | ShutDown => (session_shutdown w).2
  end.

Lemma keeps_snd {S E A : Type} (R : relation S) (p : proc S E A) s : keeps_to R p → R s (p s).2.
Proof. intros Hp. destruct (p s) as [r s'] eqn:Eq. by apply Hp in Eq. Qed.

Lemma session_op_stays before op w : in_step before w → in_step before (session_op w op).
Proof.
  change (stays before w (session_op w op)). destruct op; cbn; apply keeps_snd;
    auto using persisted_turn_status_stays, start_text_turn_stays, start_review_stays, wait_stays, shutdown_stays.
Qed.

Lemma session_ops_stay before ops w : in_step before w → in_step before (foldl session_op w ops).
Proof. revert w. induction ops as [|op ops IH]; intros w Hin; [done|]. cbn. by apply IH, session_op_stays. Qed.

(** A session that started runs with what was asked for. *)
Definition as_requested (r : RequestedThread) (s : AutonomousSession) : Prop :=
  as_cwd s = rt_cwd r ∧ as_roots s = rt_roots r ∧ as_model_provider s = rt_model_provider r
  ∧ ∀ model, rt_model r = Some model → as_model s = model.

Lemma require_exact_Ok e r u :
  require_exact e r = Ok u →
  is_blank (et_thread_id e) = false ∧ et_cwd e = rt_cwd r ∧ et_roots e = rt_roots r ∧ et_model_provider e = rt_model_provider r
  ∧ (∀ model, rt_model r = Some model → et_model e = model) ∧ et_never_approve e = true ∧ et_full_access e = true.
Proof.
  unfold require_exact. intros He. inv_tx.
  repeat match goal with E : negb _ = false |- _ => apply negb_false_iff in E end.
  repeat match goal with E : bool_decide _ = true |- _ => apply bool_decide_eq_true in E end.
  split_and!; try done. intros model E. rewrite E in *. inv_tx.
  repeat match goal with E : negb _ = false |- _ => apply negb_false_iff in E end. by eapply bool_decide_eq_true.
Qed.

Lemma session_start_Ok a parent (w : W) s c w1 :
  session_start a parent w = (Ok (s, c), w1) →
  as_client s = true ∧ as_request_ids s = 1 ∧ as_active_turn s = None ∧ as_requested (sg_requested a) s.
Proof.
  unfold session_start. intros [(e & [=] & _)|(u & w2 & _ & Hr)]%bind_cases.
  apply bind_cases in Hr as [(e & [=] & _)|(effective & w3 & _ & Hr)]. destruct effective as [effective|e].
  2: { by apply bind_cases in Hr as [(e' & [=] & _)|(u' & w4 & _ & [=])]. }
  destruct (require_exact effective (requested_thread a)) as [[]|e] eqn:Ee.
  2: { by apply bind_cases in Hr as [(e' & [=] & _)|(u' & w4 & _ & [=])]. }
  injection Hr as <- <- <-. apply require_exact_Ok in Ee as (_ & Hcwd & Hroots & Hprovider & Hmodel & _). by split_and!.
Qed.

(** C29: However a session is started, whatever sequence of operations the worker
    then asks of it (and whatever the app-server answers or delivers), the calls
    it makes are a run of the protocol: request ids only grow, a turn is started
    and history read only while none is active, only the active turn is
    interrupted, events are taken only while a turn is active, a server request
    is answered before anything else is done, and nothing follows the shutdown.
    The session has the working directory, the roots, the provider and the model
    that were requested. *)
Theorem session_follows_protocol a parent (w : W) s c w1 (events : AttemptEventWriter) (ops : list SessionOp) :
  session_start a parent w = (Ok (s, c), w1) →
  as_requested (sg_requested a) s
  ∧ ∃ cs p, calls (sw_world (foldl session_op (mkSessionWorld s events w1) ops)) = calls w1 ++ cs
      ∧ protocol_run started cs = Some p ∧ pr_asked p = None
      ∧ pr_open p = as_client (sw_session (foldl session_op (mkSessionWorld s events w1) ops)).
Proof.
  intros (Hc & Hi & Ha & Hreq)%session_start_Ok. split; [done|].
  destruct (session_ops_stay (calls w1) ops (mkSessionWorld s events w1)) as (p & (cs & Hcs & Hrun) & Hask & _ & Hopen & _).
  - exists started. cbn. rewrite Hc, Hi, Ha. split_and!; try done. exists []. by rewrite app_nil_r.
  - eauto 10.
Qed.

(** A wait on a started session ends as it should, whatever happened before:
    it returns a turn only when the app-server reported that exactly the active
    turn completed, having taken no cancellation before, and leaves the session
    open and idle; it fails at the first event that ends the turn otherwise; a
    cancellation makes it interrupt exactly the active turn and close the client;
    without a turn it fails at once; and it takes no more events than it is given
    rounds. *)
Theorem wait_returns_turn a parent (w : W) s c w1 events ops fuel r w' :
  session_start a parent w = (Ok (s, c), w1) →
  as_client (sw_session (foldl session_op (mkSessionWorld s events w1) ops)) = true →
  session_wait_for_completion fuel (foldl session_op (mkSessionWorld s events w1) ops) = (r, w') →
  ∃ cs, calls (sw_world w') = calls (sw_world (foldl session_op (mkSessionWorld s events w1) ops)) ++ cs
    ∧ match as_active_turn (sw_session (foldl session_op (mkSessionWorld s events w1) ops)) with
      | Some active => wait_spec fuel active cs r w'
      | None => cs = [] ∧ r = Err [Lit "session has no active turn"]
      end.
Proof.
  intros (Hc & Hi & Ha & _)%session_start_Ok Hopen Hwait.
  eapply (wait_for_completion_spec (calls w1)) in Hwait as [_ Hspec]; [exact Hspec| |done].
  apply session_ops_stay. exists started. cbn. rewrite Hc, Hi, Ha. split_and!; try done. exists []. by rewrite app_nil_r.
Qed.
End sessions.

(** ** A concrete app-server *)

(** It grants what is requested, starts turn [u] on thread [t], and delivers a
    script; after the script the stream is closed. *)
Record ScriptedServer : Type := mkScriptedServer {
  sc_calls : list ClientCall;
  sc_script : list NextEvent;
}.

Definition called (c : ClientCall) (w : ScriptedServer) : ScriptedServer := mkScriptedServer (sc_calls w ++ [c]) (sc_script w).

Definition granted (p : ThreadParams) (thread : string) : EffectiveThread :=
  mkEffectiveThread thread (default "" (tp_cwd p)) (default [] (tp_roots p)) (default "m" (tp_model p))
    (default "" (tp_model_provider p)) (tp_never_approve p) (tp_full_access p).

#[local] Instance scripted_server : AppServer ScriptedServer := {|
  start_client w := (Ok tt, w);
  thread_start id p w := (Ok (granted (tst_params p) "t"), w);
  thread_resume id p w := (Ok (granted (trp_params p) (trp_thread_id p)), w);
  thread_read id thread w := (Ok (thread, []), called (CallThreadRead id) w);
  turn_start id p w := (Ok "u", called (CallTurnStart id (Some (tsp_thread_id p, "u"))) w);
  review_start id p w := (Ok (rsp_thread_id p, "v"), called (CallTurnStart id (Some (rsp_thread_id p, "v"))) w);
  turn_interrupt id thread turn w := (Ok tt, called (CallInterrupt id thread turn) w);
  resolve_server_request id v w := (Ok tt, called (CallAnswer id) w);
  reject_server_request id code reason w := (Ok tt, called (CallAnswer id) w);
  client_shutdown w := (Ok tt, called CallShutdown w);
  current_state w := Connected;
  select_next _ _ w :=
    match sc_script w with
    | [] => (Server None, called (Delivered (Server None)) w)
    | event :: rest => (event, mkScriptedServer (sc_calls w ++ [Delivered event]) rest)
    end;
|}.

#[local] Instance discarding_sink : EventSink ScriptedServer := {| append_event _ _ w := (Ok tt, w) |}.

#[local] Instance scripted_trace : AppServerTrace ScriptedServer.
Proof.
  refine {| calls := sc_calls |}; cbn; try (by intros; simplify_eq).
  intros _ _ [cs [|event rest]] next w' [= <- <-]; done.
Defined.

#[local] Instance scripted_coordinator_text : CoordinatorText := {| coordinator_text _ := "error" |}.
#[local] Instance scripted_session_text : SessionText := {| turn_error_text m := m; turn_status_debug _ := "failed" |}.

Definition demo_requested : RequestedThread := mkRequestedThread "/w" ["/w"] (Some "m") "p" None false None.
Definition demo_start : StartArgs := mkStartArgs demo_requested (Some ("local", false)).

(** An approval is asked for while the turn runs; then the turn completes. *)
Definition demo_script : list NextEvent :=
  [Server (Some (ServerRequestEvent (CommandExecutionRequestApproval "r1" "t")));
   Server (Some (NotificationEvent (mkNotification "t" "u" (TurnStarted (Str "inProgress")))));
   Server (Some (NotificationEvent (mkNotification "t" "u" (TurnCompleted true (Str "completed") None))))].

Definition demo_server : ScriptedServer := mkScriptedServer [] demo_script.

Definition demo_session : AutonomousSession :=
  mkAutonomousSession true 1 (mkThreadCorrelation "1" "t") "/w" ["/w"] "m" "p"
    (Some [mkTurnEnvironment "local" "/w" ["/w"]]) None None None.

Definition demo_writer : AttemptEventWriter := new_writer (mkAttemptFence "a" "o" 1).

Definition demo_ops : list SessionOp := [StartText "go" (sandbox_policy KindPlan) ModePlan TurnPlan; WaitTurn 5; ShutDown].

Lemma session_follows_protocol_witness :
  session_start demo_start NewThread demo_server = (Ok (demo_session, mkThreadCorrelation "1" "t"), demo_server)
  ∧ as_requested demo_requested demo_session
  ∧ ∃ cs p, calls (sw_world (foldl session_op (mkSessionWorld demo_session demo_writer demo_server) demo_ops)) = calls demo_server ++ cs
      ∧ protocol_run started cs = Some p ∧ pr_asked p = None
      ∧ pr_open p = as_client (sw_session (foldl session_op (mkSessionWorld demo_session demo_writer demo_server) demo_ops)).
Proof.
  split; [vm_compute; reflexivity|].
  apply (session_follows_protocol demo_start NewThread demo_server demo_session (mkThreadCorrelation "1" "t") demo_server demo_writer demo_ops).
  vm_compute; reflexivity.
Defined.

(** The calls of that session, in order. *)
Example demo_calls :
  calls (sw_world (foldl session_op (mkSessionWorld demo_session demo_writer demo_server) demo_ops))
  = [CallTurnStart 2 (Some ("t", "u"));
     Delivered (Server (Some (ServerRequestEvent (CommandExecutionRequestApproval "r1" "t")))); CallAnswer "r1";
     Delivered (Server (Some (NotificationEvent (mkNotification "t" "u" (TurnStarted (Str "inProgress"))))));
     Delivered (Server (Some (NotificationEvent (mkNotification "t" "u" (TurnCompleted true (Str "completed") None)))));
     CallShutdown].
Proof. vm_compute. reflexivity. Qed.

Definition demo_running : list SessionOp := [StartText "go" (sandbox_policy KindPlan) ModePlan TurnPlan].

Definition demo_turn : TurnCorrelation := mkTurnCorrelation "2" "t" "u".

Lemma wait_returns_turn_witness :
  ∃ w' cs, session_wait_for_completion 5 (foldl session_op (mkSessionWorld demo_session demo_writer demo_server) demo_running)
      = (Ok (Some (mkTurn "u" (Str "completed"))), w')
    ∧ calls (sw_world w') = calls (sw_world (foldl session_op (mkSessionWorld demo_session demo_writer demo_server) demo_running)) ++ cs
    ∧ wait_spec 5 demo_turn cs (Ok (Some (mkTurn "u" (Str "completed")))) w'.
Proof.
  eexists.
  match goal with |- ∃ cs, _ = (_, ?w') ∧ _ =>
    destruct (wait_returns_turn demo_start NewThread demo_server demo_session (mkThreadCorrelation "1" "t") demo_server demo_writer
                demo_running 5 (Ok (Some (mkTurn "u" (Str "completed")))) w') as (cs & Hcs & Hspec)
  end; [vm_compute; reflexivity|reflexivity|vm_compute; reflexivity|].
  exists cs. split; [vm_compute; reflexivity|]. split; [exact Hcs|exact Hspec].
Defined.
