(* ===== verification/Git.v ===== *)
(** * Git

    The free functions of [coordinator/src/workspace.rs]: the [git] processes it
    runs and what it reads from them, the cache of a repository and the check of a
    linked worktree.  [git] and the file system are interfaces whose calls may
    fail and may change the world in any way. *)

From S2P Require Import Prelude Domain Serde ProviderTools Executor ResponseStream Artifacts.
From Stdlib Require Import ZArith Ascii String.
From stdpp Require Import base gmap strings list option.

#[local] Open Scope string_scope.
#[local] Open Scope list_scope.

(** ** Texts and paths of the operating system

    What the code uses of [std] on the bytes it gets from processes and files:
    [String::from_utf8_lossy], [str::lines] and [str::split], and of
    [std::path::Path] on Unix the components, names and extensions. *)

(** ** UTF-8 *)

(** The ranges of the bytes that must follow a leading byte; [None] when it
    leads no character. *)
Definition following (b : nat) : option (list (nat * nat)) :=
  let tail := (128, 191)%nat in
  (if b <? 128 then Some []
   else if b <? 194 then None
   else if b <? 224 then Some [tail]
   else if b =? 224 then Some [(160, 191); tail]
   else if b =? 237 then Some [(128, 159); tail]
   else if b <? 240 then Some [tail; tail]
   else if b =? 240 then Some [(144, 191); tail; tail]
   else if b <? 244 then Some [tail; tail; tail]
   else if b =? 244 then Some [(128, 143); tail; tail]
   else None)%nat.

(** The bytes that follow, how many match and whether all do. *)
Fixpoint matching (ranges : list (nat * nat)) (l : list ascii) : nat * bool :=
  match ranges with
  | [] => (0%nat, true)
  | (lo, hi) :: rest =>
      match l with
      | c :: l' => if ((lo <=? nat_of_ascii c) && (nat_of_ascii c <=? hi))%nat
                   then let '(n, ok) := matching rest l' in (S n, ok) else (0%nat, false)
      | [] => (0%nat, false)
      end
  end.

(** U+FFFD. *)
Definition REPLACEMENT : list ascii := [ascii_of_nat 239; ascii_of_nat 191; ascii_of_nat 189].

(** Every maximal ill-formed sequence is replaced. *)
Fixpoint lossy (fuel : nat) (l : list ascii) : list ascii :=
  match fuel, l with
  | S n, c :: r =>
      match following (nat_of_ascii c) with
      | None => REPLACEMENT ++ lossy n r
      | Some ranges =>
          let '(k, ok) := matching ranges r in
          (if ok then c :: take k r else REPLACEMENT) ++ lossy n (drop k r)
      end
  | _, _ => []
  end.

Definition from_utf8_lossy (s : string) : string :=
  string_of_list_ascii (lossy (String.length s) (list_ascii_of_string s)).

(** [OsStr::to_str]. *)
Fixpoint well_formed (fuel : nat) (l : list ascii) : bool :=
  match fuel, l with
  | S n, c :: r =>
      match following (nat_of_ascii c) with
      | None => false
      | Some ranges => let '(k, ok) := matching ranges r in ok && well_formed n (drop k r)
      end
  | _, [] => true
  | O, _ :: _ => false
  end.

Definition valid_utf8 (s : string) : bool := well_formed (String.length s) (list_ascii_of_string s).

(** A well-formed text is kept byte for byte. *)
Lemma matching_take ranges l k : matching ranges l = (k, true) → k = length ranges ∧ (k ≤ length l)%nat.
Proof.
  revert l k. induction ranges as [|[lo hi] rest IH]; intros l k; cbn; [intros [= <-]; lia|].
  destruct l as [|c l]; [done|]. destruct (_ && _)%bool; [|done]. destruct (matching rest l) as [n ok] eqn:E.
  intros [= <- ->]. apply IH in E as [-> ?]. cbn. lia.
Qed.

Lemma lossy_well_formed fuel l : (length l ≤ fuel)%nat → well_formed fuel l = true → lossy fuel l = l.
Proof.
  revert l. induction fuel as [|n IH]; intros [|c r] Hl; cbn in *; try done; try lia.
  destruct (following _) as [ranges|]; [|done]. destruct (matching ranges r) as [k ok] eqn:E.
  intros [-> Hw]%andb_prop. apply matching_take in E as [_ Hk]. cbn. f_equal. rewrite IH; [apply take_drop| |done].
  rewrite length_drop. lia.
Qed.

Lemma from_utf8_lossy_id s : valid_utf8 s = true → from_utf8_lossy s = s.
Proof.
  intros Hw. unfold from_utf8_lossy. rewrite lossy_well_formed; [apply string_of_list_ascii_of_string| |done].
  clear. induction s as [|c s IH]; cbn; lia.
Qed.

(** ** Lines *)

Definition LF : ascii := ascii_of_nat 10.
Definition CR : ascii := ascii_of_nat 13.

(** [str::split] at a character: one piece more than there are separators. *)
Fixpoint split_char (sep : ascii) (s : string) : list string :=
  match s with
  | EmptyString => [EmptyString]
  | String c r =>
      if decide (c = sep) then EmptyString :: split_char sep r
      else match split_char sep r with
           | piece :: rest => String c piece :: rest
           | [] => [String c EmptyString]
           end
  end.

Fixpoint strip_last_char (c : ascii) (s : string) : option string :=
  match s with
  | EmptyString => None
  | String d EmptyString => if decide (d = c) then Some EmptyString else None
  | String d r => String d <$> strip_last_char c r
  end.

(** [str::lines]: a carriage return before a line feed belongs to the line's end,
    and what follows the last line feed is a line if it is not empty. *)
Fixpoint line_ends (pieces : list string) : list string :=
  match pieces with
  | [] => []
  | [piece] => if decide (piece = EmptyString) then [] else [piece]
  | piece :: rest => default piece (strip_last_char CR piece) :: line_ends rest
  end.

Definition str_lines (s : string) : list string := line_ends (split_char LF s).

(** [str::trim_end_matches] of one character. *)
Fixpoint trim_end_char (fuel : nat) (c : ascii) (s : string) : string :=
  match fuel with
  | O => s
  | S n => match strip_last_char c s with Some r => trim_end_char n c r | None => s end
  end.

Definition trim_end_matches (c : ascii) (s : string) : string := trim_end_char (String.length s) c s.

(** ** Paths *)

(** [Path::components]: whether the path is absolute, and the names; empty names
    and [.] are no components, except a [.] that a relative path begins with. *)
Definition named (piece : string) : bool :=
  negb (bool_decide (piece = EmptyString)) && negb (bool_decide (piece = ".")).

Definition path_components (p : string) : bool * list string :=
  match split_char "/"%char p with
  | EmptyString :: rest => (bool_decide (p ≠ EmptyString), filter (λ piece, named piece) rest)
  | "." :: rest => (false, "." :: filter (λ piece, named piece) rest)
  | pieces => (false, filter (λ piece, named piece) pieces)
  end.

(** [Path::eq]. *)
Definition path_eq (a b : string) : bool := bool_decide (path_components a = path_components b).

(** The pieces up to the last name, and that name. *)
Definition drop_unnamed (l : list string) : list string :=
  (fix go l := match l with piece :: r => if named piece then l else go r | [] => [] end) l.

Definition split_name (p : string) : list string * option string :=
  match drop_unnamed (rev (split_char "/"%char p)) with
  | name :: before => if decide (name = "..") then (rev before, None) else (rev before, Some name)
  | [] => ([], None)
  end.

(** [Path::file_name]. *)
Definition file_name (p : string) : option string := (split_name p).2.

(** The path with another last name. *)
Definition with_file_name (p name : string) : string :=
  match split_name p with
  | (before, Some _) => String.concat "/" (before ++ [name])
  | _ => path_join p name
  end.

(** The name before its last dot, unless the dot is its first character. *)
Definition file_stem (name : string) : string :=
  match rev (split_char "."%char name) with
  | _ :: before =>
      let stem := String.concat "." (rev before) in
      if decide (stem = EmptyString) then name else stem
  | [] => name
  end.

(** [Path::with_extension] for a name that is not empty. *)
Definition with_extension (p extension : string) : string :=
  match split_name p with
  | (before, Some name) => String.concat "/" (before ++ [file_stem name +:+ "." +:+ extension])
  | _ => p
  end.

Example paths_split :
  path_components "/a//b/./c/" = (true, ["a"; "b"; "c"]) ∧ path_eq "/a/b" "/a//b/" = true ∧ path_eq "/a/b" "a/b" = false
  ∧ with_extension "/r/J-1.index" "index.lock" = "/r/J-1.index.lock" ∧ with_extension "/m/index" "x" = "/m/index.x"
  ∧ with_file_name "/m/h.git" "h.git.partial" = "/m/h.git.partial" ∧ file_name "/m/.." = None
  ∧ with_extension "/m/.hidden" "x" = "/m/.hidden.x".
Proof. vm_compute. done. Qed.

Definition FACTORY_ARTIFACTS_PATHSPEC : string := ":(top).factory".
Definition FACTORY_ARTIFACTS_EXCLUSION : string := ":(top,exclude).factory".
Definition FACTORY_ARTIFACTS_IGNORE_PATTERN : string := "/.factory/".
Definition REMOTE_BRANCH_REFSPEC : string := "+refs/heads/*:refs/remotes/origin/*".
Definition REMOTE_TAG_REFSPEC : string := "+refs/tags/*:refs/tags/*".

(** [std::process::Output]: whether it succeeded, the status as it is displayed,
    and the bytes of both streams. *)
Record Output : Type := mkOutput {
  out_success : bool;
  out_status : string;
  out_stdout : string;
  out_stderr : string;
}.

(** [Command::new("git")] with a [GIT_INDEX_FILE] and arguments. *)
Class GitProcess (W : Type) : Type := {
  git : option string → list string → proc W IoError Output;
}.

(** What the code uses of the file system beside [ArtifactFiles]. *)
Class WorkspaceFiles (W : Type) : Type := {
  remove_dir_all : string → proc W IoError unit;
  copy_file : string → string → proc W IoError unit;
  canonicalize : string → proc W IoError string;
  path_exists : string → W → bool;
  is_dir : string → W → bool;
}.

Definition workspace_io (e : IoError) : CoordinatorError := Workspace [Display (io_text e)].

Definition path_text (path : string) : Result string :=
  if valid_utf8 path then Ok path
  else Err (Workspace [Lit "workspace path is not UTF-8: "; Display (from_utf8_lossy path)]).

(** What a process printed. *)
Definition printed (o : Output) : string := trim (from_utf8_lossy (out_stdout o)).

Definition complaint (o : Output) : list fmt_part :=
  [Lit " failed with "; Display (out_status o); Lit ": "; Display (trim (from_utf8_lossy (out_stderr o)))].

(** The refs a base reference may name, in the order they are tried. *)
Definition mirror_revision_candidates (base_ref : string) : list string :=
  if decide (base_ref = "HEAD") then ["refs/remotes/origin/HEAD"]
  else match Prelude.strip_prefix "refs/heads/" base_ref with
       | Some branch => ["refs/remotes/origin/" +:+ branch]
       | None =>
           match Prelude.strip_prefix "origin/" base_ref with
           | Some branch => ["refs/remotes/origin/" +:+ branch]
           | None =>
               if starts_with "refs/" base_ref then [base_ref]
               else ["refs/remotes/origin/" +:+ base_ref; "refs/tags/" +:+ base_ref; base_ref]
           end
       end.

Definition commit_of (revision : string) : string := revision +:+ "^{commit}".

Definition unresolved_base_ref (repository base_ref : string) : CoordinatorError :=
  Workspace [Lit "repository "; Display repository; Lit " does not resolve requested base ref "; Display base_ref;
             Lit " after update"].

(** The exclude file with the pattern, when it lacks it. *)
Definition excludes_factory (existing : string) : bool :=
  existsb (λ line, bool_decide (trim_end_matches CR line = FACTORY_ARTIFACTS_IGNORE_PATTERN))
    (str_lines (from_utf8_lossy existing)).

Definition exclude_factory (existing : string) : string :=
  (if decide (existing = EmptyString) then existing
   else match strip_last_char LF existing with Some _ => existing | None => existing +:+ String LF EmptyString end)
  +:+ FACTORY_ARTIFACTS_IGNORE_PATTERN +:+ String LF EmptyString.

Section git.
Context {W : Type} `{GitProcess W, ArtifactFiles W, WorkspaceFiles W}.

Abbreviation Ws := (proc W CoordinatorError).

(** ** Running it *)

Definition optional_git_output (args : list string) : Ws (option string) :=
  output ← map_err workspace_io (git None args);
  done (if out_success output then Some (printed output) else None).

Definition run_git (args : list string) : Ws string :=
  output ← map_err workspace_io (git None args);
  if out_success output then done (printed output)
  else fail (Workspace ([Lit "git "; Display (String.concat " " args)] ++ complaint output)).

Definition run_git_with_index (worktree index : string) (args : list string) : Ws string :=
  output ← map_err workspace_io (git (Some index) (["-C"; worktree] ++ args));
  if out_success output then done (printed output)
  else fail (Workspace ([Lit "git -C "; Display (from_utf8_lossy worktree); Lit " "; Display (String.concat " " args);
                         Lit " with temporary index"] ++ complaint output)).

Definition run_git_bytes_with_index (worktree index : string) (args : list string) : Ws string :=
  output ← map_err workspace_io (git (Some index) (["-C"; worktree] ++ args));
  if out_success output then done (out_stdout output)
  else fail (Workspace ([Lit "git "; Display (String.concat " " args)] ++ complaint output)).

(** The two ways the code names what [git] works on. *)
Definition in_worktree (worktree : string) (args : list string) : Ws string :=
  text ← proc_lift (path_text worktree);
  run_git (["-C"; text] ++ args).

Definition in_worktree_optional (worktree : string) (args : list string) : Ws (option string) :=
  text ← proc_lift (path_text worktree);
  optional_git_output (["-C"; text] ++ args).

Definition in_mirror (mirror : string) (args : list string) : Ws string :=
  text ← proc_lift (path_text mirror);
  run_git (["--git-dir"; text] ++ args).

Definition in_mirror_optional (mirror : string) (args : list string) : Ws (option string) :=
  text ← proc_lift (path_text mirror);
  optional_git_output (["--git-dir"; text] ++ args).

(** ** The cache of a repository *)

Definition bare_origin_matches (path repository : string) : Ws bool :=
  there ← observe (is_dir path);
  if negb there then done false
  else
    bare ← in_mirror_optional path ["rev-parse"; "--is-bare-repository"];
    if negb (bool_decide (bare = Some "true")) then done false
    else
      origin ← in_mirror_optional path ["config"; "--get"; "remote.origin.url"];
      done (bool_decide (origin = Some repository)).

Definition mirror_matches_repository (path repository : string) : Ws bool :=
  matches ← bare_origin_matches path repository;
  if negb matches then done false
  else
    mirror_mode ← in_mirror_optional path ["config"; "--bool"; "--get"; "remote.origin.mirror"];
    fetch ← in_mirror_optional path ["config"; "--get-all"; "remote.origin.fetch"];
    let fetch_lines := remove_dups (default [] (str_lines <$> fetch)) in
    first_ref ← in_mirror_optional path ["for-each-ref"; "--count=1"; "--format=%(objectname)"];
    done (negb (bool_decide (mirror_mode = Some "true")) && (length fetch_lines =? 2)%nat
          && bool_decide (REMOTE_BRANCH_REFSPEC ∈ fetch_lines) && bool_decide (REMOTE_TAG_REFSPEC ∈ fetch_lines)
          && match first_ref with Some value => negb (bool_decide (value = EmptyString)) | None => false end).

Definition legacy_mirror_matches_repository (path repository : string) : Ws bool :=
  matches ← bare_origin_matches path repository;
  if negb matches then done false
  else
    mirror_mode ← in_mirror_optional path ["config"; "--bool"; "--get"; "remote.origin.mirror"];
    fetch ← in_mirror_optional path ["config"; "--get-all"; "remote.origin.fetch"];
    done (bool_decide (mirror_mode = Some "true")
          || match fetch with Some value => bool_decide ("+refs/*:refs/*" ∈ str_lines value) | None => false end).

Definition configure_remote_tracking (path : string) : Ws unit :=
  _ ← in_mirror path ["config"; "--add"; "remote.origin.fetch"; REMOTE_BRANCH_REFSPEC];
  _ ← in_mirror path ["config"; "--add"; "remote.origin.fetch"; REMOTE_TAG_REFSPEC];
  done tt.

Definition refresh_remote (path : string) : Ws unit :=
  _ ← in_mirror path ["remote"; "update"; "--prune"];
  _ ← in_mirror_optional path ["remote"; "set-head"; "origin"; "--auto"];
  done tt.

Definition initialize_remote_cache (path repository : string) : Ws unit :=
  text ← proc_lift (path_text path);
  _ ← run_git ["init"; "--bare"; "--"; text];
  _ ← in_mirror path ["remote"; "add"; "origin"; repository];
  _ ← configure_remote_tracking path;
  refresh_remote path.

Definition migrate_legacy_mirror (path : string) : Ws unit :=
  _ ← in_mirror path ["config"; "--unset-all"; "remote.origin.fetch"];
  _ ← in_mirror_optional path ["config"; "--unset-all"; "remote.origin.mirror"];
  configure_remote_tracking path.

(** The first candidate that names a commit. *)
Fixpoint resolve_candidates (path : string) (candidates : list string) : Ws (option string) :=
  match candidates with
  | [] => done None
  | candidate :: rest =>
      revision ← in_mirror_optional path ["rev-parse"; "--verify"; commit_of candidate];
      match revision with
      | Some revision => done (Some revision)
      | None => resolve_candidates path rest
      end
  end.

Definition resolve_mirror_revision (path base_ref : string) : Ws (option string) :=
  resolve_candidates path (mirror_revision_candidates base_ref).

Definition ensure_mirror_has_revision (path revision : string) : Ws unit :=
  resolved ← in_mirror_optional path ["rev-parse"; "--verify"; commit_of revision];
  if decide (resolved = Some revision) then done tt
  else fail (Workspace [Lit "managed cache no longer contains recorded base revision "; Display revision]).

Definition sibling_path (path state : string) : Ws string :=
  name ← proc_lift (ok_or (file_name path)
           (Workspace [Lit "mirror path has no file name: "; Display (from_utf8_lossy path)]));
  uuid ← fresh_uuid;
  done (with_file_name path (name +:+ "." +:+ state +:+ "-" +:+ uuid)).

(** [fs::read], or nothing when there is no file. *)
Definition read_existing (path : string) : Ws (option string) :=
  contents ← attempt (read_file path);
  match contents with
  | Ok contents => done (Some contents)
  | Err e => if io_not_found e then done None else fail (workspace_io e)
  end.

Definition ensure_factory_artifacts_ignored (mirror : string) : Ws unit :=
  let info := path_join mirror "info" in
  _ ← map_err workspace_io (create_dir_all info);
  let exclude := path_join info "exclude" in
  existing ← read_existing exclude;
  let existing := default EmptyString existing in
  if excludes_factory existing then done tt
  else
    uuid ← fresh_uuid;
    let candidate := path_join info ("exclude.partial-" +:+ uuid) in
    _ ← map_err workspace_io (write_file candidate (exclude_factory existing));
    renamed ← attempt (rename_file candidate exclude);
    match renamed with
    | Ok _ => done tt
    | Err e => _ ← ignore (remove_file candidate); fail (workspace_io e)
    end.

(** ** Worktrees *)

Definition linked_worktree_matches (worktree mirror : string) : Ws bool :=
  there ← observe (is_dir worktree);
  if negb there then done false
  else
    canonical ← attempt (canonicalize worktree);
    match canonical with
    | Err e => if io_not_found e then done false else fail (workspace_io e)
    | Ok canonical_worktree =>
        if negb (path_eq canonical_worktree worktree) then done false
        else
          top_level ← in_worktree_optional worktree ["rev-parse"; "--path-format=absolute"; "--show-toplevel"];
          match top_level with
          | None => done false
          | Some top_level =>
              common_dir ← in_worktree_optional worktree ["rev-parse"; "--path-format=absolute"; "--git-common-dir"];
              match common_dir with
              | None => done false
              | Some common_dir =>
                  canonical_mirror ← map_err workspace_io (canonicalize mirror);
                  done (path_eq top_level canonical_worktree && path_eq common_dir canonical_mirror)
              end
          end
    end.

Definition reject_tracked_factory_artifacts (worktree : string) (base_revision : option string) : Ws unit :=
  tracked_index ← in_worktree worktree ["ls-files"; "--"; FACTORY_ARTIFACTS_PATHSPEC];
  tracked_head ← in_worktree worktree ["ls-tree"; "-r"; "--name-only"; "HEAD"; "--"; FACTORY_ARTIFACTS_PATHSPEC];
  tracked_base ← match base_revision with
                 | Some base_revision =>
                     in_worktree worktree ["ls-tree"; "-r"; "--name-only"; base_revision; "--"; FACTORY_ARTIFACTS_PATHSPEC]
                 | None => done EmptyString
                 end;
  if decide (tracked_index = EmptyString ∧ tracked_head = EmptyString ∧ tracked_base = EmptyString) then done tt
  else fail (InvalidInput
    [Lit "repository tracks the reserved top-level `.factory` path; Factory owns this path for job artifacts"]).

Definition generate_result_patch (worktree base_revision index : string) : Ws string :=
  _ ← reject_tracked_factory_artifacts worktree (Some base_revision);
  _ ← run_git_with_index worktree index ["read-tree"; base_revision];
  _ ← run_git_with_index worktree index ["add"; "-A"; "--"; "."];
  run_git_bytes_with_index worktree index
    ["diff"; "--cached"; "--binary"; "--full-index"; "--no-renames"; "--no-ext-diff"; "--no-textconv"; base_revision; "--"; ".";
     FACTORY_ARTIFACTS_EXCLUSION].
End git.
