(* ===== verification/Worktrees.v ===== *)
(** * Managed worktrees

    [WorkspaceManager] of [coordinator/src/workspace.rs], with the advisory locks
    of [store/workspace_locks.rs]: one Git worktree per job, linked to a cache of
    its repository; exports of results, restoration, and the snapshots that keep a
    detached review from changing what it reviews. *)

From S2P Require Import Prelude Domain Rows Store Environments Jobs Serde Executor EnvironmentWork ProviderTools ResponseStream Subagents Artifacts Git.
From Stdlib Require Import ZArith Ascii String.
From stdpp Require Import base gmap strings list option pretty.

#[local] Open Scope string_scope.
#[local] Open Scope list_scope.

Definition REVIEW_SNAPSHOT_METADATA : string := "snapshot.json".
Definition REVIEW_SNAPSHOT_INDEX : string := "baseline.index".
Definition REVIEW_SNAPSHOT_TREE_INDEX : string := "tree.index".

Definition WORKSPACE_EXECUTION_PREFIX : string := "software-factory:workspace-execution:".
Definition WORKSPACE_REPOSITORY_PREFIX : string := "software-factory:workspace-repository:".

(** [PgAdvisoryLock] by its key, released when its guard is dropped, and the gate
    of the process. *)
Class WorkspaceLocks (W : Type) : Type := {
  advisory_lock : string → proc W CoordinatorError unit;
  advisory_unlock : string → W → W;
  lock_gate : W → W;
  unlock_gate : W → W;
}.

(** ** Data *)

Record WorkspaceSnapshot : Type := mkWorkspaceSnapshot {
  snap_job_id : string;
  snap_snapshot_id : string;
}.

Record WorkspaceSnapshotMetadata : Type := mkSnapshotMetadata {
  sm_snapshot_id : string;
  sm_job_id : string;
  sm_root : string;
  sm_branch_name : string;
  sm_head : string;
  sm_tree : string;
  sm_index_tree : string;
  sm_had_index : bool;
  sm_mutation_detected : bool;
}.

Definition with_mutation_detected (m : WorkspaceSnapshotMetadata) : WorkspaceSnapshotMetadata :=
  mkSnapshotMetadata (sm_snapshot_id m) (sm_job_id m) (sm_root m) (sm_branch_name m) (sm_head m) (sm_tree m) (sm_index_tree m)
    (sm_had_index m) true.

Definition snapshot_fields : list string :=
  ["snapshotId"; "jobId"; "root"; "branchName"; "head"; "tree"; "indexTree"; "hadIndex"; "mutationDetected"].

#[export] Instance serde_snapshot : Serde WorkspaceSnapshotMetadata := {|
  ser m := Object [("snapshotId", Str (sm_snapshot_id m)); ("jobId", Str (sm_job_id m)); ("root", Str (sm_root m));
                   ("branchName", Str (sm_branch_name m)); ("head", Str (sm_head m)); ("tree", Str (sm_tree m));
                   ("indexTree", Str (sm_index_tree m)); ("hadIndex", Bool (sm_had_index m));
                   ("mutationDetected", Bool (sm_mutation_detected m))];
  de v := struct_fields snapshot_fields v ≫= λ fields,
    match fields with
    | [snapshot_id; job_id; root; branch_name; head; tree; index_tree; had_index; mutation_detected] =>
        snapshot_id ← field snapshot_id; job_id ← field job_id; root ← field root; branch_name ← field branch_name;
        head ← field head; tree ← field tree; index_tree ← field_or EmptyString index_tree; had_index ← field had_index;
        mutation_detected ← field_or false mutation_detected;
        Some (mkSnapshotMetadata snapshot_id job_id root branch_name head tree index_tree had_index mutation_detected)
    | _ => None
    end;
|}.

Record EnsureWorkspaceRequest : Type := mkEnsureWorkspaceRequest {
  ew_repository_id : string;
  ew_repository : string;
  ew_base_ref : string;
}.

Record WorkspaceResult : Type := mkWorkspaceResult {
  wres_job_id : string;
  wres_repository_id : string;
  wres_base_revision : string;
  wres_patch_sha256 : string;
  wres_patch : string;
}.

Record WorkspaceManager : Type := mkWorkspaceManager { wm_root : string }.

Definition new_workspace_manager (root : string) : Result WorkspaceManager :=
  if decide (root = EmptyString) then Err (InvalidInput [Lit "FACTORY_WORKSPACE_ROOT must not be empty"])
  else Ok (mkWorkspaceManager root).

(** [env] is the process environment, [temp_dir] the system's directory. *)
Definition workspace_manager_from_env (env : string → option string) (temp_dir : string) : Result WorkspaceManager :=
  new_workspace_manager (default (path_join temp_dir "software-factory/workspaces") (env "FACTORY_WORKSPACE_ROOT")).

Definition validate_request (r : EnsureWorkspaceRequest) : Result unit :=
  _ ← guard_err (is_blank (ew_repository_id r)) (InvalidInput [Lit "workspace repositoryId must not be empty"]);
  _ ← guard_err (is_blank (ew_repository r)) (InvalidInput [Lit "workspace repository must not be empty"]);
  guard_err (is_blank (ew_base_ref r)) (InvalidInput [Lit "workspace baseRef must not be empty"]).

Definition JobState_debug (s : JobState) : string :=
  match s with
  | JobQueued => "Queued"
  | JobRunning => "Running"
  | JobCancelling => "Cancelling"
  | JobSucceeded => "Succeeded"
  | JobFailed => "Failed"
  | JobCancelled => "Cancelled"
  end.

Definition EnvironmentStatus_debug (s : ExecutionEnvironmentStatus) : string :=
  match s with
  | EnvProvisioning => "Provisioning"
  | EnvReady => "Ready"
  | EnvReleasing => "Releasing"
  | EnvReleased => "Released"
  | EnvFailed => "Failed"
  end.

Section manager.
Context {W : Type} `{EnvironmentHost W, GitProcess W, ArtifactFiles W, WorkspaceFiles W, WorkspaceLocks W, JsonCodec, Sha256}.
Context (m : WorkspaceManager).

Abbreviation Ws := (proc W CoordinatorError).

(** A guard is dropped when its block ends, with whatever result. *)
Definition with_advisory_lock {A : Type} (key : string) (p : Ws A) : Ws A := λ w,
  match advisory_lock key w with
  | (Ok _, w1) => let '(r, w2) := p w1 in (r, advisory_unlock key w2)
  | (Err e, w1) => (Err e, w1)
  end.

Definition with_gate {A : Type} (p : Ws A) : Ws A := λ w,
  let '(r, w1) := p (lock_gate w) in (r, unlock_gate w1).

Definition workspace_execution_key (job_id : string) : string := WORKSPACE_EXECUTION_PREFIX +:+ job_id.
Definition workspace_repository_key (repository : string) : string := WORKSPACE_REPOSITORY_PREFIX +:+ repository.

(** ** Paths *)

Definition jobs_dir : string := path_join (wm_root m) "jobs".
Definition mirrors_dir : string := path_join (wm_root m) "mirrors".
Definition mirror_path (repository_id : string) : string := path_join mirrors_dir (sha256_hex repository_id +:+ ".git").
Definition review_snapshot_dir (job_id : string) : string := path_join (path_join (wm_root m) "review-snapshots") job_id.

Definition managed_repository_metadata_root (repository_id : string) : Result string :=
  if is_blank repository_id then Err (InvalidInput [Lit "workspace repositoryId must not be empty"])
  else path_text (mirror_path repository_id).

Definition managed_worktree_path (ws : WorkspaceRecord) : Ws string :=
  match wr_state ws with
  | WsActive =>
      jobs_root ← map_err workspace_io (canonicalize jobs_dir);
      let expected := path_join jobs_root (wr_job_id ws) in
      if path_eq (wr_root ws) expected then done expected
      else fail (Workspace [Lit "workspace for job "; Display (wr_job_id ws); Lit " is outside the managed jobs root"])
  | WsRemoved => fail (Workspace [Lit "workspace for job "; Display (wr_job_id ws); Lit " is not active"])
  end.

Definition git_index_path (worktree : string) : Ws string :=
  in_worktree worktree ["rev-parse"; "--path-format=absolute"; "--git-path"; "index"].

(** ** Pristine worktrees *)

Definition drift (ws : WorkspaceRecord) (head : string) (branch : option string) (status : string) : CoordinatorError :=
  let changes := String.concat ", " (take 20 (filter (λ entry, entry ≠ EmptyString) (split_char Ascii.zero status))) in
  Workspace [Lit "managed worktree for job "; Display (wr_job_id ws); Lit " drifted from revision "; Display (wr_revision ws);
             Lit " (HEAD "; Display head; Lit "; branch "; Display (default "detached" branch); Lit "; changes: ";
             Display (if decide (changes = EmptyString) then "none" else changes); Lit ")"].

Definition validate_pristine_unlocked (ws : WorkspaceRecord) (worktree : string) : Ws unit :=
  head ← in_worktree worktree ["rev-parse"; "HEAD"];
  branch ← in_worktree_optional worktree ["symbolic-ref"; "--short"; "HEAD"];
  status ← in_worktree worktree ["status"; "--porcelain=v1"; "-z"; "--untracked-files=all"; "--ignored=matching"];
  if decide (head = wr_revision ws ∧ branch = Some (wr_branch_name ws) ∧ status = EmptyString) then done tt
  else fail (drift ws head branch status).

Definition workspace_validate_pristine (ws : WorkspaceRecord) : Ws unit :=
  worktree ← managed_worktree_path ws;
  validate_pristine_unlocked ws worktree.

(** The cache the worktree is linked to, with the recorded revision. *)
Definition require_mirror (ws : WorkspaceRecord) : Ws string :=
  let mirror := mirror_path (wr_repository_id ws) in
  matches ← mirror_matches_repository mirror (wr_repository ws);
  if negb matches then
    fail (Workspace [Lit "managed mirror for job "; Display (wr_job_id ws); Lit " is unavailable or does not match ";
                     Display (wr_repository ws)])
  else _ ← ensure_mirror_has_revision mirror (wr_revision ws); done mirror.

Definition workspace_restore (ws : WorkspaceRecord) : Ws unit := with_gate (
  worktree ← managed_worktree_path ws;
  mirror ← require_mirror ws;
  linked ← linked_worktree_matches worktree mirror;
  if negb linked then
    fail (WorkspaceRebindRequired (wr_job_id ws)
      [Lit "managed linked worktree is missing or does not use its recorded Git common directory"])
  else
    _ ← in_worktree worktree ["checkout"; "--force"; "-B"; wr_branch_name ws; wr_revision ws];
    _ ← in_worktree worktree ["reset"; "--hard"; wr_revision ws];
    _ ← in_worktree worktree ["clean"; "-ffdx"];
    validate_pristine_unlocked ws worktree).

Definition remove_worktree (mirror worktree : string) : Ws string :=
  text ← proc_lift (path_text mirror);
  tree ← proc_lift (path_text worktree);
  run_git ["--git-dir"; text; "worktree"; "remove"; "--force"; tree].

Definition add_worktree (mirror branch_name worktree revision : string) : Ws string :=
  text ← proc_lift (path_text mirror);
  tree ← proc_lift (path_text worktree);
  run_git ["--git-dir"; text; "worktree"; "add"; "--force"; "-B"; branch_name; tree; revision].

Definition workspace_recreate (ws : WorkspaceRecord) : Ws unit := with_gate (
  worktree ← managed_worktree_path ws;
  mirror ← require_mirror ws;
  there ← observe (path_exists worktree);
  linked ← (if (there : bool) then linked_worktree_matches worktree mirror else done false);
  _ ← (if (linked : bool) then _ ← remove_worktree mirror worktree; done tt
       else
         there ← observe (path_exists worktree);
         when there (map_err workspace_io (remove_dir_all worktree)));
  _ ← in_mirror mirror ["worktree"; "prune"];
  _ ← add_worktree mirror (wr_branch_name ws) worktree (wr_revision ws);
  validate_pristine_unlocked ws worktree).

(** ** Review snapshots *)

Definition load_review_snapshot (ws : WorkspaceRecord) : Ws (option WorkspaceSnapshotMetadata) :=
  encoded ← read_existing (path_join (review_snapshot_dir (wr_job_id ws)) REVIEW_SNAPSHOT_METADATA);
  match encoded with
  | None => done None
  | Some encoded =>
      match json_parse encoded with
      | Ok v => metadata ← proc_lift (ok_or (de v) Serialization); done (Some metadata)
      | Err _ => fail Serialization
      end
  end.

Definition write_review_snapshot_metadata (snapshot_dir : string) (metadata : WorkspaceSnapshotMetadata) : Ws unit :=
  let candidate := path_join snapshot_dir (REVIEW_SNAPSHOT_METADATA +:+ ".partial") in
  _ ← map_err workspace_io (write_file candidate (json_text (ser metadata)));
  map_err workspace_io (rename_file candidate (path_join snapshot_dir REVIEW_SNAPSHOT_METADATA)).

(** The copy of an index, or one read from [HEAD] when there is none. *)
Definition index_copy (worktree index copy : string) (had_index : bool) : Ws unit :=
  if had_index then map_err workspace_io (copy_file index copy)
  else _ ← run_git_with_index worktree copy ["read-tree"; "HEAD"]; done tt.

(** The worktree as the snapshot's metadata and index say. *)
Definition reinstate_snapshot (worktree current_index : string) (metadata : WorkspaceSnapshotMetadata) (baseline : option string) :
    Ws unit :=
  _ ← in_worktree worktree ["checkout"; "--force"; "-B"; sm_branch_name metadata; sm_head metadata];
  _ ← in_worktree worktree ["reset"; "--hard"; sm_head metadata];
  _ ← in_worktree worktree ["clean"; "-ffd"; "-e"; FACTORY_ARTIFACTS_IGNORE_PATTERN];
  _ ← in_worktree worktree ["read-tree"; "--reset"; "-u"; sm_tree metadata];
  match baseline with
  | Some bytes =>
      let candidate := with_extension current_index "factory-review-restore" in
      _ ← map_err workspace_io (write_file candidate bytes);
      map_err workspace_io (rename_file candidate current_index)
  | None =>
      there ← observe (path_exists current_index);
      when there (map_err workspace_io (remove_file current_index))
  end.

(** The tree of the index the snapshot was taken with. *)
Definition baseline_tree (worktree baseline_index : string) (metadata : WorkspaceSnapshotMetadata) : Ws string :=
  if decide (sm_index_tree metadata = EmptyString) then
    if sm_had_index metadata then run_git_with_index worktree baseline_index ["write-tree"]
    else in_worktree worktree ["rev-parse"; sm_head metadata +:+ "^{tree}"]
  else done (sm_index_tree metadata).

(** The worktree as it is now, beside the index of the snapshot. *)
Record Observed : Type := mkObserved {
  ob_index : string;
  ob_had_index : bool;
  ob_index_tree : string;
  ob_tree : string;
  ob_head : option string;
  ob_branch : option string;
  ob_baseline : option string;
  ob_baseline_tree : string;
}.

Definition observe_worktree (worktree snapshot_dir : string) (metadata : WorkspaceSnapshotMetadata) : Ws Observed :=
  let baseline_index := path_join snapshot_dir REVIEW_SNAPSHOT_INDEX in
  current_index ← git_index_path worktree;
  let comparison_index := path_join snapshot_dir "comparison.index" in
  current_had_index ← observe (is_regular_file current_index);
  _ ← index_copy worktree current_index comparison_index current_had_index;
  current_index_tree ← run_git_with_index worktree comparison_index ["write-tree"];
  _ ← run_git_with_index worktree comparison_index ["add"; "-A"; "--"; "."];
  current_tree ← run_git_with_index worktree comparison_index ["write-tree"];
  current_head ← in_worktree_optional worktree ["rev-parse"; "HEAD"];
  current_branch ← in_worktree_optional worktree ["symbolic-ref"; "--short"; "HEAD"];
  baseline ← (if sm_had_index metadata then bytes ← map_err workspace_io (read_file baseline_index); done (Some bytes)
              else done None);
  baseline_index_tree ← baseline_tree worktree baseline_index metadata;
  done (mkObserved current_index current_had_index current_index_tree current_tree current_head current_branch baseline
          baseline_index_tree).

Definition review_changed (metadata : WorkspaceSnapshotMetadata) (now : Observed) : bool :=
  sm_mutation_detected metadata || negb (bool_decide (ob_tree now = sm_tree metadata))
  || negb (bool_decide (ob_head now = Some (sm_head metadata)))
  || negb (bool_decide (ob_branch now = Some (sm_branch_name metadata)))
  || negb (eqb (sm_had_index metadata) (ob_had_index now))
  || negb (bool_decide (ob_index_tree now = ob_baseline_tree now)).

Definition restore_review_snapshot_metadata (ws : WorkspaceRecord) (metadata : WorkspaceSnapshotMetadata) : Ws bool :=
  if negb (bool_decide (sm_job_id metadata = wr_job_id ws) && bool_decide (sm_root metadata = wr_root ws)
           && bool_decide (sm_branch_name metadata = wr_branch_name ws)) then
    fail (Workspace [Lit "review snapshot metadata does not match workspace "; Display (wr_job_id ws)])
  else
    worktree ← managed_worktree_path ws;
    let snapshot_dir := review_snapshot_dir (wr_job_id ws) in
    kept ← observe (is_regular_file (path_join snapshot_dir REVIEW_SNAPSHOT_INDEX));
    if sm_had_index metadata && negb kept then
      fail (Workspace [Lit "review snapshot index is missing for job "; Display (wr_job_id ws)])
    else
      now ← observe_worktree worktree snapshot_dir metadata;
      if review_changed metadata now then
        _ ← when (negb (sm_mutation_detected metadata))
              (write_review_snapshot_metadata snapshot_dir (with_mutation_detected metadata));
        _ ← reinstate_snapshot worktree (ob_index now) metadata (ob_baseline now);
        done true
      else
        _ ← map_err workspace_io (remove_dir_all snapshot_dir);
        done false.

Definition workspace_restore_review_snapshot (ws : WorkspaceRecord) (snapshot : WorkspaceSnapshot) : Ws bool :=
  if negb (bool_decide (snap_job_id snapshot = wr_job_id ws)) then
    fail (Workspace [Lit "review snapshot belongs to job "; Display (snap_job_id snapshot); Lit ", not "; Display (wr_job_id ws)])
  else
    found ← load_review_snapshot ws;
    metadata ← proc_lift (ok_or found
      (Workspace [Lit "review snapshot for job "; Display (wr_job_id ws); Lit " was not found"]));
    if negb (bool_decide (sm_snapshot_id metadata = snap_snapshot_id snapshot)) then
      fail (Workspace [Lit "review snapshot identity changed for job "; Display (wr_job_id ws)])
    else restore_review_snapshot_metadata ws metadata.

Definition workspace_recover_review_snapshot (ws : WorkspaceRecord) : Ws bool :=
  found ← load_review_snapshot ws;
  match found with
  | None => done false
  | Some metadata => restore_review_snapshot_metadata ws metadata
  end.

Definition workspace_acknowledge_review_mutation (ws : WorkspaceRecord) : Ws unit :=
  found ← load_review_snapshot ws;
  metadata ← proc_lift (ok_or found
    (Workspace [Lit "review mutation marker for job "; Display (wr_job_id ws); Lit " was not found"]));
  if negb (bool_decide (sm_job_id metadata = wr_job_id ws) && bool_decide (sm_root metadata = wr_root ws)
           && sm_mutation_detected metadata) then
    fail (Workspace [Lit "review mutation marker does not match workspace "; Display (wr_job_id ws)])
  else map_err workspace_io (remove_dir_all (review_snapshot_dir (wr_job_id ws))).

(** Two copies of the index: the one to restore and the one trees are written from. *)
Definition copy_baseline (worktree actual_index baseline_index tree_index : string) (had_index : bool) : Ws unit :=
  _ ← when had_index (map_err workspace_io (copy_file actual_index baseline_index));
  index_copy worktree actual_index tree_index had_index.

(** The index, the trees and the metadata of a snapshot. *)
Definition take_snapshot (ws : WorkspaceRecord) (worktree snapshot_dir snapshot_id : string) : Ws WorkspaceSnapshot :=
  actual_index ← git_index_path worktree;
  let baseline_index := path_join snapshot_dir REVIEW_SNAPSHOT_INDEX in
  let tree_index := path_join snapshot_dir REVIEW_SNAPSHOT_TREE_INDEX in
  had_index ← observe (is_regular_file actual_index);
  _ ← copy_baseline worktree actual_index baseline_index tree_index had_index;
  index_tree ← run_git_with_index worktree tree_index ["write-tree"];
  _ ← run_git_with_index worktree tree_index ["add"; "-A"; "--"; "."];
  branch_name ← in_worktree worktree ["symbolic-ref"; "--short"; "HEAD"];
  head ← in_worktree worktree ["rev-parse"; "HEAD"];
  tree ← run_git_with_index worktree tree_index ["write-tree"];
  _ ← write_review_snapshot_metadata snapshot_dir
        (mkSnapshotMetadata snapshot_id (wr_job_id ws) (wr_root ws) branch_name head tree index_tree had_index false);
  done (mkWorkspaceSnapshot (wr_job_id ws) snapshot_id).

Definition workspace_capture_review_snapshot (ws : WorkspaceRecord) : Ws WorkspaceSnapshot :=
  recovered ← workspace_recover_review_snapshot ws;
  if (recovered : bool) then
    fail (Workspace [Lit "review mutation recovery for job "; Display (wr_job_id ws); Lit " has not been acknowledged"])
  else
    worktree ← managed_worktree_path ws;
    _ ← reject_tracked_factory_artifacts worktree (Some (wr_base_revision ws));
    snapshot_id ← fresh_uuid;
    let snapshot_dir := review_snapshot_dir (wr_job_id ws) in
    there ← observe (path_exists snapshot_dir);
    _ ← when there (map_err workspace_io (remove_dir_all snapshot_dir));
    _ ← map_err workspace_io (create_dir_all snapshot_dir);
    take_snapshot ws worktree snapshot_dir snapshot_id.

(** ** Materialization *)

Definition workspace_load (job_id : string) : Ws WorkspaceRecord :=
  found ← store_call (λ _ _, load_workspace job_id);
  proc_lift (ok_or found (WorkspaceNotFound job_id)).

(** A cache that is there and is the repository's; an old mirror is migrated. *)
Definition usable_mirror (mirror repository : string) : Ws bool :=
  there ← observe (path_exists mirror);
  if negb there then done false
  else
    legacy ← legacy_mirror_matches_repository mirror repository;
    _ ← when legacy (migrate_legacy_mirror mirror);
    mirror_matches_repository mirror repository.

Definition ensure_mirror (repository_id repository base_ref : string) : Ws (string * string) :=
  let mirror := mirror_path repository_id in
  usable ← usable_mirror mirror repository;
  if (usable : bool) then
    _ ← refresh_remote mirror;
    _ ← ensure_factory_artifacts_ignored mirror;
    resolved ← resolve_mirror_revision mirror base_ref;
    revision ← proc_lift (ok_or resolved (unresolved_base_ref repository base_ref));
    done (mirror, revision)
  else
    there ← observe (path_exists mirror);
    _ ← when there (quarantine ← sibling_path mirror "invalid"; map_err workspace_io (rename_file mirror quarantine));
    candidate ← sibling_path mirror "partial";
    _ ← initialize_remote_cache candidate repository;
    matches ← mirror_matches_repository candidate repository;
    if negb matches then
      fail (Workspace [Lit "git initialization did not create a bare remote-tracking cache with the expected origin at ";
                       Display (from_utf8_lossy candidate)])
    else
      resolved ← resolve_mirror_revision candidate base_ref;
      revision ← proc_lift (ok_or resolved (unresolved_base_ref repository base_ref));
      _ ← ensure_factory_artifacts_ignored candidate;
      _ ← map_err workspace_io (rename_file candidate mirror);
      done (mirror, revision).

Definition same_binding (existing : WorkspaceRecord) (request : EnsureWorkspaceRequest) : bool :=
  bool_decide (wr_repository_id existing = ew_repository_id request) && bool_decide (wr_repository existing = ew_repository request)
  && bool_decide (wr_base_ref existing = ew_base_ref request).

(** The existing worktree, when it is still the one recorded. *)
Definition reuse_worktree (existing : WorkspaceRecord) : Ws (option WorkspaceRecord) :=
  there ← observe (is_dir (wr_root existing));
  match wr_state existing, there with
  | WsActive, true =>
      worktree ← managed_worktree_path existing;
      let mirror := mirror_path (wr_repository_id existing) in
      linked ← linked_worktree_matches worktree mirror;
      if (linked : bool) then
        _ ← ensure_factory_artifacts_ignored mirror;
        _ ← reject_tracked_factory_artifacts worktree (Some (wr_base_revision existing));
        done (Some existing)
      else done None
  | _, _ => done None
  end.

Definition materialize (job_id : string) (request : EnsureWorkspaceRequest) (existing : option WorkspaceRecord) : Ws WorkspaceRecord :=
  cache ← ensure_mirror (ew_repository_id request) (ew_repository request) (ew_base_ref request);
  let '(mirror, resolved_revision) := (cache : string * string) in
  let worktree := path_join jobs_dir job_id in
  revision ← match existing with
             | Some existing => _ ← ensure_mirror_has_revision mirror (wr_base_revision existing); done (wr_base_revision existing)
             | None => done resolved_revision
             end;
  _ ← in_mirror mirror ["worktree"; "prune"];
  there ← observe (path_exists worktree);
  _ ← when there (_ ← remove_worktree mirror worktree; done tt);
  let branch_name := "factory/" +:+ job_id in
  _ ← add_worktree mirror branch_name worktree revision;
  canonical_root ← map_err workspace_io (canonicalize worktree);
  rejected ← attempt (reject_tracked_factory_artifacts canonical_root None);
  match rejected with
  | Err error =>
      text ← proc_lift (path_text mirror);
      tree ← proc_lift (path_text canonical_root);
      _ ← ignore (run_git ["--git-dir"; text; "worktree"; "remove"; "--force"; tree]);
      fail error
  | Ok _ =>
      revision ← in_worktree canonical_root ["rev-parse"; "HEAD"];
      root ← proc_lift (path_text canonical_root);
      store_call (λ now _, put_workspace now
        (mkWorkspaceBinding job_id (ew_repository_id request) (ew_repository request) (ew_base_ref request) revision branch_name
           root revision))
  end.

Definition workspace_ensure (job_id : string) (request : EnsureWorkspaceRequest) : Ws WorkspaceRecord :=
  _ ← proc_lift (validate_request request);
  with_advisory_lock (workspace_execution_key job_id) (with_gate (
    _ ← store_call (λ _ _, load_job job_id);
    existing ← store_call (λ _ _, load_workspace job_id);
    reused ← match existing with
             | None => done None
             | Some existing =>
                 if negb (same_binding existing request) then
                   fail (InvalidInput [Lit "job "; Display job_id; Lit " is already bound to repository identity ";
                                       Display (wr_repository_id existing); Lit " at "; Display (wr_base_ref existing)])
                 else reuse_worktree existing
             end;
    match reused with
    | Some record => done record
    | None =>
        _ ← map_err workspace_io (create_dir_all mirrors_dir);
        _ ← map_err workspace_io (create_dir_all jobs_dir);
        with_advisory_lock (workspace_repository_key (ew_repository_id request)) (materialize job_id request existing)
    end)).

Definition workspace_refresh_revision (job_id : string) : Ws WorkspaceRecord :=
  with_advisory_lock (workspace_execution_key job_id) (with_gate (
    current ← workspace_load job_id;
    match wr_state current with
    | WsRemoved => fail (Workspace [Lit "workspace for job "; Display job_id; Lit " is not active"])
    | WsActive =>
        revision ← run_git ["-C"; wr_root current; "rev-parse"; "HEAD"];
        store_call (λ now _, put_workspace now
          (mkWorkspaceBinding job_id (wr_repository_id current) (wr_repository current) (wr_base_ref current)
             (wr_base_revision current) (wr_branch_name current) (wr_root current) revision))
    end)).

(** ** Results *)

Definition workspace_export_result (job_id : string) : Ws WorkspaceResult :=
  with_advisory_lock (workspace_execution_key job_id) (with_gate (
    job ← store_call (λ _ _, load_job job_id);
    if negb (bool_decide (job_state (dj_job job) = JobSucceeded)) then
      fail (InvalidInput [Lit "job "; Display job_id; Lit " is "; Lit (JobState_debug (job_state (dj_job job)));
                          Lit ", not succeeded"])
    else
      workspace ← workspace_load job_id;
      worktree ← managed_worktree_path workspace;
      _ ← reject_tracked_factory_artifacts worktree (Some (wr_base_revision workspace));
      let indexes := path_join (wm_root m) "result-indexes" in
      _ ← map_err workspace_io (create_dir_all indexes);
      uuid ← fresh_uuid;
      let index := path_join indexes (job_id +:+ "-" +:+ uuid +:+ ".index") in
      generated ← attempt (generate_result_patch worktree (wr_base_revision workspace) index);
      _ ← ignore (remove_file index);
      _ ← ignore (remove_file (with_extension index "index.lock"));
      patch ← proc_lift generated;
      done (mkWorkspaceResult job_id (wr_repository_id workspace) (wr_base_revision workspace) (sha256_hex patch) patch))).

(** ** Removal *)

Definition workspace_remove (job_id : string) : Ws WorkspaceRecord :=
  with_advisory_lock (workspace_execution_key job_id) (with_gate (
    current ← workspace_load job_id;
    match wr_state current with
    | WsRemoved => done current
    | WsActive =>
        found ← store_call (λ _ _, load_execution_environment job_id);
        _ ← match found with
            | Some environment =>
                if decide (ee_status environment = EnvReleased) then done tt
                else fail (InvalidInput [Lit "workspace for job "; Display job_id; Lit " cannot be removed while execution environment ";
                                         Display (ee_environment_id environment); Lit " generation ";
                                         DisplayZ (ee_generation environment); Lit " is ";
                                         Lit (EnvironmentStatus_debug (ee_status environment))])
            | None => done tt
            end;
        there ← observe (path_exists (wr_root current));
        _ ← when there (_ ← remove_worktree (mirror_path (wr_repository_id current)) (wr_root current); done tt);
        store_call (λ now _, mark_workspace_removed now job_id)
    end)).
End manager.
