(* ===== verification/WorktreeLaws.v ===== *)
(** * What Git does

    The documented behaviour of the commands the coordinator runs, on an abstract
    view of a checkout: the commit and branch of [HEAD], the files, and the index.
    Trees are maps from paths to contents; identifiers name commits and trees in a
    store of objects that only grows. *)

From S2P Require Import Prelude Domain Serde ProviderTools Executor Keeps EnvironmentWork ExecutorLaws ResponseStream Subagents Artifacts ArtifactsLaws Git Worktrees.
From Stdlib Require Import ZArith Ascii String.
From stdpp Require Import base gmap strings list option fin_maps pretty.

#[local] Open Scope string_scope.
#[local] Open Scope list_scope.

(** ** Checkouts *)

Abbreviation Tree := (gmap string string).

Record Checkout : Type := mkCheckout {
  ck_head : string;
  ck_branch : option string;
  ck_files : Tree;
}.

(** The files a commit of everything would have: tracked ones, and the others
    that the rules do not ignore. *)
Definition staged (ignored : Tree → string → bool) (tracked files : Tree) : Tree :=
  filter (λ kv, is_Some (tracked !! kv.1) ∨ ignored files kv.1 = false) files.

(** The files after a tree has been written over them: tracked files that are not
    in the tree go, files that are not tracked stay unless they are in the way. *)
Definition overlay (tree tracked files : Tree) : Tree := tree ∪ filter (λ kv, tracked !! kv.1 = None) files.

(** The artifacts of the job. *)
Definition factory_path (p : string) : bool := starts_with ".factory/" p.

(** What cleaning leaves. *)
Definition cleaned (ignored : Tree → string → bool) (tracked files : Tree) : Tree :=
  filter (λ kv, is_Some (tracked !! kv.1) ∨ ignored files kv.1 = true ∨ factory_path kv.1 = true) files.

(** A path in a directory. *)
Definition below (d q : string) : Prop := ∃ x, relative x ∧ q = path_join d x.

(** Commands that only look, or only work on the index they are given. *)
Definition reading (index : option string) (command : list string) : bool :=
  match command with
  | name :: rest =>
      if decide (name ∈ ["rev-parse"; "symbolic-ref"; "ls-files"; "ls-tree"; "diff"]) then true
      else bool_decide (is_Some index)
           && (bool_decide (command ∈ [["write-tree"]; ["add"; "-A"; "--"; "."]])
               || bool_decide (name = "read-tree" ∧ length rest = 1%nat))
  | [] => false
  end.

(** ** The laws *)

Class GitLaws (W : Type) `{GitProcess W, ArtifactFiles W, !FileLaws W, WorkspaceFiles W} : Type := {
  checkout_at : W → string → option Checkout;
  index_file : string → string;
  entries : string → Tree;
  commit_at : W → string → option Tree;
  tree_at : W → string → option Tree;
  ignored : Tree → string → bool;
  canonical : string → string;
  (* paths git writes without being told to, and among them those that make up checkouts and objects *)
  git_owned : string → Prop;
  git_state : string → Prop;
  git_state_owned q : git_state q → git_owned q;
  git_view (w w' : W) : Prop := checkout_at w' = checkout_at w ∧ commit_at w' = commit_at w ∧ tree_at w' = tree_at w;

  (* the file system *)
  write_view p c w r w' : write_file p c w = (r, w') → ¬ git_state p → git_view w w';
  rename_view a b w r w' : rename_file a b w = (r, w') → ¬ git_state a → ¬ git_state b → git_view w w';
  remove_view p w r w' : remove_file p w = (r, w') → ¬ git_state p → git_view w w';
  read_view p w r w' : read_file p w = (r, w') → git_view w w';
  create_dir_view d w r w' : create_dir_all d w = (r, w') → git_view w w';
  uuid_view w id w' : new_uuid w = (id, w') → git_view w w';
  copy_spec a b w r w' : copy_file a b w = (r, w') → ¬ git_state b →
    git_view w w' ∧ (∀ q, q ≠ b → file_at w' q = file_at w q)
    ∧ ∀ u, r = Ok u → a ≠ b → file_at w' b = file_at w a ∧ is_Some (file_at w a);
  remove_dir_spec d w r w' : remove_dir_all d w = (r, w') → (∀ q, below d q → ¬ git_state q) →
    git_view w w' ∧ (∀ q, ¬ below d q → file_at w' q = file_at w q)
    ∧ ∀ u, r = Ok u → ∀ q, below d q → file_at w' q = None;
  canonicalize_spec p w r w' : canonicalize p w = (r, w') →
    git_view w w' ∧ (∀ q, file_at w' q = file_at w q) ∧ ∀ c, r = Ok c → c = canonical p;
  is_file_spec q w : is_regular_file q w = bool_decide (is_Some (file_at w q));
  exists_spec q w : is_Some (file_at w q) → path_exists q w = true;

  (* every process *)
  git_files i args w r w' : git i args w = (r, w') → ∀ q, ¬ git_owned q → i ≠ Some q → file_at w' q = file_at w q;
  git_commits i args w r w' : git i args w = (r, w') → ∀ id t, commit_at w id = Some t → commit_at w' id = Some t;
  git_trees i args w r w' : git i args w = (r, w') → ∀ id t, tree_at w id = Some t → tree_at w' id = Some t;
  reading_keeps i wt command w r w' :
    git i (["-C"; wt] ++ command) w = (r, w') → reading i command = true →
    checkout_at w' = checkout_at w
    ∧ ∀ p, i ≠ Some (index_file p) → file_at w' (index_file p) = file_at w (index_file p);

  (* a command that succeeded *)
  tracked (w : W) (wt : string) : Tree := default ∅ (entries <$> file_at w (index_file wt));
  head_commit w wt c : checkout_at w wt = Some c → is_Some (commit_at w (ck_head c));
  rev_parse_head wt w o w' c : git None ["-C"; wt; "rev-parse"; "HEAD"] w = (Ok o, w') → out_success o = true →
    checkout_at w wt = Some c → printed o = ck_head c;
  symbolic_ref_head wt w o w' c : git None ["-C"; wt; "symbolic-ref"; "--short"; "HEAD"] w = (Ok o, w') → out_success o = true →
    checkout_at w wt = Some c → ck_branch c = Some (printed o);
  rev_parse_index wt w o w' :
    git None ["-C"; wt; "rev-parse"; "--path-format=absolute"; "--git-path"; "index"] w = (Ok o, w') → out_success o = true →
    printed o = index_file wt;
  read_tree_head wt i w o w' c t : git (Some i) ["-C"; wt; "read-tree"; "HEAD"] w = (Ok o, w') → out_success o = true →
    checkout_at w wt = Some c → commit_at w (ck_head c) = Some t → entries <$> file_at w' i = Some t;
  write_tree_spec wt i w o w' e : git (Some i) ["-C"; wt; "write-tree"] w = (Ok o, w') → out_success o = true →
    entries <$> file_at w i = Some e → tree_at w' (printed o) = Some e ∧ entries <$> file_at w' i = Some e ∧ printed o ≠ EmptyString;
  add_all_spec wt i w o w' c e : git (Some i) ["-C"; wt; "add"; "-A"; "--"; "."] w = (Ok o, w') → out_success o = true →
    checkout_at w wt = Some c → entries <$> file_at w i = Some e →
    entries <$> file_at w' i = Some (staged ignored e (ck_files c));
  checkout_force wt b r w o w' c t : git None ["-C"; wt; "checkout"; "--force"; "-B"; b; r] w = (Ok o, w') → out_success o = true →
    checkout_at w wt = Some c → commit_at w r = Some t →
    checkout_at w' wt = Some (mkCheckout r (Some b) (overlay t (tracked w wt) (ck_files c))) ∧ tracked w' wt = t;
  reset_hard wt r w o w' c t : git None ["-C"; wt; "reset"; "--hard"; r] w = (Ok o, w') → out_success o = true →
    checkout_at w wt = Some c → commit_at w r = Some t →
    checkout_at w' wt = Some (mkCheckout r (ck_branch c) (overlay t (tracked w wt) (ck_files c))) ∧ tracked w' wt = t;
  clean_force wt w o w' c : git None ["-C"; wt; "clean"; "-ffd"; "-e"; FACTORY_ARTIFACTS_IGNORE_PATTERN] w = (Ok o, w') →
    out_success o = true → checkout_at w wt = Some c →
    checkout_at w' wt = Some (mkCheckout (ck_head c) (ck_branch c) (cleaned ignored (tracked w wt) (ck_files c)))
    ∧ tracked w' wt = tracked w wt;
  read_tree_reset wt id w o w' c t : git None ["-C"; wt; "read-tree"; "--reset"; "-u"; id] w = (Ok o, w') → out_success o = true →
    checkout_at w wt = Some c → tree_at w id = Some t →
    checkout_at w' wt = Some (mkCheckout (ck_head c) (ck_branch c) (overlay t (tracked w wt) (ck_files c))) ∧ tracked w' wt = t;
}.

(** ** A concrete repository

    A small file system and a small Git, with one worktree, that behave as
    [GitLaws] says; an index file holds its entries line by line, and identifiers
    hold what they name.  The witnesses of the laws on snapshots run on it. *)

Record ToyWorld : Type := mkToyWorld {
  ty_files : gmap string string;
  ty_checkout : Checkout;
  ty_next : nat;
}.

Definition set_files (files : gmap string string) (w : ToyWorld) : ToyWorld := mkToyWorld files (ty_checkout w) (ty_next w).
Definition put_file (p c : string) (w : ToyWorld) : ToyWorld := set_files (<[p := c]> (ty_files w)) w.

Definition TOY_WORKTREE : string := "/r/jobs/J".
Definition TOY_INDEX : string := "/r/mirrors/h.git/worktrees/J/index".

(** ** Files *)

Definition toy_missing : IoError := mkIoError true "not found".

#[export] Instance toy_files : ArtifactFiles ToyWorld := {|
  create_dir_all _ w := (Ok tt, w);
  write_file p c w := (Ok tt, put_file p c w);
  rename_file a b w :=
    match ty_files w !! a with
    | Some c => (Ok tt, set_files (<[b := c]> (delete a (ty_files w))) w)
    | None => (Err toy_missing, w)
    end;
  remove_file p w :=
    match ty_files w !! p with
    | Some _ => (Ok tt, set_files (delete p (ty_files w)) w)
    | None => (Err toy_missing, w)
    end;
  read_file p w := match ty_files w !! p with Some c => (Ok c, w) | None => (Err toy_missing, w) end;
  is_regular_file p w := bool_decide (is_Some (ty_files w !! p));
  lock_file _ w := (Ok tt, w);
  new_uuid w := (pretty (ty_next w), mkToyWorld (ty_files w) (ty_checkout w) (S (ty_next w)));
|}.

#[export] Instance toy_file_laws : FileLaws ToyWorld.
Proof.
  refine {| file_at w q := ty_files w !! q |}; cbn.
  - by intros d w r w' [= _ <-].
  - intros p c w r w' [= <- <-]. cbn. split; [intros; by rewrite lookup_insert_ne|intros; by rewrite lookup_insert_eq].
  - intros a b w r w'. destruct (ty_files w !! a) eqn:E; intros [= <- <-] Hne; [|done]. cbn. rewrite lookup_insert_eq. split; [done|].
    intros q Ha Hb. by rewrite lookup_insert_ne, lookup_delete_ne.
  - intros p w r w'. destruct (ty_files w !! p) eqn:E; intros [= <- <-]; cbn; [|done].
    split; [intros; by rewrite lookup_delete_ne|by rewrite lookup_delete_eq].
  - intros p w r w'. destruct (ty_files w !! p) eqn:E; by intros [= <- <-].
  - by intros p w r w' [= _ <-].
  - by intros w id w' [= _ <-].
Defined.

(** What the paths in a directory begin with. *)
Definition front (d : string) : string :=
  match d with EmptyString => EmptyString | _ => if ends_with_slash d then d else d +:+ "/" end.

Definition belowb (d q : string) : bool :=
  match Prelude.strip_prefix (front d) q with Some (String "/" _) => false | Some _ => true | None => false end.

Lemma belowb_spec d q : belowb d q = true ↔ below d q.
Proof.
  assert (∀ x, relative x → path_join d x = front d +:+ x) as Hf.
  { intros x Hx. rewrite join_relative by done. unfold front. destruct d as [|c d]; [done|]. destruct (ends_with_slash _); [done|].
    by rewrite string_app_assoc. }
  unfold belowb. split.
  - destruct (Prelude.strip_prefix (front d) q) as [x|] eqn:E; [|done]. apply strip_prefix_spec in E as ->. intros Hx.
    assert (relative x) as Hr by (destruct x as [|[[] [] [] [] [] [] [] []] ?]; done). exists x. by rewrite Hf.
  - intros (x & Hx & ->). rewrite Hf by done. rewrite (proj2 (strip_prefix_spec (front d) _ x)) by done.
    destruct x as [|[[] [] [] [] [] [] [] []] ?]; done.
Qed.

#[export] Instance toy_workspace_files : WorkspaceFiles ToyWorld := {|
  remove_dir_all d w := (Ok tt, set_files (filter (λ kv, belowb d kv.1 = false) (ty_files w)) w);
  copy_file a b w := match ty_files w !! a with Some c => (Ok tt, put_file b c w) | None => (Err toy_missing, w) end;
  canonicalize p w := (Ok p, w);
  path_exists p w := bool_decide (is_Some (ty_files w !! p)) || bool_decide (p = TOY_WORKTREE);
  is_dir p _ := bool_decide (p = TOY_WORKTREE);
|}.

(** ** Git *)

(** An entry is a line [path=contents]. *)
Definition toy_entry (line : string) : option (string * string) :=
  match split_char "="%char line with [p; c] => Some (p, c) | _ => None end.

Definition toy_entries (bytes : string) : Tree := list_to_map (omap toy_entry (split_char LF bytes)).

Definition toy_bytes (t : Tree) : string :=
  String.concat (String LF EmptyString) ((λ pc, pc.1 +:+ "=" +:+ pc.2) <$> map_to_list t).

Definition toy_ignored (_ : Tree) (p : string) : bool := starts_with "build/" p.

Definition toy_tracked (w : ToyWorld) : Tree := default ∅ (toy_entries <$> ty_files w !! TOY_INDEX).

(** Commands that look; [None] is a failure. *)
Definition toy_look (command : list string) (w : ToyWorld) : option string :=
  if decide (command = ["rev-parse"; "HEAD"]) then Some (ck_head (ty_checkout w))
  else if decide (command = ["symbolic-ref"; "--short"; "HEAD"]) then ck_branch (ty_checkout w)
  else if decide (command = ["rev-parse"; "--path-format=absolute"; "--git-path"; "index"]) then Some TOY_INDEX
  else if decide (take 1 command = ["ls-files"] ∨ take 1 command = ["ls-tree"]) then Some EmptyString
  else None.

(** Commands on the index they are given. *)
Definition toy_index (i : string) (command : list string) (w : ToyWorld) : option (string * ToyWorld) :=
  if decide (command = ["read-tree"; "HEAD"]) then
    bytes ← Prelude.strip_prefix "C" (ck_head (ty_checkout w)); Some (EmptyString, put_file i bytes w)
  else if decide (command = ["write-tree"]) then
    bytes ← ty_files w !! i; Some ("T" +:+ bytes, w)
  else if decide (command = ["add"; "-A"; "--"; "."]) then
    bytes ← ty_files w !! i;
    let all := staged toy_ignored (toy_entries bytes) (ck_files (ty_checkout w)) in
    if decide (toy_entries (toy_bytes all) = all) then Some (EmptyString, put_file i (toy_bytes all) w) else None
  else None.

(** The worktree moved to a tree, its index with it. *)
Definition toy_move (head : string) (branch : option string) (bytes : string) (w : ToyWorld) : ToyWorld :=
  mkToyWorld (<[TOY_INDEX := bytes]> (ty_files w))
    (mkCheckout head branch (overlay (toy_entries bytes) (toy_tracked w) (ck_files (ty_checkout w)))) (ty_next w).

Definition toy_change (command : list string) (w : ToyWorld) : option ToyWorld :=
  let c := ty_checkout w in
  match command with
  | [x1; x2; x3; b; r] =>
      if decide ([x1; x2; x3] = ["checkout"; "--force"; "-B"]) then
        bytes ← Prelude.strip_prefix "C" r; Some (toy_move r (Some b) bytes w)
      else None
  | [x1; x2; r] =>
      if decide ([x1; x2] = ["reset"; "--hard"]) then
        bytes ← Prelude.strip_prefix "C" r; Some (toy_move r (ck_branch c) bytes w)
      else None
  | [x1; x2; x3; id] =>
      if decide ([x1; x2; x3; id] = ["clean"; "-ffd"; "-e"; FACTORY_ARTIFACTS_IGNORE_PATTERN]) then
        Some (mkToyWorld (ty_files w) (mkCheckout (ck_head c) (ck_branch c) (cleaned toy_ignored (toy_tracked w) (ck_files c))) (ty_next w))
      else if decide ([x1; x2; x3] = ["read-tree"; "--reset"; "-u"]) then
        bytes ← Prelude.strip_prefix "T" id; Some (toy_move (ck_head c) (ck_branch c) bytes w)
      else None
  | _ => None
  end.

Definition toy_run (i : option string) (command : list string) (w : ToyWorld) : option (string * ToyWorld) :=
  match toy_look command w with
  | Some text => Some (text, w)
  | None =>
      match i with
      | Some i => toy_index i command w
      | None => (λ w', (EmptyString, w')) <$> toy_change command w
      end
  end.

Definition toy_failure : Output := mkOutput false "exit status: 128" EmptyString "fatal".
Definition toy_success (text : string) : Output := mkOutput true "exit status: 0" text EmptyString.

(** A text that would not be read back is a failure. *)
#[export] Instance toy_git : GitProcess ToyWorld := {|
  git i args w :=
    match args with
    | c :: wt :: command =>
        if decide (c = "-C" ∧ wt = TOY_WORKTREE) then
          match toy_run i command w with
          | Some (text, w') => if decide (printed (toy_success text) = text) then (Ok (toy_success text), w') else (Ok toy_failure, w)
          | None => (Ok toy_failure, w)
          end
        else (Ok toy_failure, w)
    | _ => (Ok toy_failure, w)
    end;
|}.

Lemma toy_git_cases i args w r w' :
  git i args w = (r, w') →
  (r = Ok toy_failure ∧ w' = w)
  ∨ ∃ command text, args = ["-C"; TOY_WORKTREE] ++ command ∧ toy_run i command w = Some (text, w')
      ∧ r = Ok (toy_success text) ∧ printed (toy_success text) = text.
Proof.
  cbn. destruct args as [|c [|wt command]]; [intros [= <- <-]; by left..|].
  destruct (decide _) as [[-> ->]|]; [|intros [= <- <-]; by left]. destruct (toy_run i command w) as [[text w1]|] eqn:E; [|intros [= <- <-]; by left].
  destruct (decide _); intros [= <- <-]; [|by left]. right. by exists command, text.
Qed.

(** A command on the worktree that succeeded. *)
Lemma toy_git_Ok i wt command w o w' :
  git i (["-C"; wt] ++ command) w = (Ok o, w') → out_success o = true →
  wt = TOY_WORKTREE ∧ toy_run i command w = Some (printed o, w').
Proof.
  intros [[[= ->] _]|(command' & text & E & Hr & [= ->] & Hp)]%toy_git_cases Ho; [done|]. injection E as -> ->. by rewrite Hp.
Qed.

(** ** The laws *)

Definition toy_object (kind id : string) : option Tree := toy_entries <$> Prelude.strip_prefix kind id.

Lemma toy_object_Some kind id t : toy_object kind id = Some t ↔ ∃ bytes, id = kind +:+ bytes ∧ t = toy_entries bytes.
Proof.
  unfold toy_object. rewrite fmap_Some. setoid_rewrite strip_prefix_spec. done.
Qed.

Definition toy_checkout_at (w : ToyWorld) (p : string) : option Checkout :=
  if decide (p = TOY_WORKTREE) then
    (if starts_with "C" (ck_head (ty_checkout w)) then Some (ty_checkout w) else None)
  else None.

Lemma toy_checkout_Some w p c : toy_checkout_at w p = Some c → p = TOY_WORKTREE ∧ c = ty_checkout w ∧ ∃ bytes, ck_head c = "C" +:+ bytes.
Proof.
  unfold toy_checkout_at. destruct (decide _); [|done]. destruct (starts_with _ _) eqn:E; [|done]. intros [= <-]. split_and!; [done|done|].
  unfold starts_with in E. apply bool_decide_eq_true in E as [bytes Hb]. exists bytes. by apply strip_prefix_spec.
Qed.

Lemma toy_moved head branch bytes w :
  starts_with "C" head = true →
  toy_checkout_at (toy_move head branch bytes w) TOY_WORKTREE
    = Some (mkCheckout head branch (overlay (toy_entries bytes) (toy_tracked w) (ck_files (ty_checkout w))))
  ∧ toy_tracked (toy_move head branch bytes w) = toy_entries bytes.
Proof.
  intros Hh. unfold toy_checkout_at, toy_tracked, toy_move. cbn. rewrite Hh, lookup_insert_eq. by rewrite decide_True by done.
Qed.

Lemma starts_with_app p s : starts_with p (p +:+ s) = true.
Proof. unfold starts_with. rewrite (proj2 (strip_prefix_spec p (p +:+ s) s)) by done. done. Qed.

(** What a process may write. *)
Lemma toy_run_files i command w text w' :
  toy_run i command w = Some (text, w') → ∀ q, q ≠ TOY_INDEX → i ≠ Some q → ty_files w' !! q = ty_files w !! q.
Proof.
  unfold toy_run. destruct (toy_look command w); [by intros [= _ <-]|]. destruct i as [i|].
  - unfold toy_index. intros Hr q _ Hi. assert (i ≠ q) by congruence.
    repeat (destruct (decide _) in Hr); simplify_option_eq; cbn; try done; by rewrite lookup_insert_ne.
  - intros Hr q Hq _. apply fmap_Some in Hr as (w1 & Hr & [= _ <-]). unfold toy_change in Hr.
    repeat (case_match; try done); simplify_option_eq; cbn; try done; by rewrite lookup_insert_ne by congruence.
Qed.

(** Commands that read leave the checkout, and the index unless it is theirs. *)
Lemma toy_run_reading i command w text w' :
  toy_run i command w = Some (text, w') → reading i command = true →
  ty_checkout w' = ty_checkout w ∧ (i ≠ Some TOY_INDEX → ty_files w' !! TOY_INDEX = ty_files w !! TOY_INDEX).
Proof.
  unfold toy_run. destruct (toy_look command w); [by intros [= _ <-]|]. destruct i as [i|].
  - unfold toy_index. intros Hr _. repeat (destruct (decide _) in Hr); simplify_option_eq; cbn; try done;
      (split; [done|]; intros Hi; rewrite lookup_insert_ne; [done|congruence]).
  - intros Hr Hread. exfalso. apply fmap_Some in Hr as (w1 & Hr & _). unfold toy_change in Hr.
    destruct command as [|x1 [|x2 [|x3 [|x4 [|x5 [|]]]]]]; try discriminate; repeat (destruct (decide _) as [E|] in Hr);
      try discriminate; simplify_eq; vm_compute in Hread; discriminate.
Qed.

(** The commands, evaluated. *)
Lemma toy_run_checkout b r w :
  toy_run None ["checkout"; "--force"; "-B"; b; r] w
  = (λ w', (EmptyString, w')) <$> (bytes ← Prelude.strip_prefix "C" r; Some (toy_move r (Some b) bytes w)).
Proof. reflexivity. Qed.

Lemma toy_run_reset r w :
  toy_run None ["reset"; "--hard"; r] w
  = (λ w', (EmptyString, w')) <$> (bytes ← Prelude.strip_prefix "C" r; Some (toy_move r (ck_branch (ty_checkout w)) bytes w)).
Proof. reflexivity. Qed.

Lemma toy_run_read_tree id w :
  toy_run None ["read-tree"; "--reset"; "-u"; id] w
  = (λ w', (EmptyString, w')) <$>
      (bytes ← Prelude.strip_prefix "T" id; Some (toy_move (ck_head (ty_checkout w)) (ck_branch (ty_checkout w)) bytes w)).
Proof. reflexivity. Qed.

(** A move to an object, by a command that succeeded. *)
Lemma toy_moves kind id head branch w text w' t c :
  (λ w', (EmptyString, w')) <$> (bytes ← Prelude.strip_prefix kind id; Some (toy_move head branch bytes w)) = Some (text, w') →
  starts_with "C" head = true → toy_checkout_at w TOY_WORKTREE = Some c → toy_object kind id = Some t →
  toy_checkout_at w' TOY_WORKTREE = Some (mkCheckout head branch (overlay t (toy_tracked w) (ck_files c))) ∧ toy_tracked w' = t.
Proof.
  intros Hr Hh (_ & -> & _)%toy_checkout_Some (bytes & -> & ->)%toy_object_Some.
  rewrite (proj2 (strip_prefix_spec kind _ bytes)) in Hr by done. injection Hr as _ <-. by apply toy_moved.
Qed.

Lemma toy_object_starts id t : toy_object "C" id = Some t → starts_with "C" id = true.
Proof. intros (bytes & -> & _)%toy_object_Some. apply starts_with_app. Qed.

#[export] Instance toy_git_laws : GitLaws ToyWorld.
Proof.
  refine {|
    checkout_at := toy_checkout_at;
    index_file _ := TOY_INDEX;
    entries := toy_entries;
    commit_at _ := toy_object "C";
    tree_at _ := toy_object "T";
    ignored := toy_ignored;
    canonical p := p;
    git_owned q := q = TOY_INDEX;
    git_state _ := False;
  |}; cbn -[git toy_run toy_object].
  - done.
  - by intros p c w r w' [= _ <-].
  - intros a b w r w'. destruct (ty_files w !! a); by intros [= _ <-].
  - intros p w r w'. destruct (ty_files w !! p); by intros [= _ <-].
  - intros p w r w'. destruct (ty_files w !! p); by intros [= _ <-].
  - by intros d w r w' [= _ <-].
  - by intros w id w' [= _ <-].
  - intros a b w r w'. destruct (ty_files w !! a) as [c|] eqn:E; intros [= <- <-] _; (split; [done|]); cbn; [|done].
    split; [intros; by rewrite lookup_insert_ne|]. intros _ _ _. by rewrite lookup_insert_eq.
  - intros d w r w' [= <- <-] _. split; [done|]. cbn. split.
    + intros q Hq. rewrite map_lookup_filter. destruct (ty_files w !! q); cbn; [|done]. rewrite option_guard_True; [done|].
      apply not_true_is_false. by rewrite belowb_spec.
    + intros _ _ q Hq%belowb_spec. apply map_lookup_filter_None. right. cbn. intros c _. by rewrite Hq.
  - intros p w r w' [= <- <-]. split_and!; try done. by intros c [= ->].
  - done.
  - intros q w Hq. by rewrite bool_decide_true.
  - intros i args w r w' Hg q Hq Hi. apply toy_git_cases in Hg as [[_ ->]|(command & text & _ & Hr & _)]; [done|].
    by eapply toy_run_files.
  - done.
  - done.
  - intros i wt command w r w' Hg Hread. apply toy_git_cases in Hg as [[_ ->]|(command' & text & E & Hr & _)]; [done|].
    injection E as -> ->. destruct (toy_run_reading _ _ _ _ _ Hr Hread) as [Hc Hi]. split; [|by intros _].
    unfold toy_checkout_at. by rewrite Hc.
  - intros w wt c (-> & -> & bytes & Hb)%toy_checkout_Some. exists (toy_entries bytes). apply toy_object_Some. eauto.
  - intros wt w o w' c Hg Ho (-> & -> & _)%toy_checkout_Some. destruct (toy_git_Ok _ _ _ _ _ _ Hg Ho) as [_ Hr]. by injection Hr.
  - intros wt w o w' c Hg Ho (-> & -> & _)%toy_checkout_Some. destruct (toy_git_Ok _ _ _ _ _ _ Hg Ho) as [_ Hr].
    change (toy_run None ["symbolic-ref"; "--short"; "HEAD"] w) with
      (match ck_branch (ty_checkout w) with Some text => Some (text, w) | None => None end) in Hr.
    destruct (ck_branch (ty_checkout w)); by simplify_eq.
  - intros wt w o w' Hg Ho. destruct (toy_git_Ok _ _ _ _ _ _ Hg Ho) as [_ Hr]. by injection Hr.
  - intros wt i w o w' c t Hg Ho (-> & -> & _)%toy_checkout_Some (bytes & Hb & ->)%toy_object_Some.
    destruct (toy_git_Ok _ _ _ _ _ _ Hg Ho) as [_ Hr].
    change (toy_run (Some i) ["read-tree"; "HEAD"] w) with
      (bytes ← Prelude.strip_prefix "C" (ck_head (ty_checkout w)); Some (EmptyString, put_file i bytes w)) in Hr.
    rewrite (proj2 (strip_prefix_spec _ _ bytes)) in Hr by done. injection Hr as _ <-. cbn. by rewrite lookup_insert_eq.
  - intros wt i w o w' e Hg Ho He. destruct (toy_git_Ok _ _ _ _ _ _ Hg Ho) as [_ Hr].
    change (toy_run (Some i) ["write-tree"] w) with (bytes ← ty_files w !! i; Some ("T" +:+ bytes, w)) in Hr.
    destruct (ty_files w !! i) as [bytes|] eqn:Ei; [|done]. injection Hr as Hp <-. injection He as <-. rewrite <- Hp, Ei.
    split_and!; [|done|done]. apply toy_object_Some. eauto.
  - intros wt i w o w' c e Hg Ho (-> & -> & _)%toy_checkout_Some He. destruct (toy_git_Ok _ _ _ _ _ _ Hg Ho) as [_ Hr].
    change (toy_run (Some i) ["add"; "-A"; "--"; "."] w) with
      (bytes ← ty_files w !! i;
       let all := staged toy_ignored (toy_entries bytes) (ck_files (ty_checkout w)) in
       if decide (toy_entries (toy_bytes all) = all) then Some (EmptyString, put_file i (toy_bytes all) w) else None) in Hr.
    destruct (ty_files w !! i) as [bytes|] eqn:Ei; [|done]. cbn [mbind option_bind] in Hr. injection He as <-. cbv zeta in Hr.
    destruct (decide _) as [E|]; [|done]. injection Hr as _ <-. cbn. rewrite lookup_insert_eq. cbn. by rewrite E.
  - intros wt b r w o w' c t Hg Ho Hc Ht. destruct (toy_git_Ok _ _ _ _ _ _ Hg Ho) as [-> Hr]. rewrite toy_run_checkout in Hr.
    apply (toy_moves _ _ _ _ _ _ _ _ _ Hr (toy_object_starts _ _ Ht) Hc Ht).
  - intros wt r w o w' c t Hg Ho Hc Ht. destruct (toy_git_Ok _ _ _ _ _ _ Hg Ho) as [-> Hr]. rewrite toy_run_reset in Hr.
    destruct (toy_checkout_Some _ _ _ Hc) as (_ & E & _). rewrite <- E in Hr.
    apply (toy_moves _ _ _ _ _ _ _ _ _ Hr (toy_object_starts _ _ Ht) Hc Ht).
  - intros wt w o w' c Hg Ho Hc. destruct (toy_git_Ok _ _ _ _ _ _ Hg Ho) as [-> Hr]. injection Hr as _ <-.
    destruct (toy_checkout_Some _ _ _ Hc) as (_ & -> & bytes & Hb). split; [|done]. unfold toy_checkout_at. cbn. rewrite Hb.
    rewrite decide_True by done. by rewrite starts_with_app.
  - intros wt id w o w' c t Hg Ho Hc Ht. destruct (toy_git_Ok _ _ _ _ _ _ Hg Ho) as [-> Hr]. rewrite toy_run_read_tree in Hr.
    destruct (toy_checkout_Some _ _ _ Hc) as (_ & E & bytes & Hb). rewrite <- E in Hr.
    assert (starts_with "C" (ck_head c) = true) as Hh by (rewrite Hb; apply starts_with_app).
    apply (toy_moves _ _ _ _ _ _ _ _ _ Hr Hh Hc Ht).
Defined.

(** ** Metadata *)

(** A list of texts: every character after a [c], the end of a text an [e]. *)
Fixpoint toy_text (s rest : string) : string :=
  match s with
  | EmptyString => String "e" rest
  | String c s' => String "c" (String c (toy_text s' rest))
  end.

Definition toy_texts (l : list string) : string := foldr toy_text EmptyString l.

Fixpoint toy_read (acc : string) (s : string) : option (list string) :=
  match s with
  | EmptyString => Some []
  | String "e" r => cons (string_of_list_ascii (rev (list_ascii_of_string acc))) <$> toy_read EmptyString r
  | String _ (String c r) => toy_read (String c acc) r
  | String _ EmptyString => None
  end.

Definition toy_flag (b : bool) : string := if b then "t" else "f".

#[export] Instance toy_codec : JsonCodec := {|
  json_text v :=
    match de (A := WorkspaceSnapshotMetadata) v with
    | Some m => toy_texts [sm_snapshot_id m; sm_job_id m; sm_root m; sm_branch_name m; sm_head m; sm_tree m; sm_index_tree m;
                           toy_flag (sm_had_index m); toy_flag (sm_mutation_detected m)]
    | None => EmptyString
    end;
  json_parse s :=
    match toy_read EmptyString s with
    | Some [a; b; c; d; e; f; g; h; i] =>
        Ok (ser (mkSnapshotMetadata a b c d e f g (bool_decide (h = "t")) (bool_decide (i = "t"))))
    | _ => Err "toy"
    end;
|}.

Lemma toy_read_text s acc rest :
  toy_read acc (toy_text s rest) = cons (string_of_list_ascii (rev (list_ascii_of_string acc)) +:+ s) <$> toy_read EmptyString rest.
Proof.
  revert acc. induction s as [|c s IH]; intros acc; cbn [toy_text].
  - assert (∀ t : string, t +:+ "" = t) as E by (intros t; induction t as [|x t IH]; [done|]; change (String x t +:+ "") with (String x (t +:+ "")); by f_equal).
    by rewrite E.
  - change (toy_read acc (String "c" (String c (toy_text s rest)))) with (toy_read (String c acc) (toy_text s rest)). rewrite IH.
    assert (∀ l : list ascii, string_of_list_ascii (l ++ [c]) +:+ s = string_of_list_ascii l +:+ String c s) as E.
    { intros l. induction l as [|x l IHl]; [done|]. cbn [app string_of_list_ascii].
      change (String x (string_of_list_ascii (l ++ [c])) +:+ s) with (String x (string_of_list_ascii (l ++ [c]) +:+ s)). by rewrite IHl. }
    cbn [list_ascii_of_string rev]. by rewrite E.
Qed.

Lemma toy_texts_read l : toy_read EmptyString (toy_texts l) = Some l.
Proof.
  induction l as [|s l IH]; [done|]. change (toy_texts (s :: l)) with (toy_text s (toy_texts l)).
  rewrite toy_read_text. cbn [list_ascii_of_string rev string_of_list_ascii]. by rewrite IH.
Qed.

Lemma toy_round_trip (m : WorkspaceSnapshotMetadata) : json_parse (json_text (ser m)) = Ok (ser m).
Proof.
  destruct m as [a b c d e f g h i]. unfold json_parse, json_text, toy_codec.
  change (de (ser (mkSnapshotMetadata a b c d e f g h i))) with (Some (mkSnapshotMetadata a b c d e f g h i)). cbv iota beta.
  rewrite toy_texts_read. by destruct h, i.
Qed.

(** ** A worktree under review *)

Definition toy_manager : WorkspaceManager := mkWorkspaceManager "/r".

Definition toy_record : WorkspaceRecord :=
  mkWorkspaceRecord "J" "repo" "https://example.invalid/repo" "main" "Ca=1" "factory/J" TOY_WORKTREE "Ca=1" WsActive 0 0.

(** The commit has one file; the implementation changed it and added another. *)
Definition toy_before : ToyWorld :=
  mkToyWorld {[ TOY_INDEX := "a=1" ]}
    (mkCheckout "Ca=1" (Some "factory/J") {[ "a" := "2"; "b" := "new"; "build/x" := "o" ]}) 0.

(** A review that edits one file, removes the other, adds one and commits. *)
Definition toy_reviewer (w : ToyWorld) : ToyWorld :=
  mkToyWorld (<[TOY_INDEX := "a=9"]> (ty_files w))
    (mkCheckout "Ca=9" (Some "factory/J") {[ "a" := "9"; "junk" := "x"; "build/x" := "o" ]}) (ty_next w).
