(* ===== verification/SnapshotLaws.v ===== *)
(** * Review snapshots

    A detached review must not change what it reviews.  Whatever the review did
    to the worktree, restoring its snapshot brings back the commit, the branch,
    the index and every file of the snapshot; and once a change has been detected
    it is not forgotten, whichever call fails, until it is acknowledged. *)

From S2P Require Import Prelude Domain Serde Executor Keeps ExecutorLaws EnvironmentWork ProviderTools ResponseStream Subagents Artifacts ArtifactsLaws Git Worktrees WorktreeLaws.
From Stdlib Require Import ZArith Ascii String.
From stdpp Require Import base gmap strings list option fin_maps.

#[local] Open Scope string_scope.
#[local] Open Scope list_scope.

Section snapshots.
Context {W : Type} `{GitProcess W, ArtifactFiles W, !FileLaws W, WorkspaceFiles W, !GitLaws W, JsonCodec}.
Context (m : WorkspaceManager) (ws : WorkspaceRecord).
Implicit Types w : W.

(** ** Paths *)

Definition worktree_of : string := path_join (canonical (jobs_dir m)) (wr_job_id ws).
Definition index_of : string := index_file worktree_of.
Definition snapshot_dir_of : string := review_snapshot_dir m (wr_job_id ws).
Definition metadata_of : string := path_join snapshot_dir_of REVIEW_SNAPSHOT_METADATA.
Definition baseline_of : string := path_join snapshot_dir_of REVIEW_SNAPSHOT_INDEX.
Definition candidate_of : string := with_extension index_of "factory-review-restore".

(** The snapshots are apart from Git's files, and the index from the snapshots. *)
Record Layout : Prop := {
  snapshots_apart q : below snapshot_dir_of q → ¬ git_owned q;
  index_apart : ¬ below snapshot_dir_of index_of;
  index_no_state : ¬ git_state index_of;
  candidate_apart : ¬ below snapshot_dir_of candidate_of;
  candidate_no_state : ¬ git_state candidate_of;
  candidate_other : candidate_of ≠ index_of;
}.
Context (layout : Layout).

Lemma in_snapshots x : relative x → below snapshot_dir_of (path_join snapshot_dir_of x).
Proof. by exists x. Qed.

Lemma not_state q : below snapshot_dir_of q → ¬ git_state q.
Proof. intros Hq Hs. by eapply snapshots_apart, git_state_owned. Qed.

Lemma not_index q : below snapshot_dir_of q → q ≠ index_of.
Proof. intros Hq ->. by apply index_apart. Qed.

(** ** What stays *)

(** The worktree and its index. *)
Definition content (w w' : W) : Prop :=
  checkout_at w' worktree_of = checkout_at w worktree_of ∧ file_at w' index_of = file_at w index_of.

Definition grows (w w' : W) : Prop :=
  (∀ id t, commit_at w id = Some t → commit_at w' id = Some t) ∧ (∀ id t, tree_at w id = Some t → tree_at w' id = Some t).

(** Everything but one file of the snapshot. *)
Definition still (i : string) (w w' : W) : Prop :=
  content w w' ∧ grows w w' ∧ ∀ q, below snapshot_dir_of q → q ≠ i → file_at w' q = file_at w q.

#[local] Instance still_preorder i : PreOrder (still i).
Proof.
  split; [by intros w|]. intros w1 w2 w3 ([C1 C2] & [G1 G2] & F) ([C1' C2'] & [G1' G2'] & F').
  split_and!; [split; congruence|split; eauto|]. intros q Hq Hne. by rewrite F', F.
Qed.

Lemma view_still i w w' : git_view w w' → (∀ q, q = index_of ∨ below snapshot_dir_of q ∧ q ≠ i → file_at w' q = file_at w q) → still i w w'.
Proof.
  intros (C & E & T) F. split_and!; [|split; congruence|].
  - split; [by rewrite C|]. apply F. by left.
  - intros q Hq Hne. apply F. by right.
Qed.

(** The worktree, its index and the objects. *)
Definition steady (w w' : W) : Prop := content w w' ∧ grows w w'.

#[local] Instance steady_preorder : PreOrder steady.
Proof.
  split; [by intros w|]. intros w1 w2 w3 ([C1 C2] & G1 & G2) ([C1' C2'] & G1' & G2'). split; [split; congruence|split; eauto].
Qed.

Lemma still_steady i w w' : still i w w' → steady w w'.
Proof. by intros (C & G & _). Qed.

Lemma view_steady w w' : git_view w w' → file_at w' index_of = file_at w index_of → steady w w'.
Proof. intros (E1 & E2 & E3) Hi. split; [split; [by rewrite E1|done]|]. split; congruence. Qed.

(** A command that reads, in the worktree. *)
Lemma git_still i wt command w r w' :
  git None (["-C"; wt] ++ command) w = (r, w') → reading None command = true →
  still i w w' ∧ ∀ q, below snapshot_dir_of q → file_at w' q = file_at w q.
Proof.
  intros Hg Hr. destruct (reading_keeps _ _ _ _ _ _ Hg Hr) as [Hc Hi].
  assert (∀ q, below snapshot_dir_of q → file_at w' q = file_at w q) as Hf.
  { intros q Hq. eapply git_files; [exact Hg|by apply snapshots_apart|done]. }
  split; [|done]. split_and!; [split; [by rewrite Hc|by apply Hi]| |auto].
  split; [by eapply git_commits|by eapply git_trees].
Qed.

(** One that works on a file of the snapshot. *)
Lemma git_index_still i wt command w r w' :
  git (Some i) (["-C"; wt] ++ command) w = (r, w') → reading (Some i) command = true → below snapshot_dir_of i → still i w w'.
Proof.
  intros Hg Hr Hi. destruct (reading_keeps _ _ _ _ _ _ Hg Hr) as [Hc Hx]. split_and!.
  - split; [by rewrite Hc|]. apply Hx. intros [= ->]. by eapply not_index.
  - split; [by eapply git_commits|by eapply git_trees].
  - intros q Hq Hne. eapply git_files; [exact Hg|by apply snapshots_apart|congruence].
Qed.

(** What [run_git] and its variants do with an output. *)
Lemma run_git_ends (P : Output → W → Prop) (F : W → Prop) args w :
  ends (git None args) w (λ o w', F w' ∧ (out_success o = true → P o w')) F →
  ends (run_git args) w (λ text w', F w' ∧ ∃ o, text = printed o ∧ P o w') F.
Proof.
  intros Hg. apply ends_bind, ends_map_err. eapply ends_mono; [exact Hg| |done]. intros o w' [HF HP].
  destruct (out_success o); [apply ends_done; eauto|by apply ends_fail].
Qed.

Lemma optional_git_ends (P : Output → W → Prop) (F : W → Prop) args w :
  ends (git None args) w (λ o w', F w' ∧ (out_success o = true → P o w')) F →
  ends (optional_git_output args) w (λ text w', F w' ∧ ∀ t, text = Some t → ∃ o, t = printed o ∧ P o w') F.
Proof.
  intros Hg. apply ends_bind, ends_map_err. eapply ends_mono; [exact Hg| |done]. intros o w' [HF HP].
  apply ends_done. split; [done|]. destruct (out_success o); [|done]. intros t [= <-]. eauto.
Qed.

Lemma run_index_ends (P : Output → W → Prop) (F : W → Prop) wt i args w :
  ends (git (Some i) (["-C"; wt] ++ args)) w (λ o w', F w' ∧ (out_success o = true → P o w')) F →
  ends (run_git_with_index wt i args) w (λ text w', F w' ∧ ∃ o, text = printed o ∧ P o w') F.
Proof.
  intros Hg. apply ends_bind, ends_map_err. eapply ends_mono; [exact Hg| |done]. intros o w' [HF HP].
  destruct (out_success o); [apply ends_done; eauto|by apply ends_fail].
Qed.

(** A command that reads [HEAD]'s checkout, and what it prints. *)
Lemma in_worktree_reads i (P : Output → Prop) command w :
  reading None command = true →
  (∀ o w', git None (["-C"; worktree_of] ++ command) w = (Ok o, w') → out_success o = true → P o) →
  ends (in_worktree worktree_of command) w
    (λ text w', still i w w' ∧ (∀ q, below snapshot_dir_of q → file_at w' q = file_at w q) ∧ ∃ o, text = printed o ∧ P o) (still i w).
Proof.
  intros Hr HP. unfold in_worktree. apply ends_bind, ends_lift. unfold path_text. destruct (valid_utf8 worktree_of); [|done].
  eapply ends_mono; [apply (run_git_ends (λ o _, P o)
    (λ w', still i w w' ∧ ∀ q, below snapshot_dir_of q → file_at w' q = file_at w q))| |].
  - apply ends_intro. intros r w' Hg. pose proof (git_still i _ _ _ _ _ Hg Hr). destruct r as [o|e]; [|done]. eauto.
  - intros text w' [[Hs Hf] (o & -> & Ho)]. eauto.
  - by intros w' [Hs _].
Qed.

Lemma in_worktree_optional_reads i (P : Output → Prop) command w :
  reading None command = true →
  (∀ o w', git None (["-C"; worktree_of] ++ command) w = (Ok o, w') → out_success o = true → P o) →
  ends (in_worktree_optional worktree_of command) w
    (λ text w', still i w w' ∧ ∀ t, text = Some t → ∃ o, t = printed o ∧ P o) (still i w).
Proof.
  intros Hr HP. unfold in_worktree_optional. apply ends_bind, ends_lift. unfold path_text. destruct (valid_utf8 worktree_of); [|done].
  apply (optional_git_ends (λ o _, P o) (still i w)). apply ends_intro. intros r w' Hg.
  destruct (git_still i _ _ _ _ _ Hg Hr) as [Hs _]. destruct r as [o|e]; [|done]. eauto.
Qed.

(** The tree an index stands for; without one, that of [HEAD]. *)
Definition indexed (w : W) (c : Checkout) : Tree :=
  match file_at w index_of with
  | Some bytes => entries bytes
  | None => default ∅ (commit_at w (ck_head c))
  end.

Definition had_index (w : W) : bool := bool_decide (is_Some (file_at w index_of)).

Lemma index_copy_ends i w :
  below snapshot_dir_of i →
  ends (index_copy worktree_of index_of i (had_index w)) w
    (λ _ w', still i w w' ∧ ∀ c, checkout_at w worktree_of = Some c → entries <$> file_at w' i = Some (indexed w c)) (still i w).
Proof.
  intros Hi. unfold index_copy, had_index, indexed. destruct (file_at w index_of) as [bytes|] eqn:Ef.
  - rewrite bool_decide_true by done. apply ends_map_err, ends_intro. intros r w' Hc.
    apply copy_spec in Hc as (Hv & Hf & Hok); [|by apply not_state]. assert (still i w w') as Hs.
    { apply view_still; [done|]. intros q [->|[Hq Hne]]; apply Hf; [|done]. intros E. by eapply not_index. }
    destruct r as [u|e]; [|done]. split; [done|]. intros c _.
    destruct (Hok u eq_refl) as [-> _]; [intros E; by eapply not_index|]. by rewrite Ef.
  - rewrite bool_decide_false by (by intros [? [=]]). apply ends_bind. eapply ends_mono.
    + apply (run_index_ends (λ o w', ∀ c, checkout_at w worktree_of = Some c →
        entries <$> file_at w' i = Some (default ∅ (commit_at w (ck_head c)))) (still i w)).
      apply ends_intro. intros r w' Hg. pose proof (git_index_still _ _ _ _ _ _ Hg eq_refl Hi) as Hs. destruct r as [o|e]; [|done].
      split; [done|]. intros Ho c Hc. destruct (head_commit _ _ _ Hc) as [t Ht]. rewrite Ht. exact (read_tree_head _ _ _ _ _ _ _ Hg Ho Hc Ht).
    + intros text w' [Hs (o & _ & Ho)]. by apply ends_done.
    + done.
Qed.

Lemma write_tree_ends i w :
  below snapshot_dir_of i →
  ends (run_git_with_index worktree_of i ["write-tree"]) w
    (λ id w', still i w w' ∧ ∀ e, entries <$> file_at w i = Some e →
       tree_at w' id = Some e ∧ entries <$> file_at w' i = Some e ∧ id ≠ EmptyString) (still i w).
Proof.
  intros Hi. eapply ends_mono.
  - apply (run_index_ends (λ o w', ∀ e, entries <$> file_at w i = Some e →
      tree_at w' (printed o) = Some e ∧ entries <$> file_at w' i = Some e ∧ printed o ≠ EmptyString) (still i w)).
    apply ends_intro. intros r w' Hg. pose proof (git_index_still _ _ _ _ _ _ Hg eq_refl Hi). destruct r as [o|e]; [|done].
    split; [done|]. intros Ho e He. exact (write_tree_spec _ _ _ _ _ _ Hg Ho He).
  - intros text w' [Hs (o & -> & Ho)]. done.
  - done.
Qed.

Lemma add_all_ends i w :
  below snapshot_dir_of i →
  ends (run_git_with_index worktree_of i ["add"; "-A"; "--"; "."]) w
    (λ _ w', still i w w' ∧ ∀ c e, checkout_at w worktree_of = Some c → entries <$> file_at w i = Some e →
       entries <$> file_at w' i = Some (staged ignored e (ck_files c))) (still i w).
Proof.
  intros Hi. eapply ends_mono.
  - apply (run_index_ends (λ _ w', ∀ c e, checkout_at w worktree_of = Some c → entries <$> file_at w i = Some e →
      entries <$> file_at w' i = Some (staged ignored e (ck_files c))) (still i w)).
    apply ends_intro. intros r w' Hg. pose proof (git_index_still _ _ _ _ _ _ Hg eq_refl Hi). destruct r as [o|e]; [|done].
    split; [done|]. intros Ho c e Hc He. exact (add_all_spec _ _ _ _ _ _ _ Hg Ho Hc He).
  - intros text w' [Hs (o & _ & Ho)]. done.
  - done.
Qed.

Lemma index_path_ends i w :
  ends (git_index_path worktree_of) w
    (λ path w', still i w w' ∧ (∀ q, below snapshot_dir_of q → file_at w' q = file_at w q) ∧ path = index_of) (still i w).
Proof.
  eapply ends_mono; [apply (in_worktree_reads i (λ o, printed o = index_of))| |done].
  - done.
  - intros o w' Hg Ho. exact (rev_parse_index _ _ _ _ Hg Ho).
  - intros text w' (Hs & Hf & o & -> & Ho). done.
Qed.

Lemma managed_path_ends i w :
  ends (managed_worktree_path m ws) w
    (λ path w', still i w w' ∧ (∀ q, below snapshot_dir_of q → file_at w' q = file_at w q) ∧ path = worktree_of) (still i w).
Proof.
  unfold managed_worktree_path. destruct (wr_state ws); [|by apply ends_fail]. apply ends_bind, ends_map_err, ends_intro.
  intros r w' (Hv & Hf & Hok)%canonicalize_spec. assert (still i w w') as Hs by (apply view_still; [done|by intros; apply Hf]).
  destruct r as [root|e]; [|done]. rewrite (Hok _ eq_refl). case_match; [|by apply ends_fail]. apply ends_done. split_and!; [done| |done].
  intros q _. apply Hf.
Qed.

(** ** Comparing *)

(** The content and the metadata. *)
Definition calm (w w' : W) : Prop := content w w' ∧ grows w w' ∧ file_at w' metadata_of = file_at w metadata_of.

#[local] Instance calm_preorder : PreOrder calm.
Proof.
  split; [by intros w|]. intros w1 w2 w3 ([C1 C2] & [G1 G2] & F) ([C1' C2'] & [G1' G2'] & F').
  split_and!; [split; congruence|split; eauto|congruence].
Qed.

Lemma still_calm x w w' : relative x → x ≠ REVIEW_SNAPSHOT_METADATA → still (path_join snapshot_dir_of x) w w' → calm w w'.
Proof.
  intros Hx Hne (C & G & F). split_and!; [done|done|]. apply F; [by apply in_snapshots|].
  intros E. apply join_inj in E; [by subst|done|done].
Qed.

Definition comparison_of : string := path_join snapshot_dir_of "comparison.index".

Lemma comparison_calm w w' : still comparison_of w w' → calm w w'.
Proof. by apply still_calm. Qed.

Lemma comparison_in : below snapshot_dir_of comparison_of.
Proof. by apply in_snapshots. Qed.

Lemma still_baseline w w' : still comparison_of w w' → file_at w' baseline_of = file_at w baseline_of.
Proof. intros (_ & _ & F). apply F; [by apply in_snapshots|]. intros E. unfold baseline_of, comparison_of in E. by apply join_inj in E. Qed.

Lemma baseline_tree_ends mr w :
  ends (baseline_tree worktree_of baseline_of mr) w
    (λ id w', calm w w' ∧ (sm_index_tree mr ≠ EmptyString → w' = w ∧ id = sm_index_tree mr)) (calm w).
Proof.
  unfold baseline_tree. destruct (decide _) as [E|Hne]; [|by apply ends_done]. destruct (sm_had_index mr).
  - eapply ends_mono; [apply (write_tree_ends baseline_of); by apply in_snapshots| |]; [intros id w' [Hs _]; split; [|done]|intros w' Hs];
      by apply (still_calm REVIEW_SNAPSHOT_INDEX).
  - eapply ends_mono; [apply (in_worktree_reads comparison_of (λ _, True)); done| |]; [intros id w' [Hs _]; split; [|done]|intros w' Hs];
      by apply comparison_calm.
Qed.

(** What was observed of a world. *)
Definition observed (mr : WorkspaceSnapshotMetadata) (w : W) (now : Observed) (w' : W) : Prop :=
  ob_index now = index_of ∧ ob_had_index now = had_index w
  ∧ (if sm_had_index mr then is_Some (ob_baseline now) ∧ file_at w baseline_of = ob_baseline now else ob_baseline now = None)
  ∧ (sm_index_tree mr ≠ EmptyString → ob_baseline_tree now = sm_index_tree mr)
  ∧ ∀ c, checkout_at w worktree_of = Some c →
      tree_at w' (ob_index_tree now) = Some (indexed w c)
      ∧ tree_at w' (ob_tree now) = Some (staged ignored (indexed w c) (ck_files c))
      ∧ (∀ h, ob_head now = Some h → h = ck_head c) ∧ (∀ b, ob_branch now = Some b → ck_branch c = Some b).

Lemma content_checkout i w w' c : still i w w' → checkout_at w worktree_of = Some c → checkout_at w' worktree_of = Some c.
Proof. intros ([-> _] & _) Hc. done. Qed.

Lemma indexed_steady w w' c : steady w w' → checkout_at w worktree_of = Some c → indexed w' c = indexed w c.
Proof.
  intros ([_ Hf] & [Hg _]) Hc. unfold indexed. rewrite Hf. destruct (file_at w index_of); [done|].
  destruct (head_commit _ _ _ Hc) as [t Ht]. by rewrite Ht, (Hg _ _ Ht).
Qed.

Lemma observe_ends mr w :
  ends (observe_worktree worktree_of snapshot_dir_of mr) w (λ now w', calm w w' ∧ observed mr w now w') (calm w).
Proof.
  pose proof comparison_in as Hin. unfold observe_worktree. fold comparison_of baseline_of.
  ends_step (index_path_ends comparison_of w); [intros path w1 (S1 & _ & ->)|by intros; apply comparison_calm].
  apply ends_bind, ends_observe. assert (is_regular_file index_of w1 = had_index w1) as -> by (apply is_file_spec).
  ends_step (index_copy_ends comparison_of w1 Hin); [intros _ w2 [S2 V2]|intros w' S; apply comparison_calm; by etrans].
  assert (still comparison_of w w2) as T2 by (by etrans).
  ends_step (write_tree_ends comparison_of w2 Hin); [intros id w3 [S3 V3]|intros w' S; apply comparison_calm; by etrans].
  assert (still comparison_of w w3) as T3 by (by etrans).
  ends_step (add_all_ends comparison_of w3 Hin); [intros _ w4 [S4 V4]|intros w' S; apply comparison_calm; by etrans].
  assert (still comparison_of w w4) as T4 by (by etrans).
  ends_step (write_tree_ends comparison_of w4 Hin); [intros tree w5 [S5 V5]|intros w' S; apply comparison_calm; by etrans].
  assert (still comparison_of w w5) as T5 by (by etrans).
  ends_step (in_worktree_optional_reads comparison_of (λ o, ∀ c, checkout_at w5 worktree_of = Some c → printed o = ck_head c));
    [done|intros o w' Hg Ho c Hc; exact (rev_parse_head _ _ _ _ _ Hg Ho Hc)|intros head w6 [S6 V6]|intros w' S; apply comparison_calm; by etrans].
  assert (still comparison_of w w6) as T6 by (by etrans).
  ends_step (in_worktree_optional_reads comparison_of (λ o, ∀ c, checkout_at w6 worktree_of = Some c → ck_branch c = Some (printed o)));
    [done|intros o w' Hg Ho c Hc; exact (symbolic_ref_head _ _ _ _ _ Hg Ho Hc)|intros branch w7 [S7 V7]|intros w' S; apply comparison_calm; by etrans].
  assert (still comparison_of w w7) as T7 by (by etrans).
  assert (had_index w1 = had_index w) as -> by (unfold had_index; by destruct S1 as ([_ ->] & _)).
  apply ends_bind. apply (ends_mono _ _ (λ baseline w', still comparison_of w w' ∧ still comparison_of w7 w' ∧
    if sm_had_index mr then is_Some baseline ∧ file_at w baseline_of = baseline else baseline = None) _ (calm w)); [|cbn beta|done].
  { destruct (sm_had_index mr); [|by apply ends_done]. apply ends_bind, ends_map_err, ends_intro. intros r w' Hr.
    apply read_view in Hr as Hv. apply read_spec in Hr as [Hf Hc]. assert (still comparison_of w7 w') as S8 by (by apply view_still).
    destruct r as [bytes|e]; [|apply comparison_calm; by etrans]. apply ends_done. split_and!; [by etrans|done|done|].
    by rewrite <- Hc, (still_baseline _ _ T7). }
  intros baseline w8 (T8 & S8 & Hbase). ends_step (baseline_tree_ends mr w8); [intros bt w9 [S9 V9]|by intros; etrans; [apply comparison_calm|]].
  apply ends_done. split; [etrans; [by apply comparison_calm|done]|]. split_and!; [done|done|done|by intros Hne; apply V9|]. cbn.
  intros c Hc. pose proof (content_checkout _ _ _ _ S1 Hc) as Hc1. specialize (V2 _ Hc1). rewrite (indexed_steady _ _ _ (still_steady _ _ _ S1) Hc) in V2.
  destruct (V3 _ V2) as (Hid & V3' & _). specialize (V4 _ _ (content_checkout _ _ _ _ T3 Hc) V3'). destruct (V5 _ V4) as (Htree & _).
  assert (∀ i u, tree_at w5 i = Some u → tree_at w9 i = Some u) as Hgrow.
  { intros i u Hu. destruct S6 as (_ & [_ G6] & _), S7 as (_ & [_ G7] & _), S8 as (_ & [_ G8] & _), S9 as (_ & [_ G9] & _). auto. }
  split_and!; [|auto| |].
  - apply Hgrow. destruct S4 as (_ & [_ G4] & _), S5 as (_ & [_ G5] & _). auto.
  - intros h (o & -> & Ho)%V6. apply Ho. by eapply content_checkout.
  - intros b (o & -> & Ho)%V7. apply Ho. by eapply content_checkout.
Qed.

(** ** Reinstating *)

(** The files of the snapshot stay. *)
Definition kept (w w' : W) : Prop := grows w w' ∧ ∀ q, below snapshot_dir_of q → file_at w' q = file_at w q.

#[local] Instance kept_preorder : PreOrder kept.
Proof.
  split; [by intros w|]. intros w1 w2 w3 ([G1 G2] & F) ([G1' G2'] & F'). split; [split; eauto|]. intros q Hq. by rewrite F', F.
Qed.

Lemma view_kept w w' : git_view w w' → (∀ q, below snapshot_dir_of q → file_at w' q = file_at w q) → kept w w'.
Proof. intros (_ & E & T) F. split; [split; congruence|done]. Qed.

Lemma git_kept args w r w' : git None args w = (r, w') → kept w w'.
Proof.
  intros Hg. split; [split; [by eapply git_commits|by eapply git_trees]|]. intros q Hq.
  eapply git_files; [exact Hg|by apply snapshots_apart|done].
Qed.

(** A command that changes the worktree, from [c] to [f c]. *)
Lemma changing_ends (P : W → Prop) command w :
  (∀ o w', git None (["-C"; worktree_of] ++ command) w = (Ok o, w') → out_success o = true → P w') →
  ends (in_worktree worktree_of command) w (λ _ w', kept w w' ∧ P w') (kept w).
Proof.
  intros HP. unfold in_worktree. apply ends_bind, ends_lift. unfold path_text. destruct (valid_utf8 worktree_of); [|done].
  eapply ends_mono; [apply (run_git_ends (λ _ w', P w') (kept w))| |done].
  - apply ends_intro. intros r w' Hg. apply git_kept in Hg as Hk. destruct r as [o|e]; [|done]. eauto.
  - by intros text w' [Hs (o & _ & Ho)].
Qed.

Lemma overlay_again h t f : overlay h h (overlay h t f) = overlay h t f.
Proof.
  apply map_eq. intros p. unfold overlay. rewrite !lookup_union, !map_lookup_filter, !lookup_union, !map_lookup_filter.
  destruct (h !! p) eqn:Eh; [by rewrite !union_Some_l|]. rewrite !(left_id_L None _). destruct (f !! p); cbn; [|done].
  repeat case_guard; cbn; try done; by simplify_option_eq.
Qed.

(** The checkout of a snapshot: the commit, the branch, every file of the tree,
    and no other file than the ones that were there, were not tracked and are
    ignored once the commit is checked out. *)
Definition reinstated (mr : WorkspaceSnapshotMetadata) (head tree before : Tree) (c c' : Checkout) : Prop :=
  ck_head c' = sm_head mr ∧ ck_branch c' = Some (sm_branch_name mr)
  ∧ (∀ p b, tree !! p = Some b → ck_files c' !! p = Some b)
  ∧ ∀ p b, ck_files c' !! p = Some b → tree !! p = None →
      ck_files c !! p = Some b ∧ before !! p = None ∧ head !! p = None
      ∧ (ignored (overlay head before (ck_files c)) p = true ∨ factory_path p = true).

Lemma reinstated_files mr head tree before c :
  reinstated mr head tree before c
    (mkCheckout (sm_head mr) (Some (sm_branch_name mr))
      (overlay tree head (cleaned ignored head (overlay head head (overlay head before (ck_files c)))))).
Proof.
  rewrite overlay_again. set (f := overlay head before (ck_files c)). split_and!; [done|done| |]; cbn.
  - intros p b Hp. unfold overlay. by rewrite lookup_union, Hp, union_Some_l.
  - intros p b Hp Ht. unfold overlay, cleaned in Hp. rewrite lookup_union, Ht, (left_id_L None _) in Hp.
    apply map_lookup_filter_Some in Hp as [Hp Hh]. apply map_lookup_filter_Some in Hp as [Hp Hk]. cbn in *.
    unfold f, overlay in Hp. rewrite lookup_union, Hh, (left_id_L None _) in Hp. apply map_lookup_filter_Some in Hp as [Hp Hb]. cbn in Hb.
    split_and!; [done|done|done|]. rewrite Hh in Hk. destruct Hk as [[? [=]]|Hk]. done.
Qed.

(** The index is put back as it was, or away. *)
Lemma index_back_ends baseline w :
  ends (match baseline with
        | Some bytes =>
            _ ← map_err workspace_io (write_file candidate_of bytes);
            map_err workspace_io (rename_file candidate_of index_of)
        | None =>
            there ← observe (path_exists index_of);
            when there (map_err workspace_io (remove_file index_of))
        end) w
    (λ _ w', kept w w' ∧ checkout_at w' = checkout_at w ∧ file_at w' index_of = baseline) (kept w).
Proof.
  assert (∀ q, below snapshot_dir_of q → q ≠ candidate_of ∧ q ≠ index_of) as Hapart.
  { intros q Hq. split; [intros ->; by eapply candidate_apart|by apply not_index]. }
  destruct baseline as [bytes|].
  - apply ends_bind, ends_map_err, ends_intro. intros r w1 Hw. apply write_view in Hw as Hv; [|by apply candidate_no_state].
    apply write_spec in Hw as [Hf Hc]. assert (kept w w1) as K1 by (apply view_kept; [done|]; intros q Hq; by apply Hf, Hapart).
    destruct r as [u|e]; [|done]. apply ends_map_err, ends_intro. intros r w2 Hr.
    apply rename_view in Hr as Hv2; [|by apply candidate_no_state|by apply index_no_state].
    apply rename_spec in Hr as Hs; [|by apply candidate_other]. destruct r as [u'|e].
    + destruct Hs as [Hi Hq]. split_and!; [etrans; [done|]; apply view_kept; [done|]; intros q ?; by apply Hq; apply Hapart| |].
      * destruct Hv as [? _], Hv2 as [? _]. congruence.
      * rewrite Hi. by eapply Hc.
    + etrans; [done|]. by apply view_kept.
  - apply ends_bind, ends_observe. destruct (path_exists index_of w) eqn:Ex; cbn [when].
    + apply ends_map_err, ends_intro. intros r w1 Hr. apply remove_view in Hr as Hv; [|by apply index_no_state].
      apply remove_spec in Hr as [Hf Hi]. assert (kept w w1) as K by (apply view_kept; [done|]; intros q Hq; by apply Hf, Hapart).
      destruct r as [u|e]; [|done]. split_and!; [done|apply Hv|done].
    + apply ends_done. split_and!; [done|done|]. destruct (file_at w index_of) eqn:Ef; [|done].
      rewrite exists_spec in Ex; [done|]. by rewrite Ef.
Qed.

Lemma reinstate_ends mr baseline w :
  ends (reinstate_snapshot worktree_of index_of mr baseline) w
    (λ _ w', kept w w' ∧ file_at w' index_of = baseline ∧
       ∀ c head tree, checkout_at w worktree_of = Some c → commit_at w (sm_head mr) = Some head → tree_at w (sm_tree mr) = Some tree →
         ∃ c', checkout_at w' worktree_of = Some c' ∧ reinstated mr head tree (tracked w worktree_of) c c') (kept w).
Proof.
  unfold reinstate_snapshot. fold candidate_of.
  ends_step (changing_ends (λ w', ∀ c head, checkout_at w worktree_of = Some c → commit_at w (sm_head mr) = Some head →
      checkout_at w' worktree_of = Some (mkCheckout (sm_head mr) (Some (sm_branch_name mr)) (overlay head (tracked w worktree_of) (ck_files c)))
      ∧ tracked w' worktree_of = head));
    [intros o w' Hg Ho c head Hc Hh; exact (checkout_force _ _ _ _ _ _ _ _ Hg Ho Hc Hh)|intros _ w1 [K1 V1]|done].
  ends_step (changing_ends (λ w', ∀ c head, checkout_at w1 worktree_of = Some c → commit_at w1 (sm_head mr) = Some head →
      checkout_at w' worktree_of = Some (mkCheckout (sm_head mr) (ck_branch c) (overlay head (tracked w1 worktree_of) (ck_files c)))
      ∧ tracked w' worktree_of = head));
    [intros o w' Hg Ho c head Hc Hh; exact (reset_hard _ _ _ _ _ _ _ Hg Ho Hc Hh)|intros _ w2 [K2 V2]|intros; by etrans].
  ends_step (changing_ends (λ w', ∀ c, checkout_at w2 worktree_of = Some c →
      checkout_at w' worktree_of = Some (mkCheckout (ck_head c) (ck_branch c) (cleaned ignored (tracked w2 worktree_of) (ck_files c)))
      ∧ tracked w' worktree_of = tracked w2 worktree_of));
    [intros o w' Hg Ho c Hc; exact (clean_force _ _ _ _ _ Hg Ho Hc)|intros _ w3 [K3 V3]|intros; do 2 (etrans; [done|]); done].
  ends_step (changing_ends (λ w', ∀ c tree, checkout_at w3 worktree_of = Some c → tree_at w3 (sm_tree mr) = Some tree →
      checkout_at w' worktree_of = Some (mkCheckout (ck_head c) (ck_branch c) (overlay tree (tracked w3 worktree_of) (ck_files c)))
      ∧ tracked w' worktree_of = tree));
    [intros o w' Hg Ho c tree Hc Ht; exact (read_tree_reset _ _ _ _ _ _ _ Hg Ho Hc Ht)|intros _ w4 [K4 V4]|intros; do 3 (etrans; [done|]); done].
  eapply ends_mono; [apply (index_back_ends baseline)| |intros; do 4 (etrans; [done|]); done].
  intros _ w5 (K5 & Hck & Hi). split_and!; [do 4 (etrans; [done|]); done|done|]. intros c head tree Hc Hh Ht.
  destruct (V1 _ _ Hc Hh) as [C1 T1]. assert (commit_at w1 (sm_head mr) = Some head) as Hh1 by (by apply K1).
  destruct (V2 _ _ C1 Hh1) as [C2 T2]. rewrite T1 in C2. destruct (V3 _ C2) as [C3 T3]. rewrite T2 in C3, T3.
  assert (tree_at w3 (sm_tree mr) = Some tree) as Ht3 by (by apply K3, K2, K1). destruct (V4 _ _ C3 Ht3) as [C4 _]. rewrite T3 in C4.
  eexists. split; [by rewrite Hck, C4|]. apply reinstated_files.
Qed.

(** ** The metadata *)

Context (json_round_trip : ∀ mr : WorkspaceSnapshotMetadata, json_parse (json_text (ser mr)) = Ok (ser mr)).

Definition stored (w : W) (mr : WorkspaceSnapshotMetadata) : Prop :=
  ∃ bytes v, file_at w metadata_of = Some bytes ∧ json_parse bytes = Ok v ∧ de v = Some mr.

(** A change has been detected and is on record. *)
Definition marked (w : W) : Prop := ∃ mr, stored w mr ∧ sm_mutation_detected mr = true.

Lemma stored_same w w' mr : file_at w' metadata_of = file_at w metadata_of → stored w mr → stored w' mr.
Proof. intros E (bytes & v & Hf & Hv). exists bytes, v. by rewrite E. Qed.

Lemma marked_same w w' : file_at w' metadata_of = file_at w metadata_of → marked w → marked w'.
Proof. intros E (mr & Hs & Hm). exists mr. split; [by eapply stored_same|done]. Qed.

Lemma snapshot_round_trip (mr : WorkspaceSnapshotMetadata) : de (ser mr) = Some mr.
Proof. by destruct mr. Qed.

Lemma metadata_in : below snapshot_dir_of metadata_of.
Proof. by apply in_snapshots. Qed.

Lemma kept_metadata w w' : kept w w' → file_at w' metadata_of = file_at w metadata_of.
Proof. intros [_ F]. apply F, metadata_in. Qed.

(** The record is replaced as a whole, or not at all. *)
Lemma write_metadata_ends mr w :
  ends (write_review_snapshot_metadata snapshot_dir_of mr) w
    (λ _ w', content w w' ∧ grows w w' ∧ file_at w' baseline_of = file_at w baseline_of ∧ stored w' mr) (calm w).
Proof.
  unfold write_review_snapshot_metadata. set (partial := path_join snapshot_dir_of _).
  assert (below snapshot_dir_of partial) as Hp by (by apply in_snapshots).
  assert (∀ x, relative x → x ≠ REVIEW_SNAPSHOT_METADATA +:+ ".partial" → path_join snapshot_dir_of x ≠ partial) as Hne.
  { intros x Hx Hn E. by apply join_inj in E. }
  assert (∀ w w', git_view w w' → file_at w' index_of = file_at w index_of → content w w' ∧ grows w w') as Hview.
  { intros w1 w2 (E1 & E2 & E3) Hi. split; [split; [by rewrite E1|done]|]. split; congruence. }
  apply ends_bind, ends_map_err, ends_intro. intros r w1 Hw. apply write_view in Hw as Hv; [|by apply not_state].
  apply write_spec in Hw as [Hf Hc]. destruct (Hview _ _ Hv) as [C1 G1]; [by apply Hf, not_eq_sym, not_index|].
  assert (calm w w1) as K1 by (split_and!; [done|done|]; by apply Hf, Hne). destruct r as [u|e]; [|done].
  apply ends_map_err, ends_intro. intros r w2 Hr. pose proof metadata_in as Hm.
  apply rename_view in Hr as Hv2; [|by apply not_state..]. apply rename_spec in Hr as Hs; [|by apply not_eq_sym, Hne].
  destruct r as [u'|e].
  - destruct Hs as [Hi Hq]. destruct (Hview _ _ Hv2) as [C2 G2]; [apply Hq; by apply not_eq_sym, not_index|].
    split_and!; [destruct C1, C2; split; congruence|destruct G1, G2; split; eauto| |].
    + rewrite Hq; [by apply Hf, Hne|by apply Hne|]. intros E. unfold baseline_of in E. by apply join_inj in E.
    + exists (json_text (ser mr)), (ser mr). split_and!; [|apply json_round_trip|apply snapshot_round_trip]. unfold metadata_of. rewrite Hi. by eapply Hc.
  - etrans; [done|]. destruct (Hview _ _ Hv2) as [C2 G2]; [apply Hs|]. split_and!; [done|done|apply Hs].
Qed.

(** ** Restoring *)

(** What a restoration that found nothing changed says of the worktree. *)
Definition unchanged (mr : WorkspaceSnapshotMetadata) (w w' : W) : Prop :=
  ∀ c, checkout_at w worktree_of = Some c →
    ck_head c = sm_head mr ∧ ck_branch c = Some (sm_branch_name mr) ∧ had_index w = sm_had_index mr
    ∧ tree_at w' (sm_tree mr) = Some (staged ignored (indexed w c) (ck_files c))
    ∧ (sm_index_tree mr ≠ EmptyString → tree_at w' (sm_index_tree mr) = Some (indexed w c)).

(** What one that reinstated the snapshot leaves. *)
Definition restored (mr : WorkspaceSnapshotMetadata) (w w' : W) : Prop :=
  ∀ c head tree, checkout_at w worktree_of = Some c → commit_at w (sm_head mr) = Some head → tree_at w (sm_tree mr) = Some tree →
    ∃ c', checkout_at w' worktree_of = Some c' ∧ reinstated mr head tree (tracked w worktree_of) c c'
      ∧ file_at w' index_of = (if sm_had_index mr then file_at w baseline_of else None).

Lemma not_changed mr now :
  review_changed mr now = false →
  sm_mutation_detected mr = false ∧ ob_tree now = sm_tree mr ∧ ob_head now = Some (sm_head mr)
  ∧ ob_branch now = Some (sm_branch_name mr) ∧ ob_had_index now = sm_had_index mr ∧ ob_index_tree now = ob_baseline_tree now.
Proof.
  unfold review_changed. intros E. repeat (apply orb_false_iff in E as [E ?]).
  repeat match goal with X : negb _ = false |- _ => apply negb_false_iff in X end.
  repeat match goal with X : bool_decide _ = true |- _ => apply bool_decide_eq_true in X end.
  split_and!; try done. by match goal with X : Bool.eqb _ _ = true |- _ => apply eqb_prop in X end.
Qed.

Lemma observed_unchanged mr w now w' :
  observed mr w now w' → review_changed mr now = false → unchanged mr w w'.
Proof.
  intros (_ & Hh & _ & Hb & Hc) (_ & Et & Eh & Ebr & Ehad & Ei)%not_changed c Hck.
  destruct (Hc _ Hck) as (Hi & Ht & Hhead & Hbranch). split_and!; [by symmetry; apply Hhead|by apply Hbranch|congruence|congruence|].
  intros Hne. by rewrite <- (Hb Hne), <- Ei.
Qed.

(** A failure leaves the worktree alone, or a mark; and a mark stays. *)
Definition excused (w w' : W) : Prop := (content w w' ∧ (marked w → marked w')) ∨ marked w'.

Lemma calm_excused w w' : calm w w' → excused w w'.
Proof. intros (C & _ & F). left. split; [done|]. by apply marked_same. Qed.

Lemma restored_calm mr w w1 w' :
  calm w w1 → file_at w1 baseline_of = file_at w baseline_of → restored mr w1 w' → restored mr w w'.
Proof.
  intros ([C1 C2] & [G1 G2] & _) Hb Hr c head tree Hc Hh Ht.
  destruct (Hr c head tree) as (c' & Hc' & Hre & Hi); [by rewrite C1|auto|auto|]. exists c'. split; [done|].
  assert (tracked w1 worktree_of = tracked w worktree_of) as E by (unfold tracked; fold index_of; by rewrite C2).
  rewrite E in Hre. by rewrite <- Hb.
Qed.

Lemma reinstate_marked mr now w w1 :
  stored w mr → calm w w1 → observed mr w now w1 →
  ends (_ ← when (negb (sm_mutation_detected mr)) (write_review_snapshot_metadata snapshot_dir_of (with_mutation_detected mr));
        _ ← reinstate_snapshot worktree_of (ob_index now) mr (ob_baseline now); done true) w1
    (λ changed w', changed = true ∧ stored w' (with_mutation_detected mr) ∧ restored mr w w') (excused w).
Proof.
  intros Hst K1 Hob. destruct Hob as (Hi & _ & Hbase & _).
  apply ends_bind. apply (ends_mono _ _ (λ _ w2, content w1 w2 ∧ grows w1 w2 ∧ stored w2 (with_mutation_detected mr)) _ (calm w1));
    [|cbn beta|intros w' K; apply calm_excused; by etrans].
  { destruct (sm_mutation_detected mr) eqn:Em; cbn [negb when].
    - apply ends_done. split_and!; [done|done|]. eapply stored_same; [apply K1|]. destruct mr; cbn in *; by subst.
    - eapply ends_mono; [apply write_metadata_ends| |done]. by intros _ w2 (C & G & _ & S). }
  intros _ w2 (C2 & G2 & S2). rewrite Hi.
  ends_step (reinstate_ends mr (ob_baseline now) w2); [intros _ w3 (K3 & Hindex & Hre)|].
  2: { intros w' K. right. exists (with_mutation_detected mr). split; [|done]. by eapply stored_same, S2; apply kept_metadata. }
  apply ends_done. split_and!; [done|by eapply stored_same, S2; apply kept_metadata|]. intros c head tree Hc Hh Ht.
  destruct K1 as ([K1a K1b] & [K1c K1d] & _), C2 as [C2a C2b], G2 as [G2a G2b].
  destruct (Hre c head tree) as (c' & Hc' & Hr); [by rewrite C2a, K1a|auto|auto|]. exists c'. split_and!; [done| |].
  - assert (tracked w2 worktree_of = tracked w worktree_of) as E by (unfold tracked; fold index_of; by rewrite C2b, K1b). by rewrite E in Hr.
  - rewrite Hindex. destruct (sm_had_index mr); [by destruct Hbase|done].
Qed.

Lemma restore_metadata_ends mr w :
  stored w mr →
  ends (restore_review_snapshot_metadata m ws mr) w
    (λ changed w', if changed : bool then stored w' (with_mutation_detected mr) ∧ restored mr w w'
                   else sm_mutation_detected mr = false ∧ steady w w' ∧ unchanged mr w w'
                        ∧ ∀ q, below snapshot_dir_of q → file_at w' q = None) (excused w).
Proof.
  intros Hst. unfold restore_review_snapshot_metadata. fold snapshot_dir_of. destruct (negb _).
  { apply ends_fail. by apply calm_excused. }
  ends_step (managed_path_ends comparison_of w); [intros path w1 (S1 & F1 & ->)|intros; by apply calm_excused, comparison_calm].
  apply comparison_calm in S1 as K1. apply ends_bind, ends_observe. destruct (_ && _); [by apply ends_fail, calm_excused|].
  ends_step (observe_ends mr w1); [intros now w2 [K2 Hob]|intros w' K; apply calm_excused; by etrans].
  destruct (review_changed mr now) eqn:Ech.
  - eapply ends_mono; [apply (reinstate_marked mr now w1); [eapply stored_same; [apply K1|done]|done|done]| |].
    + intros changed w' (-> & Hs & Hr). split; [done|]. eapply restored_calm; [done| |done]. by apply F1, in_snapshots.
    + intros w' [[C M]|M]; [|by right]. left. destruct K1 as ([K1a K1b] & _ & K1c). split; [destruct C; split; congruence|].
      intros Hm. apply M. by eapply marked_same.
  - apply not_changed in Ech as Hch. apply ends_bind, ends_map_err, ends_intro. intros r w3 Hr.
    apply remove_dir_spec in Hr as (Hv & Hf & Hok); [|intros; by apply not_state]. destruct Hv as (E1 & E2 & E3).
    assert (content w w3) as C3.
    { destruct K1 as ([K1a K1b] & _), K2 as ([K2a K2b] & _). split; [congruence|]. rewrite Hf by (by apply index_apart). congruence. }
    destruct r as [u|e].
    + assert (grows w w3) as G3 by (destruct K1 as (_ & [? ?] & _), K2 as (_ & [? ?] & _); split; [rewrite E2|rewrite E3]; auto).
      apply ends_done. split; [apply Hch|]. split; [done|]. split; [|by eapply Hok]. intros c Hc. rewrite E3.
      pose proof (observed_unchanged _ _ _ _ Hob Ech c) as Hun. rewrite (indexed_steady _ _ _ (still_steady _ _ _ S1) Hc) in Hun.
      destruct S1 as ([S1a S1b] & _). rewrite S1a in Hun. specialize (Hun Hc). unfold had_index in *. by rewrite S1b in Hun.
    + left. split; [done|]. intros (mr' & Hs & Hm). exfalso. destruct Hs as (b & v & Hb & Hp & Hd), Hst as (b' & v' & Hb' & Hp' & Hd').
      destruct Hch as [Hch _]. simplify_eq. congruence.
Qed.

(** ** The operations *)

Lemma read_existing_ends path w :
  ends (read_existing path) w
    (λ found w', (calm w w' ∧ ∀ q, file_at w' q = file_at w q) ∧ found = file_at w path) (calm w).
Proof.
  apply ends_intro. intros r w'. unfold read_existing, attempt, mbind, proc_bind. destruct (read_file path w) as [r1 w1] eqn:Hr.
  apply read_view in Hr as Hv. destruct Hv as (E1 & E2 & E3). apply read_spec in Hr as [Hf Hc].
  assert (calm w w1) as K by (split_and!; [split; [by rewrite E1|apply Hf]|split; congruence|apply Hf]).
  destruct r1 as [bytes|e]; [by intros [= <- <-]|]. destruct (io_not_found e) eqn:En; intros [= <- <-]; [|done].
  split; [done|]. symmetry. auto.
Qed.

Lemma load_snapshot_ends w :
  ends (load_review_snapshot m ws) w
    (λ found w', (calm w w' ∧ ∀ q, file_at w' q = file_at w q)
       ∧ match found with Some mr => stored w mr | None => file_at w metadata_of = None end) (calm w).
Proof.
  unfold load_review_snapshot. fold snapshot_dir_of metadata_of.
  ends_step (read_existing_ends metadata_of w); [intros found w1 [[K F] Hfound]|done].
  destruct found as [bytes|]; [|by apply ends_done]. destruct (json_parse bytes) as [v|e] eqn:Ep; [|by apply ends_fail].
  apply ends_bind, ends_lift. destruct (de v) as [mr|] eqn:Ed; [|done]. apply ends_done. split; [done|]. by exists bytes, v.
Qed.

Lemma stored_fun w mr mr' : stored w mr → stored w mr' → mr = mr'.
Proof. intros (b & v & Hb & Hp & Hd) (b' & v' & Hb' & Hp' & Hd'). congruence. Qed.

Lemma stored_unmarked w mr : stored w mr → sm_mutation_detected mr = false → ¬ marked w.
Proof. intros Hs Hm (mr' & Hs' & Hm'). by rewrite (stored_fun _ _ _ Hs' Hs), Hm in Hm'. Qed.

Lemma excused_trans w w1 w' : calm w w1 → excused w1 w' → excused w w'.
Proof.
  intros ([C1 C2] & _ & F) [[[C1' C2'] M]|M]; [left|by right]. split; [split; congruence|]. intros Hm. apply M. by eapply marked_same.
Qed.

(** Restoring what is stored, from the world it was read in. *)
Lemma restore_loaded_ends mr w w1 :
  stored w mr → calm w w1 → (∀ q, file_at w1 q = file_at w q) →
  ends (restore_review_snapshot_metadata m ws mr) w1
    (λ changed w', if changed : bool then stored w' (with_mutation_detected mr) ∧ restored mr w w'
                   else ¬ marked w ∧ steady w w' ∧ unchanged mr w1 w' ∧ ∀ q, below snapshot_dir_of q → file_at w' q = None) (excused w).
Proof.
  intros Hs K F. eapply ends_mono; [apply restore_metadata_ends; eapply stored_same; [apply F|exact Hs]| |intros; by eapply excused_trans].
  intros [|] w'.
  - intros [Hst Hr]. split; [done|]. eapply restored_calm; [done|apply F|done].
  - intros (Hm & S & Hu & Hq). split_and!; [by eapply stored_unmarked| |done|done]. etrans; [|done]. by destruct K as (C & G & _).
Qed.

Lemma recover_ends w :
  ends (workspace_recover_review_snapshot m ws) w
    (λ changed w', if changed : bool then marked w' else ¬ marked w ∧ content w w') (excused w).
Proof.
  unfold workspace_recover_review_snapshot.
  ends_step (load_snapshot_ends w); [intros found w1 [[K F] Hfound]|by intros; apply calm_excused].
  destruct found as [mr|].
  - eapply ends_mono; [by apply (restore_loaded_ends mr w)| |done]. intros [|] w'.
    + intros [Hs _]. by exists (with_mutation_detected mr).
    + by intros (Hm & [C _] & _).
  - apply ends_done. split; [|apply K]. intros (mr & (b & v & Hb & _) & _). congruence.
Qed.

Lemma restore_snapshot_ends snapshot w :
  ends (workspace_restore_review_snapshot m ws snapshot) w
    (λ changed w', ∃ mr w1, stored w mr ∧ calm w w1 ∧ (∀ q, file_at w1 q = file_at w q) ∧ sm_snapshot_id mr = snap_snapshot_id snapshot ∧
       if changed : bool then stored w' (with_mutation_detected mr) ∧ restored mr w w'
       else ¬ marked w ∧ steady w w' ∧ unchanged mr w1 w' ∧ ∀ q, below snapshot_dir_of q → file_at w' q = None) (excused w).
Proof.
  unfold workspace_restore_review_snapshot. destruct (negb _); [by apply ends_fail, calm_excused|].
  ends_step (load_snapshot_ends w); [intros found w1 [[K F] Hfound]|by intros; apply calm_excused].
  apply ends_bind, ends_lift. destruct found as [mr|]; [|by apply calm_excused]. cbn [ok_or]. destruct (negb (bool_decide (sm_snapshot_id mr = snap_snapshot_id snapshot))) eqn:Eid.
  { apply ends_fail; by apply calm_excused. }
  apply negb_false_iff, bool_decide_eq_true in Eid. eapply ends_mono; [by apply (restore_loaded_ends mr w)| |done].
  intros changed w' Hc. exists mr, w1. done.
Qed.

(** ** Capturing *)

(** The metadata describes the worktree. *)
Definition captured (snapshot_id : string) (mr : WorkspaceSnapshotMetadata) (w : W) : Prop :=
  sm_snapshot_id mr = snapshot_id ∧ sm_job_id mr = wr_job_id ws ∧ sm_root mr = wr_root ws ∧ sm_mutation_detected mr = false
  ∧ sm_had_index mr = had_index w ∧ (had_index w = true → file_at w baseline_of = file_at w index_of)
  ∧ ∀ c, checkout_at w worktree_of = Some c →
      ck_head c = sm_head mr ∧ ck_branch c = Some (sm_branch_name mr) ∧ sm_index_tree mr ≠ EmptyString
      ∧ tree_at w (sm_tree mr) = Some (staged ignored (indexed w c) (ck_files c)) ∧ tree_at w (sm_index_tree mr) = Some (indexed w c).

Definition tree_index_of : string := path_join snapshot_dir_of REVIEW_SNAPSHOT_TREE_INDEX.

Lemma tree_index_in : below snapshot_dir_of tree_index_of.
Proof. by apply in_snapshots. Qed.

Lemma copy_baseline_ends w :
  ends (copy_baseline worktree_of index_of baseline_of tree_index_of (had_index w)) w
    (λ _ w', steady w w' ∧ (had_index w = true → file_at w' baseline_of = file_at w index_of)
       ∧ ∀ c, checkout_at w worktree_of = Some c → entries <$> file_at w' tree_index_of = Some (indexed w c)) (steady w).
Proof.
  pose proof tree_index_in as Hin. unfold copy_baseline.
  assert (below snapshot_dir_of baseline_of) as Hb by (by apply in_snapshots).
  apply ends_bind. apply (ends_mono _ _ (λ _ w1, steady w w1 ∧ (had_index w = true → file_at w1 baseline_of = file_at w index_of)) _ (steady w));
    [|cbn beta|done].
  { destruct (had_index w) eqn:Eh; cbn [when]; [|by apply ends_done]. apply ends_map_err, ends_intro. intros r w1 Hc.
    apply copy_spec in Hc as (Hv & Hf & Hok); [|by apply not_state].
    assert (steady w w1) as S by (apply view_steady; [done|]; apply Hf; by apply not_eq_sym, not_index).
    destruct r as [u|e]; [|done]. split; [done|]. intros _. apply (Hok u eq_refl). by apply not_eq_sym, not_index. }
  intros _ w1 [S1 B1]. assert (had_index w = had_index w1) as Eh by (unfold had_index; by destruct S1 as ([_ ->] & _)). rewrite Eh.
  eapply ends_mono; [apply (index_copy_ends tree_index_of w1 Hin)| |].
  - intros _ w2 [S2 V2]. split_and!; [by etrans; [|by eapply still_steady]| |].
    + intros E. destruct S2 as (_ & _ & F2). rewrite F2; [apply B1; congruence|done|]. intros X.
      unfold baseline_of, tree_index_of in X. by apply join_inj in X.
    + intros c Hc. rewrite (V2 c); [|by destruct S1 as ([-> _] & _)]. f_equal. by apply indexed_steady.
  - intros w' S. etrans; [done|]. by eapply still_steady.
Qed.

Lemma still_trees i w w' id t : still i w w' → tree_at w id = Some t → tree_at w' id = Some t.
Proof. intros (_ & [_ G] & _). apply G. Qed.

(** The five commands a snapshot is made of, after the index has been copied. *)
Lemma take_snapshot_ends snapshot_id w :
  ends (take_snapshot ws worktree_of snapshot_dir_of snapshot_id) w
    (λ snapshot w', steady w w' ∧ snapshot = mkWorkspaceSnapshot (wr_job_id ws) snapshot_id
       ∧ ∃ mr, stored w' mr ∧ captured snapshot_id mr w') (steady w).
Proof.
  pose proof tree_index_in as Hin. unfold take_snapshot. fold baseline_of tree_index_of.
  ends_step (index_path_ends tree_index_of w); [intros path w0 (S0 & _ & ->)|by intros; eapply still_steady].
  apply still_steady in S0. apply ends_bind, ends_observe.
  assert (is_regular_file index_of w0 = had_index w0) as -> by (apply is_file_spec).
  ends_step (copy_baseline_ends w0); [intros _ w1 (S1 & B1 & V1)|intros; by etrans].
  assert (∀ w', still tree_index_of w1 w' → steady w w') as Hst by (intros; do 2 (etrans; [done|]); by eapply still_steady).
  ends_step (write_tree_ends tree_index_of w1 Hin); [intros id w2 [S2 V2]|auto].
  ends_step (add_all_ends tree_index_of w2 Hin); [intros _ w3 [S3 V3]|intros; apply Hst; by etrans].
  assert (still tree_index_of w1 w3) as T3 by (by etrans).
  ends_step (in_worktree_reads tree_index_of (λ o, ∀ c, checkout_at w3 worktree_of = Some c → ck_branch c = Some (printed o)));
    [done|intros o w' Hg Ho c Hc; exact (symbolic_ref_head _ _ _ _ _ Hg Ho Hc)|intros branch w4 (S4 & F4 & o4 & -> & V4)|intros; apply Hst; by etrans].
  assert (still tree_index_of w1 w4) as T4 by (by etrans).
  ends_step (in_worktree_reads tree_index_of (λ o, ∀ c, checkout_at w4 worktree_of = Some c → printed o = ck_head c));
    [done|intros o w' Hg Ho c Hc; exact (rev_parse_head _ _ _ _ _ Hg Ho Hc)|intros head w5 (S5 & F5 & o5 & -> & V5)|intros; apply Hst; by etrans].
  assert (still tree_index_of w1 w5) as T5 by (by etrans).
  ends_step (write_tree_ends tree_index_of w5 Hin); [intros tree w6 [S6 V6]|intros; apply Hst; by etrans].
  assert (still tree_index_of w1 w6) as T6 by (by etrans).
  match goal with |- ends (write_review_snapshot_metadata _ ?mr ≫= _) _ _ _ => set (metadata := mr) end.
  ends_step (write_metadata_ends metadata w6); [intros _ w7 (C7 & G7 & B7 & St7)|intros w' (C & G & _); etrans; [by apply Hst|done]].
  assert (steady w0 w7) as T7 by (do 2 (etrans; [done|]); etrans; [by eapply still_steady|done]).
  apply ends_done. split_and!; [by etrans|done|]. exists metadata. split; [done|].
  assert (had_index w7 = had_index w0) as Eh by (unfold had_index; by destruct T7 as ([_ ->] & _)).
  split_and!; [done|done|done|done|done| |].
  - intros Hh. rewrite B7. destruct T6 as (_ & _ & F6). rewrite F6; [|by apply in_snapshots|by intros X; unfold baseline_of, tree_index_of in X; apply join_inj in X].
    rewrite B1 by congruence. symmetry. apply T7.
  - intros c Hc7. assert (checkout_at w0 worktree_of = Some c) as Hc0 by (by destruct T7 as ([<- _] & _)).
    assert (checkout_at w1 worktree_of = Some c) as Hc1 by (by destruct S1 as ([-> _] & _)).
    rewrite (indexed_steady _ _ _ T7 Hc0). specialize (V1 _ Hc0). destruct (V2 _ V1) as (Hid & V2' & Hne).
    specialize (V3 _ _ (content_checkout _ _ _ _ S2 Hc1) V2').
    assert (entries <$> file_at w5 tree_index_of = Some (staged ignored (indexed w0 c) (ck_files c))) as V35 by (by rewrite F5, F4).
    destruct (V6 _ V35) as (Htree & _). split_and!; cbn.
    + symmetry. apply V5. by eapply content_checkout.
    + apply V4. by eapply content_checkout.
    + done.
    + by apply G7.
    + apply G7. eapply still_trees; [|exact Hid]. do 4 (etrans; [done|]). done.
Qed.

Lemma reject_tracked_ends base w :
  ends (reject_tracked_factory_artifacts worktree_of base) w (λ _ w', steady w w') (steady w).
Proof.
  assert (∀ command w, reading None command = true → ends (in_worktree worktree_of command) w (λ _ w', steady w w') (steady w)) as Hread.
  { intros command w0 Hr. eapply ends_mono; [by apply (in_worktree_reads tree_index_of (λ _, True))| |]; [intros _ w' [S _]|intros w' S];
      by eapply still_steady. }
  unfold reject_tracked_factory_artifacts. ends_step Hread; [done|intros a w1 S1|done].
  ends_step Hread; [done|intros b w2 S2|intros; by etrans]. assert (steady w w2) as T2 by (by etrans).
  apply ends_bind. apply (ends_mono _ _ (λ _ w3, steady w w3) _ (steady w)); [|cbn beta|done].
  - destruct base; [|by apply ends_done]. eapply ends_mono; [by apply Hread| |]; intros; by etrans.
  - intros t w3 S3. case_decide; [by apply ends_done|by apply ends_fail].
Qed.

Lemma capture_ends w :
  ends (workspace_capture_review_snapshot m ws) w
    (λ snapshot w', ¬ marked w ∧ content w w' ∧ snap_job_id snapshot = wr_job_id ws
       ∧ ∃ mr, stored w' mr ∧ captured (snap_snapshot_id snapshot) mr w') (excused w).
Proof.
  unfold workspace_capture_review_snapshot. fold snapshot_dir_of. ends_step (recover_ends w); [intros [|] w1|done].
  { intros Hm. apply ends_fail. by right. }
  intros [Hm C1]. assert (∀ w', steady w1 w' → excused w w') as Hex.
  { intros w' [[C2 C2'] _]. left. destruct C1. split; [split; congruence|done]. }
  ends_step (managed_path_ends tree_index_of w1); [intros path w2 (S2 & _ & ->)|intros w' S; by eapply Hex, still_steady].
  apply still_steady in S2. ends_step (reject_tracked_ends (Some (wr_base_revision ws)) w2); [intros _ w3 S3|intros; apply Hex; by etrans].
  assert (steady w1 w3) as T3 by (by etrans). apply ends_bind, ends_intro. intros r w4 Hu. unfold fresh_uuid in Hu.
  destruct (new_uuid w3) as [id w4'] eqn:Eu. injection Hu as <- <-. apply uuid_view in Eu as Hv. pose proof (uuid_same _ _ _ Eu) as Hf.
  assert (steady w1 w4') as T4 by (etrans; [done|by apply view_steady]). apply ends_bind, ends_observe.
  apply ends_bind. apply (ends_mono _ _ (λ _ w5, steady w1 w5) _ (steady w1)); [|cbn beta|auto].
  { destruct (path_exists _ _); cbn [when]; [|by apply ends_done]. apply ends_map_err, ends_intro. intros r w5 Hr.
    apply remove_dir_spec in Hr as (Hv5 & Hf5 & _); [|intros; by apply not_state].
    assert (steady w1 w5) by (etrans; [done|]; apply view_steady; [done|]; by apply Hf5, index_apart). by destruct r. }
  intros _ w5 T5. apply ends_bind, ends_map_err, ends_intro. intros r w6 Hr. apply create_dir_view in Hr as Hv6.
  pose proof (create_dir_same _ _ _ _ Hr) as Hf6. assert (steady w1 w6) as T6 by (etrans; [done|by apply view_steady]).
  destruct r as [u|e]; [|by apply Hex]. eapply ends_mono; [apply take_snapshot_ends| |intros; apply Hex; by etrans].
  intros snapshot w7 (S7 & -> & Hmr). split_and!; [done| |done|done]. destruct C1, T6 as ([? ?] & _), S7 as ([? ?] & _). split; congruence.
Qed.

(** ** Theorems *)

(** What a review may do: anything but touch the snapshot or lose objects. *)
Definition reviewed (w w' : W) : Prop := kept w w'.


(** A call on the snapshot of the job, with whatever result. *)
Inductive snapshot_call : W → W → Prop :=
| CallCapture w r w' : workspace_capture_review_snapshot m ws w = (r, w') → snapshot_call w w'
| CallRecover w r w' : workspace_recover_review_snapshot m ws w = (r, w') → snapshot_call w w'
| CallRestore snapshot w r w' : workspace_restore_review_snapshot m ws snapshot w = (r, w') → snapshot_call w w'.

(** Calls and reviews, in any order. *)
Inductive snapshot_step : W → W → Prop :=
| StepCall w w' : snapshot_call w w' → snapshot_step w w'
| StepReview w w' : reviewed w w' → snapshot_step w w'.

Lemma restored_marked mr w : stored w (with_mutation_detected mr) → marked w.
Proof. by exists (with_mutation_detected mr). Qed.

Lemma call_excused w w' : snapshot_call w w' → excused w w'.
Proof.
  intros [w1 r w2 Hr|w1 r w2 Hr|snapshot w1 r w2 Hr].
  - eapply ends_run in Hr; [|apply capture_ends]. destruct r as [snap|e]; [|done]. destruct Hr as (Hm & C & _). left. by split.
  - eapply ends_run in Hr; [|apply recover_ends]. destruct r as [[|]|e]; [by right| |done]. destruct Hr as (Hm & C). left. by split.
  - eapply ends_run in Hr; [|apply restore_snapshot_ends]. destruct r as [[|]|e]; [| |done]; destruct Hr as (mr & wl & _ & _ & _ & _ & Hr).
    + destruct Hr as [Hs _]. right. by eapply restored_marked.
    + destruct Hr as (Hm & [C _] & _). left. by split.
Qed.

Lemma steps_marked w w' : marked w → rtc snapshot_step w w' → marked w'.
Proof.
  intros Hm. induction 1 as [|w1 w2 w3 Hs _ IH]; [done|]. apply IH. destruct Hs as [w1 w2 Hs|w1 w2 Hs].
  - destruct (call_excused _ _ Hs) as [[_ M]|M]; auto.
  - eapply marked_same; [|done]. by apply kept_metadata.
Qed.

Lemma acknowledge_ends w :
  ends (workspace_acknowledge_review_mutation m ws) w
    (λ _ w', marked w ∧ content w w' ∧ ∀ q, below snapshot_dir_of q → file_at w' q = None) (content w).
Proof.
  unfold workspace_acknowledge_review_mutation. fold snapshot_dir_of.
  ends_step (load_snapshot_ends w); [intros found w1 [[K F] Hfound]|by intros w' (C & _)]. destruct K as (C & _).
  apply ends_bind, ends_lift. destruct found as [mr|]; [|exact C]. cbn [ok_or]. destruct (negb _) eqn:En; [by apply ends_fail|].
  apply negb_false_iff, andb_prop in En as [_ Hm]. apply ends_map_err, ends_intro. intros r w2 Hr.
  apply remove_dir_spec in Hr as ((E & _) & Hf & Hok); [|intros; by apply not_state].
  assert (content w w2) as C2 by (destruct C; split; [congruence|]; rewrite Hf by (by apply index_apart); done).
  destruct r as [u|e]; [|done]. split_and!; [by exists mr|done|by eapply Hok].
Qed.

(** A detected change is never forgotten.  Whatever a capture, a recovery or a
    restoration returns, errors included, it has left the worktree and its index
    alone or has a change on record: the record is written before the first
    command that changes the worktree.  Once on record, the change stays there
    through any sequence of further calls and reviews, however they fail; a
    recovery or a restoration then never reports that nothing changed and no new
    snapshot is taken.  Only an acknowledgement takes the record away, it succeeds
    only when there is one, and it leaves the worktree alone. *)
Theorem review_change_remembered :
  (∀ w w', snapshot_call w w' → marked w' ∨ content w w')
  ∧ (∀ w w', marked w → rtc snapshot_step w w' → marked w'
       ∧ (∀ r w'', workspace_recover_review_snapshot m ws w' = (r, w'') → r ≠ Ok false)
       ∧ (∀ snapshot r w'', workspace_restore_review_snapshot m ws snapshot w' = (r, w'') → r ≠ Ok false)
       ∧ ∀ r w'', workspace_capture_review_snapshot m ws w' = (r, w'') → is_ok r = false)
  ∧ ∀ w u w', workspace_acknowledge_review_mutation m ws w = (Ok u, w') →
      marked w ∧ content w w' ∧ ∀ q, below snapshot_dir_of q → file_at w' q = None.
Proof.
  split_and!.
  - intros w w' [[C _]|M]%call_excused; auto.
  - intros w w' Hm Hs. pose proof (steps_marked _ _ Hm Hs) as Hm'. split_and!; [done| | |]; intros.
    + intros ->. match goal with E : _ = (Ok false, _) |- _ => eapply ends_run in E; [|apply recover_ends]; by destruct E end.
    + intros ->. match goal with E : _ = (Ok false, _) |- _ => eapply ends_run in E; [|apply restore_snapshot_ends] end. naive_solver.
    + destruct r as [snap|e]; [|done].
      match goal with E : _ = (Ok snap, _) |- _ => eapply ends_run in E; [|apply capture_ends]; by destruct E end.
  - intros w u w' Hr. by eapply ends_run in Hr; [|apply acknowledge_ends].
Qed.
End snapshots.

(** ** The concrete repository *)

Lemma toy_layout : Layout (W := ToyWorld) toy_manager toy_record.
Proof.
  assert (∀ q, below (snapshot_dir_of toy_manager toy_record) q → q ≠ TOY_INDEX) as Hq.
  { intros q Hq ->. by apply belowb_spec in Hq. }
  split.
  - intros q Hb Ho. by eapply Hq.
  - intros Hb. by eapply Hq.
  - intros [].
  - intros Hb%belowb_spec. vm_compute in Hb. discriminate.
  - intros [].
  - vm_compute. discriminate.
Qed.

Definition toy_captured : ToyWorld := (workspace_capture_review_snapshot toy_manager toy_record toy_before).2.
Definition toy_snapshot : WorkspaceSnapshot := mkWorkspaceSnapshot "J" "0".
Definition toy_reviewed : ToyWorld := toy_reviewer toy_captured.
Definition toy_restored : ToyWorld := (workspace_restore_review_snapshot toy_manager toy_record toy_snapshot toy_reviewed).2.

Lemma toy_reviewed_spec : reviewed toy_manager toy_record toy_captured toy_reviewed.
Proof.
  split; [done|]. intros q Hq. assert (TOY_INDEX ≠ q) as Hne by (intros <-; by apply belowb_spec in Hq).
  cbn. by rewrite lookup_insert_ne.
Qed.


Lemma review_change_remembered_witness :
  marked toy_manager toy_record toy_restored
  ∧ ∀ w', rtc (snapshot_step toy_manager toy_record) toy_restored w' → marked toy_manager toy_record w'.
Proof.
  destruct (review_change_remembered toy_manager toy_record toy_layout toy_round_trip) as (_ & Hkeep & _).
  assert (marked toy_manager toy_record toy_restored) as Hm.
  { eexists. split; [eexists _, _; split; [vm_compute; reflexivity|]; split; vm_compute; reflexivity|vm_compute; reflexivity]. }
  split; [exact Hm|]. intros w' Hs. exact (proj1 (Hkeep _ _ Hm Hs)).
Defined.
