(* ===== verification/EnsureLaws.v ===== *)
(** * The binding of a job to its worktree

    However the processes, the file system and the locks behave, and whatever
    other calls reach the store meanwhile, a worktree that is handed out is the one
    that was asked for, and a job that is bound stays at its base revision. *)

From S2P Require Import Prelude Domain Rows Store Leases Events Environments Attempts Jobs Recovery Lifecycle Refinement System Safety Outcomes.
From S2P Require Import Serde ProviderTools Executor Keeps EnvironmentWork ExecutorLaws EnvironmentWorkLaws ResponseStream Subagents Artifacts Git Worktrees.
From Stdlib Require Import ZArith Ascii String.
From stdpp Require Import base gmap strings list option relations pretty.

#[local] Open Scope string_scope.
#[local] Open Scope list_scope.

(** The world of the manager touches the database only as others do. *)
Class ManagerLaws (W : Type) `{External} `{!EnvironmentHost W} `{!StoreHostLaws W}
    `{GitProcess W, ArtifactFiles W, WorkspaceFiles W, WorkspaceLocks W} : Prop := {
  db_moves (w w' : W) : Prop := rtc store_step (host_db w) (host_db w');
  git_moves i args : keeps_to db_moves (git i args : proc W _ _);
  create_dir_moves d : keeps_to db_moves (create_dir_all d : proc W _ _);
  write_moves p c : keeps_to db_moves (write_file p c : proc W _ _);
  rename_moves a b : keeps_to db_moves (rename_file a b : proc W _ _);
  remove_moves p : keeps_to db_moves (remove_file p : proc W _ _);
  read_moves p : keeps_to db_moves (read_file p : proc W _ _);
  canonicalize_moves p : keeps_to db_moves (canonicalize p : proc W _ _);
  uuid_moves : keeps_to db_moves (fresh_uuid (E := CoordinatorError) : proc W _ _);
  lock_moves key : keeps_to db_moves (advisory_lock key : proc W _ _);
  unlock_moves key w : db_moves w (advisory_unlock key w);
  gate_moves w : db_moves w (lock_gate w);
  ungate_moves w : db_moves w (unlock_gate w);
}.

Section binding.
Context `{External} {W : Type} `{!EnvironmentHost W} `{!StoreHostLaws W}.
Context `{GitProcess W, ArtifactFiles W, WorkspaceFiles W, WorkspaceLocks W, !ManagerLaws W} `{Sha256}.
Context (m : WorkspaceManager).
Implicit Types w : W.

#[local] Instance db_moves_preorder : PreOrder (db_moves (W := W)).
Proof. unfold db_moves. split; [intros w; apply rtc_refl|]. intros w1 w2 w3 H12 H23. by etrans. Qed.

Lemma observe_moves {E A : Type} (f : W → A) : keeps_to db_moves (observe f : proc W E A).
Proof. by intros w r w' [= _ <-]. Qed.

Lemma when_moves {E : Type} c (p : proc W E unit) : keeps_to db_moves p → keeps_to db_moves (when c p).
Proof. intros Hp. destruct c; [done|]. apply within_done. apply _. Qed.

#[local] Hint Resolve git_moves create_dir_moves write_moves rename_moves remove_moves read_moves canonicalize_moves uuid_moves
  observe_moves when_moves : within.

(** ** Helpers that only run processes and touch files *)

Lemma run_git_moves args : keeps_to db_moves (run_git args : proc W _ _).
Proof. unfold run_git. stay_within. Qed.
Lemma optional_git_moves args : keeps_to db_moves (optional_git_output args : proc W _ _).
Proof. unfold optional_git_output. stay_within. Qed.
#[local] Hint Resolve run_git_moves optional_git_moves : within.

Lemma in_worktree_moves wt args : keeps_to db_moves (in_worktree wt args : proc W _ _).
Proof. unfold in_worktree. stay_within. Qed.
Lemma in_worktree_optional_moves wt args : keeps_to db_moves (in_worktree_optional wt args : proc W _ _).
Proof. unfold in_worktree_optional. stay_within. Qed.
Lemma in_mirror_moves mirror args : keeps_to db_moves (in_mirror mirror args : proc W _ _).
Proof. unfold in_mirror. stay_within. Qed.
Lemma in_mirror_optional_moves mirror args : keeps_to db_moves (in_mirror_optional mirror args : proc W _ _).
Proof. unfold in_mirror_optional. stay_within. Qed.
#[local] Hint Resolve in_worktree_moves in_worktree_optional_moves in_mirror_moves in_mirror_optional_moves : within.

Lemma mirror_matches_moves path repository : keeps_to db_moves (mirror_matches_repository path repository : proc W _ _).
Proof. unfold mirror_matches_repository, bare_origin_matches. stay_within. Qed.
Lemma legacy_moves path repository : keeps_to db_moves (legacy_mirror_matches_repository path repository : proc W _ _).
Proof. unfold legacy_mirror_matches_repository, bare_origin_matches. stay_within. Qed.
Lemma initialize_moves path repository : keeps_to db_moves (initialize_remote_cache path repository : proc W _ _).
Proof. unfold initialize_remote_cache, configure_remote_tracking, refresh_remote. stay_within. Qed.
Lemma migrate_moves path : keeps_to db_moves (migrate_legacy_mirror path : proc W _ _).
Proof. unfold migrate_legacy_mirror, configure_remote_tracking. stay_within. Qed.
Lemma refresh_moves path : keeps_to db_moves (refresh_remote path : proc W _ _).
Proof. unfold refresh_remote. stay_within. Qed.
Lemma resolve_moves path base_ref : keeps_to db_moves (resolve_mirror_revision path base_ref : proc W _ _).
Proof. unfold resolve_mirror_revision. induction (mirror_revision_candidates base_ref); cbn [resolve_candidates]; stay_within. Qed.
Lemma has_revision_moves path revision : keeps_to db_moves (ensure_mirror_has_revision path revision : proc W _ _).
Proof. unfold ensure_mirror_has_revision. stay_within. Qed.
Lemma sibling_moves path state : keeps_to db_moves (sibling_path path state : proc W _ _).
Proof. unfold sibling_path. stay_within. Qed.
Lemma ignored_moves mirror : keeps_to db_moves (ensure_factory_artifacts_ignored mirror : proc W _ _).
Proof. unfold ensure_factory_artifacts_ignored, read_existing. stay_within. Qed.
Lemma linked_moves worktree mirror : keeps_to db_moves (linked_worktree_matches worktree mirror : proc W _ _).
Proof. unfold linked_worktree_matches. stay_within. Qed.
Lemma reject_moves worktree base : keeps_to db_moves (reject_tracked_factory_artifacts worktree base : proc W _ _).
Proof. unfold reject_tracked_factory_artifacts. stay_within. Qed.
Lemma managed_moves ws : keeps_to db_moves (managed_worktree_path m ws : proc W _ _).
Proof. unfold managed_worktree_path. stay_within. Qed.
Lemma remove_worktree_moves mirror worktree : keeps_to db_moves (remove_worktree mirror worktree : proc W _ _).
Proof. unfold remove_worktree. stay_within. Qed.
Lemma add_worktree_moves mirror branch worktree revision : keeps_to db_moves (add_worktree mirror branch worktree revision : proc W _ _).
Proof. unfold add_worktree. stay_within. Qed.
#[local] Hint Resolve mirror_matches_moves legacy_moves initialize_moves migrate_moves refresh_moves resolve_moves has_revision_moves
  sibling_moves ignored_moves linked_moves reject_moves managed_moves remove_worktree_moves add_worktree_moves : within.

Lemma ensure_mirror_moves repository_id repository base_ref : keeps_to db_moves (ensure_mirror m repository_id repository base_ref : proc W _ _).
Proof. unfold ensure_mirror, usable_mirror. stay_within. apply when_moves. stay_within. Qed.
Lemma reuse_moves existing : keeps_to db_moves (reuse_worktree m existing : proc W _ _).
Proof. unfold reuse_worktree. stay_within. Qed.
#[local] Hint Resolve ensure_mirror_moves reuse_moves : within.

(** ** Rows *)

Definition bound (s : db) (job_id : string) (row : WorkspaceRow) : Prop := workspaces s !! job_id = Some row.

Lemma others_bound s s' job_id row :
  rtc store_step s s' → bound s job_id row → ∃ row', bound s' job_id row' ∧ workspace_identity row' = workspace_identity row.
Proof.
  intros Hs. revert row. induction Hs as [s|s s1 s' (now & c & ->) _ IH]; intros row Hb; [by exists row|].
  destruct (exec_workspace_kept now c s job_id row Hb) as (row1 & Hb1 & E1). destruct (IH _ Hb1) as (row2 & Hb2 & E2).
  exists row2. split; [done|congruence].
Qed.

(** What a record says of the request, and of the row that was there before. *)
Definition answers (request : EnsureWorkspaceRequest) (record : WorkspaceRecord) : Prop :=
  wr_repository record = ew_repository request ∧ wr_base_ref record = ew_base_ref request ∧ wr_state record = WsActive.

Definition agrees (row : WorkspaceRow) (record : WorkspaceRecord) : Prop :=
  wr_repository_id record = wsr_repository_id row ∧ wr_base_revision record = wsr_base_revision row.

Lemma try_from_agrees row record : WorkspaceRecord_try_from row = Ok record → agrees row record.
Proof. unfold WorkspaceRecord_try_from. intros Hr. inv_tx. done. Qed.

Lemma identity_agrees row row' record : workspace_identity row' = workspace_identity row → agrees row' record → agrees row record.
Proof. unfold workspace_identity. intros [= _ E1 E2 _] [A1 A2]. split; congruence. Qed.

(** Reading a binding. *)
Lemma load_workspace_call job_id w found w' :
  store_call (λ _ _, load_workspace job_id) w = (Ok found, w') →
  ∃ s, rtc store_step (host_db w) s ∧ rtc store_step s (host_db w')
    ∧ match found with
      | Some record => ∃ row, bound s job_id row ∧ WorkspaceRecord_try_from row = Ok record
      | None => workspaces s !! job_id = None
      end.
Proof.
  intros (s & s' & Hs & Hl & Hs')%store_call_lands. exists s. inversion Hl as [now id r s1 Hr| |]; subst.
  unfold load_workspace in Hr. injection Hr as Hr ->. split_and!; [done|done|].
  destruct (workspaces s' !! job_id) as [row|] eqn:E; cbn in Hr.
  - unfold map_transpose in Hr. destruct (WorkspaceRecord_try_from row) as [record|e] eqn:Er; [|done]. injection Hr as <-. by exists row.
  - by injection Hr as <-.
Qed.

(** Writing one. *)
Lemma put_workspace_call binding w record w' :
  store_call (λ now _, put_workspace now binding) w = (Ok record, w') →
  ∃ s, rtc store_step (host_db w) s ∧ wr_repository record = wb_repository binding ∧ wr_base_ref record = wb_base_ref binding
    ∧ wr_state record = WsActive ∧ ∀ row, bound s (wb_job_id binding) row → agrees row record.
Proof.
  intros (s & s' & Hs & Hl & _)%store_call_lands. exists s. split; [done|]. inversion Hl as [now id r s1 Hr| |]; subst.
  unfold put_workspace in Hr. apply bind_cases in Hr as [(e & [=] & _)|(row & s1 & Hc & Hr)].
  apply commit_Ok in Hc. inv_tx. apply proc_lift_Ok in Hr as [Hr _]. pose proof (try_from_agrees _ _ Hr) as Ha.
  unfold WorkspaceRecord_try_from in Hr. destruct (workspaces s !! wb_job_id binding) as [row|] eqn:E; cbn in Hr; inv_tx; cbn;
    (match goal with X : WorkspaceState_from_database_value "active" = Ok _ |- _ => vm_compute in X; injection X as <- end;
     split_and!; [done|done|done|]; intros row' Hb; unfold bound in Hb; rewrite E in Hb; by simplify_eq).
Qed.

(** ** Locks *)

Lemma with_lock_Ok {A : Type} key (p : proc W CoordinatorError A) w a w' :
  with_advisory_lock key p w = (Ok a, w') → ∃ w1 w2, db_moves w w1 ∧ p w1 = (Ok a, w2) ∧ db_moves w2 w'.
Proof.
  unfold with_advisory_lock. destruct (advisory_lock key w) as [[u|e] w1] eqn:El; [|done]. destruct (p w1) as [r w2] eqn:Ep.
  intros [= -> <-]. exists w1, w2. split_and!; [by eapply lock_moves|done|apply unlock_moves].
Qed.

Lemma with_gate_Ok {A : Type} (p : proc W CoordinatorError A) w a w' :
  with_gate p w = (Ok a, w') → ∃ w1 w2, db_moves w w1 ∧ p w1 = (Ok a, w2) ∧ db_moves w2 w'.
Proof.
  unfold with_gate. destruct (p (lock_gate w)) as [r w2] eqn:Ep. intros [= -> <-]. exists (lock_gate w), w2.
  split_and!; [apply gate_moves|done|apply ungate_moves].
Qed.

Lemma reuse_Ok existing w record w' :
  reuse_worktree m existing w = (Ok (Some record), w') → record = existing ∧ wr_state existing = WsActive.
Proof.
  unfold reuse_worktree. intros Hr. apply bind_cases in Hr as [(e & [=] & _)|(there & w1 & _ & Hr)].
  destruct (wr_state existing) eqn:Es, there; try done.
  apply bind_cases in Hr as [(e & [=] & _)|(wt & w2 & _ & Hr)]. apply bind_cases in Hr as [(e & [=] & _)|(linked & w3 & _ & Hr)].
  destruct linked; [|done]. apply bind_cases in Hr as [(e & [=] & _)|(u & w4 & _ & Hr)].
  apply bind_cases in Hr as [(e & [=] & _)|(u' & w5 & _ & Hr)]. by injection Hr as <- _.
Qed.

Lemma moves_by {E A : Type} (p : proc W E A) w r w' : p w = (r, w') → keeps_to db_moves p → db_moves w w'.
Proof. intros Hr Hp. by eapply Hp. Qed.

Lemma materialize_Ok job_id request existing w record w' :
  materialize m job_id request existing w = (Ok record, w') →
  ∃ s, rtc store_step (host_db w) s ∧ answers request record ∧ ∀ row, bound s job_id row → agrees row record.
Proof.
  unfold materialize. intros Hr. apply bind_cases in Hr as [(e & [=] & _)|([mirror resolved] & w1 & M1%ensure_mirror_moves & Hr)].
  apply bind_cases in Hr as [(e & [=] & _)|(revision & w2 & Hrev & Hr)].
  assert (db_moves w1 w2) as M2 by (eapply moves_by; [exact Hrev|]; destruct existing; stay_within).
  apply bind_cases in Hr as [(e & [=] & _)|(u1 & w3 & M3%in_mirror_moves & Hr)].
  apply bind_cases in Hr as [(e & [=] & _)|(there & w4 & M4%observe_moves & Hr)].
  apply bind_cases in Hr as [(e & [=] & _)|(u2 & w5 & Hrm & Hr)].
  assert (db_moves w4 w5) as M5 by (eapply moves_by; [exact Hrm|]; apply when_moves; stay_within).
  apply bind_cases in Hr as [(e & [=] & _)|(u3 & w6 & M6%add_worktree_moves & Hr)].
  apply bind_cases in Hr as [(e & [=] & _)|(root & w7 & Hroot & Hr)].
  assert (db_moves w6 w7) as M7 by (revert Hroot; apply within_map_err, canonicalize_moves).
  apply bind_cases in Hr as [(e & [=] & _)|(rejected & w8 & Hrej & Hr)].
  assert (db_moves w7 w8) as M8 by (revert Hrej; apply within_attempt, reject_moves).
  destruct rejected as [u|error].
  2: { apply bind_cases in Hr as [(e & [=] & _)|(t1 & w9 & _ & Hr)]. apply bind_cases in Hr as [(e & [=] & _)|(t2 & w10 & _ & Hr)].
       by apply bind_cases in Hr as [(e & [=] & _)|(u & w11 & _ & [=])]. }
  apply bind_cases in Hr as [(e & [=] & _)|(head & w9 & M9%in_worktree_moves & Hr)].
  apply bind_cases in Hr as [(e & [=] & _)|(text & w10 & [_ ->]%proc_lift_Ok & Hr)].
  apply put_workspace_call in Hr as (s & Hs & Hrep & Href & Hst & Hagree). exists s. split; [|by split].
  assert (db_moves w w9) as M; [|by etrans]. do 8 (etrans; [eassumption|]). eassumption.
Qed.

(** ** Whole operations *)

(** A read, and a call of the store. *)
Lemma read_call_moves {A : Type} (f : Z → string → Proc A) :
  (∀ now id s, (f now id s).2 = s) → keeps_to db_moves (store_call f : proc W _ _).
Proof.
  intros Hf w r w' (s & s' & Hs & Hl & Hs')%store_call_lands. unfold db_moves. etrans; [exact Hs|]. etrans; [|exact Hs'].
  destruct Hl as [now id r s' Hr|e|now id e]; [|done|by rewrite Hf]. rewrite <- (Hf now id s), Hr. done.
Qed.

Lemma write_call_moves {A : Type} (f : Z → string → Proc A) (c : Z → string → Call) :
  (∀ now id, forget (f now id) = call now (c now id)) → keeps_to db_moves (store_call f : proc W _ _).
Proof.
  intros Hf w r w' (s & s' & Hs & Hl & Hs')%store_call_lands. unfold db_moves. etrans; [exact Hs|]. etrans; [|exact Hs'].
  by eapply lands_step.
Qed.

Lemma load_job_call_moves job_id : keeps_to db_moves (store_call (λ _ _, load_job job_id) : proc W _ _).
Proof. by apply read_call_moves. Qed.
Lemma load_workspace_call_moves job_id : keeps_to db_moves (store_call (λ _ _, load_workspace job_id) : proc W _ _).
Proof. by apply read_call_moves. Qed.
Lemma load_environment_call_moves job_id : keeps_to db_moves (store_call (λ _ _, load_execution_environment job_id) : proc W _ _).
Proof. by apply read_call_moves. Qed.
Lemma put_workspace_call_moves binding : keeps_to db_moves (store_call (λ now _, put_workspace now binding) : proc W _ _).
Proof. by apply (write_call_moves _ (λ _ _, PutWorkspace binding)). Qed.
Lemma mark_removed_call_moves job_id : keeps_to db_moves (store_call (λ now _, mark_workspace_removed now job_id) : proc W _ _).
Proof. by apply (write_call_moves _ (λ _ _, MarkWorkspaceRemoved job_id)). Qed.

Lemma advisory_within {A : Type} key (p : proc W CoordinatorError A) : keeps_to db_moves p → keeps_to db_moves (with_advisory_lock key p).
Proof.
  intros Hp w r w'. unfold with_advisory_lock. destruct (advisory_lock key w) as [[u|e] w1] eqn:El.
  - destruct (p w1) as [r1 w2] eqn:Ep. intros [= <- <-]. etrans; [by eapply lock_moves|]. etrans; [by eapply Hp|apply unlock_moves].
  - intros [= <- <-]. by eapply lock_moves.
Qed.

Lemma gate_within {A : Type} (p : proc W CoordinatorError A) : keeps_to db_moves p → keeps_to db_moves (with_gate p).
Proof.
  intros Hp w r w'. unfold with_gate. destruct (p (lock_gate w)) as [r1 w1] eqn:Ep. intros [= <- <-].
  etrans; [apply gate_moves|]. etrans; [by eapply Hp|apply ungate_moves].
Qed.

#[local] Opaque with_advisory_lock with_gate.

#[local] Hint Resolve load_job_call_moves load_workspace_call_moves load_environment_call_moves put_workspace_call_moves
  mark_removed_call_moves : within.

Lemma workspace_load_moves job_id : keeps_to db_moves (workspace_load job_id : proc W _ _).
Proof. unfold workspace_load. stay_within. Qed.

Lemma patch_moves worktree base index : keeps_to db_moves (generate_result_patch worktree base index : proc W _ _).
Proof. unfold generate_result_patch, run_git_with_index, run_git_bytes_with_index. stay_within. Qed.

Lemma materialize_moves job_id request existing : keeps_to db_moves (materialize m job_id request existing : proc W _ _).
Proof. unfold materialize. stay_within. apply when_moves. stay_within. Qed.
#[local] Hint Resolve workspace_load_moves patch_moves materialize_moves : within.

Lemma workspace_ensure_moves job_id request : keeps_to db_moves (workspace_ensure m job_id request : proc W _ _).
Proof. unfold workspace_ensure. stay_within. apply advisory_within, gate_within. stay_within. apply advisory_within. stay_within. Qed.

Lemma workspace_refresh_moves job_id : keeps_to db_moves (workspace_refresh_revision job_id : proc W _ _).
Proof. apply advisory_within, gate_within. stay_within. Qed.

Lemma workspace_export_moves job_id : keeps_to db_moves (workspace_export_result m job_id : proc W _ _).
Proof. apply advisory_within, gate_within. stay_within. Qed.

Lemma workspace_remove_moves job_id : keeps_to db_moves (workspace_remove m job_id : proc W _ _).
Proof. apply advisory_within, gate_within. stay_within. apply when_moves. stay_within. Qed.
#[local] Transparent with_advisory_lock with_gate.
End binding.

(** ** A concrete world *)

(** A database, and a Git that answers as for a fresh cache of one repository. *)
Record EnsureWorld : Type := mkEnsureWorld {
  eww_db : db;
  eww_next : nat;
}.

#[local] Existing Instance demo_external.

#[local] Instance ensure_host : EnvironmentHost EnsureWorld := {|
  store_call A f w := let '(r, s) := f 60%Z "id" (eww_db w) in (r, mkEnsureWorld s (eww_next w));
  provisioner_backend := "local";
  durable_locator _ := Ok None;
  provision _ _ _ := λ w, (Ok (mkProvisioned "ref" "url"), w);
  deprovision _ := λ w, (Ok tt, w);
|}.

#[local] Instance ensure_host_laws : StoreHostLaws EnsureWorld.
Proof.
  refine {| host_db := eww_db |}.
  - intros A f w r w'. cbn. destruct (f 60%Z "id" (eww_db w)) as [r0 s] eqn:E. intros [= <- <-].
    exists (eww_db w), s. split_and!; [apply rtc_refl|by eapply LandsReturned|apply rtc_refl].
  - intros environment root metadata w r w' [= _ <-]. apply rtc_refl.
  - intros environment w r w' [= _ <-]. apply rtc_refl.
Defined.

Definition ensure_answer (args : list string) : string :=
  if decide ("--is-bare-repository" ∈ args) then "true"
  else if decide ("remote.origin.url" ∈ args) then "repo"
  else if decide ("--get-all" ∈ args) then REMOTE_BRANCH_REFSPEC +:+ String LF REMOTE_TAG_REFSPEC
  else if decide ("base^{commit}" ∈ args) then "base"
  else if decide ("for-each-ref" ∈ args ∨ "--verify" ∈ args ∨ "rev-parse" ∈ args) then "rev"
  else EmptyString.

#[local] Instance ensure_git : GitProcess EnsureWorld := {|
  git _ args w := (Ok (mkOutput true "exit status: 0" (ensure_answer args) EmptyString), w) |}.

#[local] Instance ensure_files : ArtifactFiles EnsureWorld := {|
  create_dir_all _ w := (Ok tt, w);
  write_file _ _ w := (Ok tt, w);
  rename_file _ _ w := (Ok tt, w);
  remove_file _ w := (Ok tt, w);
  read_file _ w := (Err (mkIoError true "not found"), w);
  is_regular_file _ _ := false;
  lock_file _ w := (Ok tt, w);
  new_uuid w := (pretty (eww_next w), mkEnsureWorld (eww_db w) (S (eww_next w)));
|}.

#[local] Instance ensure_workspace_files : WorkspaceFiles EnsureWorld := {|
  remove_dir_all _ w := (Ok tt, w);
  copy_file _ _ w := (Ok tt, w);
  canonicalize p w := (Ok p, w);
  path_exists _ _ := false;
  is_dir p _ := negb (bool_decide (p = "root"));
|}.

#[local] Instance ensure_locks : WorkspaceLocks EnsureWorld := {|
  advisory_lock _ w := (Ok tt, w);
  advisory_unlock _ w := w;
  lock_gate w := w;
  unlock_gate w := w;
|}.

#[local] Instance ensure_manager_laws : ManagerLaws EnsureWorld.
Proof. split; intros; try (intros w r w' [= _ <-]); apply rtc_refl. Qed.

#[local] Instance ensure_sha : Sha256 := {| sha256_hex s := s |}.

Definition ensure_manager : WorkspaceManager := mkWorkspaceManager "/r".
Definition ensure_request : EnsureWorkspaceRequest := mkEnsureWorkspaceRequest "rid" "repo" "HEAD".
Definition ensure_start : EnsureWorld := mkEnsureWorld (demo created_history) 0.

