(* ===== verification/Http.v ===== *)
(** * The coordinator's HTTP surface

    [coordinator/src/http.rs]: the routes, the extractors, the handlers over the
    store, the worktree manager and the artifact manager, and the records on the
    wire.  A handler runs in the world of the coordinator process; a request that
    reaches no handler is answered by the HTTP library. *)

From S2P Require Import Prelude Domain Rows Store Leases Events Runner Jobs Serde StageOutput ProviderTools AnthropicBridge BridgeServer StateBackend Executor EnvironmentWork ResponseStream Subagents Artifacts Git Worktrees.
From Stdlib Require Import ZArith Ascii String.
From stdpp Require Import base gmap strings list option pretty.

#[local] Open Scope string_scope.
#[local] Open Scope Z_scope.
#[local] Open Scope list_scope.

(** ** Routes *)

Inductive Method : Type := GET | POST | PUT | DELETE.

#[export] Instance Method_eq_dec : EqDecision Method.
Proof. solve_decision. Defined.

(** The handlers, with what their paths name. *)
Inductive Endpoint : Type :=
| Health
| CreateJobAt
| ListActiveJobs
| LoadJob (job_id : string)
| CancelJobAt (job_id : string)
| ContinueJobAt (job_id : string)
| ListJobAttempts (job_id : string)
| ListJobEvents (job_id : string)
| ExportWorkspaceResult (job_id : string)
| ListStageCheckpoints (job_id : string)
| LoadWorkspaceAt (job_id : string)
| EnsureWorkspaceAt (job_id : string)
| RemoveWorkspaceAt (job_id : string)
| RefreshWorkspaceRevision (job_id : string)
| AppendAttemptEventAt (attempt_id : string)
| LoadThreadState (thread_id : string)
| PutThreadStateAt (thread_id : string).

Definition on (m m' : Method) (e : Endpoint) : option Endpoint := if decide (m = m') then Some e else None.

(** What follows [/jobs/{job_id}]. *)
Definition job_router (m : Method) (job_id : string) (rest : list string) : option Endpoint :=
  if decide (rest = []) then on m GET (LoadJob job_id)
  else if decide (rest = ["cancel"]) then on m POST (CancelJobAt job_id)
  else if decide (rest = ["continue"]) then on m POST (ContinueJobAt job_id)
  else if decide (rest = ["attempts"]) then on m GET (ListJobAttempts job_id)
  else if decide (rest = ["events"]) then on m GET (ListJobEvents job_id)
  else if decide (rest = ["result"]) then on m GET (ExportWorkspaceResult job_id)
  else if decide (rest = ["stage-checkpoints"]) then on m GET (ListStageCheckpoints job_id)
  else if decide (rest = ["workspace"]) then
    match m with
    | GET => Some (LoadWorkspaceAt job_id)
    | PUT => Some (EnsureWorkspaceAt job_id)
    | DELETE => Some (RemoveWorkspaceAt job_id)
    | POST => None
    end
  else if decide (rest = ["workspace"; "revision"]) then on m POST (RefreshWorkspaceRevision job_id)
  else None.

(** A path parameter matches a segment that is not empty; a literal path goes
    before one with a parameter. *)
Definition router (m : Method) (path : list string) : option Endpoint :=
  if decide (path = ["healthz"]) then on m GET Health
  else if decide (path = ["jobs"]) then on m POST CreateJobAt
  else if decide (path = ["jobs"; "active"]) then on m GET ListActiveJobs
  else match path with
       | root :: id :: rest =>
           if decide (id = EmptyString) then None
           else if decide (root = "jobs") then job_router m id rest
           else if decide (root = "attempts" ∧ rest = ["events"]) then on m POST (AppendAttemptEventAt id)
           else if decide (root = "threads" ∧ rest = ["state"]) then
             match m with
             | GET => Some (LoadThreadState id)
             | PUT => Some (PutThreadStateAt id)
             | _ => None
             end
           else None
       | _ => None
       end.

(** ** What a request carries *)

(** [JobEventListQuery], from the decoded pairs of the query. *)
Definition default_job_event_limit : Z := 200.

Definition query_number (bits : Z) (d : Z) (key : string) (query : list (string * string)) : option Z :=
  match List.filter (λ kv, String.eqb kv.1 key) query with
  | [] => Some d
  | [(_, text)] => parse_unsigned bits text
  | _ => None
  end.

Definition de_event_query (query : list (string * string)) : option (Z * Z) :=
  after ← query_number 64 0 "after" query;
  limit ← query_number 32 default_job_event_limit "limit" query;
  Some (after, limit).

Definition de_operation_definition (v : Value) : option OperationDefinition :=
  fs ← struct_fields ["kind"; "input"; "maxAttempts"] v;
  match fs with
  | [f1; f2; f3] => kind ← field f1; input ← field f2; max_attempts ← field_u32 f3;
                    Some (mkOperationDefinition kind input max_attempts)
  | _ => None
  end.

Definition de_job_definition (v : Value) : option JobDefinition :=
  fs ← struct_fields ["kind"; "input"; "operations"] v;
  match fs with
  | [f1; f2; Present (Array l)] => kind ← field f1; input ← field f2; operations ← mapM de_operation_definition l;
                                   Some (mkJobDefinition kind input operations)
  | _ => None
  end.

(** [ContinueJobRequest]. *)
Definition de_continue_request (v : Value) : option string :=
  fs ← struct_fields ["feedback"] v;
  match fs with [f] => field f | _ => None end.

Definition default_workspace_base_ref : string := "HEAD".

Definition de_ensure_request (v : Value) : option EnsureWorkspaceRequest :=
  fs ← struct_fields ["repositoryId"; "repository"; "baseRef"] v;
  match fs with
  | [f1; f2; f3] => repository_id ← field f1; repository ← field f2; base_ref ← field_or default_workspace_base_ref f3;
                    Some (mkEnsureWorkspaceRequest repository_id repository base_ref)
  | _ => None
  end.

(** ** Records on the wire *)

Definition OperationState_wire (s : OperationState) : string :=
  match s with
  | OpReady => "ready"
  | OpRunning => "running"
  | OpRetryWait => "retryWait"
  | OpSucceeded => "succeeded"
  | OpFailed => "failed"
  | OpCancelled => "cancelled"
  end.

Definition AttemptState_wire (s : AttemptState) : string :=
  match s with AttRunning => "running" | AttSucceeded => "succeeded" | AttFailed => "failed" | AttAbandoned => "abandoned" end.

Definition RecoveryCause_wire (c : RecoveryCause) : string :=
  match c with NewOperation => "newOperation" | RetryScheduled => "retryScheduled" | LeaseExpired => "leaseExpired" end.

Definition WorkspaceState_wire (s : WorkspaceState) : string := match s with WsActive => "active" | WsRemoved => "removed" end.

Section wire.
Context `{External}.

Definition ser_time (t : Z) : Value := Str (rfc3339 t).

(** In camel case a job's state reads as it does in the database. *)
Definition ser_job_record (j : JobRecord) : Value := obj
  [("jobId", Str (job_id j)); ("kind", Str (job_kind j)); ("input", job_input j);
   ("state", Str (JobState_as_database_value (job_state j))); ("createdAt", ser_time (job_created_at j));
   ("updatedAt", ser_time (job_updated_at j))].

Definition ser_operation_record (o : OperationRecord) : Value := obj
  [("operationId", Str (op_operation_id o)); ("jobId", Str (op_job_id o)); ("ordinal", ser_u64 (op_ordinal o));
   ("kind", Str (op_kind o)); ("input", op_input o); ("state", Str (OperationState_wire (op_state o)));
   ("maxAttempts", ser_u64 (op_max_attempts o)); ("nextEligibleAt", ser_time (op_next_eligible_at o));
   ("createdAt", ser_time (op_created_at o)); ("updatedAt", ser_time (op_updated_at o))].

Definition ser_durable_job (j : DurableJob) : Value := obj
  [("job", ser_job_record (dj_job j)); ("operations", Array (ser_operation_record <$> dj_operations j))].

Definition ser_attempt_record (a : AttemptRecord) : Value := obj
  [("attemptId", Str (at_attempt_id a)); ("operationId", Str (at_operation_id a)); ("attemptNumber", ser_u64 (at_attempt_number a));
   ("state", Str (AttemptState_wire (at_state a))); ("ownerInstanceId", Str (at_owner_instance_id a));
   ("leaseEpoch", ser_u64 (at_lease_epoch a)); ("leaseExpiresAt", ser_time (at_lease_expires_at a));
   ("recoveryCause", Str (RecoveryCause_wire (at_recovery_cause a))); ("resumesAttemptId", ser (at_resumes_attempt_id a));
   ("resumesCheckpointId", ser (at_resumes_checkpoint_id a)); ("failure", ser (at_failure a));
   ("startedAt", ser_time (at_started_at a)); ("finishedAt", from_option ser_time Null (at_finished_at a))].

Definition ser_checkpoint_record (c : CheckpointRecord) : Value := obj
  [("checkpointId", Str (cp_checkpoint_id c)); ("attemptId", Str (cp_attempt_id c)); ("sequence", ser_u64 (cp_sequence c));
   ("kind", Str (cp_kind c)); ("payload", cp_payload c); ("workspaceRoot", ser (cp_workspace_root c));
   ("workspaceRevision", ser (cp_workspace_revision c)); ("correlationId", ser (cp_correlation_id c));
   ("createdAt", ser_time (cp_created_at c))].

Definition ser_stage_checkpoint_record (c : StageCheckpointRecord) : Value := obj
  [("operationId", Str (sc_operation_id c)); ("ordinal", ser_u64 (sc_ordinal c)); ("operationKind", Str (sc_operation_kind c));
   ("checkpoint", ser_checkpoint_record (sc_checkpoint c))].

Definition ser_event_page (p : JobEventPage) : Value := obj
  [("events", Array (ser_job_event <$> jp_events p)); ("nextCursor", ser_u64 (jp_next_cursor p))].

Definition ser_workspace_record (w : WorkspaceRecord) : Value := obj
  [("jobId", Str (wr_job_id w)); ("repositoryId", Str (wr_repository_id w)); ("repository", Str (wr_repository w));
   ("baseRef", Str (wr_base_ref w)); ("baseRevision", Str (wr_base_revision w)); ("branchName", Str (wr_branch_name w));
   ("root", Str (wr_root w)); ("revision", Str (wr_revision w)); ("state", Str (WorkspaceState_wire (wr_state w)));
   ("createdAt", ser_time (wr_created_at w)); ("updatedAt", ser_time (wr_updated_at w))].
End wire.

(** ** Handlers *)

(** A request that has been routed: its query and its body. *)
Record Request : Type := mkRequest {
  rq_query : list (string * string);
  rq_body : Value;
}.

(** A JSON document, or a patch with the headers of its metadata. *)
Inductive Reply : Type :=
| JsonReply (r : Response)
| PatchReply (patch : string) (headers : list (string * string)).

(** The answer of the query extractor to a query it cannot read, and
    [HeaderValue::from_str], which fails on a text no header can carry. *)
Class HttpLibrary : Type := {
  query_rejection : list (string * string) → Response;
  header_value : string → result string unit;
}.

(** A store call that draws as many identifiers as it needs. *)
Class ApiHost (W : Type) : Type := {
  store_call_ids : ∀ {A : Type}, (Z → string → (nat → string) → Proc A) → proc W CoordinatorError A;
}.

(** [ApiState]; the store is reached through the world. *)
Record ApiState : Type := mkApiState {
  as_workspaces : WorkspaceManager;
  as_artifacts : ArtifactManager;
}.

(** [serve_http] and [serve_http_with_workspaces]: the managers come from the
    environment, and nothing is served when one of them cannot be made. *)
Definition serve_state (env : string → option string) (temp_dir : string) : Result ApiState :=
  workspaces ← workspace_manager_from_env env temp_dir;
  artifacts ← manager_from_env env temp_dir;
  Ok (mkApiState workspaces artifacts).

Section handlers.
Context `{External, ErrorText, HttpText, HttpLibrary} {W : Type}.
Context `{EnvironmentHost W, ApiHost W, GitProcess W, ArtifactFiles W, WorkspaceFiles W, WorkspaceLocks W}.
Context `{Rendering, CoordinatorText, Sha256}.
Context (state : ApiState).

(** A handler ends with a reply, or with the error that is answered instead. *)
Abbreviation Api := (proc W ApiError).

Definition try_ {A : Type} (p : proc W CoordinatorError A) : Api A := map_err ApiCoordinator p.
Definition json (status : Z) (body : Value) : Api Reply := done (JsonReply (mkResponse status body)).

(** [Json]: a body of another shape is answered by the extractor. *)
Definition with_body {A : Type} (decode : Value → option A) (body : Value) (k : A → Api Reply) : Api Reply :=
  match decode body with Some a => k a | None => done (JsonReply (rejection body)) end.

Definition artifact_warning (result : Result (list ArtifactProjectionWarning)) : option string :=
  match result with
  | Ok [] => None
  | Ok warnings => Some (pretty (Z.of_nat (length warnings)) +:+ " local artifact projection file(s) could not be refreshed")
  | Err error => Some ("job artifact initialization failed: " +:+ error_text error)
  end.

Definition initialize_job_artifacts (job : DurableJob) (workspace : option WorkspaceRecord) : Api unit :=
  result ← attempt (initialize_job_files (as_artifacts state) job workspace);
  match artifact_warning result with
  | None => done tt
  | Some warning => ignore (store_call (λ now _, append_job_event now
      (mkNewJobEvent (job_id (dj_job job)) "artifact.warning" (obj [("message", Str warning)]))))
  end.

Definition health : Api Reply := json 200 (obj [("status", Str "ok")]).

Definition create_job_handler (definition : JobDefinition) : Api Reply :=
  job ← try_ (store_call_ids (λ now id ids, create_job now id ids definition));
  _ ← initialize_job_artifacts job None;
  json 201 (ser_durable_job job).

Definition load_job_handler (job_id : string) : Api Reply :=
  job ← try_ (store_call (λ _ _, load_job job_id));
  json 200 (ser_durable_job job).

Definition list_active_jobs_handler : Api Reply :=
  jobs ← try_ (store_call (λ _ _, list_active_jobs));
  json 200 (Array (ser_durable_job <$> jobs)).

Definition cancel_job_handler (job_id : string) : Api Reply :=
  job ← try_ (store_call (λ now _, cancel_job now job_id));
  json 200 (ser_durable_job job).

Definition continue_job_handler (id feedback : string) : Api Reply :=
  job ← try_ (store_call_ids (λ now _ ids, continue_job now ids id feedback));
  workspace ← try_ (store_call (λ _ _, load_workspace (job_id (dj_job job))));
  _ ← initialize_job_artifacts job workspace;
  json 200 (ser_durable_job job).

Definition list_stage_checkpoints_handler (job_id : string) : Api Reply :=
  checkpoints ← try_ (store_call (λ _ _, list_stage_checkpoints job_id));
  json 200 (Array (ser_stage_checkpoint_record <$> checkpoints)).

Definition list_job_attempts_handler (job_id : string) : Api Reply :=
  attempts ← try_ (store_call (λ _ _, list_job_attempts job_id));
  json 200 (Array (ser_attempt_record <$> attempts)).

Definition list_job_events_handler (job_id : string) (query : list (string * string)) : Api Reply :=
  match de_event_query query with
  | None => done (JsonReply (query_rejection query))
  | Some (after, limit) =>
      page ← try_ (store_call (λ _ _, list_job_events job_id after limit));
      json 200 (ser_event_page page)
  end.

Definition insert_result_header (name value : string) (headers : list (string * string)) : Api (list (string * string)) :=
  match header_value value with
  | Ok _ => done (headers ++ [(name, value)])
  | Err error => fail (ApiCoordinator (Workspace [Lit "invalid "; Display name; Lit " result metadata: "; Display error]))
  end.

Definition export_workspace_result (job_id : string) : Api Reply :=
  result ← try_ (workspace_export_result (as_workspaces state) job_id);
  let headers := [("content-type", "application/vnd.git.patch")] in
  headers ← insert_result_header "x-factory-repository-id" (wres_repository_id result) headers;
  headers ← insert_result_header "x-factory-base-revision" (wres_base_revision result) headers;
  headers ← insert_result_header "x-factory-patch-sha256" (wres_patch_sha256 result) headers;
  done (PatchReply (wres_patch result) headers).

Definition ensure_workspace_handler (job_id : string) (request : EnsureWorkspaceRequest) : Api Reply :=
  workspace ← try_ (workspace_ensure (as_workspaces state) job_id request);
  loaded ← attempt (store_call (λ _ _, load_job (wr_job_id workspace)));
  _ ← match loaded with
      | Ok job => initialize_job_artifacts job (Some workspace)
      | Err _ => done tt
      end;
  json 200 (ser_workspace_record workspace).

Definition load_workspace_handler (job_id : string) : Api Reply :=
  workspace ← try_ (workspace_load job_id);
  json 200 (ser_workspace_record workspace).

Definition refresh_workspace_revision (job_id : string) : Api Reply :=
  workspace ← try_ (workspace_refresh_revision job_id);
  json 200 (ser_workspace_record workspace).

Definition remove_workspace (job_id : string) : Api Reply :=
  workspace ← try_ (workspace_remove (as_workspaces state) job_id);
  json 200 (ser_workspace_record workspace).

Definition append_attempt_event_handler (request : AttemptFence * NewAttemptEvent) : Api Reply :=
  record ← try_ (store_call (λ now _, append_attempt_event now request.1 request.2));
  json 201 (ser_job_event record).

Definition load_thread_state_handler (thread_id : string) : Api Reply :=
  found ← try_ (store_call (λ _ _, load_thread_state thread_id));
  record ← proc_lift (ok_or found (ThreadStateNotFound thread_id));
  json 200 (ser_thread_state record).

Definition put_thread_state_handler (thread_id : string) (request : AttemptFence * Value) : Api Reply :=
  record ← try_ (store_call (λ now _, put_thread_state now request.1 thread_id request.2));
  json 200 (ser_thread_state record).

Definition handle_request (e : Endpoint) (rq : Request) : Api Reply :=
  match e with
  | Health => health
  | CreateJobAt => with_body de_job_definition (rq_body rq) create_job_handler
  | ListActiveJobs => list_active_jobs_handler
  | LoadJob job_id => load_job_handler job_id
  | CancelJobAt job_id => cancel_job_handler job_id
  | ContinueJobAt job_id => with_body de_continue_request (rq_body rq) (continue_job_handler job_id)
  | ListJobAttempts job_id => list_job_attempts_handler job_id
  | ListJobEvents job_id => list_job_events_handler job_id (rq_query rq)
  | ExportWorkspaceResult job_id => export_workspace_result job_id
  | ListStageCheckpoints job_id => list_stage_checkpoints_handler job_id
  | LoadWorkspaceAt job_id => load_workspace_handler job_id
  | EnsureWorkspaceAt job_id => with_body de_ensure_request (rq_body rq) (ensure_workspace_handler job_id)
  | RemoveWorkspaceAt job_id => remove_workspace job_id
  | RefreshWorkspaceRevision job_id => refresh_workspace_revision job_id
  | AppendAttemptEventAt attempt_id => with_body (de_event_request attempt_id) (rq_body rq) append_attempt_event_handler
  | LoadThreadState thread_id => load_thread_state_handler thread_id
  | PutThreadStateAt thread_id => with_body de_write_request (rq_body rq) (put_thread_state_handler thread_id)
  end.

(** The reply to a request: an error becomes its response. *)
Definition serve (e : Endpoint) (rq : Request) (w : W) : Reply * W :=
  match handle_request e rq w with
  | (Ok reply, w') => (reply, w')
  | (Err error, w') => (JsonReply (into_response error), w')
  end.
End handlers.
