(* ===== verification/HttpLaws.v ===== *)
(** * Laws of the HTTP surface

    With store calls that interleave with everybody else's and may be lost, and
    processes, files and locks that behave in any way: requests move the database
    only by the store's calls, the routes over the store answer as if they ran at
    one moment, and a patch is handed out only of a succeeded job. *)

From S2P Require Import Prelude Domain Rows Store Leases Events Environments Attempts Jobs Recovery Lifecycle Refinement System Safety.
From S2P Require Import Runner Serde StageOutput ProviderTools StateBackend Executor Keeps EnvironmentWork EnvironmentWorkLaws ResponseStream Subagents.
From S2P Require Import ExecutorLaws Artifacts Git Worktrees EnsureLaws Http.
From Stdlib Require Import ZArith Ascii String.
From stdpp Require Import base gmap strings list option relations pretty.

#[local] Open Scope string_scope.
#[local] Open Scope Z_scope.
#[local] Open Scope list_scope.

(** ** Paths *)

Definition path_of (e : Endpoint) : Method * list string :=
  match e with
  | Health => (GET, ["healthz"])
  | CreateJobAt => (POST, ["jobs"])
  | ListActiveJobs => (GET, ["jobs"; "active"])
  | LoadJob id => (GET, ["jobs"; id])
  | CancelJobAt id => (POST, ["jobs"; id; "cancel"])
  | ContinueJobAt id => (POST, ["jobs"; id; "continue"])
  | ListJobAttempts id => (GET, ["jobs"; id; "attempts"])
  | ListJobEvents id => (GET, ["jobs"; id; "events"])
  | ExportWorkspaceResult id => (GET, ["jobs"; id; "result"])
  | ListStageCheckpoints id => (GET, ["jobs"; id; "stage-checkpoints"])
  | LoadWorkspaceAt id => (GET, ["jobs"; id; "workspace"])
  | EnsureWorkspaceAt id => (PUT, ["jobs"; id; "workspace"])
  | RemoveWorkspaceAt id => (DELETE, ["jobs"; id; "workspace"])
  | RefreshWorkspaceRevision id => (POST, ["jobs"; id; "workspace"; "revision"])
  | AppendAttemptEventAt id => (POST, ["attempts"; id; "events"])
  | LoadThreadState id => (GET, ["threads"; id; "state"])
  | PutThreadStateAt id => (PUT, ["threads"; id; "state"])
  end.

(** A request reaches the handler whose path it names, and no other. *)
Lemma router_path m path e : router m path = Some e → path_of e = (m, path).
Proof.
  unfold router, job_router, on. repeat case_decide; subst; repeat case_match; subst; intros; simplify_eq/=; try done;
    repeat case_decide; simplify_eq/=; destruct_and?; subst; try done.
Qed.

(** Every handler is reached, by a name that is not empty and does not hide the
    list of active jobs. *)
Lemma path_router e :
  (∀ id, id ∈ (path_of e).2 → id ≠ EmptyString) → e ≠ LoadJob "active" → router (path_of e).1 (path_of e).2 = Some e.
Proof.
  intros Hne Ha. destruct e as [| | |id|id|id|id|id|id|id|id|id|id|id|id|id|id]; try reflexivity;
    pose proof (Hne id ltac:(cbn; rewrite !elem_of_cons; tauto)) as Hid; unfold router, job_router, on; cbn;
    repeat (case_decide; simplify_eq/=; try done); naive_solver.
Qed.

(** ** The world *)

(** A call that draws identifiers lands as the others do. *)
Class ApiHostLaws (W : Type) `{External} `{!EnvironmentHost W} `{!StoreHostLaws W} `{!ApiHost W} : Prop := {
  store_call_ids_lands {A} (f : Z → string → (nat → string) → Proc A) w r w' : store_call_ids f w = (r, w') →
    ∃ ids s s', rtc store_step (host_db w) s ∧ lands (λ now id, f now id ids) s r s' ∧ rtc store_step s' (host_db w');
}.

Section http.
Context `{External} {W : Type} `{!EnvironmentHost W} `{!StoreHostLaws W} `{!ApiHost W} `{!ApiHostLaws W}.
Context `{GitProcess W, ArtifactFiles W, WorkspaceFiles W, WorkspaceLocks W, !ManagerLaws W} `{Sha256}.
Context `{ErrorText, HttpText, HttpLibrary, Rendering, CoordinatorText}.
Context (state : ApiState).
Implicit Types w : W.

#[local] Existing Instance db_moves_preorder.

Lemma ids_call_moves {A : Type} (f : Z → string → (nat → string) → Proc A) (c : Z → string → (nat → string) → Call) :
  (∀ now id ids, forget (f now id ids) = call now (c now id ids)) → keeps_to db_moves (store_call_ids f : proc W _ _).
Proof.
  intros Hf w r w' (ids & s & s' & Hs & Hl & Hs')%store_call_ids_lands. unfold db_moves. etrans; [exact Hs|]. etrans; [|exact Hs'].
  eapply (lands_step _ (λ now id, c now id ids)); [|done]. intros now id. apply Hf.
Qed.

(** ** Artifacts *)

Lemma fresh_uuid_moves {E : Type} : keeps_to db_moves (fresh_uuid (E := E) : proc W _ _).
Proof.
  intros w r w'. unfold fresh_uuid. destruct (new_uuid w) as [id w1] eqn:Eu. intros [= _ <-].
  eapply (uuid_moves w (Ok id)). unfold fresh_uuid. by rewrite Eu.
Qed.

#[local] Hint Resolve create_dir_moves write_moves rename_moves remove_moves fresh_uuid_moves load_job_call_moves
  load_workspace_call_moves : within.

Lemma atomic_replace_moves directory name contents : keeps_to db_moves (atomic_replace directory name contents : proc W _ _).
Proof. unfold atomic_replace. stay_within. Qed.
#[local] Hint Resolve atomic_replace_moves : within.

Lemma write_job_file_moves paths file contents : keeps_to db_moves (write_job_file paths file contents : proc W _ _).
Proof. unfold write_job_file, warned, project_file. stay_within. Qed.
#[local] Hint Resolve write_job_file_moves : within.

Lemma write_files_moves paths files warnings : keeps_to db_moves (write_files paths files warnings : proc W _ _).
Proof. revert warnings. induction files as [|[file contents] rest IH]; intros warnings; cbn [write_files]; stay_within. Qed.
#[local] Hint Resolve write_files_moves : within.

(** The writes the routes make. *)
Lemma job_event_moves event : keeps_to db_moves (store_call (λ now _, append_job_event now event) : proc W _ _).
Proof. by apply (write_call_moves _ (λ _ _, AppendJobEvent event)). Qed.
Lemma attempt_event_moves fence event : keeps_to db_moves (store_call (λ now _, append_attempt_event now fence event) : proc W _ _).
Proof. by apply (write_call_moves _ (λ _ _, AppendAttemptEvent fence event)). Qed.
Lemma cancel_moves id : keeps_to db_moves (store_call (λ now _, cancel_job now id) : proc W _ _).
Proof. by apply (write_call_moves _ (λ _ _, CancelJob id)). Qed.
Lemma thread_state_moves fence id v : keeps_to db_moves (store_call (λ now _, put_thread_state now fence id v) : proc W _ _).
Proof. by apply (write_call_moves _ (λ _ _, PutThreadState fence id v)). Qed.
Lemma create_moves d : keeps_to db_moves (store_call_ids (λ now id ids, create_job now id ids d) : proc W _ _).
Proof. by apply (ids_call_moves _ (λ _ id ids, CreateJob id ids d)). Qed.
Lemma continue_moves id feedback : keeps_to db_moves (store_call_ids (λ now _ ids, continue_job now ids id feedback) : proc W _ _).
Proof. by apply (ids_call_moves _ (λ _ _ ids, ContinueJob ids id feedback)). Qed.
#[local] Hint Resolve job_event_moves attempt_event_moves cancel_moves thread_state_moves create_moves continue_moves : within.

Lemma artifacts_moves job workspace : keeps_to db_moves (initialize_job_artifacts state job workspace : proc W _ _).
Proof.
  unfold initialize_job_artifacts, initialize_job_files, ensure_coordinator_job_dir. stay_within.
Qed.

(** It never fails. *)
Lemma initialize_Ok job workspace w : ∃ w', initialize_job_artifacts state job workspace w = (Ok tt, w') ∧ db_moves w w'.
Proof.
  destruct (initialize_job_artifacts state job workspace w) as [r w'] eqn:Er. pose proof (artifacts_moves _ _ _ _ _ Er) as Hm.
  exists w'. split; [|done]. f_equal. revert Er. unfold initialize_job_artifacts, attempt, mbind, proc_bind, ignore.
  destruct (initialize_job_files _ _ _ w) as [r0 w0]. destruct (artifact_warning r0); by intros [= <- _].
Qed.

(** ** Every route *)

#[local] Hint Resolve artifacts_moves workspace_load_moves workspace_ensure_moves workspace_refresh_moves workspace_export_moves
  workspace_remove_moves : within.

Lemma list_job_events_reads id after limit s : (list_job_events id after limit s).2 = s.
Proof.
  unfold list_job_events. match goal with |- (commit ?t s).2 = s => destruct (commit_snd t s) as [E|[page Hp]]; [exact E|] end.
  set (s' := (commit _ s).2) in *. clearbody s'. by inv_tx.
Qed.

Lemma handle_moves e rq : keeps_to db_moves (handle_request state e rq : proc W _ _).
Proof.
  destruct e; cbn [handle_request]; unfold with_body, health, json; stay_within.
  all: try (apply read_call_moves; done).
  all: unfold list_job_events_handler, insert_result_header; stay_within.
  apply read_call_moves. intros. apply list_job_events_reads.
Qed.

Lemma serve_moves e rq w reply w' : serve state e rq w = (reply, w') → db_moves w w'.
Proof.
  unfold serve. destruct (handle_request state e rq w) as [[r|error] w1] eqn:Eh; intros [= _ <-]; by apply handle_moves in Eh.
Qed.

(** Requests one after the other, of any clients. *)
Fixpoint serve_all (requests : list (Endpoint * Request)) (w : W) : list Reply * W :=
  match requests with
  | [] => ([], w)
  | (e, rq) :: rest =>
      let '(reply, w1) := serve state e rq w in
      let '(replies, w2) := serve_all rest w1 in (reply :: replies, w2)
  end.


(** ** One moment *)

(** What a route over the store does on the database, at one moment.  A route that
    makes several calls has no such description. *)
Definition at_once (e : Endpoint) (rq : Request) : option (Z → string → (nat → string) → db → Response * db) :=
  match e with
  | Health => Some (λ _ _ _ s, (mkResponse 200 (obj [("status", Str "ok")]), s))
  | CreateJobAt => Some (λ now id ids s,
      match de_job_definition (rq_body rq) with
      | Some d => handle_result (create_job now id ids d) (λ job, Ok (mkResponse 201 (ser_durable_job job))) s
      | None => (rejection (rq_body rq), s)
      end)
  | ListActiveJobs => Some (λ _ _ _,
      handle_result list_active_jobs (λ jobs, Ok (mkResponse 200 (Array (ser_durable_job <$> jobs)))))
  | LoadJob id => Some (λ _ _ _, handle_result (load_job id) (λ job, Ok (mkResponse 200 (ser_durable_job job))))
  | CancelJobAt id => Some (λ now _ _, handle_result (cancel_job now id) (λ job, Ok (mkResponse 200 (ser_durable_job job))))
  | ListJobAttempts id => Some (λ _ _ _,
      handle_result (list_job_attempts id) (λ l, Ok (mkResponse 200 (Array (ser_attempt_record <$> l)))))
  | ListJobEvents id => Some (λ _ _ _ s,
      match de_event_query (rq_query rq) with
      | Some (after, limit) => handle_result (list_job_events id after limit) (λ p, Ok (mkResponse 200 (ser_event_page p))) s
      | None => (query_rejection (rq_query rq), s)
      end)
  | ListStageCheckpoints id => Some (λ _ _ _,
      handle_result (list_stage_checkpoints id) (λ l, Ok (mkResponse 200 (Array (ser_stage_checkpoint_record <$> l)))))
  | AppendAttemptEventAt id => Some (λ now _ _, post_attempt_event id (rq_body rq) now)
  | LoadThreadState id => Some (λ now _ _, get_thread_state id now)
  | PutThreadStateAt id => Some (λ now _ _, put_thread_state_route id (rq_body rq) now)
  | _ => None
  end.

(** The response to a lost connection of the store. *)
Definition lost (e : DbError) : Response := into_response (ApiCoordinator (Database e)).

Inductive answered (h : Z → string → (nat → string) → db → Response * db) (s : db) : Response → db → Prop :=
| AnsweredAt now id ids r s' : h now id ids s = (r, s') → answered h s r s'
| CallLost e : answered h s (lost e) s
| AnswerOfCallLost now id ids e : answered h s (lost e) (h now id ids s).2.

Lemma answer_snd {A : Type} (p : Proc A) answer s : (handle_result p answer s).2 = (p s).2.
Proof. unfold handle_result. by destruct (p s) as [[a|e] s1]. Qed.

(** A landed call, answered. *)
Lemma lands_answered {A : Type} (f : Z → string → (nat → string) → Proc A) ids answer s r s' h :
  lands (λ now id, f now id ids) s r s' → (∀ now id, h now id ids s = handle_result (f now id ids) answer s) →
  answered h s (match r with Ok a => respond_with (answer a) | Err e => into_response (ApiCoordinator e) end) s'.
Proof.
  intros Hl Hh. destruct Hl as [now id r s' Hr|e|now id e].
  - apply (AnsweredAt _ _ now id ids). rewrite Hh. unfold handle_result. rewrite Hr. by destruct r.
  - apply CallLost.
  - rewrite <- (answer_snd (f now id ids) answer), <- Hh. apply AnswerOfCallLost.
Qed.

(** The moment of a call within a request. *)
Definition moment (h : Z → string → (nat → string) → db → Response * db) w reply w' : Prop :=
  ∃ r s s', rtc store_step (host_db w) s ∧ answered h s r s' ∧ rtc store_step s' (host_db w') ∧ reply = JsonReply r.

Lemma one_call {A : Type} (f : Z → string → Proc A) (answer : A → result ApiError Response) h w reply w' :
  (let '(r, w1) := store_call f w in
   (JsonReply (match r with Ok a => respond_with (answer a) | Err e => into_response (ApiCoordinator e) end), w1)) = (reply, w') →
  (∀ now id ids s, h now id ids s = handle_result (f now id) answer s) → moment h w reply w'.
Proof.
  destruct (store_call f w) as [r w1] eqn:Ef. intros [= <- <-] Hh. apply store_call_lands in Ef as (s & s' & Hs & Hl & Hs').
  exists (match r with Ok a => respond_with (answer a) | Err e => into_response (ApiCoordinator e) end), s, s'.
  split_and!; [done| |done|done]. by apply (lands_answered (λ now id _, f now id) (λ _, EmptyString)).
Qed.

Lemma no_call (r : Response) h w : (∀ now id ids s, h now id ids s = (r, s)) → moment h w (JsonReply r) w.
Proof. intros Hh. exists r, (host_db w), (host_db w). split_and!; [done| |done|done]. by apply (AnsweredAt _ _ 0 EmptyString (λ _, EmptyString)). Qed.

(** Finds the call of a route that makes one. *)
Ltac single Hs :=
  match type of Hs with context [store_call ?f ?w] =>
    eapply (one_call f); [|intros; reflexivity];
    rewrite <- Hs; destruct (store_call f w) as [[?|?] ?]; try reflexivity
  end.

Lemma create_moment body h w reply w' :
  at_once CreateJobAt body = Some h → serve state CreateJobAt body w = (reply, w') → moment h w reply w'.
Proof.
  intros [= <-]. unfold serve, handle_request, with_body. destruct (de_job_definition (rq_body body)) as [d|] eqn:Ed.
  2: { intros [= <- <-]. apply no_call. reflexivity. }
  unfold create_job_handler, try_, map_err, mbind, proc_bind. destruct (store_call_ids _ w) as [r w1] eqn:Ec.
  apply store_call_ids_lands in Ec as (ids & s & s' & Hs & Hl & Hs'). intros Hr.
  pose (f := λ now id ids, create_job now id ids d). change (lands (λ now id, f now id ids) s r s') in Hl.
  pose proof (lands_answered f ids (λ job, Ok (mkResponse 201 (ser_durable_job job))) s r s'
    (λ now id ids s, handle_result (f now id ids) (λ job, Ok (mkResponse 201 (ser_durable_job job))) s) Hl (λ _ _, eq_refl)) as Ha.
  destruct r as [job|e].
  - destruct (initialize_Ok job None w1) as (w2 & E2 & Hm). rewrite E2 in Hr. injection Hr as <- <-.
    eexists _, s, s'. split_and!; [done|exact Ha|by etrans|done].
  - injection Hr as <- <-. eexists _, s, s'. split_and!; [done|exact Ha|done|done].
Qed.


(** ** Results *)

Lemma load_job_call id w job w' : store_call (λ _ _, load_job id) w = (Ok job, w') →
  ∃ s, rtc store_step (host_db w) s ∧ load_job id s = (Ok job, s) ∧ rtc store_step s (host_db w').
Proof.
  intros (s & s' & Hs & Hl & Hs')%store_call_lands. exists s. inversion Hl as [now id' r s1 Hr| |]; subst.
  unfold load_job in *. injection Hr as Hr ->. by rewrite Hr.
Qed.

(** What is exported, and of what. *)
Definition exported_of (id : string) (result : WorkspaceResult) (from to : db) : Prop :=
  ∃ s job s' row record,
    rtc store_step from s ∧ load_job id s = (Ok job, s) ∧ job_state (dj_job job) = JobSucceeded
    ∧ rtc store_step s s' ∧ workspaces s' !! id = Some row ∧ WorkspaceRecord_try_from row = Ok record ∧ rtc store_step s' to
    ∧ wres_repository_id result = wr_repository_id record ∧ wres_base_revision result = wr_base_revision record
    ∧ wres_patch_sha256 result = sha256_hex (wres_patch result).

#[local] Hint Resolve managed_moves reject_moves patch_moves : within.

Lemma export_result_Ok m id w result w' :
  workspace_export_result m id w = (Ok result, w') → exported_of id result (host_db w) (host_db w').
Proof.
  unfold workspace_export_result. intros (w1 & w1' & M1 & Hr & M1')%with_lock_Ok. apply with_gate_Ok in Hr as (w2 & w2' & M2 & Hr & M2').
  apply bind_cases in Hr as [(e & [=] & _)|(job & w3 & Hj & Hr)]. apply load_job_call in Hj as (s & Hs & Hj & Hs').
  destruct (decide (job_state (dj_job job) = JobSucceeded)) as [Hst|Hst]; [|by rewrite bool_decide_eq_false_2 in Hr].
  rewrite bool_decide_eq_true_2 in Hr by done. cbn [negb] in Hr.
  apply bind_cases in Hr as [(e & [=] & _)|(record & w4 & Hw & Hr)].
  unfold workspace_load in Hw. apply bind_cases in Hw as [(e & [=] & _)|(found & w5 & Hl & Hf)].
  apply proc_lift_Ok in Hf as [Hf ->]. destruct found as [record'|]; [|done]. injection Hf as ->.
  apply load_workspace_call in Hl as (s' & Hws & Hws' & row & Hrow & Hrec).
  assert (db_moves w5 w2' ∧ wres_repository_id result = wr_repository_id record ∧ wres_base_revision result = wr_base_revision record
          ∧ wres_patch_sha256 result = sha256_hex (wres_patch result)) as (M5 & Hres).
  { split.
    - eapply moves_by; [exact Hr|]. stay_within.
    - apply bind_cases in Hr as [(e & [=] & _)|(wt & w6 & _ & Hr)]. do 3 (apply bind_cases in Hr as [(e & [=] & _)|(? & ? & _ & Hr)]).
      apply bind_cases in Hr as [(e & [=] & _)|(generated & w8 & _ & Hr)]. do 2 (apply bind_cases in Hr as [(e & [=] & _)|(? & ? & _ & Hr)]).
      apply bind_cases in Hr as [(e & [=] & _)|(patch & w9 & _ & Hr)]. by injection Hr as <- _. }
  exists s, job, s', row, record. split_and!; [by etrans; [exact M1|]; etrans; [exact M2|]|done|done|by etrans|done|done| |apply Hres..].
  etrans; [exact Hws'|]. etrans; [exact M5|]. by etrans.
Qed.

(** A patch is handed out only as the labelled result of a succeeded job.  When
    the result of a job is answered with a patch, the job had succeeded at a
    moment of the request and was bound to a worktree at a later one; the headers
    carry the repository identity and the base revision of that binding and the
    SHA-256 of exactly the bytes sent, each in a form a header can carry. *)
Theorem exported_patch_labelled id rq w patch headers w' :
  serve state (ExportWorkspaceResult id) rq w = (PatchReply patch headers, w') →
  ∃ s job s' row record,
    rtc store_step (host_db w) s ∧ load_job id s = (Ok job, s) ∧ job_state (dj_job job) = JobSucceeded
    ∧ rtc store_step s s' ∧ workspaces s' !! id = Some row ∧ WorkspaceRecord_try_from row = Ok record
    ∧ rtc store_step s' (host_db w')
    ∧ headers = [("content-type", "application/vnd.git.patch"); ("x-factory-repository-id", wr_repository_id record);
                 ("x-factory-base-revision", wr_base_revision record); ("x-factory-patch-sha256", sha256_hex patch)]
    ∧ Forall (λ kv, header_value kv.2 = Ok tt) (tail headers).
Proof.
  unfold serve. cbn [handle_request]. unfold export_workspace_result, try_, map_err.
  destruct (workspace_export_result (as_workspaces state) id w) as [[result|e] w1] eqn:Ex; cycle 1.
  { unfold mbind, proc_bind. by rewrite Ex. }
  intros Hr. apply export_result_Ok in Ex as Hx. destruct Hx as (s & job & s' & row & record & Hs1 & Hj & Hst & Hs2 & Hrow & Hrec & Hs3 & E1 & E2 & E3).
  unfold mbind, proc_bind in Hr. rewrite Ex in Hr. rewrite E1, E2, E3 in Hr. unfold insert_result_header in Hr.
  destruct (header_value (wr_repository_id record)) as [[]|?] eqn:V1; [|done]. cbn in Hr.
  destruct (header_value (wr_base_revision record)) as [[]|?] eqn:V2; [|done]. cbn in Hr.
  destruct (header_value (sha256_hex (wres_patch result))) as [[]|?] eqn:V3; [|done]. cbn in Hr. injection Hr as <- <- <-.
  exists s, job, s', row, record. split_and!; try done. cbn [tail]. by repeat constructor.
Qed.
End http.

(** ** A coordinator at work *)

#[local] Existing Instances demo_external ensure_host ensure_host_laws ensure_git ensure_files ensure_workspace_files ensure_locks
  ensure_manager_laws ensure_sha.

#[local] Instance api_host : ApiHost EnsureWorld := {|
  store_call_ids A f w := let '(r, s) := f 70 "K" (demo_ids "k") (eww_db w) in (r, mkEnsureWorld s (eww_next w));
|}.

#[local] Instance api_host_laws : ApiHostLaws EnsureWorld.
Proof.
  split. intros A f w r w'. cbn. destruct (f 70 "K" (demo_ids "k") (eww_db w)) as [r0 s] eqn:E. intros [= <- <-].
  exists (demo_ids "k"), (eww_db w), s. split_and!; [apply rtc_refl|by eapply LandsReturned|apply rtc_refl].
Qed.

#[local] Instance api_error_text : ErrorText := {| error_text _ := "error" |}.
#[local] Instance api_coordinator_text : CoordinatorText := {| coordinator_text _ := "error" |}.
#[local] Instance api_http_text : HttpText := {|
  status_text _ := "status"; body_text _ := "body"; decode_text _ := "decode"; rejection _ := mkResponse 422 Null |}.
#[local] Instance api_library : HttpLibrary := {| query_rejection _ := mkResponse 400 Null; header_value _ := Ok tt |}.
#[local] Instance api_rendering : Rendering := {| unicode_uppercase s := s; to_vec_pretty _ := Ok "{}" |}.

Definition api_state : ApiState := mkApiState ensure_manager (mkArtifactManager "/a" None).

Definition create_request : Request := mkRequest [] (obj
  [("kind", Str "factory.task"); ("input", demo_input);
   ("operations", Array [obj [("kind", Str "codex.plan"); ("input", Object []); ("maxAttempts", ser_u64 2)]])]).
Definition bind_request : Request := mkRequest [] (obj [("repositoryId", Str "rid"); ("repository", Str "repo")]).
Definition plain_request : Request := mkRequest [] Null.

Definition reply_status (r : Reply) : Z := match r with JsonReply r => resp_status r | PatchReply _ _ => 200 end.

(** A new job, a body of another shape, an unknown job, a page that is too long,
    and a cancelled job that is to be continued. *)
Definition some_requests : list (Endpoint * Request) :=
  [(CreateJobAt, create_request); (CreateJobAt, plain_request); (LoadJob "X", plain_request);
   (ListJobEvents "K", mkRequest [("limit", "1001")] Null); (CancelJobAt "K", plain_request);
   (ContinueJobAt "K", mkRequest [] (obj [("feedback", Str "more tests")]))].



(** A succeeded job whose worktree was made again, and its patch. *)
Definition exported_world : EnsureWorld :=
  (serve api_state (EnsureWorkspaceAt "J") bind_request (mkEnsureWorld (demo succeeded_history) 0)).2.

Lemma exported_patch_labelled_witness :
  ∃ patch headers w', serve api_state (ExportWorkspaceResult "J") plain_request exported_world = (PatchReply patch headers, w')
    ∧ ("x-factory-base-revision", "base") ∈ headers ∧ ("x-factory-patch-sha256", sha256_hex patch) ∈ headers.
Proof.
  exists EmptyString, (("content-type", "application/vnd.git.patch") :: [("x-factory-repository-id", "rid");
    ("x-factory-base-revision", "base"); ("x-factory-patch-sha256", EmptyString)]).
  eexists. split; [vm_compute; reflexivity|]. split; [set_solver|].
  edestruct (exported_patch_labelled api_state "J" plain_request exported_world) as (s & job & s' & row & record & Hx);
    [vm_compute; reflexivity|].
  destruct Hx as (_ & _ & _ & _ & _ & _ & _ & Hh & _). rewrite Hh. set_solver.
Defined.
