(* ===== verification/Docker.v ===== *)
(** * Docker execution environments

    [runtime/src/execution_environment.rs]: one container per environment
    generation, derived from the container the worker itself runs in.  The Docker
    Engine, sockets and timers are interfaces whose calls may fail; what they report
    has the fields the code sets or reads.  An [anyhow] error is the parts of the
    text it displays with its causes. *)

From S2P Require Import Prelude Domain Store Executor EnvironmentWork ProviderTools ResponseStream Artifacts Git.
From Stdlib Require Import ZArith Ascii String.
From stdpp Require Import base gmap strings list option pretty.

#[local] Open Scope string_scope.
#[local] Open Scope Z_scope.
#[local] Open Scope list_scope.

Definition DOCKER_EXECUTION_ENVIRONMENT_BACKEND : string := "docker".
Definition EXEC_SERVER_PORT : Z := 4500.
Definition WORKSPACES_TARGET : string := "/workspaces".
Definition FACTORY_MANAGED_LABEL : string := "com.software-factory.managed".
Definition FACTORY_JOB_LABEL : string := "com.software-factory.job-id".
Definition FACTORY_ENVIRONMENT_LABEL : string := "com.software-factory.environment-id".
Definition FACTORY_GENERATION_LABEL : string := "com.software-factory.environment-generation".

(** Times are in nanoseconds. *)
Definition READY_TIMEOUT : Z := 30000000000.
Definition READY_RETRY : Z := 100000000.

(** ** What the engine is told and reports *)

Inductive MountType : Type :=
| VOLUME
| BIND
| OtherMount (name : string).

#[export] Instance MountType_eq_dec : EqDecision MountType.
Proof. solve_decision. Defined.

(** The fields of an option structure that the code leaves at their defaults,
    when they are set. *)
Definition Unset : Type := list (string * Value).

Record MountVolumeOptions : Type := mkVolumeOptions {
  vo_subpath : option string;
  vo_other : Unset;
}.

#[export] Instance MountVolumeOptions_eq_dec : EqDecision MountVolumeOptions.
Proof. solve_decision. Defined.

Record Mount : Type := mkMount {
  mt_target : option string;
  mt_source : option string;
  mt_typ : option MountType;
  mt_read_only : option bool;
  mt_consistency : option string;
  mt_bind_options : option Unset;
  mt_volume_options : option MountVolumeOptions;
  mt_image_options : option Unset;
  mt_tmpfs_options : option Unset;
}.

Record MountPoint : Type := mkMountPoint {
  mp_typ : option string;
  mp_name : option string;
  mp_source : option string;
  mp_destination : option string;
  mp_rw : option bool;
}.

Record HostConfig : Type := mkHostConfig {
  hc_network_mode : option string;
  hc_mounts : option (list Mount);
}.

Record ContainerConfig : Type := mkContainerConfig {
  cc_labels : option (gmap string string);
  cc_cmd : option (list string);
  cc_entrypoint : option (list string);
  cc_env : option (list string);
  cc_working_dir : option string;
  cc_user : option string;
}.

(** A container as [inspect_container] reports it: the address it has in each of
    its networks, and whether it runs. *)
Record ContainerInspectResponse : Type := mkInspect {
  ci_id : option string;
  ci_name : option string;
  ci_image : option string;
  ci_config : option ContainerConfig;
  ci_networks : option (gmap string (option string));
  ci_host_config : option HostConfig;
  ci_mounts : option (list MountPoint);
  ci_running : option bool;
}.

Record ContainerCreateBody : Type := mkCreateBody {
  cb_image : string;
  cb_user : option string;
  cb_cmd : list string;
  cb_working_dir : string;
  cb_labels : gmap string string;
  cb_exposed_ports : list string;
  cb_network_mode : string;
  cb_mounts : list Mount;
  cb_endpoints : list (string * list string);
}.

(** The configuration of an image. *)
Record ImageConfig : Type := mkImageConfig {
  ic_entrypoint : option (list string);
  ic_env : option (list string);
}.

(** [bollard::errors::Error]: the answer of the engine, or another failure. *)
Inductive DockerError : Type :=
| DockerResponseServerError (status_code : Z) (message : string)
| OtherDockerError (message : string).

Definition docker_status (e : DockerError) : option Z :=
  match e with DockerResponseServerError status_code _ => Some status_code | OtherDockerError _ => None end.

Definition docker_status_is (statuses : list Z) (e : DockerError) : bool :=
  match docker_status e with Some status => bool_decide (status ∈ statuses) | None => false end.

Class DockerText : Type := { docker_error_text : DockerError → string }.

Class DockerEngine (W : Type) : Type := {
  docker_connect : proc W DockerError unit;
  negotiate_version : proc W DockerError unit;
  inspect_container : string → proc W DockerError ContainerInspectResponse;
  inspect_image : string → proc W DockerError (option ImageConfig);
  inspect_network : string → proc W DockerError unit;
  create_container : string → ContainerCreateBody → proc W DockerError unit;
  start_container : string → proc W DockerError unit;
  stop_container : string → Z → proc W DockerError unit;
  remove_container : string → bool → bool → proc W DockerError unit;
}.

(** [TcpStream::connect] and the timers of [tokio]; [timeout_at] fails with
    [Err tt] when the deadline passes while the call is under way. *)
Class Timers (W : Type) : Type := {
  instant : W → Z;
  timeout_at : ∀ {E A : Type}, Z → proc W E A → proc W unit (result E A);
  sleep_until : Z → proc W unit unit;
  tcp_connect : string → proc W string unit;
}.

(** ** Errors *)

Abbreviation Failure := (list fmt_part).

Definition context (message cause : Failure) : Failure := message ++ [Lit ": "] ++ cause.

Definition in_context {W A : Type} `{DockerText} (message : Failure) (p : proc W DockerError A) : proc W Failure A :=
  map_err (λ e, context message [Display (docker_error_text e)]) p.

(** [required_text]. *)
Definition required_value (fld : string) (value : option string) : result Failure string :=
  match value with
  | Some text => if is_blank text then Err [Lit fld; Lit " is missing"] else Ok text
  | None => Err [Lit fld; Lit " is missing"]
  end.

Definition nonempty_env (env : string → option string) (name : string) : option string :=
  match env name with Some value => if is_blank value then None else Some value | None => None end.

(** ** The container of an environment *)

Record WorkspaceBackingSpec : Type := mkBacking {
  wb_typ : MountType;
  wb_source : string;
}.

Record ScopedWorkspaceMountSpec : Type := mkScopedMount {
  sw_typ : MountType;
  sw_source : string;
  sw_target : string;
  sw_volume_subpath : option string;
}.

Record DockerWorkerTemplate : Type := mkWorkerTemplate {
  wt_image : string;
  wt_network : string;
  wt_workspace_backing : WorkspaceBackingSpec;
  wt_run_as : option (string * string);
  wt_image_entrypoint : option (list string);
  wt_image_environment : option (list string);
}.

Record DockerContainerIdentity : Type := mkContainerIdentity {
  di_name : string;
  di_labels : gmap string string;
}.

Record DockerContainerSpec : Type := mkContainerSpec {
  ds_identity : DockerContainerIdentity;
  ds_image : string;
  ds_network : string;
  ds_workspace_root : string;
  ds_workspace_mounts : list ScopedWorkspaceMountSpec;
  ds_run_as : option (string * string);
  ds_image_entrypoint : option (list string);
  ds_image_environment : option (list string);
  ds_url : string;
}.

Inductive ExistingContainerDisposition : Type :=
| Reuse
| ReplaceOwned.

(** Characters other than ASCII letters, digits, [-], [_] and [.] become [-]: a
    longer character is replaced as a whole. *)
Definition container_char (c : ascii) : bool := wire_char c || bool_decide (c = "."%char).

Fixpoint container_text (s : string) : string :=
  match s with
  | EmptyString => EmptyString
  | String c r =>
      if container_char c then String c (container_text r)
      else if continuation_byte c then container_text r
      else String "-"%char (container_text r)
  end.

Definition deterministic_container_name (environment_id : string) (generation : Z) : string :=
  "factory-exec-" +:+ container_text environment_id +:+ "-g" +:+ pretty generation.

Definition container_identity (environment : ExecutionEnvironmentRecord) : DockerContainerIdentity :=
  mkContainerIdentity
    (deterministic_container_name (ee_environment_id environment) (ee_generation environment))
    (list_to_map [(FACTORY_MANAGED_LABEL, "true"); (FACTORY_JOB_LABEL, ee_job_id environment);
                  (FACTORY_ENVIRONMENT_LABEL, ee_environment_id environment);
                  (FACTORY_GENERATION_LABEL, pretty (ee_generation environment))]).

Definition volume_options (subpath : string) : MountVolumeOptions := mkVolumeOptions (Some subpath) [].

Definition docker_mount (m : ScopedWorkspaceMountSpec) : Mount :=
  mkMount (Some (sw_target m)) (Some (sw_source m)) (Some (sw_typ m)) (Some false) None None
    (volume_options <$> sw_volume_subpath m) None None.

Definition unnormal (component : string) : bool := bool_decide (component ∈ [EmptyString; "."; ".."]).

Definition workspace_relative_subpath (root : string) : result Failure string :=
  match Prelude.strip_prefix (WORKSPACES_TARGET +:+ "/") root with
  | None => Err [Lit "execution workspace path "; Debug root; Lit " is not an absolute descendant of ";
                 Lit WORKSPACES_TARGET]
  | Some relative =>
      if bool_decide (relative = EmptyString) || existsb unnormal (split_char "/"%char relative)
      then Err [Lit "execution workspace path "; Debug root; Lit " is not normalized"]
      else Ok relative
  end.

(** The source and the path are texts, so joining them gives one. *)
Definition scoped_workspace_mount (backing : WorkspaceBackingSpec) (target relative_subpath : string) :
    result Failure ScopedWorkspaceMountSpec :=
  match wb_typ backing with
  | VOLUME => Ok (mkScopedMount VOLUME (wb_source backing) target (Some relative_subpath))
  | BIND => Ok (mkScopedMount BIND (path_join (wb_source backing) relative_subpath) target None)
  | OtherMount _ => Err [Lit "unsupported "; Lit WORKSPACES_TARGET; Lit " backing mount type"]
  end.

Definition exec_server_url (host : string) : string := "ws://" +:+ host +:+ ":" +:+ pretty EXEC_SERVER_PORT.

(** [DockerContainerSpec::new]. *)
Definition container_spec (template : DockerWorkerTemplate) (environment : ExecutionEnvironmentRecord)
    (workspace_root repository_metadata_root : string) : result Failure DockerContainerSpec :=
  let identity := container_identity environment in
  workspace_subpath ← workspace_relative_subpath workspace_root;
  repository_metadata_subpath ← workspace_relative_subpath repository_metadata_root;
  _ ← guard_err (bool_decide (workspace_subpath = repository_metadata_subpath))
        [Lit "workspace root and repository metadata root must be distinct"];
  worktree_mount ← scoped_workspace_mount (wt_workspace_backing template) workspace_root workspace_subpath;
  metadata_mount ← scoped_workspace_mount (wt_workspace_backing template) repository_metadata_root
                     repository_metadata_subpath;
  Ok (mkContainerSpec identity (wt_image template) (wt_network template) workspace_root
        [worktree_mount; metadata_mount] (wt_run_as template) (wt_image_entrypoint template)
        (wt_image_environment template) (exec_server_url (di_name identity))).

Definition exec_server_command : list string := ["codex"; "exec-server"; "--listen"; "ws://0.0.0.0:4500"].

Definition user_text (run_as : option (string * string)) : option string :=
  (λ ids, ids.1 +:+ ":" +:+ ids.2) <$> run_as.

Definition create_body (spec : DockerContainerSpec) : ContainerCreateBody :=
  mkCreateBody (ds_image spec) (user_text (ds_run_as spec)) exec_server_command (ds_workspace_root spec)
    (di_labels (ds_identity spec)) [pretty EXEC_SERVER_PORT +:+ "/tcp"] (ds_network spec)
    (docker_mount <$> ds_workspace_mounts spec) [(ds_network spec, [di_name (ds_identity spec)])].

(** ** Discovery of the worker *)

Definition select_network (env : string → option string) (inspected : ContainerInspectResponse) :
    result Failure string :=
  match ci_networks inspected with
  | None => Err [Lit "Factory worker has no Docker network"]
  | Some networks =>
      match nonempty_env env "FACTORY_DOCKER_NETWORK" with
      | Some requested =>
          if decide (is_Some (networks !! requested)) then Ok requested
          else Err [Lit "Factory worker is not attached to requested Docker network "; Display requested]
      | None =>
          match map_to_list networks, ci_host_config inspected ≫= hc_network_mode with
          | [(network, _)], _ => Ok network
          | _, Some mode =>
              if decide (is_Some (networks !! mode)) then Ok mode
              else Err [Lit "Factory worker is attached to multiple Docker networks; set FACTORY_DOCKER_NETWORK"]
          | _, None => Err [Lit "Factory worker is attached to multiple Docker networks; set FACTORY_DOCKER_NETWORK"]
          end
      end
  end.

Definition workspace_backing_spec (mount : MountPoint) : result Failure WorkspaceBackingSpec :=
  match mp_typ mount with
  | Some "volume" => source ← required_value "Factory worker workspace volume name" (mp_name mount);
                     Ok (mkBacking VOLUME source)
  | Some "bind" => source ← required_value "Factory worker workspace bind source" (mp_source mount);
                   Ok (mkBacking BIND source)
  | Some other => Err [Lit "unsupported "; Lit WORKSPACES_TARGET; Lit " mount type "; Display other]
  | None => Err [Lit "Factory worker "; Lit WORKSPACES_TARGET; Lit " mount has no type"]
  end.

(** [DockerWorkerTemplate::from_worker_inspect]. *)
Definition template_from_worker_inspect (env : string → option string) (inspected : ContainerInspectResponse) :
    result Failure DockerWorkerTemplate :=
  image ← required_value "Factory worker image ID" (ci_image inspected);
  network ← select_network env inspected;
  workspace_mount ← ok_or
    (mounts ← ci_mounts inspected; List.find (λ m, bool_decide (mp_destination m = Some WORKSPACES_TARGET)) mounts)
    [Lit "Factory worker has no "; Lit WORKSPACES_TARGET; Lit " mount"];
  workspace_backing ← workspace_backing_spec workspace_mount;
  run_as ← match nonempty_env env "FACTORY_RUN_AS_UID", nonempty_env env "FACTORY_RUN_AS_GID" with
           | Some uid, Some gid => Ok (Some (uid, gid))
           | None, None => Ok None
           | _, _ => Err [Lit "FACTORY_RUN_AS_UID and FACTORY_RUN_AS_GID must be set together"]
           end;
  Ok (mkWorkerTemplate image network workspace_backing run_as None None).

(** ** Checks of a container *)

Definition configured_mount_matches (expected : ScopedWorkspaceMountSpec) (actual : Mount) : bool :=
  bool_decide (mt_typ actual = Some (sw_typ expected))
  && bool_decide (mt_source actual = Some (sw_source expected))
  && bool_decide (mt_target actual = Some (sw_target expected))
  && negb (bool_decide (mt_read_only actual = Some true))
  && bool_decide (mt_consistency actual = None)
  && match sw_typ expected with
     | VOLUME =>
         bool_decide (mt_bind_options actual = None) && bool_decide (mt_image_options actual = None)
         && bool_decide (mt_tmpfs_options actual = None)
         && bool_decide (mt_volume_options actual = volume_options <$> sw_volume_subpath expected)
     | BIND =>
         bool_decide (mt_volume_options actual = None) && bool_decide (mt_image_options actual = None)
         && bool_decide (mt_tmpfs_options actual = None) && bool_decide (default [] (mt_bind_options actual) = [])
     | OtherMount _ => false
     end.

Definition observed_mount_matches (expected : ScopedWorkspaceMountSpec) (actual : MountPoint) : bool :=
  bool_decide (mp_destination actual = Some (sw_target expected))
  && bool_decide (mp_rw actual = Some true)
  && match sw_typ expected with
     | VOLUME => bool_decide (mp_typ actual = Some "volume") && bool_decide (mp_name actual = Some (sw_source expected))
     | BIND => bool_decide (mp_typ actual = Some "bind") && bool_decide (mp_source actual = Some (sw_source expected))
     | OtherMount _ => false
     end.

(** As many as expected, and each expected one among them. *)
Definition only_mounts {A : Type} (matches : ScopedWorkspaceMountSpec → A → bool)
    (expected : list ScopedWorkspaceMountSpec) (actual : list A) : bool :=
  bool_decide (length actual = length expected) && forallb (λ e, existsb (matches e) actual) expected.

Definition labels_agree (expected labels : gmap string string) (keys : list string) : bool :=
  forallb (λ key, bool_decide (labels !! key = expected !! key)) keys.

Definition validate_existing_container (spec : DockerContainerSpec) (inspected : ContainerInspectResponse) :
    result Failure unit :=
  let named (message : string) : Failure := [Lit "execution container "; Display (di_name (ds_identity spec)); Lit message] in
  _ ← guard_err (negb (bool_decide (ci_image inspected = Some (ds_image spec)))) (named " does not use the worker image");
  config ← ok_or (ci_config inspected) (named " has no configuration");
  labels ← ok_or (cc_labels config) (named " has no Factory labels");
  let expected := di_labels (ds_identity spec) in
  _ ← guard_err (negb (labels_agree expected labels (map_to_list expected).*1)) (named " has stale Factory labels");
  _ ← guard_err (negb (bool_decide (cc_cmd config = Some exec_server_command))) (named " has an unexpected command");
  _ ← guard_err (negb (bool_decide (cc_entrypoint config = ds_image_entrypoint spec)))
        (named " overrides the worker image entrypoint");
  _ ← guard_err (negb (bool_decide (cc_env config = ds_image_environment spec)))
        (named " overrides the worker image environment");
  _ ← guard_err (negb (bool_decide (cc_working_dir config = Some (ds_workspace_root spec))))
        (named " has an unexpected working directory");
  let actual_user := match cc_user config with
                     | Some user => if decide (user = EmptyString) then None else Some user
                     | None => None
                     end in
  _ ← guard_err (negb (bool_decide (actual_user = user_text (ds_run_as spec)))) (named " does not use the worker UID/GID");
  networks ← ok_or (ci_networks inspected) (named " has no network state");
  _ ← guard_err (negb (bool_decide (size networks = 1%nat)) || bool_decide (networks !! ds_network spec = None))
        (named " is not attached only to worker network " ++ [Display (ds_network spec)]);
  configured_mounts ← ok_or (ci_host_config inspected ≫= hc_mounts) (named " has no configured mount state");
  _ ← guard_err (negb (only_mounts configured_mount_matches (ds_workspace_mounts spec) configured_mounts))
        (named " does not have only the configured scoped workspace mounts");
  observed_mounts ← ok_or (ci_mounts inspected) (named " has no observed mount state");
  guard_err (negb (only_mounts observed_mount_matches (ds_workspace_mounts spec) observed_mounts))
    (named " does not have only the observed writable scoped workspace mounts").

Definition identity_labels : list string :=
  [FACTORY_MANAGED_LABEL; FACTORY_JOB_LABEL; FACTORY_ENVIRONMENT_LABEL; FACTORY_GENERATION_LABEL].

Definition validate_deterministic_factory_identity (identity : DockerContainerIdentity)
    (inspected : ContainerInspectResponse) : result Failure unit :=
  let named (message : string) : Failure := [Lit "execution container "; Display (di_name identity); Lit message] in
  actual_name ← required_value "execution container name" (ci_name inspected);
  _ ← guard_err (negb (bool_decide (actual_name = di_name identity)) && negb (bool_decide (actual_name = "/" +:+ di_name identity)))
        (named " does not match its deterministic Factory name");
  config ← ok_or (ci_config inspected) (named " has no configuration");
  labels ← ok_or (cc_labels config) (named " has no Factory labels");
  guard_err (negb (labels_agree (di_labels identity) labels identity_labels))
    (named " does not match Factory job/environment/generation labels").

(** With a recorded reference, the container must also be that one. *)
Definition validate_release_identity (identity : DockerContainerIdentity) (environment : ExecutionEnvironmentRecord)
    (inspected : ContainerInspectResponse) : result Failure unit :=
  _ ← validate_deterministic_factory_identity identity inspected;
  match ee_backend_ref environment with
  | Some expected_id =>
      guard_err (negb (bool_decide (ci_id inspected = Some expected_id)))
        [Lit "execution container "; Display (di_name identity); Lit " does not match persisted backend reference"]
  | None => Ok tt
  end.

Definition existing_container_disposition (spec : DockerContainerSpec) (environment : ExecutionEnvironmentRecord)
    (inspected : ContainerInspectResponse) : result Failure ExistingContainerDisposition :=
  match validate_existing_container spec inspected with
  | Ok _ => Ok Reuse
  | Err spec_error =>
      match validate_release_identity (ds_identity spec) environment inspected with
      | Ok _ => Ok ReplaceOwned
      | Err identity_error =>
          Err ([Lit "execution container "; Display (di_name (ds_identity spec)); Lit " has stale configuration ("]
               ++ spec_error ++ [Lit ") but is not the persisted Factory container ("] ++ identity_error
               ++ [Lit "); it was retained"])
      end
  end.

Definition with_backend_ref (backend_ref : string) (e : ExecutionEnvironmentRecord) : ExecutionEnvironmentRecord :=
  mkExecutionEnvironmentRecord (ee_job_id e) (ee_environment_id e) (ee_backend e) (ee_generation e) (ee_desired_state e)
    (ee_status e) (Some backend_ref) (ee_url e) (ee_error e) (ee_created_at e) (ee_updated_at e).

(** The container found by its name takes the place of one that is gone. *)
Definition reconcile_release_fallback (identity : DockerContainerIdentity) (environment : ExecutionEnvironmentRecord)
    (inspected : ContainerInspectResponse) : result Failure ExecutionEnvironmentRecord :=
  _ ← validate_deterministic_factory_identity identity inspected;
  current_id ← required_value "execution container ID" (ci_id inspected);
  Ok (with_backend_ref current_id environment).

Definition container_is_running (inspected : ContainerInspectResponse) : bool := default false (ci_running inspected).

Section docker.
Context {W : Type} `{DockerEngine W, Timers W, DockerText}.
Context (template : DockerWorkerTemplate).

Abbreviation Dk := (proc W Failure).

(** ** Readiness *)

(** Where the server of a container listens: its address in the network, or its
    name. *)
Definition exec_server_address (container_name network : string) (inspected : ContainerInspectResponse) : string :=
  match (networks ← ci_networks inspected; address ← networks !! network; address) with
  | Some address => if decide (address = EmptyString) then container_name +:+ ":" +:+ pretty EXEC_SERVER_PORT
                    else address +:+ ":" +:+ pretty EXEC_SERVER_PORT
  | None => container_name +:+ ":" +:+ pretty EXEC_SERVER_PORT
  end.

(** One round of the loop, cut off at the deadline wherever it waits: whether the
    server answered. *)
Definition ready_round (container_name network : string) (deadline : Z) : proc W unit bool :=
  inspected ← timeout_at deadline (inspect_container container_name);
  connected ← (match inspected with
               | Ok container =>
                   connected ← timeout_at deadline (tcp_connect (exec_server_address container_name network container));
                   done (is_ok connected)
               | Err _ => done false
               end : proc W unit bool);
  if connected : bool then done true
  else now ← observe instant;
       _ ← timeout_at deadline (sleep_until (now + READY_RETRY));
       done false.

(** Rounds until the server answers; [None] when the rounds did not suffice. *)
Fixpoint ready_rounds (fuel : nat) (container_name network : string) (deadline : Z) : proc W unit (option unit) :=
  match fuel with
  | O => done None
  | S n => ready ← ready_round container_name network deadline;
           if ready : bool then done (Some tt) else ready_rounds n container_name network deadline
  end.

(** A round that does not end the wait lasts [READY_RETRY] at least. *)
Definition ready_fuel : nat := Z.to_nat (READY_TIMEOUT / READY_RETRY + 1).

Definition wait_until_ready (container_name network : string) : Dk unit :=
  started ← observe instant;
  waited ← map_err (λ _, context [Lit "execution container "; Display container_name; Lit " did not become ready"]
                                 [Lit "deadline has elapsed"])
             (ready_rounds ready_fuel container_name network (started + READY_TIMEOUT));
  match waited with
  | Some _ => done tt
  | None => fail [Lit "unfinished"]
  end.

(** ** Containers *)

Definition inspect_or_create_container (spec : DockerContainerSpec) : Dk ContainerInspectResponse :=
  let name := di_name (ds_identity spec) in
  inspected ← attempt (inspect_container name);
  match inspected with
  | Ok inspected => done inspected
  | Err error =>
      if docker_status_is [404] error then
        created ← attempt (create_container name (create_body spec));
        match created with
        | Ok _ => in_context [Lit "inspect newly created execution container "; Display name] (inspect_container name)
        | Err error =>
            if docker_status_is [409] error then
              in_context [Lit "inspect concurrently created execution container "; Display name] (inspect_container name)
            else fail (context [Lit "create execution container "; Display name] [Display (docker_error_text error)])
        end
      else fail (context [Lit "inspect execution container "; Display name] [Display (docker_error_text error)])
  end.

(** Success, or one of the answers that mean there was nothing to do. *)
Definition unless_status (statuses : list Z) (message : Failure) (p : proc W DockerError unit) : Dk unit :=
  outcome ← attempt p;
  match outcome with
  | Ok _ => done tt
  | Err error => if docker_status_is statuses error then done tt
                 else fail (context message [Display (docker_error_text error)])
  end.

Definition remove_owned_container (identity : DockerContainerIdentity) (environment : ExecutionEnvironmentRecord)
    (inspected : ContainerInspectResponse) : Dk unit :=
  _ ← proc_lift (validate_release_identity identity environment inspected);
  container_id ← proc_lift (required_value "execution container ID" (ci_id inspected));
  _ ← when (container_is_running inspected)
        (unless_status [304; 404] [Lit "stop execution container "; Display container_id] (stop_container container_id 10));
  current ← attempt (inspect_container container_id);
  match current with
  | Ok current =>
      _ ← proc_lift (validate_release_identity identity environment current);
      unless_status [404] [Lit "remove execution container "; Display container_id]
        (remove_container container_id false false)
  | Err error =>
      if docker_status_is [404] error then done tt
      else fail (context [Lit "reinspect execution container "; Display container_id] [Display (docker_error_text error)])
  end.

(** The container of the specification, replaced when it is this environment's
    but differs from it. *)
Definition current_container (spec : DockerContainerSpec) (environment : ExecutionEnvironmentRecord) :
    Dk ContainerInspectResponse :=
  inspected ← inspect_or_create_container spec;
  disposition ← proc_lift (existing_container_disposition spec environment inspected);
  match disposition with
  | Reuse => done inspected
  | ReplaceOwned =>
      _ ← map_err (context [Lit "replace owned stale execution container "; Display (di_name (ds_identity spec))])
            (remove_owned_container (ds_identity spec) environment inspected);
      created ← inspect_or_create_container spec;
      _ ← proc_lift (validate_existing_container spec created);
      done created
  end.

Definition ensure_container (environment : ExecutionEnvironmentRecord) (workspace_root repository_metadata_root : string) :
    Dk Provisioned :=
  spec ← proc_lift (container_spec template environment workspace_root repository_metadata_root);
  let name := di_name (ds_identity spec) in
  inspected ← current_container spec environment;
  _ ← when (negb (container_is_running inspected))
        (unless_status [304] [Lit "start execution container "; Display name] (start_container name));
  _ ← wait_until_ready name (ds_network spec);
  current ← in_context [Lit "inspect running execution container "; Display name] (inspect_container name);
  _ ← proc_lift (validate_existing_container spec current);
  if container_is_running current then
    backend_ref ← proc_lift (required_value "execution container ID" (ci_id current));
    done (mkProvisioned backend_ref (ds_url spec))
  else fail [Lit "execution container "; Display name; Lit " stopped before becoming ready"].

(** The container to release, with the reference to hold it against. *)
Definition find_released (identity : DockerContainerIdentity) (environment : ExecutionEnvironmentRecord) :
    Dk (option (ContainerInspectResponse * ExecutionEnvironmentRecord)) :=
  match ee_backend_ref environment with
  | Some backend_ref =>
      inspected ← attempt (inspect_container backend_ref);
      match inspected with
      | Ok inspected => done (Some (inspected, environment))
      | Err error =>
          if docker_status_is [404] error then
            found ← attempt (inspect_container (di_name identity));
            match found with
            | Ok found =>
                reconciled ← proc_lift (reconcile_release_fallback identity environment found);
                done (Some (found, reconciled))
            | Err error =>
                if docker_status_is [404] error then done None
                else fail (context [Lit "inspect deterministic execution container "; Display (di_name identity);
                                    Lit " after persisted backend reference disappeared"]
                                   [Display (docker_error_text error)])
            end
          else fail (context [Lit "inspect execution container "; Display backend_ref] [Display (docker_error_text error)])
      end
  | None =>
      inspected ← attempt (inspect_container (di_name identity));
      match inspected with
      | Ok inspected => done (Some (inspected, environment))
      | Err error =>
          if docker_status_is [404] error then done None
          else fail (context [Lit "inspect execution container "; Display (di_name identity)]
                             [Display (docker_error_text error)])
      end
  end.

Definition release_container (environment : ExecutionEnvironmentRecord) : Dk unit :=
  let identity := container_identity environment in
  found ← find_released identity environment;
  match found with
  | Some (inspected, release_environment) => remove_owned_container identity release_environment inspected
  | None => done tt
  end.
End docker.

(** [impl ExecutionEnvironmentProvisioner for DockerExecutionEnvironmentProvisioner]:
    what a worker with this provisioner calls.  [text] displays an error. *)
Definition docker_host {W : Type} `{DockerEngine W, Timers W, DockerText}
    (store : ∀ A : Type, (Z → string → Proc A) → proc W CoordinatorError A) (text : Failure → string)
    (template : DockerWorkerTemplate) : EnvironmentHost W := {|
  store_call := store;
  provisioner_backend := DOCKER_EXECUTION_ENVIRONMENT_BACKEND;
  durable_locator _ := Ok None;
  provision environment workspace_root repository_metadata_root :=
    map_err text (ensure_container template environment workspace_root repository_metadata_root);
  deprovision environment := map_err text (release_container environment);
|}.

(** ** Discovery *)

(** [DockerExecutionEnvironmentProvisioner::discover]. *)
Definition discover_docker {W : Type} `{DockerEngine W, DockerText} (env : string → option string) :
    proc W Failure DockerWorkerTemplate :=
  _ ← in_context [Lit "connect to the local Docker Engine"] docker_connect;
  _ ← in_context [Lit "negotiate the Docker Engine API version"] negotiate_version;
  worker ← proc_lift (ok_or
    (match nonempty_env env "FACTORY_DOCKER_WORKER_CONTAINER" with
     | Some worker => Some worker
     | None => nonempty_env env "HOSTNAME"
     end) [Lit "cannot discover the Factory worker container; set FACTORY_DOCKER_WORKER_CONTAINER"]);
  inspected ← in_context [Lit "inspect Factory worker container "; Display worker] (inspect_container worker);
  template ← proc_lift (template_from_worker_inspect env inspected);
  image ← in_context [Lit "inspect Factory worker image "; Display (wt_image template)] (inspect_image (wt_image template));
  image_config ← proc_lift (ok_or image [Lit "Factory worker image has no configuration"]);
  _ ← in_context [Lit "inspect Factory worker network "; Display (wt_network template)] (inspect_network (wt_network template));
  done (mkWorkerTemplate (wt_image template) (wt_network template) (wt_workspace_backing template) (wt_run_as template)
          (ic_entrypoint image_config) (ic_env image_config)).
