(* ===== verification/DockerLaws.v ===== *)
(** * Containers of an environment, and no others

    Whatever the engine answers, a provisioned environment is a running container
    confined to the worktree and the repository of its job, and the only containers
    ever stopped or removed are those just seen to carry the name and the labels of
    the environment's generation. *)

From S2P Require Import Prelude Domain Executor Keeps EnvironmentWork ProviderTools ResponseStream Artifacts Git Docker.
From Stdlib Require Import ZArith Ascii String.
From stdpp Require Import base gmap strings list option pretty relations.

#[local] Open Scope string_scope.
#[local] Open Scope Z_scope.
#[local] Open Scope list_scope.

(** ** Timers

    A call that is cut off did part of what it does, so it keeps any preorder its
    complete runs keep.  A sleep that starts when the deadline has passed is cut. *)
Class TimerLaws (W : Type) `{Timers W} : Prop := {
  timeout_done {E A : Type} d (p : proc W E A) w r w' : timeout_at d p w = (Ok r, w') → p w = (r, w');
  timeout_cut {E A : Type} d (p : proc W E A) w w' (R : relation W) :
    PreOrder R → keeps_to R p → timeout_at d p w = (Err tt, w') → R w w';
  sleep_lasts t w r w' : sleep_until t w = (r, w') → t ≤ instant w' ∧ instant w ≤ instant w';
  sleep_cut d t w r w' : d ≤ instant w → instant w < t → timeout_at d (sleep_until t) w ≠ (Ok r, w');
  connect_lasts address w r w' : tcp_connect address w = (r, w') → instant w ≤ instant w';
}.

(** ** Calls *)

Inductive DockerCall : Type :=
| Inspected (which : string) (answer : result DockerError ContainerInspectResponse)
| Created (name : string) (body : ContainerCreateBody) (answer : result DockerError unit)
| Started (name : string) (answer : result DockerError unit)
| Stopped (which : string) (seconds : Z) (answer : result DockerError unit)
| Removed (which : string) (force volumes : bool) (answer : result DockerError unit).

(** The calls made so far can be read off the world. *)
Class DockerTrace (W : Type) `{DockerEngine W} `{Timers W} : Type := {
  docker_calls : W → list DockerCall;
  inspect_called n w r w' : inspect_container n w = (r, w') →
    docker_calls w' = docker_calls w ++ [Inspected n r] ∧ instant w ≤ instant w';
  create_called n body w r w' : create_container n body w = (r, w') → docker_calls w' = docker_calls w ++ [Created n body r];
  start_called n w r w' : start_container n w = (r, w') → docker_calls w' = docker_calls w ++ [Started n r];
  stop_called n t w r w' : stop_container n t w = (r, w') → docker_calls w' = docker_calls w ++ [Stopped n t r];
  remove_called n f v w r w' : remove_container n f v w = (r, w') → docker_calls w' = docker_calls w ++ [Removed n f v r];
  connect_not_docker address w r w' : tcp_connect address w = (r, w') → docker_calls w' = docker_calls w;
  sleep_not_docker t w r w' : sleep_until t w = (r, w') → docker_calls w' = docker_calls w;
}.

(** ** Whose container it is *)

(** The container has the name and the labels of the environment's generation. *)
Definition carries_identity (e : ExecutionEnvironmentRecord) (c : ContainerInspectResponse) : Prop :=
  let name := deterministic_container_name (ee_environment_id e) (ee_generation e) in
  (ci_name c = Some name ∨ ci_name c = Some ("/" +:+ name))
  ∧ ∃ config labels, ci_config c = Some config ∧ cc_labels config = Some labels
      ∧ labels !! FACTORY_MANAGED_LABEL = Some "true" ∧ labels !! FACTORY_JOB_LABEL = Some (ee_job_id e)
      ∧ labels !! FACTORY_ENVIRONMENT_LABEL = Some (ee_environment_id e)
      ∧ labels !! FACTORY_GENERATION_LABEL = Some (pretty (ee_generation e)).

(** What may be asked of the engine for an environment, after what was asked
    before in the same call: a container is created or started under the
    environment's name, stopped once it was seen to be the environment's, and
    removed, without force and without its volumes, right after it was. *)
Definition allowed (e : ExecutionEnvironmentRecord) (history : list DockerCall) (c : DockerCall) : Prop :=
  let identity := container_identity e in
  match c with
  | Inspected _ _ => True
  | Created name body _ => name = di_name identity ∧ cb_labels body = di_labels identity
  | Started name _ => name = di_name identity
  | Stopped which _ _ =>
      ∃ asked seen, Inspected asked (Ok seen) ∈ history ∧ ci_id seen = Some which ∧ carries_identity e seen
  | Removed which force volumes _ =>
      force = false ∧ volumes = false
      ∧ ∃ seen, last history = Some (Inspected which (Ok seen)) ∧ carries_identity e seen
  end.

Definition follows (e : ExecutionEnvironmentRecord) (new : list DockerCall) : Prop :=
  ∀ i c, new !! i = Some c → allowed e (take i new) c.

Lemma follows_nil e : follows e [].
Proof. intros i c. by rewrite lookup_nil. Qed.

Lemma follows_snoc e new c : follows e new → allowed e new c → follows e (new ++ [c]).
Proof.
  intros Hn Hc i c'. rewrite lookup_app. destruct (new !! i) as [c0|] eqn:Hi.
  - intros [= ->]. rewrite take_app_le by (apply lookup_lt_Some in Hi; lia). by apply Hn.
  - intros Hl. apply lookup_ge_None in Hi. destruct (i - length new)%nat as [|k] eqn:Hk; [|done].
    injection Hl as <-. rewrite take_app_length' by lia. done.
Qed.

(** ** What a check accepts *)

Lemma required_value_Ok f o v : required_value f o = Ok v → o = Some v ∧ is_blank v = false.
Proof. unfold required_value. destruct o; [case_match|]; naive_solver. Qed.

Lemma labels_agree_spec expected labels keys :
  labels_agree expected labels keys = true ↔ ∀ key, key ∈ keys → labels !! key = expected !! key.
Proof.
  unfold labels_agree. rewrite forallb_forall. split; intros Hk key.
  - intros Hin%list_elem_of_In%Hk. by apply bool_decide_eq_true in Hin.
  - intros Hin. apply bool_decide_eq_true, Hk. by apply list_elem_of_In.
Qed.

Lemma deterministic_identity_carries e c :
  validate_deterministic_factory_identity (container_identity e) c = Ok tt → carries_identity e c.
Proof.
  unfold validate_deterministic_factory_identity. rewrite bind_Ok. intros (name & [Hname _]%required_value_Ok & Hr).
  rewrite bind_Ok in Hr. destruct Hr as (u & Hn%guard_err_Ok & Hr).
  rewrite bind_Ok in Hr. destruct Hr as (config & Hc%ok_or_Ok & Hr).
  rewrite bind_Ok in Hr. destruct Hr as (labels & Hl%ok_or_Ok & Hr).
  apply guard_err_Ok, negb_false_iff in Hr. rewrite labels_agree_spec in Hr.
  split.
  - rewrite Hname. apply andb_false_iff in Hn as [Hn|Hn]; apply negb_false_iff, bool_decide_eq_true in Hn; subst; eauto.
  - exists config, labels. split_and!; try done; rewrite Hr; try done; unfold identity_labels; set_solver.
Qed.

(** Two expected mounts that no mount matches both. *)
Lemma only_two_mounts {A : Type} matches e1 e2 (actual : list A) :
  (∀ a, matches e1 a = true → matches e2 a = true → False) →
  only_mounts matches [e1; e2] actual = true ↔
    ∃ a b, actual ≡ₚ [a; b] ∧ matches e1 a = true ∧ matches e2 b = true.
Proof.
  intros Hno. unfold only_mounts. rewrite andb_true_iff, bool_decide_eq_true. split.
  - intros [Hlen Hall]. destruct actual as [|x [|y [|]]]; try done. cbn in Hall.
    rewrite !orb_false_r, andb_true_r in Hall. apply andb_true_iff in Hall as [H1 H2].
    apply orb_true_iff in H1 as [H1|H1], H2 as [H2|H2]; try by (edestruct Hno).
    + by exists x, y.
    + exists y, x. split_and!; try done. by rewrite Permutation_swap.
  - intros (a & b & Hp & Ha & Hb). split; [by rewrite Hp|]. cbn. rewrite andb_true_r, andb_true_iff, !existsb_exists.
    split; [exists a|exists b]; (split; [|done]); apply list_elem_of_In; rewrite Hp; set_solver.
Qed.

(** A mount as it is configured and as it is observed: the part [sub] of the
    worker's own mount, at [root]. *)
Definition configured_at (backing : WorkspaceBackingSpec) (root sub : string) (m : Mount) : Prop :=
  mt_target m = Some root ∧ mt_typ m = Some (wb_typ backing) ∧ mt_read_only m ≠ Some true ∧ mt_consistency m = None
  ∧ mt_image_options m = None ∧ mt_tmpfs_options m = None
  ∧ match wb_typ backing with
    | VOLUME => mt_source m = Some (wb_source backing) ∧ mt_volume_options m = Some (volume_options sub)
                ∧ mt_bind_options m = None
    | BIND => mt_source m = Some (path_join (wb_source backing) sub) ∧ mt_volume_options m = None
              ∧ default [] (mt_bind_options m) = []
    | OtherMount _ => False
    end.

Definition observed_at (backing : WorkspaceBackingSpec) (root sub : string) (m : MountPoint) : Prop :=
  mp_destination m = Some root ∧ mp_rw m = Some true
  ∧ match wb_typ backing with
    | VOLUME => mp_typ m = Some "volume" ∧ mp_name m = Some (wb_source backing)
    | BIND => mp_typ m = Some "bind" ∧ mp_source m = Some (path_join (wb_source backing) sub)
    | OtherMount _ => False
    end.

(** A path below the workspaces without empty components, [.] or [..]. *)
Definition below_workspaces (root sub : string) : Prop :=
  root = "/workspaces/" +:+ sub ∧ sub ≠ EmptyString ∧ Forall (λ c, c ∉ [EmptyString; "."; ".."]) (split_char "/"%char sub).

(** The container runs the worker's image as the worker's user in the worktree, is
    attached to the worker's network alone, and its mounts are the worktree of the
    job and the metadata of its repository and nothing else. *)
Definition confined (t : DockerWorkerTemplate) (e : ExecutionEnvironmentRecord) (root sub meta metasub : string)
    (c : ContainerInspectResponse) : Prop :=
  ∃ config labels networks configured observed,
    ci_image c = Some (wt_image t) ∧ ci_config c = Some config
    ∧ cc_labels config = Some labels ∧ di_labels (container_identity e) ⊆ labels
    ∧ cc_cmd config = Some exec_server_command ∧ cc_entrypoint config = wt_image_entrypoint t
    ∧ cc_env config = wt_image_environment t ∧ cc_working_dir config = Some root
    ∧ default EmptyString (cc_user config) = default EmptyString (user_text (wt_run_as t))
    ∧ ci_networks c = Some networks ∧ dom networks = {[ wt_network t ]}
    ∧ (ci_host_config c ≫= hc_mounts) = Some configured ∧ ci_mounts c = Some observed
    ∧ (∃ a b, configured ≡ₚ [a; b] ∧ configured_at (wt_workspace_backing t) root sub a
              ∧ configured_at (wt_workspace_backing t) meta metasub b)
    ∧ ∃ a b, observed ≡ₚ [a; b] ∧ observed_at (wt_workspace_backing t) root sub a
             ∧ observed_at (wt_workspace_backing t) meta metasub b.

Lemma relative_subpath_Ok root sub : workspace_relative_subpath root = Ok sub → below_workspaces root sub.
Proof.
  unfold workspace_relative_subpath. destruct (Prelude.strip_prefix _ root) as [relative|] eqn:Hs; [|done].
  destruct (_ || _) eqn:Hb; [done|]. intros [= <-]. apply orb_false_iff in Hb as [Hne Hb].
  apply strip_prefix_spec in Hs as ->. split_and!; [done|by apply bool_decide_eq_false in Hne|].
  apply Forall_forall. intros comp Hin Hbad. rewrite <- not_true_iff_false, existsb_exists in Hb. apply Hb.
  exists comp. split; [by apply list_elem_of_In|]. by apply bool_decide_eq_true.
Qed.

(** What is known of the specification. *)
Lemma container_spec_Ok t e root meta spec :
  container_spec t e root meta = Ok spec →
  ∃ sub metasub m1 m2, below_workspaces root sub ∧ below_workspaces meta metasub ∧ sub ≠ metasub
    ∧ scoped_workspace_mount (wt_workspace_backing t) root sub = Ok m1
    ∧ scoped_workspace_mount (wt_workspace_backing t) meta metasub = Ok m2
    ∧ spec = mkContainerSpec (container_identity e) (wt_image t) (wt_network t) root [m1; m2] (wt_run_as t)
               (wt_image_entrypoint t) (wt_image_environment t) (exec_server_url (di_name (container_identity e))).
Proof.
  unfold container_spec. intros H.
  apply bind_Ok in H as (sub & H1%relative_subpath_Ok & H). apply bind_Ok in H as (metasub & H2%relative_subpath_Ok & H).
  apply bind_Ok in H as (u & H3%guard_err_Ok & H). apply bind_Ok in H as (m1 & H4 & H). apply bind_Ok in H as (m2 & H5 & H).
  injection H as <-. exists sub, metasub, m1, m2. split_and!; try done. by apply bool_decide_eq_false in H3.
Qed.

Lemma below_distinct root sub meta metasub :
  below_workspaces root sub → below_workspaces meta metasub → sub ≠ metasub → root ≠ meta.
Proof. intros [-> _] [-> _] Hne Heq. apply Hne. by injection Heq. Qed.

Lemma configured_matches backing root sub m a :
  scoped_workspace_mount backing root sub = Ok m →
  configured_mount_matches m a = true ↔ configured_at backing root sub a.
Proof.
  unfold scoped_workspace_mount, configured_mount_matches, configured_at.
  destruct (wb_typ backing); intros [= <-]; cbn [sw_typ sw_source sw_target sw_volume_subpath fmap option_fmap option_map];
    rewrite !andb_true_iff, negb_true_iff, bool_decide_eq_false, !bool_decide_eq_true; naive_solver.
Qed.

Lemma observed_matches backing root sub m a :
  scoped_workspace_mount backing root sub = Ok m →
  observed_mount_matches m a = true ↔ observed_at backing root sub a.
Proof.
  unfold scoped_workspace_mount, observed_mount_matches, observed_at.
  destruct (wb_typ backing); intros [= <-]; cbn [sw_typ sw_source sw_target];
    rewrite !andb_true_iff, !bool_decide_eq_true; naive_solver.
Qed.

(** Both kinds of mounts, exactly. *)
Lemma mounts_exact {A : Type} matches (at_root : WorkspaceBackingSpec → string → string → A → Prop)
    backing root sub meta metasub m1 m2 (target : A → option string) (actual : list A) :
  (∀ r s m a, scoped_workspace_mount backing r s = Ok m → matches m a = true ↔ at_root backing r s a) →
  (∀ r s a, at_root backing r s a → target a = Some r) →
  scoped_workspace_mount backing root sub = Ok m1 → scoped_workspace_mount backing meta metasub = Ok m2 → root ≠ meta →
  only_mounts matches [m1; m2] actual = true ↔
    ∃ a b, actual ≡ₚ [a; b] ∧ at_root backing root sub a ∧ at_root backing meta metasub b.
Proof.
  intros Hm Ht H1 H2 Hne. rewrite only_two_mounts.
  - split; intros (a & b & Hp & Ha & Hb); exists a, b; (split; [done|]).
    + by rewrite <- (Hm _ _ _ _ H1), <- (Hm _ _ _ _ H2).
    + by rewrite (Hm _ _ _ _ H1), (Hm _ _ _ _ H2).
  - intros a Ha%(Hm _ _ _ _ H1)%Ht Hb%(Hm _ _ _ _ H2)%Ht. congruence.
Qed.

Lemma labels_included (expected labels : gmap string string) :
  labels_agree expected labels (map_to_list expected).*1 = true ↔ expected ⊆ labels.
Proof.
  rewrite labels_agree_spec, map_subseteq_spec. split.
  - intros Hk key v Hv. rewrite Hk; [done|]. apply list_elem_of_fmap. exists (key, v). by rewrite elem_of_map_to_list.
  - intros Hs key Hin. apply list_elem_of_fmap in Hin as ([key' v] & -> & Hin). apply elem_of_map_to_list in Hin.
    cbn. rewrite Hin. by apply Hs.
Qed.

Lemma single_network (networks : gmap string (option string)) network :
  negb (bool_decide (size networks = 1%nat)) || bool_decide (networks !! network = None) = false
  ↔ dom networks = {[ network ]}.
Proof.
  rewrite orb_false_iff, negb_false_iff, bool_decide_eq_true, bool_decide_eq_false, <- size_dom.
  change (networks !! network ≠ None) with (¬ networks !! network = None). rewrite <- not_elem_of_dom. split.
  - intros [[x Hx]%size_1_elem_of Hn]. apply leibniz_equiv in Hx. rewrite Hx in Hn |- *.
    destruct (decide (network = x)) as [->|]; [done|set_solver].
  - intros ->. rewrite size_singleton. set_solver.
Qed.

Lemma user_agrees (actual : option string) run_as :
  match actual with Some user => if decide (user = EmptyString) then None else Some user | None => None end = user_text run_as
  ↔ default EmptyString actual = default EmptyString (user_text run_as).
Proof.
  assert (user_text run_as ≠ Some EmptyString) by (by destruct run_as as [[[] gid]|]).
  destruct actual as [user|], (user_text run_as) as [u|]; cbn; try case_decide; naive_solver.
Qed.

Lemma passed {E : Type} (P : Prop) `{Decision P} (e : E) u : guard_err (negb (bool_decide P)) e = Ok u → P.
Proof. by intros Hp%guard_err_Ok%negb_false_iff%bool_decide_eq_true. Qed.

(** A container is accepted exactly when it is confined. *)
Lemma accepted_confined t e root sub meta metasub m1 m2 url c :
  scoped_workspace_mount (wt_workspace_backing t) root sub = Ok m1 →
  scoped_workspace_mount (wt_workspace_backing t) meta metasub = Ok m2 → root ≠ meta →
  validate_existing_container (mkContainerSpec (container_identity e) (wt_image t) (wt_network t) root [m1; m2] (wt_run_as t)
    (wt_image_entrypoint t) (wt_image_environment t) url) c = Ok tt ↔ confined t e root sub meta metasub c.
Proof.
  intros H1 H2 Hne. unfold validate_existing_container.
  cbn [ds_identity ds_image ds_network ds_workspace_root ds_workspace_mounts ds_run_as ds_image_entrypoint ds_image_environment].
  assert (∀ l, only_mounts configured_mount_matches [m1; m2] l = true ↔ ∃ a b, l ≡ₚ [a; b]
    ∧ configured_at (wt_workspace_backing t) root sub a ∧ configured_at (wt_workspace_backing t) meta metasub b) as Hc.
  { intros l. apply (mounts_exact _ configured_at _ _ _ _ _ _ _ mt_target); try done.
    - intros. by apply configured_matches.
    - by intros r s a (Ht & _). }
  assert (∀ l, only_mounts observed_mount_matches [m1; m2] l = true ↔ ∃ a b, l ≡ₚ [a; b]
    ∧ observed_at (wt_workspace_backing t) root sub a ∧ observed_at (wt_workspace_backing t) meta metasub b) as Ho.
  { intros l. apply (mounts_exact _ observed_at _ _ _ _ _ _ _ mp_destination); try done.
    - intros. by apply observed_matches.
    - by intros r s a (Ht & _). }
  split.
  - intros H.
    apply bind_Ok in H as (? & Himage%passed & H). apply bind_Ok in H as (config & Hconfig%ok_or_Ok & H).
    apply bind_Ok in H as (labels & Hlabels%ok_or_Ok & H). apply bind_Ok in H as (? & Hl%guard_err_Ok & H).
    do 4 (apply bind_Ok in H as (? & ?Hg%passed & H)). apply bind_Ok in H as (? & Hu%passed & H).
    apply bind_Ok in H as (networks & Hnet%ok_or_Ok & H). apply bind_Ok in H as (? & Hn%guard_err_Ok & H).
    apply bind_Ok in H as (configured & Hconf%ok_or_Ok & H). apply bind_Ok in H as (? & Hcm%guard_err_Ok & H).
    apply bind_Ok in H as (observed & Hobs%ok_or_Ok & H). apply guard_err_Ok in H.
    apply negb_false_iff in Hl, Hcm, H. rewrite single_network in Hn. rewrite user_agrees in Hu. rewrite Hc in Hcm. rewrite Ho in H.
    exists config, labels, networks, configured, observed. rewrite labels_included in Hl. split_and!; assumption.
  - intros (config & labels & networks & configured & observed & Himage & Hconfig & Hlabels & Hl & Hcmd & Hent & Henv & Hdir
      & Hu & Hnet & Hn & Hconf & Hobs & Hcm & Hom).
    rewrite <- labels_included in Hl. rewrite <- user_agrees in Hu. rewrite <- Hc in Hcm. rewrite <- Ho in Hom. rewrite <- single_network in Hn.
    by repeat first [rewrite Himage || rewrite Hconfig || rewrite Hlabels || rewrite Hl || rewrite Hcmd || rewrite Hent
      || rewrite Henv || rewrite Hdir || rewrite Hu || rewrite Hnet || rewrite Hn || rewrite Hconf || rewrite Hobs || rewrite Hcm
      || rewrite Hom || rewrite bool_decide_eq_true_2 by done
      | progress cbn [ok_or guard_err negb mbind result_bind andb orb]].
Qed.

(** A container carries the identity of one generation of one environment. *)
Lemma identity_unique e e' c :
  carries_identity e c → carries_identity e' c →
  ee_job_id e = ee_job_id e' ∧ ee_environment_id e = ee_environment_id e' ∧ ee_generation e = ee_generation e'.
Proof.
  intros (_ & config & labels & Hc & Hl & _ & Hj & He & Hg) (_ & config' & labels' & Hc' & Hl' & _ & Hj' & He' & Hg').
  rewrite Hc in Hc'. injection Hc' as <-. rewrite Hl in Hl'. injection Hl' as <-.
  split_and!; try congruence. rewrite Hg in Hg'. by injection Hg' as ?%(inj pretty).
Qed.

(** ** Runs *)

(** The call just made is on the trace. *)
Ltac seen := first [by apply list_elem_of_singleton | apply elem_of_app; right; by apply list_elem_of_singleton].

(** The engine said that the container is gone. *)
Definition said_gone (c : DockerCall) : bool :=
  match c with
  | Inspected _ (Err error) | Removed _ _ _ (Err error) => docker_status_is [404] error
  | Removed _ _ _ (Ok _) => true
  | _ => false
  end.

Definition only_inspected (c : DockerCall) : Prop := match c with Inspected _ _ => True | _ => False end.

Section runs.
Context {W : Type} `{DockerEngine W, Timers W, DockerText, !TimerLaws W, !DockerTrace W}.
Context (e : ExecutionEnvironmentRecord) (base : list DockerCall).
Implicit Types (w : W) (new : list DockerCall).

(** The calls of the run so far. *)
Definition so_far new w : Prop := docker_calls w = base ++ new ∧ follows e new.

Definition lawful w : Prop := ∃ new, so_far new w.

Lemma so_far_snoc new w c w' :
  so_far new w → docker_calls w' = docker_calls w ++ [c] → allowed e new c → so_far (new ++ [c]) w'.
Proof. intros [Hc Hf] Hc' Ha. split; [by rewrite Hc', Hc, app_assoc|by apply follows_snoc]. Qed.

Lemma inspect_ends which new w :
  so_far new w →
  ends (inspect_container which) w (λ c, so_far (new ++ [Inspected which (Ok c)])) lawful.
Proof.
  intros Hs. apply ends_intro. intros r w' [Hc _]%inspect_called.
  assert (so_far (new ++ [Inspected which r]) w') by (by eapply so_far_snoc).
  destruct r; [done|by eexists].
Qed.

Lemma ask_ends which new w :
  so_far new w →
  ends (attempt (inspect_container which) : proc W Failure _) w (λ r, so_far (new ++ [Inspected which r])) lawful.
Proof.
  intros Hs. apply ends_intro. unfold attempt. destruct (inspect_container which w) as [r w'] eqn:Hr.
  intros ? ? [= <- <-]. apply inspect_called in Hr as [Hc _]. by eapply so_far_snoc.
Qed.

(** A call that tolerates some answers. *)
Lemma unless_ends (p : proc W DockerError unit) call statuses message new w :
  (∀ r w', p w = (r, w') → docker_calls w' = docker_calls w ++ [call r]) →
  so_far new w → (∀ r, allowed e new (call r)) →
  ends (unless_status statuses message p) w
    (λ _ w', ∃ r, so_far (new ++ [call r]) w' ∧ (r = Ok tt ∨ ∃ error, r = Err error ∧ docker_status_is statuses error = true))
    lawful.
Proof.
  intros Hcall Hs Ha. apply ends_intro. intros r w'. unfold unless_status, attempt, mbind, proc_bind.
  destruct (p w) as [q w1] eqn:Hp. pose proof (so_far_snoc _ _ _ _ Hs (Hcall _ _ eq_refl) (Ha q)) as Hn.
  destruct q as [[]|error]; cbn; [|destruct (docker_status_is statuses error) eqn:Hst; cbn]; intros [= <- <-].
  - eauto.
  - exists (Err error). eauto.
  - by eexists.
Qed.

Lemma create_ends spec new w :
  ds_identity spec = container_identity e → so_far new w →
  ends (inspect_or_create_container spec) w
    (λ c w', ∃ new', so_far (new' ++ [Inspected (di_name (container_identity e)) (Ok c)]) w') lawful.
Proof.
  intros Hid Hs. unfold inspect_or_create_container. rewrite Hid.
  ends_step ask_ends; [exact Hs| |done]. intros [c|error] w1 Hw; [apply ends_done; eauto|].
  destruct (docker_status_is [404] error); [|apply ends_fail; by eexists].
  apply ends_bind, ends_intro. unfold attempt. intros r w2.
  destruct (create_container _ _ w1) as [q w3] eqn:Hq. intros [= <- <-].
  apply create_called in Hq. eapply so_far_snoc in Hq; [|exact Hw|split; [done|cbn; by rewrite Hid]].
  destruct q as [u|error']; [|destruct (docker_status_is [409] error'); [|apply ends_fail; by eexists]];
    (apply ends_map_err; eapply ends_mono; [by apply inspect_ends|intros c w2 Hc; eexists; exact Hc|done]).
Qed.

(** The recorded environment names the same container. *)
Lemma release_identity_carries environment c :
  validate_release_identity (container_identity e) environment c = Ok tt → carries_identity e c.
Proof. unfold validate_release_identity. intros ([] & Hd & _)%bind_Ok. by apply deterministic_identity_carries. Qed.

Lemma remove_ends environment inspected asked new w :
  so_far new w → Inspected asked (Ok inspected) ∈ new →
  ends (remove_owned_container (container_identity e) environment inspected) w
    (λ _ w', ∃ new' c, so_far (new' ++ [c]) w' ∧ said_gone c = true) lawful.
Proof.
  intros Hs Hin. unfold remove_owned_container.
  apply ends_bind, ends_lift. destruct (validate_release_identity _ _ _) as [[]|] eqn:Hv; [|by eexists].
  apply release_identity_carries in Hv.
  apply ends_bind, ends_lift. destruct (required_value _ _) as [id|] eqn:Hid; [|by eexists].
  apply required_value_Ok in Hid as [Hid _].
  apply ends_bind. eapply (ends_mono _ _ (λ _ w', lawful w') _ lawful); [| |done].
  { destruct (container_is_running inspected); [|apply ends_done; by eexists].
    eapply ends_mono; [apply (unless_ends _ (Stopped id 10) _ _ new); [|done|]|intros ? ? (r & Hr & _); by eexists|done].
    - intros r w'. apply stop_called.
    - intros r. exists asked, inspected. done. }
  intros _ w1 [new1 H1']. ends_step ask_ends; [exact H1'| |done]. intros [current|error] w2 H2.
  - apply ends_bind, ends_lift. destruct (validate_release_identity _ _ _) as [[]|] eqn:Hv'; [|by eexists].
    apply release_identity_carries in Hv'.
    eapply ends_mono; [eapply (unless_ends _ (Removed id false false)); [|exact H2|]| |done].
    + intros r w'. apply remove_called.
    + intros r. split_and!; [done..|]. exists current. by rewrite last_snoc.
    + intros [] w3 (r & Hr & Hok). eexists _, _. split; [exact Hr|]. destruct Hok as [->|(error & -> & Hst)]; done.
  - destruct (docker_status_is [404] error) eqn:Hst; [apply ends_done; eauto|apply ends_fail; by eexists].
Qed.

Lemma release_ends :
  ∀ w, so_far [] w → ends (release_container e) w (λ _ w', ∃ new c, so_far (new ++ [c]) w' ∧ said_gone c = true) lawful.
Proof.
  intros w Hs. unfold release_container, find_released.
  apply ends_bind. eapply (ends_mono _ _
    (λ found w', match found with
       | Some (inspected, environment) => ∃ new asked, so_far new w' ∧ Inspected asked (Ok inspected) ∈ new
       | None => ∃ new c, so_far (new ++ [c]) w' ∧ said_gone c = true
       end) _ lawful); [| |done].
  - destruct (ee_backend_ref e) as [reference|].
    + ends_step ask_ends; [exact Hs| |done]. intros [c|error] w1 Hw.
      { apply ends_done. eexists _, _. split; [exact Hw|seen]. }
      destruct (docker_status_is [404] error); [|apply ends_fail; by eexists].
      ends_step ask_ends; [exact Hw| |done]. intros [c|error'] w2 Hw2.
      * apply ends_bind, ends_lift. destruct (reconcile_release_fallback _ _ _) as [environment|]; [|by eexists].
        apply ends_done. eexists _, _. split; [exact Hw2|seen].
      * destruct (docker_status_is [404] error') eqn:Hst; [apply ends_done; eauto|apply ends_fail; by eexists].
    + ends_step ask_ends; [exact Hs| |done]. intros [c|error] w1 Hw.
      { apply ends_done. eexists _, _. split; [exact Hw|seen]. }
      destruct (docker_status_is [404] error) eqn:Hst; [apply ends_done; eauto|apply ends_fail; by eexists].
  - intros [[inspected environment]|] w1; [|intros Hw; by apply ends_done].
    intros (new & asked & Hn & Hin). by eapply remove_ends.
Qed.

(** ** Readiness *)

Definition inspecting (w w' : W) : Prop := ∃ cs, docker_calls w' = docker_calls w ++ cs ∧ Forall only_inspected cs.

#[local] Instance inspecting_preorder : PreOrder inspecting.
Proof.
  split.
  - intros w. exists []. by rewrite app_nil_r.
  - intros w w' w'' (cs & Hc & Hf) (cs' & Hc' & Hf'). exists (cs ++ cs'). split; [by rewrite Hc', Hc, app_assoc|by apply Forall_app].
Qed.

Lemma timeout_keeps {E A : Type} (R : relation W) `{!PreOrder R} d (p : proc W E A) :
  keeps_to R p → keeps_to R (timeout_at d p).
Proof.
  intros Hp w [r|[]] w' Hr; [|by eapply timeout_cut]. apply timeout_done in Hr. by eapply Hp.
Qed.

Lemma inspect_inspecting which : keeps_to inspecting (inspect_container which).
Proof. intros w r w' [Hc _]%inspect_called. exists [Inspected which r]. split; [done|]. by repeat constructor. Qed.

Lemma quiet_inspecting {E A : Type} (p : proc W E A) :
  (∀ w r w', p w = (r, w') → docker_calls w' = docker_calls w) → keeps_to inspecting p.
Proof. intros Hp w r w' Hc%Hp. exists []. by rewrite app_nil_r. Qed.

Lemma observe_inspecting {E A : Type} (f : W → A) : keeps_to inspecting (observe f : proc W E A).
Proof. intros w r w' [= _ <-]. done. Qed.

#[local] Hint Resolve inspect_inspecting observe_inspecting : within.

Lemma ready_round_inspecting name network d : keeps_to inspecting (ready_round name network d).
Proof.
  unfold ready_round. stay_within.
  - apply timeout_keeps; [apply _|]. apply inspect_inspecting.
  - apply timeout_keeps; [apply _|]. apply quiet_inspecting. intros ???. apply connect_not_docker.
  - apply timeout_keeps; [apply _|]. apply quiet_inspecting. intros ???. apply sleep_not_docker.
Qed.

#[local] Hint Resolve ready_round_inspecting : within.

Lemma ready_rounds_inspecting fuel name network d : keeps_to inspecting (ready_rounds fuel name network d).
Proof. induction fuel as [|n IH]; cbn [ready_rounds]; stay_within. Qed.

#[local] Hint Resolve ready_rounds_inspecting : within.

Lemma wait_inspecting name network : keeps_to inspecting (wait_until_ready name network).
Proof. unfold wait_until_ready. stay_within. Qed.

(** A round that goes on started before the deadline and lasted. *)
Lemma ready_round_lasts name network d w w' :
  ready_round name network d w = (Ok false, w') → instant w < d ∧ instant w + READY_RETRY ≤ instant w'.
Proof.
  unfold ready_round. intros Hr.
  apply bind_cases in Hr as [(? & [=] & _)|(inspected & w1 & Hi & Hr)]. apply timeout_done, inspect_called in Hi as [_ Hi].
  apply bind_cases in Hr as [(? & [=] & _)|(connected & w2 & Hc & Hr)].
  assert (instant w1 ≤ instant w2) as H12.
  { destruct inspected as [container|error]; [|by injection Hc as _ <-].
    apply bind_cases in Hc as [(? & [=] & _)|(r & w3 & Hc & Hd)]. injection Hd as _ <-. by apply timeout_done, connect_lasts in Hc. }
  destruct connected; [done|]. apply bind_cases in Hr as [(? & [=] & _)|(now & w3 & [= <- <-] & Hr)].
  apply bind_cases in Hr as [(? & [=] & _)|(r & w4 & Hs & Hr)]. injection Hr as <-.
  destruct (decide (d ≤ instant w2)) as [Hd|Hd].
  { exfalso. eapply sleep_cut; [exact Hd| |exact Hs]. unfold READY_RETRY. lia. }
  apply timeout_done, sleep_lasts in Hs as [Hs _]. lia.
Qed.

Lemma ready_rounds_lasts fuel name network d w w' :
  ready_rounds (S fuel) name network d w = (Ok None, w') → instant w + Z.of_nat fuel * READY_RETRY < d.
Proof.
  revert w. induction fuel as [|n IH]; intros w Hr; cbn [ready_rounds] in Hr;
    apply bind_cases in Hr as [(? & [=] & _)|(ready & w1 & H1' & Hr)]; (destruct ready; [done|]);
    apply ready_round_lasts in H1' as [Hb Hl]; [lia|]. apply IH in Hr. lia.
Qed.

(** The rounds always suffice. *)
Lemma wait_finishes name network w w' : wait_until_ready name network w ≠ (Err [Lit "unfinished"], w').
Proof.
  unfold wait_until_ready. intros Hr. apply bind_cases in Hr as [(? & [=] & [=])|(started & w1 & [= <- <-] & Hr)].
  apply bind_cases in Hr as [(f & [= <-] & Hr)|(waited & w1 & Hr & Hn)].
  - unfold map_err in Hr. destruct (ready_rounds _ _ _ _ w) as [[]]; by simplify_eq.
  - destruct waited as [|]; [done|]. unfold map_err in Hr.
    destruct (ready_rounds _ _ _ _ w) as [[o|] w2] eqn:Hrr; simplify_eq.
    change ready_fuel with (S 300) in Hrr. apply ready_rounds_lasts in Hrr. unfold READY_TIMEOUT, READY_RETRY in Hrr. lia.
Qed.

Lemma wait_ends name network new w :
  so_far new w → ends (wait_until_ready name network) w (λ _, lawful) lawful.
Proof.
  intros [Hc Hf]. assert (∀ w', inspecting w w' → lawful w') as Hl.
  { intros w' (cs & Hc' & Hcs). exists (new ++ cs). split; [by rewrite Hc', Hc, app_assoc|]. clear -Hf Hcs.
    induction cs as [|c cs IH] using rev_ind; [by rewrite app_nil_r|]. apply Forall_app in Hcs as [Hcs [Hc _]%Forall_cons].
    rewrite app_assoc. apply follows_snoc; [auto|]. by destruct c. }
  eapply ends_mono; [apply (ends_always inspecting), wait_inspecting|auto..].
Qed.

(** ** Provisioning *)

Lemma current_ends spec new w :
  ds_identity spec = container_identity e → so_far new w →
  ends (current_container spec e) w (λ _, lawful) lawful.
Proof.
  intros Hid Hs. unfold current_container. apply ends_bind.
  eapply ends_mono; [by eapply create_ends| |done]. intros c w1 [new1 H1'].
  apply ends_bind, ends_lift. destruct (existing_container_disposition _ _ _) as [[]|]; [apply ends_done; by eexists| |by eexists].
  apply ends_bind, ends_map_err. rewrite Hid. eapply ends_mono; [eapply remove_ends; [exact H1'|seen]| |done].
  intros [] w2 (new2 & c2 & H2 & _). apply ends_bind. eapply ends_mono; [by eapply create_ends| |done].
  intros c' w3 [new3 H3]. apply ends_bind, ends_lift. destruct (validate_existing_container _ _) as [[]|]; [|by eexists].
  apply ends_done. by eexists.
Qed.

Lemma ensure_ends t root meta w :
  so_far [] w →
  ends (ensure_container t e root meta) w
    (λ p w', ∃ new c sub metasub, so_far (new ++ [Inspected (di_name (container_identity e)) (Ok c)]) w'
       ∧ below_workspaces root sub ∧ below_workspaces meta metasub ∧ sub ≠ metasub
       ∧ confined t e root sub meta metasub c ∧ container_is_running c = true ∧ ci_id c = Some (pv_backend_ref p)
       ∧ is_blank (pv_backend_ref p) = false ∧ pv_url p = exec_server_url (di_name (container_identity e)))
    lawful.
Proof.
  intros Hs. unfold ensure_container. apply ends_bind, ends_lift.
  destruct (container_spec t e root meta) as [spec|] eqn:Hspec; [|by eexists].
  apply container_spec_Ok in Hspec as (sub & metasub & m1 & m2 & Hr & Hm & Hne & H1' & H2' & Hspec).
  assert (ds_identity spec = container_identity e) as Hid by (by rewrite Hspec). rewrite Hid.
  apply ends_bind. eapply ends_mono; [by eapply current_ends| |done]. intros c1 w1 [new1 Hn1].
  apply ends_bind. eapply (ends_mono _ _ (λ _, lawful) _ lawful); [| |done].
  { destruct (container_is_running c1); [apply ends_done; by eexists|].
    eapply ends_mono; [eapply (unless_ends _ (Started _)); [|exact Hn1|done]|intros ? ? (r & Hw & _); by eexists|done].
    intros r w'. apply start_called. }
  intros _ w2 [new2 Hn2]. apply ends_bind. eapply ends_mono; [by eapply wait_ends| |done]. intros _ w3 [new3 Hn3].
  apply ends_bind, ends_map_err. eapply ends_mono; [by eapply inspect_ends| |done]. intros c w4 Hn4. cbn beta in Hn4.
  apply ends_bind, ends_lift. destruct (validate_existing_container spec c) as [[]|] eqn:Hv; [|by eexists].
  destruct (container_is_running c) eqn:Hrun; [|apply ends_fail; by eexists].
  apply ends_bind, ends_lift. destruct (required_value _ _) as [id|] eqn:Hreq; [|by eexists]. apply ends_done.
  apply required_value_Ok in Hreq as [Hid' Hb]. rewrite Hspec in Hv.
  eapply accepted_confined in Hv; [|done..|by eapply below_distinct].
  exists new3, c, sub, metasub. by rewrite Hspec.
Qed.
End runs.

(** An operation is given what the provisioner returned. *)
Lemma ensured_provisioned {W : Type} `{EnvironmentHost W} fence root metadata (w : W) id p w' :
  ensure_environment fence root metadata w = (Ok (id, p), w') →
  ∃ environment metadata_root w1 w2, metadata = Ok metadata_root ∧ provision environment root metadata_root w1 = (Ok p, w2).
Proof.
  unfold ensure_environment. intros Hr. apply bind_cases in Hr as [(? & [=] & _)|(metadata_root & w0 & Hm & Hr)].
  apply bind_cases in Hr as [(? & [=] & _)|(ensured & w1 & _ & Hr)].
  apply bind_cases in Hr as [(? & [=] & _)|(environment & w2 & _ & Hr)].
  apply bind_cases in Hr as [(? & [=] & _)|(provisioned & w3 & Hp & Hr)]. unfold attempt in Hp.
  destruct (provision environment root metadata_root w2) as [q w4] eqn:E. injection Hp as <- <-.
  destruct q as [q|error].
  - destruct (_ ← _; _) as [u|message].
    + apply bind_cases in Hr as [(? & [=] & _)|(ready & w5 & _ & Hr)]. injection Hr as _ <- _.
      exists environment, metadata_root, w2, w4. split; [|done]. unfold map_err, proc_lift in Hm. destruct metadata; by simplify_eq.
    + by apply bind_cases in Hr as [(? & [=] & _)|(? & ? & _ & [=])].
  - by apply bind_cases in Hr as [(? & [=] & _)|(? & ? & _ & [=])].
Qed.

(** ** The theorems *)

(** The last answer of the engine was about a running container, confined as the
    template says, that has the reported reference. *)
Definition last_confined {W : Type} `{DockerTrace W} (t : DockerWorkerTemplate) (e : ExecutionEnvironmentRecord) (root meta : string)
    (p : Provisioned) (w : W) : Prop :=
  ∃ c sub metasub, last (docker_calls w) = Some (Inspected (di_name (container_identity e)) (Ok c))
    ∧ below_workspaces root sub ∧ below_workspaces meta metasub ∧ sub ≠ metasub
    ∧ confined t e root sub meta metasub c ∧ container_is_running c = true
    ∧ ci_id c = Some (pv_backend_ref p) ∧ is_blank (pv_backend_ref p) = false
    ∧ pv_url p = exec_server_url (di_name (container_identity e)).

Section environments.
Context {W : Type} `{DockerEngine W, Timers W, DockerText, !TimerLaws W, !DockerTrace W}.
Implicit Types (w : W).

(** C34: A provisioned environment is confined to its job.  However the engine
    answers, when a container is provisioned for an environment, the last answer of
    the engine was about a running container of the environment's name with the
    reference that is reported and the labels of its generation.  It runs the
    worker's image and user, is attached to the worker's network alone, and its
    configured and its observed mounts are exactly two: the given worktree and the
    given repository metadata, each a distinct normalized path below the
    workspaces.  Waiting for its server always ends, and an operation of a worker
    with this provisioner is given such a container only. *)
Theorem environment_confined t e root meta w p w' :
  ensure_container t e root meta w = (Ok p, w') →
  last_confined t e root meta p w'
  ∧ (∀ name network w1 w2, wait_until_ready name network w1 ≠ (Err [Lit "unfinished"], w2))
  ∧ ∀ store text fence metadata w1 id q w2,
      ensure_environment (H := docker_host store text t) fence root metadata w1 = (Ok (id, q), w2) →
      ∃ environment metadata_root w3, metadata = Ok metadata_root ∧ last_confined t environment root metadata_root q w3.
Proof.
  assert (∀ e meta w p w', ensure_container t e root meta w = (Ok p, w') → last_confined t e root meta p w') as Hlast.
  { intros e0 meta0 w0 p0 w0' Hr. eapply ends_run in Hr; [|eapply ensure_ends; split; [symmetry; apply app_nil_r|apply follows_nil]].
    destruct Hr as (new & c & sub & metasub & [Hc _] & Hrest). exists c, sub, metasub.
    split; [by rewrite Hc, app_assoc, last_snoc|exact Hrest]. }
  intros Hr. split; [by eapply Hlast|]. split; [intros; apply wait_finishes|].
  intros store text fence metadata w1 id q w2 He. apply ensured_provisioned in He as (environment & root' & w3 & w4 & Hm & Hp).
  exists environment, root', w4. split; [done|]. cbn in Hp. unfold map_err in Hp.
  destruct (ensure_container t environment root root' w3) as [[q'|] w5] eqn:E; simplify_eq. by eapply Hlast.
Qed.

(** C35: No container of anybody else is touched.  However the engine answers and
    whatever comes of it, while an environment is provisioned or released
    containers are created and started only under its name, a container is stopped
    only after it was seen to have the name and the labels of the environment's
    generation, and removed (without force, keeping volumes) only right after;
    no container carries the identity of two generations or environments.  A
    release that succeeds ends with the engine saying that the container is gone. *)
Theorem only_own_containers e w :
  (∀ t root meta r w', ensure_container t e root meta w = (r, w') →
     ∃ new, docker_calls w' = docker_calls w ++ new ∧ follows e new)
  ∧ (∀ r w', release_container e w = (r, w') →
       ∃ new, docker_calls w' = docker_calls w ++ new ∧ follows e new
         ∧ (r = Ok tt → ∃ c, last new = Some c ∧ said_gone c = true))
  ∧ ∀ e' c, carries_identity e c → carries_identity e' c →
       ee_job_id e = ee_job_id e' ∧ ee_environment_id e = ee_environment_id e' ∧ ee_generation e = ee_generation e'.
Proof.
  assert (so_far e (docker_calls w) [] w) as Hs by (split; [symmetry; apply app_nil_r|apply follows_nil]).
  split_and!; [| |intros e' c; apply identity_unique].
  - intros t root meta r w' Hr. eapply ends_run in Hr; [|by apply ensure_ends].
    destruct r; [destruct Hr as (new & c & sub & metasub & Hn & _)|destruct Hr as [new Hn]]; destruct Hn as [Hc Hf]; by eexists.
  - intros r w' Hr. eapply ends_run in Hr; [|by apply release_ends].
    destruct r as [[]|]; [destruct Hr as (new & c & [Hc Hf] & Hg)|destruct Hr as [new [Hc Hf]]]; eexists; (split_and!; [exact Hc|done|]).
    + intros _. exists c. by rewrite last_snoc.
    + done.
Qed.
End environments.

(** ** A small engine *)

Record Engine : Type := mkEngine {
  en_containers : list ContainerInspectResponse;
  en_calls : list DockerCall;
  en_clock : Z;
}.

Definition answers_to (which : string) (c : ContainerInspectResponse) : bool :=
  bool_decide (ci_id c = Some which) || bool_decide (ci_name c = Some ("/" +:+ which)).

Definition toy_created (name : string) (b : ContainerCreateBody) : ContainerInspectResponse :=
  mkInspect (Some ("id-" +:+ name)) (Some ("/" +:+ name)) (Some (cb_image b))
    (Some (mkContainerConfig (Some (cb_labels b)) (Some (cb_cmd b)) None None (Some (cb_working_dir b)) (cb_user b)))
    (Some {[ cb_network_mode b := Some "10.0.0.2" ]}) (Some (mkHostConfig (Some (cb_network_mode b)) (Some (cb_mounts b))))
    (Some ((λ m, mkMountPoint (Some "volume") (mt_source m) None (mt_target m) (Some true)) <$> cb_mounts b))
    (Some false).

Definition toy_running (running : bool) (c : ContainerInspectResponse) : ContainerInspectResponse :=
  mkInspect (ci_id c) (ci_name c) (ci_image c) (ci_config c) (ci_networks c) (ci_host_config c) (ci_mounts c) (Some running).

(** The engine answers by name or by identifier, and each call takes a tick. *)
Definition toy_call {A : Type} (call : result DockerError A → DockerCall)
    (p : list ContainerInspectResponse → result DockerError A * list ContainerInspectResponse) : proc Engine DockerError A :=
  λ w, let '(r, containers) := p (en_containers w) in
       (r, mkEngine containers (en_calls w ++ [call r]) (en_clock w + 1)).

Definition toy_missing : DockerError := DockerResponseServerError 404 "no such container".

Definition toy_find (which : string) (l : list ContainerInspectResponse) : result DockerError ContainerInspectResponse :=
  ok_or (List.find (answers_to which) l) toy_missing.

Definition toy_update (which : string) (f : ContainerInspectResponse → list ContainerInspectResponse)
    (l : list ContainerInspectResponse) : result DockerError unit * list ContainerInspectResponse :=
  match toy_find which l with
  | Ok _ => (Ok tt, l ≫= λ c, if answers_to which c then f c else [c])
  | Err error => (Err error, l)
  end.

#[export] Instance toy_docker : DockerEngine Engine := {|
  docker_connect := λ w, (Ok tt, w);
  negotiate_version := λ w, (Ok tt, w);
  inspect_container which := toy_call (Inspected which) (λ l, (toy_find which l, l));
  inspect_image _ := λ w, (Ok (Some (mkImageConfig None None)), w);
  inspect_network _ := λ w, (Ok tt, w);
  create_container name body := toy_call (Created name body) (λ l,
    match toy_find name l with
    | Ok _ => (Err (DockerResponseServerError 409 "in use"), l)
    | Err _ => (Ok tt, l ++ [toy_created name body])
    end);
  start_container name := toy_call (Started name) (toy_update name (λ c, [toy_running true c]));
  stop_container which seconds := toy_call (Stopped which seconds) (toy_update which (λ c, [toy_running false c]));
  remove_container which force volumes := toy_call (Removed which force volumes) (toy_update which (λ _, []));
|}.

#[export] Instance toy_timers : Timers Engine := {|
  instant := en_clock;
  timeout_at E A d p := λ w, let '(r, w') := p w in if d <? en_clock w' then (Err tt, w) else (Ok r, w');
  sleep_until t := λ w, (Ok tt, mkEngine (en_containers w) (en_calls w) (Z.max t (en_clock w)));
  tcp_connect _ := λ w, (Ok tt, w);
|}.

#[export] Instance toy_docker_text : DockerText := {|
  docker_error_text e := match e with DockerResponseServerError _ m | OtherDockerError m => m end |}.

#[export] Instance toy_timer_laws : TimerLaws Engine.
Proof.
  split.
  - intros E A d p w r w'. cbn. destruct (p w) as [q w1]. case_match; naive_solver.
  - intros E A d p w w' R HR Hp. cbn. destruct (p w) as [q w1]. case_match; naive_solver.
  - intros t w r w' [= <- <-]. cbn. lia.
  - intros d t w r w' Hd Ht. cbn. destruct (Z.ltb_spec d (Z.max t (en_clock w))); [done|lia].
  - by intros address w r w' [= <- <-].
Qed.

Lemma toy_called {A : Type} (call : result DockerError A → DockerCall) p w r w' :
  toy_call call p w = (r, w') → en_calls w' = en_calls w ++ [call r] ∧ en_clock w ≤ en_clock w'.
Proof. unfold toy_call. destruct (p _) as [q l]. intros [= <- <-]. cbn. split; [done|lia]. Qed.

#[export] Instance toy_docker_trace : DockerTrace Engine.
Proof.
  refine {| docker_calls := en_calls |}.
  - intros n w r w'. apply toy_called.
  - intros n body w r w' Hr. exact (proj1 (toy_called (Created n body) _ _ _ _ Hr)).
  - intros n w r w' Hr. exact (proj1 (toy_called (Started n) _ _ _ _ Hr)).
  - intros n t w r w' Hr. exact (proj1 (toy_called (Stopped n t) _ _ _ _ Hr)).
  - intros n f v w r w' Hr. exact (proj1 (toy_called (Removed n f v) _ _ _ _ Hr)).
  - by intros address w r w' [= <- <-].
  - by intros t w r w' [= <- <-].
Defined.

Definition demo_template : DockerWorkerTemplate :=
  mkWorkerTemplate "sha256:worker" "factory" (mkBacking VOLUME "workspaces") None None None.

Definition demo_environment (backend_ref : option string) : ExecutionEnvironmentRecord :=
  mkExecutionEnvironmentRecord "job-1" "env/1" "docker" 2 DesiredActive EnvProvisioning backend_ref None None 0 0.

Definition demo_root : string := "/workspaces/jobs/job-1".
Definition demo_metadata : string := "/workspaces/mirrors/abc.git".

Definition no_containers : Engine := mkEngine [] [] 0.

(** A container that carries the labels of the environment but other mounts. *)
Definition stale_engine : Engine :=
  mkEngine [toy_running true (toy_created "factory-exec-env-1-g2"
    (mkCreateBody "sha256:worker" None exec_server_command "/workspaces" (di_labels (container_identity (demo_environment None)))
      [] "factory" [] []))] [] 0.

Lemma environment_confined_witness :
  ∃ p w' c, ensure_container demo_template (demo_environment None) demo_root demo_metadata stale_engine = (Ok p, w')
    ∧ pv_backend_ref p = "id-factory-exec-env-1-g2"
    ∧ confined demo_template (demo_environment None) demo_root "jobs/job-1" demo_metadata "mirrors/abc.git" c.
Proof.
  destruct (ensure_container demo_template (demo_environment None) demo_root demo_metadata stale_engine) as [[p|] w'] eqn:E;
    [|by vm_compute in E].
  destruct (environment_confined _ _ _ _ _ _ _ E) as [(c & sub & metasub & _ & [H1 _] & [H2 _] & _ & Hc & _) _].
  assert (sub = "jobs/job-1") as -> by (by injection H1 as H1; rewrite H1).
  assert (metasub = "mirrors/abc.git") as -> by (by injection H2 as H2; rewrite H2).
  exists p, w', c. split; [done|]. split; [|done].
  apply (f_equal (λ x, match x.1 with Ok p => pv_backend_ref p | Err _ => EmptyString end)) in E. cbn in E.
  rewrite <- E. by vm_compute.
Defined.

(** The stale container is stopped and removed before the new one is made. *)
Lemma only_own_containers_witness :
  let run := ensure_container demo_template (demo_environment None) demo_root demo_metadata stale_engine in
  is_ok run.1 = true
  ∧ (∃ new, docker_calls run.2 = new ∧ follows (demo_environment None) new)
  ∧ length (docker_calls run.2) = 10%nat.
Proof.
  cbn zeta. split; [by vm_compute|]. split; [|by vm_compute].
  destruct (ensure_container demo_template (demo_environment None) demo_root demo_metadata stale_engine) as [r w'] eqn:E.
  destruct (only_own_containers (demo_environment None) stale_engine) as (H & _ & _).
  destruct (H _ _ _ _ _ E) as (new & Hc & Hf). exists new. split; [exact Hc|exact Hf].
Defined.
