(* ===== verification/Kubernetes.v ===== *)
(** * Kubernetes execution environments

    [runtime/src/kubernetes_pod.rs] and [runtime/src/kubernetes_execution_environment.rs]:
    one Pod per environment generation, on a claim that holds the workspaces.  The
    API server, sockets and timers are interfaces whose calls may fail; objects have
    the fields the code sets or reads.  Durations are in nanoseconds, and an
    [anyhow] error is the parts of the text it displays with its causes. *)

From S2P Require Import Prelude Domain Store Executor EnvironmentWork ProviderTools ResponseStream Artifacts Git Docker.
From Stdlib Require Import ZArith Ascii String.
From stdpp Require Import base gmap strings list option pretty.

#[local] Open Scope string_scope.
#[local] Open Scope Z_scope.
#[local] Open Scope list_scope.

(** ** Texts *)

(** [str::split_once] at a text, and at the last occurrence of a character. *)
Fixpoint split_once (sep s : string) : option (string * string) :=
  match Prelude.strip_prefix sep s with
  | Some rest => Some (EmptyString, rest)
  | None =>
      match s with
      | EmptyString => None
      | String c r => (λ p, (String c p.1, p.2)) <$> split_once sep r
      end
  end.

Definition rsplit_once (sep : ascii) (s : string) : option (string * string) :=
  match rev (split_char sep s) with
  | after :: ((_ :: _) as before) => Some (String.concat (String sep EmptyString) (rev before), after)
  | _ => None
  end.

Definition text_contains (c : ascii) (s : string) : bool := existsb (λ d, bool_decide (d = c)) (list_ascii_of_string s).
Definition text_ends_with (suffix s : string) : bool :=
  bool_decide (Prelude.strip_prefix (string_of_list_ascii (rev (list_ascii_of_string suffix)))
                 (string_of_list_ascii (rev (list_ascii_of_string s))) ≠ None).
Definition text_len (s : string) : Z := Z.of_nat (String.length s).

Definition in_range (low high : nat) (c : ascii) : bool := let n := nat_of_ascii c in ((low <=? n) && (n <=? high))%nat.
Definition ascii_digit : ascii → bool := in_range 48 57.
Definition ascii_lower : ascii → bool := in_range 97 122.
Definition ascii_alphanumeric (c : ascii) : bool := ascii_digit c || ascii_lower c || in_range 65 90 c.

Definition all_bytes (f : ascii → bool) (s : string) : bool := forallb f (list_ascii_of_string s).

(** The first and the last byte are letters or digits. *)
Definition alphanumeric_ends (s : string) : bool :=
  match list_ascii_of_string s with
  | [] => false
  | c :: _ as bytes => ascii_alphanumeric c && match last bytes with Some d => ascii_alphanumeric d | None => false end
  end.

(** [str::parse] of digits. *)
Definition decimal (s : string) : Z :=
  fold_left (λ n c, n * 10 + (Z.of_nat (nat_of_ascii c) - 48)) (list_ascii_of_string s) 0.

(** ** Names *)

Definition valid_dns_label (label : string) : bool :=
  negb (bool_decide (label = EmptyString)) && (text_len label <=? 63) && alphanumeric_ends label
  && all_bytes (λ c, ascii_lower c || ascii_digit c || bool_decide (c = "-"%char)) label.

Definition valid_registry (registry : string) : bool :=
  let '(host, port) := match rsplit_once ":"%char registry with
                       | Some (host, port) => (host, Some port)
                       | None => (registry, None)
                       end in
  if bool_decide (host = EmptyString) || (253 <? text_len host) || text_contains ":"%char host then false
  else if match port with
          | Some port => bool_decide (port = EmptyString) || (5 <? text_len port) || negb (all_bytes ascii_digit port)
                         || negb ((decimal port <=? 65535) && (0 <? decimal port))
          | None => false
          end then false
  else forallb valid_dns_label (split_char "."%char host).

(** Letters and digits, with single separators between them. *)
Fixpoint separated (bytes : list ascii) (previous_separator : bool) : bool :=
  match bytes with
  | [] => true
  | c :: rest =>
      if ascii_lower c || ascii_digit c then separated rest false
      else if bool_decide (c ∈ ["."; "_"; "-"]%char) && negb previous_separator then separated rest true
      else false
  end.

Definition valid_repository_component (component : string) : bool :=
  if bool_decide (component = EmptyString) || negb (alphanumeric_ends component) then false
  else separated (list_ascii_of_string component) false.

Definition IMAGE_EXAMPLE : string := "registry.example/org/image@sha256:<64 lowercase hex characters>".
Definition image_refused : Failure := [Lit "Kubernetes execution image must use "; Lit IMAGE_EXAMPLE].

Definition validate_kubernetes_image_reference (image : string) : result Failure unit :=
  parts ← ok_or (split_once "@sha256:" image) image_refused;
  let '(name, digest) := parts in
  _ ← guard_err (bool_decide (name = EmptyString) || (255 <? text_len name) || text_contains "@"%char name) image_refused;
  _ ← guard_err (negb (text_len digest =? 64) || negb (all_bytes (λ c, ascii_digit c || in_range 97 102 c) digest))
        image_refused;
  parts ← ok_or (split_once "/" name) image_refused;
  let '(registry, repository) := parts in
  _ ← guard_err (negb (valid_registry registry)) image_refused;
  guard_err (bool_decide (repository = EmptyString)
             || negb (forallb valid_repository_component (split_char "/"%char repository))) image_refused.

Definition validate_dns_subdomain (fld value : string) : result Failure unit :=
  guard_err (bool_decide (value = EmptyString) || (253 <? text_len value)
             || negb (forallb valid_dns_label (split_char "."%char value)))
    [Lit fld; Lit " must be a Kubernetes DNS subdomain"].

Definition GPU_EXAMPLE : string := "nvidia.com/gpu".

Definition validate_extended_resource_name (resource : string) : result Failure unit :=
  parts ← ok_or (split_once "/" resource)
            [Lit "GPU resource must be a fully qualified extended resource such as "; Lit GPU_EXAMPLE];
  let '(prefix, name) := parts in
  _ ← guard_err (text_contains "/"%char name || bool_decide (prefix = EmptyString) || (253 <? text_len prefix)
                 || negb (forallb valid_dns_label (split_char "."%char prefix))
                 || bool_decide (prefix ∈ ["kubernetes.io"; "k8s.io"])
                 || text_ends_with ".kubernetes.io" prefix || text_ends_with ".k8s.io" prefix)
        [Lit "GPU resource must be a fully qualified non-Kubernetes extended resource such as "; Lit GPU_EXAMPLE];
  guard_err (bool_decide (name = EmptyString) || (63 <? text_len name) || negb (alphanumeric_ends name)
             || negb (all_bytes (λ c, ascii_alphanumeric c || bool_decide (c ∈ ["."; "_"; "-"]%char)) name))
    [Lit "GPU resource must be a fully qualified extended resource such as "; Lit GPU_EXAMPLE].

Definition validate_absolute_path (fld value : string) : result Failure unit :=
  _ ← guard_err (bool_decide (Prelude.strip_prefix "/" value = None)) [Lit fld; Lit " must be absolute"];
  guard_err (existsb unnormal (drop 1 (split_char "/"%char value))) [Lit fld; Lit " must be normalized"].

Definition workspace_subpath (workspace_root path : string) : result Failure string :=
  _ ← validate_absolute_path "execution workspace path" path;
  relative ← ok_or (Prelude.strip_prefix (workspace_root +:+ "/") path)
    [Lit "execution workspace path "; Debug path; Lit " is not below "; Debug workspace_root];
  _ ← guard_err (bool_decide (relative = EmptyString)) [Lit "execution workspace subpath is empty"];
  Ok relative.

(** ** Configuration *)

Record KubernetesResourceConfig : Type := mkResourceConfig {
  kr_cpu_request_millis : option Z;
  kr_memory_request_mib : option Z;
  kr_cpu_limit_millis : option Z;
  kr_memory_limit_mib : option Z;
  kr_gpu_resource : option string;
  kr_gpu_count : Z;
}.

Inductive WorkspaceOwnershipMode : Type :=
| Manage
| Preserve.

Record KubernetesExecutionEnvironmentConfig : Type := mkKubernetesConfig {
  kc_namespace : string;
  kc_image : string;
  kc_workspace_pvc : string;
  kc_workspace_root : string;
  kc_runtime_class_name : option string;
  kc_node_name : option string;
  kc_run_as_uid : option Z;
  kc_run_as_gid : option Z;
  kc_workspace_ownership_mode : WorkspaceOwnershipMode;
  kc_readiness_timeout : Z;
  kc_resources : KubernetesResourceConfig;
}.

Definition option_or {A : Type} (a b : option A) : option A := match a with Some _ => a | None => b end.

(** A request is at most its limit. *)
Definition within_limit (request limit : option Z) : bool :=
  match request, limit with Some request, Some limit => request <=? limit | _, _ => true end.

Definition trimmed (value : option string) : option string :=
  value ← value; if decide (trim value = EmptyString) then None else Some (trim value).

Definition positive (fld : string) (value : option Z) : result Failure unit :=
  guard_err (match value with Some value => negb (0 <? value) | None => false end) [Lit fld; Lit " must be positive"].

(** [KubernetesResourceConfig::normalize]. *)
Definition normalize_resources (r : KubernetesResourceConfig) : result Failure KubernetesResourceConfig :=
  _ ← positive "CPU request millicores" (kr_cpu_request_millis r);
  _ ← positive "memory request MiB" (kr_memory_request_mib r);
  _ ← positive "CPU limit millicores" (kr_cpu_limit_millis r);
  _ ← positive "memory limit MiB" (kr_memory_limit_mib r);
  let cpu_request := option_or (kr_cpu_request_millis r) (kr_cpu_limit_millis r) in
  let memory_request := option_or (kr_memory_request_mib r) (kr_memory_limit_mib r) in
  _ ← guard_err (negb (within_limit cpu_request (kr_cpu_limit_millis r))) [Lit "CPU request cannot exceed its limit"];
  _ ← guard_err (negb (within_limit memory_request (kr_memory_limit_mib r))) [Lit "memory request cannot exceed its limit"];
  let gpu_resource := trimmed (kr_gpu_resource r) in
  let normalized resource := mkResourceConfig cpu_request memory_request (kr_cpu_limit_millis r) (kr_memory_limit_mib r)
                               resource (kr_gpu_count r) in
  if kr_gpu_count r =? 0 then Ok (normalized None)
  else resource ← ok_or gpu_resource [Lit "GPU resource name is required when GPU count is positive"];
       _ ← validate_extended_resource_name resource;
       Ok (normalized gpu_resource).

Definition nonempty_trimmed (fld value : string) : result Failure string :=
  let value := trim value in
  _ ← guard_err (bool_decide (value = EmptyString)) [Lit "Kubernetes "; Lit fld; Lit " must not be empty"];
  Ok value.

(** [KubernetesExecutionEnvironmentConfig::normalized]. *)
Definition normalized_config (c : KubernetesExecutionEnvironmentConfig) : result Failure KubernetesExecutionEnvironmentConfig :=
  namespace ← nonempty_trimmed "namespace" (kc_namespace c);
  image ← nonempty_trimmed "execution image" (kc_image c);
  workspace_pvc ← nonempty_trimmed "workspace PVC" (kc_workspace_pvc c);
  workspace_root ← nonempty_trimmed "workspace root" (kc_workspace_root c);
  _ ← validate_kubernetes_image_reference image;
  _ ← validate_absolute_path "Kubernetes workspace root" workspace_root;
  _ ← guard_err (bool_decide (workspace_root = "/") || text_ends_with "/" workspace_root)
        [Lit "Kubernetes workspace root must be a normalized non-root path"];
  let runtime_class_name := trimmed (kc_runtime_class_name c) in
  let node_name := trimmed (kc_node_name c) in
  _ ← match node_name with
      | Some node_name => validate_dns_subdomain "Kubernetes node name" node_name
      | None => Ok tt
      end;
  _ ← match kc_run_as_uid c, kc_run_as_gid c with
      | Some uid, Some gid => guard_err (negb ((0 <=? uid) && (0 <=? gid))) [Lit "run-as IDs must be non-negative"]
      | None, None => Ok tt
      | _, _ => Err [Lit "Kubernetes run-as UID and GID must be configured together"]
      end;
  _ ← guard_err (kc_readiness_timeout c =? 0) [Lit "readiness timeout must be positive"];
  resources ← normalize_resources (kc_resources c);
  Ok (mkKubernetesConfig namespace image workspace_pvc workspace_root runtime_class_name node_name (kc_run_as_uid c)
        (kc_run_as_gid c) (kc_workspace_ownership_mode c) (kc_readiness_timeout c) resources).

(** ** Objects of the API *)

Record ResourceRequirements : Type := mkResourceRequirements {
  rq_requests : option (gmap string string);
  rq_limits : option (gmap string string);
  rq_other : Unset;
}.

Record ContainerPort : Type := mkContainerPort {
  cp_container_port : Z;
  cp_name : option string;
  cp_host_ip : option string;
  cp_host_port : option Z;
  cp_protocol : option string;
}.

Record Probe : Type := mkProbe {
  pb_tcp_socket : option (option string * Z);
  pb_exec : option Unset;
  pb_grpc : option Unset;
  pb_http_get : option Unset;
  pb_initial_delay_seconds : option Z;
  pb_period_seconds : option Z;
  pb_timeout_seconds : option Z;
  pb_failure_threshold : option Z;
  pb_success_threshold : option Z;
  pb_other : Unset;
}.

Record VolumeMount : Type := mkVolumeMount {
  vm_name : string;
  vm_mount_path : string;
  vm_read_only : option bool;
  vm_sub_path : option string;
  vm_sub_path_expr : option string;
  vm_mount_propagation : option string;
  vm_recursive_read_only : option string;
}.

(** A claim is its name and whether it is read-only. *)
Record Volume : Type := mkVolume {
  vl_name : string;
  vl_claim : option (string * option bool);
  vl_other : Unset;
}.

Record Container : Type := mkContainer {
  cn_name : string;
  cn_image : option string;
  cn_image_pull_policy : option string;
  cn_command : option (list string);
  cn_args : option (list string);
  cn_ports : option (list ContainerPort);
  cn_readiness_probe : option Probe;
  cn_resources : option ResourceRequirements;
  cn_volume_mounts : option (list VolumeMount);
  cn_working_dir : option string;
}.

Record PodSecurityContext : Type := mkSecurityContext {
  sc_run_as_user : option Z;
  sc_run_as_group : option Z;
  sc_fs_group : option Z;
}.

Record PodSpec : Type := mkPodSpec {
  ps_automount_service_account_token : option bool;
  ps_enable_service_links : option bool;
  ps_restart_policy : option string;
  ps_runtime_class_name : option string;
  ps_node_name : option string;
  ps_security_context : option PodSecurityContext;
  ps_containers : list Container;
  ps_volumes : option (list Volume);
}.

Record PodStatus : Type := mkPodStatus {
  pt_phase : option string;
  pt_conditions : option (list (string * string));
  pt_pod_ip : option string;
}.

Record Pod : Type := mkPod {
  pd_name : option string;
  pd_namespace : option string;
  pd_uid : option string;
  pd_labels : option (gmap string string);
  pd_annotations : option (gmap string string);
  pd_deletion_timestamp : option string;
  pd_spec : option PodSpec;
  pd_status : option PodStatus;
}.

#[export] Instance ResourceRequirements_eq_dec : EqDecision ResourceRequirements.
Proof. solve_decision. Defined.
#[export] Instance Probe_eq_dec : EqDecision Probe.
Proof. solve_decision. Defined.
#[export] Instance Volume_eq_dec : EqDecision Volume.
Proof. solve_decision. Defined.

(** ** The Pod of an environment *)

Definition POD_EXEC_SERVER_PORT : Z := 4500.
Definition IDENTITY_ANNOTATION : string := "software-factory.io/execution-environment".

(** [canonical_memory]: the largest unit that divides, up to [Pi]. *)
Fixpoint memory_unit (value : Z) (units : list string) : string :=
  match units with
  | [] => EmptyString
  | [unit] => pretty value +:+ unit
  | unit :: larger => if value mod 1024 =? 0 then memory_unit (value / 1024) larger else pretty value +:+ unit
  end.

Definition canonical_memory (memory_mib : Z) : string := memory_unit memory_mib ["Mi"; "Gi"; "Ti"; "Pi"].

Definition quantities (cpu memory : option Z) : gmap string string :=
  let cpus : gmap string string :=
    match cpu with
    | Some cpu => {[ "cpu" := if cpu mod 1000 =? 0 then pretty (cpu / 1000) else pretty cpu +:+ "m" ]}
    | None => ∅
    end in
  match memory with Some memory => <[ "memory" := canonical_memory memory ]> cpus | None => cpus end.

Definition unless_empty (m : gmap string string) : option (gmap string string) := if decide (m = ∅) then None else Some m.

(** [KubernetesResourceConfig::requirements]. *)
Definition requirements (r : KubernetesResourceConfig) : result Failure (option ResourceRequirements) :=
  let requests := quantities (kr_cpu_request_millis r) (kr_memory_request_mib r) in
  let limits := quantities (kr_cpu_limit_millis r) (kr_memory_limit_mib r) in
  both ← (if 0 <? kr_gpu_count r then
            resource ← ok_or (kr_gpu_resource r) [Lit "GPU resource name is required when GPU count is positive"];
            _ ← validate_extended_resource_name resource;
            Ok (<[ resource := pretty (kr_gpu_count r) ]> requests, <[ resource := pretty (kr_gpu_count r) ]> limits)
          else Ok (requests, limits));
  let '(requests, limits) := (both : gmap string string * gmap string string) in
  Ok (if decide (requests = ∅ ∧ limits = ∅) then None
      else Some (mkResourceRequirements (unless_empty requests) (unless_empty limits) [])).

(** [Uuid::parse_str] followed by [Uuid::simple]. *)
Class UuidText : Type := { uuid_simple : string → result string string }.

Record OwnedPodIdentity : Type := mkPodIdentity {
  pi_name : string;
  pi_annotation : string;
}.

Record OwnedPod : Type := mkOwnedPod {
  op_name : string;
  op_manifest : Pod;
  op_identity : OwnedPodIdentity;
}.

Inductive ExistingPodDisposition : Type :=
| ReusePod (uid : string)
| ReplaceOwnedPod (uid : string).

Definition pod_annotation (pod : Pod) (name : string) : option string :=
  annotations ← pd_annotations pod; annotations !! name.

Definition required_uid (pod : Pod) : result Failure string :=
  match pd_uid pod with
  | Some uid => if is_blank uid then Err [Lit "Kubernetes execution Pod has no UID"] else Ok uid
  | None => Err [Lit "Kubernetes execution Pod has no UID"]
  end.

(** [OwnedPodIdentity::validate]. *)
Definition validate_pod_identity (identity : OwnedPodIdentity) (namespace : string) (pod : Pod) : result Failure unit :=
  _ ← guard_err (negb (bool_decide (pd_name pod = Some (pi_name identity)))) [Lit "Pod name drifted"];
  _ ← guard_err (negb (bool_decide (pd_namespace pod = Some namespace))) [Lit "Pod namespace drifted"];
  guard_err (negb (bool_decide (pod_annotation pod IDENTITY_ANNOTATION = Some (pi_annotation identity))))
    [Lit "Pod generation identity drifted"].

Definition security_ids (context : option PodSecurityContext) : option Z * option Z * option Z :=
  match context with
  | Some context => (sc_run_as_user context, sc_run_as_group context, sc_fs_group context)
  | None => (None, None, None)
  end.

Definition ports_agree (port expected : ContainerPort) : bool :=
  bool_decide (cp_container_port port = cp_container_port expected) && bool_decide (cp_name port = cp_name expected)
  && bool_decide (cp_host_ip port = cp_host_ip expected) && bool_decide (cp_host_port port = cp_host_port expected)
  && bool_decide (default "TCP" (cp_protocol port) = default "TCP" (cp_protocol expected)).

Definition validate_volume_mount (mounts : list VolumeMount) (expected : VolumeMount) : result Failure unit :=
  mount ← ok_or (List.find (λ mount, bool_decide (vm_mount_path mount = vm_mount_path expected)) mounts)
            [Lit "workspace mount at "; Display (vm_mount_path expected); Lit " is missing"];
  _ ← guard_err (negb (bool_decide (vm_name mount = vm_name expected)
                       && bool_decide (vm_mount_path mount = vm_mount_path expected)
                       && bool_decide (vm_sub_path mount = vm_sub_path expected)))
        [Lit "workspace mount path contract drifted"];
  _ ← guard_err (negb (bool_decide (default false (vm_read_only mount) = default false (vm_read_only expected))))
        [Lit "workspace mount read-only setting drifted"];
  _ ← guard_err (negb (bool_decide (vm_sub_path_expr mount = None))) [Lit "workspace mount must not use subPathExpr"];
  _ ← guard_err (negb (bool_decide (default "None" (vm_mount_propagation mount) = "None")))
        [Lit "workspace mount propagation drifted"];
  guard_err (negb (bool_decide (default "Disabled" (vm_recursive_read_only mount) = "Disabled")))
    [Lit "workspace recursive read-only setting drifted"].

Fixpoint validate_volume_mounts (mounts expected : list VolumeMount) : result Failure unit :=
  match expected with
  | [] => Ok tt
  | mount :: rest => _ ← validate_volume_mount mounts mount; validate_volume_mounts mounts rest
  end.

Definition normalized_pvc_volume (volume : Volume) : result Failure Volume :=
  claim ← ok_or (vl_claim volume) [Lit "workspace PVC source is missing"];
  Ok (mkVolume (vl_name volume) (Some (claim.1, Some (default false claim.2))) (vl_other volume)).

(** The only element of a list. *)
Definition only_one {A : Type} (l : list A) (message : string) : result Failure A :=
  match l with [a] => Ok a | _ => Err [Lit message] end.

(** What the code indexes or expects of its own manifest. *)
Definition panics {A : Type} (o : option A) : result Failure A := ok_or o [Lit "panicked"].

Definition validate_container (container expected : Container) : result Failure unit :=
  _ ← guard_err (negb (bool_decide (cn_name container = cn_name expected))) [Lit "container name drifted"];
  _ ← guard_err (negb (bool_decide (cn_image container = cn_image expected))) [Lit "container image drifted"];
  _ ← guard_err (negb (bool_decide (cn_image_pull_policy container = cn_image_pull_policy expected)))
        [Lit "container image pull policy drifted"];
  _ ← guard_err (negb (bool_decide (cn_command container = cn_command expected))) [Lit "container command drifted"];
  _ ← guard_err (negb (bool_decide (cn_args container = cn_args expected))) [Lit "container arguments drifted"];
  _ ← guard_err (negb (bool_decide (cn_working_dir container = cn_working_dir expected)))
        [Lit "container working directory drifted"];
  expected_ports ← panics (cn_ports expected);
  port ← only_one (default [] (cn_ports container)) "container must have exactly one port";
  expected_port ← panics (head expected_ports);
  _ ← guard_err (negb (ports_agree port expected_port)) [Lit "container exec-server port drifted"];
  probe ← ok_or (cn_readiness_probe container) [Lit "container readiness probe is missing"];
  _ ← guard_err (negb (bool_decide (pb_exec probe = None) && bool_decide (pb_grpc probe = None)
                       && bool_decide (pb_http_get probe = None) && bool_decide (is_Some (pb_tcp_socket probe))))
        [Lit "readiness probe must use only TCP"];
  _ ← guard_err (negb (bool_decide (Some probe = cn_readiness_probe expected))) [Lit "container readiness probe drifted"];
  _ ← guard_err (negb (bool_decide (cn_resources container = cn_resources expected)))
        [Lit "container resource requirements drifted"];
  let mounts := default [] (cn_volume_mounts container) in
  expected_mounts ← panics (cn_volume_mounts expected);
  _ ← guard_err (negb (bool_decide (length mounts = 2%nat))) [Lit "container must have exactly two volume mounts"];
  validate_volume_mounts mounts expected_mounts.

Definition validate_required_invariants (owned : OwnedPod) (observed : Pod) : result Failure unit :=
  expected ← panics (pd_spec (op_manifest owned));
  actual ← ok_or (pd_spec observed) [Lit "Pod has no spec"];
  _ ← guard_err (negb (bool_decide (ps_runtime_class_name actual = ps_runtime_class_name expected)))
        [Lit "Pod runtime class drifted"];
  _ ← guard_err (bool_decide (is_Some (ps_node_name expected))
                 && negb (bool_decide (ps_node_name actual = ps_node_name expected))) [Lit "Pod node pin drifted"];
  _ ← guard_err (negb (bool_decide (ps_restart_policy actual = Some "Never"))) [Lit "Pod restart policy drifted"];
  _ ← guard_err (negb (bool_decide (ps_automount_service_account_token actual = ps_automount_service_account_token expected)))
        [Lit "Pod service-account token setting drifted"];
  _ ← guard_err (negb (bool_decide (ps_enable_service_links actual = ps_enable_service_links expected)))
        [Lit "Pod service-links setting drifted"];
  _ ← guard_err (negb (bool_decide (security_ids (ps_security_context actual) = security_ids (ps_security_context expected))))
        [Lit "Pod run-as identity drifted"];
  container ← only_one (ps_containers actual) "Pod must have exactly one container";
  expected_container ← panics (head (ps_containers expected));
  _ ← validate_container container expected_container;
  expected_volumes ← panics (ps_volumes expected);
  volume ← only_one (default [] (ps_volumes actual)) "Pod must have exactly one volume";
  actual_volume ← normalized_pvc_volume volume;
  expected_volume ← panics (head expected_volumes);
  expected_volume ← normalized_pvc_volume expected_volume;
  guard_err (negb (bool_decide (actual_volume = expected_volume))) [Lit "workspace PVC volume drifted"].

(** [OwnedPod::validate]. *)
Definition validate_pod (owned : OwnedPod) (observed : Pod) (expected_uid : option string) : result Failure unit :=
  namespace ← panics (pd_namespace (op_manifest owned));
  _ ← validate_pod_identity (op_identity owned) namespace observed;
  _ ← match expected_uid with
      | Some expected_uid => uid ← required_uid observed;
                             guard_err (negb (bool_decide (uid = expected_uid))) [Lit "Pod UID drifted"]
      | None => Ok tt
      end;
  validate_required_invariants owned observed.

(** [OwnedPod::disposition]. *)
Definition pod_disposition (owned : OwnedPod) (observed : Pod) (expected_uid : option string) (may_adopt_replacement : bool) :
    result Failure ExistingPodDisposition :=
  namespace ← panics (pd_namespace (op_manifest owned));
  _ ← validate_pod_identity (op_identity owned) namespace observed;
  uid ← required_uid observed;
  if is_ok (validate_required_invariants owned observed) then
    _ ← guard_err (negb (may_adopt_replacement
                         || match expected_uid with Some expected => bool_decide (expected = uid) | None => true end))
          [Lit "Pod UID does not match the active backend reference"];
    Ok (ReusePod uid)
  else Ok (ReplaceOwnedPod uid).

Definition pod_mount (config : KubernetesExecutionEnvironmentConfig) (path : string) : result Failure VolumeMount :=
  subpath ← workspace_subpath (kc_workspace_root config) path;
  Ok (mkVolumeMount "workspace" path (Some false) (Some subpath) None None None).

Definition exec_server_probe : Probe :=
  mkProbe (Some (None, POD_EXEC_SERVER_PORT)) None None None (Some 1) (Some 1) (Some 1) (Some 3) (Some 1) [].

Section pods.
Context `{UuidText}.

(** [OwnedPodIdentity::new]. *)
Definition pod_identity (environment : ExecutionEnvironmentRecord) : result Failure OwnedPodIdentity :=
  match uuid_simple (ee_environment_id environment) with
  | Err error => Err (context [Lit "execution environment ID must be a UUID for Kubernetes"] [Display error])
  | Ok environment_id =>
      let name := "factory-" +:+ environment_id +:+ "-g" +:+ pretty (ee_generation environment) in
      _ ← guard_err (63 <? text_len name) [Lit "deterministic Kubernetes Pod name is too long"];
      Ok (mkPodIdentity name (ee_job_id environment +:+ "/" +:+ ee_environment_id environment +:+ "/"
                              +:+ pretty (ee_generation environment)))
  end.

Definition pod_labels (environment : ExecutionEnvironmentRecord) : gmap string string := list_to_map
  [("app.kubernetes.io/managed-by", "software-factory"); ("app.kubernetes.io/component", "execution");
   ("software-factory.io/job-id", ee_job_id environment); ("software-factory.io/environment-id", ee_environment_id environment);
   ("software-factory.io/environment-generation", pretty (ee_generation environment))].

(** [OwnedPod::new]. *)
Definition owned_pod (config : KubernetesExecutionEnvironmentConfig) (environment : ExecutionEnvironmentRecord)
    (workspace_root repository_metadata_root : string) : result Failure OwnedPod :=
  _ ← validate_kubernetes_image_reference (kc_image config);
  _ ← guard_err (bool_decide (workspace_root = repository_metadata_root))
        [Lit "worktree and Git common directory must be distinct"];
  identity ← pod_identity environment;
  resources ← requirements (kc_resources config);
  worktree_mount ← pod_mount config workspace_root;
  metadata_mount ← pod_mount config repository_metadata_root;
  let container := mkContainer "codex-exec-server" (Some (kc_image config)) (Some "IfNotPresent") (Some ["codex"])
    (Some ["exec-server"; "--listen"; "ws://0.0.0.0:4500"])
    (Some [mkContainerPort POD_EXEC_SERVER_PORT (Some "exec-server") None None (Some "TCP")])
    (Some exec_server_probe) resources (Some [worktree_mount; metadata_mount]) (Some workspace_root) in
  let security (uid : Z) := mkSecurityContext (Some uid) (kc_run_as_gid config)
    (match kc_workspace_ownership_mode config with Manage => kc_run_as_gid config | Preserve => None end) in
  let spec := mkPodSpec (Some false) (Some false) (Some "Never") (kc_runtime_class_name config) (kc_node_name config)
    (security <$> kc_run_as_uid config) [container]
    (Some [mkVolume "workspace" (Some (kc_workspace_pvc config, Some false)) []]) in
  Ok (mkOwnedPod (pi_name identity)
        (mkPod (Some (pi_name identity)) (Some (kc_namespace config)) None (Some (pod_labels environment))
           (Some {[ IDENTITY_ANNOTATION := pi_annotation identity ]}) None (Some spec) None)
        identity).
End pods.

(** ** Addresses

    [IpAddr] of [std]: its parser, which reads an IPv4 address or the groups of an
    IPv6 address, and the text it displays. *)

Inductive IpAddr : Type :=
| V4 (octets : list Z)
| V6 (segments : list Z).

Definition digit_value (radix : Z) (c : ascii) : option Z :=
  let n := Z.of_nat (nat_of_ascii c) in
  let v := if ascii_digit c then Some (n - 48) else if ascii_lower c then Some (n - 87)
           else if in_range 65 90 c then Some (n - 55) else None in
  v ← v; if v <? radix then Some v else None.

(** The digits in front, their number and the rest. *)
Fixpoint read_digits (radix : Z) (s : list ascii) (value count : Z) : Z * Z * list ascii :=
  match s with
  | c :: rest =>
      match digit_value radix c with
      | Some digit => read_digits radix rest (value * radix + digit) (count + 1)
      | None => (value, count, s)
      end
  | [] => (value, count, s)
  end.

Definition read_number (radix max_digits max_value : Z) (allow_zero_prefix : bool) (s : list ascii) : option (Z * list ascii) :=
  let '(value, count, rest) := read_digits radix s 0 0 in
  let leading_zero := match s with c :: _ => bool_decide (c = "0"%char) | [] => false end in
  if (count =? 0) || (max_digits <? count) || (max_value <? value) || (negb allow_zero_prefix && leading_zero && (1 <? count))
  then None else Some (value, rest).

(** What [f] reads, after a separator unless it is the first. *)
Definition read_separator {A : Type} (sep : ascii) (first : bool) (f : list ascii → option (A * list ascii)) (s : list ascii) :
    option (A * list ascii) :=
  if first then f s
  else match s with c :: rest => if decide (c = sep) then f rest else None | [] => None end.

Definition read_ipv4_addr (s : list ascii) : option (list Z * list ascii) :=
  let octet first := read_separator "."%char first (read_number 10 3 255 false) in
  '(a, s) ← octet true s; '(b, s) ← octet false s; '(c, s) ← octet false s; '(d, s) ← octet false s;
  Some ([a; b; c; d], s).

(** Up to [limit] groups, the last two possibly an IPv4 address. *)
Fixpoint read_groups (limit : nat) (first : bool) (s : list ascii) : list Z * bool * list ascii :=
  match limit with
  | O => ([], false, s)
  | S more =>
      match (if decide (more = O) then None else read_separator ":"%char first read_ipv4_addr s) with
      | Some ([a; b; c; d], rest) => ([a * 256 + b; c * 256 + d], true, rest)
      | _ =>
          match read_separator ":"%char first (read_number 16 4 65535 true) s with
          | Some (group, rest) =>
              let '(groups, ipv4, rest) := read_groups more false rest in (group :: groups, ipv4, rest)
          | None => ([], false, s)
          end
      end
  end.

Definition read_ipv6_addr (s : list ascii) : option (list Z * list ascii) :=
  let '(front, front_ipv4, s) := read_groups 8 true s in
  if decide (length front = 8%nat) then Some (front, s)
  else if front_ipv4 then None
  else match s with
       | ":"%char :: ":"%char :: s =>
           let '(back, _, s) := read_groups (8 - (length front + 1)) true s in
           Some (front ++ replicate (8 - length front - length back) 0 ++ back, s)
       | _ => None
       end.

Definition parse_ip (s : string) : option IpAddr :=
  let bytes := list_ascii_of_string s in
  match read_ipv4_addr bytes with
  | Some (octets, []) => Some (V4 octets)
  | Some _ => None
  | None => match read_ipv6_addr bytes with Some (segments, []) => Some (V6 segments) | _ => None end
  end.

Definition hex_digit (n : Z) : ascii := ascii_of_nat (Z.to_nat (if n <? 10 then n + 48 else n + 87)).

Fixpoint hex_digits (fuel : nat) (n : Z) (acc : string) : string :=
  match fuel with
  | O => acc
  | S f => let acc := String (hex_digit (n mod 16)) acc in if n / 16 =? 0 then acc else hex_digits f (n / 16) acc
  end.

(** A segment has 16 bits. *)
Definition segment_text (n : Z) : string := hex_digits 4 n EmptyString.

(** The zeros in front. *)
Fixpoint zero_run (segments : list Z) : nat :=
  match segments with s :: rest => if s =? 0 then S (zero_run rest) else O | [] => O end.

(** The first of the longest runs of zeros. *)
Fixpoint longest_zeros (segments : list Z) (at_ : nat) (best : nat * nat) : nat * nat :=
  match segments with
  | [] => best
  | _ :: rest => longest_zeros rest (S at_) (if (best.2 <? zero_run segments)%nat then (at_, zero_run segments) else best)
  end.

Definition octets_text (octets : list Z) : string := String.concat "." (pretty <$> octets).

Definition ip_text (ip : IpAddr) : string :=
  match ip with
  | V4 octets => octets_text octets
  | V6 [0; 0; 0; 0; 0; 65535; a; b] => "::ffff:" +:+ octets_text [a / 256; a mod 256; b / 256; b mod 256]
  | V6 segments =>
      let '(start, len) := longest_zeros segments 0 (0, 0)%nat in
      let text l := String.concat ":" (segment_text <$> l) in
      if (1 <? len)%nat then text (take start segments) +:+ "::" +:+ text (drop (start + len) segments)
      else text segments
  end.

Example addresses_read :
  (ip_text <$> parse_ip "10.1.2.3") = Some "10.1.2.3" ∧ parse_ip "10.1.2.03" = None ∧ parse_ip "10.1.2.3 " = None
  ∧ (ip_text <$> parse_ip "FD00:0:0:1::A") = Some "fd00:0:0:1::a" ∧ (ip_text <$> parse_ip "::ffff:10.1.2.3") = Some "::ffff:10.1.2.3"
  ∧ (ip_text <$> parse_ip "::") = Some "::" ∧ (ip_text <$> parse_ip "1:2:3:4:5:6:7:8") = Some "1:2:3:4:5:6:7:8"
  ∧ parse_ip "1:2:3:4:5:6:7" = None ∧ (ip_text <$> parse_ip "1:0:0:2::3") = Some "1:0:0:2::3".
Proof. vm_compute. done. Qed.

(** The host part of a URL or a socket address. *)
Definition ip_host (ip : IpAddr) : string := match ip with V4 _ => ip_text ip | V6 _ => "[" +:+ ip_text ip +:+ "]" end.

Definition pod_ip_url (ip : IpAddr) : string := "ws://" +:+ ip_host ip +:+ ":" +:+ pretty POD_EXEC_SERVER_PORT.

(** ** References *)

Definition KUBERNETES_EXECUTION_ENVIRONMENT_BACKEND : string := "kubernetes".
Definition POD_READY_RETRY : Z := 200000000.

Record KubernetesBackendReference : Type := mkReference {
  br_namespace : string;
  br_name : string;
  br_uid : option string;
}.

Definition reference_refused : Failure := [Lit "Kubernetes backend reference must be namespace/name or namespace/name/UID"].

(** [KubernetesBackendReference::parse]. *)
Definition parse_reference (value : string) : result Failure KubernetesBackendReference :=
  let parts := split_char "/"%char value in
  let namespace := default EmptyString (parts !! 0%nat) in
  let name := default EmptyString (parts !! 1%nat) in
  let uid := parts !! 2%nat in
  _ ← guard_err (bool_decide (namespace = EmptyString) || bool_decide (name = EmptyString)
                 || bool_decide (uid = Some EmptyString) || bool_decide (is_Some (parts !! 3%nat))) reference_refused;
  Ok (mkReference namespace name uid).

Definition encode_reference (r : KubernetesBackendReference) : string :=
  match br_uid r with
  | Some uid => br_namespace r +:+ "/" +:+ br_name r +:+ "/" +:+ uid
  | None => br_namespace r +:+ "/" +:+ br_name r
  end.

Definition reference_locator (r : KubernetesBackendReference) : KubernetesBackendReference :=
  mkReference (br_namespace r) (br_name r) None.

Definition validate_target (r : KubernetesBackendReference) (namespace name : string) : result Failure unit :=
  guard_err (negb (bool_decide (br_namespace r = namespace) && bool_decide (br_name r = name)))
    [Lit "Kubernetes backend reference does not match the durable environment target"].

Definition validate_name (r : KubernetesBackendReference) (name : string) : result Failure unit :=
  guard_err (negb (bool_decide (br_name r = name)))
    [Lit "Kubernetes backend reference does not match the durable environment name"].

Definition resolve_pod_reference `{UuidText} (environment : ExecutionEnvironmentRecord) (configured_namespace : string) :
    result Failure KubernetesBackendReference :=
  identity ← pod_identity environment;
  reference ← match ee_backend_ref environment with
              | Some value => parse_reference value
              | None => Ok (mkReference configured_namespace (pi_name identity) None)
              end;
  _ ← validate_name reference (pi_name identity);
  Ok reference.

(** ** Conditions of an environment and a Pod *)

Definition ensure_backend (environment : ExecutionEnvironmentRecord) : result Failure unit :=
  guard_err (negb (bool_decide (ee_backend environment = KUBERNETES_EXECUTION_ENVIRONMENT_BACKEND)))
    [Lit "execution environment belongs to backend "; Display (ee_backend environment); Lit ", not Kubernetes"].

Definition validate_active_environment (environment : ExecutionEnvironmentRecord) : result Failure unit :=
  _ ← guard_err (negb (bool_decide (ee_desired_state environment = DesiredActive)))
        [Lit "Kubernetes execution environment is not active"];
  guard_err (negb (bool_decide (ee_status environment ∈ [EnvProvisioning; EnvReady; EnvFailed])))
    [Lit "Kubernetes execution environment cannot be ensured from its current status"].

Definition pod_is_terminal (pod : Pod) : bool :=
  match pd_status pod ≫= pt_phase with Some phase => bool_decide (phase ∈ ["Failed"; "Succeeded"]) | None => false end.

Definition pod_is_ready (pod : Pod) : bool :=
  match pd_status pod ≫= pt_conditions with
  | Some conditions => existsb (λ condition, bool_decide (condition = ("Ready", "True"))) conditions
  | None => false
  end && bool_decide (is_Some (pd_status pod ≫= pt_pod_ip)).

Definition pod_ip (pod : Pod) : result Failure IpAddr :=
  value ← ok_or (pd_status pod ≫= pt_pod_ip) [Lit "ready Kubernetes execution Pod has no Pod IP"];
  ok_or (parse_ip value) (context [Lit "parse Kubernetes Pod IP "; Debug value] [Lit "invalid IP address syntax"]).

Definition uid_is_gone (pod : option Pod) (old_uid : string) : result Failure bool :=
  match pod with
  | None => Ok true
  | Some pod => uid ← required_uid pod; Ok (negb (bool_decide (uid = old_uid)))
  end.

Definition next_poll_at (now deadline : Z) : Z := Z.min deadline (now + POD_READY_RETRY).

(** ** The API server *)

Inductive KubeError : Type :=
| KubeApiError (code : Z) (message : string)
| OtherKubeError (message : string).

Definition kube_status (e : KubeError) : option Z :=
  match e with KubeApiError code _ => Some code | OtherKubeError _ => None end.

Class KubeText : Type := { kube_error_text : KubeError → string }.

(** Pods of a namespace; a deletion names the UID it is meant for. *)
Class KubeApi (W : Type) : Type := {
  get_opt : string → string → proc W KubeError (option Pod);
  create_pod : string → Pod → proc W KubeError Pod;
  delete_pod : string → string → string → proc W KubeError unit;
}.

Section provisioner.
Context {W : Type} `{KubeApi W, Timers W, KubeText, UuidText}.
Context (config : KubernetesExecutionEnvironmentConfig).

Abbreviation Kb := (proc W Failure).

Definition ensure_before_deadline (deadline : Z) (action : string) : Kb unit :=
  now ← observe instant;
  proc_lift (guard_err (deadline <=? now) [Lit "timed out while attempting to "; Lit action]).

Definition pause_until_next_poll (deadline : Z) : Kb unit :=
  now ← observe instant;
  ignore (sleep_until (next_poll_at now deadline)).

Definition get_pod (namespace name : string) (deadline : Z) (action : string) : Kb (option Pod) :=
  answered ← map_err (λ _, context [Lit "timed out while attempting to "; Lit action; Lit " Pod "; Display name]
                                   [Lit "deadline has elapsed"])
               (timeout_at deadline (get_opt namespace name));
  match answered with
  | Ok pod => done pod
  | Err error => fail (context [Lit action; Lit " Kubernetes execution Pod "; Display name] [Display (kube_error_text error)])
  end.

(** Polls until the Pod is gone; [None] when the rounds did not suffice. *)
Fixpoint wait_for_uid_gone (fuel : nat) (namespace name old_uid : string) (deadline : Z) : Kb (option unit) :=
  match fuel with
  | O => done None
  | S n =>
      _ ← ensure_before_deadline deadline "wait for Kubernetes execution Pod deletion";
      pod ← get_pod namespace name deadline "wait for deletion";
      gone ← proc_lift (uid_is_gone pod old_uid);
      if gone : bool then done (Some tt)
      else _ ← pause_until_next_poll deadline;
           wait_for_uid_gone n namespace name old_uid deadline
  end.

Definition delete_and_wait (fuel : nat) (namespace name uid : string) (deadline : Z) : Kb (option unit) :=
  deleted ← map_err (λ _, [Lit "timed out deleting Kubernetes execution Pod "; Display name])
              (timeout_at deadline (delete_pod namespace name uid));
  match deleted with
  | Ok _ => wait_for_uid_gone fuel namespace name uid deadline
  | Err error =>
      if decide (kube_status error = Some 404) then wait_for_uid_gone fuel namespace name uid deadline
      else fail (context [Lit "delete Kubernetes execution Pod"] [Display (kube_error_text error)])
  end.

(** A Pod that is being deleted is waited for, another one deleted. *)
Definition dispose (fuel : nat) (namespace name uid : string) (pod : Pod) (deadline : Z) : Kb (option unit) :=
  if decide (is_Some (pd_deletion_timestamp pod)) then wait_for_uid_gone fuel namespace name uid deadline
  else delete_and_wait fuel namespace name uid deadline.

Definition create_or_observe (namespace : string) (expected : OwnedPod) (deadline : Z) : Kb Pod :=
  created ← map_err (λ _, [Lit "timed out creating Kubernetes execution Pod "; Display (op_name expected)])
              (timeout_at deadline (create_pod namespace (op_manifest expected)));
  match created with
  | Ok pod => done pod
  | Err error =>
      if decide (kube_status error = Some 409) then
        found ← get_pod namespace (op_name expected) deadline "get after create race";
        proc_lift (ok_or found [Lit "Pod disappeared after create conflict"])
      else fail (context [Lit "create Kubernetes execution Pod"] [Display (kube_error_text error)])
  end.

(** One round of the loop: another one with what is now expected, or the end. *)
Inductive PodRound : Type :=
| Again (expected_uid : option string) (may_adopt_replacement : bool)
| Provided (p : Provisioned).

(** The Pod is gone: go on with none expected. *)
Definition after_disposal (gone : option unit) : Kb (option PodRound) :=
  match gone with Some _ => done (Some (Again None false)) | None => done None end.

(** A Pod that is neither being deleted nor terminated. *)
Definition await_ready (namespace : string) (expected : OwnedPod) (pod : Pod) (uid : string) (deadline : Z) :
    Kb (option PodRound) :=
  let next := _ ← pause_until_next_poll deadline; done (Some (Again (Some uid) false)) in
  if pod_is_ready pod then
    ip ← proc_lift (pod_ip pod);
    connected ← map_err (λ _, [Lit "timed out connecting to Kubernetes exec-server"])
                  (timeout_at deadline (tcp_connect (ip_host ip +:+ ":" +:+ pretty POD_EXEC_SERVER_PORT)));
    if is_ok connected then
      done (Some (Provided (mkProvisioned (encode_reference (mkReference namespace (op_name expected) (Some uid))) (pod_ip_url ip))))
    else next
  else next.

Definition pod_round (fuel : nat) (namespace : string) (expected : OwnedPod) (deadline : Z) (expected_uid : option string)
    (may_adopt_replacement : bool) : Kb (option PodRound) :=
  _ ← ensure_before_deadline deadline "wait for Kubernetes execution Pod";
  found ← get_pod namespace (op_name expected) deadline "get";
  match found with
  | None =>
      created ← create_or_observe namespace expected deadline;
      _ ← proc_lift (validate_pod expected created None);
      uid ← proc_lift (required_uid created);
      _ ← pause_until_next_poll deadline;
      done (Some (Again (Some uid) false))
  | Some pod =>
      disposition ← proc_lift (pod_disposition expected pod expected_uid may_adopt_replacement);
      match disposition with
      | ReplaceOwnedPod uid => gone ← dispose fuel namespace (op_name expected) uid pod deadline; after_disposal gone
      | ReusePod uid =>
          if decide (is_Some (pd_deletion_timestamp pod)) then
            gone ← wait_for_uid_gone fuel namespace (op_name expected) uid deadline; after_disposal gone
          else if pod_is_terminal pod then
            gone ← delete_and_wait fuel namespace (op_name expected) uid deadline; after_disposal gone
          else await_ready namespace expected pod uid deadline
      end
  end.

Fixpoint pod_rounds (fuel : nat) (rounds : nat) (namespace : string) (expected : OwnedPod) (deadline : Z)
    (expected_uid : option string) (may_adopt_replacement : bool) : Kb (option Provisioned) :=
  match rounds with
  | O => done None
  | S n =>
      round ← pod_round fuel namespace expected deadline expected_uid may_adopt_replacement;
      match round with
      | Some (Provided p) => done (Some p)
      | Some (Again uid adopt) => pod_rounds fuel n namespace expected deadline uid adopt
      | None => done None
      end
  end.

Definition with_namespace (namespace : string) : KubernetesExecutionEnvironmentConfig :=
  mkKubernetesConfig namespace (kc_image config) (kc_workspace_pvc config) (kc_workspace_root config)
    (kc_runtime_class_name config) (kc_node_name config) (kc_run_as_uid config) (kc_run_as_gid config)
    (kc_workspace_ownership_mode config) (kc_readiness_timeout config) (kc_resources config).

Definition ensure_pod (fuel : nat) (environment : ExecutionEnvironmentRecord) (workspace_root repository_metadata_root : string) :
    Kb (option Provisioned) :=
  _ ← proc_lift (ensure_backend environment);
  _ ← proc_lift (validate_active_environment environment);
  persisted ← proc_lift (resolve_pod_reference environment (kc_namespace config));
  let persisted_config := with_namespace (br_namespace persisted) in
  expected ← proc_lift (owned_pod persisted_config environment workspace_root repository_metadata_root);
  _ ← proc_lift (validate_target persisted (kc_namespace persisted_config) (op_name expected));
  now ← observe instant;
  pod_rounds fuel fuel (kc_namespace persisted_config) expected (now + kc_readiness_timeout config) (br_uid persisted)
    (bool_decide (is_Some (ee_backend_ref environment))).

Definition release_pod (fuel : nat) (environment : ExecutionEnvironmentRecord) : Kb (option unit) :=
  _ ← proc_lift (ensure_backend environment);
  identity ← proc_lift (pod_identity environment);
  persisted ← proc_lift (resolve_pod_reference environment (kc_namespace config));
  now ← observe instant;
  let deadline := now + kc_readiness_timeout config in
  found ← get_pod (br_namespace persisted) (br_name persisted) deadline "get for release";
  match found with
  | None => done (Some tt)
  | Some pod =>
      _ ← proc_lift (validate_pod_identity identity (br_namespace persisted) pod);
      uid ← proc_lift (required_uid pod);
      dispose fuel (br_namespace persisted) (br_name persisted) uid pod deadline
  end.

(** [ExecutionEnvironmentProvisioner::durable_locator]. *)
Definition kubernetes_durable_locator (environment : ExecutionEnvironmentRecord) : result Failure (option string) :=
  _ ← ensure_backend environment;
  reference ← resolve_pod_reference environment (kc_namespace config);
  Ok (Some (encode_reference (reference_locator reference))).
End provisioner.

(** [KubernetesExecutionEnvironmentProvisioner::new]. *)
Definition new_kubernetes_provisioner (config : KubernetesExecutionEnvironmentConfig) :
    result Failure KubernetesExecutionEnvironmentConfig := normalized_config config.

(** [impl ExecutionEnvironmentProvisioner for KubernetesExecutionEnvironmentProvisioner]:
    what a worker with this provisioner calls.  [text] displays an error. *)
Definition kubernetes_host {W : Type} `{KubeApi W, Timers W, KubeText, UuidText}
    (store : ∀ A : Type, (Z → string → Proc A) → proc W CoordinatorError A) (text : Failure → string) (fuel : nat)
    (config : KubernetesExecutionEnvironmentConfig) : EnvironmentHost W :=
  let finished {A : Type} (p : proc W Failure (option A)) : proc W string A :=
    map_err text (o ← p; proc_lift (ok_or o [Lit "unfinished"])) in {|
  store_call := store;
  provisioner_backend := KUBERNETES_EXECUTION_ENVIRONMENT_BACKEND;
  durable_locator environment :=
    match kubernetes_durable_locator config environment with Ok locator => Ok locator | Err error => Err (text error) end;
  provision environment workspace_root repository_metadata_root :=
    finished (ensure_pod config fuel environment workspace_root repository_metadata_root);
  deprovision environment := finished (release_pod config fuel environment);
|}.
