(* ===== verification/KubernetesLaws.v ===== *)
(** * Pods of an environment, and no others

    Whatever the API server answers, a provisioned environment is a ready Pod
    confined to the worktree and the repository of its job, Pods are deleted only by
    the UID of one seen to be the environment's, and every wait ends.  The address
    of a Pod is fixed by the reference that is stored for it. *)

From S2P Require Import Prelude Domain Executor Keeps EnvironmentWork ProviderTools ResponseStream Artifacts Git ProviderToolsLaws Docker DockerLaws Kubernetes.
From Stdlib Require Import ZArith Ascii String.
From stdpp Require Import base gmap strings list option pretty relations.

#[local] Open Scope string_scope.
#[local] Open Scope Z_scope.
#[local] Open Scope list_scope.

(** ** Calls *)

Inductive KubeCall : Type :=
| GotPod (namespace name : string) (answer : result KubeError (option Pod))
| CreatedPod (namespace : string) (manifest : Pod) (answer : result KubeError Pod)
| DeletedPod (namespace name uid : string) (answer : result KubeError unit).

(** The calls made so far can be read off the world, and asking for a Pod takes
    time. *)
Class KubeTrace (W : Type) `{KubeApi W} `{Timers W} : Type := {
  kube_calls : W → list KubeCall;
  get_called ns n w r w' : get_opt ns n w = (r, w') → kube_calls w' = kube_calls w ++ [GotPod ns n r] ∧ instant w < instant w';
  create_pod_called ns m w r w' : create_pod ns m w = (r, w') →
    kube_calls w' = kube_calls w ++ [CreatedPod ns m r] ∧ instant w ≤ instant w';
  delete_called ns n u w r w' : delete_pod ns n u w = (r, w') →
    kube_calls w' = kube_calls w ++ [DeletedPod ns n u r] ∧ instant w ≤ instant w';
  connect_not_kube address w r w' : tcp_connect address w = (r, w') → kube_calls w' = kube_calls w;
  sleep_not_kube t w r w' : sleep_until t w = (r, w') → kube_calls w' = kube_calls w;
}.

(** ** Whose Pod it is *)

(** The Pod has the name and the annotation of the environment's generation. *)
Definition pod_of (identity : OwnedPodIdentity) (namespace : string) (pod : Pod) : Prop :=
  pd_name pod = Some (pi_name identity) ∧ pd_namespace pod = Some namespace
  ∧ pod_annotation pod IDENTITY_ANNOTATION = Some (pi_annotation identity).

Lemma pod_identity_valid identity namespace pod :
  validate_pod_identity identity namespace pod = Ok tt ↔ pod_of identity namespace pod.
Proof.
  unfold validate_pod_identity, pod_of. split.
  - intros (? & H1%passed & H)%bind_Ok. apply bind_Ok in H as (? & H2%passed & H3%passed). done.
  - intros (H1 & H2 & H3). by rewrite !bool_decide_eq_true_2.
Qed.

(** ** Confinement *)

(** A mount of the claim at [path], with the part of it that the path names. *)
Definition mounted_at (root path : string) (m : VolumeMount) : Prop :=
  ∃ sub, path = root +:+ "/" +:+ sub ∧ sub ≠ EmptyString ∧ Forall (λ c, c ∉ [EmptyString; "."; ".."]) (split_char "/"%char sub)
    ∧ vm_name m = "workspace" ∧ vm_mount_path m = path ∧ vm_sub_path m = Some sub ∧ default false (vm_read_only m) = false
    ∧ vm_sub_path_expr m = None ∧ default "None" (vm_mount_propagation m) = "None"
    ∧ default "Disabled" (vm_recursive_read_only m) = "Disabled".

(** The one container runs the configured image as the configured user, its
    command is the server, its only mounts are the worktree and the repository
    metadata, both from the one volume, which is the configured claim. *)
Definition pod_confined (c : KubernetesExecutionEnvironmentConfig) (root meta : string) (pod : Pod) : Prop :=
  ∃ spec container mounts volume resources a b,
    pd_spec pod = Some spec ∧ ps_containers spec = [container] ∧ ps_volumes spec = Some [volume]
    ∧ ps_automount_service_account_token spec = Some false ∧ ps_enable_service_links spec = Some false
    ∧ ps_restart_policy spec = Some "Never" ∧ ps_runtime_class_name spec = kc_runtime_class_name c
    ∧ (is_Some (kc_node_name c) → ps_node_name spec = kc_node_name c)
    ∧ (kc_run_as_uid c = None → security_ids (ps_security_context spec) = (None, None, None))
    ∧ (∀ uid, kc_run_as_uid c = Some uid → (security_ids (ps_security_context spec)).1 = (Some uid, kc_run_as_gid c))
    ∧ cn_image container = Some (kc_image c) ∧ cn_command container = Some ["codex"]
    ∧ cn_args container = Some ["exec-server"; "--listen"; "ws://0.0.0.0:4500"] ∧ cn_working_dir container = Some root
    ∧ requirements (kc_resources c) = Ok resources ∧ cn_resources container = resources
    ∧ cn_readiness_probe container = Some exec_server_probe
    ∧ cn_volume_mounts container = Some mounts ∧ mounts ≡ₚ [a; b]
    ∧ mounted_at (kc_workspace_root c) root a ∧ mounted_at (kc_workspace_root c) meta b
    ∧ vl_name volume = "workspace" ∧ vl_other volume = []
    ∧ ∃ read_only, vl_claim volume = Some (kc_workspace_pvc c, read_only) ∧ default false read_only = false.

Lemma split_nonempty sep s : split_char sep s ≠ [].
Proof. destruct s as [|c r]; cbn; [done|]. case_decide; [done|]. by destruct (split_char sep r). Qed.

Lemma split_between sep a b : split_char sep (a +:+ String sep b) = split_char sep a ++ split_char sep b.
Proof.
  induction a as [|c a IH].
  - change (EmptyString +:+ String sep b) with (String sep b). cbn. by rewrite decide_True.
  - change (String c a +:+ String sep b) with (String c (a +:+ String sep b)). cbn [split_char]. rewrite IH.
    case_decide; [done|]. destruct (split_char sep a) as [|p l] eqn:E; [by apply split_nonempty in E|done].
Qed.

Lemma normal_components l : existsb unnormal l = false → Forall (λ c, c ∉ [EmptyString; "."; ".."]) l.
Proof.
  intros Hb. apply Forall_forall. intros c Hin Hbad. rewrite <- not_true_iff_false, existsb_exists in Hb. apply Hb.
  exists c. split; [by apply list_elem_of_In|by apply bool_decide_eq_true].
Qed.

Lemma workspace_subpath_Ok root path sub :
  workspace_subpath root path = Ok sub →
  path = root +:+ "/" +:+ sub ∧ sub ≠ EmptyString ∧ Forall (λ c, c ∉ [EmptyString; "."; ".."]) (split_char "/"%char sub).
Proof.
  unfold workspace_subpath, validate_absolute_path. intros ([] & Ha & H)%bind_Ok.
  apply bind_Ok in Ha as (? & _ & Hn%guard_err_Ok). apply bind_Ok in H as (relative & Hp%ok_or_Ok & H).
  apply bind_Ok in H as (? & Hne%guard_err_Ok & [= <-]). apply strip_prefix_spec in Hp.
  assert (path = root +:+ String "/" relative) as Hpath by (rewrite Hp; apply string_app_assoc).
  split_and!; [done|by apply bool_decide_eq_false in Hne|]. apply normal_components in Hn.
  rewrite Hpath, split_between in Hn.
  destruct (split_char "/" root) as [|p l] eqn:E; [by apply split_nonempty in E|]. cbn in Hn. by apply Forall_app in Hn as [_ Hn].
Qed.

Section owned.
Context `{UuidText}.
Context (c : KubernetesExecutionEnvironmentConfig) (e : ExecutionEnvironmentRecord) (root meta : string) (o : OwnedPod).
Hypothesis Howned : owned_pod c e root meta = Ok o.

Lemma owned_pod_parts :
  ∃ resources sub metasub, pod_identity e = Ok (op_identity o) ∧ op_name o = pi_name (op_identity o)
    ∧ root ≠ meta ∧ requirements (kc_resources c) = Ok resources
    ∧ workspace_subpath (kc_workspace_root c) root = Ok sub ∧ workspace_subpath (kc_workspace_root c) meta = Ok metasub
    ∧ pd_name (op_manifest o) = Some (op_name o) ∧ pd_namespace (op_manifest o) = Some (kc_namespace c)
    ∧ pd_annotations (op_manifest o) = Some {[ IDENTITY_ANNOTATION := pi_annotation (op_identity o) ]}
    ∧ pd_spec (op_manifest o) = Some (mkPodSpec (Some false) (Some false) (Some "Never") (kc_runtime_class_name c) (kc_node_name c)
        ((λ uid, mkSecurityContext (Some uid) (kc_run_as_gid c)
            (match kc_workspace_ownership_mode c with Manage => kc_run_as_gid c | Preserve => None end)) <$> kc_run_as_uid c)
        [mkContainer "codex-exec-server" (Some (kc_image c)) (Some "IfNotPresent") (Some ["codex"])
           (Some ["exec-server"; "--listen"; "ws://0.0.0.0:4500"])
           (Some [mkContainerPort POD_EXEC_SERVER_PORT (Some "exec-server") None None (Some "TCP")])
           (Some exec_server_probe) resources
           (Some [mkVolumeMount "workspace" root (Some false) (Some sub) None None None;
                  mkVolumeMount "workspace" meta (Some false) (Some metasub) None None None]) (Some root)]
        (Some [mkVolume "workspace" (Some (kc_workspace_pvc c, Some false)) []])).
Proof.
  unfold owned_pod in Howned. destruct (proj1 (bind_Ok _ _ _) Howned) as ([] & _ & H1). clear Howned.
  apply bind_Ok in H1 as (? & Hne%guard_err_Ok%bool_decide_eq_false & H1). apply bind_Ok in H1 as (identity & Hid & H1).
  apply bind_Ok in H1 as (resources & Hres & H1). apply bind_Ok in H1 as (m1 & Hm1 & H1). apply bind_Ok in H1 as (m2 & Hm2 & H1).
  apply bind_Ok in Hm1 as (sub & Hsub & [= <-]). apply bind_Ok in Hm2 as (metasub & Hmeta & [= <-]). injection H1 as <-.
  exists resources, sub, metasub. by split_and!.
Qed.
End owned.

Lemma two_elements {A : Type} (l : list A) a b : length l = 2%nat → a ∈ l → b ∈ l → a ≠ b → l ≡ₚ [a; b].
Proof.
  destruct l as [|x [|y [|]]]; try done. intros _ Ha Hb Hne. rewrite elem_of_cons, list_elem_of_singleton in Ha, Hb.
  destruct Ha as [->| ->], Hb as [->| ->]; try done. apply Permutation_swap.
Qed.

Lemma volume_mount_found root mounts path sub :
  workspace_subpath root path = Ok sub →
  validate_volume_mount mounts (mkVolumeMount "workspace" path (Some false) (Some sub) None None None) = Ok tt →
  ∃ m, m ∈ mounts ∧ mounted_at root path m.
Proof.
  intros (Hp & Hne & Hn)%workspace_subpath_Ok (m & Hf%ok_or_Ok & H)%bind_Ok. apply find_some in Hf as [Hin Hpath].
  apply bind_Ok in H as (? & H1%guard_err_Ok%negb_false_iff & H). rewrite !andb_true_iff, !bool_decide_eq_true in H1.
  apply bind_Ok in H as (? & H2%passed & H). apply bind_Ok in H as (? & H3%passed & H). apply bind_Ok in H as (? & H4%passed & H5%passed).
  cbn in *. exists m. split; [by apply list_elem_of_In|]. exists sub. naive_solver.
Qed.

Lemma only_one_Ok {A : Type} (l : list A) message a : only_one l message = Ok a → l = [a].
Proof. unfold only_one. destruct l as [|? []]; naive_solver. Qed.

Lemma default_singleton {A : Type} (o : option (list A)) a : default [] o = [a] → o = Some [a].
Proof. destruct o; cbn; congruence. Qed.

Ltac check_step H name := apply bind_Ok in H as (? & name%passed & H).

(** What an accepted container is. *)
Lemma container_valid workspace_root container root meta sub metasub resources image :
  root ≠ meta → workspace_subpath workspace_root root = Ok sub → workspace_subpath workspace_root meta = Ok metasub →
  validate_container container
    (mkContainer "codex-exec-server" (Some image) (Some "IfNotPresent") (Some ["codex"])
       (Some ["exec-server"; "--listen"; "ws://0.0.0.0:4500"])
       (Some [mkContainerPort POD_EXEC_SERVER_PORT (Some "exec-server") None None (Some "TCP")]) (Some exec_server_probe) resources
       (Some [mkVolumeMount "workspace" root (Some false) (Some sub) None None None;
              mkVolumeMount "workspace" meta (Some false) (Some metasub) None None None]) (Some root)) = Ok tt →
  ∃ mounts a b, cn_image container = Some image ∧ cn_command container = Some ["codex"]
    ∧ cn_args container = Some ["exec-server"; "--listen"; "ws://0.0.0.0:4500"] ∧ cn_working_dir container = Some root
    ∧ cn_resources container = resources ∧ cn_readiness_probe container = Some exec_server_probe
    ∧ cn_volume_mounts container = Some mounts ∧ mounts ≡ₚ [a; b]
    ∧ mounted_at workspace_root root a ∧ mounted_at workspace_root meta b.
Proof.
  intros Hne Hsub Hmeta H. unfold validate_container in H. cbn [cn_name cn_image cn_image_pull_policy cn_command cn_args cn_ports
    cn_readiness_probe cn_resources cn_volume_mounts cn_working_dir panics ok_or head hd_error] in H.
  check_step H H1. check_step H H2. check_step H H3. check_step H H4. check_step H H5. check_step H H6.
  apply bind_Ok in H as (expected_ports & [= <-] & H). apply bind_Ok in H as (port & _ & H).
  apply bind_Ok in H as (expected_port & _ & H). apply bind_Ok in H as (? & _ & H).
  apply bind_Ok in H as (probe & Hprobe%ok_or_Ok & H). apply bind_Ok in H as (? & _ & H). check_step H H7. check_step H H8.
  apply bind_Ok in H as (expected_mounts & [= <-] & H). check_step H H9. cbn [validate_volume_mounts] in H.
  apply bind_Ok in H as ([] & Hm1 & H). apply bind_Ok in H as ([] & Hm2 & _).
  eapply volume_mount_found in Hm1 as (a & Ha & Hma); [|done]. eapply volume_mount_found in Hm2 as (b & Hb & Hmb); [|done].
  destruct (cn_volume_mounts container) as [mounts|]; [|done]. exists mounts, a, b. split_and!; try done.
  - by rewrite Hprobe.
  - apply two_elements; try done. intros ->. destruct Hma as (? & _ & _ & _ & _ & Hpa & _), Hmb as (? & _ & _ & _ & _ & Hpb & _). congruence.
Qed.

Lemma accepted_pod_confined `{UuidText} c e root meta o pod :
  owned_pod c e root meta = Ok o → validate_required_invariants o pod = Ok tt → pod_confined c root meta pod.
Proof.
  intros (resources & sub & metasub & Hid & _ & Hne & Hres & Hsub & Hmeta & _ & _ & _ & Hspec)%owned_pod_parts H1.
  unfold validate_required_invariants in H1. rewrite Hspec in H1.
  apply bind_Ok in H1 as (expected & [= <-] & H1).
  cbn [ps_automount_service_account_token ps_enable_service_links ps_restart_policy ps_runtime_class_name ps_node_name
    ps_security_context ps_containers ps_volumes] in H1.
  apply bind_Ok in H1 as (actual & Hactual%ok_or_Ok & H1). check_step H1 Hrt.
  apply bind_Ok in H1 as (? & Hnode%guard_err_Ok & H1). check_step H1 Hrestart. check_step H1 Hauto. check_step H1 Hlinks. check_step H1 Hsec.
  apply bind_Ok in H1 as (container & Hcont%only_one_Ok & H1). apply bind_Ok in H1 as (? & [= <-] & H1).
  apply bind_Ok in H1 as ([] & Hc & H1). eapply container_valid in Hc as (mounts & a & b & Hc); [|done..].
  apply bind_Ok in H1 as (? & [= <-] & H1). apply bind_Ok in H1 as (volume & Hvol%only_one_Ok%default_singleton & H1).
  apply bind_Ok in H1 as (av & Hav & H1). apply bind_Ok in H1 as (? & [= <-] & H1). apply bind_Ok in H1 as (? & [= <-] & H1).
  apply passed in H1. apply bind_Ok in Hav as ([claim ro] & Hclaim%ok_or_Ok & [= <-]). injection H1 as Hvn Hcl Hro Hvo.
  exists actual, container, mounts, volume, resources, a, b. cbn in *. subst claim.
  split_and!; try naive_solver.
  - intros Hs. apply andb_false_iff in Hnode as [Hnode|Hnode]; [by apply bool_decide_eq_false in Hnode|].
    by apply negb_false_iff, bool_decide_eq_true in Hnode.
  - intros Hn. by rewrite Hsec, Hn.
  - intros uid Hu. by rewrite Hsec, Hu.
Qed.

Lemma volume_mount_own path sub before after :
  Forall (λ m, vm_mount_path m ≠ path) before →
  validate_volume_mount (before ++ mkVolumeMount "workspace" path (Some false) (Some sub) None None None :: after)
    (mkVolumeMount "workspace" path (Some false) (Some sub) None None None) = Ok tt.
Proof.
  intros Hb. unfold validate_volume_mount.
  assert (∀ rest, List.find (λ m, bool_decide (vm_mount_path m = path)) (before ++ rest)
                = List.find (λ m, bool_decide (vm_mount_path m = path)) rest) as Hf.
  { intros rest. induction Hb as [|m l Hm Hl IH]; [done|]. cbn. by rewrite bool_decide_eq_false_2. }
  cbn [vm_mount_path]. rewrite Hf. cbn. rewrite bool_decide_eq_true_2 by done. cbn. by rewrite !bool_decide_eq_true_2.
Qed.

(** A check that holds, and a value that is there. *)
Ltac pass := apply bind_Ok;
  first [exists tt; split; [apply guard_err_Ok; cbn; by rewrite ?bool_decide_eq_true_2|] | eexists; split; [reflexivity|]].

Lemma container_own image resources root sub meta metasub :
  root ≠ meta →
  let container := mkContainer "codex-exec-server" (Some image) (Some "IfNotPresent") (Some ["codex"])
    (Some ["exec-server"; "--listen"; "ws://0.0.0.0:4500"])
    (Some [mkContainerPort POD_EXEC_SERVER_PORT (Some "exec-server") None None (Some "TCP")]) (Some exec_server_probe) resources
    (Some [mkVolumeMount "workspace" root (Some false) (Some sub) None None None;
           mkVolumeMount "workspace" meta (Some false) (Some metasub) None None None]) (Some root) in
  validate_container container container = Ok tt.
Proof.
  intros Hne container. unfold validate_container. do 16 pass. cbn [container cn_volume_mounts default validate_volume_mounts].
  apply bind_Ok. exists tt. split; [by apply (volume_mount_own root sub [])|]. apply bind_Ok. exists tt. split; [|done].
  apply (volume_mount_own meta metasub [_] []). by repeat constructor.
Qed.

(** A Pod with the specification of the manifest is accepted, so that what was
    just created is not replaced. *)
Lemma own_manifest_accepted `{UuidText} c e root meta o pod :
  owned_pod c e root meta = Ok o → pd_spec pod = pd_spec (op_manifest o) → validate_required_invariants o pod = Ok tt.
Proof.
  intros (resources & sub & metasub & _ & _ & Hne & _ & _ & _ & _ & _ & _ & Hspec)%owned_pod_parts Hpod.
  unfold validate_required_invariants. rewrite Hpod, Hspec. do 3 pass.
  apply bind_Ok. exists tt. split; [apply guard_err_Ok; cbn; rewrite (bool_decide_eq_true_2 (_ = _)) by done; by rewrite andb_false_r|].
  do 6 pass. apply bind_Ok. exists tt. split; [by apply container_own|]. pass. pass. pass. pass. pass. apply guard_err_Ok. by rewrite bool_decide_eq_true_2.
Qed.

(** ** References *)

Definition free_of (sep : ascii) (s : string) : Prop := text_contains sep s = false.

Lemma free_cons sep c s : free_of sep (String c s) ↔ c ≠ sep ∧ free_of sep s.
Proof. unfold free_of, text_contains. cbn. rewrite orb_false_iff, bool_decide_eq_false. done. Qed.

Lemma split_free sep s : free_of sep s → split_char sep s = [s].
Proof. induction s as [|c s IH]; [done|]. intros [Hc Hs]%free_cons. cbn. by rewrite decide_False, IH. Qed.

Lemma split_pieces sep s :
  Forall (free_of sep) (split_char sep s) ∧ String.concat (String sep EmptyString) (split_char sep s) = s.
Proof.
  induction s as [|c s [Hf Hj]]; cbn [split_char]; [by repeat constructor|].
  destruct (split_char sep s) as [|p l] eqn:E; [by apply split_nonempty in E|]. case_decide as Hc.
  - split; [by constructor|]. by rewrite Hc, <- Hj.
  - apply Forall_cons in Hf as [Hp Hl]. split; [constructor; [by apply free_cons|done]|]. rewrite <- Hj. by destruct l.
Qed.

(** The parts of a reference are not empty and hold no slash. *)
Definition reference_wf (r : KubernetesBackendReference) : Prop :=
  br_namespace r ≠ EmptyString ∧ br_name r ≠ EmptyString ∧ br_uid r ≠ Some EmptyString
  ∧ free_of "/" (br_namespace r) ∧ free_of "/" (br_name r) ∧ ∀ uid, br_uid r = Some uid → free_of "/" uid.

Lemma reference_split r :
  free_of "/" (br_namespace r) → free_of "/" (br_name r) → (∀ uid, br_uid r = Some uid → free_of "/" uid) →
  split_char "/"%char (encode_reference r) = [br_namespace r; br_name r] ++ match br_uid r with Some uid => [uid] | None => [] end.
Proof.
  intros Hns Hn Hu. unfold encode_reference.
  assert (∀ x, br_namespace r +:+ "/" +:+ x = br_namespace r +:+ String "/" x) as H1 by done.
  destruct (br_uid r) as [uid|]; rewrite H1, split_between, (split_free _ (br_namespace r)) by done.
  - change (br_name r +:+ "/" +:+ uid) with (br_name r +:+ String "/" uid). rewrite split_between, !split_free by auto. done.
  - by rewrite split_free.
Qed.

Lemma parse_reference_spec v r : parse_reference v = Ok r ↔ reference_wf r ∧ v = encode_reference r.
Proof.
  split.
  - unfold parse_reference. intros (? & Hg%guard_err_Ok & [= <-])%bind_Ok.
    destruct (split_pieces "/" v) as [Hf Hj]. rewrite !orb_false_iff, !bool_decide_eq_false in Hg.
    destruct Hg as (((Hns & Hn) & Hu) & H3).
    destruct (split_char "/" v) as [|ns [|n [|uid [|? l]]]]; cbn in *; try done; [| |by destruct H3].
    + rewrite !Forall_cons in Hf. split; [unfold reference_wf; naive_solver|done].
    + rewrite !Forall_cons in Hf. split; [unfold reference_wf; naive_solver|done].
  - intros [(Hns & Hn & Hu & Fns & Fn & Fu) ->]. unfold parse_reference. rewrite reference_split by done.
    destruct r as [ns n [uid|]]; cbn in *; rewrite !bool_decide_eq_false_2; naive_solver.
Qed.

(** ** Runs *)

(** What may be asked of the API server for an environment: everything about its
    own Pod, created only as the manifest says and deleted only by the UID of a Pod
    that was seen, in the same call, to be the environment's. *)
Definition pod_allowed (identity : OwnedPodIdentity) (namespace : string) (manifest : option Pod) (history : list KubeCall)
    (c : KubeCall) : Prop :=
  match c with
  | GotPod ns name _ => ns = namespace ∧ name = pi_name identity
  | CreatedPod ns body _ => ns = namespace ∧ manifest = Some body
  | DeletedPod ns name uid _ =>
      ns = namespace ∧ name = pi_name identity
      ∧ ∃ pod, GotPod namespace (pi_name identity) (Ok (Some pod)) ∈ history ∧ pod_of identity namespace pod
          ∧ pd_uid pod = Some uid
  end.

Definition pod_follows (identity : OwnedPodIdentity) (namespace : string) (manifest : option Pod) (new : list KubeCall) : Prop :=
  ∀ i c, new !! i = Some c → pod_allowed identity namespace manifest (take i new) c.

Lemma pod_allowed_later identity namespace manifest h h' c :
  pod_allowed identity namespace manifest h c → pod_allowed identity namespace manifest (h ++ h') c.
Proof. destruct c; cbn; try done. intros (? & ? & pod & Hin & Hp). split_and!; try done. exists pod. split; [|done]. apply elem_of_app. by left. Qed.

Lemma pod_follows_nil identity namespace manifest : pod_follows identity namespace manifest [].
Proof. intros i c. by rewrite lookup_nil. Qed.

Lemma pod_follows_app identity namespace manifest new cs :
  pod_follows identity namespace manifest new → Forall (pod_allowed identity namespace manifest new) cs →
  pod_follows identity namespace manifest (new ++ cs).
Proof.
  intros Hn Hc i c Hi. apply lookup_app_Some in Hi as [Hi|[Hl Hi]].
  - rewrite take_app_le by (apply lookup_lt_Some in Hi; lia). by apply Hn.
  - rewrite take_app_ge by lia. apply pod_allowed_later. rewrite Forall_forall in Hc. apply Hc. by eapply list_elem_of_lookup_2.
Qed.

Lemma required_uid_Ok pod uid : required_uid pod = Ok uid → pd_uid pod = Some uid ∧ is_blank uid = false.
Proof. unfold required_uid. destruct (pd_uid pod); [case_match|]; naive_solver. Qed.

Section runs.
Context {W : Type} `{KubeApi W, Timers W, KubeText, UuidText, !TimerLaws W, !KubeTrace W}.

Definition later (w w' : W) : Prop := instant w ≤ instant w'.

#[local] Instance later_preorder : PreOrder later.
Proof. split; [intros w; unfold later; lia|intros a b c; unfold later; lia]. Qed.

Context (identity : OwnedPodIdentity) (namespace : string) (manifest : option Pod) (base : list KubeCall).
Implicit Types (w : W) (new : list KubeCall).

Abbreviation allowed_pod := (pod_allowed identity namespace manifest).
Abbreviation pod_name := (pi_name identity).

Definition pod_so_far new w : Prop := kube_calls w = base ++ new ∧ pod_follows identity namespace manifest new.
Definition pod_lawful w : Prop := ∃ new, pod_so_far new w.

(** A request that the deadline may cut off. *)
Lemma request_ends {A : Type} (p : proc W KubeError A) call d new w :
  (∀ w r w', p w = (r, w') → kube_calls w' = kube_calls w ++ [call r]) → (∀ r, allowed_pod new (call r)) →
  pod_so_far new w → ends (timeout_at d p) w (λ r, pod_so_far (new ++ [call r])) pod_lawful.
Proof.
  intros Hcall Ha [Hc Hf]. apply ends_intro. intros [r|[]] w' Hr.
  - apply timeout_done, Hcall in Hr. split; [by rewrite Hr, Hc, app_assoc|]. apply pod_follows_app; [done|]. by constructor.
  - set (R w w' := ∃ cs, kube_calls w' = kube_calls w ++ cs ∧ Forall (λ c, ∃ r, c = call r) cs).
    assert (PreOrder R).
    { split; [intros x; exists []; by rewrite app_nil_r|]. intros x y z (cs & Hx & Hcs) (cs' & Hy & Hcs').
      exists (cs ++ cs'). rewrite Hy, Hx, app_assoc. split; [done|by apply Forall_app]. }
    eapply (timeout_cut d p w w' R) in Hr as (cs & Hcs & Hall); [| |].
    + exists (new ++ cs). split; [by rewrite Hcs, Hc, app_assoc|]. apply pod_follows_app; [done|].
      eapply Forall_impl; [exact Hall|]. by intros c [r ->].
    + done.
    + intros x r x' Hx%Hcall. exists [call r]. split; [done|]. by repeat econstructor.
Qed.

Lemma get_ends d action new w :
  pod_so_far new w →
  ends (get_pod namespace pod_name d action) w (λ pod, pod_so_far (new ++ [GotPod namespace pod_name (Ok pod)])) pod_lawful.
Proof.
  intros Hs. unfold get_pod. apply ends_bind, ends_map_err.
  eapply ends_mono; [apply (request_ends _ (GotPod namespace pod_name) _ new); [|done|done]| |done].
  - intros w0 r w' [Hc _]%get_called. exact Hc.
  - intros [pod|error] w1 Hw; [by apply ends_done|apply ends_fail; by eexists].
Qed.

(** Steps that ask nothing of the API server. *)
Lemma quiet_ends {E A : Type} (p : proc W E A) new w :
  (∀ r w', p w = (r, w') → kube_calls w' = kube_calls w) → pod_so_far new w →
  ends p w (λ _, pod_so_far new) (pod_so_far new).
Proof. intros Hq [Hc Hf]. apply ends_intro. intros r w' Hr%Hq. by destruct r; (split; [by rewrite Hr|]). Qed.

Lemma pause_quiet d w r w' : pause_until_next_poll d w = (r, w') → kube_calls w' = kube_calls w.
Proof.
  unfold pause_until_next_poll. intros Hr. apply bind_cases in Hr as [(? & -> & [=])|(now & w1 & [= <- <-] & Hr)].
  unfold ignore in Hr. destruct (sleep_until _ w) as [q w2] eqn:E. injection Hr as <- <-. by apply sleep_not_kube in E.
Qed.

Lemma before_quiet d action w r w' : ensure_before_deadline d action w = (r, w') → kube_calls w' = kube_calls w.
Proof.
  unfold ensure_before_deadline. intros Hr. apply bind_cases in Hr as [(? & -> & [=])|(now & w1 & [= <- <-] & Hr)].
  by injection Hr as <- <-.
Qed.

Lemma connect_quiet d address w r w' : timeout_at d (tcp_connect address) w = (r, w') → kube_calls w' = kube_calls w.
Proof.
  intros Hr. set (R x y := kube_calls y = kube_calls x). assert (PreOrder R) by (split; unfold R; [done|congruence]).
  eapply (timeout_keeps R d (tcp_connect address)); [|exact Hr]. intros x q x' Hx. by apply connect_not_kube in Hx.
Qed.

Lemma pause_ends d new w : pod_so_far new w → ends (pause_until_next_poll d) w (λ _, pod_so_far new) (pod_so_far new).
Proof. apply quiet_ends. intros ??. apply pause_quiet. Qed.

Lemma before_ends d action new w :
  pod_so_far new w → ends (ensure_before_deadline d action) w (λ _, pod_so_far new) (pod_so_far new).
Proof. apply quiet_ends. intros ??. apply before_quiet. Qed.

(** The Pod was seen to be gone. *)
Definition seen_gone (old_uid : string) (c : KubeCall) : Prop :=
  ∃ pod, c = GotPod namespace pod_name (Ok pod) ∧ uid_is_gone pod old_uid = Ok true.

Lemma gone_ends fuel uid d new w :
  pod_so_far new w →
  ends (wait_for_uid_gone fuel namespace pod_name uid d) w
    (λ o w', match o with Some _ => ∃ new' c, pod_so_far (new' ++ [c]) w' ∧ seen_gone uid c | None => pod_lawful w' end) pod_lawful.
Proof.
  revert new w. induction fuel as [|n IH]; intros new w Hs; cbn [wait_for_uid_gone]; [apply ends_done; by eexists|].
  ends_step before_ends; [exact Hs| |by eexists]. intros _ w1 H1'.
  ends_step get_ends; [exact H1'| |done]. intros pod w2 H2'.
  apply ends_bind, ends_lift. destruct (uid_is_gone pod uid) as [gone|] eqn:Hg; [|by eexists].
  destruct gone; [apply ends_done; eexists _, _; split; [exact H2'|by exists pod]|].
  ends_step pause_ends; [exact H2'| |by eexists]. intros _ w3 H3'. by eapply IH.
Qed.

Lemma delete_ends fuel uid pod d new w :
  pod_so_far new w → GotPod namespace pod_name (Ok (Some pod)) ∈ new → pod_of identity namespace pod → pd_uid pod = Some uid →
  ends (delete_and_wait fuel namespace pod_name uid d) w
    (λ o w', match o with Some _ => ∃ new' c, pod_so_far (new' ++ [c]) w' ∧ seen_gone uid c | None => pod_lawful w' end) pod_lawful.
Proof.
  intros Hs Hin Hpod Huid. unfold delete_and_wait. apply ends_bind, ends_map_err.
  eapply ends_mono; [apply (request_ends _ (DeletedPod namespace pod_name uid) _ new); [| |done]| |done].
  - intros w0 r w' [Hc _]%delete_called. exact Hc.
  - intros r. by split_and!; [..|exists pod].
  - intros [u|error] w1 H1'; [by eapply gone_ends|]. case_decide; [by eapply gone_ends|apply ends_fail; by eexists].
Qed.

Lemma dispose_ends fuel uid pod d new w :
  pod_so_far new w → GotPod namespace pod_name (Ok (Some pod)) ∈ new → pod_of identity namespace pod → pd_uid pod = Some uid →
  ends (dispose fuel namespace pod_name uid pod d) w
    (λ o w', match o with Some _ => ∃ new' c, pod_so_far (new' ++ [c]) w' ∧ seen_gone uid c | None => pod_lawful w' end) pod_lawful.
Proof. intros. unfold dispose. case_decide; [by eapply gone_ends|by eapply delete_ends]. Qed.

Lemma create_or_observe_ends expected d new w :
  op_name expected = pod_name → manifest = Some (op_manifest expected) → pod_so_far new w →
  ends (create_or_observe namespace expected d) w (λ _, pod_lawful) pod_lawful.
Proof.
  intros Hn Hm Hs. unfold create_or_observe. rewrite Hn. apply ends_bind, ends_map_err.
  eapply ends_mono; [apply (request_ends _ (CreatedPod namespace (op_manifest expected)) _ new); [|done|done]| |done].
  - intros w0 r w' [Hc _]%create_pod_called. exact Hc.
  - intros [pod|error] w1 H1'; [apply ends_done; by eexists|]. case_decide; [|apply ends_fail; by eexists].
    ends_step get_ends; [exact H1'| |done]. intros found w2 H2'. apply ends_lift. destruct found; by eexists.
Qed.

(** ** Provisioning *)

(** What the last answer of the API server showed when a Pod is provided. *)
Definition provided (expected : OwnedPod) (p : Provisioned) w : Prop :=
  ∃ new pod uid ip, pod_so_far (new ++ [GotPod namespace pod_name (Ok (Some pod))]) w
    ∧ pod_of identity namespace pod ∧ pd_uid pod = Some uid ∧ is_blank uid = false
    ∧ validate_required_invariants expected pod = Ok tt ∧ pd_deletion_timestamp pod = None
    ∧ pod_is_terminal pod = false ∧ pod_is_ready pod = true ∧ pod_ip pod = Ok ip
    ∧ p = mkProvisioned (encode_reference (mkReference namespace pod_name (Some uid))) (pod_ip_url ip).

Lemma disposition_Ok expected pod uid adopt disposition :
  op_identity expected = identity → pd_namespace (op_manifest expected) = Some namespace →
  pod_disposition expected pod uid adopt = Ok disposition →
  pod_of identity namespace pod
  ∧ match disposition with
    | ReusePod u => pd_uid pod = Some u ∧ is_blank u = false ∧ validate_required_invariants expected pod = Ok tt
                    ∧ (adopt = false → ∀ u', uid = Some u' → u' = u)
    | ReplaceOwnedPod u => pd_uid pod = Some u
    end.
Proof.
  intros Hid Hns Hd. unfold pod_disposition in Hd. rewrite Hns, Hid in Hd.
  apply bind_Ok in Hd as (ns & [= <-] & Hd). apply bind_Ok in Hd as ([] & Hv%pod_identity_valid & Hd).
  apply bind_Ok in Hd as (u & [Hu Hb]%required_uid_Ok & Hd). split; [done|].
  destruct (validate_required_invariants expected pod) as [[]|]; cbn in Hd; [|by injection Hd as <-].
  apply bind_Ok in Hd as (? & Hg%guard_err_Ok%negb_false_iff & Hd). injection Hd as <-.
  split_and!; try done. intros -> u' ->. cbn in Hg. by apply bool_decide_eq_true in Hg.
Qed.

Lemma await_ends expected pod uid d new w :
  op_name expected = pod_name → pod_so_far (new ++ [GotPod namespace pod_name (Ok (Some pod))]) w →
  pod_of identity namespace pod → pd_uid pod = Some uid → is_blank uid = false →
  validate_required_invariants expected pod = Ok tt → pd_deletion_timestamp pod = None → pod_is_terminal pod = false →
  ends (await_ready namespace expected pod uid d) w
    (λ o w', match o with Some (Provided p) => provided expected p w' | _ => pod_lawful w' end) pod_lawful.
Proof.
  intros Hn Hs Hpod Hu Hb Hv Hdel Hterm. unfold await_ready. rewrite Hn.
  set (next := _ ← pause_until_next_poll d; done _).
  assert (∀ w, pod_so_far (new ++ [GotPod namespace pod_name (Ok (Some pod))]) w → ends next w
    (λ o w', match o with Some (Provided p) => provided expected p w' | _ => pod_lawful w' end) pod_lawful) as Hnext.
  { intros w0 H0'. unfold next. ends_step pause_ends; [exact H0'| |by eexists].
    intros _ w1 H1'. apply ends_done. by eexists. }
  destruct (pod_is_ready pod) eqn:Hr; [|by apply Hnext].
  apply ends_bind, ends_lift. destruct (pod_ip pod) as [ip|] eqn:Hip; [|by eexists].
  apply ends_bind, ends_map_err. eapply ends_mono; [apply quiet_ends; [intros ??; apply connect_quiet|exact Hs]| |by eexists].
  intros [[]|error] w1 H1'; cbn [is_ok]; [|by apply Hnext]. apply ends_done. exists new, pod, uid, ip. by split_and!.
Qed.

Lemma after_disposal_ends expected gone w :
  match gone with Some _ => ∃ new' c, pod_so_far (new' ++ [c]) w ∧ True | None => pod_lawful w end →
  ends (after_disposal gone) w (λ o w', match o with Some (Provided p) => provided expected p w' | _ => pod_lawful w' end) pod_lawful.
Proof. destruct gone; cbn; [intros (new & c & Hs & _)|]; [by eexists|done]. Qed.

Lemma pod_round_ends fuel expected d uid adopt new w :
  op_identity expected = identity → op_name expected = pod_name → manifest = Some (op_manifest expected) →
  pd_namespace (op_manifest expected) = Some namespace → pod_so_far new w →
  ends (pod_round fuel namespace expected d uid adopt) w
    (λ o w', match o with Some (Provided p) => provided expected p w' | _ => pod_lawful w' end) pod_lawful.
Proof.
  intros Hid Hn Hm Hns Hs. unfold pod_round. rewrite Hn.
  ends_step before_ends; [exact Hs| |by eexists]. intros _ w1 H1'. ends_step get_ends; [exact H1'| |done].
  intros [pod|] w2 H2'.
  - apply ends_bind, ends_lift. destruct (pod_disposition expected pod uid adopt) as [disposition|] eqn:Hd; [|by eexists].
    apply disposition_Ok in Hd as [Hpod Hd]; [|done..]. destruct disposition as [u|u].
    + destruct Hd as (Hu & Hb & Hv & _). case_decide as Hdel.
      { apply ends_bind. eapply ends_mono; [by eapply gone_ends| |done]. intros gone w3 H3'. apply after_disposal_ends.
        destruct gone; naive_solver. }
      destruct (pod_is_terminal pod) eqn:Hterm; [|apply eq_None_not_Some in Hdel; by eapply await_ends].
      apply ends_bind. eapply ends_mono; [eapply delete_ends; [exact H2'|seen|done..]| |done]. intros gone w3 H3'.
      apply after_disposal_ends. destruct gone; naive_solver.
    + apply ends_bind. eapply ends_mono; [eapply dispose_ends; [exact H2'|seen|done..]| |done]. intros gone w3 H3'.
      apply after_disposal_ends. destruct gone; naive_solver.
  - apply ends_bind. eapply ends_mono; [by eapply create_or_observe_ends| |done]. intros created w3 [new3 H3'].
    apply ends_bind, ends_lift. destruct (validate_pod expected created None) as [[]|]; [|by eexists].
    apply ends_bind, ends_lift. destruct (required_uid created) as [u|]; [|by eexists].
    ends_step pause_ends; [exact H3'| |by eexists]. intros _ w4 H4'. apply ends_done. by eexists.
Qed.

Lemma pod_rounds_ends fuel rounds expected d uid adopt w :
  op_identity expected = identity → op_name expected = pod_name → manifest = Some (op_manifest expected) →
  pd_namespace (op_manifest expected) = Some namespace → pod_lawful w →
  ends (pod_rounds fuel rounds namespace expected d uid adopt) w
    (λ o w', match o with Some p => provided expected p w' | None => pod_lawful w' end) pod_lawful.
Proof.
  intros Hid Hn Hm Hns. revert uid adopt w. induction rounds as [|n IH]; intros uid adopt w Hw; cbn [pod_rounds]; [by apply ends_done|].
  destruct Hw as [new Hs]. apply ends_bind. eapply ends_mono; [by eapply pod_round_ends| |done].
  intros [[u a|p]|] w1 H1'; [by apply IH|by apply ends_done|by apply ends_done].
Qed.
End runs.

(** ** Time *)

Section time.
Context {W : Type} `{KubeApi W, Timers W, KubeText, UuidText, !TimerLaws W, !KubeTrace W}.
Implicit Types (w : W).

#[local] Existing Instance later_preorder.

Lemma connect_later address : keeps_to later (tcp_connect address : proc W _ _).
Proof. intros w r w' Hr. by apply connect_lasts in Hr. Qed.

Lemma pause_later d : keeps_to later (pause_until_next_poll d : proc W _ _).
Proof.
  unfold pause_until_next_poll. intros w r w' Hr. apply bind_cases in Hr as [(? & -> & [=])|(now & w1 & [= <- <-] & Hr)].
  unfold ignore in Hr. destruct (sleep_until _ w) as [q w2] eqn:E. injection Hr as <- <-. by apply sleep_lasts in E as [_ E].
Qed.

Lemma before_Ok d action w u w' : ensure_before_deadline d action w = (Ok u, w') → w' = w ∧ instant w < d.
Proof.
  unfold ensure_before_deadline. intros Hr. apply bind_cases in Hr as [(? & [=] & _)|(now & w1 & [= <- <-] & Hr)].
  injection Hr as Hg <-. apply guard_err_Ok in Hg. split; [done|lia].
Qed.

Lemma get_Ok ns name d action w pod w' : get_pod ns name d action w = (Ok pod, w') → instant w < instant w'.
Proof.
  unfold get_pod. intros Hr. apply bind_cases in Hr as [(? & [=] & _)|(answered & w1 & Hg & Hr)].
  unfold map_err in Hg. destruct (timeout_at _ _ w) as [[q|] w2] eqn:E; simplify_eq.
  apply timeout_done, get_called in E as [_ E]. destruct answered; [by injection Hr as _ <-|done].
Qed.

Lemma get_later ns name d action : keeps_to later (get_pod ns name d action : proc W _ _).
Proof.
  unfold get_pod. stay_within. apply timeout_keeps; [apply _|]. intros w r w' [_ Hr]%get_called. unfold later. lia.
Qed.

(** A wait that runs out of rounds began that long before the deadline. *)
Lemma gone_rounds fuel ns name uid d w w' :
  wait_for_uid_gone (S fuel) ns name uid d w = (Ok None, w') → instant w + Z.of_nat fuel < d.
Proof.
  revert w. induction fuel as [|n IH]; intros w Hr; cbn [wait_for_uid_gone] in Hr;
    apply bind_cases in Hr as [(? & [=] & _)|(? & w1 & [-> Hb]%before_Ok & Hr)]; [lia|];
    apply bind_cases in Hr as [(? & [=] & _)|(pod & w2 & Hg%get_Ok & Hr)];
    apply bind_cases in Hr as [(? & [=] & _)|(gone & w3 & [= _ <-] & Hr)]; (destruct gone; [done|]);
    apply bind_cases in Hr as [(? & [=] & _)|(? & w4 & Hp%pause_later & Hr)]; apply IH in Hr; unfold later in Hp; lia.
Qed.

Lemma before_later d action : keeps_to later (ensure_before_deadline d action : proc W _ _).
Proof.
  unfold ensure_before_deadline. intros w r w' Hr. apply bind_cases in Hr as [(? & -> & [=])|(now & w1 & [= <- <-] & Hr)].
  injection Hr as _ <-. unfold later. lia.
Qed.

#[local] Hint Resolve before_later get_later pause_later : within.

Lemma gone_later fuel ns name uid d : keeps_to later (wait_for_uid_gone fuel ns name uid d : proc W _ _).
Proof. induction fuel as [|n IH]; cbn [wait_for_uid_gone]; stay_within. Qed.

#[local] Hint Resolve gone_later : within.

Lemma delete_later fuel ns name uid d : keeps_to later (delete_and_wait fuel ns name uid d : proc W _ _).
Proof.
  unfold delete_and_wait. stay_within. apply timeout_keeps; [apply _|]. intros w r w' [_ Hr]%delete_called. done.
Qed.

Lemma create_later ns expected d : keeps_to later (create_or_observe ns expected d : proc W _ _).
Proof.
  unfold create_or_observe. stay_within. apply timeout_keeps; [apply _|]. intros w r w' [_ Hr]%create_pod_called. done.
Qed.

#[local] Hint Resolve delete_later create_later : within.

Lemma dispose_later fuel ns name uid pod d : keeps_to later (dispose fuel ns name uid pod d : proc W _ _).
Proof. unfold dispose. stay_within. Qed.

Lemma await_later ns expected pod uid d : keeps_to later (await_ready ns expected pod uid d : proc W _ _).
Proof. unfold await_ready. stay_within. apply timeout_keeps; [apply _|]. apply connect_later. Qed.

Lemma delete_rounds fuel ns name uid d w w' :
  delete_and_wait (S fuel) ns name uid d w = (Ok None, w') → instant w + Z.of_nat fuel < d.
Proof.
  unfold delete_and_wait. intros Hr. apply bind_cases in Hr as [(? & [=] & _)|(deleted & w1 & Hd & Hr)].
  unfold map_err in Hd. destruct (timeout_at _ _ w) as [[q|] w2] eqn:E; simplify_eq.
  apply timeout_done, delete_called in E as [_ E].
  destruct deleted; [|case_decide; [|done]]; apply gone_rounds in Hr; lia.
Qed.

Lemma dispose_rounds fuel ns name uid pod d w w' :
  dispose (S fuel) ns name uid pod d w = (Ok None, w') → instant w + Z.of_nat fuel < d.
Proof. unfold dispose. case_decide; [apply gone_rounds|apply delete_rounds]. Qed.

Lemma after_disposal_Ok gone w o w' :
  after_disposal gone w = (Ok o, w') → w' = w ∧ match gone with Some _ => o = Some (Again None false) | None => o = None end.
Proof. destruct gone; by intros [= <- <-]. Qed.

Lemma await_some ns expected pod uid d w w' : await_ready ns expected pod uid d w ≠ (Ok None, w').
Proof.
  unfold await_ready. set (next := _ ← pause_until_next_poll d; done _).
  assert (∀ w w', next w ≠ (Ok None, w')) as Hn.
  { intros w0 w1 Hr. unfold next in Hr. by apply bind_cases in Hr as [(? & [=] & _)|(? & w2 & _ & [=])]. }
  destruct (pod_is_ready pod); [|apply Hn]. intros Hr. apply bind_cases in Hr as [(? & [=] & _)|(ip & w1 & _ & Hr)].
  apply bind_cases in Hr as [(? & [=] & _)|(connected & w2 & _ & Hr)]. destruct (is_ok connected); [done|by apply Hn in Hr].
Qed.

(** A round that goes on takes time; one that runs out of rounds inside began
    that long before the deadline. *)
Lemma pod_round_time fuel ns expected d uid adopt w o w' :
  pod_round (S fuel) ns expected d uid adopt w = (Ok o, w') →
  instant w < d ∧ match o with
                  | Some _ => instant w < instant w'
                  | None => instant w + Z.of_nat fuel < d
                  end.
Proof.
  unfold pod_round. intros Hr. apply bind_cases in Hr as [(? & [=] & _)|(? & w1 & [-> Hb]%before_Ok & Hr)]. split; [done|].
  apply bind_cases in Hr as [(? & [=] & _)|(found & w2 & Hg%get_Ok & Hr)]. destruct found as [pod|].
  - apply bind_cases in Hr as [(? & [=] & _)|(disposition & w3 & [= _ <-] & Hr)].
    assert (∀ p : proc W Failure (option unit), keeps_to later p →
      (∀ w3, p w2 = (Ok None, w3) → instant w2 + Z.of_nat fuel < d) → (gone ← p; after_disposal gone) w2 = (Ok o, w') →
      match o with Some _ => instant w < instant w' | None => instant w + Z.of_nat fuel < d end) as Hgone.
    { intros p Hp Hn Hd. apply bind_cases in Hd as [(? & [=] & _)|(gone & w3 & Hd & Ha)].
      apply after_disposal_Ok in Ha as [-> Ha]. pose proof (Hp _ _ _ Hd) as Hl. unfold later in Hl.
      destruct gone; subst o; [lia|]. apply Hn in Hd. lia. }
    destruct disposition as [u|u]; [case_decide|].
    + eapply Hgone; [| |exact Hr]; [apply gone_later|intros w3; apply gone_rounds].
    + destruct (pod_is_terminal pod).
      { eapply Hgone; [| |exact Hr]; [apply delete_later|intros w3; apply delete_rounds]. }
      pose proof (await_later _ _ _ _ _ _ _ _ Hr) as Hl. unfold later in Hl. destruct o; [lia|]. exfalso. by eapply await_some.
    + eapply Hgone; [| |exact Hr]; [apply dispose_later|intros w3; apply dispose_rounds].
  - apply bind_cases in Hr as [(? & [=] & _)|(created & w3 & Hc%create_later & Hr)].
    apply bind_cases in Hr as [(? & [=] & _)|(? & w4 & [= _ <-] & Hr)].
    apply bind_cases in Hr as [(? & [=] & _)|(u & w5 & [= _ <-] & Hr)].
    apply bind_cases in Hr as [(? & [=] & _)|(? & w6 & Hp%pause_later & Hr)]. injection Hr as <- <-. unfold later in Hc, Hp. lia.
Qed.

Lemma pod_rounds_time fuel rounds ns expected d uid adopt w w' :
  pod_rounds (S fuel) (S rounds) ns expected d uid adopt w = (Ok None, w') → instant w + Z.of_nat (Nat.min fuel rounds) < d.
Proof.
  revert uid adopt w. induction rounds as [|n IH]; intros uid adopt w Hr; cbn [pod_rounds] in Hr;
    apply bind_cases in Hr as [(? & [=] & _)|(o & w1 & [Hd Ho]%pod_round_time & Hr)]; [rewrite Nat.min_0_r; lia|].
  destruct o as [[u a|p]|]; [apply IH in Hr; lia|done|lia].
Qed.
End time.

(** ** The theorems *)

Section environments.
Context {W : Type} `{KubeApi W, Timers W, KubeText, UuidText, !TimerLaws W, !KubeTrace W}.
Context (config : KubernetesExecutionEnvironmentConfig).
Implicit Types (w : W).

(** Where the Pod of an environment is: in the namespace of the stored reference,
    or else the configured one. *)
Definition pod_place (e : ExecutionEnvironmentRecord) (identity : OwnedPodIdentity) (namespace : string) : Prop :=
  pod_identity e = Ok identity
  ∧ match ee_backend_ref e with
    | Some reference => ∃ uid, parse_reference reference = Ok (mkReference namespace (pi_name identity) uid)
    | None => namespace = kc_namespace config
    end.

Lemma resolve_Ok e r :
  resolve_pod_reference e (kc_namespace config) = Ok r →
  ∃ identity, pod_place e identity (br_namespace r) ∧ br_name r = pi_name identity.
Proof.
  unfold resolve_pod_reference, pod_place. intros (identity & Hid & H')%bind_Ok.
  apply bind_Ok in H' as (reference & Hr & H'). apply bind_Ok in H' as (? & Hn%passed & [= <-]).
  exists identity. rewrite Hid. split_and!; try done. destruct (ee_backend_ref e) as [v|]; [|by injection Hr as <-].
  exists (br_uid reference). rewrite Hr, <- Hn. by destruct reference.
Qed.

(** How an ensured environment ends. *)
Lemma ensure_pod_ends fuel e root meta w :
  ends (ensure_pod config fuel e root meta) w
    (λ o w', ∃ identity ns expected, pod_place e identity ns
       ∧ owned_pod (with_namespace config ns) e root meta = Ok expected
       ∧ match o with
         | Some p => provided identity ns (Some (op_manifest expected)) (kube_calls w) expected p w'
         | None => pod_lawful identity ns (Some (op_manifest expected)) (kube_calls w) w'
         end)
    (λ w', kube_calls w' = kube_calls w
       ∨ ∃ identity ns expected, pod_place e identity ns
           ∧ owned_pod (with_namespace config ns) e root meta = Ok expected
           ∧ pod_lawful identity ns (Some (op_manifest expected)) (kube_calls w) w').
Proof.
  unfold ensure_pod. apply ends_bind, ends_lift. destruct (ensure_backend e) as [[]|]; [|by left].
  apply ends_bind, ends_lift. destruct (validate_active_environment e) as [[]|]; [|by left].
  apply ends_bind, ends_lift. destruct (resolve_pod_reference e _) as [persisted|] eqn:Hp; [|by left].
  apply resolve_Ok in Hp as (identity & Hplace & Hname).
  apply ends_bind, ends_lift. destruct (owned_pod _ _ _ _) as [expected|] eqn:Ho; [|by left].
  apply ends_bind, ends_lift. destruct (validate_target _ _ _) as [[]|]; [|by left].
  apply ends_bind, ends_observe.
  destruct (owned_pod_parts _ _ _ _ _ Ho) as (resources & sub & metasub & Hid & Hn & _ & _ & _ & _ & _ & Hns & _).
  destruct Hplace as [Hi Hplace]. assert (op_identity expected = identity) as Heq by (rewrite Hi in Hid; by injection Hid).
  eapply ends_mono; [apply (pod_rounds_ends identity (br_namespace persisted) (Some (op_manifest expected)) (kube_calls w))| |].
  - done.
  - by rewrite Hn, Heq.
  - done.
  - done.
  - exists []. split; [symmetry; apply app_nil_r|apply pod_follows_nil].
  - intros o w' Hw. by exists identity, (br_namespace persisted), expected.
  - intros w' Hw. right. by exists identity, (br_namespace persisted), expected.
Qed.

(** What a release that succeeds last saw. *)
Definition replaced_or_gone (identity : OwnedPodIdentity) (ns : string) (found : option Pod) : Prop :=
  found = None ∨ ∃ pod uid, pod_of identity ns pod ∧ pd_uid pod = Some uid ∧ uid_is_gone found uid = Ok true.

Lemma release_pod_ends fuel e w :
  ends (release_pod config fuel e) w
    (λ o w', ∃ identity ns, pod_place e identity ns
       ∧ match o with
         | Some _ => ∃ new found, pod_so_far identity ns None (kube_calls w) (new ++ [GotPod ns (pi_name identity) (Ok found)]) w'
                       ∧ replaced_or_gone identity ns found
         | None => pod_lawful identity ns None (kube_calls w) w'
         end)
    (λ w', kube_calls w' = kube_calls w
       ∨ ∃ identity ns, pod_place e identity ns ∧ pod_lawful identity ns None (kube_calls w) w').
Proof.
  unfold release_pod. apply ends_bind, ends_lift. destruct (ensure_backend e) as [[]|]; [|by left].
  apply ends_bind, ends_lift. destruct (pod_identity e) as [identity|] eqn:Hi; [|by left].
  apply ends_bind, ends_lift. destruct (resolve_pod_reference e _) as [persisted|] eqn:Hp; [|by left].
  apply resolve_Ok in Hp as (identity' & Hplace & Hname).
  assert (identity' = identity) as -> by (destruct Hplace as [Hi' _]; congruence).
  apply ends_bind, ends_observe. rewrite Hname. set (ns := br_namespace persisted) in *.
  assert (pod_so_far identity ns None (kube_calls w) [] w) as Hs by (split; [symmetry; apply app_nil_r|apply pod_follows_nil]).
  apply ends_bind. eapply ends_mono; [by apply get_ends| |intros w' Hw; right; by exists identity, ns]. intros [pod|] w1 H1'.
  2: { apply ends_done. exists identity, ns. split; [done|]. exists [], None. split; [done|by left]. }
  apply ends_bind, ends_lift. destruct (validate_pod_identity _ _ _) as [[]|] eqn:Hv; [|right; exists identity, ns; split; [done|by eexists]].
  apply ends_bind, ends_lift. destruct (required_uid pod) as [uid|] eqn:Hu; [|right; exists identity, ns; split; [done|by eexists]].
  apply pod_identity_valid in Hv. apply required_uid_Ok in Hu as [Hu _].
  eapply ends_mono; [eapply dispose_ends; [exact H1'|seen|done..]| |intros w' Hw; right; by exists identity, ns].
  intros o w2 H2'. exists identity, ns. split; [done|]. destruct o; [|done]. destruct H2' as (new & c & Hn & found & -> & Hg).
  exists new, found. split; [done|]. right. by exists pod, uid.
Qed.

(** The last answer of the API server was about a ready Pod, confined as the
    configuration says, that the reported reference names. *)
Definition last_pod_confined (e : ExecutionEnvironmentRecord) (root meta : string) (p : Provisioned) (w : W) : Prop :=
  ∃ identity ns pod uid ip, pod_place e identity ns
    ∧ last (kube_calls w) = Some (GotPod ns (pi_name identity) (Ok (Some pod)))
    ∧ pod_of identity ns pod ∧ pd_uid pod = Some uid ∧ is_blank uid = false
    ∧ pod_confined (with_namespace config ns) root meta pod
    ∧ pd_deletion_timestamp pod = None ∧ pod_is_terminal pod = false ∧ pod_is_ready pod = true ∧ pod_ip pod = Ok ip
    ∧ p = mkProvisioned (encode_reference (mkReference ns (pi_name identity) (Some uid))) (pod_ip_url ip).

Lemma provided_confined fuel e root meta w p w' :
  ensure_pod config fuel e root meta w = (Ok (Some p), w') → last_pod_confined e root meta p w'.
Proof.
  intros Hr. eapply ends_run in Hr; [|apply ensure_pod_ends].
  destruct Hr as (identity & ns & expected & Hplace & Ho & (new & pod & uid & ip & [Hc _] & Hpod & Hu & Hb & Hv & Hrest)).
  exists identity, ns, pod, uid, ip. split; [done|]. split_and!; try naive_solver.
  - by rewrite Hc, app_assoc, last_snoc.
  - by eapply accepted_pod_confined.
Qed.


(** C37: No Pod of anybody else is touched.  Whatever is answered and whatever comes
    of it, ensuring an environment asks only about the Pod of its name, creates only
    the manifest of its generation, and deletes only by the UID of a Pod seen before
    to carry its name and annotation; releasing it creates nothing and deletes in
    the same way, and when it succeeds the last answer showed no Pod of the name or
    one that took the place of the environment's. *)
Theorem only_own_pods fuel e w :
  (∀ root meta r w', ensure_pod config fuel e root meta w = (r, w') →
     kube_calls w' = kube_calls w
     ∨ ∃ identity ns expected new, pod_place e identity ns ∧ owned_pod (with_namespace config ns) e root meta = Ok expected
         ∧ kube_calls w' = kube_calls w ++ new ∧ pod_follows identity ns (Some (op_manifest expected)) new)
  ∧ ∀ r w', release_pod config fuel e w = (r, w') →
      kube_calls w' = kube_calls w
      ∨ ∃ identity ns new, pod_place e identity ns ∧ kube_calls w' = kube_calls w ++ new ∧ pod_follows identity ns None new
          ∧ (r = Ok (Some tt) → ∃ found, last new = Some (GotPod ns (pi_name identity) (Ok found))
               ∧ replaced_or_gone identity ns found).
Proof.
  split.
  - intros root meta r w' Hr. eapply ends_run in Hr; [|apply ensure_pod_ends].
    destruct r as [o|]; [|destruct Hr as [Hr|(identity & ns & expected & Hp & Ho & new & Hc & Hf)]; [by left|]].
    + destruct Hr as (identity & ns & expected & Hp & Ho & Hr). right. exists identity, ns, expected.
      destruct o as [p|]; [destruct Hr as (new & pod & uid & ip & [Hc Hf] & _)|destruct Hr as [new [Hc Hf]]]; by eexists.
    + right. by exists identity, ns, expected, new.
  - intros r w' Hr. eapply ends_run in Hr; [|apply release_pod_ends].
    destruct r as [[[]|]|]; [| |destruct Hr as [Hr|Hr]; [by left|]]; right.
    + destruct Hr as (identity & ns & Hp & new & found & [Hc Hf] & Hg). exists identity, ns. eexists.
      split_and!; [done|exact Hc|done|]. intros _. exists found. by rewrite last_snoc.
    + destruct Hr as (identity & ns & Hp & new & Hc & Hf). by exists identity, ns, new.
    + destruct Hr as (identity & ns & Hp & new & Hc & Hf). by exists identity, ns, new.
Qed.

(** C38: Every wait for a Pod ends.  With more rounds than the readiness timeout has
    nanoseconds, neither ensuring nor releasing an environment ever runs out of them:
    each returns a Pod, a success or an error, because asking takes time, no round
    starts after the deadline, and neither does a round of a wait inside it. *)
Theorem pod_waits_end fuel e w :
  0 ≤ kc_readiness_timeout config < Z.of_nat fuel →
  (∀ root meta w', ensure_pod config fuel e root meta w ≠ (Ok None, w'))
  ∧ ∀ w', release_pod config fuel e w ≠ (Ok None, w').
Proof.
  intros Hf. destruct fuel as [|f]; [lia|]. split.
  - intros root meta w' Hr. unfold ensure_pod in Hr. do 5 (apply bind_cases in Hr as [(? & [=] & _)|(? & ? & [= _ <-] & Hr)]).
    apply bind_cases in Hr as [(? & [=] & _)|(now & w1 & [= <- <-] & Hr)]. apply pod_rounds_time in Hr. rewrite Nat.min_id in Hr. lia.
  - intros w' Hr. unfold release_pod in Hr. do 3 (apply bind_cases in Hr as [(? & [=] & _)|(? & ? & [= _ <-] & Hr)]).
    apply bind_cases in Hr as [(? & [=] & _)|(now & w1 & [= <- <-] & Hr)].
    apply bind_cases in Hr as [(? & [=] & _)|(found & w1 & Hg%get_Ok & Hr)]. destruct found as [pod|]; [|done].
    do 2 (apply bind_cases in Hr as [(? & [=] & _)|(? & ? & [= _ <-] & Hr)]). apply dispose_rounds in Hr. lia.
Qed.
End environments.

(** A UUID in its simple form has hexadecimal digits. *)
Class UuidLaws `{UuidText} : Prop := uuid_digits s u : uuid_simple s = Ok u → all_chars wire_char u = true.

Lemma wire_free s : all_chars wire_char s = true → free_of "/" s.
Proof.
  induction s as [|c s IH]; [done|]. cbn [all_chars]. intros [Hc Hs]%andb_true_iff. apply free_cons. split; [by intros ->|auto].
Qed.

Lemma pretty_chars (n : Z) : all_chars wire_char (pretty n) = true.
Proof.
  assert (∀ m : N, all_chars wire_char (pretty m) = true) as Hn.
  { intros m. unfold pretty, pretty_N. case_decide; [done|by apply pretty_N_go_chars]. }
  destruct n as [|q|q]; [done|apply (Hn (N.pos q))|]. change (pretty (Z.neg q)) with ("-" +:+ pretty (N.pos q)).
  by rewrite all_chars_app, Hn.
Qed.

Lemma pod_name_chars `{UuidLaws} e identity :
  pod_identity e = Ok identity → pi_name identity ≠ EmptyString ∧ free_of "/" (pi_name identity).
Proof.
  unfold pod_identity. destruct (uuid_simple _) as [u|] eqn:Hu; [|done]. intros (? & _ & [= <-])%bind_Ok. split; [done|].
  apply wire_free. cbn [pi_name]. rewrite !all_chars_app, (uuid_digits _ _ Hu), pretty_chars. done.
Qed.

(** The place of a Pod does not move.  Once the locator that is derived before
    a Pod is created, or the reference of a provided Pod, is stored with an
    environment, every worker finds the same namespace and name in it, whatever
    namespace it is configured with, and derives the same locator again. *)
Theorem locator_stable `{UuidLaws} config e locator :
  kubernetes_durable_locator config e = Ok (Some locator) →
  kc_namespace config ≠ EmptyString → free_of "/" (kc_namespace config) →
  ∃ identity ns, pod_place config e identity ns
    ∧ locator = encode_reference (mkReference ns (pi_name identity) None)
    ∧ ∀ uid config', uid ≠ Some EmptyString → (∀ u, uid = Some u → free_of "/" u) →
        let stored := with_backend_ref (encode_reference (mkReference ns (pi_name identity) uid)) e in
        resolve_pod_reference stored (kc_namespace config') = Ok (mkReference ns (pi_name identity) uid)
        ∧ kubernetes_durable_locator config' stored = Ok (Some locator).
Proof.
  unfold kubernetes_durable_locator. intros Hl Hne Hfree.
  apply bind_Ok in Hl as ([] & Hb & Hl). apply bind_Ok in Hl as (reference & Hr & [= <-]).
  apply resolve_Ok in Hr as (identity & Hplace & Hname). exists identity, (br_namespace reference).
  pose proof Hplace as [Hid Hns]. apply pod_name_chars in Hid as [Hn1 Hn2].
  assert (br_namespace reference ≠ EmptyString ∧ free_of "/" (br_namespace reference)) as [Hs1 Hs2].
  { destruct (ee_backend_ref e) as [v|]; [|by rewrite Hns]. destruct Hns as [uid Hv].
    by apply parse_reference_spec in Hv as [(? & _ & _ & ? & _) _]. }
  split; [done|]. split; [unfold reference_locator; by rewrite Hname|].
  intros uid config' Hu Hfu. set (stored := with_backend_ref _ e).
  assert (resolve_pod_reference stored (kc_namespace config') = Ok (mkReference (br_namespace reference) (pi_name identity) uid)) as Hres.
  { unfold resolve_pod_reference. change (pod_identity stored) with (pod_identity e). rewrite (proj1 Hplace). cbn.
    rewrite (proj2 (parse_reference_spec _ (mkReference (br_namespace reference) (pi_name identity) uid))) by done.
    cbn. unfold validate_name. cbn. by rewrite bool_decide_eq_true_2. }
  split; [done|]. change (ensure_backend stored) with (ensure_backend e). rewrite Hb, Hres. cbn.
  unfold reference_locator. by rewrite Hname.
Qed.

(** ** A small cluster *)

Record Cluster : Type := mkCluster {
  cl_pods : list Pod;
  cl_calls : list KubeCall;
  cl_clock : Z;
}.

Definition pod_at (namespace name : string) (p : Pod) : bool :=
  bool_decide (pd_namespace p = Some namespace) && bool_decide (pd_name p = Some name).

(** The next Pod gets a fresh UID and is ready at once. *)
Definition toy_pod (uid : string) (m : Pod) : Pod :=
  mkPod (pd_name m) (pd_namespace m) (Some uid) (pd_labels m) (pd_annotations m) None (pd_spec m)
    (Some (mkPodStatus (Some "Running") (Some [("Ready", "True")]) (Some "10.0.0.7"))).

Definition cluster_call {A : Type} (call : result KubeError A → KubeCall) (p : list Pod → result KubeError A * list Pod) :
    proc Cluster KubeError A :=
  λ w, let '(r, pods) := p (cl_pods w) in (r, mkCluster pods (cl_calls w ++ [call r]) (cl_clock w + 1)).

#[export] Instance toy_kube : KubeApi Cluster := {|
  get_opt namespace name := cluster_call (GotPod namespace name) (λ l, (Ok (List.find (pod_at namespace name) l), l));
  create_pod namespace m := cluster_call (CreatedPod namespace m) (λ l,
    let created := toy_pod ("uid-" +:+ pretty (length l)) m in (Ok created, l ++ [created]));
  delete_pod namespace name uid := cluster_call (DeletedPod namespace name uid) (λ l,
    (Ok tt, List.filter (λ p, negb (pod_at namespace name p && bool_decide (pd_uid p = Some uid))) l));
|}.

#[export] Instance toy_cluster_timers : Timers Cluster := {|
  instant := cl_clock;
  timeout_at E A d p := λ w, let '(r, w') := p w in if d <? cl_clock w' then (Err tt, w) else (Ok r, w');
  sleep_until t := λ w, (Ok tt, mkCluster (cl_pods w) (cl_calls w) (Z.max t (cl_clock w)));
  tcp_connect _ := λ w, (Ok tt, w);
|}.

#[export] Instance toy_kube_text : KubeText := {|
  kube_error_text e := match e with KubeApiError _ m | OtherKubeError m => m end |}.

#[export] Instance toy_uuid : UuidText := {| uuid_simple s := if all_chars wire_char s then Ok s else Err "invalid UUID" |}.

#[export] Instance toy_uuid_laws : UuidLaws.
Proof. intros s u. cbn. case_match; naive_solver. Qed.

#[export] Instance toy_cluster_timer_laws : TimerLaws Cluster.
Proof.
  split.
  - intros E A d p w r w'. cbn. destruct (p w) as [q w1]. case_match; naive_solver.
  - intros E A d p w w' R HR Hp. cbn. destruct (p w) as [q w1]. case_match; naive_solver.
  - intros t w r w' [= <- <-]. cbn. lia.
  - intros d t w r w' Hd Ht. cbn. destruct (Z.ltb_spec d (Z.max t (cl_clock w))); [done|lia].
  - by intros address w r w' [= <- <-].
Qed.

Lemma cluster_called {A : Type} (call : result KubeError A → KubeCall) p w r w' :
  cluster_call call p w = (r, w') → cl_calls w' = cl_calls w ++ [call r] ∧ cl_clock w < cl_clock w'.
Proof. unfold cluster_call. destruct (p _) as [q l]. intros [= <- <-]. cbn. split; [done|lia]. Qed.

#[export] Instance toy_kube_trace : KubeTrace Cluster.
Proof.
  refine {| kube_calls := cl_calls |}.
  - intros ns n w r w' Hr. exact (cluster_called (GotPod ns n) _ _ _ _ Hr).
  - intros ns m w r w' Hr. destruct (cluster_called (CreatedPod ns m) _ _ _ _ Hr) as [Hc Ht]. split; [done|cbn in *; lia].
  - intros ns n u w r w' Hr. destruct (cluster_called (DeletedPod ns n u) _ _ _ _ Hr) as [Hc Ht]. split; [done|cbn in *; lia].
  - by intros address w r w' [= <- <-].
  - by intros t w r w' [= <- <-].
Defined.

Definition demo_kubernetes (timeout : Z) : KubernetesExecutionEnvironmentConfig :=
  mkKubernetesConfig "factory" "registry.example/org/image@sha256:0123456789abcdef0123456789abcdef0123456789abcdef0123456789abcdef"
    "workspaces" "/workspaces" None None (Some 1000) (Some 1000) Manage timeout
    (mkResourceConfig (Some 500) (Some 2048) (Some 2000) (Some 4096) None 0).

Definition demo_pod_environment : ExecutionEnvironmentRecord :=
  mkExecutionEnvironmentRecord "job-1" "0123abcd" "kubernetes" 2 DesiredActive EnvProvisioning None None None 0 0.

(** The cluster has a Pod of the environment without a specification. *)
Definition stale_cluster : Cluster :=
  mkCluster [mkPod (Some "factory-0123abcd-g2") (Some "factory") (Some "uid-old") None
    (Some {[ IDENTITY_ANNOTATION := "job-1/0123abcd/2" ]}) None None None] [] 0.

Definition demo_ensure : result Failure (option Provisioned) * Cluster :=
  ensure_pod (demo_kubernetes 1000000000) 8 demo_pod_environment demo_root demo_metadata stale_cluster.


Lemma only_own_pods_witness :
  (∃ identity ns expected new, pod_place (demo_kubernetes 1000000000) demo_pod_environment identity ns
     ∧ kube_calls demo_ensure.2 = new ∧ pod_follows identity ns (Some (op_manifest expected)) new)
  ∧ length (kube_calls demo_ensure.2) = 6%nat.
Proof.
  split; [|by vm_compute].
  destruct (only_own_pods (demo_kubernetes 1000000000) 8 demo_pod_environment stale_cluster) as [H _].
  destruct (H demo_root demo_metadata demo_ensure.1 demo_ensure.2) as [Hq|(identity & ns & expected & new & Hp & _ & Hc & Hf)].
  - apply surjective_pairing.
  - by vm_compute in Hq.
  - by exists identity, ns, expected, new.
Defined.

Lemma pod_waits_end_witness :
  ∃ r w', ensure_pod (demo_kubernetes 3) 4 demo_pod_environment demo_root demo_metadata stale_cluster = (r, w') ∧ r ≠ Ok None.
Proof.
  eexists _, _. split; [apply surjective_pairing|]. intros Hr.
  refine (proj1 (pod_waits_end (demo_kubernetes 3) 4 demo_pod_environment stale_cluster _) demo_root demo_metadata _ _); [cbn; lia|].
  rewrite <- Hr. apply surjective_pairing.
Defined.

Lemma locator_stable_witness :
  kubernetes_durable_locator (demo_kubernetes 3) demo_pod_environment = Ok (Some "factory/factory-0123abcd-g2")
  ∧ ∃ identity ns, pod_place (demo_kubernetes 3) demo_pod_environment identity ns
      ∧ "factory/factory-0123abcd-g2" = encode_reference (mkReference ns (pi_name identity) None).
Proof.
  assert (kubernetes_durable_locator (demo_kubernetes 3) demo_pod_environment = Ok (Some "factory/factory-0123abcd-g2")) as E
    by (by vm_compute).
  split; [exact E|].
  destruct (locator_stable (demo_kubernetes 3) demo_pod_environment _ E) as (identity & ns & Hp & Hl & _); [done|by vm_compute|].
  by exists identity, ns.
Defined.
