(* ===== verification/Context.v ===== *)
(** * The state shown to the agent

    [extension/src/context.rs]: before a turn the agent's state is written into the
    prompt, cut down until it fits.  JSON text is that of [JsonCodec], for which the
    order in which a structure's fields are written does not matter here. *)

From S2P Require Import Prelude Domain Serde ProviderTools AgentState AgentTools StateDocument ResponseStream ProviderToolsLaws.
From Stdlib Require Import ZArith Ascii String.
From stdpp Require Import base gmap strings list option pretty sorting.

#[local] Open Scope string_scope.
#[local] Open Scope Z_scope.
#[local] Open Scope list_scope.

Definition MAX_CONTEXT_CHARS : Z := 32768.
Definition MAX_CONTEXT_FIELD_CHARS : Z := 2000.
Definition MAX_CONTEXT_REMEDIATIONS : Z := 20.
Definition MAX_CONTEXT_SUBAGENT_ACTIVITIES : Z := 24.
Definition MIN_CONTEXT_ITEMS : Z := 4.
Definition MIN_CONTEXT_FIELD_CHARS : Z := 128.

(** ** Cutting texts *)

(** [chars().take(n)]: up to the next code point after [n]. *)
Fixpoint take_chars (n : nat) (s : string) : string :=
  match s with
  | EmptyString => EmptyString
  | String c r =>
      if starts_char c then match n with O => EmptyString | S m => String c (take_chars m r) end
      else String c (take_chars n r)
  end.

Definition truncate_chars (value : string) (limit : Z) : string :=
  let prefix := take_chars (Z.to_nat limit) value in
  if chars_count value <=? limit then prefix
  else take_chars (Z.to_nat (limit - 3)) value +:+ take_chars (Z.to_nat (Z.min 3 limit)) "...".

Definition len {A : Type} (l : list A) : Z := Z.of_nat (length l).

(** [saturating_sub]. *)
Definition minus (a b : Z) : Z := Z.max 0 (a - b).

(** [iter().take(limit)] and [truncate]. *)
Definition take_items {A : Type} (limit : Z) (l : list A) : list A := take (Z.to_nat limit) l.

(** ** Work units *)

(** Selected indices are filled up from the end, up to the limit. *)
Fixpoint fill_from_end (n : nat) (limit : Z) (selected : list nat) : list nat :=
  match n with
  | O => selected
  | S i =>
      if len selected =? limit then selected
      else fill_from_end i limit (if bool_decide (i ∈ selected) then selected else selected ++ [i])
  end.

Definition sort_indices : list nat → list nat := merge_sort Nat.le.

Definition bounded_unit (limit text_limit : Z) (u : FactoryWorkUnit) : FactoryWorkUnit :=
  mkFactoryWorkUnit (truncate_chars (wu_id u) MAX_IDENTIFIER_CHARS) (truncate_chars (wu_title u) text_limit)
    (truncate_chars (wu_description u) text_limit)
    ((λ d, truncate_chars d MAX_IDENTIFIER_CHARS) <$> take_items limit (wu_depends_on u)) (wu_status u)
    ((λ s, truncate_chars s text_limit) <$> wu_progress_summary u).

(** The indices of the units that are not completed. *)
Definition open_indices (units : list FactoryWorkUnit) : list nat :=
  List.filter (λ i, match units !! i with Some u => negb (is_completed u) | None => false end) (seq 0 (length units)).

Definition selected_units (units : list FactoryWorkUnit) (limit : Z) : list nat :=
  sort_indices (fill_from_end (length units) limit (take_items limit (open_indices units))).

Definition bounded_work_units (units : list FactoryWorkUnit) (limit text_limit : Z) : list FactoryWorkUnit :=
  bounded_unit limit text_limit <$> omap (λ i, units !! i) (selected_units units limit).

(** ** Reviews *)

Definition bounded_optional_id (value : option string) : option string :=
  (λ v, truncate_chars v MAX_IDENTIFIER_CHARS) <$> value.

Definition bounded_finding (text_limit : Z) (f : FactoryReviewFinding) : FactoryReviewFinding :=
  mkFactoryReviewFinding (truncate_chars (rf_id f) MAX_IDENTIFIER_CHARS) (rf_severity f)
    (truncate_chars (rf_unit_id f) MAX_IDENTIFIER_CHARS) (truncate_chars (rf_title f) text_limit)
    (truncate_chars (rf_evidence f) text_limit) (truncate_chars (rf_recommendation f) text_limit).

Definition bounded_review (review : option FactoryReviewReport) (finding_limit text_limit : Z) :
    option FactoryReviewReport * Z :=
  match review with
  | None => (None, 0)
  | Some r =>
      (Some (mkFactoryReviewReport (rr_generation r) (bounded_optional_id (rr_recorded_turn_id r))
               (bounded_optional_id (rr_recorded_thread_id r)) (bounded_optional_id (rr_recorded_parent_thread_id r))
               (bounded_optional_id (rr_recorded_parent_turn_id r)) (bounded_optional_id (rr_recorded_subagent_kind r))
               (rr_verdict r) (truncate_chars (rr_summary r) text_limit)
               (bounded_finding text_limit <$> take_items finding_limit (rr_findings r))),
       minus (len (rr_findings r)) finding_limit)
  end.

Definition bounded_remediation (text_limit : Z) (r : FactoryRemediationRecord) : FactoryRemediationRecord :=
  mkFactoryRemediationRecord (truncate_chars (rem_finding_id r) MAX_IDENTIFIER_CHARS) (rem_disposition r)
    (truncate_chars (rem_rationale r) text_limit) (truncate_chars (rem_unit_id r) MAX_IDENTIFIER_CHARS).

(** ** Sub-agents *)

Definition bounded_subagent_history (history : option FactorySubagentHistory) : option FactorySubagentHistory :=
  (λ h, mkFactorySubagentHistory (sh_source h) (truncate_chars (sh_event_kind h) MAX_IDENTIFIER_CHARS) (sh_latest_sequence h))
  <$> history.

Definition bounded_agent (text_limit : Z) (a : FactorySubagentState) : FactorySubagentState :=
  mkFactorySubagentState (truncate_chars (ss_thread_id a) MAX_IDENTIFIER_CHARS) (ss_status a) (ss_terminal a)
    ((λ m, truncate_chars m text_limit) <$> ss_message a).

Definition bounded_activity (nested_limit text_limit : Z) (a : FactorySubagentActivity) : FactorySubagentActivity :=
  mkFactorySubagentActivity (truncate_chars (sa_call_id a) MAX_IDENTIFIER_CHARS) (truncate_chars (sa_turn_id a) MAX_IDENTIFIER_CHARS)
    (truncate_chars (sa_sender_thread_id a) MAX_IDENTIFIER_CHARS)
    ((λ t, truncate_chars t MAX_IDENTIFIER_CHARS) <$> take_items nested_limit (sa_receiver_thread_ids a)) (sa_tool a)
    ((λ p, truncate_chars p text_limit) <$> sa_prompt a) (sa_status a)
    (bounded_agent text_limit <$> take_items nested_limit (sa_agents a))
    (truncate_chars (sa_created_at a) MAX_IDENTIFIER_CHARS) (truncate_chars (sa_updated_at a) MAX_IDENTIFIER_CHARS).

(** [any(|id| seen.insert(id))] stops at the first identifier that is new. *)
Fixpoint insert_new (ids : list string) (seen : gset string) : bool * gset string :=
  match ids with
  | [] => (false, seen)
  | id :: rest => if decide (id ∈ seen) then insert_new rest seen else (true, {[ id ]} ∪ seen)
  end.

(** From the last activity on, those of an agent not seen yet. *)
Fixpoint latest_activities (n : nat) (activities : list FactorySubagentActivity) (limit : Z) (seen : gset string)
    (selected : list nat) : list nat :=
  match n with
  | O => selected
  | S i =>
      match activities !! i with
      | Some activity =>
          let '(current, seen) := insert_new (sa_receiver_thread_ids activity) seen in
          if current then
            let selected := selected ++ [i] in
            if len selected =? limit then selected else latest_activities i activities limit seen selected
          else latest_activities i activities limit seen selected
      | None => latest_activities i activities limit seen selected
      end
  end.

Definition selected_activities (activities : list FactorySubagentActivity) (limit : Z) : list nat :=
  sort_indices (fill_from_end (length activities) limit (latest_activities (length activities) activities limit ∅ [])).

Definition bounded_subagents (activities : list FactorySubagentActivity) (limit text_limit : Z) : list FactorySubagentActivity :=
  bounded_activity limit text_limit <$> omap (λ i, activities !! i) (selected_activities activities limit).

(** ** What is shown *)

Record FactoryContextState : Type := mkContextState {
  cs_revision : Z;
  cs_work_units : list FactoryWorkUnit;
  cs_review : option FactoryReviewReport;
  cs_remediations : list FactoryRemediationRecord;
  cs_subagents : list FactorySubagentActivity;
  cs_subagent_history : option FactorySubagentHistory;
  cs_omitted_work_units : Z;
  cs_omitted_findings : Z;
  cs_omitted_remediations : Z;
  cs_omitted_subagent_activities : Z;
  cs_review_omitted : bool;
}.

Definition projected_context_state (state : FactoryState) (item_limit text_limit : Z) : FactoryContextState :=
  let work_units := bounded_work_units (fs_work_units state) item_limit text_limit in
  let '(review, omitted_findings) := bounded_review (fs_review state) (Z.min item_limit MAX_FINDINGS) text_limit in
  let remediation_limit := Z.min item_limit MAX_CONTEXT_REMEDIATIONS in
  let remediation_start := minus (len (fs_remediations state)) remediation_limit in
  let remediations := bounded_remediation text_limit <$> drop (Z.to_nat remediation_start) (fs_remediations state) in
  let subagents := bounded_subagents (fs_subagents state) (Z.min item_limit MAX_CONTEXT_SUBAGENT_ACTIVITIES) text_limit in
  mkContextState (fs_revision state) work_units review remediations subagents
    (bounded_subagent_history (fs_subagent_history state)) (minus (len (fs_work_units state)) (len work_units)) omitted_findings
    remediation_start (minus (len (fs_subagents state)) (len subagents)) false.

Definition minimal_context_state (state : FactoryState) : FactoryContextState :=
  mkContextState (fs_revision state) [] None [] [] (bounded_subagent_history (fs_subagent_history state))
    (len (fs_work_units state)) (match fs_review state with Some r => len (rr_findings r) | None => 0 end)
    (len (fs_remediations state)) (len (fs_subagents state)) (bool_decide (is_Some (fs_review state))).

Definition ser_work_unit (u : FactoryWorkUnit) : Value := object_of
  [("id", Some (ser (wu_id u))); ("title", Some (ser (wu_title u))); ("description", Some (ser (wu_description u)));
   ("depends_on", Some (ser (wu_depends_on u))); ("status", Some (ser (wu_status u)));
   ("progress_summary", Some (ser (wu_progress_summary u)))].

Definition ser_context_state (c : FactoryContextState) : Value := object_of
  [("revision", Some (ser_u64 (cs_revision c))); ("work_units", Some (Array (ser_work_unit <$> cs_work_units c)));
   ("review", Some (ser (cs_review c))); ("remediations", Some (ser (cs_remediations c)));
   ("subagents", Some (ser (cs_subagents c))); ("subagent_history", Some (ser (cs_subagent_history c)));
   ("omitted_work_units", Some (ser_u64 (cs_omitted_work_units c))); ("omitted_findings", Some (ser_u64 (cs_omitted_findings c)));
   ("omitted_remediations", Some (ser_u64 (cs_omitted_remediations c)));
   ("omitted_subagent_activities", Some (ser_u64 (cs_omitted_subagent_activities c)));
   ("review_omitted", Some (ser (cs_review_omitted c)))].

Definition ser_context_snapshot (thread_id durability : string) (c : FactoryContextState) : Value := object_of
  [("source", Some (ser "factory-native-extension")); ("thread_id", Some (ser thread_id)); ("durability", Some (ser durability));
   ("state", Some (ser_context_state c))].

Section context.
Context `{JsonCodec}.

Definition context_body (thread_id durability : string) (c : FactoryContextState) : string :=
  json_text (ser_context_snapshot thread_id durability c).

Definition minimal_context_body (thread_id durability : string) (state : FactoryState) : string :=
  context_body thread_id durability (minimal_context_state state).

(** Texts are cut shorter first, then fewer items are shown; [None] when the
    rounds did not suffice. *)
Fixpoint context_rounds (fuel : nat) (thread_id durability : string) (state : FactoryState) (item_limit text_limit : Z) :
    option string :=
  match fuel with
  | O => None
  | S n =>
      let body := context_body thread_id durability (projected_context_state state item_limit text_limit) in
      if chars_count body <=? MAX_CONTEXT_CHARS then Some body
      else if MIN_CONTEXT_FIELD_CHARS <? text_limit then
        context_rounds n thread_id durability state item_limit (Z.max (text_limit / 2) MIN_CONTEXT_FIELD_CHARS)
      else if MIN_CONTEXT_ITEMS <? item_limit then
        context_rounds n thread_id durability state (Z.max (item_limit / 2) MIN_CONTEXT_ITEMS) text_limit
      else Some (minimal_context_body thread_id durability state)
  end.

Definition bounded_context_body (thread_id durability : string) (state : FactoryState) : string :=
  default EmptyString (context_rounds 8 thread_id durability state MAX_WORK_UNITS MAX_CONTEXT_FIELD_CHARS).
End context.

(** ** The contribution *)

Inductive FactoryStateDurability : Type := ProcessMemory | Durable.

Definition context_preamble : string :=
  "The following Factory state is the authoritative current state for this Codex thread. Use Factory tools to change it. Delegate independent runnable work units through native Codex subagents, avoid duplicate assignments, and reconcile child results into Factory progress, review, and remediation before closing them.".

(** [contribute_turn_context]: the fragments for a thread with the scope, the state
    object and the durability it was given; a fragment is the parts of its text. *)
Definition contribute_turn_context {W : Type} `{FactoryStateBackend W, JsonCodec} (scope : FactoryThreadScope)
    (thread : option string) (durability : FactoryStateDurability) : AgentWorld W → list Message * AgentWorld W := λ w,
  match scope, thread with
  | ScopeSubagent, _ | _, None => ([], w)
  | _, Some key =>
      match snapshot key w with
      | (Ok state, w') =>
          let body := bounded_context_body key (match durability with ProcessMemory => "process_memory" | Durable => "durable" end) state in
          ([[Lit context_preamble; Lit nl; Lit "<factory_state>"; Display body; Lit "</factory_state>"]], w')
      | (Err error, w') => ([[Lit "<factory_state_error>"] ++ error ++ [Lit "</factory_state_error>"]], w')
      end
  end.

(** * What the agent sees

    The text always fits, and what it leaves out it says it leaves out. *)

(** ** Counting characters *)

Lemma chars_count_cons c s : chars_count (String c s) = (if starts_char c then 1 else 0) + chars_count s.
Proof. unfold chars_count. cbn. destruct (starts_char c); cbn; lia. Qed.

Lemma chars_count_app s t : chars_count (s +:+ t) = chars_count s + chars_count t.
Proof.
  induction s as [|c s IH]; [done|]. change (String c s +:+ t) with (String c (s +:+ t)). rewrite !chars_count_cons, IH. lia.
Qed.

Lemma chars_count_nonneg s : 0 ≤ chars_count s.
Proof. unfold chars_count. lia. Qed.

Lemma take_chars_count n s : chars_count (take_chars n s) ≤ Z.of_nat n.
Proof.
  revert n. induction s as [|c s IH]; intros n; cbn [take_chars]; [unfold chars_count; cbn; lia|].
  destruct (starts_char c) eqn:Hc; [destruct n as [|m]; [unfold chars_count; cbn; lia|]|];
    rewrite chars_count_cons, Hc; [specialize (IH m)|specialize (IH n)]; lia.
Qed.

Lemma truncated s limit : 0 ≤ limit → chars_count (truncate_chars s limit) ≤ limit.
Proof.
  intros Hl. unfold truncate_chars. destruct (Z.leb_spec (chars_count s) limit).
  - pose proof (take_chars_count (Z.to_nat limit) s). lia.
  - rewrite chars_count_app. pose proof (take_chars_count (Z.to_nat (limit - 3)) s).
    pose proof (take_chars_count (Z.to_nat (Z.min 3 limit)) "..."). lia.
Qed.

(** ** The size of JSON text

    A character of a string is written with six at most, everything else as it
    is. *)

Definition number_text (n : Number) : string :=
  match n with PosInt n | NegInt n => pretty n | Float repr => repr end.

Fixpoint weight (v : Value) : Z :=
  match v with
  | Null => 4
  | Bool _ => 5
  | Num n => chars_count (number_text n)
  | Str s => 6 * chars_count s + 2
  | Array l => fold_right (λ v n, weight v + 1 + n) 2 l
  | Object f => fold_right (λ kv n, 6 * chars_count kv.1 + 3 + (weight kv.2 + 1) + n) 2 f
  end.

Class JsonSize `{JsonCodec} : Prop := json_size v : chars_count (json_text v) ≤ weight v.

(** The weight of an object by its fields. *)
Definition entry_weight (kv : string * Value) : Z := 6 * chars_count kv.1 + 4 + weight kv.2.

Lemma weight_nonneg v : 0 ≤ weight v.
Proof.
  revert v. fix IH 1. intros [| |n|s|l|f]; cbn; try lia.
  - apply chars_count_nonneg.
  - pose proof (chars_count_nonneg s). lia.
  - induction l as [|v l IHl]; cbn; [lia|]. pose proof (IH v). lia.
  - induction f as [|[k v] f IHf]; cbn; [lia|]. pose proof (IH v). pose proof (chars_count_nonneg k). lia.
Qed.

Lemma assoc_set_weight k v f : weight (Object (assoc_set k v f)) ≤ weight (Object f) + entry_weight (k, v).
Proof.
  unfold entry_weight. cbn [fst snd]. induction f as [|[k' v'] f IH]; cbn [assoc_set]; [cbn; lia|].
  pose proof (weight_nonneg v'). pose proof (chars_count_nonneg k').
  destruct (String.compare k k'); cbn in *; lia.
Qed.

Lemma object_weight fields :
  weight (object_of fields) ≤ fold_right (λ kv n, match kv.2 with Some v => entry_weight (kv.1, v) | None => 0 end + n) 2 fields.
Proof.
  unfold object_of. assert (∀ f, weight (Object (foldl add_field f fields)) ≤ weight (Object f) +
    fold_right (λ kv n, match kv.2 with Some v => entry_weight (kv.1, v) | None => 0 end + n) 0 fields) as Hg.
  { induction fields as [|[k [v|]] fields IH]; intros f; cbn [foldl fold_right].
    - lia.
    - etrans; [apply IH|]. change (add_field f (k, Some v)) with (assoc_set k v f). pose proof (assoc_set_weight k v f). cbn. cbn in *. lia.
    - etrans; [apply IH|]. cbn. lia. }
  etrans; [apply Hg|]. assert (∀ n, fold_right (λ kv n, match kv.2 with Some v => entry_weight (kv.1, v) | None => 0 end + n) n fields
    = n + fold_right (λ kv n, match kv.2 with Some v => entry_weight (kv.1, v) | None => 0 end + n) 0 fields) as Hn.
  { clear Hg. intros n. induction fields as [|kv fields IH]; cbn; lia. }
  rewrite (Hn 2). cbn. lia.
Qed.

(** ** The smallest text *)

Lemma chars_count_length s : chars_count s ≤ Z.of_nat (String.length s).
Proof. induction s as [|c s IH]; [done|]. rewrite chars_count_cons. cbn [String.length]. destruct (starts_char c); lia. Qed.

(** An unsigned 64-bit number has twenty digits at most. *)
Lemma u64_digits n : fits_u64 n → chars_count (pretty n) ≤ 20.
Proof.
  intros [H0 H1]. etrans; [apply chars_count_length|]. destruct n as [|p|p]; [done| |lia].
  change (pretty (Z.pos p)) with (pretty (N.pos p)). unfold pretty, pretty_N. case_decide; [cbn; lia|].
  assert (String.length (pretty_N_go (N.pos p) EmptyString) ≤ 20 + String.length EmptyString)%nat as Hl.
  { apply (pretty_N_go_length 20). change (10 ^ 20)%N with 100000000000000000000%N. unfold u64_max in H1. lia. }
  change (String.length EmptyString) with O in Hl. lia.
Qed.

Ltac count_literals := repeat match goal with |- context [chars_count (String ?a ?b)] =>
  let n := eval vm_compute in (chars_count (String a b)) in change (chars_count (String a b)) with n end.

Lemma history_weight h : (∀ h', h = Some h' → fits_u64 (sh_latest_sequence h')) →
  weight (ser (bounded_subagent_history h)) ≤ 1200.
Proof.
  intros Hfit. destruct h as [h|]; [|cbn; lia]. specialize (Hfit h eq_refl). apply u64_digits in Hfit.
  change (ser (bounded_subagent_history (Some h))) with
    (ser_history (mkFactorySubagentHistory (sh_source h) (truncate_chars (sh_event_kind h) MAX_IDENTIFIER_CHARS) (sh_latest_sequence h))).
  unfold ser_history. etrans; [apply object_weight|]. cbn [fold_right fst snd]. unfold entry_weight. cbn [fst snd sh_source sh_event_kind
    sh_latest_sequence]. destruct (sh_source h). change (weight (ser CoordinatorJobEvents)) with (weight (Str "coordinator_job_events")).
  pose proof (truncated (sh_event_kind h) MAX_IDENTIFIER_CHARS ltac:(done)) as Ht.
  change (weight (ser ?x)) with (6 * chars_count x + 2). cbn [weight ser_u64 number_text]. count_literals.
  unfold MAX_IDENTIFIER_CHARS in *. lia.
Qed.

(** The numbers of a state are those of [u64] and [usize]. *)
Definition counts_fit (state : FactoryState) : Prop :=
  fits_u64 (fs_revision state) ∧ fits_u64 (len (fs_work_units state)) ∧ fits_u64 (len (fs_remediations state))
  ∧ fits_u64 (len (fs_subagents state)) ∧ (∀ r, fs_review state = Some r → fits_u64 (len (rr_findings r)))
  ∧ ∀ h, fs_subagent_history state = Some h → fits_u64 (sh_latest_sequence h).

Lemma u64_weight n : fits_u64 n → weight (ser_u64 n) ≤ 20.
Proof. intros Hn%u64_digits. exact Hn. Qed.

Lemma minimal_state_weight state : counts_fit state → weight (ser_context_state (minimal_context_state state)) ≤ 2600.
Proof.
  intros (Hr & Hw & Hm & Hs & Hf & Hh). unfold ser_context_state. etrans; [apply object_weight|].
  cbn [fold_right fst snd minimal_context_state cs_revision cs_work_units cs_review cs_remediations cs_subagents cs_subagent_history
    cs_omitted_work_units cs_omitted_findings cs_omitted_remediations cs_omitted_subagent_activities cs_review_omitted fmap list_fmap].
  unfold entry_weight. cbn [fst snd]. count_literals.
  pose proof (history_weight _ Hh). apply u64_weight in Hr, Hw, Hm, Hs.
  assert (weight (ser_u64 (match fs_review state with Some r => len (rr_findings r) | None => 0 end)) ≤ 20).
  { apply u64_weight. destruct (fs_review state); [auto|done]. }
  change (weight (ser (bool_decide _))) with 5. change (weight (ser (@None FactoryReviewReport))) with 4.
  change (weight (ser (@nil FactoryRemediationRecord))) with 2. change (weight (ser (@nil FactorySubagentActivity))) with 2.
  change (weight (Array [])) with 2. lia.
Qed.

Section fits.
Context `{JsonCodec} `{!JsonSize}.

Lemma minimal_fits thread_id durability state :
  chars_count thread_id ≤ 4096 → chars_count durability ≤ 14 → counts_fit state →
  chars_count (minimal_context_body thread_id durability state) ≤ MAX_CONTEXT_CHARS.
Proof.
  intros Ht Hd Hc. unfold minimal_context_body, context_body. etrans; [apply json_size|]. unfold ser_context_snapshot.
  etrans; [apply object_weight|]. cbn [fold_right fst snd]. unfold entry_weight. cbn [fst snd]. count_literals.
  pose proof (minimal_state_weight _ Hc).
  change (weight (ser "factory-native-extension")) with (weight (Str "factory-native-extension")).
  change (weight (ser ?x)) with (6 * chars_count x + 2). cbn [weight]. count_literals.
  unfold MAX_CONTEXT_CHARS. lia.
Qed.

(** One of the eight projections that fits, or the smallest text. *)
Definition shown_at (thread_id durability : string) (state : FactoryState) (body : string) : Prop :=
  (∃ item_limit text_limit, MIN_CONTEXT_ITEMS ≤ item_limit ≤ MAX_WORK_UNITS
     ∧ MIN_CONTEXT_FIELD_CHARS ≤ text_limit ≤ MAX_CONTEXT_FIELD_CHARS
     ∧ body = context_body thread_id durability (projected_context_state state item_limit text_limit)
     ∧ chars_count body ≤ MAX_CONTEXT_CHARS)
  ∨ body = minimal_context_body thread_id durability state.

Lemma context_round fuel thread_id durability state item_limit text_limit :
  MIN_CONTEXT_ITEMS ≤ item_limit ≤ MAX_WORK_UNITS → MIN_CONTEXT_FIELD_CHARS ≤ text_limit ≤ MAX_CONTEXT_FIELD_CHARS →
  (∃ body, context_rounds (S fuel) thread_id durability state item_limit text_limit = Some body
     ∧ shown_at thread_id durability state body)
  ∨ context_rounds (S fuel) thread_id durability state item_limit text_limit =
      (if MIN_CONTEXT_FIELD_CHARS <? text_limit then
         context_rounds fuel thread_id durability state item_limit (Z.max (text_limit / 2) MIN_CONTEXT_FIELD_CHARS)
       else context_rounds fuel thread_id durability state (Z.max (item_limit / 2) MIN_CONTEXT_ITEMS) text_limit).
Proof.
  intros Hi Ht. cbn [context_rounds]. cbv zeta. destruct (Z.leb_spec (chars_count (context_body thread_id durability
    (projected_context_state state item_limit text_limit))) MAX_CONTEXT_CHARS).
  - left. eexists. split; [done|]. left. by exists item_limit, text_limit.
  - destruct (MIN_CONTEXT_FIELD_CHARS <? text_limit); [by right|]. destruct (MIN_CONTEXT_ITEMS <? item_limit); [by right|].
    left. eexists. split; [done|]. by right.
Qed.

(** The rounds suffice. *)
Lemma context_shown thread_id durability state :
  ∃ body, context_rounds 8 thread_id durability state MAX_WORK_UNITS MAX_CONTEXT_FIELD_CHARS = Some body
    ∧ shown_at thread_id durability state body.
Proof.
  do 7 (match goal with |- context [context_rounds (S ?n) _ _ _ ?i ?t] =>
    destruct (context_round n thread_id durability state i t ltac:(done) ltac:(done)) as [?|Hn]; [done|rewrite Hn; clear Hn] end;
    match goal with |- context [if ?a <? ?b then _ else _] => let c := eval vm_compute in (a <? b) in change (a <? b) with c end;
    cbv iota; match goal with |- context [Z.max ?a ?b] => let c := eval vm_compute in (Z.max a b) in change (Z.max a b) with c end).
  cbn [context_rounds]. cbv zeta. destruct (Z.leb_spec (chars_count (context_body thread_id durability
    (projected_context_state state 4 128))) MAX_CONTEXT_CHARS).
  - eexists. split; [done|]. left. by exists 4, 128.
  - eexists. split; [done|]. by right.
Qed.
End fits.

(** ** What is selected *)

Lemma fill_spec n limit selected :
  NoDup selected → len selected ≤ limit →
  let filled := fill_from_end n limit selected in
  NoDup filled ∧ selected ⊆ filled ∧ (∀ i, i ∈ filled → i ∈ selected ∨ (i < n)%nat) ∧ len filled ≤ limit
  ∧ (len filled = limit ∨ ∀ i, (i < n)%nat → i ∈ filled) ∧ (len selected = limit → filled = selected).
Proof.
  revert selected. induction n as [|n IH]; intros selected Hnd Hl; cbn [fill_from_end].
  - split_and!; try done; [by left|right; lia].
  - destruct (Z.eqb_spec (len selected) limit) as [E|E]; [split_and!; try done; by left|].
    destruct (bool_decide_reflect (n ∈ selected)) as [Hin|Hin].
    + destruct (IH selected Hnd Hl) as (H1 & H2 & H3 & H4 & H5 & H6). split_and!; try done.
      * intros i [?|?]%H3; [by left|right; lia].
      * destruct H5 as [?|H5]; [by left|right]. intros i Hi. destruct (decide (i = n)) as [->|]; [by apply H2|apply H5; lia].
    + destruct (IH (selected ++ [n])) as (H1 & H2 & H3 & H4 & H5 & H6).
      { apply NoDup_app. split_and!; [done| |by apply NoDup_singleton]. intros x Hx ->%list_elem_of_singleton. done. }
      { unfold len in *. rewrite length_app. cbn. lia. }
      split_and!; try done.
      * intros i Hi. apply H2, elem_of_app. by left.
      * intros i [Hi|Hi]%H3; [|right; lia]. apply elem_of_app in Hi as [Hi| ->%list_elem_of_singleton]; [by left|right; lia].
      * destruct H5 as [?|H5]; [by left|right]. intros i Hi. destruct (decide (i = n)) as [->|]; [|apply H5; lia].
        apply H2, elem_of_app. right. by apply list_elem_of_singleton.
Qed.

(** Indices in order, all of the list, and as many as the limit allows. *)
Definition picks {A : Type} (l : list A) (limit : Z) (indices : list nat) : Prop :=
  Sorted Nat.le indices ∧ NoDup indices ∧ (∀ i, i ∈ indices → (i < length l)%nat) ∧ len indices = Z.min limit (len l).

Lemma picks_filled {A : Type} (l : list A) limit selected :
  NoDup selected → len selected ≤ limit → (∀ i, i ∈ selected → (i < length l)%nat) →
  picks l limit (sort_indices (fill_from_end (length l) limit selected)).
Proof.
  intros Hnd Hl Hlt. destruct (fill_spec (length l) limit selected Hnd Hl) as (H1 & H2 & H3 & H4 & H5 & _).
  pose proof (merge_sort_Permutation Nat.le (fill_from_end (length l) limit selected)) as Hp.
  assert (∀ i, i ∈ fill_from_end (length l) limit selected → (i < length l)%nat) as Hb by (intros i [?|?]%H3; auto).
  assert (length (fill_from_end (length l) limit selected) ≤ length l)%nat as Hle.
  { rewrite <- (length_seq (length l) 0) at 2. apply submseteq_length, NoDup_submseteq; [done|].
    intros i Hi%Hb. apply elem_of_seq. lia. }
  unfold sort_indices. split_and!.
  - apply Sorted_merge_sort. intros a b. unfold Nat.le. lia.
  - by rewrite Hp.
  - intros i Hi. apply Hb. by rewrite <- Hp.
  - unfold len in *. rewrite (Permutation_length Hp). destruct H5 as [?|H5]; [lia|].
    enough (length l ≤ length (fill_from_end (length l) limit selected))%nat by lia.
    rewrite <- (length_seq (length l) 0) at 1. apply submseteq_length, NoDup_submseteq; [apply NoDup_seq|].
    intros i Hi%elem_of_seq. apply H5. lia.
Qed.

Lemma picks_shown {A : Type} (l : list A) limit indices : picks l limit indices → len (omap (λ i, l !! i) indices) = len indices.
Proof.
  intros (_ & _ & Hlt & _). unfold len. f_equal. induction indices as [|i indices IH]; [done|]. cbn.
  destruct (lookup_lt_is_Some_2 l i) as [x ->]; [apply Hlt; set_solver|]. cbn. rewrite IH; [done|]. intros j Hj. apply Hlt. set_solver.
Qed.

(** What is shown and what is left out is everything. *)
Lemma picks_counted {A B : Type} (f : A → B) (l : list A) limit indices :
  picks l limit indices → len (f <$> omap (λ i, l !! i) indices) + minus (len l) (len (f <$> omap (λ i, l !! i) indices)) = len l.
Proof.
  intros Hp. pose proof (picks_shown _ _ _ Hp) as Hs. destruct Hp as (_ & _ & _ & Hl). unfold len, minus in *.
  rewrite length_fmap. lia.
Qed.

Lemma sort_indices_perm l : sort_indices l ≡ₚ l.
Proof. apply merge_sort_Permutation. Qed.

Lemma open_spec units i : i ∈ open_indices units ↔ ∃ u, units !! i = Some u ∧ wu_status u ≠ ProgressCompleted.
Proof.
  unfold open_indices. rewrite list_elem_of_In, filter_In, <- list_elem_of_In, elem_of_seq. unfold is_completed. split.
  - intros [_ Hc]. destruct (units !! i) as [u|]; [|done]. exists u. split; [done|]. by apply negb_true_iff, bool_decide_eq_false in Hc.
  - intros (u & Hu & Hs). pose proof (lookup_lt_Some _ _ _ Hu). rewrite Hu. split; [lia|]. by apply negb_true_iff, bool_decide_eq_false.
Qed.

Lemma open_sorted units : Sorted Nat.le (open_indices units) ∧ NoDup (open_indices units).
Proof.
  unfold open_indices. set (f := λ i, _). split.
  - apply StronglySorted_Sorted. assert (StronglySorted Nat.le (seq 0 (length units))) as Hs.
    { generalize 0%nat. induction (length units) as [|n IH]; intros m; cbn; constructor; [apply IH|].
      apply Forall_forall. intros x Hx%elem_of_seq. unfold Nat.le. lia. }
    induction Hs as [|x l Hl IH Hx]; cbn; [constructor|]. destruct (f x); [|done]. constructor; [done|].
    rewrite Forall_forall in Hx |- *. intros y Hy. apply Hx. apply list_elem_of_In, filter_In in Hy as [Hy _]. by apply list_elem_of_In.
  - apply NoDup_ListNoDup, List.NoDup_filter, NoDup_ListNoDup, NoDup_seq.
Qed.

(** Open units come first: all of them are shown, or nothing but the first. *)
Lemma selected_open units limit :
  0 ≤ limit →
  picks units limit (selected_units units limit)
  ∧ ((∀ i, i ∈ open_indices units → i ∈ selected_units units limit)
     ∨ selected_units units limit = take_items limit (open_indices units)).
Proof.
  intros Hl. destruct (open_sorted units) as [Hs Hnd]. unfold selected_units. set (first := take_items limit (open_indices units)).
  assert (NoDup first) as Hf by (eapply sublist_NoDup; [exact Hnd|apply sublist_take]).
  assert (len first ≤ limit) as Hlen by (unfold first, len, take_items; rewrite length_take; lia). split.
  - apply picks_filled; [done..|]. intros i Hi. assert (i ∈ open_indices units) as (u & Hu & _)%open_spec.
    { unfold first, take_items in Hi. eapply elem_of_take in Hi as (j & Hj & _). by eapply list_elem_of_lookup_2. }
    by eapply lookup_lt_Some.
  - destruct (fill_spec (length units) limit first Hf Hlen) as (_ & Hsub & _ & _ & _ & Hfull).
    destruct (decide (len (open_indices units) ≤ limit)) as [Hle|Hgt].
    + left. intros i Hi. rewrite sort_indices_perm. apply Hsub. unfold first, take_items.
      rewrite take_ge; [done|]. unfold len in Hle. lia.
    + right. rewrite Hfull by (unfold first, len, take_items in *; rewrite length_take; lia). unfold sort_indices.
      apply (Sorted_unique Nat.le); [apply Sorted_merge_sort; intros a b; unfold Nat.le; lia| |apply merge_sort_Permutation].
      apply StronglySorted_Sorted. apply Sorted_StronglySorted in Hs; [|intros a b c; unfold Nat.le; lia].
      unfold first, take_items. clear -Hs. generalize (Z.to_nat limit). induction Hs as [|x l Hl IH Hx]; intros [|n]; cbn; constructor; [done|].
      rewrite Forall_forall in Hx |- *. intros y Hy. apply Hx. eapply elem_of_take in Hy as (j & Hj & _). by eapply list_elem_of_lookup_2.
Qed.

(** The last activity of one of the agents it is about. *)
Definition latest_activity (activities : list FactorySubagentActivity) (i : nat) : Prop :=
  ∃ a t, activities !! i = Some a ∧ t ∈ sa_receiver_thread_ids a
    ∧ ∀ j b, (i < j)%nat → activities !! j = Some b → t ∉ sa_receiver_thread_ids b.

Lemma insert_new_spec ids seen current seen' :
  insert_new ids seen = (current, seen') →
  seen' ⊆ seen ∪ list_to_set ids ∧ (current = false → ∀ t, t ∈ ids → t ∈ seen).
Proof.
  revert current seen'. induction ids as [|id ids IH]; intros current seen'; cbn; [intros [= <- <-]; set_solver|].
  case_decide as Hin; [intros [H1 H2]%IH|intros [= <- <-]]; set_solver.
Qed.

Lemma latest_spec n activities limit seen selected :
  (n ≤ length activities)%nat → 0 < limit → NoDup selected → len selected < limit → (∀ i, i ∈ selected → (n ≤ i < length activities)%nat) →
  (∀ t, t ∈ seen → ∃ j b, (n ≤ j)%nat ∧ activities !! j = Some b ∧ t ∈ sa_receiver_thread_ids b) →
  let result := latest_activities n activities limit seen selected in
  NoDup result ∧ selected ⊆ result ∧ (∀ i, i ∈ result → (i < length activities)%nat) ∧ len result ≤ limit
  ∧ (len result = limit ∨ ∀ i, (i < n)%nat → latest_activity activities i → i ∈ result).
Proof.
  revert seen selected. induction n as [|n IH]; intros seen selected Hn Hlim Hnd Hlen Hsel Hseen; cbn [latest_activities].
  - split_and!; try done; [intros i Hi%Hsel; lia|lia|right; lia].
  - destruct (lookup_lt_is_Some_2 activities n) as [a Ha]; [lia|]. rewrite Ha.
    destruct (insert_new _ seen) as [current seen'] eqn:E. apply insert_new_spec in E as [Hs' Hno].
    assert (∀ t, t ∈ seen' → ∃ j b, (n ≤ j)%nat ∧ activities !! j = Some b ∧ t ∈ sa_receiver_thread_ids b) as Hseen'.
    { intros t [Ht|Ht%elem_of_list_to_set]%Hs'%elem_of_union; [|by exists n, a].
      destruct (Hseen t Ht) as (j & b & Hj & Hb). exists j, b. split; [lia|done]. }
    destruct current.
    + assert (NoDup (selected ++ [n])) as Hnd'.
      { apply NoDup_app. split_and!; [done| |by apply NoDup_singleton]. intros x Hx%Hsel ->%list_elem_of_singleton. lia. }
      assert (∀ i, i ∈ selected ++ [n] → (n ≤ i < length activities)%nat) as Hsel'.
      { intros i [Hi%Hsel| ->%list_elem_of_singleton]%elem_of_app; lia. }
      assert (len (selected ++ [n]) = len selected + 1) as Hl' by (unfold len; rewrite length_app; cbn; lia).
      destruct (Z.eqb_spec (len (selected ++ [n])) limit) as [El|El].
      { split_and!; [done|set_solver|intros i Hi%Hsel'; lia|lia|by left]. }
      destruct (IH seen' (selected ++ [n])) as (H1 & H2 & H3 & H4 & H5); try done; try lia.
      split_and!; try done; [set_solver|]. destruct H5 as [?|H5]; [by left|right]. intros i Hi Hlat.
      destruct (decide (i = n)) as [->|]; [apply H2; set_solver|apply H5; [lia|done]].
    + destruct (IH seen' selected) as (H1 & H2 & H3 & H4 & H5); try done; try lia.
      { intros i Hi%Hsel. lia. }
      split_and!; try done. destruct H5 as [?|H5]; [by left|right]. intros i Hi Hlat.
      destruct (decide (i = n)) as [->|]; [|apply H5; [lia|done]]. exfalso. destruct Hlat as (a' & t & Ha' & Ht & Hlate).
      rewrite Ha in Ha'. injection Ha' as <-. destruct (Hseen t (Hno eq_refl t Ht)) as (j & b & Hj & Hb & Htb).
      eapply Hlate; [|exact Hb|exact Htb]. lia.
Qed.

Lemma selected_latest activities limit :
  0 < limit →
  picks activities limit (selected_activities activities limit)
  ∧ (len (latest_activities (length activities) activities limit ∅ []) = limit
     ∨ ∀ i, latest_activity activities i → i ∈ selected_activities activities limit).
Proof.
  intros Hl. destruct (latest_spec (length activities) activities limit ∅ []) as (H1 & H2 & H3 & H4 & H5);
    [lia|lia|apply NoDup_nil_2|unfold len; cbn; lia|set_solver|set_solver|]. unfold selected_activities. split; [by apply picks_filled|].
  destruct H5 as [?|H5]; [by left|right]. intros i Hi. rewrite sort_indices_perm.
  destruct (fill_spec (length activities) limit _ H1 H4) as (_ & Hsub & _). apply Hsub, H5; [|done].
  destruct Hi as (a & t & Ha & _). by eapply lookup_lt_Some.
Qed.

(** ** The theorems *)

(** C39: The state always fits into the prompt.  For a thread whose identifier has at
    most 4096 characters the text has at most 32768 characters, whatever the state
    holds, provided JSON text writes a character with six at most.  It is found
    within the eight rounds: the projection to the largest limits that fits, or the
    smallest text. *)
Theorem context_fits `{JsonCodec} `{!JsonSize} thread_id durability state :
  chars_count thread_id ≤ 4096 → durability ∈ ["process_memory"; "durable"] → counts_fit state →
  let body := bounded_context_body thread_id durability state in
  chars_count body ≤ MAX_CONTEXT_CHARS ∧ shown_at thread_id durability state body
  ∧ context_rounds 8 thread_id durability state MAX_WORK_UNITS MAX_CONTEXT_FIELD_CHARS = Some body.
Proof.
  intros Ht Hd Hc. destruct (context_shown thread_id durability state) as (body & Hb & Hs).
  cbn zeta. unfold bounded_context_body. rewrite Hb. cbn [default]. split_and!; [|done|done].
  destruct Hs as [(item & text & _ & _ & _ & Hfit)| ->]; [done|]. apply minimal_fits; [done| |done].
  rewrite !elem_of_cons, elem_of_nil in Hd. destruct Hd as [->|[->|[]]]; by vm_compute.
Qed.


(** ** A writer of compact JSON *)

Definition hex (n : nat) : ascii := ascii_of_nat (if (n <? 10)%nat then n + 48 else n + 87).

Definition escape (c : ascii) : string :=
  match nat_of_ascii c with
  | 34%nat => "\" +:+ QUOTE
  | 92%nat => "\\"
  | 8%nat => "\b" | 9%nat => "\t" | 10%nat => "\n" | 12%nat => "\f" | 13%nat => "\r"
  | n => if (n <? 32)%nat then "\u00" +:+ String (hex (n / 16)) (String (hex (n mod 16)) EmptyString)
         else String c EmptyString
  end.

Fixpoint escaped (s : string) : string := match s with EmptyString => EmptyString | String c r => escape c +:+ escaped r end.

Definition quoted_json (s : string) : string := QUOTE +:+ escaped s +:+ QUOTE.

Fixpoint compact_json (v : Value) : string :=
  match v with
  | Null => "null"
  | Bool b => if b then "true" else "false"
  | Num n => number_text n
  | Str s => quoted_json s
  | Array l => "[" +:+ String.concat "," (List.map compact_json l) +:+ "]"
  | Object f => "{" +:+ String.concat "," (List.map (λ kv, quoted_json kv.1 +:+ ":" +:+ compact_json kv.2) f) +:+ "}"
  end.

#[export] Instance compact_codec : JsonCodec := {| json_text := compact_json; json_parse _ := Err "not read here" |}.

Lemma escape_count c : chars_count (escape c) ≤ if starts_char c then 6 else 0.
Proof. destruct c as [[] [] [] [] [] [] [] []]; by vm_compute. Qed.

Lemma quoted_json_count s : chars_count (quoted_json s) ≤ 6 * chars_count s + 2.
Proof.
  unfold quoted_json. rewrite !chars_count_app. change (chars_count QUOTE) with 1.
  enough (chars_count (escaped s) ≤ 6 * chars_count s) by lia.
  induction s as [|c s IH]; [done|]. cbn [escaped]. rewrite chars_count_app, chars_count_cons.
  pose proof (escape_count c). destruct (starts_char c); lia.
Qed.

Lemma concat_count l : chars_count (String.concat "," l) ≤ fold_right (λ s n, chars_count s + 1 + n) 0 l.
Proof.
  induction l as [|a l IH]; [done|]. destruct l as [|b l].
  - change (String.concat "," [a]) with a. cbn. lia.
  - change (String.concat "," (a :: b :: l)) with (a +:+ "," +:+ String.concat "," (b :: l)). rewrite !chars_count_app.
    change (chars_count ",") with 1. cbn [fold_right] in *. lia.
Qed.

#[export] Instance compact_size : JsonSize.
Proof.
  intros v. change (json_text v) with (compact_json v). revert v. fix IH 1. intros [|[]|n|s|l|f]; [by vm_compute..| | | |].
  - done.
  - apply quoted_json_count.
  - cbn [compact_json weight]. rewrite !chars_count_app. change (chars_count "[") with 1. change (chars_count "]") with 1.
    pose proof (concat_count (List.map compact_json l)) as Hc.
    enough (fold_right (λ s n, chars_count s + 1 + n) 0 (List.map compact_json l) + 2 ≤ fold_right (λ v n, weight v + 1 + n) 2 l) by lia.
    clear Hc. induction l as [|v l IHl]; cbn; [lia|]. pose proof (IH v). lia.
  - cbn [compact_json weight]. rewrite !chars_count_app. change (chars_count "{") with 1. change (chars_count "}") with 1.
    pose proof (concat_count (List.map (λ kv, quoted_json kv.1 +:+ ":" +:+ compact_json kv.2) f)) as Hc.
    enough (fold_right (λ s n, chars_count s + 1 + n) 0 (List.map (λ kv, quoted_json kv.1 +:+ ":" +:+ compact_json kv.2) f) + 2
      ≤ fold_right (λ kv n, 6 * chars_count kv.1 + 3 + (weight kv.2 + 1) + n) 2 f) by lia.
    clear Hc. induction f as [|[k v] f IHf]; cbn [List.map fold_right fst snd]; [lia|]. rewrite !chars_count_app.
    change (chars_count ":") with 1. pose proof (IH v). pose proof (quoted_json_count k). lia.
Qed.

Definition demo_unit (id : string) (status : FactoryProgressStatus) : FactoryWorkUnit :=
  mkFactoryWorkUnit id "title" "description" [] status None.

(** Six units, four of them open, and a history with a long name. *)
Definition demo_context_state : FactoryState :=
  mkFactoryState 7 [demo_unit "a" ProgressCompleted; demo_unit "b" ProgressPending; demo_unit "c" ProgressCompleted;
    demo_unit "d" ProgressPending; demo_unit "e" ProgressPending; demo_unit "f" ProgressPending] None [] [] []
    (Some (mkFactorySubagentHistory CoordinatorJobEvents (String.concat EmptyString (replicate 200 "event")) 99)) None.

Lemma context_fits_witness :
  let body := bounded_context_body "thread" "durable" demo_context_state in
  chars_count body ≤ MAX_CONTEXT_CHARS ∧ chars_count body = 1198.
Proof.
  split; [|by vm_compute]. apply (context_fits "thread" "durable" demo_context_state).
  - by vm_compute.
  - set_solver.
  - split_and!; [by vm_compute..| |]; [done|]. intros h E.
    apply (f_equal (from_option sh_latest_sequence 0)) in E. cbn [demo_context_state fs_subagent_history from_option sh_latest_sequence] in E.
    rewrite <- E. by vm_compute.
Defined.

